(* ===== verification/_CoqProject ===== *)
-Q . S2P
Prelude.v
SortedSlice.v
GoSet.v
Keys.v
Strconv.v
Base64.v
Sha256.v
Paths.v
ObjAttrs.v
ContentStamp.v
BitIO.v
IndexV2.v
ModuleIndex.v
Lru.v
MemoCache.v
MemLimit.v
Churn.v
Counter.v
HashSet.v
Gbci.v
Index.v
Nearby.v
HaveFilter.v
SlotQueue.v
Storage.v
Eviction.v
Bandwidth.v
ParMap.v
ClientIndex.v
DiskCache.v
Handlers.v
Batch.v
Server.v
Skips.v
Config.v
Retry.v
Archive.v
Pkgbits.v
WebGet.v
Upload.v
RoundTrip.v
Broker.v
BrokerOwner.v
PendingFetch.v
Manifest.v
Tier.v
LookAhead.v
CacheVersion.v
Coalescer.v
Handoff.v
