(* ===== verification/Prelude.v ===== *)
(** * go-s3-server: a shared build cache, verified

    The program is an HTTP server ([src/*.go], package [main]) that stores the
    outputs of Go builds under keys "go-buildcache/v1<64 hex digits>", and the client
    ([src/cacheclient]) that go commands use to reach it.  A key names an action;
    an object is a file with its metadata in an extended attribute.  The server
    advertises the keys it holds in one index blob, so a client asks only for
    what is there; it evicts by last use, checks every body against a digest
    before it serves it, and bounds the requests at work.

    ** Files

    Shared ground: [Prelude] (this file: bytes, tactics, hint databases, list
    and integer lemmas), [SortedSlice] (sorted deduplicated slices), [GoSet]
    (the interface of the set package, which is not in the repository: a class
    with its documented laws), [Strconv] (decimal text), [Base64], [Sha256].

    Server, from the bottom up:
    - [Keys]: [compactkey.go], keys and action hashes of [index.go];
    - [Paths]: where [storage.go] puts a key, and back;
    - [ObjAttrs]: [storage_unix.go], the packed attribute and what is dropped
      when it does not fit;
    - [ContentStamp]: [codec.go], [contentstamp.go];
    - [ModuleIndex]: [modindex.go] (detection), [lz4head.go];
    - [BitIO], [IndexV2], [Gbci]: the index formats, writer of the server
      ([indexv2.go], [indexdelta.go]) and reader of the client
      ([cacheclient/indexv2.go], [web_index.go]);
    - [Lru], [MemoCache]: [lrucache.go] with the aliasing of list and map, and
      the promise its users rely on, as a class the LRU is an instance of;
    - [Index], [Nearby], [HaveFilter]: [index.go], [indexdelta.go],
      [havefilter.go] of both sides;
    - [SlotQueue]: [admit.go] with the requests around it as a step relation;
    - [Storage]: [storage.go], [metacache.go], [storeddigest.go],
      [cleanmemo.go], [digestmemo.go], [selfheal.go]; the record [Storage] holds
      the files, the index and every in-memory cache;
    - [Eviction]: [eviction.go], [atime.go];
    - [Bandwidth]: [bandwidth.go]; [ParMap]: [parmap.go] as a step relation;
    - [Handlers]: [handlers.go] and the read guards of [modindex.go];
    - [Batch]: [batch.go]; [Server]: [server.go], [auth.go];
    - [Config]: [config.go] and the flags of [main.go];
    - [CacheVersion]: [cacheversion.go] and the start of [storage.go];
    - [MemLimit]: [memlimit.go], with a model of [float64];
    - [Churn]: [churn.go], [projectmetrics.go];
    - [Skips]: [skips.go] with the client's [skipreport.go].

    Client: [HashSet] ([hashset.go], [indexkey.go]), [ClientIndex] (the live key
    set, its loads, deltas and disk copy: [web_index*.go], parts of [web.go],
    [webget.go], [webput.go]), [DiskCache] ([cachedisk/diskcache.go]), [Retry]
    ([web_resilience.go]), [Archive] (ar members and build ids: [archive.go],
    [buildid.go]), [Pkgbits] (the package labels read out of export data:
    [archive.go], [compress.go], part of [webput.go]), [WebGet] (a batch of lookups and the gates of a body:
    [batch.go], [webget.go]), [Upload] ([webput.go], [batchput.go],
    [handoff.go]), [RoundTrip] (the headers of an upload, and a build's uploads
    through the server into another build: [webput.go] over [Batch] and
    [WebGet]), [Broker] (one process asks another: [brokerwire.go],
    [brokerflight.go], [brokerchild.go]), [BrokerOwner] (what the owner answers
    and the child makes of it: [brokerowner.go], [brokerchild.go]), [PendingFetch] and [Manifest] (what
    the last build used, fetched ahead: [manifest.go], [manifest_fallback.go]),
    [Tier] (the disk over the shared store: [storetier.go], [batch_prefetch.go],
    parts of [web.go]), [LookAhead] ([lookahead.go] and the judge of
    [manifest_fallback.go]), [Coalescer] (the channels an upload and a lookup go
    through, and the order in which they are stopped: [prep.go], [batchput.go],
    [batch.go]), [Handoff] (uploads that outlive the build: [handoff.go]),
    [Counter] (lock-free counters: [counter.go]).

    ** How the code is read

    A byte is a [Z], a string or slice a list of bytes; integers keep their width
    ([u8], [u32], [u64], [i64]) where the code depends on it.  A method is a
    function from the state it reads to its results and the state it leaves;
    what another goroutine can see in between is a step relation.  The outcome
    of a system call that the code tests is a field of an environment record or
    a step of its own.  Not every failure is covered: the read of an attribute
    that is there succeeds ([XattrLaws]); a theorem that needs more, as that the
    Stat of an object works or that one writer writes an output at a time, says
    so.  What a failing removal leaves behind is part of the statement where a
    file is meant to go.  Clocks, random epochs and the order of a
    map range are arguments.  Code that is not in the repository (set package,
    decoders, extended-attribute calls) is a class of operations; what is
    relied on are its laws, and each has an instance the witnesses run.
    Requests are one at a time over [Storage], except where interleaving is the
    point: [SlotQueue], [ParMap], the flush of [Eviction], [DiskCache], the
    breaker of [Retry], [Upload], [Broker], [PendingFetch], [Tier], [LookAhead],
    [Coalescer], [Handoff], [Skips] and [Counter], the last two down to single
    atomic operations.
    Loops that are not structural carry fuel and a lemma that it is enough:
    the file comparison (the length), the prefetch walk (the window), the bit
    readers (the bits), the text scanners (the length), the search for the
    newest manifest (the logarithm of its bound), the relocations of an
    element and the lines of an archive header (the bytes left), decimal text
    (twenty digits).

    ** What the theorems show

    - The store: an upload is all or nothing, a temporary file staying behind
      only when its removal fails, and reads back as the bytes sent; write-once
      keeps what it has while the object can be looked at; a repaired output id is the content address;
      the metadata cache is invisible.
    - Serving: over any history of requests, sweeps, restarts and bodies going
      bad on disk, a hit, single or in a batch, carries a body whose digest is
      that of an upload for the very key, with its metadata, unless it went bad
      under a remembered verdict, and then the recorded output id goes with it
      for the client to check; batches are single
      requests in a row; no handler runs without configured credentials.
    - From build to build: what one client uploads, another that asks for the
      action gets, and no gate of the client refuses what the server sends.
    - The index: a client that syncs by blob, delta or ETag holds exactly the
      advertised set, up to the width of the prefixes; what is advertised is stored, through uploads, deletions,
      repairs and sweeps; each format reads back what was written; claims made
      during a load survive it; the stored position matches the stored copy.
    - Eviction removes exactly what was used before one cutoff and what could be
      looked at and removed, no more than is needed, and never what was written
      after the walk.
    - The caches and sets refine maps and sets; slots are conserved and handed
      over in order; the worker pool is linear and ends; the bandwidth chart is
      exact; the client's disk cache hands out complete files only; its retries
      are bounded and its probes of a dead server spaced.
    - Memory: budgets follow the scale within bounds, and pressure and relief
      both take effect in bounded time, whatever the rounding.
    - The client's traffic: every lookup of a batch is answered once and only
      with a body that passes every gate; every upload is under way, answered or
      counted as failed, and no key stays claimed for one that failed; simultaneous asks share one lookup and every ask over
      the broker's link ends; a process behind the broker works with its owner's
      cache as if it had opened it; the manifest a build leaves fits the next one, and
      fetching it ahead asks for no fetch a lookup took over, the fallback
      apart, and leaves no lookup waiting; what is fetched on a guess stays in proportion to its use; closing
      ends and ships what was accepted, lookups never wait for a timer and are
      lost only to a later one of the same key in their batch, and a spool is
      tried out or still there whoever dies.
    - The two tiers together: whatever runs beside it, a lookup answers with a
      body stored for its very action or one that passed the gates for it.
    - The start: a server serves files of its own version only, and an accepted
      configuration meets what every component assumes; sizes are read exactly.
    - What the operator sees: a skip is counted once whatever the network loses
      but an answer; packages stored again are classified against the object
      before; statistics gathered by many goroutines end and are exact.
    - Export data: labels laid out by the compiler are read as written when it
      wrote no sync markers and as none when it did, and the elements on which the reader panics are characterised.

    ** Not modelled

    The pages and log lines built from the counts, and the Prometheus library;
    the JSON and duration decoders, whose results are arguments; tar, zstd and
    lz4, which are interfaces with their documented laws; the wiring of the two
    processes, connection timers, sockets and the operating system's file locks;
    the Windows form of the attributes (JSON files beside the object).  Of the
    client: its timers, the processes it spawns, its environment settings and the
    summary it prints. *)

From Stdlib Require Import ZArith Lia List Sorted Permutation String Ascii Bool.
From stdpp Require Import base gmap list sorting strings.

#[global] Open Scope Z_scope.

(** ** Notation scope, tactics and hint databases *)

Declare Scope go_scope.
Delimit Scope go_scope with go.

Create HintDb goarith.
Create HintDb golist.
Create HintDb gocache.

(** A byte is a [Z]; a Go string or []byte is a list of bytes. *)
Abbreviation bytes := (list Z).

(** Case analysis on the scrutinee of the first [match]/[if] of the goal. *)
Ltac case_goal :=
  match goal with
  | |- context [match ?x with _ => _ end] => destruct x eqn:?
  end.

(** The same on a hypothesis. *)
Ltac case_in H :=
  match type of H with
  | context [match ?x with _ => _ end] => destruct x eqn:?
  end.

(** Turn boolean tests on [Z] and [nat] in hypotheses into propositions. *)
Ltac bool2prop :=
  repeat match goal with
  | H : (_ && _)%bool = true |- _ => apply andb_true_iff in H; destruct H
  | H : (_ || _)%bool = false |- _ => apply orb_false_iff in H; destruct H
  | H : negb _ = true |- _ => apply negb_true_iff in H
  | H : negb _ = false |- _ => apply negb_false_iff in H
  | H : (_ =? _)%Z = true |- _ => apply Z.eqb_eq in H
  | H : (_ =? _)%Z = false |- _ => apply Z.eqb_neq in H
  | H : (_ <=? _)%Z = true |- _ => apply Z.leb_le in H
  | H : (_ <=? _)%Z = false |- _ => apply Z.leb_gt in H
  | H : (_ <? _)%Z = true |- _ => apply Z.ltb_lt in H
  | H : (_ <? _)%Z = false |- _ => apply Z.ltb_ge in H
  | H : (_ =? _)%nat = true |- _ => apply Nat.eqb_eq in H
  | H : (_ =? _)%nat = false |- _ => apply Nat.eqb_neq in H
  | H : (_ <=? _)%nat = true |- _ => apply Nat.leb_le in H
  | H : (_ <=? _)%nat = false |- _ => apply Nat.leb_gt in H
  | H : (_ <? _)%nat = true |- _ => apply Nat.ltb_lt in H
  | H : (_ <? _)%nat = false |- _ => apply Nat.ltb_ge in H
  | H : bool_decide _ = true |- _ => apply bool_decide_eq_true in H
  | H : bool_decide _ = false |- _ => apply bool_decide_eq_false in H
  end.

(** ** Machine integers *)

Definition u64 (x : Z) : Z := x mod 2 ^ 64.
Definition u32 (x : Z) : Z := x mod 2 ^ 32.
Definition u8 (x : Z) : Z := x mod 2 ^ 8.

(** Two's complement wrap-around of Go's [int64]. *)
Definition i64 (x : Z) : Z := (x + 2 ^ 63) mod 2 ^ 64 - 2 ^ 63.

Definition is_u64 (x : Z) : Prop := 0 <= x < 2 ^ 64.
Definition is_byte (x : Z) : Prop := 0 <= x < 2 ^ 8.

Lemma u64_small x : is_u64 x -> u64 x = x.
Proof. unfold is_u64, u64. intros. by apply Z.mod_small. Qed.

Lemma u64_range x : is_u64 (u64 x).
Proof. apply Z.mod_pos_bound. lia. Qed.

Lemma u32_small x : 0 <= x < 2 ^ 32 -> u32 x = x.
Proof. unfold u32. intros. by apply Z.mod_small. Qed.

Lemma u32_range x : 0 <= u32 x < 2 ^ 32.
Proof. apply Z.mod_pos_bound. lia. Qed.

Lemma u8_small x : is_byte x -> u8 x = x.
Proof. unfold is_byte, u8. intros. by apply Z.mod_small. Qed.

Lemma u8_range x : is_byte (u8 x).
Proof. apply Z.mod_pos_bound. lia. Qed.

Lemma i64_small x : - 2 ^ 63 <= x < 2 ^ 63 -> i64 x = x.
Proof. unfold i64. intros. rewrite Z.mod_small; lia. Qed.

#[export] Hint Resolve u64_range u32_range u8_range : goarith.

(** ** Strings *)

(** The bytes of a Go string literal. *)
Definition str (s : string) : bytes :=
  map (fun c => Z.of_nat (nat_of_ascii c)) (list_ascii_of_string s).

(** [==] on Go strings and fixed-size arrays. *)
Definition bytes_eqb (a b : bytes) : bool := bool_decide (a = b).

Lemma bytes_eqb_eq a b : bytes_eqb a b = true <-> a = b.
Proof. apply bool_decide_eq_true. Qed.

Lemma bytes_eqb_refl a : bytes_eqb a a = true.
Proof. by apply bytes_eqb_eq. Qed.

(** [strings.HasPrefix] and [bytes.HasPrefix]. *)
Fixpoint has_prefix (s p : bytes) {struct p} : bool :=
  match p, s with
  | [], _ => true
  | c :: p', d :: s' => (c =? d) && has_prefix s' p'
  | _ :: _, [] => false
  end.

Lemma has_prefix_spec s p : has_prefix s p = true <-> exists t, s = p ++ t.
Proof.
  revert s; induction p as [|c p IH]; intros s; simpl.
  - split; [intros _; by exists s|done].
  - destruct s as [|d s]; [split; [done|intros [t Ht]; done]|].
    rewrite andb_true_iff, Z.eqb_eq, IH. split.
    + intros [-> [t ->]]. by exists t.
    + intros [t Ht]. simplify_eq. eauto.
Qed.

Lemma has_prefix_app p t : has_prefix (p ++ t) p = true.
Proof. apply has_prefix_spec; eauto. Qed.

(** [strings.TrimPrefix]. *)
Definition trim_prefix (s p : bytes) : bytes :=
  if has_prefix s p then drop (length p) s else s.

(** ** Total orders: what the sorted slices of server and client share *)

Class TotalCmp (A : Type) := {
  cmp : A -> A -> comparison;
  cmp_eq : forall x y, cmp x y = Eq <-> x = y;
  cmp_antisym : forall x y, cmp y x = CompOpp (cmp x y);
  cmp_lt_trans : forall x y z, cmp x y = Lt -> cmp y z = Lt -> cmp x z = Lt
}.

(** [bytes.Compare]: lexicographic. *)
Fixpoint bytes_compare (a b : bytes) : comparison :=
  match a, b with
  | [], [] => Eq
  | [], _ :: _ => Lt
  | _ :: _, [] => Gt
  | x :: a', y :: b' =>
      match x ?= y with
      | Eq => bytes_compare a' b'
      | c => c
      end
  end.

Lemma bytes_compare_eq a b : bytes_compare a b = Eq <-> a = b.
Proof.
  revert b; induction a as [|x a IH]; intros [|y b]; simpl; try done.
  destruct (x ?= y) eqn:E.
  - apply Z.compare_eq in E as ->. rewrite IH. split; congruence.
  - split; [done|]. intros [= -> ->]. by rewrite Z.compare_refl in E.
  - split; [done|]. intros [= -> ->]. by rewrite Z.compare_refl in E.
Qed.

Lemma bytes_compare_antisym a b : bytes_compare b a = CompOpp (bytes_compare a b).
Proof.
  revert b; induction a as [|x a IH]; intros [|y b]; simpl; try done.
  rewrite (Z.compare_antisym x y). destruct (x ?= y); simpl; auto.
Qed.

Lemma bytes_compare_lt_trans a b c :
  bytes_compare a b = Lt -> bytes_compare b c = Lt -> bytes_compare a c = Lt.
Proof.
  revert b c; induction a as [|x a IH]; intros [|y b] [|z c]; simpl; try done.
  destruct (Z.compare_spec x y); destruct (Z.compare_spec y z); intros H1 H2; try done; subst.
  - rewrite Z.compare_refl. eauto.
  - by apply Z.compare_lt_iff in H0 as ->.
  - by apply Z.compare_lt_iff in H as ->.
  - assert (x < z) as ->%Z.compare_lt_iff by lia. done.
Qed.

#[export] Instance bytes_total_cmp : TotalCmp bytes := {|
  cmp := bytes_compare;
  cmp_eq := bytes_compare_eq;
  cmp_antisym := bytes_compare_antisym;
  cmp_lt_trans := bytes_compare_lt_trans
|}.

Lemma Zcompare_lt_trans' x y z : (x ?= y) = Lt -> (y ?= z) = Lt -> (x ?= z) = Lt.
Proof. rewrite !Z.compare_lt_iff. lia. Qed.

#[export] Instance Z_total_cmp : TotalCmp Z := {|
  cmp := Z.compare;
  cmp_eq := Z.compare_eq_iff;
  cmp_antisym := Z.compare_antisym;
  cmp_lt_trans := Zcompare_lt_trans'
|}.

(** ** Lists *)

Lemma Forall_filter_keep {A} (P Q : A -> Prop) `{!forall x, Decision (Q x)} (l : list A) :
  Forall P l -> Forall P (filter Q l).
Proof. rewrite !Forall_forall. intros HP x [_ Hx]%list_elem_of_filter. auto. Qed.

#[export] Hint Resolve Forall_filter_keep : golist.

(** ** Sublists *)

Lemma sublist_map {A B} (f : A -> B) (l k : list A) : sublist l k -> sublist (map f l) (map f k).
Proof. induction 1; cbn [map]; by constructor. Qed.

Lemma Forall_sublist {A} (P : A -> Prop) (l k : list A) : sublist l k -> Forall P k -> Forall P l.
Proof.
  induction 1 as [|x l k _ IH|x l k _ IH]; intros HP; [done| |]; apply Forall_cons in HP as [? ?]; [constructor|]; auto.
Qed.
