(* ===== verification/SortedSlice.v ===== *)
(** * Sorted slices

    The sorted, deduplicated slices that the server's index ([index.go]) and
    the client's key set ([cacheclient/hashset.go]) both keep: Go's
    [sort.Search], [slices.BinarySearchFunc], [sort.Slice] on a total order,
    the dedupe loop of [sortDedupeHashes] / [slices.Compact] and the two-finger
    merge of [mergeSortedHashes].  Everything is generic in an element type
    with a [TotalCmp] instance; strictly sorted lists are canonical
    ([ssorted_unique]), which is what lets every optimised routine be compared
    with its set-level meaning. *)

From Stdlib Require Import ZArith Lia List Sorted Permutation Bool.
From stdpp Require Import base list sorting gmap.
From S2P Require Import Prelude.

(** ** Binary search *)

(** Go's [sort.Search]: the loop [for i < j { h := (i+j)>>1; ... }]. Each round
    shrinks [j - i], so [n] rounds of fuel are enough ([sort_Search_spec]). *)
Fixpoint search_loop (fuel : nat) (f : nat -> bool) (i j : nat) : nat :=
  match fuel with
  | O => i
  | S fuel' =>
      if (i <? j)%nat then
        let h := ((i + j) / 2)%nat in
        if f h then search_loop fuel' f i h else search_loop fuel' f (h + 1)%nat j
      else i
  end.

Definition sort_Search (n : nat) (f : nat -> bool) : nat := search_loop n f 0 n.

Lemma search_loop_spec fuel f n : forall i j,
  (j - i <= fuel)%nat -> (i <= j <= n)%nat ->
  (forall a b, (a <= b < n)%nat -> f a = true -> f b = true) ->
  (forall k, (k < i)%nat -> f k = false) ->
  (forall k, (j <= k < n)%nat -> f k = true) ->
  let r := search_loop fuel f i j in
  (i <= r <= j)%nat /\ (forall k, (k < r)%nat -> f k = false) /\
  (forall k, (r <= k < n)%nat -> f k = true).
Proof.
  induction fuel as [|fuel IH]; intros i j Hf Hij Hmono Hlo Hhi; cbn [search_loop].
  - assert (i = j) as -> by lia. split_and!; done || lia.
  - destruct (i <? j)%nat eqn:E; bool2prop.
    2:{ assert (i = j) as -> by lia. split_and!; done || lia. }
    set (h := ((i + j) / 2)%nat).
    assert (i <= h < j)%nat as Hh.
    { subst h. split; [apply Nat.div_le_lower_bound|apply Nat.Div0.div_lt_upper_bound]; lia. }
    destruct (f h) eqn:Eh.
    + destruct (IH i h) as (? & ? & ?); try done; try lia.
      { intros k Hk. apply (Hmono h k); [lia|done]. }
      split_and!; done || lia.
    + destruct (IH (h + 1)%nat j) as (? & ? & ?); try done; try lia.
      { intros k Hk. destruct (f k) eqn:Ek; [|done].
        rewrite (Hmono k h) in Eh; [done|lia|done]. }
      split_and!; done || lia.
Qed.

(** On a predicate that switches once from false to true, [sort_Search]
    returns the switching point. *)
Lemma sort_Search_spec n f :
  (forall a b, (a <= b < n)%nat -> f a = true -> f b = true) ->
  let r := sort_Search n f in
  (r <= n)%nat /\ (forall k, (k < r)%nat -> f k = false) /\
  (forall k, (r <= k < n)%nat -> f k = true).
Proof.
  intros Hm. destruct (search_loop_spec n f n 0 n) as (? & ? & ?); try done; try lia.
  unfold sort_Search. split_and!; done || lia.
Qed.

Section slices.
Context {A : Type} `{!EqDecision A} `{!TotalCmp A}.
Implicit Types (x y z : A) (l a b s : list A).

Definition lt (x y : A) : Prop := cmp x y = Lt.
Definition le (x y : A) : Prop := cmp x y <> Gt.

#[global] Instance lt_dec : RelDecision lt.
Proof. intros x y. unfold lt. apply _. Defined.
#[global] Instance le_dec : RelDecision le.
Proof. intros x y. unfold le. apply _. Defined.

Lemma cmp_refl x : cmp x x = Eq.
Proof. by apply cmp_eq. Qed.

Lemma cmp_gt_lt x y : cmp x y = Gt <-> lt y x.
Proof. unfold lt. rewrite (cmp_antisym x y). destruct (cmp x y); simpl; naive_solver. Qed.

Lemma lt_irrefl x : ~ lt x x.
Proof. unfold lt. by rewrite cmp_refl. Qed.

Lemma le_lt_eq x y : le x y <-> lt x y \/ x = y.
Proof.
  unfold le, lt. destruct (cmp x y) eqn:E; split; intros H; try done; auto.
  - right. by apply cmp_eq.
  - destruct H as [| ->]; [done|]. by rewrite cmp_refl in E.
Qed.

Lemma not_lt_le x y : ~ lt x y <-> le y x.
Proof. unfold lt, le. rewrite (cmp_antisym x y). destruct (cmp x y); simpl; naive_solver. Qed.

#[global] Instance lt_trans : Transitive lt.
Proof. intros x y z. apply cmp_lt_trans. Qed.
#[global] Instance le_trans : Transitive le.
Proof.
  intros x y z. rewrite !le_lt_eq. intros [H1|H1] [H2|H2]; subst; auto. left. by etrans.
Qed.
#[global] Instance le_total : Total le.
Proof. intros x y. unfold le. rewrite (cmp_antisym x y). destruct (cmp x y); naive_solver. Qed.
#[global] Instance le_antisymm : AntiSymm (=) le.
Proof.
  intros x y. rewrite !le_lt_eq. intros [H1|?] [H2|?]; try done.
  exfalso. by apply (lt_irrefl x), (lt_trans x y x).
Qed.

(** Ascending and deduplicated. *)
Abbreviation ssorted := (StronglySorted lt).

Lemma ssorted_cons_inv x l : ssorted (x :: l) -> ssorted l /\ forall y, y ∈ l -> lt x y.
Proof. intros H. inversion_clear H. rewrite Forall_forall in *. auto. Qed.

Lemma ssorted_notin x l : ssorted (x :: l) -> x ∉ l.
Proof. intros [_ H]%ssorted_cons_inv Hin. by apply (lt_irrefl x), H. Qed.

Lemma ssorted_nodup l : ssorted l -> NoDup l.
Proof.
  induction l as [|x l IH]; intros H; [constructor|].
  constructor; [by apply ssorted_notin|]. by apply IH, (ssorted_cons_inv x).
Qed.

(** A strictly sorted list is determined by its elements. *)
Lemma ssorted_unique l l' :
  ssorted l -> ssorted l' -> (forall x, x ∈ l <-> x ∈ l') -> l = l'.
Proof.
  revert l'; induction l as [|x l IH]; intros [|y l'] Hl Hl' Heq.
  - done.
  - specialize (Heq y). set_solver.
  - specialize (Heq x). set_solver.
  - pose proof (ssorted_notin _ _ Hl) as Hnx. pose proof (ssorted_notin _ _ Hl') as Hny.
    apply ssorted_cons_inv in Hl as [Hl Hx]. apply ssorted_cons_inv in Hl' as [Hl' Hy].
    assert (x = y) as ->.
    { assert (x ∈ y :: l') as Hi by (apply Heq; set_solver).
      assert (y ∈ x :: l) as Hj by (apply Heq; set_solver).
      rewrite elem_of_cons in Hi, Hj. destruct Hi as [|Hi], Hj as [|Hj]; try done.
      exfalso. apply (lt_irrefl x). etrans; eauto. }
    f_equal. apply IH; try done. intros z. specialize (Heq z).
    rewrite !elem_of_cons in Heq. split; intros Hz.
    + destruct Heq as [[->|?] _]; [set_solver|done|done].
    + destruct Heq as [_ [->|?]]; [set_solver|done|done].
Qed.

Lemma ssorted_filter (P : A -> Prop) `{!forall x, Decision (P x)} l :
  ssorted l -> ssorted (filter P l).
Proof.
  induction 1 as [|x l Hl IH Hx]; simpl; [constructor|].
  rewrite filter_cons. case_decide; [|done]. constructor; [done|].
  rewrite Forall_forall in *. intros y [_ Hy]%list_elem_of_filter. auto.
Qed.

(** ** Sort and dedupe *)

(** [sort.Slice] and [slices.SortFunc] under a total order: equal elements are
    identical, so every correct sort has this one result. *)
Definition sort_slice (l : list A) : list A := merge_sort le l.

(** The dedupe loop: [if w == 0 || s[r] != s[w-1] { s[w] = s[r]; w++ }], with
    [last] the element at [w-1]. *)
Fixpoint dedupe_from (last : option A) (l : list A) : list A :=
  match l with
  | [] => []
  | x :: l' =>
      if bool_decide (last = Some x) then dedupe_from last l'
      else x :: dedupe_from (Some x) l'
  end.

Definition compact (l : list A) : list A := dedupe_from None l.

Definition sort_dedupe (l : list A) : list A := compact (sort_slice l).

Lemma sort_slice_perm l : sort_slice l ≡ₚ l.
Proof. apply merge_sort_Permutation. Qed.

Lemma sort_slice_sorted l : StronglySorted le (sort_slice l).
Proof. apply (StronglySorted_merge_sort _). Qed.

Lemma elem_of_dedupe_from last l x :
  last <> Some x -> (x ∈ dedupe_from last l <-> x ∈ l).
Proof.
  revert last; induction l as [|y l IH]; intros last Hl; simpl; [done|].
  case_bool_decide as E.
  - rewrite IH by done. rewrite elem_of_cons. split; [auto|intros [->|]; done].
  - rewrite !elem_of_cons. destruct (decide (x = y)) as [->|Hne]; [naive_solver|].
    rewrite IH by congruence. done.
Qed.

Lemma dedupe_from_ssorted last l :
  StronglySorted le l -> (forall y x, last = Some y -> x ∈ l -> le y x) ->
  ssorted (dedupe_from last l) /\ (forall y x, last = Some y -> x ∈ dedupe_from last l -> lt y x).
Proof.
  intros Hs. revert last. induction Hs as [|x l Hl IH Hx]; intros last Hlast; simpl.
  - split; [constructor|]. intros ? ? _ []%not_elem_of_nil.
  - rewrite Forall_forall in Hx.
    case_bool_decide as E.
    + apply IH. intros y z ? ?. apply (Hlast y z); [done|set_solver].
    + destruct (IH (Some x)) as [IH1 IH2]; [intros ? ? [= ->]; auto|].
      split.
      * constructor; [done|]. rewrite Forall_forall. eauto.
      * intros y z -> Hz.
        assert (lt y x) as Hyx.
        { assert (le y x) as [?|?]%le_lt_eq by (apply (Hlast y x); [done|set_solver]); [done|congruence]. }
        apply elem_of_cons in Hz as [->|Hz]; [done|]. etrans; eauto.
Qed.

Lemma sort_dedupe_ssorted l : ssorted (sort_dedupe l).
Proof.
  apply (dedupe_from_ssorted None); [apply sort_slice_sorted|done].
Qed.

Lemma elem_of_sort_dedupe l x : x ∈ sort_dedupe l <-> x ∈ l.
Proof.
  unfold sort_dedupe, compact. rewrite elem_of_dedupe_from by done.
  by rewrite sort_slice_perm.
Qed.

Lemma sort_dedupe_id l : ssorted l -> sort_dedupe l = l.
Proof.
  intros Hl. apply ssorted_unique; [apply sort_dedupe_ssorted|done|].
  intros x. apply elem_of_sort_dedupe.
Qed.

(** ** Merge *)

(** The two-finger loop of [mergeSortedHashes], with the two trailing appends. *)
Fixpoint merge_sorted (a : list A) : list A -> list A :=
  fix go (b : list A) : list A :=
    match a, b with
    | [], _ => b
    | _, [] => a
    | x :: a', y :: b' =>
        match cmp x y with
        | Lt => x :: merge_sorted a' b
        | Gt => y :: go b'
        | Eq => x :: merge_sorted a' b'
        end
    end.

Lemma merge_sorted_nil_r a : merge_sorted a [] = a.
Proof. by destruct a. Qed.

Lemma merge_sorted_cons x a y b :
  merge_sorted (x :: a) (y :: b) =
  match cmp x y with
  | Lt => x :: merge_sorted a (y :: b)
  | Gt => y :: merge_sorted (x :: a) b
  | Eq => x :: merge_sorted a b
  end.
Proof. done. Qed.

Lemma elem_of_merge_sorted a b z : z ∈ merge_sorted a b <-> z ∈ a \/ z ∈ b.
Proof.
  revert b; induction a as [|x a IHa]; intros b.
  - destruct b; set_solver.
  - induction b as [|y b IHb].
    + rewrite merge_sorted_nil_r. set_solver.
    + rewrite merge_sorted_cons. destruct (cmp x y) eqn:E.
      * apply cmp_eq in E as ->. rewrite elem_of_cons, IHa. set_solver.
      * rewrite elem_of_cons, IHa. set_solver.
      * rewrite elem_of_cons, IHb. set_solver.
Qed.

Lemma merge_sorted_ssorted a b : ssorted a -> ssorted b -> ssorted (merge_sorted a b).
Proof.
  revert b; induction a as [|x a IHa]; intros b Ha Hb.
  { by destruct b. }
  induction b as [|y b IHb]; [by rewrite merge_sorted_nil_r|].
  pose proof Ha as [Ha' Hx]%ssorted_cons_inv. pose proof Hb as [Hb' Hy]%ssorted_cons_inv.
  rewrite merge_sorted_cons. destruct (cmp x y) eqn:E.
  - apply cmp_eq in E as ->. constructor; [auto|]. rewrite Forall_forall.
    intros z [?|?]%elem_of_merge_sorted; auto.
  - constructor; [by apply IHa|]. rewrite Forall_forall.
    intros z [?|Hz]%elem_of_merge_sorted; [auto|].
    apply elem_of_cons in Hz as [->|Hz]; [done|]. trans y; auto.
  - apply cmp_gt_lt in E. constructor; [auto|]. rewrite Forall_forall.
    intros z [Hz|?]%elem_of_merge_sorted; [|auto].
    apply elem_of_cons in Hz as [->|Hz]; [done|]. trans x; auto.
Qed.

(** ** Membership by binary search *)

Definition not_before (l : list A) (x : A) (i : nat) : bool :=
  match l !! i with
  | Some y => match cmp y x with Lt => false | _ => true end
  | None => true
  end.

(** [slices.BinarySearchFunc], and the search of [Index.Contains]. *)
Definition binary_search (l : list A) (x : A) : bool :=
  let i := sort_Search (length l) (not_before l x) in
  match l !! i with
  | Some y => bool_decide (y = x)
  | None => false
  end.

Lemma ssorted_lookup_lt l i j x y :
  ssorted l -> (i < j)%nat -> l !! i = Some x -> l !! j = Some y -> lt x y.
Proof.
  intros Hs. revert i j. induction Hs as [|z l Hl IH Hz]; intros i j Hij Hi Hj; [done|].
  destruct j as [|j]; [lia|]. destruct i as [|i]; simpl in *.
  - simplify_eq. rewrite Forall_forall in Hz. apply Hz. by eapply list_elem_of_lookup_2.
  - apply (IH i j); [lia|done|done].
Qed.

Lemma not_before_mono l x i j :
  ssorted l -> (i <= j < length l)%nat -> not_before l x i = true -> not_before l x j = true.
Proof.
  intros Hs Hij. unfold not_before.
  destruct (lookup_lt_is_Some_2 l i) as [y Hy]; [lia|].
  destruct (lookup_lt_is_Some_2 l j) as [z Hz]; [lia|]. rewrite Hy, Hz.
  intros Hyx. destruct (decide (i = j)) as [->|Hne]; [by simplify_eq|].
  assert (lt y z) as Hlt by (apply (ssorted_lookup_lt l i j); [done|lia|done|done]).
  destruct (cmp z x) eqn:E; try done.
  assert (cmp y x = Lt) as Hc by (eapply cmp_lt_trans; eauto). by rewrite Hc in Hyx.
Qed.

Lemma binary_search_spec l x : ssorted l -> binary_search l x = true <-> x ∈ l.
Proof.
  intros Hs. unfold binary_search.
  destruct (sort_Search_spec (length l) (not_before l x)) as (Hr & Hlo & Hhi).
  { intros i j. by apply not_before_mono. }
  set (r := sort_Search _ _) in *. split.
  - destruct (l !! r) eqn:E; [|done]. intros ->%bool_decide_eq_true.
    by eapply list_elem_of_lookup_2.
  - intros [i Hi]%list_elem_of_lookup_1.
    assert (r <= i)%nat as Hri.
    { destruct (Nat.le_gt_cases r i) as [?|Hlt]; [done|]. specialize (Hlo i Hlt).
      unfold not_before in Hlo. by rewrite Hi, cmp_refl in Hlo. }
    assert (i < length l)%nat by by eapply lookup_lt_Some.
    destruct (lookup_lt_is_Some_2 l r) as [y Hy]; [lia|]. rewrite Hy.
    apply bool_decide_eq_true.
    destruct (decide (r = i)) as [->|Hne]; [congruence|].
    assert (lt y x) as Hlt by (apply (ssorted_lookup_lt l r i); [done|lia|done|done]).
    specialize (Hhi r). unfold not_before in Hhi. rewrite Hy, Hlt in Hhi.
    assert (false = true) by (apply Hhi; lia). done.
Qed.
End slices.

Abbreviation ssorted := (StronglySorted lt).

#[export] Hint Resolve sort_dedupe_ssorted merge_sorted_ssorted ssorted_filter : golist.
