(* ===== verification/GoSet.v ===== *)
(** * The set container

    Server and client use [github.com/wow-look-at-my/go-containers/set], whose
    source is not part of the repository.  [SetOps] lists the operations the
    repository calls and [SetLaws] their documented behaviour; the models that
    hold such a set are parametric in both.  stdpp's [gset] is the instance
    the concrete runs use. *)

From Stdlib Require Import ZArith Lia List Bool.
From stdpp Require Import base gmap list sets.
From S2P Require Import Prelude.

Class SetOps (S K : Type) := {
  s_new : S;
  s_add : K -> S -> S;
  s_remove : K -> S -> S;
  s_contains : S -> K -> bool;
  s_values : S -> list K;
  s_len : S -> nat
}.

Class SetLaws (S K : Type) `{!EqDecision K} `{!SetOps S K} := {
  contains_new : forall x, s_contains s_new x = false;
  contains_add : forall s x y, s_contains (s_add x s) y = bool_decide (y = x) || s_contains s y;
  contains_remove : forall s x y, s_contains (s_remove x s) y = negb (bool_decide (y = x)) && s_contains s y;
  values_nodup : forall s, NoDup (s_values s);
  elem_of_values : forall s x, x ∈ s_values s <-> s_contains s x = true;
  len_values : forall s, s_len s = length (s_values s)
}.

#[export] Instance gset_ops {K} `{Countable K} : SetOps (gset K) K := {|
  s_new := ∅;
  s_add x s := {[x]} ∪ s;
  s_remove x s := s ∖ {[x]};
  s_contains s x := bool_decide (x ∈ s);
  s_values s := elements s;
  s_len s := size s
|}.

#[export] Instance gset_laws {K} `{Countable K} : SetLaws (gset K) K.
Proof.
  constructor; simpl.
  - intros x. apply bool_decide_eq_false. set_solver.
  - intros s x y. apply eq_bool_prop_intro. rewrite orb_True, !bool_decide_spec. set_solver.
  - intros s x y. apply eq_bool_prop_intro. rewrite andb_True, negb_True, !bool_decide_spec. set_solver.
  - intros s. apply NoDup_elements.
  - intros s x. rewrite bool_decide_eq_true. apply elem_of_elements.
  - done.
Qed.

Section sets.
Context {S K : Type} `{!EqDecision K} `{!SetOps S K} `{!SetLaws S K}.

(** Adding every key of a list, as the code does in a loop. *)
Definition s_add_all (l : list K) (s : S) : S := foldl (fun s x => s_add x s) s l.

Lemma contains_add_all l s y : s_contains (s_add_all l s) y = bool_decide (y ∈ l) || s_contains s y.
Proof.
  unfold s_add_all. revert s; induction l as [|x l IH]; intros s; cbn [foldl].
  - rewrite bool_decide_false by apply not_elem_of_nil. done.
  - rewrite IH, contains_add, orb_assoc. f_equal. apply eq_bool_prop_intro.
    rewrite orb_True, !bool_decide_spec, elem_of_cons. tauto.
Qed.

Lemma contains_list l y : s_contains (s_add_all l s_new) y = true <-> y ∈ l.
Proof. rewrite contains_add_all, contains_new, orb_false_r. apply bool_decide_eq_true. Qed.

Lemma len_zero_contains s : s_len s = 0%nat <-> (forall x, s_contains s x = false).
Proof.
  rewrite len_values. split.
  - intros Hl x. apply nil_length_inv in Hl. destruct (s_contains s x) eqn:E; [|done].
    apply elem_of_values in E. rewrite Hl in E. by apply not_elem_of_nil in E.
  - intros Hx. destruct (s_values s) as [|y l] eqn:E; [done|].
    assert (s_contains s y = true) as Hy by (apply elem_of_values; rewrite E; apply elem_of_cons; auto).
    by rewrite Hx in Hy.
Qed.

Lemma contains_extends s s' : (forall x, s_contains s x = s_contains s' x) -> s_values s ≡ₚ s_values s'.
Proof.
  intros Heq. apply NoDup_Permutation; [apply values_nodup..|].
  intros x. by rewrite !elem_of_values, Heq.
Qed.

Lemma len_add s x : s_contains s x = false -> s_len (s_add x s) = (1 + s_len s)%nat.
Proof.
  intros Hx. rewrite !len_values. assert (Hp : s_values (s_add x s) ≡ₚ x :: s_values s); [|by rewrite Hp].
  apply NoDup_Permutation; [apply values_nodup|apply NoDup_cons; split; [rewrite elem_of_values; congruence|apply values_nodup]|].
  intros y. rewrite elem_of_cons, !elem_of_values, contains_add, orb_true_iff, bool_decide_eq_true. tauto.
Qed.

Lemma len_remove s x : s_contains s x = true -> s_len s = (1 + s_len (s_remove x s))%nat.
Proof.
  intros Hx. rewrite !len_values. assert (Hp : s_values s ≡ₚ x :: s_values (s_remove x s)); [|by rewrite Hp].
  apply NoDup_Permutation; [apply values_nodup|apply NoDup_cons; split; [rewrite elem_of_values, contains_remove, bool_decide_true by done; done|apply values_nodup]|].
  intros y. rewrite elem_of_cons, !elem_of_values, contains_remove, andb_true_iff, negb_true_iff, bool_decide_eq_false. destruct (decide (y = x)) as [->|]; tauto.
Qed.

End sets.
