(* ===== verification/Keys.v ===== *)
(** * Cache keys

    [compactkey.go] and the key half of [index.go]: hex coding, the action
    hash of a cacheprog key, and the compact form in which the index, the
    access shards and the eviction sweep hold keys. *)

From Stdlib Require Import ZArith Lia List Bool String.
From stdpp Require Import base gmap list countable.
From S2P Require Import Prelude.

(** ** Sizes and constants ([index.go]) *)

Definition gbciKeyPrefix : bytes := str "go-buildcache/v1".
#[global] Arguments gbciKeyPrefix : simpl never.

Definition gbciHashSize : nat := 32.

(** A [[gbciHashSize]byte] value. *)
Definition is_hash (h : bytes) : Prop := length h = gbciHashSize /\ Forall is_byte h.

Definition zero_hash : bytes := replicate gbciHashSize 0.

(** ** [encoding/hex] *)

Definition hex_digit (n : Z) : Z := if n <? 10 then 48 + n else 87 + n.

Definition hex_encode (l : bytes) : bytes :=
  flat_map (fun b => [hex_digit (Z.shiftr b 4); hex_digit (Z.land b 15)]) l.

(** The decoder's digit table: both letter cases are accepted. *)
Definition hex_value (c : Z) : option Z :=
  if (48 <=? c) && (c <=? 57) then Some (c - 48)
  else if (97 <=? c) && (c <=? 102) then Some (c - 87)
  else if (65 <=? c) && (c <=? 70) then Some (c - 55)
  else None.

(** [hex.Decode]: [None] for an invalid digit or an odd length. *)
Fixpoint hex_decode (s : bytes) : option bytes :=
  match s with
  | [] => Some []
  | [_] => None
  | a :: b :: s' =>
      match hex_value a, hex_value b, hex_decode s' with
      | Some x, Some y, Some t => Some (Z.lor (Z.shiftl x 4) y :: t)
      | _, _, _ => None
      end
  end.

(** ** Action hashes and compact keys *)

(** [extractActionHash]: the hash of a cacheprog key, [None] for any other key. *)
Definition extractActionHash (key : bytes) : option bytes :=
  if has_prefix key gbciKeyPrefix then
    let hex64 := drop (length gbciKeyPrefix) key in
    if (length hex64 =? gbciHashSize * 2)%nat then hex_decode hex64 else None
  else None.

Record compactKey := CompactKey { ck_hash : bytes; ck_raw : bytes }.

#[export] Instance compactKey_eq_dec : EqDecision compactKey.
Proof. solve_decision. Defined.

#[export] Instance compactKey_countable : Countable compactKey.
Proof.
  refine (inj_countable' (fun c => (ck_hash c, ck_raw c)) (fun p => CompactKey p.1 p.2) _).
  by intros [].
Defined.

Definition newCompactKey (key : bytes) : compactKey :=
  match extractActionHash key with
  | Some h => CompactKey h []
  | None => CompactKey zero_hash key
  end.

(** [compactKey.Key]. *)
Definition Key (c : compactKey) : bytes :=
  if bool_decide (ck_raw c = []) then gbciKeyPrefix ++ hex_encode (ck_hash c) else ck_raw c.

(** [compactKey.actionHash]. *)
Definition actionHash (c : compactKey) : bytes * bool :=
  (ck_hash c, bool_decide (ck_raw c = [])).

(** [fnv1a]: the 32-bit shard hash of a string key ([lrucache.go]). *)
Definition fnv1a (s : bytes) : Z :=
  fold_left (fun h c => u32 (Z.lxor h c * 16777619)) s 2166136261.

(** ** Case folding: the normal form [Key] returns for a cacheprog key *)

Definition to_lower (c : Z) : Z := if (65 <=? c) && (c <=? 90) then c + 32 else c.

(** The key under which the compact form of [key] is handed back. *)
Definition canonical_key (key : bytes) : bytes :=
  match extractActionHash key with
  | Some _ => gbciKeyPrefix ++ map to_lower (drop (length gbciKeyPrefix) key)
  | None => key
  end.

(** ** Lemmas *)

Ltac tidy_tests := repeat (case_match; bool2prop; try lia).

Lemma hex_value_digit n : 0 <= n < 16 -> hex_value (hex_digit n) = Some n.
Proof. intros. unfold hex_value, hex_digit. tidy_tests; f_equal; lia. Qed.

Lemma hex_value_range c v : hex_value c = Some v -> 0 <= v < 16.
Proof. unfold hex_value. intros. repeat case_match; bool2prop; simplify_eq; lia. Qed.

Lemma hex_digit_value c v : hex_value c = Some v -> hex_digit v = to_lower c.
Proof.
  unfold hex_value, hex_digit, to_lower. intros.
  repeat case_match; bool2prop; simplify_eq;
    rewrite ?andb_false_iff in *; bool2prop; lia.
Qed.

Lemma nibbles_byte x y :
  0 <= x < 16 -> 0 <= y < 16 ->
  let b := Z.lor (Z.shiftl x 4) y in
  is_byte b /\ Z.shiftr b 4 = x /\ Z.land b 15 = y.
Proof.
  intros Hx Hy b.
  assert (b = x * 16 + y) as Hb.
  { subst b. rewrite Z.shiftl_mul_pow2 by lia. change (2 ^ 4) with 16.
    rewrite <- Z.lxor_lor, <- Z.add_nocarry_lxor; try lia;
      apply Z.bits_inj'; intros n Hn; rewrite Z.land_spec, Z.bits_0;
      change 16 with (2 ^ 4); rewrite <- Z.shiftl_mul_pow2, Z.shiftl_spec by lia;
      (destruct (Z.ltb_spec n 4); [rewrite (Z.testbit_neg_r x) by lia; done|]);
      rewrite (Z.bits_above_log2 y), andb_false_r; try lia;
      (destruct (Z.eq_dec y 0) as [->|]; [simpl; lia|]);
      apply Z.log2_lt_pow2; try lia;
      apply Z.lt_le_trans with (2 ^ 4); try lia; apply Z.pow_le_mono_r; lia. }
  rewrite Z.shiftr_div_pow2 by lia. change 15 with (Z.ones 4). rewrite Z.land_ones by lia.
  rewrite Hb. unfold is_byte. change (2 ^ 4) with 16. change (2 ^ 8) with 256.
  split_and!; try lia.
  - symmetry. apply (Z.div_unique_pos _ _ _ y); lia.
  - symmetry. apply (Z.mod_unique_pos _ _ x y); lia.
Qed.

Lemma byte_nibbles b :
  is_byte b -> 0 <= Z.shiftr b 4 < 16 /\ 0 <= Z.land b 15 < 16 /\
  Z.lor (Z.shiftl (Z.shiftr b 4) 4) (Z.land b 15) = b.
Proof.
  unfold is_byte. change (2 ^ 8) with 256. intros Hb.
  change 15 with (Z.ones 4). split_and!.
  - rewrite Z.shiftr_div_pow2 by lia. apply Z.div_pos; lia.
  - rewrite Z.shiftr_div_pow2 by lia. apply Z.div_lt_upper_bound; lia.
  - rewrite Z.land_ones by lia. apply Z.mod_pos_bound. lia.
  - rewrite Z.land_ones by lia. apply Z.mod_pos_bound. lia.
  - apply Z.bits_inj'. intros n Hn. rewrite Z.lor_spec, Z.land_spec.
    destruct (Z.ltb_spec n 4).
    + rewrite Z.shiftl_spec_low, Z.ones_spec_low by lia. by rewrite andb_true_r.
    + rewrite Z.shiftl_spec, Z.shiftr_spec, Z.ones_spec_high by lia.
      rewrite andb_false_r, orb_false_r. f_equal. lia.
Qed.

Lemma hex_decode_encode l : Forall is_byte l -> hex_decode (hex_encode l) = Some l.
Proof.
  induction 1 as [|b l Hb Hl IH]; [done|]. simpl.
  destruct (byte_nibbles b Hb) as (? & ? & Heq).
  rewrite !hex_value_digit by done. fold (hex_encode l). by rewrite IH, Heq.
Qed.

Lemma length_hex_encode l : length (hex_encode l) = (length l * 2)%nat.
Proof. induction l as [|b l IH]; [done|]. simpl. fold (hex_encode l). lia. Qed.

(** Two bytes at a time. *)
Lemma pair_ind (P : bytes -> Prop) :
  P [] -> (forall a, P [a]) -> (forall a b s, P s -> P (a :: b :: s)) -> forall s, P s.
Proof.
  intros H0 H1 H2. fix IH 1. intros [|a [|b s]]; [done|done|]. apply H2, IH.
Qed.

Lemma hex_decode_props s l :
  hex_decode s = Some l ->
  Forall is_byte l /\ length s = (length l * 2)%nat /\ hex_encode l = map to_lower s.
Proof.
  revert l. induction s as [|a|a b s IH] using pair_ind; intros l H; simpl in H; [|done|].
  { by simplify_eq. }
  destruct (hex_value a) as [x|] eqn:Ex; [|done].
  destruct (hex_value b) as [y|] eqn:Ey; [|done].
  destruct (hex_decode s) as [t|]; [|done]. simplify_eq.
  destruct (IH t eq_refl) as (Ht & Hlen & Henc).
  destruct (nibbles_byte x y) as (Hb & Hhi & Hlo); eauto using hex_value_range.
  split_and!; [by constructor|simpl; lia|].
  simpl. fold (hex_encode t). rewrite Hhi, Hlo, Henc.
  by rewrite (hex_digit_value a x), (hex_digit_value b y).
Qed.

Lemma hex_encode_inj a b : Forall is_byte a -> Forall is_byte b -> hex_encode a = hex_encode b -> a = b.
Proof. intros Ha Hb E. apply (f_equal hex_decode) in E. rewrite !hex_decode_encode in E by done. by injection E. Qed.

Lemma hex_encode_lower l : Forall is_byte l -> map to_lower (hex_encode l) = hex_encode l.
Proof. intros Hl. destruct (hex_decode_props _ _ (hex_decode_encode l Hl)) as (_ & _ & E). by rewrite <- E. Qed.

Lemma extractActionHash_wf key h :
  extractActionHash key = Some h ->
  is_hash h /\ gbciKeyPrefix ++ hex_encode h = canonical_key key /\
  key = gbciKeyPrefix ++ drop (length gbciKeyPrefix) key.
Proof.
  intros H. unfold canonical_key. rewrite H. unfold extractActionHash in H.
  destruct (has_prefix key gbciKeyPrefix) eqn:Hp; [|done].
  destruct (_ =? _)%nat eqn:Hl in H; [|done]. bool2prop.
  apply hex_decode_props in H as (Hb & Hlen & Henc).
  split_and!.
  - split; [|done]. lia.
  - by rewrite Henc.
  - apply has_prefix_spec in Hp as [t ->]. by rewrite drop_app_length.
Qed.

Lemma extractActionHash_key h :
  is_hash h -> extractActionHash (gbciKeyPrefix ++ hex_encode h) = Some h.
Proof.
  intros [Hl Hb]. unfold extractActionHash. rewrite has_prefix_app, drop_app_length.
  rewrite length_hex_encode, Hl, Nat.eqb_refl. by apply hex_decode_encode.
Qed.

Lemma extractActionHash_nil : extractActionHash [] = None.
Proof. done. Qed.

Lemma newCompactKey_hash h :
  is_hash h -> newCompactKey (gbciKeyPrefix ++ hex_encode h) = CompactKey h [].
Proof. intros Hh. unfold newCompactKey. by rewrite extractActionHash_key. Qed.

Lemma newCompactKey_raw_nil key : ck_raw (newCompactKey key) = [] -> key <> [] ->
  exists h, extractActionHash key = Some h /\ newCompactKey key = CompactKey h [].
Proof.
  unfold newCompactKey. destruct (extractActionHash key) as [h|]; simpl; [eauto|done].
Qed.

(** [actionHash] agrees with [extractActionHash] on every non-empty key. *)
Lemma actionHash_newCompactKey key :
  key <> [] ->
  actionHash (newCompactKey key) =
  match extractActionHash key with Some h => (h, true) | None => (zero_hash, false) end.
Proof.
  intros Hne. unfold actionHash, newCompactKey.
  destruct (extractActionHash key); simpl; [done|]. by rewrite bool_decide_false.
Qed.

(** Rebuilding a key and compacting it again changes nothing. *)
Lemma newCompactKey_Key k : k <> [] -> newCompactKey (Key (newCompactKey k)) = newCompactKey k.
Proof.
  intros Hne. destruct (extractActionHash k) as [h|] eqn:E.
  - pose proof (extractActionHash_wf _ _ E) as (Hh & _).
    assert (Hck : newCompactKey k = CompactKey h []) by (unfold newCompactKey; by rewrite E).
    rewrite Hck. by apply newCompactKey_hash.
  - assert (Hck : newCompactKey k = CompactKey zero_hash k) by (unfold newCompactKey; by rewrite E).
    rewrite Hck. unfold Key. cbn [ck_raw]. by rewrite bool_decide_false.
Qed.

(** ** Properties *)

(** Holding a key compactly loses nothing but letter case: for every
    non-empty key, rebuilding the key from its compact form gives the canonical
    form of the key (the key itself when it is no cacheprog key, and otherwise
    the key with its 64 hex digits lowercased), two non-empty keys share a
    compact form exactly when their canonical forms agree, and the canonical
    form of a cacheprog key names the same action hash. *)
Theorem compactKey_roundtrip key key' :
  key <> [] -> key' <> [] ->
  Key (newCompactKey key) = canonical_key key /\
  (newCompactKey key = newCompactKey key' <-> canonical_key key = canonical_key key') /\
  extractActionHash (canonical_key key) = extractActionHash key.
Proof.
  assert (Hkey : forall k, k <> [] -> Key (newCompactKey k) = canonical_key k).
  { intros k Hne. unfold Key, newCompactKey.
    destruct (extractActionHash k) as [h|] eqn:E; simpl.
    - apply extractActionHash_wf in E as (_ & <- & _). done.
    - rewrite bool_decide_false by done. unfold canonical_key. by rewrite E. }
  assert (Hcan : forall k, extractActionHash (canonical_key k) = extractActionHash k).
  { intros k. destruct (extractActionHash k) as [h|] eqn:E.
    - apply extractActionHash_wf in E as (Hh & <- & _). by apply extractActionHash_key.
    - unfold canonical_key. by rewrite E. }
  intros Hne Hne'. split_and!; [auto| |auto]. split.
  - intros Heq. by rewrite <- !Hkey, Heq by done.
  - intros Heq. unfold newCompactKey.
    rewrite <- (Hcan key), <- (Hcan key'), Heq.
    destruct (extractActionHash (canonical_key key')) eqn:E; [done|].
    assert (forall k, extractActionHash (canonical_key k) = None -> canonical_key k = k) as Hid.
    { intros k Hk. rewrite Hcan in Hk. unfold canonical_key. by rewrite Hk. }
    rewrite <- (Hid key'), <- Heq, Hid by congruence. done.
Qed.

Lemma compactKey_roundtrip_witness :
  Key (newCompactKey (str "plain/key")) = canonical_key (str "plain/key") /\
  Key (newCompactKey (gbciKeyPrefix ++ hex_encode (replicate 32 171)))
  = gbciKeyPrefix ++ hex_encode (replicate 32 171).
Proof.
  split.
  - apply (compactKey_roundtrip (str "plain/key") (str "x")); discriminate.
  - destruct (compactKey_roundtrip (gbciKeyPrefix ++ hex_encode (replicate 32 171)) (str "x"))
      as [H _]; [discriminate|discriminate|].
    rewrite H. vm_compute. reflexivity.
Defined.
