(* ===== verification/Strconv.v ===== *)
(** * Decimal text and white space

    The parts of Go's [strconv] and [strings] the program stores positions,
    sizes and versions with: decimal formatting and parsing of 64-bit integers,
    [TrimSpace] and [Fields].  White space is Unicode's, in UTF-8. *)

From Stdlib Require Import ZArith Lia List Bool String.
From stdpp Require Import base list.
From S2P Require Import Prelude.

(** ** Formatting *)

(** Twenty digits cover every 64-bit value. *)
Fixpoint dec_digits (fuel : nat) (n : Z) (acc : bytes) : bytes :=
  match fuel with
  | O => acc
  | S fuel' => let acc := (48 + n mod 10) :: acc in if n <? 10 then acc else dec_digits fuel' (n / 10) acc
  end.

(** [strconv.FormatUint(n, 10)] and [strconv.FormatInt(n, 10)]. *)
Definition formatUint (n : Z) : bytes := dec_digits 20 n [].
Definition formatInt (n : Z) : bytes := if n <? 0 then 45 :: formatUint (- n) else formatUint n.

(** [fmt]'s [%20d]. *)
Definition pad20 (s : bytes) : bytes := replicate (20 - length s) 32 ++ s.

(** ** Parsing *)

Definition digit (c : Z) : option Z := if (48 <=? c) && (c <=? 57) then Some (c - 48) else None.

Fixpoint parse_digits (acc : Z) (s : bytes) : option Z :=
  match s with
  | [] => Some acc
  | c :: s' => match digit c with Some d => parse_digits (acc * 10 + d) s' | None => None end
  end.

(** [strconv.ParseUint(s, 10, 64)]; an error is [None]. *)
Definition parseUint (s : bytes) : option Z :=
  match s with
  | [] => None
  | _ => match parse_digits 0 s with Some n => if n <? 2 ^ 64 then Some n else None | None => None end
  end.

(** [strconv.ParseInt(s, 10, 64)] and, for a 64-bit int, [strconv.Atoi]. *)
Definition parseInt (s : bytes) : option Z :=
  match s with
  | [] => None
  | c :: s' =>
      if c =? 45 then n ← parseUint s'; if n <=? 2 ^ 63 then Some (- n) else None
      else n ← parseUint (if c =? 43 then s' else s); if n <? 2 ^ 63 then Some n else None
  end.

(** ** White space *)

(** The length of the white-space character [s] starts with, or 0. *)
Definition space_len (s : bytes) : nat :=
  match s with
  | c :: s' =>
      if (c =? 32) || ((9 <=? c) && (c <=? 13)) then 1%nat
      else match c, s' with
           | 0xC2, b :: _ => if (b =? 0x85) || (b =? 0xA0) then 2%nat else O
           | 0xE1, 0x9A :: 0x80 :: _ => 3%nat
           | 0xE2, 0x80 :: b :: _ =>
               if ((0x80 <=? b) && (b <=? 0x8A)) || (b =? 0xA8) || (b =? 0xA9) || (b =? 0xAF) then 3%nat else O
           | 0xE2, 0x81 :: 0x9F :: _ => 3%nat
           | 0xE3, 0x80 :: 0x80 :: _ => 3%nat
           | _, _ => O
           end
  | [] => O
  end.

Fixpoint trim_left (fuel : nat) (s : bytes) : bytes :=
  match fuel, space_len s with
  | S fuel', S n => trim_left fuel' (drop (S n) s)
  | _, _ => s
  end.

Fixpoint trim_right (s : bytes) : bytes :=
  match s with
  | [] => []
  | c :: s' => if (length (trim_left (length s) s) =? 0)%nat then [] else c :: trim_right s'
  end.

Definition trimSpace (s : bytes) : bytes := trim_right (trim_left (length s) s).

(** [strings.Fields]: [cur] is the field under way, reversed. *)
Fixpoint fields_loop (fuel : nat) (s cur : bytes) : list bytes :=
  let emit := match cur with [] => [] | _ => [rev cur] end in
  match fuel, s with
  | O, _ | _, [] => emit
  | S fuel', c :: s' =>
      match space_len s with
      | O => fields_loop fuel' s' (c :: cur)
      | S n => emit ++ fields_loop fuel' (drop n s') []
      end
  end.

Definition fields (s : bytes) : list bytes := fields_loop (length s) s [].

(** ** Facts *)

Definition is_digit (c : Z) : Prop := 48 <= c <= 57.

Lemma digit_is_digit c : is_digit c -> digit c = Some (c - 48).
Proof. unfold is_digit, digit. intros. destruct (Z.leb_spec 48 c), (Z.leb_spec c 57); done || lia. Qed.

(** A text of printable, non-space ASCII. *)
Definition is_graph (c : Z) : Prop := 33 <= c <= 126.

Lemma digit_graph c : is_digit c -> is_graph c.
Proof. unfold is_digit, is_graph. lia. Qed.

Lemma dec_digits_spec fuel : forall n acc, 0 <= n < 10 ^ Z.of_nat fuel -> (0 < fuel)%nat ->
  exists ds, dec_digits fuel n acc = ds ++ acc /\ ds <> [] /\ (length ds <= fuel)%nat /\ Forall is_digit ds /\
    (forall a, parse_digits a ds = Some (a * 10 ^ Z.of_nat (length ds) + n)).
Proof.
  induction fuel as [|fuel IH]; intros n acc Hn Hf; [lia|]. cbn [dec_digits]. cbv zeta.
  pose proof (Z.mod_pos_bound n 10 ltac:(lia)) as Hm. pose proof (Z.div_mod n 10 ltac:(lia)) as Hdm.
  assert (Hdig : digit (48 + n mod 10) = Some (n mod 10)) by (rewrite digit_is_digit by (unfold is_digit; lia); f_equal; lia).
  destruct (Z.ltb_spec n 10) as [Hs|Hs].
  - exists [48 + n mod 10]. cbn [app length parse_digits]. rewrite Z.mod_small by lia. rewrite Z.mod_small in Hdig by lia. rewrite Hdig.
    split_and!; [done|done|lia|repeat constructor; unfold is_digit; lia|]. done.
  - rewrite Nat2Z.inj_succ, Z.pow_succ_r in Hn by lia.
    destruct fuel as [|fuel']; [cbn in Hn; lia|].
    destruct (IH (n / 10) (48 + n mod 10 :: acc)) as (ds & -> & Hne & Hl & Hd & Hp).
    { split; [apply Z.div_pos; lia|apply Z.div_lt_upper_bound; lia]. } { lia. }
    exists (ds ++ [48 + n mod 10]). rewrite <- app_assoc, length_app. cbn [app length]. split_and!; [done|by destruct ds|lia| |].
    + apply Forall_app. split; [done|]. repeat constructor; unfold is_digit; lia.
    + intros a. rewrite Nat.add_1_r, Nat2Z.inj_succ, Z.pow_succ_r by lia.
      assert (Happ : forall l a b, parse_digits a l = Some b -> parse_digits a (l ++ [48 + n mod 10]) = Some (b * 10 + n mod 10)).
      { clear -Hdig. induction l as [|c l IH]; intros a b Hl; cbn [app parse_digits] in *.
        - injection Hl as <-. by rewrite Hdig.
        - destruct (digit c); [by apply IH|done]. }
      rewrite (Happ _ _ _ (Hp a)). f_equal. lia.
Qed.

Lemma formatUint_spec n : 0 <= n < 2 ^ 64 ->
  formatUint n <> [] /\ (length (formatUint n) <= 20)%nat /\ Forall is_digit (formatUint n) /\
  parse_digits 0 (formatUint n) = Some n.
Proof.
  intros Hn. destruct (dec_digits_spec 20 n []) as (ds & He & Hne & Hl & Hd & Hp); [split; [lia|]; eapply Z.lt_trans; [apply Hn|done]|lia|].
  unfold formatUint. rewrite app_nil_r in He. rewrite He. specialize (Hp 0). done.
Qed.

Lemma parseUint_format n : 0 <= n < 2 ^ 64 -> parseUint (formatUint n) = Some n.
Proof.
  intros Hn. destruct (formatUint_spec n Hn) as (Hne & _ & _ & Hp). unfold parseUint.
  destruct (formatUint n) as [|c l]; [done|]. rewrite Hp. destruct (Z.ltb_spec n (2 ^ 64)); [done|lia].
Qed.

Lemma parseInt_format n : - 2 ^ 63 <= n < 2 ^ 63 -> parseInt (formatInt n) = Some n.
Proof.
  intros Hn. unfold formatInt. destruct (Z.ltb_spec n 0) as [Hneg|Hpos].
  - unfold parseInt. rewrite Z.eqb_refl, parseUint_format by lia. cbn [mbind option_bind].
    destruct (Z.leb_spec (- n) (2 ^ 63)); [f_equal; lia|lia].
  - assert (Hu := parseUint_format n ltac:(lia)). destruct (formatUint_spec n ltac:(lia)) as (Hne & _ & Hd & _).
    destruct (formatUint n) as [|c l] eqn:E; [done|]. apply Forall_cons in Hd as [Hc _]. unfold is_digit in Hc.
    unfold parseInt. destruct (Z.eqb_spec c 45), (Z.eqb_spec c 43); try lia. rewrite Hu. cbn [mbind option_bind].
    destruct (Z.ltb_spec n (2 ^ 63)); [done|lia].
Qed.

(** The size column: padding and its removal. *)
Lemma length_pad20 s : (length s <= 20)%nat -> length (pad20 s) = 20%nat.
Proof. intros. unfold pad20. rewrite length_app, length_replicate. lia. Qed.

Lemma space_len_graph c s : is_graph c -> space_len (c :: s) = O.
Proof.
  unfold is_graph. intros Hc. cbn [space_len]. destruct (Z.eqb_spec c 32); [lia|]. cbn [orb].
  destruct (Z.leb_spec 9 c), (Z.leb_spec c 13); try lia. cbn [andb].
  destruct c as [|[p|p|]|]; try lia; do 7 (destruct p as [p|p|]; try lia; try reflexivity).
Qed.

Lemma fields_word (w : bytes) : forall fuel s cur, Forall is_graph w -> (length w + length s <= fuel)%nat ->
  fields_loop fuel (w ++ s) cur = fields_loop (fuel - length w) s (rev w ++ cur).
Proof.
  induction w as [|c w IH]; intros fuel s cur Hg Hf; cbn [app rev length] in *; [by rewrite Nat.sub_0_r|].
  apply Forall_cons in Hg as [Hc Hg]. destruct fuel as [|fuel]; [lia|]. cbn [fields_loop].
  rewrite space_len_graph by done. rewrite IH by (done || lia). by rewrite <- app_assoc.
Qed.

(** Three words with blanks between and a newline after, as [%d %d %s] writes
    them, are the three fields. *)
Lemma fields_three a b c : Forall is_graph a -> Forall is_graph b -> Forall is_graph c ->
  a <> [] -> b <> [] -> c <> [] ->
  fields (a ++ [32] ++ b ++ [32] ++ c ++ [10]) = [a; b; c].
Proof.
  intros Ha Hb Hc Na Nb Nc. unfold fields. set (s := _ ++ _).
  assert (Hl : length s = (length a + S (length b + S (length c + 1)))%nat) by (unfold s; rewrite !length_app; cbn [length]; lia).
  rewrite Hl. unfold s. clear s Hl.
  assert (Hword : forall (w : bytes) n, w <> [] -> (match rev w ++ [] with [] => [] | _ => [rev (rev w ++ [])] end) ++ n = w :: n).
  { intros w n Hw. rewrite app_nil_r. destruct (rev w) as [|x l] eqn:E; [by apply (f_equal (@rev Z)) in E; rewrite rev_involutive in E|].
    by rewrite <- E, rev_involutive. }
  rewrite fields_word by (done || (rewrite !length_app; cbn [length]; lia)).
  replace (length a + S (length b + S (length c + 1)) - length a)%nat with (S (length b + S (length c + 1))) by lia.
  cbn [app fields_loop]. change (space_len (32 :: _)) with 1%nat. cbv iota. rewrite drop_0, Hword by done. f_equal.
  rewrite fields_word by (done || (cbn [length]; rewrite !length_app; cbn [length]; lia)).
  replace (length b + S (length c + 1) - length b)%nat with (S (length c + 1)) by lia.
  cbn [app fields_loop]. change (space_len (32 :: _)) with 1%nat. cbv iota. rewrite drop_0, Hword by done. f_equal.
  rewrite fields_word by (done || (cbn [length]; lia)). replace (length c + 1 - length c)%nat with 1%nat by lia.
  cbn [fields_loop]. change (space_len [10]) with 1%nat. cbv iota. by rewrite Hword.
Qed.

(** A newline after a word is trimmed off, and nothing else. *)
Lemma trimSpace_line w : Forall is_graph w -> w <> [] -> trimSpace (w ++ [10]) = w.
Proof.
  intros Hg Hn. unfold trimSpace. destruct w as [|c w]; [done|]. cbn [app length trim_left].
  apply Forall_cons in Hg as [Hc Hg]. rewrite space_len_graph by done. clear Hn.
  revert c Hc; induction w as [|d w IH]; intros c Hc; cbn [app trim_right].
  - cbn [length trim_left]. rewrite space_len_graph by done. reflexivity.
  - apply Forall_cons in Hg as [Hd Hg]. specialize (IH Hg d Hd). cbn [length trim_left]. rewrite space_len_graph by done.
    cbn [length Nat.eqb]. f_equal. exact IH.
Qed.
