(* ===== verification/Base64.v ===== *)
(** * Base64

    [encoding/base64] as the repository uses it: the standard alphabet with
    padding for Basic authentication, and the URL alphabet without padding for
    the action field of a build id. *)

From Stdlib Require Import ZArith Lia List Bool.
From stdpp Require Import base list.
From S2P Require Import Prelude.

(** ** [base64.StdEncoding] *)

Definition b64_value (c : Z) : option Z :=
  if (65 <=? c) && (c <=? 90) then Some (c - 65)
  else if (97 <=? c) && (c <=? 122) then Some (c - 71)
  else if (48 <=? c) && (c <=? 57) then Some (c + 4)
  else if c =? 43 then Some 62
  else if c =? 47 then Some 63
  else None.

Definition b64_char (v : Z) : Z :=
  if v <? 26 then v + 65 else if v <? 52 then v + 71 else if v <? 62 then v - 4 else if v =? 62 then 43 else 47.

Definition b64_pad : Z := 61.

(** Groups of four characters; padding only at the end. *)
Fixpoint b64_groups (s : bytes) : option bytes :=
  match s with
  | [] => Some []
  | a :: b :: c :: d :: s' =>
      x ← b64_value a; y ← b64_value b;
      if d =? b64_pad then
        match s' with
        | _ :: _ => None
        | [] =>
            if c =? b64_pad then Some [Z.lor (Z.shiftl x 2) (Z.shiftr y 4)]
            else z ← b64_value c;
                 Some [Z.lor (Z.shiftl x 2) (Z.shiftr y 4); u8 (Z.lor (Z.shiftl y 4) (Z.shiftr z 2))]
        end
      else
        z ← b64_value c; w ← b64_value d; rest ← b64_groups s';
        Some (Z.lor (Z.shiftl x 2) (Z.shiftr y 4) :: u8 (Z.lor (Z.shiftl y 4) (Z.shiftr z 2))
              :: u8 (Z.lor (Z.shiftl z 6) w) :: rest)
  | _ => None
  end.

(** [DecodeString]: line breaks are skipped. *)
Definition b64_decode (s : bytes) : option bytes := b64_groups (filter (fun c => c <> 10 /\ c <> 13) s).

Fixpoint b64_encode (s : bytes) : bytes :=
  match s with
  | [] => []
  | [a] => [b64_char (Z.shiftr a 2); b64_char (Z.shiftl (Z.land a 3) 4); b64_pad; b64_pad]
  | [a; b] =>
      [b64_char (Z.shiftr a 2); b64_char (Z.lor (Z.shiftl (Z.land a 3) 4) (Z.shiftr b 4));
       b64_char (Z.shiftl (Z.land b 15) 2); b64_pad]
  | a :: b :: c :: s' =>
      b64_char (Z.shiftr a 2) :: b64_char (Z.lor (Z.shiftl (Z.land a 3) 4) (Z.shiftr b 4))
      :: b64_char (Z.lor (Z.shiftl (Z.land b 15) 2) (Z.shiftr c 6)) :: b64_char (Z.land c 63) :: b64_encode s'
  end.

(** ** The encoding reads back *)

Lemma all_below (f : Z -> bool) n : forallb f (seqZ 0 n) = true -> forall x, 0 <= x < n -> f x = true.
Proof. intros Hf x Hx. rewrite forallb_forall in Hf. apply Hf, list_elem_of_In, elem_of_seqZ. lia. Qed.

Lemma b64_digit v : 0 <= v < 64 -> b64_value (b64_char v) = Some v /\ b64_char v <> b64_pad /\ b64_char v <> 10 /\ b64_char v <> 13.
Proof.
  intros Hv. pose proof (all_below (fun v => match b64_value (b64_char v) with Some w => w =? v | None => false end &&
    negb (b64_char v =? b64_pad) && negb (b64_char v =? 10) && negb (b64_char v =? 13)) 64 ltac:(vm_compute; reflexivity) v Hv) as Hb.
  cbv beta in Hb. destruct (b64_value (b64_char v)) as [w|]; [|done]. assert (w = v) as -> by lia. split_and!; [done|lia..].
Qed.

(** The six-bit pieces of a group, and the bytes put together again. *)
Lemma b64_first a q : is_byte a -> 0 <= q < 16 ->
  0 <= Z.shiftr a 2 < 64 /\ 0 <= Z.lor (Z.shiftl (Z.land a 3) 4) q < 64 /\
  Z.lor (Z.shiftl (Z.shiftr a 2) 2) (Z.shiftr (Z.lor (Z.shiftl (Z.land a 3) 4) q) 4) = a.
Proof.
  intros Ha Hq. pose proof (all_below (fun a => forallb (fun q => (0 <=? Z.shiftr a 2) && (Z.shiftr a 2 <? 64) &&
    (0 <=? Z.lor (Z.shiftl (Z.land a 3) 4) q) && (Z.lor (Z.shiftl (Z.land a 3) 4) q <? 64) &&
    (Z.lor (Z.shiftl (Z.shiftr a 2) 2) (Z.shiftr (Z.lor (Z.shiftl (Z.land a 3) 4) q) 4) =? a)) (seqZ 0 16)) 256
    ltac:(vm_compute; reflexivity) a Ha) as Hf. apply all_below with (x := q) in Hf; [|done]. lia.
Qed.

Lemma b64_second p b q : 0 <= p < 4 -> is_byte b -> 0 <= q < 4 ->
  0 <= Z.shiftr b 4 < 16 /\ 0 <= Z.lor (Z.shiftl (Z.land b 15) 2) q < 64 /\
  u8 (Z.lor (Z.shiftl (Z.lor (Z.shiftl p 4) (Z.shiftr b 4)) 4) (Z.shiftr (Z.lor (Z.shiftl (Z.land b 15) 2) q) 2)) = b.
Proof.
  intros Hp Hb Hq. pose proof (all_below (fun p => forallb (fun b => forallb (fun q => (0 <=? Z.shiftr b 4) && (Z.shiftr b 4 <? 16) &&
    (0 <=? Z.lor (Z.shiftl (Z.land b 15) 2) q) && (Z.lor (Z.shiftl (Z.land b 15) 2) q <? 64) &&
    (u8 (Z.lor (Z.shiftl (Z.lor (Z.shiftl p 4) (Z.shiftr b 4)) 4) (Z.shiftr (Z.lor (Z.shiftl (Z.land b 15) 2) q) 2)) =? b)) (seqZ 0 4)) (seqZ 0 256)) 4
    ltac:(vm_compute; reflexivity) p Hp) as Hf. apply all_below with (x := b) in Hf; [|done]. apply all_below with (x := q) in Hf; [|done]. lia.
Qed.

Lemma b64_third p c : 0 <= p < 16 -> is_byte c ->
  0 <= Z.shiftr c 6 < 4 /\ 0 <= Z.land c 63 < 64 /\
  u8 (Z.lor (Z.shiftl (Z.lor (Z.shiftl p 2) (Z.shiftr c 6)) 6) (Z.land c 63)) = c.
Proof.
  intros Hp Hc. pose proof (all_below (fun p => forallb (fun c => (0 <=? Z.shiftr c 6) && (Z.shiftr c 6 <? 4) && (0 <=? Z.land c 63) && (Z.land c 63 <? 64) &&
    (u8 (Z.lor (Z.shiftl (Z.lor (Z.shiftl p 2) (Z.shiftr c 6)) 6) (Z.land c 63)) =? c)) (seqZ 0 256)) 16
    ltac:(vm_compute; reflexivity) p Hp) as Hf. apply all_below with (x := c) in Hf; [|done]. lia.
Qed.

Lemma low_bits b n : 0 <= n -> 0 <= Z.land b (Z.ones n) < 2 ^ n.
Proof. intros Hn. rewrite Z.land_ones by done. apply Z.mod_pos_bound. lia. Qed.

(** Three bytes at a time. *)
Lemma triple_ind (P : bytes -> Prop) :
  P [] -> (forall a, P [a]) -> (forall a b, P [a; b]) -> (forall a b c s, P s -> P (a :: b :: c :: s)) -> forall s, P s.
Proof. intros H0 H1 H2 H3. fix IH 1. intros [|a [|b [|c s]]]; [done|done|done|]. apply H3, IH. Qed.

Lemma b64_line s : Forall is_byte s -> Forall (fun c => c <> 10 /\ c <> 13) (b64_encode s).
Proof.
  induction s as [|a|a b|a b c s IH] using triple_ind; intros Hs; cbn [b64_encode]; [constructor| | |];
    repeat (apply Forall_cons in Hs as [? Hs]).
  - destruct (b64_first a 0) as (Ha & Hy & _); [done|lia|]. rewrite Z.lor_0_r in Hy.
    repeat (apply Forall_cons; split); try done; by apply b64_digit.
  - destruct (b64_second 0 b 0) as (Hb & Hz & _); [lia|done|lia|]. rewrite Z.lor_0_r in Hz.
    destruct (b64_first a (Z.shiftr b 4)) as (Ha & Hy & _); [done|done|]. repeat (apply Forall_cons; split); try done; by apply b64_digit.
  - destruct (b64_third 0 c) as (Hc & Hw & _); [lia|done|]. destruct (b64_second 0 b (Z.shiftr c 6)) as (Hb & Hz & _); [lia|done|done|].
    destruct (b64_first a (Z.shiftr b 4)) as (Ha & Hy & _); [done|done|].
    repeat (apply Forall_cons; split); [by apply b64_digit..|by apply IH].
Qed.

Lemma b64_groups_encode s : Forall is_byte s -> b64_groups (b64_encode s) = Some s.
Proof.
  induction s as [|a|a b|a b c s IH] using triple_ind; intros Hs; cbn [b64_encode b64_groups]; [done| | |];
    repeat (apply Forall_cons in Hs as [? Hs]).
  - destruct (b64_first a 0) as (Ha & Hy & Ea); [done|lia|]. rewrite Z.lor_0_r in Hy, Ea.
    destruct (b64_digit _ Ha) as [-> _], (b64_digit _ Hy) as [-> _]. cbn [mbind option_bind]. by rewrite !Z.eqb_refl, Ea.
  - destruct (b64_second (Z.land a 3) b 0) as (Hb & Hz & Eb); [apply (low_bits a 2); lia|done|lia|]. rewrite Z.lor_0_r in Hz, Eb.
    destruct (b64_first a (Z.shiftr b 4)) as (Ha & Hy & Ea); [done|done|].
    destruct (b64_digit _ Ha) as [-> _], (b64_digit _ Hy) as [-> _], (b64_digit _ Hz) as (-> & Hp & _). cbn [mbind option_bind].
    rewrite Z.eqb_refl. apply Z.eqb_neq in Hp. by rewrite Hp, Ea, Eb.
  - destruct (b64_third (Z.land b 15) c) as (Hc & Hw & Ec); [apply (low_bits b 4); lia|done|].
    destruct (b64_second (Z.land a 3) b (Z.shiftr c 6)) as (Hb & Hz & Eb); [apply (low_bits a 2); lia|done|done|].
    destruct (b64_first a (Z.shiftr b 4)) as (Ha & Hy & Ea); [done|done|].
    destruct (b64_digit _ Ha) as [-> _], (b64_digit _ Hy) as [-> _], (b64_digit _ Hz) as [-> _], (b64_digit _ Hw) as (-> & Hp & _).
    cbn [mbind option_bind]. apply Z.eqb_neq in Hp. by rewrite Hp, IH, Ea, Eb, Ec.
Qed.

Lemma b64_roundtrip s : Forall is_byte s -> b64_decode (b64_encode s) = Some s.
Proof.
  intros Hs. unfold b64_decode. replace (filter _ (b64_encode s)) with (b64_encode s); [by apply b64_groups_encode|].
  pose proof (b64_line s Hs) as Hl. induction Hl as [|c l Hc _ IH]; [done|]. by rewrite filter_cons_True, <- IH.
Qed.

(** ** [base64.RawURLEncoding] *)

Definition url_char (c : Z) : Z := if c =? 43 then 45 else if c =? 47 then 95 else c.

Definition b64_rawurl (s : bytes) : bytes := map url_char (filter (fun c => c <> b64_pad) (b64_encode s)).

Lemma url_char_inj v w : 0 <= v < 64 -> 0 <= w < 64 -> url_char (b64_char v) = url_char (b64_char w) -> v = w.
Proof.
  intros Hv Hw He. pose proof (all_below (fun v => forallb (fun w => negb (url_char (b64_char v) =? url_char (b64_char w)) || (v =? w)) (seqZ 0 64)) 64
    ltac:(vm_compute; reflexivity) v Hv) as Hf. apply all_below with (x := w) in Hf; [|done]. lia.
Qed.

(** The four pieces of three bytes. *)
Definition pieces (a b c : Z) : list Z :=
  [Z.shiftr a 2; Z.lor (Z.shiftl (Z.land a 3) 4) (Z.shiftr b 4); Z.lor (Z.shiftl (Z.land b 15) 2) (Z.shiftr c 6); Z.land c 63].

Lemma pieces_range a b c : is_byte a -> is_byte b -> is_byte c -> Forall (fun v => 0 <= v < 64) (pieces a b c).
Proof.
  intros Ha Hb Hc. destruct (b64_third 0 c) as (Hc' & Hw & _); [lia|done|]. destruct (b64_second 0 b (Z.shiftr c 6)) as (Hb' & Hz & _); [lia|done|done|].
  destruct (b64_first a (Z.shiftr b 4)) as (Ha' & Hy & _); [done|done|]. unfold pieces. repeat (apply List.Forall_cons; [assumption|]). apply List.Forall_nil.
Qed.

Lemma pieces_inj a b c a' b' c' : is_byte a -> is_byte b -> is_byte c -> is_byte a' -> is_byte b' -> is_byte c' ->
  pieces a b c = pieces a' b' c' -> a = a' /\ b = b' /\ c = c'.
Proof.
  intros Ha Hb Hc Ha' Hb' Hc' [= H1 H2 H3 H4].
  destruct (b64_third (Z.land b 15) c) as (Rc & _ & Ec); [apply (low_bits b 4); lia|done|].
  destruct (b64_third (Z.land b' 15) c') as (Rc' & _ & Ec'); [apply (low_bits b' 4); lia|done|].
  destruct (b64_second (Z.land a 3) b (Z.shiftr c 6)) as (Rb & _ & Eb); [apply (low_bits a 2); lia|done|done|].
  destruct (b64_second (Z.land a' 3) b' (Z.shiftr c' 6)) as (Rb' & _ & Eb'); [apply (low_bits a' 2); lia|done|done|].
  destruct (b64_first a (Z.shiftr b 4)) as (_ & _ & Ea); [done|done|]. destruct (b64_first a' (Z.shiftr b' 4)) as (_ & _ & Ea'); [done|done|].
  rewrite H1, H2 in Ea. rewrite Ea in Ea'. rewrite H2, H3 in Eb. rewrite Eb in Eb'. rewrite H3, H4 in Ec. rewrite Ec in Ec'. done.
Qed.

Lemma rawurl_group a b c s : is_byte a -> is_byte b -> is_byte c ->
  b64_rawurl (a :: b :: c :: s) = map (fun v => url_char (b64_char v)) (pieces a b c) ++ b64_rawurl s.
Proof.
  intros Ha Hb Hc. pose proof (pieces_range a b c Ha Hb Hc) as Hp. unfold b64_rawurl.
  change (b64_encode (a :: b :: c :: s)) with (map b64_char (pieces a b c) ++ b64_encode s). rewrite filter_app, map_app. f_equal.
  rewrite <- (map_map b64_char url_char). f_equal. induction Hp as [|v l Hv _ IH]; [done|]. cbn [map]. rewrite filter_cons_True by apply (b64_digit v Hv). by rewrite IH.
Qed.

Lemma map_char_inj l l' : Forall (fun v => 0 <= v < 64) l -> Forall (fun v => 0 <= v < 64) l' ->
  map (fun v => url_char (b64_char v)) l = map (fun v => url_char (b64_char v)) l' -> l = l'.
Proof.
  intros Hl. revert l'. induction Hl as [|v l Hv _ IH]; intros l' Hl' He; destruct Hl' as [|w l' Hw Hl']; try done.
  injection He as He1 He2. f_equal; [by apply url_char_inj|by apply IH].
Qed.

(** Whole groups are told apart by their encodings. *)
Lemma b64_rawurl_inj n : forall s t, Forall is_byte s -> Forall is_byte t -> length s = (3 * n)%nat -> length t = (3 * n)%nat ->
  b64_rawurl s = b64_rawurl t -> s = t.
Proof.
  induction n as [|n IH]; intros s t Hs Ht Ls Lt He; [by destruct s, t|].
  destruct s as [|a [|b [|c s]]]; cbn [length] in Ls; try lia. destruct t as [|a' [|b' [|c' t]]]; cbn [length] in Lt; try lia.
  repeat (apply Forall_cons in Hs as [? Hs]). repeat (apply Forall_cons in Ht as [? Ht]).
  rewrite !rawurl_group in He by done. apply app_inj_1 in He as [He1 He2]; [|done].
  apply map_char_inj in He1; [|by apply pieces_range..]. destruct (pieces_inj a b c a' b' c') as (-> & -> & ->); try done. do 3 f_equal. apply IH; try done; lia.
Qed.
