(* ===== verification/Sha256.v ===== *)
(** * SHA-256

    Go's [crypto/sha256] (FIPS 180-4) as an executable function on byte lists.
    The server names hashed paths, index trailers, ETags and stored digests
    with it; the theorems use only that a digest is 32 bytes, and the test
    vectors at the end tie the function to the standard. *)

From Stdlib Require Import ZArith Lia List Bool String.
From stdpp Require Import base list.
From S2P Require Import Prelude Keys.

(** ** Fixed-width integers in memory ([encoding/binary]) *)

(** [n] bytes of [x], least significant first. *)
Fixpoint le_bytes (n : nat) (x : Z) : bytes :=
  match n with
  | O => []
  | S n' => u8 x :: le_bytes n' (Z.shiftr x 8)
  end.

Definition be_bytes (n : nat) (x : Z) : bytes := rev (le_bytes n x).

(** The integer a byte list denotes, most significant first. *)
Definition be_value (l : bytes) : Z := fold_left (fun acc b => acc * 256 + b) l 0.
Definition le_value (l : bytes) : Z := be_value (rev l).

(** ** The compression function *)

Definition rotr (x n : Z) : Z := Z.lor (Z.shiftr x n) (u32 (Z.shiftl x (32 - n))).
Definition ssig0 x := Z.lxor (Z.lxor (rotr x 7) (rotr x 18)) (Z.shiftr x 3).
Definition ssig1 x := Z.lxor (Z.lxor (rotr x 17) (rotr x 19)) (Z.shiftr x 10).
Definition bsig0 x := Z.lxor (Z.lxor (rotr x 2) (rotr x 13)) (rotr x 22).
Definition bsig1 x := Z.lxor (Z.lxor (rotr x 6) (rotr x 11)) (rotr x 25).
Definition choose x y z := Z.lxor (Z.land x y) (Z.land (Z.lxor x (2 ^ 32 - 1)) z).
Definition majority x y z := Z.lxor (Z.lxor (Z.land x y) (Z.land x z)) (Z.land y z).

(** The standard's constants are the first 32 bits of the fractional parts of
    the roots of the first primes, so they are computed here from that. *)
Definition isPrime (n : nat) : bool :=
  forallb (fun d => negb (n mod d =? 0)%nat) (List.seq 2 (n - 2)).

Definition primes (n : nat) : list Z :=
  take n (map Z.of_nat (List.filter isPrime (List.seq 2 310))).

(** The integer cube root, bit by bit from bit [k - 1] down. *)
Fixpoint cube_root (k : nat) (acc x : Z) : Z :=
  match k with
  | O => acc
  | S k' =>
      let t := acc + 2 ^ Z.of_nat k' in
      cube_root k' (if t * t * t <=? x then t else acc) x
  end.

Definition round_constants : list Z :=
  Eval vm_compute in map (fun p => u32 (cube_root 36 0 (p * 2 ^ 96))) (primes 64).

Record words := Words { wa : Z; wb : Z; wc : Z; wd : Z; we : Z; wf : Z; wg : Z; wh : Z }.

Definition initial_words : words :=
  Eval vm_compute in
    match map (fun p => u32 (Z.sqrt (p * 2 ^ 64))) (primes 8) with
    | [a; b; c; d; e; f; g; h] => Words a b c d e f g h
    | _ => Words 0 0 0 0 0 0 0 0
    end.

Definition round (s : words) (kw : Z * Z) : words :=
  let t1 := u32 (wh s + bsig1 (we s) + choose (we s) (wf s) (wg s) + kw.1 + kw.2) in
  let t2 := u32 (bsig0 (wa s) + majority (wa s) (wb s) (wc s)) in
  Words (u32 (t1 + t2)) (wa s) (wb s) (wc s) (u32 (wd s + t1)) (we s) (wf s) (wg s).

(** The message schedule, newest word first. *)
Fixpoint schedule (n : nat) (w : list Z) : list Z :=
  match n with
  | O => rev w
  | S n' =>
      let x := ssig1 (nth 1 w 0) + nth 6 w 0 + ssig0 (nth 14 w 0) + nth 15 w 0 in
      schedule n' (u32 x :: w)
  end.

(** Consecutive groups of [k] elements. *)
Fixpoint chunks (fuel k : nat) (l : bytes) : list bytes :=
  match fuel, l with
  | O, _ | _, [] => []
  | S fuel', _ => take k l :: chunks fuel' k (drop k l)
  end.

Definition add_words (s t : words) : words :=
  Words (u32 (wa s + wa t)) (u32 (wb s + wb t)) (u32 (wc s + wc t)) (u32 (wd s + wd t))
        (u32 (we s + we t)) (u32 (wf s + wf t)) (u32 (wg s + wg t)) (u32 (wh s + wh t)).

Definition compress (s : words) (block : bytes) : words :=
  let w := schedule 48 (rev (map be_value (chunks 16 4 block))) in
  add_words s (fold_left round (combine round_constants w) s).

Definition pad (msg : bytes) : bytes :=
  let n := length msg in
  let zeros := ((119 - n mod 64) mod 64)%nat in
  msg ++ [128] ++ replicate zeros 0 ++ be_bytes 8 (8 * Z.of_nat n).

Definition sha256 (msg : bytes) : bytes :=
  let p := pad msg in
  let s := fold_left compress (chunks (length p) 64 p) initial_words in
  flat_map (be_bytes 4) [wa s; wb s; wc s; wd s; we s; wf s; wg s; wh s].

(** ** Lemmas *)

Lemma length_le_bytes n x : length (le_bytes n x) = n.
Proof. revert x; induction n; intros; simpl; auto. Qed.

Lemma le_bytes_wf n x : Forall is_byte (le_bytes n x).
Proof. revert x; induction n; intros; simpl; constructor; auto with goarith. Qed.

Lemma length_be_bytes n x : length (be_bytes n x) = n.
Proof. unfold be_bytes. by rewrite length_rev, length_le_bytes. Qed.

Lemma be_bytes_wf n x : Forall is_byte (be_bytes n x).
Proof. unfold be_bytes. apply List.Forall_rev, le_bytes_wf. Qed.

Lemma be_value_snoc l b : be_value (l ++ [b]) = be_value l * 256 + b.
Proof. unfold be_value. by rewrite fold_left_app. Qed.

Lemma le_value_cons b l : le_value (b :: l) = le_value l * 256 + b.
Proof. unfold le_value. simpl. apply be_value_snoc. Qed.

Lemma le_value_bytes n x : 0 <= x -> le_value (le_bytes n x) = x mod 2 ^ (8 * Z.of_nat n).
Proof.
  revert x; induction n as [|n IH]; intros x Hx; [by rewrite Z.mod_1_r|].
  cbn [le_bytes]. rewrite le_value_cons, IH by (apply Z.shiftr_nonneg; lia).
  rewrite Z.shiftr_div_pow2 by lia. unfold u8.
  replace (8 * Z.of_nat (S n)) with (8 + 8 * Z.of_nat n) by lia.
  rewrite Z.pow_add_r by lia. rewrite Z.rem_mul_r by lia. lia.
Qed.

Lemma be_value_bytes n x : 0 <= x -> be_value (be_bytes n x) = x mod 2 ^ (8 * Z.of_nat n).
Proof.
  intros. unfold be_bytes. rewrite <- (le_value_bytes n x) by done.
  unfold le_value. done.
Qed.

Lemma le_value_range l : Forall is_byte l -> 0 <= le_value l < 2 ^ (8 * Z.of_nat (length l)).
Proof.
  induction 1 as [|b l Hb Hl IH]; [cbv; split; done|].
  rewrite le_value_cons. simpl length.
  replace (8 * Z.of_nat (S (length l))) with (8 + 8 * Z.of_nat (length l)) by lia.
  rewrite Z.pow_add_r by lia. unfold is_byte in Hb. change (2 ^ 8) with 256 in *. nia.
Qed.

Lemma be_value_range l : Forall is_byte l -> 0 <= be_value l < 2 ^ (8 * Z.of_nat (length l)).
Proof.
  intros H%List.Forall_rev. apply le_value_range in H. unfold le_value in H.
  by rewrite rev_involutive, length_rev in H.
Qed.

Lemma le_bytes_value l : Forall is_byte l -> le_bytes (length l) (le_value l) = l.
Proof.
  induction 1 as [|b l Hb Hl IH]; [done|]. simpl length. cbn [le_bytes].
  rewrite le_value_cons. unfold is_byte in Hb. change (2 ^ 8) with 256 in Hb. f_equal.
  - unfold u8. change (2 ^ 8) with 256. rewrite Z.add_comm, Z.mod_add by lia.
    by apply Z.mod_small.
  - rewrite Z.shiftr_div_pow2 by lia. change (2 ^ 8) with 256.
    rewrite Z.add_comm, Z.div_add, (Z.div_small b 256) by lia. done.
Qed.

Lemma be_bytes_value l : Forall is_byte l -> be_bytes (length l) (be_value l) = l.
Proof.
  intros H%List.Forall_rev. apply le_bytes_value in H. unfold le_value in H.
  rewrite rev_involutive, length_rev in H. unfold be_bytes. by rewrite H, rev_involutive.
Qed.

Lemma length_sha256 msg : length (sha256 msg) = 32%nat.
Proof. unfold sha256. cbn [flat_map]. by rewrite !length_app, !length_be_bytes. Qed.

Lemma sha256_wf msg : is_hash (sha256 msg).
Proof.
  split; [apply length_sha256|]. unfold sha256. cbn [flat_map].
  repeat (apply Forall_app_2; [apply be_bytes_wf|]). constructor.
Qed.

#[global] Arguments sha256 : simpl never.
#[export] Hint Rewrite length_sha256 length_le_bytes length_be_bytes : golist.

(** FIPS 180-4 test vectors. *)
Example sha256_empty :
  hex_encode (sha256 []) = str "e3b0c44298fc1c149afbf4c8996fb92427ae41e4649b934ca495991b7852b855".
Proof. vm_compute. reflexivity. Qed.

Example sha256_abc :
  hex_encode (sha256 (str "abc"))
  = str "ba7816bf8f01cfea414140de5dae2223b00361a396177a9cb410ff61f20015ad".
Proof. vm_compute. reflexivity. Qed.

Example sha256_two_blocks :
  hex_encode (sha256 (str "abcdbcdecdefdefgefghfghighijhijkijkljklmklmnlmnomnopnopq"))
  = str "248d6a61d20638b8e5c026930c3e6039a33ce45964ff2167f6ecedd419db06c1".
Proof. vm_compute. reflexivity. Qed.
