(* ===== verification/Paths.v ===== *)
(** * Where an object lives on disk

    [storage.go]: [isKeySafe], [keyToPath], [shardPath], [pathToKey],
    [isReservedFile].  A path is the list of its components below [dataDir]
    ([filepath.Join] cleans what it joins, and no component of a safe key is "."
    or ".."); [[]] is [dataDir] itself.  The original key of a hashed object is
    an extended attribute, here an argument of [pathToKey].

    What the sweeper and the index rebuild rely on: the key read back from an
    object's path leads to the same path again, and for cacheprog keys it is the
    key itself. *)

From Stdlib Require Import ZArith Lia List Bool String.
From stdpp Require Import base list sets.
From S2P Require Import Prelude SortedSlice Keys Sha256.

Definition slash : Z := 47.

Definition lockFileName : bytes := str ".lock".
Definition cacheVersionFile : bytes := str ".cache_version".
Definition sweepMarkerFile : bytes := str ".last_sweep".
Definition tempFilePrefix : bytes := str ".tmp-".
Definition hashedPrefix : bytes := str "__hashed__".

(** ** Go's string and path functions *)

(** [strings.Split(s, "/")]. *)
Fixpoint split_slash (s : bytes) : list bytes :=
  match s with
  | [] => [[]]
  | c :: s' =>
      if c =? slash then [] :: split_slash s'
      else match split_slash s' with
           | p :: ps => (c :: p) :: ps
           | [] => [[c]]
           end
  end.

(** [strings.Join(parts, "/")]. *)
Fixpoint join_slash (parts : list bytes) : bytes :=
  match parts with
  | [] => []
  | [p] => p
  | p :: ps => p ++ slash :: join_slash ps
  end.

Definition nonempty (ps : list bytes) : list bytes := filter (fun p => p <> []) ps.

(** [filepath.Dir], cleaned, as components: what precedes the last slash. *)
Definition path_dir (key : bytes) : list bytes := nonempty (removelast (split_slash key)).

(** [filepath.Base]: the last component, "/" when there is none. *)
Definition path_base (key : bytes) : bytes := default [slash] (last (nonempty (split_slash key))).

(** ** Keys and paths *)

Definition safe_char (c : Z) : bool :=
  ((97 <=? c) && (c <=? 122)) || ((65 <=? c) && (c <=? 90)) || ((48 <=? c) && (c <=? 57)) ||
  (c =? slash) || (c =? 45) || (c =? 95).

Definition isKeySafe (key : bytes) : bool := negb (length key =? 0)%nat && forallb safe_char key.

(** [filepath.Join(base, dir, ...)] drops the components that are all slashes. *)
Definition clean (ps : list bytes) : list bytes := filter (fun p => p <> [] /\ p <> [slash]) ps.

Definition shardPath (key : bytes) : list bytes :=
  let dir := path_dir key in
  let name := path_base key in
  if (4 <? length name)%nat then dir ++ [take 2 name; take 2 (drop 2 name); drop 4 name]
  else if (2 <? length name)%nat then dir ++ [take 2 name; drop 2 name]
  else clean (dir ++ [name]).

Definition keyToPath (key : bytes) : list bytes :=
  if isKeySafe key then shardPath key
  else
    let name := hex_encode (sha256 key) in
    [hashedPrefix; take 2 name; take 2 (drop 2 name); drop 4 name].

(** [prefix + "/" + name], or the name alone. *)
Definition under (prefix : list bytes) (name : bytes) : bytes :=
  match join_slash prefix with
  | [] => name
  | p => p ++ slash :: name
  end.

(** [pathToKey]; [origKey] is the attribute read of the hashed branch. *)
Definition pathToKey (origKey : option bytes) (parts : list bytes) : bytes :=
  if has_prefix (join_slash parts) (hashedPrefix ++ [slash]) then default [] origKey
  else
    let n := length parts in
    let two (ps : list bytes) : bytes :=
      match drop (n - 2) ps with
      | [shard; remainder] =>
          if (length shard =? 2)%nat then under (take (n - 2) ps) (shard ++ remainder) else join_slash ps
      | _ => join_slash ps
      end in
    match drop (n - 3) parts with
    | [shard2; shard1; remainder] =>
        if (length shard2 =? 2)%nat && (length shard1 =? 2)%nat
        then under (take (n - 3) parts) (shard2 ++ shard1 ++ remainder)
        else two parts
    | _ => two parts
    end.

Definition isReservedFile (name : bytes) : bool :=
  bytes_eqb name lockFileName || bytes_eqb name cacheVersionFile || bytes_eqb name sweepMarkerFile ||
  has_prefix name tempFilePrefix.

(** ** Splitting and joining *)

(** A component: not empty, no slash. *)
Definition component (p : bytes) : Prop := p <> [] /\ slash ∉ p.

Lemma split_nonnil s : split_slash s <> [].
Proof.
  destruct s as [|c s]; [done|]. simpl. destruct (c =? slash); [done|]. by destruct (split_slash s).
Qed.

Lemma split_no_slash p : slash ∉ p -> split_slash p = [p].
Proof.
  induction p as [|c p IH]; intros Hp; [done|]. apply not_elem_of_cons in Hp as [Hc Hp]. simpl.
  destruct (Z.eqb_spec c slash); [congruence|]. by rewrite IH.
Qed.

Lemma split_app p s : slash ∉ p -> split_slash (p ++ slash :: s) = p :: split_slash s.
Proof.
  induction p as [|c p IH]; intros Hp; [done|]. apply not_elem_of_cons in Hp as [Hc Hp]. simpl.
  destruct (Z.eqb_spec c slash); [congruence|]. by rewrite IH.
Qed.

Lemma split_join ps : ps <> [] -> Forall (fun p => slash ∉ p) ps -> split_slash (join_slash ps) = ps.
Proof.
  induction ps as [|p ps IH]; intros Hne Hps; [done|]. apply Forall_cons in Hps as [Hp Hps].
  destruct ps as [|p' ps]; [by apply split_no_slash|].
  change (join_slash (p :: p' :: ps)) with (p ++ slash :: join_slash (p' :: ps)).
  by rewrite split_app, IH.
Qed.

Lemma split_parts s : Forall (fun p => slash ∉ p) (split_slash s).
Proof.
  induction s as [|c s IH]; simpl; [constructor; [apply not_elem_of_nil|constructor]|].
  destruct (Z.eqb_spec c slash) as [|Hc]; [constructor; [apply not_elem_of_nil|done]|].
  destruct (split_slash s) as [|p ps]; [constructor; [|done]; apply not_elem_of_cons; split; [done|apply not_elem_of_nil]|].
  apply Forall_cons in IH as [Hp IH]. constructor; [|done]. by apply not_elem_of_cons.
Qed.

Lemma nonempty_component ps : Forall (fun p => slash ∉ p) ps -> Forall component (nonempty ps).
Proof.
  intros Hps. unfold nonempty. apply Forall_forall. intros p [Hp Hin]%list_elem_of_filter.
  split; [done|]. by eapply Forall_forall in Hps.
Qed.

Lemma nonempty_id ps : Forall component ps -> nonempty ps = ps.
Proof.
  unfold nonempty. induction 1 as [|p ps [Hp _] _ IH]; [done|]. rewrite filter_cons, decide_True by done. by rewrite IH.
Qed.

(** The directory and base of a key written as [dir/.../name]. *)
Lemma dir_base_under dir name : Forall component dir -> component name ->
  path_dir (under dir name) = dir /\ path_base (under dir name) = name.
Proof.
  intros Hd Hn. assert (Hunder : split_slash (under dir name) = dir ++ [name]).
  { unfold under. destruct Hn as [_ Hn]. destruct dir as [|d dir]; [by apply split_no_slash|].
    assert (Hj : forall ds, ds <> [] -> Forall component ds ->
      join_slash ds <> [] /\ split_slash (join_slash ds ++ slash :: name) = ds ++ [name]).
    { clear -Hn. induction ds as [|p ds IH]; intros Hne Hds; [done|]. apply Forall_cons in Hds as [[Hp Hps] Hds].
      destruct ds as [|p' ds].
      - simpl. split; [done|]. rewrite split_app by done. by rewrite split_no_slash.
      - change (join_slash (p :: p' :: ds)) with (p ++ slash :: join_slash (p' :: ds)).
        split; [by destruct p|]. rewrite <- app_assoc. cbn [app]. rewrite split_app by done.
        destruct IH as [_ ->]; done. }
    destruct (Hj (d :: dir)) as [Hne Heq]; [done|done|]. destruct (join_slash (d :: dir)) eqn:E; [done|]. exact Heq. }
  unfold path_dir, path_base. rewrite Hunder, removelast_last. split; [by apply nonempty_id|].
  rewrite nonempty_id by (apply Forall_app; split; [done|by constructor]). by rewrite last_snoc.
Qed.

(** ** The sharding *)

(** A component of safe characters. *)
Definition scomp (p : bytes) : Prop := p <> [] /\ Forall (fun c => safe_char c = true /\ c <> slash) p.

Lemma scomp_component p : scomp p -> component p.
Proof.
  intros [Hne Hp]. split; [done|]. intros Hin. eapply Forall_forall in Hp; [|exact Hin]. by destruct Hp.
Qed.

Lemma scomps_components ps : Forall scomp ps -> Forall component ps.
Proof. intros H0. eapply Forall_impl; [exact H0|]. apply scomp_component. Qed.

Lemma scomp_app p r : scomp p -> scomp r -> scomp (p ++ r).
Proof. intros [Hp Hp'] [Hr Hr']. split; [by destruct p|]. by apply Forall_app. Qed.

Lemma scomp_take n p : (0 < n)%nat -> scomp p -> scomp (take n p).
Proof. intros Hn [Hp Hp']. split; [destruct n; [lia|by destruct p]|by apply Forall_take]. Qed.

Lemma scomp_drop n p : (n < length p)%nat -> scomp p -> scomp (drop n p).
Proof.
  intros Hn [Hp Hp']. split; [|by apply Forall_drop]. intros H0. apply (f_equal length) in H0.
  rewrite length_drop in H0. simpl in H0. lia.
Qed.

Definition shard (name : bytes) : list bytes :=
  if (4 <? length name)%nat then [take 2 name; take 2 (drop 2 name); drop 4 name]
  else if (2 <? length name)%nat then [take 2 name; drop 2 name]
  else [name].

Lemma under_safe dir name : Forall scomp dir -> scomp name -> isKeySafe (under dir name) = true.
Proof.
  intros Hd [Hn Hn']. unfold isKeySafe. apply andb_true_iff. split.
  - apply negb_true_iff, Nat.eqb_neq. unfold under. destruct (join_slash dir) as [|c j].
    + by destruct name.
    + rewrite length_app. simpl. lia.
  - apply forallb_forall. intros c Hc. apply list_elem_of_In in Hc.
    assert (Hname : Forall (fun c => safe_char c = true) name) by (eapply Forall_impl; [exact Hn'|]; by intros x []).
    assert (Hj : Forall (fun c => safe_char c = true) (join_slash dir)).
    { clear -Hd. induction Hd as [|p ps [_ Hp] _ IH]; [constructor|].
      assert (Hp' : Forall (fun c => safe_char c = true) p) by (eapply Forall_impl; [exact Hp|]; by intros x []).
      destruct ps as [|p' ps]; [done|]. change (join_slash (p :: p' :: ps)) with (p ++ slash :: join_slash (p' :: ps)).
      apply Forall_app. split; [done|]. by constructor. }
    assert (Hu : Forall (fun c => safe_char c = true) (under dir name)).
    { unfold under. destruct (join_slash dir); [done|]. apply Forall_app. split; [done|]. by constructor. }
    by eapply Forall_forall in Hu.
Qed.

Lemma keyToPath_under dir name : Forall scomp dir -> scomp name -> keyToPath (under dir name) = dir ++ shard name.
Proof.
  intros Hd Hn. unfold keyToPath. rewrite under_safe by done. unfold shardPath, shard.
  destruct (dir_base_under dir name) as [-> ->]; [by apply scomps_components|by apply scomp_component|].
  destruct (4 <? length name)%nat, (2 <? length name)%nat; try done.
  unfold clean. assert (Hall : Forall component (dir ++ [name])).
  { apply Forall_app. split; [by apply scomps_components|]. constructor; [by apply scomp_component|constructor]. }
  induction Hall as [|p ps [Hp Hps] _ IH]; [done|]. rewrite filter_cons, decide_True; [by rewrite IH|].
  split; [done|]. intros ->. apply Hps. by apply list_elem_of_singleton.
Qed.

(** Every safe key is a directory and a name. *)
Lemma safe_key_split key : isKeySafe key = true -> nonempty (split_slash key) <> [] ->
  exists dir name, Forall scomp dir /\ scomp name /\ keyToPath key = dir ++ shard name.
Proof.
  intros Hs Hne. exists (path_dir key), (path_base key).
  assert (Hparts : Forall (fun p => Forall (fun c => safe_char c = true) p) (split_slash key)).
  { unfold isKeySafe in Hs. apply andb_true_iff in Hs as [_ Hs]. rewrite forallb_forall in Hs.
    assert (Hc : Forall (fun c => safe_char c = true) key) by (apply Forall_forall; intros c Hc; by apply Hs, list_elem_of_In).
    clear -Hc. induction Hc as [|c s Hc _ IH]; simpl; [repeat constructor|].
    destruct (c =? slash); [by constructor|]. destruct (split_slash s) as [|p ps]; [by repeat constructor|].
    apply Forall_cons in IH as [Hp IH]. constructor; [by constructor|done]. }
  assert (Hscomp : forall p, p ∈ split_slash key -> p <> [] -> scomp p).
  { intros p Hp Hpne. split; [done|]. pose proof (split_parts key) as Hsl.
    eapply Forall_forall in Hsl; [|exact Hp]. eapply Forall_forall in Hparts; [|exact Hp].
    apply Forall_forall. intros c Hc. split; [by eapply Forall_forall in Hparts|]. intros ->. done. }
  assert (Hdir : Forall scomp (path_dir key)).
  { unfold path_dir, nonempty. apply Forall_forall. intros p [Hp Hin]%list_elem_of_filter. apply Hscomp; [|done].
    rewrite (app_removelast_last [] (split_nonnil key)). apply elem_of_app. auto. }
  assert (Hbase : scomp (path_base key)).
  { unfold path_base. destruct (last (nonempty (split_slash key))) as [p|] eqn:El.
    - simpl. apply last_Some_elem_of in El. unfold nonempty in El. apply list_elem_of_filter in El as [? ?]. by apply Hscomp.
    - by apply last_None in El. }
  split_and!; try done. unfold keyToPath. rewrite Hs. unfold shardPath, shard.
  destruct (4 <? length (path_base key))%nat, (2 <? length (path_base key))%nat; try done.
  unfold clean. assert (Hall : Forall scomp (path_dir key ++ [path_base key])).
  { apply Forall_app. split; [done|]. by constructor. }
  induction Hall as [|p ps Hp _ IH]; [done|]. rewrite filter_cons, decide_True; [by rewrite IH|].
  apply scomp_component in Hp as [Hp Hps]. split; [done|]. intros ->. apply Hps. by apply list_elem_of_singleton.
Qed.

(** ** Reading the key back *)

(** The relative path is under the hashed tree. *)
Definition in_hashed_tree (parts : list bytes) : bool :=
  has_prefix (join_slash parts) (hashedPrefix ++ [slash]).

Lemma join_nonnil ds : ds <> [] -> Forall component ds -> join_slash ds <> [].
Proof.
  intros Hne Hds. destruct Hds as [|p ps [Hp _] _]; [done|]. destruct ps; [done|]. by destruct p.
Qed.

Lemma join_under dir name : Forall component dir -> join_slash (dir ++ [name]) = under dir name.
Proof.
  induction 1 as [|p ps Hp Hps IH]; [done|]. destruct ps as [|p' ps].
  - unfold under. simpl. destruct Hp as [Hp _]. by destruct p.
  - change (join_slash ((p :: p' :: ps) ++ [name])) with (p ++ slash :: join_slash ((p' :: ps) ++ [name])).
    rewrite IH. unfold under. change (join_slash (p :: p' :: ps)) with (p ++ slash :: join_slash (p' :: ps)).
    pose proof (join_nonnil (p' :: ps) ltac:(done) Hps) as Hj.
    destruct (join_slash (p' :: ps)) as [|c j]; [done|]. destruct p as [|c0 p]; [by destruct Hp|].
    cbn [app]. by rewrite <- app_assoc.
Qed.

Lemma pathToKey_three o ds a b r :
  in_hashed_tree (ds ++ [a; b; r]) = false -> length a = 2%nat -> length b = 2%nat ->
  pathToKey o (ds ++ [a; b; r]) = under ds (a ++ b ++ r).
Proof.
  intros Hh Ha Hb. unfold pathToKey, in_hashed_tree in *. rewrite Hh, length_app. cbn [length].
  replace (length ds + 3 - 3)%nat with (length ds) by lia.
  by rewrite drop_app_length, take_app_length, Ha, Hb.
Qed.

(** The last directory is not two characters long. *)
Definition last_not_two (ds : list bytes) : Prop := forall d, last ds = Some d -> length d <> 2%nat.

Lemma pathToKey_two o ds a r :
  in_hashed_tree (ds ++ [a; r]) = false -> last_not_two ds -> length a = 2%nat ->
  pathToKey o (ds ++ [a; r]) = under ds (a ++ r).
Proof.
  intros Hh Hl Ha. unfold pathToKey, in_hashed_tree in *. rewrite Hh, length_app. cbn [length].
  replace (length ds + 2 - 2)%nat with (length ds) by lia.
  assert (Htwo : (match drop (length ds) (ds ++ [a; r]) with
    | [shard; remainder] => if (length shard =? 2)%nat then under (take (length ds) (ds ++ [a; r])) (shard ++ remainder) else join_slash (ds ++ [a; r])
    | _ => join_slash (ds ++ [a; r]) end) = under ds (a ++ r)).
  { by rewrite drop_app_length, take_app_length, Ha. }
  destruct ds as [|d ds _] using rev_ind; [exact Htwo|].
  specialize (Hl d (last_snoc d ds)). rewrite length_app. cbn [length].
  replace (length ds + 1 + 2 - 3)%nat with (length ds) by lia.
  replace (drop (length ds) ((ds ++ [d]) ++ [a; r])) with [d; a; r] by (by rewrite <- app_assoc, drop_app_length).
  destruct (Nat.eqb_spec (length d) 2); [done|]. cbn [andb]. rewrite length_app in Htwo. cbn [length] in Htwo. exact Htwo.
Qed.

Lemma pathToKey_one o ds r :
  in_hashed_tree (ds ++ [r]) = false -> last_not_two ds -> Forall component ds ->
  pathToKey o (ds ++ [r]) = under ds r.
Proof.
  intros Hh Hl Hds. rewrite <- (join_under ds r Hds). unfold pathToKey, in_hashed_tree in *. rewrite Hh.
  destruct ds as [|d ds _] using rev_ind; [done|]. specialize (Hl d (last_snoc d ds)).
  set (p := (ds ++ [d]) ++ [r]).
  assert (Hp : p = ds ++ [d; r]) by (unfold p; by rewrite <- app_assoc).
  assert (Hn : length p = (length ds + 2)%nat) by (rewrite Hp, length_app; done). rewrite Hn.
  replace (length ds + 2 - 2)%nat with (length ds) by lia.
  assert (Htwo : (match drop (length ds) p with
    | [shard; remainder] => if (length shard =? 2)%nat then under (take (length ds) p) (shard ++ remainder) else join_slash p
    | _ => join_slash p end) = join_slash p).
  { rewrite Hp, drop_app_length. by destruct (Nat.eqb_spec (length d) 2). }
  destruct ds as [|d' ds _] using rev_ind; [exact Htwo|].
  rewrite length_app in *. cbn [length] in *. replace (length ds + 1 + 2 - 3)%nat with (length ds) by lia.
  replace (drop (length ds) p) with [d'; d; r] by (rewrite Hp, <- app_assoc, drop_app_length; done).
  destruct (Nat.eqb_spec (length d) 2); [done|]. rewrite andb_false_r. exact Htwo.
Qed.

Lemma shard_three a b r : length a = 2%nat -> length b = 2%nat -> r <> [] -> shard (a ++ b ++ r) = [a; b; r].
Proof.
  intros Ha Hb Hr. unfold shard. rewrite !length_app, Ha, Hb. destruct r as [|c r]; [done|].
  destruct (Nat.ltb_spec 4 (2 + (2 + length (c :: r)))); [|simpl in *; lia].
  rewrite take_app_length', drop_app_length' by done. rewrite take_app_length' by done.
  do 3 f_equal. change 4%nat with (2 + 2)%nat. rewrite <- Ha at 1. rewrite <- drop_drop, drop_app_length.
  by rewrite drop_app_length'.
Qed.

Lemma shard_two a r : length a = 2%nat -> (1 <= length r <= 2)%nat -> shard (a ++ r) = [a; r].
Proof.
  intros Ha Hr. unfold shard. rewrite length_app, Ha.
  destruct (Nat.ltb_spec 4 (2 + length r)); [lia|]. destruct (Nat.ltb_spec 2 (2 + length r)); [|lia].
  by rewrite take_app_length', drop_app_length' by done.
Qed.

Lemma last_two_dec ds : last_not_two ds \/ exists ds' d, ds = ds' ++ [d] /\ length d = 2%nat.
Proof.
  destruct ds as [|d ds _] using rev_ind; [by left|]. destruct (decide (length d = 2%nat)) as [Hd|Hd]; [right; eauto|left].
  intros d'. rewrite last_snoc. by intros [= <-].
Qed.

(** The key read back names a directory and name that shard to the same path. *)
Lemma pathToKey_shard o dir name :
  Forall scomp dir -> scomp name -> in_hashed_tree (dir ++ shard name) = false ->
  exists dir' name', pathToKey o (dir ++ shard name) = under dir' name' /\
    Forall scomp dir' /\ scomp name' /\ dir' ++ shard name' = dir ++ shard name.
Proof.
  intros Hd Hn Hh. assert (Hlen : (0 < length name)%nat) by (destruct Hn as [Hn _]; destruct name; [done|simpl; lia]).
  unfold shard in *. destruct (Nat.ltb_spec 4 (length name)) as [H4|H4].
  { exists dir, name. rewrite pathToKey_three by (try done; rewrite length_take, ?length_drop; lia).
    split_and!; try done; [|by destruct (Nat.ltb_spec 4 (length name)); [|lia]]. f_equal.
    change 4%nat with (2 + 2)%nat. by rewrite <- drop_drop, !take_drop. }
  destruct (Nat.ltb_spec 2 (length name)) as [H2|H2].
  - pose proof (scomp_take 2 name ltac:(lia) Hn) as Ht. pose proof (scomp_drop 2 name ltac:(lia) Hn) as Hr.
    assert (Hlt : length (take 2 name) = 2%nat) by (rewrite length_take; lia).
    destruct (last_two_dec dir) as [Hl|(ds & d & -> & Hd2)].
    + exists dir, name. rewrite pathToKey_two, take_drop by done. split_and!; try done.
      destruct (Nat.ltb_spec 4 (length name)), (Nat.ltb_spec 2 (length name)); try lia. done.
    + apply Forall_app in Hd as [Hds Hdd]. apply Forall_cons in Hdd as [Hdd _].
      exists ds, (d ++ take 2 name ++ drop 2 name). rewrite <- app_assoc in *. cbn [app] in *.
      rewrite pathToKey_three by done. split_and!; try done; [by repeat apply scomp_app|].
      f_equal. apply (shard_three d (take 2 name) (drop 2 name) Hd2 Hlt). by destruct Hr.
  - destruct (last_two_dec dir) as [Hl|(ds & d & -> & Hd2)].
    + exists dir, name. rewrite pathToKey_one by (try done; by apply scomps_components). split_and!; try done.
      destruct (Nat.ltb_spec 4 (length name)), (Nat.ltb_spec 2 (length name)); try lia. done.
    + apply Forall_app in Hd as [Hds Hdd]. apply Forall_cons in Hdd as [Hdd _].
      rewrite <- app_assoc in *. cbn [app] in *. destruct (last_two_dec ds) as [Hl|(ds' & d' & -> & Hd2')].
      * exists ds, (d ++ name). rewrite pathToKey_two by done. split_and!; try done; [by apply scomp_app|].
        f_equal. apply (shard_two d name Hd2). lia.
      * apply Forall_app in Hds as [Hds Hd']. apply Forall_cons in Hd' as [Hd' _].
        exists ds', (d' ++ d ++ name). rewrite <- app_assoc in *. cbn [app] in *.
        rewrite pathToKey_three by done. split_and!; try done; [by repeat apply scomp_app|].
        f_equal. apply (shard_three d' d name Hd2' Hd2). by destruct Hn.
Qed.

(** ** Properties *)

(** The attribute [PutStream] sets on the object of a hashed key. *)
Definition origKeyOf (key : bytes) : option bytes := if isKeySafe key then None else Some key.

(** Keys whose object [Walk] reports: unsafe keys that are not empty, and safe
    keys that name something outside the hashed tree. *)
Definition walkable (key : bytes) : Prop :=
  key <> [] /\
  (isKeySafe key = true -> nonempty (split_slash key) <> [] /\ in_hashed_tree (keyToPath key) = false).

Lemma hex_digit_safe n : 0 <= n < 16 -> safe_char (hex_digit n) = true /\ hex_digit n <> slash.
Proof.
  intros Hn. unfold hex_digit, safe_char, slash. destruct (Z.ltb_spec n 10).
  - replace (48 <=? 48 + n) with true by (symmetry; apply Z.leb_le; lia).
    replace (48 + n <=? 57) with true by (symmetry; apply Z.leb_le; lia).
    cbn [andb]. rewrite !orb_true_r. split; [done|lia].
  - replace (97 <=? 87 + n) with true by (symmetry; apply Z.leb_le; lia).
    replace (87 + n <=? 122) with true by (symmetry; apply Z.leb_le; lia). split; [done|lia].
Qed.

Lemma hex_encode_safe l : Forall is_byte l -> Forall (fun c => safe_char c = true /\ c <> slash) (hex_encode l).
Proof.
  unfold hex_encode. induction 1 as [|b l Hb _ IH]; [constructor|]. cbn [flat_map app]. unfold is_byte in Hb.
  constructor; [|constructor; [|done]]; apply hex_digit_safe.
  - rewrite Z.shiftr_div_pow2 by lia. split; [apply Z.div_pos; lia|apply Z.div_lt_upper_bound; lia].
  - change 15 with (Z.ones 4). rewrite Z.land_ones by lia. apply Z.mod_pos_bound. lia.
Qed.

Lemma hashed_path_scomp key : isKeySafe key = false -> Forall scomp (keyToPath key).
Proof.
  intros Hs. unfold keyToPath. rewrite Hs. destruct (sha256_wf key) as [Hl Hb].
  assert (Hlen : length (hex_encode (sha256 key)) = 64%nat) by (rewrite length_hex_encode, Hl; done).
  pose proof (hex_encode_safe _ Hb) as Hx. set (name := hex_encode (sha256 key)) in *.
  assert (Hn : scomp name) by (split; [by destruct name|done]).
  repeat (apply Forall_cons; split); [| | | |constructor].
  - split; [done|]. repeat constructor; discriminate.
  - by apply scomp_take; [lia|].
  - apply scomp_take; [lia|]. apply scomp_drop; [lia|done].
  - apply scomp_drop; [lia|done].
Qed.

Lemma shard_scomp name : scomp name -> Forall scomp (shard name).
Proof.
  intros Hn. unfold shard. destruct (Nat.ltb_spec 4 (length name)); [|destruct (Nat.ltb_spec 2 (length name))].
  - repeat (apply Forall_cons; split); [by apply scomp_take; [lia|]| | |constructor].
    + apply scomp_take; [lia|]. apply scomp_drop; [lia|done].
    + apply scomp_drop; [lia|done].
  - repeat (apply Forall_cons; split); [by apply scomp_take; [lia|]|apply scomp_drop; [lia|done]|constructor].
  - by constructor.
Qed.

Lemma path_scomp key : walkable key -> Forall scomp (keyToPath key) /\ keyToPath key <> [].
Proof.
  intros [Hne Hw]. destruct (isKeySafe key) eqn:Es.
  - destruct (Hw eq_refl) as [Hc _]. destruct (safe_key_split key Es Hc) as (dir & name & Hd & Hn & ->).
    split; [|unfold shard; destruct dir; repeat case_match; done]. apply Forall_app. split; [done|by apply shard_scomp].
  - split; [by apply hashed_path_scomp|]. unfold keyToPath. by rewrite Es.
Qed.

Lemma hashed_in_tree key : isKeySafe key = false -> in_hashed_tree (keyToPath key) = true.
Proof.
  intros Hs. unfold in_hashed_tree, keyToPath. rewrite Hs.
  set (name := hex_encode (sha256 key)).
  change (has_prefix ((hashedPrefix ++ [slash]) ++ join_slash [take 2 name; take 2 (drop 2 name); drop 4 name])
            (hashedPrefix ++ [slash]) = true).
  apply has_prefix_app.
Qed.

(** No key's path has a component that is empty, or that a dot or slash is in. *)
Lemma keyToPath_scomp key : Forall scomp (keyToPath key).
Proof.
  destruct (isKeySafe key) eqn:Es; [|by apply hashed_path_scomp].
  destruct (decide (nonempty (split_slash key) = [])) as [Hc|Hc].
  - unfold keyToPath. rewrite Es. unfold shardPath, path_base. rewrite Hc. cbn [last default from_option length].
    assert (Hd : path_dir key = []).
    { unfold path_dir. apply elem_of_nil_inv. intros p Hp. apply list_elem_of_filter in Hp as [Hne Hp].
      assert (Hin : p ∈ nonempty (split_slash key)); [|rewrite Hc in Hin; by apply not_elem_of_nil in Hin].
      apply list_elem_of_filter. split; [done|]. rewrite (app_removelast_last [] (split_nonnil key)).
      apply elem_of_app. by left. }
    by rewrite Hd.
  - destruct (safe_key_split key Es Hc) as (dir & name & Hd & Hn & ->). apply Forall_app. split; [done|by apply shard_scomp].
Qed.

Lemma scomp_not_reserved name : scomp name -> isReservedFile name = false.
Proof.
  intros [Hn Hc]. destruct name as [|c name]; [done|]. apply Forall_cons in Hc as [[Hc _] _].
  assert (Hdot : (46 =? c) = false) by (apply Z.eqb_neq; intros <-; done).
  assert (Heqb : forall l, bytes_eqb (c :: name) (46 :: l) = false).
  { intros l. apply not_true_iff_false. rewrite bytes_eqb_eq. intros [= ->]. by rewrite Z.eqb_refl in Hdot. }
  unfold isReservedFile. change lockFileName with (46 :: drop 1 lockFileName).
  change cacheVersionFile with (46 :: drop 1 cacheVersionFile). change sweepMarkerFile with (46 :: drop 1 sweepMarkerFile).
  rewrite !Heqb. change tempFilePrefix with (46 :: drop 1 tempFilePrefix). cbn [has_prefix orb]. by rewrite Hdot.
Qed.

(** A stored object can be found again from its path.  For every key
    whose object a walk reports, the key the walk reads back from the path
    leads to the same path, and it is not empty; so eviction and index rebuild
    act on the file the key was stored in.  Every component of the path is a
    plain name (no separator, no dot), so no key reaches outside the data
    directory, and no object's file name is one of the server's own files. *)
Theorem path_roundtrip key :
  walkable key ->
  let key' := pathToKey (origKeyOf key) (keyToPath key) in
  key' <> [] /\ keyToPath key' = keyToPath key /\
  Forall (fun p => p <> [] /\ Forall (fun c => safe_char c = true /\ c <> slash) p) (keyToPath key) /\
  (forall name, last (keyToPath key) = Some name -> isReservedFile name = false).
Proof.
  intros Hwalk. pose proof (path_scomp key Hwalk) as [Hsc Hne]. destruct Hwalk as [Hk Hw]. cbv zeta. split_and!.
  - unfold origKeyOf. destruct (isKeySafe key) eqn:Es.
    + destruct (Hw eq_refl) as [Hc Hh]. destruct (safe_key_split key Es Hc) as (dir & name & Hd & Hn & Heq). rewrite Heq in *.
      destruct (pathToKey_shard None dir name Hd Hn Hh) as (dir' & name' & -> & Hd' & [Hn' _] & _).
      unfold under. destruct (join_slash dir'); [done|]. by destruct name'.
    + unfold pathToKey. pose proof (hashed_in_tree key Es) as Hh. unfold in_hashed_tree in Hh. by rewrite Hh.
  - unfold origKeyOf. destruct (isKeySafe key) eqn:Es.
    + destruct (Hw eq_refl) as [Hc Hh]. destruct (safe_key_split key Es Hc) as (dir & name & Hd & Hn & Heq). rewrite Heq in *.
      destruct (pathToKey_shard None dir name Hd Hn Hh) as (dir' & name' & -> & Hd' & Hn' & <-). by apply keyToPath_under.
    + unfold pathToKey. pose proof (hashed_in_tree key Es) as Hh. unfold in_hashed_tree in Hh. by rewrite Hh.
  - exact Hsc.
  - intros name Hl. apply last_Some_elem_of in Hl. eapply Forall_forall in Hsc; [|exact Hl]. by apply scomp_not_reserved.
Qed.

Lemma path_roundtrip_witness :
  keyToPath (str "ab/cdef") = [str "ab"; str "cd"; str "ef"] /\
  keyToPath (pathToKey (origKeyOf (str "ab/cdef")) (keyToPath (str "ab/cdef"))) = keyToPath (str "ab/cdef") /\
  keyToPath (pathToKey (origKeyOf (str "a b.c")) (keyToPath (str "a b.c"))) = keyToPath (str "a b.c").
Proof.
  split; [vm_compute; reflexivity|]. split.
  - apply (path_roundtrip (str "ab/cdef")). split; [discriminate|]. intros _. split; vm_compute; [discriminate|reflexivity].
  - apply (path_roundtrip (str "a b.c")). split; [discriminate|]. intros Hs. vm_compute in Hs. discriminate.
Defined.

Lemma cacheprog_path h :
  is_hash h ->
  keyToPath (gbciKeyPrefix ++ hex_encode h) =
    [str "go-buildcache"; str "v1"; take 2 (hex_encode h); drop 2 (hex_encode h)].
Proof.
  intros [Hl Hb]. pose proof (hex_encode_safe _ Hb) as Hx.
  assert (Hlen : length (hex_encode h) = 64%nat) by (rewrite length_hex_encode, Hl; done).
  set (x := hex_encode h) in *.
  assert (Hv : Forall (fun c => safe_char c = true /\ c <> slash) (str "v1")) by (repeat constructor; discriminate).
  change (gbciKeyPrefix ++ x) with (under [str "go-buildcache"] (str "v1" ++ x)).
  rewrite keyToPath_under.
  - rewrite <- (take_drop 2 x) at 1. rewrite shard_three; [done|done|rewrite length_take; lia|].
    intros Hd. apply (f_equal length) in Hd. rewrite length_drop in Hd. simpl in Hd. lia.
  - constructor; [|constructor]. split; [done|]. repeat constructor; discriminate.
  - split; [done|]. by apply Forall_app.
Qed.

Lemma cacheprog_back o h : is_hash h ->
  pathToKey o (keyToPath (gbciKeyPrefix ++ hex_encode h)) = gbciKeyPrefix ++ hex_encode h.
Proof.
  intros Hk. rewrite cacheprog_path by done. destruct Hk as [Hl _].
  assert (Hlen : length (hex_encode h) = 64%nat) by (rewrite length_hex_encode, Hl; done).
  change (str "go-buildcache" :: ?t) with ([str "go-buildcache"] ++ t).
  rewrite pathToKey_three; [|done|done|rewrite length_take; lia]. by rewrite take_drop.
Qed.

(** The keys of the build cache lose nothing on the way to disk and
    back: the object of an action hash lives at
    go-buildcache/v1/<2 hex>/<62 hex>, a walk reads the very key back from that
    path whatever the extended attributes say, and two action hashes never
    share a file. *)
Theorem cacheprog_path_roundtrip h h' o :
  is_hash h -> is_hash h' ->
  let path k := keyToPath (gbciKeyPrefix ++ hex_encode k) in
  path h = [str "go-buildcache"; str "v1"; take 2 (hex_encode h); drop 2 (hex_encode h)] /\
  pathToKey o (path h) = gbciKeyPrefix ++ hex_encode h /\
  extractActionHash (pathToKey o (path h)) = Some h /\
  (path h = path h' -> h = h').
Proof.
  intros Hh Hh'. cbv zeta.
  pose proof (cacheprog_back o) as Hback.
  split_and!.
  - by apply cacheprog_path.
  - by apply Hback.
  - rewrite Hback by done. by apply extractActionHash_key.
  - intros Heq. pose proof (Hback h Hh) as H1. rewrite Heq, (Hback h' Hh') in H1.
    apply (f_equal extractActionHash) in H1. rewrite !extractActionHash_key in H1 by done. congruence.
Qed.

Lemma cacheprog_path_roundtrip_witness :
  pathToKey None (keyToPath (gbciKeyPrefix ++ hex_encode zero_hash)) = gbciKeyPrefix ++ hex_encode zero_hash.
Proof.
  assert (Hz : is_hash zero_hash) by (split; [done|]; repeat constructor; discriminate).
  apply (cacheprog_path_roundtrip zero_hash zero_hash None Hz Hz).
Defined.

(** Two safe keys can share a file: the first two shards of a name and a
    directory of the key look the same.  Build-cache keys are not among them. *)
Example keyToPath_not_injective :
  keyToPath (str "abcdef") = keyToPath (str "ab/cdef") /\ str "abcdef" <> str "ab/cdef".
Proof. split; [vm_compute; reflexivity|discriminate]. Qed.
