(* ===== verification/ObjAttrs.v ===== *)
(** * An object's attributes: one packed extended attribute

    [storage_unix.go].  Metadata and audit fields of an object are two string
    maps packed into the attribute [user.s3.obj]: [encodeObjAttrs] and
    [decodeObjAttrs], the size-driven dropping of [writeObjAttrs], and the
    read-merge-write of [setMetadata] and [setAudit].  The extended-attribute
    system calls are not part of the repository: [XattrOps] lists the two the
    code makes and [XattrLaws] what their manual pages promise.  Go's iteration
    order over a map is a parameter too ([MapRange]).

    What the server relies on: decoding returns exactly the maps that were
    encoded, and however little room the file system leaves, the keys the cache
    protocol needs are stored or the write fails. *)

From Stdlib Require Import ZArith Lia List Bool String.
From stdpp Require Import base gmap list sets sorting.
From S2P Require Import Prelude SortedSlice.

(** ** encoding/binary's varints *)

Definition maxVarintLen64 : nat := 10.

(** [binary.AppendUvarint]: ten rounds cover 64 bits. *)
Fixpoint put_uvarint (fuel : nat) (x : Z) : bytes :=
  match fuel with
  | O => []
  | S fuel' => if 128 <=? x then Z.lor (u8 x) 128 :: put_uvarint fuel' (Z.shiftr x 7) else [u8 x]
  end.

Definition appendUvarint (x : Z) : bytes := put_uvarint maxVarintLen64 x.

(** [binary.Uvarint]: the value and the bytes read; a width of 0 means the
    buffer is too small, a negative one that the value overflows 64 bits. *)
Fixpoint get_uvarint (i : nat) (x s : Z) (buf : bytes) : Z * Z :=
  match buf with
  | [] => (0, 0)
  | b :: buf' =>
      if (i =? maxVarintLen64)%nat then (0, - (Z.of_nat i + 1))
      else if b <? 128 then
        if (i =? maxVarintLen64 - 1)%nat && (1 <? b) then (0, - (Z.of_nat i + 1))
        else (Z.lor x (u64 (Z.shiftl b s)), Z.of_nat i + 1)
      else get_uvarint (S i) (Z.lor x (u64 (Z.shiftl (Z.land b 127) s))) (s + 7) buf'
  end.

Definition uvarint (buf : bytes) : Z * Z := get_uvarint 0 0 0 buf.

Lemma lor_shift_add x b s : 0 <= s -> 0 <= x < 2 ^ s -> Z.lor x (Z.shiftl b s) = x + b * 2 ^ s.
Proof.
  intros Hs Hx. rewrite <- Z.shiftl_mul_pow2 by lia.
  assert (Hd : Z.land x (Z.shiftl b s) = 0).
  { apply Z.bits_inj'. intros n Hn. rewrite Z.land_spec, Z.bits_0. destruct (Z.ltb_spec n s).
    - rewrite Z.shiftl_spec_low by lia. apply andb_false_r.
    - replace (Z.testbit x n) with false; [done|]. symmetry.
      destruct (Z.eq_dec x 0) as [->|]; [apply Z.bits_0|]. apply Z.bits_above_log2; [lia|].
      apply Z.log2_lt_pow2; [lia|]. apply Z.lt_le_trans with (2 ^ s); [lia|]. by apply Z.pow_le_mono_r. }
  rewrite Z.add_nocarry_lxor by done. by rewrite Z.lxor_lor.
Qed.

Lemma low_seven x : 0 <= x -> Z.land (Z.lor (u8 x) 128) 127 = x mod 2 ^ 7.
Proof.
  intros Hx. change 127 with (Z.ones 7). rewrite Z.land_lor_distr_l. change (Z.land 128 (Z.ones 7)) with 0.
  rewrite Z.lor_0_r. unfold u8. rewrite Z.land_ones by lia.
  apply Z.bits_inj'. intros n Hn. rewrite (Z.testbit_mod_pow2 _ 7), (Z.testbit_mod_pow2 x 7) by lia.
  destruct (Z.ltb_spec n 7); [|done]. rewrite Z.mod_pow2_bits_low by lia. done.
Qed.

Lemma high_bit x : 128 <= Z.lor (u8 x) 128.
Proof.
  destruct (u8_range x). assert (0 <= Z.lor (u8 x) 128) by (apply Z.lor_nonneg; lia).
  destruct (Z.lt_ge_cases (Z.lor (u8 x) 128) 128) as [Hlt|]; [|done]. exfalso.
  assert (Ht : Z.testbit (Z.lor (u8 x) 128) 7 = true) by (rewrite Z.lor_spec; apply orb_true_r).
  rewrite <- (Z.mod_small _ (2 ^ 7)), Z.mod_pow2_bits_high in Ht by lia. done.
Qed.

Lemma get_put_uvarint fuel : forall i x s v rest,
  (i + fuel = maxVarintLen64)%nat -> s = 7 * Z.of_nat i -> 0 <= x < 2 ^ s -> 0 <= v -> v < 2 ^ (64 - s) ->
  get_uvarint i x s (put_uvarint fuel v ++ rest) =
    (x + v * 2 ^ s, Z.of_nat i + Z.of_nat (length (put_uvarint fuel v))).
Proof.
  induction fuel as [|fuel IH]; intros i x s v rest Hi Hs Hx Hv Hb; unfold maxVarintLen64 in *.
  { assert (i = 10%nat) by lia. subst. change (64 - 7 * Z.of_nat 10) with (-6) in Hb. simpl in Hb. lia. }
  cbn [put_uvarint]. destruct (Z.leb_spec 128 v) as [Hge|Hlt]; cbn [app get_uvarint length]; unfold maxVarintLen64.
  - destruct (Nat.eqb_spec i 10); [lia|]. destruct (Nat.eqb_spec i 9) as [->|Hn9].
    { assert (s = 63) by lia. subst s. change (2 ^ (64 - 63)) with 2 in Hb. lia. }
    pose proof (high_bit v) as H128.
    destruct (Z.ltb_spec (Z.lor (u8 v) 128) 128); [lia|]. rewrite low_seven by lia.
    assert (Hm := Z.mod_pos_bound v (2 ^ 7) ltac:(lia)).
    assert (Hp : 2 ^ (64 - s) = 2 ^ 7 * 2 ^ (64 - (s + 7))) by (rewrite <- Z.pow_add_r by lia; f_equal; lia).
    assert (Hp' : 2 ^ (s + 7) = 2 ^ s * 2 ^ 7) by (apply Z.pow_add_r; lia).
    assert (Hp'' : 2 ^ 64 = 2 ^ (s + 7) * 2 ^ (64 - (s + 7))) by (rewrite <- Z.pow_add_r by lia; f_equal; lia).
    assert (0 < 2 ^ s) by (apply Z.pow_pos_nonneg; lia).
    assert (0 < 2 ^ (64 - (s + 7))) by (apply Z.pow_pos_nonneg; lia).
    assert (Hsm : is_u64 (Z.shiftl (v mod 2 ^ 7) s)) by (rewrite Z.shiftl_mul_pow2 by lia; unfold is_u64; nia).
    rewrite (u64_small _ Hsm), lor_shift_add by lia.
    rewrite IH; [|lia|lia| | |].
    + rewrite Z.shiftr_div_pow2 by lia. apply (f_equal2 pair); [|lia].
      rewrite Hp'. rewrite (Z.div_mod v (2 ^ 7)) at 3 by lia. ring.
    + nia.
    + rewrite Z.shiftr_div_pow2 by lia. apply Z.div_pos; lia.
    + rewrite Z.shiftr_div_pow2 by lia. apply Z.div_lt_upper_bound; lia.
  - destruct (Nat.eqb_spec i 10); [lia|]. rewrite u8_small by (unfold is_byte; lia).
    destruct (Z.ltb_spec v 128); [|lia].
    replace ((i =? 10 - 1)%nat && (1 <? v)) with false.
    2:{ destruct (Nat.eqb_spec i (10 - 1)) as [->|]; [|done]. destruct (Z.ltb_spec 1 v); [|done].
        replace (64 - s) with 1 in Hb by lia. change (2 ^ 1) with 2 in Hb. lia. }
    assert (Hs64 : s <= 64) by lia.
    assert (Hp'' : 2 ^ 64 = 2 ^ s * 2 ^ (64 - s)) by (rewrite <- Z.pow_add_r by lia; f_equal; lia).
    assert (0 < 2 ^ s) by (apply Z.pow_pos_nonneg; lia).
    assert (Hsm : is_u64 (Z.shiftl v s)) by (rewrite Z.shiftl_mul_pow2 by lia; unfold is_u64; nia).
    rewrite (u64_small _ Hsm), lor_shift_add by lia. done.
Qed.

Lemma uvarint_append x rest : is_u64 x ->
  uvarint (appendUvarint x ++ rest) = (x, Z.of_nat (length (appendUvarint x))).
Proof.
  intros Hx. unfold uvarint, appendUvarint.
  rewrite get_put_uvarint; [|done|done|lia|by destruct Hx|by destruct Hx].
  change (2 ^ 0) with 1. f_equal; lia.
Qed.

Lemma length_put_uvarint n x : (1 <= length (put_uvarint (S n) x))%nat.
Proof. cbn [put_uvarint]. destruct (128 <=? x); cbn [length]; lia. Qed.

Lemma length_appendUvarint x : (1 <= length (appendUvarint x))%nat.
Proof. exact (length_put_uvarint 9 x). Qed.

#[global] Arguments appendUvarint : simpl never.

(** ** The packed value *)

Definition storedDigestMetaKey : bytes := str "storedsha256".

(** Keys a write never drops to make room. *)
Definition metadataProtectedKeys : list bytes := [str "outputid"; str "compression"; storedDigestMetaKey].

Definition objAttrVersion : Z := 1.

(** A [map[string]string]. *)
Abbreviation smap := (gmap bytes bytes).

Record objAttrs := ObjAttrs { meta : smap; audit : smap }.

Inductive objAttrError := errObjAttrCorrupt.

(** The keys in [sort.Strings] order. *)
Definition sorted_keys (kv : smap) : list bytes := sort_slice (map_to_list kv).*1.

Definition kv_bytes (k v : bytes) : bytes :=
  appendUvarint (Z.of_nat (length k)) ++ k ++ appendUvarint (Z.of_nat (length v)) ++ v.

Definition appendKV (buf : bytes) (kv : smap) : bytes :=
  foldl (fun buf k => buf ++ kv_bytes k (default [] (kv !! k))) buf (sorted_keys kv).

Definition encodeObjAttrs (a : objAttrs) : bytes :=
  let buf := [objAttrVersion] in
  let buf := buf ++ appendUvarint (Z.of_nat (size (meta a))) in
  let buf := buf ++ appendUvarint (Z.of_nat (size (audit a))) in
  let buf := appendKV buf (meta a) in
  appendKV buf (audit a).

Definition readUvarintString (buf : bytes) : option (bytes * bytes) :=
  let '(size, width) := uvarint buf in
  if (width <=? 0) || (u64 (Z.of_nat (length buf) - width) <? size) then None
  else
    let e := Z.to_nat (width + size) in
    Some (drop (Z.to_nat width) (take e buf), drop e buf).

Fixpoint decode_pairs_loop (count : nat) (out : smap) (buf : bytes) : option (smap * bytes) :=
  match count with
  | O => Some (out, buf)
  | S count' =>
      match readUvarintString buf with
      | None => None
      | Some (key, rest) =>
          match readUvarintString rest with
          | None => None
          | Some (val, rest) => decode_pairs_loop count' (<[key := val]> out) rest
          end
      end
  end.

Definition decodePairs (buf : bytes) (count : Z) : option (smap * bytes) :=
  decode_pairs_loop (Z.to_nat count) ∅ buf.

Definition decodeObjAttrs (buf : bytes) : objAttrs + objAttrError :=
  match buf with
  | [] => inr errObjAttrCorrupt
  | version :: buf =>
      if negb (version =? objAttrVersion) then inr errObjAttrCorrupt
      else
        let '(nMeta, width) := uvarint buf in
        if width <=? 0 then inr errObjAttrCorrupt
        else
          let buf := drop (Z.to_nat width) buf in
          let '(nAudit, width) := uvarint buf in
          if width <=? 0 then inr errObjAttrCorrupt
          else
            let buf := drop (Z.to_nat width) buf in
            let len := Z.of_nat (length buf) in
            if (len <? nMeta) || (len <? nAudit) || (len <? u64 (u64 (nMeta + nAudit) * 2)) then inr errObjAttrCorrupt
            else
              match decodePairs buf nMeta with
              | None => inr errObjAttrCorrupt
              | Some (m, buf) =>
                  match decodePairs buf nAudit with
                  | None => inr errObjAttrCorrupt
                  | Some (a, buf) =>
                      if negb (length buf =? 0)%nat then inr errObjAttrCorrupt else inl (ObjAttrs m a)
                  end
              end
  end.

(** ** Decoding what was encoded *)

Definition pairs_bytes (l : list (bytes * bytes)) : bytes := flat_map (fun kv => kv_bytes kv.1 kv.2) l.

Definition sorted_pairs (kv : smap) : list (bytes * bytes) :=
  map (fun k => (k, default [] (kv !! k))) (sorted_keys kv).

Lemma appendKV_pairs buf kv : appendKV buf kv = buf ++ pairs_bytes (sorted_pairs kv).
Proof.
  unfold appendKV, sorted_pairs. generalize (sorted_keys kv) as ks. intros ks. revert buf.
  induction ks as [|k ks IH]; intros buf; cbn [foldl map pairs_bytes flat_map].
  - by rewrite app_nil_r.
  - rewrite IH. unfold pairs_bytes. by rewrite <- app_assoc.
Qed.

Lemma sorted_keys_perm kv : sorted_keys kv ≡ₚ (map_to_list kv).*1.
Proof. apply sort_slice_perm. Qed.

Lemma elem_of_sorted_keys kv k : k ∈ sorted_keys kv <-> is_Some (kv !! k).
Proof.
  rewrite sorted_keys_perm, list_elem_of_fmap. split.
  - intros ([k' v] & -> & Hv%elem_of_map_to_list). by exists v.
  - intros [v Hv]. exists (k, v). split; [done|]. by apply elem_of_map_to_list.
Qed.

Lemma sorted_keys_nodup kv : NoDup (sorted_keys kv).
Proof. rewrite sorted_keys_perm. apply NoDup_fst_map_to_list. Qed.

Lemma length_sorted_keys kv : length (sorted_keys kv) = size kv.
Proof. rewrite sorted_keys_perm, length_fmap. apply length_map_to_list. Qed.

Lemma length_sorted_pairs kv : length (sorted_pairs kv) = size kv.
Proof. unfold sorted_pairs. rewrite length_map. apply length_sorted_keys. Qed.

(** Inserting the pairs one by one rebuilds the map. *)
Lemma insert_keys (kv : smap) (ks : list bytes) : forall (out : smap) k, NoDup ks ->
  foldl (fun m p => <[p.1 := p.2]> m) out (map (fun k => (k, default [] (kv !! k))) ks) !! k =
    if bool_decide (k ∈ ks) then Some (default [] (kv !! k)) else out !! k.
Proof.
  induction ks as [|k' ks IH]; intros out k Hnd; cbn [foldl map].
  - by rewrite bool_decide_false by apply not_elem_of_nil.
  - apply NoDup_cons in Hnd as [Hk' Hnd]. rewrite IH by done. case_bool_decide as H1.
    + rewrite bool_decide_true; [done|]. by apply list_elem_of_further.
    + cbn [fst snd]. destruct (decide (k = k')) as [->|Hne].
      * rewrite lookup_insert_eq, bool_decide_true; [done|]. apply list_elem_of_here.
      * rewrite lookup_insert_ne, bool_decide_false; [done| |done]. by intros [?|?]%elem_of_cons.
Qed.

Lemma insert_sorted_pairs kv : foldl (fun m p => <[p.1 := p.2]> m) ∅ (sorted_pairs kv) = kv.
Proof.
  apply map_eq. intros k. unfold sorted_pairs. rewrite insert_keys by apply sorted_keys_nodup. case_bool_decide as Hk.
  - apply elem_of_sorted_keys in Hk as [v Hv]. by rewrite Hv.
  - rewrite lookup_empty. destruct (kv !! k) as [v|] eqn:E; [|done]. destruct Hk. apply elem_of_sorted_keys. by exists v.
Qed.

Lemma readUvarintString_append s rest : Z.of_nat (length s) < 2 ^ 63 -> Z.of_nat (length rest) < 2 ^ 63 ->
  readUvarintString (appendUvarint (Z.of_nat (length s)) ++ s ++ rest) = Some (s, rest).
Proof.
  intros Hs Hr. unfold readUvarintString. rewrite uvarint_append by (unfold is_u64; lia).
  set (w := appendUvarint _). pose proof (length_appendUvarint (Z.of_nat (length s))) as Hw. fold w in Hw.
  rewrite !length_app, u64_small by (unfold is_u64; lia).
  destruct (Z.leb_spec (Z.of_nat (length w)) 0); [lia|].
  match goal with |- context [?a <? ?b] => destruct (Z.ltb_spec a b); [lia|] end. cbn [orb].
  rewrite <- Nat2Z.inj_add, !Nat2Z.id. do 2 f_equal.
  - rewrite app_assoc, take_app_length' by (rewrite length_app; done). apply drop_app_length.
  - rewrite app_assoc, drop_app_length' by (rewrite length_app; done). done.
Qed.

Lemma decode_pairs_bytes l : forall out rest,
  Z.of_nat (length (pairs_bytes l ++ rest)) < 2 ^ 63 ->
  decode_pairs_loop (length l) out (pairs_bytes l ++ rest) =
    Some (foldl (fun m p => <[p.1 := p.2]> m) out l, rest).
Proof.
  induction l as [|[k v] l IH]; intros out rest Hlen; cbn [length foldl decode_pairs_loop]; [done|].
  cbn [pairs_bytes flat_map fst snd] in *. fold (pairs_bytes l) in *. unfold kv_bytes in *.
  rewrite <- !app_assoc in *. rewrite !length_app in Hlen.
  rewrite readUvarintString_append by (rewrite ?length_app; lia).
  rewrite readUvarintString_append by (rewrite ?length_app; lia).
  apply IH. rewrite length_app. lia.
Qed.

Lemma length_pairs_bytes l : (2 * length l <= length (pairs_bytes l))%nat.
Proof.
  induction l as [|[k v] l IH]; [done|]. cbn [pairs_bytes flat_map fst snd length]. fold (pairs_bytes l).
  unfold kv_bytes. rewrite !length_app.
  pose proof (length_appendUvarint (Z.of_nat (length k))). pose proof (length_appendUvarint (Z.of_nat (length v))). lia.
Qed.

Lemma decodePairs_append kv rest :
  Z.of_nat (length (pairs_bytes (sorted_pairs kv) ++ rest)) < 2 ^ 63 ->
  decodePairs (pairs_bytes (sorted_pairs kv) ++ rest) (Z.of_nat (size kv)) = Some (kv, rest).
Proof.
  intros Hl. unfold decodePairs. rewrite Nat2Z.id, <- length_sorted_pairs.
  rewrite decode_pairs_bytes by done. by rewrite insert_sorted_pairs.
Qed.

Lemma encodeObjAttrs_eq a :
  encodeObjAttrs a = objAttrVersion :: appendUvarint (Z.of_nat (size (meta a))) ++
    appendUvarint (Z.of_nat (size (audit a))) ++
    pairs_bytes (sorted_pairs (meta a)) ++ pairs_bytes (sorted_pairs (audit a)).
Proof. unfold encodeObjAttrs. rewrite !appendKV_pairs. cbn [app]. by rewrite <- !app_assoc. Qed.

Lemma decode_encode a :
  Z.of_nat (length (encodeObjAttrs a)) < 2 ^ 63 -> decodeObjAttrs (encodeObjAttrs a) = inl a.
Proof.
  rewrite encodeObjAttrs_eq. cbn [length]. rewrite !length_app. intros Hl.
  pose proof (length_pairs_bytes (sorted_pairs (meta a))) as Hm. rewrite length_sorted_pairs in Hm.
  pose proof (length_pairs_bytes (sorted_pairs (audit a))) as Ha. rewrite length_sorted_pairs in Ha.
  pose proof (length_appendUvarint (Z.of_nat (size (meta a)))) as Hum.
  pose proof (length_appendUvarint (Z.of_nat (size (audit a)))) as Hua.
  unfold decodeObjAttrs. rewrite Z.eqb_refl. cbn [negb].
  rewrite uvarint_append by (unfold is_u64; lia).
  match goal with |- context [?x <=? 0] => destruct (Z.leb_spec x 0); [lia|] end. rewrite Nat2Z.id, drop_app_length.
  rewrite uvarint_append by (unfold is_u64; lia).
  match goal with |- context [?x <=? 0] => destruct (Z.leb_spec x 0); [lia|] end. rewrite Nat2Z.id, drop_app_length.
  rewrite !length_app, !u64_small by (unfold is_u64; try rewrite u64_small by (unfold is_u64; lia); lia).
  repeat match goal with |- context [?x <? ?y] => destruct (Z.ltb_spec x y); [lia|] end. cbn [orb].
  rewrite decodePairs_append by (rewrite length_app; lia).
  rewrite <- (app_nil_r (pairs_bytes (sorted_pairs (audit a)))).
  rewrite decodePairs_append by (rewrite length_app; simpl; lia). by destruct a.
Qed.

(** What [decodeObjAttrs] reads back is what [encodeObjAttrs] packed, for
    every pair of maps whose encoding is a Go slice; so the encoding is also
    one to one. *)
Theorem objAttrs_roundtrip a b :
  Z.of_nat (length (encodeObjAttrs a)) < 2 ^ 63 -> Z.of_nat (length (encodeObjAttrs b)) < 2 ^ 63 ->
  decodeObjAttrs (encodeObjAttrs a) = inl a /\ (encodeObjAttrs a = encodeObjAttrs b -> a = b).
Proof.
  intros Ha Hb. split; [by apply decode_encode|]. intros Heq.
  pose proof (decode_encode a Ha) as Hda. rewrite Heq, decode_encode in Hda by done. congruence.
Qed.

Definition sample_attrs : objAttrs :=
  ObjAttrs {[ str "outputid" := str "0a1b"; str "pkg" := str "net/http" ]} {[ str "user" := str "ci" ]}.

Lemma objAttrs_roundtrip_witness :
  decodeObjAttrs (encodeObjAttrs sample_attrs) = inl sample_attrs /\
  encodeObjAttrs sample_attrs = [1; 2; 1] ++ kv_bytes (str "outputid") (str "0a1b") ++
    kv_bytes (str "pkg") (str "net/http") ++ kv_bytes (str "user") (str "ci").
Proof.
  split; [|vm_compute; reflexivity].
  apply (objAttrs_roundtrip sample_attrs sample_attrs); vm_compute; reflexivity.
Defined.

(** ** Writing and reading the attribute *)

Inductive errno := E2BIG | ENOSPC | EDQUOT | ERANGE | ENODATA | EIO.

Definition isNoSpace (err : option errno) : bool :=
  match err with
  | Some (E2BIG | ENOSPC | EDQUOT) => true
  | _ => false
  end.

(** [Setxattr] and [Getxattr] on one file; a buffer of length 0 asks for the
    size. *)
Class XattrOps (F : Type) := {
  setxattr : F -> bytes -> F * option errno;
  getxattr : F -> nat -> (nat * bytes) + errno
}.

(** setxattr(2), getxattr(2), xattr(7): a value is at most 64 kB. *)
Class XattrLaws (F : Type) `{!XattrOps F} := {
  xattr : F -> option bytes;
  setxattr_ok : forall f v f', setxattr f v = (f', None) -> xattr f' = Some v /\ Z.of_nat (length v) <= 65536;
  setxattr_fail : forall f v f' e, setxattr f v = (f', Some e) -> xattr f' = xattr f;
  getxattr_absent : forall f c, xattr f = None -> getxattr f c = inr ENODATA;
  getxattr_size : forall f v, xattr f = Some v -> getxattr f 0 = inl (length v, []);
  getxattr_range : forall f v c, xattr f = Some v -> (0 < c < length v)%nat -> getxattr f c = inr ERANGE;
  getxattr_value : forall f v c, xattr f = Some v -> (0 < c)%nat -> (length v <= c)%nat -> getxattr f c = inl (length v, v)
}.

(** The order in which the [n]th [range] over a map visits it. *)
Class MapRange := {
  range_order : nat -> smap -> list (bytes * bytes);
  range_perm : forall n m, range_order n m ≡ₚ map_to_list m
}.

Section attrs.
Context {F : Type} `{!XattrOps F} `{!XattrLaws F} `{!MapRange}.

Definition protected_key (k : bytes) : bool := bool_decide (k ∈ metadataProtectedKeys).

(** The scan for the longest optional value. *)
Definition pick_longest (n : nat) (m : smap) : bytes :=
  foldl (fun longest kv =>
    if negb (protected_key kv.1) &&
       (bytes_eqb longest [] || (length (default [] (m !! longest)) <? length kv.2)%nat)
    then kv.1 else longest) [] (range_order n m).

(** The loop of [writeObjAttrs]; every round deletes a key, so the number of
    keys is fuel enough. *)
Fixpoint drop_loop (fuel n : nat) (f : F) (attrs : objAttrs) (err : option errno) (dropped : list bytes)
    : F * option errno * objAttrs * list bytes :=
  if negb (isNoSpace err) then (f, err, attrs, dropped)
  else
    let longest := pick_longest n (meta attrs) in
    if bytes_eqb longest [] then (f, err, attrs, dropped)
    else
      match fuel with
      | O => (f, err, attrs, dropped)
      | S fuel' =>
          let attrs := ObjAttrs (delete longest (meta attrs)) (audit attrs) in
          let '(f, err) := setxattr f (encodeObjAttrs attrs) in
          drop_loop fuel' (S n) f attrs err (dropped ++ [longest])
      end.

(** [writeObjAttrs]: the file, the error, the attributes of the last attempt
    and the names of the dropped fields. *)
Definition writeObjAttrs (f : F) (attrs : objAttrs) : F * option errno * objAttrs * list bytes :=
  let '(f, err) := setxattr f (encodeObjAttrs attrs) in
  if negb (isNoSpace err) then (f, err, attrs, [])
  else
    let '(f, err, attrs, dropped) :=
      if (0 <? size (audit attrs))%nat then
        let dropped := map (fun kv => str "audit." ++ kv.1) (range_order 0 (audit attrs)) in
        let attrs := ObjAttrs (meta attrs) ∅ in
        let '(f, err) := setxattr f (encodeObjAttrs attrs) in
        (f, err, attrs, dropped)
      else (f, err, attrs, []) in
    drop_loop (size (meta attrs)) 1 f attrs err dropped.

Definition xattrValueBufSize : nat := 1024.

Definition emptyObjAttrs : objAttrs := ObjAttrs ∅ ∅.

Definition readObjAttrs (f : F) : objAttrs :=
  let r :=
    match getxattr f xattrValueBufSize with
    | inr ERANGE =>
        match getxattr f 0 with
        | inl (size, _) => getxattr f size
        | inr e => inr e
        end
    | r => r
    end in
  match r with
  | inr _ => emptyObjAttrs
  | inl (size, buf) =>
      match decodeObjAttrs (take size buf) with
      | inl attrs => attrs
      | inr _ => emptyObjAttrs
      end
  end.

Definition write_result (r : F * option errno * objAttrs * list bytes) : F * option errno := (r.1.1.1, r.1.1.2).

Definition setObjectAttrs (f : F) (m a : smap) : F * option errno := write_result (writeObjAttrs f (ObjAttrs m a)).

Definition setMetadata (f : F) (m : smap) : F * option errno :=
  let attrs := readObjAttrs f in
  write_result (writeObjAttrs f (ObjAttrs (m ∪ meta attrs) (audit attrs))).

Definition setAudit (f : F) (a : smap) : F * option errno :=
  if (size a =? 0)%nat then (f, None)
  else
    let attrs := readObjAttrs f in
    write_result (writeObjAttrs f (ObjAttrs (meta attrs) (a ∪ audit attrs))).

Definition getMetadata (f : F) : smap := meta (readObjAttrs f).
Definition getAudit (f : F) : smap := audit (readObjAttrs f).

(** ** What a write keeps *)

(** One step of the scan for the longest value. *)
Definition longest_step (m : smap) (longest : bytes) (kv : bytes * bytes) : bytes :=
  if negb (protected_key kv.1) &&
     (bytes_eqb longest [] || (length (default [] (m !! longest)) <? length kv.2)%nat)
  then kv.1 else longest.

Definition len_at (m : smap) (k : bytes) : nat := length (default [] (m !! k)).

Lemma longest_fold (m : smap) l : forall acc,
  (forall k v, (k, v) ∈ l -> m !! k = Some v /\ k <> []) ->
  (acc = [] \/ (is_Some (m !! acc) /\ protected_key acc = false)) ->
  let p := foldl (longest_step m) acc l in
  (p = [] \/ (is_Some (m !! p) /\ protected_key p = false)) /\
  (p = [] -> acc = [] /\ forall k v, (k, v) ∈ l -> protected_key k = true) /\
  (acc <> [] -> (len_at m acc <= len_at m p)%nat) /\
  (forall k v, (k, v) ∈ l -> protected_key k = false -> (length v <= len_at m p)%nat).
Proof.
  induction l as [|[k v] l IH]; intros acc Hl Hacc; cbn [foldl].
  { split_and!; [done|by split; [|intros ?? []%not_elem_of_nil]|done|by intros ?? []%not_elem_of_nil]. }
  assert (Hkv : m !! k = Some v /\ k <> []) by (apply Hl, list_elem_of_here). destruct Hkv as [Hk Hne].
  assert (Hl' : forall k v, (k, v) ∈ l -> m !! k = Some v /\ k <> []) by (intros; apply Hl; by apply list_elem_of_further).
  set (acc' := longest_step m acc (k, v)).
  assert (Hacc' : acc' = [] \/ (is_Some (m !! acc') /\ protected_key acc' = false)).
  { unfold acc', longest_step. cbn [fst snd]. destruct (protected_key k) eqn:Hp; [done|]. cbn [negb andb].
    destruct (_ || _); [|done]. right. by rewrite Hk. }
  destruct (IH acc' Hl' Hacc') as (H1 & H2 & H3 & H4). cbv zeta. change (longest_step m acc (k, v)) with acc'.
  set (p := foldl (longest_step m) acc' l) in *. clearbody p. split_and!; [done| | |].
  - intros Hp. destruct (H2 Hp) as [Ha Hall]. unfold acc', longest_step in Ha. cbn [fst snd] in Ha.
    destruct (protected_key k) eqn:Hpk; cbn [negb andb] in Ha.
    + split; [done|]. intros k' v' [[= -> ->]|Hin]%elem_of_cons; [done|by eapply Hall].
    + destruct (bytes_eqb acc []) eqn:Ea; cbn [orb] in Ha; [done|].
      destruct (_ <? _)%nat; [done|]. subst acc. done.
  - intros Hne'. unfold acc', longest_step in H3. cbn [fst snd] in H3.
    destruct (negb (protected_key k)); cbn [andb] in H3; [|by apply H3].
    destruct (bytes_eqb acc []) eqn:Ea; [by apply bytes_eqb_eq in Ea|]. cbn [orb] in H3.
    match type of H3 with context [(?a <? ?b)%nat] => destruct (Nat.ltb_spec a b) end; [|by apply H3].
    specialize (H3 Hne). unfold len_at in *. rewrite Hk in H3. cbn [default] in H3. simpl in *. lia.
  - intros k' v' [[= -> ->]|Hin]%elem_of_cons Hp; [|by eapply H4].
    unfold acc', longest_step in H3. cbn [fst snd] in H3. rewrite Hp in H3. cbn [negb andb] in H3.
    destruct (bytes_eqb acc []) eqn:Ea; cbn [orb] in H3.
    { specialize (H3 Hne). unfold len_at in *. by rewrite Hk in H3. }
    match type of H3 with context [(?a <? ?b)%nat] => destruct (Nat.ltb_spec a b) as [Hlt|Hge] end.
    { specialize (H3 Hne). unfold len_at in *. by rewrite Hk in H3. }
    apply not_true_iff_false in Ea. rewrite bytes_eqb_eq in Ea. specialize (H3 Ea). unfold len_at in *. lia.
Qed.

Lemma pick_longest_spec (n : nat) (m : smap) :
  m !! [] = None ->
  let p := pick_longest n m in
  (p = [] -> forall k v, m !! k = Some v -> protected_key k = true) /\
  (p <> [] -> is_Some (m !! p) /\ protected_key p = false /\
     forall k v, m !! k = Some v -> protected_key k = false -> (length v <= len_at m p)%nat).
Proof.
  intros Hm. assert (Hin : forall k v, (k, v) ∈ range_order n m <-> m !! k = Some v).
  { intros k v. rewrite range_perm. apply elem_of_map_to_list. }
  destruct (longest_fold m (range_order n m) []) as (H1 & H2 & _ & H4).
  { intros k v Hk%Hin. split; [done|]. intros ->. congruence. }
  { by left. }
  change (foldl (longest_step m) [] (range_order n m)) with (pick_longest n m) in *. cbv zeta. split.
  - intros Hp k v Hk%Hin. by eapply (proj2 (H2 Hp)).
  - intros Hp. destruct H1 as [?|[? ?]]; [done|]. split_and!; [done|done|]. intros k v Hk%Hin. by apply H4.
Qed.

(** [m'] is what dropping optional values, longest first, leaves of [m]. *)
Definition kept (m m' : smap) : Prop :=
  m' ⊆ m /\
  (forall k, k ∈ metadataProtectedKeys -> m' !! k = m !! k) /\
  (forall k v k' v', m !! k = Some v -> m' !! k = None -> m' !! k' = Some v' ->
     k' ∉ metadataProtectedKeys -> (length v' <= length v)%nat).

Lemma kept_refl m : kept m m.
Proof. split_and!; [done|done|]. intros. congruence. Qed.

Lemma protected_key_spec k : protected_key k = true <-> k ∈ metadataProtectedKeys.
Proof. apply bool_decide_eq_true. Qed.

Lemma kept_delete (n : nat) (m m' : smap) :
  m !! [] = None -> pick_longest n m <> [] -> kept (delete (pick_longest n m) m) m' -> kept m m'.
Proof.
  intros Hm Hp (Hsub & Hprot & Hlong). destruct (pick_longest_spec n m Hm) as [_ Hs].
  destruct (Hs Hp) as ([v0 Hv0] & Hpr & Hmax). set (p := pick_longest n m) in *. split_and!.
  - etrans; [exact Hsub|]. apply delete_subseteq.
  - intros k Hk. rewrite Hprot by done. rewrite lookup_delete_ne; [done|]. intros <-.
    apply protected_key_spec in Hk. congruence.
  - intros k v k' v' Hkv Hk' Hkv' Hn. destruct (decide (k = p)) as [->|Hne].
    + assert (Hin : m !! k' = Some v').
      { eapply lookup_weaken; [exact Hkv'|]. etrans; [exact Hsub|]. apply delete_subseteq. }
      specialize (Hmax k' v' Hin). unfold len_at in Hmax. rewrite Hv0 in Hmax. simplify_eq. apply Hmax.
      apply not_true_iff_false. by rewrite protected_key_spec.
    + apply (Hlong k v k' v'); [|done..]. by rewrite lookup_delete_ne.
Qed.

(** The state a failed or successful write leaves behind. *)
Definition outcome (f f' : F) (err : option errno) (a' : objAttrs) : Prop :=
  match err with
  | None => xattr f' = Some (encodeObjAttrs a') /\ Z.of_nat (length (encodeObjAttrs a')) <= 65536
  | Some _ => xattr f' = xattr f
  end.

Lemma setxattr_outcome f a f' err : setxattr f (encodeObjAttrs a) = (f', err) -> outcome f f' err a.
Proof. intros Hs. destruct err as [e|]; simpl; [by eapply setxattr_fail|by eapply setxattr_ok]. Qed.

Lemma drop_loop_spec fuel : forall n f a err d f' err' a' d',
  (size (meta a) <= fuel)%nat -> meta a !! [] = None ->
  drop_loop fuel n f a err d = (f', err', a', d') ->
  kept (meta a) (meta a') /\ audit a' = audit a /\
  (isNoSpace err' = true -> forall k v, meta a' !! k = Some v -> k ∈ metadataProtectedKeys) /\
  (isNoSpace err = false -> f' = f /\ err' = err /\ a' = a) /\
  (isNoSpace err = true -> (f' = f /\ err' = err) \/ outcome f f' err' a').
Proof.
  induction fuel as [|fuel IH]; intros n f a err d f' err' a' d' Hsz Hm Hrun.
  - assert (Hem : meta a = ∅) by (apply map_size_empty_inv; lia).
    assert (Heq : f' = f /\ err' = err /\ a' = a) by (cbn [drop_loop] in Hrun; repeat case_in Hrun; by simplify_eq).
    destruct Heq as (-> & -> & ->). split_and!; [apply kept_refl|done| |done|by left].
    intros _ k v. rewrite Hem. by rewrite lookup_empty.
  - cbn [drop_loop] in Hrun. destruct (isNoSpace err) eqn:Es; cbn [negb] in Hrun.
    2:{ simplify_eq. split_and!; [apply kept_refl|done|by rewrite Es|done|done]. }
    destruct (pick_longest_spec n (meta a) Hm) as [Hp0 Hp1].
    destruct (bytes_eqb (pick_longest n (meta a)) []) eqn:Ep.
    + apply bytes_eqb_eq in Ep. simplify_eq. split_and!; [apply kept_refl|done| |done|by left].
      intros _ k v Hk. apply protected_key_spec. by eapply Hp0.
    + apply not_true_iff_false in Ep. rewrite bytes_eqb_eq in Ep. destruct (Hp1 Ep) as ([v0 Hv0] & _ & _).
      destruct (setxattr f _) as [f1 err1] eqn:Eset in Hrun. pose proof (setxattr_outcome _ _ _ _ Eset) as Ho.
      apply IH in Hrun as (Hk & Ha & Hn & Hf & Ht); cbn [meta audit] in *.
      * split_and!; [by eapply kept_delete|done|done|done|]. intros _. right.
        destruct (isNoSpace err1) eqn:E1.
        -- destruct (Ht eq_refl) as [[-> ->]|Hout].
           ++ destruct err1 as [e|]; [|done]. exact Ho.
           ++ destruct err1 as [e|]; [|done]. simpl in Ho. destruct err'; simpl in *; congruence.
        -- destruct (Hf eq_refl) as (-> & -> & ->). exact Ho.
      * rewrite map_size_delete_Some by by eexists. lia.
      * rewrite lookup_delete_None. by right.
Qed.

Lemma writeObjAttrs_outcome f a f' err a' d :
  meta a !! [] = None -> writeObjAttrs f a = (f', err, a', d) ->
  kept (meta a) (meta a') /\ (audit a' = audit a \/ audit a' = ∅) /\ (a' <> a -> audit a' = ∅) /\ outcome f f' err a' /\
  (isNoSpace err = true -> audit a' = ∅ /\ forall k v, meta a' !! k = Some v -> k ∈ metadataProtectedKeys) /\
  (forall f1, setxattr f (encodeObjAttrs a) = (f1, None) -> a' = a /\ d = []).
Proof.
  intros Hm Hrun. unfold writeObjAttrs in Hrun. destruct (setxattr f _) as [f1 err1] eqn:E1 in Hrun.
  pose proof (setxattr_outcome _ _ _ _ E1) as H1. destruct (isNoSpace err1) eqn:Es1; cbn [negb] in Hrun.
  2:{ simplify_eq. split_and!; [apply kept_refl|by left|done|done|by rewrite Es1|done]. }
  assert (Hfail : forall f2, setxattr f (encodeObjAttrs a) = (f2, None) -> False).
  { intros f2 Hok. rewrite E1 in Hok. by simplify_eq. }
  assert (Hx1 : xattr f1 = xattr f) by (by destruct err1).
  destruct (Nat.ltb_spec 0 (size (audit a))) as [Hpos|Hz].
  - destruct (setxattr f1 _) as [f2 err2] eqn:E2 in Hrun. pose proof (setxattr_outcome _ _ _ _ E2) as H2.
    apply drop_loop_spec in Hrun as (Hk & Ha & Hn & Hf & Ht); cbn [meta audit] in *; [|lia|done].
    split_and!; [done|by right|by intros _| |by intros Hs; split; [done|by apply Hn]|by intros f3 ?%Hfail].
    destruct (isNoSpace err2) eqn:Es2.
    + assert (Hx2 : xattr f2 = xattr f) by (destruct err2; simpl in H2; first [congruence|done]).
      destruct (Ht eq_refl) as [[-> ->]|Hout]; [by destruct err2|]. destruct err; simpl in *; [congruence|done].
    + destruct (Hf eq_refl) as (-> & -> & ->). destruct err2; simpl in *; congruence.
  - assert (Hem : audit a = ∅) by (apply map_size_empty_inv; lia).
    apply drop_loop_spec in Hrun as (Hk & Ha & Hn & _ & Ht); [|lia|done].
    split_and!; [done|by left|intros _; congruence| |intros Hs; split; [congruence|by apply Hn]|by intros f3 ?%Hfail].
    destruct (Ht Es1) as [[-> ->]|Hout]; [by destruct err1|]. destruct err; simpl in *; congruence.
Qed.

(** Reading depends on the stored value only. *)
Lemma readObjAttrs_value f v : xattr f = Some v ->
  readObjAttrs f = match decodeObjAttrs v with inl attrs => attrs | inr _ => emptyObjAttrs end.
Proof.
  intros Hv. unfold readObjAttrs, xattrValueBufSize.
  destruct (Nat.le_gt_cases (length v) 1024) as [Hle|Hgt].
  - rewrite (getxattr_value f v) by (done || lia). by rewrite take_ge.
  - rewrite (getxattr_range f v) by (done || lia). rewrite (getxattr_size f v) by done.
    rewrite (getxattr_value f v) by (done || lia). by rewrite take_ge.
Qed.

Lemma readObjAttrs_encoded f a : xattr f = Some (encodeObjAttrs a) -> Z.of_nat (length (encodeObjAttrs a)) <= 65536 ->
  readObjAttrs f = a.
Proof.
  intros Hx Hl. rewrite (readObjAttrs_value f _ Hx). rewrite decode_encode by lia. done.
Qed.

Lemma readObjAttrs_absent f : xattr f = None -> readObjAttrs f = emptyObjAttrs.
Proof. intros Hx. unfold readObjAttrs. by rewrite getxattr_absent. Qed.

(** Whatever the file held, two files with the same value read the same. *)
Lemma readObjAttrs_ext f f' : xattr f = xattr f' -> readObjAttrs f = readObjAttrs f'.
Proof.
  destruct (xattr f) as [v|] eqn:E; intros E'; symmetry in E'; [|by rewrite !readObjAttrs_absent].
  unfold readObjAttrs, xattrValueBufSize. destruct (Nat.le_gt_cases (length v) 1024) as [Hle|Hgt].
  - by rewrite (getxattr_value f v), (getxattr_value f' v) by (done || lia).
  - rewrite (getxattr_range f v), (getxattr_range f' v) by (done || lia).
    rewrite (getxattr_size f v), (getxattr_size f' v) by done.
    by rewrite (getxattr_value f v), (getxattr_value f' v) by (done || lia).
Qed.

(** The same frame without a condition on the names. *)
Lemma drop_loop_frame fuel : forall n f a err d f' err' a' d',
  drop_loop fuel n f a err d = (f', err', a', d') ->
  (f' = f /\ err' = err /\ a' = a) \/ (isNoSpace err = true /\ outcome f f' err' a').
Proof.
  induction fuel as [|fuel IH]; intros n f a err d f' err' a' d' Hrun.
  - left. cbn [drop_loop] in Hrun. repeat case_in Hrun; by simplify_eq.
  - cbn [drop_loop] in Hrun. destruct (isNoSpace err) eqn:Es; cbn [negb] in Hrun; [|left; by simplify_eq].
    destruct (bytes_eqb _ []); [left; by simplify_eq|].
    destruct (setxattr f _) as [f1 err1] eqn:Eset in Hrun. pose proof (setxattr_outcome _ _ _ _ Eset) as Ho.
    right. split; [done|]. apply IH in Hrun as [(-> & -> & ->)|[Hns Hout]]; [done|].
    destruct err1 as [e|]; [|done]. simpl in Ho. destruct err'; simpl in *; congruence.
Qed.

Lemma writeObjAttrs_frame f a f' err a' d : writeObjAttrs f a = (f', err, a', d) -> outcome f f' err a'.
Proof.
  intros Hrun. unfold writeObjAttrs in Hrun. destruct (setxattr f _) as [f1 err1] eqn:E1 in Hrun.
  pose proof (setxattr_outcome _ _ _ _ E1) as H1. destruct (isNoSpace err1) eqn:Es1; cbn [negb] in Hrun; [|by simplify_eq].
  assert (Hx1 : xattr f1 = xattr f) by (by destruct err1).
  destruct (0 <? size (audit a))%nat.
  - destruct (setxattr f1 _) as [f2 err2] eqn:E2 in Hrun. pose proof (setxattr_outcome _ _ _ _ E2) as H2.
    assert (H2' : outcome f f2 err2 (ObjAttrs (meta a) ∅)) by (destruct err2; simpl in *; congruence).
    apply drop_loop_frame in Hrun as [(-> & -> & ->)|[Hns Hout]]; [done|].
    assert (xattr f2 = xattr f) by (by destruct err2). destruct err; simpl in *; congruence.
  - apply drop_loop_frame in Hrun as [(-> & -> & ->)|[Hns Hout]]; [by destruct err1|].
    destruct err; simpl in *; congruence.
Qed.

(** A merge that fails leaves the attributes as they were. *)
Lemma setMetadata_fail f m f' e : setMetadata f m = (f', Some e) -> readObjAttrs f' = readObjAttrs f.
Proof.
  unfold setMetadata. destruct (writeObjAttrs f _) as [[[g x] a] d] eqn:E. unfold write_result. cbn [fst snd].
  intros [= -> ->]. apply writeObjAttrs_frame in E. by apply readObjAttrs_ext.
Qed.

(** A merge that succeeds keeps the protected keys. *)
Lemma setMetadata_ok f m f' :
  (m ∪ getMetadata f) !! [] = None -> setMetadata f m = (f', None) ->
  getMetadata f' ⊆ m ∪ getMetadata f /\
  forall k, k ∈ metadataProtectedKeys -> getMetadata f' !! k = (m ∪ getMetadata f) !! k.
Proof.
  intros Hm. unfold setMetadata. destruct (writeObjAttrs f _) as [[[g x] a] d] eqn:E. unfold write_result. cbn [fst snd].
  intros [= -> ->]. apply writeObjAttrs_outcome in E as ((Hs & Hp & _) & _ & _ & [Hx Hl] & _); [|done].
  unfold getMetadata. by rewrite (readObjAttrs_encoded _ _ Hx Hl).
Qed.

(** A write of an object's attributes keeps what the protocol needs.
    However the file system limits the value: when the write succeeds, reading
    the file gives attributes whose metadata is part of what was asked for, with
    every protected key (output id, compression, stored digest) at its value,
    optional values dropped longest first, and metadata dropped only after all
    audit fields; when the first attempt fits, nothing is dropped.  When the
    write fails, the file reads as before, and if it failed for lack of room,
    only protected keys were left to write.  (Metadata names are not empty.) *)
Theorem writeObjAttrs_keeps f a f' err a' d :
  meta a !! [] = None -> writeObjAttrs f a = (f', err, a', d) ->
  let got := readObjAttrs f' in
  (err = None ->
     meta got ⊆ meta a /\
     (forall k, k ∈ metadataProtectedKeys -> meta got !! k = meta a !! k) /\
     (forall k v k' v', meta a !! k = Some v -> meta got !! k = None -> meta got !! k' = Some v' ->
        k' ∉ metadataProtectedKeys -> (length v' <= length v)%nat) /\
     (meta got <> meta a -> audit got = ∅) /\ (audit got = audit a \/ audit got = ∅)) /\
  (err <> None -> got = readObjAttrs f) /\
  (isNoSpace err = true -> forall k v, meta a' !! k = Some v -> k ∈ metadataProtectedKeys) /\
  (forall f1, setxattr f (encodeObjAttrs a) = (f1, None) -> got = a /\ d = []).
Proof.
  intros Hm Hrun. pose proof (writeObjAttrs_outcome _ _ _ _ _ _ Hm Hrun) as ((Hs & Hp & Hl) & Ha & Hne & Ho & Hn & Hfit).
  cbv zeta. split_and!.
  - intros ->. destruct Ho as [Hx Hlen]. rewrite (readObjAttrs_encoded f' a' Hx Hlen).
    split_and!; [done|done|done| |done]. intros Hneq. apply Hne. by intros ->.
  - intros Herr. apply readObjAttrs_ext. by destruct err.
  - intros Hns. apply (Hn Hns).
  - intros f1 H1. destruct (Hfit f1 H1) as [-> ->]. split; [|done].
    unfold writeObjAttrs in Hrun. rewrite H1 in Hrun. cbn in Hrun. simplify_eq.
    destruct Ho as [Hx Hlen]. by apply readObjAttrs_encoded.
Qed.

(** Merging attributes into a stored object.  A [setMetadata] that succeeds
    leaves every protected key at the new value if one was given and at the old
    one otherwise, and reads back nothing but merged fields; a [setAudit] that
    succeeds leaves the metadata's protected keys alone; one that fails leaves
    the object's attributes as they were. *)
Theorem setMetadata_merges f m a f1 err1 f2 err2 :
  let old := readObjAttrs f in
  (m ∪ meta old) !! [] = None -> setMetadata f m = (f1, err1) -> setAudit f a = (f2, err2) ->
  (err1 = None ->
     meta (readObjAttrs f1) ⊆ m ∪ meta old /\
     forall k, k ∈ metadataProtectedKeys -> getMetadata f1 !! k = (m ∪ meta old) !! k) /\
  (err1 <> None -> readObjAttrs f1 = old) /\
  (err2 = None -> forall k, k ∈ metadataProtectedKeys -> getMetadata f2 !! k = getMetadata f !! k) /\
  (err2 <> None -> readObjAttrs f2 = old).
Proof.
  intros old Hm H1 H2. unfold setMetadata, setAudit, getMetadata in *. fold old in H1, H2.
  assert (Hold : meta old !! [] = None) by (by apply lookup_union_None in Hm as [_ ?]).
  destruct (writeObjAttrs f (ObjAttrs (m ∪ meta old) _)) as [[[g1 e1] a1] d1] eqn:E1 in H1. unfold write_result in H1. cbn [fst snd] in H1. injection H1 as <- <-.
  apply writeObjAttrs_outcome in E1 as ((Hs & Hp & _) & _ & _ & Ho & _); [|done]. cbn [meta audit] in *. split_and!.
  - intros Herr. rewrite Herr in Ho. cbn [outcome] in Ho. destruct Ho as [Hx Hlen]. rewrite (readObjAttrs_encoded _ _ Hx Hlen). done.
  - intros Herr. apply readObjAttrs_ext. by destruct e1.
  - destruct (size a =? 0)%nat; [by simplify_eq|].
    destruct (writeObjAttrs f (ObjAttrs (meta old) _)) as [[[g2 e2] a2] d2] eqn:E2 in H2. unfold write_result in H2. cbn [fst snd] in H2. injection H2 as <- <-.
    apply writeObjAttrs_outcome in E2 as ((_ & Hp2 & _) & _ & _ & Ho2 & _); [|done]. cbn [meta audit] in *.
    intros Herr. rewrite Herr in Ho2. cbn [outcome] in Ho2. destruct Ho2 as [Hx Hlen]. rewrite (readObjAttrs_encoded _ _ Hx Hlen). done.
  - destruct (size a =? 0)%nat; [by simplify_eq|].
    destruct (writeObjAttrs f (ObjAttrs (meta old) _)) as [[[g2 e2] a2] d2] eqn:E2 in H2. unfold write_result in H2. cbn [fst snd] in H2. injection H2 as <- <-.
    apply writeObjAttrs_outcome in E2 as (_ & _ & _ & Ho2 & _); [|done].
    intros Herr. apply readObjAttrs_ext. by destruct e2.
Qed.

End attrs.

(** ** A file with a fixed room for attributes *)

Record room_file := RoomFile { rf_room : Z; rf_value : option bytes }.

#[export] Instance room_ops : XattrOps room_file := {|
  setxattr f v :=
    if Z.of_nat (length v) <=? Z.min (rf_room f) 65536 then (RoomFile (rf_room f) (Some v), None) else (f, Some ENOSPC);
  getxattr f c :=
    match rf_value f with
    | None => inr ENODATA
    | Some v =>
        if (c =? 0)%nat then inl (length v, []) else if (c <? length v)%nat then inr ERANGE else inl (length v, v)
    end
|}.

#[export] Instance room_laws : XattrLaws room_file.
Proof.
  refine (Build_XattrLaws room_file _ rf_value _ _ _ _ _ _); simpl.
  - intros f v f'. destruct (Z.leb_spec (Z.of_nat (length v)) (Z.min (rf_room f) 65536)); intros [= <-]. split; [done|lia].
  - intros f v f' e. destruct (_ <=? _); by intros [= <- <-].
  - by intros f c ->.
  - by intros f v ->.
  - intros f v c -> Hc. destruct (Nat.eqb_spec c 0); [lia|]. destruct (Nat.ltb_spec c (length v)); [done|lia].
  - intros f v c -> Hc Hl. destruct (Nat.eqb_spec c 0); [lia|]. destruct (Nat.ltb_spec c (length v)); [lia|done].
Defined.

#[export] Instance sorted_range : MapRange := {| range_order _ m := map_to_list m; range_perm _ _ := reflexivity _ |}.

(** Room for the protected key only: the audit field and the package go. *)
Definition tight_file : room_file := RoomFile 20 None.

Lemma writeObjAttrs_keeps_witness :
  exists f' a' d, writeObjAttrs tight_file sample_attrs = (f', None, a', d) /\
    getMetadata f' = {[ str "outputid" := str "0a1b" ]} /\ getMetadata f' ⊆ meta sample_attrs.
Proof.
  destruct (writeObjAttrs tight_file sample_attrs) as [[[f' err] a'] d] eqn:E.
  assert (Herr : err = None) by (vm_compute in E; congruence). subst err. exists f', a', d.
  split; [done|]. split; [vm_compute in E; simplify_eq; vm_compute; reflexivity|].
  destruct (writeObjAttrs_keeps tight_file sample_attrs f' None a' d) as [Hok _]; [vm_compute; reflexivity|exact E|].
  exact (proj1 (Hok eq_refl)).
Defined.

Definition roomy_file : room_file := (setObjectAttrs (RoomFile 4096 None) (meta sample_attrs) (audit sample_attrs)).1.

Lemma setMetadata_merges_witness :
  exists f1, setMetadata roomy_file {[ storedDigestMetaKey := str "ff" ]} = (f1, None) /\
    getMetadata f1 !! storedDigestMetaKey = Some (str "ff") /\
    getMetadata f1 !! str "outputid" = Some (str "0a1b").
Proof.
  destruct (setMetadata roomy_file {[ storedDigestMetaKey := str "ff" ]}) as [f1 err1] eqn:E1.
  destruct (setAudit roomy_file ∅) as [f2 err2] eqn:E2.
  assert (Herr : err1 = None) by (vm_compute in E1; congruence). subst err1. exists f1. split; [done|].
  destruct (setMetadata_merges roomy_file {[ storedDigestMetaKey := str "ff" ]} ∅ f1 None f2 err2) as [Hok _];
    [vm_compute; reflexivity|exact E1|exact E2|].
  destruct (Hok eq_refl) as [_ Hget]. split; rewrite Hget; try (vm_compute; reflexivity).
  - apply list_elem_of_further, list_elem_of_further, list_elem_of_here.
  - apply list_elem_of_here.
Defined.
