(* ===== verification/ContentStamp.v ===== *)
(** * Codecs and content stamps

    [codec.go] and [contentstamp.go].  A stored body names its codec in its
    first bytes; the decoders themselves (klauspost/compress, pierrec/lz4) are
    not part of the repository and are parameters.  A Go archive names the
    compile that made it in its build id, and write-once storage lets an upload
    replace a stored archive only when the stored one carries a content stamp
    and the upload the same content under an action stamp. *)

From Stdlib Require Import ZArith Lia List Bool String.
From stdpp Require Import base list.
From S2P Require Import Prelude SortedSlice Keys Sha256.

(** ** bytes.Index *)

(** The offset of the first occurrence of [pat] in [s]. *)
Fixpoint bytes_index (s pat : bytes) : option nat :=
  if has_prefix s pat then Some 0%nat
  else match s with
       | [] => None
       | _ :: s' => S <$> bytes_index s' pat
       end.

Lemma bytes_index_some s pat n : bytes_index s pat = Some n ->
  (exists t, s = take n s ++ pat ++ t) /\ forall m, (m < n)%nat -> has_prefix (drop m s) pat = false.
Proof.
  revert n. induction s as [|c s IH]; intros n; cbn [bytes_index].
  - destruct (has_prefix [] pat) eqn:E; [|done]. intros [= <-]. apply has_prefix_spec in E as [t Ht].
    split; [by exists t|lia].
  - destruct (has_prefix (c :: s) pat) eqn:E.
    + intros [= <-]. apply has_prefix_spec in E as [t Ht]. split; [by exists t|lia].
    + destruct (bytes_index s pat) as [m|] eqn:Em; [|done]. intros [= <-]. destruct (IH m eq_refl) as [[t Ht] Hf].
      split; [exists t; cbn [take app]; by rewrite <- Ht|]. intros [|m'] Hm; [done|]. apply Hf. lia.
Qed.

(** The first occurrence is found where it is. *)
Lemma bytes_index_first p pat t :
  (forall m, (m < length p)%nat -> has_prefix (drop m (p ++ pat ++ t)) pat = false) ->
  bytes_index (p ++ pat ++ t) pat = Some (length p).
Proof.
  induction p as [|c p IH]; intros Hf.
  - cbn [app length]. destruct (pat ++ t) eqn:E; cbn [bytes_index]; rewrite <- E, has_prefix_app; done.
  - cbn [app bytes_index length]. pose proof (Hf 0%nat ltac:(simpl; lia)) as H0. cbn [drop app] in H0. rewrite H0.
    rewrite IH; [done|]. intros m Hm. apply (Hf (S m)). simpl. lia.
Qed.

Lemma bytes_index_byte p c t : c ∉ p -> bytes_index (p ++ c :: t) [c] = Some (length p).
Proof.
  intros Hp. apply (bytes_index_first p [c] t). intros m Hm.
  destruct (drop m (p ++ [c] ++ t)) as [|d l] eqn:E; [done|]. simpl. rewrite andb_true_r.
  destruct (Z.eqb_spec c d) as [<-|]; [|done]. exfalso. apply Hp.
  assert (Hd : (p ++ [c] ++ t) !! m = Some c) by (rewrite <- (Nat.add_0_r m), <- lookup_drop, E; done).
  rewrite lookup_app_l in Hd by done. by eapply list_elem_of_lookup_2.
Qed.

(** ** codec.go *)

Definition zstdFrameMagic : Z := 0xFD2FB528.
Definition lz4FrameMagicV : Z := 0x184D2204.
Definition codecPeekBytes : nat := 4.

Inductive codec := CodecNone | CodecZstd | CodecLz4.

#[export] Instance codec_eq_dec : EqDecision codec.
Proof. solve_decision. Defined.

Definition frameCodec (head : bytes) : codec :=
  if (length head <? codecPeekBytes)%nat then CodecNone
  else
    let m := le_value (take codecPeekBytes head) in
    if m =? zstdFrameMagic then CodecZstd else if m =? lz4FrameMagicV then CodecLz4 else CodecNone.

(** What reading a decoder to its end gives: the bytes, and whether the stream
    ended cleanly. *)
Record stream := Stream { st_bytes : bytes; st_clean : bool }.

(** The decoders; a zstd decoder may not be available or may refuse the body
    before the first read. *)
Class Decoders := {
  zstd_reader : bytes -> option stream;
  lz4_reader : bytes -> stream
}.

Section stamps.
Context `{!Decoders}.

(** [decompressingReader] on a whole body: the reader and the codec, [None]
    when it returns an error. *)
Definition decompressingReader (body : bytes) : option (stream * codec) :=
  let head := take codecPeekBytes body in
  if (length head <? codecPeekBytes)%nat then Some (Stream body true, CodecNone)
  else
    match frameCodec head with
    | CodecZstd => match zstd_reader body with Some s => Some (s, CodecZstd) | None => None end
    | CodecLz4 => Some (lz4_reader body, CodecLz4)
    | CodecNone => Some (Stream body true, CodecNone)
    end.

(** ** contentstamp.go *)

Definition stampHeadBytes : nat := 4096.
Definition archMagic : bytes := str "!<arch>" ++ [10].
Definition exportMark : bytes := str "$$".
Definition quote : Z := 34.
Definition buildMarker : bytes := str "build id " ++ [quote].
Definition stampSlash : Z := 47.

Definition parseArchiveStamp (head : bytes) : option (bytes * bytes) :=
  if negb (has_prefix head archMagic) then None
  else
    let head := match bytes_index head exportMark with Some e => take e head | None => head end in
    match bytes_index head buildMarker with
    | None => None
    | Some start =>
        let rest := drop (start + length buildMarker) head in
        match bytes_index rest [quote] with
        | None => None
        | Some e =>
            let id := take e rest in
            match bytes_index id [stampSlash] with
            | None => None
            | Some slash => Some (take slash id, drop (slash + 1) id)
            end
        end
    end.

(** [archiveStamp]; [body] is [None] when the file cannot be opened. *)
Definition archiveStamp (body : option bytes) : option (bytes * bytes) :=
  match body with
  | None => None
  | Some body =>
      match decompressingReader body with
      | None => None
      | Some (r, _) => parseArchiveStamp (take stampHeadBytes (st_bytes r))
      end
  end.

Definition replacesContentStamp (stored incoming : option bytes) : bool :=
  match archiveStamp stored with
  | None => false
  | Some (oldAction, oldContent) =>
      if negb (bytes_eqb oldAction oldContent) then false
      else match archiveStamp incoming with
           | None => false
           | Some (newAction, newContent) => bytes_eqb newContent oldContent && negb (bytes_eqb newAction newContent)
           end
  end.

(** Replacing a content stamp is a one-way repair: it keeps the content
    id, and the archive it stores can never be replaced again, whatever is
    uploaded; so a write-once key changes its bytes at most once. *)
Theorem content_stamp_one_way stored incoming other :
  replacesContentStamp stored incoming = true ->
  (exists c a, archiveStamp stored = Some (c, c) /\ archiveStamp incoming = Some (a, c) /\ a <> c) /\
  replacesContentStamp incoming other = false.
Proof.
  unfold replacesContentStamp. destruct (archiveStamp stored) as [[oa oc]|]; [|done].
  destruct (bytes_eqb oa oc) eqn:Eo; cbn [negb]; [|done]. apply bytes_eqb_eq in Eo as ->.
  destruct (archiveStamp incoming) as [[na nc]|]; [|done].
  intros [Hc Hn]%andb_true_iff. apply bytes_eqb_eq in Hc as ->. rewrite Hn. split; [|done].
  exists oc, na. split_and!; [done|done|]. apply negb_true_iff, not_true_iff_false in Hn. by rewrite bytes_eqb_eq in Hn.
Qed.

End stamps.

(** ** Reading a build id back *)

Lemma has_prefix_cut s t pat : (length pat <= length s)%nat -> has_prefix (s ++ t) pat = has_prefix s pat.
Proof.
  revert s. induction pat as [|c pat IH]; intros s Hl; [by destruct s; destruct t|].
  destruct s as [|d s]; cbn [length] in Hl; [lia|].
  cbn [app has_prefix]. by rewrite IH by lia.
Qed.

Lemma has_prefix_drop_cut m s t pat : (m + length pat <= length s)%nat ->
  has_prefix (drop m (s ++ t)) pat = has_prefix (drop m s) pat.
Proof.
  intros Hl. rewrite drop_app_le by lia. apply has_prefix_cut. rewrite length_drop. lia.
Qed.

(** Everything up to the first export mark, wherever it lies after [front]. *)
Lemma cut_at_mark front post :
  (forall m, (m < length front)%nat -> has_prefix (drop m (front ++ post)) exportMark = false) ->
  exists post', match bytes_index (front ++ post) exportMark with
                | Some e => take e (front ++ post)
                | None => front ++ post
                end = front ++ post'.
Proof.
  intros Hm. destruct (bytes_index (front ++ post) exportMark) as [e|] eqn:E; [|by exists post].
  destruct (bytes_index_some _ _ _ E) as [[t Ht] _].
  destruct (Nat.lt_ge_cases e (length front)) as [Hlt|Hge].
  - exfalso. specialize (Hm e Hlt).
    assert (Hd : drop e (front ++ post) = exportMark ++ t).
    { rewrite Ht at 1. apply drop_app_length'. rewrite length_take. rewrite length_app. lia. }
    by rewrite Hd, has_prefix_app in Hm.
  - exists (take (e - length front) post). by rewrite take_app_ge.
Qed.

(** [parseArchiveStamp] reads the build id an archive header carries:
    for every header that starts with the archive magic, names its build id
    action/content in quotes and reaches the export data only after it, the
    two fields come back as they were written. *)
Theorem parseArchiveStamp_reads pre action content post :
  let start := archMagic ++ pre in
  let front := start ++ buildMarker ++ action ++ stampSlash :: content ++ [quote] in
  (forall m, (m < length start)%nat -> has_prefix (drop m front) buildMarker = false) ->
  (forall m, (m < length front)%nat -> has_prefix (drop m (front ++ post)) exportMark = false) ->
  quote ∉ action -> stampSlash ∉ action -> quote ∉ content ->
  parseArchiveStamp (front ++ post) = Some (action, content).
Proof.
  intros start front Hb Hm Hqa Hsa Hqc. unfold parseArchiveStamp.
  assert (Hmagic : has_prefix (front ++ post) archMagic = true).
  { unfold front, start. rewrite <- !app_assoc. apply has_prefix_app. }
  rewrite Hmagic. cbn [negb]. destruct (cut_at_mark front post Hm) as [post' ->].
  assert (Hfront : front ++ post' = start ++ buildMarker ++ (action ++ stampSlash :: content) ++ quote :: post').
  { unfold front. rewrite <- !app_assoc. cbn [app]. by rewrite <- !app_assoc. }
  assert (Hidx : bytes_index (front ++ post') buildMarker = Some (length start)).
  { rewrite Hfront. apply bytes_index_first. intros m Hlt. rewrite <- Hfront.
    rewrite has_prefix_drop_cut; [by apply Hb|]. unfold front. rewrite !length_app. lia. }
  rewrite Hidx, Hfront, app_assoc, drop_app_length' by (by rewrite length_app).
  assert (Hq : quote ∉ action ++ stampSlash :: content).
  { rewrite elem_of_app, elem_of_cons. intros [?|[?|?]]; done. }
  rewrite (bytes_index_byte _ quote _ Hq), take_app_length, (bytes_index_byte action stampSlash content Hsa).
  rewrite take_app_length. do 2 f_equal. change (stampSlash :: content) with ([stampSlash] ++ content).
  rewrite app_assoc. apply drop_app_length'. rewrite length_app. done.
Qed.

Definition noDecoders : Decoders := {| zstd_reader _ := None; lz4_reader _ := Stream [] false |}.

Definition sample_archive (action content : bytes) : bytes :=
  archMagic ++ str "go object linux amd64 go1.24" ++ [10] ++ buildMarker ++ action ++ stampSlash :: content ++
  [quote; 10] ++ exportMark ++ str "B".

Lemma content_stamp_one_way_witness :
  @replacesContentStamp noDecoders (Some (sample_archive (str "cc") (str "cc"))) (Some (sample_archive (str "aa") (str "cc"))) = true /\
  @replacesContentStamp noDecoders (Some (sample_archive (str "aa") (str "cc"))) (Some (sample_archive (str "bb") (str "cc"))) = false.
Proof.
  split; [vm_compute; reflexivity|].
  apply (@content_stamp_one_way noDecoders (Some (sample_archive (str "cc") (str "cc")))
           (Some (sample_archive (str "aa") (str "cc"))) (Some (sample_archive (str "bb") (str "cc")))).
  vm_compute. reflexivity.
Defined.

(** Deciding a bounded universal by running it. *)
Lemma bounded_prefix_false n s pat :
  forallb (fun m => negb (has_prefix (drop m s) pat)) (seq 0 n) = true ->
  forall m, (m < n)%nat -> has_prefix (drop m s) pat = false.
Proof.
  intros Hf m Hm. rewrite List.forallb_forall in Hf. apply negb_true_iff, Hf, in_seq. lia.
Qed.

Lemma parseArchiveStamp_reads_witness :
  parseArchiveStamp (sample_archive (str "aa") (str "cc")) = Some (str "aa", str "cc").
Proof.
  apply (parseArchiveStamp_reads (str "go object linux amd64 go1.24" ++ [10]) (str "aa") (str "cc") ([10] ++ exportMark ++ str "B")).
  - apply bounded_prefix_false. vm_compute. reflexivity.
  - apply bounded_prefix_false. vm_compute. reflexivity.
  - apply (bool_decide_eq_true_1 (_ ∉ _)). vm_compute. reflexivity.
  - apply (bool_decide_eq_true_1 (_ ∉ _)). vm_compute. reflexivity.
  - apply (bool_decide_eq_true_1 (_ ∉ _)). vm_compute. reflexivity.
Defined.
