(* ===== verification/BitIO.v ===== *)
(** * Bit streams

    The [bitWriter] of [indexv2.go] (repeated in [cacheclient/indexv2.go]) and
    the [bitReader] of [cacheclient/indexv2.go], with their 64-bit accumulators
    as the code has them, and their refinement to lists of bits: the writer
    appends to a bit list, the reader consumes one.  [writer_ok] and
    [reader_ok] are the representation invariants. *)

From Stdlib Require Import ZArith Lia List Bool.
From stdpp Require Import base list.
From S2P Require Import Prelude.

(** ** Bits of an integer, most significant first *)

Fixpoint bits_of (n : nat) (v : Z) : list bool :=
  match n with
  | O => []
  | S m => Z.testbit v (Z.of_nat m) :: bits_of m v
  end.

Definition bytes_bits (l : bytes) : list bool := flat_map (bits_of 8) l.

(** The mask [1<<n - 1]. *)
Definition low_mask (n : nat) : Z := Z.ones (Z.of_nat n).

(** ** The writer *)

Record bitWriter := BitWriter { bw_buf : bytes; bw_acc : Z; bw_n : nat }.

(** [for w.n >= 8 { w.n -= 8; w.buf = append(w.buf, byte(w.acc>>w.n)) }]; every
    round takes 8 off [w.n], so [w.n] rounds of fuel are enough. *)
Fixpoint drain_loop (fuel : nat) (w : bitWriter) : bitWriter :=
  match fuel with
  | O => w
  | S fuel' =>
      if (8 <=? bw_n w)%nat then
        let n := (bw_n w - 8)%nat in
        drain_loop fuel'
          (BitWriter (bw_buf w ++ [u8 (Z.shiftr (bw_acc w) (Z.of_nat n))]) (bw_acc w) n)
      else w
  end.

(** The body of [writeBits] below its loop. *)
Definition write_chunk (w : bitWriter) (v : Z) (nbits : nat) : bitWriter :=
  let acc := Z.lor (u64 (Z.shiftl (bw_acc w) (Z.of_nat nbits))) (Z.land v (low_mask nbits)) in
  let n := (bw_n w + nbits)%nat in
  drain_loop n (BitWriter (bw_buf w) acc n).

(** [writeBits]: the loop writes the top 32 bits while more than 32 are left. *)
Fixpoint writeBits_loop (fuel : nat) (w : bitWriter) (v : Z) (nbits : nat) : bitWriter :=
  match fuel with
  | O => write_chunk w v nbits
  | S fuel' =>
      if (32 <? nbits)%nat then
        let w' := write_chunk w (Z.shiftr v (Z.of_nat (nbits - 32))) 32 in
        writeBits_loop fuel' w' (Z.land v (low_mask 32)) (nbits - 32)
      else write_chunk w v nbits
  end.

Definition writeBits (w : bitWriter) (v : Z) (nbits : nat) : bitWriter :=
  writeBits_loop (nbits / 32) w v nbits.

(** [for q >= 32 { w.writeBits(1<<32-1, 32); q -= 32 }]. *)
Fixpoint writeUnary_loop (fuel : nat) (w : bitWriter) (q : Z) : bitWriter * Z :=
  match fuel with
  | O => (w, q)
  | S fuel' =>
      if 32 <=? q then writeUnary_loop fuel' (writeBits w (2 ^ 32 - 1) 32) (q - 32) else (w, q)
  end.

Definition writeUnary (w : bitWriter) (q : Z) : bitWriter :=
  let '(w', r) := writeUnary_loop (Z.to_nat (q / 32)) w q in
  writeBits w' (u64 (Z.shiftl (u64 (Z.shiftl 1 r - 1)) 1)) (Z.to_nat (r + 1)).

Definition flush (w : bitWriter) : bytes :=
  if (0 <? bw_n w)%nat then
    bw_buf w ++ [u8 (Z.shiftl (bw_acc w) (Z.of_nat (8 - bw_n w)))]
  else bw_buf w.

(** ** The reader *)

Record bitReader := BitReader { br_data : bytes; br_pos : nat; br_acc : Z; br_n : nat }.

(** [refill]: at most eight rounds, since [r.n] starts at 0 or more and the loop
    stops past 56. *)
Fixpoint refill_loop (fuel : nat) (r : bitReader) : bitReader :=
  match fuel with
  | O => r
  | S fuel' =>
      if (br_n r <=? 56)%nat then
        match br_data r !! br_pos r with
        | Some b =>
            refill_loop fuel'
              (BitReader (br_data r) (br_pos r + 1) (Z.lor (u64 (Z.shiftl (br_acc r) 8)) b)
                         (br_n r + 8))
        | None => r
        end
      else r
  end.

Definition refill (r : bitReader) : bitReader := refill_loop 8 r.

(** [readBits] for [nbits <= 32]; [None] stands for [ok = false]. *)
Definition read_chunk (r : bitReader) (nbits : nat) : option Z * bitReader :=
  let r := refill r in
  if (br_n r <? nbits)%nat then (None, r)
  else
    let n := (br_n r - nbits)%nat in
    (Some (Z.land (Z.shiftr (br_acc r) (Z.of_nat n)) (low_mask nbits)),
     BitReader (br_data r) (br_pos r) (br_acc r) n).

(** [readBits]: above 32 bits, the high part first (at most 32 bits for the
    [nbits <= 64] the parser uses), then 32 more. *)
Definition readBits (r : bitReader) (nbits : nat) : option Z * bitReader :=
  if (nbits =? 0)%nat then (Some 0, r)
  else if (32 <? nbits)%nat then
    let '(hi, r1) := read_chunk r (nbits - 32) in
    match hi with
    | None => (None, r1)
    | Some h =>
        let '(lo, r2) := read_chunk r1 32 in
        match lo with
        | None => (None, r2)
        | Some l => (Some (Z.lor (u64 (Z.shiftl h 32)) l), r2)
        end
    end
  else read_chunk r nbits.

(** [bits.LeadingZeros64]. *)
Definition leading_zeros64 (x : Z) : nat :=
  if x =? 0 then 64%nat else Z.to_nat (63 - Z.log2 x).

(** [readUnary]: a round that finds no zero consumes every loaded bit, at least
    one byte of input, so [length data + 2] rounds are enough. *)
Fixpoint readUnary_loop (fuel : nat) (q : Z) (r : bitReader) : option Z * bitReader :=
  match fuel with
  | O => (None, r)
  | S fuel' =>
      let r := refill r in
      if (br_n r =? 0)%nat then (None, r)
      else
        let valid := u64 (Z.shiftl (br_acc r) (Z.of_nat (64 - br_n r))) in
        let ones := leading_zeros64 (Z.lxor valid (2 ^ 64 - 1)) in
        if (ones <? br_n r)%nat then
          (Some (u64 (q + Z.of_nat ones)),
           BitReader (br_data r) (br_pos r) (br_acc r) (br_n r - (ones + 1)))
        else readUnary_loop fuel' (u64 (q + Z.of_nat (br_n r)))
               (BitReader (br_data r) (br_pos r) (br_acc r) 0)
  end.

Definition readUnary (r : bitReader) : option Z * bitReader :=
  readUnary_loop (length (br_data r) + 2) 0 r.

(** ** Abstraction *)

(** The bits written so far. *)
Definition written (w : bitWriter) : list bool := bytes_bits (bw_buf w) ++ bits_of (bw_n w) (bw_acc w).

Definition writer_ok (w : bitWriter) : Prop :=
  (bw_n w < 8)%nat /\ is_u64 (bw_acc w) /\ Forall is_byte (bw_buf w).

(** The bits not yet read. *)
Definition unread (r : bitReader) : list bool :=
  bits_of (br_n r) (br_acc r) ++ bytes_bits (drop (br_pos r) (br_data r)).

Definition reader_ok (r : bitReader) : Prop :=
  (br_n r <= 64)%nat /\ is_u64 (br_acc r) /\ Forall is_byte (br_data r) /\
  (br_pos r <= length (br_data r))%nat.

(** ** Lemmas on bits *)

Lemma length_bits_of n v : length (bits_of n v) = n.
Proof. induction n; simpl; auto. Qed.

Lemma length_bytes_bits l : length (bytes_bits l) = (8 * length l)%nat.
Proof.
  unfold bytes_bits. induction l as [|b l IH]; [done|].
  cbn [flat_map length]. rewrite length_app, length_bits_of, IH. lia.
Qed.

Lemma bytes_bits_app l1 l2 : bytes_bits (l1 ++ l2) = bytes_bits l1 ++ bytes_bits l2.
Proof. apply flat_map_app. Qed.

Lemma bytes_bits_one b : bytes_bits [b] = bits_of 8 b.
Proof. done. Qed.

Lemma bits_of_ext n v w :
  (forall i, 0 <= i < Z.of_nat n -> Z.testbit v i = Z.testbit w i) -> bits_of n v = bits_of n w.
Proof.
  induction n as [|n IH]; intros H; cbn [bits_of]; [done|].
  f_equal; [apply H; lia|apply IH; intros; apply H; lia].
Qed.

Lemma bits_of_ext_inv n v w :
  bits_of n v = bits_of n w -> forall i, 0 <= i < Z.of_nat n -> Z.testbit v i = Z.testbit w i.
Proof.
  induction n as [|n IH]; intros H i Hi; cbn [bits_of] in H; [lia|].
  injection H as H0 H1. destruct (Z.eq_dec i (Z.of_nat n)) as [->|]; [done|].
  apply IH; [done|lia].
Qed.

Lemma bits_of_add a b v :
  bits_of (a + b) v = bits_of a (Z.shiftr v (Z.of_nat b)) ++ bits_of b v.
Proof.
  induction a as [|a IH]; [done|]. cbn [Nat.add bits_of app]. rewrite IH. f_equal.
  rewrite Z.shiftr_spec by lia. f_equal. lia.
Qed.

Lemma testbit_high x n i : 0 <= x < 2 ^ n -> 0 <= n <= i -> Z.testbit x i = false.
Proof.
  intros Hx Hi. destruct (Z.eq_dec x 0) as [->|]; [apply Z.bits_0|].
  apply Z.bits_above_log2; [lia|]. apply Z.log2_lt_pow2; [lia|].
  apply Z.lt_le_trans with (2 ^ n); [lia|]. apply Z.pow_le_mono_r; lia.
Qed.

Lemma bits_of_inj n v w :
  0 <= v < 2 ^ Z.of_nat n -> 0 <= w < 2 ^ Z.of_nat n -> bits_of n v = bits_of n w -> v = w.
Proof.
  intros Hv Hw Heq. apply Z.bits_inj'. intros i Hi.
  destruct (Z.ltb_spec i (Z.of_nat n)).
  - by eapply bits_of_ext_inv.
  - rewrite !(testbit_high _ (Z.of_nat n)) by lia. done.
Qed.

Lemma testbit_mod x n i : 0 <= n -> 0 <= i ->
  Z.testbit (x mod 2 ^ n) i = (i <? n) && Z.testbit x i.
Proof.
  intros Hn Hi. destruct (Z.ltb_spec i n).
  - by rewrite Z.mod_pow2_bits_low.
  - by rewrite Z.mod_pow2_bits_high.
Qed.

Lemma bits_of_mod n m v : (n <= m)%nat -> bits_of n (v mod 2 ^ Z.of_nat m) = bits_of n v.
Proof.
  intros. apply bits_of_ext. intros i Hi. rewrite testbit_mod by lia.
  destruct (Z.ltb_spec i (Z.of_nat m)); [done|lia].
Qed.

Lemma bits_of_u8 v : bits_of 8 (u8 v) = bits_of 8 v.
Proof. apply (bits_of_mod 8 8). lia. Qed.

Lemma bits_of_u64 n v : (n <= 64)%nat -> bits_of n (u64 v) = bits_of n v.
Proof. apply (bits_of_mod n 64). Qed.

Lemma bits_of_land n v : bits_of n (Z.land v (low_mask n)) = bits_of n v.
Proof.
  apply bits_of_ext. intros i Hi. unfold low_mask.
  rewrite Z.land_spec, Z.ones_spec_low by lia. apply andb_true_r.
Qed.

Lemma land_low_range v n : 0 <= Z.land v (low_mask n) < 2 ^ Z.of_nat n.
Proof. unfold low_mask. rewrite Z.land_ones by lia. apply Z.mod_pos_bound. lia. Qed.

Lemma bits_of_ones n m : (n <= m)%nat -> bits_of n (low_mask m) = replicate n true.
Proof.
  induction n as [|n IH]; intros; [done|]. cbn [bits_of replicate].
  unfold low_mask at 1. rewrite Z.ones_spec_low by lia. by rewrite IH by lia.
Qed.

Lemma bits_of_zero n : bits_of n 0 = replicate n false.
Proof. induction n as [|n IH]; [done|]. cbn [bits_of replicate]. by rewrite IH, Z.bits_0. Qed.

(** Shifting [nb] fresh bits into a 64-bit accumulator. *)
Lemma bits_of_shift_in n nb acc v x :
  (n + nb <= 64)%nat ->
  bits_of nb x = bits_of nb v -> 0 <= x < 2 ^ Z.of_nat nb ->
  bits_of (n + nb) (Z.lor (u64 (Z.shiftl acc (Z.of_nat nb))) x) = bits_of n acc ++ bits_of nb v.
Proof.
  intros Hle Hv Hx. rewrite bits_of_add. f_equal.
  - apply bits_of_ext. intros i Hi. rewrite Z.shiftr_spec, Z.lor_spec by lia.
    rewrite (testbit_high x (Z.of_nat nb)), orb_false_r by lia.
    unfold u64. rewrite testbit_mod, Z.shiftl_spec by lia.
    destruct (Z.ltb_spec (i + Z.of_nat nb) 64); [simpl; f_equal; lia|lia].
  - rewrite <- Hv. apply bits_of_ext. intros i Hi. rewrite Z.lor_spec. unfold u64.
    rewrite testbit_mod, Z.shiftl_spec_low by lia. by rewrite andb_false_r.
Qed.

Lemma lor_u64 x y : is_u64 x -> is_u64 y -> is_u64 (Z.lor x y).
Proof.
  unfold is_u64. intros Hx Hy. split; [apply Z.lor_nonneg; lia|].
  destruct (Z.eq_dec (Z.lor x y) 0) as [->|]; [lia|].
  assert (0 <= Z.lor x y) by (apply Z.lor_nonneg; lia).
  apply Z.log2_lt_pow2; [lia|]. rewrite Z.log2_lor by lia.
  apply Z.max_lub_lt.
  - destruct (Z.eq_dec x 0) as [->|]; [done|]. apply Z.log2_lt_pow2; lia.
  - destruct (Z.eq_dec y 0) as [->|]; [done|]. apply Z.log2_lt_pow2; lia.
Qed.

Lemma pow2_le_u64 n x : (n <= 64)%nat -> 0 <= x < 2 ^ Z.of_nat n -> is_u64 x.
Proof.
  intros Hn Hx. unfold is_u64. split; [lia|]. apply Z.lt_le_trans with (2 ^ Z.of_nat n); [lia|].
  apply Z.pow_le_mono_r; lia.
Qed.

#[export] Hint Resolve lor_u64 : goarith.

(** ** The writer appends *)

Lemma drain_loop_ok fuel w :
  (bw_n w <= fuel)%nat -> (bw_n w <= 64)%nat -> is_u64 (bw_acc w) -> Forall is_byte (bw_buf w) ->
  writer_ok (drain_loop fuel w) /\ written (drain_loop fuel w) = written w.
Proof.
  revert w; induction fuel as [|fuel IH]; intros w Hf Hn Hacc Hbuf; cbn [drain_loop].
  { split; [|done]. split_and!; [lia|done|done]. }
  destruct (8 <=? bw_n w)%nat eqn:E; bool2prop; [|split; [split_and!|]; done].
  set (n := (bw_n w - 8)%nat).
  destruct (IH (BitWriter (bw_buf w ++ [u8 (Z.shiftr (bw_acc w) (Z.of_nat n))]) (bw_acc w) n))
    as [Hok Hbits]; simpl; try done; try (subst n; lia).
  { apply Forall_app; split; [done|]. constructor; [apply u8_range|done]. }
  split; [done|]. rewrite Hbits. unfold written; simpl bw_buf; simpl bw_acc; simpl bw_n.
  rewrite bytes_bits_app, bytes_bits_one, bits_of_u8, <- app_assoc. f_equal.
  replace (bw_n w) with (8 + n)%nat by (subst n; lia). by rewrite bits_of_add.
Qed.

Lemma write_chunk_ok w v nbits :
  writer_ok w -> (nbits <= 32)%nat ->
  writer_ok (write_chunk w v nbits) /\
  written (write_chunk w v nbits) = written w ++ bits_of nbits v.
Proof.
  intros (Hn & Hacc & Hbuf) Hnb. unfold write_chunk.
  pose proof (land_low_range v nbits) as Hlow.
  destruct (drain_loop_ok (bw_n w + nbits)
    (BitWriter (bw_buf w)
       (Z.lor (u64 (Z.shiftl (bw_acc w) (Z.of_nat nbits))) (Z.land v (low_mask nbits)))
       (bw_n w + nbits))) as [Hok Hbits]; simpl; try done; try lia.
  { apply lor_u64; [apply u64_range|]. apply (pow2_le_u64 nbits); [lia|done]. }
  split; [done|]. rewrite Hbits. unfold written; simpl bw_buf; simpl bw_acc; simpl bw_n.
  rewrite <- app_assoc. f_equal.
  apply bits_of_shift_in; [lia|apply bits_of_land|done].
Qed.

Lemma bits_of_land_le n m v : (n <= m)%nat -> bits_of n (Z.land v (low_mask m)) = bits_of n v.
Proof.
  intros. apply bits_of_ext. intros i Hi. unfold low_mask.
  rewrite Z.land_spec, Z.ones_spec_low by lia. apply andb_true_r.
Qed.

Lemma writeBits_loop_ok fuel w v nbits :
  writer_ok w -> (nbits <= 32 * (fuel + 1))%nat -> (nbits <= 64)%nat ->
  writer_ok (writeBits_loop fuel w v nbits) /\
  written (writeBits_loop fuel w v nbits) = written w ++ bits_of nbits v.
Proof.
  revert w v nbits; induction fuel as [|fuel IH]; intros w v nbits Hw Hf Hle; cbn [writeBits_loop].
  { apply write_chunk_ok; [done|lia]. }
  destruct (32 <? nbits)%nat eqn:E; bool2prop; [|by apply write_chunk_ok; [|lia]].
  destruct (write_chunk_ok w (Z.shiftr v (Z.of_nat (nbits - 32))) 32) as [Hw' Hb']; [done|lia|].
  destruct (IH (write_chunk w (Z.shiftr v (Z.of_nat (nbits - 32))) 32)
              (Z.land v (low_mask 32)) (nbits - 32)%nat) as [Hok Hbits]; [done|lia|lia|].
  split; [done|]. rewrite Hbits, Hb', <- app_assoc. f_equal.
  replace nbits with (32 + (nbits - 32))%nat at 3 by lia. rewrite bits_of_add. f_equal.
  apply bits_of_land_le. lia.
Qed.

Lemma writeBits_ok w v nbits :
  writer_ok w -> (nbits <= 64)%nat ->
  writer_ok (writeBits w v nbits) /\ written (writeBits w v nbits) = written w ++ bits_of nbits v.
Proof.
  intros. apply writeBits_loop_ok; [done| |done].
  pose proof (Nat.div_mod_eq nbits 32). pose proof (Nat.mod_upper_bound nbits 32). lia.
Qed.

Lemma writeUnary_loop_ok fuel w q :
  writer_ok w -> 0 <= q < 32 * (Z.of_nat fuel + 1) ->
  let '(w', r) := writeUnary_loop fuel w q in
  writer_ok w' /\ 0 <= r < 32 /\
  written w' ++ replicate (Z.to_nat r) true = written w ++ replicate (Z.to_nat q) true.
Proof.
  revert w q; induction fuel as [|fuel IH]; intros w q Hw Hq; cbn [writeUnary_loop].
  { split_and!; done || lia. }
  destruct (32 <=? q) eqn:E; bool2prop; [|split_and!; done || lia].
  destruct (writeBits_ok w (2 ^ 32 - 1) 32) as [Hw' Hb']; [done|lia|].
  specialize (IH (writeBits w (2 ^ 32 - 1) 32) (q - 32) Hw' ltac:(lia)).
  destruct (writeUnary_loop _ _ _) as [w' r]. destruct IH as (? & ? & Heq).
  split_and!; try done; try lia. rewrite Heq, Hb'.
  change (2 ^ 32 - 1) with (low_mask 32). rewrite bits_of_ones by lia.
  replace (Z.to_nat q) with (32 + Z.to_nat (q - 32))%nat by lia.
  by rewrite replicate_add, <- app_assoc.
Qed.

Lemma writeUnary_ok w q :
  writer_ok w -> is_u64 q ->
  writer_ok (writeUnary w q) /\
  written (writeUnary w q) = written w ++ replicate (Z.to_nat q) true ++ [false].
Proof.
  intros Hw Hq. unfold is_u64 in Hq. unfold writeUnary.
  pose proof (writeUnary_loop_ok (Z.to_nat (q / 32)) w q Hw) as H.
  destruct (writeUnary_loop _ _ _) as [w' r].
  destruct H as (Hw' & Hr & Heq).
  { rewrite Z2Nat.id by (apply Z.div_pos; lia).
    pose proof (Z.div_mod q 32). pose proof (Z.mod_pos_bound q 32). lia. }
  destruct (writeBits_ok w' (u64 (Z.shiftl (u64 (Z.shiftl 1 r - 1)) 1)) (Z.to_nat (r + 1)))
    as [Hok Hb]; [done|lia|].
  split; [done|]. rewrite Hb, app_assoc, <- Heq, <- app_assoc. f_equal.
  assert (2 ^ r <= 2 ^ 31) by (apply Z.pow_le_mono_r; lia).
  assert (0 < 2 ^ r) by (apply Z.pow_pos_nonneg; lia).
  rewrite Z.shiftl_1_l, (u64_small (2 ^ r - 1)) by (unfold is_u64; lia).
  rewrite bits_of_u64 by lia.
  replace (Z.to_nat (r + 1)) with (Z.to_nat r + 1)%nat by lia. rewrite bits_of_add. f_equal.
  - rewrite Z.shiftr_shiftl_l by lia. rewrite Z.shiftl_0_r.
    replace (2 ^ r - 1) with (low_mask (Z.to_nat r))
      by (unfold low_mask; rewrite Z.ones_equiv, Z2Nat.id by lia; lia).
    by apply bits_of_ones.
  - cbn [bits_of]. by rewrite Z.shiftl_spec_low by lia.
Qed.

(** [flush] pads the pending bits with zeros to a whole byte. *)
Lemma flush_ok w :
  writer_ok w ->
  Forall is_byte (flush w) /\
  exists pad, (pad < 8)%nat /\ bytes_bits (flush w) = written w ++ replicate pad false.
Proof.
  intros (Hn & Hacc & Hbuf). unfold flush, written.
  destruct (0 <? bw_n w)%nat eqn:E; bool2prop.
  - split; [apply Forall_app; split; [done|]; constructor; [apply u8_range|done]|].
    exists (8 - bw_n w)%nat. split; [lia|].
    rewrite bytes_bits_app, bytes_bits_one, bits_of_u8, <- app_assoc. f_equal.
    replace 8%nat with (bw_n w + (8 - bw_n w))%nat at 1 by lia. rewrite bits_of_add. f_equal.
    + by rewrite Z.shiftr_shiftl_l, Z.sub_diag, Z.shiftl_0_r by lia.
    + rewrite <- bits_of_zero. apply bits_of_ext. intros i Hi.
      by rewrite Z.shiftl_spec_low, Z.bits_0 by lia.
  - split; [done|]. exists 0%nat. split; [lia|].
    assert (bw_n w = 0%nat) as -> by lia. by rewrite !app_nil_r.
Qed.

(** ** The reader consumes *)

Lemma drop_S_lookup {A} (l : list A) i x : l !! i = Some x -> drop i l = x :: drop (i + 1) l.
Proof. intros H. rewrite (drop_S l x i H). by rewrite Nat.add_1_r. Qed.

Lemma refill_loop_ok fuel r :
  reader_ok r ->
  reader_ok (refill_loop fuel r) /\ unread (refill_loop fuel r) = unread r /\
  br_data (refill_loop fuel r) = br_data r /\ (br_n r <= br_n (refill_loop fuel r))%nat /\
  ((56 < br_n r + 8 * fuel)%nat ->
     (56 < br_n (refill_loop fuel r))%nat \/
     br_pos (refill_loop fuel r) = length (br_data r)).
Proof.
  revert r; induction fuel as [|fuel IH]; intros r Hr; cbn [refill_loop].
  { split_and!; try done. lia. }
  destruct Hr as (Hn & Hacc & Hdata & Hpos).
  destruct (br_n r <=? 56)%nat eqn:E; bool2prop.
  2:{ split_and!; try done. by left. }
  destruct (br_data r !! br_pos r) as [b|] eqn:Hb.
  2:{ split_and!; try done. apply lookup_ge_None in Hb. right. lia. }
  assert (is_byte b) as Hbb by (eapply Forall_lookup_1; eauto).
  pose proof (lookup_lt_Some _ _ _ Hb) as Hlt.
  set (r' := BitReader _ _ _ _).
  destruct (IH r') as (H1 & H2 & H3 & H4 & H5).
  { split_and!; simpl; try done; try lia. apply lor_u64; [apply u64_range|].
    apply (pow2_le_u64 8); [lia|done]. }
  split_and!; try done; [| simpl in H4; lia |].
  - rewrite H2. unfold unread, r'; simpl br_n; simpl br_acc; simpl br_pos; simpl br_data.
    change (Z.shiftl (br_acc r) 8) with (Z.shiftl (br_acc r) (Z.of_nat 8)).
    rewrite (bits_of_shift_in (br_n r) 8 (br_acc r) b b); [|lia|done|done].
    rewrite (drop_S_lookup _ _ _ Hb). by rewrite <- app_assoc.
  - intros Hf. simpl in H5. destruct H5; [lia|by left|by right].
Qed.

Lemma refill_ok r :
  reader_ok r ->
  reader_ok (refill r) /\ unread (refill r) = unread r /\ br_data (refill r) = br_data r /\
  (br_n r <= br_n (refill r))%nat /\
  ((56 < br_n (refill r))%nat \/ unread r = bits_of (br_n (refill r)) (br_acc (refill r))).
Proof.
  intros Hr. destruct (refill_loop_ok 8 r Hr) as (H1 & H2 & H3 & H4 & H5).
  split_and!; try done. destruct H5 as [?|Hpos]; [lia|by left|right].
  rewrite <- H2. unfold unread. fold (refill r) in *. rewrite Hpos, H3, drop_all.
  by rewrite app_nil_r.
Qed.

Lemma read_chunk_ok r nbits v rest :
  reader_ok r -> (nbits <= 32)%nat ->
  unread r = bits_of nbits v ++ rest -> 0 <= v < 2 ^ Z.of_nat nbits ->
  exists r', read_chunk r nbits = (Some v, r') /\ reader_ok r' /\ unread r' = rest /\
             br_data r' = br_data r.
Proof.
  intros Hr Hnb Hun Hv. destruct (refill_ok r Hr) as (H1 & H2 & H3 & _ & H5).
  unfold read_chunk. set (r1 := refill r) in *.
  assert (nbits <= br_n r1)%nat as Hle.
  { destruct H5 as [?|H5]; [lia|]. apply (f_equal length) in H5.
    rewrite Hun, length_app, !length_bits_of in H5. lia. }
  destruct (br_n r1 <? nbits)%nat eqn:E; bool2prop; [lia|].
  destruct H1 as (Hn & Hacc & Hdata & Hpos).
  set (m := (br_n r1 - nbits)%nat).
  assert (unread r1 = bits_of nbits (Z.shiftr (br_acc r1) (Z.of_nat m)) ++
            bits_of m (br_acc r1) ++ bytes_bits (drop (br_pos r1) (br_data r1))) as Hsplit.
  { unfold unread. replace (br_n r1) with (nbits + m)%nat by (subst m; lia).
    by rewrite bits_of_add, <- app_assoc. }
  rewrite H2, Hun in Hsplit.
  apply app_inj_1 in Hsplit as [Hv1 Hrest]; [|by rewrite !length_bits_of].
  eexists. split_and!; [do 2 f_equal| | |done].
  - apply (bits_of_inj nbits); [apply land_low_range|done|]. by rewrite bits_of_land.
  - split_and!; simpl; try done. subst m. lia.
  - unfold unread; simpl. done.
Qed.

Lemma readBits_ok r nbits v rest :
  reader_ok r -> (nbits <= 64)%nat ->
  unread r = bits_of nbits v ++ rest -> 0 <= v < 2 ^ Z.of_nat nbits ->
  exists r', readBits r nbits = (Some v, r') /\ reader_ok r' /\ unread r' = rest /\
             br_data r' = br_data r.
Proof.
  intros Hr Hnb Hun Hv. unfold readBits.
  destruct (nbits =? 0)%nat eqn:E0; bool2prop.
  { subst nbits. exists r. assert (v = 0) as -> by (change (2 ^ Z.of_nat 0) with 1 in Hv; lia).
    done. }
  destruct (32 <? nbits)%nat eqn:E1; bool2prop; [|apply read_chunk_ok; done || lia].
  set (m := (nbits - 32)%nat).
  assert (bits_of nbits v = bits_of m (Z.shiftr v 32) ++ bits_of 32 v) as Hs.
  { replace nbits with (m + 32)%nat by (subst m; lia). by rewrite bits_of_add. }
  rewrite Hs, <- app_assoc in Hun.
  assert (0 <= Z.shiftr v 32 < 2 ^ Z.of_nat m) as Hhi.
  { rewrite Z.shiftr_div_pow2 by lia. split; [apply Z.div_pos; lia|].
    apply Z.div_lt_upper_bound; [lia|]. rewrite <- Z.pow_add_r by lia.
    replace (32 + Z.of_nat m) with (Z.of_nat nbits) by (subst m; lia). lia. }
  destruct (read_chunk_ok r m (Z.shiftr v 32) (bits_of 32 v ++ rest)) as (r1 & -> & Hr1 & Hu1 & Hd1);
    [done|subst m; lia|done|done|].
  destruct (read_chunk_ok r1 32 (v mod 2 ^ 32) rest) as (r2 & -> & Hr2 & Hu2 & Hd2);
    [done|lia| |apply Z.mod_pos_bound; lia|].
  { rewrite Hu1. f_equal. symmetry. apply (bits_of_mod 32 32). lia. }
  exists r2. split_and!; try done; [|congruence]. do 2 f_equal.
  rewrite u64_small.
  2:{ rewrite Z.shiftl_mul_pow2 by lia. unfold is_u64.
      assert (Z.shiftr v 32 * 2 ^ 32 <= v) by (rewrite Z.shiftr_div_pow2 by lia;
        rewrite Z.mul_comm; apply Z.mul_div_le; lia).
      assert (2 ^ Z.of_nat nbits <= 2 ^ 64) by (apply Z.pow_le_mono_r; lia). lia. }
  apply Z.bits_inj'. intros i Hi. rewrite Z.lor_spec, testbit_mod by lia.
  destruct (Z.ltb_spec i 32).
  - by rewrite Z.shiftl_spec_low by lia.
  - rewrite Z.shiftl_spec, Z.shiftr_spec by lia. rewrite orb_false_r. f_equal. lia.
Qed.

(** *** Unary codes *)

Lemma lookup_bits_of n v i :
  (i < n)%nat -> bits_of n v !! i = Some (Z.testbit v (Z.of_nat (n - 1 - i))).
Proof.
  revert i; induction n as [|n IH]; intros i Hi; [lia|]. cbn [bits_of].
  destruct i as [|i]; simpl; [by rewrite !Nat.sub_0_r|]. rewrite IH by lia. do 3 f_equal. lia.
Qed.

Lemma testbit_lnot64 v i :
  0 <= i < 64 -> Z.testbit (Z.lxor v (2 ^ 64 - 1)) i = negb (Z.testbit v i).
Proof.
  intros Hi. change (2 ^ 64 - 1) with (Z.ones 64).
  rewrite Z.lxor_spec, Z.ones_spec_low by lia. apply xorb_true_r.
Qed.

(** Counting the leading ones of a 64-bit word through [LeadingZeros64]. *)
Lemma leading_ones_stop v j rest :
  is_u64 v -> bits_of 64 v = replicate j true ++ false :: rest ->
  leading_zeros64 (Z.lxor v (2 ^ 64 - 1)) = j.
Proof.
  intros Hv Hbits.
  assert (j < 64)%nat as Hj.
  { apply (f_equal length) in Hbits. rewrite length_bits_of, length_app, length_replicate in Hbits.
    simpl in Hbits. lia. }
  assert (Hget : forall i, (i < 64)%nat ->
    (replicate j true ++ false :: rest) !! i = Some (Z.testbit v (Z.of_nat (63 - i)))).
  { intros i Hi. rewrite <- Hbits, lookup_bits_of by lia. do 3 f_equal. }
  assert (Z.testbit (Z.lxor v (2 ^ 64 - 1)) (Z.of_nat (63 - j)) = true) as Htb.
  { rewrite testbit_lnot64 by lia. specialize (Hget j Hj).
    rewrite lookup_app_r, length_replicate, Nat.sub_diag in Hget by (rewrite length_replicate; lia).
    change (Some false = Some (Z.testbit v (Z.of_nat (63 - j)))) in Hget.
    injection Hget as <-. done. }
  assert (Z.log2 (Z.lxor v (2 ^ 64 - 1)) = Z.of_nat (63 - j)) as Hlog.
  { apply Z.log2_bits_unique; [done|].
    intros m Hm. destruct (Z.ltb_spec m 64).
    - rewrite testbit_lnot64 by lia. specialize (Hget (63 - Z.to_nat m)%nat ltac:(lia)).
      rewrite lookup_app_l, lookup_replicate_2 in Hget by (rewrite ?length_replicate; lia).
      replace (Z.of_nat (63 - (63 - Z.to_nat m))) with m in Hget by lia.
      by injection Hget as <-.
    - change (2 ^ 64 - 1) with (Z.ones 64). rewrite Z.lxor_spec, Z.ones_spec_high by lia.
      unfold is_u64 in Hv. by rewrite (testbit_high v 64) by lia. }
  unfold leading_zeros64. destruct (_ =? 0) eqn:E; bool2prop.
  - rewrite E, Z.bits_0 in Htb. done.
  - rewrite Hlog. lia.
Qed.

Lemma leading_ones_all v :
  is_u64 v -> bits_of 64 v = replicate 64 true -> leading_zeros64 (Z.lxor v (2 ^ 64 - 1)) = 64%nat.
Proof.
  intros Hv Hbits. assert (v = 2 ^ 64 - 1) as ->; [|done].
  apply (bits_of_inj 64); [done|done|]. rewrite Hbits. done.
Qed.

Lemma bits_of_top n acc :
  (n <= 64)%nat ->
  bits_of 64 (u64 (Z.shiftl acc (Z.of_nat (64 - n)))) = bits_of n acc ++ replicate (64 - n) false.
Proof.
  intros Hn. rewrite bits_of_u64 by lia.
  replace 64%nat with (n + (64 - n))%nat at 1 by lia. rewrite bits_of_add. f_equal.
  - by rewrite Z.shiftr_shiftl_l, Z.sub_diag, Z.shiftl_0_r by lia.
  - rewrite <- bits_of_zero. apply bits_of_ext. intros i Hi.
    by rewrite Z.shiftl_spec_low, Z.bits_0 by lia.
Qed.

(** A prefix of [replicate q true ++ false :: rest]: all ones, or it holds the zero. *)
Lemma unary_prefix (l t rest : list bool) q :
  l ++ t = replicate q true ++ false :: rest ->
  (exists q', q = (length l + q')%nat /\ l = replicate (length l) true /\
              t = replicate q' true ++ false :: rest) \/
  (exists l', l = replicate q true ++ false :: l' /\ l' ++ t = rest).
Proof.
  revert q; induction l as [|b l IH]; intros q H; simpl in *.
  - left. exists q. auto.
  - destruct q as [|q]; simpl in H; injection H as -> H.
    + right. exists l. auto.
    + destruct (IH q H) as [(q' & -> & Hl & ->)|(l' & -> & <-)].
      * left. exists q'. split_and!; [done| |done]. simpl. by f_equal.
      * right. exists l'. auto.
Qed.

Lemma readUnary_loop_ok fuel q0 q r rest :
  reader_ok r ->
  (length (br_data r) - br_pos r + (if (br_n r =? 0)%nat then 0 else 1) < fuel)%nat ->
  unread r = replicate q true ++ false :: rest ->
  0 <= q0 -> q0 + Z.of_nat q < 2 ^ 64 ->
  exists r', readUnary_loop fuel q0 r = (Some (q0 + Z.of_nat q), r') /\
             reader_ok r' /\ unread r' = rest /\ br_data r' = br_data r.
Proof.
  revert q0 q r; induction fuel as [|fuel IH]; intros q0 q r Hr Hfuel Hun Hq0 Hq; [lia|].
  cbn [readUnary_loop].
  destruct (refill_ok r Hr) as (Hr1 & Hu1 & Hd1 & Hn1 & Hfull). set (r1 := refill r) in *.
  assert (Hlen : (br_n r1 + 8 * (length (br_data r) - br_pos r1) =
                  br_n r + 8 * (length (br_data r) - br_pos r))%nat).
  { apply (f_equal length) in Hu1. unfold unread in Hu1.
    by rewrite !length_app, !length_bits_of, !length_bytes_bits, !length_drop, Hd1 in Hu1. }
  pose proof Hr1 as (Hn & Hacc & Hdata & Hpos). destruct Hr as (Hrn & _ & _ & Hrpos).
  rewrite Hd1 in Hpos.
  destruct (br_n r1 =? 0)%nat eqn:E0; bool2prop.
  { exfalso. destruct Hfull as [?|Hf]; [lia|]. rewrite E0, Hun in Hf. by destruct q. }
  set (v := u64 (Z.shiftl (br_acc r1) (Z.of_nat (64 - br_n r1)))).
  assert (is_u64 v) as Hv by apply u64_range.
  pose proof (bits_of_top (br_n r1) (br_acc r1) Hn) as Htop. fold v in Htop.
  rewrite <- Hu1 in Hun. unfold unread in Hun.
  destruct (unary_prefix _ _ _ _ Hun) as [(q' & Hqq & Hones & Ht)|(l' & Hl & Hrest)];
    rewrite ?length_bits_of in *.
  - assert (leading_zeros64 (Z.lxor v (2 ^ 64 - 1)) = br_n r1) as Hlz.
    { rewrite Hones in Htop. destruct (decide (br_n r1 = 64%nat)) as [H64|Hne].
      - rewrite H64 in Htop |- *. apply leading_ones_all; [done|]. by rewrite Htop.
      - destruct (64 - br_n r1)%nat as [|m] eqn:Em; [lia|].
        by apply (leading_ones_stop v _ (replicate m false)). }
    rewrite Hlz, Nat.ltb_irrefl.
    destruct (IH (u64 (q0 + Z.of_nat (br_n r1))) q'
                (BitReader (br_data r1) (br_pos r1) (br_acc r1) 0)) as (r' & He & Hr' & Hu' & Hd').
    + split_and!; simpl; try done; [lia|congruence].
    + simpl. rewrite Hd1. case_match; bool2prop; lia.
    + unfold unread; simpl. done.
    + apply u64_range.
    + rewrite u64_small by (unfold is_u64; lia). lia.
    + exists r'. rewrite He, u64_small by (unfold is_u64; lia). split_and!; try done.
      * do 2 f_equal. lia.
      * simpl in Hd'. congruence.
  - assert (leading_zeros64 (Z.lxor v (2 ^ 64 - 1)) = q) as Hlz.
    { rewrite Hl, <- app_assoc in Htop. by apply (leading_ones_stop v q (l' ++ replicate (64 - br_n r1) false)). }
    pose proof (f_equal length Hl) as Hll.
    rewrite length_bits_of, length_app, length_replicate in Hll. simpl in Hll.
    rewrite Hlz. destruct (q <? br_n r1)%nat eqn:E; bool2prop; [|lia].
    eexists. split_and!; [by rewrite u64_small by (unfold is_u64; lia)| | |done].
    + split_and!; simpl; try done; [lia|congruence].
    + unfold unread; simpl. rewrite <- Hrest. f_equal.
      replace (br_n r1) with ((q + 1) + (br_n r1 - (q + 1)))%nat in Hl by lia.
      rewrite bits_of_add, cons_middle, app_assoc in Hl.
      apply app_inj_1 in Hl as [_ Hl]; [done|].
      rewrite length_bits_of, length_app, length_replicate. done.
Qed.

Lemma readUnary_ok r q rest :
  reader_ok r -> is_u64 q -> unread r = replicate (Z.to_nat q) true ++ false :: rest ->
  exists r', readUnary r = (Some q, r') /\ reader_ok r' /\ unread r' = rest /\
             br_data r' = br_data r.
Proof.
  intros Hr Hq Hun. unfold is_u64 in Hq.
  destruct (readUnary_loop_ok (length (br_data r) + 2) 0 (Z.to_nat q) r rest)
    as (r' & He & H'); [done|case_match; lia|done|lia|lia|].
  exists r'. unfold readUnary. rewrite He. rewrite Z.add_0_l, Z2Nat.id by lia. done.
Qed.
