(* ===== verification/IndexV2.v ===== *)
(** * The v2 index form

    The Rice-coded index blob: the server's writer ([indexv2.go]:
    [riceParam], [marshalGBCI2], [gbci2Size]) and the client's writer and
    parser ([cacheclient/indexv2.go]: [MarshalIndexV2], [IndexV2Size],
    [ParseIndexV2]).  The theorems: the client reads back exactly the values
    the server wrote; whatever bytes the parser accepts, its values are
    strictly ascending and inside the declared width; both writers agree; and
    the size the server reports without writing is the size it writes. *)

From Stdlib Require Import ZArith Lia List Bool Sorted String.
From stdpp Require Import base list sets.
From S2P Require Import Prelude SortedSlice Keys Sha256 BitIO.

(** ** Frame *)

(** [gbciMagic]: "GBCI". *)
Definition gbciMagic : bytes := str "GBCI".
Definition gbciHeaderSize : nat := 24.
Definition shaSize : nat := 32.
Definition gbciVersion2 : Z := 2.
Definition indexHashBitsMin : Z := 32.
Definition indexHashBitsMax : Z := 64.

(** [bits.Len64]. *)
Definition bits_Len64 (x : Z) : Z := if x =? 0 then 0 else Z.log2 x + 1.

Definition riceParam (widthBits n : Z) : nat :=
  let k := if 1 <? n then widthBits - bits_Len64 (u64 (n - 1)) else widthBits in
  Z.to_nat (Z.max 0 (Z.min k 63)).

(** The gap written for [v]: [v] itself first, then [v - prev - 1] in uint64. *)
Definition gap (prev : option Z) (v : Z) : Z :=
  match prev with
  | None => v
  | Some p => u64 (v - p - 1)
  end.

(** The write loop of [marshalGBCI2]. *)
Fixpoint write_gaps (k : nat) (prev : option Z) (values : list Z) (w : bitWriter) : bitWriter :=
  match values with
  | [] => w
  | v :: values' =>
      let g := gap prev v in
      let w := writeUnary w (Z.shiftr g (Z.of_nat k)) in
      let w := writeBits w (Z.land g (low_mask k)) k in
      write_gaps k (Some v) values' w
  end.

(** The 24 header bytes around the eight digest bytes the ETag history needs. *)
Definition gbci_header (version width k : Z) (body : bytes) (count : Z) : bytes :=
  gbciMagic ++ [version; u8 width; u8 k; 0] ++ take 8 (sha256 body) ++ le_bytes 8 count.

Definition seal (header body : bytes) : bytes := header ++ body ++ sha256 (header ++ body).

Definition marshalGBCI2 (widthBits : Z) (values : list Z) : bytes :=
  let n := Z.of_nat (length values) in
  let k := riceParam widthBits n in
  let body := flush (write_gaps k None values (BitWriter [] 0 0)) in
  seal (gbci_header gbciVersion2 widthBits (Z.of_nat k) body n) body.

(** [gbci2Size]: the blob's length, counted and not written. *)
Fixpoint count_gaps (k : nat) (prev : option Z) (values : list Z) (total : Z) : Z :=
  match values with
  | [] => total
  | v :: values' =>
      count_gaps k (Some v) values'
        (u64 (total + (Z.shiftr (gap prev v) (Z.of_nat k) + Z.of_nat k + 1)))
  end.

Definition gbci2Size (widthBits : Z) (values : list Z) : Z :=
  let k := riceParam widthBits (Z.of_nat (length values)) in
  let total := count_gaps k None values 0 in
  Z.of_nat gbciHeaderSize + i64 (u64 (total + 7) / 8) + Z.of_nat shaSize.

(** ** The client side *)

(** [prefixLimit]: the largest value of [widthBits] bits. *)
Definition prefixLimit (widthBits : Z) : Z :=
  if 64 <=? widthBits then 2 ^ 64 - 1 else u64 (Z.shiftl 1 widthBits - 1).

(** The guard of [MarshalIndexV2]'s loop; [false] is the panic. *)
Fixpoint values_in_order (limit : Z) (prev : option Z) (values : list Z) : bool :=
  match values with
  | [] => true
  | v :: values' =>
      if (limit <? v) || (match prev with None => false | Some p => v <=? p end) then false
      else values_in_order limit (Some v) values'
  end.

(** [MarshalIndexV2]; [None] is a panic. *)
Definition MarshalIndexV2 (widthBits : Z) (values : list Z) : option bytes :=
  if (widthBits <? indexHashBitsMin) || (indexHashBitsMax <? widthBits) then None
  else if values_in_order (prefixLimit widthBits) None values then
    Some (marshalGBCI2 widthBits values)
  else None.

Inductive parseErr :=
  | ErrTooSmall | ErrBadMagic | ErrVersion (v : Z) | ErrWidth (w : Z) | ErrRice (k : Z)
  | ErrTrailer | ErrCount (n : Z) | ErrBodyEnds (i : Z) | ErrOverflow (i : Z)
  | ErrOverflowWidth (i : Z) | ErrTrailing.

(** The loop of [ParseIndexV2] over the [count] values. *)
Fixpoint parse_values (count : nat) (i : Z) (k : nat) (limit prev : Z) (r : bitReader)
  : parseErr + (list Z * bitReader) :=
  match count with
  | O => inr ([], r)
  | S count' =>
      match readUnary r with
      | (None, _) => inl (ErrBodyEnds i)
      | (Some q, r1) =>
          match readBits r1 k with
          | (None, _) => inl (ErrBodyEnds i)
          | (Some low, r2) =>
              if (0 <? k)%nat && negb (Z.shiftr q (64 - Z.of_nat k) =? 0) then inl (ErrOverflow i)
              else
                let g := Z.lor (u64 (Z.shiftl q (Z.of_nat k))) low in
                if (0 <? i) && ((limit <=? prev) || (limit - prev - 1 <? g))
                then inl (ErrOverflowWidth i)
                else
                  let v := if 0 <? i then u64 (prev + g + 1) else g in
                  if limit <? v then inl (ErrOverflowWidth i)
                  else
                    match parse_values count' (i + 1) k limit v r2 with
                    | inl e => inl e
                    | inr (vs, r3) => inr (v :: vs, r3)
                    end
          end
      end
  end.

Definition ParseIndexV2 (blob : bytes) : parseErr + (list Z * Z) :=
  if (length blob <? gbciHeaderSize + shaSize)%nat then inl ErrTooSmall
  else if negb (bytes_eqb (take 4 blob) gbciMagic) then inl ErrBadMagic
  else
    let version := nth 4 blob 0 in
    if negb (version =? gbciVersion2) then inl (ErrVersion version)
    else
      let widthBits := nth 5 blob 0 in
      if (widthBits <? indexHashBitsMin) || (indexHashBitsMax <? widthBits)
      then inl (ErrWidth widthBits)
      else
        let k := nth 6 blob 0 in
        if 63 <? k then inl (ErrRice k)
        else
          let bodyEnd := (length blob - shaSize)%nat in
          if negb (bytes_eqb (sha256 (take bodyEnd blob)) (drop bodyEnd blob)) then inl ErrTrailer
          else
            let body := drop gbciHeaderSize (take bodyEnd blob) in
            let count := le_value (take 8 (drop 16 blob)) in
            if u64 (Z.of_nat (length body) * 8) / (k + 1) <? count then inl (ErrCount count)
            else
              match parse_values (Z.to_nat count) 0 (Z.to_nat k) (prefixLimit widthBits) 0
                      (BitReader body 0 0 0) with
              | inl e => inl e
              | inr (vs, r) =>
                  if (br_pos r <? length body)%nat || (8 <=? br_n r)%nat then inl ErrTrailing
                  else inr (vs, widthBits)
              end.

(** ** The abstract code *)

(** The bits of one value: the quotient in unary, then [k] low bits. *)
Fixpoint code_bits (k : nat) (prev : option Z) (values : list Z) : list bool :=
  match values with
  | [] => []
  | v :: values' =>
      let g := gap prev v in
      replicate (Z.to_nat (Z.shiftr g (Z.of_nat k))) true ++ [false] ++
      bits_of k g ++ code_bits k (Some v) values'
  end.

(** Strictly ascending, from above [prev], each value of [widthBits] bits. *)
Fixpoint ascending (widthBits : Z) (prev : option Z) (values : list Z) : Prop :=
  match values with
  | [] => True
  | v :: values' =>
      0 <= v < 2 ^ widthBits /\ (match prev with None => True | Some p => p < v end) /\
      ascending widthBits (Some v) values'
  end.

(** ** Lemmas *)

Lemma riceParam_range w n : (riceParam w n <= 63)%nat.
Proof. unfold riceParam. lia. Qed.

Lemma prefixLimit_eq w : indexHashBitsMin <= w <= indexHashBitsMax -> prefixLimit w = 2 ^ w - 1.
Proof.
  unfold indexHashBitsMin, indexHashBitsMax. intros Hw. unfold prefixLimit.
  destruct (64 <=? w) eqn:E; bool2prop.
  - assert (w = 64) as -> by lia. done.
  - rewrite Z.shiftl_1_l, u64_small; [done|].
    assert (2 ^ w <= 2 ^ 63) by (apply Z.pow_le_mono_r; lia).
    assert (0 < 2 ^ w) by (apply Z.pow_pos_nonneg; lia). unfold is_u64. lia.
Qed.

Lemma ascending_pow w prev values :
  ascending w prev values -> forall v, v ∈ values -> 0 <= v < 2 ^ w.
Proof.
  revert prev; induction values as [|x values IH]; intros prev H v Hv; [set_solver|].
  destruct H as (Hx & _ & H). apply elem_of_cons in Hv as [->|Hv]; [done|]. eauto.
Qed.

Lemma gap_range w prev v :
  w <= 64 -> 0 <= v < 2 ^ w -> (match prev with None => True | Some p => 0 <= p < v end) ->
  is_u64 (gap prev v) /\ gap prev v = match prev with None => v | Some p => v - p - 1 end.
Proof.
  intros Hw Hv Hp. assert (2 ^ w <= 2 ^ 64) by (apply Z.pow_le_mono_r; lia).
  destruct prev as [p|]; simpl.
  - rewrite u64_small; unfold is_u64; lia.
  - unfold is_u64. lia.
Qed.

Lemma shiftr_u64 g k : is_u64 g -> is_u64 (Z.shiftr g (Z.of_nat k)).
Proof.
  unfold is_u64. intros Hg. rewrite Z.shiftr_div_pow2 by lia.
  assert (0 < 2 ^ Z.of_nat k) by (apply Z.pow_pos_nonneg; lia).
  split; [apply Z.div_pos; lia|]. apply Z.le_lt_trans with g; [|lia].
  apply Z.div_le_upper_bound; nia.
Qed.

Lemma shiftr_gap_small g k : is_u64 g -> (k <= 63)%nat -> (0 < k)%nat ->
  Z.shiftr (Z.shiftr g (Z.of_nat k)) (64 - Z.of_nat k) = 0.
Proof.
  unfold is_u64. intros Hg Hk Hk0. rewrite Z.shiftr_shiftr by lia.
  replace (Z.of_nat k + (64 - Z.of_nat k)) with 64 by lia.
  rewrite Z.shiftr_div_pow2 by lia. by apply Z.div_small.
Qed.

Lemma join_gap g k : is_u64 g -> (k <= 63)%nat ->
  Z.lor (u64 (Z.shiftl (Z.shiftr g (Z.of_nat k)) (Z.of_nat k))) (Z.land g (low_mask k)) = g.
Proof.
  unfold is_u64. intros Hg Hk. apply Z.bits_inj'. intros i Hi. unfold low_mask.
  rewrite Z.lor_spec, Z.land_spec. unfold u64. rewrite testbit_mod by lia.
  destruct (Z.ltb_spec i (Z.of_nat k)).
  - rewrite Z.shiftl_spec_low, Z.ones_spec_low by lia. by rewrite andb_false_r, andb_true_r.
  - rewrite Z.ones_spec_high, Z.shiftl_spec, Z.shiftr_spec by lia.
    rewrite andb_false_r, orb_false_r. replace (i - Z.of_nat k + Z.of_nat k) with i by lia.
    destruct (Z.ltb_spec i 64); [done|]. by rewrite (testbit_high g 64) by lia.
Qed.

Lemma write_gaps_ok w0 k prev values w :
  writer_ok w -> (k <= 63)%nat -> w0 <= 64 ->
  ascending w0 prev values -> (match prev with None => True | Some p => 0 <= p end) ->
  writer_ok (write_gaps k prev values w) /\
  written (write_gaps k prev values w) = written w ++ code_bits k prev values.
Proof.
  revert prev w; induction values as [|v values IH]; intros prev w Hw Hk Hw0 Hasc Hprev; simpl.
  { by rewrite app_nil_r. }
  destruct Hasc as (Hv & Hpv & Hasc).
  destruct (gap_range w0 prev v) as [Hg _]; [done|done|destruct prev; lia|].
  destruct (writeUnary_ok w (Z.shiftr (gap prev v) (Z.of_nat k))) as [Hw1 Hb1];
    [done|by apply shiftr_u64|].
  destruct (writeBits_ok (writeUnary w (Z.shiftr (gap prev v) (Z.of_nat k)))
              (Z.land (gap prev v) (low_mask k)) k) as [Hw2 Hb2]; [done|lia|].
  destruct (IH (Some v) _ Hw2 Hk Hw0 Hasc) as [Hw3 Hb3]; [simpl; lia|].
  split; [done|]. rewrite Hb3, Hb2, Hb1, bits_of_land. rewrite <- !app_assoc. done.
Qed.

Lemma parse_values_ok w0 k prev values r rest i :
  indexHashBitsMin <= w0 <= indexHashBitsMax -> (k <= 63)%nat -> reader_ok r ->
  ascending w0 prev values ->
  (match prev with None => i = 0 | Some p => 0 < i /\ 0 <= p end) ->
  unread r = code_bits k prev values ++ rest ->
  exists r', parse_values (length values) i k (prefixLimit w0)
               (match prev with None => 0 | Some p => p end) r = inr (values, r') /\
             reader_ok r' /\ unread r' = rest /\ br_data r' = br_data r.
Proof.
  intros Hw0 Hk. revert prev r i; induction values as [|v values IH];
    intros prev r i Hr Hasc Hi Hun; cbn [code_bits length parse_values] in *.
  { exists r. done. }
  destruct Hasc as (Hv & Hpv & Hasc).
  destruct (gap_range w0 prev v) as [Hg Hgeq];
    [unfold indexHashBitsMax in *; lia|done|destruct prev; lia|].
  set (g := gap prev v) in *. rewrite <- !app_assoc in Hun.
  destruct (readUnary_ok r (Z.shiftr g (Z.of_nat k)) (bits_of k g ++ code_bits k (Some v) values ++ rest))
    as (r1 & -> & Hr1 & Hu1 & Hd1); [done|by apply shiftr_u64|done|].
  destruct (readBits_ok r1 k (Z.land g (low_mask k)) (code_bits k (Some v) values ++ rest))
    as (r2 & -> & Hr2 & Hu2 & Hd2); [done|lia|by rewrite bits_of_land|apply land_low_range|].
  destruct ((0 <? k)%nat && _) eqn:Eov.
  { bool2prop. rewrite shiftr_gap_small in H0 by done. done. }
  rewrite join_gap by done. rewrite prefixLimit_eq by done.
  assert (Hcond : (0 <? i) && ((2 ^ w0 - 1 <=? match prev with None => 0 | Some p => p end) ||
     (2 ^ w0 - 1 - match prev with None => 0 | Some p => p end - 1 <? g)) = false).
  { destruct prev as [p|]; [|subst i; done]. rewrite Hgeq.
    apply andb_false_iff. right. apply orb_false_iff. split; [apply Z.leb_gt|apply Z.ltb_ge]; lia. }
  rewrite Hcond.
  assert (Hval : (if 0 <? i then u64 (match prev with None => 0 | Some p => p end + g + 1) else g) = v).
  { destruct prev as [p|].
    - destruct (Z.ltb_spec 0 i); [|lia]. rewrite Hgeq. rewrite u64_small; [lia|].
      assert (2 ^ w0 <= 2 ^ 64) by (apply Z.pow_le_mono_r; unfold indexHashBitsMax in *; lia).
      unfold is_u64. lia.
    - subst i. done. }
  rewrite Hval. destruct (2 ^ w0 - 1 <? v) eqn:E; bool2prop; [lia|].
  destruct (IH (Some v) r2 (i + 1)) as (r3 & He & Hr3 & Hu3 & Hd3);
    [done|done|simpl; destruct prev; lia|done|].
  rewrite prefixLimit_eq in He by done. rewrite He. exists r3. split_and!; try done. congruence.
Qed.

Lemma code_bits_length k prev values :
  (length values * (k + 1) <= length (code_bits k prev values))%nat.
Proof.
  revert prev; induction values as [|v values IH]; intros prev; [simpl; lia|].
  cbn [code_bits length]. rewrite !length_app, length_bits_of, length_replicate.
  specialize (IH (Some v)). simpl. lia.
Qed.

Lemma length_gbci_header version w k body n : length (gbci_header version w k body n) = 24%nat.
Proof.
  unfold gbci_header. rewrite !length_app, length_le_bytes, length_take, length_sha256. done.
Qed.

Lemma length_marshalGBCI2 w values :
  length (marshalGBCI2 w values) =
  (24 + length (flush (write_gaps (riceParam w (Z.of_nat (length values))) None values
                         (BitWriter [] 0 0))) + 32)%nat.
Proof.
  unfold marshalGBCI2, seal. rewrite !length_app, length_gbci_header, length_sha256. lia.
Qed.

Lemma writer_start_ok : writer_ok (BitWriter [] 0 0).
Proof. split_and!; simpl; [lia|unfold is_u64; lia|constructor]. Qed.

(** What the body of a marshalled blob holds. *)
Lemma body_bits w values :
  w <= 64 -> ascending w None values ->
  let k := riceParam w (Z.of_nat (length values)) in
  let body := flush (write_gaps k None values (BitWriter [] 0 0)) in
  Forall is_byte body /\
  exists pad, (pad < 8)%nat /\ bytes_bits body = code_bits k None values ++ replicate pad false.
Proof.
  intros Hw Hasc k body.
  destruct (write_gaps_ok w k None values (BitWriter [] 0 0)) as [Hok Hb];
    [apply writer_start_ok|apply riceParam_range|done|done|done|].
  destruct (flush_ok _ Hok) as [Hbytes (pad & Hpad & Hbits)].
  split; [done|]. exists pad. split; [done|]. unfold body. rewrite Hbits, Hb. done.
Qed.

Lemma ascending_ssorted w values :
  ascending w None values <-> ssorted values /\ Forall (fun v => 0 <= v < 2 ^ w) values.
Proof.
  assert (Hgen : forall prev, ascending w prev values <->
    (match prev with None => True | Some p => Forall (fun v => p < v) values end) /\
    ssorted values /\ Forall (fun v => 0 <= v < 2 ^ w) values).
  { induction values as [|v values IH]; intros prev; simpl.
    - destruct prev; split; intros H; repeat first [done | constructor].
    - rewrite IH. split.
      + intros (Hv & Hp & Hlt & Hs & Hall). split_and!.
        * destruct prev as [p|]; [|done]. constructor; [done|].
          eapply Forall_impl; [exact Hlt|]. simpl. lia.
        * constructor; [done|]. eapply Forall_impl; [exact Hlt|].
          intros z Hz. by apply Z.compare_lt_iff.
        * by constructor.
      + intros (Hp & Hs & Hall). inversion_clear Hs as [|? ? Hs' Hlt].
        apply Forall_cons in Hall as [Hv Hall].
        assert (Forall (fun z => v < z) values).
        { eapply Forall_impl; [exact Hlt|]. intros z Hz. by apply Z.compare_lt_iff in Hz. }
        split_and!; try done; try lia.
        destruct prev as [p|]; [|done]. by apply Forall_cons in Hp as [? _]. }
  rewrite Hgen. tauto.
Qed.

Lemma values_in_order_ascending w prev values :
  ascending w prev values -> values_in_order (2 ^ w - 1) prev values = true.
Proof.
  revert prev; induction values as [|v values IH]; intros prev H; [done|].
  destruct H as (Hv & Hp & H). simpl.
  destruct (2 ^ w - 1 <? v) eqn:E; bool2prop; [lia|]. simpl.
  destruct prev as [p|]; [destruct (v <=? p) eqn:E'; bool2prop; [lia|]|]; auto.
Qed.

(** The fields the parser reads out of a sealed blob. *)
Lemma seal_fields version w k body n :
  0 <= w < 256 -> 0 <= k < 256 -> 0 <= n < 2 ^ 64 ->
  let h := gbci_header version w k body n in
  let blob := seal h body in
  take 4 blob = gbciMagic /\ nth 4 blob 0 = version /\ nth 5 blob 0 = w /\ nth 6 blob 0 = k /\
  le_value (take 8 (drop 16 blob)) = n /\
  (length blob - shaSize)%nat = length (h ++ body) /\
  take (length (h ++ body)) blob = h ++ body /\
  drop (length (h ++ body)) blob = sha256 (h ++ body) /\
  drop gbciHeaderSize (h ++ body) = body.
Proof.
  intros Hw Hk Hn h blob.
  assert (Hcut : take 8 (drop 16 blob) = le_bytes 8 n).
  { unfold blob, seal, h, gbci_header. rewrite <- !app_assoc.
    change (drop 16 (gbciMagic ++ [version; u8 w; u8 k; 0] ++ take 8 (sha256 body) ++ le_bytes 8 n ++
              body ++ sha256 (gbciMagic ++ [version; u8 w; u8 k; 0] ++ take 8 (sha256 body) ++ le_bytes 8 n ++ body)))
      with (drop 8 (take 8 (sha256 body) ++ le_bytes 8 n ++
              body ++ sha256 (gbciMagic ++ [version; u8 w; u8 k; 0] ++ take 8 (sha256 body) ++ le_bytes 8 n ++ body))).
    rewrite drop_app_length' by (rewrite length_take, length_sha256; done).
    rewrite take_app_length' by (rewrite length_le_bytes; done). done. }
  assert (Hassoc : blob = (h ++ body) ++ sha256 (h ++ body)) by (unfold blob, seal; by rewrite <- app_assoc).
  split_and!.
  - done.
  - done.
  - unfold blob, seal, h, gbci_header. simpl. apply u8_small. unfold is_byte. lia.
  - unfold blob, seal, h, gbci_header. simpl. apply u8_small. unfold is_byte. lia.
  - rewrite Hcut, le_value_bytes by lia. by apply Z.mod_small.
  - rewrite Hassoc, (length_app (h ++ body)), length_sha256. unfold shaSize. lia.
  - rewrite Hassoc. apply take_app_length.
  - rewrite Hassoc. apply drop_app_length.
  - apply drop_app_length'. unfold h. by rewrite length_gbci_header.
Qed.

Lemma unread_drained r pad :
  reader_ok r -> unread r = replicate pad false -> (pad < 8)%nat ->
  (br_pos r <? length (br_data r))%nat || (8 <=? br_n r)%nat = false.
Proof.
  intros (_ & _ & _ & Hpos) Hun Hpad. apply (f_equal length) in Hun.
  unfold unread in Hun.
  rewrite length_app, length_bits_of, length_bytes_bits, length_drop, length_replicate in Hun.
  apply orb_false_iff. split; [apply Nat.ltb_ge|apply Nat.leb_gt]; lia.
Qed.

Lemma parse_marshal w values :
  indexHashBitsMin <= w <= indexHashBitsMax ->
  ascending w None values ->
  8 * Z.of_nat (length (marshalGBCI2 w values)) < 2 ^ 64 ->
  ParseIndexV2 (marshalGBCI2 w values) = inr (values, w).
Proof.
  intros Hw Hasc Hsize. pose proof Hw as Hw'. unfold indexHashBitsMin, indexHashBitsMax in Hw'.
  assert (Hguard : (w <? indexHashBitsMin) || (indexHashBitsMax <? w) = false).
  { apply orb_false_iff. split; apply Z.ltb_ge; lia. }
  rewrite length_marshalGBCI2 in Hsize.
  destruct (body_bits w values) as [Hbytes (pad & Hpad & Hbits)]; [lia|done|].
  unfold marshalGBCI2. cbv zeta. pose proof (riceParam_range w (Z.of_nat (length values))) as Hk.
  set (k := riceParam w (Z.of_nat (length values))) in *.
  set (body := flush _) in *.
  assert (Hlen : (length values * (k + 1) <= 8 * length body)%nat).
  { apply (f_equal length) in Hbits. rewrite length_bytes_bits, length_app in Hbits.
    pose proof (code_bits_length k None values). lia. }
  destruct (seal_fields gbciVersion2 w (Z.of_nat k) body (Z.of_nat (length values)))
    as (H4 & Hver & Hwid & Hkk & Hcnt & Hend & Htake & Hdrop & Hbody); [lia|lia|nia|].
  set (h := gbci_header _ _ _ _ _) in *.
  unfold ParseIndexV2. rewrite Hend, Htake, Hdrop, Hbody, H4, Hver, Hwid, Hkk, Hcnt.
  destruct (_ <? _)%nat eqn:Es.
  { bool2prop. unfold seal in Es. rewrite !length_app, length_sha256 in Es.
    unfold h in Es. rewrite length_gbci_header in Es. unfold gbciHeaderSize, shaSize in Es. lia. }
  rewrite bytes_eqb_refl, Hguard. cbn [negb].
  destruct (63 <? Z.of_nat k) eqn:Ek; bool2prop; [lia|]. rewrite bytes_eqb_refl. cbn [negb].
  destruct (_ / _ <? _) eqn:Ec; bool2prop.
  { exfalso. rewrite u64_small in Ec by (unfold is_u64; lia).
    apply Z.lt_nge in Ec. apply Ec. apply Z.div_le_lower_bound; [lia|]. nia. }
  rewrite !Nat2Z.id.
  destruct (parse_values_ok w k None values (BitReader body 0 0 0) (replicate pad false) 0)
    as (r' & He & Hr' & Hu' & Hd'); try done.
  { split_and!; simpl; [lia|unfold is_u64; lia|done|lia]. }
  simpl in He. rewrite He. simpl in Hd'. rewrite <- Hd'.
  by rewrite (unread_drained r' pad).
Qed.

(** ** Properties *)

(** Index v2 round trip: for every width of 32 to 64 bits and every strictly
    ascending list of values of that width, the client's [ParseIndexV2] accepts
    the blob the server's [marshalGBCI2] writes and returns exactly those values
    and that width (for blobs below 2^61 bytes, the range in which Go's [len*8]
    does not wrap); and the client's own writer produces the same bytes. *)
Theorem indexV2_roundtrip w values :
  indexHashBitsMin <= w <= indexHashBitsMax ->
  ascending w None values ->
  8 * Z.of_nat (length (marshalGBCI2 w values)) < 2 ^ 64 ->
  ParseIndexV2 (marshalGBCI2 w values) = inr (values, w) /\
  MarshalIndexV2 w values = Some (marshalGBCI2 w values).
Proof.
  intros Hw Hasc Hsize. split; [by apply parse_marshal|].
  unfold MarshalIndexV2. rewrite prefixLimit_eq, values_in_order_ascending by done.
  unfold indexHashBitsMin, indexHashBitsMax in *.
  destruct (Z.ltb_spec w 32), (Z.ltb_spec 64 w); done || lia.
Qed.

Lemma indexV2_roundtrip_witness :
  ParseIndexV2 (marshalGBCI2 40 [0; 5; 1099511627775]) = inr ([0; 5; 1099511627775], 40) /\
  MarshalIndexV2 40 [0; 5; 1099511627775] = Some (marshalGBCI2 40 [0; 5; 1099511627775]).
Proof.
  apply (indexV2_roundtrip 40 [0; 5; 1099511627775]).
  - unfold indexHashBitsMin, indexHashBitsMax. lia.
  - simpl. lia.
  - vm_compute. reflexivity.
Defined.

(** *** Sizes *)

(** The unary part of the code, in bits less one per value. *)
Fixpoint quotients (k : nat) (prev : option Z) (values : list Z) : Z :=
  match values with
  | [] => 0
  | v :: values' => Z.shiftr (gap prev v) (Z.of_nat k) + quotients k (Some v) values'
  end.

Lemma quotients_bound w k prev values :
  w <= 64 -> ascending w prev values -> (match prev with None => True | Some p => 0 <= p end) ->
  values <> [] ->
  0 <= quotients k prev values /\
  quotients k prev values * 2 ^ Z.of_nat k <=
    2 ^ w - 1 - match prev with None => 0 | Some p => p + 1 end.
Proof.
  intros Hw. revert prev; induction values as [|v values IH]; intros prev H Hp Hne; [done|].
  destruct H as (Hv & Hpv & H). cbn [quotients].
  destruct (gap_range w prev v) as [Hg Hge]; [done|done|destruct prev; lia|].
  assert (0 < 2 ^ Z.of_nat k) by (apply Z.pow_pos_nonneg; lia).
  assert (0 <= Z.shiftr (gap prev v) (Z.of_nat k)) by (apply Z.shiftr_nonneg; apply Hg).
  assert (Z.shiftr (gap prev v) (Z.of_nat k) * 2 ^ Z.of_nat k <= gap prev v).
  { rewrite Z.shiftr_div_pow2, Z.mul_comm by lia. apply Z.mul_div_le. lia. }
  destruct values as [|v' values].
  - simpl. destruct prev; nia.
  - destruct (IH (Some v)) as [IH1 IH2]; [done|simpl; lia|done|]. destruct prev; nia.
Qed.

Lemma code_bits_size k prev values w :
  w <= 64 -> ascending w prev values -> (match prev with None => True | Some p => 0 <= p end) ->
  Z.of_nat (length (code_bits k prev values)) =
  quotients k prev values + Z.of_nat (length values) * (Z.of_nat k + 1).
Proof.
  intros Hw. revert prev; induction values as [|v values IH]; intros prev H Hp; [done|].
  destruct H as (Hv & Hpv & H). cbn [quotients code_bits length].
  destruct (gap_range w prev v) as [Hg _]; [done|done|destruct prev; lia|].
  assert (0 <= Z.shiftr (gap prev v) (Z.of_nat k)) by (apply Z.shiftr_nonneg; apply Hg).
  rewrite !length_app, length_bits_of, length_replicate. cbn [length].
  specialize (IH (Some v) H ltac:(simpl; lia)). lia.
Qed.

Lemma bits_Len64_spec x : 0 < x -> 2 ^ (bits_Len64 x - 1) <= x < 2 ^ bits_Len64 x.
Proof.
  intros Hx. unfold bits_Len64. destruct (x =? 0) eqn:E; bool2prop; [lia|].
  replace (Z.log2 x + 1 - 1) with (Z.log2 x) by lia. rewrite Z.add_1_r. by apply Z.log2_spec.
Qed.

(** The Rice parameter keeps the quotients below twice the number of values. *)
Lemma quotients_rice w values :
  indexHashBitsMin <= w <= indexHashBitsMax -> ascending w None values ->
  Z.of_nat (length values) < 2 ^ 63 ->
  quotients (riceParam w (Z.of_nat (length values))) None values <= 2 * Z.of_nat (length values).
Proof.
  unfold indexHashBitsMin, indexHashBitsMax. intros Hw Hasc Hn.
  destruct values as [|v values]; [simpl; lia|].
  set (n := Z.of_nat (length (v :: values))) in *. assert (1 <= n) as Hn1 by (subst n; simpl; lia).
  assert (0 < 2 ^ w) as Hpw by (apply Z.pow_pos_nonneg; lia).
  destruct (quotients_bound w (riceParam w n) None (v :: values)) as [_ Hq]; [lia|done|done|done|].
  set (Q := quotients _ _ _) in *. unfold riceParam in Hq.
  destruct (1 <? n) eqn:E; bool2prop.
  - rewrite u64_small in Hq by (unfold is_u64; lia).
    destruct (bits_Len64_spec (n - 1)) as [Hlo Hhi]; [lia|]. set (L := bits_Len64 (n - 1)) in *.
    assert (1 <= L).
    { destruct (Z.le_gt_cases 1 L); [done|]. assert (2 ^ L <= 2 ^ 0) by (apply Z.pow_le_mono_r; lia). lia. }
    assert (2 ^ L = 2 * 2 ^ (L - 1)) as HL by (rewrite <- Z.pow_succ_r by lia; f_equal; lia).
    destruct (Z.le_gt_cases L w) as [Hle|Hgt].
    + rewrite Z2Nat.id in Hq by lia. rewrite Z.max_r, Z.min_l in Hq by lia.
      assert (2 ^ w = 2 ^ L * 2 ^ (w - L)) as Hs by (rewrite <- Z.pow_add_r by lia; f_equal; lia).
      assert (0 < 2 ^ (w - L)) by (apply Z.pow_pos_nonneg; lia). nia.
    + assert (2 ^ w <= 2 ^ (L - 1)) by (apply Z.pow_le_mono_r; lia).
      assert (Q <= 2 ^ w - 1).
      { replace (Z.to_nat _) with 0%nat in Hq by lia. change (2 ^ Z.of_nat 0) with 1 in Hq. lia. }
      lia.
  - assert (n = 1) as -> by lia. rewrite Z2Nat.id in Hq by lia. rewrite Z.max_r in Hq by lia.
    assert (2 ^ w <= 2 * 2 ^ Z.min w 63) by (rewrite <- Z.pow_succ_r by lia; apply Z.pow_le_mono_r; lia).
    assert (0 < 2 ^ Z.min w 63) by (apply Z.pow_pos_nonneg; lia). nia.
Qed.

(** The length of the body in bytes. *)
Lemma body_length w values :
  w <= 64 -> ascending w None values ->
  let k := riceParam w (Z.of_nat (length values)) in
  Z.of_nat (length (flush (write_gaps k None values (BitWriter [] 0 0)))) =
  (quotients k None values + Z.of_nat (length values) * (Z.of_nat k + 1) + 7) / 8.
Proof.
  intros Hw Hasc k. destruct (body_bits w values) as [_ (pad & Hpad & Hbits)]; [done|done|].
  fold k in Hbits. apply (f_equal length) in Hbits.
  rewrite length_bytes_bits, length_app, length_replicate in Hbits.
  rewrite <- (code_bits_size k None values w) by done.
  apply (Z.div_unique_pos _ _ _ (7 - Z.of_nat pad)); lia.
Qed.

Lemma count_gaps_total w k prev values total :
  w <= 64 -> ascending w prev values -> (match prev with None => True | Some p => 0 <= p end) ->
  0 <= total ->
  total + quotients k prev values + Z.of_nat (length values) * (Z.of_nat k + 1) < 2 ^ 64 ->
  count_gaps k prev values total =
  total + quotients k prev values + Z.of_nat (length values) * (Z.of_nat k + 1).
Proof.
  intros Hw. revert prev total; induction values as [|v values IH];
    intros prev total H Hp Ht Hlt; [simpl; lia|].
  destruct H as (Hv & Hpv & H). cbn [count_gaps quotients length] in *.
  destruct (gap_range w prev v) as [Hg _]; [done|done|destruct prev; lia|].
  assert (0 <= Z.shiftr (gap prev v) (Z.of_nat k)) by (apply Z.shiftr_nonneg; apply Hg).
  assert (0 <= quotients k (Some v) values).
  { destruct values as [|v' values]; [simpl; lia|].
    destruct (quotients_bound w k (Some v) (v' :: values)); [done|done|simpl; lia|done|done]. }
  rewrite u64_small by (unfold is_u64; lia). rewrite IH; [lia|done|simpl; lia|lia|lia].
Qed.

Lemma marshal_size w values :
  indexHashBitsMin <= w <= indexHashBitsMax ->
  ascending w None values ->
  Z.of_nat (length values) < 2 ^ 56 ->
  let n := Z.of_nat (length values) in
  gbci2Size w values = Z.of_nat (length (marshalGBCI2 w values)) /\
  Z.of_nat (length (marshalGBCI2 w values)) <= 56 + (n * (Z.of_nat (riceParam w n) + 3) + 7) / 8 /\
  8 * Z.of_nat (length (marshalGBCI2 w values)) < 2 ^ 64.
Proof.
  intros Hw Hasc Hn n. pose proof Hw as Hw'. unfold indexHashBitsMin, indexHashBitsMax in Hw'.
  pose proof (quotients_rice w values Hw Hasc ltac:(lia)) as Hq.
  pose proof (riceParam_range w n) as Hk. fold n in Hq.
  assert (0 <= quotients (riceParam w n) None values) as Hq0.
  { destruct values as [|v values]; [simpl; lia|].
    destruct (quotients_bound w (riceParam w n) None (v :: values)); try done; lia. }
  pose proof (body_length w values ltac:(lia) Hasc) as Hlen. cbv zeta in Hlen. fold n in Hlen.
  rewrite length_marshalGBCI2. fold n. set (k := riceParam w n) in *.
  set (T := quotients k None values + n * (Z.of_nat k + 1)) in *.
  assert (0 <= n) by (subst n; lia).
  assert (0 <= T <= 66 * 2 ^ 56) by nia.
  assert (T <= n * (Z.of_nat k + 3)) by nia.
  assert ((T + 7) / 8 <= (n * (Z.of_nat k + 3) + 7) / 8) by (apply Z.div_le_mono; lia).
  assert ((T + 7) / 8 <= (T + 7)) by (apply Z.div_le_upper_bound; lia).
  assert (0 <= (T + 7) / 8) by (apply Z.div_pos; lia).
  assert (8 * ((T + 7) / 8) <= T + 7) by (apply Z.mul_div_le; lia).
  split_and!; [|lia|lia].
  unfold gbci2Size. fold n. fold k.
  rewrite (count_gaps_total w k None values 0); [|lia|done|done|lia|fold n; fold T; lia].
  fold n. replace (0 + quotients k None values + n * (Z.of_nat k + 1)) with T by (subst T; lia).
  rewrite u64_small by (unfold is_u64; lia). rewrite i64_small by lia.
  rewrite !Nat2Z.inj_add, Hlen. unfold gbciHeaderSize, shaSize. lia.
Qed.

(** Index v2 size: [gbci2Size] (what [WireSize] reports without serializing)
    is exactly the length of the blob [marshalGBCI2] writes, and that length is
    at most the 56 framing bytes plus [k + 3] bits per key, [k] the Rice
    parameter; so the blob of fewer than 2^56 keys never wraps the 64-bit
    counters of writer and parser. *)
Theorem indexV2_size w values :
  indexHashBitsMin <= w <= indexHashBitsMax ->
  ascending w None values ->
  Z.of_nat (length values) < 2 ^ 56 ->
  let n := Z.of_nat (length values) in
  gbci2Size w values = Z.of_nat (length (marshalGBCI2 w values)) /\
  Z.of_nat (length (marshalGBCI2 w values)) <= 56 + (n * (Z.of_nat (riceParam w n) + 3) + 7) / 8 /\
  8 * Z.of_nat (length (marshalGBCI2 w values)) < 2 ^ 64.
Proof. apply marshal_size. Qed.

Lemma indexV2_size_witness :
  gbci2Size 32 [7; 8; 4294967295] = Z.of_nat (length (marshalGBCI2 32 [7; 8; 4294967295])).
Proof.
  destruct (indexV2_size 32 [7; 8; 4294967295]) as [H _].
  - unfold indexHashBitsMin, indexHashBitsMax. lia.
  - simpl. lia.
  - simpl. lia.
  - exact H.
Defined.

(** *** What the parser accepts *)

Lemma readUnary_range r q r' : readUnary r = (Some q, r') -> is_u64 q.
Proof.
  unfold readUnary. generalize (length (br_data r) + 2)%nat as fuel. generalize 0 as q0.
  intros q0 fuel; revert r q0; induction fuel as [|fuel IH]; intros r q0 H; cbn [readUnary_loop] in H; [done|].
  repeat case_match; simplify_eq; [apply u64_range|eauto].
Qed.

Lemma read_chunk_nonneg r n v r' : read_chunk r n = (Some v, r') -> 0 <= v.
Proof. unfold read_chunk. intros. case_match; simplify_eq. apply land_low_range. Qed.

Lemma readBits_nonneg r n v r' : readBits r n = (Some v, r') -> 0 <= v.
Proof.
  unfold readBits. intros. repeat case_match; simplify_eq; try lia; eauto using read_chunk_nonneg.
  apply Z.lor_nonneg. split; [apply u64_range|eauto using read_chunk_nonneg].
Qed.

Lemma parse_values_sound w count i k prev r vs r' :
  indexHashBitsMin <= w <= indexHashBitsMax -> 0 <= i -> (0 < i -> 0 <= prev) ->
  parse_values count i k (prefixLimit w) prev r = inr (vs, r') ->
  length vs = count /\ ascending w (if 0 <? i then Some prev else None) vs.
Proof.
  intros Hw. rewrite prefixLimit_eq by done.
  revert i prev r vs r'; induction count as [|count IH]; intros i prev r vs r' Hi Hprev H;
    cbn [parse_values] in H; [by simplify_eq|].
  destruct (readUnary r) as [[q|] r1] eqn:Eq; [|done].
  destruct (readBits r1 k) as [[low|] r2] eqn:Eb; [|done].
  destruct ((0 <? k)%nat && _); [done|].
  set (g := Z.lor (u64 (Z.shiftl q (Z.of_nat k))) low) in H.
  assert (0 <= g) as Hg.
  { apply Z.lor_nonneg. split; [apply u64_range|by eapply readBits_nonneg]. }
  destruct ((0 <? i) && _) eqn:Ec in H; [done|].
  set (v := if 0 <? i then u64 (prev + g + 1) else g) in H.
  destruct (2 ^ w - 1 <? v) eqn:Ev; [done|]. bool2prop.
  destruct (parse_values count (i + 1) k _ v r2) as [e|[vs' r3]] eqn:Er; [done|].
  injection H as <- <-.
  assert (2 ^ w <= 2 ^ 64) by (apply Z.pow_le_mono_r; unfold indexHashBitsMax in *; lia).
  assert (0 <= v /\ (0 < i -> prev < v)) as [Hv0 Hvp].
  { unfold v. destruct (Z.ltb_spec 0 i); [|split; [done|lia]].
    apply andb_false_iff in Ec as [?|Ec]; [done|]. bool2prop.
    rewrite u64_small by (unfold is_u64; lia). lia. }
  destruct (IH (i + 1) v r2 vs' r3) as [Hl Hasc]; [lia|done|done|].
  destruct (Z.ltb_spec 0 (i + 1)); [|lia].
  split; [simpl; lia|]. simpl. split_and!; [lia|lia| |done].
  destruct (Z.ltb_spec 0 i); [auto|done].
Qed.

Lemma parseIndexV2_trailer blob vs w : ParseIndexV2 blob = inr (vs, w) ->
  drop (length blob - shaSize) blob = sha256 (take (length blob - shaSize) blob).
Proof.
  unfold ParseIndexV2. intros H. do 3 (case_match; [done|]). destruct (_ || _) in H; [done|]. case_match; [done|].
  destruct (negb _) eqn:Et in H; [done|]. by apply negb_false_iff, bytes_eqb_eq in Et.
Qed.

(** C37. Whatever bytes [ParseIndexV2] accepts, from any server or from a damaged
    disk copy, it returns as many values as the header counts, strictly
    ascending, each below 2^width for the width it reports, a width of 32 to 64
    bits; and the bytes carry a matching SHA-256 trailer. *)
Theorem parseIndexV2_sound blob vs w :
  ParseIndexV2 blob = inr (vs, w) ->
  indexHashBitsMin <= w <= indexHashBitsMax /\
  ssorted vs /\ Forall (fun v => 0 <= v < 2 ^ w) vs /\
  length vs = Z.to_nat (le_value (take 8 (drop 16 blob))) /\
  drop (length blob - shaSize) blob = sha256 (take (length blob - shaSize) blob).
Proof.
  intros H. unfold ParseIndexV2 in H.
  do 2 (case_match; [done|]). case_match; [done|].
  destruct (_ || _) eqn:Ew in H; [done|]. bool2prop.
  case_match; [done|]. destruct (negb _) eqn:Et in H; [done|]. case_match; [done|].
  destruct (parse_values _ _ _ _ _ _) as [e|[vs' r]] eqn:Ep; [done|].
  case_match; [done|]. injection H as <- <-.
  assert (Hw : indexHashBitsMin <= nth 5 blob 0 <= indexHashBitsMax) by lia.
  apply (parse_values_sound _ _ _ _ _ _ _ _ Hw) in Ep as [Hl Hasc]; [|lia|lia].
  simpl in Hasc. apply ascending_ssorted in Hasc as [Hs Hall].
  split_and!; try done; try lia. apply negb_false_iff, bytes_eqb_eq in Et. done.
Qed.

Lemma parseIndexV2_sound_witness :
  exists vs w, ParseIndexV2 (marshalGBCI2 33 [1; 2; 900000]) = inr (vs, w) /\ ssorted vs.
Proof.
  exists [1; 2; 900000], 33.
  assert (ParseIndexV2 (marshalGBCI2 33 [1; 2; 900000]) = inr ([1; 2; 900000], 33)) as H
    by (vm_compute; reflexivity).
  split; [exact H|]. exact (proj1 (proj2 (parseIndexV2_sound _ _ _ H))).
Defined.
