(* ===== verification/ModuleIndex.v ===== *)
(** * Recognising a Go module index

    [modindex.go] and [lz4head.go]: the guards that keep module-index blobs out
    of the shared cache need the first few decompressed bytes of a body.  For an
    lz4 frame they are usually in the frame's first literal run, which
    [lz4LeadingBytes] reads without decoding; every other case goes through a
    decoder ([ContentStamp.Decoders]). *)

From Stdlib Require Import ZArith Lia List Bool String.
From stdpp Require Import base gmap list.
From S2P Require Import Prelude Keys Sha256 ContentStamp.

Definition goModuleIndexMagic : bytes := str "go index v".
Definition indexMagicProbeBytes : nat := 16.
Definition lz4HeadPeekBytes : nat := 64.
Definition indexPutPeekBytes : Z := Z.shiftl 1 20.

(** ** The head of an lz4 frame *)

Definition lz4FrameMagic : Z := 0x184D2204.
Definition lz4UncompMask : Z := 0x80000000.
Definition lz4LitLenExtra : Z := 15.

(** The extra length bytes of a literal run: the total and what follows. *)
Fixpoint lit_extra (litLen : Z) (rest : bytes) : option (Z * bytes) :=
  match rest with
  | [] => None
  | b :: rest' => if b =? 255 then lit_extra (litLen + 255) rest' else Some (litLen + b, rest')
  end.

(** Bytes of a run of [n] of which [rest] may hold only the beginning. *)
Definition lead_of (rest : bytes) (n : Z) (want : nat) : option bytes :=
  let avail := Nat.min (length rest) (Z.to_nat n) in
  if (avail =? 0)%nat then None else Some (take (Nat.min avail want) rest).

Definition lz4LeadingBytes (head : bytes) (want : nat) : option bytes :=
  if (length head <? 7)%nat then None
  else if negb (le_value (take 4 head) =? lz4FrameMagic) then None
  else
    let flg := nth 4 head 0 in
    if negb (Z.shiftr flg 6 =? 1) then None
    else if negb (Z.land flg 1 =? 0) then None
    else
      let rest := drop (if negb (Z.land flg 8 =? 0) then 15 else 7) head in
      if (length rest <? 4)%nat then None
      else
        let blockSize := le_value (take 4 rest) in
        let rest := drop 4 rest in
        if blockSize =? 0 then None
        else if negb (Z.land blockSize lz4UncompMask =? 0)
        then lead_of rest (Z.ldiff blockSize lz4UncompMask) want
        else match rest with
             | [] => None
             | token :: rest =>
                 let litLen := Z.shiftr token 4 in
                 match (if litLen =? lz4LitLenExtra then lit_extra litLen rest else Some (litLen, rest)) with
                 | None => None
                 | Some (litLen, rest) => if litLen =? 0 then None else lead_of rest litLen want
                 end
             end.

(** The answer and whether it is settled. *)
Definition lz4HasPrefix (head want : bytes) : bool * bool :=
  match lz4LeadingBytes head (length want) with
  | None => (false, false)
  | Some lead =>
      if (length want <=? length lead)%nat then (bytes_eqb (take (length want) lead) want, true)
      else if negb (bytes_eqb (take (length lead) want) lead) then (false, true)
      else (false, false)
  end.

(** ** The detectors *)

Section detectors.
Context `{!Decoders}.

(** [io.ReadFull] of the probe bytes from a decoder, and the verdict on them:
    an error other than running out of input is "not an index". *)
Definition probe (st : stream) : bool :=
  if (length (st_bytes st) <? indexMagicProbeBytes)%nat && negb (st_clean st) then false
  else has_prefix (take indexMagicProbeBytes (st_bytes st)) goModuleIndexMagic.

(** [readIsModuleIndex] on a body that can be read; [None] is the error of a
    body that cannot. *)
Definition readIsModuleIndex (readable : bool) (body compression : bytes) : option bool :=
  if negb readable then None
  else
    let head := take lz4HeadPeekBytes body in
    match frameCodec head with
    | CodecZstd => Some (match decompressingReader body with None => false | Some (st, _) => probe st end)
    | c =>
        if bytes_eqb compression (str "lz4") || bool_decide (c = CodecLz4) then
          let '(matched, decided) := lz4HasPrefix head goModuleIndexMagic in
          Some (if decided then matched else probe (lz4_reader body))
        else Some (has_prefix (take indexMagicProbeBytes body) goModuleIndexMagic)
    end.

(** The upload guard, on the leading bytes of the upload. *)
Definition looksLikeGoModuleIndex (input compression : bytes) : bool :=
  match frameCodec input with
  | CodecZstd => default false (readIsModuleIndex true input compression)
  | c =>
      if bytes_eqb compression (str "lz4") || bool_decide (c = CodecLz4) then
        let '(matched, decided) := lz4HasPrefix input goModuleIndexMagic in
        if decided then matched
        else has_prefix (take indexMagicProbeBytes (st_bytes (lz4_reader input))) goModuleIndexMagic
      else has_prefix input goModuleIndexMagic
  end.
End detectors.

(** ** The lz4 frame format *)

(** The first run of literals of a frame, after the format's description: the
    header, then a stored block or the token and literals of the first sequence. *)
Definition frame_header (hdr : bytes) : Prop :=
  exists flg bd csize hc, hdr = le_bytes 4 lz4FrameMagic ++ [flg; bd] ++ csize ++ [hc] /\
    is_byte flg /\ Z.shiftr flg 6 = 1 /\ Z.land flg 1 = 0 /\
    length csize = if negb (Z.land flg 8 =? 0) then 8%nat else 0%nat.

(** The bytes that carry a literal length of at least 15 beyond its token. *)
Fixpoint extra_bytes (n : nat) (final : Z) : bytes := match n with O => [final] | S n' => 255 :: extra_bytes n' final end.

Inductive lz4_first_run : bytes -> bytes -> Prop :=
  | run_stored hdr blk rest :
      frame_header hdr -> blk <> [] -> Z.of_nat (length blk) < 2 ^ 31 ->
      lz4_first_run (hdr ++ le_bytes 4 (2 ^ 31 + Z.of_nat (length blk)) ++ blk ++ rest) blk
  | run_short hdr size token lits rest :
      frame_header hdr -> 0 < size < 2 ^ 31 -> is_byte token -> lits <> [] ->
      Z.shiftr token 4 = Z.of_nat (length lits) -> Z.of_nat (length lits) < 15 ->
      lz4_first_run (hdr ++ le_bytes 4 size ++ [token] ++ lits ++ rest) lits
  | run_long hdr size token n final lits rest :
      frame_header hdr -> 0 < size < 2 ^ 31 -> is_byte token -> Z.shiftr token 4 = 15 -> 0 <= final < 255 ->
      Z.of_nat (length lits) = 15 + 255 * Z.of_nat n + final ->
      lz4_first_run (hdr ++ le_bytes 4 size ++ [token] ++ extra_bytes n final ++ lits ++ rest) lits.

(** A decoder that follows the format puts out the first literals first. *)
Class Lz4Format `{!Decoders} := {
  lz4_literals_first : forall body lits, lz4_first_run body lits -> st_clean (lz4_reader body) = true ->
    exists out, st_bytes (lz4_reader body) = lits ++ out
}.

Definition leads (want : nat) (lead lits : bytes) : Prop := (length lead <= want)%nat /\ exists more, lits = lead ++ more.

Lemma lead_of_prefix lits rest k want lead :
  lead_of (take k (lits ++ rest)) (Z.of_nat (length lits)) want = Some lead -> leads want lead lits.
Proof.
  unfold lead_of. rewrite Nat2Z.id. set (avail := Nat.min _ _).
  destruct (avail =? 0)%nat; [done|]. intros [= <-].
  assert (Ha : (avail <= k)%nat /\ (avail <= length lits)%nat).
  { unfold avail. rewrite length_take, length_app. lia. }
  rewrite take_take, take_app_le by lia. split; [rewrite length_take; lia|].
  exists (drop (Nat.min (Nat.min avail want) k) lits). by rewrite take_drop.
Qed.

Lemma block_bit a : 0 <= a < 2 ^ 31 ->
  Z.land a lz4UncompMask = 0 /\ Z.land (2 ^ 31 + a) lz4UncompMask <> 0 /\ Z.ldiff (2 ^ 31 + a) lz4UncompMask = a.
Proof.
  intros Ha. change lz4UncompMask with (2 ^ 31).
  assert (Hb : forall x, Z.land x (2 ^ 31) = if Z.testbit x 31 then 2 ^ 31 else 0).
  { intros x. apply Z.bits_inj'. intros n Hn. rewrite Z.land_spec, Z.pow2_bits_eqb by lia.
    destruct (Z.eqb_spec 31 n) as [<-|Hne]; [|rewrite andb_false_r; destruct (Z.testbit x 31); [by rewrite Z.pow2_bits_false by lia|by rewrite Z.bits_0]].
    rewrite andb_true_r. destruct (Z.testbit x 31); [by rewrite Z.pow2_bits_true by lia|by rewrite Z.bits_0]. }
  assert (H31 : Z.testbit (2 ^ 31 + a) 31 = true).
  { rewrite Z.testbit_true by lia. replace (2 ^ 31 + a) with (a + 1 * 2 ^ 31) by lia.
    rewrite Z.div_add, Z.div_small by lia. done. }
  rewrite !Hb, H31. assert (Z.testbit a 31 = false) as ->.
  { apply Z.testbit_false; [lia|]. by rewrite Z.div_small by lia. }
  split_and!; [done|lia|]. rewrite <- Z.sub_nocarry_ldiff; [lia|]. apply Z.bits_inj'. intros n Hn.
  rewrite Z.ldiff_spec, Z.bits_0, Z.pow2_bits_eqb by lia. destruct (Z.eqb_spec 31 n) as [<-|]; [by rewrite H31|done].
Qed.

Lemma lit_extra_prefix n final acc tail k l rest : 0 <= final < 255 ->
  lit_extra acc (take k (extra_bytes n final ++ tail)) = Some (l, rest) ->
  l = acc + 255 * Z.of_nat n + final /\ exists k', rest = take k' tail.
Proof.
  revert acc k. induction n as [|n IH]; intros acc k Hf; destruct k as [|k]; cbn [extra_bytes app firstn lit_extra]; try done.
  - destruct (Z.eqb_spec final 255); [lia|]. intros [= <- <-]. split; [lia|by exists k].
  - intros H. apply IH in H as [-> H]; [|done]. split; [lia|done].
Qed.

Lemma drop_take_app (a b : bytes) k n : length a = n -> drop n (take k (a ++ b)) = take (k - n) b.
Proof. intros <-. rewrite skipn_firstn_comm, drop_app_length. done. Qed.

Lemma take4_value x (k : nat) t : 0 <= x < 2 ^ 32 -> (4 <= length (take k (le_bytes 4 x ++ t)))%nat ->
  le_value (take 4 (take k (le_bytes 4 x ++ t))) = x.
Proof.
  intros Hx Hl. rewrite length_take in Hl. rewrite take_take, Nat.min_l by lia.
  rewrite take_app_length' by (by rewrite length_le_bytes). rewrite le_value_bytes by lia. rewrite Z.mod_small; [done|]. exact Hx.
Qed.

(** Past the header: the rest of the head is a prefix of the rest of the body. *)
Lemma header_skip hdr tail k want lead : frame_header hdr -> lz4LeadingBytes (take k (hdr ++ tail)) want = Some lead ->
  exists k', (4 <= length (take k' tail))%nat /\
    let rest := drop 4 (take k' tail) in
    let blockSize := le_value (take 4 (take k' tail)) in
    (if negb (Z.land blockSize lz4UncompMask =? 0) then lead_of rest (Z.ldiff blockSize lz4UncompMask) want
     else match rest with
          | [] => None
          | token :: rest =>
              match (if Z.shiftr token 4 =? lz4LitLenExtra then lit_extra (Z.shiftr token 4) rest else Some (Z.shiftr token 4, rest)) with
              | None => None
              | Some (litLen, rest) => if litLen =? 0 then None else lead_of rest litLen want
              end
          end) = Some lead.
Proof.
  intros (flg & bd & csize & hc & -> & Hb & _ & _ & Hc). unfold lz4LeadingBytes.
  destruct (Nat.ltb_spec (length (take k ((le_bytes 4 lz4FrameMagic ++ [flg; bd] ++ csize ++ [hc]) ++ tail))) 7) as [|H7]; [done|].
  assert (Hf : nth 4 (take k ((le_bytes 4 lz4FrameMagic ++ [flg; bd] ++ csize ++ [hc]) ++ tail)) 0 = flg).
  { rewrite length_take in H7. do 5 (destruct k as [|k]; [lia|]). done. }
  rewrite Hf. cbv zeta. destruct (le_value (take 4 (take k ((_ ++ _) ++ tail))) =? lz4FrameMagic); cbn [negb]; [|done].
  destruct (Z.shiftr flg 6 =? 1); cbn [negb]; [|done]. destruct (Z.land flg 1 =? 0); cbn [negb]; [|done].
  rewrite (drop_take_app _ tail k) by (rewrite !length_app, length_le_bytes, Hc; cbn [length]; by destruct (negb _)).
  set (k' := (k - _)%nat). destruct (Nat.ltb_spec (length (take k' tail)) 4); [done|].
  destruct (le_value (take 4 (take k' tail)) =? 0); [done|]. intros H'. exists k'. split; [lia|exact H'].
Qed.

Lemma lz4LeadingBytes_prefix body lits k want lead : lz4_first_run body lits ->
  lz4LeadingBytes (take k body) want = Some lead -> leads want lead lits.
Proof.
  intros Hrun Hl. destruct Hrun as [hdr blk rest Hh Hne Hlen|hdr size token lits rest Hh Hs Ht Hne Hlit Hsh|hdr size token n final lits rest Hh Hs Ht Hlit Hfin Hlen];
    destruct (header_skip _ _ _ _ _ Hh Hl) as (k' & H4 & Hrest); cbv zeta in Hrest; rewrite take4_value in Hrest by (done || lia);
    rewrite (drop_take_app (le_bytes 4 _)) in Hrest by apply length_le_bytes.
  - destruct (block_bit (Z.of_nat (length blk)) ltac:(lia)) as (_ & Hb & Hd). rewrite Hd in Hrest.
    destruct (Z.eqb_spec (Z.land (2 ^ 31 + Z.of_nat (length blk)) lz4UncompMask) 0); [done|]. cbn [negb] in Hrest. by apply lead_of_prefix in Hrest.
  - destruct (block_bit size ltac:(lia)) as (Hb0 & _). rewrite Hb0 in Hrest. cbn [Z.eqb negb] in Hrest. destruct (k' - 4)%nat as [|k2]; cbn [app firstn] in Hrest; [done|].
    rewrite Hlit in Hrest. destruct (Z.eqb_spec (Z.of_nat (length lits)) lz4LitLenExtra); [unfold lz4LitLenExtra in *; lia|].
    destruct (Z.of_nat (length lits) =? 0); [done|]. by apply lead_of_prefix in Hrest.
  - destruct (block_bit size ltac:(lia)) as (Hb0 & _). rewrite Hb0 in Hrest. cbn [Z.eqb negb] in Hrest. destruct (k' - 4)%nat as [|k2]; cbn [app firstn] in Hrest; [done|].
    rewrite Hlit in Hrest. change (15 =? lz4LitLenExtra) with true in Hrest. cbv iota in Hrest.
    destruct (lit_extra 15 _) as [[l r]|] eqn:E; [|done]. apply lit_extra_prefix in E as [-> [k3 ->]]; [|done].
    destruct (_ =? 0); [done|]. rewrite <- Hlen in Hrest. by apply lead_of_prefix in Hrest.
Qed.

(** The shortcut never disagrees with decoding: when the head of a body is
    enough to settle whether an lz4 frame starts with the wanted bytes, the
    decoder's output starts with them exactly when the shortcut says so. *)
Theorem lz4_shortcut_exact `{!Decoders} `{!Lz4Format} body lits k want matched :
  lz4_first_run body lits -> st_clean (lz4_reader body) = true ->
  lz4HasPrefix (take k body) want = (matched, true) -> matched = has_prefix (st_bytes (lz4_reader body)) want.
Proof.
  intros Hrun Hclean Hp. destruct (lz4_literals_first body lits Hrun Hclean) as [out ->]. unfold lz4HasPrefix in Hp.
  destruct (lz4LeadingBytes (take k body) (length want)) as [lead|] eqn:El; [|done].
  destruct (lz4LeadingBytes_prefix _ _ _ _ _ Hrun El) as (Hle & more & ->). rewrite <- app_assoc.
  apply eq_true_iff_eq. rewrite has_prefix_spec. destruct (Nat.leb_spec (length want) (length lead)) as [Hge|Hlt].
  - rewrite take_ge in Hp by lia. injection Hp as <-. rewrite bytes_eqb_eq. split.
    + intros ->. by eexists.
    + intros [t Ht]. apply app_inj_1 in Ht as [? _]; [done|lia].
  - destruct (bytes_eqb (take (length lead) want) lead) eqn:E; cbn [negb] in Hp; [done|]. injection Hp as <-.
    split; [done|]. intros [t Ht]. exfalso. apply not_true_iff_false in E. apply E. apply bytes_eqb_eq.
    apply (f_equal (take (length lead))) in Ht. rewrite take_app_length, take_app_le in Ht by lia. done.
Qed.

(** A two-byte stored block and a decoder that reads it. *)
Definition demoFrame : bytes :=
  (le_bytes 4 lz4FrameMagic ++ [0x60; 0x40] ++ [] ++ [0x82]) ++ le_bytes 4 (2 ^ 31 + 2) ++ [103; 111] ++ [].

Definition demoDecoders : Decoders := {|
  zstd_reader _ := None;
  lz4_reader body := if bytes_eqb body demoFrame then Stream [103; 111; 10] true else Stream [] false
|}.

Lemma demo_frame_tail hdr tail : frame_header hdr -> hdr ++ tail = demoFrame -> tail = le_bytes 4 (2 ^ 31 + 2) ++ [103; 111].
Proof.
  intros (flg & bd & csize & hc & -> & _ & _ & _ & Hc) Heq.
  assert (Hf : flg = 0x60) by (apply (f_equal (fun l => nth 4 l 0)) in Heq; exact Heq). subst flg.
  destruct csize; [|done]. apply (f_equal (drop 7)) in Heq. exact Heq.
Qed.

Lemma demo_block_size x tail : 0 <= x < 2 ^ 32 -> le_bytes 4 x ++ tail = le_bytes 4 (2 ^ 31 + 2) ++ [103; 111] ->
  x = 2 ^ 31 + 2 /\ tail = [103; 111].
Proof.
  intros Hx Heq. apply app_inj_1 in Heq as [He Ht]; [|by rewrite !length_le_bytes]. split; [|done].
  apply (f_equal le_value) in He. rewrite !le_value_bytes in He by lia. rewrite !Z.mod_small in He by (cbn; lia). done.
Qed.

Lemma demo_frame_literals body lits : lz4_first_run body lits -> body = demoFrame -> lits = [103; 111].
Proof.
  intros Hr Hb. destruct Hr as [hdr blk rest Hh Hne Hlen|hdr size token lits rest Hh Hs Ht Hne Hlit Hsh|hdr size token n final lits rest Hh Hs Ht Hlit Hfin Hlen];
    apply demo_frame_tail in Hb; try done; apply demo_block_size in Hb as [Hx Hb]; try lia.
  assert (length blk = 2%nat) as Hl by lia. destruct blk as [|a [|b [|? ?]]]; try done. by injection Hb as -> -> _.
Qed.

Definition demoFormat : @Lz4Format demoDecoders.
Proof.
  constructor. intros body lits Hr. cbn [lz4_reader demoDecoders]. destruct (bytes_eqb body demoFrame) eqn:E; [|done].
  apply bytes_eqb_eq in E. intros _. rewrite (demo_frame_literals body lits Hr E). by exists [10].
Defined.

Lemma lz4_shortcut_exact_witness :
  lz4HasPrefix (take 64 demoFrame) (str "gx") = (false, true) /\ has_prefix (st_bytes (@lz4_reader demoDecoders demoFrame)) (str "gx") = false.
Proof.
  split; [reflexivity|]. symmetry. apply (@lz4_shortcut_exact demoDecoders demoFormat demoFrame [103; 111] 64).
  - apply (run_stored _ [103; 111] []); [|done|done].
    exists 0x60, 0x40, [], 0x82. split_and!; try done; split; done.
  - reflexivity.
  - reflexivity.
Defined.
