(* ===== verification/Lru.v ===== *)
(** * The byte-bounded LRU cache

    [lrucache.go].  A shard is modelled with the aliasing the code has: the
    recency list [ll] and the map [items] both hold *list elements*, here
    identifiers into a heap of entries, so an entry is updated in place through
    either.  [shard_inv] relates the two views; [shard_abs] is the abstract
    shard, the entries in recency order.  Every operation of the code is shown
    to implement an operation on abstract shards, and the cache as a whole to
    implement a map that may forget.  Byte counters are unbounded integers: the
    sums stay far inside int64. *)

From Stdlib Require Import ZArith Lia List Bool.
From stdpp Require Import base gmap list sets.
From S2P Require Import Prelude.

Definition lruShardCount : nat := 64.

Section lru.
Context {K V : Type} `{!EqDecision K} `{!Countable K}.
Context (shardOf : K -> Z) (sizeOf : K -> V -> Z).
Implicit Types (k : K) (v : V).

(** ** Data *)

Record lruEntry := LruEntry { le_key : K; le_val : V; le_size : Z }.

(** [sh_heap] holds the list elements by identity; [sh_next] is the next fresh
    identity. The front of [sh_ll] is the most recently used element. *)
Record lruShard := LruShard {
  sh_ll : list nat;
  sh_items : gmap K nat;
  sh_heap : gmap nat lruEntry;
  sh_next : nat;
  sh_bytes : Z
}.

Record lruCache := LruCache {
  c_budget : Z;
  c_bytes : Z;
  c_evictions : Z;
  c_shards : list lruShard
}.

Definition emptyShard : lruShard := LruShard [] ∅ ∅ 0 0.

Definition newLRUCache (budget : Z) : lruCache :=
  LruCache budget 0 0 (replicate lruShardCount emptyShard).

(** ** [container/list] *)

Definition list_remove_el (id : nat) (ll : list nat) : list nat := filter (fun x => x <> id) ll.

Definition MoveToFront (id : nat) (ll : list nat) : list nat := id :: list_remove_el id ll.

(** ** Shard operations (each runs under the shard's mutex) *)

Definition shard_get (sh : lruShard) (k : K) : option V * lruShard :=
  match sh_items sh !! k with
  | None => (None, sh)
  | Some id =>
      let sh' := LruShard (MoveToFront id (sh_ll sh)) (sh_items sh) (sh_heap sh) (sh_next sh) (sh_bytes sh) in
      (le_val <$> sh_heap sh !! id, sh')
  end.

(** The store half of [Put]: the new shard and the change of the byte total. *)
Definition shard_store (sh : lruShard) (k : K) (v : V) (size : Z) : lruShard * Z :=
  match sh_items sh !! k with
  | Some id =>
      let old := match sh_heap sh !! id with Some e => le_size e | None => 0 end in
      let d := size - old in
      (LruShard (MoveToFront id (sh_ll sh)) (sh_items sh)
         (<[id := LruEntry k v size]> (sh_heap sh)) (sh_next sh) (sh_bytes sh + d), d)
  | None =>
      let id := sh_next sh in
      (LruShard (id :: sh_ll sh) (<[k := id]> (sh_items sh))
         (<[id := LruEntry k v size]> (sh_heap sh)) (id + 1) (sh_bytes sh + size), size)
  end.

(** [evictLocked]: returns the shard, the bytes freed and the entries evicted.
    Each round removes one element, so the list's length is enough fuel. *)
Fixpoint evict_loop (fuel : nat) (budget : Z) (sh : lruShard) (freed n : Z) : lruShard * Z * Z :=
  match fuel with
  | O => (sh, freed, n)
  | S fuel' =>
      if (budget <? sh_bytes sh) && (1 <? length (sh_ll sh))%nat then
        match last (sh_ll sh) with
        | None => (sh, freed, n)
        | Some back =>
            match sh_heap sh !! back with
            | None => (sh, freed, n)
            | Some e =>
                evict_loop fuel' budget
                  (LruShard (list_remove_el back (sh_ll sh)) (delete (le_key e) (sh_items sh))
                     (delete back (sh_heap sh)) (sh_next sh) (sh_bytes sh - le_size e))
                  (freed + le_size e) (n + 1)
            end
        end
      else (sh, freed, n)
  end.

Definition evictLocked (budget : Z) (sh : lruShard) : lruShard * Z * Z :=
  evict_loop (length (sh_ll sh)) budget sh 0 0.

Definition shard_forget (sh : lruShard) (k : K) : lruShard * Z :=
  match sh_items sh !! k with
  | None => (sh, 0)
  | Some id =>
      match sh_heap sh !! id with
      | None => (sh, 0)
      | Some e =>
          (LruShard (list_remove_el id (sh_ll sh)) (delete k (sh_items sh))
             (delete id (sh_heap sh)) (sh_next sh) (sh_bytes sh - le_size e), - le_size e)
      end
  end.

(** ** Cache operations *)

Definition shard_index (k : K) : nat := Z.to_nat (u32 (shardOf k) mod Z.of_nat lruShardCount).

Definition shard (c : lruCache) (k : K) : lruShard := nth (shard_index k) (c_shards c) emptyShard.

(** [shardBudget]: each shard's slice of the total, at least one byte. *)
Definition shardBudget (c : lruCache) : Z :=
  let b := Z.quot (c_budget c) (Z.of_nat lruShardCount) in
  if b <? 1 then 1 else b.

Definition set_shard (c : lruCache) (i : nat) (sh : lruShard) (dbytes devict : Z) : lruCache :=
  LruCache (c_budget c) (c_bytes c + dbytes) (c_evictions c + devict) (<[i := sh]> (c_shards c)).

Definition Get (c : lruCache) (k : K) : option V * lruCache :=
  let '(r, sh) := shard_get (shard c k) k in (r, set_shard c (shard_index k) sh 0 0).

Definition Put (c : lruCache) (k : K) (v : V) : lruCache :=
  let '(sh1, d) := shard_store (shard c k) k v (sizeOf k v) in
  let '(sh2, freed, n) := evictLocked (shardBudget c) sh1 in
  set_shard c (shard_index k) sh2 (d - freed) n.

Definition Forget (c : lruCache) (k : K) : lruCache :=
  let '(sh, d) := shard_forget (shard c k) k in set_shard c (shard_index k) sh d 0.

(** The sweep of [SetBudget] over the shards. *)
Fixpoint evict_shards (per : Z) (shs : list lruShard) : list lruShard * Z * Z :=
  match shs with
  | [] => ([], 0, 0)
  | sh :: shs' =>
      let '(sh', f, n) := evictLocked per sh in
      let '(rest, f', n') := evict_shards per shs' in
      (sh' :: rest, f + f', n + n')
  end.

Definition SetBudget (c : lruCache) (budget : Z) : lruCache :=
  let b := if budget <? 0 then 0 else budget in
  let c := LruCache b (c_bytes c) (c_evictions c) (c_shards c) in
  let '(shs, freed, n) := evict_shards (shardBudget c) (c_shards c) in
  LruCache b (c_bytes c - freed) (c_evictions c + n) shs.

Definition Clear (c : lruCache) : lruCache :=
  LruCache (c_budget c) (c_bytes c - foldr Z.add 0 (map sh_bytes (c_shards c))) (c_evictions c)
    (map (fun sh => LruShard [] ∅ ∅ (sh_next sh) 0) (c_shards c)).

(** [Range]: every entry, shard by shard, most recently used first. *)
Definition Range (c : lruCache) : list (K * V) :=
  flat_map (fun sh => omap (fun id => (fun e => (le_key e, le_val e)) <$> sh_heap sh !! id) (sh_ll sh))
    (c_shards c).

Definition Len (c : lruCache) : Z :=
  foldr Z.add 0 (map (fun sh => Z.of_nat (size (sh_items sh))) (c_shards c)).

(** ** The abstract shard: entries in recency order *)

Abbreviation abs_shard := (list (K * V * Z)).

Definition a_key (e : K * V * Z) : K := e.1.1.
Definition a_size (e : K * V * Z) : Z := e.2.

Definition total (a : abs_shard) : Z := foldr Z.add 0 (map a_size a).
#[local] Arguments total : simpl never.

Definition a_without (k : K) (a : abs_shard) : abs_shard := filter (fun e => a_key e <> k) a.

Fixpoint a_find (k : K) (a : abs_shard) : option (V * Z) :=
  match a with
  | [] => None
  | (k', v, s) :: a' => if bool_decide (k' = k) then Some (v, s) else a_find k a'
  end.

Definition a_get (a : abs_shard) (k : K) : option V * abs_shard :=
  match a_find k a with
  | None => (None, a)
  | Some (v, s) => (Some v, (k, v, s) :: a_without k a)
  end.

Definition a_store (a : abs_shard) (k : K) (v : V) (s : Z) : abs_shard := (k, v, s) :: a_without k a.

(** The longest prefix [evictLocked] may keep: cut from the back while over budget. *)
Fixpoint a_evict (fuel : nat) (budget : Z) (a : abs_shard) : abs_shard :=
  match fuel with
  | O => a
  | S fuel' =>
      if (budget <? total a) && (1 <? length a)%nat
      then a_evict fuel' budget (take (length a - 1) a) else a
  end.

(** ** Representation *)

(** [z] pairs each list element of [sh], in recency order, with its entry. *)
Definition rep (sh : lruShard) (z : list (nat * (K * V * Z))) : Prop :=
  sh_ll sh = z.*1 /\
  NoDup z.*1 /\
  (forall id k v s, (id, (k, v, s)) ∈ z ->
     sh_heap sh !! id = Some (LruEntry k v s) /\ sh_items sh !! k = Some id /\ (id < sh_next sh)%nat) /\
  (forall k id, sh_items sh !! k = Some id -> exists v s, (id, (k, v, s)) ∈ z) /\
  sh_bytes sh = total z.*2.

(** [sh] is a well-formed representation of the abstract shard [a]. *)
Definition shard_rep (sh : lruShard) (a : abs_shard) : Prop := exists z, a = z.*2 /\ rep sh z.

(** ** Lemmas on abstract shards *)

Lemma total_cons e a : total (e :: a) = a_size e + total a.
Proof. done. Qed.

Lemma total_app a b : total (a ++ b) = total a + total b.
Proof. unfold total. induction a as [|e a IH]; simpl; [done|]. lia. Qed.

Lemma a_find_without k k' a : k <> k' -> a_find k (a_without k' a) = a_find k a.
Proof.
  intros Hne. unfold a_without.
  induction a as [|[[k0 v0] s0] a IH]; [done|]. rewrite filter_cons. unfold a_key at 1. simpl.
  case_decide; simpl; repeat case_bool_decide; subst; auto; by exfalso; auto.
Qed.

Lemma a_find_without_eq k a : a_find k (a_without k a) = None.
Proof.
  unfold a_without. induction a as [|[[k0 v0] s0] a IH]; [done|]. rewrite filter_cons. simpl.
  unfold a_key at 1. simpl. case_decide; simpl; [|done]. by rewrite bool_decide_false.
Qed.

Lemma a_find_app k a b :
  a_find k (a ++ b) = match a_find k a with Some r => Some r | None => a_find k b end.
Proof. induction a as [|[[k0 v0] s0] a IH]; [done|]. simpl. by case_bool_decide. Qed.

(** ** The pairing *)

Lemma rep_key_unique sh z id k v s id' v' s' :
  rep sh z -> (id, (k, v, s)) ∈ z -> (id', (k, v', s')) ∈ z -> id = id' /\ v = v' /\ s = s'.
Proof.
  intros (_ & _ & Hz & _) H1 H2. destruct (Hz _ _ _ _ H1) as (Hh1 & Hi1 & _).
  destruct (Hz _ _ _ _ H2) as (Hh2 & Hi2 & _). simplify_eq. done.
Qed.

Lemma rep_id_unique sh z id k v s k' v' s' :
  rep sh z -> (id, (k, v, s)) ∈ z -> (id, (k', v', s')) ∈ z -> k = k'.
Proof.
  intros (_ & _ & Hz & _) H1 H2. destruct (Hz _ _ _ _ H1) as (Hh1 & _ & _).
  destruct (Hz _ _ _ _ H2) as (Hh2 & _ & _). by simplify_eq.
Qed.

Lemma rep_find sh z k id :
  rep sh z -> sh_items sh !! k = Some id ->
  exists v s, (id, (k, v, s)) ∈ z /\ a_find k z.*2 = Some (v, s) /\
              sh_heap sh !! id = Some (LruEntry k v s).
Proof.
  intros Hrep Hk. pose proof Hrep as (_ & _ & Hz & Hi & _).
  destruct (Hi k id Hk) as (v & s & Hin). exists v, s. split_and!; [done| |by apply Hz in Hin as (? & _)].
  assert (Hsub : forall z', z' ⊆ z -> (id, (k, v, s)) ∈ z' -> a_find k z'.*2 = Some (v, s)).
  { induction z' as [|[id' [[k' v'] s']] z' IH]; intros Hsub Hin'; [set_solver|]. simpl.
    case_bool_decide as E.
    - subst k'. destruct (rep_key_unique sh z id k v s id' v' s') as (_ & -> & ->); [done|done|set_solver|done].
    - apply IH; [set_solver|]. apply elem_of_cons in Hin' as [Heq|?]; [|done]. by simplify_eq. }
  by apply Hsub.
Qed.

Lemma rep_find_none sh z k :
  rep sh z -> sh_items sh !! k = None -> a_find k z.*2 = None /\ a_without k z.*2 = z.*2.
Proof.
  intros (_ & _ & Hz & _) Hk.
  assert (Hsub : forall z', z' ⊆ z -> a_find k z'.*2 = None /\ a_without k z'.*2 = z'.*2).
  { induction z' as [|[id' [[k' v'] s']] z' IH]; intros Hsub; [done|]. cbn [fmap list_fmap a_find].
    destruct (Hz id' k' v' s') as (_ & Hi' & _); [set_solver|].
    assert (k' <> k) by congruence. destruct IH as [IH1 IH2]; [set_solver|].
    change ((id', (k', v', s')).2) with (k', v', s'). simpl. rewrite bool_decide_false by done.
    split; [done|]. unfold a_without in *. rewrite filter_cons.
    rewrite decide_True by done. by rewrite IH2. }
  by apply Hsub.
Qed.

(** Removing an element from the list removes its key's entry. *)
Lemma rep_filter sh z k id v s :
  rep sh z -> (id, (k, v, s)) ∈ z ->
  let z' := filter (fun p => p.1 <> id) z in
  list_remove_el id z.*1 = z'.*1 /\ a_without k z.*2 = z'.*2 /\
  total z.*2 = total z'.*2 + s /\ (forall p, p ∈ z' <-> p ∈ z /\ p.1 <> id) /\ NoDup z'.*1.
Proof.
  clear shardOf sizeOf. intros Hrep Hin z'. pose proof Hrep as (_ & Hnd & _).
  assert (Hp : forall p, p ∈ z' <-> p ∈ z /\ p.1 <> id).
  { intros p. unfold z'. rewrite list_elem_of_filter. tauto. }
  assert (Hsub : forall y, y ⊆ z -> NoDup y.*1 ->
    list_remove_el id y.*1 = (filter (fun p => p.1 <> id) y).*1 /\
    a_without k y.*2 = (filter (fun p => p.1 <> id) y).*2 /\
    total y.*2 = total (filter (fun p => p.1 <> id) y).*2 +
                 (if decide (id ∈ y.*1) then s else 0)).
  { induction y as [|[id' [[k' v'] s']] y IH]; intros Hsub Hnd'; [done|].
    cbn [fmap list_fmap] in Hnd'. apply NoDup_cons in Hnd' as [Hni Hnd'].
    destruct IH as (IH1 & IH2 & IH3); [set_solver|done|].
    unfold list_remove_el, a_without in *. cbn [fmap list_fmap]. rewrite !filter_cons.
    cbn [fst snd]. unfold a_key in *. cbn [fst snd].
    destruct (decide (id' = id)) as [->|Hne].
    - assert (k' = k) as ->.
      { eapply (rep_id_unique sh z id k' v' s' k v s); [done|set_solver|done]. }
      destruct (rep_key_unique sh z id k v s id v' s') as (_ & -> & ->); [done|done|set_solver|].
      rewrite !decide_False by auto. rewrite IH1, IH2. split_and!; try done.
      rewrite total_cons, IH3. unfold a_size. cbn [fst snd].
      rewrite (decide_True (P := id ∈ id :: _)) by set_solver.
      rewrite decide_False by done. lia.
    - assert (k' <> k).
      { intros ->. apply Hne. by apply (rep_key_unique sh z id' k v' s' id v s); [done|set_solver|done]. }
      rewrite !decide_True by done. cbn [fmap list_fmap]. rewrite IH1, IH2. split_and!; try done.
      rewrite !total_cons, IH3. unfold a_size. cbn [fst snd].
      destruct (decide (id ∈ y.*1)) as [Hy|Hy].
      + rewrite decide_True by (rewrite elem_of_cons; auto). lia.
      + rewrite decide_False by (rewrite elem_of_cons; intros [?|?]; congruence). lia. }
  destruct (Hsub z) as (H1 & H2 & H3); [done|done|].
  rewrite decide_True in H3 by (apply (list_elem_of_fmap_2' fst z (id, (k, v, s)) id); done).
  split_and!; try done.
  - fold z' in H1. rewrite <- H1. unfold list_remove_el. by apply NoDup_filter.
Qed.
(** ** Every shard operation implements its abstract counterpart *)

Lemma shard_get_refines sh a k :
  shard_rep sh a ->
  (shard_get sh k).1 = (a_get a k).1 /\ shard_rep (shard_get sh k).2 (a_get a k).2 /\
  sh_bytes (shard_get sh k).2 = sh_bytes sh.
Proof.
  intros (z & -> & Hrep). unfold shard_get, a_get.
  destruct (sh_items sh !! k) as [id|] eqn:Ek.
  - destruct (rep_find sh z k id Hrep Ek) as (v & s & Hin & -> & Hh).
    destruct (rep_filter sh z k id v s Hrep Hin) as (H1 & H2 & H3 & H4 & H5).
    destruct Hrep as (Hll & Hnd & Hz & Hi & Hb). cbn [fst snd]. rewrite Hh.
    split_and!; [done| |done]. exists ((id, (k, v, s)) :: filter (fun p => p.1 <> id) z).
    split; [cbn [fmap list_fmap]; by rewrite H2|]. split_and!; cbn [sh_ll sh_items sh_heap sh_next sh_bytes]; rewrite ?fmap_cons; cbn [fst snd].
    + unfold MoveToFront. by rewrite Hll, H1.
    + constructor; [|done]. intros (p & Hp1 & Hp2)%list_elem_of_fmap. apply H4 in Hp2 as [_ ?]. congruence.
    + intros id' k' v' s' [Heq|Hp]%elem_of_cons; [by simplify_eq; auto|]. by apply Hz, H4.
    + intros k' id' Hk'. destruct (Hi k' id' Hk') as (v' & s' & Hin').
      destruct (decide (id' = id)) as [->|Hne].
      * exists v, s. rewrite (rep_id_unique sh z id k v s k' v' s'); [|by split_and!|done|done].
        apply elem_of_cons; auto.
      * exists v', s'. apply elem_of_cons. right. by apply H4.
    + rewrite Hb, H3, total_cons. unfold a_size; cbn [snd]. lia.
  - destruct (rep_find_none sh z k Hrep Ek) as [-> _]. split_and!; [done|by exists z|done].
Qed.

Lemma shard_store_refines sh a k v size :
  shard_rep sh a ->
  shard_rep (shard_store sh k v size).1 (a_store a k v size) /\
  sh_bytes (shard_store sh k v size).1 = sh_bytes sh + (shard_store sh k v size).2.
Proof.
  intros (z & -> & Hrep). unfold shard_store, a_store.
  destruct (sh_items sh !! k) as [id|] eqn:Ek; cbn [fst snd]; (split; [|done]).
  - destruct (rep_find sh z k id Hrep Ek) as (v0 & s0 & Hin & _ & Hh). rewrite Hh. cbn [le_size].
    destruct (rep_filter sh z k id v0 s0 Hrep Hin) as (H1 & H2 & H3 & H4 & H5).
    destruct Hrep as (Hll & Hnd & Hz & Hi & Hb).
    exists ((id, (k, v, size)) :: filter (fun p => p.1 <> id) z).
    split; [cbn [fmap list_fmap]; by rewrite H2|]. split_and!; cbn [sh_ll sh_items sh_heap sh_next sh_bytes]; rewrite ?fmap_cons; cbn [fst snd].
    + unfold MoveToFront. by rewrite Hll, H1.
    + constructor; [|done]. intros (p & Hp1 & Hp2)%list_elem_of_fmap. apply H4 in Hp2 as [_ ?]. congruence.
    + intros id' k' v' s' [Heq|Hp]%elem_of_cons.
      * simplify_eq. rewrite lookup_insert_eq. split_and!; try done. by apply Hz in Hin as (_ & _ & ?).
      * apply H4 in Hp as [Hp Hne]. simpl in Hne. rewrite lookup_insert_ne by done. by apply Hz.
    + intros k' id' Hk'. destruct (Hi k' id' Hk') as (v' & s' & Hin').
      destruct (decide (id' = id)) as [->|Hne].
      * exists v, size. rewrite (rep_id_unique sh z id k v0 s0 k' v' s'); [|by split_and!|done|done].
        apply elem_of_cons; auto.
      * exists v', s'. apply elem_of_cons. right. by apply H4.
    + rewrite Hb, H3, total_cons. unfold a_size; cbn [snd]. lia.
  - destruct (rep_find_none sh z k Hrep Ek) as [_ ->].
    destruct Hrep as (Hll & Hnd & Hz & Hi & Hb).
    assert (Hfresh : forall id k' v' s', (id, (k', v', s')) ∈ z -> id <> sh_next sh).
    { intros id k' v' s' Hin. apply Hz in Hin as (_ & _ & ?). lia. }
    exists ((sh_next sh, (k, v, size)) :: z). split; [done|]. split_and!; cbn [sh_ll sh_items sh_heap sh_next sh_bytes]; rewrite ?fmap_cons; cbn [fst snd].
    + by rewrite Hll.
    + constructor; [|done]. intros ([id [[k' v'] s']] & Hp1 & Hp2)%list_elem_of_fmap. simpl in Hp1.
      apply Hfresh in Hp2. congruence.
    + intros id k' v' s' [Heq|Hp]%elem_of_cons.
      * simplify_eq. rewrite !lookup_insert_eq. split_and!; try done. lia.
      * pose proof (Hfresh _ _ _ _ Hp). pose proof (Hz _ _ _ _ Hp) as (? & ? & ?).
        rewrite !lookup_insert_ne by congruence. split_and!; try done. lia.
    + intros k' id Hk'. destruct (decide (k' = k)) as [->|Hne].
      * rewrite lookup_insert_eq in Hk'. simplify_eq. exists v, size. apply elem_of_cons; auto.
      * rewrite lookup_insert_ne in Hk' by done. destruct (Hi _ _ Hk') as (v' & s' & ?).
        exists v', s'. apply elem_of_cons; auto.
    + rewrite total_cons, Hb. unfold a_size; cbn [snd]. lia.
Qed.

(** Removing one element: the common step of eviction and [Forget]. *)
Lemma shard_remove_refines sh z id k v s :
  rep sh z -> (id, (k, v, s)) ∈ z ->
  shard_rep (LruShard (list_remove_el id (sh_ll sh)) (delete k (sh_items sh)) (delete id (sh_heap sh))
               (sh_next sh) (sh_bytes sh - s)) (a_without k z.*2).
Proof.
  intros Hrep Hin. destruct (rep_filter sh z k id v s Hrep Hin) as (H1 & H2 & H3 & H4 & H5).
  pose proof Hrep as (Hll & Hnd & Hz & Hi & Hb).
  exists (filter (fun p => p.1 <> id) z). split; [done|]. split_and!; cbn [sh_ll sh_items sh_heap sh_next sh_bytes]; rewrite ?fmap_cons; cbn [fst snd].
  - by rewrite Hll.
  - done.
  - intros id' k' v' s' [Hp Hne]%H4. simpl in Hne.
    assert (k' <> k).
    { intros ->. apply Hne. by apply (rep_key_unique sh z id' k v' s' id v s). }
    rewrite !lookup_delete_ne by done. by apply Hz.
  - intros k' id' Hk'. apply lookup_delete_Some in Hk' as [Hne Hk'].
    destruct (Hi _ _ Hk') as (v' & s' & Hin'). exists v', s'. apply H4. split; [done|]. simpl.
    intros ->. apply Hne. by apply (rep_id_unique sh z id k v s k' v' s').
  - lia.
Qed.

Lemma shard_forget_refines sh a k :
  shard_rep sh a ->
  shard_rep (shard_forget sh k).1 (a_without k a) /\
  sh_bytes (shard_forget sh k).1 = sh_bytes sh + (shard_forget sh k).2.
Proof.
  intros (z & -> & Hrep). unfold shard_forget.
  destruct (sh_items sh !! k) as [id|] eqn:Ek.
  - destruct (rep_find sh z k id Hrep Ek) as (v & s & Hin & _ & Hh). rewrite Hh. simpl.
    split; [by apply (shard_remove_refines sh z id k v s)|lia].
  - destruct (rep_find_none sh z k Hrep Ek) as [_ ->]. split; [by exists z|simpl; lia].
Qed.

Lemma a_without_snoc a k v s :
  a_find k a = None -> a_without k (a ++ [(k, v, s)]) = a.
Proof.
  intros Hf. unfold a_without. rewrite filter_app, filter_cons, decide_False by auto.
  rewrite filter_nil, app_nil_r.
  induction a as [|[[k' v'] s'] a IH]; [done|]. simpl in Hf. case_bool_decide as E; [done|].
  rewrite filter_cons, decide_True by done. by rewrite IH.
Qed.

Lemma rep_length sh z : rep sh z -> length (sh_ll sh) = length z.*2.
Proof. intros (-> & _). by rewrite !length_fmap. Qed.

(** [evictLocked] cuts the abstract shard from the least recently used end. *)
Lemma evict_loop_refines fuel budget sh a freed n :
  shard_rep sh a ->
  let '(sh', freed', n') := evict_loop fuel budget sh freed n in
  shard_rep sh' (a_evict fuel budget a) /\
  sh_bytes sh' = sh_bytes sh - (freed' - freed) /\
  n' - n = Z.of_nat (length a) - Z.of_nat (length (a_evict fuel budget a)).
Proof.
  revert sh a freed n; induction fuel as [|fuel IH]; intros sh a freed n Hsh; cbn [evict_loop a_evict].
  { split_and!; [done|lia|lia]. }
  pose proof Hsh as (z & Ha & Hrep). pose proof (rep_length sh z Hrep) as Hlen. rewrite <- Ha in Hlen.
  pose proof Hrep as (Hll & Hnd & Hz & Hi & Hb). rewrite <- Ha in Hb. rewrite Hb, Hlen.
  destruct ((budget <? total a) && (1 <? length a)%nat) eqn:E; [|split_and!; [done|lia|lia]].
  bool2prop.
  destruct z as [|p0 z0 _] using rev_ind; [subst a; simpl in *; lia|].
  destruct p0 as [id [[k v] s]].
  assert (Hin : (id, (k, v, s)) ∈ z0 ++ [(id, (k, v, s))]) by (apply elem_of_app; right; by apply list_elem_of_singleton).
  rewrite Hll, fmap_app. cbn [fmap list_fmap]. rewrite last_snoc. cbn [fst].
  pose proof (Hz _ _ _ _ Hin) as (Hh & _ & _). rewrite Hh. cbn [le_key le_size].
  pose proof (shard_remove_refines sh _ id k v s Hrep Hin) as Hrem.
  assert (Hnone : a_find k z0.*2 = None).
  { destruct (a_find k z0.*2) as [[v' s']|] eqn:Ef; [|done]. exfalso.
    assert (exists id', (id', (k, v', s')) ∈ z0) as (id' & Hid').
    { clear -Ef. induction z0 as [|[i [[k0 v0] s0]] z0 IHz]; [done|]. simpl in Ef.
      case_bool_decide; [simplify_eq; exists i; apply elem_of_cons; auto|].
      destruct (IHz Ef) as [id' ?]. exists id'. apply elem_of_cons; auto. }
    destruct (rep_key_unique sh _ id k v s id' v' s' Hrep Hin) as (-> & _); [apply elem_of_app; auto|].
    rewrite fmap_app in Hnd. apply NoDup_app in Hnd as (_ & Hdisj & _).
    apply (Hdisj id'); [by apply (list_elem_of_fmap_2' fst z0 (id', (k, v', s')) id')|].
    by apply list_elem_of_singleton. }
  rewrite fmap_app in Ha. cbn [fmap list_fmap snd] in Ha.
  assert (Htake : take (length a - 1) a = z0.*2).
  { subst a. rewrite length_app. simpl. rewrite Nat.add_sub. apply take_app_length. }
  rewrite Hll, !fmap_app in Hrem. cbn [fmap list_fmap fst snd] in Hrem.
  rewrite a_without_snoc in Hrem by done.
  rewrite Htake, <- Hb.
  specialize (IH _ _ (freed + s) (n + 1) Hrem).
  destruct (evict_loop fuel budget _ (freed + s) (n + 1)) as [[sh' freed'] n'].
  destruct IH as (IH1 & IH2 & IH3). cbn [sh_bytes] in IH2. split_and!; [done|lia|].
  rewrite <- Htake in IH3 at 1. rewrite length_take in IH3. lia.
Qed.

(** The shape of what eviction keeps: a prefix of the recency order, never
    empty unless the shard was, as long as the budget allows. *)
Lemma a_evict_spec fuel budget a :
  (length a <= fuel)%nat ->
  exists j, a_evict fuel budget a = take j a /\ (j <= length a)%nat /\
    (0 < length a -> 0 < j)%nat /\
    (total (take j a) <= budget \/ (j <= 1)%nat) /\
    (forall j', (j < j' <= length a)%nat -> budget < total (take j' a)).
Proof.
  revert a; induction fuel as [|fuel IH]; intros a Hf; cbn [a_evict].
  { exists 0%nat. destruct a; [|simpl in Hf; lia]. simpl. split_and!; done || lia. }
  destruct ((budget <? total a) && (1 <? length a)%nat) eqn:E.
  - bool2prop. destruct (IH (take (length a - 1) a)) as (j & Hj & Hle & Hpos & Hfit & Hmax);
      rewrite ?length_take in *; [lia|].
    exists j. rewrite take_take, Nat.min_l in Hj, Hfit by lia. split_and!; try done; try lia.
    intros j' Hj'. destruct (decide (j' = length a)) as [->|Hne]; [by rewrite firstn_all|].
    specialize (Hmax j'). rewrite take_take, (Nat.min_l j' (length a - 1)) in Hmax by lia. apply Hmax. lia.
  - exists (length a). rewrite firstn_all. split_and!; try done; try lia.
    apply andb_false_iff in E as [E|E]; bool2prop; [left; lia|right; lia].
Qed.

(** ** The cache as a map that may forget *)

Inductive lruOp :=
  | OpGet (k : K) | OpPut (k : K) (v : V) | OpForget (k : K) | OpSetBudget (b : Z) | OpClear.

Definition runOp (c : lruCache) (o : lruOp) : lruCache :=
  match o with
  | OpGet k => (Get c k).2
  | OpPut k v => Put c k v
  | OpForget k => Forget c k
  | OpSetBudget b => SetBudget c b
  | OpClear => Clear c
  end.

(** The specification: an unbounded map that never forgets on its own. *)
Definition idealOp (m : gmap K V) (o : lruOp) : gmap K V :=
  match o with
  | OpGet _ | OpSetBudget _ => m
  | OpPut k v => <[k := v]> m
  | OpForget k => delete k m
  | OpClear => ∅
  end.

(** [A] holds the abstract shards of [c]. *)
Definition cache_rep (c : lruCache) (A : list abs_shard) : Prop :=
  length A = lruShardCount /\ Forall2 shard_rep (c_shards c) A /\
  c_bytes c = foldr Z.add 0 (map total A).

(** Every entry sits in the shard of its key, holds what the ideal map holds
    and carries the size [sizeOf] reports. *)
Definition entry_ok (m : gmap K V) (i : nat) (e : K * V * Z) : Prop :=
  shard_index e.1.1 = i /\ m !! e.1.1 = Some e.1.2 /\ e.2 = sizeOf e.1.1 e.1.2.

Definition entries_ok (m : gmap K V) (A : list abs_shard) : Prop :=
  forall i a, A !! i = Some a -> Forall (entry_ok m i) a.

Definition fits (budget : Z) (a : abs_shard) : Prop := total a <= budget \/ (length a <= 1)%nat.

Definition cache_inv (c : lruCache) (m : gmap K V) (A : list abs_shard) : Prop :=
  cache_rep c A /\ entries_ok m A /\ Forall (fits (shardBudget c)) A.

Lemma shard_index_lt k : (shard_index k < lruShardCount)%nat.
Proof. unfold shard_index, lruShardCount. pose proof (Z.mod_pos_bound (u32 (shardOf k)) 64). lia. Qed.

Lemma shard_rep_bytes sh a : shard_rep sh a -> sh_bytes sh = total a.
Proof. by intros (z & -> & _ & _ & _ & _ & ?). Qed.

Lemma sum_insert (A : list abs_shard) i a a' :
  A !! i = Some a ->
  foldr Z.add 0 (map total (<[i := a']> A)) = foldr Z.add 0 (map total A) + total a' - total a.
Proof.
  revert i; induction A as [|b A IH]; intros [|i] Hi; simplify_eq/=; [lia|]. rewrite (IH i Hi). lia.
Qed.

Lemma cache_rep_shard c A k :
  cache_rep c A -> exists a, A !! shard_index k = Some a /\ shard_rep (shard c k) a.
Proof.
  intros (Hlen & HF & _). destruct (lookup_lt_is_Some_2 A (shard_index k)) as [a Ha].
  { rewrite Hlen. apply shard_index_lt. }
  exists a. split; [done|]. destruct (Forall2_lookup_r _ _ _ _ _ HF Ha) as (sh & Hsh & Hr).
  unfold shard. by rewrite (nth_lookup_Some _ _ _ _ Hsh).
Qed.

Lemma cache_rep_set_shard c A i a sh a' n :
  cache_rep c A -> A !! i = Some a -> shard_rep sh a' ->
  cache_rep (set_shard c i sh (total a' - total a) n) (<[i := a']> A).
Proof.
  intros (Hlen & HF & Hb) Ha Hsh. split_and!.
  - by rewrite length_insert.
  - cbn [set_shard c_shards]. by apply Forall2_insert.
  - cbn [set_shard c_bytes]. rewrite (sum_insert A i a) by done. lia.
Qed.

(** Replacing one shard keeps the invariant when the new entries are right and
    the ideal map kept every other shard's keys. *)
Lemma cache_inv_set_shard c m m' A i a sh a' n :
  cache_inv c m A -> A !! i = Some a -> shard_rep sh a' ->
  Forall (entry_ok m' i) a' -> fits (shardBudget c) a' ->
  (forall k, shard_index k <> i -> m' !! k = m !! k) ->
  cache_inv (set_shard c i sh (total a' - total a) n) m' (<[i := a']> A).
Proof.
  intros (Hrep & Hent & Hfit) Ha Hsh He Hf Hm. split_and!.
  - by apply cache_rep_set_shard.
  - intros j b Hj. destruct (decide (j = i)) as [->|Hne].
    + rewrite list_lookup_insert_eq in Hj by (by eapply lookup_lt_Some). by simplify_eq.
    + rewrite list_lookup_insert_ne in Hj by done.
      eapply Forall_impl; [by apply Hent|]. intros [[k v] s] (H1 & H2 & H3). split_and!; try done.
      simpl in *. rewrite Hm; [done|]. by subst.
  - by apply Forall_insert.
Qed.

Lemma NoDup_keys_sub (sh : lruShard) z z' :
  rep sh z -> z' ⊆ z -> NoDup z'.*1 -> NoDup (a_key <$> z'.*2).
Proof.
  intros Hrep. induction z' as [|[id [[k v] s]] z' IH]; intros Hsub Hnd; [constructor|].
  cbn [fmap list_fmap fst snd] in *. apply NoDup_cons in Hnd as [Hni Hnd].
  constructor; [|by apply IH; [set_solver|]].
  unfold a_key at 1. cbn [fst]. intros Hin. apply list_elem_of_fmap in Hin as ([[k' v'] s'] & Hk & Hin).
  unfold a_key in Hk. simpl in Hk. subst k'.
  apply list_elem_of_fmap in Hin as ([id' [[k2 v2] s2]] & Heq & Hin'). simpl in Heq. injection Heq as <- <- <-.
  destruct (rep_key_unique sh z id k v s id' v' s') as (-> & _); [done|set_solver|set_solver|].
  apply Hni. by apply (list_elem_of_fmap_2' fst z' (id', (k, v', s')) id').
Qed.

Lemma shard_rep_NoDup sh a : shard_rep sh a -> NoDup (a_key <$> a).
Proof. intros (z & -> & Hrep). apply (NoDup_keys_sub sh z z); [done|done|]. by destruct Hrep as (_ & ? & _). Qed.

Lemma a_without_id k a : k ∉ a_key <$> a -> a_without k a = a.
Proof.
  unfold a_without. induction a as [|e a IH]; intros Hk; [done|]. rewrite fmap_cons in Hk.
  apply not_elem_of_cons in Hk as [H1 H2]. rewrite filter_cons, decide_True by done. by rewrite IH.
Qed.

(** A hit only moves the entry to the front. *)
Lemma a_touch_perm k v s a :
  NoDup (a_key <$> a) -> a_find k a = Some (v, s) -> (k, v, s) :: a_without k a ≡ₚ a.
Proof.
  induction a as [|[[k' v'] s'] a IH]; intros Hnd Hf; [done|].
  rewrite fmap_cons in Hnd. apply NoDup_cons in Hnd as [Hni Hnd]. simpl in Hf.
  case_bool_decide as E.
  - simplify_eq. unfold a_without. rewrite filter_cons, decide_False by auto.
    fold (a_without k a). by rewrite a_without_id.
  - unfold a_without. rewrite filter_cons, decide_True by done. fold (a_without k a).
    rewrite Permutation_swap. by rewrite IH.
Qed.

Lemma a_get_perm sh a k : shard_rep sh a -> (a_get a k).2 ≡ₚ a.
Proof.
  intros Hsh. unfold a_get. destruct (a_find k a) as [[v s]|] eqn:E; [|done].
  simpl. apply a_touch_perm; [by eapply shard_rep_NoDup|done].
Qed.

Lemma a_find_elem k a v s : a_find k a = Some (v, s) -> (k, v, s) ∈ a.
Proof.
  induction a as [|[[k' v'] s'] a IH]; intros Hf; [done|]. simpl in Hf. apply elem_of_cons.
  case_bool_decide; [simplify_eq; by left|right; auto].
Qed.

Lemma elem_a_find k a v s : NoDup (a_key <$> a) -> (k, v, s) ∈ a -> a_find k a = Some (v, s).
Proof.
  induction a as [|[[k' v'] s'] a IH]; intros Hnd Hin; [by apply not_elem_of_nil in Hin|].
  rewrite fmap_cons in Hnd. apply NoDup_cons in Hnd as [Hni Hnd]. simpl.
  apply elem_of_cons in Hin as [Heq|Hin]; [simplify_eq; by rewrite bool_decide_true|].
  rewrite bool_decide_false; [by apply IH|]. intros ->. apply Hni.
  apply (list_elem_of_fmap_2' a_key a (k, v, s) k); done.
Qed.

Lemma total_perm a b : a ≡ₚ b -> total a = total b.
Proof. induction 1; rewrite ?total_cons in *; lia. Qed.

#[export] Instance total_Proper : Proper ((≡ₚ) ==> (=)) total.
Proof. intros a b Hab. by apply total_perm. Qed.

Lemma evictLocked_refines budget sh a :
  shard_rep sh a ->
  exists j, (j <= length a)%nat /\ (0 < length a -> 0 < j)%nat /\
    shard_rep (evictLocked budget sh).1.1 (take j a) /\
    (evictLocked budget sh).1.2 = total a - total (take j a) /\
    (evictLocked budget sh).2 = Z.of_nat (length a - j) /\
    fits budget (take j a) /\
    (forall j', (j < j' <= length a)%nat -> budget < total (take j' a)).
Proof.
  intros Hsh. pose proof Hsh as (z & Hz & Hr). pose proof (rep_length sh z Hr) as Hlen. rewrite <- Hz in Hlen.
  destruct (a_evict_spec (length (sh_ll sh)) budget a) as (j & Hj & Hle & Hpos & Hfit & Hmax); [lia|].
  pose proof (evict_loop_refines (length (sh_ll sh)) budget sh a 0 0 Hsh) as Hloop.
  unfold evictLocked. destruct (evict_loop _ budget sh 0 0) as [[sh' freed] n].
  destruct Hloop as (H1 & H2 & H3). rewrite Hj in *.
  rewrite (shard_rep_bytes _ _ H1), (shard_rep_bytes _ _ Hsh) in H2.
  rewrite length_take in H3. exists j. cbn [fst snd]. split_and!; try done; try lia.
  destruct Hfit as [?|?]; [by left|right]. rewrite length_take. lia.
Qed.

(** ** Every operation preserves the invariant *)

Lemma entry_ok_impl (m m' : gmap K V) i a :
  Forall (entry_ok m i) a -> (forall e, e ∈ a -> m' !! e.1.1 = m !! e.1.1) -> Forall (entry_ok m' i) a.
Proof.
  rewrite !Forall_forall. intros H Hm e He. destruct (H e He) as (? & ? & ?).
  split_and!; [done| |done]. by rewrite Hm.
Qed.

Lemma without_elem k a e : e ∈ a_without k a <-> e ∈ a /\ a_key e <> k.
Proof. unfold a_without. rewrite list_elem_of_filter. tauto. Qed.

Lemma Get_inv c m A k :
  cache_inv c m A ->
  exists a, A !! shard_index k = Some a /\ (Get c k).1 = (a_get a k).1 /\
    cache_inv (Get c k).2 m (<[shard_index k := (a_get a k).2]> A).
Proof.
  intros Hinv. pose proof Hinv as (Hrep & Hent & Hfit).
  destruct (cache_rep_shard c A k Hrep) as (a & Ha & Hsh). exists a.
  destruct (shard_get_refines _ _ k Hsh) as (H1 & H2 & H3). pose proof (a_get_perm _ _ k Hsh) as Hp.
  unfold Get. destruct (shard_get (shard c k) k) as [r sh]. cbn [fst snd] in *.
  split_and!; [done|done|].
  replace 0 with (total (a_get a k).2 - total a) at 1 by (rewrite (total_perm _ _ Hp); lia).
  eapply cache_inv_set_shard; try done.
  - rewrite Hp. by apply Hent.
  - unfold fits. rewrite Hp. by eapply Forall_lookup_1 in Hfit.
Qed.

Lemma Put_inv c m A k v :
  cache_inv c m A ->
  exists a j, A !! shard_index k = Some a /\
    let a' := a_store a k v (sizeOf k v) in
    (0 < j <= length a')%nat /\
    (forall j', (j < j' <= length a')%nat -> shardBudget c < total (take j' a')) /\
    fits (shardBudget c) (take j a') /\
    cache_inv (Put c k v) (<[k := v]> m) (<[shard_index k := take j a']> A).
Proof.
  intros Hinv. pose proof Hinv as (Hrep & Hent & Hfit).
  destruct (cache_rep_shard c A k Hrep) as (a & Ha & Hsh). exists a.
  destruct (shard_store_refines _ _ k v (sizeOf k v) Hsh) as (H1 & H2).
  unfold Put. destruct (shard_store (shard c k) k v (sizeOf k v)) as [sh1 d]. cbn [fst snd] in *.
  rewrite (shard_rep_bytes _ _ H1), (shard_rep_bytes _ _ Hsh) in H2.
  destruct (evictLocked_refines (shardBudget c) sh1 _ H1) as (j & Hj & Hpos & E1 & E2 & E3 & E4 & E5).
  destruct (evictLocked (shardBudget c) sh1) as [[sh2 freed] n]. cbn [fst snd] in *.
  exists j. split_and!; try done; [apply Hpos; simpl; lia|].
  replace (d - freed) with (total (take j (a_store a k v (sizeOf k v))) - total a) by lia.
  eapply cache_inv_set_shard; try done.
  - apply Forall_take. unfold a_store. constructor.
    + split_and!; [done| |done]. by rewrite lookup_insert_eq.
    + apply (entry_ok_impl m).
      * eapply Forall_forall. intros e [He _]%without_elem. by eapply Forall_forall in He; [|by apply Hent].
      * intros e [_ Hne]%without_elem. by rewrite lookup_insert_ne.
  - intros k' Hk'. rewrite lookup_insert_ne; [done|]. by intros ->.
Qed.

Lemma Forget_rep c A k :
  cache_rep c A ->
  exists a, A !! shard_index k = Some a /\
    cache_rep (Forget c k) (<[shard_index k := a_without k a]> A) /\
    exists sh, Forget c k = set_shard c (shard_index k) sh (total (a_without k a) - total a) 0 /\
               shard_rep sh (a_without k a).
Proof.
  intros Hrep. destruct (cache_rep_shard c A k Hrep) as (a & Ha & Hsh). exists a.
  destruct (shard_forget_refines _ _ k Hsh) as (H1 & H2).
  unfold Forget. destruct (shard_forget (shard c k) k) as [sh d]. cbn [fst snd] in *.
  rewrite (shard_rep_bytes _ _ H1), (shard_rep_bytes _ _ Hsh) in H2.
  replace d with (total (a_without k a) - total a) by lia.
  split_and!; [done|by apply cache_rep_set_shard|]. by exists sh.
Qed.

(** ** Budgets need sizes that are not negative *)

Section budget.
Context (sizeOf_nonneg : forall k v, 0 <= sizeOf k v).

Lemma total_filter_le m i k a : Forall (entry_ok m i) a -> total (a_without k a) <= total a.
Proof.
  unfold a_without. induction 1 as [|e a (_ & _ & He) _ IH]; [done|].
  rewrite filter_cons, total_cons. pose proof (sizeOf_nonneg e.1.1 e.1.2).
  case_decide; rewrite ?total_cons; unfold a_size in *; lia.
Qed.

Lemma Forget_inv c m A k :
  cache_inv c m A ->
  exists a, A !! shard_index k = Some a /\
    cache_inv (Forget c k) (delete k m) (<[shard_index k := a_without k a]> A).
Proof.
  intros Hinv. pose proof Hinv as (Hrep & Hent & Hfit).
  destruct (Forget_rep c A k Hrep) as (a & Ha & _ & sh & -> & Hsh). exists a. split; [done|].
  eapply cache_inv_set_shard; try done.
  - apply (entry_ok_impl m).
    + eapply Forall_forall. intros e [He _]%without_elem. by eapply Forall_forall in He; [|by apply Hent].
    + intros e [_ Hne]%without_elem. by rewrite lookup_delete_ne.
  - pose proof (total_filter_le m _ k a (Hent _ _ Ha)).
    eapply Forall_lookup_1 in Hfit; [|done]. destruct Hfit as [?|Hl]; [left; lia|right].
    etrans; [apply length_filter|done].
  - intros k' Hk'. rewrite lookup_delete_ne; [done|]. by intros ->.
Qed.

Lemma evict_shards_refines per shs A :
  Forall2 shard_rep shs A ->
  exists A', Forall2 shard_rep (evict_shards per shs).1.1 A' /\
    Forall2 (fun a a' => exists j, a' = take j a) A A' /\
    (evict_shards per shs).1.2 = foldr Z.add 0 (map total A) - foldr Z.add 0 (map total A') /\
    Forall (fits per) A'.
Proof.
  induction 1 as [|sh a shs A Hsh _ (A' & I1 & I2 & I3 & I4)]; [by exists []|].
  destruct (evictLocked_refines per sh a Hsh) as (j & _ & _ & E1 & E2 & _ & E4 & _).
  exists (take j a :: A'). cbn [evict_shards].
  destruct (evictLocked per sh) as [[sh' f] n], (evict_shards per shs) as [[rest f'] n'].
  cbn [fst snd map foldr] in *. split_and!; try (constructor; eauto); [].
  lia.
Qed.

(** Each shard keeps a front part of its entries. *)
Lemma SetBudget_shards c m A b :
  cache_inv c m A -> exists A', cache_inv (SetBudget c b) m A' /\ Forall2 (fun a a' => exists j, a' = take j a) A A'.
Proof.
  intros ((Hlen & HF & Hb) & Hent & _). unfold SetBudget.
  set (b' := if b <? 0 then 0 else b). set (c' := LruCache b' _ _ _).
  destruct (evict_shards_refines (shardBudget c') (c_shards c') A HF) as (A' & E1 & E2 & E3 & E4).
  exists A'. split; [|done]. destruct (evict_shards (shardBudget c') (c_shards c')) as [[shs f] n]. cbn [fst snd] in *.
  split_and!; cbn [c_shards c_bytes]; try done.
  - split_and!; [by rewrite <- (Forall2_length _ _ _ E2)|done|cbn [c_bytes]; unfold c'; cbn [c_bytes]; lia].
  - intros i a' Ha'. destruct (Forall2_lookup_r _ _ _ _ _ E2 Ha') as (a & Ha & j & ->).
    by apply Forall_take, Hent.
Qed.

Lemma SetBudget_inv c m A b : cache_inv c m A -> exists A', cache_inv (SetBudget c b) m A'.
Proof. intros Hinv. destruct (SetBudget_shards c m A b Hinv) as (A' & H & _). by exists A'. Qed.

Lemma empty_shard_rep next : shard_rep (LruShard [] ∅ ∅ next 0) [].
Proof.
  exists []. split; [done|]. split_and!; try done.
  - by apply NoDup_nil.
  - intros ???? H. by apply not_elem_of_nil in H.
Qed.

Lemma sum_bytes shs A :
  Forall2 shard_rep shs A -> foldr Z.add 0 (map sh_bytes shs) = foldr Z.add 0 (map total A).
Proof. induction 1 as [|sh a shs A H _ IH]; [done|]. simpl. rewrite (shard_rep_bytes _ _ H). lia. Qed.

Lemma empties_sum n : foldr Z.add 0 (map total (replicate n [])) = 0.
Proof. induction n; [done|]. simpl. by rewrite IHn. Qed.

Lemma cache_inv_empties c m :
  Forall2 shard_rep (c_shards c) (replicate lruShardCount []) -> c_bytes c = 0 ->
  cache_inv c m (replicate lruShardCount []).
Proof.
  intros HF Hb. split_and!.
  - split_and!; [by rewrite length_replicate|done|by rewrite empties_sum].
  - intros i a Ha. by apply lookup_replicate in Ha as [-> _].
  - apply Forall_replicate. right. simpl. lia.
Qed.

Lemma Clear_inv c m m' A : cache_inv c m A -> cache_inv (Clear c) m' (replicate lruShardCount []).
Proof.
  intros ((Hlen & HF & Hb) & _). apply cache_inv_empties.
  - cbn [Clear c_shards]. rewrite <- Hlen. clear -HF. induction HF as [|sh a shs A Hsh _ IH]; [constructor|].
    simpl. constructor; [apply empty_shard_rep|done].
  - cbn [Clear c_bytes]. rewrite (sum_bytes _ _ HF). lia.
Qed.

Lemma new_inv budget : cache_inv (newLRUCache budget) ∅ (replicate lruShardCount []).
Proof.
  apply cache_inv_empties; [|done]. cbn [newLRUCache c_shards].
  generalize lruShardCount. intros n. induction n; constructor; [apply empty_shard_rep|done].
Qed.

Lemma runOp_inv c m A o : cache_inv c m A -> exists A', cache_inv (runOp c o) (idealOp m o) A'.
Proof.
  intros Hinv. destruct o; cbn [runOp idealOp].
  - destruct (Get_inv c m A k Hinv) as (? & _ & _ & ?). eauto.
  - destruct (Put_inv c m A k v Hinv) as (? & ? & _ & _ & _ & _ & ?). eauto.
  - destruct (Forget_inv c m A k Hinv) as (? & _ & ?). eauto.
  - by eapply SetBudget_inv.
  - eexists. by eapply Clear_inv.
Qed.

Lemma run_inv budget ops :
  exists A, cache_inv (foldl runOp (newLRUCache budget) ops) (foldl idealOp ∅ ops) A.
Proof.
  assert (H : forall c m A, cache_inv c m A -> exists A', cache_inv (foldl runOp c ops) (foldl idealOp m ops) A').
  { induction ops as [|o ops IH]; intros c m A Hinv; simpl; [eauto|].
    destruct (runOp_inv c m A o Hinv) as [A' ?]. eauto. }
  eapply H, new_inv.
Qed.

(** ** What a client sees *)

Lemma Get_result c m A k :
  cache_inv c m A -> exists a, A !! shard_index k = Some a /\ (Get c k).1 = fst <$> a_find k a.
Proof.
  intros Hinv. destruct (Get_inv c m A k Hinv) as (a & Ha & -> & _). exists a. split; [done|].
  unfold a_get. by destruct (a_find k a) as [[v s]|].
Qed.

Lemma Get_ideal c m A k v : cache_inv c m A -> (Get c k).1 = Some v -> m !! k = Some v.
Proof.
  intros Hinv Hg. destruct (Get_result c m A k Hinv) as (a & Ha & Hr). rewrite Hr in Hg.
  destruct (a_find k a) as [[v' s]|] eqn:Ef; simplify_eq/=. apply a_find_elem in Ef.
  destruct Hinv as (_ & Hent & _). specialize (Hent _ _ Ha). rewrite Forall_forall in Hent.
  by destruct (Hent _ Ef) as (_ & ? & _).
Qed.

(** [Range] visits the abstract shards in order. *)
Lemma rep_omap sh z : rep sh z ->
  omap (fun id => (fun e => (le_key e, le_val e)) <$> sh_heap sh !! id) (sh_ll sh) = fst <$> z.*2.
Proof.
  intros (-> & _ & Hz & _).
  assert (H : forall z', z' ⊆ z ->
    omap (fun id => (fun e => (le_key e, le_val e)) <$> sh_heap sh !! id) z'.*1 = fst <$> z'.*2).
  { induction z' as [|[id [[k v] s]] z' IH]; intros Hs; [done|]. cbn [fmap list_fmap fst snd].
    destruct (Hz id k v s) as (Hh & _); [set_solver|]. cbn [omap list_omap]. rewrite Hh. cbn.
    f_equal. apply IH. set_solver. }
  by apply H.
Qed.

Lemma Range_concat c A : Forall2 shard_rep (c_shards c) A -> Range c = flat_map (fmap fst) A.
Proof.
  unfold Range. induction 1 as [|sh a shs A (z & -> & Hr) _ IH]; [done|]. cbn [flat_map].
  by rewrite IH, (rep_omap sh z Hr).
Qed.

Lemma total_sizeOf m i a : Forall (entry_ok m i) a -> total a = foldr Z.add 0 (map (fun p => sizeOf p.1 p.2) (fst <$> a)).
Proof.
  induction 1 as [|e a (_ & _ & He) _ IH]; [done|]. rewrite total_cons, IH. simpl. unfold a_size.
  by rewrite He.
Qed.

Lemma sum_app (l1 l2 : list Z) : foldr Z.add 0 (l1 ++ l2) = foldr Z.add 0 l1 + foldr Z.add 0 l2.
Proof. induction l1; simpl; lia. Qed.

Lemma bytes_Range c m A : cache_inv c m A ->
  c_bytes c = foldr Z.add 0 (map (fun p => sizeOf p.1 p.2) (Range c)).
Proof.
  intros ((_ & HF & ->) & Hent & _). rewrite (Range_concat c A HF). clear HF.
  assert (H : forall n, (forall i a, A !! i = Some a -> Forall (entry_ok m (n + i)) a) ->
    foldr Z.add 0 (map total A) =
    foldr Z.add 0 (map (fun p => sizeOf p.1 p.2) (flat_map (fmap fst) A))); [|by apply (H 0%nat)].
  clear Hent. induction A as [|a A IH]; intros n Hent; [done|]. simpl.
  rewrite map_app, sum_app, (IH (S n)).
  - f_equal. eapply total_sizeOf. by apply (Hent 0%nat).
  - intros i b Hi. replace (S n + i)%nat with (n + S i)%nat by lia. by apply Hent.
Qed.

(** What a reader sees of a cache with one abstract shard replaced. *)
Lemma Get_updated c m A i b q :
  cache_inv c m (<[i := b]> A) -> (i < length A)%nat ->
  exists a', (if decide (shard_index q = i) then a' = b else A !! shard_index q = Some a') /\
             (Get c q).1 = fst <$> a_find q a'.
Proof.
  intros Hi Hl. destruct (Get_result _ _ _ q Hi) as (a' & Ha' & Hr). exists a'.
  split; [|done]. case_decide as E.
  - rewrite E, list_lookup_insert_eq in Ha' by done. by simplify_eq.
  - by rewrite list_lookup_insert_ne in Ha'.
Qed.

(** C13. The cache is a map that may forget.  After any sequence of
    operations on a fresh cache, a hit returns exactly the value last put under
    the key and not forgotten or cleared since; the byte counter is the sum of
    the sizes of the entries held; and no shard exceeds its slice of the budget
    unless it holds a single entry. *)
Theorem lruCache_refines_map budget ops :
  let c := foldl runOp (newLRUCache budget) ops in
  (forall k v, (Get c k).1 = Some v -> foldl idealOp ∅ ops !! k = Some v) /\
  c_bytes c = foldr Z.add 0 (map (fun p => sizeOf p.1 p.2) (Range c)) /\
  Forall (fun sh => sh_bytes sh <= shardBudget c \/ (length (sh_ll sh) <= 1)%nat) (c_shards c).
Proof.
  destruct (run_inv budget ops) as [A Hinv]. cbv zeta. split_and!.
  - intros k v. by eapply Get_ideal.
  - by eapply bytes_Range.
  - destruct Hinv as ((_ & HF & _) & _ & Hfit). clear -HF Hfit.
    revert Hfit. induction HF as [|sh a shs A Hsh _ IH]; intros Hfit; [constructor|].
    apply Forall_cons in Hfit as [Hf Hfit]. constructor; [|by apply IH].
    pose proof Hsh as (z & Hz & Hr). rewrite (rep_length sh z Hr), <- Hz, (shard_rep_bytes _ _ Hsh). done.
Qed.

(** What each write does to later reads, in every reachable state: the
    value just put is always found (the newest entry is never evicted), a put
    under another key leaves a key's value or loses it but never changes it, and
    a forgotten key is gone while every other key reads as before. *)
Theorem lruCache_read_after_write budget ops k v k' :
  let c := foldl runOp (newLRUCache budget) ops in
  (Get (Put c k v) k).1 = Some v /\
  (k' <> k -> (Get (Put c k v) k').1 = None \/ (Get (Put c k v) k').1 = (Get c k').1) /\
  (Get (Forget c k) k).1 = None /\
  (k' <> k -> (Get (Forget c k) k').1 = (Get c k').1).
Proof.
  destruct (run_inv budget ops) as [A Hinv]. cbv zeta.
  set (c := foldl runOp _ ops) in *. set (m := foldl idealOp ∅ ops) in *.
  destruct (Put_inv c m A k v Hinv) as (a & j & Ha & [Hj0 Hj1] & _ & _ & Hput).
  destruct (Forget_inv c m A k Hinv) as (a2 & Ha2 & Hfor). simplify_eq.
  assert (Hlt : (shard_index k < length A)%nat) by (by eapply lookup_lt_Some).
  pose proof (Get_updated _ _ A _ _ k Hput Hlt) as (b1 & Hb1 & ->).
  pose proof (Get_updated _ _ A _ _ k' Hput Hlt) as (b2 & Hb2 & ->).
  pose proof (Get_updated _ _ A _ _ k Hfor Hlt) as (b3 & Hb3 & ->).
  pose proof (Get_updated _ _ A _ _ k' Hfor Hlt) as (b4 & Hb4 & ->).
  destruct (Get_result c m A k' Hinv) as (a' & Ha' & ->).
  rewrite decide_True in Hb1, Hb3 by done. subst b1 b3. split_and!.
  - destruct j; [lia|]. simpl. by rewrite bool_decide_true.
  - intros Hne. case_decide as E; [|right; by simplify_eq]. subst b2.
    rewrite E in Ha'. simplify_eq.
    assert (Hsplit : a_find k' (a_store a k v (sizeOf k v)) = a_find k' a).
    { simpl. rewrite bool_decide_false by done. by apply a_find_without. }
    rewrite <- (take_drop j (a_store a k v (sizeOf k v))), a_find_app in Hsplit.
    destruct (a_find k' (take j _)); [right|by left]. by rewrite <- Hsplit.
  - by rewrite a_find_without_eq.
  - intros Hne. case_decide as E; [|by simplify_eq]. subst b4.
    rewrite E in Ha'. simplify_eq. by rewrite a_find_without.
Qed.

End budget.

(** Eviction is exactly least-recently-used: a shard that holds the
    entries [a] in recency order keeps a prefix of it, never empty unless the
    shard was; the prefix fits the budget or is a single entry, every longer
    prefix exceeds the budget, and the freed bytes and eviction count are those
    of the dropped suffix. *)
Theorem evictLocked_lru budget sh a :
  shard_rep sh a ->
  exists j, (j <= length a)%nat /\ (0 < length a -> 0 < j)%nat /\
    shard_rep (evictLocked budget sh).1.1 (take j a) /\
    (evictLocked budget sh).1.2 = total (drop j a) /\
    (evictLocked budget sh).2 = Z.of_nat (length (drop j a)) /\
    fits budget (take j a) /\
    (forall j', (j < j' <= length a)%nat -> budget < total (take j' a)).
Proof.
  intros Hsh. destruct (evictLocked_refines budget sh a Hsh) as (j & H1 & H2 & H3 & H4 & H5 & H6 & H7).
  exists j. split_and!; try done.
  - rewrite H4. rewrite <- (take_drop j a) at 1. rewrite total_app. lia.
  - by rewrite H5, length_drop.
Qed.

End lru.

(** A concrete shard with three entries, for the witnesses. *)
Definition demoShard : @lruShard Z Z _ _ :=
  (evictLocked 100 (shard_store (shard_store (shard_store emptyShard 1 10 4).1 2 20 5).1 3 30 6).1).1.1.

Lemma demoShard_rep : shard_rep demoShard [(3, 30, 6); (2, 20, 5); (1, 10, 4)].
Proof.
  exists [(2%nat, (3, 30, 6)); (1%nat, (2, 20, 5)); (0%nat, (1, 10, 4))]. split; [done|].
  split_and!; try (vm_compute; reflexivity).
  - repeat constructor; set_solver.
  - intros id k v s H. repeat (apply elem_of_cons in H as [H|H]; [simplify_eq; vm_compute; split_and!; (reflexivity || lia)|]).
    by apply not_elem_of_nil in H.
  - intros k id. change (sh_items demoShard) with (<[3:=2%nat]> (<[2:=1%nat]> {[1:=0%nat]}) : gmap Z nat).
    rewrite !lookup_insert_Some, lookup_singleton_Some.
    intros [[<- <-]|[_ [[<- <-]|[_ [<- <-]]]]]; eexists _, _; rewrite !elem_of_cons; naive_solver.
Qed.

Lemma evictLocked_lru_witness :
  exists j, (j <= 3)%nat /\ shard_rep (evictLocked 10 demoShard).1.1 (take j [(3, 30, 6); (2, 20, 5); (1, 10, 4)]).
Proof.
  destruct (evictLocked_lru 10 demoShard _ demoShard_rep) as (j & H1 & _ & H3 & _). by exists j.
Defined.

Lemma lruCache_refines_map_witness :
  let ops := [OpPut 1 10; OpPut 65 20; OpGet 1; OpPut 129 30; OpSetBudget 640] in
  let c := foldl (runOp (fun k => k) (fun _ _ => 6)) (newLRUCache 1000) ops in
  (Get (fun k => k) c 129).1 = Some 30 /\ (Get (fun k => k) c 65).1 = None /\
  (foldl idealOp ∅ ops : gmap Z Z) !! 129 = Some 30.
Proof.
  cbv zeta. split_and!; [vm_compute; reflexivity|vm_compute; reflexivity|].
  apply (lruCache_refines_map (fun k => k) (fun _ _ => 6)
    ltac:(intros; lia) 1000 [OpPut 1 10; OpPut 65 20; OpGet 1; OpPut 129 30; OpSetBudget 640]).
  vm_compute. reflexivity.
Defined.

Lemma lruCache_read_after_write_witness :
  (Get (fun k => k) (Put (fun k => k) (fun _ _ => 700) (newLRUCache 64 : @lruCache Z Z _ _) 5 50) 5).1 = Some 50.
Proof.
  destruct (lruCache_read_after_write (fun k => k) (fun _ _ => 700) ltac:(intros; lia) 64 [] 5 50 6) as (H & _).
  exact H.
Defined.

