(* ===== verification/MemoCache.v ===== *)
(** * The promise of a cache that may forget

    What the storage layer and the batch handler rely on when they memoize
    through [lrucache.go]: a read returns what was last put under that key and
    not forgotten since, or nothing.  [CacheOps]/[CacheLaws] state it; the
    clients are proved against the class, and the LRU cache of [Lru] is its
    instance. *)

From Stdlib Require Import ZArith Lia List Bool.
From stdpp Require Import base gmap list.
From S2P Require Import Prelude Lru.

Class CacheOps (C K V : Type) := {
  c_get : C -> K -> option V * C;
  c_put : C -> K -> V -> C;
  c_forget : C -> K -> C
}.

Definition c_look {C K V} `{!CacheOps C K V} (c : C) (k : K) : option V := (c_get c k).1.

Class CacheLaws (C K V : Type) `{!CacheOps C K V} := {
  c_wf : C -> Prop;
  c_get_wf : forall c k, c_wf c -> c_wf (c_get c k).2;
  c_put_wf : forall c k v, c_wf c -> c_wf (c_put c k v);
  c_forget_wf : forall c k, c_wf c -> c_wf (c_forget c k);
  c_get_look : forall c k k', c_wf c -> c_look (c_get c k).2 k' = c_look c k';
  c_put_look : forall c k v k' w, c_wf c -> c_look (c_put c k v) k' = Some w ->
    (k' = k /\ w = v) \/ (k' <> k /\ c_look c k' = Some w);
  c_put_hit : forall c k v, c_wf c -> c_look (c_put c k v) k = Some v;
  c_forget_look : forall c k k' w, c_wf c -> c_look (c_forget c k) k' = Some w -> k' <> k /\ c_look c k' = Some w
}.

#[export] Hint Resolve c_get_wf c_put_wf c_forget_wf : gocache.

Section lru_cache.
Context {K V : Type} `{!EqDecision K} `{!Countable K}.
Context (shardOf : K -> Z) (sizeOf : K -> V -> Z) (sizeOf_nonneg : forall k v, 0 <= sizeOf k v).

Definition lru_ops : CacheOps (lruCache (K := K) (V := V)) K V := {|
  c_get c k := Lru.Get shardOf c k;
  c_put c k v := Lru.Put shardOf sizeOf c k v;
  c_forget c k := Lru.Forget shardOf c k
|}.

Definition lru_wf (c : lruCache (K := K) (V := V)) : Prop := exists m A, cache_inv shardOf sizeOf c m A.

Lemma lru_get_look c k k' : lru_wf c -> (Lru.Get shardOf (Lru.Get shardOf c k).2 k').1 = (Lru.Get shardOf c k').1.
Proof.
  intros (m & A & Hinv). destruct (Get_inv _ _ c m A k Hinv) as (a & Ha & _ & Hget).
  assert (Hlt : (shard_index shardOf k < length A)%nat) by (by eapply lookup_lt_Some).
  destruct (Get_updated _ _ _ _ A _ _ k' Hget Hlt) as (b & Hb & ->).
  destruct (Get_result _ _ c m A k' Hinv) as (a' & Ha' & ->). case_decide as E; [|by simplify_eq].
  rewrite E in Ha'. simplify_eq. unfold a_get. destruct (a_find k a) as [[v s]|] eqn:Ef; [|done]. simpl.
  case_bool_decide as Ek; [by subst; rewrite Ef|]. by rewrite a_find_without.
Qed.

Lemma lru_put_reads c k v : lru_wf c ->
  (Lru.Get shardOf (Lru.Put shardOf sizeOf c k v) k).1 = Some v /\
  forall k', k' <> k ->
    (Lru.Get shardOf (Lru.Put shardOf sizeOf c k v) k').1 = None \/
    (Lru.Get shardOf (Lru.Put shardOf sizeOf c k v) k').1 = (Lru.Get shardOf c k').1.
Proof.
  intros (m & A & Hinv). destruct (Put_inv _ _ c m A k v Hinv) as (a & j & Ha & [Hj0 Hj1] & _ & _ & Hput).
  assert (Hlt : (shard_index shardOf k < length A)%nat) by (by eapply lookup_lt_Some). split.
  - destruct (Get_updated _ _ _ _ A _ _ k Hput Hlt) as (b1 & Hb1 & ->). rewrite decide_True in Hb1 by done. subst b1.
    destruct j; [lia|]. simpl. by rewrite bool_decide_true.
  - intros k' Hne. destruct (Get_updated _ _ _ _ A _ _ k' Hput Hlt) as (b2 & Hb2 & ->).
    destruct (Get_result _ _ c m A k' Hinv) as (a' & Ha' & ->). case_decide as E; [|right; by simplify_eq]. subst b2.
    rewrite E in Ha'. simplify_eq.
    assert (Hsplit : a_find k' (a_store a k v (sizeOf k v)) = a_find k' a).
    { simpl. rewrite bool_decide_false by done. by apply a_find_without. }
    rewrite <- (take_drop j (a_store a k v (sizeOf k v))), a_find_app in Hsplit.
    destruct (a_find k' (take j _)); [right|by left]. by rewrite <- Hsplit.
Qed.

Lemma lru_forget_reads c k k' : lru_wf c ->
  (Lru.Get shardOf (Lru.Forget shardOf c k) k').1 = if decide (k' = k) then None else (Lru.Get shardOf c k').1.
Proof.
  intros (m & A & Hinv). destruct (Forget_inv _ _ sizeOf_nonneg c m A k Hinv) as (a & Ha & Hfor).
  assert (Hlt : (shard_index shardOf k < length A)%nat) by (by eapply lookup_lt_Some).
  destruct (Get_updated _ _ _ _ A _ _ k' Hfor Hlt) as (b & Hb & ->).
  destruct (Get_result _ _ c m A k' Hinv) as (a' & Ha' & ->).
  destruct (decide (k' = k)) as [->|Hk]; [rewrite decide_True in Hb by done; subst; by rewrite a_find_without_eq|].
  case_decide as E; [|by simplify_eq]. subst b. rewrite E in Ha'. simplify_eq. by rewrite a_find_without.
Qed.

(** Another budget only makes the cache forget. *)
Lemma lru_budget_wf c b : lru_wf c -> lru_wf (Lru.SetBudget c b).
Proof. intros (m & A & Hinv). destruct (SetBudget_inv _ _ c m A b Hinv) as [A' H']. by exists m, A'. Qed.

Lemma lru_budget_reads c b k v : lru_wf c -> (Lru.Get shardOf (Lru.SetBudget c b) k).1 = Some v -> (Lru.Get shardOf c k).1 = Some v.
Proof.
  intros (m & A & Hinv). destruct (SetBudget_shards _ _ c m A b Hinv) as (A' & Hinv' & Hsub).
  destruct (Get_result _ _ _ _ _ k Hinv') as (a' & Ha' & ->), (Get_result _ _ _ _ _ k Hinv) as (a & Ha & ->).
  destruct (Forall2_lookup_l _ _ _ _ _ Hsub Ha) as (a2 & Ha2 & j & ->). simplify_eq. intros Hf.
  rewrite <- (take_drop j a), a_find_app. destruct (a_find k (take j a)); done.
Qed.

(** The LRU cache keeps the promise. *)
Definition lru_laws : @CacheLaws (lruCache (K := K) (V := V)) K V lru_ops.
Proof.
  refine (@Build_CacheLaws _ K V lru_ops lru_wf _ _ _ _ _ _ _); unfold c_look; cbn [c_get c_put c_forget lru_ops].
  - intros c k (m & A & Hinv). destruct (Get_inv _ _ c m A k Hinv) as (a & _ & _ & H). by eexists _, _.
  - intros c k v (m & A & Hinv). destruct (Put_inv _ _ c m A k v Hinv) as (a & j & _ & _ & _ & _ & H). by eexists _, _.
  - intros c k (m & A & Hinv). destruct (Forget_inv _ _ sizeOf_nonneg c m A k Hinv) as (a & _ & H). by eexists _, _.
  - apply lru_get_look.
  - intros c k v k' w Hwf Hg. destruct (lru_put_reads c k v Hwf) as [Hk Hk'].
    destruct (decide (k' = k)) as [->|Hne]; [left; split; congruence|]. right. split; [done|].
    destruct (Hk' k' Hne) as [Hn|He]; congruence.
  - intros c k v Hwf. by destruct (lru_put_reads c k v Hwf).
  - intros c k k' w Hwf. rewrite lru_forget_reads by done. by case_decide.
Defined.

Lemma lru_new_wf budget : lru_wf (newLRUCache budget).
Proof. eexists _, _. apply new_inv. Qed.

(** A new cache remembers nothing. *)
Lemma lru_new_look budget k : (Lru.Get (V := V) shardOf (newLRUCache budget) k).1 = None.
Proof.
  unfold Lru.Get, Lru.shard, Lru.newLRUCache. cbn [Lru.c_shards].
  assert (Hnth : forall i n, nth i (replicate n (@Lru.emptyShard K V _ _)) Lru.emptyShard = Lru.emptyShard)
    by (intros i n; revert i; induction n as [|n IH]; intros [|i]; cbn [replicate nth]; auto).
  by rewrite Hnth.
Qed.

End lru_cache.
