(* ===== verification/MemLimit.v ===== *)
(** * The memory controller

    [memlimit.go]: the ceiling the process runs under, the share of it each
    in-memory cache may claim, and the controller that samples memory in use
    and scales the budgets of the caches between a floor and their full size.

    The caches are behind the interface [shrinkable], a class here; the LRU
    cache is its instance.  The clock, the samples and the files of the control
    group are arguments.  Gauges and log lines are left out.

    [float64] is kept as such: a non-negative value is a mantissa of at most 53
    bits and an exponent, and a product is rounded to nearest, ties to even.
    Nothing here comes near the ends of the exponent range. *)

From Stdlib Require Import ZArith Lia List Bool String.
From stdpp Require Import base list gmap.
From S2P Require Import Prelude Strconv Lru MemoCache.

(** ** Floating point *)

Record f64 := F64 { f_mant : Z; f_exp : Z }.

(** [m * 2^e], rounded. *)
Definition f_round (m e : Z) : f64 :=
  if m <? 2 ^ 53 then F64 m e
  else
    let k := Z.log2 m - 52 in
    let q := m / 2 ^ k in
    let r := m mod 2 ^ k in
    F64 (if (2 ^ (k - 1) <? r) || ((r =? 2 ^ (k - 1)) && Z.odd q) then q + 1 else q) (e + k).

Definition f_of_int (n : Z) : f64 := f_round n 0.

Definition f_mul (a b : f64) : f64 := f_round (f_mant a * f_mant b) (f_exp a + f_exp b).

(** A constant [n / d]; the bit below the quotient says whether it is exact. *)
Definition f_ratio (n d : Z) : f64 :=
  let k := 60 + Z.log2 d in
  let q := n * 2 ^ k / d in
  f_round (2 * q + (if n * 2 ^ k mod d =? 0 then 0 else 1)) (- (k + 1)).

(** [int64(x)] cuts the fraction off. *)
Definition f_trunc (a : f64) : Z := if 0 <=? f_exp a then f_mant a * 2 ^ f_exp a else f_mant a / 2 ^ (- f_exp a).

Definition f_leb (a b : f64) : bool :=
  let e := Z.min (f_exp a) (f_exp b) in f_mant a * 2 ^ (f_exp a - e) <=? f_mant b * 2 ^ (f_exp b - e).

Definition f_max (a b : f64) : f64 := if f_leb a b then b else a.
Definition f_min (a b : f64) : f64 := if f_leb a b then a else b.

(** ** The ceiling *)

Definition metaCacheBudgetFraction : f64 := f_ratio 10 100.
Definition cleanMemoBudgetFraction : f64 := f_ratio 3 100.
Definition evictedMemoBudgetFraction : f64 := f_ratio 3 100.
Definition churnBudgetFraction : f64 := f_ratio 2 100.
Definition defaultMetaCacheBytes : Z := 32 * 2 ^ 20.
Definition defaultCleanMemoBytes : Z := 16 * 2 ^ 20.
Definition defaultEvictedMemoBytes : Z := 24 * 2 ^ 20.
Definition defaultChurnBytes : Z := 16 * 2 ^ 20.
Definition memShrinkFraction : f64 := f_ratio 85 100.
Definition memGrowFraction : f64 := f_ratio 65 100.
Definition memShrinkStep : f64 := F64 1 (-1).
Definition memGrowStep : f64 := F64 5 (-2).
Definition memMinScale : f64 := F64 1 (-5).
Definition f_one : f64 := F64 1 0.
Definition memSampleInterval : Z := 250 * 1000000.
Definition memShrinkCooldown : Z := 2 * 1000000000.
Definition memGrowCooldown : Z := 30 * 1000000000.

(** The files in order, [None] for one that cannot be read. *)
Fixpoint readCgroupMemoryLimit (files : list (option bytes)) : option Z :=
  match files with
  | [] => None
  | None :: files' => readCgroupMemoryLimit files'
  | Some data :: files' =>
      let s := trimSpace data in
      if bytes_eqb s [] || bytes_eqb s (str "max") then readCgroupMemoryLimit files'
      else match parseInt s with
           | None => readCgroupMemoryLimit files'
           | Some v => if (v <=? 0) || (2 ^ 62 <=? v) then readCgroupMemoryLimit files' else Some v
           end
  end.

Inductive budgetSource := FromGOMEMLIMIT | FromCgroup | FromUnknown.

(** [limit] is what the runtime answers; its largest value means none. *)
Definition detectMemoryBudget (limit : Z) (files : list (option bytes)) : Z * budgetSource :=
  if (0 <? limit) && negb (limit =? 2 ^ 63 - 1) then (limit, FromGOMEMLIMIT)
  else match readCgroupMemoryLimit files with Some v => (v, FromCgroup) | None => (0, FromUnknown) end.

Definition cacheBudget (memoryBudget : Z) (fraction : f64) (fallback : Z) : Z :=
  if memoryBudget <=? 0 then fallback
  else let n := f_trunc (f_mul (f_of_int memoryBudget) fraction) in if 0 <? n then n else 1.

(** ** The controller *)

Class Shrinkable (C : Type) := { SetBudget : C -> Z -> C; Bytes : C -> Z }.

(** What the controller relies on. *)
Class ShrinkableLaws (C : Type) `{!Shrinkable C} := {
  budget_of : C -> Z;
  holds_ok : C -> Prop;
  budget_of_set : forall c b, 0 <= b -> budget_of (SetBudget c b) = b;
  holds_ok_set : forall c b, holds_ok c -> holds_ok (SetBudget c b)
}.

(** What [read] makes of the runtime's two counters. *)
Definition sampler_read (total released : Z) : Z := i64 (if total <? released then total else total - released).

Definition scaled (full : Z) (scale : f64) : Z :=
  let n := f_trunc (f_mul (f_of_int full) scale) in if n <? 1 then 1 else n.

Section controller.
Context {C : Type} `{!Shrinkable C}.

Record namedCache := NamedCache { nc_name : bytes; nc_full : Z; nc_c : C }.

(** The zero time is [None]. *)
Record memController := MemController {
  mc_budget : Z; mc_shrinkAt : Z; mc_growAt : Z;
  mc_caches : list namedCache; mc_scale : f64; mc_lastShrink : option Z; mc_lastGrow : option Z; mc_warnedAtFloor : bool
}.

Definition newMemController (budget : Z) : memController :=
  MemController budget (f_trunc (f_mul (f_of_int budget) memShrinkFraction)) (f_trunc (f_mul (f_of_int budget) memGrowFraction))
    [] f_one None None false.

Definition Register (name : bytes) (full : Z) (c : C) (m : memController) : memController :=
  MemController (mc_budget m) (mc_shrinkAt m) (mc_growAt m) (mc_caches m ++ [NamedCache name full (SetBudget c (scaled full (mc_scale m)))])
    (mc_scale m) (mc_lastShrink m) (mc_lastGrow m) (mc_warnedAtFloor m).

(** [applyLocked], for the scale [scale]. *)
Definition apply_scale (scale : f64) (caches : list namedCache) : list namedCache :=
  map (fun nc => NamedCache (nc_name nc) (nc_full nc) (SetBudget (nc_c nc) (scaled (nc_full nc) scale))) caches.

Definition heldBytesLocked (m : memController) : Z := foldr Z.add 0 (map (fun nc => Bytes (nc_c nc)) (mc_caches m)).

(** Whether a step is due at [t]: [cooldown] after the last one. *)
Definition due (cooldown : Z) (last : option Z) (t : Z) : bool := match last with None => true | Some l => cooldown <=? t - l end.

(** [t] is the clock at the test and [t'] when the step is taken. *)
Definition shrink (t t' : Z) (m : memController) : memController :=
  if negb (due memShrinkCooldown (mc_lastShrink m) t) then m
  else if f_leb (mc_scale m) memMinScale
  then MemController (mc_budget m) (mc_shrinkAt m) (mc_growAt m) (mc_caches m) (mc_scale m) (mc_lastShrink m) (mc_lastGrow m) true
  else
    let scale := f_max memMinScale (f_mul (mc_scale m) memShrinkStep) in
    MemController (mc_budget m) (mc_shrinkAt m) (mc_growAt m) (apply_scale scale (mc_caches m)) scale (Some t') (mc_lastGrow m) false.

Definition grow (t t' : Z) (m : memController) : memController :=
  if f_leb f_one (mc_scale m) then m
  else if negb (due memGrowCooldown (mc_lastGrow m) t) then m
  else
    let scale := f_min f_one (f_mul (mc_scale m) memGrowStep) in
    MemController (mc_budget m) (mc_shrinkAt m) (mc_growAt m) (apply_scale scale (mc_caches m)) scale (mc_lastShrink m) (Some t') (mc_warnedAtFloor m).

(** [inUse] is the sample. *)
Definition poll (inUse t t' : Z) (m : memController) : memController :=
  if mc_shrinkAt m <=? inUse then shrink t t' m else if inUse <=? mc_growAt m then grow t t' m else m.

End controller.
Arguments namedCache : clear implicits.
Arguments memController : clear implicits.

(** ** Rounding *)

(** A value in units of [2^-200]; every exponent that occurs is above. *)
Definition fval (a : f64) : Z := f_mant a * 2 ^ (f_exp a + 200).

Definition f_ok (a : f64) : Prop := 0 <= f_mant a <= 2 ^ 53 /\ -200 <= f_exp a.

Lemma pow_split a b : 0 <= a -> 0 <= b -> 2 ^ (a + b) = 2 ^ a * 2 ^ b.
Proof. intros. by apply Z.pow_add_r. Qed.

Lemma f_leb_val a b : f_ok a -> f_ok b -> f_leb a b = (fval a <=? fval b).
Proof.
  intros [Ha Ea] [Hb Eb]. unfold f_leb, fval. set (e := Z.min (f_exp a) (f_exp b)).
  replace (f_exp a + 200) with (f_exp a - e + (e + 200)) by lia. replace (f_exp b + 200) with (f_exp b - e + (e + 200)) by lia.
  rewrite (pow_split (f_exp a - e)), (pow_split (f_exp b - e)), !Z.mul_assoc by lia. assert (0 < 2 ^ (e + 200)) by (apply Z.pow_pos_nonneg; lia).
  apply eq_bool_prop_intro. rewrite !Is_true_true, !Z.leb_le. by apply Z.mul_le_mono_pos_r.
Qed.

(** The bits cut off by a rounding are less than half of the last one kept. *)
Lemma round_spec m e : 0 <= m -> -200 <= e -> let a := f_round m e in
  f_ok a /\ 2 ^ 53 * Z.abs (fval a - m * 2 ^ (e + 200)) <= m * 2 ^ (e + 200) /\ (m < 2 ^ 53 -> a = F64 m e) /\
  (forall j, 0 <= j -> 2 ^ j <= m * 2 ^ (e + 200) -> 2 ^ j <= fval a) /\ (forall j, 0 <= j -> m * 2 ^ (e + 200) <= 2 ^ j -> fval a <= 2 ^ j).
Proof.
  intros Hm He. unfold f_round. destruct (Z.ltb_spec m (2 ^ 53)) as [Hlt|Hge]; cbv zeta.
  { unfold f_ok, fval. cbn [f_mant f_exp]. rewrite Z.sub_diag. split_and!; try done; try lia. }
  pose proof (Z.log2_spec m ltac:(lia)) as [Hlo Hhi]. set (L := Z.log2 m) in *. set (k := L - 52) in *.
  assert (HL : 53 <= L) by (apply Z.log2_le_pow2; lia). assert (Hk : 1 <= k) by lia.
  set (q := m / 2 ^ k). set (r := m mod 2 ^ k). assert (Hpk : 0 < 2 ^ k) by (apply Z.pow_pos_nonneg; lia).
  pose proof (Z.div_mod m (2 ^ k) ltac:(lia)) as Hdm. pose proof (Z.mod_pos_bound m (2 ^ k) Hpk) as Hr. fold q r in Hdm, Hr.
  assert (Hhalf : 2 ^ k = 2 * 2 ^ (k - 1)) by (replace k with (1 + (k - 1)) at 1 by lia; rewrite pow_split by lia; done).
  assert (HpL : 2 ^ L = 2 ^ 52 * 2 ^ k) by (rewrite <- pow_split by lia; f_equal; lia).
  assert (HpS : 2 ^ Z.succ L = 2 ^ 53 * 2 ^ k) by (rewrite <- pow_split by lia; f_equal; lia).
  assert (Hq1 : 2 ^ 52 <= q) by (apply Z.div_le_lower_bound; lia). assert (Hq2 : q < 2 ^ 53) by (apply Z.div_lt_upper_bound; lia).
  set (q' := if (2 ^ (k - 1) <? r) || ((r =? 2 ^ (k - 1)) && Z.odd q) then q + 1 else q). assert (Hq' : q <= q' <= q + 1) by (unfold q'; case_match; lia).
  assert (Herr : 2 * Z.abs (q' * 2 ^ k - m) <= 2 ^ k).
  { unfold q'. destruct (Z.ltb_spec (2 ^ (k - 1)) r); cbn [orb]; [lia|]. destruct (Z.eqb_spec r (2 ^ (k - 1))); cbn [andb]; [case_match; lia|lia]. }
  set (u := 2 ^ (e + 200)). assert (Hu : 0 < u) by (apply Z.pow_pos_nonneg; lia).
  assert (Hval : fval (F64 q' (e + k)) = q' * 2 ^ k * u).
  { unfold fval, u. cbn [f_mant f_exp]. replace (e + k + 200) with (k + (e + 200)) by lia. rewrite pow_split by lia. lia. }
  rewrite Hval. split; [|split; [|split; [|split]]].
  - unfold f_ok. cbn [f_mant f_exp]. lia.
  - replace (q' * 2 ^ k * u - m * u) with ((q' * 2 ^ k - m) * u) by lia. rewrite Z.abs_mul, (Z.abs_eq u) by lia. rewrite Z.mul_assoc.
    apply Z.mul_le_mono_nonneg_r; [lia|]. change (2 ^ 53) with (2 ^ 52 * 2). lia.
  - lia.
  - intros j Hj Hle. assert (Hjk : 2 ^ j < 2 ^ (Z.succ L + (e + 200))).
    { eapply Z.le_lt_trans; [exact Hle|]. rewrite pow_split by lia. fold u. nia. }
    apply Z.pow_lt_mono_r_iff in Hjk; [|lia|lia]. transitivity (2 ^ (L + (e + 200))); [apply Z.pow_le_mono_r; lia|].
    rewrite pow_split by lia. fold u. rewrite HpL. nia.
  - intros j Hj Hle. destruct (Z.eq_dec m (2 ^ L)) as [HmL|HmL].
    + assert (Hr0 : r = 0) by (unfold r; rewrite HmL, HpL; apply Z.mod_mul; lia).
      assert (q' = q) as -> by (unfold q'; rewrite Hr0; destruct (Z.ltb_spec (2 ^ (k - 1)) 0); cbn [orb]; [lia|]; destruct (Z.eqb_spec 0 (2 ^ (k - 1))); [lia|done]).
      nia.
    + assert (Hjk : 2 ^ (L + (e + 200)) < 2 ^ j) by (eapply Z.lt_le_trans; [|exact Hle]; rewrite pow_split by lia; fold u; nia).
      apply Z.pow_lt_mono_r_iff in Hjk; [|lia|lia]. transitivity (2 ^ (Z.succ L + (e + 200))); [|apply Z.pow_le_mono_r; lia].
      rewrite pow_split by lia. fold u. rewrite HpS. nia.
Qed.

Lemma f_trunc_val a : f_ok a -> f_trunc a = fval a / 2 ^ 200.
Proof.
  intros [Hm He]. unfold f_trunc, fval. destruct (Z.leb_spec 0 (f_exp a)) as [H0|Hn].
  - rewrite pow_split, Z.mul_assoc, Z.div_mul by lia. done.
  - replace 200 with (- f_exp a + (f_exp a + 200)) at 2 by lia. rewrite (pow_split (- f_exp a)) by lia.
    symmetry. apply Z.div_mul_cancel_r; apply Z.pow_nonzero; lia.
Qed.

Lemma scale_exp s : f_ok s -> 2 ^ 195 <= fval s -> -58 <= f_exp s.
Proof.
  intros [Hm He] Hv. unfold fval in Hv. destruct (Z.le_gt_cases (-58) (f_exp s)) as [|Hlt]; [done|exfalso].
  assert (2 ^ (f_exp s + 200) <= 2 ^ 141) by (apply Z.pow_le_mono_r; lia). change (2 ^ 195) with (2 ^ 53 * 2 ^ 142) in Hv.
  assert (f_mant s * 2 ^ (f_exp s + 200) <= 2 ^ 53 * 2 ^ 141) by (apply Z.mul_le_mono_nonneg; lia). lia.
Qed.

Lemma mul_spec s c : f_ok s -> -100 <= f_exp s -> 0 <= f_mant c -> -100 <= f_exp c ->
  let a := f_mul s c in
  let x := f_mant s * f_mant c * 2 ^ (f_exp s + f_exp c + 200) in
  f_ok a /\ 2 ^ 53 * Z.abs (fval a - x) <= x /\ (forall j, 0 <= j -> 2 ^ j <= x -> 2 ^ j <= fval a) /\ (forall j, 0 <= j -> x <= 2 ^ j -> fval a <= 2 ^ j).
Proof.
  intros [Hm _] He Hc Hce. unfold f_mul. destruct (round_spec (f_mant s * f_mant c) (f_exp s + f_exp c)) as (H1 & H2 & _ & H3 & H4); [nia|lia|]. by split_and!.
Qed.

(** Halving is exact. *)
Lemma half_val s : f_ok s -> 2 ^ 195 <= fval s -> f_ok (f_mul s memShrinkStep) /\ 2 * fval (f_mul s memShrinkStep) = fval s.
Proof.
  intros Hs Hv. pose proof (scale_exp s Hs Hv) as He. pose proof Hs as [Hm _].
  destruct (mul_spec s memShrinkStep Hs ltac:(lia) ltac:(done) ltac:(done)) as (Hok & _ & Hlo & Hhi). split; [done|].
  cbn [memShrinkStep f_mant f_exp] in *. rewrite Z.mul_1_r in *.
  assert (Hfv : fval s = 2 * (f_mant s * 2 ^ (f_exp s + -1 + 200))).
  { unfold fval. replace (f_exp s + 200) with (1 + (f_exp s + -1 + 200)) by lia. rewrite (pow_split 1) by lia. change (2 ^ 1) with 2. ring. }
  destruct (Z.eq_dec (f_mant s) (2 ^ 53)) as [E|E].
  - rewrite Hfv. set (x := f_mant s * 2 ^ (f_exp s + -1 + 200)) in *. assert (Hx : x = 2 ^ (53 + (f_exp s + -1 + 200))) by (unfold x; rewrite E; symmetry; apply pow_split; lia).
    specialize (Hlo (53 + (f_exp s + -1 + 200)) ltac:(lia) ltac:(lia)). specialize (Hhi (53 + (f_exp s + -1 + 200)) ltac:(lia) ltac:(lia)). lia.
  - unfold f_mul. cbn [memShrinkStep f_mant f_exp]. rewrite Z.mul_1_r. destruct (round_spec (f_mant s) (f_exp s + -1)) as (_ & _ & Heq & _); [lia|lia|].
    rewrite Heq by lia. rewrite Hfv. unfold fval. cbn [f_mant f_exp]. lia.
Qed.

(** Growing multiplies by five quarters, less the rounding. *)
Lemma grown_val s : f_ok s -> 2 ^ 195 <= fval s -> f_ok (f_mul s memGrowStep) /\ 1249 * fval s <= 1000 * fval (f_mul s memGrowStep).
Proof.
  intros Hs Hv. pose proof (scale_exp s Hs Hv) as He.
  destruct (mul_spec s memGrowStep Hs ltac:(lia) ltac:(done) ltac:(done)) as (Hok & Herr & _ & _). split; [done|].
  cbn [memGrowStep f_mant f_exp] in Herr. assert (Hx : 4 * (f_mant s * 5 * 2 ^ (f_exp s + -2 + 200)) = 5 * fval s).
  { unfold fval. replace (f_exp s + 200) with (2 + (f_exp s + -2 + 200)) by lia. rewrite (pow_split 2) by lia. change (2 ^ 2) with 4. ring. }
  change (2 ^ 53) with 9007199254740992 in Herr. lia.
Qed.

Lemma scaled_bounds full s : 0 < full < 2 ^ 53 -> f_ok s -> 2 ^ 195 <= fval s <= 2 ^ 200 -> 1 <= scaled full s <= full.
Proof.
  intros Hf Hs [Hlo Hhi]. unfold scaled. assert (Hint : f_of_int full = F64 full 0).
  { unfold f_of_int, f_round. by rewrite (proj2 (Z.ltb_lt _ _)) by lia. }
  rewrite Hint. pose proof (scale_exp s Hs Hlo) as He. destruct Hs as [Hm _].
  destruct (mul_spec (F64 full 0) s) as (Hok & Herr & _ & _); [unfold f_ok; cbn [f_mant f_exp]; lia|cbn [f_exp]; lia|lia|lia|].
  cbn [f_mant f_exp] in Herr. rewrite Z.add_0_l, <- Z.mul_assoc in Herr. fold (fval s) in Herr. rewrite (f_trunc_val _ Hok).
  set (v := fval (f_mul (F64 full 0) s)) in *. destruct (Z.ltb_spec (v / 2 ^ 200) 1); [lia|]. split; [lia|].
  assert (v < (full + 1) * 2 ^ 200); [|apply Z.lt_succ_r, Z.div_lt_upper_bound; lia].
  assert (full * fval s <= full * 2 ^ 200) by (apply Z.mul_le_mono_nonneg_l; lia). change (2 ^ 53) with 9007199254740992 in *. lia.
Qed.

Lemma one_val : fval f_one = 2 ^ 200 /\ f_ok f_one.
Proof. split; [reflexivity|]. unfold f_ok; cbn [f_mant f_exp f_one memMinScale]; lia. Qed.

Lemma floor_val : fval memMinScale = 2 ^ 195 /\ f_ok memMinScale.
Proof. split; [reflexivity|]. unfold f_ok; cbn [f_mant f_exp f_one memMinScale]; lia. Qed.

Lemma max_val a b : f_ok a -> f_ok b -> f_ok (f_max a b) /\ fval (f_max a b) = Z.max (fval a) (fval b).
Proof. intros Ha Hb. unfold f_max. rewrite f_leb_val by done. destruct (Z.leb_spec (fval a) (fval b)); split; try done; lia. Qed.

Lemma min_val a b : f_ok a -> f_ok b -> f_ok (f_min a b) /\ fval (f_min a b) = Z.min (fval a) (fval b).
Proof. intros Ha Hb. unfold f_min. rewrite f_leb_val by done. destruct (Z.leb_spec (fval a) (fval b)); split; try done; lia. Qed.

(** ** The budgets follow the scale *)

Section laws.
Context {C : Type} `{!Shrinkable C} `{!ShrinkableLaws C}.

(** What happens to the controller: a cache is added, a sample is taken, the
    server uses its caches, which leaves their budgets. *)
Inductive mstep : memController C -> memController C -> Prop :=
  | m_register name full c m : 0 < full < 2 ^ 53 -> holds_ok c -> mstep m (Register name full c m)
  | m_poll inUse t t' m : mstep m (poll inUse t t' m)
  | m_use m caches : Forall2 (fun a b => nc_full b = nc_full a /\ budget_of (nc_c b) = budget_of (nc_c a) /\ holds_ok (nc_c b)) (mc_caches m) caches ->
      mstep m (MemController (mc_budget m) (mc_shrinkAt m) (mc_growAt m) caches (mc_scale m) (mc_lastShrink m) (mc_lastGrow m) (mc_warnedAtFloor m)).

Definition cache_ok (scale : f64) (nc : namedCache C) : Prop :=
  0 < nc_full nc < 2 ^ 53 /\ budget_of (nc_c nc) = scaled (nc_full nc) scale /\ holds_ok (nc_c nc).

Definition mc_inv (m : memController C) : Prop :=
  f_ok (mc_scale m) /\ 2 ^ 195 <= fval (mc_scale m) <= 2 ^ 200 /\ Forall (cache_ok (mc_scale m)) (mc_caches m).

Lemma apply_ok old scale caches : f_ok scale -> 2 ^ 195 <= fval scale <= 2 ^ 200 -> Forall (cache_ok old) caches ->
  Forall (cache_ok scale) (apply_scale scale caches).
Proof.
  intros Hs Hv Hall. apply Forall_fmap. eapply Forall_impl; [exact Hall|]. intros nc (Hf & _ & Hok). unfold compose, cache_ok. cbn [nc_full nc_c].
  pose proof (scaled_bounds _ _ Hf Hs Hv) as [Hb _]. split_and!; [apply Hf..|apply budget_of_set; lia|by apply holds_ok_set].
Qed.

(** A step of the controller: which one, and what it makes of the scale. *)
Lemma shrink_spec t t' m : mc_inv m -> mc_inv (shrink t t' m) /\
  (if due memShrinkCooldown (mc_lastShrink m) t && (2 ^ 195 <? fval (mc_scale m))
   then fval (mc_scale (shrink t t' m)) = Z.max (2 ^ 195) (fval (mc_scale m) / 2) /\ mc_lastShrink (shrink t t' m) = Some t'
   else mc_scale (shrink t t' m) = mc_scale m /\ mc_lastShrink (shrink t t' m) = mc_lastShrink m).
Proof.
  intros (Hs & Hv & Hall). destruct floor_val as [Hfl Hflok]. unfold shrink. destruct (due _ _ t); cbn [negb andb]; [|by split_and!].
  rewrite f_leb_val, Hfl by done. destruct (Z.leb_spec (fval (mc_scale m)) (2 ^ 195)) as [Hle|Hgt].
  - rewrite (proj2 (Z.ltb_ge _ _)) by lia. by split_and!.
  - rewrite (proj2 (Z.ltb_lt _ _)) by lia. destruct (half_val _ Hs (proj1 Hv)) as [Hhok Hh]. destruct (max_val _ _ Hflok Hhok) as [Hok Hmax].
    rewrite Hfl in Hmax. assert (Hdiv : fval (mc_scale m) / 2 = fval (f_mul (mc_scale m) memShrinkStep)) by (rewrite <- Hh, Z.mul_comm; apply Z.div_mul; lia).
    cbv zeta. unfold mc_inv. cbn [mc_scale mc_caches mc_lastShrink]. rewrite Hmax, Hdiv. split_and!; try done; try lia. eapply apply_ok; [done|rewrite Hmax; lia|done].
Qed.

Lemma grow_spec t t' m : mc_inv m -> mc_inv (grow t t' m) /\
  (if due memGrowCooldown (mc_lastGrow m) t && (fval (mc_scale m) <? 2 ^ 200)
   then (fval (mc_scale (grow t t' m)) = 2 ^ 200 \/ 1249 * fval (mc_scale m) <= 1000 * fval (mc_scale (grow t t' m))) /\ mc_lastGrow (grow t t' m) = Some t'
   else mc_scale (grow t t' m) = mc_scale m /\ mc_lastGrow (grow t t' m) = mc_lastGrow m).
Proof.
  intros (Hs & Hv & Hall). destruct one_val as [H1 H1ok]. unfold grow. rewrite f_leb_val, H1 by done. destruct (Z.leb_spec (2 ^ 200) (fval (mc_scale m))) as [Hle|Hgt].
  - rewrite (proj2 (Z.ltb_ge _ _)), andb_false_r by lia. by split_and!.
  - rewrite (proj2 (Z.ltb_lt _ _)), andb_true_r by lia. destruct (due _ _ t); cbn [negb]; [|by split_and!].
    destruct (grown_val _ Hs (proj1 Hv)) as [Hgok Hg]. destruct (min_val _ _ H1ok Hgok) as [Hok Hmin]. rewrite H1 in Hmin.
    cbv zeta. unfold mc_inv. cbn [mc_scale mc_caches mc_lastGrow]. rewrite Hmin. split; [split_and!; try done; try lia|split; [|done]].
    + eapply apply_ok; [done|rewrite Hmin; lia|done].
    + destruct (Z.le_gt_cases (2 ^ 200) (fval (f_mul (mc_scale m) memGrowStep))); [left; lia|right; lia].
Qed.

Lemma poll_inv inUse t t' m : mc_inv m -> mc_inv (poll inUse t t' m).
Proof.
  intros Hm. unfold poll. destruct (_ <=? inUse); [by apply shrink_spec|]. destruct (inUse <=? _); [by apply grow_spec|done].
Qed.

Lemma mstep_inv m m' : mstep m m' -> mc_inv m -> mc_inv m'.
Proof.
  intros Hstep (Hs & Hv & Hall). destruct Hstep as [name full c m Hf Hc|inUse t t' m|m caches Huse]; [|by apply poll_inv|].
  - unfold Register, mc_inv. cbn [mc_scale mc_caches]. split_and!; try done; try lia. apply Forall_app. split; [done|]. apply Forall_singleton.
    pose proof (scaled_bounds _ _ Hf Hs Hv) as [Hb _]. unfold cache_ok. cbn [nc_full nc_c]. split_and!; [lia..|apply budget_of_set; lia|by apply holds_ok_set].
  - unfold mc_inv. cbn [mc_scale mc_caches]. split_and!; try done; try lia. clear - Huse Hall. induction Huse as [|a b l l' (Hf & Hb & Hok) _ IH]; [done|].
    apply Forall_cons in Hall as [(Ha1 & Ha2 & _) Hall]. constructor; [|by apply IH]. unfold cache_ok. rewrite Hf, Hb. done.
Qed.

Lemma controller_new_inv budget : mc_inv (newMemController budget).
Proof. destruct one_val as [H1 H1ok]. unfold mc_inv. cbn [newMemController mc_scale mc_caches]. rewrite H1. split_and!; [done|lia|lia|constructor]. Qed.

Lemma mstep_reach budget m : rtc mstep (newMemController budget) m -> mc_inv m.
Proof.
  intros Hr. pose proof (controller_new_inv budget) as H0. induction Hr as [|m0 m1 m2 Hst _ IH]; [done|]. apply IH. by eapply mstep_inv.
Qed.

(** The caches never lose their floor and never outgrow their share.  Over
    any history of registrations, samples and use: the scale stays between one
    32nd and one; every registered cache has the budget its full size and the
    scale give, at least one byte and at most its full size; and it is as well
    formed as its own operations keep it. *)
Theorem memory_budgets_bounded budget m : rtc mstep (newMemController budget) m ->
  f_leb memMinScale (mc_scale m) = true /\ f_leb (mc_scale m) f_one = true /\
  Forall (fun nc => budget_of (nc_c nc) = scaled (nc_full nc) (mc_scale m) /\ 1 <= budget_of (nc_c nc) <= nc_full nc /\ holds_ok (nc_c nc)) (mc_caches m).
Proof.
  intros Hr. destruct (mstep_reach budget m Hr) as (Hs & Hv & Hall). destruct one_val as [H1 H1ok], floor_val as [Hfl Hflok]. rewrite !f_leb_val, H1, Hfl by done.
  split_and!; [apply Z.leb_le; lia..|]. eapply Forall_impl; [exact Hall|]. intros nc (Hf & Hb & Hok). rewrite Hb. split_and!; try done; by apply scaled_bounds.
Qed.

(** ** Pressure and recovery *)

(** Samples with their clock readings, taken at most [gap] apart; the first lies between [lo] and [hi]. *)
Fixpoint paced (gap lo hi : Z) (polls : list (Z * Z * Z)) : Prop :=
  match polls with
  | [] => True
  | (_, t, t') :: polls' => lo <= t <= hi /\ t <= t' /\ paced gap t' (t + gap) polls'
  end.

Fixpoint count_due (cooldown : Z) (last : option Z) (polls : list (Z * Z * Z)) : nat :=
  match polls with
  | [] => 0
  | (_, t, t') :: polls' => if due cooldown last t then S (count_due cooldown (Some t') polls') else count_due cooldown last polls'
  end.

(** By when a step is due at the latest. *)
Definition due_by (cooldown gap hi : Z) (last : option Z) : Z := match last with None => hi | Some l => Z.max hi (l + cooldown + gap) end.

(** When the last sample was taken. *)
Fixpoint last_time (d : Z) (polls : list (Z * Z * Z)) : Z := match polls with [] => d | (_, t, _) :: polls' => last_time t polls' end.

Lemma count_due_paced cooldown gap polls : 0 < cooldown -> 0 <= gap -> forall n last lo hi d, paced gap lo hi polls ->
  d < due_by cooldown gap hi last -> due_by cooldown gap hi last + Z.of_nat n * (cooldown + 2 * gap) <= last_time d polls ->
  (S n <= count_due cooldown last polls)%nat.
Proof.
  intros Hc Hg. induction polls as [|[[s u] u'] polls IH]; intros n last lo hi d Hp Hd Ht; cbn [paced count_due last_time] in *; [lia|].
  destruct Hp as (Hu & Hu' & Hp).
  assert (Hnext : polls <> [] -> u' <= u + gap) by (destruct polls as [|[[? ?] ?] ?]; [done|cbn [paced] in Hp; lia]).
  destruct (due cooldown last u) eqn:Ed.
  - apply le_n_S. destruct n as [|n]; [lia|]. destruct (decide (polls = [])) as [->|Hne].
    { cbn [last_time] in Ht. unfold due_by in *. destruct last; nia. }
    specialize (Hnext Hne). apply (IH n (Some u') u' (u + gap) u Hp); unfold due_by in *; [lia|]. destruct last; nia.
  - destruct last as [l|]; [|done]. unfold due in Ed. apply Z.leb_gt in Ed.
    apply (IH n (Some l) u' (u + gap) u Hp); unfold due_by in *; lia.
Qed.

Definition run_polls (polls : list (Z * Z * Z)) (m : memController C) : memController C :=
  foldl (fun m p => poll p.1.1 p.1.2 p.2 m) m polls.

Lemma poll_fixed inUse t t' (m : memController C) : mc_shrinkAt (poll inUse t t' m) = mc_shrinkAt m /\ mc_growAt (poll inUse t t' m) = mc_growAt m.
Proof. unfold poll, shrink, grow. repeat case_match; done. Qed.

Lemma run_polls_inv polls : forall m, mc_inv m -> mc_inv (run_polls polls m).
Proof. induction polls as [|[[s t] t'] polls IH]; intros m Hm; [done|]. cbn [run_polls foldl]. by apply IH, poll_inv. Qed.

Lemma pressure_steps polls : forall n m, mc_inv m -> Forall (fun p => mc_shrinkAt m <= p.1.1) polls ->
  fval (mc_scale m) <= 2 ^ 195 * 2 ^ Z.of_nat n -> (n <= count_due memShrinkCooldown (mc_lastShrink m) polls)%nat ->
  fval (mc_scale (run_polls polls m)) = 2 ^ 195.
Proof.
  induction polls as [|[[s t] t'] polls IH]; intros n m Hm Hall Hn Hcount.
  { cbn [count_due] in Hcount. assert (n = 0%nat) as -> by lia. destruct Hm as (_ & Hv & _). cbn [run_polls foldl]. change (2 ^ Z.of_nat 0) with 1 in Hn. lia. }
  apply Forall_cons in Hall as [Hs Hall]. cbn [fst snd] in Hs. cbn [run_polls foldl fst snd].
  change (foldl _ ?x polls) with (run_polls polls x). destruct (poll_fixed s t t' m) as [Hfix _].
  assert (Hpoll : poll s t t' m = shrink t t' m) by (unfold poll; by rewrite (proj2 (Z.leb_le _ _)) by lia). rewrite Hpoll in *.
  destruct (shrink_spec t t' m Hm) as [Hm' Hstep]. pose proof Hm' as (_ & Hv' & _). rewrite <- Hfix in Hall. cbn [count_due] in Hcount.
  destruct (Z.ltb_spec (2 ^ 195) (fval (mc_scale m))) as [Hgt|Hle].
  - rewrite andb_true_r in Hstep. destruct (due memShrinkCooldown (mc_lastShrink m) t).
    + destruct Hstep as [Hsc Hlast]. destruct n as [|n]; [change (2 ^ Z.of_nat 0) with 1 in Hn; lia|]. apply (IH n); [done|done| |rewrite Hlast; lia].
      rewrite Hsc. rewrite Nat2Z.inj_succ, Z.pow_succ_r in Hn by lia. assert (0 < 2 ^ Z.of_nat n) by (apply Z.pow_pos_nonneg; lia).
      apply Z.max_lub; [nia|]. apply Z.div_le_upper_bound; [lia|]. lia.
    + destruct Hstep as [Hsc Hlast]. apply (IH n); [done|done|by rewrite Hsc|by rewrite Hlast].
  - rewrite andb_false_r in Hstep. destruct Hstep as [Hsc _]. apply (IH 0%nat); [done|done| |lia]. rewrite Hsc. change (2 ^ Z.of_nat 0) with 1. lia.
Qed.

Lemma calm_steps polls : forall n m, mc_inv m -> Forall (fun p => p.1.1 < mc_shrinkAt m /\ p.1.1 <= mc_growAt m) polls ->
  2 ^ 200 * 1000 ^ Z.of_nat n <= fval (mc_scale m) * 1249 ^ Z.of_nat n -> (n <= count_due memGrowCooldown (mc_lastGrow m) polls)%nat ->
  fval (mc_scale (run_polls polls m)) = 2 ^ 200.
Proof.
  induction polls as [|[[s t] t'] polls IH]; intros n m Hm Hall Hn Hcount.
  { cbn [count_due] in Hcount. assert (n = 0%nat) as -> by lia. destruct Hm as (_ & Hv & _). cbn [run_polls foldl]. change (1000 ^ Z.of_nat 0) with 1 in Hn. change (1249 ^ Z.of_nat 0) with 1 in Hn. lia. }
  apply Forall_cons in Hall as [Hs Hall]. cbn [fst snd] in Hs. cbn [run_polls foldl fst snd].
  change (foldl _ ?x polls) with (run_polls polls x). destruct (poll_fixed s t t' m) as [Hfix1 Hfix2].
  assert (Hpoll : poll s t t' m = grow t t' m) by (unfold poll; rewrite (proj2 (Z.leb_gt _ _)) by lia; by rewrite (proj2 (Z.leb_le _ _)) by lia). rewrite Hpoll in *.
  destruct (grow_spec t t' m Hm) as [Hm' Hstep]. pose proof Hm' as (_ & Hv' & _). rewrite <- Hfix1, <- Hfix2 in Hall. cbn [count_due] in Hcount.
  assert (Hdone : fval (mc_scale (grow t t' m)) = 2 ^ 200 -> fval (mc_scale (run_polls polls (grow t t' m))) = 2 ^ 200).
  { intros E. apply (IH 0%nat); [done|done| |lia]. rewrite E. change (1000 ^ Z.of_nat 0) with 1. change (1249 ^ Z.of_nat 0) with 1. lia. }
  destruct (Z.ltb_spec (fval (mc_scale m)) (2 ^ 200)) as [Hlt|Hge].
  - rewrite andb_true_r in Hstep. destruct (due memGrowCooldown (mc_lastGrow m) t).
    + destruct Hstep as [[Hsc|Hsc] Hlast]; [by apply Hdone|]. destruct n as [|n].
      { change (1000 ^ Z.of_nat 0) with 1 in Hn. change (1249 ^ Z.of_nat 0) with 1 in Hn. lia. }
      apply (IH n); [done|done| |rewrite Hlast; lia]. rewrite !Nat2Z.inj_succ, !Z.pow_succ_r in Hn by lia.
      assert (0 < 1249 ^ Z.of_nat n) by (apply Z.pow_pos_nonneg; lia). set (a := 1000 ^ Z.of_nat n) in *. set (b := 1249 ^ Z.of_nat n) in *. nia.
    + destruct Hstep as [Hsc Hlast]. apply (IH n); [done|done|by rewrite Hsc|by rewrite Hlast].
  - apply Hdone. rewrite andb_false_r in Hstep. destruct Hstep as [Hsc _]. destruct Hm as (_ & Hv & _). rewrite Hsc. lia.
Qed.

(** The budgets a scale gives. *)
Definition at_scale (v : Z) (m : memController C) : Prop :=
  fval (mc_scale m) = v /\ Forall (fun nc => budget_of (nc_c nc) = scaled (nc_full nc) (mc_scale m)) (mc_caches m).

Lemma inv_at_scale v m : mc_inv m -> fval (mc_scale m) = v -> at_scale v m.
Proof. intros (_ & _ & Hall) Hv. split; [done|]. eapply Forall_impl; [exact Hall|]. by intros nc (_ & ? & _). Qed.

(** C24. The controller gives way and comes back.  From any state it can reach, and
    however memory is sampled, as long as samples are at most [gap] apart: if
    they are all over the upper mark, the caches are at their floor, one 32nd,
    after at most five cooldowns of two seconds and the gaps between; if they
    are all under the lower mark, they are back at their full size after at most
    sixteen cooldowns of thirty seconds.  [hi] bounds the time of the first
    sample. *)
Theorem memory_pressure_answered budget m gap lo hi polls : rtc mstep (newMemController budget) m -> 0 <= gap -> paced gap lo hi polls ->
  (Forall (fun p => mc_shrinkAt m <= p.1.1) polls ->
   due_by memShrinkCooldown gap hi (mc_lastShrink m) + 4 * (memShrinkCooldown + 2 * gap) <= last_time (hi - 1) polls ->
   at_scale (2 ^ 195) (run_polls polls m)) /\
  (Forall (fun p => p.1.1 < mc_shrinkAt m /\ p.1.1 <= mc_growAt m) polls ->
   due_by memGrowCooldown gap hi (mc_lastGrow m) + 15 * (memGrowCooldown + 2 * gap) <= last_time (hi - 1) polls ->
   at_scale (2 ^ 200) (run_polls polls m)).
Proof.
  intros Hr Hg Hp. assert (Hm : mc_inv m) by (by apply (mstep_reach budget)). pose proof Hm as (_ & Hv & _).
  assert (Hd : forall c l, 0 < c -> hi - 1 < due_by c gap hi l) by (intros c [l|] Hc; unfold due_by; lia).
  split; intros Hall Ht; (apply inv_at_scale; [by apply run_polls_inv|]).
  - apply (pressure_steps polls 5); [done|done|change (2 ^ 195 * 2 ^ Z.of_nat 5) with (2 ^ 200); lia|].
    by apply (count_due_paced memShrinkCooldown gap polls ltac:(done) Hg 4 _ lo hi (hi - 1)); [|apply Hd|].
  - apply (calm_steps polls 16); [done|done| |].
    + assert (Hx : 2 ^ 5 * 1000 ^ Z.of_nat 16 <= 1249 ^ Z.of_nat 16) by (vm_compute; discriminate). change (2 ^ 200) with (2 ^ 195 * 2 ^ 5).
      set (a := 1000 ^ Z.of_nat 16) in *. set (b := 1249 ^ Z.of_nat 16) in *. transitivity (2 ^ 195 * b); [lia|]. apply Z.mul_le_mono_nonneg_r; [|lia]. subst b. apply Z.pow_nonneg. lia.
    + by apply (count_due_paced memGrowCooldown gap polls ltac:(done) Hg 15 _ lo hi (hi - 1)); [|apply Hd|].
Qed.
End laws.

(** ** The shares *)

Lemma share_bound memoryBudget fraction fallback q : 1000 <= memoryBudget < 2 ^ 53 -> f_ok fraction -> -100 <= f_exp fraction ->
  1000 * fval fraction <= (q - 1) * 2 ^ 200 -> 1 <= q <= 1000 -> 1000 * cacheBudget memoryBudget fraction fallback <= q * memoryBudget.
Proof.
  intros Hm Hf He Hq Hr. unfold cacheBudget. rewrite (proj2 (Z.leb_gt _ _)) by lia.
  assert (Hint : f_of_int memoryBudget = F64 memoryBudget 0) by (unfold f_of_int, f_round; by rewrite (proj2 (Z.ltb_lt _ _)) by lia). rewrite Hint.
  destruct Hf as [Hfm Hfe]. destruct (mul_spec (F64 memoryBudget 0) fraction) as (Hok & Herr & _ & _); [unfold f_ok; cbn [f_mant f_exp]; lia|cbn [f_exp]; lia|lia|lia|].
  cbn [f_mant f_exp] in Herr. rewrite Z.add_0_l, <- Z.mul_assoc in Herr. fold (fval fraction) in Herr. rewrite (f_trunc_val _ Hok).
  set (v := fval (f_mul (F64 memoryBudget 0) fraction)) in *. set (p := 2 ^ 200) in *. assert (Hp : 0 < p) by reflexivity.
  destruct (Z.ltb_spec 0 (v / p)); [|lia]. pose proof (Z.mul_div_le v p Hp) as Hdiv. set (n := v / p) in *.
  assert (Hx : 1000 * (memoryBudget * fval fraction) <= (q - 1) * memoryBudget * p) by (transitivity (memoryBudget * ((q - 1) * p)); [|lia]; nia).
  change (2 ^ 53) with 9007199254740992 in *. assert (1000 * v <= q * memoryBudget * p); [|nia].
  assert (9007199254740992 * v <= 9007199254740993 * (memoryBudget * fval fraction)) by lia. nia.
Qed.

Definition full_budgets (memoryBudget : Z) : list Z :=
  [cacheBudget memoryBudget metaCacheBudgetFraction defaultMetaCacheBytes; cacheBudget memoryBudget cleanMemoBudgetFraction defaultCleanMemoBytes;
   cacheBudget memoryBudget cleanMemoBudgetFraction defaultCleanMemoBytes; cacheBudget memoryBudget evictedMemoBudgetFraction defaultEvictedMemoBytes;
   cacheBudget memoryBudget churnBudgetFraction defaultChurnBytes].

(** The caches of the server, fully grown, stay under 22 per cent of the
    ceiling, whatever it is: the runtime's limit, or the first limit of the
    control group that is a number and none of the spellings of "no limit". *)
Theorem cache_shares_fit limit files : let '(v, src) := detectMemoryBudget limit files in
  (src = FromUnknown -> v = 0) /\ (src <> FromUnknown -> 0 < v) /\
  (src = FromCgroup -> v < 2 ^ 62 /\ exists data, Some data ∈ files /\ parseInt (trimSpace data) = Some v) /\
  (1000 <= v < 2 ^ 53 -> 1000 * foldr Z.add 0 (full_budgets v) <= 220 * v).
Proof.
  assert (Hread : forall v, readCgroupMemoryLimit files = Some v -> 0 < v < 2 ^ 62 /\ exists data, Some data ∈ files /\ parseInt (trimSpace data) = Some v).
  { induction files as [|[data|] files IH]; intros v Hv; cbn [readCgroupMemoryLimit] in Hv; [done| |].
    - assert (Hrest : readCgroupMemoryLimit files = Some v -> 0 < v < 2 ^ 62 /\ exists d, Some d ∈ Some data :: files /\ parseInt (trimSpace d) = Some v).
      { intros E. destruct (IH v E) as (? & d & ? & ?). split; [done|]. exists d. split; [by apply list_elem_of_further|done]. }
      destruct (_ || _); [by apply Hrest|]. destruct (parseInt (trimSpace data)) as [n|] eqn:En; [|by apply Hrest].
      destruct (Z.leb_spec n 0); cbn [orb] in Hv; [by apply Hrest|]. destruct (Z.leb_spec (2 ^ 62) n); [by apply Hrest|]. injection Hv as <-.
      split; [lia|]. exists data. split; [apply list_elem_of_here|done].
    - destruct (IH v Hv) as (? & d & ? & ?). split; [done|]. exists d. split; [by apply list_elem_of_further|done]. }
  assert (Hsum : forall v, 1000 <= v < 2 ^ 53 -> 1000 * foldr Z.add 0 (full_budgets v) <= 220 * v).
  { intros v Hv. unfold full_budgets. cbn [foldr].
    assert (Hb : forall f fb q, f_ok f -> -100 <= f_exp f -> 1000 * fval f <= (q - 1) * 2 ^ 200 -> 1 <= q <= 1000 -> 1000 * cacheBudget v f fb <= q * v)
      by (intros; by apply share_bound).
    pose proof (Hb metaCacheBudgetFraction defaultMetaCacheBytes 102) as H1. pose proof (Hb cleanMemoBudgetFraction defaultCleanMemoBytes 32) as H2.
    pose proof (Hb evictedMemoBudgetFraction defaultEvictedMemoBytes 32) as H3. pose proof (Hb churnBudgetFraction defaultChurnBytes 22) as H4.
    assert (Hok : forall f, (0 <=? f_mant f) && (f_mant f <=? 2 ^ 53) && (-100 <=? f_exp f) = true -> f_ok f /\ -100 <= f_exp f).
    { intros f Hf. apply andb_prop in Hf as [[?%Z.leb_le ?%Z.leb_le]%andb_prop ?%Z.leb_le]. unfold f_ok. lia. }
    destruct (Hok metaCacheBudgetFraction ltac:(vm_compute; reflexivity)). destruct (Hok cleanMemoBudgetFraction ltac:(vm_compute; reflexivity)).
    destruct (Hok evictedMemoBudgetFraction ltac:(vm_compute; reflexivity)). destruct (Hok churnBudgetFraction ltac:(vm_compute; reflexivity)).
    specialize (H1 ltac:(done) ltac:(done) ltac:(vm_compute; discriminate) ltac:(lia)). specialize (H2 ltac:(done) ltac:(done) ltac:(vm_compute; discriminate) ltac:(lia)).
    specialize (H3 ltac:(done) ltac:(done) ltac:(vm_compute; discriminate) ltac:(lia)). specialize (H4 ltac:(done) ltac:(done) ltac:(vm_compute; discriminate) ltac:(lia)). lia. }
  unfold detectMemoryBudget. destruct (Z.ltb_spec 0 limit); cbn [andb].
  - destruct (negb (limit =? 2 ^ 63 - 1)); [split_and!; first [done|intros; lia|by intros; apply Hsum]|].
    destruct (readCgroupMemoryLimit files) as [v|] eqn:E; [|split_and!; first [done|intros; lia]]. destruct (Hread v eq_refl) as [Hv Hd]. split_and!; first [done|intros; lia|by intros; apply Hsum|intros _; split; [lia|exact Hd]].
  - destruct (readCgroupMemoryLimit files) as [v|] eqn:E; [|split_and!; first [done|intros; lia]]. destruct (Hread v eq_refl) as [Hv Hd]. split_and!; first [done|intros; lia|by intros; apply Hsum|intros _; split; [lia|exact Hd]].
Qed.

(** ** The LRU cache behind the interface *)

Section lru_shrinkable.
Context {K V : Type} `{!EqDecision K} `{!Countable K} (shardOf : K -> Z) (sizeOf : K -> V -> Z).

Definition lru_shrinkable : Shrinkable (lruCache (K := K) (V := V)) := {| SetBudget := Lru.SetBudget; Bytes := c_bytes |}.

Definition lru_shrinkable_laws : @ShrinkableLaws (lruCache (K := K) (V := V)) lru_shrinkable.
Proof.
  refine (@Build_ShrinkableLaws _ lru_shrinkable c_budget (lru_wf shardOf sizeOf) _ _); cbn [SetBudget lru_shrinkable].
  - intros c b Hb. unfold Lru.SetBudget. destruct (evict_shards _ _) as [[shs f] n]. cbn [c_budget]. by rewrite (proj2 (Z.ltb_ge _ _)).
  - intros c b. apply lru_budget_wf.
Defined.
End lru_shrinkable.

(** ** A concrete controller *)

#[local] Existing Instance lru_shrinkable.

Definition demoCache : lruCache (K := Z) (V := Z) := newLRUCache 1000.
Definition demoLaws : ShrinkableLaws (lruCache (K := Z) (V := Z)) := lru_shrinkable_laws (fun k => k) (fun _ _ => 100).
#[local] Existing Instance demoLaws.

Definition demoController : memController (lruCache (K := Z) (V := Z)) := Register (str "demo") 1000 demoCache (newMemController 1000).

Lemma demo_reach : rtc mstep (newMemController 1000) demoController.
Proof. apply rtc_once, m_register; [lia|]. apply lru_new_wf. Qed.

(** A sample every two seconds. *)
Definition demoPolls (sample : Z) (n : nat) : list (Z * Z * Z) :=
  map (fun i => (sample, Z.of_nat i * memShrinkCooldown, Z.of_nat i * memShrinkCooldown)) (seq 0 n).

Lemma demo_paced sample n : paced memShrinkCooldown 0 0 (demoPolls sample n).
Proof.
  unfold demoPolls. assert (Hgen : forall k lo hi, lo <= Z.of_nat k * memShrinkCooldown <= hi ->
    paced memShrinkCooldown lo hi (map (fun i => (sample, Z.of_nat i * memShrinkCooldown, Z.of_nat i * memShrinkCooldown)) (seq k n))); [|apply Hgen; lia].
  induction n as [|n IH]; intros k lo hi Hk; [done|]. cbn [seq map paced]. split_and!; [lia..|]. apply IH. unfold memShrinkCooldown. lia.
Qed.

Lemma memory_budgets_bounded_witness :
  map (fun nc => c_budget (nc_c nc)) (mc_caches (poll 900 0 0 demoController)) = [500] /\ f_leb (mc_scale (poll 900 0 0 demoController)) f_one = true.
Proof.
  destruct (memory_budgets_bounded 1000 (poll 900 0 0 demoController)) as (_ & H2 & _).
  - eapply rtc_r; [apply demo_reach|]. apply m_poll.
  - split; [vm_compute; reflexivity|exact H2].
Defined.

Lemma memory_pressure_answered_witness :
  at_scale (2 ^ 195) (run_polls (demoPolls 900 14) demoController) /\
  map (fun nc => c_budget (nc_c nc)) (mc_caches (run_polls (demoPolls 900 14) demoController)) = [31].
Proof.
  split; [|vm_compute; reflexivity].
  refine (proj1 (memory_pressure_answered 1000 demoController memShrinkCooldown 0 0 (demoPolls 900 14) demo_reach _ (demo_paced 900 14)) _ _).
  - vm_compute. discriminate.
  - apply Forall_forall. intros p Hp. apply list_elem_of_fmap in Hp as (i & -> & _). vm_compute. discriminate.
  - vm_compute. discriminate.
Defined.

Lemma cache_shares_fit_witness :
  detectMemoryBudget (2 ^ 63 - 1) [Some (str "max" ++ [10]); Some (str "1048576" ++ [10])] = (1048576, FromCgroup) /\
  1000 * foldr Z.add 0 (full_budgets 1048576) <= 220 * 1048576.
Proof.
  assert (E : detectMemoryBudget (2 ^ 63 - 1) [Some (str "max" ++ [10]); Some (str "1048576" ++ [10])] = (1048576, FromCgroup)) by (vm_compute; reflexivity).
  pose proof (cache_shares_fit (2 ^ 63 - 1) [Some (str "max" ++ [10]); Some (str "1048576" ++ [10])]) as H. rewrite E in H.
  destruct H as (_ & _ & _ & H). split; [exact E|]. apply H. lia.
Defined.
