(* ===== verification/Churn.v ===== *)
(** * Packages stored again

    [churn.go] and the project rows of [projectmetrics.go]: the server remembers
    the last object of every package and target it saw in an LRU cache, and a
    put of the package under another key is a re-store, classified by the first
    field that differs.  The panel shows the counts and the last of them.

    The panel's ranking, its shares and its prose are left out, and so are the
    Prometheus counters, which repeat the counts kept here.  Times are in Unix
    seconds. *)

From Stdlib Require Import ZArith Lia List Bool String.
From stdpp Require Import base list gmap sets.
From S2P Require Import Prelude Strconv GoSet Keys ObjAttrs Lru MemoCache.

Definition churnEntryBytes : Z := 160.
Definition churnRecentMax : nat := 40.

Definition changeGoVersion : bytes := str "go_version".
Definition changeToolchain : bytes := str "toolchain".
Definition changeTarget : bytes := str "target".
Definition changeSources : bytes := str "sources".
Definition changePath : bytes := str "path".
Definition changeInputs : bytes := str "inputs".
Definition changeOutput : bytes := str "output".

Definition changeKinds : list bytes :=
  [changeGoVersion; changeToolchain; changeTarget; changeSources; changePath; changeInputs; changeOutput].

Record packageSeen := PackageSeen {
  sn_hash : bytes; sn_content : bytes; sn_goVersion : bytes; sn_toolchain : bytes; sn_target : bytes; sn_src : bytes; sn_srcDir : bytes;
  sn_project : bytes; sn_at : Z; sn_restores : Z; sn_sameOutput : Z; sn_lastChange : bytes
}.

Definition seen_bytes (p : packageSeen) : Z :=
  churnEntryBytes + Z.of_nat (length (sn_content p) + length (sn_goVersion p) + length (sn_toolchain p) + length (sn_target p) + length (sn_src p) +
    length (sn_srcDir p) + length (sn_project p) + length (sn_lastChange p)).

Record fieldDiff := FieldDiff { fd_Field : bytes; fd_From : bytes; fd_To : bytes }.

Record restoreEvent := RestoreEvent {
  ev_At : Z; ev_Project : bytes; ev_Package : bytes; ev_Target : bytes; ev_Change : bytes; ev_Output : bytes; ev_SameOutput : bool; ev_Diffs : list fieldDiff
}.

(** ** What changed *)

Definition outputSame : bytes := str "same".
Definition outputChanged : bytes := str "changed".
Definition outputUnknown : bytes := str "unknown".

Definition outputVerdict (prev cur : packageSeen) : bytes :=
  if bytes_eqb (sn_content prev) [] || bytes_eqb (sn_content cur) [] then outputUnknown
  else if bytes_eqb (sn_content prev) (sn_content cur) then outputSame
  else outputChanged.

Definition diff_of (field from to : bytes) : list fieldDiff := if bytes_eqb from to then [] else [FieldDiff field from to].

Definition diffs_of (prev cur : packageSeen) : list fieldDiff :=
  diff_of (str "go-version") (sn_goVersion prev) (sn_goVersion cur) ++ diff_of (str "toolchain-version") (sn_toolchain prev) (sn_toolchain cur) ++
  diff_of (str "target") (sn_target prev) (sn_target cur) ++ diff_of (str "src") (sn_src prev) (sn_src cur) ++
  (if negb (bytes_eqb (sn_srcDir prev) []) && negb (bytes_eqb (sn_srcDir cur) []) then diff_of (str "src-dir") (sn_srcDir prev) (sn_srcDir cur) else []).

(** The kind a field names; the empty text for one that names none. *)
Definition kind_of (field : bytes) : bytes :=
  if bytes_eqb field (str "go-version") then changeGoVersion else if bytes_eqb field (str "toolchain-version") then changeToolchain
  else if bytes_eqb field (str "target") then changeTarget else if bytes_eqb field (str "src") then changeSources
  else if bytes_eqb field (str "src-dir") then changePath else [].

Definition classifyChange (prev cur : packageSeen) : list fieldDiff * bytes :=
  let diffs := diffs_of prev cur in
  match diffs with
  | d :: _ => (diffs, kind_of (fd_Field d))
  | [] => (diffs, if bytes_eqb (outputVerdict prev cur) outputSame then changeInputs else changeOutput)
  end.

(** ** Projects *)

Definition unknownProject : bytes := str "unknown".
Definition otherProject : bytes := str "other".
Definition maxProjectLabels : nat := 64.
Definition maxProjectNameLen : nat := 128.

(** A rune is at most a blank, or DEL, exactly when its one byte is. *)
Definition plausibleProjectName (name : bytes) : bool :=
  (length name <=? maxProjectNameLen)%nat && forallb (fun c => negb (c <=? 32) && negb (c =? 127)) name.

(** [label]: the metric label, whether the name was folded, and the names that have a series. *)
Definition label {St : Type} `{!SetOps St bytes} (name : bytes) (seen : St) : bytes * bool * St :=
  let name := trimSpace name in
  if bytes_eqb name [] then (unknownProject, false, seen)
  else if negb (plausibleProjectName name) then (otherProject, true, seen)
  else if s_contains seen name then (name, false, seen)
  else if (maxProjectLabels <=? s_len seen)%nat then (otherProject, true, seen)
  else (name, false, s_add name seen).

Record projectRow := ProjectRow {
  pr_Hit : Z; pr_Miss : Z; pr_Put : Z; pr_LookAhead : Z; pr_HitBytes : Z; pr_PutBytes : Z; pr_LookAheadBytes : Z; pr_Restores : Z; pr_RestoresSameOutput : Z
}.
Definition noRow : projectRow := ProjectRow 0 0 0 0 0 0 0 0 0.

Inductive objKind := objKindHit | objKindLookAhead | objKindPut | objKindMiss.

Abbreviation exactProjects := (gmap bytes projectRow).

Definition project_name (name : bytes) : bytes := let name := trimSpace name in if bytes_eqb name [] then unknownProject else name.

Definition row_of (name : bytes) (e : exactProjects) : projectRow := default noRow (e !! name).

Definition project_add (name : bytes) (kind : objKind) (objects wire : Z) (e : exactProjects) : exactProjects :=
  let name := project_name name in
  let b := if 0 <? wire then u64 wire else 0 in
  let r := row_of name e in
  <[name := match kind with
            | objKindHit => ProjectRow (u64 (pr_Hit r + objects)) (pr_Miss r) (pr_Put r) (pr_LookAhead r) (u64 (pr_HitBytes r + b)) (pr_PutBytes r) (pr_LookAheadBytes r) (pr_Restores r) (pr_RestoresSameOutput r)
            | objKindMiss => ProjectRow (pr_Hit r) (u64 (pr_Miss r + objects)) (pr_Put r) (pr_LookAhead r) (pr_HitBytes r) (pr_PutBytes r) (pr_LookAheadBytes r) (pr_Restores r) (pr_RestoresSameOutput r)
            | objKindPut => ProjectRow (pr_Hit r) (pr_Miss r) (u64 (pr_Put r + objects)) (pr_LookAhead r) (pr_HitBytes r) (u64 (pr_PutBytes r + b)) (pr_LookAheadBytes r) (pr_Restores r) (pr_RestoresSameOutput r)
            | objKindLookAhead => ProjectRow (pr_Hit r) (pr_Miss r) (pr_Put r) (u64 (pr_LookAhead r + objects)) (pr_HitBytes r) (pr_PutBytes r) (u64 (pr_LookAheadBytes r + b)) (pr_Restores r) (pr_RestoresSameOutput r)
            end]> e.

Definition noteRestore (name : bytes) (sameOutput : bool) (e : exactProjects) : exactProjects :=
  let name := project_name name in
  let r := row_of name e in
  <[name := ProjectRow (pr_Hit r) (pr_Miss r) (pr_Put r) (pr_LookAhead r) (pr_HitBytes r) (pr_PutBytes r) (pr_LookAheadBytes r) (u64 (pr_Restores r + 1))
             (if sameOutput then u64 (pr_RestoresSameOutput r + 1) else pr_RestoresSameOutput r)]> e.

(** ** The tracker *)

Definition churn_size (k : bytes) (p : packageSeen) : Z := Z.of_nat (length k) + seen_bytes p.

Abbreviation SeenLRU := (lruCache (K := bytes) (V := packageSeen)).

Record churnTracker := ChurnTracker {
  ct_entries : SeenLRU; ct_recent : list restoreEvent; ct_total : Z; ct_same : Z; ct_unknown : Z; ct_byChange : gmap bytes Z
}.

Definition newChurnTracker (budget : Z) : churnTracker := ChurnTracker (newLRUCache budget) [] 0 0 0 ∅.

(** An object that moved, and when. *)
Record observation := Observation { ob_key : bytes; ob_meta : smap; ob_put : bool; ob_project : bytes; ob_at : Z }.

Definition meta_field (o : observation) (k : string) : bytes := default [] (ob_meta o !! str k).

(** The entry an observation makes, and its key; [None] for what is not tracked. *)
Definition seen_of (o : observation) : option (bytes * packageSeen) :=
  let pkg := meta_field o "pkg" in
  if bytes_eqb pkg [] || bytes_eqb pkg (str "main") || bytes_eqb pkg (str "command-line-arguments") then None
  else match extractActionHash (ob_key o) with
       | None => None
       | Some hash =>
           let target := meta_field o "target" in
           Some (pkg ++ 0 :: target,
                 PackageSeen hash (meta_field o "content-id") (meta_field o "go-version") (meta_field o "toolchain-version") target (meta_field o "src")
                   (meta_field o "src-dir") (ob_project o) (ob_at o) 0 0 [])
       end.

Definition with_counts (cur : packageSeen) (restores sameOutput : Z) (lastChange : bytes) : packageSeen :=
  PackageSeen (sn_hash cur) (sn_content cur) (sn_goVersion cur) (sn_toolchain cur) (sn_target cur) (sn_src cur) (sn_srcDir cur) (sn_project cur) (sn_at cur)
    restores sameOutput lastChange.

Definition event_of (o : observation) (prev cur : packageSeen) : restoreEvent :=
  let '(diffs, change) := classifyChange prev cur in
  let output := outputVerdict prev cur in
  RestoreEvent (sn_at cur) (ob_project o) (meta_field o "pkg") (sn_target cur) change output (bytes_eqb output outputSame) diffs.

(** The ring drops its oldest before it takes another. *)
Definition push_recent (ev : restoreEvent) (recent : list restoreEvent) : list restoreEvent :=
  (if (churnRecentMax <=? length recent)%nat then take (churnRecentMax - 1) (drop 1 recent) else recent) ++ [ev].

(** [observe], with the re-store it finds, if any. *)
Definition observe (o : observation) (c : churnTracker) (e : exactProjects) : option restoreEvent * churnTracker * exactProjects :=
  match seen_of o with
  | None => (None, c, e)
  | Some (k, cur) =>
      match Lru.Get fnv1a (ct_entries c) k with
      | (None, entries) =>
          (None, ChurnTracker (Lru.Put fnv1a churn_size entries k cur) (ct_recent c) (ct_total c) (ct_same c) (ct_unknown c) (ct_byChange c), e)
      | (Some prev, entries) =>
          if bytes_eqb (sn_hash prev) (sn_hash cur) || negb (ob_put o)
          then (None, ChurnTracker (Lru.Put fnv1a churn_size entries k (with_counts cur (sn_restores prev) (sn_sameOutput prev) (sn_lastChange prev)))
                        (ct_recent c) (ct_total c) (ct_same c) (ct_unknown c) (ct_byChange c), e)
          else
            let ev := event_of o prev cur in
            let entry := with_counts cur (u32 (sn_restores prev + 1)) (if ev_SameOutput ev then u32 (sn_sameOutput prev + 1) else sn_sameOutput prev) (ev_Change ev) in
            (Some ev,
             ChurnTracker (Lru.Put fnv1a churn_size entries k entry) (push_recent ev (ct_recent c)) (u64 (ct_total c + 1))
               (if ev_SameOutput ev then u64 (ct_same c + 1) else ct_same c)
               (if bytes_eqb (ev_Output ev) outputUnknown then u64 (ct_unknown c + 1) else ct_unknown c)
               (<[ev_Change ev := u64 (default 0 (ct_byChange c !! ev_Change ev) + 1)]> (ct_byChange c)),
             noteRestore (ob_project o) (ev_SameOutput ev) e)
      end
  end.

(** The numbers of the panel: packages tracked, re-stores, the counts by kind, and the last re-stores, newest first. *)
Record dashboardChurn := DashboardChurn {
  dc_Tracked : Z; dc_Restores : Z; dc_SameOutput : Z; dc_UnknownOutput : Z; dc_Causes : list (bytes * Z); dc_Recent : list restoreEvent
}.

Definition churn_snapshot (c : churnTracker) : dashboardChurn :=
  DashboardChurn (Lru.Len (ct_entries c)) (ct_total c) (ct_same c) (ct_unknown c) (map (fun k => (k, default 0 (ct_byChange c !! k))) changeKinds) (rev (ct_recent c)).

(** ** What the panel shows is what happened *)

(** An object moves, or the server or its memory controller sets the budget of the entries. *)
Inductive churnEvent := Moved (o : observation) | Budgeted (budget : Z).

Definition with_budget (budget : Z) (c : churnTracker) : churnTracker :=
  ChurnTracker (Lru.SetBudget (ct_entries c) budget) (ct_recent c) (ct_total c) (ct_same c) (ct_unknown c) (ct_byChange c).

Definition churn_step (st : churnTracker * exactProjects * list restoreEvent) (ev : churnEvent) : churnTracker * exactProjects * list restoreEvent :=
  match ev with
  | Moved o => let '(re, c, e) := observe o st.1.1 st.1.2 in (c, e, st.2 ++ option_list re)
  | Budgeted budget => (with_budget budget st.1.1, st.1.2, st.2)
  end.

Definition churn_run (budget : Z) (evs : list churnEvent) : churnTracker * exactProjects * list restoreEvent :=
  foldl churn_step (newChurnTracker budget, ∅, []) evs.

Definition moved (evs : list churnEvent) : list observation := omap (fun ev => match ev with Moved o => Some o | Budgeted _ => None end) evs.

(** The last object seen under a key. *)
Definition last_seen (h : list observation) (k : bytes) : option packageSeen :=
  foldl (fun acc o => match seen_of o with Some (k', cur) => if bytes_eqb k' k then Some cur else acc | None => acc end) None h.

Definition base (p : packageSeen) : packageSeen := with_counts p 0 0 [].

(** The event of [o] after the history [h]: a put, under another key than the last object of its package and target. *)
Definition justified (h : list observation) (o : observation) (ev : restoreEvent) : Prop :=
  ob_put o = true /\ exists k cur prev, seen_of o = Some (k, cur) /\ last_seen h k = Some prev /\ sn_hash prev <> sn_hash cur /\ ev = event_of o prev cur.

Definition count (P : restoreEvent -> bool) (log : list restoreEvent) : Z := Z.of_nat (length (List.filter P log)).

Lemma count_snoc P log ev : count P (log ++ [ev]) = count P log + (if P ev then 1 else 0).
Proof. unfold count. rewrite List.filter_app, length_app. cbn [List.filter]. destruct (P ev); cbn [length]; lia. Qed.

Lemma u64_succ x : u64 (u64 x + 1) = u64 (x + 1).
Proof. unfold u64. by rewrite Z.add_mod_idemp_l by lia. Qed.

Record counted (c : churnTracker) (e : exactProjects) (log : list restoreEvent) : Prop := {
  cn_total : ct_total c = u64 (Z.of_nat (length log));
  cn_same : ct_same c = u64 (count ev_SameOutput log);
  cn_unknown : ct_unknown c = u64 (count (fun ev => bytes_eqb (ev_Output ev) outputUnknown) log);
  cn_change : forall k, default 0 (ct_byChange c !! k) = u64 (count (fun ev => bytes_eqb (ev_Change ev) k) log);
  cn_recent : ct_recent c = drop (length log - churnRecentMax) log;
  cn_rows : forall name, pr_Restores (row_of name e) = u64 (count (fun ev => bytes_eqb (project_name (ev_Project ev)) name) log) /\
    pr_RestoresSameOutput (row_of name e) = u64 (count (fun ev => bytes_eqb (project_name (ev_Project ev)) name && ev_SameOutput ev) log)
}.

Lemma push_recent_last ev log : push_recent ev (drop (length log - churnRecentMax) log) = drop (length (log ++ [ev]) - churnRecentMax) (log ++ [ev]).
Proof.
  unfold push_recent. rewrite length_drop, length_app. cbn [length]. unfold churnRecentMax.
  destruct (Nat.leb_spec 40 (length log - (length log - 40))) as [Hge|Hlt].
  - rewrite drop_drop. rewrite take_ge by (rewrite length_drop; lia). rewrite drop_app_le by lia. f_equal. f_equal. lia.
  - replace (length log - 40)%nat with 0%nat by lia. replace (length log + 1 - 40)%nat with 0%nat by lia. done.
Qed.

Lemma counted_push c e log o prev cur entries : ob_project o = ev_Project (event_of o prev cur) -> counted c e log ->
  counted (ChurnTracker entries (push_recent (event_of o prev cur) (ct_recent c)) (u64 (ct_total c + 1))
     (if ev_SameOutput (event_of o prev cur) then u64 (ct_same c + 1) else ct_same c)
     (if bytes_eqb (ev_Output (event_of o prev cur)) outputUnknown then u64 (ct_unknown c + 1) else ct_unknown c)
     (<[ev_Change (event_of o prev cur) := u64 (default 0 (ct_byChange c !! ev_Change (event_of o prev cur)) + 1)]> (ct_byChange c)))
    (noteRestore (ob_project o) (ev_SameOutput (event_of o prev cur)) e) (log ++ [event_of o prev cur]).
Proof.
  generalize (event_of o prev cur) as ev. intros ev -> [Ht Hs Hu Hc Hr Hp]. constructor; cbn [ct_total ct_same ct_unknown ct_byChange ct_recent].
  - rewrite Ht, u64_succ, length_app. f_equal. cbn [length]. lia.
  - rewrite count_snoc. destruct (ev_SameOutput ev); [by rewrite Hs, u64_succ|by rewrite Hs, Z.add_0_r].
  - rewrite count_snoc. destruct (bytes_eqb _ _); [by rewrite Hu, u64_succ|by rewrite Hu, Z.add_0_r].
  - intros k. rewrite count_snoc. destruct (decide (ev_Change ev = k)) as [<-|Hne].
    + rewrite lookup_insert_eq, bytes_eqb_refl. change (default 0 (Some ?x)) with x. by rewrite Hc, u64_succ.
    + rewrite lookup_insert_ne by done. destruct (bytes_eqb (ev_Change ev) k) eqn:E; [by apply bytes_eqb_eq in E|]. by rewrite Hc, Z.add_0_r.
  - by rewrite Hr, push_recent_last.
  - intros name. destruct (Hp name) as [Hp1 Hp2]. rewrite !count_snoc. unfold noteRestore, row_of. destruct (bytes_eqb (project_name (ev_Project ev)) name) eqn:E.
    + apply bytes_eqb_eq in E as E'. rewrite E'. rewrite lookup_insert_eq. change (default noRow (Some ?x)) with x. cbn [pr_Restores pr_RestoresSameOutput andb].
      unfold row_of in Hp1, Hp2. rewrite Hp1, Hp2, u64_succ. split; [done|]. destruct (ev_SameOutput ev); [by rewrite u64_succ|by rewrite Z.add_0_r].
    + rewrite lookup_insert_ne by (intros E'; by rewrite E', bytes_eqb_refl in E). cbn [andb]. rewrite !Z.add_0_r. done.
Qed.

(** ** The cache holds the last object of a key, or nothing *)

Lemma churn_size_nonneg k p : 0 <= churn_size k p.
Proof. unfold churn_size, seen_bytes, churnEntryBytes. lia. Qed.

Definition seen_ops : CacheOps SeenLRU bytes packageSeen := lru_ops fnv1a churn_size.
Definition seen_laws : @CacheLaws SeenLRU bytes packageSeen seen_ops := lru_laws fnv1a churn_size churn_size_nonneg.
#[local] Existing Instance seen_ops.
#[local] Existing Instance seen_laws.

Definition remembers (h : list observation) (entries : SeenLRU) : Prop :=
  c_wf entries /\ forall k p, c_look entries k = Some p -> last_seen h k = Some (base p).

Lemma last_seen_snoc h o k : last_seen (h ++ [o]) k = match seen_of o with Some (k', cur) => if bytes_eqb k' k then Some cur else last_seen h k | None => last_seen h k end.
Proof. unfold last_seen. by rewrite foldl_snoc. Qed.

Lemma seen_of_base o k cur : seen_of o = Some (k, cur) -> base cur = cur /\ k = meta_field o "pkg" ++ 0 :: sn_target cur /\ sn_target cur = meta_field o "target".
Proof.
  unfold seen_of. destruct (_ || _); [done|]. destruct (extractActionHash (ob_key o)) as [hash|]; [|done]. intros [= <- <-]. done.
Qed.

Lemma remembers_put h o k cur entries r s l : seen_of o = Some (k, cur) -> remembers h entries ->
  remembers (h ++ [o]) (c_put (c_get entries k).2 k (with_counts cur r s l)).
Proof.
  intros Ho [Hwf Hl]. assert (Hwf1 : c_wf (c_get entries k).2) by (by apply c_get_wf). split; [by apply c_put_wf|].
  intros k' p Hp. rewrite last_seen_snoc, Ho. destruct (seen_of_base _ _ _ Ho) as (Hb & _ & _).
  apply c_put_look in Hp as [[-> ->]|[Hne Hp]]; [|rewrite c_get_look in Hp by done|done].
  - rewrite bytes_eqb_refl. f_equal. by destruct cur.
  - destruct (bytes_eqb k k') eqn:E; [by apply bytes_eqb_eq in E|]. by apply Hl.
Qed.

Lemma event_base o prev cur : event_of o prev cur = event_of o (base prev) cur.
Proof. by destruct prev. Qed.

(** One observation: what it adds to the log is justified, and everything stays in step. *)
Lemma observe_spec h o c e log ev c' e' : remembers h (ct_entries c) -> counted c e log -> observe o c e = (ev, c', e') ->
  remembers (h ++ [o]) (ct_entries c') /\ counted c' e' (log ++ option_list ev) /\ (forall x, ev = Some x -> justified h o x).
Proof.
  intros Hrem Hcnt. unfold observe. destruct (seen_of o) as [[k cur]|] eqn:Eo.
  2:{ intros [= <- <- <-]. cbn [option_list]. rewrite app_nil_r. split_and!; [|done|done]. destruct Hrem as [Hwf Hl]. split; [done|].
      intros k p Hp. rewrite last_seen_snoc, Eo. by apply Hl. }
  pose proof (fun r s l => remembers_put h o k cur (ct_entries c) r s l Eo Hrem) as Hput. destruct (seen_of_base _ _ _ Eo) as (Hb & _ & _).
  destruct Hrem as [Hwf Hl]. pose proof (Hl k) as Hk. unfold c_look in Hk. cbn [c_get c_put seen_ops lru_ops] in Hk, Hput.
  destruct (Lru.Get fnv1a (ct_entries c) k) as [[prev|] entries]; cbn [fst snd] in *.
  - destruct (bytes_eqb (sn_hash prev) (sn_hash cur) || negb (ob_put o)) eqn:Eh; intros [= <- <- <-]; cbn [option_list ct_entries].
    + rewrite app_nil_r. split_and!; [apply Hput| |done]. by destruct Hcnt.
    + apply orb_false_iff in Eh as [Eh Ep]. apply negb_false_iff in Ep. split_and!; [apply Hput| |].
      * apply counted_push; [|done]. unfold event_of. by destruct (classifyChange prev cur).
      * intros x [= <-]. split; [done|]. exists k, cur, (base prev). split_and!; [done|by apply Hk| |apply event_base].
        intros E. destruct prev. cbn in E, Eh. by rewrite E, bytes_eqb_refl in Eh.
  - intros [= <- <- <-]. cbn [option_list ct_entries]. rewrite app_nil_r. split_and!; [|by destruct Hcnt|done]. specialize (Hput 0 0 []). unfold base in Hb. by rewrite Hb in Hput.
Qed.

Lemma with_budget_spec h budget c e log : remembers h (ct_entries c) -> counted c e log ->
  remembers h (ct_entries (with_budget budget c)) /\ counted (with_budget budget c) e log.
Proof.
  intros [Hwf Hl] Hcnt. split; [|by destruct Hcnt]. split; [by apply lru_budget_wf|]. intros k p Hp. apply Hl. unfold c_look in *. clear Hl.
  cbn [c_get seen_ops lru_ops with_budget ct_entries] in *. by eapply (lru_budget_reads fnv1a churn_size).
Qed.

Lemma churn_run_spec budget evs : let '(c, e, log) := churn_run budget evs in
  remembers (moved evs) (ct_entries c) /\ counted c e log /\ Forall (fun ev => exists h1 o h2, moved evs = h1 ++ o :: h2 /\ justified h1 o ev) log.
Proof.
  unfold churn_run. induction evs as [|ev evs IH] using rev_ind.
  - cbn [foldl]. split_and!; [|constructor; try done; by intros k|constructor]. split; [apply lru_new_wf|]. intros k p Hp. unfold c_look in Hp.
    cbn [c_get seen_ops lru_ops newChurnTracker ct_entries] in Hp. by rewrite lru_new_look in Hp.
  - rewrite foldl_snoc. destruct (foldl churn_step _ evs) as [[c e] log]. destruct IH as (Hrem & Hcnt & Hlog). unfold moved in *. rewrite omap_app.
    destruct ev as [o|b]; unfold churn_step; cbn [fst snd omap list_omap].
    + destruct (observe o c e) as [[re c'] e'] eqn:Eo. destruct (observe_spec _ _ _ _ _ _ _ _ Hrem Hcnt Eo) as (Hrem' & Hcnt' & Hev). split_and!; [done|done|].
      apply Forall_app. split.
      * eapply Forall_impl; [exact Hlog|]. intros x (h1 & o1 & h2 & -> & Hj). exists h1, o1, (h2 ++ [o]). by rewrite <- app_assoc.
      * destruct re as [re|]; [|constructor]. cbn [option_list]. apply Forall_singleton. eexists _, o, []. split; [done|by apply Hev].
    + rewrite app_nil_r. destruct (with_budget_spec _ b _ _ _ Hrem Hcnt) as [Hr Hc]. by split_and!.
Qed.

Lemma last_seen_from h k p : last_seen h k = Some p -> exists o, o ∈ h /\ seen_of o = Some (k, p).
Proof.
  induction h as [|o h IH] using rev_ind; [done|]. rewrite last_seen_snoc. destruct (seen_of o) as [[k' cur]|] eqn:Eo.
  - destruct (bytes_eqb k' k) eqn:E.
    + apply bytes_eqb_eq in E as ->. intros [= <-]. exists o. split; [apply elem_of_app; right; by apply list_elem_of_singleton|done].
    + intros Hp. destruct (IH Hp) as (o' & Hin & Ho'). exists o'. split; [apply elem_of_app; by left|done].
  - intros Hp. destruct (IH Hp) as (o' & Hin & Ho'). exists o'. split; [apply elem_of_app; by left|done].
Qed.

Lemma nul_split a b x y : 0 ∉ a -> 0 ∉ b -> a ++ 0 :: x = b ++ 0 :: y -> a = b /\ x = y.
Proof.
  revert b; induction a as [|c a IH]; intros [|d b] Ha Hb; cbn [app]; rewrite ?not_elem_of_cons in *; [by intros [= ->]|intros [= <-]; tauto|intros [= ->]; tauto|].
  intros [= -> E]. destruct (IH b) as [-> ->]; tauto.
Qed.

(** The field that names the kind differs. *)
Lemma first_diff prev cur d ds : diffs_of prev cur = d :: ds -> fd_From d <> fd_To d /\ kind_of (fd_Field d) ∈ changeKinds /\
  (fd_Field d = str "target" -> sn_target prev <> sn_target cur).
Proof.
  intros E. assert (Hin : d ∈ diffs_of prev cur) by (rewrite E; apply list_elem_of_here). unfold diffs_of in Hin. rewrite !elem_of_app in Hin.
  assert (Hd : forall f a b, d ∈ diff_of f a b -> d = FieldDiff f a b /\ a <> b).
  { intros f a b. unfold diff_of. destruct (bytes_eqb a b) eqn:Eb; [by intros ?%not_elem_of_nil|]. intros ->%list_elem_of_singleton.
    split; [done|]. intros ->. by rewrite bytes_eqb_refl in Eb. }
  assert (Hk : forall f, bool_decide (kind_of f ∈ changeKinds) = true -> kind_of f ∈ changeKinds) by (intros f; apply bool_decide_eq_true_1).
  destruct Hin as [Hin|[Hin|[Hin|[Hin|Hin]]]]; [..|destruct (_ && _); [|by apply not_elem_of_nil in Hin]];
    destruct (Hd _ _ _ Hin) as [-> Hne]; cbn [fd_Field fd_From fd_To]; (split_and!; [done|apply Hk; vm_compute; reflexivity|by intros]).
Qed.

Lemma kind_target f : kind_of f = changeTarget -> f = str "target".
Proof.
  unfold kind_of. destruct (bytes_eqb f (str "go-version")); [by intros E; vm_compute in E|]. destruct (bytes_eqb f (str "toolchain-version")); [by intros E; vm_compute in E|].
  destruct (bytes_eqb f (str "target")) eqn:E; [intros _; by apply bytes_eqb_eq|]. repeat (case_match; [by intros E'; vm_compute in E'|]). by intros E'; vm_compute in E'.
Qed.

Lemma kind_field f : kind_of f <> changeInputs.
Proof. unfold kind_of. repeat (case_match; [by intros E'; vm_compute in E'|]). by intros E'; vm_compute in E'. Qed.

Lemma event_change o prev cur : ev_Change (event_of o prev cur) ∈ changeKinds /\
  (sn_target prev = sn_target cur -> ev_Change (event_of o prev cur) <> changeTarget) /\
  (ev_Change (event_of o prev cur) = changeInputs -> ev_Diffs (event_of o prev cur) = [] /\ ev_Output (event_of o prev cur) = outputSame).
Proof.
  assert (Hk : forall f, bool_decide (f ∈ changeKinds) = true -> f ∈ changeKinds) by (intros f; apply bool_decide_eq_true_1).
  unfold event_of, classifyChange. destruct (diffs_of prev cur) as [|d ds] eqn:Ed.
  - destruct (bytes_eqb (outputVerdict prev cur) outputSame) eqn:Eo; cbn [ev_Change ev_Diffs ev_Output].
    + split_and!; [apply Hk; vm_compute; reflexivity|done|]. intros _. split; [done|by apply bytes_eqb_eq].
    + split_and!; [apply Hk; vm_compute; reflexivity|done|done].
  - cbn [ev_Change]. destruct (first_diff _ _ _ _ Ed) as (_ & Hkind & Ht). split_and!; [done| |].
    + intros E Hc. apply Ht; [|done]. by apply kind_target.
    + intros Hc. by destruct (kind_field (fd_Field d)).
Qed.

(** C33. The panel is true.  Whatever objects moved and whatever budgets were
    set between them, in any order: each re-store it counts is a put of a package
    and target whose last object seen had another key, classified against that
    very object; the totals, the counts by kind and by project are those of the
    re-stores, each of which has one of the kinds, and the list shows the last
    forty, newest first.  While no package name has a NUL byte, no re-store is
    ever counted as a change of target: the target is part of the key the
    packages are compared under. *)
Theorem churn_panel_exact budget evs :
  let '(c, e, log) := churn_run budget evs in
  Forall (fun ev => exists h1 o h2, moved evs = h1 ++ o :: h2 /\ justified h1 o ev) log /\
  Forall (fun ev => ev_Change ev ∈ changeKinds) log /\
  (Forall (fun o => 0 ∉ meta_field o "pkg") (moved evs) -> Forall (fun ev => ev_Change ev <> changeTarget) log) /\
  let d := churn_snapshot c in
  dc_Restores d = u64 (Z.of_nat (length log)) /\ dc_SameOutput d = u64 (count ev_SameOutput log) /\
  dc_UnknownOutput d = u64 (count (fun ev => bytes_eqb (ev_Output ev) outputUnknown) log) /\
  dc_Causes d = map (fun k => (k, u64 (count (fun ev => bytes_eqb (ev_Change ev) k) log))) changeKinds /\
  dc_Recent d = take churnRecentMax (rev log) /\
  (forall name, pr_Restores (row_of name e) = u64 (count (fun ev => bytes_eqb (project_name (ev_Project ev)) name) log)).
Proof.
  pose proof (churn_run_spec budget evs) as Hrun. destruct (churn_run budget evs) as [[c e] log]. destruct Hrun as (_ & [Ht Hs Hu Hc Hr Hp] & Hlog).
  split; [done|]. split; [|split; [|unfold churn_snapshot; cbn [dc_Restores dc_SameOutput dc_UnknownOutput dc_Causes dc_Recent]; split_and!; try done]].
  - eapply Forall_impl; [exact Hlog|]. intros ev (h1 & o & h2 & _ & _ & k & cur & prev & _ & _ & _ & ->). apply event_change.
  - intros Hnul. eapply Forall_impl; [exact Hlog|]. intros ev (h1 & o & h2 & Hmv & _ & k & cur & prev & Ho & Hl & _ & ->). rewrite Hmv in Hnul.
    destruct (event_change o prev cur) as (_ & Htgt & _). apply Htgt.
    destruct (last_seen_from _ _ _ Hl) as (o' & Hin & Ho'). destruct (seen_of_base _ _ _ Ho) as (_ & E & _), (seen_of_base _ _ _ Ho') as (_ & E' & _).
    rewrite Forall_forall in Hnul. rewrite E in E'. symmetry. eapply (nul_split _ _ _ _ _ _ E'). Unshelve.
    + apply Hnul, elem_of_app. right. apply list_elem_of_here.
    + apply Hnul, elem_of_app. by left.
  - apply map_ext. intros k. by rewrite Hc.
  - rewrite Hr. rewrite <- (take_drop (length log - churnRecentMax) log) at 3. rewrite rev_app_distr. unfold churnRecentMax.
    destruct (decide (length log <= 40)%nat) as [Hle|Hgt].
    + replace (length log - 40)%nat with 0%nat by lia. rewrite drop_0, take_0. cbn [rev]. rewrite app_nil_r. by rewrite take_ge by (rewrite length_rev; lia).
    + rewrite take_app_le by (rewrite length_rev, length_drop; lia). by rewrite take_ge by (rewrite length_rev, length_drop; lia).
  - intros name. apply Hp.
Qed.

(** The metrics have at most 64 project series of their own: whatever names
    arrive, a label is the trimmed name itself, "other" or "unknown"; a name
    that once had its own label always has it; and a name gets "other" only if
    it is no plausible name or 64 others have a series. *)
Theorem project_labels_bounded {St : Type} `{!SetOps St bytes} `{!SetLaws St bytes} (names : list bytes) (name : bytes) :
  let seen := foldl (fun s n => (label n s).2) s_new names in
  let '(l, folded, seen') := label name seen in
  (s_len seen' <= maxProjectLabels)%nat /\ (l = trimSpace name \/ l = otherProject /\ folded = true \/ l = unknownProject /\ trimSpace name = []) /\
  (forall more, folded = false -> trimSpace name <> [] -> (label name (foldl (fun s n => (label n s).2) seen' more)).1 = (trimSpace name, false)) /\
  (folded = true -> plausibleProjectName (trimSpace name) = false \/ s_len seen = maxProjectLabels).
Proof.
  assert (Hlen : forall n (s : St), (s_len s <= maxProjectLabels)%nat -> (s_len (label n s).2 <= maxProjectLabels)%nat).
  { intros n s Hs. unfold label. destruct (bytes_eqb _ _); [done|]. destruct (negb _); [done|]. destruct (s_contains s (trimSpace n)) eqn:Ec; [done|].
    destruct (Nat.leb_spec maxProjectLabels (s_len s)); [done|]. cbn [snd]. rewrite len_add by done. lia. }
  assert (Hall : forall names (s : St), (s_len s <= maxProjectLabels)%nat -> (s_len (foldl (fun s n => (label n s).2) s names) <= maxProjectLabels)%nat).
  { clear names. induction names as [|n names IH]; intros s Hs; [done|]. cbn [foldl]. apply IH. by apply Hlen. }
  assert (Hkeep : forall more (s : St) x, s_contains s x = true -> s_contains (foldl (fun s n => (label n s).2) s more) x = true).
  { induction more as [|n more IH]; intros s x Hx; [done|]. cbn [foldl]. apply IH. unfold label. destruct (bytes_eqb _ _); [done|]. destruct (negb _); [done|].
    destruct (s_contains s (trimSpace n)); [done|]. destruct (_ <=? _)%nat; [done|]. cbn [snd]. rewrite contains_add, Hx. apply orb_true_r. }
  cbv zeta. set (seen := foldl _ s_new names). assert (Hs : (s_len seen <= maxProjectLabels)%nat).
  { apply Hall. rewrite len_values. destruct (s_values s_new) as [|x l] eqn:E; [apply Nat.le_0_l|]. assert (Hx : x ∈ s_values (s_new (S := St))) by (rewrite E; apply list_elem_of_here).
    apply elem_of_values in Hx. by rewrite contains_new in Hx. }
  pose proof (Hlen name seen Hs) as Hl. destruct (label name seen) as [[l folded] seen'] eqn:El. cbn [snd] in Hl. unfold label in El.
  destruct (bytes_eqb (trimSpace name) []) eqn:E1; [injection El as <- <- <-; apply bytes_eqb_eq in E1; split_and!; try done; auto|].
  destruct (plausibleProjectName (trimSpace name)) eqn:E2; cbn [negb] in El; [|injection El as <- <- <-; split_and!; try done; auto].
  assert (Hagain : forall s : St, s_contains s (trimSpace name) = true -> (label name s).1 = (trimSpace name, false)).
  { intros s Hc. unfold label. by rewrite E1, E2, Hc. }
  destruct (s_contains seen (trimSpace name)) eqn:E3; [injection El as <- <- <-; split_and!; try done; [by left|intros; by apply Hagain, Hkeep]|].
  destruct (Nat.leb_spec maxProjectLabels (s_len seen)) as [Hge|Hlt]; injection El as <- <- <-; split_and!; try done; [auto|intros _; right; lia|by left|].
  intros more _ _. apply Hagain, Hkeep. by rewrite contains_add, bool_decide_true.
Qed.

(** ** A concrete history *)

Definition demoObs (h : Z) (go : string) (content : string) : observation :=
  Observation (gbciKeyPrefix ++ hex_encode (replicate 32 h)) {[str "pkg" := str "net/http"; str "target" := str "linux/amd64"; str "go-version" := str go; str "content-id" := str content]}
    true (str "proj") 1700000000.

(** The memory controller shrinks the entries and grows them again on the way. *)
Definition demoEvents : list churnEvent :=
  [Moved (demoObs 1 "go1.23" "a"); Budgeted 50000; Moved (demoObs 2 "go1.24" "b"); Moved (demoObs 2 "go1.24" "b"); Budgeted 100000; Moved (demoObs 3 "go1.24" "b")].

Definition demoChurn : churnTracker * exactProjects * list restoreEvent := churn_run 100000 demoEvents.

Lemma churn_panel_exact_witness :
  map (fun ev => (ev_Change ev, ev_Output ev)) demoChurn.2 = [(changeGoVersion, outputChanged); (changeInputs, outputSame)] /\
  dc_Restores (churn_snapshot demoChurn.1.1) = 2 /\ Forall (fun ev => ev_Change ev <> changeTarget) demoChurn.2.
Proof.
  split; [vm_compute; reflexivity|]. split; [vm_compute; reflexivity|].
  pose proof (churn_panel_exact 100000 demoEvents) as H. fold demoChurn in H. destruct demoChurn as [[c e] log]. apply H.
  repeat constructor; (apply (bool_decide_eq_true_1 (_ ∉ _)); vm_compute; reflexivity).
Defined.

(** A package name with a NUL byte, which the JSON of a batch may carry, makes
    two pairs of package and target one key. *)
Definition nulObs (h : Z) (pkg target : bytes) : observation :=
  Observation (gbciKeyPrefix ++ hex_encode (replicate 32 h)) {[str "pkg" := pkg; str "target" := target]} true (str "proj") 1700000000.

Example nul_target_change :
  map ev_Change (churn_run 100000 [Moved (nulObs 1 (str "a" ++ 0 :: str "b") (str "c")); Moved (nulObs 2 (str "a") (str "b" ++ 0 :: str "c"))]).2 = [changeTarget].
Proof. vm_compute. reflexivity. Qed.
