(* ===== verification/Counter.v ===== *)
(** * The client's lock-free counters

    [cacheclient/counter.go].  A latency tracker and the tracker of connections
    in use are updated by many goroutines with nothing but atomic operations:
    plain additions, and loops that load a register and compare-and-swap it
    until the new value is in or no longer better.  [lat_step] and [conc_step]
    let one goroutine do one atomic operation.

    The averages of a snapshot and the text of durations are left out. *)

From Stdlib Require Import ZArith Lia List Bool String.
From stdpp Require Import base list relations.
From S2P Require Import Prelude Strconv.

(** ** Plain counters *)

(** [AtomicCounter]: [Decrement] adds the complement of zero. *)
Definition ac_Add (delta v : Z) : Z := u32 (v + delta).
Definition ac_Increment (v : Z) : Z := u32 (v + 1).
Definition ac_Decrement (v : Z) : Z := u32 (v + (2 ^ 32 - 1)).

(** [AtomicBytes]. *)
Definition ab_Add (delta v : Z) : Z := u64 (v + delta).

(** [fmtUint]: the loop fills a buffer of twenty digits from its end. *)
Fixpoint fmtUint_loop (fuel : nat) (v : Z) (buf : bytes) : bytes :=
  match fuel with
  | O => buf
  | S fuel => if 0 <? v then fmtUint_loop fuel (v / 10) (u8 (48 + v mod 10) :: buf) else buf
  end.

Definition fmtUint (v : Z) : bytes := if v =? 0 then [48] else fmtUint_loop 20 v [].

(** ** The latency tracker *)

Record LatencyTracker := MkTracker { lt_count : Z; lt_sumUs : Z; lt_minUs : Z; lt_maxUs : Z }.

Definition newTracker : LatencyTracker := MkTracker 0 0 0 0.

Record LatencySnapshot := MkSnapshot { ls_Count : Z; ls_MinUs : Z; ls_MaxUs : Z; ls_SumUs : Z }.

(** [Snapshot]: four loads; other goroutines may work between them. *)
Definition Snapshot (t1 t2 t3 t4 : LatencyTracker) : LatencySnapshot := MkSnapshot (lt_count t1) (lt_minUs t3) (lt_maxUs t4) (lt_sumUs t2).

(** What an update does to each register.  [Record] and [Merge] run the same
    operations on them. *)
Record latOp := LatOp { o_count : Z; o_sum : Z; o_min : Z; o_max : Z }.

(** [Record]: any measurement took at least a microsecond. *)
Definition Record_op (d : Z) : latOp :=
  let us := u64 (Z.quot d 1000) in
  let us := if us =? 0 then 1 else us in
  LatOp 1 us us us.

Definition Merge_op (s : LatencySnapshot) : option latOp :=
  if ls_Count s =? 0 then None else Some (LatOp (ls_Count s) (ls_SumUs s) (ls_MinUs s) (ls_MaxUs s)).

(** The atomic operation a goroutine does next. *)
Inductive latPc := PCount | PSum | PMinLoad | PMinCas (cur : Z) | PMaxLoad | PMaxCas (cur : Z) | PDone.

#[export] Instance latPc_eq_dec : EqDecision latPc.
Proof. solve_decision. Defined.

Definition lat_exec (o : latOp) (pc : latPc) (t : LatencyTracker) : latPc * LatencyTracker :=
  match pc with
  | PCount => (PSum, MkTracker (u64 (lt_count t + o_count o)) (lt_sumUs t) (lt_minUs t) (lt_maxUs t))
  | PSum => (PMinLoad, MkTracker (lt_count t) (u64 (lt_sumUs t + o_sum o)) (lt_minUs t) (lt_maxUs t))
  | PMinLoad => let cur := lt_minUs t in (if negb (cur =? 0) && (cur <=? o_min o) then PMaxLoad else PMinCas cur, t)
  | PMinCas cur =>
      if lt_minUs t =? cur then (PMaxLoad, MkTracker (lt_count t) (lt_sumUs t) (o_min o) (lt_maxUs t)) else (PMinLoad, t)
  | PMaxLoad => let cur := lt_maxUs t in (if o_max o <=? cur then PDone else PMaxCas cur, t)
  | PMaxCas cur =>
      if lt_maxUs t =? cur then (PDone, MkTracker (lt_count t) (lt_sumUs t) (lt_minUs t) (o_max o)) else (PMaxLoad, t)
  | PDone => (PDone, t)
  end.

(** The tracker and the goroutines at work on it. *)
Abbreviation latSystem := (LatencyTracker * list (latOp * latPc))%type.

Inductive lat_step : latSystem -> latSystem -> Prop :=
  | lat_do t ts i o pc pc' t' : ts !! i = Some (o, pc) -> pc <> PDone -> lat_exec o pc t = (pc', t') ->
      lat_step (t, ts) (t', <[i := (o, pc')]> ts).

Definition lat_start (ops : list latOp) : latSystem := (newTracker, map (fun o => (o, PCount)) ops).

(** ** The connections in use *)

Record ConcurrencyTracker := MkConc { ct_inFlight : Z; ct_peak : Z; ct_samples : Z; ct_sumUsage : Z }.

Definition newConc : ConcurrencyTracker := MkConc 0 0 0 0.

(** A goroutine that acquires, works, and releases. *)
Inductive concPc := CAdd | CSamples (n : Z) | CSum (n : Z) | CLoad (n : Z) | CCas (n cur : Z) | CHeld | CDone.

Definition conc_exec (pc : concPc) (t : ConcurrencyTracker) : concPc * ConcurrencyTracker :=
  match pc with
  | CAdd => let n := i64 (ct_inFlight t + 1) in (CSamples n, MkConc n (ct_peak t) (ct_samples t) (ct_sumUsage t))
  | CSamples n => (CSum n, MkConc (ct_inFlight t) (ct_peak t) (u64 (ct_samples t + 1)) (ct_sumUsage t))
  | CSum n => (CLoad n, MkConc (ct_inFlight t) (ct_peak t) (ct_samples t) (u64 (ct_sumUsage t + u64 n)))
  | CLoad n => let cur := ct_peak t in (if n <=? cur then CHeld else CCas n cur, t)
  | CCas n cur =>
      if ct_peak t =? cur then (CHeld, MkConc (ct_inFlight t) n (ct_samples t) (ct_sumUsage t)) else (CLoad n, t)
  | CHeld => (CDone, MkConc (i64 (ct_inFlight t - 1)) (ct_peak t) (ct_samples t) (ct_sumUsage t))
  | CDone => (CDone, t)
  end.

(** The tracker, the goroutines, and the most that were ever in flight at once. *)
Record concSystem := ConcSystem { cs_t : ConcurrencyTracker; cs_pcs : list concPc; cs_high : Z }.

(** A goroutine that has added itself and not yet taken itself off. *)
Definition holding (pc : concPc) : bool := match pc with CAdd | CDone => false | _ => true end.

Definition holders (pcs : list concPc) : Z := Z.of_nat (length (List.filter holding pcs)).

Inductive conc_step : concSystem -> concSystem -> Prop :=
  | conc_do s i pc pc' t' : cs_pcs s !! i = Some pc -> pc <> CDone -> conc_exec pc (cs_t s) = (pc', t') ->
      conc_step s (ConcSystem t' (<[i := pc']> (cs_pcs s)) (Z.max (cs_high s) (holders (<[i := pc']> (cs_pcs s)))))
  | conc_spawn s : conc_step s (ConcSystem (cs_t s) (cs_pcs s ++ [CAdd]) (cs_high s)).

Definition conc_start : concSystem := ConcSystem newConc [] 0.

(** ** Sums over the goroutines *)

Lemma sum_insert_lt {A} (w w' : A -> nat) (l : list A) : forall i x x', l !! i = Some x ->
  (forall y, y ∈ l -> (w' y <= w y)%nat) -> (w' x' < w x)%nat -> (sum_list_with w' (<[i := x']> l) < sum_list_with w l)%nat.
Proof.
  induction l as [|y l IH]; intros i x x' Hi Hle Hlt; [done|].
  assert (Hy : (w' y <= w y)%nat) by (apply Hle, list_elem_of_here).
  assert (Hl : forall z, z ∈ l -> (w' z <= w z)%nat) by (intros; apply Hle; by apply list_elem_of_further).
  destruct i as [|i].
  - injection Hi as ->. change (<[0%nat := x']> (x :: l)) with (x' :: l). cbn [sum_list_with]. assert (sum_list_with w' l <= sum_list_with w l)%nat; [|lia].
    clear -Hl. induction l as [|z l IH]; [done|]. cbn [sum_list_with]. specialize (IH ltac:(intros; apply Hl; by apply list_elem_of_further)).
    specialize (Hl z ltac:(apply list_elem_of_here)). lia.
  - specialize (IH i x x' Hi Hl Hlt). change (<[S i := x']> (y :: l)) with (y :: <[i := x']> l). cbn [sum_list_with]. lia.
Qed.

Definition tally {A} (f : A -> Z) (l : list A) : Z := foldr (fun x n => f x + n) 0 l.

Lemma tally_insert {A} (f : A -> Z) (l : list A) : forall i x x', l !! i = Some x -> tally f (<[i := x']> l) = tally f l - f x + f x'.
Proof.
  induction l as [|y l IH]; intros i x x' Hi; [done|]. destruct i as [|i].
  - injection Hi as ->. change (<[0%nat := x']> (x :: l)) with (x' :: l). cbn [tally foldr]. lia.
  - change (<[S i := x']> (y :: l)) with (y :: <[i := x']> l). cbn [tally foldr]. fold (tally f (<[i := x']> l)) (tally f l). rewrite (IH i x x' Hi). lia.
Qed.

Lemma tally_ext {A} (f g : A -> Z) (l : list A) : Forall (fun x => f x = g x) l -> tally f l = tally g l.
Proof. induction 1 as [|x l Hx _ IH]; [done|]. cbn. fold (tally f l) (tally g l). lia. Qed.

Lemma tally_map {A B} (f : B -> Z) (g : A -> B) (l : list A) : tally f (map g l) = tally (fun x => f (g x)) l.
Proof. induction l as [|x l IH]; [done|]. cbn. fold (tally f (map g l)). by rewrite IH. Qed.

Lemma u64_add_l a b : u64 (u64 a + b) = u64 (a + b).
Proof. unfold u64. by rewrite Zplus_mod_idemp_l. Qed.

(** ** Recording is exact *)

Definition past_count (pc : latPc) : bool := match pc with PCount => false | _ => true end.
Definition past_sum (pc : latPc) : bool := match pc with PCount | PSum => false | _ => true end.
Definition past_min (pc : latPc) : bool := match pc with PMaxLoad | PMaxCas _ | PDone => true | _ => false end.
Definition past_max (pc : latPc) : bool := match pc with PDone => true | _ => false end.

Definition thread_ok (t : LatencyTracker) (th : latOp * latPc) : Prop :=
  let '(o, pc) := th in
  (past_min pc = true -> lt_minUs t <> 0 /\ lt_minUs t <= o_min o) /\ (past_max pc = true -> o_max o <= lt_maxUs t) /\
  match pc with PMinCas cur => cur = 0 \/ o_min o < cur | PMaxCas cur => cur < o_max o | _ => True end.

Record lat_inv (ops : list latOp) (s : latSystem) : Prop := {
  li_ops : map fst s.2 = ops;
  li_count : lt_count s.1 = u64 (tally (fun th => if past_count th.2 then o_count th.1 else 0) s.2);
  li_sum : lt_sumUs s.1 = u64 (tally (fun th => if past_sum th.2 then o_sum th.1 else 0) s.2);
  li_min : lt_minUs s.1 = 0 \/ lt_minUs s.1 ∈ map o_min ops;
  li_max : lt_maxUs s.1 = 0 \/ lt_maxUs s.1 ∈ map o_max ops;
  li_threads : Forall (thread_ok s.1) s.2
}.

(** The registers only get better. *)
Definition better (t t' : LatencyTracker) : Prop :=
  (lt_minUs t <> 0 -> lt_minUs t' <> 0 /\ lt_minUs t' <= lt_minUs t) /\ lt_maxUs t <= lt_maxUs t'.

Lemma thread_ok_better t t' th : better t t' -> thread_ok t th -> thread_ok t' th.
Proof.
  destruct th as [o pc]. intros [Hmin Hmax] (H1 & H2 & H3). split_and!; [| |done].
  - intros Hp. destruct (H1 Hp) as [Hz Hle]. specialize (Hmin Hz). lia.
  - intros Hp. specialize (H2 Hp). lia.
Qed.

(** One atomic operation: what it does to the registers, and what its goroutine
    knows afterwards. *)
Lemma exec_ok o pc t pc' t' : 0 < o_min o -> thread_ok t (o, pc) -> lat_exec o pc t = (pc', t') ->
  better t t' /\ thread_ok t' (o, pc') /\
  (lt_minUs t' = lt_minUs t \/ lt_minUs t' = o_min o) /\ (lt_maxUs t' = lt_maxUs t \/ lt_maxUs t' = o_max o) /\
  lt_count t' = (if past_count pc then lt_count t else u64 (lt_count t + o_count o)) /\
  lt_sumUs t' = (if past_count pc && negb (past_sum pc) then u64 (lt_sumUs t + o_sum o) else lt_sumUs t) /\
  (pc <> PDone -> past_count pc' = true /\ past_sum pc' = past_count pc).
Proof.
  intros Hpos (H1 & H2 & H3) He. unfold better, thread_ok. destruct pc as [| | |cur| |cur|]; cbn in *; repeat case_in He; injection He as <- <-; bool2prop; cbn in *;
    split_and!; try done; try lia; try (by left); try (by right); intros; split_and!; try done; try lia;
    try (destruct H1; [done|]; lia).
  all: try (match goal with H : (_ && _)%bool = false |- _ => apply andb_false_iff in H as [H|H] end; bool2prop; lia).
Qed.

(** What [Record] passes, and [Merge] of a snapshot no [Record] was running beside. *)
Definition real_ops (ops : list latOp) : Prop := Forall (fun o => 0 < o_min o /\ 0 < o_max o) ops.

Lemma lat_inv_start ops : real_ops ops -> lat_inv ops (lat_start ops).
Proof.
  intros _. assert (Hz : forall (f : latOp * latPc -> Z), (forall o, f (o, PCount) = 0) -> tally f (map (fun o => (o, PCount)) ops) = 0).
  { intros f Hf. rewrite tally_map. induction ops as [|o ops' IH]; [done|]. cbn. fold (tally (fun x => f (x, PCount)) ops'). rewrite IH, Hf. done. }
  constructor; unfold lat_start; cbn [fst snd newTracker lt_count lt_sumUs lt_minUs lt_maxUs]; try (by left); try (by rewrite Hz).
  - rewrite map_map. apply map_id.
  - apply Forall_map, Forall_true. intros o. done.
Qed.

Lemma lat_inv_step ops s s' : real_ops ops -> lat_inv ops s -> lat_step s s' -> lat_inv ops s'.
Proof.
  intros Hr [Ho Hc Hs Hmi Hma Ht] Hst. destruct Hst as [t ts i o pc pc' t' Hi Hne He]. cbn [fst snd] in *.
  assert (Hin : o ∈ ops) by (rewrite <- Ho; apply (list_elem_of_fmap_2 fst _ (o, pc)); by apply list_elem_of_lookup_2 in Hi).
  unfold real_ops in Hr. rewrite Forall_forall in Hr. destruct (Hr o Hin) as [Hpos _].
  assert (Hth : thread_ok t (o, pc)) by (rewrite Forall_lookup in Ht; by apply (Ht i)).
  destruct (exec_ok _ _ _ _ _ Hpos Hth He) as (Hb & Hok & Hmin & Hmax & Hcnt & Hsum & Hpast). destruct (Hpast Hne) as [Hp1 Hp2].
  constructor; cbn [fst snd].
  - rewrite <- Ho. change (fst <$> <[i := (o, pc')]> ts = fst <$> ts). rewrite list_fmap_insert. apply list_insert_id. rewrite list_lookup_fmap, Hi. done.
  - rewrite (tally_insert _ ts i (o, pc) _ Hi). cbn [fst snd]. rewrite Hcnt, Hp1, Hc. destruct (past_count pc); [f_equal; lia|].
    rewrite u64_add_l. f_equal. lia.
  - rewrite (tally_insert _ ts i (o, pc) _ Hi). cbn [fst snd]. rewrite Hsum, Hp2, Hs.
    destruct pc; cbn [past_count past_sum andb negb]; try (f_equal; lia). rewrite u64_add_l. f_equal. lia.
  - destruct Hmin as [->| ->]; [done|]. right. apply (list_elem_of_fmap_2 o_min). done.
  - destruct Hmax as [->| ->]; [done|]. right. apply (list_elem_of_fmap_2 o_max). done.
  - apply Forall_insert; [|done]. eapply Forall_impl; [exact Ht|]. intros th. by apply thread_ok_better.
Qed.

(** What the tracker shows when the last goroutine is done. *)
Definition exact_stats (ops : list latOp) (t : LatencyTracker) : Prop :=
  lt_count t = u64 (tally o_count ops) /\ lt_sumUs t = u64 (tally o_sum ops) /\
  (ops <> [] -> lt_minUs t ∈ map o_min ops /\ lt_maxUs t ∈ map o_max ops) /\
  Forall (fun o => lt_minUs t <= o_min o /\ o_max o <= lt_maxUs t) ops.

Lemma lat_done ops s : real_ops ops -> lat_inv ops s -> Forall (fun th => th.2 = PDone) s.2 -> exact_stats ops s.1.
Proof.
  intros Hr [Ho Hc Hs Hmi Hma Ht] Hd. destruct s as [t ts]. cbn [fst snd] in *.
  assert (Hall : Forall (fun o => lt_minUs t <> 0 /\ lt_minUs t <= o_min o /\ o_max o <= lt_maxUs t) ops).
  { rewrite <- Ho. apply Forall_map. rewrite Forall_forall in Hd, Ht |- *. intros [o pc] Hin. specialize (Hd _ Hin). cbn in Hd. subst pc.
    destruct (Ht _ Hin) as (H1 & H2 & _). specialize (H1 eq_refl). specialize (H2 eq_refl). unfold compose. cbn. lia. }
  assert (Htal : forall f (p : latPc -> bool), p PDone = true -> tally (fun th => if p th.2 then f th.1 else 0) ts = tally f ops).
  { intros f p Hp. rewrite <- Ho, tally_map. apply tally_ext. eapply Forall_impl; [exact Hd|]. intros th E. cbn. by rewrite E, Hp. }
  split_and!.
  - by rewrite Hc, (Htal o_count past_count).
  - by rewrite Hs, (Htal o_sum past_sum).
  - intros Hne. destruct ops as [|o ops]; [done|]. apply Forall_cons in Hall as [Ha _]. apply Forall_cons in Hr as [Hro _].
    destruct Hmi as [Hmi|Hmi]; [lia|]. destruct Hma as [Hma|Hma]; [lia|]. done.
  - eapply Forall_impl; [exact Hall|]. intros o. cbn. tauto.
Qed.

(** ** Every schedule ends *)

Definition not_past (p : latPc -> bool) (ts : list (latOp * latPc)) : nat := sum_list_with (fun th => if p th.2 then 0 else 1)%nat ts.

(** A compare-and-swap that will fail weighs more than one that will succeed by
    what a success of another goroutine takes off everybody. *)
Definition weight (n a b : nat) (t : LatencyTracker) (th : latOp * latPc) : nat :=
  match th.2 with
  | PDone => 0
  | PMaxCas cur => 2 * b + if (lt_maxUs t =? cur)%Z then 0 else 2
  | PMaxLoad => 2 * b + 1
  | PMinCas cur => 2 * n + 3 + 2 * a + if (lt_minUs t =? cur)%Z then 0 else 2
  | PMinLoad => 2 * n + 3 + 2 * a + 1
  | PSum => 4 * n + 7
  | PCount => 4 * n + 8
  end%nat.

Definition lat_measure (s : latSystem) : nat :=
  sum_list_with (weight (length s.2) (not_past past_min s.2) (not_past past_max s.2) s.1) s.2.

Lemma not_past_insert p ts : forall i th th', ts !! i = Some th ->
  (not_past p (<[i := th']> ts) + (if p th.2 then 0 else 1) = not_past p ts + (if p th'.2 then 0 else 1))%nat.
Proof.
  induction ts as [|x ts IH]; intros i th th' Hi; [done|]. destruct i as [|i].
  - injection Hi as ->. change (<[0%nat := th']> (th :: ts)) with (th' :: ts). unfold not_past. cbn [sum_list_with]. lia.
  - change (<[S i := th']> (x :: ts)) with (x :: <[i := th']> ts). specialize (IH i th th' Hi). unfold not_past in *. cbn [sum_list_with]. lia.
Qed.

Lemma not_past_le p ts : (not_past p ts <= length ts)%nat.
Proof. unfold not_past. induction ts as [|x ts IH]; cbn [sum_list_with length]; [lia|]. case_match; lia. Qed.

Lemma not_past_pos p ts i th : ts !! i = Some th -> p th.2 = false -> (1 <= not_past p ts)%nat.
Proof.
  revert i. induction ts as [|x ts IH]; intros i Hi Hp; [done|]. unfold not_past in *. cbn [sum_list_with].
  destruct i as [|i]; [injection Hi as ->; rewrite Hp; lia|]. specialize (IH i Hi Hp). lia.
Qed.

(** The operation takes off its own goroutine's weight, and adds to no other's. *)
Lemma exec_weight n a b a' b' o pc t pc' t' : pc <> PDone -> thread_ok t (o, pc) -> 0 < o_min o -> lat_exec o pc t = (pc', t') ->
  (a' + (if past_min pc then 0 else 1) = a + (if past_min pc' then 0 else 1))%nat ->
  (b' + (if past_max pc then 0 else 1) = b + (if past_max pc' then 0 else 1))%nat -> (a <= n)%nat -> (b <= n)%nat ->
  (weight n a' b' t' (o, pc') < weight n a b t (o, pc))%nat /\
  forall th, (weight n a' b' t' th <= weight n a b t th)%nat.
Proof.
  intros Hne Hok Hpos He Ha Hb Han Hbn. unfold weight. cbn [snd].
  destruct pc as [| | |cur| |cur|]; cbn in He; repeat case_in He; injection He as <- <-; bool2prop; cbn in Ha, Hb |- *; rewrite ?Z.eqb_refl; split;
    try lia; try (intros [? []]; cbn; repeat case_match; lia); done.
Qed.

Lemma lat_decreases ops s s' : real_ops ops -> lat_inv ops s -> lat_step s s' -> (lat_measure s' < lat_measure s)%nat.
Proof.
  intros Hr Hinv Hst. pose proof (li_threads _ _ Hinv) as Ht. pose proof (li_ops _ _ Hinv) as Ho.
  destruct Hst as [t ts i o pc pc' t' Hi Hne He]. cbn [fst snd] in *.
  assert (Hin : o ∈ ops) by (rewrite <- Ho; apply (list_elem_of_fmap_2 fst _ (o, pc)); by apply list_elem_of_lookup_2 in Hi).
  unfold real_ops in Hr. rewrite Forall_forall in Hr. destruct (Hr o Hin) as [Hpos _].
  assert (Hth : thread_ok t (o, pc)) by (rewrite Forall_lookup in Ht; by apply (Ht i)).
  unfold lat_measure. cbn [fst snd]. rewrite length_insert.
  destruct (exec_weight (length ts) (not_past past_min ts) (not_past past_max ts) (not_past past_min (<[i := (o, pc')]> ts))
    (not_past past_max (<[i := (o, pc')]> ts)) o pc t pc' t' Hne Hth Hpos He) as [Hlt Hle];
    [exact (not_past_insert past_min ts i (o, pc) (o, pc') Hi)|exact (not_past_insert past_max ts i (o, pc) (o, pc') Hi)
    |apply not_past_le|apply not_past_le|].
  by eapply sum_insert_lt.
Qed.

Lemma lat_stuck s : (forall s', ~ lat_step s s') -> Forall (fun th => th.2 = PDone) s.2.
Proof.
  intros Hno. destruct s as [t ts]. apply Forall_lookup. intros i [o pc] Hi. cbn.
  destruct (decide (pc = PDone)) as [->|Hne]; [done|]. destruct (lat_exec o pc t) as [pc' t'] eqn:E. by destruct (Hno _ (lat_do _ _ _ _ _ _ _ Hi Hne E)).
Qed.

Lemma lat_run ops k s : real_ops ops -> nsteps lat_step k (lat_start ops) s -> lat_inv ops s /\ (k + lat_measure s <= lat_measure (lat_start ops))%nat.
Proof.
  intros Hr. revert s. induction k as [|k IH]; intros s Hs.
  - inversion Hs; subst. split; [by apply lat_inv_start|lia].
  - apply nsteps_inv_r in Hs as (s1 & Hk & Hst). destruct (IH _ Hk) as [Hi Hm]. split; [by eapply lat_inv_step|].
    pose proof (lat_decreases ops s1 s Hr Hi Hst). lia.
Qed.

Lemma measure_start ops : lat_measure (lat_start ops) = (length ops * (4 * length ops + 8))%nat.
Proof.
  unfold lat_measure, lat_start. cbn [fst snd]. rewrite length_map.
  generalize (not_past past_min (map (fun o => (o, PCount)) ops)) as a, (not_past past_max (map (fun o => (o, PCount)) ops)) as b, (length ops) at 1 3 as n.
  intros a b n. induction ops as [|o ops IH]; [done|]. cbn [map sum_list_with length]. rewrite IH. cbn [weight snd]. lia.
Qed.

(** C23. Measurements recorded and snapshots merged at the same time from any number of goroutines end and leave the exact statistics.  Under every
    schedule of their atomic operations at most [n (4 n + 8)] of them are done, so
    no compare-and-swap loop spins forever; and when none is left, the count and
    the sum are those of all updates, and the minimum and the maximum are the
    least and the greatest of theirs. *)
Theorem latency_exact ops k s : real_ops ops -> nsteps lat_step k (lat_start ops) s ->
  (k <= length ops * (4 * length ops + 8))%nat /\ ((forall s', ~ lat_step s s') -> exact_stats ops s.1).
Proof.
  intros Hr Hk. destruct (lat_run ops k s Hr Hk) as [Hi Hm]. rewrite measure_start in Hm. split; [lia|].
  intros Hno. apply lat_done; [done|done|]. by apply lat_stuck.
Qed.

(** A recorded duration is at least a microsecond. *)
Lemma record_real ds : real_ops (map Record_op ds).
Proof.
  apply Forall_map, Forall_true. intros d. unfold compose, Record_op. cbn. pose proof (u64_range (Z.quot d 1000)) as Hu. unfold is_u64 in Hu.
  destruct (Z.eqb_spec (u64 (Z.quot d 1000)) 0); lia.
Qed.

(** ** The peak is the most that were ever in flight *)

(** The count a goroutine still has to compare with the peak. *)
Definition pending (pc : concPc) : option Z :=
  match pc with CSamples n | CSum n | CLoad n | CCas n _ => Some n | _ => None end.

Record conc_inv (s : concSystem) : Prop := {
  ci_flight : ct_inFlight (cs_t s) = holders (cs_pcs s);
  ci_holders : holders (cs_pcs s) <= cs_high s;
  ci_peak : ct_peak (cs_t s) <= cs_high s;
  ci_high : cs_high s = ct_peak (cs_t s) \/ exists pc, pc ∈ cs_pcs s /\ pending pc = Some (cs_high s);
  ci_pending : Forall (fun pc => (forall n, pending pc = Some n -> n <= cs_high s) /\ match pc with CCas n cur => cur < n | _ => True end) (cs_pcs s)
}.

Lemma holders_insert pcs : forall i pc pc', pcs !! i = Some pc ->
  holders (<[i := pc']> pcs) = holders pcs - (if holding pc then 1 else 0) + (if holding pc' then 1 else 0).
Proof.
  unfold holders. induction pcs as [|x pcs IH]; intros i pc pc' Hi; [done|]. destruct i as [|i].
  - injection Hi as ->. change (<[0%nat := pc']> (pc :: pcs)) with (pc' :: pcs). cbn [List.filter]. destruct (holding pc), (holding pc'); cbn [length]; lia.
  - change (<[S i := pc']> (x :: pcs)) with (x :: <[i := pc']> pcs). specialize (IH i pc pc' Hi). cbn [List.filter]. destruct (holding x); cbn [length]; lia.
Qed.

Lemma holders_range pcs : 0 <= holders pcs <= Z.of_nat (length pcs).
Proof. unfold holders. pose proof (List.filter_length_le holding pcs). lia. Qed.

Lemma elem_of_insert_other {A} (l : list A) i x x' y : l !! i = Some x -> y ∈ l -> y = x \/ y ∈ <[i := x']> l.
Proof.
  intros Hi [j Hj]%list_elem_of_lookup_1. destruct (decide (i = j)) as [->|Hne]; [left; congruence|right].
  apply (list_elem_of_lookup_2 _ j). by rewrite list_lookup_insert_ne.
Qed.

(** One atomic operation, seen from the rest: the count in flight follows the
    goroutines, and a peak that is not yet recorded is still pending. *)
Lemma conc_exec_ok pc t pc' t' high : pc <> CDone -> conc_exec pc t = (pc', t') -> 0 <= ct_inFlight t < 2 ^ 63 - 1 -> ct_inFlight t <= high ->
  (holding pc = true -> 1 <= ct_inFlight t) -> (forall n, pending pc = Some n -> n <= high) ->
  match pc with CCas n cur => cur < n | _ => True end -> ct_peak t <= high ->
  let f := ct_inFlight t - (if holding pc then 1 else 0) + (if holding pc' then 1 else 0) in
  ct_inFlight t' = f /\ ct_peak t <= ct_peak t' <= high /\
  (forall n, pending pc' = Some n -> n <= Z.max high f) /\ match pc' with CCas n cur => cur < n | _ => True end /\
  (high < f -> pending pc' = Some f) /\ (pending pc = Some high -> pending pc' = Some high \/ ct_peak t' = high).
Proof.
  intros Hne He Hf Hh Hp Hn Hc Hpk.
  assert (Hi : i64 (ct_inFlight t + 1) = ct_inFlight t + 1) by (apply i64_small; lia).
  assert (Hd : i64 (ct_inFlight t - 1) = ct_inFlight t - 1) by (apply i64_small; lia).
  destruct pc as [|n|n|n|n cur| |]; cbn in *; repeat case_in He; injection He as <- <-; bool2prop; cbn; rewrite ?Hi, ?Hd;
    try (specialize (Hp eq_refl)); try (specialize (Hn _ eq_refl)); split_and!; try done; try lia; try (intros; simplify_eq; (done || lia || (by left) || (right; lia))).
  intros. f_equal. lia.
Qed.

Lemma conc_inv_step s s' : Z.of_nat (length (cs_pcs s')) < 2 ^ 63 - 1 -> conc_inv s -> conc_step s s' -> conc_inv s'.
Proof.
  intros Hlen [Hf Hh Hp Hi Hpend] Hst. destruct Hst as [s i pc pc' t' Hl Hne He|s].
  - cbn [cs_pcs] in Hlen. rewrite length_insert in Hlen. pose proof (holders_range (cs_pcs s)) as Hr. pose proof (holders_insert _ i pc pc' Hl) as Hins.
    pose proof (holders_range (<[i := pc']> (cs_pcs s))) as Hr'. rewrite Forall_forall in Hpend.
    destruct (Hpend pc) as [Hpn Hpc]; [by apply list_elem_of_lookup_2 in Hl|].
    assert (Hhold : holding pc = true -> 1 <= ct_inFlight (cs_t s)).
    { intros E. rewrite Hf. pose proof (holders_insert _ i pc CDone Hl) as Hx. rewrite E in Hx. cbn in Hx.
      pose proof (holders_range (<[i := CDone]> (cs_pcs s))). lia. }
    destruct (conc_exec_ok pc (cs_t s) pc' t' (cs_high s) Hne He) as (Hf' & Hpk & Hn' & Hc' & Hnew & Hkeep); try done; try lia.
    rewrite Hf, <- Hins in *. constructor; cbn [cs_t cs_pcs cs_high]; try done; try lia.
    + destruct (Z.le_gt_cases (holders (<[i := pc']> (cs_pcs s))) (cs_high s)) as [Hle|Hgt].
      * rewrite Z.max_l by lia. destruct Hi as [Hi|(q & Hq & Hqp)]; [left; lia|].
        destruct (elem_of_insert_other _ i pc pc' q Hl Hq) as [->|Hq']; [|right; eauto].
        destruct (Hkeep Hqp) as [Hk|Hk]; [right|left; done]. exists pc'. split; [|done]. apply (list_elem_of_lookup_2 _ i). apply list_lookup_insert_eq. by apply lookup_lt_Some in Hl.
      * rewrite Z.max_r by lia. right. exists pc'. split; [|by apply Hnew]. apply (list_elem_of_lookup_2 _ i). apply list_lookup_insert_eq. by apply lookup_lt_Some in Hl.
    + apply Forall_insert; [|split; [done|done]]. apply Forall_forall. intros q Hq. destruct (Hpend q Hq) as [Hq1 Hq2]. split; [|done].
      intros n En. specialize (Hq1 n En). lia.
  - assert (holders (cs_pcs s ++ [CAdd]) = holders (cs_pcs s)) as Ha by (unfold holders; rewrite List.filter_app, length_app; cbn; lia).
    constructor; cbn [cs_t cs_pcs cs_high]; rewrite ?Ha; try done.
    + destruct Hi as [Hi|(q & Hq & Hqp)]; [by left|right]. exists q. split; [|done]. apply elem_of_app. by left.
    + apply Forall_app. split; [done|]. repeat constructor. intros n En. discriminate En.
Qed.

Lemma conc_reach s : rtc conc_step conc_start s -> Z.of_nat (length (cs_pcs s)) < 2 ^ 63 - 1 -> conc_inv s.
Proof.
  revert s. refine (rtc_ind_r (fun s => _ -> conc_inv s) conc_start _ _).
  - intros _. constructor; cbn; try done; by left.
  - intros s s1 _ Hst IH Hlen. eapply conc_inv_step; [done| |done]. apply IH. eapply Z.le_lt_trans; [|exact Hlen].
    destruct Hst; cbn [cs_pcs]; rewrite ?length_insert, ?length_app; lia.
Qed.

(** The peak the pool reports is the true one.  Whatever goroutines start, acquire and release, and however their
    atomic operations interleave: the count in flight is the number of
    goroutines that hold a connection, the recorded peak never exceeds the most
    that ever held one at once, and as soon as no acquisition is half done it is
    exactly that number. *)
Theorem pool_peak_exact s : rtc conc_step conc_start s -> Z.of_nat (length (cs_pcs s)) < 2 ^ 63 - 1 ->
  ct_inFlight (cs_t s) = holders (cs_pcs s) /\ ct_peak (cs_t s) <= cs_high s /\
  (Forall (fun pc => pending pc = None) (cs_pcs s) -> ct_peak (cs_t s) = cs_high s).
Proof.
  intros Hs Hlen. assert (Hinv : conc_inv s) by by apply conc_reach.
  destruct Hinv as [Hf _ Hp Hi _]. split; [done|]. split; [done|]. intros Hno. destruct Hi as [Hi|(q & Hq & Hqp)]; [done|].
  rewrite Forall_forall in Hno. by rewrite Hno in Hqp.
Qed.

(** ** Decimal text *)

(** [fmtUint] writes what [strconv] writes. *)
Theorem fmtUint_formatUint v : 0 <= v < 2 ^ 64 -> fmtUint v = formatUint v.
Proof.
  intros Hv. unfold fmtUint, formatUint.
  assert (Hloop : forall fuel v buf, 0 < v < 10 ^ Z.of_nat fuel -> fmtUint_loop fuel v buf = dec_digits fuel v buf).
  { clear. induction fuel as [|fuel IH]; intros v buf Hv; [cbn in Hv; lia|]. cbn [fmtUint_loop dec_digits]. cbv zeta.
    pose proof (Z.mod_pos_bound v 10 ltac:(lia)). rewrite u8_small by (unfold is_byte; lia).
    destruct (Z.ltb_spec 0 v); [|lia]. destruct (Z.ltb_spec v 10) as [Hs|Hs].
    - rewrite Z.div_small by lia. by destruct fuel.
    - apply IH. rewrite Nat2Z.inj_succ, Z.pow_succ_r in Hv by lia. split; [apply Z.div_str_pos; lia|apply Z.div_lt_upper_bound; lia]. }
  destruct (Z.eqb_spec v 0) as [->|Hne]; [reflexivity|]. apply Hloop. split; [lia|]. eapply Z.lt_trans; [apply Hv|done].
Qed.

(** ** Concrete runs *)

Definition slowFast : list latOp := map Record_op [9000; 3000].

Definition both_done : latSystem := (MkTracker 2 12 3 9, [(LatOp 1 9 9 9, PDone); (LatOp 1 3 3 3, PDone)]).

(** Both load the empty minimum; the slow one swaps first, so the fast one has
    to load again. *)
Lemma contended_run : nsteps lat_step 13 (lat_start slowFast) both_done.
Proof.
  assert (Hgo : forall k t ts i o pc s, ts !! i = Some (o, pc) -> pc <> PDone ->
    nsteps lat_step k ((lat_exec o pc t).2, <[i := (o, (lat_exec o pc t).1)]> ts) s -> nsteps lat_step (S k) (t, ts) s).
  { intros k t ts i o pc s Hi Hne Hn. econstructor; [|exact Hn]. apply (lat_do _ _ _ _ pc); [done|done|by destruct (lat_exec o pc t)]. }
  unfold lat_start, slowFast. cbn [map].
  do 3 (eapply (Hgo _ _ _ 0%nat); [reflexivity|intros E; discriminate E|]; vm_compute).
  do 3 (eapply (Hgo _ _ _ 1%nat); [reflexivity|intros E; discriminate E|]; vm_compute).
  do 3 (eapply (Hgo _ _ _ 0%nat); [reflexivity|intros E; discriminate E|]; vm_compute).
  do 4 (eapply (Hgo _ _ _ 1%nat); [reflexivity|intros E; discriminate E|]; vm_compute).
  vm_compute. constructor.
Qed.

Lemma latency_exact_witness : exact_stats slowFast (MkTracker 2 12 3 9) /\ (13 <= 32)%nat.
Proof.
  destruct (latency_exact slowFast 13 both_done (record_real _) contended_run) as [Hk Hs]. split; [|exact Hk].
  apply Hs. intros s' Hst. inversion Hst as [t ts i o pc pc' t' Hi Hne He]; subst. destruct i as [|[|i]]; cbn in Hi; [by injection Hi as <- <-|by injection Hi as <- <-|discriminate Hi].
Defined.

(** A snapshot taken while a [Record] is between its first addition and its
    minimum has a count and no minimum; merging it clears the minimum the other
    tracker had. *)
Example torn_snapshot_clears_minimum :
  let busy := (lat_exec (Record_op 9000) PCount newTracker).2 in
  exists o, Merge_op (Snapshot busy busy busy busy) = Some o /\
    let t := MkTracker 1 5 5 5 in lt_minUs (lat_exec o (lat_exec o PMinLoad t).1 t).2 = 0.
Proof. eexists. split; reflexivity. Qed.

(** Two goroutines hold a connection at once; one has released it. *)
Definition two_held : concSystem := ConcSystem (MkConc 1 2 2 3) [CDone; CHeld] 2.

Lemma pool_peak_exact_witness : rtc conc_step conc_start two_held /\ ct_peak (cs_t two_held) = cs_high two_held.
Proof.
  assert (Hrun : rtc conc_step conc_start two_held).
  { assert (Hgo : forall s i pc s1, cs_pcs s !! i = Some pc -> pc <> CDone ->
      rtc conc_step (ConcSystem (conc_exec pc (cs_t s)).2 (<[i := (conc_exec pc (cs_t s)).1]> (cs_pcs s))
        (Z.max (cs_high s) (holders (<[i := (conc_exec pc (cs_t s)).1]> (cs_pcs s))))) s1 -> rtc conc_step s s1).
    { intros s i pc s1 Hi Hne Hr. eapply rtc_l; [|exact Hr]. apply (conc_do s i pc); [done|done|by destruct (conc_exec pc (cs_t s))]. }
    do 2 (eapply rtc_l; [apply conc_spawn|]; cbn).
    do 2 (eapply (Hgo _ 0%nat); [reflexivity|intros E; discriminate E|]; vm_compute).
    do 5 (eapply (Hgo _ 1%nat); [reflexivity|intros E; discriminate E|]; vm_compute).
    do 3 (eapply (Hgo _ 0%nat); [reflexivity|intros E; discriminate E|]; vm_compute).
    vm_compute. constructor. }
  split; [exact Hrun|]. apply (pool_peak_exact two_held Hrun); [vm_compute; reflexivity|]. repeat constructor.
Defined.
