(* ===== verification/HashSet.v ===== *)
(** * The client's key sets

    [cacheclient/hashset.go] and [cacheclient/indexkey.go]: a set held as one
    sorted slice with buffered additions and removals, and the prefix-width set
    built on it.  Methods are modelled on a non-nil receiver; the nil receiver
    is the empty set that ignores changes.  [hs_abs] is the set a [hashSet]
    stands for. *)

From Stdlib Require Import ZArith Lia List Bool Sorted.
From stdpp Require Import base gmap list sets.
From S2P Require Import Prelude SortedSlice GoSet Keys Sha256.

Definition compactAt : nat := 512.

Section hashset.
Context {K St : Type} `{!EqDecision K} `{!TotalCmp K} `{!SetOps St K} `{!SetLaws St K}.
Implicit Types (k h : K) (a b d junk : list K).

Record hashSet := HashSet { hs_sorted : list K; hs_pending : St; hs_removed : St }.

Definition newSortedSet : hashSet := HashSet [] s_new s_new.

(** [slices.IsSortedFunc]: no element is less than the one before it. *)
Fixpoint is_sorted (l : list K) : bool :=
  match l with
  | x :: (y :: _) as l' => match cmp y x with Lt => false | _ => is_sorted l' end
  | _ => true
  end.

Definition adoptSorted (keys : list K) : hashSet :=
  let sorted := if is_sorted keys then keys else sort_slice keys in
  HashSet (compact sorted) s_new s_new.

Definition hs_Len (s : hashSet) : Z :=
  Z.of_nat (length (hs_sorted s)) + Z.of_nat (s_len (hs_pending s)) - Z.of_nat (s_len (hs_removed s)).

Definition hs_Contains (s : hashSet) (h : K) : bool :=
  if s_contains (hs_removed s) h then false
  else if s_contains (hs_pending s) h then true
  else binary_search (hs_sorted s) h.

(** The merge loop of [compact]: [arr] is the grown slice, filled from its end. *)
Fixpoint merge_back (fuel : nat) (arr add : list K) (i j w : Z) : list K :=
  match fuel with
  | O => arr
  | S fuel' =>
      if 0 <=? j then
        match add !! Z.to_nat j with
        | None => arr
        | Some y =>
            match (if 0 <=? i then arr !! Z.to_nat i else None) with
            | Some x =>
                match cmp x y with
                | Gt => merge_back fuel' (<[Z.to_nat w := x]> arr) add (i - 1) j (w - 1)
                | _ => merge_back fuel' (<[Z.to_nat w := y]> arr) add i (j - 1) (w - 1)
                end
            | None => merge_back fuel' (<[Z.to_nat w := y]> arr) add i (j - 1) (w - 1)
            end
        end
      else arr
  end.

(** [slices.Grow]: the new tail's contents are unspecified; every cell of it is
    written before it is read, whatever it held ([merge_back_spec]). *)
Definition grow (sorted add : list K) : list K := sorted ++ add.

Definition hs_compact (s : hashSet) : hashSet :=
  let '(sorted, removed) :=
    if (0 <? s_len (hs_removed s))%nat
    then (filter (fun x => s_contains (hs_removed s) x = false) (hs_sorted s), s_new)
    else (hs_sorted s, hs_removed s) in
  if (s_len (hs_pending s) =? 0)%nat then HashSet sorted (hs_pending s) removed
  else
    let add := sort_slice (s_values (hs_pending s)) in
    let n := Z.of_nat (length sorted) in
    let m := Z.of_nat (length add) in
    HashSet (merge_back (length sorted + length add) (grow sorted add) add (n - 1) (m - 1) (n + m - 1))
      s_new removed.

Definition hs_Add (s : hashSet) (h : K) : hashSet :=
  if s_contains (hs_removed s) h then HashSet (hs_sorted s) (hs_pending s) (s_remove h (hs_removed s))
  else if s_contains (hs_pending s) h then s
  else if binary_search (hs_sorted s) h then s
  else
    let s' := HashSet (hs_sorted s) (s_add h (hs_pending s)) (hs_removed s) in
    if (compactAt <=? s_len (hs_pending s'))%nat then hs_compact s' else s'.

Definition hs_Remove (s : hashSet) (h : K) : hashSet :=
  if s_contains (hs_pending s) h then HashSet (hs_sorted s) (s_remove h (hs_pending s)) (hs_removed s)
  else if negb (binary_search (hs_sorted s) h) then s
  else
    let s' := HashSet (hs_sorted s) (hs_pending s) (s_add h (hs_removed s)) in
    if (compactAt <=? s_len (hs_removed s'))%nat then hs_compact s' else s'.

Definition hs_All (s : hashSet) : list K :=
  filter (fun x => s_contains (hs_removed s) x = false) (hs_sorted s) ++ s_values (hs_pending s).

(** ** Invariant and abstraction *)

Definition hs_inv (s : hashSet) : Prop :=
  ssorted (hs_sorted s) /\
  (forall x, s_contains (hs_removed s) x = true -> x ∈ hs_sorted s) /\
  (forall x, s_contains (hs_pending s) x = true -> x ∉ hs_sorted s).

Definition hs_abs (s : hashSet) (x : K) : Prop :=
  (x ∈ hs_sorted s /\ s_contains (hs_removed s) x = false) \/ s_contains (hs_pending s) x = true.

(** ** The in-place merge *)

Lemma ssorted_snoc a x : ssorted a -> (forall y, y ∈ a -> lt y x) -> ssorted (a ++ [x]).
Proof.
  induction 1 as [|z a Ha IH Hz]; intros Hx; simpl; [repeat constructor|].
  constructor.
  - apply IH. intros y Hy. apply Hx, elem_of_cons; auto.
  - rewrite Forall_app. split; [done|]. constructor; [|constructor]. apply Hx, elem_of_cons; auto.
Qed.

Lemma ssorted_snoc_inv a x : ssorted (a ++ [x]) -> ssorted a /\ (forall y, y ∈ a -> lt y x).
Proof.
  induction a as [|z a IH]; simpl; intros H; [split; [constructor|intros y Hy; by apply not_elem_of_nil in Hy]|].
  apply ssorted_cons_inv in H as [H Hz]. destruct (IH H) as [Ha Hx]. split.
  - constructor; [done|]. rewrite Forall_forall. intros y Hy. apply Hz, elem_of_app; auto.
  - intros y [->|Hy]%elem_of_cons; [|auto]. apply Hz, elem_of_app. right. by apply list_elem_of_singleton.
Qed.

Lemma insert_last_of_middle a junk z d x :
  <[(length a + length junk)%nat := x]> (a ++ (junk ++ [z]) ++ d) = a ++ junk ++ x :: d.
Proof.
  rewrite insert_app_r, <- app_assoc. f_equal.
  by rewrite <- (Nat.add_0_r (length junk)), insert_app_r.
Qed.

Lemma merge_back_spec fuel a b junk d rest :
  (length a + length b <= fuel)%nat -> length junk = length b ->
  ssorted a -> ssorted b -> (forall x, x ∈ a -> x ∉ b) ->
  exists m, merge_back fuel (a ++ junk ++ d) (b ++ rest)
              (Z.of_nat (length a) - 1) (Z.of_nat (length b) - 1)
              (Z.of_nat (length a) + Z.of_nat (length b) - 1) = m ++ d /\
            m ≡ₚ a ++ b /\ ssorted m.
Proof.
  revert a b junk d rest; induction fuel as [|fuel IH]; intros a b junk d rest Hf Hj Ha Hb Hdis.
  { exists []. destruct a, b, junk; simpl in *; try lia. done. }
  cbn [merge_back]. destruct b as [|y b _] using rev_ind.
  { destruct junk; [|done]. exists a. simpl. rewrite app_nil_r. done. }
  rewrite length_app in *. cbn [length] in *.
  destruct junk as [|z junk _] using rev_ind; [simpl in Hj; lia|]. rewrite length_app in Hj. cbn [length] in Hj.
  destruct (0 <=? Z.of_nat (length b + 1) - 1) eqn:E1; [|bool2prop; lia]. clear E1.
  rewrite (lookup_app_l (b ++ [y])) by (rewrite length_app; simpl; lia).
  replace (Z.to_nat (Z.of_nat (length b + 1) - 1)) with (length b) by lia.
  rewrite lookup_app_r, Nat.sub_diag by lia. cbn [lookup list_lookup].
  pose proof (ssorted_snoc_inv _ _ Hb) as [Hb' Hby].
  replace (Z.to_nat (Z.of_nat (length a) + Z.of_nat (length b + 1) - 1)) with (length a + length junk)%nat by lia.
  assert (Htake_b : (forall x, x ∈ a -> lt x y) ->
    exists m, merge_back fuel (a ++ junk ++ y :: d) ((b ++ [y]) ++ rest) (Z.of_nat (length a) - 1)
      (Z.of_nat (length b + 1) - 1 - 1) (Z.of_nat (length a) + Z.of_nat (length b + 1) - 1 - 1) = m ++ d /\
      m ≡ₚ a ++ b ++ [y] /\ ssorted m).
  { intros Hay. destruct (IH a b junk (y :: d) ([y] ++ rest)) as (m & Hm & Hp & Hs); try done; try lia.
    { intros x Hx Hxb. apply (Hdis x Hx), elem_of_app; auto. }
    exists (m ++ [y]). split_and!.
    - rewrite <- !app_assoc. simpl in *. rewrite <- Hm. f_equal; lia.
    - by rewrite Hp, <- app_assoc.
    - apply ssorted_snoc; [done|]. intros x Hx. rewrite Hp, elem_of_app in Hx. naive_solver. }
  destruct a as [|x a _] using rev_ind.
  { simpl (0 <=? Z.of_nat (length []) - 1). cbn iota. rewrite insert_last_of_middle. apply Htake_b.
    intros x Hx. by apply not_elem_of_nil in Hx. }
  destruct (0 <=? Z.of_nat (length (a ++ [x])) - 1) eqn:E2; [|rewrite length_app in E2; simpl in E2; bool2prop; lia].
  clear E2. rewrite (lookup_app_l (a ++ [x])) by (rewrite length_app; simpl; lia).
  rewrite (lookup_app_r a) by (rewrite length_app; simpl; lia).
  replace (Z.to_nat (Z.of_nat (length (a ++ [x])) - 1) - length a)%nat with 0%nat
    by (rewrite length_app; simpl; lia). cbn [lookup list_lookup].
  rewrite !insert_last_of_middle.
  pose proof (ssorted_snoc_inv _ _ Ha) as [Ha' Hax].
  destruct (cmp x y) eqn:Exy.
  - apply cmp_eq in Exy as ->. exfalso. apply (Hdis y); apply elem_of_app; right; by apply list_elem_of_singleton.
  - apply Htake_b. intros x' [Hx'| ->%list_elem_of_singleton]%elem_of_app; [|done]. etrans; [by apply Hax|done].
  - apply cmp_gt_lt in Exy.
    destruct (IH a (b ++ [y]) (x :: junk) (x :: d) rest) as (m & Hm & Hp & Hs); try done.
    { rewrite length_app in *. simpl in *. lia. }
    { rewrite length_app. simpl. lia. }
    { intros x' Hx'. apply Hdis, elem_of_app; auto. }
    exists (m ++ [x]). split_and!.
    + rewrite <- !app_assoc. simpl in *. rewrite <- Hm, <- app_assoc. rewrite !length_app. simpl.
      f_equal; lia.
    + rewrite Hp, <- !app_assoc. apply Permutation_app_head. rewrite (app_assoc b). apply Permutation_app_comm.
    + apply ssorted_snoc; [done|]. intros x' Hx'. rewrite Hp, !elem_of_app in Hx'.
      destruct Hx' as [Hx'|[Hx'|Hx'%list_elem_of_singleton]]; [by apply Hax| |by subst].
      etrans; [by apply Hby|done].
Qed.

(** ** Every operation keeps the invariant and does what it says to the set *)

Lemma is_sorted_spec l : is_sorted l = true -> StronglySorted le l.
Proof.
  intros H. apply Sorted_StronglySorted; [intros x y z; apply le_trans|].
  induction l as [|x [|y l] IH]; [constructor|repeat constructor|].
  cbn [is_sorted] in H. destruct (cmp y x) eqn:E; try done; (constructor; [by apply IH|]; constructor).
  - apply cmp_eq in E as ->. apply le_lt_eq. auto.
  - apply cmp_gt_lt in E. apply le_lt_eq. auto.
Qed.

Lemma sorted_nodup_ssorted l : StronglySorted le l -> NoDup l -> ssorted l.
Proof.
  induction 1 as [|x l Hl IH Hx]; intros Hnd; [constructor|].
  apply NoDup_cons in Hnd as [Hni Hnd]. constructor; [auto|]. rewrite Forall_forall in *.
  intros y Hy. destruct (proj1 (le_lt_eq x y) (Hx y Hy)) as [|<-]; done.
Qed.

Lemma adoptSorted_ok keys : hs_inv (adoptSorted keys) /\ forall x, hs_abs (adoptSorted keys) x <-> x ∈ keys.
Proof.
  unfold adoptSorted. set (sorted := if is_sorted keys then _ else _).
  assert (Hs : StronglySorted le sorted).
  { unfold sorted. destruct (is_sorted keys) eqn:E; [by apply is_sorted_spec|apply sort_slice_sorted]. }
  assert (Hin : forall x, x ∈ sorted <-> x ∈ keys).
  { intros x. unfold sorted. destruct (is_sorted keys); [done|]. by rewrite (sort_slice_perm keys). }
  split.
  - split_and!; cbn [hs_sorted hs_pending hs_removed]; [by apply dedupe_from_ssorted| |];
      intros x Hx; by rewrite contains_new in Hx.
  - intros x. unfold hs_abs. cbn [hs_sorted hs_pending hs_removed]. rewrite contains_new.
    unfold compact. rewrite elem_of_dedupe_from by done. rewrite Hin. naive_solver.
Qed.

Lemma hs_compact_ok s : hs_inv s ->
  hs_inv (hs_compact s) /\ (forall x, hs_abs (hs_compact s) x <-> hs_abs s x) /\
  (forall x, s_contains (hs_pending (hs_compact s)) x = false).
Proof.
  intros (Hs & Hr & Hp). unfold hs_compact.
  set (fl := filter (fun x => s_contains (hs_removed s) x = false) (hs_sorted s)).
  assert (exists sorted removed,
    (if (0 <? s_len (hs_removed s))%nat then (fl, s_new) else (hs_sorted s, hs_removed s)) = (sorted, removed) /\
    sorted = fl /\ forall x, s_contains removed x = false) as (sorted & removed & -> & -> & Hrem).
  { destruct (0 <? s_len (hs_removed s))%nat eqn:E; eexists _, _; split_and!; try done.
    - apply contains_new.
    - apply Nat.ltb_ge in E. assert (Hz : s_len (hs_removed s) = 0%nat) by lia.
      rewrite len_zero_contains in Hz. unfold fl. symmetry. clear -Hz.
      induction (hs_sorted s) as [|x l IH]; [done|]. rewrite filter_cons, decide_True by auto. by rewrite IH.
    - apply len_zero_contains. apply Nat.ltb_ge in E. lia. }
  assert (Hfl : forall x, x ∈ fl <-> x ∈ hs_sorted s /\ s_contains (hs_removed s) x = false).
  { intros x. unfold fl. rewrite list_elem_of_filter. tauto. }
  assert (Hfls : ssorted fl) by (unfold fl; auto with golist).
  destruct (s_len (hs_pending s) =? 0)%nat eqn:Epend.
  - apply Nat.eqb_eq in Epend. pose proof (proj1 (len_zero_contains _) Epend) as Hz.
    unfold hs_inv, hs_abs. cbn [hs_sorted hs_pending hs_removed].
    split_and!; try done; [intros x; by rewrite Hrem|intros x; by rewrite Hz|].
    intros x. rewrite Hfl, Hrem, Hz. tauto.
  - set (add := sort_slice (s_values (hs_pending s))).
    assert (Hadd : forall x, x ∈ add <-> s_contains (hs_pending s) x = true).
    { intros x. unfold add. rewrite (sort_slice_perm _). apply elem_of_values. }
    assert (Hadds : ssorted add).
    { apply sorted_nodup_ssorted; [apply sort_slice_sorted|]. unfold add. rewrite sort_slice_perm. apply values_nodup. }
    destruct (merge_back_spec (length fl + length add) fl add add [] []) as (m & Hm & Hperm & Hms); try done.
    { intros x [Hx _]%Hfl Hx'%Hadd. by apply (Hp x). }
    rewrite !app_nil_r in Hm. unfold grow. rewrite Hm.
    unfold hs_inv, hs_abs. cbn [hs_sorted hs_pending hs_removed].
    assert (Hnew : forall x, s_contains (s_new : St) x = false) by apply contains_new.
    split_and!; try done; [intros x; by rewrite Hrem|intros x; by rewrite Hnew|].
    intros x. rewrite Hperm, elem_of_app, Hfl, Hadd, Hrem, Hnew. naive_solver.
Qed.

Lemma hs_Contains_ok s x : hs_inv s -> hs_Contains s x = true <-> hs_abs s x.
Proof.
  intros (Hs & Hr & Hp). unfold hs_Contains, hs_abs.
  destruct (s_contains (hs_removed s) x) eqn:Er.
  - split; [done|]. intros [[_ ?]|Hc]; [done|]. by apply Hr, Hp in Er.
  - destruct (s_contains (hs_pending s) x) eqn:Ep; [naive_solver|].
    rewrite binary_search_spec by done. naive_solver.
Qed.

Lemma hs_Add_ok s k : hs_inv s ->
  hs_inv (hs_Add s k) /\ (forall x, hs_abs (hs_Add s k) x <-> x = k \/ hs_abs s x).
Proof.
  intros Hinv. pose proof Hinv as (Hs & Hr & Hp). unfold hs_Add.
  destruct (s_contains (hs_removed s) k) eqn:Er.
  { unfold hs_inv, hs_abs. cbn [hs_sorted hs_pending hs_removed]. split_and!; try done.
    - intros x. rewrite contains_remove. intros [_ ?]%andb_true_iff. auto.
    - intros x. rewrite contains_remove, andb_false_iff, negb_false_iff, bool_decide_eq_true.
      specialize (Hr k Er). destruct (decide (x = k)) as [->|]; naive_solver. }
  destruct (s_contains (hs_pending s) k) eqn:Ep.
  { split; [done|]. intros x. split; [auto|]. intros [->|?]; [|done]. by right. }
  destruct (binary_search (hs_sorted s) k) eqn:Eb.
  { apply binary_search_spec in Eb; [|done]. split; [done|]. intros x. split; [auto|].
    intros [->|?]; [|done]. by left. }
  assert (Hk : k ∉ hs_sorted s).
  { intros Hk. apply binary_search_spec in Hk; [congruence|done]. }
  cbv zeta. set (s' := HashSet (hs_sorted s) (s_add k (hs_pending s)) (hs_removed s)).
  assert (Hinv' : hs_inv s').
  { split_and!; try done. cbn [s' hs_pending hs_sorted]. intros x. rewrite contains_add.
    intros [->%bool_decide_eq_true|?]%orb_true_iff; auto. }
  assert (Habs' : forall x, hs_abs s' x <-> x = k \/ hs_abs s x).
  { intros x. unfold hs_abs. cbn [s' hs_sorted hs_pending hs_removed]. rewrite contains_add.
    rewrite orb_true_iff, bool_decide_eq_true. tauto. }
  destruct (compactAt <=? _)%nat; [|done].
  destruct (hs_compact_ok s' Hinv') as (Hc1 & Hc2 & _). split; [done|]. intros x. by rewrite Hc2.
Qed.

Lemma hs_Remove_ok s k : hs_inv s ->
  hs_inv (hs_Remove s k) /\ (forall x, hs_abs (hs_Remove s k) x <-> x <> k /\ hs_abs s x).
Proof.
  intros Hinv. pose proof Hinv as (Hs & Hr & Hp). unfold hs_Remove.
  destruct (s_contains (hs_pending s) k) eqn:Ep.
  { unfold hs_inv, hs_abs. cbn [hs_sorted hs_pending hs_removed].
    split_and!; try done.
    - intros x. rewrite contains_remove. intros [_ ?]%andb_true_iff. auto.
    - intros x. rewrite contains_remove, andb_true_iff, negb_true_iff, bool_decide_eq_false.
      specialize (Hp k Ep). destruct (decide (x = k)) as [->|]; naive_solver. }
  destruct (binary_search (hs_sorted s) k) eqn:Eb; cbn [negb].
  2:{ split; [done|]. intros x. split; [|naive_solver]. intros Hx. split; [|done]. intros ->.
      destruct Hx as [[Hx _]|Hx]; [|congruence]. apply binary_search_spec in Hx; [congruence|done]. }
  apply binary_search_spec in Eb; [|done].
  cbv zeta. set (s' := HashSet (hs_sorted s) (hs_pending s) (s_add k (hs_removed s))).
  assert (Hinv' : hs_inv s').
  { split_and!; try done. cbn [s' hs_removed hs_sorted]. intros x. rewrite contains_add.
    intros [->%bool_decide_eq_true|?]%orb_true_iff; auto. }
  assert (Habs' : forall x, hs_abs s' x <-> x <> k /\ hs_abs s x).
  { intros x. unfold hs_abs. cbn [s' hs_sorted hs_pending hs_removed]. rewrite contains_add.
    rewrite orb_false_iff, bool_decide_eq_false. destruct (decide (x = k)) as [->|]; naive_solver. }
  destruct (compactAt <=? _)%nat; [|done].
  destruct (hs_compact_ok s' Hinv') as (Hc1 & Hc2 & _). split; [done|]. intros x. by rewrite Hc2.
Qed.

Lemma hs_All_ok s : hs_inv s ->
  NoDup (hs_All s) /\ (forall x, x ∈ hs_All s <-> hs_abs s x) /\ hs_Len s = Z.of_nat (length (hs_All s)).
Proof.
  intros (Hs & Hr & Hp). unfold hs_All. split_and!.
  - apply NoDup_app. split_and!; [apply NoDup_filter, ssorted_nodup; done| |apply values_nodup].
    intros x [_ Hx]%list_elem_of_filter Hx'%elem_of_values. by apply (Hp x).
  - intros x. rewrite elem_of_app, list_elem_of_filter, elem_of_values. unfold hs_abs. tauto.
  - unfold hs_Len. rewrite length_app, !len_values.
    assert (Hperm : hs_sorted s ≡ₚ filter (fun x => s_contains (hs_removed s) x = false) (hs_sorted s) ++ s_values (hs_removed s)).
    { apply NoDup_Permutation; [by apply ssorted_nodup| |].
      - apply NoDup_app. split_and!; [apply NoDup_filter, ssorted_nodup; done| |apply values_nodup].
        intros x [Hx _]%list_elem_of_filter Hx'%elem_of_values. congruence.
      - intros x. rewrite elem_of_app, list_elem_of_filter, elem_of_values.
        destruct (s_contains (hs_removed s) x) eqn:E; naive_solver. }
    apply Permutation_length in Hperm. rewrite length_app in Hperm. lia.
Qed.

(** ** Refinement of a plain set *)

Inductive hsOp := HsAdd (k : K) | HsRemove (k : K) | HsCompact.

Definition hsRun (s : hashSet) (o : hsOp) : hashSet :=
  match o with HsAdd k => hs_Add s k | HsRemove k => hs_Remove s k | HsCompact => hs_compact s end.

Definition hsIdeal (f : K -> bool) (o : hsOp) : K -> bool :=
  match o with
  | HsAdd k => fun x => bool_decide (x = k) || f x
  | HsRemove k => fun x => negb (bool_decide (x = k)) && f x
  | HsCompact => f
  end.

(** The sorted-slice set is a set: whatever keys it adopts (sorted or not,
    repeated or not) and whatever additions, removals and merges follow,
    [Contains] answers membership of the set the operations describe, [All]
    yields each member exactly once and [Len] counts them. *)
Theorem hashSet_refines_set keys ops :
  let s := foldl hsRun (adoptSorted keys) ops in
  (forall x, hs_Contains s x = foldl hsIdeal (fun x => bool_decide (x ∈ keys)) ops x) /\
  NoDup (hs_All s) /\ (forall x, x ∈ hs_All s <-> hs_Contains s x = true) /\
  hs_Len s = Z.of_nat (length (hs_All s)).
Proof.
  assert (Hrun : forall ops s f, hs_inv s -> (forall x, f x = true <-> hs_abs s x) ->
    hs_inv (foldl hsRun s ops) /\ forall x, foldl hsIdeal f ops x = true <-> hs_abs (foldl hsRun s ops) x).
  { clear ops. induction ops as [|o ops IH]; intros s f Hinv Hf; [done|]. cbn [foldl]. destruct o; cbn [hsRun hsIdeal].
    - destruct (hs_Add_ok s k Hinv) as [H1 H2]. apply IH; [done|]. intros x.
      by rewrite orb_true_iff, bool_decide_eq_true, H2, Hf.
    - destruct (hs_Remove_ok s k Hinv) as [H1 H2]. apply IH; [done|]. intros x.
      by rewrite andb_true_iff, negb_true_iff, bool_decide_eq_false, H2, Hf.
    - destruct (hs_compact_ok s Hinv) as (H1 & H2 & _). apply IH; [done|]. intros x. by rewrite H2, Hf. }
  destruct (adoptSorted_ok keys) as [H1 H2].
  destruct (Hrun ops (adoptSorted keys) (fun x => bool_decide (x ∈ keys)) H1) as [Hinv Hf].
  { intros x. by rewrite bool_decide_eq_true, H2. }
  destruct (hs_All_ok _ Hinv) as (A1 & A2 & A3). cbv zeta. split_and!; try done.
  - intros x. apply eq_true_iff_eq. by rewrite hs_Contains_ok, Hf.
  - intros x. by rewrite A2, hs_Contains_ok.
Qed.

End hashset.

Lemma hashSet_refines_set_witness :
  let s := foldl hsRun (adoptSorted [5; 3; 5; 9]) [HsRemove 3; HsAdd 7; HsCompact; HsAdd 3; HsRemove 9] : @hashSet Z (gset Z) in
  hs_sorted s = [5; 7; 9] /\ hs_Contains s 3 = true /\ hs_Contains s 9 = false /\
  hs_Len s = Z.of_nat (length (hs_All s)).
Proof.
  cbv zeta. split_and!; [vm_compute; reflexivity..|].
  apply (hashSet_refines_set (St := gset Z) [5; 3; 5; 9] [HsRemove 3; HsAdd 7; HsCompact; HsAdd 3; HsRemove 9]).
Defined.

(** ** [indexkey.go]: the set of masked action-hash prefixes *)

Definition indexKeySize : nat := 8.

(** [^uint64(0) << shift]. *)
Definition shift_mask (shift : Z) : Z := u64 (Z.shiftl (2 ^ 64 - 1) shift).

Section keyset.
Context {St : Type} `{!SetOps St bytes} `{!SetLaws St bytes}.

Record keySet := KeySet { ks_keys : @hashSet bytes St; ks_shift : Z }.

Definition newKeySet : keySet := KeySet newSortedSet 0.

(** [keyOf]: the leading [indexKeySize] bytes of an action hash. *)
Definition keyOf (h : bytes) : bytes := take indexKeySize h.

Definition adoptSortedKeysAt (keys : list bytes) (widthBits : Z) : keySet :=
  KeySet (adoptSorted keys) (u8 (Z.of_nat indexKeySize * 8 - widthBits)).

Definition adoptSortedKeys (keys : list bytes) : keySet :=
  adoptSortedKeysAt keys (Z.of_nat indexKeySize * 8).

Definition ks_Len (s : keySet) : Z := hs_Len (ks_keys s).

Definition ks_mask (s : keySet) : Z := shift_mask (ks_shift s).

Definition ks_width (s : keySet) : Z := Z.of_nat indexKeySize * 8 - ks_shift s.

Definition maskKey (s : keySet) (k : bytes) : bytes :=
  be_bytes 8 (Z.land (be_value k) (ks_mask s)).

Definition ks_key (s : keySet) (h : bytes) : bytes := maskKey s (keyOf h).

Definition ks_Contains (s : keySet) (h : bytes) : bool := hs_Contains (ks_keys s) (ks_key s h).

Definition ks_Add (s : keySet) (h : bytes) : keySet := KeySet (hs_Add (ks_keys s) (ks_key s h)) (ks_shift s).

Definition ks_Remove (s : keySet) (h : bytes) : keySet := KeySet (hs_Remove (ks_keys s) (ks_key s h)) (ks_shift s).

Definition ks_All (s : keySet) : list bytes := hs_All (ks_keys s).

Definition narrowTo (s : keySet) (shift : Z) : keySet :=
  let keys := hs_compact (ks_keys s) in
  let mask := shift_mask shift in
  let sorted := map (fun k => be_bytes 8 (Z.land (be_value k) mask)) (hs_sorted keys) in
  KeySet (HashSet (compact sorted) (hs_pending keys) (hs_removed keys)) shift.

Definition addAll (s other : keySet) : keySet :=
  let s := if ks_shift s <? ks_shift other then narrowTo s (ks_shift other) else s in
  foldl (fun s k => KeySet (hs_Add (ks_keys s) (maskKey s k)) (ks_shift s)) s (ks_All other).

(** ** Masks and prefixes *)

(** The first [64 - shift] bits of an 8-byte key. *)
Definition prefix_at (shift : Z) (k : bytes) : Z := Z.shiftr (be_value k) shift.

Definition key_wf (k : bytes) : Prop := length k = indexKeySize /\ Forall is_byte k.

Definition mask_at (shift : Z) (k : bytes) : bytes := be_bytes 8 (Z.land (be_value k) (shift_mask shift)).

Lemma key_range k : key_wf k -> is_u64 (be_value k).
Proof. intros [Hl Hb]. pose proof (be_value_range k Hb) as H. rewrite Hl in H. done. Qed.

Lemma land_shift_mask x shift :
  is_u64 x -> 0 <= shift <= 64 -> Z.land x (shift_mask shift) = Z.shiftl (Z.shiftr x shift) shift.
Proof.
  intros Hx Hs. unfold shift_mask, u64. rewrite <- (Z.land_ones _ 64) by lia.
  apply Z.bits_inj'. intros n Hn. rewrite !Z.land_spec.
  destruct (Z.lt_ge_cases n shift) as [Hlt|Hge].
  - rewrite !Z.shiftl_spec_low by lia. by rewrite andb_false_r.
  - rewrite !Z.shiftl_spec_high, Z.shiftr_spec by lia. replace (n - shift + shift) with n by lia.
    destruct (Z.lt_ge_cases n 64) as [H64|H64].
    + change (2 ^ 64 - 1) with (Z.ones 64). rewrite !Z.ones_spec_low by lia. by rewrite !andb_true_r.
    + rewrite (Z.bits_above_log2 x n); [done|unfold is_u64 in *; lia|].
      destruct (Z.eq_dec x 0) as [->|]; [simpl; lia|].
      apply Z.log2_lt_pow2; [unfold is_u64 in *; lia|]. unfold is_u64 in *.
      apply (Z.lt_le_trans _ (2 ^ 64)); [lia|]. apply Z.pow_le_mono_r; lia.
Qed.

Lemma land_mask_range x m : is_u64 x -> is_u64 (Z.land x m).
Proof.
  intros Hx. rewrite <- (Z.mod_small x (2 ^ 64)) by done. rewrite <- (Z.land_ones x 64) by lia.
  rewrite <- Z.land_assoc, (Z.land_comm (Z.ones 64)), Z.land_assoc, Z.land_ones by lia.
  apply Z.mod_pos_bound. lia.
Qed.

Lemma mask_at_wf shift k : key_wf (mask_at shift k).
Proof. split; [apply length_be_bytes|apply be_bytes_wf]. Qed.

Lemma be_value_mask shift k : key_wf k -> 0 <= shift <= 64 ->
  be_value (mask_at shift k) = Z.shiftl (prefix_at shift k) shift.
Proof.
  intros Hk Hs. pose proof (key_range k Hk) as Hr. unfold mask_at.
  rewrite be_value_bytes by (by apply Z.land_nonneg; left; unfold is_u64 in *; lia).
  change (8 * Z.of_nat 8) with 64. rewrite Z.mod_small by (by apply land_mask_range).
  by rewrite land_shift_mask.
Qed.

Lemma prefix_mask shift shift' k : key_wf k -> 0 <= shift <= shift' -> shift' <= 64 ->
  prefix_at shift' (mask_at shift k) = prefix_at shift' k.
Proof.
  intros Hk Hs Hs'. unfold prefix_at. rewrite be_value_mask by (done || lia). unfold prefix_at.
  replace shift' with (shift + (shift' - shift)) by lia.
  rewrite <- !Z.shiftr_shiftr by lia. by rewrite Z.shiftr_shiftl_l, Z.sub_diag, Z.shiftl_0_r by lia.
Qed.

(** Two keys have the same mask exactly when they share the prefix. *)
Lemma mask_at_eq shift k k' : key_wf k -> key_wf k' -> 0 <= shift <= 64 ->
  mask_at shift k = mask_at shift k' <-> prefix_at shift k = prefix_at shift k'.
Proof.
  intros Hk Hk' Hs. split; intros Heq.
  - rewrite <- (prefix_mask shift shift k), <- (prefix_mask shift shift k') by (done || lia). by rewrite Heq.
  - unfold mask_at. rewrite !land_shift_mask by (done || by apply key_range).
    unfold prefix_at in Heq. by rewrite Heq.
Qed.

Lemma mask_at_idem shift k : key_wf k -> 0 <= shift <= 64 ->
  mask_at shift (mask_at shift k) = mask_at shift k.
Proof.
  intros Hk Hs. apply mask_at_eq; [apply mask_at_wf|done|done|]. apply prefix_mask; (done || lia).
Qed.

(** ** The invariant *)

(** Every key held is an 8-byte key whose low [shift] bits are zero. *)
Definition ks_inv (s : keySet) : Prop :=
  hs_inv (ks_keys s) /\ 0 <= ks_shift s <= 64 /\
  (forall k, hs_abs (ks_keys s) k -> key_wf k /\ mask_at (ks_shift s) k = k).

(** The set of prefixes a [keySet] holds. *)
Definition ks_has (s : keySet) (p : Z) : Prop :=
  exists k, hs_abs (ks_keys s) k /\ prefix_at (ks_shift s) k = p.

Lemma keyOf_wf h : is_hash h -> key_wf (keyOf h).
Proof.
  intros [Hl Hb]. split; [|by apply Forall_take]. unfold keyOf, indexKeySize. rewrite length_take, Hl. done.
Qed.

Lemma ks_Contains_ok s h : ks_inv s -> is_hash h ->
  ks_Contains s h = true <-> ks_has s (prefix_at (ks_shift s) (keyOf h)).
Proof.
  intros (Hinv & Hs & Hk) Hh. unfold ks_Contains. rewrite hs_Contains_ok by done.
  pose proof (keyOf_wf h Hh) as Hw. unfold ks_key, maskKey, ks_mask. fold (mask_at (ks_shift s) (keyOf h)).
  split.
  - intros Ha. exists (mask_at (ks_shift s) (keyOf h)). split; [done|]. apply prefix_mask; (done || lia).
  - intros (k & Ha & Hp). destruct (Hk k Ha) as [Hkw Hkm].
    replace (mask_at (ks_shift s) (keyOf h)) with k; [done|]. rewrite <- Hkm. by apply mask_at_eq.
Qed.

Lemma prefix_narrow shift shift' k : 0 <= shift <= shift' -> 
  prefix_at shift' k = Z.shiftr (prefix_at shift k) (shift' - shift).
Proof. intros Hs. unfold prefix_at. rewrite Z.shiftr_shiftr by lia. f_equal. lia. Qed.

(** Adding one (wider or equal) key at the set's width. *)
Lemma ks_add_masked s k : ks_inv s -> key_wf k ->
  let s' := KeySet (hs_Add (ks_keys s) (maskKey s k)) (ks_shift s) in
  ks_inv s' /\ (forall p, ks_has s' p <-> p = prefix_at (ks_shift s) k \/ ks_has s p).
Proof.
  intros (Hinv & Hs & Hk) Hw. unfold maskKey, ks_mask. fold (mask_at (ks_shift s) k).
  destruct (hs_Add_ok (ks_keys s) (mask_at (ks_shift s) k) Hinv) as [H1 H2]. cbv zeta. split.
  - split_and!; cbn [ks_keys ks_shift]; try lia; [done|]. intros k' Hk'. apply H2 in Hk' as [->|Hk']; [|auto].
    split; [apply mask_at_wf|]. by apply mask_at_idem.
  - intros p. unfold ks_has. cbn [ks_keys ks_shift]. split.
    + intros (k' & Hk' & <-). apply H2 in Hk' as [->|Hk']; [left; apply prefix_mask; (done || lia)|right; eauto].
    + intros [->|(k' & Hk' & <-)].
      * exists (mask_at (ks_shift s) k). split; [apply H2; auto|]. apply prefix_mask; (done || lia).
      * exists k'. split; [|done]. apply H2. auto.
Qed.

(** ** Narrowing *)

Lemma be_value_cons x a : be_value (x :: a) = x * 2 ^ (8 * Z.of_nat (length a)) + be_value a.
Proof.
  induction a as [|y a IH] using rev_ind; [unfold be_value; simpl; lia|].
  rewrite app_comm_cons, !be_value_snoc, IH, length_app. simpl length.
  replace (8 * Z.of_nat (length a + 1)) with (8 * Z.of_nat (length a) + 8) by lia.
  rewrite Z.pow_add_r by lia. lia.
Qed.

(** Byte order is numeric order. *)
Lemma bytes_compare_value a b : length a = length b -> Forall is_byte a -> Forall is_byte b ->
  bytes_compare a b = (be_value a ?= be_value b).
Proof.
  revert b; induction a as [|x a IH]; intros [|y b] Hl Ha Hb; try done.
  injection Hl as Hl. apply Forall_cons in Ha as [Hx Ha]. apply Forall_cons in Hb as [Hy Hb].
  rewrite !be_value_cons, Hl. cbn [bytes_compare].
  pose proof (be_value_range a Ha) as Ra. pose proof (be_value_range b Hb) as Rb. rewrite Hl in Ra.
  set (P := 2 ^ (8 * Z.of_nat (length b))) in *.
  destruct (Z.compare_spec x y) as [->|Hlt|Hgt].
  - rewrite IH by done. symmetry. apply Z.add_compare_mono_l.
  - symmetry. apply Z.compare_lt_iff. nia.
  - symmetry. apply Z.compare_gt_iff. nia.
Qed.

Lemma mask_at_mono shift k k' : key_wf k -> key_wf k' -> 0 <= shift <= 64 ->
  lt k k' -> le (mask_at shift k) (mask_at shift k').
Proof.
  intros Hk Hk' Hs Hlt. unfold lt, le in *. cbn [cmp bytes_total_cmp] in *.
  pose proof (mask_at_wf shift k) as Hm. pose proof (mask_at_wf shift k') as Hm'.
  rewrite bytes_compare_value in Hlt |- * by (try apply Hm; try apply Hm'; try apply Hk; try apply Hk'; destruct Hk, Hk', Hm, Hm'; congruence).
  rewrite !be_value_mask by done. change (be_value k < be_value k') in Hlt. unfold prefix_at.
  match goal with |- (?a ?= ?b) <> Gt => change (a <= b) end.
  rewrite !Z.shiftl_mul_pow2, !Z.shiftr_div_pow2 by lia.
  assert (0 < 2 ^ shift) by (apply Z.pow_pos_nonneg; lia).
  apply Z.mul_le_mono_nonneg_r; [lia|]. apply Z.div_le_mono; [done|lia].
Qed.

Lemma narrowTo_ok s shift : ks_inv s -> ks_shift s <= shift <= 64 ->
  ks_inv (narrowTo s shift) /\
  (forall p, ks_has (narrowTo s shift) p <-> exists q, ks_has s q /\ p = Z.shiftr q (shift - ks_shift s)).
Proof.
  intros (Hinv & Hs & Hk) Hsh. destruct (hs_compact_ok _ Hinv) as (Hc & Habs & Hpend).
  pose proof Hc as (Hsorted & Hrem & _).
  unfold narrowTo. set (c := hs_compact (ks_keys s)) in *.
  fold (mask_at shift). set (f := fun k => be_bytes 8 (Z.land (be_value k) (shift_mask shift))).
  assert (Hrem' : forall x, s_contains (hs_removed c) x = false).
  { intros x. unfold c, hs_compact.
    destruct (0 <? s_len (hs_removed (ks_keys s)))%nat eqn:E; [|apply Nat.ltb_ge in E];
      destruct (s_len (hs_pending (ks_keys s)) =? 0)%nat; cbn [hs_removed]; try apply contains_new;
      by apply len_zero_contains; lia. }
  assert (Hin : forall k, k ∈ hs_sorted c <-> hs_abs (ks_keys s) k).
  { intros k. rewrite <- Habs. unfold hs_abs. rewrite Hrem', Hpend. naive_solver. }
  assert (Hmap : StronglySorted le (map f (hs_sorted c))).
  { assert (Hw : Forall key_wf (hs_sorted c)) by (apply Forall_forall; intros k Hkin; by apply Hk, Hin).
    clear -Hsorted Hw Hs Hsh. induction Hsorted as [|x l Hl IH Hx]; [constructor|]. apply Forall_cons in Hw as [Hwx Hw].
    simpl. constructor; [auto|]. rewrite Forall_forall in *. intros y Hy.
    apply list_elem_of_fmap in Hy as (z & -> & Hz). apply mask_at_mono; [done|auto|lia|auto]. }
  assert (Hmem : forall k', hs_abs (HashSet (compact (map f (hs_sorted c))) (hs_pending c) (hs_removed c)) k' <->
                            exists k, hs_abs (ks_keys s) k /\ k' = mask_at shift k).
  { intros k'. unfold hs_abs at 1. cbn [hs_sorted hs_pending hs_removed]. rewrite Hrem', Hpend.
    unfold compact. rewrite elem_of_dedupe_from by done. rewrite (list_elem_of_fmap f). setoid_rewrite Hin.
    unfold mask_at, f. naive_solver. }
  assert (Hmi : 0 <= shift <= 64) by lia. split.
  - split_and!; cbn [ks_keys ks_shift]; try lia.
    + split_and!; cbn [hs_sorted hs_pending hs_removed].
      * by apply dedupe_from_ssorted.
      * intros x Hx. by rewrite Hrem' in Hx.
      * intros x Hx. by rewrite Hpend in Hx.
    + intros k' (k & Ha & ->)%Hmem. split; [apply mask_at_wf|]. apply mask_at_idem; [by apply Hk|done].
  - intros p. unfold ks_has. cbn [ks_keys ks_shift]. split.
    + intros (k' & (k & Ha & ->)%Hmem & <-). exists (prefix_at (ks_shift s) k). split; [eauto|].
      rewrite prefix_mask by (lia || by apply Hk). apply prefix_narrow. lia.
    + intros (q & (k & Ha & <-) & ->). exists (mask_at shift k). split; [apply Hmem; eauto|].
      rewrite prefix_mask by (lia || by apply Hk). apply prefix_narrow. lia.
Qed.

Lemma add_keys_ok l s : ks_inv s -> Forall key_wf l ->
  let s' := foldl (fun s k => KeySet (hs_Add (ks_keys s) (maskKey s k)) (ks_shift s)) s l in
  ks_inv s' /\ ks_shift s' = ks_shift s /\
  (forall p, ks_has s' p <-> (exists k, k ∈ l /\ p = prefix_at (ks_shift s) k) \/ ks_has s p).
Proof.
  revert s; induction l as [|k l IH]; intros s Hinv Hw; cbn [foldl].
  { split_and!; try done. intros p. split; [auto|]. intros [(k & Hk & _)|?]; [by apply not_elem_of_nil in Hk|done]. }
  apply Forall_cons in Hw as [Hk Hw]. destruct (ks_add_masked s k Hinv Hk) as [H1 H2].
  destruct (IH _ H1 Hw) as (I1 & I2 & I3). split_and!; [done|done|].
  intros p. rewrite I3, H2. cbn [ks_shift]. setoid_rewrite elem_of_cons. naive_solver.
Qed.

Lemma addAll_ok s other : ks_inv s -> ks_inv other ->
  ks_inv (addAll s other) /\ ks_shift (addAll s other) = Z.max (ks_shift s) (ks_shift other) /\
  (forall p, ks_has (addAll s other) p <->
    (exists q, ks_has s q /\ p = Z.shiftr q (ks_shift (addAll s other) - ks_shift s)) \/
    (exists q, ks_has other q /\ p = Z.shiftr q (ks_shift (addAll s other) - ks_shift other))).
Proof.
  intros Hinv Hother. pose proof Hother as (Ho1 & Ho2 & Ho3).
  destruct (hs_All_ok _ Ho1) as (_ & Hall & _).
  assert (Hw : Forall key_wf (ks_All other)).
  { apply Forall_forall. intros k Hk. by apply Ho3, Hall. }
  unfold addAll. set (s1 := if ks_shift s <? ks_shift other then narrowTo s (ks_shift other) else s).
  assert (ks_inv s1 /\ ks_shift s1 = Z.max (ks_shift s) (ks_shift other) /\
    (forall p, ks_has s1 p <-> exists q, ks_has s q /\ p = Z.shiftr q (ks_shift s1 - ks_shift s))) as (S1 & S2 & S3).
  { pose proof Hinv as (_ & Hs & _). unfold s1. destruct (ks_shift s <? ks_shift other) eqn:E; bool2prop.
    - destruct (narrowTo_ok s (ks_shift other) Hinv) as [N1 N2]; [lia|]. cbn [ks_shift narrowTo] in *.
      split_and!; [done|lia|done].
    - split_and!; [done|lia|]. intros p. rewrite Z.sub_diag. setoid_rewrite Z.shiftr_0_r. naive_solver. }
  destruct (add_keys_ok (ks_All other) s1 S1 Hw) as (A1 & A2 & A3). cbv zeta in *. rewrite A2.
  split_and!; [done|done|]. intros p. rewrite A3, S3.
  assert (Hsame : (exists k, k ∈ ks_All other /\ p = prefix_at (ks_shift s1) k) <->
                  (exists q, ks_has other q /\ p = Z.shiftr q (ks_shift s1 - ks_shift other))); [|tauto].
  unfold ks_All. setoid_rewrite Hall. split.
  - intros (k & Hk & ->). exists (prefix_at (ks_shift other) k). split; [by exists k|]. apply prefix_narrow. lia.
  - intros (q & (k & Hk & <-) & ->). exists k. split; [done|]. symmetry. apply prefix_narrow. lia.
Qed.

Lemma adoptSortedKeysAt_ok keys w : 0 <= w <= 64 ->
  Forall (fun k => key_wf k /\ mask_at (64 - w) k = k) keys ->
  ks_inv (adoptSortedKeysAt keys w) /\ ks_shift (adoptSortedKeysAt keys w) = 64 - w /\
  (forall p, ks_has (adoptSortedKeysAt keys w) p <-> exists k, k ∈ keys /\ prefix_at (64 - w) k = p).
Proof.
  intros Hw Hk. destruct (adoptSorted_ok (St := St) keys) as [H1 H2].
  assert (Hsh : ks_shift (adoptSortedKeysAt keys w) = 64 - w).
  { cbn [adoptSortedKeysAt ks_shift]. unfold indexKeySize. apply u8_small. unfold is_byte. lia. }
  split_and!; [|done|].
  - split_and!; rewrite ?Hsh; try lia; [done|]. intros k Ha%H2. rewrite Forall_forall in Hk. by apply Hk.
  - intros p. unfold ks_has. rewrite Hsh. cbn [adoptSortedKeysAt ks_keys]. by setoid_rewrite H2.
Qed.

(** Merging an index delta, of the same or of another prefix width, never
    loses a key: what either set contained the merged set contains, and it
    contains nothing that shares no prefix, at the narrower width, with a key of
    either. *)
Theorem keySet_addAll s other h :
  ks_inv s -> ks_inv other -> is_hash h ->
  let s' := addAll s other in
  ks_inv s' /\
  (ks_Contains s h = true \/ ks_Contains other h = true -> ks_Contains s' h = true) /\
  (ks_Contains s' h = true ->
     exists k, (k ∈ ks_All s \/ k ∈ ks_All other) /\
       prefix_at (Z.max (ks_shift s) (ks_shift other)) k =
       prefix_at (Z.max (ks_shift s) (ks_shift other)) (keyOf h)).
Proof.
  intros Hs Ho Hh. destruct (addAll_ok s other Hs Ho) as (A1 & A2 & A3). cbv zeta.
  pose proof Hs as (Hs1 & Hs2 & _). pose proof Ho as (Ho1 & Ho2 & _).
  destruct (hs_All_ok _ Hs1) as (_ & Hall & _). destruct (hs_All_ok _ Ho1) as (_ & Hall' & _).
  split_and!; [done| |].
  - rewrite !ks_Contains_ok by done. rewrite A3, A2. intros [Hc|Hc]; [left|right].
    + eexists. split; [done|]. apply prefix_narrow. lia.
    + eexists. split; [done|]. apply prefix_narrow. lia.
  - rewrite !ks_Contains_ok by done. rewrite A3, A2.
    intros [(q & (k & Hk & <-) & Hq)|(q & (k & Hk & <-) & Hq)]; exists k; rewrite <- prefix_narrow in Hq by lia;
      (split; [|done]); [left; by apply Hall|right; by apply Hall'].
Qed.

End keyset.

Lemma keySet_addAll_witness :
  let s := adoptSortedKeysAt [[1;2;3;4;5;0;0;0]; [1;2;3;4;6;0;0;0]] 40 : @keySet (gset bytes) in
  let other := adoptSortedKeys [[9;9;9;9;9;9;9;9]] : @keySet (gset bytes) in
  let h := replicate 32 9 in
  ks_Contains s h = false /\ ks_Contains (addAll s other) h = true.
Proof.
  cbv zeta. split; [vm_compute; reflexivity|].
  edestruct (keySet_addAll (St := gset bytes) (adoptSortedKeysAt [[1;2;3;4;5;0;0;0]; [1;2;3;4;6;0;0;0]] 40)
    (adoptSortedKeys [[9;9;9;9;9;9;9;9]]) (replicate 32 9)) as (_ & H & _).
  - apply adoptSortedKeysAt_ok; [lia|]. repeat constructor; unfold is_byte; try lia; vm_compute; reflexivity.
  - apply adoptSortedKeysAt_ok; [unfold indexKeySize; lia|]. repeat constructor; unfold is_byte; try lia; vm_compute; reflexivity.
  - split; [done|]. repeat constructor; unfold is_byte; lia.
  - apply H. right. vm_compute. reflexivity.
Defined.

