(* ===== verification/Gbci.v ===== *)
(** * The index on the wire, end to end

    The server's serializations of the advertised hashes ([indexdelta.go]:
    [marshalGBCIWidth], [prefixValues], [marshalForm]; [index.go]: [blobETag])
    and the client's reader ([cacheclient/web_index.go]: [parseIndexBlob],
    [parseIndexV1], [marshalIndex]; [cacheclient/web_index_delta.go]:
    [mergeIndexBlob]).  The main theorem joins both: the key set the client
    builds from the served bytes answers exactly "some advertised hash shares
    the prefix". *)

From Stdlib Require Import ZArith Lia List Bool Sorted String.
From stdpp Require Import base gmap list sets.
From S2P Require Import Prelude SortedSlice GoSet Keys Sha256 BitIO IndexV2 HashSet.

(** ** Forms *)

Definition gbciVersion : Z := 1.
Definition gbciPrefixSize : nat := 8.

(** [indexForm]: wire version and width, in bytes for v1 and in bits for v2. *)
Record indexForm := IndexForm { form_version : Z; form_width : Z }.

#[export] Instance indexForm_eq_dec : EqDecision indexForm.
Proof. solve_decision. Defined.

#[export] Instance indexForm_countable : Countable indexForm.
Proof.
  refine (inj_countable' (fun f => (form_version f, form_width f)) (fun p => IndexForm p.1 p.2) _).
  by intros [].
Defined.

Inductive gbciFormat := gbciFull | gbciPrefix.

Definition format_version (f : gbciFormat) : Z :=
  match f with gbciPrefix => gbciVersion | gbciFull => gbciVersion end.

Definition entrySize (f : gbciFormat) : nat :=
  match f with gbciPrefix => gbciPrefixSize | gbciFull => gbciHashSize end.

Definition format_form (f : gbciFormat) : indexForm := IndexForm (format_version f) (Z.of_nat (entrySize f)).

Definition indexFormV1 (widthBytes : nat) : indexForm := IndexForm gbciVersion (Z.of_nat widthBytes).

(** ** The server's writers *)

(** The body loop of [marshalGBCIWidth] skips an entry equal to the one just
    written; the header's eight digest bytes are copied through a uint64. *)
Definition marshalGBCIWidth (hashes : list bytes) (width : nat) : bytes :=
  let entries := dedupe_from None (map (take width) hashes) in
  let body := concat entries in
  seal (gbci_header gbciVersion (Z.of_nat width) 0 body (Z.of_nat (length body / width))) body.

(** The walk of [prefixValues] over both sorted lists. *)
Fixpoint union_walk (a : list bytes) : list bytes -> list bytes :=
  fix go (b : list bytes) : list bytes :=
    match a, b with
    | [], [] => []
    | x :: a', [] => x :: union_walk a' []
    | [], y :: b' => y :: go b'
    | x :: a', y :: b' =>
        match bytes_compare x y with
        | Gt => y :: go b'
        | _ => x :: union_walk a' b
        end
    end.

(** [binary.BigEndian.Uint64(h[:8]) >> shift]. *)
Definition prefix_value (bits : Z) (h : bytes) : Z := Z.shiftr (be_value (take 8 h)) (64 - bits).

Definition prefixValues (a b : list bytes) (bits : Z) : list Z :=
  dedupe_from None (map (prefix_value bits) (union_walk a b)).

Definition marshalForm (hashes : list bytes) (form : indexForm) : bytes :=
  if form_version form =? gbciVersion2
  then marshalGBCI2 (form_width form) (prefixValues hashes [] (form_width form))
  else marshalGBCIWidth hashes (Z.to_nat (form_width form)).

Definition marshalGBCI (hashes : list bytes) (f : gbciFormat) : bytes := marshalForm hashes (format_form f).

(** A double quote byte, as the ETag carries it at both ends. *)
Definition quote : bytes := [34].

Definition blobETag (blob : bytes) : bytes :=
  quote ++ hex_encode (drop (length blob - shaSize) blob) ++ quote.

(** ** The client's reader *)

Inductive indexErr :=
  | ITooSmall (n : nat) | IBadMagic | IHashSize (n : Z) | ILength (n : nat) (count size : Z)
  | ITrailer | IV2 (e : parseErr) | IVersion (v : Z).

Section client.
Context {St : Type} `{!SetOps St bytes} `{!SetLaws St bytes}.

Definition parseIndexV1 (blob etag : bytes) : indexErr + (@keySet St * bytes) :=
  let size := nth 5 blob 0 in
  if negb (size =? Z.of_nat gbciHashSize) && negb (size =? Z.of_nat gbciPrefixSize)
  then inl (IHashSize size)
  else
    let count := le_value (take 8 (drop 16 blob)) in
    let bodyLen := Z.of_nat (length blob) - Z.of_nat gbciHeaderSize - Z.of_nat shaSize in
    if negb (Z.rem bodyLen size =? 0) || negb (count =? u64 (Z.quot bodyLen size))
    then inl (ILength (length blob) count size)
    else
      let bodyEnd := (gbciHeaderSize + Z.to_nat bodyLen)%nat in
      if negb (bytes_eqb (sha256 (take bodyEnd blob)) (drop bodyEnd blob)) then inl ITrailer
      else
        let keys := map (fun i => take indexKeySize (drop (gbciHeaderSize + i * Z.to_nat size) blob))
                      (seq 0 (Z.to_nat count)) in
        inr (adoptSortedKeys keys, etag).

Definition parseIndexBlob (blob : bytes) : indexErr + (@keySet St * bytes) :=
  if (length blob <? gbciHeaderSize + shaSize)%nat then inl (ITooSmall (length blob))
  else if negb (bytes_eqb (take 4 blob) gbciMagic) then inl IBadMagic
  else
    let etag := quote ++ hex_encode (drop (length blob - shaSize) blob) ++ quote in
    let version := nth 4 blob 0 in
    if version =? gbciVersion then parseIndexV1 blob etag
    else if version =? gbciVersion2 then
      match ParseIndexV2 blob with
      | inl e => inl (IV2 e)
      | inr (values, width) =>
          let shift := Z.of_nat indexKeySize * 8 - width in
          let keys := map (fun v => be_bytes 8 (u64 (Z.shiftl v shift))) values in
          inr (adoptSortedKeysAt keys width, etag)
      end
    else inl (IVersion version).

(** [marshalIndex]; [None] is the panic of [MarshalIndexV2]. *)
Definition marshalIndex (keys : @keySet St) : option bytes :=
  let sorted := sort_slice (ks_All keys) in
  MarshalIndexV2 (ks_width keys) (map (fun k => Z.shiftr (be_value k) (ks_shift keys)) sorted).

(** [mergeIndexBlob]: the error, or the merged blob ([None] inside is a panic). *)
Definition mergeIndexBlob (base : bytes) (added : @keySet St) : indexErr + option bytes :=
  match parseIndexBlob base with
  | inl e => inl e
  | inr (keys, _) => inr (marshalIndex (addAll keys added))
  end.

(** ** The values the server writes *)

Lemma elem_of_union_walk a b x : x ∈ union_walk a b <-> x ∈ a \/ x ∈ b.
Proof.
  revert b; induction a as [|y a IHa]; intros b.
  - induction b as [|z b IHb]; [simpl; rewrite elem_of_nil; tauto|].
    change (union_walk [] (z :: b)) with (z :: union_walk [] b). rewrite !elem_of_cons, IHb, elem_of_nil. tauto.
  - induction b as [|z b IHb].
    + change (union_walk (y :: a) []) with (y :: union_walk a []). rewrite !elem_of_cons, IHa, elem_of_nil. tauto.
    + change (union_walk (y :: a) (z :: b)) with
        (match bytes_compare y z with Gt => z :: union_walk (y :: a) b | _ => y :: union_walk a (z :: b) end).
      destruct (bytes_compare y z); rewrite !elem_of_cons, ?IHa, ?IHb, ?elem_of_cons; tauto.
Qed.

Lemma union_walk_sorted a b : ssorted a -> ssorted b -> StronglySorted le (union_walk a b).
Proof.
  assert (Hle : forall l : list bytes, ssorted l -> StronglySorted le l).
  { induction 1 as [|x l _ IH Hx]; constructor; [done|]. eapply Forall_impl; [exact Hx|].
    intros y Hy. apply le_lt_eq. auto. }
  revert b; induction a as [|y a IHa]; intros b Ha Hb.
  - replace (union_walk [] b) with b; [by apply Hle|]. clear. induction b as [|z b IH]; [reflexivity|].
    change (union_walk [] (z :: b)) with (z :: union_walk [] b). by rewrite <- IH.
  - pose proof Ha as [Ha' Hy]%ssorted_cons_inv. induction b as [|z b IHb].
    + change (union_walk (y :: a) []) with (y :: union_walk a []). constructor; [by apply IHa|].
      rewrite Forall_forall. intros x [Hx|Hx]%elem_of_union_walk; [apply le_lt_eq; auto|by apply not_elem_of_nil in Hx].
    + pose proof Hb as [Hb' Hz]%ssorted_cons_inv.
      change (union_walk (y :: a) (z :: b)) with
        (match bytes_compare y z with Gt => z :: union_walk (y :: a) b | _ => y :: union_walk a (z :: b) end).
      assert (Htake : le y z -> StronglySorted le (y :: union_walk a (z :: b))).
      { intros Hyz. constructor; [by apply IHa|]. rewrite Forall_forall.
        intros x [Hx|[->|Hx]%elem_of_cons]%elem_of_union_walk; [apply le_lt_eq; auto|done|].
        etrans; [exact Hyz|]. apply le_lt_eq. auto. }
      destruct (bytes_compare y z) eqn:E.
      * apply Htake. unfold le. cbn [cmp bytes_total_cmp]. by rewrite E.
      * apply Htake. unfold le. cbn [cmp bytes_total_cmp]. by rewrite E.
      * assert (Hzy : lt z y) by (by apply cmp_gt_lt). constructor; [by apply IHb|]. rewrite Forall_forall.
        intros x [[->|Hx]%elem_of_cons|Hx]%elem_of_union_walk; apply le_lt_eq; left; [done| |auto].
        etrans; [exact Hzy|auto].
Qed.

Lemma bytes_compare_take n a b : bytes_compare a b <> Gt -> bytes_compare (take n a) (take n b) <> Gt.
Proof.
  revert a b; induction n as [|n IH]; intros [|x a] [|y b]; try done.
  cbn [take bytes_compare]. destruct (x ?= y); auto.
Qed.

Lemma le_prefix_value bits h h' : is_hash h -> is_hash h' -> 0 <= bits <= 64 -> le h h' ->
  prefix_value bits h <= prefix_value bits h'.
Proof.
  intros [Hl Hb] [Hl' Hb'] Hbits Hle. unfold prefix_value. rewrite !Z.shiftr_div_pow2 by lia.
  assert (0 < 2 ^ (64 - bits)) by (apply Z.pow_pos_nonneg; lia).
  apply Z.div_le_mono; [done|].
  pose proof (bytes_compare_take 8 h h' Hle) as Hcmp.
  rewrite bytes_compare_value in Hcmp by (rewrite ?length_take, ?Hl, ?Hl'; auto using Forall_take). done.
Qed.

Lemma prefix_value_range bits h : is_hash h -> 0 <= bits <= 64 -> 0 <= prefix_value bits h < 2 ^ bits.
Proof.
  intros [Hl Hb] Hbits. unfold prefix_value. rewrite Z.shiftr_div_pow2 by lia.
  pose proof (be_value_range (take 8 h) (Forall_take _ _ _ Hb)) as Hr.
  rewrite length_take, Hl in Hr. change (8 * Z.of_nat (8 `min` gbciHashSize)) with 64 in Hr.
  assert (0 < 2 ^ (64 - bits)) by (apply Z.pow_pos_nonneg; lia).
  split; [apply Z.div_pos; lia|]. apply Z.div_lt_upper_bound; [done|].
  rewrite <- Z.pow_add_r by lia. replace (64 - bits + bits) with 64 by lia. lia.
Qed.

Lemma prefixValues_spec a b bits :
  ssorted a -> ssorted b -> Forall is_hash a -> Forall is_hash b -> 0 <= bits <= 64 ->
  ascending bits None (prefixValues a b bits) /\
  (forall v, v ∈ prefixValues a b bits <-> exists h, (h ∈ a \/ h ∈ b) /\ v = prefix_value bits h).
Proof.
  intros Ha Hb Hha Hhb Hbits. pose proof (union_walk_sorted a b Ha Hb) as Hs.
  assert (Hh : Forall is_hash (union_walk a b)).
  { rewrite Forall_forall in *. intros x [?|?]%elem_of_union_walk; auto. }
  assert (Hmem : forall v, v ∈ prefixValues a b bits <-> exists h, (h ∈ a \/ h ∈ b) /\ v = prefix_value bits h).
  { intros v. unfold prefixValues. rewrite elem_of_dedupe_from by done. rewrite (list_elem_of_fmap (prefix_value bits)).
    setoid_rewrite elem_of_union_walk. naive_solver. }
  split; [|done]. apply ascending_ssorted. split.
  - apply (dedupe_from_ssorted None); [|done]. clear -Hs Hh Hbits. induction Hs as [|x l _ IH Hx]; [constructor|].
    apply Forall_cons in Hh as [Hhx Hh]. simpl. constructor; [auto|]. apply Forall_forall.
    intros y (z & -> & Hz)%(list_elem_of_fmap (prefix_value bits)).
    apply (le_prefix_value bits x z); [done|by eapply Forall_forall in Hh|done|by eapply Forall_forall in Hx].
  - apply Forall_forall. intros v (h & Hin & ->)%Hmem. apply prefix_value_range; [|done].
    rewrite Forall_forall in *. naive_solver.
Qed.

(** ** Reading the v1 body *)

Lemma length_concat_fixed (l : list bytes) w :
  Forall (fun e => length e = w) l -> length (concat l) = (length l * w)%nat.
Proof. induction 1 as [|e l He _ IH]; [done|]. simpl. rewrite length_app, IH, He. lia. Qed.

Lemma cut_concat_fixed (l : list bytes) w n rest :
  Forall (fun e => length e = w) l -> (n <= w)%nat ->
  map (fun i => take n (drop (i * w) (concat l ++ rest))) (seq 0 (length l)) = map (take n) l.
Proof.
  intros Hl Hn. induction Hl as [|e l He _ IH]; [done|]. cbn [length seq map concat].
  f_equal.
  - simpl. rewrite drop_0, <- app_assoc, take_app_le by lia. done.
  - rewrite <- IH, <- seq_shift, map_map. apply map_ext. intros i. f_equal.
    rewrite <- app_assoc. replace (S i * w)%nat with (length e + i * w)%nat by lia.
    by rewrite <- drop_drop, drop_app_length.
Qed.

Lemma length_dedupe_from (l : list bytes) last : (length (dedupe_from last l) <= length l)%nat.
Proof.
  revert last; induction l as [|x l IH]; intros last; simpl; [lia|].
  case_bool_decide; simpl; [etrans; [apply IH|lia]|apply le_n_S, IH].
Qed.

(** The body of a v1 blob: its entries, their order and their width. *)
Lemma v1_entries hashes w : Forall is_hash hashes -> (w <= gbciHashSize)%nat ->
  Forall (fun e => length e = w) (dedupe_from None (map (take w) hashes)) /\
  (forall e, e ∈ dedupe_from None (map (take w) hashes) <-> exists h, h ∈ hashes /\ e = take w h).
Proof.
  intros Hh Hw.
  assert (Hmem : forall e, e ∈ dedupe_from None (map (take w) hashes) <-> exists h, h ∈ hashes /\ e = take w h).
  { intros e. rewrite elem_of_dedupe_from by done. rewrite (list_elem_of_fmap (take w)). naive_solver. }
  split; [|done]. apply Forall_forall. intros e (h & Hin & ->)%Hmem.
  rewrite Forall_forall in Hh. destruct (Hh h Hin) as [Hl _]. rewrite length_take, Hl. lia.
Qed.

Lemma take_key_wf h : is_hash h -> key_wf (take indexKeySize h).
Proof. apply keyOf_wf. Qed.

Lemma mask_full k : key_wf k -> mask_at 0 k = k.
Proof.
  intros Hk. pose proof Hk as [Hl Hb]. unfold mask_at. rewrite land_shift_mask by (lia || by apply key_range).
  rewrite Z.shiftr_0_r, Z.shiftl_0_r. unfold indexKeySize in Hl. rewrite <- Hl at 1. by apply be_bytes_value.
Qed.

Lemma parse_etag blob (ks : @keySet St) etag : parseIndexBlob blob = inr (ks, etag) -> etag = blobETag blob.
Proof.
  unfold parseIndexBlob, parseIndexV1. intros Hp.
  repeat (case_match; try done); cbv zeta in Hp; repeat (case_match; try done); by injection Hp.
Qed.

(** Everything of a blob but its trailer. *)
Definition blob_body (blob : bytes) : bytes := take (length blob - shaSize) blob.

(** What either reader accepts ends in the digest of the rest. *)
Lemma parse_trailer blob (ks : @keySet St) etag : parseIndexBlob blob = inr (ks, etag) -> drop (length blob - shaSize) blob = sha256 (blob_body blob).
Proof.
  unfold parseIndexBlob, parseIndexV1, blob_body. destruct (Nat.ltb_spec (length blob) (gbciHeaderSize + shaSize)) as [|Hlen]; [done|]. cbv zeta.
  case_match; [done|]. case_match.
  - do 2 (case_match; [done|]). destruct (negb (bytes_eqb (sha256 _) _)) eqn:Et; [done|]. intros _. apply negb_false_iff, bytes_eqb_eq in Et.
    unfold gbciHeaderSize, shaSize in *. replace (24 + Z.to_nat (Z.of_nat (length blob) - Z.of_nat 24 - Z.of_nat 32))%nat with (length blob - 32)%nat in Et by lia. done.
  - case_match; [|done]. destruct (ParseIndexV2 blob) as [|[vs w]] eqn:Ep; [done|]. intros _. by eapply parseIndexV2_trailer.
Qed.

(** Two readable blobs with one ETag are the same, unless SHA-256 collides on them. *)
Lemma parse_same_etag blob blob' (ks ks' : @keySet St) etag : parseIndexBlob blob = inr (ks, etag) -> parseIndexBlob blob' = inr (ks', etag) ->
  (sha256 (blob_body blob) = sha256 (blob_body blob') -> blob_body blob = blob_body blob') -> blob = blob'.
Proof.
  intros Hp Hp' Hinj. pose proof (parse_trailer _ _ _ Hp) as Ht. pose proof (parse_trailer _ _ _ Hp') as Ht'.
  apply parse_etag in Hp as ->. apply parse_etag in Hp' as He. unfold blobETag in He. rewrite Ht, Ht' in He.
  apply app_inv_head, app_inv_tail in He. apply hex_encode_inj in He; [|apply sha256_wf..].
  rewrite <- (take_drop (length blob - shaSize) blob), <- (take_drop (length blob' - shaSize) blob'), Ht, Ht', He. f_equal. by apply Hinj.
Qed.

(** What the client holds after reading a blob: the prefixes, at [shift], of the
    hashes. *)
Definition reads_as (hashes : list bytes) (shift : Z) (ks : @keySet St) : Prop :=
  ks_inv ks /\ ks_shift ks = shift /\
  (forall p, ks_has ks p <-> exists h, h ∈ hashes /\ prefix_at shift (keyOf h) = p).

Lemma parse_v1_marshal hashes w :
  Forall is_hash hashes -> w = gbciHashSize \/ w = gbciPrefixSize ->
  Z.of_nat (length hashes) * 32 < 2 ^ 63 ->
  let blob := marshalGBCIWidth hashes w in
  exists ks, parseIndexBlob blob = inr (ks, blobETag blob) /\ reads_as hashes 0 ks.
Proof.
  intros Hh Hw Hsize. destruct (v1_entries hashes w Hh) as [Hfix Hmem].
  { unfold gbciHashSize, gbciPrefixSize in Hw. unfold gbciHashSize. lia. }
  assert (Hw' : (8 <= w <= 32)%nat) by (unfold gbciHashSize, gbciPrefixSize in Hw; lia).
  unfold marshalGBCIWidth. set (entries := dedupe_from None _) in *. set (body := concat entries).
  assert (Hbl : length body = (length entries * w)%nat) by (by apply length_concat_fixed).
  assert (Hel : (length entries <= length hashes)%nat).
  { unfold entries. rewrite <- (length_map (take w) hashes). apply length_dedupe_from. }
  rewrite Hbl, Nat.div_mul by lia.
  destruct (seal_fields gbciVersion (Z.of_nat w) 0 body (Z.of_nat (length entries)))
    as (H4 & Hver & Hwid & _ & Hcnt & Hend & Htake & Hdrop & Hbody); [lia|lia|lia|].
  set (h := gbci_header _ _ _ _ _) in *. cbv zeta. set (blob := seal h body) in *.
  assert (Hblob : blob = h ++ body ++ sha256 (h ++ body)) by done.
  assert (Hhl : length h = 24%nat) by apply length_gbci_header.
  assert (Hlen : length blob = (24 + length entries * w + 32)%nat)
    by (rewrite Hblob, !length_app, length_sha256; lia).
  assert (Hbl2 : Z.of_nat (length blob) - Z.of_nat gbciHeaderSize - Z.of_nat shaSize =
                 Z.of_nat (length entries) * Z.of_nat w).
  { rewrite Hlen. unfold gbciHeaderSize, shaSize. lia. }
  unfold parseIndexBlob. rewrite H4, Hver, bytes_eqb_refl. fold (blobETag blob).
  destruct (length blob <? gbciHeaderSize + shaSize)%nat eqn:Es.
  { apply Nat.ltb_lt in Es. unfold gbciHeaderSize, shaSize in Es. lia. }
  cbn [negb]. change (gbciVersion =? gbciVersion) with true. cbn iota.
  unfold parseIndexV1. rewrite Hwid, Hcnt, Hbl2.
  destruct (negb (Z.of_nat w =? Z.of_nat gbciHashSize) && negb (Z.of_nat w =? Z.of_nat gbciPrefixSize)) eqn:Eg.
  { bool2prop. lia. }
  rewrite Z.rem_mul, Z.quot_mul by lia. rewrite u64_small by (unfold is_u64; lia).
  rewrite !Z.eqb_refl. cbn [negb orb].
  replace (gbciHeaderSize + Z.to_nat (Z.of_nat (length entries) * Z.of_nat w))%nat with (length (h ++ body))
    by (rewrite length_app, Hhl, Hbl; unfold gbciHeaderSize; lia).
  rewrite Htake, Hdrop, bytes_eqb_refl. cbn [negb].
  rewrite !Nat2Z.id. unfold gbciHeaderSize.
  replace (map (fun i => take indexKeySize (drop (24 + i * w) blob)) (seq 0 (length entries)))
    with (map (take indexKeySize) entries).
  2:{ rewrite <- (cut_concat_fixed entries w indexKeySize (sha256 (h ++ body))); [|done|unfold indexKeySize; lia].
      apply map_ext. intros i. f_equal. }
  eexists. split; [done|].
  destruct (adoptSortedKeysAt_ok (St := St) (map (take indexKeySize) entries) 64) as (A1 & A2 & A3); [lia| |].
  { apply Forall_forall. intros k (e & -> & He)%(list_elem_of_fmap (take indexKeySize)).
    apply Hmem in He as (h0 & Hin & ->). rewrite take_take, Nat.min_l by (unfold indexKeySize; lia).
    rewrite Forall_forall in Hh. pose proof (take_key_wf h0 (Hh h0 Hin)). split; [done|]. by apply mask_full. }
  split_and!; [done|done|]. intros p. unfold adoptSortedKeys, indexKeySize.
  change (Z.of_nat 8 * 8) with 64. rewrite A3. change (64 - 64) with 0.
  setoid_rewrite (list_elem_of_fmap (take indexKeySize)). setoid_rewrite Hmem. split.
  - intros (k & (e & -> & h0 & Hin & ->) & <-). exists h0. split; [done|]. unfold keyOf.
    by rewrite take_take, Nat.min_l by (unfold indexKeySize; lia).
  - intros (h0 & Hin & <-). exists (take indexKeySize (take w h0)). split; [eauto|].
    unfold keyOf. by rewrite take_take, Nat.min_l by (unfold indexKeySize; lia).
Qed.

(** ** Reading a v2 blob *)

Lemma parse_v2_marshal w values :
  indexHashBitsMin <= w <= indexHashBitsMax -> ascending w None values ->
  8 * Z.of_nat (length (marshalGBCI2 w values)) < 2 ^ 64 ->
  let blob := marshalGBCI2 w values in
  exists ks, parseIndexBlob blob = inr (ks, blobETag blob) /\
    ks_inv ks /\ ks_shift ks = 64 - w /\ (forall p, ks_has ks p <-> p ∈ values).
Proof.
  intros Hw Hasc Hsize blob. pose proof (parse_marshal w values Hw Hasc Hsize) as Hp. fold blob in Hp.
  unfold indexHashBitsMin, indexHashBitsMax in Hw.
  apply ascending_ssorted in Hasc as [_ Hall]. rewrite Forall_forall in Hall.
  set (key := fun v => be_bytes 8 (u64 (Z.shiftl v (Z.of_nat indexKeySize * 8 - w)))).
  assert (Hkey : forall v, v ∈ values -> be_value (key v) = Z.shiftl v (64 - w)).
  { intros v Hv. specialize (Hall v Hv). unfold key, indexKeySize. change (Z.of_nat 8 * 8) with 64.
    assert (Hr : is_u64 (Z.shiftl v (64 - w))).
    { unfold is_u64. rewrite Z.shiftl_mul_pow2 by lia. assert (0 < 2 ^ (64 - w)) by (apply Z.pow_pos_nonneg; lia).
      assert (Hpow : 2 ^ w * 2 ^ (64 - w) = 2 ^ 64) by (rewrite <- Z.pow_add_r by lia; f_equal; lia). nia. }
    rewrite u64_small, be_value_bytes by (done || unfold is_u64 in *; lia).
    change (8 * Z.of_nat 8) with 64. by apply Z.mod_small. }
  assert (Hpre : forall v, v ∈ values -> prefix_at (64 - w) (key v) = v).
  { intros v Hv. unfold prefix_at. rewrite Hkey by done.
    by rewrite Z.shiftr_shiftl_l, Z.sub_diag, Z.shiftl_0_r by lia. }
  assert (Hwf : forall v, key_wf (key v)) by (intros v; split; [apply length_be_bytes|apply be_bytes_wf]).
  destruct (adoptSortedKeysAt_ok (St := St) (map key values) w) as (A1 & A2 & A3); [lia| |].
  { apply Forall_forall. intros k (v & -> & Hv)%(list_elem_of_fmap key). split; [done|].
    unfold mask_at. rewrite land_shift_mask by (lia || by apply key_range).
    fold (prefix_at (64 - w) (key v)). rewrite (Hpre v Hv), <- (Hkey v Hv).
    destruct (Hwf v) as [Hl Hb]. unfold indexKeySize in Hl. rewrite <- Hl at 1. by apply be_bytes_value. }
  exists (adoptSortedKeysAt (map key values) w). split_and!; try done.
  - unfold parseIndexBlob. fold (blobETag blob). unfold blob, marshalGBCI2 in Hp |- *. cbv zeta in Hp |- *.
    set (k := riceParam _ _) in *. set (body := flush _) in *. set (n := Z.of_nat (length values)) in *.
    change (nth 4 (seal (gbci_header gbciVersion2 w (Z.of_nat k) body n) body) 0) with gbciVersion2.
    change (take 4 (seal (gbci_header gbciVersion2 w (Z.of_nat k) body n) body)) with gbciMagic.
    rewrite bytes_eqb_refl. cbn [negb].
    destruct (_ <? gbciHeaderSize + shaSize)%nat eqn:Es.
    { apply Nat.ltb_lt in Es. unfold seal in Es. rewrite !length_app, length_gbci_header, length_sha256 in Es.
      unfold gbciHeaderSize, shaSize in Es. lia. }
    change (gbciVersion2 =? gbciVersion) with false. change (gbciVersion2 =? gbciVersion2) with true. cbn iota.
    by rewrite Hp.
  - intros p. rewrite A3. split.
    + intros (k & (v & -> & Hv)%(list_elem_of_fmap key) & <-). by rewrite Hpre.
    + intros Hv. exists (key p). split; [by apply (list_elem_of_fmap_2 key)|by apply Hpre].
Qed.

(** ** Forms a server serves *)

Definition form_ok (form : indexForm) : Prop :=
  (form_version form = gbciVersion /\ (form_width form = 32 \/ form_width form = 8)) \/
  (form_version form = gbciVersion2 /\ indexHashBitsMin <= form_width form <= indexHashBitsMax).

(** The prefix width, in bits, at which the client can tell keys apart. *)
Definition form_bits (form : indexForm) : Z :=
  if form_version form =? gbciVersion2 then form_width form else 64.

(** Counts so small that Go's length arithmetic on the blob does not wrap. *)
Definition count_ok (n : nat) : Prop := Z.of_nat n < 2 ^ 55.


Lemma parse_marshalForm hashes form :
  ssorted hashes -> Forall is_hash hashes -> form_ok form -> count_ok (length hashes) ->
  let blob := marshalForm hashes form in
  exists ks, parseIndexBlob blob = inr (ks, blobETag blob) /\ reads_as hashes (64 - form_bits form) ks.
Proof.
  intros Hs Hh [[Hv Hw]|[Hv Hw]] Hn; unfold count_ok in Hn; unfold form_bits, marshalForm in *; rewrite Hv in *.
  - change (gbciVersion =? gbciVersion2) with false. cbn iota. change (64 - 64) with 0.
    apply parse_v1_marshal; [done| |lia]. unfold gbciHashSize, gbciPrefixSize. lia.
  - change (gbciVersion2 =? gbciVersion2) with true in *. cbn iota in *.
    assert (Hw' : 0 <= form_width form <= 64) by (unfold indexHashBitsMin, indexHashBitsMax in Hw; lia).
    destruct (prefixValues_spec hashes [] (form_width form)) as [Hasc Hmem]; try done; [apply SSorted_nil|].
    assert (Hlen : (length (prefixValues hashes [] (form_width form)) <= length hashes)%nat).
    { rewrite <- (length_map (prefix_value (form_width form)) hashes).
      apply submseteq_length, NoDup_submseteq; [apply ssorted_nodup; by apply ascending_ssorted in Hasc as [? _]|].
      intros v (h & [Hin|Hin] & ->)%Hmem; [by apply (list_elem_of_fmap_2 (prefix_value (form_width form)))|].
      by apply not_elem_of_nil in Hin. }
    destruct (marshal_size (form_width form) _ Hw Hasc) as (_ & _ & Hsize); [lia|].
    destruct (parse_v2_marshal (form_width form) _ Hw Hasc Hsize) as (ks & Hp & Hi & Hsh & Hhas).
    exists ks. split; [done|]. split_and!; [done|done|]. intros p. rewrite Hhas, Hmem.
    split; [intros (h & [Hin|Hin] & ->); [by exists h|by apply not_elem_of_nil in Hin]|].
    intros (h & Hin & <-). exists h. split; [by left|done].
Qed.

(** C11. What the client learns from [/_index]: for every set of advertised
    hashes and every form the server serves (whole hashes, 8-byte prefixes, or
    the Rice-coded form at 32 to 64 bits), the client parses the served blob
    without error, computes the ETag the server sent, and the key set it builds
    contains a hash exactly when some advertised hash shares its prefix at the
    form's width.  So no advertised key is ever missed. *)
Theorem index_blob_end_to_end hashes form :
  ssorted hashes -> Forall is_hash hashes -> form_ok form -> count_ok (length hashes) ->
  let blob := marshalForm hashes form in
  exists ks, parseIndexBlob blob = inr (ks, blobETag blob) /\ ks_inv ks /\
    forall h, is_hash h ->
      (ks_Contains ks h = true <->
       exists h', h' ∈ hashes /\ prefix_value (form_bits form) h' = prefix_value (form_bits form) h).
Proof.
  intros Hs Hh Hf Hsz. destruct (parse_marshalForm hashes form Hs Hh Hf Hsz) as (ks & Hp & Hi & Hsh & Hhas).
  exists ks. split_and!; [done|done|]. intros h Hw. rewrite ks_Contains_ok by done. rewrite Hsh, Hhas. done.
Qed.

(** ** The merged disk copy *)

Lemma masked_prefix_lt shift k k' : 0 <= shift <= 64 -> key_wf k -> key_wf k' ->
  mask_at shift k = k -> mask_at shift k' = k' -> lt k k' -> prefix_at shift k < prefix_at shift k'.
Proof.
  intros Hs Hk Hk' Hm Hm' Hlt.
  assert (Hne : prefix_at shift k <> prefix_at shift k').
  { intros Heq. apply mask_at_eq in Heq; try done. rewrite Hm, Hm' in Heq. subst. by apply (lt_irrefl k'). }
  unfold lt in Hlt. cbn [cmp bytes_total_cmp] in Hlt.
  rewrite bytes_compare_value in Hlt by (try apply Hk; try apply Hk'; destruct Hk, Hk'; congruence).
  change (be_value k < be_value k') in Hlt. unfold prefix_at in *. rewrite !Z.shiftr_div_pow2 in * by lia.
  assert (0 < 2 ^ shift) by (apply Z.pow_pos_nonneg; lia).
  assert (be_value k / 2 ^ shift <= be_value k' / 2 ^ shift) by (apply Z.div_le_mono; lia). lia.
Qed.

Lemma prefix_at_range shift k : key_wf k -> 0 <= shift <= 64 -> 0 <= prefix_at shift k < 2 ^ (64 - shift).
Proof.
  intros Hk Hs. pose proof (key_range k Hk) as Hr. unfold prefix_at, is_u64 in *. rewrite Z.shiftr_div_pow2 by lia.
  assert (0 < 2 ^ shift) by (apply Z.pow_pos_nonneg; lia). split; [apply Z.div_pos; lia|].
  apply Z.div_lt_upper_bound; [done|]. rewrite <- Z.pow_add_r by lia. replace (shift + (64 - shift)) with 64 by lia. lia.
Qed.

Definition marshal_values (keys : @keySet St) : list Z :=
  map (prefix_at (ks_shift keys)) (sort_slice (ks_All keys)).

Lemma marshalIndex_values keys : ks_inv keys ->
  ascending (ks_width keys) None (marshal_values keys) /\ forall p, p ∈ marshal_values keys <-> ks_has keys p.
Proof.
  intros (Hinv & Hs & Hk). destruct (hs_All_ok _ Hinv) as (Hnd & Hall & _). unfold marshal_values, ks_width.
  change (Z.of_nat indexKeySize * 8) with 64.
  set (l := sort_slice (ks_All keys)).
  assert (Hl : forall k, k ∈ l <-> hs_abs (ks_keys keys) k).
  { intros k. unfold l. rewrite (sort_slice_perm _). apply Hall. }
  assert (Hls : ssorted l).
  { apply sorted_nodup_ssorted; [apply sort_slice_sorted|]. unfold l. by rewrite sort_slice_perm. }
  split.
  - apply ascending_ssorted. split.
    + assert (Hw : Forall (fun k => key_wf k /\ mask_at (ks_shift keys) k = k) l)
        by (apply Forall_forall; intros k Hkl; by apply Hk, Hl).
      clear -Hls Hw Hs. induction Hls as [|x l _ IH Hx]; [constructor|]. apply Forall_cons in Hw as [[Hx1 Hx2] Hw].
      simpl. constructor; [auto|]. apply Forall_forall. intros y (z & -> & Hz)%(list_elem_of_fmap (prefix_at (ks_shift keys))).
      eapply Forall_forall in Hw; [|done]. eapply Forall_forall in Hx; [|done].
      apply Z.compare_lt_iff. apply masked_prefix_lt; naive_solver.
    + apply Forall_forall. intros y (z & -> & Hz)%(list_elem_of_fmap (prefix_at (ks_shift keys))).
      apply prefix_at_range; [by apply Hk, Hl|done].
  - intros p. rewrite (list_elem_of_fmap (prefix_at (ks_shift keys))). setoid_rewrite Hl. unfold ks_has. naive_solver.
Qed.

(** The client's disk copy: merging a delta into a copy the server wrote
    never panics, and reading the merged copy back gives the prefixes of the old
    copy and of the delta, at the narrower of their widths, and nothing else. *)
Theorem mergeIndexBlob_reads_union hashes form added :
  ssorted hashes -> Forall is_hash hashes -> form_ok form -> count_ok (length hashes) ->
  ks_inv added -> ks_shift added <= 32 -> count_ok (length (ks_All added)) ->
  exists b ks, mergeIndexBlob (marshalForm hashes form) added = inr (Some b) /\
    parseIndexBlob b = inr (ks, blobETag b) /\ ks_inv ks /\
    ks_shift ks = Z.max (64 - form_bits form) (ks_shift added) /\
    forall p, ks_has ks p <->
      (exists h, h ∈ hashes /\ p = prefix_at (ks_shift ks) (keyOf h)) \/
      (exists q, ks_has added q /\ p = Z.shiftr q (ks_shift ks - ks_shift added)).
Proof.
  intros Hs Hh Hf Hsz Hadd Hshift Hlen.
  destruct (parse_marshalForm hashes form Hs Hh Hf Hsz) as (ks & Hp & Hi & Hsh & Hhas).
  unfold mergeIndexBlob in *. rewrite Hp in *.
  destruct (addAll_ok ks added Hi Hadd) as (A1 & A2 & A3). set (m := addAll ks added) in *.
  destruct (marshalIndex_values m A1) as [Hasc Hval].
  assert (Hb : 0 <= 64 - form_bits form <= 32).
  { destruct Hf as [[Hv _]|[Hv Hw]]; unfold form_bits; rewrite Hv; simpl;
      [|unfold indexHashBitsMin, indexHashBitsMax in Hw]; lia. }
  pose proof Hadd as (_ & Hs0 & _).
  assert (Hwid : indexHashBitsMin <= ks_width m <= indexHashBitsMax).
  { unfold ks_width, indexHashBitsMin, indexHashBitsMax, indexKeySize. rewrite A2, Hsh. lia. }
  assert (Hm : marshalIndex m = Some (marshalGBCI2 (ks_width m) (marshal_values m))).
  { unfold marshalIndex. change (map _ _) with (marshal_values m). unfold MarshalIndexV2.
    rewrite prefixLimit_eq, values_in_order_ascending by done.
    unfold indexHashBitsMin, indexHashBitsMax in *. destruct (Z.ltb_spec (ks_width m) 32), (Z.ltb_spec 64 (ks_width m)); done || lia. }
  rewrite Hm. unfold count_ok in *.
  assert (Hcount : (length (marshal_values m) <= length hashes + length (ks_All added))%nat).
  { set (f := fun h => Z.shiftr (prefix_at (64 - form_bits form) (keyOf h)) (ks_shift m - ks_shift ks)).
    set (f' := fun k => Z.shiftr (prefix_at (ks_shift added) k) (ks_shift m - ks_shift added)).
    rewrite <- (length_map f hashes), <- (length_map f' (ks_All added)), <- length_app.
    apply submseteq_length, NoDup_submseteq; [apply ssorted_nodup; by apply ascending_ssorted in Hasc as [? _]|].
    destruct Hadd as (Ha1 & _). destruct (hs_All_ok _ Ha1) as (_ & Hall & _).
    intros p Hpv. apply Hval, A3 in Hpv. apply elem_of_app. destruct Hpv as [(q & Hq & ->)|(q & Hq & ->)].
    - left. apply Hhas in Hq as (h & Hin & <-). by apply (list_elem_of_fmap_2 f).
    - right. destruct Hq as (k & Hk & <-). apply (list_elem_of_fmap_2 f'). by apply Hall. }
  destruct (marshal_size _ _ Hwid Hasc) as (_ & _ & Hbytes); [lia|].
  destruct (parse_v2_marshal _ _ Hwid Hasc Hbytes) as (ks' & Hp' & Hi' & Hsh' & Hhas').
  assert (Hshm : ks_shift ks' = ks_shift m).
  { rewrite Hsh'. unfold ks_width, indexKeySize. lia. }
  eexists _, ks'. split_and!; try done; [by rewrite Hshm, A2, Hsh|].
  intros p. rewrite Hhas', Hval, A3, Hshm. setoid_rewrite Hhas. rewrite Hsh.
  assert (Hsame : (exists q, (exists h, h ∈ hashes /\ prefix_at (64 - form_bits form) (keyOf h) = q) /\
                    p = Z.shiftr q (ks_shift m - (64 - form_bits form))) <->
                  (exists h, h ∈ hashes /\ p = prefix_at (ks_shift m) (keyOf h))); [|tauto].
  split.
  - intros (q & (h & Hin & <-) & ->). exists h. split; [done|]. symmetry. apply prefix_narrow. rewrite A2, Hsh. lia.
  - intros (h & Hin & ->). eexists. split; [by exists h|]. apply prefix_narrow. rewrite A2, Hsh. lia.
Qed.

End client.

(** Two concrete hashes for the witnesses. *)
Definition demoHashes : list bytes := [replicate 32 7; replicate 32 9].

Lemma demoHashes_ok : ssorted demoHashes /\ Forall is_hash demoHashes.
Proof.
  split; [repeat constructor|]. unfold demoHashes, is_hash, is_byte.
  constructor; [|constructor; [|constructor]]; (split; [done|]); apply Forall_replicate; lia.
Qed.

Lemma index_blob_end_to_end_witness :
  form_ok (IndexForm 2 40) /\
  exists ks : @keySet (gset bytes),
    parseIndexBlob (marshalForm demoHashes (IndexForm 2 40)) = inr (ks, blobETag (marshalForm demoHashes (IndexForm 2 40))) /\
    ks_Contains ks (replicate 32 9) = true.
Proof.
  assert (Hf : form_ok (IndexForm 2 40)) by (right; split; [reflexivity|unfold indexHashBitsMin, indexHashBitsMax; simpl; lia]).
  split; [done|]. destruct demoHashes_ok as [Hs Hh].
  destruct (index_blob_end_to_end (St := gset bytes) demoHashes (IndexForm 2 40) Hs Hh Hf) as (ks & Hp & _ & Hc).
  - vm_compute. reflexivity.
  - exists ks. split; [exact Hp|]. apply Hc.
    + eapply Forall_forall; [exact Hh|]. apply elem_of_cons. right. by apply list_elem_of_singleton.
    + exists (replicate 32 9). split; [|reflexivity]. apply elem_of_cons. right. by apply list_elem_of_singleton.
Defined.

Lemma mergeIndexBlob_reads_union_witness :
  exists b, mergeIndexBlob (marshalForm demoHashes (IndexForm 1 32))
              (adoptSortedKeysAt [[1;2;3;4;5;0;0;0]] 40 : @keySet (gset bytes)) = inr (Some b).
Proof.
  destruct demoHashes_ok as [Hs Hh].
  edestruct (mergeIndexBlob_reads_union demoHashes (IndexForm 1 32) (adoptSortedKeysAt [[1;2;3;4;5;0;0;0]] 40 : @keySet (gset bytes)))
    as (b & ks & Hb & _); [exact Hs|exact Hh|left; split; [reflexivity|left; reflexivity]
      |vm_compute; reflexivity| |vm_compute; discriminate|vm_compute; reflexivity|exists b; exact Hb].
  apply adoptSortedKeysAt_ok; [lia|]. repeat constructor; unfold is_byte; try lia; vm_compute; reflexivity.
Defined.
