(* ===== verification/Index.v ===== *)
(** * The server's index

    [index.go] and [indexdelta.go]: the advertised hash set with its pending
    buffer, the cached serializations, the add log behind delta fetches, and the
    mtime list behind prefetch.  Every method that takes the index's mutex is
    one definition on the [Index] record; time and the random epoch are
    arguments.  Gauges and log lines are left out.  [mutations] is an unbounded
    counter (the code's uint64 is never exhausted).

    The theorems: an invariant over every operation; [Contains] against the
    advertised set; and the synchronisation protocol of server and client as a
    transition system, whose client set is exact whenever it is at the server's
    position. *)

From Stdlib Require Import ZArith Lia List Bool Sorted String.
From stdpp Require Import base gmap list sets sorting.
From S2P Require Import Prelude SortedSlice GoSet Keys Sha256 BitIO IndexV2 HashSet Gbci.

(** ** Data *)

Record indexEntry := IndexEntry { ie_key : compactKey; mtimeUnix : Z }.

#[export] Instance indexEntry_eq_dec : EqDecision indexEntry.
Proof. solve_decision. Defined.

(** A position in the add log. *)
Record indexGen := IndexGen { epoch : Z; seqno : Z }.

(** [builtAt] is [None] for the zero time. *)
Record indexBlobCache := IndexBlobCache {
  ib_blob : bytes; ib_etag : bytes; ib_gen : indexGen; ib_builtAt : option Z; ib_mutation : Z
}.

Record Index := MkIndex {
  entries : list indexEntry;
  entriesOff : bool;
  pendingEntries : list indexEntry;
  hashes : list bytes;
  pending : list bytes;
  mutations : Z;
  forms : gmap indexForm indexBlobCache;
  blobMinInterval : Z;
  hashBits : Z;
  addEpoch : Z;
  added : list bytes;
  addLogLimit : Z
}.

Definition defaultIndexHashBits : Z := 40.
Definition defaultIndexBlobInterval : Z := 15 * 1000000000.
Definition maxAddLog : Z := 2 ^ 20.

(** Field updates. *)
Definition with_entries (idx : Index) (es ps : list indexEntry) : Index :=
  MkIndex es (entriesOff idx) ps (hashes idx) (pending idx) (mutations idx) (forms idx)
    (blobMinInterval idx) (hashBits idx) (addEpoch idx) (added idx) (addLogLimit idx).
Definition with_hashes (idx : Index) (hs ps : list bytes) : Index :=
  MkIndex (entries idx) (entriesOff idx) (pendingEntries idx) hs ps (mutations idx) (forms idx)
    (blobMinInterval idx) (hashBits idx) (addEpoch idx) (added idx) (addLogLimit idx).
Definition with_log (idx : Index) (e : Z) (ad : list bytes) (m : Z) (fs : gmap indexForm indexBlobCache) : Index :=
  MkIndex (entries idx) (entriesOff idx) (pendingEntries idx) (hashes idx) (pending idx) m fs
    (blobMinInterval idx) (hashBits idx) e ad (addLogLimit idx).

(** [sort.Slice] by mtime is not stable: any sorted permutation. *)
Class MtimeSort := {
  sortEntriesByMtime : list indexEntry -> list indexEntry;
  sortEntries_perm : forall l, sortEntriesByMtime l ≡ₚ l;
  sortEntries_sorted : forall l, StronglySorted (fun a b => mtimeUnix a <= mtimeUnix b) (sortEntriesByMtime l)
}.

Section index.
Context `{msort : !MtimeSort}.
Implicit Types (idx : Index) (h : bytes).

(** ** The add log *)

Definition resetAddLogLocked (newEpoch : Z) (idx : Index) : Index :=
  with_log idx newEpoch [] (mutations idx + 1)
    ((fun c => IndexBlobCache (ib_blob c) (ib_etag c) (ib_gen c) None (ib_mutation c)) <$> forms idx).

Definition appendAddLocked (newEpoch : Z) (hash : bytes) (idx : Index) : Index :=
  let limit := if addLogLimit idx =? 0 then maxAddLog else addLogLimit idx in
  let idx := if limit <=? Z.of_nat (length (added idx)) then resetAddLogLocked newEpoch idx else idx in
  with_log idx (addEpoch idx) (added idx ++ [hash]) (mutations idx) (forms idx).

(** ** Writers *)

Definition Put (now newEpoch : Z) (key : bytes) (idx : Index) : Index :=
  let ck := newCompactKey key in
  let '(hash, hashOK) := actionHash ck in
  let idx := if entriesOff idx then idx
             else with_entries idx (entries idx) (pendingEntries idx ++ [IndexEntry ck now]) in
  if hashOK then
    let idx := with_hashes idx (hashes idx) (pending idx ++ [hash]) in
    let idx := appendAddLocked newEpoch hash idx in
    with_log idx (addEpoch idx) (added idx) (mutations idx + 1) (forms idx)
  else idx.

Definition drainEntriesLocked (idx : Index) : Index :=
  match pendingEntries idx with
  | [] => idx
  | _ => with_entries idx (sortEntriesByMtime (entries idx ++ pendingEntries idx)) []
  end.

(** The scan of [Remove]: the first matching entry only. *)
Fixpoint remove_entry (ck : compactKey) (es : list indexEntry) : list indexEntry :=
  match es with
  | [] => []
  | e :: es' => if bool_decide (ie_key e = ck) then es' else e :: remove_entry ck es'
  end.

Definition removeHash (s : list bytes) (h : bytes) : list bytes := filter (fun x => x <> h) s.

Definition Remove (newEpoch : Z) (key : bytes) (idx : Index) : Index :=
  let ck := newCompactKey key in
  let '(hash, hashOK) := actionHash ck in
  let idx := drainEntriesLocked idx in
  let idx := with_entries idx (remove_entry ck (entries idx)) (pendingEntries idx) in
  if hashOK then
    resetAddLogLocked newEpoch
      (with_hashes idx (removeHash (hashes idx) hash) (removeHash (pending idx) hash))
  else idx.

(** [victims] are the keys of the code's [map[hash]bool], all set to true. *)
Definition filterHashes (s : list bytes) (victims : list bytes) : list bytes :=
  filter (fun x => x ∉ victims) s.

Definition victim_hashes (keys : list bytes) : list bytes :=
  flat_map (fun k => let '(h, ok) := actionHash (newCompactKey k) in if ok then [h] else []) keys.

Section remove_keys.
Context {St : Type} `{!SetOps St compactKey}.

Definition RemoveKeys (newEpoch : Z) (keys : list bytes) (idx : Index) : Index :=
  match keys with
  | [] => idx
  | _ =>
      let victimKeys : St := s_add_all (map newCompactKey keys) s_new in
      let victimHashes := victim_hashes keys in
      let idx := drainEntriesLocked idx in
      let idx := with_entries idx
        (filter (fun e => s_contains victimKeys (ie_key e) = false) (entries idx)) (pendingEntries idx) in
      match victimHashes with
      | [] => idx
      | _ => resetAddLogLocked newEpoch
               (with_hashes idx (filterHashes (hashes idx) victimHashes) (filterHashes (pending idx) victimHashes))
      end
  end.
End remove_keys.

(** ** Readers *)

Definition Contains (idx : Index) (h : bytes) : bool :=
  if binary_search (hashes idx) h then true else existsb (fun p => bytes_eqb p h) (pending idx).

(** [time.Since(builtAt) < interval]; since the zero time it saturates at the
    largest [time.Duration], which no interval exceeds. *)
Definition maxDuration : Z := 2 ^ 63 - 1.
Definition since (now : Z) (t : option Z) : Z :=
  match t with Some t => now - t | None => maxDuration end.

Definition blobServableLocked (now : Z) (idx : Index) (c : option indexBlobCache) : bool :=
  match c with
  | None => false
  | Some c =>
      match ib_blob c with
      | [] => false
      | _ => (ib_mutation c =? mutations idx) || (since now (ib_builtAt c) <? blobMinInterval idx)
      end
  end.

Definition mergePendingLocked (idx : Index) : indexGen * Index :=
  let idx := match pending idx with
             | [] => idx
             | _ => with_hashes idx (merge_sorted (hashes idx) (sort_dedupe (pending idx))) []
             end in
  (IndexGen (addEpoch idx) (Z.of_nat (length (added idx))), idx).

(** The read-locked fast path of [BlobGenForm]. *)
Definition blobFast (now : Z) (form : indexForm) (idx : Index) : option (bytes * bytes * indexGen) :=
  match forms idx !! form with
  | Some c => if blobServableLocked now idx (Some c) then Some (ib_blob c, ib_etag c, ib_gen c) else None
  | None => None
  end.

(** The write-locked slow path: other operations may have run since the fast
    path looked, so it looks again. *)
Definition blobSlow (now : Z) (form : indexForm) (idx : Index) : bytes * bytes * indexGen * Index :=
  match blobFast now form idx with
  | Some r => (r, idx)
  | None =>
      let '(gen, idx) := mergePendingLocked idx in
      let blob := marshalForm (hashes idx) form in
      let c := IndexBlobCache blob (blobETag blob) gen (Some now) (mutations idx) in
      (blob, blobETag blob, gen,
       with_log idx (addEpoch idx) (added idx) (mutations idx) (<[form := c]> (forms idx)))
  end.

(** [BlobGenForm] with nothing between its two critical sections. *)
Definition BlobGenForm (now : Z) (form : indexForm) (idx : Index) : bytes * bytes * indexGen * Index :=
  match blobFast now form idx with
  | Some r => (r, idx)
  | None => blobSlow now form idx
  end.

Definition DeltaForm (from : indexGen) (form : indexForm) (idx : Index) : option (bytes * indexGen) :=
  if negb (epoch from =? addEpoch idx) || (Z.of_nat (length (added idx)) <? seqno from) then None
  else
    let tail := drop (Z.to_nat (seqno from)) (added idx) in
    Some (marshalForm (sort_dedupe tail) form, IndexGen (addEpoch idx) (Z.of_nat (length (added idx)))).

Definition hashBitsLocked (idx : Index) : Z := if hashBits idx =? 0 then defaultIndexHashBits else hashBits idx.

Definition FormV2 (idx : Index) : indexForm := IndexForm gbciVersion2 (hashBitsLocked idx).

Definition WireSize (now : Z) (idx : Index) : Z :=
  let bits := hashBitsLocked idx in
  match forms idx !! IndexForm gbciVersion2 bits with
  | Some c =>
      if blobServableLocked now idx (Some c) then Z.of_nat (length (ib_blob c))
      else gbci2Size bits (prefixValues (hashes idx) (sort_dedupe (pending idx)) bits)
  | None => gbci2Size bits (prefixValues (hashes idx) (sort_dedupe (pending idx)) bits)
  end.

(** ** Settings *)

Definition SetHashBits (n : Z) (idx : Index) : Index :=
  MkIndex (entries idx) (entriesOff idx) (pendingEntries idx) (hashes idx) (pending idx) (mutations idx) ∅
    (blobMinInterval idx) n (addEpoch idx) (added idx) (addLogLimit idx).

Definition SetBlobInterval (d : Z) (idx : Index) : Index :=
  MkIndex (entries idx) (entriesOff idx) (pendingEntries idx) (hashes idx) (pending idx) (mutations idx) (forms idx)
    d (hashBits idx) (addEpoch idx) (added idx) (addLogLimit idx).

Definition DisableEntryTracking (idx : Index) : Index :=
  MkIndex [] true [] (hashes idx) (pending idx) (mutations idx) (forms idx)
    (blobMinInterval idx) (hashBits idx) (addEpoch idx) (added idx) (addLogLimit idx).

(** ** Rebuild *)

Record indexBuild := IndexBuild {
  bu_entries : list indexEntry; bu_hashes : list bytes; bu_sorted : bool; bu_entriesOff : bool
}.

Definition newIndexBuild (off : bool) : indexBuild := IndexBuild [] [] false off.

(** One object of the walk: key and modification time. *)
Definition build_add (b : indexBuild) (obj : bytes * Z) : indexBuild :=
  let '(key, mtime) := obj in
  let ck := newCompactKey key in
  let es := if bu_entriesOff b then bu_entries b else bu_entries b ++ [IndexEntry ck mtime] in
  let '(h, ok) := actionHash ck in
  let hs := if ok then bu_hashes b ++ [h] else bu_hashes b in
  IndexBuild es hs (bu_sorted b) (bu_entriesOff b).

Definition build_finish (b : indexBuild) : indexBuild :=
  if bu_sorted b then b
  else IndexBuild (sortEntriesByMtime (bu_entries b)) (sort_dedupe (bu_hashes b)) true (bu_entriesOff b).

Definition applyRebuild (newEpoch : Z) (b : indexBuild) (idx : Index) : Index :=
  let b := build_finish b in
  let idx := with_hashes (with_entries idx (bu_entries b) (pendingEntries idx)) (bu_hashes b) (pending idx) in
  let idx := with_log idx (addEpoch idx) (added idx) (mutations idx) ∅ in
  resetAddLogLocked newEpoch idx.

(** [rebuild]: [walk] is what [Storage.Walk] visited, [None] when it failed. *)
Definition rebuild (newEpoch : Z) (walk : option (list (bytes * Z))) (idx : Index) : Index :=
  match walk with
  | None => idx
  | Some objs =>
      let b := foldl build_add (newIndexBuild (entriesOff idx)) objs in
      applyRebuild newEpoch (build_finish b) idx
  end.

Definition NewIndex (entriesDefault : bool) (epoch0 newEpoch : Z) (walk : option (list (bytes * Z))) : Index :=
  rebuild newEpoch walk
    (MkIndex [] (negb entriesDefault) [] [] [] 0 ∅ defaultIndexBlobInterval 0 epoch0 [] 0).

(** ** Invariant *)

(** What [/_index] advertises, now or on the next serialization. *)
Definition advertised (idx : Index) (h : bytes) : Prop := h ∈ hashes idx \/ h ∈ pending idx.

(** [l] is the advertised set as it was at position [g] of the current epoch,
    whose set at its start was [base]. *)
Definition snapshot (base : bytes -> Prop) (idx : Index) (g : indexGen) (l : list bytes) : Prop :=
  epoch g = addEpoch idx /\ 0 <= seqno g <= Z.of_nat (length (added idx)) /\
  ssorted l /\ Forall is_hash l /\
  (forall h, h ∈ l <-> base h \/ h ∈ take (Z.to_nat (seqno g)) (added idx)).

(** A cached serialization is a snapshot of this epoch, complete when no change
    followed it, or belongs to an ended epoch and can no longer be served. *)
Definition form_cache_ok (base : bytes -> Prop) (idx : Index) (f : indexForm) (c : indexBlobCache) : Prop :=
  ib_mutation c <= mutations idx /\
  ((exists l, snapshot base idx (ib_gen c) l /\ ib_blob c = marshalForm l f /\ ib_etag c = blobETag (ib_blob c) /\
              (ib_mutation c = mutations idx -> seqno (ib_gen c) = Z.of_nat (length (added idx)))) \/
   (ib_builtAt c = None /\ ib_mutation c < mutations idx)).

Definition idx_inv (base : bytes -> Prop) (idx : Index) : Prop :=
  ssorted (hashes idx) /\
  Forall is_hash (hashes idx) /\ Forall is_hash (pending idx) /\ Forall is_hash (added idx) /\
  (forall h, advertised idx h <-> base h \/ h ∈ added idx) /\
  (forall f c, forms idx !! f = Some c -> form_cache_ok base idx f c) /\
  blobMinInterval idx <= maxDuration.

Inductive idxOp :=
  | IPut (now newEpoch : Z) (key : bytes)
  | IRemove (newEpoch : Z) (key : bytes)
  | IRemoveKeys (newEpoch : Z) (keys : list bytes)
  | IBlob (now : Z) (form : indexForm)
  | IDrain
  | IRebuild (newEpoch : Z) (walk : option (list (bytes * Z)))
  | ISetHashBits (n : Z)
  | ISetBlobInterval (d : Z)
  | IDisableEntryTracking.

Section ops.
Context {St : Type} `{!SetOps St compactKey}.

Definition runIdx (idx : Index) (o : idxOp) : Index :=
  match o with
  | IPut now e key => Put now e key idx
  | IRemove e key => Remove e key idx
  | IRemoveKeys e keys => RemoveKeys (St := St) e keys idx
  | IBlob now form => (BlobGenForm now form idx).2
  | IDrain => drainEntriesLocked idx
  | IRebuild e walk => rebuild e walk idx
  | ISetHashBits n => SetHashBits n idx
  | ISetBlobInterval d => SetBlobInterval d idx
  | IDisableEntryTracking => DisableEntryTracking idx
  end.

(** The epoch an operation draws if it ends the current one. *)
Definition drawn (o : idxOp) : list Z :=
  match o with
  | IPut _ e _ | IRemove e _ | IRemoveKeys e _ | IRebuild e _ => [e]
  | _ => []
  end.

Definition op_ok (o : idxOp) : Prop :=
  match o with ISetBlobInterval d => d <= maxDuration | _ => True end.

(** An operation continues the epoch, extending its log, or starts a drawn one. *)
Definition evolves (ds : list Z) (base : bytes -> Prop) (idx : Index) (base' : bytes -> Prop) (idx' : Index) : Prop :=
  idx_inv base' idx' /\
  ((addEpoch idx' = addEpoch idx /\ base' = base /\ added idx `prefix_of` added idx') \/ addEpoch idx' ∈ ds).

Lemma snapshot_extend base idx idx' g l :
  snapshot base idx g l -> addEpoch idx' = addEpoch idx -> added idx `prefix_of` added idx' -> snapshot base idx' g l.
Proof.
  intros (H1 & H2 & H3 & H4 & H5) He [t Ht]. split_and!; try done; try congruence; try lia.
  - rewrite Ht, length_app. lia.
  - intros h. rewrite H5, Ht, take_app_le by lia. done.
Qed.

(** A change of the other fields keeps the invariant. *)
Lemma inv_same base idx idx' :
  idx_inv base idx -> hashes idx' = hashes idx -> pending idx' = pending idx -> added idx' = added idx ->
  addEpoch idx' = addEpoch idx -> mutations idx' = mutations idx ->
  (forall f c, forms idx' !! f = Some c -> forms idx !! f = Some c) ->
  blobMinInterval idx' <= maxDuration -> idx_inv base idx'.
Proof.
  intros (I1 & I2 & I3 & I4 & I5 & I6 & I7) Hh Hp Ha He Hm Hf Hi.
  split_and!; rewrite ?Hh, ?Hp, ?Ha; try done.
  - intros h. unfold advertised. rewrite Hh, Hp. apply I5.
  - intros f c Hc. destruct (I6 f c (Hf f c Hc)) as [H1 H2]. unfold form_cache_ok. rewrite Hm, Ha. split; [done|].
    destruct H2 as [(l & Hs & H2)|H2]; [left|by right]. exists l. split; [|done].
    eapply snapshot_extend; [done|done|]. by rewrite Ha.
Qed.

Lemma evolves_same base idx idx' ds :
  idx_inv base idx' -> added idx' = added idx -> addEpoch idx' = addEpoch idx -> evolves ds base idx base idx'.
Proof. intros Hi Ha He. split; [done|]. left. split_and!; [done|done|]. by rewrite Ha. Qed.

(** Ending the epoch: whatever the hash lists now are, they are the new base. *)
Lemma reset_inv e idx :
  ssorted (hashes idx) -> Forall is_hash (hashes idx) -> Forall is_hash (pending idx) ->
  (forall f c, forms idx !! f = Some c -> ib_mutation c <= mutations idx) -> blobMinInterval idx <= maxDuration ->
  idx_inv (advertised idx) (resetAddLogLocked e idx).
Proof.
  intros H1 H2 H3 H4 H5. split_and!; try done; cbn [resetAddLogLocked with_log hashes pending added forms mutations blobMinInterval].
  - intros h. rewrite elem_of_nil. unfold advertised. simpl. tauto.
  - intros f c Hc. rewrite lookup_fmap_Some in Hc. destruct Hc as (c0 & <- & Hc0). specialize (H4 _ _ Hc0).
    unfold form_cache_ok. cbn. split; [lia|]. right. split; [done|lia].
Qed.

Lemma actionHash_wf key h : actionHash (newCompactKey key) = (h, true) -> is_hash h.
Proof.
  unfold actionHash, newCompactKey. destruct (extractActionHash key) as [h'|] eqn:E; simpl; intros H; simplify_eq.
  - by apply extractActionHash_wf in E as (? & _).
  - split; [done|]. apply Forall_replicate. unfold is_byte. lia.
Qed.

Lemma drain_fields idx :
  hashes (drainEntriesLocked idx) = hashes idx /\ pending (drainEntriesLocked idx) = pending idx /\
  added (drainEntriesLocked idx) = added idx /\ addEpoch (drainEntriesLocked idx) = addEpoch idx /\
  mutations (drainEntriesLocked idx) = mutations idx /\ forms (drainEntriesLocked idx) = forms idx /\
  blobMinInterval (drainEntriesLocked idx) = blobMinInterval idx.
Proof. unfold drainEntriesLocked. destruct (pendingEntries idx); split_and!; done. Qed.

Lemma cache_mutation_le base idx f c :
  idx_inv base idx -> forms idx !! f = Some c -> ib_mutation c <= mutations idx.
Proof. intros (_ & _ & _ & _ & _ & I6 & _) Hc. by destruct (I6 f c Hc). Qed.

(** Adding a hash without ending the epoch. *)
Lemma add_inv base idx h :
  idx_inv base idx -> is_hash h ->
  idx_inv base
    (with_log (with_hashes idx (hashes idx) (pending idx ++ [h])) (addEpoch idx) (added idx ++ [h])
       (mutations idx + 1) (forms idx)).
Proof.
  intros (I1 & I2 & I3 & I4 & I5 & I6 & I7) Hh.
  split_and!; cbn [with_log with_hashes hashes pending added forms mutations blobMinInterval]; try done.
  - apply Forall_app. split; [done|]. by constructor.
  - apply Forall_app. split; [done|]. by constructor.
  - intros x. specialize (I5 x). unfold advertised in *. cbn. rewrite !elem_of_app, list_elem_of_singleton. tauto.
  - intros f c Hc. destruct (I6 f c Hc) as [H1 H2]. split; [cbn; lia|].
    destruct H2 as [(l & Hs & Hb & Het & Hm)|[Hb Hm]]; [left|right; cbn; split; [done|lia]].
    exists l. split_and!; [|done|done|cbn; lia].
    eapply snapshot_extend; [done|done|]. cbn. by apply prefix_app_r.
Qed.

Lemma put_evolves base idx now e key :
  idx_inv base idx -> exists base', evolves [e] base idx base' (Put now e key idx).
Proof.
  intros Hinv. unfold Put. destruct (actionHash (newCompactKey key)) as [h ok] eqn:Eh.
  set (idx1 := if entriesOff idx then idx else _).
  assert (Hinv1 : idx_inv base idx1).
  { unfold idx1. destruct (entriesOff idx); [done|]. eapply inv_same; try done. by destruct Hinv as (_ & _ & _ & _ & _ & _ & ?). }
  assert (Hsame : added idx1 = added idx /\ addEpoch idx1 = addEpoch idx).
  { unfold idx1. by destruct (entriesOff idx). }
  destruct ok; [|exists base; apply evolves_same; [done|apply Hsame|apply Hsame]].
  pose proof (actionHash_wf key h Eh) as Hh. unfold appendAddLocked.
  set (limit := if _ =? 0 then _ else _). cbn [with_hashes added].
  destruct (limit <=? Z.of_nat (length (added idx1))).
  - exists (advertised idx1). split; [|right; by apply list_elem_of_singleton].
    pose proof Hinv1 as (I1 & I2 & I3 & _ & _ & _ & I7).
    apply (add_inv _ (resetAddLogLocked e idx1) h); [|done].
    apply reset_inv; try done. intros f c. by apply (cache_mutation_le base).
  - exists base. split; [by apply (add_inv base idx1 h)|]. left. cbn.
    destruct Hsame as [-> ->]. split_and!; [done|done|]. by apply prefix_app_r.
Qed.

Lemma reset_evolves base idx idx1 e :
  idx_inv base idx -> ssorted (hashes idx1) -> Forall is_hash (hashes idx1) -> Forall is_hash (pending idx1) ->
  (forall f c, forms idx1 !! f = Some c -> forms idx !! f = Some c) -> mutations idx1 = mutations idx ->
  blobMinInterval idx1 = blobMinInterval idx ->
  exists base', evolves [e] base idx base' (resetAddLogLocked e idx1).
Proof.
  intros Hinv H1 H2 H3 Hf Hm Hi. exists (advertised idx1). split; [|right; by apply list_elem_of_singleton].
  apply reset_inv; try done; [|rewrite Hi; by apply Hinv]. intros f c Hc%Hf. rewrite Hm. by eapply cache_mutation_le.
Qed.

Lemma remove_evolves base idx e key :
  idx_inv base idx -> exists base', evolves [e] base idx base' (Remove e key idx).
Proof.
  intros Hinv. unfold Remove. destruct (actionHash (newCompactKey key)) as [h ok].
  destruct (drain_fields idx) as (D1 & D2 & D3 & D4 & D5 & D6 & D7). pose proof Hinv as (I1 & I2 & I3 & _ & _ & _ & I7).
  destruct ok.
  - apply reset_evolves; cbn [with_hashes with_entries hashes pending forms mutations blobMinInterval]; unfold removeHash;
      rewrite ?D1, ?D2, ?D5, ?D6, ?D7; auto with golist.
  - exists base. apply evolves_same; cbn [with_entries added addEpoch]; [|done|done].
    apply (inv_same base idx); cbn [with_entries hashes pending added addEpoch mutations forms blobMinInterval];
      rewrite ?D1, ?D2, ?D3, ?D4, ?D5, ?D6, ?D7; done.
Qed.

Lemma remove_keys_evolves base idx e keys :
  idx_inv base idx -> exists base', evolves [e] base idx base' (RemoveKeys (St := St) e keys idx).
Proof.
  intros Hinv. unfold RemoveKeys. destruct (drain_fields idx) as (D1 & D2 & D3 & D4 & D5 & D6 & D7).
  pose proof Hinv as (I1 & I2 & I3 & _ & _ & _ & I7).
  destruct keys as [|k keys]; [exists base; by apply evolves_same|].
  destruct (victim_hashes (k :: keys)) as [|v vs].
  - exists base. apply evolves_same; cbn [with_entries added addEpoch]; [|done|done].
    apply (inv_same base idx); cbn [with_entries hashes pending added addEpoch mutations forms blobMinInterval];
      rewrite ?D1, ?D2, ?D3, ?D4, ?D5, ?D6, ?D7; done.
  - apply reset_evolves; cbn [with_hashes with_entries hashes pending forms mutations blobMinInterval]; unfold filterHashes;
      rewrite ?D1, ?D2, ?D5, ?D6, ?D7; auto with golist.
Qed.

(** Folding the pending buffer changes nothing a client can see. *)
Lemma merge_inv base idx :
  idx_inv base idx ->
  let '(g, idx') := mergePendingLocked idx in
  idx_inv base idx' /\ g = IndexGen (addEpoch idx) (Z.of_nat (length (added idx))) /\
  addEpoch idx' = addEpoch idx /\ added idx' = added idx /\ mutations idx' = mutations idx /\
  forms idx' = forms idx /\ pending idx' = [] /\ (forall h, h ∈ hashes idx' <-> advertised idx h).
Proof.
  intros Hinv. pose proof Hinv as (I1 & I2 & I3 & I4 & I5 & I6 & I7). unfold mergePendingLocked.
  destruct (pending idx) as [|p ps] eqn:Ep.
  { split_and!; try done. intros h. unfold advertised. rewrite Ep, elem_of_nil. tauto. }
  rewrite <- Ep in *.
  assert (Hmem : forall h, h ∈ merge_sorted (hashes idx) (sort_dedupe (pending idx)) <-> advertised idx h).
  { intros h. rewrite elem_of_merge_sorted, elem_of_sort_dedupe. done. }
  cbn [with_hashes added addEpoch mutations forms pending hashes]. split_and!; try done.
  split_and!; cbn [with_hashes added addEpoch mutations forms pending hashes blobMinInterval]; try done.
  - auto with golist.
  - rewrite Forall_forall in *. intros h [Hh|Hh]%Hmem; auto.
  - intros h. rewrite <- I5, <- Hmem. unfold advertised at 1. cbn. rewrite elem_of_nil. tauto.
Qed.

Lemma blob_evolves base idx now form :
  idx_inv base idx -> evolves [] base idx base (BlobGenForm now form idx).2.
Proof.
  intros Hinv. unfold BlobGenForm, blobSlow. destruct (blobFast now form idx) as [[[b et] g]|]; [by apply evolves_same|].
  pose proof (merge_inv base idx Hinv) as Hm. destruct (mergePendingLocked idx) as [g idx'].
  destruct Hm as (H1 & -> & H2 & H3 & H4 & H5 & H6 & H7). pose proof H1 as (J1 & J2 & J3 & J4 & J5 & J6 & J7).
  apply evolves_same; cbn [snd with_log added addEpoch]; [|done|done].
  split_and!; cbn [with_log hashes pending added forms blobMinInterval]; try done.
  intros f c Hc. destruct (decide (f = form)) as [->|Hne].
  - rewrite lookup_insert_eq in Hc. injection Hc as <-. split; [cbn; lia|]. left.
    exists (hashes idx'). cbn [ib_gen ib_blob ib_etag ib_mutation with_log added addEpoch mutations seqno].
    split; [|split_and!; [done|done|by rewrite H3]].
    split_and!; cbn [epoch seqno with_log addEpoch added]; rewrite ?H3; try done; try lia.
    intros h. rewrite Nat2Z.id, firstn_all, <- H3, <- J5. unfold advertised. rewrite H6, elem_of_nil. tauto.
  - rewrite lookup_insert_ne in Hc by done. apply (J6 f c Hc).
Qed.

Lemma build_hashes_wf objs b :
  Forall is_hash (bu_hashes b) -> Forall is_hash (bu_hashes (foldl build_add b objs)).
Proof.
  revert b; induction objs as [|[key mt] objs IH]; intros b Hb; [done|]. cbn [foldl]. apply IH. unfold build_add.
  destruct (actionHash (newCompactKey key)) as [h ok] eqn:Eh. destruct ok; [|done]. cbn.
  apply Forall_app. split; [done|]. constructor; [by eapply actionHash_wf|constructor].
Qed.

Lemma build_sorted_false objs b : bu_sorted (foldl build_add b objs) = bu_sorted b.
Proof.
  revert b; induction objs as [|[key mt] objs IH]; intros b; [done|]. cbn [foldl]. rewrite IH. unfold build_add.
  by destruct (actionHash (newCompactKey key)).
Qed.

Lemma rebuild_evolves base idx e walk :
  idx_inv base idx -> exists base', evolves [e] base idx base' (rebuild e walk idx).
Proof.
  intros Hinv. unfold rebuild. destruct walk as [objs|]; [|exists base; by apply evolves_same].
  set (b := foldl build_add _ objs).
  assert (Hb : Forall is_hash (bu_hashes b)) by (apply build_hashes_wf; constructor).
  assert (Hs : bu_sorted b = false) by apply build_sorted_false.
  pose proof Hinv as (I1 & I2 & I3 & _ & _ & _ & I7).
  unfold applyRebuild, build_finish. rewrite Hs. cbn [bu_sorted bu_hashes bu_entries].
  apply reset_evolves; cbn [with_log with_hashes with_entries hashes pending forms mutations blobMinInterval]; try done.
  - apply sort_dedupe_ssorted.
  - apply Forall_forall. intros h Hh. rewrite elem_of_sort_dedupe in Hh. revert h Hh. by apply Forall_forall.
Qed.

Lemma run_evolves base idx o :
  idx_inv base idx -> op_ok o -> exists base', evolves (drawn o) base idx base' (runIdx idx o).
Proof.
  intros Hinv Hok. pose proof Hinv as (_ & _ & _ & _ & _ & _ & I7).
  destruct o; cbn [runIdx drawn].
  - by apply put_evolves.
  - by apply remove_evolves.
  - by apply remove_keys_evolves.
  - exists base. by apply blob_evolves.
  - destruct (drain_fields idx) as (D1 & D2 & D3 & D4 & D5 & D6 & D7). exists base.
    apply evolves_same; [|done|done]. eapply inv_same; try done; [|by rewrite D7]. by rewrite D6.
  - by apply rebuild_evolves.
  - exists base. apply evolves_same; [|done|done]. by eapply inv_same.
  - exists base. apply evolves_same; [|done|done]. by eapply inv_same.
  - exists base. apply evolves_same; [|done|done]. by eapply inv_same.
Qed.

Lemma new_index_inv entriesDefault e0 e walk :
  exists base, idx_inv base (NewIndex entriesDefault e0 e walk).
Proof.
  set (idx0 := MkIndex [] (negb entriesDefault) [] [] [] 0 ∅ defaultIndexBlobInterval 0 e0 [] 0).
  assert (Hinv : idx_inv (fun _ => False) idx0).
  { split_and!; cbn; try done; [apply SSorted_nil|].
    intros h. unfold advertised. cbn. rewrite !elem_of_nil. tauto. }
  destruct (rebuild_evolves _ idx0 e walk Hinv) as (base & Hb & _). by exists base.
Qed.

Lemma contains_advertised base idx h : idx_inv base idx -> Contains idx h = true <-> advertised idx h.
Proof.
  intros (I1 & _). unfold Contains, advertised.
  assert (Hex : existsb (fun p => bytes_eqb p h) (pending idx) = true <-> h ∈ pending idx).
  { rewrite existsb_exists. setoid_rewrite bytes_eqb_eq. setoid_rewrite <- list_elem_of_In. naive_solver. }
  destruct (binary_search (hashes idx) h) eqn:E.
  - apply binary_search_spec in E; [naive_solver|done].
  - rewrite Hex. assert (h ∉ hashes idx) by (intros Hin; apply binary_search_spec in Hin; [congruence|done]). tauto.
Qed.

(** ** Serialization: freshness and size *)

Lemma reach_inv ops idx base :
  Forall op_ok ops -> idx_inv base idx -> exists base', idx_inv base' (foldl runIdx idx ops).
Proof.
  revert idx base; induction ops as [|o ops IH]; intros idx base Hok Hinv; [eauto|].
  apply Forall_cons in Hok as [Ho Hok].
  destruct (run_evolves base idx o Hinv Ho) as (base' & Hb & _). simpl. eauto.
Qed.

Lemma start_inv entriesDefault e0 e walk ops :
  Forall op_ok ops -> exists base, idx_inv base (foldl runIdx (NewIndex entriesDefault e0 e walk) ops).
Proof. intros Hok. destruct (new_index_inv entriesDefault e0 e walk) as [base0 Hinv0]. by eapply reach_inv. Qed.

(** ** The advertised set, operation by operation *)

Definition walk_hashes (objs : list (bytes * Z)) : list bytes := victim_hashes (map fst objs).

Lemma build_hashes objs b : bu_hashes (foldl build_add b objs) = bu_hashes b ++ walk_hashes objs.
Proof.
  revert b; induction objs as [|[key mt] objs IH]; intros b; [simpl; by rewrite app_nil_r|].
  cbn [foldl]. rewrite IH. unfold build_add, walk_hashes, victim_hashes. cbn [map fst flat_map].
  destruct (actionHash (newCompactKey key)) as [h ok]. destruct ok; cbn; [by rewrite <- app_assoc|done].
Qed.

(** What each operation does to the advertised set. *)
Definition advertise_spec (idx : Index) (o : idxOp) (h : bytes) : Prop :=
  match o with
  | IPut _ _ key => actionHash (newCompactKey key) = (h, true) \/ advertised idx h
  | IRemove _ key => actionHash (newCompactKey key) <> (h, true) /\ advertised idx h
  | IRemoveKeys _ keys => h ∉ victim_hashes keys /\ advertised idx h
  | IRebuild _ (Some objs) => h ∈ walk_hashes objs \/ h ∈ pending idx
  | _ => advertised idx h
  end.

Lemma advertised_step base idx o h :
  idx_inv base idx -> advertised (runIdx idx o) h <-> advertise_spec idx o h.
Proof.
  intros Hinv. destruct (drain_fields idx) as (D1 & D2 & _).
  destruct o; cbn [runIdx advertise_spec].
  - unfold Put, appendAddLocked. destruct (actionHash (newCompactKey key)) as [h0 ok].
    destruct (entriesOff idx), ok; try case_match; unfold advertised; cbn;
      rewrite ?elem_of_app, ?list_elem_of_singleton; naive_solver.
  - unfold Remove. destruct (actionHash (newCompactKey key)) as [h0 ok].
    destruct ok; unfold advertised; cbn [with_entries with_hashes with_log resetAddLogLocked hashes pending];
      rewrite ?D1, ?D2; unfold removeHash; rewrite ?list_elem_of_filter; naive_solver.
  - unfold RemoveKeys. destruct keys as [|k keys]; [simpl; rewrite elem_of_nil; tauto|].
    destruct (victim_hashes (k :: keys)) as [|v vs] eqn:Ev; unfold advertised;
      cbn [with_entries with_hashes with_log resetAddLogLocked hashes pending]; rewrite ?D1, ?D2.
    + rewrite elem_of_nil. tauto.
    + unfold filterHashes. rewrite !list_elem_of_filter. tauto.
  - unfold BlobGenForm, blobSlow. destruct (blobFast now form idx) as [[[b et] g]|]; [done|].
    pose proof (merge_inv base idx Hinv) as Hm. destruct (mergePendingLocked idx) as [g idx'].
    destruct Hm as (_ & _ & _ & _ & _ & _ & Hp & Hh). unfold advertised at 1. cbn [snd with_log hashes pending].
    rewrite Hp, elem_of_nil, Hh. tauto.
  - unfold advertised. by rewrite D1, D2.
  - unfold rebuild. destruct walk as [objs|]; [|done]. unfold applyRebuild, build_finish.
    rewrite build_sorted_false. unfold advertised. cbn [bu_sorted newIndexBuild bu_hashes bu_entries].
    cbn [resetAddLogLocked with_log with_hashes with_entries hashes pending].
    rewrite elem_of_sort_dedupe, build_hashes. done.
  - done.
  - done.
  - done.
Qed.

(** The index advertises exactly what its operations say, from start-up
    through any sequence of operations: the master list stays strictly sorted
    (what [Contains]'s binary search and every serialization need), and after
    one more operation [Contains] answers true exactly for the hashes that
    operation's specification keeps or adds.  In particular a serialization, a
    drain or a settings change never changes the set. *)
Theorem index_contains_spec entriesDefault e0 e walk ops o h :
  Forall op_ok ops ->
  let idx := foldl runIdx (NewIndex entriesDefault e0 e walk) ops in
  ssorted (hashes idx) /\
  (Contains idx h = true <-> advertised idx h) /\
  (op_ok o -> Contains (runIdx idx o) h = true <-> advertise_spec idx o h).
Proof.
  intros Hok. cbv zeta.
  destruct (start_inv entriesDefault e0 e walk ops Hok) as [base Hinv].
  split_and!; [by destruct Hinv as (? & _)|by eapply contains_advertised|].
  intros Ho. destruct (run_evolves base _ o Hinv Ho) as (base' & Hb & _).
  rewrite contains_advertised by done. by eapply advertised_step.
Qed.

(** ** The synchronisation of server and client *)

Section sync.
Context {Kt : Type} `{!SetOps Kt bytes} `{!SetLaws Kt bytes}.
Context (form : indexForm) (form_served : form_ok form).

Abbreviation client := (option (indexGen * @keySet Kt)).

(** Counts small enough that Go's lengths do not wrap. *)
Definition idx_fits (idx : Index) : Prop :=
  count_ok (length (hashes idx) + length (pending idx) + length (added idx)).

(** The server changes; the client makes a full fetch; the client offers the
    ETag of a copy on its disk, whatever that copy is, and the server answers
    that it is current, so that the copy is adopted at the position the answer
    names; the client fetches a delta from its position and merges it.  A drawn
    epoch is never the one the client holds, and SHA-256 does not collide on the
    copy and the server's blob. *)
Inductive sync_step : Index * client -> Index * client -> Prop :=
  | sync_server idx (cl : client) o :
      op_ok o -> (forall g ks, cl = Some (g, ks) -> epoch g ∉ drawn o) ->
      sync_step (idx, cl) (runIdx idx o, cl)
  | sync_full idx cl now blob etag gen idx' ks etag' :
      BlobGenForm now form idx = (blob, etag, gen, idx') -> idx_fits idx' ->
      parseIndexBlob blob = inr (ks, etag') ->
      sync_step (idx, cl) (idx', Some (gen, ks))
  | sync_not_modified idx cl now blob etag gen idx' disk ks :
      BlobGenForm now form idx = (blob, etag, gen, idx') -> idx_fits idx' ->
      parseIndexBlob disk = inr (ks, etag) ->
      (sha256 (blob_body disk) = sha256 (blob_body blob) -> blob_body disk = blob_body blob) ->
      sync_step (idx, cl) (idx', Some (gen, ks))
  | sync_delta idx g ks blob to fresh etag' :
      DeltaForm g form idx = Some (blob, to) -> idx_fits idx ->
      parseIndexBlob blob = inr (fresh, etag') ->
      sync_step (idx, Some (g, ks)) (idx, Some (to, addAll ks fresh)).

Definition client_ok (base : bytes -> Prop) (idx : Index) (cl : client) : Prop :=
  match cl with
  | None => True
  | Some (g, ks) =>
      epoch g <> addEpoch idx \/
      exists l, snapshot base idx g l /\ reads_as l (64 - form_bits form) ks
  end.

Lemma short_list l l' : ssorted l -> (forall h : bytes, h ∈ l -> h ∈ l') -> (length l <= length l')%nat.
Proof.
  intros Hs Hsub. apply submseteq_length, NoDup_submseteq; [by apply ssorted_nodup|done].
Qed.

(** A fetched blob is a snapshot's serialization, whichever path served it. *)
Lemma blob_snapshot base idx now blob etag gen idx' :
  idx_inv base idx -> BlobGenForm now form idx = (blob, etag, gen, idx') ->
  idx_inv base idx' /\ exists l, snapshot base idx' gen l /\ blob = marshalForm l form /\ etag = blobETag blob.
Proof.
  intros Hinv Hb. pose proof (blob_evolves base idx now form Hinv) as [Hev _]. rewrite Hb in Hev. cbn [snd] in Hev.
  split; [done|].
  assert (Hfast : forall idx1 g b et, idx_inv base idx1 -> blobFast now form idx1 = Some (b, et, g) ->
    exists l, snapshot base idx1 g l /\ b = marshalForm l form /\ et = blobETag b).
  { intros idx1 g b et (_ & _ & _ & _ & _ & I6 & I7). unfold blobFast.
    destruct (forms idx1 !! form) as [c|] eqn:Ec; [|done]. destruct (I6 _ _ Ec) as [_ [(l & Hs & Hbl & Het & _)|[Hst Hm]]].
    - destruct (blobServableLocked now idx1 (Some c)); [|done]. intros [= <- <- <-]. by exists l.
    - unfold blobServableLocked. rewrite Hst. cbn [since]. destruct (ib_blob c); [done|].
      destruct (Z.eqb_spec (ib_mutation c) (mutations idx1)); [lia|].
      destruct (Z.ltb_spec maxDuration (blobMinInterval idx1)); [lia|done]. }
  unfold BlobGenForm, blobSlow in Hb. destruct (blobFast now form idx) as [[[b et] g]|] eqn:Ef.
  { simplify_eq. by apply Hfast. }
  pose proof (merge_inv base idx Hinv) as Hm. destruct (mergePendingLocked idx) as [g idx1].
  destruct Hm as (H1 & -> & H2 & H3 & _ & _ & H6 & H7). pose proof H1 as (J1 & J2 & _ & _ & J5 & _).
  simplify_eq. exists (hashes idx1). split; [|done].
  split_and!; cbn [epoch seqno with_log addEpoch added]; rewrite ?H3; try done; try lia.
  intros h. rewrite Nat2Z.id, firstn_all, <- H3, <- J5. unfold advertised. rewrite H6, elem_of_nil. tauto.
Qed.

Lemma snapshot_advertised base idx g l h : idx_inv base idx -> snapshot base idx g l -> h ∈ l -> advertised idx h.
Proof.
  intros (_ & _ & _ & _ & I5 & _) (_ & _ & _ & _ & Hl) Hin. apply I5. apply Hl in Hin as [?|Hin]; [by left|right].
  rewrite <- (take_drop (Z.to_nat (seqno g)) (added idx)). apply elem_of_app. auto.
Qed.

Lemma snapshot_size base idx g l :
  idx_inv base idx -> snapshot base idx g l -> (length l <= length (hashes idx) + length (pending idx))%nat.
Proof.
  intros Hinv Hs. rewrite <- length_app. apply short_list; [by destruct Hs as (_ & _ & ? & _)|].
  intros h Hh. apply elem_of_app. by eapply snapshot_advertised.
Qed.

(** A client reads what is served as the snapshot it is. *)
Lemma blob_readable base idx now blob etag gen idx' :
  idx_inv base idx -> BlobGenForm now form idx = (blob, etag, gen, idx') -> idx_fits idx' ->
  idx_inv base idx' /\ exists l (ks : @keySet Kt), snapshot base idx' gen l /\ parseIndexBlob blob = inr (ks, etag) /\ reads_as l (64 - form_bits form) ks.
Proof.
  intros Hinv Hb Hf. destruct (blob_snapshot base idx now blob etag gen idx' Hinv Hb) as (Hinv' & l & Hs & -> & ->).
  pose proof Hs as (_ & _ & Hls & Hlw & _).
  destruct (parse_marshalForm (St := Kt) l form Hls Hlw form_served) as (ks & Hp & Hr).
  { pose proof (snapshot_size _ _ _ _ Hinv' Hs). unfold idx_fits, count_ok in *. lia. }
  split; [done|]. by exists l, ks.
Qed.

Lemma client_ok_step s s' :
  sync_step s s' -> (exists base, idx_inv base s.1 /\ client_ok base s.1 s.2) ->
  exists base, idx_inv base s'.1 /\ client_ok base s'.1 s'.2.
Proof.
  intros Hstep (base & Hinv & Hcl). destruct Hstep as [idx cl o Ho Hfresh|idx cl now blob etag gen idx' ks etag' Hb Hf Hp
    |idx cl now blob etag gen idx' disk ks Hb Hf Hp Hsha|idx g ks blob to fresh etag' Hd Hf Hp]; cbn [fst snd] in *.
  - destruct (run_evolves base idx o Hinv Ho) as (base' & Hinv' & Hev). exists base'. split; [done|].
    destruct cl as [[g ks]|]; [|done]. specialize (Hfresh g ks eq_refl). cbn [client_ok] in *.
    destruct Hev as [(He & -> & Hpre)|Hin].
    + destruct Hcl as [Hne|(l & Hs & Hr)]; [left; congruence|right]. exists l. split; [|done].
      by eapply snapshot_extend.
    + left. intros Heq. apply Hfresh. by rewrite Heq.
  - destruct (blob_readable base idx now blob etag gen idx' Hinv Hb Hf) as (Hinv' & l & ks' & Hs & Hp' & Hr).
    exists base. split; [done|]. right. exists l. split; [done|]. rewrite Hp' in Hp. by simplify_eq.
  - destruct (blob_readable base idx now blob etag gen idx' Hinv Hb Hf) as (Hinv' & l & ks' & Hs & Hp' & Hr).
    exists base. split; [done|]. right. exists l. split; [done|].
    pose proof (parse_same_etag _ _ _ _ _ Hp Hp' Hsha) as ->. rewrite Hp' in Hp. by simplify_eq.
  - exists base. split; [done|]. right. unfold DeltaForm in Hd.
    destruct (negb (epoch g =? addEpoch idx) || (Z.of_nat (length (added idx)) <? seqno g)) eqn:Eg; [done|].
    injection Hd as <- <-. apply orb_false_iff in Eg as [Ee Es]. bool2prop.
    pose proof Hinv as (_ & _ & _ & I4 & _).
    set (tail := drop (Z.to_nat (seqno g)) (added idx)) in *.
    assert (Htw : Forall is_hash (sort_dedupe tail)).
    { apply Forall_forall. intros h Hh. rewrite elem_of_sort_dedupe in Hh.
      apply (Forall_drop _ (Z.to_nat (seqno g))) in I4. revert h Hh. by apply Forall_forall. }
    destruct (parse_marshalForm (St := Kt) (sort_dedupe tail) form (sort_dedupe_ssorted _) Htw form_served) as (ks' & Hp' & Hr).
    { assert (length (sort_dedupe tail) <= length (added idx))%nat.
      { apply short_list; [apply sort_dedupe_ssorted|]. intros h Hh. rewrite elem_of_sort_dedupe in Hh.
        rewrite <- (take_drop (Z.to_nat (seqno g)) (added idx)). apply elem_of_app. auto. }
      unfold idx_fits, count_ok in *. lia. }
    rewrite Hp' in Hp. simplify_eq.
    destruct Hcl as [Hne|(l & Hs & Hk1 & Hk2 & Hk3)]; [done|]. destruct Hr as (Hf1 & Hf2 & Hf3).
    destruct (addAll_ok ks fresh Hk1 Hf1) as (A1 & A2 & A3). rewrite Hk2, Hf2, Z.max_id in A2.
    pose proof Hs as (_ & Hseq & Hls & Hlw & Hlm).
    exists (merge_sorted l (sort_dedupe tail)).
    assert (Hmem : forall h, h ∈ merge_sorted l (sort_dedupe tail) <-> h ∈ l \/ h ∈ tail)
      by (intros h; by rewrite elem_of_merge_sorted, elem_of_sort_dedupe).
    split.
    + split_and!; cbn [epoch seqno]; try done; try lia; [auto with golist| |].
      * apply Forall_forall. intros h [Hh|Hh]%Hmem; [revert h Hh; by apply Forall_forall|].
        apply elem_of_sort_dedupe in Hh. revert h Hh; by apply Forall_forall.
      * intros h. rewrite Hmem, Hlm, Nat2Z.id, firstn_all.
        rewrite <- (take_drop (Z.to_nat (seqno g)) (added idx)) at 2. rewrite elem_of_app. tauto.
    + split_and!; [done|done|]. intros p. rewrite A3, A2, Hk2, Hf2, Z.sub_diag.
      setoid_rewrite Z.shiftr_0_r. setoid_rewrite Hk3. setoid_rewrite Hf3. setoid_rewrite Hmem.
      setoid_rewrite elem_of_sort_dedupe. naive_solver.
Qed.

Lemma client_ok_reachable s s' :
  rtc sync_step s s' -> (exists base, idx_inv base s.1 /\ client_ok base s.1 s.2) ->
  exists base, idx_inv base s'.1 /\ client_ok base s'.1 s'.2.
Proof. induction 1 as [s|s s1 s' Hstep _ IH]; intros Hs; [done|]. by eapply IH, client_ok_step. Qed.

(** C3. Index synchronisation is exact.  Server and client run any
    interleaving of server operations, full fetches, fetches answered 304 for
    whatever copy is on the client's disk, and delta fetches, from a fresh server
    and a client that holds nothing.  Whenever the client is at the
    server's add-log position, its key set contains a hash exactly when the
    server advertises one with the same prefix: nothing advertised is missed and
    nothing else is claimed.  A delta is answered exactly when the client's
    position is of the server's current epoch, and always brings the client to
    the server's position.  A drawn epoch is not the one the client holds, and
    SHA-256 does not collide on a copy and the blob it is taken for. *)
Theorem index_sync_exact entriesDefault e0 e walk idx g ks :
  rtc sync_step (NewIndex entriesDefault e0 e walk, None) (idx, Some (g, ks)) ->
  (g = IndexGen (addEpoch idx) (Z.of_nat (length (added idx))) ->
   forall h, is_hash h ->
     (ks_Contains ks h = true <->
      exists h', Contains idx h' = true /\ prefix_value (form_bits form) h' = prefix_value (form_bits form) h)) /\
  (epoch g = addEpoch idx <-> is_Some (DeltaForm g form idx)) /\
  (forall from blob to, DeltaForm from form idx = Some (blob, to) -> to = IndexGen (addEpoch idx) (Z.of_nat (length (added idx)))).
Proof.
  intros Hrtc. destruct (new_index_inv entriesDefault e0 e walk) as [base0 Hinv0].
  assert (exists base, idx_inv base idx /\ client_ok base idx (Some (g, ks))) as (base & Hinv & Hcl).
  { apply (client_ok_reachable _ _ Hrtc). by exists base0. }
  unfold DeltaForm. split_and!.
  - intros -> h Hh. destruct Hcl as [Hne|(l & (_ & _ & _ & _ & Hl) & Hk1 & Hk2 & Hk3)]; [done|].
    rewrite ks_Contains_ok by done. rewrite Hk2, Hk3. cbn [seqno] in Hl.
    pose proof Hinv as (_ & _ & _ & _ & I5 & _).
    setoid_rewrite Hl. setoid_rewrite (contains_advertised base) ; [|done]. setoid_rewrite I5.
    rewrite Nat2Z.id, firstn_all. done.
  - destruct (Z.eqb_spec (epoch g) (addEpoch idx)) as [He|Hne]; cbn [negb orb].
    + destruct Hcl as [?|(l & (_ & Hseq & _) & _)]; [done|].
      destruct (Z.ltb_spec (Z.of_nat (length (added idx))) (seqno g)); [lia|]. split; [by eexists|done].
    + split; [done|]. by intros [? ?].
  - intros from blob to. case_match; [done|]. by intros [= _ <-].
Qed.

End sync.

(** What a full fetch hands out, in every reachable state: the
    serialization of a sorted set of hashes that are all advertised, tagged with
    its own ETag and a position of the current epoch.  It is the whole
    advertised set, or it was cached less than the blob interval ago; and
    serving it does not change the advertised set. *)
Theorem index_blob_fresh entriesDefault e0 e walk ops now form blob etag gen idx' :
  Forall op_ok ops ->
  let idx := foldl runIdx (NewIndex entriesDefault e0 e walk) ops in
  BlobGenForm now form idx = (blob, etag, gen, idx') ->
  exists l, blob = marshalForm l form /\ etag = blobETag blob /\ ssorted l /\ Forall is_hash l /\
    (forall h, h ∈ l -> Contains idx h = true) /\ epoch gen = addEpoch idx /\
    ((forall h, Contains idx h = true -> h ∈ l) \/
     exists c t, forms idx !! form = Some c /\ ib_builtAt c = Some t /\ now - t < blobMinInterval idx) /\
    (forall h, Contains idx' h = Contains idx h).
Proof.
  intros Hok idx Hb. destruct (start_inv entriesDefault e0 e walk ops Hok) as [base Hinv]. fold idx in Hinv.
  destruct (blob_snapshot form base idx now blob etag gen idx' Hinv Hb) as (Hinv' & l & Hs & Hbl & Het).
  exists l. pose proof Hs as (He & _ & Hls & Hlw & Hlm).
  assert (Hadv : forall h, advertised idx' h <-> advertised idx h).
  { intros h. pose proof (advertised_step base idx (IBlob now form) h Hinv) as Ha. cbn [runIdx advertise_spec] in Ha.
    rewrite Hb in Ha. done. }
  assert (Hc : forall h, Contains idx h = true <-> advertised idx h) by (intros h; by eapply contains_advertised).
  assert (Hc' : forall h, Contains idx' h = true <-> advertised idx' h) by (intros h; by eapply contains_advertised).
  split_and!; try done.
  - intros h Hh. apply Hc, Hadv. by eapply snapshot_advertised.
  - rewrite He. destruct (blob_evolves base idx now form Hinv) as [_ Hev]. rewrite Hb in Hev. cbn [snd] in Hev.
    destruct Hev as [(? & _)|Hin]; [done|by apply not_elem_of_nil in Hin].
  - setoid_rewrite Hc. revert Hb. unfold BlobGenForm, blobSlow. destruct (blobFast now form idx) as [[[b et] g]|] eqn:Ef.
    + intros Hb. injection Hb as -> -> -> <-. revert Ef. unfold blobFast. destruct (forms idx !! form) as [c|] eqn:Ec; [|done].
      unfold blobServableLocked. destruct (ib_blob c) as [|b bs] eqn:Ebl; [done|].
      pose proof Hinv as (_ & _ & _ & _ & I5 & I6 & I7). destruct (I6 _ _ Ec) as [_ Hcc].
      destruct (Z.eqb_spec (ib_mutation c) (mutations idx)) as [Hm|Hm]; cbn [orb].
      * intros [= Hbb _ Hgg]. left. intros h Hh. destruct Hcc as [(l' & Hs' & _ & _ & Hfull)|[_ Hlt]]; [|lia].
        apply Hlm. apply I5 in Hh as [?|Hh]; [by left|right]. rewrite <- Hgg, (Hfull Hm), Nat2Z.id, firstn_all. done.
      * destruct (Z.ltb_spec (since now (ib_builtAt c)) (blobMinInterval idx)) as [Hlt|]; [|done].
        intros _. right. destruct (ib_builtAt c) as [t|] eqn:Et; [|cbn [since] in Hlt; lia].
        exists c, t. split_and!; done.
    + pose proof (merge_inv base idx Hinv) as Hm. destruct (mergePendingLocked idx) as [g idx1].
      destruct Hm as (_ & Hg & _ & H3 & _). intros Hb. injection Hb as Hb1 Hb2 Hb3 Hb4. left. intros h Hh.
      pose proof Hinv as (_ & _ & _ & _ & I5 & _). apply Hlm. apply I5 in Hh as [?|Hh]; [by left|right].
      rewrite <- Hb3, Hg, <- Hb4. cbn [seqno with_log added]. rewrite H3, Nat2Z.id, firstn_all. done.
  - intros h. apply eq_true_iff_eq. by rewrite Hc, Hc', Hadv.
Qed.

Lemma prefixValues_merge a b bits :
  ssorted a -> ssorted b -> Forall is_hash a -> Forall is_hash b -> 0 <= bits <= 64 ->
  prefixValues (merge_sorted a b) [] bits = prefixValues a b bits.
Proof.
  intros Ha Hb Hha Hhb Hbits.
  assert (Hm : Forall is_hash (merge_sorted a b)).
  { rewrite Forall_forall in *. intros h [?|?]%elem_of_merge_sorted; auto. }
  destruct (prefixValues_spec (merge_sorted a b) [] bits) as [H1 H2]; try done; [auto with golist|apply SSorted_nil|].
  destruct (prefixValues_spec a b bits) as [H3 H4]; try done.
  apply ascending_ssorted in H1 as [H1 _]. apply ascending_ssorted in H3 as [H3 _].
  apply ssorted_unique; [done|done|]. intros v. rewrite H2, H4. setoid_rewrite elem_of_merge_sorted.
  setoid_rewrite elem_of_nil. naive_solver.
Qed.

(** [WireSize] reports, without serializing and without changing the
    index, the exact length of the body [GET /_index?v=2] would send at the same
    moment. *)
Theorem wireSize_exact entriesDefault e0 e walk ops now :
  Forall op_ok ops ->
  let idx := foldl runIdx (NewIndex entriesDefault e0 e walk) ops in
  indexHashBitsMin <= hashBitsLocked idx <= indexHashBitsMax ->
  count_ok (length (hashes idx) + length (pending idx)) ->
  WireSize now idx = Z.of_nat (length (BlobGenForm now (FormV2 idx) idx).1.1.1).
Proof.
  intros Hok idx Hbits Hcount. destruct (start_inv entriesDefault e0 e walk ops Hok) as [base Hinv]. fold idx in Hinv.
  assert (Hb64 : 0 <= hashBitsLocked idx <= 64) by (unfold indexHashBitsMin, indexHashBitsMax in Hbits; lia).
  pose proof Hinv as (I1 & I2 & I3 & _). unfold WireSize, BlobGenForm, FormV2.
  set (bits := hashBitsLocked idx) in *. set (form := IndexForm gbciVersion2 bits).
  assert (Hslow : blobFast now form idx = None ->
    gbci2Size bits (prefixValues (hashes idx) (sort_dedupe (pending idx)) bits) =
    Z.of_nat (length (blobSlow now form idx).1.1.1)).
  { intros Hn. unfold blobSlow. rewrite Hn. unfold mergePendingLocked.
    set (vals := prefixValues (hashes idx) (sort_dedupe (pending idx)) bits).
    assert (Hsd : Forall is_hash (sort_dedupe (pending idx))).
    { apply Forall_forall. intros h Hh. rewrite elem_of_sort_dedupe in Hh. revert h Hh. by apply Forall_forall. }
    destruct (prefixValues_spec (hashes idx) (sort_dedupe (pending idx)) bits) as [Hasc Hmem]; try done; [auto with golist|].
    assert (Hlen : (length vals <= length (hashes idx) + length (pending idx))%nat).
    { rewrite <- length_app, <- (length_map (prefix_value bits)).
      apply submseteq_length, NoDup_submseteq; [apply ssorted_nodup; by apply ascending_ssorted in Hasc as [? _]|].
      intros v (h & Hin & ->)%Hmem. apply (list_elem_of_fmap_2 (prefix_value bits)).
      rewrite elem_of_sort_dedupe in Hin. by apply elem_of_app. }
    destruct (marshal_size bits vals Hbits Hasc) as (Hsz & _); [unfold count_ok in Hcount; lia|].
    rewrite Hsz. do 2 f_equal.
    destruct (pending idx) as [|p ps] eqn:Ep; cbn [fst with_hashes hashes]; unfold marshalForm, form; cbn [form_version form_width];
      change (gbciVersion2 =? gbciVersion2) with true; cbn iota; f_equal.
    by rewrite prefixValues_merge by auto with golist. }
  unfold blobFast in *. destruct (forms idx !! form) as [c|]; [|by apply Hslow].
  destruct (blobServableLocked now idx (Some c)); [done|by apply Hslow].
Qed.

(** A PUT that a serialization folds into the master list while a rebuild's walk
    is under way is dropped by the rebuild when the walk missed its file: only
    what is still pending survives.  The key stays unadvertised until the next
    rebuild, although its object is stored. *)
Theorem rebuild_drops_merged_put h now e e' :
  is_hash h ->
  let key := gbciKeyPrefix ++ hex_encode h in
  let idx0 := NewIndex true 1 2 (Some []) in
  let idx1 := Put now e key idx0 in
  let merged := (BlobGenForm now (indexFormV1 gbciHashSize) idx1).2 in
  Contains (rebuild e' (Some []) idx1) h = true /\
  Contains merged h = true /\ Contains (rebuild e' (Some []) merged) h = false.
Proof.
  intros Hh key idx0 idx1 merged.
  destruct (new_index_inv true 1 2 (Some [])) as [base0 Hinv0]. fold idx0 in Hinv0.
  destruct (put_evolves base0 idx0 now e key Hinv0) as (base1 & Hinv1 & _). fold idx1 in Hinv1.
  destruct (blob_evolves base1 idx1 now (indexFormV1 gbciHashSize) Hinv1) as [Hinv2 _]. fold merged in Hinv2.
  destruct (rebuild_evolves base1 idx1 e' (Some []) Hinv1) as (b3 & Hinv3 & _).
  destruct (rebuild_evolves base1 merged e' (Some []) Hinv2) as (b4 & Hinv4 & _).
  assert (Hact : actionHash (newCompactKey key) = (h, true)) by (unfold key; by rewrite newCompactKey_hash).
  assert (Hpend : h ∈ pending idx1).
  { unfold idx1, Put. rewrite Hact. unfold appendAddLocked. case_match; cbn; by apply list_elem_of_singleton. }
  assert (Hm : pending merged = []).
  { unfold merged, BlobGenForm, blobSlow. destruct (blobFast now (indexFormV1 gbciHashSize) idx1) as [[[b et] g]|] eqn:Ef.
    - exfalso. revert Ef. unfold blobFast, idx1, Put. rewrite Hact. unfold appendAddLocked. by case_match.
    - pose proof (merge_inv base1 idx1 Hinv1) as Hmm. destruct (mergePendingLocked idx1) as [g i].
      destruct Hmm as (_ & _ & _ & _ & _ & _ & Hp & _). done. }
  split_and!.
  - apply (contains_advertised b3); [done|]. apply (advertised_step base1 idx1 (IRebuild e' (Some [])) h Hinv1). by right.
  - apply (contains_advertised base1); [done|].
    apply (advertised_step base1 idx1 (IBlob now (indexFormV1 gbciHashSize)) h Hinv1). by right.
  - apply not_true_iff_false. rewrite (contains_advertised b4) by done.
    rewrite (advertised_step base1 merged (IRebuild e' (Some [])) h Hinv2). cbn [advertise_spec walk_hashes victim_hashes map flat_map].
    rewrite Hm, !elem_of_nil. tauto.
Qed.

End ops.
End index.

(** ** A concrete sort and concrete runs *)

Definition mtime_le (a b : indexEntry) : Prop := mtimeUnix a <= mtimeUnix b.

#[export] Instance mtime_le_dec : RelDecision mtime_le.
Proof. intros a b. unfold mtime_le. apply _. Defined.
#[export] Instance mtime_le_trans : Transitive mtime_le.
Proof. intros a b c. unfold mtime_le. lia. Qed.
#[export] Instance mtime_le_total : Total mtime_le.
Proof. intros a b. unfold mtime_le. lia. Qed.

#[export] Program Instance merge_mtime_sort : MtimeSort := {| sortEntriesByMtime := merge_sort mtime_le |}.
Next Obligation. intros l. apply merge_sort_Permutation. Qed.
Next Obligation. intros l. apply (StronglySorted_merge_sort mtime_le). Qed.

(** The cacheprog key of a hash of one repeated byte. *)
Definition demoKey (b : Z) : bytes := gbciKeyPrefix ++ hex_encode (replicate 32 b).

Definition demoOps : list idxOp :=
  [IPut 100 11 (demoKey 5); IPut 101 12 (demoKey 3); IBlob 0 (IndexForm 1 32);
   IPut 102 13 (demoKey 9); IRemove 14 (demoKey 3)].

Lemma index_contains_spec_witness :
  let idx := foldl (runIdx (St := gset compactKey)) (NewIndex true 1 2 (Some [(demoKey 1, 7)])) demoOps in
  Contains idx (replicate 32 5) = true /\ Contains idx (replicate 32 3) = false /\ ssorted (hashes idx).
Proof.
  cbv zeta. split; [vm_compute; reflexivity|]. split; [vm_compute; reflexivity|].
  apply (index_contains_spec (St := gset compactKey) true 1 2 (Some [(demoKey 1, 7)]) demoOps IDrain (replicate 32 5)).
  repeat constructor.
Defined.

Lemma index_blob_fresh_witness :
  let idx := foldl (runIdx (St := gset compactKey)) (NewIndex true 1 2 (Some [(demoKey 1, 7)])) demoOps in
  exists l, (BlobGenForm 50 (IndexForm 1 32) idx).1.1.1 = marshalForm l (IndexForm 1 32).
Proof.
  cbv zeta.
  destruct (BlobGenForm 50 (IndexForm 1 32) (foldl (runIdx (St := gset compactKey)) (NewIndex true 1 2 (Some [(demoKey 1, 7)])) demoOps))
    as [[[blob etag] gen] idx'] eqn:E.
  destruct (index_blob_fresh (St := gset compactKey) true 1 2 (Some [(demoKey 1, 7)]) demoOps 50 (IndexForm 1 32) blob etag gen idx')
    as (l & Hl & _); [repeat constructor|exact E|]. exists l. exact Hl.
Defined.

Lemma wireSize_exact_witness :
  let idx := foldl (runIdx (St := gset compactKey)) (NewIndex true 1 2 (Some [(demoKey 1, 7)])) demoOps in
  WireSize 50 idx = Z.of_nat (length (BlobGenForm 50 (FormV2 idx) idx).1.1.1).
Proof.
  cbv zeta. apply (wireSize_exact (St := gset compactKey) true 1 2 (Some [(demoKey 1, 7)]) demoOps 50).
  - repeat constructor.
  - split; vm_compute; discriminate.
  - vm_compute. reflexivity.
Defined.

(** A full fetch, one answered 304, a PUT and a delta, all at the v2 form of 40 bits. *)
Definition demoForm : indexForm := IndexForm 2 40.
Definition demoIdx0 : Index := NewIndex true 1 2 (Some [(demoKey 1, 7)]).
Definition demoFetch : bytes * bytes * indexGen * Index := BlobGenForm 0 demoForm demoIdx0.
Definition demoRead (blob : bytes) : @keySet (gset bytes) :=
  match parseIndexBlob blob with inr (ks, _) => ks | inl _ => newKeySet end.
Definition demoIdx2 : Index := Put 8 3 (demoKey 5) demoFetch.2.
Definition demoDelta : bytes * indexGen := default ([], IndexGen 0 0) (DeltaForm demoFetch.1.2 demoForm demoIdx2).
Definition demoKeys : @keySet (gset bytes) := addAll (demoRead demoFetch.1.1.1) (demoRead demoDelta.1).

Lemma demo_run :
  rtc (sync_step (St := gset compactKey) (Kt := gset bytes) demoForm) (demoIdx0, None) (demoIdx2, Some (demoDelta.2, demoKeys)).
Proof.
  eapply rtc_l; [eapply (sync_full demoForm demoIdx0 None 0 demoFetch.1.1.1 demoFetch.1.1.2 demoFetch.1.2 demoFetch.2
    (demoRead demoFetch.1.1.1) (blobETag demoFetch.1.1.1)); vm_compute; reflexivity|].
  eapply rtc_l; [eapply (sync_not_modified demoForm demoFetch.2 _ 0 demoFetch.1.1.1 demoFetch.1.1.2 demoFetch.1.2 demoFetch.2 demoFetch.1.1.1
    (demoRead demoFetch.1.1.1)); [vm_compute; reflexivity..|done]|].
  eapply rtc_l; [apply (sync_server demoForm demoFetch.2 (Some (demoFetch.1.2, demoRead demoFetch.1.1.1)) (IPut 8 3 (demoKey 5))); [exact I|]|].
  { intros g ks Heq. apply (f_equal (fun o => match o with Some p => epoch p.1 | None => 0 end)) in Heq.
    change (epoch demoFetch.1.2 = epoch g) in Heq. rewrite <- Heq.
    assert (epoch demoFetch.1.2 = 2) as -> by (vm_compute; reflexivity).
    intros Hin%list_elem_of_singleton. discriminate. }
  eapply rtc_l; [eapply (sync_delta demoForm demoIdx2 demoFetch.1.2 (demoRead demoFetch.1.1.1) demoDelta.1 demoDelta.2
    (demoRead demoDelta.1) (blobETag demoDelta.1)); vm_compute; reflexivity|apply rtc_refl].
Qed.

Lemma index_sync_exact_witness :
  form_ok demoForm /\ ks_Contains demoKeys (replicate 32 5) = true.
Proof.
  assert (Hform : form_ok demoForm) by (right; split; [reflexivity|split; vm_compute; discriminate]).
  split; [exact Hform|].
  destruct (index_sync_exact (St := gset compactKey) (Kt := gset bytes) demoForm Hform true 1 2 (Some [(demoKey 1, 7)])
    demoIdx2 demoDelta.2 demoKeys demo_run) as (Hex & _).
  apply Hex; [vm_compute; reflexivity| |].
  - split; [reflexivity|]. apply Forall_replicate. unfold is_byte. lia.
  - exists (replicate 32 5). split; vm_compute; reflexivity.
Defined.
