(* ===== verification/Nearby.v ===== *)
(** * Prefetch candidates

    [Index.NearbyKeys] ([index.go]): the keys whose modification time lies in a
    window, nearest to the window's midpoint first.  The code walks outward from
    the midpoint with two cursors instead of sorting the window; the theorem is
    that the walk visits the whole window in distance order, so the result is
    the filtered, truncated sorted window. *)

From Stdlib Require Import ZArith Lia List Bool Sorted.
From stdpp Require Import base gmap list sets sorting.
From S2P Require Import Prelude SortedSlice GoSet Keys Index.

Definition nearbyScanFactor : Z := 8.

Section nearby.
Context `{msort : !MtimeSort}.
Context {St : Type} `{!SetOps St compactKey} `{!SetLaws St compactKey}.
Implicit Types (es : list indexEntry) (e : indexEntry).

(** [idx.entries[i].mtimeUnix]; the code never reads out of range. *)
Definition mtime_at (es : list indexEntry) (i : Z) : Z :=
  match es !! Z.to_nat i with Some e => mtimeUnix e | None => 0 end.

(** [dist], in int64. *)
Definition dist (mid t : Z) : Z :=
  let d := i64 (t - mid) in if d <? 0 then i64 (- d) else d.

(** One turn's choice of side: the position taken and the cursors after it. *)
Definition take_side (es : list indexEntry) (mid lo hi lft rgt : Z) : Z * Z * Z :=
  if lft <? lo then (rgt, lft, rgt + 1)
  else if hi <=? rgt then (lft, lft - 1, rgt)
  else if dist mid (mtime_at es lft) <=? dist mid (mtime_at es rgt) then (lft, lft - 1, rgt)
  else (rgt, lft, rgt + 1).

(** The loop of [nearbyKeysLocked].  [skip] is the caller's filter, [None] for
    nil.  Every turn moves a cursor, so the window's size is enough fuel. *)
Fixpoint nearby_loop (fuel : nat) (es : list indexEntry) (mid lo hi limit budget : Z) (excluded : St)
    (skip : option (bytes -> bool)) (lft rgt examined : Z) (keys : list bytes) : list bytes :=
  match fuel with
  | O => keys
  | S fuel' =>
      if (Z.of_nat (length keys) <? limit) && ((lo <=? lft) || (rgt <? hi)) then
        let '(pos, lft, rgt) := take_side es mid lo hi lft rgt in
        match es !! Z.to_nat pos with
        | None => keys
        | Some e =>
            if s_contains excluded (ie_key e) then
              nearby_loop fuel' es mid lo hi limit budget excluded skip lft rgt examined keys
            else
              match skip with
              | None => nearby_loop fuel' es mid lo hi limit budget excluded skip lft rgt examined
                          (keys ++ [Key (ie_key e)])
              | Some f =>
                  if examined =? budget then keys
                  else
                    let key := Key (ie_key e) in
                    nearby_loop fuel' es mid lo hi limit budget excluded skip lft rgt (examined + 1)
                      (if f key then keys else keys ++ [key])
              end
        end
      else keys
  end.

Definition nearbyKeysLocked (es : list indexEntry) (startUnix endUnix limit : Z) (excluded : St)
    (skip : option (bytes -> bool)) : list bytes :=
  if (limit <=? 0) || (length es =? 0)%nat then []
  else
    let lo := Z.of_nat (sort_Search (length es) (fun i => startUnix <=? mtime_at es (Z.of_nat i))) in
    let hi := Z.of_nat (sort_Search (length es) (fun i => endUnix <? mtime_at es (Z.of_nat i))) in
    if hi <=? lo then []
    else
      let mid := Z.quot (i64 (startUnix + endUnix)) 2 in
      let rgt := Z.of_nat (sort_Search (Z.to_nat (hi - lo)) (fun i => mid <=? mtime_at es (lo + Z.of_nat i))) + lo in
      nearby_loop (Z.to_nat (hi - lo)) es mid lo hi limit (limit * nearbyScanFactor) excluded skip (rgt - 1) rgt 0 [].

(** [NearbyKeys]: drains the pending entries first, under the write lock. *)
Definition NearbyKeys (startUnix endUnix limit : Z) (exclude : list bytes) (skip : option (bytes -> bool)) (idx : Index)
    : list bytes * Index :=
  let excluded : St := s_add_all (map newCompactKey exclude) s_new in
  let idx := drainEntriesLocked idx in
  (nearbyKeysLocked (entries idx) startUnix endUnix limit excluded skip, idx).

(** ** The walk as a list *)

(** The window's entries in the order the two cursors visit them. *)
Fixpoint outward (fuel : nat) (es : list indexEntry) (mid lo hi lft rgt : Z) : list indexEntry :=
  match fuel with
  | O => []
  | S fuel' =>
      if (lo <=? lft) || (rgt <? hi) then
        let '(pos, lft, rgt) := take_side es mid lo hi lft rgt in
        match es !! Z.to_nat pos with
        | None => []
        | Some e => e :: outward fuel' es mid lo hi lft rgt
        end
      else []
  end.

(** What the caller gets from a list of candidates in visiting order. *)
Definition choose (limit budget : Z) (excluded : St) (skip : option (bytes -> bool)) (w : list indexEntry) : list bytes :=
  let cands := map (fun e => Key (ie_key e)) (filter (fun e => s_contains excluded (ie_key e) = false) w) in
  match skip with
  | None => take (Z.to_nat limit) cands
  | Some f => take (Z.to_nat limit) (filter (fun k => f k = false) (take (Z.to_nat budget) cands))
  end.

Lemma choose_nil limit budget excluded skip : choose limit budget excluded skip [] = [].
Proof. unfold choose. rewrite filter_nil. cbn [map]. destruct skip; rewrite !take_nil, ?filter_nil, ?take_nil; done. Qed.

Lemma choose_zero budget excluded skip w : choose 0 budget excluded skip w = [].
Proof. unfold choose. by destruct skip; rewrite take_0. Qed.

Lemma nearby_loop_choose fuel es mid lo hi limit budget excluded skip lft rgt examined keys :
  0 <= examined <= budget -> Z.of_nat (length keys) <= limit ->
  nearby_loop fuel es mid lo hi limit budget excluded skip lft rgt examined keys =
  keys ++ choose (limit - Z.of_nat (length keys)) (budget - examined) excluded skip (outward fuel es mid lo hi lft rgt).
Proof.
  revert lft rgt examined keys; induction fuel as [|fuel IH]; intros lft rgt examined keys Hex Hk.
  { cbn [nearby_loop outward]. by rewrite choose_nil, app_nil_r. }
  cbn [nearby_loop outward].
  destruct (Z.ltb_spec (Z.of_nat (length keys)) limit) as [Hlt|Hge]; cbn [andb].
  2:{ replace (limit - Z.of_nat (length keys)) with 0 by lia. by rewrite choose_zero, app_nil_r. }
  destruct ((lo <=? lft) || (rgt <? hi)); [|by rewrite choose_nil, app_nil_r].
  destruct (take_side es mid lo hi lft rgt) as [[pos lft'] rgt'].
  destruct (es !! Z.to_nat pos) as [e|]; [|by rewrite choose_nil, app_nil_r].
  destruct (s_contains excluded (ie_key e)) eqn:Ee.
  { rewrite IH by lia. f_equal. unfold choose. rewrite filter_cons, decide_False by congruence. done. }
  assert (Hn : Z.to_nat (limit - Z.of_nat (length keys)) = S (Z.to_nat (limit - Z.of_nat (length keys) - 1))) by lia.
  destruct skip as [f|].
  - destruct (Z.eqb_spec examined budget) as [->|Hne].
    { unfold choose. rewrite Z.sub_diag, take_0, filter_nil, take_nil, app_nil_r. done. }
    assert (Hb : Z.to_nat (budget - examined) = S (Z.to_nat (budget - (examined + 1)))) by lia.
    destruct (f (Key (ie_key e))) eqn:Ef.
    + rewrite IH by lia. f_equal. unfold choose. rewrite (filter_cons _ e), decide_True by done. cbn [map].
      rewrite Hb. cbn [take]. rewrite (filter_cons _ (Key (ie_key e))), decide_False by congruence. done.
    + rewrite IH by (rewrite ?length_app; simpl; lia). rewrite <- app_assoc. f_equal. unfold choose.
      rewrite (filter_cons _ e), decide_True by done. cbn [map].
      rewrite Hb. cbn [take]. rewrite (filter_cons _ (Key (ie_key e))), decide_True by done.
      rewrite Hn. cbn [take app]. do 3 f_equal. rewrite length_app. simpl. lia.
  - rewrite IH by (rewrite ?length_app; simpl; lia). rewrite <- app_assoc. f_equal. unfold choose.
    rewrite (filter_cons _ e), decide_True by done. cbn [map].
    rewrite Hn. cbn [take app]. do 3 f_equal. rewrite length_app. simpl. lia.
Qed.
(** ** The walk visits the window in distance order *)

Definition by_mtime (a b : indexEntry) : Prop := mtimeUnix a <= mtimeUnix b.
Definition far (mid : Z) (e : indexEntry) : Z := Z.abs (mtimeUnix e - mid).
Definition nearer (mid : Z) (a b : indexEntry) : Prop := far mid a <= far mid b.

(** No int64 overflow around the midpoint. *)
Definition in_reach (mid : Z) (e : indexEntry) : Prop := - 2 ^ 62 <= mtimeUnix e - mid <= 2 ^ 62.

Lemma dist_far mid e : in_reach mid e -> dist mid (mtimeUnix e) = far mid e.
Proof.
  unfold in_reach, dist, far. intros H0. rewrite i64_small by lia.
  destruct (Z.ltb_spec (mtimeUnix e - mid) 0); [rewrite i64_small by lia|]; lia.
Qed.

(** The walk over [P ++ L ++ M ++ R ++ Q] with [M] visited: [L] is left of the
    cursors' gap and [R] right of it. *)
Definition walk (fuel : nat) (P L M R Q : list indexEntry) (mid : Z) : list indexEntry :=
  outward fuel (P ++ L ++ M ++ R ++ Q) mid (Z.of_nat (length P))
    (Z.of_nat (length P + length L + length M + length R))
    (Z.of_nat (length P + length L) - 1) (Z.of_nat (length P + length L + length M)).

Lemma entry_at P e Q n :
  n = Z.of_nat (length P) ->
  (P ++ e :: Q) !! Z.to_nat n = Some e /\ mtime_at (P ++ e :: Q) n = mtimeUnix e.
Proof.
  intros ->. unfold mtime_at. rewrite Nat2Z.id, lookup_app_r, Nat.sub_diag by lia. done.
Qed.

Lemma right_entry P L M e R Q :
  let es := P ++ L ++ M ++ (e :: R) ++ Q in
  let n := Z.of_nat (length P + length L + length M) in
  es !! Z.to_nat n = Some e /\ mtime_at es n = mtimeUnix e.
Proof.
  cbv zeta. rewrite !app_assoc, <- (app_assoc _ (e :: R)). cbn [app].
  apply entry_at. rewrite !length_app. lia.
Qed.

Lemma left_entry P L e M R Q :
  let es := P ++ (L ++ [e]) ++ M ++ R ++ Q in
  let n := Z.of_nat (length P + length (L ++ [e])) - 1 in
  es !! Z.to_nat n = Some e /\ mtime_at es n = mtimeUnix e.
Proof.
  cbv zeta. rewrite <- (app_assoc L), (app_assoc P). cbn [app].
  apply entry_at. rewrite !length_app. simpl. lia.
Qed.

Lemma walk_done fuel P M Q mid : walk fuel P [] M [] Q mid = [].
Proof.
  unfold walk. destruct fuel; [done|]. cbn [outward length]. rewrite !Nat.add_0_r.
  destruct (Z.leb_spec (Z.of_nat (length P)) (Z.of_nat (length P) - 1)); [lia|]. by rewrite Z.ltb_irrefl.
Qed.

Lemma walk_right fuel P L M e R Q mid :
  (match rev L with [] => True | el :: _ => far mid e < far mid el end) ->
  Forall (in_reach mid) (L ++ e :: R) ->
  walk (S fuel) P L M (e :: R) Q mid = e :: walk fuel P L (M ++ [e]) R Q mid.
Proof.
  intros Hside Hreach. unfold walk. cbn [outward].
  destruct (right_entry P L M e R Q) as [Hr1 Hr2]. set (es := P ++ L ++ M ++ (e :: R) ++ Q) in *.
  assert (Hs : take_side es mid (Z.of_nat (length P)) (Z.of_nat (length P + length L + length M + length (e :: R)))
    (Z.of_nat (length P + length L) - 1) (Z.of_nat (length P + length L + length M)) =
    (Z.of_nat (length P + length L + length M), Z.of_nat (length P + length L) - 1, Z.of_nat (length P + length L + length M) + 1)).
  { unfold take_side. destruct L as [|el L _] using rev_ind.
    { rewrite Nat.add_0_r. destruct (Z.ltb_spec (Z.of_nat (length P) - 1) (Z.of_nat (length P))); [done|lia]. }
    destruct (Z.ltb_spec (Z.of_nat (length P + length (L ++ [el])) - 1) (Z.of_nat (length P)));
      [rewrite length_app in *; simpl in *; lia|].
    destruct (Z.leb_spec (Z.of_nat (length P + length (L ++ [el]) + length M + length (e :: R)))
      (Z.of_nat (length P + length (L ++ [el]) + length M))); [simpl in *; lia|].
    destruct (left_entry P L el M (e :: R) Q) as [_ Hl2]. fold es in Hl2. rewrite Hl2, Hr2.
    rewrite Forall_app, Forall_app, !Forall_cons in Hreach. destruct Hreach as ([_ [? _]] & ? & _).
    rewrite !dist_far by done. rewrite rev_app_distr in Hside. simpl in Hside.
    destruct (Z.leb_spec (far mid el) (far mid e)); [lia|done]. }
  rewrite Hs. replace ((_ <=? _) || (_ <? _)) with true.
  2:{ symmetry. apply orb_true_iff. right. apply Z.ltb_lt. simpl. lia. }
  rewrite Hr1. f_equal. unfold es. rewrite !length_app. cbn [length app].
  replace (P ++ L ++ M ++ e :: R ++ Q) with (P ++ L ++ (M ++ [e]) ++ R ++ Q) by (by rewrite <- (app_assoc M)).
  f_equal; lia.
Qed.

Lemma walk_left fuel P L e M R Q mid :
  (match R with [] => True | er :: _ => far mid e <= far mid er end) ->
  Forall (in_reach mid) ((L ++ [e]) ++ R) ->
  walk (S fuel) P (L ++ [e]) M R Q mid = e :: walk fuel P L (e :: M) R Q mid.
Proof.
  intros Hside Hreach. unfold walk. cbn [outward].
  destruct (left_entry P L e M R Q) as [Hl1 Hl2]. set (es := P ++ (L ++ [e]) ++ M ++ R ++ Q) in *.
  assert (Hge : (Z.of_nat (length P) <=? Z.of_nat (length P + length (L ++ [e])) - 1) = true).
  { apply Z.leb_le. rewrite length_app. simpl. lia. }
  assert (Hs : take_side es mid (Z.of_nat (length P)) (Z.of_nat (length P + length (L ++ [e]) + length M + length R))
    (Z.of_nat (length P + length (L ++ [e])) - 1) (Z.of_nat (length P + length (L ++ [e]) + length M)) =
    (Z.of_nat (length P + length (L ++ [e])) - 1, Z.of_nat (length P + length (L ++ [e])) - 1 - 1,
     Z.of_nat (length P + length (L ++ [e]) + length M))).
  { unfold take_side. apply Z.leb_le in Hge.
    destruct (Z.ltb_spec (Z.of_nat (length P + length (L ++ [e])) - 1) (Z.of_nat (length P))); [lia|].
    destruct R as [|er R]; [rewrite (Nat.add_0_r (_ + length M)), Z.leb_refl; done|].
    destruct (Z.leb_spec (Z.of_nat (length P + length (L ++ [e]) + length M + length (er :: R)))
      (Z.of_nat (length P + length (L ++ [e]) + length M))); [done|].
    destruct (right_entry P (L ++ [e]) M er R Q) as [_ Hr2]. fold es in Hr2. rewrite Hl2, Hr2.
    rewrite Forall_app, Forall_app, !Forall_cons in Hreach. destruct Hreach as ([_ [? _]] & ? & _).
    rewrite !dist_far by done. destruct (Z.leb_spec (far mid e) (far mid er)); [done|lia]. }
  rewrite Hge, Hs. cbn [orb]. rewrite Hl1. f_equal. unfold es. rewrite !length_app. cbn [length].
  replace (P ++ (L ++ [e]) ++ M ++ R ++ Q) with (P ++ L ++ (e :: M) ++ R ++ Q) by (by rewrite <- (app_assoc L)).
  f_equal; lia.
Qed.

Lemma sorted_snoc_inv L e :
  StronglySorted by_mtime (L ++ [e]) -> StronglySorted by_mtime L /\ Forall (fun x => by_mtime x e) L.
Proof.
  induction L as [|x L IH]; intros HL; [split; constructor|]. simpl in HL. apply StronglySorted_inv in HL as [HL Hx].
  destruct (IH HL) as [? ?]. apply Forall_app in Hx as [Hx1 Hx2]. apply Forall_cons in Hx2 as [Hx2 _].
  split; by constructor.
Qed.

Lemma walk_spec fuel P L M R Q mid :
  (length L + length R <= fuel)%nat ->
  StronglySorted by_mtime L -> StronglySorted by_mtime R ->
  Forall (fun e => mtimeUnix e <= mid) L -> Forall (fun e => mid <= mtimeUnix e) R ->
  Forall (in_reach mid) (L ++ R) ->
  walk fuel P L M R Q mid ≡ₚ L ++ R /\ StronglySorted (nearer mid) (walk fuel P L M R Q mid).
Proof.
  revert L M R Q; induction fuel as [|fuel IH]; intros L M R Q Hf HL HR HLm HRm Hreach.
  { destruct L, R; simpl in *; try lia. split; [done|]. constructor. }
  assert (Hright : forall e R', R = e :: R' -> (match rev L with [] => True | el :: _ => far mid e < far mid el end) ->
    walk (S fuel) P L M R Q mid ≡ₚ L ++ R /\ StronglySorted (nearer mid) (walk (S fuel) P L M R Q mid)).
  { intros e R' -> Hside. rewrite walk_right by done.
    apply StronglySorted_inv in HR as [HR' He]. apply Forall_cons in HRm as [Hem HRm'].
    destruct (IH L (M ++ [e]) R' Q) as [I1 I2]; try done; [simpl in Hf; lia|rewrite !Forall_app, Forall_cons in *; naive_solver|].
    split; [rewrite I1; apply Permutation_middle|]. constructor; [done|]. apply Forall_forall. intros x Hx.
    rewrite I1, elem_of_app in Hx. destruct Hx as [Hx|Hx].
    - destruct L as [|el L _] using rev_ind; [by apply not_elem_of_nil in Hx|]. rewrite rev_app_distr in Hside. simpl in Hside.
      apply sorted_snoc_inv in HL as [_ Hel]. apply Forall_app in HLm as [HLm Hlm]. apply Forall_cons in Hlm as [Hlm _].
      apply elem_of_app in Hx as [Hx|Hx%list_elem_of_singleton]; [|subst; unfold nearer; lia].
      eapply Forall_forall in Hel; [|done]. eapply Forall_forall in HLm; [|done]. unfold by_mtime, nearer, far in *. lia.
    - eapply Forall_forall in He; [|done]. unfold by_mtime, nearer, far in *. lia. }
  destruct L as [|el L _] using rev_ind.
  { destruct R as [|er R]; [rewrite walk_done; split; [done|constructor]|]. by apply (Hright er R). }
  assert (Hleft : (match R with [] => True | er :: _ => far mid el <= far mid er end) ->
    walk (S fuel) P (L ++ [el]) M R Q mid ≡ₚ (L ++ [el]) ++ R /\ StronglySorted (nearer mid) (walk (S fuel) P (L ++ [el]) M R Q mid)).
  { intros Hside. rewrite walk_left by done. pose proof (sorted_snoc_inv _ _ HL) as [HL' He].
    apply Forall_app in HLm as [HLm' Hem]. apply Forall_cons in Hem as [Hem _]. rewrite length_app in Hf. cbn [length] in Hf.
    destruct (IH L (el :: M) R Q) as [I1 I2]; try done; [lia|rewrite !Forall_app in *; naive_solver|].
    split; [rewrite I1, <- app_assoc; apply Permutation_middle|]. constructor; [done|]. apply Forall_forall. intros x Hx.
    rewrite I1, elem_of_app in Hx. destruct Hx as [Hx|Hx].
    - eapply Forall_forall in He; [|done]. eapply Forall_forall in HLm'; [|done]. unfold by_mtime, nearer, far in *. lia.
    - destruct R as [|er R]; [by apply not_elem_of_nil in Hx|]. apply StronglySorted_inv in HR as [_ Her].
      apply Forall_cons in HRm as [Herm _]. apply elem_of_cons in Hx as [->|Hx]; [done|].
      eapply Forall_forall in Her; [|done]. unfold nearer, far, by_mtime in *. lia. }
  destruct R as [|er R]; [by apply Hleft|].
  destruct (Z.lt_ge_cases (far mid er) (far mid el)); [|by apply Hleft].
  apply (Hright er R); [done|]. by rewrite rev_app_distr.
Qed.

(** ** The window *)

Lemma sorted_lookup_mtime W i j a b :
  StronglySorted by_mtime W -> (i <= j)%nat -> W !! i = Some a -> W !! j = Some b -> mtimeUnix a <= mtimeUnix b.
Proof.
  intros Hs. revert i j; induction Hs as [|e W _ IH He]; intros i j Hij Ha Hb; [done|].
  destruct i as [|i], j as [|j]; simplify_eq/=; [lia| |lia|apply (IH i j); [lia|done|done]].
  eapply Forall_forall in He; [exact He|]. by eapply list_elem_of_lookup_2.
Qed.

(** A binary search for a threshold on a sorted list splits it there. *)
Lemma search_split W (f : Z -> bool) (g : nat -> bool) :
  (forall a b, a <= b -> f a = true -> f b = true) -> StronglySorted by_mtime W ->
  (forall i e, W !! i = Some e -> g i = f (mtimeUnix e)) ->
  let i := sort_Search (length W) g in
  (i <= length W)%nat /\ Forall (fun e => f (mtimeUnix e) = false) (take i W) /\
  Forall (fun e => f (mtimeUnix e) = true) (drop i W).
Proof.
  intros Hf Hs Hg. destruct (sort_Search_spec (length W) g) as (H1 & H2 & H3).
  { intros a b [Hab Hb] Ha. destruct (lookup_lt_is_Some_2 W b Hb) as [eb Heb].
    destruct (lookup_lt_is_Some_2 W a) as [ea Hea]; [lia|]. rewrite (Hg _ _ Heb). rewrite (Hg _ _ Hea) in Ha.
    eapply Hf; [|done]. by eapply (sorted_lookup_mtime W a b). }
  cbv zeta. set (i := sort_Search (length W) g) in *. split_and!; [done| |].
  - apply Forall_lookup. intros k e Hk. apply lookup_take_Some in Hk as [Hk Hlt]. rewrite <- (Hg _ _ Hk). auto.
  - apply Forall_lookup. intros k e Hk. rewrite lookup_drop in Hk. rewrite <- (Hg _ _ Hk). apply H3.
    apply lookup_lt_Some in Hk. lia.
Qed.

Definition in_window (startUnix endUnix : Z) (e : indexEntry) : Prop := startUnix <= mtimeUnix e <= endUnix.

#[export] Instance in_window_dec startUnix endUnix : forall x, Decision (in_window startUnix endUnix x).
Proof. intros x. unfold in_window. apply _. Defined.

Lemma filter_all {A} (P : A -> Prop) `{!forall x, Decision (P x)} (l : list A) : Forall P l -> filter P l = l.
Proof. induction 1; [done|]. rewrite filter_cons, decide_True by done. by f_equal. Qed.

Lemma filter_none {A} (P : A -> Prop) `{!forall x, Decision (P x)} (l : list A) :
  Forall (fun x => ~ P x) l -> filter P l = [].
Proof. induction 1; [done|]. by rewrite filter_cons, decide_False. Qed.

Lemma sorted_app_inv (L R : list indexEntry) :
  StronglySorted by_mtime (L ++ R) -> StronglySorted by_mtime L /\ StronglySorted by_mtime R.
Proof.
  induction L as [|e L IH]; [split; [constructor|done]|]. simpl. intros [H1 H2]%StronglySorted_inv.
  destruct (IH H1) as [? ?]. apply Forall_app in H2 as [H2 _]. split; [by constructor|done].
Qed.

(** The midpoint of a window whose bounds do not overflow. *)
Definition midpoint (startUnix endUnix : Z) : Z := Z.quot (startUnix + endUnix) 2.

(** The two bounds the code searches for. *)
Definition lower (es : list indexEntry) (startUnix : Z) : nat :=
  sort_Search (length es) (fun i => startUnix <=? mtime_at es (Z.of_nat i)).
Definition upper (es : list indexEntry) (endUnix : Z) : nat :=
  sort_Search (length es) (fun i => endUnix <? mtime_at es (Z.of_nat i)).

Lemma mtime_at_lookup es i e : es !! i = Some e -> mtime_at es (Z.of_nat i) = mtimeUnix e.
Proof. intros Hi. unfold mtime_at. by rewrite Nat2Z.id, Hi. Qed.

Lemma lower_spec es s : StronglySorted by_mtime es ->
  (lower es s <= length es)%nat /\ Forall (fun e => mtimeUnix e < s) (take (lower es s) es) /\
  Forall (fun e => s <= mtimeUnix e) (drop (lower es s) es).
Proof.
  intros Hs. destruct (search_split es (fun t => s <=? t) (fun i => s <=? mtime_at es (Z.of_nat i))) as (L1 & L2 & L3);
    [intros a b ? ?; bool2prop; apply Z.leb_le; lia|done|intros i e Hi; by rewrite (mtime_at_lookup es i e Hi)|].
  split_and!; [done|eapply Forall_impl; [exact L2|]|eapply Forall_impl; [exact L3|]]; intros x Hx; simpl in Hx; by bool2prop.
Qed.

Lemma upper_spec es t : StronglySorted by_mtime es ->
  (upper es t <= length es)%nat /\ Forall (fun e => mtimeUnix e <= t) (take (upper es t) es) /\
  Forall (fun e => t < mtimeUnix e) (drop (upper es t) es).
Proof.
  intros Hs. destruct (search_split es (fun x => t <? x) (fun i => t <? mtime_at es (Z.of_nat i))) as (U1 & U2 & U3);
    [intros a b ? ?; bool2prop; apply Z.ltb_lt; lia|done|intros i e Hi; by rewrite (mtime_at_lookup es i e Hi)|].
  split_and!; [done|eapply Forall_impl; [exact U2|]|eapply Forall_impl; [exact U3|]]; intros x Hx; simpl in Hx; by bool2prop.
Qed.

(** Between the bounds lies exactly the window. *)
Lemma window_split es s t : StronglySorted by_mtime es ->
  let W := filter (in_window s t) es in
  length W = (upper es t - lower es s)%nat /\
  ((lower es s < upper es t)%nat -> es = take (lower es s) es ++ W ++ drop (upper es t) es).
Proof.
  intros Hs. destruct (lower_spec es s Hs) as (L1 & L2 & L3). destruct (upper_spec es t Hs) as (U1 & U2 & U3).
  set (lo := lower es s) in *. set (hi := upper es t) in *. cbv zeta.
  destruct (Nat.lt_ge_cases lo hi) as [Hlt|Hge].
  2:{ rewrite filter_none; [simpl; split; lia|]. rewrite <- (take_drop lo es), Forall_app. split.
      - eapply Forall_impl; [exact L2|]. unfold in_window. intros x Hx. simpl in Hx. lia.
      - replace (drop lo es) with (drop (lo - hi) (drop hi es)) by (rewrite drop_drop; f_equal; lia).
        eapply Forall_impl; [apply Forall_drop; exact U3|]. unfold in_window. intros x Hx. simpl in Hx. lia. }
  set (W := drop lo (take hi es)).
  assert (Hsplit : es = take lo es ++ W ++ drop hi es).
  { unfold W. rewrite <- (take_drop hi es) at 1. rewrite app_assoc. f_equal.
    rewrite <- (take_drop lo (take hi es)) at 1. f_equal. rewrite take_take. f_equal. lia. }
  assert (HWin : Forall (in_window s t) W).
  { apply Forall_forall. intros x Hx. split.
    - assert (x ∈ drop lo es) as Hd. { rewrite Hsplit. rewrite drop_app_length' by (rewrite length_take; lia). apply elem_of_app. auto. }
      by eapply Forall_forall in L3.
    - assert (x ∈ take hi es) as Hd. { rewrite <- (take_drop lo (take hi es)). apply elem_of_app. auto. }
      by eapply Forall_forall in U2. }
  assert (filter (in_window s t) es = W) as ->.
  { rewrite Hsplit, !filter_app, (filter_all _ W HWin).
    rewrite (filter_none _ (take lo es)), (filter_none _ (drop hi es)); [by rewrite app_nil_r| |].
    - eapply Forall_impl; [exact U3|]. unfold in_window. intros x Hx. simpl in Hx. lia.
    - eapply Forall_impl; [exact L2|]. unfold in_window. intros x Hx. simpl in Hx. lia. }
  split; [|done]. unfold W. rewrite length_drop, length_take. lia.
Qed.

Lemma nearbyKeysLocked_spec es startUnix endUnix limit excluded skip :
  StronglySorted by_mtime es -> - 2 ^ 61 <= startUnix <= 2 ^ 61 -> - 2 ^ 61 <= endUnix <= 2 ^ 61 ->
  exists w, w ≡ₚ filter (in_window startUnix endUnix) es /\
    StronglySorted (nearer (midpoint startUnix endUnix)) w /\
    nearbyKeysLocked es startUnix endUnix limit excluded skip = choose limit (limit * nearbyScanFactor) excluded skip w.
Proof.
  intros Hs Hst Hen. unfold nearbyKeysLocked, midpoint.
  fold (lower es startUnix) (upper es endUnix).
  destruct (lower_spec es startUnix Hs) as (L1 & _ & _). destruct (upper_spec es endUnix Hs) as (U1 & _ & _).
  destruct (window_split es startUnix endUnix Hs) as [HWl Hsplit].
  pose proof (list_elem_of_filter (in_window startUnix endUnix) es) as HWm.
  set (lo := lower es startUnix) in *. set (hi := upper es endUnix) in *. set (W := filter _ es) in *.
  rewrite i64_small by lia. set (mid := Z.quot (startUnix + endUnix) 2).
  assert (Hmid : - 2 ^ 61 <= mid <= 2 ^ 61).
  { unfold mid. split; [apply Z.quot_le_lower_bound|apply Z.quot_le_upper_bound]; lia. }
  destruct (Z.of_nat hi <=? Z.of_nat lo) eqn:Ehl; bool2prop.
  { exists []. rewrite choose_nil. split_and!; [|apply SSorted_nil|by destruct (_ || _)].
    destruct W; [done|simpl in HWl; lia]. }
  specialize (Hsplit ltac:(lia)).
  assert (HsW : StronglySorted by_mtime W).
  { rewrite Hsplit in Hs. apply sorted_app_inv in Hs as [_ HsW]. by apply sorted_app_inv in HsW as [HsW _]. }
  replace (Z.to_nat (Z.of_nat hi - Z.of_nat lo)) with (length W) by lia.
  destruct (search_split W (fun t => mid <=? t) (fun i => mid <=? mtime_at es (Z.of_nat lo + Z.of_nat i))) as (M1 & M2 & M3).
  { intros a b ? ?; bool2prop; apply Z.leb_le; lia. }
  { done. }
  { intros i e Hi. f_equal. unfold mtime_at. replace (Z.to_nat (Z.of_nat lo + Z.of_nat i)) with (lo + i)%nat by lia.
    rewrite Hsplit, lookup_app_r by (rewrite length_take; lia). rewrite length_take, Nat.min_l by lia.
    replace (lo + i - lo)%nat with i by lia. rewrite lookup_app_l by (by eapply lookup_lt_Some). by rewrite Hi. }
  set (k := sort_Search (length W) _) in *.
  destruct (walk_spec (length W) (take lo es) (take k W) [] (drop k W) (drop hi es) mid) as [P1 P2].
  - rewrite <- length_app, take_drop. done.
  - rewrite <- (take_drop k W) in HsW. by apply sorted_app_inv in HsW as [? _].
  - rewrite <- (take_drop k W) in HsW. by apply sorted_app_inv in HsW as [_ ?].
  - eapply Forall_impl; [exact M2|]. intros x Hx. simpl in Hx. bool2prop. lia.
  - eapply Forall_impl; [exact M3|]. intros x Hx. simpl in Hx. bool2prop. lia.
  - rewrite take_drop. apply Forall_forall. intros x [Hx _]%HWm. unfold in_window, in_reach in *. lia.
  - exists (walk (length W) (take lo es) (take k W) [] (drop k W) (drop hi es) mid).
    split_and!; [by rewrite P1, take_drop|exact P2|].
    destruct ((limit <=? 0) || (length es =? 0)%nat) eqn:Eg.
    { apply orb_true_iff in Eg as [Eg|Eg]; [|apply Nat.eqb_eq in Eg; lia]. bool2prop.
      unfold choose. replace (Z.to_nat limit) with 0%nat by lia. by destruct skip. }
    apply orb_false_iff in Eg as [Eg _]. bool2prop.
    rewrite nearby_loop_choose by (simpl; unfold nearbyScanFactor; lia). cbn [app length].
    f_equal; [lia|lia|]. unfold walk. cbn [app length].
    rewrite (app_assoc (take k W)), take_drop, <- Hsplit, !length_take, length_drop, !Nat.min_l by lia.
    f_equal; lia.
Qed.

(** ** The mtime list stays sorted *)

Lemma entries_sorted_step idx o :
  StronglySorted by_mtime (entries idx) -> StronglySorted by_mtime (entries (runIdx (St := St) idx o)).
Proof.
  intros Hs.
  assert (Hdrain : StronglySorted by_mtime (entries (drainEntriesLocked idx))).
  { unfold drainEntriesLocked. destruct (pendingEntries idx); [done|]. apply sortEntries_sorted. }
  destruct o; cbn [runIdx].
  - unfold Put, appendAddLocked. destruct (actionHash (newCompactKey key)) as [h ok].
    destruct (entriesOff idx), ok; try case_match; done.
  - unfold Remove. destruct (actionHash (newCompactKey key)) as [h ok].
    assert (Hr : StronglySorted by_mtime (remove_entry (newCompactKey key) (entries (drainEntriesLocked idx)))).
    { induction Hdrain as [|e l Hl IH He]; [constructor|]. cbn [remove_entry]. case_bool_decide; [done|].
      constructor; [done|]. rewrite Forall_forall in *. intros x Hx. apply He. clear -Hx.
      induction l as [|y l IH]; [done|]. cbn [remove_entry] in Hx. apply elem_of_cons.
      case_bool_decide; [by right|]. apply elem_of_cons in Hx as [->|Hx]; [by left|right; auto]. }
    by destruct ok.
  - unfold RemoveKeys. destruct keys as [|k keys]; [done|].
    assert (Hr : StronglySorted by_mtime (filter (fun e => s_contains (s_add_all (map newCompactKey (k :: keys)) (s_new : St)) (ie_key e) = false)
      (entries (drainEntriesLocked idx)))).
    { generalize (s_add_all (map newCompactKey (k :: keys)) (s_new : St)). intros vs.
      induction Hdrain as [|e l Hl IH He]; [constructor|]. rewrite filter_cons. case_decide; [|done].
      constructor; [done|]. rewrite Forall_forall in *. intros x [_ Hx]%list_elem_of_filter. auto. }
    by destruct (victim_hashes (k :: keys)).
  - unfold BlobGenForm, blobSlow. destruct (blobFast now form idx) as [[[b et] g]|]; [done|].
    unfold mergePendingLocked. by destruct (pending idx).
  - done.
  - unfold rebuild. destruct walk0 as [objs|]; [|done]. unfold applyRebuild, build_finish.
    destruct (bu_sorted (foldl build_add _ objs)) eqn:E; [by rewrite build_sorted_false in E|]. cbn. apply sortEntries_sorted.
  - done.
  - done.
  - constructor.
Qed.

Lemma entries_sorted_reach entriesDefault ep0 ep wk ops :
  StronglySorted by_mtime (entries (foldl (runIdx (St := St)) (NewIndex entriesDefault ep0 ep wk) ops)).
Proof.
  assert (H0 : StronglySorted by_mtime (entries (NewIndex entriesDefault ep0 ep wk))).
  { apply (entries_sorted_step _ (IRebuild ep wk)). constructor. }
  revert H0. generalize (NewIndex entriesDefault ep0 ep wk). induction ops as [|o ops IH]; intros idx H0; [done|].
  simpl. by apply IH, entries_sorted_step.
Qed.

(** [NearbyKeys] answers the nearest candidates.  In every reachable state,
    the entries it searches are the listed and the pending ones, and the answer
    is what a caller would choose from the whole window [startUnix, endUnix]
    sorted by distance from its midpoint: without a filter the first [limit]
    entries not excluded; with one, those the filter keeps among the first
    [8 * limit] not excluded.  (Times of seconds within 2^61 do not overflow.) *)
Theorem nearbyKeys_nearest entriesDefault ep0 ep wk ops startUnix endUnix limit exclude skip :
  - 2 ^ 61 <= startUnix <= 2 ^ 61 -> - 2 ^ 61 <= endUnix <= 2 ^ 61 ->
  let idx := foldl (runIdx (St := St)) (NewIndex entriesDefault ep0 ep wk) ops in
  let '(keys, idx') := NearbyKeys startUnix endUnix limit exclude skip idx in
  entries idx' ≡ₚ entries idx ++ pendingEntries idx /\
  exists w, w ≡ₚ filter (in_window startUnix endUnix) (entries idx ++ pendingEntries idx) /\
    StronglySorted (nearer (midpoint startUnix endUnix)) w /\
    keys = choose limit (limit * nearbyScanFactor) (s_add_all (map newCompactKey exclude) s_new) skip w.
Proof.
  intros Hst Hen. cbv zeta. pose proof (entries_sorted_reach entriesDefault ep0 ep wk ops) as Hs.
  set (idx := foldl _ _ ops) in *. unfold NearbyKeys.
  pose proof (entries_sorted_step idx IDrain Hs) as Hd. cbn [runIdx] in Hd.
  assert (Hperm : entries (drainEntriesLocked idx) ≡ₚ entries idx ++ pendingEntries idx).
  { unfold drainEntriesLocked. destruct (pendingEntries idx) as [|p ps] eqn:Ep; [by rewrite app_nil_r|].
    cbn [with_entries entries]. apply sortEntries_perm. }
  split; [done|].
  destruct (nearbyKeysLocked_spec _ startUnix endUnix limit (s_add_all (map newCompactKey exclude) s_new) skip Hd Hst Hen)
    as (w & W1 & W2 & W3).
  exists w. split_and!; [|done|done]. by rewrite W1, Hperm.
Qed.

End nearby.

Lemma nearbyKeys_nearest_witness :
  let idx := foldl (runIdx (St := gset compactKey)) (NewIndex true 1 2 (Some [(demoKey 1, 90); (demoKey 2, 103)]))
               [IPut 101 5 (demoKey 3); IPut 300 6 (demoKey 4)] in
  (NearbyKeys (St := gset compactKey) 50 150 2 [demoKey 3] None idx).1 = [demoKey 2; demoKey 1] /\
  entries (NearbyKeys (St := gset compactKey) 50 150 2 [demoKey 3] None idx).2 ≡ₚ entries idx ++ pendingEntries idx.
Proof.
  cbv zeta. split; [vm_compute; reflexivity|].
  pose proof (nearbyKeys_nearest (St := gset compactKey) true 1 2 (Some [(demoKey 1, 90); (demoKey 2, 103)])
    [IPut 101 5 (demoKey 3); IPut 300 6 (demoKey 4)] 50 150 2 [demoKey 3] None ltac:(lia) ltac:(lia)) as H.
  cbv zeta in H. destruct (NearbyKeys _ _ _ _ _ _) as [keys idx'] in *. exact (proj1 H).
Defined.
