(* ===== verification/HaveFilter.v ===== *)
(** * The have-filter

    A client states what it already holds as a Bloom filter
    ([cacheclient/havefilter.go]); the server asks it before it sends a
    prefetched object ([havefilter.go]).  Both sides compute bit positions in
    uint32 arithmetic from the first eight bytes of the action hash.  A false
    negative would resend an object, so the filter must have none. *)

From Stdlib Require Import ZArith Lia List Bool.
From stdpp Require Import base list sets.
From S2P Require Import Prelude SortedSlice Keys Sha256.

(** The filter on the wire. *)
Record haveFilter := HaveFilter { hf_bits : list Z; hf_k : Z }.

(** ** Client *)

Definition haveFilterHashes : Z := 6.
Definition haveFilterBitsPerKey : Z := 16.
Definition haveFilterMinBytes : Z := 2 ^ 10.
Definition haveFilterMaxBytes : Z := 64 * 2 ^ 10.

Definition keyOf64 (h : bytes) : Z := be_value (take 8 h).

(** [haveFilterBit] of the client: double hashing over both halves of the key;
    [%] by zero panics in Go, and no caller passes [m = 0]. *)
Definition client_bit (key i m : Z) : Z :=
  let h1 := u32 (Z.shiftr key 32) in
  let h2 := Z.lor (u32 key) 1 in
  u32 (h1 + u32 (u32 i * h2)) mod m.

Definition haveFilterBytes (n : Z) : Z :=
  let size := Z.quot (n * haveFilterBitsPerKey) 8 in
  if size <? haveFilterMinBytes then haveFilterMinBytes
  else if haveFilterMaxBytes <? size then haveFilterMaxBytes else size.

(** [f.Bits[idx/8] |= 1 << (idx % 8)]. *)
Definition set_bit (bits : list Z) (idx : Z) : list Z :=
  alter (fun b => Z.lor b (Z.shiftl 1 (idx mod 8))) (Z.to_nat (idx / 8)) bits.

Definition add_key (m : Z) (bits : list Z) (key : Z) : list Z :=
  foldl (fun bits i => set_bit bits (client_bit key i m)) bits (seqZ 0 haveFilterHashes).

Definition newHaveFilter (n : Z) (all : list Z) : option haveFilter :=
  if n =? 0 then None
  else
    let bits := replicate (Z.to_nat (haveFilterBytes n)) 0 in
    let m := u32 (Z.of_nat (length bits) * 8) in
    Some (HaveFilter (foldl (add_key m) bits all) haveFilterHashes).

(** [f.Bits[idx/8]&(1<<(idx%8)) == 0], negated. *)
Definition bit_is_set (bits : list Z) (idx : Z) : bool :=
  negb (Z.land (nth (Z.to_nat (idx / 8)) bits 0) (Z.shiftl 1 (idx mod 8)) =? 0).

Definition client_contains (f : option haveFilter) (h : bytes) : bool :=
  match f with
  | None => false
  | Some f =>
      match hf_bits f with
      | [] => false
      | bits =>
          let m := u32 (Z.of_nat (length bits) * 8) in
          let key := keyOf64 h in
          forallb (fun i => bit_is_set bits (client_bit key i m)) (seqZ 0 (hf_k f))
      end
  end.

(** ** Server *)

Definition haveFilterMaxHashes : Z := 10.

Definition usable (f : option haveFilter) : bool :=
  match f with
  | None => false
  | Some f => (0 <? length (hf_bits f))%nat && (1 <=? hf_k f) && (hf_k f <=? haveFilterMaxHashes)
  end.

Definition server_bit (h : bytes) (i m : Z) : Z :=
  let key := be_value (take 8 h) in
  let h1 := u32 (Z.shiftr key 32) in
  let h2 := Z.lor (u32 key) 1 in
  u32 (h1 + u32 (u32 i * h2)) mod m.

(** [None] is the panic of [%] by zero, for a filter of a multiple of 2^29 bytes. *)
Definition server_contains (f : option haveFilter) (h : bytes) : option bool :=
  if negb (usable f) then Some false
  else
    match f with
    | None => Some false
    | Some f =>
        let m := u32 (Z.of_nat (length (hf_bits f)) * 8) in
        if m =? 0 then None
        else Some (forallb (fun i => bit_is_set (hf_bits f) (server_bit h i m)) (seqZ 0 (hf_k f)))
    end.

(** ** Bits *)

Lemma land_bit b j : 0 <= j -> (Z.land b (Z.shiftl 1 j) =? 0) = negb (Z.testbit b j).
Proof.
  intros Hj. destruct (Z.testbit b j) eqn:E; cbn [negb].
  - apply Z.eqb_neq. intros H0. apply (f_equal (fun x => Z.testbit x j)) in H0.
    rewrite Z.land_spec, E, Z.shiftl_spec, Z.sub_diag, Z.bits_0 in H0 by lia. done.
  - apply Z.eqb_eq. apply Z.bits_inj'. intros n Hn. rewrite Z.land_spec, Z.bits_0, Z.shiftl_spec by lia.
    destruct (Z.eq_dec n j) as [->|Hne]; [by rewrite E|].
    destruct (Z.lt_ge_cases n j); [rewrite (Z.testbit_neg_r 1) by lia; apply andb_false_r|].
    rewrite (Z.bits_above_log2 1 (n - j)) by (simpl; lia). apply andb_false_r.
Qed.

Lemma bit_is_set_testbit bits idx :
  bit_is_set bits idx = Z.testbit (nth (Z.to_nat (idx / 8)) bits 0) (idx mod 8).
Proof.
  unfold bit_is_set. rewrite land_bit, negb_involutive; [done|]. apply Z.mod_pos_bound. lia.
Qed.

Lemma length_set_bit bits idx : length (set_bit bits idx) = length bits.
Proof. apply length_alter. Qed.

Lemma set_bit_spec bits idx :
  0 <= idx < Z.of_nat (length bits) * 8 -> bit_is_set (set_bit bits idx) idx = true.
Proof.
  intros Hidx. assert (idx / 8 < Z.of_nat (length bits)) by (apply Z.div_lt_upper_bound; lia).
  assert (0 <= idx / 8) by (apply Z.div_pos; lia).
  rewrite bit_is_set_testbit. unfold set_bit.
  destruct (lookup_lt_is_Some_2 bits (Z.to_nat (idx / 8))) as [b Hb]; [lia|].
  rewrite (nth_lookup_Some _ _ 0 (Z.lor b (Z.shiftl 1 (idx mod 8)))).
  - rewrite Z.lor_spec, Z.shiftl_spec, Z.sub_diag by (apply Z.mod_pos_bound; lia). apply orb_true_r.
  - by rewrite list_lookup_alter_eq, Hb.
Qed.

Lemma set_bit_keeps bits idx j : bit_is_set bits j = true -> bit_is_set (set_bit bits idx) j = true.
Proof.
  rewrite !bit_is_set_testbit, !nth_lookup. unfold set_bit. intros Hj.
  destruct (decide (Z.to_nat (idx / 8) = Z.to_nat (j / 8))) as [Heq|Hne].
  - rewrite Heq, list_lookup_alter_eq. destruct (bits !! Z.to_nat (j / 8)) as [b|]; simpl in *; [|done].
    by rewrite Z.lor_spec, Hj.
  - by rewrite list_lookup_alter_ne.
Qed.

Lemma client_bit_range key i m : 0 < m -> 0 <= client_bit key i m < m.
Proof. intros Hm. by apply Z.mod_pos_bound. Qed.

Lemma set_bits_spec (js : list Z) bits :
  Forall (fun j => 0 <= j < Z.of_nat (length bits) * 8) js ->
  let bits' := foldl set_bit bits js in
  length bits' = length bits /\
  (forall j, bit_is_set bits j = true -> bit_is_set bits' j = true) /\
  (forall j, j ∈ js -> bit_is_set bits' j = true).
Proof.
  revert bits; induction js as [|j0 js IH]; intros bits Hr; cbn [foldl].
  { split_and!; [done|done|]. intros j Hj. by apply not_elem_of_nil in Hj. }
  apply Forall_cons in Hr as [Hj0 Hr]. destruct (IH (set_bit bits j0)) as (I1 & I2 & I3); [by rewrite length_set_bit|].
  rewrite length_set_bit in I1. split_and!; [done| |].
  - intros j Hj. by apply I2, set_bit_keeps.
  - intros j [->|Hj]%elem_of_cons; [by apply I2, set_bit_spec|auto].
Qed.

(** Every bit position of every key, in the order the client sets them. *)
Definition positions (m : Z) (all : list Z) : list Z :=
  flat_map (fun key => map (fun i => client_bit key i m) (seqZ 0 haveFilterHashes)) all.

Lemma foldl_map_bits (f : Z -> Z) (l : list Z) bits :
  foldl (fun bits i => set_bit bits (f i)) bits l = foldl set_bit bits (map f l).
Proof. revert bits; induction l as [|i l IH]; intros bits; [done|]. apply IH. Qed.

Lemma add_keys_positions m all bits : foldl (add_key m) bits all = foldl set_bit bits (positions m all).
Proof.
  revert bits; induction all as [|key all IH]; intros bits; [done|]. cbn [foldl]. rewrite IH.
  change (positions m (key :: all)) with (map (fun i => client_bit key i m) (seqZ 0 haveFilterHashes) ++ positions m all).
  rewrite foldl_app. unfold add_key. by rewrite (foldl_map_bits (fun i => client_bit key i m)).
Qed.

Lemma haveFilterBytes_range n : haveFilterMinBytes <= haveFilterBytes n <= haveFilterMaxBytes.
Proof.
  unfold haveFilterBytes, haveFilterMinBytes, haveFilterMaxBytes. repeat case_match; bool2prop; lia.
Qed.

(** The have-filter has no false negatives: whatever hashes a client holds
    (and whatever count it sizes the filter by), the filter it sends is between
    1 KiB and 64 KiB, the server finds it usable, never panics on it, and
    answers yes for every held hash; and client and server give the same answer
    for every hash at all. *)
Theorem haveFilter_no_false_negatives n all h :
  n <> 0 -> is_hash h ->
  exists f, newHaveFilter n all = Some f /\ usable (Some f) = true /\
    haveFilterMinBytes <= Z.of_nat (length (hf_bits f)) <= haveFilterMaxBytes /\
    server_contains (Some f) h = Some (client_contains (Some f) h) /\
    (keyOf64 h ∈ all -> server_contains (Some f) h = Some true).
Proof.
  intros Hn Hh. unfold newHaveFilter. destruct (Z.eqb_spec n 0) as [|_]; [done|].
  set (bits0 := replicate _ 0). set (m := u32 _). eexists. split; [done|].
  pose proof (haveFilterBytes_range n) as Hr. unfold haveFilterMinBytes, haveFilterMaxBytes in *.
  assert (Hl0 : Z.of_nat (length bits0) = haveFilterBytes n) by (unfold bits0; rewrite length_replicate; lia).
  assert (Hm : m = haveFilterBytes n * 8) by (unfold m; rewrite Hl0; apply u32_small; lia).
  rewrite add_keys_positions.
  assert (Hpos : Forall (fun j => 0 <= j < Z.of_nat (length bits0) * 8) (positions m all)).
  { apply Forall_forall. intros j Hj. unfold positions in Hj. apply list_elem_of_In, in_flat_map in Hj as (key & _ & Hj).
    apply in_map_iff in Hj as (i & <- & _). rewrite Hl0, <- Hm. apply client_bit_range. lia. }
  destruct (set_bits_spec (positions m all) bits0 Hpos) as (L1 & _ & L3). cbv zeta in *.
  set (bits := foldl set_bit bits0 (positions m all)) in *.
  assert (Hlen : Z.of_nat (length bits) = haveFilterBytes n) by (rewrite L1; done).
  assert (Hus : usable (Some (HaveFilter bits haveFilterHashes)) = true).
  { unfold usable. cbn [hf_bits hf_k]. apply andb_true_iff. split; [|done]. apply andb_true_iff. split; [|done].
    apply Nat.ltb_lt. lia. }
  split_and!; cbn [hf_bits]; try lia; [done| |].
  - unfold server_contains, client_contains. rewrite Hus. cbn [negb hf_bits hf_k].
    destruct bits as [|b bs] eqn:Eb; [simpl in Hlen; lia|]. rewrite <- Eb in *.
    destruct (Z.eqb_spec (u32 (Z.of_nat (length bits) * 8)) 0) as [Hz|]; [|done].
    rewrite Hlen, u32_small in Hz by lia. lia.
  - intros Hin. unfold server_contains. rewrite Hus. cbn [negb hf_bits hf_k].
    destruct (Z.eqb_spec (u32 (Z.of_nat (length bits) * 8)) 0) as [Hz|_].
    { rewrite Hlen, u32_small in Hz by lia. lia. }
    f_equal. apply forallb_forall. intros i Hi. apply L3. unfold positions.
    apply list_elem_of_In, in_flat_map. exists (keyOf64 h). split; [by apply list_elem_of_In|].
    apply in_map_iff. exists i. split; [|done]. unfold client_bit, server_bit, keyOf64.
    by rewrite L1.
Qed.

Lemma haveFilter_no_false_negatives_witness :
  exists f, newHaveFilter 2 [keyOf64 (replicate 32 7); 12345] = Some f /\
            server_contains (Some f) (replicate 32 7) = Some true.
Proof.
  destruct (haveFilter_no_false_negatives 2 [keyOf64 (replicate 32 7); 12345] (replicate 32 7))
    as (f & Hf & _ & _ & _ & Hc).
  - discriminate.
  - split; [reflexivity|]. apply Forall_replicate. unfold is_byte. lia.
  - exists f. split; [exact Hf|]. apply Hc. apply elem_of_cons. left. reflexivity.
Defined.
