(* ===== verification/SlotQueue.v ===== *)
(** * Admission: the work slots

    [admit.go] and the admission half of [server.go].  [slotQueue] is the shared
    object; each critical section of its methods is one definition on it.  The
    requests around it (blocked in [take]'s select, leaving it after a timeout,
    holding a slot, releasing it once) form a transition system in which every
    interleaving of those critical sections is a path.  The theorems: slots are
    neither lost nor duplicated, a slot is free only when nobody waits, the
    queue is bounded, and a slot always goes to the earliest demand request
    first. *)

From Stdlib Require Import ZArith Lia List Bool.
From stdpp Require Import base gmap list sets relations.
From S2P Require Import Prelude.

(** ** The shared object *)

(** Waiters are named by request; [granted] holds the waiters whose [granted]
    flag is set (and whose [ready] channel is closed). *)
Record slotQueue := SlotQueue {
  free : Z;
  demand : list nat;
  prefetch : list nat;
  granted : gset nat
}.

Definition newSlotQueue (slots : Z) : slotQueue := SlotQueue slots [] [] ∅.

Definition tryTake (q : slotQueue) : bool * slotQueue :=
  if free q =? 0 then (false, q)
  else (true, SlotQueue (free q - 1) (demand q) (prefetch q) (granted q)).

Definition waiting (q : slotQueue) : Z := Z.of_nat (length (demand q)) + Z.of_nat (length (prefetch q)).

Inductive takeResult := Taken | Refused | Queued.

(** [take] up to its first [Unlock]. *)
Definition take_enter (id : nat) (isPrefetch : bool) (maxQueued : Z) (q : slotQueue) : takeResult * slotQueue :=
  if 0 <? free q then (Taken, SlotQueue (free q - 1) (demand q) (prefetch q) (granted q))
  else if maxQueued <=? waiting q then (Refused, q)
  else if isPrefetch then (Queued, SlotQueue (free q) (demand q) (prefetch q ++ [id]) (granted q))
  else (Queued, SlotQueue (free q) (demand q ++ [id]) (prefetch q) (granted q)).

Definition releaseLocked (q : slotQueue) : slotQueue :=
  match demand q, prefetch q with
  | id :: d, p => SlotQueue (free q) d p ({[id]} ∪ granted q)
  | [], id :: p => SlotQueue (free q) [] p ({[id]} ∪ granted q)
  | [], [] => SlotQueue (free q + 1) [] [] (granted q)
  end.

Definition release (q : slotQueue) : slotQueue := releaseLocked q.

Definition remove_waiter (id : nat) (l : list nat) : list nat := filter (fun x => x <> id) l.

(** [take] after its select ended by timer or context: [ctxDead] is
    [ctx.Err() != nil] read under the lock.  Answers whether the slot is held.
    A waiter is only in the list of its class. *)
Definition take_leave (id : nat) (isPrefetch ctxDead : bool) (q : slotQueue) : bool * slotQueue :=
  if bool_decide (id ∈ granted q) then
    if ctxDead then (false, releaseLocked q) else (true, q)
  else if isPrefetch then (false, SlotQueue (free q) (demand q) (remove_waiter id (prefetch q)) (granted q))
  else (false, SlotQueue (free q) (remove_waiter id (demand q)) (prefetch q) (granted q)).

(** ** Requests *)

Inductive reqState :=
  | Trying                      (* [tryTake] failed, [take] not entered *)
  | Blocked (isPrefetch : bool) (* in [take]'s select *)
  | Leaving (isPrefetch : bool) (* select ended by timer or context *)
  | Holding                     (* admitted, [once] not yet run *)
  | Done.                       (* refused, or slot given back *)

#[export] Instance reqState_eq_dec : EqDecision reqState.
Proof. solve_decision. Defined.

Record sys := Sys { q : slotQueue; reqs : gmap nat reqState }.

Section system.
Context (slots maxQueued : Z).

Definition init : sys := Sys (newSlotQueue slots) ∅.

(** One critical section of one request. *)
Inductive step : sys -> sys -> Prop :=
  (* [admit]: a new request tries the fast path *)
  | step_try s id :
      reqs s !! id = None ->
      step s (Sys (tryTake (q s)).2 (<[id := if (tryTake (q s)).1 then Holding else Trying]> (reqs s)))
  (* [take], its first critical section *)
  | step_enter s id isPrefetch :
      reqs s !! id = Some Trying ->
      step s (Sys (take_enter id isPrefetch maxQueued (q s)).2
        (<[id := match (take_enter id isPrefetch maxQueued (q s)).1 with
                 | Taken => Holding | Refused => Done | Queued => Blocked isPrefetch end]> (reqs s)))
  (* the select takes [waiter.ready] *)
  | step_ready s id isPrefetch :
      reqs s !! id = Some (Blocked isPrefetch) -> id ∈ granted (q s) ->
      step s (Sys (q s) (<[id := Holding]> (reqs s)))
  (* the select takes the timer or the context *)
  | step_timeout s id isPrefetch :
      reqs s !! id = Some (Blocked isPrefetch) ->
      step s (Sys (q s) (<[id := Leaving isPrefetch]> (reqs s)))
  | step_leave s id isPrefetch ctxDead :
      reqs s !! id = Some (Leaving isPrefetch) ->
      step s (Sys (take_leave id isPrefetch ctxDead (q s)).2
        (<[id := if (take_leave id isPrefetch ctxDead (q s)).1 then Holding else Done]> (reqs s)))
  (* [admission.release], the first time *)
  | step_release s id :
      reqs s !! id = Some Holding ->
      step s (Sys (release (q s)) (<[id := Done]> (reqs s))).

(** ** Counting slots *)

(** Requests a slot is reserved for: holders, and waiters granted but not yet
    past their select. *)
Definition has_slot (q : slotQueue) (id : nat) (r : reqState) : bool :=
  match r with
  | Holding => true
  | Blocked _ | Leaving _ => bool_decide (id ∈ granted q)
  | _ => false
  end.

(** The sum of a weight over the requests. *)
Definition msum (w : nat -> reqState -> Z) (m : gmap nat reqState) : Z := map_fold (fun id r n => n + w id r) 0 m.

Definition weight (q : slotQueue) (id : nat) (r : reqState) : Z := if has_slot q id r then 1 else 0.

Definition used (s : sys) : Z := msum (weight (q s)) (reqs s).

(** ** The invariant *)

Definition waits_in (s : sys) (id : nat) (b : bool) : Prop :=
  (reqs s !! id = Some (Blocked b) \/ reqs s !! id = Some (Leaving b)) /\ id ∉ granted (q s).

Definition sys_inv (s : sys) : Prop :=
  free (q s) + used s = slots /\ 0 <= free (q s) /\
  NoDup (demand (q s)) /\ NoDup (prefetch (q s)) /\
  (forall id, id ∈ demand (q s) <-> waits_in s id false) /\
  (forall id, id ∈ prefetch (q s) <-> waits_in s id true) /\
  (forall id, id ∈ granted (q s) -> is_Some (reqs s !! id) /\ reqs s !! id <> Some Trying) /\
  (0 < free (q s) -> demand (q s) = [] /\ prefetch (q s) = []) /\
  waiting (q s) <= Z.max 0 maxQueued.

(** ** Sums over requests *)

Lemma msum_insert_new w m id r : m !! id = None -> msum w (<[id := r]> m) = msum w m + w id r.
Proof. intros Hn. unfold msum. rewrite map_fold_insert_L; [done| |done]. intros. lia. Qed.

Lemma msum_lookup w m id r : m !! id = Some r -> msum w m = msum w (delete id m) + w id r.
Proof.
  intros Hr. rewrite <- (insert_delete_id m id r Hr) at 1. apply msum_insert_new, lookup_delete_eq.
Qed.

Lemma msum_ext w w' m : (forall id r, m !! id = Some r -> w id r = w' id r) -> msum w m = msum w' m.
Proof.
  induction m as [|id r m Hn IH] using map_ind; intros Hw; [done|].
  rewrite !msum_insert_new by done. rewrite IH, (Hw id r); [done|by rewrite lookup_insert_eq|].
  intros j x Hj. apply Hw. rewrite lookup_insert_ne; [done|]. by intros ->; rewrite Hn in Hj.
Qed.

Definition owt (w : nat -> reqState -> Z) (id : nat) (r : option reqState) : Z :=
  match r with Some r => w id r | None => 0 end.

(** One request changes its state and weight; the others keep theirs. *)
Lemma msum_update w w' m id r :
  (forall j x, j <> id -> m !! j = Some x -> w' j x = w j x) ->
  msum w' (<[id := r]> m) = msum w m - owt w id (m !! id) + w' id r.
Proof.
  intros Hw. rewrite <- insert_delete_eq, msum_insert_new by apply lookup_delete_eq.
  assert (Hd : msum w' (delete id m) = msum w (delete id m)).
  { apply msum_ext. intros j x Hj. apply lookup_delete_Some in Hj as [Hne Hj]. by apply Hw. }
  rewrite Hd. destruct (m !! id) as [r0|] eqn:E; simpl.
  - rewrite (msum_lookup w m id r0 E). lia.
  - rewrite (delete_id m) by done. lia.
Qed.

Lemma weight_other q0 q1 (m : gmap nat reqState) id :
  (forall j, j <> id -> j ∈ granted q1 <-> j ∈ granted q0) ->
  forall j x, j <> id -> m !! j = Some x -> weight q1 j x = weight q0 j x.
Proof.
  intros Hg j x Hne _. unfold weight, has_slot. destruct x; try done; by rewrite (bool_decide_ext _ _ (Hg j Hne)).
Qed.
(** ** Preservation *)

(** The invariant with [k] slots in nobody's hands, between two statements of a
    critical section. *)
Definition inv_less (k : Z) (s : sys) : Prop :=
  free (q s) + used s = slots - k /\ 0 <= free (q s) /\
  NoDup (demand (q s)) /\ NoDup (prefetch (q s)) /\
  (forall id, id ∈ demand (q s) <-> waits_in s id false) /\
  (forall id, id ∈ prefetch (q s) <-> waits_in s id true) /\
  (forall id, id ∈ granted (q s) -> is_Some (reqs s !! id) /\ reqs s !! id <> Some Trying) /\
  (0 < free (q s) -> demand (q s) = [] /\ prefetch (q s) = []) /\
  waiting (q s) <= Z.max 0 maxQueued.

Lemma inv_less_0 s : inv_less 0 s <-> sys_inv s.
Proof. unfold inv_less, sys_inv. by rewrite Z.sub_0_r. Qed.

(** The class a request's state names, if it waits. *)
Definition class_of (r : option reqState) : option bool :=
  match r with Some (Blocked b) | Some (Leaving b) => Some b | _ => None end.

Lemma waits_in_class s id b : waits_in s id b <-> class_of (reqs s !! id) = Some b /\ id ∉ granted (q s).
Proof.
  unfold waits_in. destruct (reqs s !! id) as [[]|]; simpl; naive_solver.
Qed.

(** A request changes state without joining or leaving a class. *)
Lemma inv_set_req k s id r :
  inv_less k s -> (id ∉ granted (q s) -> class_of (Some r) = class_of (reqs s !! id)) -> r <> Trying \/ id ∉ granted (q s) ->
  inv_less (k + owt (weight (q s)) id (reqs s !! id) - weight (q s) id r) (Sys (q s) (<[id := r]> (reqs s))).
Proof.
  intros (I1 & I2 & I3 & I4 & I5 & I6 & I7 & I8 & I9) Hc Ht.
  assert (Hw : forall j b, waits_in (Sys (q s) (<[id := r]> (reqs s))) j b <-> waits_in s j b).
  { intros j b. rewrite !waits_in_class. cbn [q reqs]. destruct (decide (j = id)) as [->|Hne].
    - rewrite lookup_insert_eq. split; intros [H1 H2]; (split; [|done]); specialize (Hc H2); congruence.
    - by rewrite lookup_insert_ne. }
  split_and!; cbn [q reqs]; try done.
  - unfold used in *. cbn [q reqs]. rewrite (msum_update (weight (q s)) (weight (q s))) by done. lia.
  - intros j. by rewrite Hw.
  - intros j. by rewrite Hw.
  - intros j Hj. destruct (decide (j = id)) as [->|Hne].
    + rewrite lookup_insert_eq. split; [done|]. intros [= ->]. by destruct Ht.
    + rewrite lookup_insert_ne by done. auto.
Qed.

Lemma grant_used s id q' b :
  waits_in s id b -> granted q' = {[id]} ∪ granted (q s) -> used (Sys q' (reqs s)) = used s + 1.
Proof.
  intros [Hr Hng] Hg. unfold used. cbn [q reqs].
  assert (exists r, reqs s !! id = Some r /\ (r = Blocked b \/ r = Leaving b)) as (r & Hid & Hrb) by naive_solver.
  rewrite <- (insert_id (reqs s) id r Hid) at 1.
  rewrite (msum_update (weight (q s)) (weight q')).
  - rewrite Hid. simpl. unfold weight, has_slot.
    destruct Hrb as [->| ->]; rewrite bool_decide_false by done; rewrite bool_decide_true by (rewrite Hg; apply elem_of_union; left; by apply elem_of_singleton); lia.
  - apply (weight_other (q s) q' (reqs s)). intros j Hj. rewrite Hg, elem_of_union, elem_of_singleton. naive_solver.
Qed.

(** A free slot in a [releaseLocked]'s hands goes to the head of a class, or
    back to the free count. *)
Lemma release_inv s : inv_less 1 s -> sys_inv (Sys (releaseLocked (q s)) (reqs s)).
Proof.
  intros (I1 & I2 & I3 & I4 & I5 & I6 & I7 & I8 & I9). rewrite <- inv_less_0. unfold releaseLocked.
  assert (Hgrant : forall id b d p, waits_in s id b -> free (q s) = 0 -> NoDup d -> NoDup p ->
    (forall j, j ∈ d <-> j <> id /\ j ∈ demand (q s)) -> (forall j, j ∈ p <-> j <> id /\ j ∈ prefetch (q s)) ->
    Z.of_nat (length d) + Z.of_nat (length p) <= waiting (q s) ->
    inv_less 0 (Sys (SlotQueue (free (q s)) d p ({[id]} ∪ granted (q s))) (reqs s))).
  { intros id b d p Hwt Hf0 Hnd Hnp Hd Hp Hlen. set (q' := SlotQueue _ _ _ _).
    assert (Hw : forall j c, waits_in (Sys q' (reqs s)) j c <-> j <> id /\ waits_in s j c).
    { intros j c. rewrite !waits_in_class. cbn [q' q reqs granted]. rewrite not_elem_of_union, not_elem_of_singleton. tauto. }
    split_and!; cbn [q' q reqs free demand prefetch granted]; try done; try lia.
    - rewrite (grant_used s id q' b Hwt eq_refl). lia.
    - intros j. by rewrite Hw, Hd, I5.
    - intros j. by rewrite Hw, Hp, I6.
    - intros j [->%elem_of_singleton|Hj]%elem_of_union; [|by apply I7]. destruct Hwt as [[->| ->] _]; split; done.
    - unfold q', waiting in *. cbn [demand prefetch]. lia. }
  destruct (demand (q s)) as [|id d] eqn:Ed.
  - destruct (prefetch (q s)) as [|id p] eqn:Ep.
    + split_and!; cbn [q reqs free demand prefetch granted]; try done; try lia.
      * unfold used in *. cbn [q reqs]. rewrite (msum_ext (weight _) (weight (q s))); [lia|done].
      * unfold waiting. simpl. lia.
    + apply NoDup_cons in I4 as [Hni Hnp]. apply (Hgrant id true); try done.
      * apply I6, elem_of_cons. auto.
      * destruct (decide (0 < free (q s))) as [Hpos|]; [by destruct (I8 Hpos)|lia].
      * intros j. rewrite elem_of_nil. tauto.
      * intros j. rewrite elem_of_cons. split; [intros Hj; split; [by intros ->|auto]|by intros [? [?|?]]].
      * unfold waiting. rewrite Ed, Ep. simpl. lia.
  - apply NoDup_cons in I3 as [Hni Hnd]. apply (Hgrant id false); try done.
    + apply I5, elem_of_cons. auto.
    + destruct (decide (0 < free (q s))) as [Hpos|]; [by destruct (I8 Hpos)|lia].
    + intros j. rewrite elem_of_cons. split; [intros Hj; split; [by intros ->|auto]|by intros [? [?|?]]].
    + intros j. split; [|by intros [_ ?]]. intros Hj. split; [|done]. intros ->.
      assert (waits_in s id false) as [[H1|H1] _] by (apply I5, elem_of_cons; auto);
      apply I6 in Hj as [[H2|H2] _]; congruence.
    + unfold waiting. rewrite Ed. simpl. lia.
Qed.

Lemma release_inv_sys q0 m : inv_less 1 (Sys q0 m) -> sys_inv (Sys (releaseLocked q0) m).
Proof. exact (release_inv (Sys q0 m)). Qed.

Lemma take_free_inv k s :
  inv_less k s -> 0 < free (q s) ->
  inv_less (k + 1) (Sys (SlotQueue (free (q s) - 1) (demand (q s)) (prefetch (q s)) (granted (q s))) (reqs s)).
Proof.
  intros (I1 & I2 & I3 & I4 & I5 & I6 & I7 & I8 & I9) Hpos. destruct (I8 Hpos) as [Hd Hp].
  split_and!; cbn [q reqs free demand prefetch granted]; try done; try lia.
  unfold used in *. cbn [q reqs]. rewrite (msum_ext (weight _) (weight (q s))); [lia|done].
Qed.

Lemma not_granted s id : sys_inv s -> (reqs s !! id = None \/ reqs s !! id = Some Trying) -> id ∉ granted (q s).
Proof.
  intros (_ & _ & _ & _ & _ & _ & I7 & _) Hid Hg. destruct (I7 id Hg) as [[r Hr] Ht]. destruct Hid; congruence.
Qed.

(** A request that holds no slot and waits nowhere takes a free slot. *)
Lemma admit_inv s id :
  sys_inv s -> (reqs s !! id = None \/ reqs s !! id = Some Trying) -> 0 < free (q s) ->
  sys_inv (Sys (SlotQueue (free (q s) - 1) (demand (q s)) (prefetch (q s)) (granted (q s))) (<[id := Holding]> (reqs s))).
Proof.
  intros Hinv Hid Hpos. pose proof (not_granted s id Hinv Hid) as Hng. apply inv_less_0 in Hinv.
  assert (Hold : owt (weight (q s)) id (reqs s !! id) = 0) by (by destruct Hid as [->| ->]).
  pose proof (inv_set_req 0 s id Holding Hinv) as Hset. rewrite Hold in Hset.
  apply (take_free_inv (0 + 0 - weight (q s) id Holding) (Sys (q s) (<[id := Holding]> (reqs s)))) in Hset; try done.
  - apply inv_less_0. exact Hset.
  - intros _. by destruct Hid as [->| ->].
  - by left.
Qed.

Lemma idle_inv s id r :
  sys_inv s -> (reqs s !! id = None \/ reqs s !! id = Some Trying) -> r = Trying \/ r = Done ->
  sys_inv (Sys (q s) (<[id := r]> (reqs s))).
Proof.
  intros Hinv Hid Hr. pose proof (not_granted s id Hinv Hid) as Hng. apply inv_less_0 in Hinv.
  pose proof (inv_set_req 0 s id r Hinv) as Hset. apply inv_less_0.
  replace 0 with (0 + owt (weight (q s)) id (reqs s !! id) - weight (q s) id r).
  - apply Hset; [|by right]. intros _. by destruct Hid as [->| ->], Hr as [->| ->].
  - by destruct Hid as [->| ->], Hr as [->| ->].
Qed.

(** Joining a class at its back. *)
Lemma enqueue_inv s id (b : bool) :
  sys_inv s -> reqs s !! id = Some Trying -> free (q s) <= 0 -> waiting (q s) < maxQueued ->
  let q' := if b then SlotQueue (free (q s)) (demand (q s)) (prefetch (q s) ++ [id]) (granted (q s))
            else SlotQueue (free (q s)) (demand (q s) ++ [id]) (prefetch (q s)) (granted (q s)) in
  sys_inv (Sys q' (<[id := Blocked b]> (reqs s))).
Proof.
  intros Hinv Hid Hf Hw q'. pose proof (not_granted s id Hinv (or_intror Hid)) as Hng.
  destruct Hinv as (I1 & I2 & I3 & I4 & I5 & I6 & I7 & I8 & I9).
  assert (Hnw : forall c : bool, ~ waits_in s id c) by (intros c; rewrite waits_in_class, Hid; by intros [? _]).
  assert (Hwi : forall j c, waits_in (Sys q' (<[id := Blocked b]> (reqs s))) j c <->
                            (j = id /\ c = b) \/ waits_in s j c).
  { intros j c. rewrite !waits_in_class. cbn [q reqs].
    assert (granted q' = granted (q s)) as -> by (unfold q'; by destruct b).
    destruct (decide (j = id)) as [->|Hne]; [rewrite lookup_insert_eq, Hid; simpl; naive_solver|].
    rewrite lookup_insert_ne by done. naive_solver. }
  assert (Hu : used (Sys q' (<[id := Blocked b]> (reqs s))) = used s).
  { unfold used. cbn [q reqs]. rewrite (msum_update (weight (q s)) (weight q')).
    - rewrite Hid. simpl. unfold weight, has_slot.
      assert (granted q' = granted (q s)) as -> by (unfold q'; by destruct b). rewrite bool_decide_false by done. lia.
    - apply (weight_other (q s) q' (reqs s)). intros j _. unfold q'. by destruct b. }
  assert (Hg : forall j, j ∈ granted (q s) -> is_Some (<[id := Blocked b]> (reqs s) !! j) /\ <[id := Blocked b]> (reqs s) !! j <> Some Trying).
  { intros j Hj. destruct (decide (j = id)) as [->|Hne]; [done|]. rewrite lookup_insert_ne by done. auto. }
  split_and!; rewrite ?Hu; unfold q' in *; destruct b; cbn [q reqs free demand prefetch granted] in *;
    try done; try lia; try (unfold waiting in *; cbn [demand prefetch]; rewrite length_app; simpl; lia).
  - apply NoDup_app. split_and!; [done| |apply NoDup_singleton]. intros j Hj ->%list_elem_of_singleton. by apply I5, Hnw in Hj.
  - apply NoDup_app. split_and!; [done| |apply NoDup_singleton]. intros j Hj ->%list_elem_of_singleton. by apply I6, Hnw in Hj.
  - intros j. rewrite Hwi, I5. naive_solver.
  - intros j. rewrite Hwi, elem_of_app, list_elem_of_singleton, I5. naive_solver.
  - intros j. rewrite Hwi, elem_of_app, list_elem_of_singleton, I6. naive_solver.
  - intros j. rewrite Hwi, I6. naive_solver.
Qed.

(** Leaving a class unserved. *)
Lemma dequeue_inv s id (b : bool) :
  sys_inv s -> reqs s !! id = Some (Leaving b) -> id ∉ granted (q s) ->
  let q' := if b then SlotQueue (free (q s)) (demand (q s)) (remove_waiter id (prefetch (q s))) (granted (q s))
            else SlotQueue (free (q s)) (remove_waiter id (demand (q s))) (prefetch (q s)) (granted (q s)) in
  sys_inv (Sys q' (<[id := Done]> (reqs s))).
Proof.
  intros (I1 & I2 & I3 & I4 & I5 & I6 & I7 & I8 & I9) Hid Hng q'.
  assert (Hown : forall c, waits_in s id c -> c = b) by (intros c; rewrite waits_in_class, Hid; simpl; naive_solver).
  assert (Hwi : forall j c, waits_in (Sys q' (<[id := Done]> (reqs s))) j c <-> j <> id /\ waits_in s j c).
  { intros j c. rewrite !waits_in_class. cbn [q reqs].
    assert (granted q' = granted (q s)) as -> by (unfold q'; by destruct b).
    destruct (decide (j = id)) as [->|Hne]; [rewrite lookup_insert_eq; simpl; naive_solver|].
    rewrite lookup_insert_ne by done. naive_solver. }
  assert (Hu : used (Sys q' (<[id := Done]> (reqs s))) = used s).
  { unfold used. cbn [q reqs]. rewrite (msum_update (weight (q s)) (weight q')).
    - rewrite Hid. simpl. unfold weight, has_slot. rewrite bool_decide_false by done. lia.
    - apply (weight_other (q s) q' (reqs s)). intros j _. unfold q'. by destruct b. }
  assert (Hg : forall j, j ∈ granted (q s) -> is_Some (<[id := Done]> (reqs s) !! j) /\ <[id := Done]> (reqs s) !! j <> Some Trying).
  { intros j Hj. destruct (decide (j = id)) as [->|Hne]; [done|]. rewrite lookup_insert_ne by done. auto. }
  assert (Hlen : forall l : list nat, (length (remove_waiter id l) <= length l)%nat) by (intros l; apply length_filter).
  pose proof (Hlen (demand (q s))). pose proof (Hlen (prefetch (q s))).
  split_and!; rewrite ?Hu; unfold q' in *; destruct b; cbn [q reqs free demand prefetch granted] in *;
    try done; try lia; try (unfold waiting in *; cbn [demand prefetch]; lia); try (unfold remove_waiter; by apply NoDup_filter).
  - intros j. rewrite Hwi, I5. split; [|naive_solver]. intros Hj. split; [|done]. intros ->. by apply Hown in Hj.
  - intros j. rewrite Hwi. unfold remove_waiter. by rewrite list_elem_of_filter, I5.
  - intros j. rewrite Hwi. unfold remove_waiter. by rewrite list_elem_of_filter, I6.
  - intros j. rewrite Hwi, I6. split; [|naive_solver]. intros Hj. split; [|done]. intros ->. by apply Hown in Hj.
  - intros Hpos. destruct (I8 Hpos) as [-> ->]. done.
  - intros Hpos. destruct (I8 Hpos) as [-> ->]. done.
Qed.

Lemma step_inv s s' : step s s' -> sys_inv s -> sys_inv s'.
Proof.
  intros Hstep Hinv. pose proof Hinv as (_ & Hfree & _).
  destruct Hstep as [s id Hid|s id b Hid|s id b Hid Hg|s id b Hid|s id b dead Hid|s id Hid].
  - unfold tryTake. destruct (Z.eqb_spec (free (q s)) 0) as [Hz|Hnz]; cbn [fst snd].
    + apply idle_inv; auto.
    + apply admit_inv; auto. lia.
  - unfold take_enter. destruct (Z.ltb_spec 0 (free (q s))); cbn [fst snd]; [apply admit_inv; auto|].
    destruct (Z.leb_spec maxQueued (waiting (q s))); cbn [fst snd]; [apply idle_inv; auto|].
    pose proof (enqueue_inv s id b Hinv Hid) as He. destruct b; apply He; lia.
  - apply inv_less_0 in Hinv. pose proof (inv_set_req 0 s id Holding Hinv) as Hset. apply inv_less_0.
    rewrite Hid in Hset. simpl in Hset. unfold weight, has_slot in Hset. rewrite bool_decide_true in Hset by done.
    apply Hset; [done|by left].
  - apply inv_less_0 in Hinv. pose proof (inv_set_req 0 s id (Leaving b) Hinv) as Hset. apply inv_less_0.
    rewrite Hid in Hset. simpl in Hset. unfold weight, has_slot in Hset.
    rewrite Z.add_0_l, Z.sub_diag in Hset. apply Hset; [done|by left].
  - unfold take_leave. case_bool_decide as Hg.
    + apply inv_less_0 in Hinv. assert (Hw : weight (q s) id (Leaving b) = 1).
      { unfold weight, has_slot. by rewrite bool_decide_true. }
      destruct dead; cbn [fst snd].
      * apply release_inv_sys.
        pose proof (inv_set_req 0 s id Done Hinv) as Hset. rewrite Hid in Hset. simpl in Hset. rewrite Hw in Hset.
        apply Hset; [done|by left].
      * apply inv_less_0. pose proof (inv_set_req 0 s id Holding Hinv) as Hset. rewrite Hid in Hset. simpl in Hset.
        rewrite Hw in Hset. apply Hset; [done|by left].
    + pose proof (dequeue_inv s id b Hinv Hid Hg) as Hd. by destruct b.
  - apply inv_less_0 in Hinv. apply release_inv_sys.
    pose proof (inv_set_req 0 s id Done Hinv) as Hset. rewrite Hid in Hset. apply Hset; [done|by left].
Qed.

Lemma init_inv : 0 <= slots -> sys_inv init.
Proof.
  intros Hs. unfold init, newSlotQueue.
  assert (Hw : forall id b, ~ waits_in (Sys (SlotQueue slots [] [] ∅) ∅) id b).
  { intros id b. rewrite waits_in_class. cbn [reqs]. rewrite lookup_empty. by intros [? _]. }
  split_and!; cbn [q reqs free demand prefetch granted].
  - unfold used, msum. cbn [q reqs free]. rewrite map_fold_empty. lia.
  - done.
  - apply NoDup_nil_2.
  - apply NoDup_nil_2.
  - intros id. rewrite elem_of_nil. split; [done|apply Hw].
  - intros id. rewrite elem_of_nil. split; [done|apply Hw].
  - intros id Hid. by apply not_elem_of_empty in Hid.
  - done.
  - unfold waiting. cbn [demand prefetch length]. lia.
Qed.

Lemma reachable_inv s : 0 <= slots -> rtc step init s -> sys_inv s.
Proof.
  intros Hs Hr. pose proof (init_inv Hs) as Hi. revert Hi.
  induction Hr as [s|s1 s2 s3 Hst _ IH]; intros Hi; [done|]. by eapply IH, step_inv.
Qed.

(** Requests that may be doing work. *)
Definition holders (s : sys) : Z := msum (fun _ r => if decide (r = Holding) then 1 else 0) (reqs s).

Lemma msum_le w w' m : (forall id r, w id r <= w' id r) -> msum w m <= msum w' m.
Proof.
  intros Hw. induction m as [|id r m Hn IH] using map_ind; [done|].
  rewrite !msum_insert_new by done. specialize (Hw id r). lia.
Qed.

(** C14. Work slots are conserved under every interleaving of admissions,
    waits, timeouts, disconnects and releases: free slots plus slots held or
    handed to a waiter always make up the configured number, so never more than
    that many requests work at once and none is lost (also when a slot arrives
    in the instant a wait ends); a slot is free only while nobody waits; and the
    two queues together never exceed the bound. *)
Theorem slots_conserved s :
  0 <= slots -> rtc step init s ->
  free (q s) + used s = slots /\ 0 <= free (q s) /\ holders s <= slots /\
  (0 < free (q s) -> waiting (q s) = 0) /\ waiting (q s) <= Z.max 0 maxQueued.
Proof.
  intros Hs Hr. pose proof (reachable_inv s Hs Hr) as (I1 & I2 & _ & _ & _ & _ & _ & I8 & I9).
  split_and!; try done.
  - assert (holders s <= used s); [|lia]. apply msum_le. intros id r. unfold weight, has_slot.
    case_decide; [by subst|]. destruct r; try case_bool_decide; lia.
  - intros Hpos. destruct (I8 Hpos) as [Hd Hp]. unfold waiting. by rewrite Hd, Hp.
Qed.

Lemma releaseLocked_grants q0 id :
  id ∈ granted (releaseLocked q0) -> id ∉ granted q0 ->
  (exists d, demand q0 = id :: d) \/ (demand q0 = [] /\ exists p, prefetch q0 = id :: p).
Proof.
  unfold releaseLocked. destruct (demand q0) as [|i d] eqn:Ed; [destruct (prefetch q0) as [|i p] eqn:Ep|]; cbn [granted].
  - done.
  - intros [->%elem_of_singleton|?]%elem_of_union ?; [|done]. right. eauto.
  - intros [->%elem_of_singleton|?]%elem_of_union ?; [|done]. left. eauto.
Qed.

(** Which end of the queues a slot is handed to, and who may pass them. *)
Lemma grant_at_head s s' :
  0 <= slots -> rtc step init s -> step s s' ->
  (forall id, id ∈ granted (q s') -> id ∉ granted (q s) ->
     (exists d, demand (q s) = id :: d) \/ (demand (q s) = [] /\ exists p, prefetch (q s) = id :: p)) /\
  (forall id, (reqs s !! id = None \/ reqs s !! id = Some Trying) -> reqs s' !! id = Some Holding ->
     demand (q s) = [] /\ prefetch (q s) = []).
Proof.
  intros Hs Hr Hstep. pose proof (reachable_inv s Hs Hr) as (_ & I2 & _ & _ & _ & _ & _ & I8 & _).
  destruct Hstep as [s id Hid|s id b Hid|s id b Hid Hg|s id b Hid|s id b dead Hid|s id Hid]; cbn [q reqs].
  - unfold tryTake. destruct (Z.eqb_spec (free (q s)) 0) as [Hz|Hnz]; cbn [fst snd granted].
    + split; [done|]. intros j Hj. destruct (decide (j = id)) as [->|Hne]; [by rewrite lookup_insert_eq|].
      rewrite lookup_insert_ne by done. intros Hj'. destruct Hj; congruence.
    + split; [done|]. intros _ _ _. apply I8. lia.
  - unfold take_enter. destruct (Z.ltb_spec 0 (free (q s))); cbn [fst snd granted]; [split; [done|]; intros _ _ _; by apply I8|].
    assert (Hno : forall r j, r <> Holding -> (reqs s !! j = None \/ reqs s !! j = Some Trying) ->
      <[id := r]> (reqs s) !! j = Some Holding -> demand (q s) = [] /\ prefetch (q s) = []).
    { intros r j Hr' Hj. destruct (decide (j = id)) as [->|Hne]; [rewrite lookup_insert_eq; congruence|].
      rewrite lookup_insert_ne by done. intros Hj'. destruct Hj; congruence. }
    destruct (maxQueued <=? waiting (q s)); cbn [fst snd]; [split; [done|]; intros j; by apply Hno|].
    destruct b; cbn [fst snd granted]; (split; [done|]); intros j; by apply Hno.
  - split; [done|]. intros j Hj. destruct (decide (j = id)) as [->|Hne]; [destruct Hj; congruence|].
    rewrite lookup_insert_ne by done. intros Hj'. destruct Hj; congruence.
  - split; [done|]. intros j Hj. destruct (decide (j = id)) as [->|Hne]; [destruct Hj; congruence|].
    rewrite lookup_insert_ne by done. intros Hj'. destruct Hj; congruence.
  - split.
    + intros j. unfold take_leave. case_bool_decide; [destruct dead; [apply releaseLocked_grants|done]|by destruct b].
    + intros j Hj. destruct (decide (j = id)) as [->|Hne]; [destruct Hj; congruence|].
      rewrite lookup_insert_ne by done. intros Hj'. destruct Hj; congruence.
  - split; [intros j; apply releaseLocked_grants|].
    intros j Hj. destruct (decide (j = id)) as [->|Hne]; [destruct Hj; congruence|].
    rewrite lookup_insert_ne by done. intros Hj'. destruct Hj; congruence.
Qed.

(** ** Who came first *)

(** A run with the order in which its requests began to wait.  The log knows
    the requests only: a request joins it in the step that makes it wait. *)
Inductive run : sys -> list nat -> Prop :=
  | run_init : run init []
  | run_join s s' log id b : run s log -> step s s' -> reqs s !! id = Some Trying -> reqs s' !! id = Some (Blocked b) -> run s' (log ++ [id])
  | run_quiet s s' log : run s log -> step s s' -> (forall id b, reqs s !! id = Some Trying -> reqs s' !! id <> Some (Blocked b)) -> run s' log.

(** [i] began to wait before [j]. *)
Definition before (log : list nat) (i j : nat) : Prop := exists l1 l2, log = l1 ++ i :: l2 /\ j ∈ l2.

Lemma run_reachable s log : run s log -> rtc step init s.
Proof. induction 1 as [|s s' log id b _ IH Hst _ _|s s' log _ IH Hst _]; [apply rtc_refl|by eapply rtc_r|by eapply rtc_r]. Qed.

(** One step: a request that begins to wait goes to the end of its queue, and
    otherwise the queues only lose requests. *)
Lemma step_queues s s' : step s s' ->
  (exists id b, reqs s !! id = Some Trying /\ reqs s' !! id = Some (Blocked b) /\
    demand (q s') = demand (q s) ++ (if b then [] else [id]) /\ prefetch (q s') = prefetch (q s) ++ (if b then [id] else []) /\
    forall j, j <> id -> reqs s' !! j = reqs s !! j) \/
  (sublist (demand (q s')) (demand (q s)) /\ sublist (prefetch (q s')) (prefetch (q s)) /\
    (forall id b, reqs s !! id = Some Trying -> reqs s' !! id <> Some (Blocked b)) /\
    forall j, is_Some (reqs s !! j) -> reqs s !! j <> Some Trying -> is_Some (reqs s' !! j) /\ reqs s' !! j <> Some Trying).
Proof.
  assert (Hboth : forall A B C D : Prop, A /\ B -> C /\ D -> A /\ B /\ C /\ D) by tauto.
  assert (Hrel : forall q0, sublist (demand (releaseLocked q0)) (demand q0) /\ sublist (prefetch (releaseLocked q0)) (prefetch q0)).
  { intros q0. unfold releaseLocked. destruct (demand q0) as [|i d]; [destruct (prefetch q0) as [|i p]|]; cbn [demand prefetch];
      split; try apply sublist_nil_l; try (by apply sublist_cons); done. }
  assert (Hset : forall (m : gmap nat reqState) id r, r <> Trying -> (forall b, m !! id = Some Trying -> r <> Blocked b) ->
    (forall j b, m !! j = Some Trying -> <[id := r]> m !! j <> Some (Blocked b)) /\
    (forall j, is_Some (m !! j) -> m !! j <> Some Trying -> is_Some (<[id := r]> m !! j) /\ <[id := r]> m !! j <> Some Trying)).
  { intros m id r Hr Hb. split; intros j; (destruct (decide (j = id)) as [->|Hne]; [rewrite lookup_insert_eq|rewrite lookup_insert_ne by done]).
    - intros b Hj [= ->]. by eapply Hb.
    - intros b Hj. congruence.
    - intros _ _. split; [done|congruence].
    - done. }
  intros [s0 id Hid|s0 id b Hid|s0 id b Hid Hg|s0 id b Hid|s0 id b dead Hid|s0 id Hid]; cbn [q reqs].
  - right. unfold tryTake. destruct (free (q s0) =? 0); cbn [fst snd demand prefetch]; (split; [done|]; split; [done|]).
    + split; intros j; (destruct (decide (j = id)) as [->|Hne]; [rewrite lookup_insert_eq, Hid|rewrite lookup_insert_ne by done]); try done; try congruence; by intros [].
    + apply Hset; [done|congruence].
  - unfold take_enter. destruct (0 <? free (q s0)); cbn [fst snd demand prefetch]; [right; split; [done|]; split; [done|]; by apply Hset|].
    destruct (maxQueued <=? waiting (q s0)); cbn [fst snd demand prefetch]; [right; split; [done|]; split; [done|]; by apply Hset|].
    left. exists id, b. destruct b; cbn [fst snd demand prefetch]; rewrite lookup_insert_eq, ?app_nil_r; split_and!; try done; intros j Hj; by rewrite lookup_insert_ne.
  - right. split; [done|]. split; [done|]. apply Hset; [done|congruence].
  - right. split; [done|]. split; [done|]. apply Hset; [done|congruence].
  - right. apply Hboth; [|apply Hset; [by case_match|intros b' E; congruence]]. unfold take_leave.
    case_bool_decide; [destruct dead; [apply Hrel|done]|]. destruct b; cbn [fst snd demand prefetch]; (split; [|]); (done || apply sublist_filter).
  - right. apply Hboth; [apply Hrel|]. apply Hset; [done|congruence].
Qed.

Lemma run_order s log : run s log ->
  NoDup log /\ (forall j, j ∈ log -> is_Some (reqs s !! j) /\ reqs s !! j <> Some Trying) /\ sublist (demand (q s)) log /\ sublist (prefetch (q s)) log.
Proof.
  induction 1 as [|s s' log id b _ (Hn & Hin & Hd & Hp) Hst Htry Hbl|s s' log _ (Hn & Hin & Hd & Hp) Hst Hno].
  - cbn. split_and!; try apply sublist_nil_l; [apply NoDup_nil_2|]. intros j Hj. by apply elem_of_nil in Hj.
  - destruct (step_queues _ _ Hst) as [(i & b' & Hi & Hi' & Ed & Ep & Hoth)|(_ & _ & Hno & _)]; [|by destruct (Hno id b Htry)].
    assert (i = id) as -> by (destruct (decide (i = id)) as [|Hne]; [done|]; rewrite (Hoth id) in Hbl by done; congruence).
    rewrite Ed, Ep. split_and!.
    + apply NoDup_app. split_and!; [done| |apply NoDup_singleton]. intros j Hj Hj1. apply list_elem_of_singleton in Hj1 as ->. destruct (Hin id Hj). done.
    + intros j. rewrite elem_of_app, list_elem_of_singleton. intros [Hj| ->]; [|rewrite Hbl; split; [done|congruence]].
      destruct (decide (j = id)) as [->|Hne]; [rewrite Hbl; split; [done|congruence]|]. rewrite Hoth by done. by apply Hin.
    + apply sublist_app; [done|]. destruct b'; [apply sublist_nil_l|done].
    + apply sublist_app; [done|]. destruct b'; [done|apply sublist_nil_l].
  - destruct (step_queues _ _ Hst) as [(i & b' & Hi & Hi' & _)|(Hd' & Hp' & _ & Hkeep)]; [by destruct (Hno i b' Hi)|].
    split_and!; [done| |by transitivity (demand (q s))|by transitivity (prefetch (q s))]. intros j Hj. destruct (Hin j Hj). by apply Hkeep.
Qed.

Lemma head_first id l log j : sublist (id :: l) log -> j ∈ l -> before log id j.
Proof.
  intros Hs Hj. apply sublist_cons_l in Hs as (l1 & l2 & -> & Hl). exists l1, l2. split; [done|]. by eapply elem_of_sublist.
Qed.

(** C30. Slots are handed over in the order of arrival.  In every run, a request
    that is given a slot while it waits is, if it is a demand request, the one
    that began to wait before every other waiting demand request; if it is a
    look-ahead, no demand request waits and it began to wait before every other
    look-ahead; and a request is admitted without waiting only while nobody
    waits. *)
Theorem slots_in_order s log s' :
  0 <= slots -> run s log -> step s s' ->
  (forall id, id ∈ granted (q s') -> id ∉ granted (q s) ->
     (waits_in s id false /\ forall j, waits_in s j false -> j <> id -> before log id j) \/
     (waits_in s id true /\ (forall j, ~ waits_in s j false) /\ forall j, waits_in s j true -> j <> id -> before log id j)) /\
  (forall id, (reqs s !! id = None \/ reqs s !! id = Some Trying) -> reqs s' !! id = Some Holding -> forall j b, ~ waits_in s j b).
Proof.
  intros Hs Hr Hst. pose proof (run_reachable _ _ Hr) as Hreach. pose proof (reachable_inv s Hs Hreach) as (_ & _ & _ & _ & I5 & I6 & _).
  destruct (run_order _ _ Hr) as (_ & _ & Hd & Hp). destruct (grant_at_head s s' Hs Hreach Hst) as [Hg Hnew]. split.
  - intros id Hin Hout. destruct (Hg id Hin Hout) as [[d Ed]|[Ed [p Ep]]]; [left|right].
    + rewrite Ed in I5, Hd. split; [apply I5, list_elem_of_here|]. intros j [->|Hj]%I5%elem_of_cons Hne; [done|]. by eapply head_first.
    + rewrite Ed in I5. rewrite Ep in I6, Hp. split; [apply I6, list_elem_of_here|]. split; [intros j Hj%I5; by apply elem_of_nil in Hj|].
      intros j [->|Hj]%I6%elem_of_cons Hne; [done|]. by eapply head_first.
  - intros id Hid Hh j b Hw. destruct (Hnew id Hid Hh) as [Ed Ep]. rewrite Ed in I5. rewrite Ep in I6.
    destruct b; [apply I6 in Hw|apply I5 in Hw]; by apply elem_of_nil in Hw.
Qed.

End system.

Lemma release_demand_shift q0 id k :
  demand q0 !! S k = Some id -> demand (releaseLocked q0) !! k = Some id /\ prefetch (releaseLocked q0) = prefetch q0.
Proof. unfold releaseLocked. destruct (demand q0) as [|i d]; [done|]. by simpl. Qed.

Lemma granted_mono q0 id : id ∈ granted q0 -> id ∈ granted (releaseLocked q0).
Proof.
  unfold releaseLocked. destruct (demand q0), (prefetch q0); cbn [granted]; try done; intros; apply elem_of_union; auto.
Qed.

(** Bounded waiting: whoever waits is served.  A demand waiter with [k]
    demand waiters ahead of it holds a slot after [k + 1] releases, and a
    look-ahead waiter after as many more as demand requests wait. *)
Theorem waiter_served q0 id k :
  (demand q0 !! k = Some id -> id ∈ granted (Nat.iter (k + 1) releaseLocked q0)) /\
  (prefetch q0 !! k = Some id -> id ∈ granted (Nat.iter (length (demand q0) + k + 1) releaseLocked q0)).
Proof.
  assert (Hd : forall k q0, demand q0 !! k = Some id -> id ∈ granted (Nat.iter (k + 1) releaseLocked q0)).
  { clear. induction k as [|k IH]; intros q0 Hk.
    - unfold releaseLocked. simpl. destruct (demand q0); simplify_eq/=. unfold releaseLocked.
      apply elem_of_union. left. by apply elem_of_singleton.
    - change (S k + 1)%nat with (S (k + 1)). rewrite Nat.iter_succ_r. apply IH. by apply release_demand_shift. }
  assert (Hp : forall n q0, length (demand q0) = n -> prefetch q0 !! k = Some id ->
    id ∈ granted (Nat.iter (n + k + 1) releaseLocked q0)).
  { clear. induction n as [|n IH]; intros q0 Hn.
    - simpl. apply nil_length_inv in Hn. revert q0 Hn. induction k as [|k IHk]; intros q0 Hn Hk.
      + simpl. unfold releaseLocked. rewrite Hn. destruct (prefetch q0); simplify_eq/=.
        apply elem_of_union. left. by apply elem_of_singleton.
      + change (S k + 1)%nat with (S (k + 1)). rewrite Nat.iter_succ_r. destruct (prefetch q0) as [|i p] eqn:Ep; [done|].
        apply IHk; unfold releaseLocked; rewrite Hn, Ep; done.
    - intros Hk. change (S n + k + 1)%nat with (S (n + k + 1)). rewrite Nat.iter_succ_r.
      destruct (demand q0) as [|i d] eqn:Ed; [done|]. apply IH; unfold releaseLocked; rewrite Ed; [by injection Hn|done]. }
  split; [apply Hd|]. by apply Hp.
Qed.

(** ** A concrete run: one slot, a demand and a look-ahead request queue behind
    its holder, which releases it. *)
Definition demoSys : sys :=
  Sys (SlotQueue 0 [] [2%nat] {[1%nat]}) (<[0%nat := Done]> (<[1%nat := Blocked false]> (<[2%nat := Blocked true]> (<[0%nat := Holding]> ∅)))).

Lemma demoSys_reachable : rtc (step 8) (init 1) demoSys.
Proof.
  eapply rtc_l; [apply (step_try 8 _ 0%nat); reflexivity|].
  eapply rtc_l; [apply (step_try 8 _ 2%nat); reflexivity|].
  eapply rtc_l; [apply (step_enter 8 _ 2%nat true); reflexivity|].
  eapply rtc_l; [apply (step_try 8 _ 1%nat); reflexivity|].
  eapply rtc_l; [apply (step_enter 8 _ 1%nat false); reflexivity|].
  eapply rtc_l; [apply (step_release 8 _ 0%nat); reflexivity|].
  vm_compute. apply rtc_refl.
Qed.

Lemma slots_conserved_witness : free (q demoSys) + used demoSys = 1 /\ holders demoSys <= 1.
Proof.
  destruct (slots_conserved 1 8 demoSys ltac:(lia) demoSys_reachable) as (H1 & _ & H3 & _).
  split; [exact H1|exact H3].
Defined.

(** Two demand requests and a look-ahead queue behind the holder. *)
Definition demoWaits : sys :=
  Sys (SlotQueue 0 [3%nat; 1%nat] [2%nat] ∅)
    (<[1%nat := Blocked false]> (<[1%nat := Trying]> (<[3%nat := Blocked false]> (<[3%nat := Trying]> (<[2%nat := Blocked true]> (<[2%nat := Trying]> (<[0%nat := Holding]> ∅))))))).

Lemma demoWaits_run : run 1 8 demoWaits [2%nat; 3%nat; 1%nat].
Proof.
  assert (Htry : forall s log id, run 1 8 s log -> reqs s !! id = None -> free (q s) = 0 -> run 1 8 (Sys (q s) (<[id := Trying]> (reqs s))) log).
  { intros s log id Hr Hid Hf. eapply run_quiet; [exact Hr| |].
    - pose proof (step_try 8 s id Hid) as Hst. unfold tryTake in Hst. rewrite Hf in Hst. exact Hst.
    - intros j b Hj. cbn. destruct (decide (j = id)) as [->|Hne]; [rewrite lookup_insert_eq; congruence|rewrite lookup_insert_ne by done; congruence]. }
  assert (Hjoin : forall s log id b, run 1 8 s log -> reqs s !! id = Some Trying -> free (q s) = 0 -> waiting (q s) < 8 ->
    run 1 8 (Sys (take_enter id b 8 (q s)).2 (<[id := Blocked b]> (reqs s))) (log ++ [id])).
  { intros s log id b Hr Hid Hf Hw. eapply run_join; [exact Hr| |exact Hid|cbn; apply lookup_insert_eq].
    pose proof (step_enter 8 s id b Hid) as Hst. unfold take_enter in *. rewrite Hf in *. change (0 <? 0) with false in *. cbv iota in *.
    rewrite (proj2 (Z.leb_gt _ _) Hw) in *. destruct b; exact Hst. }
  assert (H0 : run 1 8 (Sys (SlotQueue 0 [] [] ∅) (<[0%nat := Holding]> ∅)) []).
  { eapply run_quiet; [apply run_init|apply (step_try 8 (init 1) 0%nat); reflexivity|]. intros j b Hj. change ((∅ : gmap nat reqState) !! j = Some Trying) in Hj. by rewrite lookup_empty in Hj. }
  apply (Htry _ _ 2%nat) in H0; [|reflexivity|reflexivity]. apply (Hjoin _ _ 2%nat true) in H0; [|reflexivity|reflexivity|reflexivity].
  apply (Htry _ _ 3%nat) in H0; [|reflexivity|reflexivity]. apply (Hjoin _ _ 3%nat false) in H0; [|reflexivity|reflexivity|reflexivity].
  apply (Htry _ _ 1%nat) in H0; [|reflexivity|reflexivity]. apply (Hjoin _ _ 1%nat false) in H0; [|reflexivity|reflexivity|reflexivity].
  exact H0.
Qed.

Lemma slots_in_order_witness :
  3%nat ∈ granted (release (q demoWaits)) /\ before [2%nat; 3%nat; 1%nat] 3 1.
Proof.
  assert (Hin : 3%nat ∈ granted (release (q demoWaits))) by (apply elem_of_union; left; by apply elem_of_singleton).
  split; [exact Hin|].
  assert (Hst : step 8 demoWaits (Sys (release (q demoWaits)) (<[0%nat := Done]> (reqs demoWaits)))) by (apply (step_release 8 demoWaits 0%nat); reflexivity).
  destruct (slots_in_order 1 8 demoWaits [2%nat; 3%nat; 1%nat] _ ltac:(lia) demoWaits_run Hst) as [Hg _].
  destruct (Hg 3%nat Hin ltac:(apply not_elem_of_empty)) as [[_ Hb]|[[[Hx|Hx] _] _]]; [|discriminate Hx|discriminate Hx].
  apply Hb; [|lia]. split; [left; reflexivity|apply not_elem_of_empty].
Defined.
