(* ===== verification/Storage.v ===== *)
(** * The object store

    [storage.go], [metacache.go], [storeddigest.go], [cleanmemo.go],
    [digestmemo.go], the eviction memo of [missdiag.go], the access records of
    [eviction.go], and [selfheal.go].  [Storage] holds the object files by path
    together with the in-memory state beside them: index, access records, the
    metadata cache and the memos.

    The operating system is explicit: every system call that can fail has its
    outcome in an environment record ([putEnv], [readEnv]), and extended
    attributes are those of [ObjAttrs].  The four caches are used through
    [MemoCache]'s interface.  Metrics and log lines are left out, and so is the
    key "/", whose path is the data directory itself. *)

From Stdlib Require Import ZArith Lia List Bool String.
From stdpp Require Import base gmap list sets sorting.
From S2P Require Import Prelude Strconv SortedSlice GoSet Keys Sha256 Paths ObjAttrs ContentStamp Lru MemoCache Index.

(** ** Data *)

Record WriteOnceConfig := WriteOnce { Action : bytes; Notification : bytes }.

Inductive storageErr :=
  | ErrNotFound | ErrWriteOnceConflict | ErrWriteOnceDuplicate | ErrStoredDigestMismatch | ErrOS.

(** One metadata attribute of a cached entry; the flags mark strings held by
    reference to the shared copy. *)
Record kvPair := KvPair { kp_k : bytes; kp_v : bytes; kp_shared : bool; kp_kShared : bool }.

Record metaEntry := MetaEntry { me_modNano : Z; me_size : Z; me_kv : list kvPair }.

(** One version of a stored file. *)
Record fileIdentity := FileIdentity { fi_ino : Z; fi_size : Z; fi_mtime : Z }.

#[export] Instance fileIdentity_eq_dec : EqDecision fileIdentity.
Proof. solve_decision. Defined.

Record ObjectMeta := MkObjectMeta { Metadata : smap; om_modNano : Z; om_size : Z }.

Definition fsyncThresholdBytes : Z := Z.shiftl 8 20.
Definition accessShardCount : nat := 256.
Definition maxSharedMetaStrings : nat := 2 ^ 16.
Definition metaEntryOverhead : Z := 160.
Definition outputIDMetaKey : bytes := str "outputid".

Definition sharedMetaValueKeys : list bytes :=
  [str "pkg"; str "src"; str "module"; str "target"; str "go-version"; str "toolchain-version";
   str "object-type"; str "compression"].

(** ** Small pure pieces *)

(** [strings.EqualFold] against a lower-case hex string: no letter outside
    ASCII folds to a hex digit. *)
Definition equalFold (a b : bytes) : bool := bytes_eqb (map to_lower a) (map to_lower b).

Definition storedDigest (sum : bytes) : bytes := hex_encode sum.

(** [true] when the claim is accepted. *)
Definition checkStoredDigest (claimed computed : bytes) : bool :=
  bytes_eqb claimed [] || equalFold claimed computed.

(** [bodyMatchesStoredDigest] on a file that can be read. *)
Definition bodyMatchesStoredDigest (body want : bytes) : bool :=
  if bytes_eqb want [] then true else equalFold want (storedDigest (sha256 body)).

(** [filesEqual]: chunk by chunk, as [io.ReadFull] fills the two buffers. *)
Fixpoint files_equal_loop (fuel chunk : nat) (a b : bytes) : bool :=
  match fuel with
  | O => false
  | S fuel' =>
      let ba := take chunk a in
      let bb := take chunk b in
      if negb (length ba =? length bb)%nat || negb (bytes_eqb ba bb) then false
      else
        let aDone := (length ba <? chunk)%nat in
        let bDone := (length bb <? chunk)%nat in
        if aDone || bDone then aDone && bDone
        else files_equal_loop fuel' chunk (drop chunk a) (drop chunk b)
  end.

Definition filesEqual (a b : bytes) : bool := files_equal_loop (S (length a)) (Z.to_nat 65536) a b.

Lemma files_equal_spec chunk fuel : forall a b, (0 < chunk)%nat -> (length a < fuel)%nat ->
  files_equal_loop fuel chunk a b = bool_decide (a = b).
Proof.
  induction fuel as [|fuel IH]; intros a b Hc Hf; [lia|]. cbn [files_equal_loop].
  assert (Hsplit : a = b <-> take chunk a = take chunk b /\ drop chunk a = drop chunk b).
  { split; [by intros ->|]. intros [Ht Hd]. by rewrite <- (take_drop chunk a), <- (take_drop chunk b), Ht, Hd. }
  destruct (bytes_eqb (take chunk a) (take chunk b)) eqn:E.
  - apply bytes_eqb_eq in E. rewrite E, Nat.eqb_refl. cbn [negb orb].
    destruct (Nat.ltb_spec (length (take chunk b)) chunk) as [Hlt|Hge]; cbn [orb andb].
    + symmetry. apply bool_decide_eq_true. rewrite length_take in Hlt. apply (f_equal length) in E as El.
      rewrite !length_take in El. rewrite (take_ge a), (take_ge b) in E by lia. done.
    + rewrite length_take in Hge. apply (f_equal length) in E as El. rewrite !length_take in El.
      rewrite IH by (rewrite ?length_drop; lia). apply bool_decide_ext. rewrite Hsplit. tauto.
  - rewrite orb_true_r. symmetry. apply bool_decide_eq_false. apply not_true_iff_false in E. rewrite bytes_eqb_eq in E.
    tauto.
Qed.

Definition metaEntrySize (key : bytes) (e : metaEntry) : Z :=
  foldl (fun n p => n + 32 + (if kp_kShared p then 0 else Z.of_nat (length (kp_k p)))
                     + (if kp_shared p then 0 else Z.of_nat (length (kp_v p))))
    (Z.of_nat (length key) + metaEntryOverhead) (me_kv e).

(** The table of shared strings. *)
Record metaStringTable := MetaStringTable { mst_m : gset bytes; mst_bytes : Z }.

Definition share (t : metaStringTable) (s : bytes) : bool * metaStringTable :=
  if bool_decide (s ∈ mst_m t) then (true, t)
  else if (maxSharedMetaStrings <=? size (mst_m t))%nat then (false, t)
  else (true, MetaStringTable ({[s]} ∪ mst_m t) (mst_bytes t + Z.of_nat (length s) + 16)).

(** One pair of the loop of [loadMetadata]. *)
Definition share_pair (t : metaStringTable) (kv : bytes * bytes) : kvPair * metaStringTable :=
  let '(kShared, t) := share t kv.1 in
  let '(shared, t) := if bool_decide (kv.1 ∈ sharedMetaValueKeys) then share t kv.2 else (false, t) in
  (KvPair kv.1 kv.2 shared kShared, t).

Fixpoint share_pairs (t : metaStringTable) (l : list (bytes * bytes)) : list kvPair * metaStringTable :=
  match l with
  | [] => ([], t)
  | kv :: l' =>
      let '(p, t) := share_pair t kv in
      let '(ps, t) := share_pairs t l' in
      (p :: ps, t)
  end.

(** The metadata an entry stands for. *)
Definition entry_map (ps : list kvPair) : smap := foldl (fun m p => <[kp_k p := kp_v p]> m) ∅ ps.

(** The chunked comparison of two files stops and says exactly whether
    their contents are equal. *)
Theorem filesEqual_correct a b : filesEqual a b = bool_decide (a = b).
Proof. unfold filesEqual. apply files_equal_spec; lia. Qed.

Lemma filesEqual_true a b : filesEqual a b = true <-> a = b.
Proof. unfold filesEqual. rewrite files_equal_spec by lia. apply bool_decide_eq_true. Qed.

(** Sharing changes flags only: the pairs carry the map they came from. *)
Lemma share_pairs_map l : forall t, map (fun p => (kp_k p, kp_v p)) (share_pairs t l).1 = l.
Proof.
  induction l as [|[k v] l IH]; intros t; [done|]. cbn [share_pairs]. unfold share_pair.
  destruct (share t _) as [ks t1]. destruct (if bool_decide _ then share t1 _ else _) as [vs t2].
  specialize (IH t2). destruct (share_pairs t2 l) as [ps t3]. cbn [fst map] in *. by rewrite IH.
Qed.

Lemma entry_map_pairs ps : entry_map ps = foldl (fun m p => <[p.1 := p.2]> m) ∅ (map (fun p => (kp_k p, kp_v p)) ps).
Proof.
  unfold entry_map. generalize (∅ : smap) as m. induction ps as [|p ps IH]; intros m; [done|]. cbn [foldl map fst snd]. apply IH.
Qed.

Lemma foldl_insert_perm (l : list (bytes * bytes)) (m : smap) k v :
  NoDup l.*1 -> (k, v) ∈ l -> foldl (fun m p => <[p.1 := p.2]> m) m l !! k = Some v.
Proof.
  revert m. induction l as [|[k0 v0] l IH]; intros m Hnd Hin; [by apply not_elem_of_nil in Hin|].
  cbn [fmap list_fmap fst] in Hnd. apply NoDup_cons in Hnd as [Hk0 Hnd]. cbn [foldl fst snd].
  apply elem_of_cons in Hin as [[= -> ->]|Hin]; [|by apply IH].
  assert (Hkeep : forall (l : list (bytes * bytes)) (m : smap), k0 ∉ l.*1 -> m !! k0 = Some v0 ->
    foldl (fun m p => <[p.1 := p.2]> m) m l !! k0 = Some v0).
  { clear. induction l as [|[k v] l IH]; intros m Hn Hm; [done|]. cbn [fmap list_fmap fst] in Hn.
    apply not_elem_of_cons in Hn as [Hne Hn]. cbn [foldl fst snd]. apply IH; [done|]. by rewrite lookup_insert_ne. }
  apply Hkeep; [done|]. apply lookup_insert_eq.
Qed.

Lemma foldl_insert_none (l : list (bytes * bytes)) (m : smap) k :
  k ∉ l.*1 -> foldl (fun m p => <[p.1 := p.2]> m) m l !! k = m !! k.
Proof.
  revert m. induction l as [|[k0 v0] l IH]; intros m Hn; [done|]. cbn [fmap list_fmap fst] in Hn.
  apply not_elem_of_cons in Hn as [Hne Hn]. cbn [foldl fst snd]. rewrite IH by done. by rewrite lookup_insert_ne.
Qed.

(** A cache entry built from a map stands for that map. *)
Lemma entry_map_share `{!MapRange} (t : metaStringTable) (n : nat) (m : smap) : entry_map (share_pairs t (range_order n m)).1 = m.
Proof.
  rewrite entry_map_pairs, share_pairs_map. pose proof (range_perm n m) as Hp.
  assert (Hnd : NoDup (range_order n m).*1) by (rewrite Hp; apply NoDup_fst_map_to_list).
  apply map_eq. intros k. destruct (m !! k) as [v|] eqn:E.
  - apply foldl_insert_perm; [done|]. rewrite Hp. by apply elem_of_map_to_list.
  - rewrite foldl_insert_none; [apply lookup_empty|]. rewrite Hp. intros ([k' v] & -> & Hin)%list_elem_of_fmap.
    apply elem_of_map_to_list in Hin. cbn [fst] in E. congruence.
Qed.

(** ** The store *)

Section storage.
Context {F MC UC DC : Type} `{!XattrOps F} `{!XattrLaws F} `{!MapRange} `{!Decoders}.
Context `{!CacheOps MC bytes metaEntry} `{!CacheOps UC bytes unit} `{!CacheOps DC bytes fileIdentity}.

(** A file below the data directory.  [accessSec] is its access time in unix
    seconds, where the file system records one. *)
Record file := File {
  body : bytes; modNano : Z; accessSec : option Z; inode : Z; fattrs : F; originalKey : option bytes
}.

Record Storage := MkStorage {
  files : gmap (list bytes) file;
  writeOnce : WriteOnceConfig;
  sIndex : option Index;
  accessShards : option (list (gmap compactKey Z));
  metaCache : option MC;
  metaStrings : metaStringTable;
  cleanKeys : option UC;
  digestOK : option DC;
  evicted : option UC
}.

Definition with_files (s : Storage) (fs : gmap (list bytes) file) : Storage :=
  MkStorage fs (writeOnce s) (sIndex s) (accessShards s) (metaCache s) (metaStrings s) (cleanKeys s) (digestOK s) (evicted s).
Definition with_index (s : Storage) (i : option Index) : Storage :=
  MkStorage (files s) (writeOnce s) i (accessShards s) (metaCache s) (metaStrings s) (cleanKeys s) (digestOK s) (evicted s).
Definition with_access (s : Storage) (a : option (list (gmap compactKey Z))) : Storage :=
  MkStorage (files s) (writeOnce s) (sIndex s) a (metaCache s) (metaStrings s) (cleanKeys s) (digestOK s) (evicted s).
Definition with_meta (s : Storage) (m : option MC) (t : metaStringTable) : Storage :=
  MkStorage (files s) (writeOnce s) (sIndex s) (accessShards s) m t (cleanKeys s) (digestOK s) (evicted s).
Definition with_clean (s : Storage) (c : option UC) (d : option DC) : Storage :=
  MkStorage (files s) (writeOnce s) (sIndex s) (accessShards s) (metaCache s) (metaStrings s) c d (evicted s).
Definition with_evicted (s : Storage) (e : option UC) : Storage :=
  MkStorage (files s) (writeOnce s) (sIndex s) (accessShards s) (metaCache s) (metaStrings s) (cleanKeys s) (digestOK s) e.

Definition file_size (f : file) : Z := Z.of_nat (length (body f)).

(** *** Access records *)

Definition EnableAccessTracking (s : Storage) : Storage := with_access s (Some (replicate accessShardCount ∅)).

Definition accessShardFor (ck : compactKey) : nat :=
  let '(h, ok) := actionHash ck in
  if ok then Z.to_nat (u32 (default 0 (head h)) mod Z.of_nat accessShardCount)
  else Z.to_nat (fnv1a (ck_raw ck) mod Z.of_nat accessShardCount).

Definition recordAccess (now : Z) (key : bytes) (s : Storage) : Storage :=
  match accessShards s with
  | None => s
  | Some shs => let ck := newCompactKey key in with_access s (Some (alter (<[ck := now]>) (accessShardFor ck) shs))
  end.

Definition lastAccessOf (s : Storage) (ck : compactKey) : option Z :=
  match accessShards s with
  | None => None
  | Some shs => shs !! accessShardFor ck ≫= lookup ck
  end.

Definition lastAccess (s : Storage) (key : bytes) : option Z := lastAccessOf s (newCompactKey key).

Definition forgetAccess (key : bytes) (s : Storage) : Storage :=
  match accessShards s with
  | None => s
  | Some shs => let ck := newCompactKey key in with_access s (Some (alter (delete ck) (accessShardFor ck) shs))
  end.

Definition pruneAccess (live : gset compactKey) (s : Storage) : Storage :=
  match accessShards s with
  | None => s
  | Some shs => with_access s (Some (map (filter (fun kv => kv.1 ∈ live)) shs))
  end.

(** *** Memos *)

Definition keyKnownClean (h : bytes) (s : Storage) : bool * Storage :=
  match cleanKeys s with
  | None => (false, s)
  | Some c => let '(r, c) := c_get c h in (bool_decide (is_Some r), with_clean s (Some c) (digestOK s))
  end.

Definition markKeyClean (h : bytes) (s : Storage) : Storage :=
  with_clean s ((fun c => c_put c h tt) <$> cleanKeys s) (digestOK s).

Definition forgetClean (key : bytes) (s : Storage) : Storage :=
  match extractActionHash key with
  | None => s
  | Some h => with_clean s ((fun c => c_forget c h) <$> cleanKeys s) ((fun d => c_forget d h) <$> digestOK s)
  end.

Definition noteEvicted (key : bytes) (s : Storage) : Storage :=
  match extractActionHash key with
  | None => s
  | Some h => with_evicted s ((fun c => c_put c h tt) <$> evicted s)
  end.

Definition wasEvicted (key : bytes) (s : Storage) : bool * Storage :=
  match extractActionHash key, evicted s with
  | Some h, Some c => let '(r, c) := c_get c h in (bool_decide (is_Some r), with_evicted s (Some c))
  | _, _ => (false, s)
  end.

Definition forgetEvicted (key : bytes) (s : Storage) : Storage :=
  match extractActionHash key with
  | None => s
  | Some h => with_evicted s ((fun c => c_forget c h) <$> evicted s)
  end.

Definition forgetMeta (key : bytes) (s : Storage) : Storage :=
  with_meta s ((fun c => c_forget c key) <$> metaCache s) (metaStrings s).

(** *** Metadata *)

(** [loadMetadata] for the file [f] that [key] resolved to. *)
Definition loadMetadata (key : bytes) (f : file) (s : Storage) : smap * Storage :=
  match metaCache s with
  | None => (getMetadata (fattrs f), s)
  | Some c =>
      let '(r, c) := c_get c key in
      let s := with_meta s (Some c) (metaStrings s) in
      let miss :=
        let m := getMetadata (fattrs f) in
        let '(kv, t) := share_pairs (metaStrings s) (range_order 0 m) in
        (m, with_meta s (Some (c_put c key (MetaEntry (modNano f) (file_size f) kv))) t) in
      match r with
      | Some e =>
          if (me_modNano e =? modNano f) && (me_size e =? file_size f) then (entry_map (me_kv e), s) else miss
      | None => miss
      end
  end.

(** Whether the two system calls of a read fail for a reason other than a
    missing file. *)
Record readEnv := ReadEnv { re_open : bool; re_stat : bool }.

Definition Get (env : readEnv) (now : Z) (key : bytes) (s : Storage) : (bytes * ObjectMeta + storageErr) * Storage :=
  if negb (re_open env) then (inr ErrOS, s)
  else match files s !! keyToPath key with
       | None => (inr ErrNotFound, s)
       | Some f =>
           if negb (re_stat env) then (inr ErrOS, s)
           else
             let '(m, s) := loadMetadata key f s in
             (inl (body f, MkObjectMeta m (modNano f) (file_size f)), recordAccess now key s)
       end.

Definition Stat (env : readEnv) (key : bytes) (s : Storage) : (ObjectMeta + storageErr) * Storage :=
  if negb (re_stat env) then (inr ErrOS, s)
  else match files s !! keyToPath key with
       | None => (inr ErrNotFound, s)
       | Some f => let '(m, s) := loadMetadata key f s in (inl (MkObjectMeta m (modNano f) (file_size f)), s)
       end.

(** [Open]: the open file and its metadata. *)
Definition Open (env : readEnv) (now : Z) (key : bytes) (s : Storage) : (file * ObjectMeta + storageErr) * Storage :=
  if negb (re_open env) then (inr ErrOS, s)
  else match files s !! keyToPath key with
       | None => (inr ErrNotFound, s)
       | Some f =>
           if negb (re_stat env) then (inr ErrOS, s)
           else
             let '(m, s) := loadMetadata key f s in
             (inl (f, MkObjectMeta m (modNano f) (file_size f)), recordAccess now key s)
       end.

Definition OpenBody (env : readEnv) (now : Z) (key : bytes) (s : Storage) : (file * Z + storageErr) * Storage :=
  if negb (re_open env) then (inr ErrOS, s)
  else match files s !! keyToPath key with
       | None => (inr ErrNotFound, s)
       | Some f => if negb (re_stat env) then (inr ErrOS, s) else (inl (f, file_size f), recordAccess now key s)
       end.

Definition openRaw (env : readEnv) (key : bytes) (s : Storage) : file + storageErr :=
  if negb (re_open env) then inr ErrOS
  else match files s !! keyToPath key with None => inr ErrNotFound | Some f => inl f end.

(** A file's attributes rewritten in place. *)
Definition set_attrs (f : file) (a : F) : file :=
  File (body f) (modNano f) (accessSec f) (inode f) a (originalKey f).

Definition SetMeta (env : readEnv) (key : bytes) (kv : smap) (s : Storage) : option storageErr * Storage :=
  if negb (re_stat env) then (Some ErrOS, s)
  else match files s !! keyToPath key with
       | None => (Some ErrNotFound, s)
       | Some f =>
           let s := forgetMeta key s in
           let '(a, err) := setMetadata (fattrs f) kv in
           ((fun _ => ErrOS) <$> err, with_files s (<[keyToPath key := set_attrs f a]> (files s)))
       end.

(** [re_open] is the outcome of the remove. *)
Definition Delete (env : readEnv) (newEpoch : Z) `{!MtimeSort} (key : bytes) (s : Storage) : option storageErr * Storage :=
  if negb (re_open env) then (Some ErrOS, s)
  else match files s !! keyToPath key with
       | None => (Some ErrNotFound, s)
       | Some _ =>
           let s := with_files s (delete (keyToPath key) (files s)) in
           let s := with_index s (Index.Remove newEpoch key <$> sIndex s) in
           (None, forgetMeta key (forgetClean key (forgetAccess key s)))
       end.
(** *** Uploads *)

Inductive createResult := CreateOK | CreateNotExist | CreateErr.

(** What the operating system answers during one upload; [true] is success.
    [pe_suffix] is the random part of the temp file's name, [pe_attrs] the
    attribute state of a fresh file, [pe_modNano] the time of the last write. *)
Record putEnv := PutEnv {
  pe_now : Z; pe_epoch : Z; pe_modNano : Z; pe_atime : option Z; pe_ino : Z; pe_attrs : F; pe_suffix : bytes;
  pe_create : createResult; pe_mkdir : bool; pe_create2 : bool;
  pe_copy : bool; pe_sync : bool; pe_close : bool; pe_stat : bool; pe_compare : bool;
  pe_setkey : bool; pe_rename : bool; pe_remove : bool
}.

Definition tempPath (env : putEnv) (key : bytes) : list bytes :=
  removelast (keyToPath key) ++ [tempFilePrefix ++ pe_suffix env].

(** What write_once decides about an upload of [data] over [old]: [Some r]
    returns [r] to the caller, [None] lets the upload through. *)
Definition writeOnceVerdict (cfg : WriteOnceConfig) (compare_ok : bool) (old : option file) (data : bytes)
    : option (option storageErr) :=
  if bytes_eqb (Action cfg) (str "deny") then
    match old with
    | None => None
    | Some f =>
        if bytes_eqb (Notification cfg) (str "always") then Some (Some ErrWriteOnceDuplicate)
        else if bytes_eqb (Notification cfg) (str "content_differs") then
          if negb compare_ok then Some (Some ErrOS)
          else if filesEqual data (body f) then Some None
          else if negb (replacesContentStamp (Some (body f)) (Some data)) then Some (Some ErrWriteOnceConflict)
          else None
        else Some None
    end
  else None.

(** [PutStream]; [r] is the body the reader delivers (the part before an error
    when [pe_copy] is false), [audit] is [None] for a nil map.  The last component
    is the temp file left on disk when its removal fails, which the code does not
    heed: [Walk] passes over such names ([isReservedFile]), no key has such a path
    and the next start removes them, so it is kept beside the objects. *)
Definition PutStream_left (env : putEnv) (key r : bytes) (m : smap) (au : option smap) (s : Storage)
    : option storageErr * Storage * option (list bytes * bytes) :=
  let path := keyToPath key in
  let hashed := negb (isKeySafe key) in
  let created :=
    match pe_create env with
    | CreateOK => true
    | CreateNotExist => pe_mkdir env && pe_create2 env
    | CreateErr => false
    end in
  if negb created then (Some ErrOS, s, None)
  else
    let tmpPath := tempPath env key in
    let n := Z.of_nat (length r) in
    let tmp := File r (pe_modNano env) (pe_atime env) (pe_ino env) (pe_attrs env) None in
    let s := with_files s (<[tmpPath := tmp]> (files s)) in
    let fail e := (e, with_files s (delete tmpPath (files s)), if pe_remove env then None else Some (tmpPath, r)) in
    if negb (pe_copy env) then fail (Some ErrOS)
    else
      let digest := storedDigest (sha256 r) in
      if negb (checkStoredDigest (default [] (m !! storedDigestMetaKey)) digest) then fail (Some ErrStoredDigestMismatch)
      else if (fsyncThresholdBytes <=? n) && negb (pe_sync env) then fail (Some ErrOS)
      else if negb (pe_close env) then fail (Some ErrOS)
      else
        let old := if pe_stat env then files s !! path else None in
        match writeOnceVerdict (writeOnce s) (pe_compare env) old r with
        | Some e => fail e
        | None =>
            let stored := <[storedDigestMetaKey := digest]> m in
            let au := match au with
                      | Some a => <[str "content_length" := formatInt n]> a
                      | None => ∅
                      end in
            let '(a, err) := setObjectAttrs (fattrs tmp) stored au in
            if bool_decide (is_Some err) then fail (Some ErrOS)
            else if hashed && negb (pe_setkey env) then fail (Some ErrOS)
            else if negb (pe_rename env) then fail (Some ErrOS)
            else
              let f := File r (pe_modNano env) (pe_atime env) (pe_ino env) a (if hashed then Some key else None) in
              let s := with_files s (<[path := f]> (delete tmpPath (files s))) in
              let s := forgetEvicted key (forgetMeta key (forgetClean key s)) in
              (None, with_index s (Index.Put (pe_now env) (pe_epoch env) key <$> sIndex s), None)
        end.

(** What [PutStream] answers, and the store after it. *)
Definition PutStream (env : putEnv) (key r : bytes) (m : smap) (au : option smap) (s : Storage) : option storageErr * Storage :=
  (PutStream_left env key r m au s).1.

(** *** Stored digests and self-heal *)

Definition identityOf (f : file) : fileIdentity := FileIdentity (inode f) (file_size f) (modNano f).

(** [None] is a body that could not be read; without a recorded digest it is
    not read at all. *)
Definition verifyStoredDigest (readable : bool) (f : file) (m : smap) : option bool :=
  let want := default [] (m !! storedDigestMetaKey) in
  if readable || bytes_eqb want [] then Some (bodyMatchesStoredDigest (body f) want) else None.

(** [known] is whether the file could be stat'ed. *)
Definition verifyStoredDigestFor (known readable : bool) (key : bytes) (f : file) (m : smap) (s : Storage)
    : option bool * Storage :=
  let plain s := (verifyStoredDigest readable f m, s) in
  match extractActionHash key, digestOK s with
  | Some h, Some d =>
      if known && negb (bytes_eqb (default [] (m !! outputIDMetaKey)) []) then
        let '(r, d) := c_get d h in
        let s := with_clean s (cleanKeys s) (Some d) in
        if bool_decide (r = Some (identityOf f)) then (Some true, s)
        else match verifyStoredDigest readable f m with
             | Some true => (Some true, with_clean s (cleanKeys s) (Some (c_put d h (identityOf f))))
             | r => (r, s)
             end
      else plain s
  | _, _ => plain s
  end.

(** The system calls of a repair. *)
Record healEnv := HealEnv { he_open : bool; he_read : bool; he_seek : bool; he_epoch : Z }.

(** The inode behind an open file: the file at [path] while its inode is there. *)
Definition write_fd (path : list bytes) (f : file) (a : F) (s : Storage) : Storage :=
  match files s !! path with
  | Some g => if inode g =? inode f then with_files s (<[path := set_attrs g a]> (files s)) else s
  | None => s
  end.

(** [reconstructOutputID]: the output id, or [None] for any error.  [given] is
    the caller's open file. *)
Definition reconstructOutputID (env : healEnv) (key : bytes) (given : option file) (s : Storage)
    : option bytes * Storage :=
  match (match given with
         | Some f => inl f
         | None => openRaw (ReadEnv (he_open env) true) key s
         end) with
  | inr _ => (None, s)
  | inl f =>
      let want := default [] (getMetadata (fattrs f) !! storedDigestMetaKey) in
      if negb (he_read env) then (None, s)
      else if negb (bodyMatchesStoredDigest (body f) want) then (None, s)
      else match decompressingReader (body f) with
           | None => (None, s)
           | Some (_, CodecNone) => (None, s)
           | Some (st, _) =>
               if bool_decide (is_Some given) && negb (he_seek env) then (None, s)
               else if negb (st_clean st) then (None, s)
               else
                 let outputID := hex_encode (sha256 (st_bytes st)) in
                 let '(a, err) := setMetadata (fattrs f) {[ outputIDMetaKey := outputID ]} in
                 let s := write_fd (keyToPath key) f a s in
                 if bool_decide (is_Some err) then (None, s)
                 else (Some outputID, forgetMeta key s)
           end
  end.

Definition missingOutputID (m : smap) : bool := bytes_eqb (default [] (m !! outputIDMetaKey)) [].

(** [ensureOutputID]: whether the object can be served, and its metadata. *)
Definition ensureOutputID `{!MtimeSort} (env : healEnv) (key : bytes) (m : smap) (given : option file) (s : Storage)
    : bool * smap * Storage :=
  if negb (missingOutputID m) then (true, m, s)
  else match extractActionHash key with
       | None => (true, m, s)
       | Some _ =>
           match reconstructOutputID env key given s with
           | (None, s) => (false, m, with_index s (Index.Remove (he_epoch env) key <$> sIndex s))
           | (Some outputID, s) => (true, <[outputIDMetaKey := outputID]> m, s)
           end
       end.

(** ** What an upload does *)

Definition put_audit (au : option smap) (r : bytes) : smap :=
  match au with
  | Some a => <[str "content_length" := formatInt (Z.of_nat (length r))]> a
  | None => ∅
  end.

Definition put_meta (m : smap) (r : bytes) : smap := <[storedDigestMetaKey := storedDigest (sha256 r)]> m.

Definition put_old (env : putEnv) (key : bytes) (s : Storage) : option file :=
  if pe_stat env then files s !! keyToPath key else None.

(** The file an upload leaves, and the state it leaves it in. *)
Definition put_file (env : putEnv) (key r : bytes) (a : F) : file :=
  File r (pe_modNano env) (pe_atime env) (pe_ino env) a (origKeyOf key).

Definition put_state (env : putEnv) (key r : bytes) (a : F) (s : Storage) : Storage :=
  let s := with_files s (<[keyToPath key := put_file env key r a]> (files s)) in
  let s := forgetEvicted key (forgetMeta key (forgetClean key s)) in
  with_index s (Index.Put (pe_now env) (pe_epoch env) key <$> sIndex s).

Lemma temp_not_path env key key' : tempPath env key <> keyToPath key'.
Proof.
  intros Heq. pose proof (keyToPath_scomp key') as Hs. rewrite <- Heq in Hs. unfold tempPath in Hs.
  apply Forall_app in Hs as [_ Hs]. apply Forall_cons in Hs as [[_ Hc] _].
  change tempFilePrefix with (46 :: drop 1 tempFilePrefix) in Hc. cbn [app] in Hc.
  apply Forall_cons in Hc as [[Hdot _] _]. done.
Qed.

Lemma with_files_id s : with_files s (files s) = s.
Proof. by destruct s. Qed.

Definition temp_created (env : putEnv) : bool :=
  match pe_create env with CreateOK => true | CreateNotExist => pe_mkdir env && pe_create2 env | CreateErr => false end.

(** The body is on disk, with the digest claimed: write_once comes next. *)
Definition put_received (env : putEnv) (r : bytes) (m : smap) : bool :=
  temp_created env && pe_copy env && checkStoredDigest (default [] (m !! storedDigestMetaKey)) (storedDigest (sha256 r)) &&
  negb ((fsyncThresholdBytes <=? Z.of_nat (length r)) && negb (pe_sync env)) && pe_close env.

(** The error of an upload that does not get that far. *)
Definition receive_error (env : putEnv) (r : bytes) (m : smap) : storageErr :=
  if temp_created env && pe_copy env && negb (checkStoredDigest (default [] (m !! storedDigestMetaKey)) (storedDigest (sha256 r)))
  then ErrStoredDigestMismatch else ErrOS.

(** An upload by cases.  Either the store is as before, the answer being the
    first failure's, the verdict of write_once, or that of a call after it; or the
    object was stored whole.  A temp file is left only where nothing was stored. *)
Lemma PutStream_cases env key r m au s e s' left :
  files s !! tempPath env key = None -> PutStream_left env key r m au s = (e, s', left) ->
  (s' = s /\ (left = None \/ pe_remove env = false /\ temp_created env = true /\ left = Some (tempPath env key, r)) /\
   e = (if put_received env r m then
          match writeOnceVerdict (writeOnce s) (pe_compare env) (put_old env key s) r with Some v => v | None => Some ErrOS end
        else Some (receive_error env r m))) \/
  (e = None /\ left = None /\ put_received env r m = true /\
   writeOnceVerdict (writeOnce s) (pe_compare env) (put_old env key s) r = None /\
   exists a, setObjectAttrs (pe_attrs env) (put_meta m r) (put_audit au r) = (a, None) /\ s' = put_state env key r a s).
Proof.
  intros Htmp. unfold PutStream_left, put_received, receive_error. pose proof (temp_not_path env key key) as Hne. fold (temp_created env).
  destruct (temp_created env) eqn:Ec; cbn [negb andb]; [|intros [= <- <- <-]; left; auto]. cbn [files with_files].
  assert (Hback : forall f, with_files (with_files s (<[tempPath env key := f]> (files s)))
                              (delete (tempPath env key) (<[tempPath env key := f]> (files s))) = s).
  { intros f. rewrite delete_insert_id by done. by destruct s. }
  cbv zeta. rewrite Hback.
  set (lf := if pe_remove env then None else Some (tempPath env key, r)).
  assert (Hlf : lf = None \/ pe_remove env = false /\ true = true /\ lf = Some (tempPath env key, r)) by (subst lf; destruct (pe_remove env); auto).
  clearbody lf. destruct (pe_copy env); cbn [negb andb]; [|intros [= <- <- <-]; left; auto].
  destruct (checkStoredDigest _ _) eqn:Ed; cbn [negb andb]; [|intros [= <- <- <-]; left; auto].
  destruct (_ && negb (pe_sync env)); cbn [negb andb]; [intros [= <- <- <-]; left; auto|].
  destruct (pe_close env); cbn [negb]; [|intros [= <- <- <-]; left; auto].
  replace (if pe_stat env then _ else None) with (put_old env key s)
    by (unfold put_old; destruct (pe_stat env); [by rewrite lookup_insert_ne|done]).
  change (writeOnce (with_files s _)) with (writeOnce s).
  destruct (writeOnceVerdict _ _ _ _) as [v|] eqn:Ev; [intros [= <- <- <-]; left; auto|].
  cbn [fattrs]. fold (put_meta m r) (put_audit au r).
  destruct (setObjectAttrs _ _ _) as [a err] eqn:Ea. case_bool_decide as Herr; [intros [= <- <- <-]; left; auto|].
  destruct err as [x|]; [destruct Herr; by eexists|].
  destruct (negb (isKeySafe key) && negb (pe_setkey env)); [intros [= <- <- <-]; left; auto|].
  destruct (pe_rename env); cbn [negb]; [|intros [= <- <- <-]; left; auto].
  intros [= <- <- <-]. right. split_and!; [done..|]. exists a. split; [done|]. unfold put_state, put_file, origKeyOf.
  rewrite delete_insert_id by done. by destruct (isKeySafe key).
Qed.

(** Either nothing changed, or the object was stored whole. *)
Lemma PutStream_result env key r m au s e s' :
  files s !! tempPath env key = None -> PutStream env key r m au s = (e, s') ->
  (s' = s /\ (e = None -> writeOnceVerdict (writeOnce s) (pe_compare env) (put_old env key s) r = Some None)) \/
  (e = None /\ writeOnceVerdict (writeOnce s) (pe_compare env) (put_old env key s) r = None /\
   checkStoredDigest (default [] (m !! storedDigestMetaKey)) (storedDigest (sha256 r)) = true /\
   exists a, setObjectAttrs (pe_attrs env) (put_meta m r) (put_audit au r) = (a, None) /\ s' = put_state env key r a s).
Proof.
  intros Ht. unfold PutStream. destruct (PutStream_left env key r m au s) as [p left] eqn:E. cbn [fst]. intros ->.
  apply PutStream_cases in E as [(-> & _ & ->)|(-> & _ & Hr & Hv & Ha)]; [left|right|done].
  - split; [done|]. destruct (put_received env r m); [|done]. destruct (writeOnceVerdict _ _ _ _); [congruence|done].
  - split_and!; [done|done| |done]. unfold put_received in Hr. by repeat apply andb_true_iff in Hr as [Hr ?].
Qed.

(** The attributes an upload stored, read back. *)
Lemma setObjectAttrs_read f m au a :
  m !! [] = None -> setObjectAttrs f m au = (a, None) ->
  getMetadata a ⊆ m /\ forall k, k ∈ metadataProtectedKeys -> getMetadata a !! k = m !! k.
Proof.
  intros Hm Hset. unfold setObjectAttrs in Hset.
  destruct (writeObjAttrs f (ObjAttrs m au)) as [[[g e] a'] d] eqn:E. unfold write_result in Hset.
  cbn [fst snd] in Hset. injection Hset as -> ->.
  apply writeObjAttrs_outcome in E as ((Hs & Hp & _) & _ & _ & Ho & _); [|done]. destruct Ho as [Hx Hl].
  unfold getMetadata. by rewrite (readObjAttrs_encoded _ _ Hx Hl).
Qed.

Lemma digest_key_protected : storedDigestMetaKey ∈ metadataProtectedKeys.
Proof. apply list_elem_of_further, list_elem_of_further, list_elem_of_here. Qed.

Lemma put_meta_names m r : m !! [] = None -> put_meta m r !! [] = None.
Proof. intros Hm. unfold put_meta. by rewrite lookup_insert_ne. Qed.

(** Metadata stored with an upload of [r] under [m]. *)
Definition stored_meta (m : smap) (r : bytes) (got : smap) : Prop :=
  got !! storedDigestMetaKey = Some (hex_encode (sha256 r)) /\
  (forall k, k ∈ metadataProtectedKeys -> k <> storedDigestMetaKey -> got !! k = m !! k) /\
  got ⊆ <[storedDigestMetaKey := hex_encode (sha256 r)]> m.

Lemma put_stored_meta env m r au a :
  m !! [] = None -> setObjectAttrs (pe_attrs env) (put_meta m r) (put_audit au r) = (a, None) ->
  stored_meta m r (getMetadata a).
Proof.
  intros Hm Ha. destruct (setObjectAttrs_read _ _ _ _ (put_meta_names m r Hm) Ha) as [Hsub Hp]. split_and!; [| |done].
  - rewrite Hp by apply digest_key_protected. unfold put_meta. apply lookup_insert_eq.
  - intros k Hk Hne. rewrite Hp by done. unfold put_meta. by rewrite lookup_insert_ne.
Qed.

(** C6. An upload is all or nothing.  Whatever system call fails, whatever
    digest is claimed and whatever write_once decides: when [PutStream] reports
    an error the objects, the index and the caches are exactly as before; when
    the store changes, the only change to the files is the complete object at
    its key's path, whose recorded digest is that of the bytes received, which
    agrees with the digest claimed if there was one, whose protected metadata is
    what the uploader sent, and whose key the index now advertises.  A temp file
    stays on disk only when nothing was stored and its removal failed; it is at
    the path no key has. *)
Theorem putStream_all_or_nothing env key r m au s e s' left :
  files s !! tempPath env key = None -> m !! [] = None -> PutStream_left env key r m au s = (e, s', left) ->
  (e <> None -> s' = s) /\
  (s' <> s -> exists f,
     files s' = <[keyToPath key := f]> (files s) /\ body f = r /\ originalKey f = origKeyOf key /\
     stored_meta m r (getMetadata (fattrs f)) /\
     checkStoredDigest (default [] (m !! storedDigestMetaKey)) (hex_encode (sha256 r)) = true /\
     sIndex s' = Index.Put (pe_now env) (pe_epoch env) key <$> sIndex s) /\
  (forall p b, left = Some (p, b) -> pe_remove env = false /\ s' = s /\ p = tempPath env key /\ forall k, p <> keyToPath k).
Proof.
  intros Ht Hm Hput. apply PutStream_cases in Hput as [(-> & Hl & _)|(-> & -> & Hr & _ & a & Ha & ->)]; [| |done].
  { split_and!; [done|done|]. intros p b ->. destruct Hl as [?|(? & _ & [= -> ->])]; [done|]. split_and!; [done..|]. intros k. apply temp_not_path. }
  split_and!; [done| |done]. intros _. exists (put_file env key r a). split_and!; try done.
  - unfold put_state, forgetEvicted, forgetMeta, forgetClean. by destruct (extractActionHash key).
  - by eapply put_stored_meta.
  - unfold put_received in Hr. by repeat apply andb_true_iff in Hr as [Hr ?].
  - unfold put_state, forgetEvicted, forgetMeta, forgetClean. by destruct (extractActionHash key).
Qed.

(** What write_once answers for an upload of [r] over [old] once the body is on
    disk: the answer to the caller, or that the upload goes on. *)
Lemma denied cfg compare_ok old r : Action cfg = str "deny" ->
  writeOnceVerdict cfg compare_ok (Some old) r =
  if bytes_eqb (Notification cfg) (str "always") then Some (Some ErrWriteOnceDuplicate)
  else if bytes_eqb (Notification cfg) (str "content_differs") then
    if negb compare_ok then Some (Some ErrOS)
    else if bytes_eqb r (body old) then Some None
    else if negb (replacesContentStamp (Some (body old)) (Some r)) then Some (Some ErrWriteOnceConflict)
    else None
  else Some None.
Proof.
  intros Hd. unfold writeOnceVerdict. rewrite Hd, bytes_eqb_refl. case_match; [done|]. case_match; [|done]. case_match; [done|].
  destruct (filesEqual r (body old)) eqn:E; [apply filesEqual_true in E as ->; by rewrite bytes_eqb_refl|].
  destruct (bytes_eqb r (body old)) eqn:E'; [|done]. apply bytes_eqb_eq, filesEqual_true in E'. congruence.
Qed.

(** C35. Write-once storage keeps what it has.  With write_once set to deny and a
    Stat of the existing object that works, an upload over it leaves the whole
    store as it was, except for the one-way repair of a content stamp when
    differing content is to be reported.  Once the body is on disk with the
    digest claimed, the answer is exactly: a duplicate when duplicates are always
    reported; when differing content is, success for the same bytes, a conflict
    for others (the repair apart) and an error when the comparison fails;
    success otherwise.  Before that it is an error and nothing changes. *)
Theorem writeOnce_keeps_objects env key r m au s e s' old :
  Action (writeOnce s) = str "deny" -> pe_stat env = true ->
  files s !! keyToPath key = Some old -> files s !! tempPath env key = None ->
  PutStream env key r m au s = (e, s') ->
  let repairs := Notification (writeOnce s) = str "content_differs" /\ pe_compare env = true /\ r <> body old /\
                 replacesContentStamp (Some (body old)) (Some r) = true in
  (s' = s \/ repairs /\ e = None) /\
  (put_received env r m = true ->
     (Notification (writeOnce s) = str "always" -> e = Some ErrWriteOnceDuplicate) /\
     (Notification (writeOnce s) = str "content_differs" ->
        (pe_compare env = false -> e = Some ErrOS) /\
        (pe_compare env = true -> r = body old -> e = None) /\
        (pe_compare env = true -> r <> body old -> replacesContentStamp (Some (body old)) (Some r) = false -> e = Some ErrWriteOnceConflict)) /\
     (Notification (writeOnce s) <> str "always" -> Notification (writeOnce s) <> str "content_differs" -> e = None)) /\
  (put_received env r m = false -> e = Some (receive_error env r m)).
Proof.
  intros Hdeny Hstat Hold Ht Hput repairs. unfold PutStream in Hput. destruct (PutStream_left env key r m au s) as [p left] eqn:E. cbn [fst] in Hput. subst p.
  apply PutStream_cases in E; [|done]. unfold put_old in E. rewrite Hstat, Hold, denied in E by done.
  destruct (bytes_eqb (Notification (writeOnce s)) (str "always")) eqn:Ea.
  { apply bytes_eqb_eq in Ea. destruct E as [(-> & _ & ->)|(_ & _ & _ & ? & _)]; [|done].
    destruct (put_received env r m); (split_and!; [by left|try done|done]). intros _. split_and!; [done| |done]. rewrite Ea. done. }
  apply not_true_iff_false in Ea. rewrite bytes_eqb_eq in Ea.
  destruct (bytes_eqb (Notification (writeOnce s)) (str "content_differs")) eqn:Ed.
  2:{ apply not_true_iff_false in Ed. rewrite bytes_eqb_eq in Ed. destruct E as [(-> & _ & ->)|(_ & _ & _ & ? & _)]; [|done].
      destruct (put_received env r m); (split_and!; [by left|try done|done]). }
  apply bytes_eqb_eq in Ed. subst repairs. destruct (pe_compare env); cbn [negb] in E.
  2:{ destruct E as [(-> & _ & ->)|(_ & _ & _ & ? & _)]; [|done]. destruct (put_received env r m); (split_and!; [by left|try done|done]). }
  destruct (bytes_eqb r (body old)) eqn:Eq.
  { apply bytes_eqb_eq in Eq. destruct E as [(-> & _ & ->)|(_ & _ & _ & ? & _)]; [|done]. destruct (put_received env r m); (split_and!; [by left|try done|done]). }
  apply not_true_iff_false in Eq. rewrite bytes_eqb_eq in Eq. destruct (replacesContentStamp _ _) eqn:Er; cbn [negb] in E.
  - destruct E as [(-> & _ & ->)|(-> & _ & -> & _)]; [|split_and!; [right|..]; done].
    destruct (put_received env r m); (split_and!; [by left|try done|done]).
  - destruct E as [(-> & _ & ->)|(_ & _ & _ & ? & _)]; [|done]. destruct (put_received env r m); (split_and!; [by left|try done|done]).
Qed.

(** ** Operations in sequence *)

Section sequences.
Context `{!MtimeSort} `{!CacheLaws MC bytes metaEntry}.

Inductive stOp :=
  | SPut (env : putEnv) (key r : bytes) (m : smap) (au : option smap)
  | SGet (env : readEnv) (now : Z) (key : bytes)
  | SStat (env : readEnv) (key : bytes)
  | SOpen (env : readEnv) (now : Z) (key : bytes)
  | SOpenBody (env : readEnv) (now : Z) (key : bytes)
  | SSetMeta (env : readEnv) (key : bytes) (kv : smap)
  | SDelete (env : readEnv) (newEpoch : Z) (key : bytes)
  | SHeal (env : healEnv) (key : bytes) (m : smap) (withFd : bool)
  | SVerify (known readable : bool) (key : bytes) (m : smap)
  | SKnownClean (h : bytes)
  | SMarkClean (h : bytes)
  | SWasEvicted (key : bytes).

Definition op_key (o : stOp) : option bytes :=
  match o with
  | SPut _ key _ _ _ | SGet _ _ key | SStat _ key | SOpen _ _ key | SOpenBody _ _ key | SSetMeta _ key _
  | SDelete _ _ key | SHeal _ key _ _ | SVerify _ _ key _ | SWasEvicted key => Some key
  | SKnownClean _ | SMarkClean _ => None
  end.

(** [CreateTemp] never reuses the name of a file that exists. *)
Definition run_op (s : Storage) (o : stOp) : Storage :=
  match o with
  | SPut env key r m au =>
      if bool_decide (files s !! tempPath env key = None) then (PutStream env key r m au s).2 else s
  | SGet env now key => (Get env now key s).2
  | SStat env key => (Stat env key s).2
  | SOpen env now key => (Open env now key s).2
  | SOpenBody env now key => (OpenBody env now key s).2
  | SSetMeta env key kv => (SetMeta env key kv s).2
  | SDelete env newEpoch key => (Delete env newEpoch key s).2
  | SHeal env key m withFd =>
      (ensureOutputID env key m (if withFd then files s !! keyToPath key else None) s).2
  | SVerify known readable key m =>
      match files s !! keyToPath key with
      | Some f => (verifyStoredDigestFor known readable key f m s).2
      | None => s
      end
  | SKnownClean h => (keyKnownClean h s).2
  | SMarkClean h => markKeyClean h s
  | SWasEvicted key => (wasEvicted key s).2
  end.

(** Reading metadata touches neither files nor index. *)
Lemma loadMetadata_frame key f s md s' : loadMetadata key f s = (md, s') -> files s' = files s /\ sIndex s' = sIndex s.
Proof.
  unfold loadMetadata. destruct (metaCache s) as [c|]; [|by intros [= _ <-]]. destruct (c_get c key) as [r c1].
  destruct (share_pairs _ _) as [kv t]. destruct r as [e|]; [destruct (_ && _)|]; by intros [= _ <-].
Qed.

Lemma loadMetadata_memos key f s md s' : loadMetadata key f s = (md, s') -> digestOK s' = digestOK s /\ cleanKeys s' = cleanKeys s.
Proof.
  unfold loadMetadata. destruct (metaCache s) as [c|]; [|by intros [= _ <-]]. destruct (c_get c key) as [r c1].
  destruct (share_pairs _ _) as [kv t]. destruct r as [e|]; [destruct (_ && _)|]; by intros [= _ <-].
Qed.

Lemma recordAccess_frame now key s : files (recordAccess now key s) = files s /\ sIndex (recordAccess now key s) = sIndex s.
Proof. unfold recordAccess. by destruct (accessShards s). Qed.

(** *** The metadata cache *)

(** A cached entry that matches the file's time and size tells what the file's
    attributes say. *)
Definition meta_coherent (Ks : bytes -> Prop) (fs : gmap (list bytes) file) (mc : option MC) : Prop :=
  match mc with
  | None => True
  | Some c => c_wf c /\
      forall k e f, Ks k -> c_look c k = Some e -> fs !! keyToPath k = Some f ->
        me_modNano e = modNano f -> me_size e = file_size f -> entry_map (me_kv e) = getMetadata (fattrs f)
  end.

Definition collision_free (Ks : bytes -> Prop) : Prop :=
  forall k k', Ks k -> Ks k' -> keyToPath k = keyToPath k' -> k = k'.

Lemma loadMetadata_spec Ks key f s md s' :
  meta_coherent Ks (files s) (metaCache s) -> collision_free Ks -> Ks key ->
  files s !! keyToPath key = Some f -> loadMetadata key f s = (md, s') ->
  md = getMetadata (fattrs f) /\ meta_coherent Ks (files s') (metaCache s') /\ files s' = files s /\
  sIndex s' = sIndex s /\ accessShards s' = accessShards s.
Proof.
  intros Hco Hinj HK Hf Hload. unfold loadMetadata in Hload.
  destruct (metaCache s) as [c|] eqn:Ec; [|simplify_eq; split_and!; try done; by rewrite Ec].
  destruct Hco as [Hwf Hco]. destruct (c_get c key) as [r c1] eqn:Eg.
  assert (Hr : r = c_look c key) by (unfold c_look; by rewrite Eg).
  assert (Hc1 : c_wf c1) by (change c1 with (r, c1).2; rewrite <- Eg; by apply c_get_wf).
  assert (Hl1 : forall k, c_look c1 k = c_look c k).
  { intros k. change c1 with (r, c1).2. rewrite <- Eg. by apply c_get_look. }
  cbn [metaStrings with_meta] in Hload.
  destruct (share_pairs (metaStrings s) (range_order 0 (getMetadata (fattrs f)))) as [kv t] eqn:Es.
  assert (Hkv : entry_map kv = getMetadata (fattrs f)).
  { change kv with (kv, t).1. rewrite <- Es. apply entry_map_share. }
  assert (Hmiss : meta_coherent Ks (files s) (Some (c_put c1 key (MetaEntry (modNano f) (file_size f) kv)))).
  { split; [by apply c_put_wf|]. intros k e g Hk Hlook Hg Hmod Hsize.
    apply c_put_look in Hlook as [[-> ->]|[Hne Hlook]]; [| |done].
    - rewrite Hf in Hg. by injection Hg as <-.
    - rewrite Hl1 in Hlook. by eapply Hco. }
  destruct r as [e|]; [destruct (_ && _) eqn:Em|].
  - apply andb_true_iff in Em as [Em1%Z.eqb_eq Em2%Z.eqb_eq]. injection Hload as <- <-. split_and!; try done.
    + eapply Hco; try done.
    + split; [done|]. intros k e' g. rewrite Hl1. apply Hco.
  - injection Hload as <- <-. by split_and!.
  - injection Hload as <- <-. by split_and!.
Qed.

Lemma forgetMeta_coherent Ks fs fs' (mc : option MC) key :
  meta_coherent Ks fs mc -> (forall k, Ks k -> k <> key -> fs' !! keyToPath k = fs !! keyToPath k) ->
  meta_coherent Ks fs' ((fun c => c_forget c key) <$> mc).
Proof.
  destruct mc as [c|]; [|done]. cbn [fmap option_fmap option_map meta_coherent]. intros [Hwf Hco] Hfs.
  split; [by apply c_forget_wf|]. intros k e f Hk Hlook Hf. apply c_forget_look in Hlook as [Hne Hlook]; [|done].
  rewrite Hfs in Hf by done. by eapply Hco.
Qed.

(** Files of other keys of a collision-free set are elsewhere. *)
Lemma other_path Ks key k : collision_free Ks -> Ks key -> Ks k -> k <> key -> keyToPath key <> keyToPath k.
Proof. intros Hinj HK Hk Hne Heq. by apply Hne, Hinj. Qed.

Lemma set_attrs_eq (f : file) : set_attrs f (fattrs f) = f.
Proof. by destruct f. Qed.

(** What a repair of the object under [key] can do. *)
Lemma reconstruct_result env key given s r s' :
  given = None \/ given = files s !! keyToPath key ->
  reconstructOutputID env key given s = (r, s') ->
  (s' = s /\ r = None) \/
  exists f st cd a err, files s !! keyToPath key = Some f /\
    bodyMatchesStoredDigest (body f) (default [] (getMetadata (fattrs f) !! storedDigestMetaKey)) = true /\
    decompressingReader (body f) = Some (st, cd) /\ cd <> CodecNone /\ st_clean st = true /\
    setMetadata (fattrs f) {[ outputIDMetaKey := hex_encode (sha256 (st_bytes st)) ]} = (a, err) /\
    let s1 := with_files s (<[keyToPath key := set_attrs f a]> (files s)) in
    match err with
    | None => r = Some (hex_encode (sha256 (st_bytes st))) /\ s' = forgetMeta key s1
    | Some _ => r = None /\ s' = s1
    end.
Proof.
  intros Hgiven Hrun. unfold reconstructOutputID in Hrun.
  destruct (match given with Some f => inl f | None => _ end) as [f|x] eqn:Eo; [|injection Hrun as <- <-; by left].
  assert (Hf : files s !! keyToPath key = Some f).
  { destruct given as [g|].
    - destruct Hgiven as [Hg|Hg]; [done|]. injection Eo as ->. done.
    - unfold openRaw in Eo. destruct (negb _); [done|]. destruct (files s !! keyToPath key); congruence. }
  destruct (negb (he_read env)); [injection Hrun as <- <-; by left|].
  destruct (bodyMatchesStoredDigest _ _) eqn:Eb; cbn [negb] in Hrun; [|injection Hrun as <- <-; by left].
  destruct (decompressingReader (body f)) as [[st cd]|] eqn:Ed; [|injection Hrun as <- <-; by left].
  destruct (decide (cd = CodecNone)) as [->|Hcd]; [injection Hrun as <- <-; by left|].
  assert (Hrun' : (if bool_decide (is_Some given) && negb (he_seek env) then (None, s)
    else if negb (st_clean st) then (None, s)
    else let outputID := hex_encode (sha256 (st_bytes st)) in
         let '(a, err) := setMetadata (fattrs f) {[ outputIDMetaKey := outputID ]} in
         let s := write_fd (keyToPath key) f a s in
         if bool_decide (is_Some err) then (None, s) else (Some outputID, forgetMeta key s)) = (r, s'))
    by (destruct cd; [done|exact Hrun|exact Hrun]).
  clear Hrun. destruct (bool_decide _ && _); [injection Hrun' as <- <-; by left|].
  destruct (st_clean st) eqn:Ec; cbn [negb] in Hrun'; [|injection Hrun' as <- <-; by left].
  cbv zeta in Hrun'. destruct (setMetadata _ _) as [a err] eqn:Em.
  unfold write_fd in Hrun'. rewrite Hf, Z.eqb_refl in Hrun'.
  right. exists f, st, cd, a, err. split_and!; try done.
  case_bool_decide as Herr; destruct err as [x|]; injection Hrun' as <- <-;
    first [done|by destruct Herr as [? ?]|by destruct Herr; eexists].
Qed.

Lemma ensureOutputID_coherent Ks env key m given s :
  collision_free Ks -> Ks key -> (given = None \/ given = files s !! keyToPath key) ->
  meta_coherent Ks (files s) (metaCache s) ->
  let s' := (ensureOutputID env key m given s).2 in meta_coherent Ks (files s') (metaCache s').
Proof.
  intros Hinj HK Hgiven Hco. cbv zeta. unfold ensureOutputID. destruct (negb _); [done|].
  destruct (extractActionHash key); [|done].
  destruct (reconstructOutputID env key given s) as [r s1] eqn:Er.
  assert (Hs1 : meta_coherent Ks (files s1) (metaCache s1)).
  { apply reconstruct_result in Er as [[-> _]|(f & st & cd & a & err & Hf & _ & _ & _ & _ & Hset & Hs1)]; [done| |done].
    destruct err as [x|]; destruct Hs1 as [_ ->].
    - cbn [files metaCache with_files]. destruct (metaCache s) as [c|]; [|done]. destruct Hco as [Hwf Hco].
      split; [done|]. intros k e g Hk Hl Hg Hm1 Hm2. destruct (decide (k = key)) as [->|Hne].
      + rewrite lookup_insert_eq in Hg. injection Hg as <-. cbn [fattrs set_attrs modNano] in *.
        unfold getMetadata. rewrite (setMetadata_fail _ _ _ _ Hset). by eapply Hco.
      + rewrite lookup_insert_ne in Hg by (by eapply other_path). by eapply Hco.
    - cbn [files metaCache with_files forgetMeta with_meta]. eapply forgetMeta_coherent; [exact Hco|].
      intros k Hk Hne. rewrite lookup_insert_ne; [done|by eapply other_path]. }
  destruct r; cbn [snd]; [done|]. exact Hs1.
Qed.

Lemma run_op_coherent Ks s o :
  collision_free Ks -> (forall k, op_key o = Some k -> Ks k) ->
  meta_coherent Ks (files s) (metaCache s) -> meta_coherent Ks (files (run_op s o)) (metaCache (run_op s o)).
Proof.
  intros Hinj HK Hco.
  assert (Hother : forall key k, Ks key -> Ks k -> k <> key -> keyToPath key <> keyToPath k)
    by (intros; by eapply other_path).
  destruct o; cbn [run_op op_key] in *; try (specialize (HK _ eq_refl)).
  - case_bool_decide as Ht; [|done]. destruct (PutStream env key r m au s) as [e s'] eqn:E.
    apply PutStream_result in E as [[-> _]|(_ & _ & _ & a & _ & ->)]; [done| |done].
    cbn [snd]. unfold put_state, forgetEvicted, forgetMeta, forgetClean.
    destruct (extractActionHash key); cbn [files metaCache with_files with_index with_evicted with_meta with_clean];
      (eapply forgetMeta_coherent; [exact Hco|]; intros k Hk Hne; rewrite lookup_insert_ne; [done|by apply Hother]).
  - unfold Get. destruct (negb _); [done|]. destruct (files s !! keyToPath key) as [f|] eqn:Ef; [|done].
    destruct (negb _); [done|]. destruct (loadMetadata key f s) as [md s1] eqn:El.
    destruct (loadMetadata_spec _ _ _ _ _ _ Hco Hinj HK Ef El) as (_ & Hm1 & _).
    cbn [snd]. unfold recordAccess. by destruct (accessShards s1).
  - unfold Stat. destruct (negb _); [done|]. destruct (files s !! keyToPath key) as [f|] eqn:Ef; [|done].
    destruct (loadMetadata key f s) as [md s1] eqn:El.
    by destruct (loadMetadata_spec _ _ _ _ _ _ Hco Hinj HK Ef El) as (_ & Hm1 & _).
  - unfold Open. destruct (negb _); [done|]. destruct (files s !! keyToPath key) as [f|] eqn:Ef; [|done].
    destruct (negb _); [done|]. destruct (loadMetadata key f s) as [md s1] eqn:El.
    destruct (loadMetadata_spec _ _ _ _ _ _ Hco Hinj HK Ef El) as (_ & Hm1 & _).
    cbn [snd]. unfold recordAccess. by destruct (accessShards s1).
  - unfold OpenBody. destruct (negb _); [done|]. destruct (files s !! keyToPath key) as [f|] eqn:Ef; [|done].
    destruct (negb _); [done|]. cbn [snd]. unfold recordAccess. by destruct (accessShards s).
  - unfold SetMeta. destruct (negb _); [done|]. destruct (files s !! keyToPath key) as [f|] eqn:Ef; [|done].
    destruct (setMetadata (fattrs f) kv) as [a err]. cbn [snd files metaCache with_files forgetMeta with_meta].
    eapply forgetMeta_coherent; [exact Hco|]. intros k Hk Hne. rewrite lookup_insert_ne; [done|by apply Hother].
  - unfold Delete. destruct (negb _); [done|]. destruct (files s !! keyToPath key) as [f|] eqn:Ef; [|done].
    cbn [snd]. unfold forgetMeta, forgetClean, forgetAccess. cbn [accessShards with_index with_files].
    destruct (accessShards s), (extractActionHash key);
      cbn [files metaCache with_files with_index with_access with_meta with_clean];
      (eapply forgetMeta_coherent; [exact Hco|]; intros k Hk Hne; rewrite lookup_delete_ne; [done|by apply Hother]).
  - apply ensureOutputID_coherent; [done|done| |done]. destruct withFd; [by right|by left].
  - destruct (files s !! keyToPath key) as [f|] eqn:Ef; [|done]. unfold verifyStoredDigestFor.
    destruct (extractActionHash key), (digestOK s); try done. destruct (known && _); [|done].
    destruct (c_get _ _) as [r d1]. case_bool_decide; [done|]. by destruct (verifyStoredDigest readable f m) as [[]|].
  - unfold keyKnownClean. destruct (cleanKeys s); [|done]. by destruct (c_get _ _).
  - done.
  - unfold wasEvicted. destruct (extractActionHash key), (evicted s); try done. by destruct (c_get _ _).
Qed.

(** What the three readers answer for a file that is there. *)
Lemma readers_answer Ks key f s now :
  meta_coherent Ks (files s) (metaCache s) -> collision_free Ks -> Ks key -> files s !! keyToPath key = Some f ->
  let om := MkObjectMeta (getMetadata (fattrs f)) (modNano f) (file_size f) in
  (Stat (ReadEnv true true) key s).1 = inl om /\
  (Get (ReadEnv true true) now key s).1 = inl (body f, om) /\
  (Open (ReadEnv true true) now key s).1 = inl (f, om).
Proof.
  intros Hco Hinj HK Hf. cbv zeta. unfold Stat, Get, Open. cbn [re_open re_stat negb]. rewrite Hf.
  destruct (loadMetadata key f s) as [md s1] eqn:El.
  by destruct (loadMetadata_spec _ _ _ _ _ _ Hco Hinj HK Hf El) as (-> & _).
Qed.

Lemma run_coherent Ks s0 ops :
  collision_free Ks -> Forall (fun o => forall k, op_key o = Some k -> Ks k) ops ->
  meta_coherent Ks (files s0) (metaCache s0) ->
  meta_coherent Ks (files (foldl run_op s0 ops)) (metaCache (foldl run_op s0 ops)).
Proof.
  intros Hinj. revert s0. induction ops as [|o ops IH]; intros s0 HF Hco; [done|]. cbn [foldl].
  apply Forall_cons in HF as [Ho HF]. apply IH; [done|]. by apply run_op_coherent.
Qed.

Lemma cold_coherent Ks fs (mc : option MC) :
  (forall c, mc = Some c -> c_wf c /\ forall k, c_look c k = None) -> meta_coherent Ks fs mc.
Proof.
  destruct mc as [c|]; [|done]. intros Hc. destruct (Hc c eq_refl) as [Hwf Hno]. split; [done|].
  intros k e f _ Hl. by rewrite Hno in Hl.
Qed.

(** C12. The metadata cache is invisible.  Start with a cold cache and run any
    sequence of uploads, reads, metadata updates, deletions and repairs on keys
    that do not share files, in which a read of an attribute that is there succeeds
    ([XattrLaws]): every read of a stored object then answers with exactly the
    metadata its file carries, whether it came from the cache or from the file.
    (A read that fails is taken for empty metadata, which the cache would keep.) *)
Theorem metadata_cache_transparent Ks s0 ops now key f :
  collision_free Ks -> Forall (fun o => forall k, op_key o = Some k -> Ks k) ops ->
  (forall c, metaCache s0 = Some c -> c_wf c /\ forall k, c_look c k = None) ->
  let s := foldl run_op s0 ops in
  Ks key -> files s !! keyToPath key = Some f ->
  let om := MkObjectMeta (getMetadata (fattrs f)) (modNano f) (file_size f) in
  (Stat (ReadEnv true true) key s).1 = inl om /\
  (Get (ReadEnv true true) now key s).1 = inl (body f, om) /\
  (Open (ReadEnv true true) now key s).1 = inl (f, om).
Proof.
  intros Hinj HF Hcold s HK Hf. eapply readers_answer; try done. apply run_coherent; try done.
  by apply cold_coherent.
Qed.

Lemma put_state_files env key r a s :
  files (put_state env key r a s) = <[keyToPath key := put_file env key r a]> (files s) /\
  metaCache (put_state env key r a s) = (fun c => c_forget c key) <$> metaCache s.
Proof. unfold put_state, forgetEvicted, forgetMeta, forgetClean. by destruct (extractActionHash key). Qed.

(** C10. What was stored is what is read.  When an upload is accepted (no error,
    and write_once does not turn it away), reading the key returns exactly the
    bytes uploaded, their size, and metadata that carries their digest and the
    uploader's protected fields; every object at another path reads the same
    bytes as before. *)
Theorem put_then_get env key r m au s s' now key' :
  files s !! tempPath env key = None -> m !! [] = None ->
  (forall c, metaCache s = Some c -> c_wf c) ->
  PutStream env key r m au s = (None, s') ->
  writeOnceVerdict (writeOnce s) (pe_compare env) (put_old env key s) r = None ->
  (exists md, (Get (ReadEnv true true) now key s').1 =
      inl (r, MkObjectMeta md (pe_modNano env) (Z.of_nat (length r))) /\ stored_meta m r md) /\
  (keyToPath key' <> keyToPath key -> openRaw (ReadEnv true true) key' s' = openRaw (ReadEnv true true) key' s).
Proof.
  intros Ht Hm Hwf Hput Hv. apply PutStream_result in Hput as [[_ Hsame]|(_ & _ & _ & a & Ha & ->)]; [|clear Hv|done].
  { specialize (Hsame eq_refl). congruence. }
  destruct (put_state_files env key r a s) as [Hf Hc]. split.
  - exists (getMetadata a). split; [|by eapply put_stored_meta].
    assert (Hlk : files (put_state env key r a s) !! keyToPath key = Some (put_file env key r a))
      by (rewrite Hf; apply lookup_insert_eq).
    assert (Hco : meta_coherent (fun k => k = key) (files (put_state env key r a s)) (metaCache (put_state env key r a s))).
    2:{ by destruct (readers_answer _ key _ _ now Hco ltac:(by intros ?? -> ->) eq_refl Hlk) as (_ & ? & _). }
    rewrite Hc. destruct (metaCache s) as [c|] eqn:Ec; [|done]. cbn [fmap option_fmap option_map meta_coherent].
    specialize (Hwf c eq_refl). split; [by apply c_forget_wf|]. intros k e g -> Hl. by apply c_forget_look in Hl as [? _].
  - intros Hne. unfold openRaw. cbn [re_open negb]. rewrite Hf, lookup_insert_ne; [done|]. congruence.
Qed.

(** A repaired output id is the content address of the stored body.  When
    [ensureOutputID] finds a build-cache object without output id and reports it
    usable, the id it returns and stores is the hex sha256 of the decompressed
    body, the body still matched its stored digest, the digest stays recorded,
    and body and identity of the file are untouched; when it reports the object
    unusable, no file body changed and the index no longer advertises the key. *)
Theorem selfheal_content_address env key m given s ok m' s' h :
  extractActionHash key = Some h -> missingOutputID m = true ->
  (given = None \/ given = files s !! keyToPath key) ->
  (forall f, files s !! keyToPath key = Some f -> getMetadata (fattrs f) !! [] = None) ->
  ensureOutputID env key m given s = (ok, m', s') ->
  (ok = true -> exists f f' st cd,
     files s !! keyToPath key = Some f /\ files s' = <[keyToPath key := f']> (files s) /\
     body f' = body f /\ modNano f' = modNano f /\ inode f' = inode f /\
     decompressingReader (body f) = Some (st, cd) /\ st_clean st = true /\
     bodyMatchesStoredDigest (body f) (default [] (getMetadata (fattrs f) !! storedDigestMetaKey)) = true /\
     m' !! outputIDMetaKey = Some (hex_encode (sha256 (st_bytes st))) /\
     getMetadata (fattrs f') !! outputIDMetaKey = Some (hex_encode (sha256 (st_bytes st))) /\
     getMetadata (fattrs f') !! storedDigestMetaKey = getMetadata (fattrs f) !! storedDigestMetaKey) /\
  (ok = false -> body <$> files s' = body <$> files s /\
     sIndex s' = Index.Remove (he_epoch env) key <$> sIndex s).
Proof.
  intros Hh Hmiss Hgiven Hnames Hrun. unfold ensureOutputID in Hrun. rewrite Hmiss, Hh in Hrun. cbn [negb] in Hrun.
  destruct (reconstructOutputID env key given s) as [r s1] eqn:Er.
  apply reconstruct_result in Er; [|done].
  destruct Er as [[-> ->]|(f & st & cd & a & err & Hf & Hb & Hd & Hcd & Hc & Hset & Hs1)].
  { injection Hrun as <- <- <-. by split. }
  destruct err as [x|]; destruct Hs1 as [-> ->]; injection Hrun as <- <- <-.
  { split; [done|]. intros _. split; [|done]. cbn [files with_files with_index]. rewrite fmap_insert.
    cbn [body set_attrs]. apply insert_id. by rewrite lookup_fmap, Hf. }
  split; [|done]. intros _. specialize (Hnames f Hf).
  assert (Hn : ({[ outputIDMetaKey := hex_encode (sha256 (st_bytes st)) ]} ∪ getMetadata (fattrs f)) !! ([] : bytes) = None).
  { rewrite lookup_union_r; [done|]. by rewrite lookup_singleton_ne. }
  destruct (setMetadata_ok _ _ _ Hn Hset) as [_ Hp].
  exists f, (set_attrs f a), st, cd. split_and!; try done.
  - by rewrite lookup_insert_eq.
  - cbn [fattrs set_attrs]. rewrite Hp by apply list_elem_of_here. rewrite lookup_union_l'; [apply lookup_singleton_eq|].
    rewrite lookup_singleton_eq. by eexists.
  - cbn [fattrs set_attrs]. rewrite Hp by apply digest_key_protected. by rewrite lookup_union_r by (by rewrite lookup_singleton_ne).
Qed.

End sequences.
End storage.

(** ** A concrete store *)

(** [cleanKey]'s shard function: the first four bytes, little endian. *)
Definition cleanShard (h : bytes) : Z := le_value (take 4 h).

Definition cleanEntryBytes : Z := 96.
Definition digestEntryBytes : Z := 120.
Definition evictedEntryBytes : Z := 96.

Lemma metaEntrySize_nonneg key e : 0 <= metaEntrySize key e.
Proof.
  unfold metaEntrySize, metaEntryOverhead.
  assert (H : forall l n, 0 <= n -> 0 <= foldl (fun n p => n + 32 + (if kp_kShared p then 0 else Z.of_nat (length (kp_k p)))
                     + (if kp_shared p then 0 else Z.of_nat (length (kp_v p)))) n l).
  { induction l as [|p l IH]; intros n Hn; [done|]. cbn [foldl]. apply IH. destruct (kp_kShared p), (kp_shared p); lia. }
  apply H. lia.
Qed.

Abbreviation MetaLRU := (Lru.lruCache (K := bytes) (V := metaEntry)).
Abbreviation MemoLRU := (Lru.lruCache (K := bytes) (V := unit)).
Abbreviation DigestLRU := (Lru.lruCache (K := bytes) (V := fileIdentity)).

#[export] Instance meta_lru_ops : CacheOps MetaLRU bytes metaEntry := lru_ops fnv1a metaEntrySize.
#[export] Instance meta_lru_laws : CacheLaws MetaLRU bytes metaEntry := lru_laws fnv1a metaEntrySize metaEntrySize_nonneg.
#[export] Instance memo_lru_ops : CacheOps MemoLRU bytes unit := lru_ops cleanShard (fun _ _ => cleanEntryBytes).
#[export] Instance digest_lru_ops : CacheOps DigestLRU bytes fileIdentity := lru_ops cleanShard (fun _ _ => digestEntryBytes).
#[export] Instance memo_lru_laws : CacheLaws MemoLRU bytes unit := lru_laws cleanShard (fun _ _ => cleanEntryBytes) (fun _ _ => Z.lt_le_incl 0 96 eq_refl).
#[export] Instance digest_lru_laws : CacheLaws DigestLRU bytes fileIdentity :=
  lru_laws cleanShard (fun _ _ => digestEntryBytes) (fun _ _ => Z.lt_le_incl 0 120 eq_refl).

Definition newMetaCache (budget : Z) : MetaLRU := Lru.newLRUCache budget.
Definition newCleanKeyMemo (budget : Z) : MemoLRU := Lru.newLRUCache budget.
Definition newDigestMemo (budget : Z) : DigestLRU := Lru.newLRUCache budget.
Definition newEvictedMemo (budget : Z) : MemoLRU := Lru.newLRUCache budget.

Abbreviation DemoStorage := (@Storage room_file MetaLRU MemoLRU DigestLRU).

(** A decoder for the concrete runs: an lz4 frame is its magic and the bytes. *)
#[export] Instance demoDecoders : Decoders :=
  {| zstd_reader _ := None; lz4_reader b := Stream (drop 4 b) true |}.

Definition demoStore (wo : WriteOnceConfig) : DemoStorage :=
  MkStorage ∅ wo (Some (Index.NewIndex true 7 8 (Some []))) (Some (replicate accessShardCount ∅))
    (Some (newMetaCache 1048576)) (MetaStringTable ∅ 0) (Some (newCleanKeyMemo 65536))
    (Some (newDigestMemo 65536)) (Some (newEvictedMemo 65536)).

(** An upload in which every system call succeeds. *)
Definition okEnv (time ino : Z) : @putEnv room_file :=
  PutEnv time 9 (time * 1000000000) (Some time) ino (RoomFile 4096 None) (str "1") CreateNotExist true true
    true true true true true true true true.

Definition demoKey : bytes := gbciKeyPrefix ++ hex_encode zero_hash.
Definition demoMeta : smap := {[ str "pkg" := str "net/http" ]}.
Definition noWriteOnce : WriteOnceConfig := WriteOnce (str "allow") [].
Definition denyDiffers : WriteOnceConfig := WriteOnce (str "deny") (str "content_differs").

(** The body: an lz4 frame in the demo decoder's format. *)
Definition demoBody : bytes := le_bytes 4 lz4FrameMagicV ++ str "package http".

Definition demoStored (wo : WriteOnceConfig) : DemoStorage :=
  (PutStream (okEnv 1000 5) demoKey demoBody demoMeta None (demoStore wo)).2.

Lemma demo_put_ok : PutStream (okEnv 1000 5) demoKey demoBody demoMeta None (demoStore noWriteOnce) = (None, demoStored noWriteOnce).
Proof.
  unfold demoStored. rewrite (surjective_pairing (PutStream _ _ _ _ _ (demoStore noWriteOnce))) at 1.
  apply (f_equal2 pair); [vm_compute; reflexivity|reflexivity].
Qed.

Lemma demo_put_left : PutStream_left (okEnv 1000 5) demoKey demoBody demoMeta None (demoStore noWriteOnce) = (None, demoStored noWriteOnce, None).
Proof.
  rewrite (surjective_pairing (PutStream_left _ _ _ _ _ (demoStore noWriteOnce))). apply (f_equal2 pair); [exact demo_put_ok|vm_compute; reflexivity].
Qed.

Lemma putStream_all_or_nothing_witness :
  exists f, files (demoStored noWriteOnce) = <[keyToPath demoKey := f]> ∅ /\ body f = demoBody /\
    getMetadata (fattrs f) !! storedDigestMetaKey = Some (hex_encode (sha256 demoBody)).
Proof.
  destruct (putStream_all_or_nothing (okEnv 1000 5) demoKey demoBody demoMeta None (demoStore noWriteOnce) None
    (demoStored noWriteOnce) None ltac:(vm_compute; reflexivity) ltac:(vm_compute; reflexivity) demo_put_left) as (_ & Hch & _).
  destruct Hch as (f & Hf & Hb & _ & (Hm & _) & _).
  { intros Heq. apply (f_equal (fun s => bool_decide (files s = ∅))) in Heq. vm_compute in Heq. discriminate. }
  exists f. split; [exact Hf|]. split; [exact Hb|exact Hm].
Defined.

(** A different body for the stored key is refused. *)
Lemma writeOnce_keeps_objects_witness :
  (PutStream (okEnv 1001 6) demoKey (str "other") ∅ None (demoStored denyDiffers)).2 = demoStored denyDiffers /\
  (PutStream (okEnv 1001 6) demoKey (str "other") ∅ None (demoStored denyDiffers)).1 = Some ErrWriteOnceConflict.
Proof.
  split; [|vm_compute; reflexivity].
  destruct (PutStream (okEnv 1001 6) demoKey (str "other") ∅ None (demoStored denyDiffers)) as [e s'] eqn:E.
  destruct (files (demoStored denyDiffers) !! keyToPath demoKey) as [old|] eqn:Eo; [|vm_compute in Eo; discriminate].
  destruct (writeOnce_keeps_objects (okEnv 1001 6) demoKey (str "other") ∅ None (demoStored denyDiffers) e s' old) as [Hs _];
    [vm_compute; reflexivity|reflexivity|exact Eo|vm_compute; reflexivity|exact E|].
  destruct Hs as [Hs|[_ He]]; [exact Hs|]. apply (f_equal fst) in E. vm_compute in E. congruence.
Defined.

(** Where the Stat fails with another error than that there is no object, the
    upload goes on as if there were none, and replaces it. *)
Definition statFails : @putEnv room_file :=
  PutEnv 1001 9 (1001 * 1000000000) (Some 1001) 6 (RoomFile 4096 None) (str "1") CreateOK true true
    true true true false true true true true.

Example writeOnce_stat_fails :
  (PutStream statFails demoKey (str "other") ∅ None (demoStored denyDiffers)).1 = None /\
  (body <$> files (PutStream statFails demoKey (str "other") ∅ None (demoStored denyDiffers)).2 !! keyToPath demoKey) = Some (str "other").
Proof. split; vm_compute; reflexivity. Qed.

(** An upload that fails while its temp file cannot be removed leaves that file. *)
Definition removeFails : @putEnv room_file :=
  PutEnv 1001 9 (1001 * 1000000000) (Some 1001) 6 (RoomFile 4096 None) (str "1") CreateOK true true
    false true true true true true true false.

Example temp_left : (PutStream_left removeFails demoKey (str "half") ∅ None (demoStore noWriteOnce)).2 = Some (tempPath removeFails demoKey, str "half").
Proof. vm_compute. reflexivity. Qed.

Definition demoOps : list (@stOp room_file) :=
  [SPut (okEnv 1000 5) demoKey demoBody demoMeta None; SGet (ReadEnv true true) 1001 demoKey;
   SSetMeta (ReadEnv true true) demoKey {[ str "x" := str "y" ]}; SStat (ReadEnv true true) demoKey].

Lemma demo_cold wo : forall c, metaCache (demoStore wo) = Some c -> c_wf c /\ forall k, c_look c k = None.
Proof.
  intros c [= <-]. split; [apply lru_new_wf|]. intros k. apply lru_new_look.
Qed.

Lemma metadata_cache_transparent_witness :
  exists om, (Stat (ReadEnv true true) demoKey (foldl run_op (demoStore noWriteOnce) demoOps)).1 = inl om /\
    Metadata om !! str "x" = Some (str "y").
Proof.
  destruct (files (foldl run_op (demoStore noWriteOnce) demoOps) !! keyToPath demoKey) as [f|] eqn:Ef;
    [|vm_compute in Ef; discriminate].
  destruct (metadata_cache_transparent (fun k => k = demoKey) (demoStore noWriteOnce) demoOps 5 demoKey f) as (Hs & _).
  - by intros ?? -> ->.
  - repeat constructor; intros k [= <-]; reflexivity.
  - apply demo_cold.
  - reflexivity.
  - exact Ef.
  - eexists. split; [exact Hs|]. vm_compute in Ef. injection Ef as <-. vm_compute. reflexivity.
Defined.

Lemma put_then_get_witness :
  exists md, (Get (ReadEnv true true) 2000 demoKey (demoStored noWriteOnce)).1 =
      inl (demoBody, MkObjectMeta md 1000000000000 16) /\ stored_meta demoMeta demoBody md.
Proof.
  destruct (put_then_get (okEnv 1000 5) demoKey demoBody demoMeta None (demoStore noWriteOnce) (demoStored noWriteOnce)
    2000 demoKey) as [Hg _].
  - vm_compute. reflexivity.
  - vm_compute. reflexivity.
  - intros c Hc. by apply demo_cold in Hc as [? _].
  - exact demo_put_ok.
  - reflexivity.
  - exact Hg.
Defined.

Definition healOk : healEnv := HealEnv true true true 11.

Lemma selfheal_content_address_witness :
  exists m' s', ensureOutputID healOk demoKey ∅ None (demoStored noWriteOnce) = (true, m', s') /\
    m' !! outputIDMetaKey = Some (hex_encode (sha256 (str "package http"))).
Proof.
  destruct (ensureOutputID healOk demoKey ∅ None (demoStored noWriteOnce)) as [[ok m'] s'] eqn:E.
  assert (Hok : ok = true) by (apply (f_equal (fun x => x.1.1)) in E; vm_compute in E; congruence). subst ok.
  exists m', s'. split; [done|].
  destruct (selfheal_content_address healOk demoKey ∅ None (demoStored noWriteOnce) true m' s' zero_hash) as [Hyes _].
  - vm_compute. reflexivity.
  - vm_compute. reflexivity.
  - by left.
  - intros f Hf.
    assert (Hall : (fun f => getMetadata (fattrs f) !! []) <$> files (demoStored noWriteOnce) !! keyToPath demoKey = Some None)
      by (vm_compute; reflexivity).
    rewrite Hf in Hall. cbn [fmap option_fmap option_map] in Hall. congruence.
  - exact E.
  - destruct (Hyes eq_refl) as (f & f' & st & cd & Hf & _ & _ & _ & _ & Hd & _ & _ & Hm & _).
    rewrite Hm.
    assert (Hall : (fun f => decompressingReader (body f)) <$> files (demoStored noWriteOnce) !! keyToPath demoKey =
                   Some (Some (Stream (str "package http") true, CodecLz4))) by (vm_compute; reflexivity).
    rewrite Hf in Hall. cbn [fmap option_fmap option_map] in Hall. rewrite Hd in Hall. injection Hall as -> ->. reflexivity.
Defined.
