(* ===== verification/Eviction.v ===== *)
(** * Eviction

    [eviction.go] and [atime.go]: the two-pass sweep (measure the cache, place a
    last-use cutoff, delete what lies below it in batches), the schedule of the
    first sweep and the budget test between sweeps.  The data directory is that
    of [Storage]; [filepath.WalkDir] visits its files in lexical order and the
    walk never fails as a whole (the callback answers every error with nil).
    Byte totals and times are unbounded integers: disk sizes and unix seconds
    are far inside int64.  [maxAge] in nanoseconds becomes whole seconds as
    [int64(maxAge.Seconds())] does. *)

From Stdlib Require Import ZArith Lia List Bool String.
From stdpp Require Import base gmap list sets sorting.
From S2P Require Import Prelude SortedSlice GoSet Keys Sha256 Paths ObjAttrs ContentStamp Lru MemoCache Index Storage.

(** ** Lexical order of paths *)

Section list_order.
Context {A : Type} `{!TotalCmp A}.

Fixpoint list_compare (a b : list A) : comparison :=
  match a, b with
  | [], [] => Eq
  | [], _ :: _ => Lt
  | _ :: _, [] => Gt
  | x :: a', y :: b' => match cmp x y with Eq => list_compare a' b' | c => c end
  end.

Lemma list_compare_eq a b : list_compare a b = Eq <-> a = b.
Proof.
  revert b; induction a as [|x a IH]; intros [|y b]; cbn [list_compare]; try done.
  destruct (cmp x y) eqn:E.
  - apply cmp_eq in E as ->. rewrite IH. split; congruence.
  - split; [done|]. intros [= -> ->]. rewrite (proj2 (cmp_eq y y) eq_refl) in E. done.
  - split; [done|]. intros [= -> ->]. rewrite (proj2 (cmp_eq y y) eq_refl) in E. done.
Qed.

Lemma list_compare_antisym a b : list_compare b a = CompOpp (list_compare a b).
Proof.
  revert b; induction a as [|x a IH]; intros [|y b]; cbn [list_compare]; try done.
  rewrite (cmp_antisym x y). destruct (cmp x y); cbn [CompOpp]; auto.
Qed.

Lemma list_compare_lt_trans a b c : list_compare a b = Lt -> list_compare b c = Lt -> list_compare a c = Lt.
Proof.
  revert b c; induction a as [|x a IH]; intros [|y b] [|z c]; cbn [list_compare]; try done.
  destruct (cmp x y) eqn:E1; [apply cmp_eq in E1 as ->| |done].
  - destruct (cmp y z); try done. intros. by eapply IH.
  - intros _. destruct (cmp y z) eqn:E2; [apply cmp_eq in E2 as ->; by rewrite E1| |done].
    by rewrite (cmp_lt_trans x y z).
Qed.

#[export] Instance list_total_cmp : TotalCmp (list A) := {|
  cmp := list_compare; cmp_eq := list_compare_eq;
  cmp_antisym := list_compare_antisym; cmp_lt_trans := list_compare_lt_trans
|}.
End list_order.

(** ** Data *)

Record ListObject := MkListObject {
  lo_key : bytes; lo_size : Z; lo_modNano : Z; lo_access : option Z
}.

Record evictionVictim := EvictionVictim { ev_ck : compactKey; ev_size : Z; ev_mtimeUnix : Z; ev_byAge : bool }.

Record EvictStats := MkEvictStats {
  Scanned : Z; EvictedAge : Z; EvictedSize : Z; BytesFreed : Z; BytesTotal : Z
}.

Record evictionScan := EvictionScan {
  sc_scanned : Z; sc_totalBytes : Z; sc_byBucket : gmap Z Z; sc_live : option (gset compactKey)
}.

Definition evictionBucketSeconds : Z := 600.
Definition evictionBatchSize : Z := 65536.
Definition nanosPerSecond : Z := 1000000000.

(** [t.Unix()] of a time in nanoseconds. *)
Definition unixOf (nano : Z) : Z := nano / nanosPerSecond.

Definition lastUsedUnix (obj : ListObject) (memAccess : Z) : Z :=
  let used := unixOf (lo_modNano obj) in
  let used := match lo_access obj with Some at_ => if used <? at_ then at_ else used | None => used end in
  if used <? memAccess then memAccess else used.

(** ** Placing the cutoff *)

(** One object of the scan's histogram. *)
Definition bump (m : gmap Z Z) (b sz : Z) : gmap Z Z := <[b := default 0 (m !! b) + sz]> m.

Fixpoint cutoff_loop (byBucket : gmap Z Z) (need freed : Z) (buckets : list Z) : option Z :=
  match buckets with
  | [] => None
  | b :: bs =>
      let freed := freed + default 0 (byBucket !! b) in
      if need <=? freed then Some ((b + 1) * evictionBucketSeconds) else cutoff_loop byBucket need freed bs
  end.

Definition sizeCutoff (sc : evictionScan) (maxBytes : Z) : Z :=
  if (maxBytes <=? 0) || (sc_totalBytes sc <=? maxBytes) then 0
  else
    let need := sc_totalBytes sc - maxBytes in
    let buckets := sort_slice (map_to_list (sc_byBucket sc)).*1 in
    match cutoff_loop (sc_byBucket sc) need 0 buckets with
    | Some c => c
    | None => (default 0 (last buckets) + 1) * evictionBucketSeconds
    end.

Definition overBudget (total maxBytes : Z) : bool := (0 <? maxBytes) && (maxBytes <? total).

(** *** What the cutoff achieves *)

(** Objects as (last use, size). *)
Abbreviation uses := (list (Z * Z)).

Definition bucket (p : Z * Z) : Z := Z.quot p.1 evictionBucketSeconds.
Definition hist (l : uses) : gmap Z Z := foldl (fun m p => bump m (bucket p) p.2) ∅ l.
Definition sumZ (l : list Z) : Z := foldr Z.add 0 l.

(** The bytes of the objects [P] selects. *)
Definition weigh (P : Z * Z -> bool) (l : uses) : Z := sumZ (map (fun p => if P p then p.2 else 0) l).

Lemma weigh_cons P p l : weigh P (p :: l) = (if P p then p.2 else 0) + weigh P l.
Proof. done. Qed.

Lemma weigh_ext P Q l : (forall p, p ∈ l -> P p = Q p) -> weigh P l = weigh Q l.
Proof.
  induction l as [|p l IH]; intros H; [done|]. rewrite !weigh_cons, IH, (H p); [done|apply list_elem_of_here|].
  intros q Hq. apply H. by apply list_elem_of_further.
Qed.

Lemma weigh_split P l : weigh (fun _ => true) l = weigh P l + weigh (fun p => negb (P p)) l.
Proof. induction l as [|p l IH]; [done|]. rewrite !weigh_cons, IH. destruct (P p); cbn [negb]; lia. Qed.

Lemma hist_lookup l b : default 0 (hist l !! b) = weigh (fun p => bucket p =? b) l.
Proof.
  unfold hist. assert (H : forall m, default 0 (foldl (fun m p => bump m (bucket p) p.2) m l !! b) =
    default 0 (m !! b) + weigh (fun p => bucket p =? b) l).
  { induction l as [|p l IH]; intros m; cbn [foldl]; [unfold weigh; simpl; lia|]. rewrite IH, weigh_cons. unfold bump.
    destruct (Z.eqb_spec (bucket p) b) as [->|Hne].
    - rewrite lookup_insert_eq. unfold default, id. lia.
    - rewrite lookup_insert_ne by done. lia. }
  rewrite H. by rewrite lookup_empty.
Qed.

Lemma hist_dom l b : is_Some (hist l !! b) <-> exists p, p ∈ l /\ bucket p = b.
Proof.
  unfold hist. assert (H : forall m, is_Some (foldl (fun m p => bump m (bucket p) p.2) m l !! b) <->
    is_Some (m !! b) \/ exists p, p ∈ l /\ bucket p = b).
  { induction l as [|p l IH]; intros m; cbn [foldl].
    - split; [by left|]. intros [?|(p & Hp & _)]; [done|]. by apply not_elem_of_nil in Hp.
    - rewrite IH. unfold bump. rewrite lookup_insert_is_Some. setoid_rewrite elem_of_cons. split.
      + intros [[<-|[_ ?]]|(q & ? & ?)]; [right; eauto|by left|right; eauto].
      + intros [?|(q & [->|?] & Hq)]; [|by left; left|right; eauto].
        destruct (decide (bucket p = b)) as [->|]; [by left; left|left; right; done]. }
  rewrite H, lookup_empty. split; [intros [[? ?]|?]; [done|done]|by right].
Qed.

(** Adding up buckets is adding up objects. *)
Lemma sum_one (b : Z) x bs : NoDup bs ->
  sumZ (map (fun b' => if b =? b' then x else 0) bs) = if bool_decide (b ∈ bs) then x else 0.
Proof.
  induction 1 as [|b' bs Hn _ IH]; [done|]. cbn [map sumZ foldr]. fold (sumZ (map (fun b' => if b =? b' then x else 0) bs)).
  rewrite IH. destruct (Z.eqb_spec b b') as [->|Hne].
  - rewrite (bool_decide_false (b' ∈ bs)) by done. rewrite bool_decide_true by apply list_elem_of_here. lia.
  - rewrite (bool_decide_ext (b ∈ b' :: bs) (b ∈ bs)); [lia|]. rewrite elem_of_cons. naive_solver.
Qed.

Lemma sum_buckets bs l : NoDup bs ->
  sumZ (map (fun b => weigh (fun p => bucket p =? b) l) bs) = weigh (fun p => bool_decide (bucket p ∈ bs)) l.
Proof.
  intros Hnd. induction l as [|p l IH].
  - unfold weigh. cbn [map sumZ foldr]. induction bs as [|b bs IHbs]; [done|]. cbn. apply NoDup_cons in Hnd as [_ Hnd].
    unfold sumZ in IHbs. by rewrite IHbs.
  - rewrite weigh_cons, <- IH, <- (sum_one (bucket p) p.2 bs Hnd). clear.
    induction bs as [|b bs IH]; [done|]. cbn [map sumZ foldr]. fold (sumZ (map (fun b => weigh (fun p => bucket p =? b) (p :: l)) bs)).
    rewrite IH, weigh_cons. unfold sumZ. destruct (bucket p =? b); lia.
Qed.

Lemma cutoff_loop_spec l need bs : forall freed,
  match cutoff_loop (hist l) need freed bs with
  | Some c => exists pre b post, bs = pre ++ b :: post /\ c = (b + 1) * evictionBucketSeconds /\
      need <= freed + sumZ (map (fun b => weigh (fun p => bucket p =? b) l) (pre ++ [b])) /\
      (freed < need -> freed + sumZ (map (fun b => weigh (fun p => bucket p =? b) l) pre) < need)
  | None => bs <> [] -> freed + sumZ (map (fun b => weigh (fun p => bucket p =? b) l) bs) < need
  end.
Proof.
  induction bs as [|b bs IH]; intros freed; cbn [cutoff_loop]; [done|]. rewrite hist_lookup.
  set (w := weigh (fun p => bucket p =? b) l). destruct (Z.leb_spec need (freed + w)) as [Hle|Hgt].
  - exists [], b, bs. split_and!; try done; cbn [app map sumZ foldr]; fold w; lia.
  - specialize (IH (freed + w)). destruct (cutoff_loop _ _ _ _) as [c|].
    + destruct IH as (pre & b' & post & -> & -> & H1 & H2). exists (b :: pre), b', post.
      cbn [app map sumZ foldr] in *. fold w. split_and!; try done; unfold sumZ in *; [lia|]. intros _. specialize (H2 Hgt). lia.
    + intros _. cbn [map sumZ foldr]. fold w. destruct bs as [|b' bs]; [simpl; lia|].
      specialize (IH ltac:(done)). unfold sumZ in *. lia.
Qed.

Lemma bucket_cutoff u b : 0 <= u -> (Z.quot u evictionBucketSeconds <= b <-> u < (b + 1) * evictionBucketSeconds).
Proof.
  intros Hu. unfold evictionBucketSeconds. rewrite Z.quot_div_nonneg by lia. split.
  - intros Hb. pose proof (Z.mul_succ_div_gt u 600 ltac:(lia)). nia.
  - intros Hc. apply Z.lt_succ_r. apply Z.div_lt_upper_bound; lia.
Qed.

(** A prefix of the sorted buckets is the buckets up to its last. *)
Lemma sorted_prefix (pre : list Z) b post x : ssorted (pre ++ b :: post) ->
  (x ∈ pre ++ [b] <-> x ∈ pre ++ b :: post /\ x <= b) /\ (x ∈ pre <-> x ∈ pre ++ b :: post /\ x < b).
Proof.
  intros Hs. assert (Hpre : forall y, y ∈ pre -> y < b).
  { intros y Hy. apply list_elem_of_lookup in Hy as [i Hi].
    assert (Hlt : (i < length pre)%nat) by (by eapply lookup_lt_Some).
    assert (Hc : SortedSlice.lt y b); [|by apply Z.compare_lt_iff].
    apply (ssorted_lookup_lt (pre ++ b :: post) i (length pre)); [done|done| |].
    - by rewrite lookup_app_l.
    - by rewrite list_lookup_middle. }
  assert (Hpost : forall y, y ∈ post -> b < y).
  { intros y Hy. apply list_elem_of_lookup in Hy as [i Hi].
    assert (Hc : SortedSlice.lt b y); [|by apply Z.compare_lt_iff].
    apply (ssorted_lookup_lt (pre ++ b :: post) (length pre) (length pre + S i)); [done|lia| |].
    - by rewrite list_lookup_middle.
    - rewrite lookup_app_r by lia. by replace (length pre + S i - length pre)%nat with (S i) by lia. }
  rewrite !elem_of_app, !elem_of_cons, elem_of_nil. split.
  - split; [intros [Hx|[->|[]]]; [specialize (Hpre _ Hx); split; [by left|lia]|split; [by right; left|lia]]|].
    intros [[Hx|[->|Hx]] Hle]; [by left|by right; left|]. specialize (Hpost _ Hx). lia.
  - split; [intros Hx; split; [by left|by apply Hpre]|]. intros [[Hx|[->|Hx]] Hle]; [done|lia|]. specialize (Hpost _ Hx). lia.
Qed.

Lemma sorted_buckets l : ssorted (sort_slice (map_to_list (hist l)).*1) /\
  forall b, b ∈ sort_slice (map_to_list (hist l)).*1 <-> exists p, p ∈ l /\ bucket p = b.
Proof.
  assert (Hin : forall b, b ∈ sort_slice (map_to_list (hist l)).*1 <-> is_Some (hist l !! b)).
  { intros b. rewrite sort_slice_perm, list_elem_of_fmap. split.
    - intros ([k v] & -> & Hv%elem_of_map_to_list). by exists v.
    - intros [v Hv]. exists (b, v). split; [done|]. by apply elem_of_map_to_list. }
  split; [|intros b; by rewrite Hin, hist_dom].
  pose proof (sort_slice_sorted (map_to_list (hist l)).*1) as Hs.
  assert (Hnd : NoDup (sort_slice (map_to_list (hist l)).*1)) by (rewrite sort_slice_perm; apply NoDup_fst_map_to_list).
  clear Hin. induction Hs as [|x xs Hs IH Hx]; [apply SSorted_nil|]. apply NoDup_cons in Hnd as [Hni Hnd].
  constructor; [by apply IH|]. eapply Forall_forall. intros y Hy. eapply Forall_forall in Hx; [|exact Hy].
  apply le_lt_eq in Hx as [?|<-]; done.
Qed.

Lemma weigh_nonneg P l : Forall (fun p => 0 <= p.2) l -> 0 <= weigh P l.
Proof. induction 1 as [|p l Hp _ IH]; [done|]. rewrite weigh_cons. destruct (P p); lia. Qed.

(** The cutoff frees enough, and one bucket less would not. *)
Lemma cutoff_frees l maxBytes n live :
  Forall (fun p => 0 <= p.1 /\ 0 <= p.2) l ->
  let total := weigh (fun _ => true) l in
  0 < maxBytes < total ->
  let c := sizeCutoff (EvictionScan n total (hist l) live) maxBytes in
  0 < c /\ weigh (fun p => c <=? p.1) l <= maxBytes < weigh (fun p => c - evictionBucketSeconds <=? p.1) l.
Proof.
  intros Hl total [Hpos Hover] c. unfold c, sizeCutoff. cbn [sc_totalBytes sc_byBucket].
  destruct (Z.leb_spec maxBytes 0); [lia|]. destruct (Z.leb_spec total maxBytes); [lia|]. cbn [orb].
  destruct (sorted_buckets l) as [Hs Hall]. set (bs := sort_slice (map_to_list (hist l)).*1) in *.
  pose proof (ssorted_nodup bs Hs) as Hnd.
  assert (Hfull : sumZ (map (fun b => weigh (fun p => bucket p =? b) l) bs) = total).
  { rewrite sum_buckets by done. apply weigh_ext. intros p Hp. apply bool_decide_eq_true, Hall. by exists p. }
  pose proof (cutoff_loop_spec l (total - maxBytes) bs 0) as Hloop.
  destruct (cutoff_loop (hist l) (total - maxBytes) 0 bs) as [c'|].
  2:{ exfalso. destruct bs as [|b0 bs0]; [cbn in Hfull; lia|]. specialize (Hloop ltac:(done)). lia. }
  destruct Hloop as (pre & b & post & Heq & -> & H1 & H2). specialize (H2 ltac:(lia)).
  rewrite Heq in Hs, Hnd. assert (Hnd1 : NoDup (pre ++ [b])).
  { apply NoDup_app in Hnd as (Hp1 & Hp2 & Hp3). apply NoDup_app. split_and!; [done| |apply NoDup_singleton].
    intros x Hx Hb%list_elem_of_singleton. subst. apply (Hp2 _ Hx), list_elem_of_here. }
  assert (Hnd2 : NoDup pre) by (by apply NoDup_app in Hnd as (? & _)).
  rewrite sum_buckets in H1, H2 by done.
  assert (Hex : exists p, p ∈ l /\ bucket p = b).
  { apply Hall. rewrite Heq. apply elem_of_app. right. apply list_elem_of_here. }
  destruct Hex as (p0 & Hp0 & Hb0). assert (Hu : forall p, p ∈ l -> 0 <= p.1 /\ 0 <= p.2).
  { intros p Hp. by eapply Forall_forall in Hl; [|exact Hp]. }
  assert (Hin : forall p, p ∈ l -> bucket p ∈ pre ++ b :: post) by (intros p Hp; rewrite <- Heq; apply Hall; by exists p).
  pose proof (weigh_split (fun p => (b + 1) * evictionBucketSeconds <=? p.1) l) as Hw1.
  pose proof (weigh_split (fun p => (b + 1) * evictionBucketSeconds - evictionBucketSeconds <=? p.1) l) as Hw2.
  fold total in Hw1, Hw2.
  assert (E1 : weigh (fun p => negb ((b + 1) * evictionBucketSeconds <=? p.1)) l =
               weigh (fun p => bool_decide (bucket p ∈ pre ++ [b])) l).
  { apply weigh_ext. intros p Hp. apply eq_true_iff_eq. rewrite bool_decide_eq_true, negb_true_iff, Z.leb_gt.
    rewrite (proj1 (sorted_prefix pre b post (bucket p) Hs)), <- bucket_cutoff by (by apply Hu).
    split; [intros Hb; split; [by apply Hin|done]|by intros [_ ?]]. }
  assert (E2 : weigh (fun p => negb ((b + 1) * evictionBucketSeconds - evictionBucketSeconds <=? p.1)) l =
               weigh (fun p => bool_decide (bucket p ∈ pre)) l).
  { apply weigh_ext. intros p Hp. apply eq_true_iff_eq. rewrite bool_decide_eq_true, negb_true_iff, Z.leb_gt.
    rewrite (proj2 (sorted_prefix pre b post (bucket p) Hs)).
    replace ((b + 1) * evictionBucketSeconds - evictionBucketSeconds) with ((b - 1 + 1) * evictionBucketSeconds) by ring.
    rewrite <- bucket_cutoff by (by apply Hu). fold (bucket p).
    split; [intros Hb; split; [by apply Hin|lia]|intros [_ ?]; lia]. }
  cbv beta in Hw1, Hw2. split; [|lia]. destruct (Hu p0 Hp0). assert (0 <= b).
  { rewrite <- Hb0. unfold bucket, evictionBucketSeconds. apply Z.quot_pos; lia. }
  unfold evictionBucketSeconds. lia.
Qed.

(** ** The sweep *)

Section eviction.
Context {F MC UC DC St : Type}.
Context `{!CacheOps MC bytes metaEntry} `{!CacheOps UC bytes unit} `{!CacheOps DC bytes fileIdentity}.
Context `{!SetOps St compactKey} `{msort : !MtimeSort}.

Abbreviation file := (@Storage.file F).
Abbreviation Storage := (@Storage.Storage F MC UC DC).

(** *** Walking the data directory *)

(** What [Walk] reports for one file, if anything. *)
Definition walkObject (path : list bytes) (f : file) : option ListObject :=
  if isReservedFile (default [] (last path)) then None
  else
    let key := pathToKey (originalKey f) path in
    if bytes_eqb key [] then None else Some (MkListObject key (file_size f) (modNano f) (accessSec f)).

Definition walkOrder (s : Storage) : list (list bytes) := sort_slice (map_to_list (files s)).*1.

(** [Walk]'s callback at one path, for the file that is there when it is
    visited. *)
Definition visit {B} (fn : ListObject -> B -> B) (look : B -> Storage) (b : B) (path : list bytes) : B :=
  match files (look b) !! path ≫= walkObject path with
  | Some obj => fn obj b
  | None => b
  end.

Definition walk_with {B} (fn : ListObject -> B -> B) (look : B -> Storage) (b : B) : B :=
  foldl (visit fn look) b (walkOrder (look b)).

(** The objects a walk of an unchanging store reports. *)
Definition Walk (s : Storage) : list ListObject := omap (fun p => files s !! p ≫= walkObject p) (walkOrder s).

(** *** Pass one *)

Definition scan_object (needHistogram : bool) (s : Storage) (obj : ListObject) (scan : evictionScan) : evictionScan :=
  let ck := newCompactKey (lo_key obj) in
  EvictionScan (sc_scanned scan + 1) (sc_totalBytes scan + lo_size obj)
    (if needHistogram then
       let memAccess := default 0 (lastAccessOf s ck) in
       bump (sc_byBucket scan) (Z.quot (lastUsedUnix obj memAccess) evictionBucketSeconds) (lo_size obj)
     else sc_byBucket scan)
    ((fun l => {[ck]} ∪ l) <$> sc_live scan).

Definition scanForEviction (needHistogram : bool) (s : Storage) : evictionScan :=
  foldl (fun scan obj => scan_object needHistogram s obj scan)
    (EvictionScan 0 0 ∅ (if accessShards s then Some ∅ else None)) (Walk s).

(** *** Pass two *)

(** Whether the stat and the remove of a victim succeed, and the epochs drawn. *)
Record evictEnv := EvictEnv { ee_stat : bytes -> bool; ee_remove : bytes -> bool; ee_epoch : nat -> Z }.

Definition evictOne (env : evictEnv) (key : bytes) (expectMtime : Z) (s : Storage) : bool * Storage :=
  let path := keyToPath key in
  let fresh :=
    if 0 <? expectMtime then
      if ee_stat env key then
        match files s !! path with
        | None => false
        | Some f => unixOf (modNano f) =? expectMtime
        end
      else false
    else true in
  if negb fresh then (false, s)
  else if negb (ee_remove env key) then (false, s)
  else match files s !! path with
       | None => (false, s)
       | Some _ =>
           let s := with_files s (delete path (files s)) in
           (true, noteEvicted key (forgetMeta key (forgetClean key (forgetAccess key s))))
       end.

Record sweepState := SweepState { sw_s : Storage; sw_stats : EvictStats; sw_batch : list evictionVictim; sw_rounds : nat }.

(** One victim of a flushed batch. *)
Definition flush_one (env : evictEnv) (st : Storage * EvictStats) (v : evictionVictim) : Storage * EvictStats :=
  let '(s, stats) := st in
  match evictOne env (Key (ev_ck v)) (ev_mtimeUnix v) s with
  | (false, s) => (s, stats)
  | (true, s) =>
      (s, MkEvictStats (Scanned stats)
            (if ev_byAge v then EvictedAge stats + 1 else EvictedAge stats)
            (if ev_byAge v then EvictedSize stats else EvictedSize stats + 1)
            (BytesFreed stats + ev_size v) (BytesTotal stats))
  end.

Definition deadvertise (env : evictEnv) (round : nat) (batch : list evictionVictim) (s : Storage) : Storage :=
  with_index s (Index.RemoveKeys (St := St) (ee_epoch env round) (map (fun v => Key (ev_ck v)) batch) <$> sIndex s).

Definition flush (env : evictEnv) (st : sweepState) : sweepState :=
  match sw_batch st with
  | [] => st
  | batch =>
      let s := deadvertise env (sw_rounds st) batch (sw_s st) in
      let '(s, stats) := foldl (flush_one env) (s, sw_stats st) batch in
      SweepState s stats [] (S (sw_rounds st))
  end.

Definition sweep_object (env : evictEnv) (cutoff ageCutoff : Z) (obj : ListObject) (st : sweepState) : sweepState :=
  let ck := newCompactKey (lo_key obj) in
  let memAccess := default 0 (lastAccessOf (sw_s st) ck) in
  let lastUsed := lastUsedUnix obj memAccess in
  if cutoff <=? lastUsed then st
  else
    let v := EvictionVictim ck (lo_size obj) (unixOf (lo_modNano obj)) ((0 <? ageCutoff) && (lastUsed <? ageCutoff)) in
    let st := SweepState (sw_s st) (sw_stats st) (sw_batch st ++ [v]) (sw_rounds st) in
    if evictionBatchSize <=? Z.of_nat (length (sw_batch st)) then flush env st else st.

Definition sweepBelow (env : evictEnv) (cutoff ageCutoff : Z) (stats : EvictStats) (s : Storage) : sweepState :=
  flush env (walk_with (sweep_object env cutoff ageCutoff) sw_s (SweepState s stats [] 0)).

(** *** The sweep as a whole *)

Definition ageCutoffOf (maxAge nowUnix : Z) : Z :=
  if 0 <? maxAge then nowUnix - Z.quot maxAge nanosPerSecond else 0.

Definition rebuildIndex (env : evictEnv) (round : nat) (s : Storage) : Storage :=
  with_index s (Index.rebuild (ee_epoch env round) (Some (map (fun o => (lo_key o, unixOf (lo_modNano o))) (Walk s)))
                <$> sIndex s).

Definition Evict (env : evictEnv) (maxAge maxBytes nowUnix : Z) (s : Storage) : EvictStats * Storage :=
  let scan := scanForEviction (0 <? maxBytes) s in
  let stats := MkEvictStats (sc_scanned scan) 0 0 0 (sc_totalBytes scan) in
  let ageCutoff := ageCutoffOf maxAge nowUnix in
  let cutoff := Z.max ageCutoff (sizeCutoff scan maxBytes) in
  let st := if 0 <? cutoff then sweepBelow env cutoff ageCutoff stats s else SweepState s stats [] 0 in
  let s := match sc_live scan with Some live => pruneAccess live (sw_s st) | None => sw_s st end in
  let s := if 0 <? EvictedAge (sw_stats st) + EvictedSize (sw_stats st) then rebuildIndex env (sw_rounds st) s else s in
  (sw_stats st, s).

(** *** Scheduling *)

(** [firstSweepDelay]: the jitter drawn, the recorded end of the last sweep. *)
Definition firstSweepDelay (jitter nowNano : Z) (lastSweep : option Z) (interval : Z) : Z :=
  match lastSweep with
  | None => jitter
  | Some l =>
      let remaining := l + interval - nowNano in
      if remaining <=? 0 then jitter else Z.min remaining interval + jitter
  end.

(** [RefreshCacheBytes]: every file that is not the server's own. *)
Definition RefreshCacheBytes (s : Storage) : Z :=
  foldl (fun total p =>
    match files s !! p with
    | Some f => if isReservedFile (default [] (last p)) then total else total + file_size f
    | None => total
    end) 0 (walkOrder s).

(** ** What the sweep deletes *)

(** The key a walk reads from a file, its compact form, and what the walk
    reports. *)
Definition file_key (p : list bytes) (f : file) : bytes := pathToKey (originalKey f) p.
Definition file_ck (p : list bytes) (f : file) : compactKey := newCompactKey (file_key p f).
Definition obj_of (p : list bytes) (f : file) : ListObject :=
  MkListObject (file_key p f) (file_size f) (modNano f) (accessSec f).

(** A file lies where the key read from it leads. *)
Definition placed (p : list bytes) (f : file) : Prop :=
  isReservedFile (default [] (last p)) = false /\ file_key p f <> [] /\ keyToPath (Key (file_ck p f)) = p.

Definition all_placed (fs : gmap (list bytes) file) : Prop := forall p f, fs !! p = Some f -> placed p f.

Definition lastUsed (s : Storage) (p : list bytes) (f : file) : Z :=
  lastUsedUnix (obj_of p f) (default 0 (lastAccessOf s (file_ck p f))).

(** Whether the system calls let the sweep delete this file: [Remove] works,
    and so does the [Stat] before it, which is left out where the walk saw no time. *)
Definition deletes (env : evictEnv) (pf : list bytes * file) : bool :=
  let key := Key (file_ck pf.1 pf.2) in
  (ee_stat env key || negb (0 <? unixOf (modNano pf.2))) && ee_remove env key.

Definition gone (env : evictEnv) (l : list (list bytes * file)) : list (list bytes * file) := List.filter (deletes env) l.

Lemma walkObject_placed p f : placed p f -> walkObject p f = Some (obj_of p f).
Proof.
  intros (Hr & Hk & _). unfold walkObject. rewrite Hr. fold (file_key p f).
  destruct (bytes_eqb (file_key p f) []) eqn:E; [|done]. by apply bytes_eqb_eq in E.
Qed.

Lemma file_ck_inj p f p' f' : placed p f -> placed p' f' -> file_ck p f = file_ck p' f' -> p = p'.
Proof. intros (_ & _ & H1) (_ & _ & H2) Heq. congruence. Qed.

Lemma forgetAccess_files key (s : Storage) : files (forgetAccess key s) = files s.
Proof. unfold forgetAccess. by destruct (accessShards s). Qed.

Lemma forgetAccess_index key (s : Storage) : sIndex (forgetAccess key s) = sIndex s.
Proof. unfold forgetAccess. by destruct (accessShards s). Qed.

Lemma forgetAccess_other key ck (s : Storage) :
  ck <> newCompactKey key -> lastAccessOf (forgetAccess key s) ck = lastAccessOf s ck.
Proof.
  intros Hne. unfold lastAccessOf, forgetAccess. destruct (accessShards s) as [shs|] eqn:Ea; cbn [accessShards with_access].
  - destruct (decide (accessShardFor ck = accessShardFor (newCompactKey key))) as [E|E].
    + rewrite E, list_lookup_alter_eq. destruct (shs !! _) as [m|]; [|done]. cbn. by rewrite lookup_delete_ne by congruence.
    + by rewrite list_lookup_alter_ne.
  - by rewrite Ea.
Qed.

(** Deleting the files of a list. *)
Definition minus (fs : gmap (list bytes) file) (ps : list (list bytes)) : gmap (list bytes) file :=
  foldl (fun m p => delete p m) fs ps.

Lemma lookup_minus fs ps p : minus fs ps !! p = if bool_decide (p ∈ ps) then None else fs !! p.
Proof.
  unfold minus. revert fs. induction ps as [|q ps IH]; intros fs; cbn [foldl].
  - by rewrite bool_decide_false by apply not_elem_of_nil.
  - rewrite IH. destruct (decide (p = q)) as [->|Hne].
    + rewrite lookup_delete_eq, (bool_decide_true (q ∈ q :: ps)) by apply list_elem_of_here. by case_bool_decide.
    + rewrite lookup_delete_ne by done. rewrite (bool_decide_ext (p ∈ q :: ps) (p ∈ ps)); [done|].
      rewrite elem_of_cons. naive_solver.
Qed.

Lemma minus_app fs ps qs : minus fs (ps ++ qs) = minus (minus fs ps) qs.
Proof. unfold minus. apply foldl_app. Qed.

(** One victim that is still the file the walk saw. *)
Lemma evictOne_victim env (s : Storage) p f :
  files s !! p = Some f -> placed p f -> deletes env (p, f) = true ->
  exists s', evictOne env (Key (file_ck p f)) (unixOf (modNano f)) s = (true, s') /\
    files s' = delete p (files s) /\ sIndex s' = sIndex s /\
    forall ck, ck <> file_ck p f -> lastAccessOf s' ck = lastAccessOf s ck.
Proof.
  intros Hf (_ & Hk & Hp) Hd. unfold evictOne. rewrite Hp, Hf. unfold deletes in Hd. cbn [fst snd] in Hd. apply andb_true_iff in Hd as [Hst ->].
  rewrite Z.eqb_refl.
  assert (Hfresh : (if 0 <? unixOf (modNano f) then if ee_stat env (Key (file_ck p f)) then true else false else true) = true)
    by (destruct (0 <? _), (ee_stat env _); done).
  rewrite Hfresh. cbn [negb].
  eexists; split; [reflexivity|]; unfold noteEvicted, forgetMeta, forgetClean;
     set (key := Key (file_ck p f)); set (s0 := with_files s (delete p (files s)));
     assert (Hi : files (forgetAccess key s0) = delete p (files s) /\ sIndex (forgetAccess key s0) = sIndex s)
       by (unfold forgetAccess, s0; cbn [accessShards with_files]; by destruct (accessShards s));
     destruct Hi as [Hi1 Hi2];
     assert (Hacc : forall ck, ck <> file_ck p f -> lastAccessOf (forgetAccess key s0) ck = lastAccessOf s ck)
       by (intros ck Hne; rewrite forgetAccess_other; [done|]; unfold key, file_ck; by rewrite newCompactKey_Key);
     destruct (extractActionHash key); split_and!; done.
Qed.

(** One whose [Stat] or [Remove] fails stays. *)
Lemma evictOne_spared env (s : Storage) p f :
  files s !! p = Some f -> placed p f -> deletes env (p, f) = false ->
  evictOne env (Key (file_ck p f)) (unixOf (modNano f)) s = (false, s).
Proof.
  intros Hf (_ & Hk & Hp) Hd. unfold evictOne. rewrite Hp, Hf. unfold deletes in Hd. cbn [fst snd] in Hd. rewrite Z.eqb_refl.
  destruct (0 <? _), (ee_stat env _), (ee_remove env _); done.
Qed.

Definition victim (ageCutoff : Z) (s : Storage) (pf : list bytes * file) : evictionVictim :=
  EvictionVictim (file_ck pf.1 pf.2) (file_size pf.2) (unixOf (modNano pf.2))
    ((0 <? ageCutoff) && (lastUsed s pf.1 pf.2 <? ageCutoff)).

Definition count_victim (stats : EvictStats) (v : evictionVictim) : EvictStats :=
  MkEvictStats (Scanned stats)
    (if ev_byAge v then EvictedAge stats + 1 else EvictedAge stats)
    (if ev_byAge v then EvictedSize stats else EvictedSize stats + 1)
    (BytesFreed stats + ev_size v) (BytesTotal stats).

Lemma gone_sub env l pf : pf ∈ gone env l -> pf ∈ l.
Proof. unfold gone. rewrite !list_elem_of_In, List.filter_In. tauto. Qed.

Lemma gone_app env l l' : gone env (l ++ l') = gone env l ++ gone env l'.
Proof. apply List.filter_app. Qed.

Lemma flush_list env age s0 l : forall (s : Storage) stats,
  NoDup l.*1 -> Forall (fun pf => files s !! pf.1 = Some pf.2 /\ placed pf.1 pf.2) l ->
  exists s', foldl (flush_one env) (s, stats) (map (victim age s0) l) = (s', foldl count_victim stats (map (victim age s0) (gone env l))) /\
    files s' = minus (files s) (gone env l).*1 /\ sIndex s' = sIndex s /\
    forall ck, ck ∉ map (fun pf => file_ck pf.1 pf.2) l -> lastAccessOf s' ck = lastAccessOf s ck.
Proof.
  induction l as [|[p f] l IH]; intros s stats Hnd HF; [by exists s|].
  apply Forall_cons in HF as [[Hf Hp] HF]. cbn [fmap list_fmap fst snd] in *. apply NoDup_cons in Hnd as [Hni Hnd].
  cbn [map foldl]. unfold gone. cbn [List.filter]. fold (gone env l).
  assert (Hone : flush_one env (s, stats) (victim age s0 (p, f)) =
    match evictOne env (Key (file_ck p f)) (unixOf (modNano f)) s with
    | (false, s1) => (s1, stats)
    | (true, s1) => (s1, count_victim stats (victim age s0 (p, f)))
    end) by (unfold flush_one; cbn [ev_ck ev_mtimeUnix victim fst snd]; by destruct (evictOne _ _ _ _) as [[]]).
  rewrite Hone. destruct (deletes env (p, f)) eqn:Ed.
  - destruct (evictOne_victim env s p f Hf Hp Ed) as (s1 & -> & Hf1 & Hi1 & Ha1).
    destruct (IH s1 (count_victim stats (victim age s0 (p, f))) Hnd) as (s2 & H2 & Hf2 & Hi2 & Ha2).
    { eapply Forall_forall. intros [q g] Hin. eapply Forall_forall in HF as [Hg Hq]; [|exact Hin]. cbn [fst snd] in *.
      split; [|done]. rewrite Hf1, lookup_delete_ne; [done|]. intros <-. apply Hni. by apply (list_elem_of_fmap_2 fst) in Hin. }
    exists s2. split_and!; [exact H2|by rewrite Hf2, Hf1|congruence|].
    intros ck Hck. apply not_elem_of_cons in Hck as [Hne Hck]. by rewrite Ha2, Ha1.
  - rewrite (evictOne_spared env s p f Hf Hp Ed). destruct (IH s stats Hnd HF) as (s2 & H2 & Hf2 & Hi2 & Ha2).
    exists s2. split_and!; [exact H2|done|done|]. intros ck Hck. apply not_elem_of_cons in Hck as [_ Hck]. by apply Ha2.
Qed.

(** *** The sweep, path by path *)

Section sweep.
Context (env : evictEnv) (cutoff age : Z) (s0 : Storage) (stats0 : EvictStats).
Context (Hpl : all_placed (files s0)).

Definition victims_of (ps : list (list bytes)) : list (list bytes * file) :=
  omap (fun p => match files s0 !! p with
                 | Some f => if lastUsed s0 p f <? cutoff then Some (p, f) else None
                 | None => None
                 end) ps.

Lemma elem_of_victims ps p f :
  (p, f) ∈ victims_of ps <-> p ∈ ps /\ files s0 !! p = Some f /\ lastUsed s0 p f < cutoff.
Proof.
  unfold victims_of. rewrite list_elem_of_omap. split.
  - intros (q & Hq & Hv). destruct (files s0 !! q) as [g|] eqn:E; [|done].
    destruct (Z.ltb_spec (lastUsed s0 q g) cutoff); [|done]. by simplify_eq.
  - intros (Hp & Hf & Hlt). exists p. split; [done|]. rewrite Hf. by destruct (Z.ltb_spec (lastUsed s0 p f) cutoff); [|lia].
Qed.

Lemma victims_nodup ps : NoDup ps -> NoDup (victims_of ps).*1.
Proof.
  induction 1 as [|p ps Hn _ IH]; [apply NoDup_nil_2|]. unfold victims_of in *. cbn [omap list_omap].
  destruct (files s0 !! p) as [f|]; [|done]. destruct (_ <? _); [|done]. cbn [fmap list_fmap fst].
  apply NoDup_cons. split; [|done]. intros ([q g] & -> & Hin)%list_elem_of_fmap. cbn [fst] in Hn.
  apply list_elem_of_omap in Hin as (q' & Hq' & Hv). destruct (files s0 !! q'); [|done].
  destruct (_ <? _); [|done]. by simplify_eq.
Qed.

(** After the paths [done]: some victims were dealt with, the rest wait in the
    batch. *)
Definition sweep_inv (done : list (list bytes)) (st : sweepState) : Prop :=
  exists flushed pend, flushed ++ pend = victims_of done /\ sw_batch st = map (victim age s0) pend /\
    files (sw_s st) = minus (files s0) (gone env flushed).*1 /\
    (forall ck, ck ∉ map (fun pf => file_ck pf.1 pf.2) flushed -> lastAccessOf (sw_s st) ck = lastAccessOf s0 ck) /\
    sw_stats st = foldl count_victim stats0 (map (victim age s0) (gone env flushed)).

Lemma flush_inv done st : NoDup done -> sweep_inv done st -> sweep_inv done (flush env st) /\ sw_batch (flush env st) = [].
Proof.
  intros Hnd (fl & pe & Hv & Hb & Hf & Ha & Hs). unfold flush. destruct (sw_batch st) as [|v b] eqn:Eb.
  { split; [|done]. exists fl, pe. by rewrite Eb. }
  rewrite Hb. clear v b Eb Hb. pose proof (victims_nodup done Hnd) as Hn. rewrite <- Hv, fmap_app in Hn.
  apply NoDup_app in Hn as (Hn1 & Hn2 & Hn3).
  set (s1 := deadvertise env (sw_rounds st) (map (victim age s0) pe) (sw_s st)).
  destruct (flush_list env age s0 pe s1 (sw_stats st) Hn3) as (s2 & H2 & Hf2 & Hi2 & Ha2).
  { eapply Forall_forall. intros [p f] Hin. assert (Hvic : (p, f) ∈ victims_of done) by (rewrite <- Hv; apply elem_of_app; by right).
    apply elem_of_victims in Hvic as (_ & Hpf & _). cbn [fst snd]. split; [|by apply Hpl].
    change (files s1) with (files (sw_s st)). rewrite Hf, lookup_minus, bool_decide_false; [done|].
    intros Hfl. apply (Hn2 p); [|by apply (list_elem_of_fmap_2 fst) in Hin].
    apply list_elem_of_fmap in Hfl as (q & Eq & Hq). rewrite Eq. apply list_elem_of_fmap_2. by eapply gone_sub. }
  rewrite H2. split; [|done]. exists (fl ++ pe), []. cbn [sw_s sw_stats sw_batch map]. split_and!; try done.
  - by rewrite app_nil_r.
  - rewrite Hf2. change (files s1) with (files (sw_s st)). by rewrite Hf, gone_app, fmap_app, minus_app.
  - intros ck Hck. rewrite map_app, elem_of_app in Hck.
    rewrite Ha2 by tauto. change (lastAccessOf s1 ck) with (lastAccessOf (sw_s st) ck). apply Ha. tauto.
  - by rewrite gone_app, map_app, foldl_app, <- Hs.
Qed.

Lemma sweep_step done p st : NoDup (done ++ [p]) -> is_Some (files s0 !! p) -> sweep_inv done st ->
  sweep_inv (done ++ [p]) (visit (sweep_object env cutoff age) sw_s st p).
Proof.
  intros Hnd [f Hpf] Hinv. pose proof Hinv as (fl & pe & Hv & Hb & Hf & Ha & Hs).
  assert (Hnp : p ∉ done) by (apply NoDup_app in Hnd as (_ & Hd & _); intros Hin; apply (Hd p Hin), list_elem_of_here).
  assert (Hfl : forall q g, (q, g) ∈ fl -> q ∈ done /\ files s0 !! q = Some g).
  { intros q g Hin. assert (Hq : (q, g) ∈ victims_of done) by (rewrite <- Hv; apply elem_of_app; by left).
    apply elem_of_victims in Hq. tauto. }
  assert (Hcur : files (sw_s st) !! p = Some f).
  { rewrite Hf, lookup_minus, bool_decide_false; [done|]. intros ([q g] & -> & Hin)%list_elem_of_fmap.
    apply Hnp. apply gone_sub in Hin. by apply (Hfl q g). }
  assert (Hacc : lastAccessOf (sw_s st) (file_ck p f) = lastAccessOf s0 (file_ck p f)).
  { apply Ha. intros ([q g] & Hck & Hin)%list_elem_of_fmap. cbn [fst snd] in Hck. destruct (Hfl q g Hin) as [Hq Hg].
    apply Hnp. rewrite (file_ck_inj p f q g); [done|by apply Hpl|by apply Hpl|done]. }
  unfold visit. rewrite Hcur. cbn [mbind option_bind]. rewrite walkObject_placed by (by apply Hpl).
  unfold sweep_object. cbn [obj_of lo_key lo_size lo_modNano]. fold (file_ck p f). rewrite Hacc.
  fold (obj_of p f). fold (lastUsed s0 p f).
  assert (Hvs : victims_of (done ++ [p]) = victims_of done ++ if lastUsed s0 p f <? cutoff then [(p, f)] else []).
  { unfold victims_of. rewrite omap_app. cbn [omap list_omap]. rewrite Hpf. by destruct (_ <? _). }
  destruct (Z.leb_spec cutoff (lastUsed s0 p f)) as [Hle|Hgt].
  - exists fl, pe. rewrite Hvs. destruct (Z.ltb_spec (lastUsed s0 p f) cutoff); [lia|]. rewrite app_nil_r. done.
  - set (st1 := SweepState _ _ _ _).
    assert (Hst1 : sweep_inv (done ++ [p]) st1).
    { exists fl, (pe ++ [(p, f)]). rewrite Hvs. destruct (Z.ltb_spec (lastUsed s0 p f) cutoff); [|lia].
      split_and!; try done; [by rewrite app_assoc, Hv|]. unfold st1. cbn [sw_batch]. by rewrite Hb, map_app. }
    destruct (evictionBatchSize <=? _); [|done]. by apply flush_inv.
Qed.

Lemma sweep_all ps : forall done st, NoDup (done ++ ps) -> (forall p, p ∈ ps -> is_Some (files s0 !! p)) ->
  sweep_inv done st -> sweep_inv (done ++ ps) (foldl (visit (sweep_object env cutoff age) sw_s) st ps).
Proof.
  induction ps as [|p ps IH]; intros done st Hnd Hps Hinv; cbn [foldl]; [by rewrite app_nil_r|].
  change (p :: ps) with ([p] ++ ps) in *. rewrite app_assoc in *. apply IH; [done| |].
  - intros q Hq. apply Hps, elem_of_app. by right.
  - apply sweep_step; [by apply NoDup_app in Hnd as (? & _)| |done]. apply Hps, list_elem_of_here.
Qed.

Lemma walkOrder_spec (s : Storage) : NoDup (walkOrder s) /\ forall p, p ∈ walkOrder s <-> is_Some (files s !! p).
Proof.
  unfold walkOrder. split; [rewrite sort_slice_perm; apply NoDup_fst_map_to_list|]. intros p.
  rewrite sort_slice_perm, list_elem_of_fmap. split.
  - intros ([q f] & -> & Hin%elem_of_map_to_list). by exists f.
  - intros [f Hf]. exists (p, f). split; [done|]. by apply elem_of_map_to_list.
Qed.

(** The two passes over the tree and the batches are invisible: exactly the
    files below the cutoff that could be deleted are gone. *)
Lemma sweepBelow_spec :
  let st := sweepBelow env cutoff age stats0 s0 in
  let vs := gone env (victims_of (walkOrder s0)) in
  files (sw_s st) = minus (files s0) vs.*1 /\
  sw_stats st = foldl count_victim stats0 (map (victim age s0) vs).
Proof.
  cbv zeta. destruct (walkOrder_spec s0) as [Hnd Hin].
  assert (H0 : sweep_inv [] (SweepState s0 stats0 [] 0)) by (exists [], []; split_and!; done).
  apply (sweep_all (walkOrder s0)) in H0; [|done|intros p; apply Hin]. cbn [app] in H0.
  apply flush_inv in H0 as [H0 Hb]; [|done].
  change (flush env (foldl _ _ _)) with (sweepBelow env cutoff age stats0 s0) in *.
  destruct H0 as (fl & pe & Hv & Hb' & Hf & _ & Hs). rewrite Hb in Hb'.
  destruct pe; [|done]. rewrite app_nil_r in Hv. subst fl. done.
Qed.

End sweep.

(** ** Bytes *)

(** The bytes of a set of files. *)
Definition bytes_of (fs : gmap (list bytes) file) : Z := sumZ (map (fun pf => file_size pf.2) (map_to_list fs)).

(** Every object as (last use, size), in walk order. *)
Definition uses_of (s : Storage) : uses :=
  omap (fun p => (fun f => (lastUsed s p f, file_size f)) <$> files s !! p) (walkOrder s).

Lemma sumZ_perm l l' : l ≡ₚ l' -> sumZ l = sumZ l'.
Proof. induction 1; cbn [sumZ foldr] in *; unfold sumZ in *; lia. Qed.

Lemma weigh_perm P l l' : l ≡ₚ l' -> weigh P l = weigh P l'.
Proof. intros Hp. unfold weigh. apply sumZ_perm. by apply (Permutation_map (fun p => if P p then p.2 else 0)). Qed.

Lemma omap_keys {B} (g : list bytes -> file -> B) (fs : gmap (list bytes) file) :
  omap (fun p => g p <$> fs !! p) (map_to_list fs).*1 = map (fun pf => g pf.1 pf.2) (map_to_list fs).
Proof.
  assert (H : forall l, (forall pf, pf ∈ l -> fs !! pf.1 = Some pf.2) ->
    omap (fun p => g p <$> fs !! p) l.*1 = map (fun pf => g pf.1 pf.2) l).
  { induction l as [|[p f] l IH]; intros Hl; [done|]. cbn [fmap list_fmap fst omap list_omap map].
    assert (Hpf : fs !! p = Some f) by (apply (Hl (p, f)), list_elem_of_here).
    rewrite Hpf. cbn [fmap option_fmap option_map]. f_equal. apply IH. intros pf Hin. apply Hl. by apply list_elem_of_further. }
  apply H. intros [p f] Hin. by apply elem_of_map_to_list in Hin.
Qed.

Lemma uses_perm s : uses_of s ≡ₚ map (fun pf => (lastUsed s pf.1 pf.2, file_size pf.2)) (map_to_list (files s)).
Proof.
  unfold uses_of, walkOrder. rewrite sort_slice_perm.
  by rewrite (omap_keys (fun p f => (lastUsed s p f, file_size f))).
Qed.

Lemma elem_of_uses s u : u ∈ uses_of s <-> exists p f, files s !! p = Some f /\ u = (lastUsed s p f, file_size f).
Proof.
  rewrite uses_perm. rewrite list_elem_of_fmap. split.
  - intros ([p f] & -> & Hin%elem_of_map_to_list). by exists p, f.
  - intros (p & f & Hf & ->). exists (p, f). split; [done|]. by apply elem_of_map_to_list.
Qed.

(** What is kept of a set of files, measured. *)
Lemma bytes_kept (fs fs' : gmap (list bytes) file) (keep : list bytes * file -> bool) :
  (forall p, fs' !! p = match fs !! p with Some f => if keep (p, f) then Some f else None | None => None end) ->
  bytes_of fs' = sumZ (map (fun pf => if keep pf then file_size pf.2 else 0) (map_to_list fs)).
Proof.
  intros Hfs. unfold bytes_of.
  assert (Hfilter : fs' = filter (fun pf => keep pf = true) fs).
  { apply map_eq. intros p. rewrite Hfs, map_lookup_filter. destruct (fs !! p) as [f|]; [|done]. cbn.
    destruct (keep (p, f)) eqn:E; [by rewrite option_guard_True|]. by rewrite option_guard_False by congruence. }
  rewrite Hfilter, map_filter_alt.
  assert (Hl : map_to_list (list_to_map (filter (fun pf => keep pf = true) (map_to_list fs)) : gmap (list bytes) file)
    ≡ₚ filter (fun pf => keep pf = true) (map_to_list fs)).
  { apply map_to_list_to_map. pose proof (NoDup_fst_map_to_list fs) as Hnd. revert Hnd.
    generalize (map_to_list fs) as l. induction l as [|pf l IH]; intros Hnd; [apply NoDup_nil_2|].
    cbn [fmap list_fmap] in Hnd. apply NoDup_cons in Hnd as [Hn Hnd]. rewrite filter_cons. case_decide; [|by apply IH].
    cbn [fmap list_fmap]. apply NoDup_cons. split; [|by apply IH]. intros (q & Hq & Hin)%list_elem_of_fmap.
    apply Hn. rewrite Hq. apply list_elem_of_fmap_2. by apply list_elem_of_filter in Hin as [_ ?]. }
  rewrite (sumZ_perm _ _ (Permutation_map (fun pf => file_size pf.2) Hl)).
  generalize (map_to_list fs) as l. intros l. induction l as [|pf l IH]; [done|].
  rewrite filter_cons. cbn [map sumZ foldr]. unfold sumZ in *. destruct (keep pf) eqn:E.
  - rewrite decide_True by done. cbn [map foldr]. by rewrite IH.
  - rewrite decide_False by congruence. by rewrite IH, Z.add_0_l.
Qed.

(** Weighing the objects last used at or after [c] is measuring those files. *)
Lemma weigh_files (s : Storage) (c : Z) (fs : gmap (list bytes) file) :
  (forall p, fs !! p = match files s !! p with
                       | Some f => if c <=? lastUsed s p f then Some f else None
                       | None => None
                       end) ->
  weigh (fun u => c <=? u.1) (uses_of s) = bytes_of fs.
Proof.
  intros Hfs. rewrite (bytes_kept (files s) fs (fun pf => c <=? lastUsed s pf.1 pf.2)) by exact Hfs.
  rewrite (weigh_perm _ _ _ (uses_perm s)). unfold weigh. by rewrite map_map.
Qed.

Lemma weigh_all s : weigh (fun _ => true) (uses_of s) = bytes_of (files s).
Proof.
  rewrite (weigh_perm _ _ _ (uses_perm s)). unfold bytes_of, weigh. f_equal. by rewrite map_map.
Qed.

(** *** The scan *)

Lemma Walk_placed s : all_placed (files s) ->
  Walk s = omap (fun p => (fun f => obj_of p f) <$> files s !! p) (walkOrder s).
Proof.
  intros Hpl. unfold Walk. generalize (walkOrder s) as ps. induction ps as [|p ps IH]; [done|]. cbn [omap list_omap].
  rewrite IH. destruct (files s !! p) as [f|] eqn:E; [|done]. cbn [mbind option_bind]. by rewrite walkObject_placed by (by apply Hpl).
Qed.

Lemma scan_spec s need :
  all_placed (files s) ->
  let scan := scanForEviction need s in
  sc_totalBytes scan = bytes_of (files s) /\ (need = true -> sc_byBucket scan = hist (uses_of s)).
Proof.
  intros Hpl. cbv zeta. unfold scanForEviction. rewrite Walk_placed by done. rewrite <- weigh_all. unfold hist, uses_of.
  assert (H : forall ps sc, let sc' := foldl (fun scan obj => scan_object need s obj scan) sc
      (omap (fun p => (fun f => obj_of p f) <$> files s !! p) ps) in
    let us := omap (fun p => (fun f => (lastUsed s p f, file_size f)) <$> files s !! p) ps in
    sc_totalBytes sc' = sc_totalBytes sc + weigh (fun _ => true) us /\
    (need = true -> sc_byBucket sc' = foldl (fun m p => bump m (bucket p) p.2) (sc_byBucket sc) us)).
  { induction ps as [|p ps IH]; intros sc; cbv zeta; cbn [omap list_omap]; [cbn; split; [lia|done]|].
    destruct (files s !! p) as [f|] eqn:E; [|apply IH]. cbn [fmap option_fmap option_map foldl].
    destruct (IH (scan_object need s (obj_of p f) sc)) as [H1 H2]. split.
    - rewrite H1, weigh_cons. cbn [scan_object sc_totalBytes obj_of lo_size snd]. lia.
    - intros Hn. rewrite H2 by done. rewrite Hn. done. }
  destruct (H (walkOrder s) (EvictionScan 0 0 ∅ (if accessShards s then Some ∅ else None))) as [H1 H2]. split; [|done].
  rewrite H1. cbn [sc_totalBytes]. lia.
Qed.

(** ** The sweep as a whole *)

Definition cutoffOf (maxAge maxBytes nowUnix : Z) (s : Storage) : Z :=
  Z.max (ageCutoffOf maxAge nowUnix) (sizeCutoff (scanForEviction (0 <? maxBytes) s) maxBytes).

(** The files used at [c] or later. *)
Definition used_since (s : Storage) (c : Z) (p : list bytes) : option file :=
  match files s !! p with
  | Some f => if c <=? lastUsed s p f then Some f else None
  | None => None
  end.

(** The files a sweep at cutoff [c] leaves: these, and those it could not delete. *)
Definition survives (env : evictEnv) (s : Storage) (c : Z) (p : list bytes) : option file :=
  match files s !! p with
  | Some f => if (c <=? lastUsed s p f) || negb (deletes env (p, f)) then Some f else None
  | None => None
  end.

Lemma prune_files live (s : Storage) : files (pruneAccess live s) = files s /\ sIndex (pruneAccess live s) = sIndex s.
Proof. unfold pruneAccess. by destruct (accessShards s). Qed.

(** The state before the closing rebuild. *)
Lemma evict_unfold env maxAge maxBytes nowUnix s :
  exists st s1, Evict env maxAge maxBytes nowUnix s =
      (sw_stats st, if 0 <? EvictedAge (sw_stats st) + EvictedSize (sw_stats st) then rebuildIndex env (sw_rounds st) s1 else s1) /\
    files s1 = files (sw_s st) /\ sIndex s1 = sIndex (sw_s st) /\
    st = (let scan := scanForEviction (0 <? maxBytes) s in
          let stats := MkEvictStats (sc_scanned scan) 0 0 0 (sc_totalBytes scan) in
          let c := cutoffOf maxAge maxBytes nowUnix s in
          if 0 <? c then sweepBelow env c (ageCutoffOf maxAge nowUnix) stats s else SweepState s stats [] 0).
Proof.
  unfold Evict. fold (cutoffOf maxAge maxBytes nowUnix s). eexists _, _. split; [reflexivity|].
  split_and!; [| |reflexivity]; destruct (sc_live _); try done; apply prune_files.
Qed.

Lemma minus_victims env (s : Storage) c p :
  minus (files s) (gone env (victims_of c s (walkOrder s))).*1 !! p = survives env s c p.
Proof.
  rewrite lookup_minus. unfold survives. case_bool_decide as Hin.
  - apply list_elem_of_fmap in Hin as ([q f] & -> & Hin). unfold gone in Hin. rewrite list_elem_of_In, List.filter_In, <- list_elem_of_In in Hin.
    destruct Hin as [Hin Hd]. apply elem_of_victims in Hin as (_ & Hf & Hlt). cbn [fst].
    rewrite Hf, Hd. by destruct (Z.leb_spec c (lastUsed s q f)); [lia|].
  - destruct (files s !! p) as [f|] eqn:Hf; [|done]. destruct (Z.leb_spec c (lastUsed s p f)); [done|].
    destruct (deletes env (p, f)) eqn:Ed; [|done].
    destruct Hin. apply (list_elem_of_fmap_2' fst _ (p, f)); [|done]. unfold gone. rewrite list_elem_of_In, List.filter_In, <- list_elem_of_In.
    split; [|done]. apply elem_of_victims. split_and!; [|done|done]. apply walkOrder_spec. by exists f.
Qed.

(** What the counters say about a list of victims. *)
Lemma count_victims l : forall stats,
  let stats' := foldl count_victim stats l in
  EvictedAge stats' + EvictedSize stats' = EvictedAge stats + EvictedSize stats + Z.of_nat (length l) /\
  BytesFreed stats' = BytesFreed stats + sumZ (map ev_size l) /\
  Scanned stats' = Scanned stats /\ BytesTotal stats' = BytesTotal stats.
Proof.
  induction l as [|v l IH]; intros stats; cbv zeta; cbn [foldl]; [cbn; lia|].
  destruct (IH (count_victim stats v)) as (H1 & H2 & H3 & H4). rewrite H1, H2, H3, H4.
  cbn [count_victim EvictedAge EvictedSize BytesFreed Scanned BytesTotal map length sumZ foldr]. unfold sumZ.
  destruct (ev_byAge v); lia.
Qed.

Lemma victims_bytes env (s : Storage) c age :
  sumZ (map ev_size (map (victim age s) (gone env (victims_of c s (walkOrder s))))) =
  sumZ (map (fun pf => if (c <=? lastUsed s pf.1 pf.2) || negb (deletes env pf) then 0 else file_size pf.2) (map_to_list (files s))).
Proof.
  pose proof (omap_keys (fun p f => if (c <=? lastUsed s p f) || negb (deletes env (p, f)) then 0 else file_size f) (files s)) as Hk.
  assert (Heta : map (fun pf => if (c <=? lastUsed s pf.1 pf.2) || negb (deletes env pf) then 0 else file_size pf.2) (map_to_list (files s)) =
    map (fun pf => if (c <=? lastUsed s pf.1 pf.2) || negb (deletes env (pf.1, pf.2)) then 0 else file_size pf.2) (map_to_list (files s)))
    by (apply List.map_ext; by intros []).
  rewrite Heta, <- Hk. clear Heta. transitivity (sumZ (omap (fun p => (fun f => if (c <=? lastUsed s p f) || negb (deletes env (p, f)) then 0 else file_size f) <$> files s !! p)
    (walkOrder s))); [|apply sumZ_perm; unfold walkOrder; by rewrite sort_slice_perm].
  unfold walkOrder, victims_of. generalize (sort_slice (map_to_list (files s)).*1) as ps. clear Hk. induction ps as [|p ps IH]; [done|]. cbn [omap list_omap].
  destruct (files s !! p) as [f|]; [|done]. cbn [fmap option_fmap option_map]. rewrite Z.leb_antisym. unfold sumZ in *. cbn [foldr].
  destruct (_ <? _); cbn [negb orb]; [|by rewrite Z.add_0_l]. unfold gone in *. cbn [List.filter].
  destruct (deletes env (p, f)); cbn [negb map foldr victim ev_size snd]; [by rewrite IH|by rewrite Z.add_0_l].
Qed.

Lemma bytes_split (fs fs' : gmap (list bytes) file) (keep : list bytes * file -> bool) :
  (forall p, fs' !! p = match fs !! p with Some f => if keep (p, f) then Some f else None | None => None end) ->
  sumZ (map (fun pf => if keep pf then 0 else file_size pf.2) (map_to_list fs)) = bytes_of fs - bytes_of fs'.
Proof.
  intros Hfs. rewrite (bytes_kept fs fs' keep Hfs). unfold bytes_of. generalize (map_to_list fs) as l.
  induction l as [|pf l IH]; [done|]. unfold sumZ in *. cbn [map foldr]. destruct (keep pf); lia.
Qed.

Lemma evict_core env maxAge maxBytes nowUnix s stats s' :
  all_placed (files s) -> (forall p f, files s !! p = Some f -> 0 <= lastUsed s p f) ->
  Evict env maxAge maxBytes nowUnix s = (stats, s') ->
  let c := cutoffOf maxAge maxBytes nowUnix s in
  (forall p, files s' !! p = survives env s c p) /\
  BytesTotal stats = bytes_of (files s) /\ BytesFreed stats = bytes_of (files s) - bytes_of (files s').
Proof.
  intros Hpl Hpos Hev c. destruct (evict_unfold env maxAge maxBytes nowUnix s) as (st & s1 & Heq & Hf1 & Hi1 & Hst).
  rewrite Heq in Hev. injection Hev as <- <-. fold c in Hst. cbv zeta in Hst.
  destruct (scan_spec s (0 <? maxBytes) Hpl) as [Htot _].
  set (scan := scanForEviction (0 <? maxBytes) s) in *. set (stats0 := MkEvictStats _ _ _ _ _) in *.
  assert (Hs' : forall b s2, files (if b : bool then rebuildIndex env (sw_rounds st) s2 else s2) = files s2) by (by intros []).
  rewrite Hs', Hf1. destruct (Z.ltb_spec 0 c) as [Hc|Hc]; subst st.
  - destruct (sweepBelow_spec env c (ageCutoffOf maxAge nowUnix) s stats0 Hpl) as (H1 & H2).
    rewrite H2. destruct (count_victims (map (victim (ageCutoffOf maxAge nowUnix) s) (gone env (victims_of c s (walkOrder s)))) stats0)
      as (C1 & C2 & C3 & C4).
    assert (Hsv : forall p, files (sw_s (sweepBelow env c (ageCutoffOf maxAge nowUnix) stats0 s)) !! p = survives env s c p)
      by (intros p; rewrite H1; apply minus_victims).
    split_and!; [done|by rewrite C4|]. rewrite C2, victims_bytes.
    rewrite (bytes_split (files s) _ (fun pf => (c <=? lastUsed s pf.1 pf.2) || negb (deletes env pf)) Hsv). done.
  - cbn [sw_s sw_stats BytesTotal BytesFreed stats0]. split_and!; [|done|lia].
    intros p. unfold survives. destruct (files s !! p) as [f|] eqn:E; [|done]. specialize (Hpos p f E).
    destruct (Z.leb_spec c (lastUsed s p f)); [done|lia].
Qed.

Lemma weigh_mono P Q l : Forall (fun p => 0 <= p.2) l -> (forall p, p ∈ l -> P p = true -> Q p = true) -> weigh P l <= weigh Q l.
Proof.
  induction 1 as [|p l Hp _ IH]; intros HPQ; [done|]. rewrite !weigh_cons.
  assert (Hl : weigh P l <= weigh Q l) by (apply IH; intros q Hq; apply HPQ; by apply list_elem_of_further).
  specialize (HPQ p (list_elem_of_here _ _)). destruct (P p), (Q p); lia.
Qed.

Lemma uses_nonneg (s : Storage) : (forall p f, files s !! p = Some f -> 0 <= lastUsed s p f) ->
  Forall (fun u => 0 <= u.1 /\ 0 <= u.2) (uses_of s) /\ Forall (fun u => 0 <= u.2) (uses_of s).
Proof.
  intros Hpos. split; (eapply Forall_forall; intros u (p & f & Hf & ->)%elem_of_uses; cbn [fst snd]; unfold file_size).
  - specialize (Hpos p f Hf). lia.
  - lia.
Qed.

(** What the cutoff of a store is worth. *)
Lemma cutoff_worth maxAge maxBytes nowUnix (s : Storage) :
  all_placed (files s) -> (forall p f, files s !! p = Some f -> 0 <= lastUsed s p f) ->
  let c := cutoffOf maxAge maxBytes nowUnix s in
  let age := ageCutoffOf maxAge nowUnix in
  (0 < maxBytes -> weigh (fun u => c <=? u.1) (uses_of s) <= maxBytes) /\
  (Z.max age 0 < c -> 0 < maxBytes < bytes_of (files s) /\
     maxBytes < weigh (fun u => c - evictionBucketSeconds <=? u.1) (uses_of s)).
Proof.
  intros Hpl Hpos c age. destruct (scan_spec s (0 <? maxBytes) Hpl) as [Htot Hhist].
  destruct (uses_nonneg s Hpos) as [Hu Hu2]. unfold c, cutoffOf. fold age.
  destruct (scanForEviction (0 <? maxBytes) s) as [n tot hb live] eqn:Esc. cbn [sc_totalBytes sc_byBucket] in *. subst tot.
  destruct (decide (0 < maxBytes < bytes_of (files s))) as [[Hm Ho]|Hno].
  - rewrite Hhist by (by apply Z.ltb_lt). rewrite <- weigh_all in *.
    pose proof (cutoff_frees (uses_of s) maxBytes n live Hu (conj Hm Ho)) as Hc. cbv zeta in Hc.
    set (sc := sizeCutoff _ _) in *. destruct Hc as (Hc0 & Hc1 & Hc2). split.
    + intros _. etrans; [|exact Hc1]. apply weigh_mono; [done|]. intros u _. rewrite !Z.leb_le. lia.
    + intros Hage. rewrite Z.max_r by lia. done.
  - assert (Hz : sizeCutoff (EvictionScan n (bytes_of (files s)) hb live) maxBytes = 0).
    { unfold sizeCutoff. cbn [sc_totalBytes]. destruct (Z.leb_spec maxBytes 0); [done|].
      destruct (Z.leb_spec (bytes_of (files s)) maxBytes); [done|lia]. }
    rewrite Hz. split; [|lia]. intros Hm. rewrite <- weigh_all in Hno.
    assert (weigh (fun u => Z.max age 0 <=? u.1) (uses_of s) <= weigh (fun _ => true) (uses_of s)); [by apply weigh_mono|lia].
Qed.


(** ** Under concurrent uploads *)

(** One eviction in any state and environment: nothing, or the removal of the
    key's file, whose modification second is the expected one. *)
Lemma evictOne_cases env key m (s : Storage) :
  evictOne env key m s = (false, s) \/
  exists s' f, evictOne env key m s = (true, s') /\ files s' = delete (keyToPath key) (files s) /\ sIndex s' = sIndex s /\
    files s !! keyToPath key = Some f /\ (0 < m -> unixOf (modNano f) = m).
Proof.
  unfold evictOne. set (fresh := if 0 <? m then _ else true). destruct fresh eqn:Ef; cbn [negb]; [|by left].
  destruct (ee_remove env key); cbn [negb]; [|by left]. destruct (files s !! keyToPath key) as [f|] eqn:E; [|by left].
  right. eexists _, f. split; [reflexivity|]. unfold noteEvicted, forgetMeta, forgetClean.
  assert (Hi : forall s0 : Storage, files (forgetAccess key s0) = files s0 /\ sIndex (forgetAccess key s0) = sIndex s0)
    by (intros s0; unfold forgetAccess; by destruct (accessShards s0)).
  destruct (Hi (with_files s (delete (keyToPath key) (files s)))) as [Hi1 Hi2].
  split_and!; [destruct (extractActionHash key); exact Hi1|destruct (extractActionHash key); exact Hi2|done|].
  intros Hm. unfold fresh in Ef. destruct (Z.ltb_spec 0 m); [|lia]. destruct (ee_stat env key); [|done].
  by apply Z.eqb_eq in Ef.
Qed.

(** The path a victim's deletion acts on. *)
Definition victim_path (v : evictionVictim) : list bytes := keyToPath (Key (ev_ck v)).

Lemma flush_one_cases env (s : Storage) stats v :
  (flush_one env (s, stats) v).1 = s \/
  exists f, files (flush_one env (s, stats) v).1 = delete (victim_path v) (files s) /\
    sIndex (flush_one env (s, stats) v).1 = sIndex s /\
    files s !! victim_path v = Some f /\ (0 < ev_mtimeUnix v -> unixOf (modNano f) = ev_mtimeUnix v).
Proof.
  unfold flush_one. destruct (evictOne_cases env (Key (ev_ck v)) (ev_mtimeUnix v) s) as [->|(s' & f & -> & H1 & H2 & H3 & H4)];
    [by left|right]. by exists f.
Qed.

Lemma flush_any env batch : forall (s : Storage) stats,
  let s' := (foldl (flush_one env) (s, stats) batch).1 in
  sIndex s' = sIndex s /\
  forall p, files s' !! p = files s !! p \/
    (files s' !! p = None /\ exists v f, v ∈ batch /\ victim_path v = p /\ files s !! p = Some f /\
       (0 < ev_mtimeUnix v -> unixOf (modNano f) = ev_mtimeUnix v)).
Proof.
  induction batch as [|v batch IH]; intros s stats; cbv zeta; cbn [foldl]; [by split; [|left]|].
  destruct (flush_one env (s, stats) v) as [s1 stats1] eqn:E.
  destruct (IH s1 stats1) as [Hi Hp]. cbv zeta in *.
  pose proof (flush_one_cases env s stats v) as Hc. rewrite E in Hc. cbn [fst] in Hc.
  assert (Hi1 : sIndex s1 = sIndex s) by (by destruct Hc as [->|(f & _ & ? & _)]). split; [congruence|]. intros p.
  assert (Hs1 : files s1 !! p = files s !! p \/ (files s1 !! p = None /\ victim_path v = p /\
    exists f, files s !! p = Some f /\ (0 < ev_mtimeUnix v -> unixOf (modNano f) = ev_mtimeUnix v))).
  { destruct Hc as [->|(f & Hf & _ & Hv & Hm)]; [by left|]. rewrite Hf.
    destruct (decide (victim_path v = p)) as [<-|Hne]; [right|left; by rewrite lookup_delete_ne].
    rewrite lookup_delete_eq. by eauto. }
  destruct (Hp p) as [Hp1|(Hn & v' & f & Hv' & Hvp & Hf & Hm)].
  - destruct Hs1 as [Hs1|(Hn & Hv & f & Hf & Hm)]; [left; congruence|right].
    split; [congruence|]. exists v, f. split_and!; try done. apply list_elem_of_here.
  - right. split; [done|]. destruct Hs1 as [Hs1|(Hn1 & _)]; [|congruence]. exists v', f.
    split_and!; try done; [by apply list_elem_of_further|congruence].
Qed.

(** A flush never deletes what was written after the sweep measured it.
    Whatever happened to the store since the walk and whatever calls fail: every
    file a batch of victims removes is the file of one of them, and its
    modification time is still the second the walk recorded for that victim; every
    other file is untouched. *)
Theorem flush_spares_overwritten env batch (s : Storage) stats p :
  Forall (fun v => 0 < ev_mtimeUnix v) batch ->
  let s' := (foldl (flush_one env) (s, stats) batch).1 in
  files s' !! p = files s !! p \/
  (files s' !! p = None /\ exists v f, v ∈ batch /\ keyToPath (Key (ev_ck v)) = p /\ files s !! p = Some f /\
     unixOf (modNano f) = ev_mtimeUnix v).
Proof.
  intros HF. cbv zeta. destruct (flush_any env batch s stats) as [_ Hp].
  destruct (Hp p) as [?|(Hn & v & f & Hv & Hvp & Hf & Hm)]; [by left|right]. split; [done|]. exists v, f.
  split_and!; try done. apply Hm. by eapply Forall_forall in HF.
Qed.

(** ** The index during a sweep *)

(** Where the object of an action hash lives. *)
Definition cpath (h : bytes) : list bytes := keyToPath (gbciKeyPrefix ++ hex_encode h).

Definition index_ok (oi : option Index) : Prop := forall idx, oi = Some idx -> exists base, idx_inv base idx.

(** Every advertised hash has its object on disk. *)
Definition adv_sound (fs : gmap (list bytes) file) (oi : option Index) : Prop :=
  forall idx h, oi = Some idx -> advertised idx h -> is_Some (fs !! cpath h).

(** The victim was read off a file that lies where its key leads. *)
Definition from_file (v : evictionVictim) : Prop := exists p f, placed p f /\ ev_ck v = file_ck p f.

Lemma advertised_hash base idx h : idx_inv base idx -> advertised idx h -> is_hash h.
Proof.
  intros (_ & H1 & H2 & _) [Hh|Hh]; [by eapply Forall_forall in H1|by eapply Forall_forall in H2].
Qed.

(** A file at a hash's path has that hash for its compact key. *)
Lemma cpath_ck p f h : is_hash h -> p = cpath h -> file_ck p f = CompactKey h [].
Proof.
  intros Hh ->. unfold file_ck, file_key, cpath. rewrite cacheprog_back by done. by apply newCompactKey_hash.
Qed.

Lemma victim_hash batch v h : is_hash h -> v ∈ batch -> from_file v -> victim_path v = cpath h ->
  h ∈ victim_hashes (map (fun v => Key (ev_ck v)) batch).
Proof.
  intros Hh Hin (p & f & Hpl & Hck) Hp. unfold victim_path in Hp. rewrite Hck in Hp.
  pose proof Hpl as (_ & _ & Hp'). rewrite Hp' in Hp. rewrite (cpath_ck p f h Hh Hp) in Hck.
  unfold victim_hashes. apply list_elem_of_In, in_flat_map. exists (gbciKeyPrefix ++ hex_encode h). split.
  - apply in_map_iff. exists v. split; [by rewrite Hck|by apply list_elem_of_In].
  - rewrite newCompactKey_hash by done. unfold actionHash. cbn [ck_raw]. rewrite bool_decide_true by done. by left.
Qed.

(** De-advertising a batch first: however many of its files are already gone,
    what the index still advertises is on disk. *)
Lemma deadvertise_sound env round batch (s : Storage) fs :
  index_ok (sIndex s) -> adv_sound (files s) (sIndex s) -> Forall from_file batch ->
  (forall p, fs !! p = files s !! p \/ exists v, v ∈ batch /\ victim_path v = p) ->
  index_ok (sIndex (deadvertise env round batch s)) /\ adv_sound fs (sIndex (deadvertise env round batch s)).
Proof.
  intros Hok Hs Hb Hfs. unfold deadvertise. set (keys := map _ batch). cbn [sIndex with_index].
  destruct (sIndex s) as [idx|] eqn:E; [|by split].
  destruct (Hok idx eq_refl) as [base Hbase]. cbn [fmap option_fmap option_map]. split.
  - intros idx' [= <-]. destruct (remove_keys_evolves base idx (ee_epoch env round) keys Hbase) as (base' & Hb' & _). by exists base'.
  - intros idx' h [= <-] Hadv.
    apply (advertised_step (St := St) base idx (IRemoveKeys (ee_epoch env round) keys)) in Hadv as [Hn Hadv]; [|done].
    pose proof (advertised_hash _ _ _ Hbase Hadv) as Hh. destruct (Hfs (cpath h)) as [->|(v & Hv & Hvp)]; [by eapply Hs|].
    destruct Hn. eapply victim_hash; try done. by eapply Forall_forall in Hb.
Qed.

(** A sweep never advertises what it has deleted.  After a batch is taken
    out of the index, at every point while its files are deleted one by one, and
    whatever deletions fail or find fresh files, every hash the index advertises
    has its object on disk. *)
Theorem flush_never_advertises_deleted env round batch (s : Storage) stats n :
  index_ok (sIndex s) -> adv_sound (files s) (sIndex s) -> Forall from_file batch ->
  let s' := (foldl (flush_one env) (deadvertise env round batch s, stats) (take n batch)).1 in
  adv_sound (files s') (sIndex s').
Proof.
  intros Hok Hs Hb. cbv zeta. destruct (flush_any env (take n batch) (deadvertise env round batch s) stats) as [Hi Hp].
  cbv zeta in Hi, Hp. rewrite Hi. apply deadvertise_sound; try done. intros p.
  destruct (Hp p) as [Heq|(_ & v & f & Hv & Hvp & _)]; [left; exact Heq|right]. exists v. split; [|done].
  apply list_elem_of_lookup in Hv as [i Hv]. apply lookup_take_Some in Hv as [Hv _]. by eapply list_elem_of_lookup_2.
Qed.

(** ** Uploads, deletions and sweeps together *)

Definition store_inv (s : Storage) : Prop :=
  all_placed (files s) /\ index_ok (sIndex s) /\ adv_sound (files s) (sIndex s).

Lemma all_placed_sub fs fs' : (forall p, fs' !! p = fs !! p \/ fs' !! p = None) -> all_placed fs -> all_placed fs'.
Proof. intros Hsub Hpl p f Hf. destruct (Hsub p) as [He|He]; rewrite He in Hf; [by apply Hpl|done]. Qed.

(** The sweep in any environment. *)
Definition sweep_sound (s0 : Storage) (st : sweepState) : Prop :=
  (forall p, files (sw_s st) !! p = files s0 !! p \/ files (sw_s st) !! p = None) /\
  Forall from_file (sw_batch st) /\ index_ok (sIndex (sw_s st)) /\ adv_sound (files (sw_s st)) (sIndex (sw_s st)).

Lemma flush_sound env s0 st : sweep_sound s0 st -> sweep_sound s0 (flush env st).
Proof.
  intros (Hsub & Hb & Hok & Hs). unfold flush. destruct (sw_batch st) as [|v b] eqn:Eb; [split_and!; try done; by rewrite Eb|].
  set (batch := v :: b) in *. set (s1 := deadvertise env (sw_rounds st) batch (sw_s st)).
  destruct (flush_any env batch s1 (sw_stats st)) as [Hi Hp]. cbv zeta in Hi, Hp.
  destruct (foldl (flush_one env) (s1, sw_stats st) batch) as [s2 stats2]. cbn [fst] in *.
  destruct (deadvertise_sound env (sw_rounds st) batch (sw_s st) (files s2) Hok Hs Hb) as [H1 H2].
  { intros p. destruct (Hp p) as [Heq|(_ & w & f & Hw & Hwp & _)]; [by left|right; by exists w]. }
  fold s1 in H1, H2. split_and!; cbn [sw_s sw_batch]; [|constructor|by rewrite Hi|by rewrite Hi].
  intros p. destruct (Hp p) as [Heq|[Hn _]]; [|by right]. rewrite Heq. apply (Hsub p).
Qed.

Lemma sweep_keeps_sound env c age stats s : store_inv s -> sweep_sound s (sweepBelow env c age stats s).
Proof.
  intros (Hpl & Hok & Hs). unfold sweepBelow, walk_with. apply flush_sound. cbn [sw_s].
  assert (H0 : sweep_sound s (SweepState s stats [] 0)) by (split_and!; try done; by left).
  revert H0. generalize (SweepState s stats [] 0) as st. generalize (walkOrder s) as ps.
  induction ps as [|p ps IH]; intros st Hst; cbn [foldl]; [done|]. apply IH.
  unfold visit. destruct (files (sw_s st) !! p) as [f|] eqn:Ef; [|done]. cbn [mbind option_bind].
  pose proof Hst as (Hsub & Hb & Hok' & Hs'). assert (Hpf : placed p f).
  { apply Hpl. destruct (Hsub p) as [He|He]; congruence. }
  rewrite walkObject_placed by done. unfold sweep_object. destruct (_ <=? _); [done|].
  set (st1 := SweepState _ _ _ _).
  assert (Hst1 : sweep_sound s st1).
  { split_and!; try done. apply Forall_app. split; [done|]. constructor; [|constructor]. by exists p, f. }
  destruct (evictionBatchSize <=? _); [by apply flush_sound|done].
Qed.

Lemma rebuild_sound env round s : store_inv s -> store_inv (rebuildIndex env round s).
Proof.
  intros (Hpl & Hok & Hs). split; [done|]. unfold rebuildIndex. cbn [sIndex with_index files].
  destruct (sIndex s) as [idx|] eqn:E; [|by split]. destruct (Hok idx eq_refl) as [base Hbase]. cbn [fmap option_fmap option_map].
  set (objs := map _ (Walk s)). split.
  - intros idx' [= <-]. destruct (rebuild_evolves base idx (ee_epoch env round) (Some objs) Hbase) as (b' & Hb' & _). by exists b'.
  - intros idx' h [= <-] Hadv.
    apply (advertised_step (St := St) base idx (IRebuild (ee_epoch env round) (Some objs))) in Hadv; [|done].
    destruct Hadv as [Hw|Hp]; [|eapply Hs; [done|by right]].
    unfold walk_hashes, victim_hashes in Hw. apply list_elem_of_In, in_flat_map in Hw as (k & Hk & Hh).
    unfold objs in Hk. rewrite map_map in Hk. cbn [fst] in Hk. apply in_map_iff in Hk as (o & <- & Ho).
    rewrite Walk_placed in Ho by done. apply list_elem_of_In, list_elem_of_omap in Ho as (p & _ & Ho).
    destruct (files s !! p) as [f|] eqn:Ef; [|done]. cbn [fmap option_fmap option_map] in Ho. injection Ho as <-.
    cbn [obj_of lo_key] in Hh. pose proof (Hpl p f Ef) as (_ & Hne & Hp). unfold file_ck in Hp.
    rewrite actionHash_newCompactKey in Hh by done. destruct (extractActionHash (file_key p f)) as [h'|] eqn:Ex; [|done].
    destruct Hh as [<-|[]]. assert (Hck : newCompactKey (file_key p f) = CompactKey h' []) by (unfold newCompactKey; by rewrite Ex).
    rewrite Hck in Hp. unfold cpath. change (Key (CompactKey h' [])) with (gbciKeyPrefix ++ hex_encode h') in Hp. rewrite Hp. by exists f.
Qed.

Lemma evict_sound env maxAge maxBytes nowUnix s : store_inv s -> store_inv (Evict env maxAge maxBytes nowUnix s).2.
Proof.
  intros Hinv. destruct (evict_unfold env maxAge maxBytes nowUnix s) as (st & s1 & -> & Hf & Hi & Hst). cbn [snd].
  assert (Hs1 : store_inv s1).
  { unfold store_inv. rewrite Hf, Hi. cbv zeta in Hst. set (c := cutoffOf _ _ _ _) in Hst. destruct (0 <? c); subst st; [|exact Hinv].
    pose proof (sweep_keeps_sound env c (ageCutoffOf maxAge nowUnix)
      (MkEvictStats (sc_scanned (scanForEviction (0 <? maxBytes) s)) 0 0 0 (sc_totalBytes (scanForEviction (0 <? maxBytes) s))) s Hinv)
      as (Hsub & _ & H1 & H2). split_and!; try done. eapply all_placed_sub; [exact Hsub|]. apply Hinv. }
  clear Hst. destruct (0 <? EvictedAge (sw_stats st) + EvictedSize (sw_stats st)); [by apply rebuild_sound|done].
Qed.

Section store_ops.
Context `{!XattrOps F} `{!MapRange} `{!Decoders}.

(** Everything that happens to a store: requests, and sweeps. *)
Inductive storeOp :=
  | OStore (o : @stOp F)
  | OSweep (env : evictEnv) (maxAge maxBytes nowUnix : Z).

Definition run_store (s : Storage) (o : storeOp) : Storage :=
  match o with
  | OStore o => run_op s o
  | OSweep env maxAge maxBytes nowUnix => (Evict env maxAge maxBytes nowUnix s).2
  end.

(** The operation is on a key of the build cache, if on a key at all. *)
Definition build_cache_op (o : storeOp) : Prop :=
  match o with
  | OStore o => forall k, op_key o = Some k -> exists h, is_hash h /\ k = gbciKeyPrefix ++ hex_encode h
  | OSweep _ _ _ _ => True
  end.

Lemma placed_cpath h f : is_hash h -> placed (cpath h) f.
Proof.
  intros Hh. split_and!.
  - apply scomp_not_reserved. pose proof (keyToPath_scomp (gbciKeyPrefix ++ hex_encode h)) as Hs.
    unfold cpath. rewrite cacheprog_path in * by done. cbn [last default]. by do 3 apply Forall_cons in Hs as [_ Hs]; apply Forall_cons in Hs as [? _].
  - unfold file_key, cpath. by rewrite cacheprog_back.
  - unfold file_ck, file_key, cpath. rewrite cacheprog_back by done. by rewrite newCompactKey_hash.
Qed.

Lemma cpath_inj h h' : is_hash h -> is_hash h' -> cpath h = cpath h' -> h = h'.
Proof.
  intros Hh Hh' Heq. pose proof (cacheprog_back None h Hh) as H1. unfold cpath in Heq. rewrite Heq, cacheprog_back in H1 by done.
  apply (f_equal extractActionHash) in H1. rewrite !extractActionHash_key in H1 by done. congruence.
Qed.

(** Replacing or adding the file of a hash. *)
Lemma all_placed_insert fs h f : is_hash h -> all_placed fs -> all_placed (<[cpath h := f]> fs).
Proof.
  intros Hh Hpl p g Hg. destruct (decide (p = cpath h)) as [->|Hne]; [by apply placed_cpath|].
  rewrite lookup_insert_ne in Hg by done. by apply Hpl.
Qed.

Lemma adv_sound_insert fs oi p f : adv_sound fs oi -> adv_sound (<[p := f]> fs) oi.
Proof.
  intros Hs idx h Hi Ha. destruct (decide (cpath h = p)) as [->|Hne]; [by rewrite lookup_insert_eq; eexists|].
  rewrite lookup_insert_ne by done. by eapply Hs.
Qed.

Lemma action_of_key h : is_hash h -> actionHash (newCompactKey (gbciKeyPrefix ++ hex_encode h)) = (h, true).
Proof. intros Hh. rewrite newCompactKey_hash by done. unfold actionHash. cbn [ck_raw]. by rewrite bool_decide_true. Qed.

(** Taking a key out of the index, with or without its file. *)
Lemma remove_index_sound fs fs' oi e h :
  is_hash h -> (forall p, fs' !! p = fs !! p \/ p = cpath h) ->
  index_ok oi -> adv_sound fs oi ->
  index_ok (Index.Remove e (gbciKeyPrefix ++ hex_encode h) <$> oi) /\
  adv_sound fs' (Index.Remove e (gbciKeyPrefix ++ hex_encode h) <$> oi).
Proof.
  intros Hh Hfs Hok Hs. destruct oi as [idx|]; [|by split]. destruct (Hok idx eq_refl) as [base Hb].
  cbn [fmap option_fmap option_map]. split.
  - intros idx' [= <-]. destruct (remove_evolves base idx e (gbciKeyPrefix ++ hex_encode h) Hb) as (b' & Hb' & _). by exists b'.
  - intros idx' h' [= <-] Hadv.
    apply (advertised_step (St := St) base idx (IRemove e (gbciKeyPrefix ++ hex_encode h))) in Hadv as [Hn Hadv]; [|done].
    rewrite action_of_key in Hn by done. pose proof (advertised_hash _ _ _ Hb Hadv) as Hh'.
    destruct (Hfs (cpath h')) as [->|Hc]; [by eapply Hs|]. destruct Hn. by rewrite (cpath_inj h' h).
Qed.

Lemma put_index_sound fs oi now e h f :
  is_hash h -> index_ok oi -> adv_sound fs oi ->
  index_ok (Index.Put now e (gbciKeyPrefix ++ hex_encode h) <$> oi) /\
  adv_sound (<[cpath h := f]> fs) (Index.Put now e (gbciKeyPrefix ++ hex_encode h) <$> oi).
Proof.
  intros Hh Hok Hs. destruct oi as [idx|]; [|by split]. destruct (Hok idx eq_refl) as [base Hb].
  cbn [fmap option_fmap option_map]. split.
  - intros idx' [= <-]. destruct (put_evolves base idx now e (gbciKeyPrefix ++ hex_encode h) Hb) as (b' & Hb' & _). by exists b'.
  - intros idx' h' [= <-] Hadv.
    apply (advertised_step (St := St) base idx (IPut now e (gbciKeyPrefix ++ hex_encode h))) in Hadv; [|done].
    cbn [advertise_spec] in Hadv. rewrite action_of_key in Hadv by done. destruct Hadv as [[= <-]|Hadv].
    + rewrite lookup_insert_eq. by eexists.
    + by apply (adv_sound_insert fs (Some idx) (cpath h) f Hs idx h').
Qed.

Lemma frame_inv (s s' : Storage) : files s' = files s -> sIndex s' = sIndex s -> store_inv s -> store_inv s'.
Proof. unfold store_inv. by intros -> ->. Qed.

Lemma set_attrs_inv (s s' : Storage) h f a :
  is_hash h -> files s !! cpath h = Some f -> files s' = <[cpath h := set_attrs f a]> (files s) -> sIndex s' = sIndex s ->
  store_inv s -> store_inv s'.
Proof.
  intros Hh Hf Hfs Hi (Hpl & Hok & Hs). unfold store_inv. rewrite Hfs, Hi. split_and!; [by apply all_placed_insert|done|].
  by apply adv_sound_insert.
Qed.

Lemma heal_inv env h m given (s : Storage) :
  is_hash h -> (given = None \/ given = files s !! cpath h) -> store_inv s ->
  store_inv (ensureOutputID env (gbciKeyPrefix ++ hex_encode h) m given s).2.
Proof.
  intros Hh Hg Hinv. unfold ensureOutputID. destruct (negb _); [done|]. rewrite extractActionHash_key by done.
  destruct (reconstructOutputID env _ given s) as [r s1] eqn:Er. fold (cpath h) in *.
  assert (Hs1 : store_inv s1).
  { apply reconstruct_result in Er as [[-> _]|(f & st & cd & a & err & Hf & _ & _ & _ & _ & _ & Hs1)]; [done| |done].
    destruct err; destruct Hs1 as [_ ->]; by eapply (set_attrs_inv s _ h f a). }
  destruct r; cbn [snd]; [done|]. destruct Hs1 as (Hpl & Hok & Hs). unfold store_inv. cbn [files sIndex with_index].
  split; [done|]. apply (remove_index_sound (files s1)); try done. by left.
Qed.

Lemma run_store_inv s o : build_cache_op o -> store_inv s -> store_inv (run_store s o).
Proof.
  intros Hbc Hinv. destruct o as [o|env maxAge maxBytes nowUnix]; [|by apply evict_sound].
  pose proof Hinv as (Hpl & Hok & Hs).
  destruct o; cbn [run_store run_op build_cache_op op_key] in *;
    try (destruct (Hbc _ eq_refl) as (h & Hh & ->)); fold (cpath h) in *.
  - case_bool_decide as Ht; [|done]. destruct (PutStream env _ r m au s) as [e s'] eqn:E. cbn [snd].
    apply PutStream_result in E as [[-> _]|(_ & _ & _ & a & _ & ->)]; [done| |done].
    unfold store_inv, put_state, forgetEvicted, forgetMeta, forgetClean. rewrite extractActionHash_key by done.
    cbn [files sIndex with_files with_index with_evicted with_meta with_clean]. fold (cpath h).
    split; [by apply all_placed_insert|]. by apply put_index_sound.
  - unfold Get. destruct (negb _); [done|]. fold (cpath h). destruct (files s !! cpath h) as [f|] eqn:Ef; [|done].
    destruct (negb _); [done|]. destruct (loadMetadata _ f s) as [md s1] eqn:El.
    apply loadMetadata_frame in El as [E1 E2]. destruct (recordAccess_frame now (gbciKeyPrefix ++ hex_encode h) s1) as [E3 E4].
    eapply frame_inv; [| |exact Hinv]; cbn [snd]; congruence.
  - unfold Stat. destruct (negb _); [done|]. fold (cpath h). destruct (files s !! cpath h) as [f|] eqn:Ef; [|done].
    destruct (loadMetadata _ f s) as [md s1] eqn:El. apply loadMetadata_frame in El as [E1 E2]. by eapply frame_inv.
  - unfold Open. destruct (negb _); [done|]. fold (cpath h). destruct (files s !! cpath h) as [f|] eqn:Ef; [|done].
    destruct (negb _); [done|]. destruct (loadMetadata _ f s) as [md s1] eqn:El.
    apply loadMetadata_frame in El as [E1 E2]. destruct (recordAccess_frame now (gbciKeyPrefix ++ hex_encode h) s1) as [E3 E4].
    eapply frame_inv; [| |exact Hinv]; cbn [snd]; congruence.
  - unfold OpenBody. destruct (negb _); [done|]. fold (cpath h). destruct (files s !! cpath h) as [f|] eqn:Ef; [|done].
    destruct (negb _); [done|]. destruct (recordAccess_frame now (gbciKeyPrefix ++ hex_encode h) s) as [E3 E4].
    by eapply frame_inv.
  - unfold SetMeta. destruct (negb _); [done|]. fold (cpath h). destruct (files s !! cpath h) as [f|] eqn:Ef; [|done].
    destruct (setMetadata (fattrs f) kv) as [a err]. by eapply (set_attrs_inv s _ h f a).
  - unfold Delete. destruct (negb _); [done|]. fold (cpath h). destruct (files s !! cpath h) as [f|] eqn:Ef; [|done].
    cbn [snd]. unfold store_inv, forgetMeta, forgetClean. rewrite extractActionHash_key by done.
    cbn [files sIndex with_clean with_meta]. rewrite forgetAccess_files, forgetAccess_index. cbn [files sIndex with_files with_index].
    split.
    + eapply all_placed_sub; [|exact Hpl]. intros p. destruct (decide (p = cpath h)) as [->|Hne].
      * right. apply lookup_delete_eq.
      * left. by rewrite lookup_delete_ne.
    + apply (remove_index_sound (files s)); try done. intros p. destruct (decide (p = cpath h)) as [->|Hne]; [by right|left].
      by rewrite lookup_delete_ne.
  - apply heal_inv; [done| |done]. destruct withFd; [by right|by left].
  - destruct (files s !! cpath h) as [f|]; [|done]. unfold verifyStoredDigestFor.
    destruct (extractActionHash _), (digestOK s); try done. destruct (known && _); [|done].
    destruct (c_get _ _) as [r d1]. case_bool_decide; [done|]. by destruct (verifyStoredDigest readable f m) as [[]|].
  - unfold keyKnownClean. destruct (cleanKeys s); [|done]. by destruct (c_get _ _).
  - done.
  - unfold wasEvicted. destruct (extractActionHash _), (evicted s); try done. by destruct (c_get _ _).
Qed.

(** C2. What the server advertises, it has.  Start from an empty data directory
    and a fresh index, and run any sequence of uploads, reads, metadata updates,
    deletions, repairs and eviction sweeps on build-cache keys, with any system
    calls failing: every hash the index answers for has its object on disk at
    its path, and reading that key does not report a missing object. *)
Theorem advertised_is_stored (s0 : Storage) entriesDefault e0 e ops h :
  files s0 = ∅ -> sIndex s0 = Some (Index.NewIndex entriesDefault e0 e (Some [])) ->
  Forall build_cache_op ops ->
  let s := foldl run_store s0 ops in
  forall idx, sIndex s = Some idx -> Index.Contains idx h = true ->
    exists f, files s !! keyToPath (gbciKeyPrefix ++ hex_encode h) = Some f /\
      openRaw (ReadEnv true true) (gbciKeyPrefix ++ hex_encode h) s = inl f.
Proof.
  intros Hf Hi Hops s idx Hidx Hc.
  assert (Hinv : store_inv s).
  { assert (Hstart : store_inv s0).
    { split_and!.
      - rewrite Hf. intros p f. by rewrite lookup_empty.
      - intros i Hi'. assert (i = Index.NewIndex entriesDefault e0 e (Some [])) as -> by congruence. apply new_index_inv.
      - intros i h' Hi' Ha. assert (i = Index.NewIndex entriesDefault e0 e (Some [])) as -> by congruence.
        destruct Ha as [Ha|Ha]; by apply not_elem_of_nil in Ha. }
    unfold s. clear -Hops Hstart. revert s0 Hstart. induction Hops as [|o ops Ho _ IH]; intros s0 Hstart; [done|]. cbn [foldl].
    apply IH. by apply run_store_inv. }
  destruct Hinv as (_ & Hok & Hs). destruct (Hok idx Hidx) as [base Hb].
  apply (contains_advertised base) in Hc; [|done]. destruct (Hs idx h Hidx Hc) as [f Hff]. exists f.
  split; [exact Hff|]. unfold openRaw. cbn [re_open negb]. fold (cpath h). by rewrite Hff.
Qed.

End store_ops.
End eviction.

(** ** A concrete sweep *)

Definition one_hash : bytes := replicate gbciHashSize 17.
Definition otherKey : bytes := gbciKeyPrefix ++ hex_encode one_hash.

Lemma one_hash_ok : is_hash one_hash.
Proof. split; [done|]. repeat constructor; discriminate. Qed.

Lemma zero_hash_ok : is_hash zero_hash.
Proof. split; [done|]. repeat constructor; discriminate. Qed.

Definition sweepOk : evictEnv := EvictEnv (fun _ => true) (fun _ => true) (fun n => 100 + Z.of_nat n).

Lemma sweepOk_ok (pf : list bytes * @file room_file) : deletes sweepOk pf = true.
Proof. done. Qed.

(** An old object and a newer one. *)
Definition twoOps : list (@storeOp room_file) :=
  [OStore (SPut (okEnv 1000 5) demoKey demoBody demoMeta None);
   OStore (SPut (okEnv 90000 6) otherKey (str "newer body") demoMeta None)].

Definition twoObjects : DemoStorage := foldl (run_store (St := gset compactKey)) (demoStore noWriteOnce) twoOps.

Lemma twoOps_ok : Forall build_cache_op twoOps.
Proof.
  repeat constructor; intros k [= <-]; [exists zero_hash; split; [apply zero_hash_ok|reflexivity]
                                       |exists one_hash; split; [apply one_hash_ok|reflexivity]].
Qed.

Lemma two_inv : store_inv twoObjects.
Proof.
  assert (Hstart : store_inv (demoStore noWriteOnce)).
  { split_and!.
    - intros p f Hf. unfold demoStore in Hf. cbn [files] in Hf. by rewrite lookup_empty in Hf.
    - intros i Hi. assert (i = Index.NewIndex true 7 8 (Some [])) as -> by (by injection Hi). apply new_index_inv.
    - intros i h Hi Ha. assert (i = Index.NewIndex true 7 8 (Some [])) as -> by (by injection Hi).
      destruct Ha as [Ha|Ha]; by apply not_elem_of_nil in Ha. }
  unfold twoObjects. pose proof twoOps_ok as Hops. revert Hstart. generalize (demoStore noWriteOnce) as s.
  induction Hops as [|o ops Ho _ IH]; intros s Hs; [done|]. cbn [foldl]. apply IH. by apply run_store_inv.
Qed.

(** A bounded check over the files of a store. *)
Lemma files_forallb (s : DemoStorage) (P : list bytes -> @file room_file -> bool) :
  forallb (fun pf => P pf.1 pf.2) (map_to_list (files s)) = true -> forall p f, files s !! p = Some f -> P p f = true.
Proof.
  rewrite List.forallb_forall. intros Hall p f Hf. apply (Hall (p, f)). by apply list_elem_of_In, elem_of_map_to_list.
Qed.

Lemma two_used p f : files twoObjects !! p = Some f -> 0 <= lastUsed twoObjects p f.
Proof.
  intros Hf. apply Z.leb_le. revert p f Hf. apply files_forallb. vm_compute. reflexivity.
Qed.

Lemma old_mtime : (fun f => unixOf (modNano f)) <$> files twoObjects !! cpath zero_hash = Some 1000.
Proof. vm_compute. reflexivity. Qed.

Definition demoSweep : EvictStats * DemoStorage := Evict (St := gset compactKey) sweepOk 0 15 100000 twoObjects.


Definition oldVictim : evictionVictim := EvictionVictim (newCompactKey demoKey) 16 999 false.

(** The victim was measured at second 999 and written at second 1000. *)
Lemma flush_spares_overwritten_witness :
  files (foldl (flush_one sweepOk) (twoObjects, MkEvictStats 0 0 0 0 0) [oldVictim]).1 !! cpath zero_hash =
  files twoObjects !! cpath zero_hash.
Proof.
  destruct (flush_spares_overwritten sweepOk [oldVictim] twoObjects (MkEvictStats 0 0 0 0 0) (cpath zero_hash))
    as [H|(_ & v & f & Hv & _ & Hf & Hm)].
  - repeat constructor.
  - exact H.
  - exfalso. apply list_elem_of_singleton in Hv as ->. pose proof old_mtime as Hold.
    rewrite Hf in Hold. cbn [fmap option_fmap option_map] in Hold. rewrite Hm in Hold. discriminate Hold.
Defined.

Definition anyFile : @file room_file := File [] 0 None 0 (RoomFile 0 None) None.

Lemma flush_never_advertises_deleted_witness :
  let batch := [EvictionVictim (newCompactKey demoKey) 16 1000 false] in
  let s' := (foldl (flush_one sweepOk) (deadvertise (St := gset compactKey) sweepOk 0 batch twoObjects, MkEvictStats 0 0 0 0 0)
               (take 1 batch)).1 in
  adv_sound (files s') (sIndex s').
Proof.
  cbv zeta. destruct two_inv as (Hpl & Hok & Hs).
  apply (flush_never_advertises_deleted sweepOk 0 [EvictionVictim (newCompactKey demoKey) 16 1000 false] twoObjects
    (MkEvictStats 0 0 0 0 0) 1 Hok Hs).
  constructor; [|constructor]. exists (cpath zero_hash), anyFile. split; [apply placed_cpath, zero_hash_ok|].
  rewrite (cpath_ck (cpath zero_hash) anyFile zero_hash zero_hash_ok eq_refl). vm_compute. reflexivity.
Defined.

Lemma two_index : bool_decide (is_Some (sIndex twoObjects)) = true /\
  (fun i => Index.Contains i one_hash) <$> sIndex twoObjects = Some true.
Proof. split; vm_compute; reflexivity. Qed.

Lemma advertised_is_stored_witness :
  exists f, files twoObjects !! keyToPath (gbciKeyPrefix ++ hex_encode one_hash) = Some f.
Proof.
  destruct two_index as [Hs Hc]. destruct (sIndex twoObjects) as [idx|] eqn:Ei; [|discriminate Hs].
  destruct (advertised_is_stored (St := gset compactKey) (demoStore noWriteOnce) true 7 8 twoOps one_hash eq_refl eq_refl
    twoOps_ok idx Ei) as (f & Hf & _).
  - cbn [fmap option_fmap option_map] in Hc. injection Hc as Hc. exact Hc.
  - exists f. exact Hf.
Defined.
