(* ===== verification/Bandwidth.v ===== *)
(** * Served-byte accounting

    [bandwidth.go]: a ring of one-second buckets ([bandwidthStore]) that every
    response is recorded into, and the window the dashboard's chart reads out.
    The store's clock is an argument: [record] and [window] take the unix second
    they read.  A method on a nil store is the [None] case.  Counters are int64. *)

From Stdlib Require Import ZArith Lia List Bool String.
From stdpp Require Import base gmap list sorting.
From S2P Require Import Prelude SortedSlice GoSet.

Definition bandwidthBucketSeconds : Z := 1.
Definition bandwidthBucketCount : nat := 300.
Definition bandwidthRetentionSeconds : Z := bandwidthBucketSeconds * Z.of_nat bandwidthBucketCount.
Definition bandwidthModuleCap : nat := 32.
Definition bandwidthOtherModule : bytes := str "(other)".
Definition bandwidthUnknownModule : bytes := str "(unknown)".

Record bandwidthSample := BandwidthSample { bs_index : bool; bs_module : bytes; bs_bytes : Z }.

Record bandwidthBucket := BandwidthBucket { bb_start : Z; bb_index : Z; bb_modules : gmap bytes Z }.

Record bandwidthPoint := BandwidthPoint { pt_Start : Z; pt_Total : Z; pt_Index : Z; pt_Modules : gmap bytes Z }.

Record bandwidthWindow := BandwidthWindow {
  bw_BucketSeconds : Z; bw_RetentionSeconds : Z; bw_Bands : list bytes; bw_Points : list bandwidthPoint
}.

Abbreviation bandwidthStore := (list bandwidthBucket).

Definition zeroBucket : bandwidthBucket := BandwidthBucket 0 0 ∅.

Definition newBandwidthStore : bandwidthStore := replicate bandwidthBucketCount zeroBucket.

(** Go's [%] truncates towards zero. *)
Definition bandwidthSlot (unixSecond : Z) : nat :=
  let slot := Z.rem unixSecond (Z.of_nat bandwidthBucketCount) in
  Z.to_nat (if slot <? 0 then slot + Z.of_nat bandwidthBucketCount else slot).

(** The bucket a writer of [unixSecond] gets. *)
Definition bucketAt (b : bandwidthStore) (unixSecond : Z) : bandwidthBucket :=
  let bucket := default zeroBucket (b !! bandwidthSlot unixSecond) in
  if bb_start bucket =? unixSecond then bucket else BandwidthBucket unixSecond 0 ∅.

Definition bucketAtRead (b : bandwidthStore) (unixSecond : Z) : option bandwidthBucket :=
  let bucket := default zeroBucket (b !! bandwidthSlot unixSecond) in
  if bb_start bucket =? unixSecond then Some bucket else None.

(** [m[k] += n] on a map of int64 counters. *)
Definition bump (k : bytes) (n : Z) (m : gmap bytes Z) : gmap bytes Z := <[k := i64 (default 0 (m !! k) + n)]> m.

(** What [record] does to the bucket of its second. *)
Definition record_bucket (s : bandwidthSample) (bucket : bandwidthBucket) : bandwidthBucket :=
  if bs_index s then BandwidthBucket (bb_start bucket) (i64 (bb_index bucket + bs_bytes s)) (bb_modules bucket)
  else
    let module := if bytes_eqb (bs_module s) [] then bandwidthUnknownModule else bs_module s in
    let tracked := bool_decide (is_Some (bb_modules bucket !! module)) in
    let module :=
      if negb tracked && (bandwidthModuleCap - 1 <=? size (bb_modules bucket))%nat
      then bandwidthOtherModule else module in
    BandwidthBucket (bb_start bucket) (bb_index bucket) (bump module (bs_bytes s) (bb_modules bucket)).

Definition record (now : Z) (s : bandwidthSample) (b : option bandwidthStore) : option bandwidthStore :=
  match b with
  | None => None
  | Some bs =>
      if bs_bytes s <=? 0 then Some bs
      else Some (<[bandwidthSlot now := record_bucket s (bucketAt bs now)]> bs)
  end.

(** The second of point [i] of a window that ends at [newest]. *)
Definition point_second (newest : Z) (i : nat) : Z := newest - Z.of_nat (bandwidthBucketCount - 1 - i).

Section window.
Context {S : Type} `{!SetOps S bytes}.

(** The bytes of each module over the whole window. *)
Definition window_totals (b : bandwidthStore) (newest : Z) : gmap bytes Z :=
  foldl (fun totals i =>
           match bucketAtRead b (point_second newest i) with
           | None => totals
           | Some bucket => map_fold bump totals (bb_modules bucket)
           end) ∅ (List.seq 0 bandwidthBucketCount).

(** Bytes first, name second. *)
Definition ranks_before (totals : gmap bytes Z) (x y : bytes) : Prop :=
  let tx := default 0 (totals !! x) in
  let ty := default 0 (totals !! y) in
  if decide (tx = ty) then bytes_compare x y <> Gt else ty < tx.

#[export] Instance ranks_before_dec totals : RelDecision (ranks_before totals).
Proof. intros x y. unfold ranks_before. cbv zeta. destruct (decide _); apply _. Defined.

Definition rank_modules (totals : gmap bytes Z) (topModules : Z) : list bytes :=
  let ranked := List.filter (fun m => negb (bytes_eqb m bandwidthOtherModule)) (map fst (map_to_list totals)) in
  let ranked := merge_sort (ranks_before totals) ranked in
  if topModules <? Z.of_nat (length ranked) then take (Z.to_nat topModules) ranked else ranked.

(** One module of the loop that draws a point: total, remainder, bands. *)
Definition draw_module (named : S) (module : bytes) (n : Z) (acc : Z * Z * gmap bytes Z) : Z * Z * gmap bytes Z :=
  let '(total, remainder, mods) := acc in
  if s_contains named module then (i64 (total + n), remainder, bump module n mods)
  else (i64 (total + n), i64 (remainder + n), mods).

Definition draw_point (named : S) (b : bandwidthStore) (newest : Z) (i : nat) : bandwidthPoint :=
  let start := point_second newest i in
  match bucketAtRead b start with
  | None => BandwidthPoint start 0 0 ∅
  | Some bucket =>
      let '(total, remainder, mods) := map_fold (draw_module named) (bb_index bucket, 0, ∅) (bb_modules bucket) in
      BandwidthPoint start total (bb_index bucket)
        (if 0 <? remainder then bump bandwidthOtherModule remainder mods else mods)
  end.

Definition window (newest : Z) (topModules : Z) (b : option bandwidthStore) : bandwidthWindow :=
  let topModules := if topModules <? 0 then 0 else topModules in
  match b with
  | None =>
      BandwidthWindow bandwidthBucketSeconds bandwidthRetentionSeconds [bandwidthOtherModule]
        (map (fun i => BandwidthPoint (point_second newest i) 0 0 ∅) (List.seq 0 bandwidthBucketCount))
  | Some bs =>
      let ranked := rank_modules (window_totals bs newest) topModules in
      let named := s_add_all ranked s_new in
      BandwidthWindow bandwidthBucketSeconds bandwidthRetentionSeconds (ranked ++ [bandwidthOtherModule])
        (map (draw_point named bs newest) (List.seq 0 bandwidthBucketCount))
  end.
End window.

(** ** Specification: a history of (second, sample) pairs *)

Definition counted (s : bandwidthSample) : Z := Z.max 0 (bs_bytes s).

(** The bytes served in second [t], by kind. *)
Definition served_by (sel : bandwidthSample -> bool) (h : list (Z * bandwidthSample)) (t : Z) : Z :=
  foldr (fun e acc => (if (e.1 =? t) && sel e.2 then counted e.2 else 0) + acc) 0 h.

Definition served (h : list (Z * bandwidthSample)) (t : Z) : Z := served_by (fun _ => true) h t.
Definition served_index (h : list (Z * bandwidthSample)) (t : Z) : Z := served_by bs_index h t.

Definition map_sum (m : gmap bytes Z) : Z := map_fold (fun _ n acc => n + acc) 0 m.

(** The store after a history. *)
Definition record_all (h : list (Z * bandwidthSample)) : option bandwidthStore :=
  foldl (fun b e => record e.1 e.2 b) (Some newBandwidthStore) h.

(** A clock that does not run backwards and has not passed [newest]. *)
Definition clock_ok (h : list (Z * bandwidthSample)) (newest : Z) : Prop :=
  StronglySorted (fun e e' => e.1 <= e'.1) h /\ Forall (fun e => e.1 <= newest) h.

(** ** Sums over counters *)

Lemma map_sum_insert (m : gmap bytes Z) k v : map_sum (<[k := v]> m) = v - default 0 (m !! k) + map_sum m.
Proof.
  assert (Hfresh : forall m' : gmap bytes Z, m' !! k = None -> forall x, map_sum (<[k := x]> m') = x + map_sum m').
  { intros m' Hn x. unfold map_sum. rewrite map_fold_insert_L; [done| |done]. intros. lia. }
  destruct (m !! k) as [x|] eqn:E; cbn [from_option id].
  - rewrite <- (insert_delete_id m k x E) at 2. rewrite <- insert_delete_eq.
    rewrite !Hfresh by apply lookup_delete_eq. cbn [from_option id]. lia.
  - rewrite Hfresh by done. cbn [from_option id]. lia.
Qed.

Definition all_positive (m : gmap bytes Z) : Prop := map_Forall (fun _ n => 0 < n) m.

Lemma map_sum_bound (m : gmap bytes Z) : all_positive m ->
  0 <= map_sum m /\ forall k, 0 <= default 0 (m !! k) <= map_sum m.
Proof.
  induction m as [|k n m Hn IH] using map_ind; intros Hp.
  - split; [done|]. intros k. rewrite lookup_empty. done.
  - apply map_Forall_insert in Hp as [Hn0 Hp]; [|done]. destruct (IH Hp) as [H0' Hk].
    rewrite map_sum_insert, Hn. cbn [from_option id]. split; [lia|].
    intros k'. destruct (decide (k' = k)) as [->|Hne].
    + rewrite lookup_insert_eq. cbn [from_option id]. lia.
    + rewrite lookup_insert_ne by done. specialize (Hk k'). lia.
Qed.

Lemma i64_add_l a b : i64 (i64 a + b) = i64 (a + b).
Proof.
  unfold i64. replace ((a + 2 ^ 63) mod 2 ^ 64 - 2 ^ 63 + b + 2 ^ 63) with ((a + 2 ^ 63) mod 2 ^ 64 + b) by lia.
  rewrite Z.add_mod_idemp_l by lia. do 2 f_equal. lia.
Qed.

(** ** One point of the window *)

Section points.
Context {S : Type} `{!SetOps S bytes} `{!SetLaws S bytes}.

Definition named_part (named : S) (m : gmap bytes Z) : gmap bytes Z := filter (fun kn => s_contains named kn.1 = true) m.

Lemma named_part_insert (named : S) (m : gmap bytes Z) k n : m !! k = None ->
  named_part named (<[k := n]> m) = if s_contains named k then <[k := n]> (named_part named m) else named_part named m.
Proof.
  intros Hk. unfold named_part. destruct (s_contains named k) eqn:E.
  - by rewrite map_filter_insert_True.
  - rewrite map_filter_insert_False by (cbn [fst]; congruence). by rewrite delete_id.
Qed.

Lemma named_part_none (named : S) (m : gmap bytes Z) k : m !! k = None -> named_part named m !! k = None.
Proof. intros Hk. apply map_lookup_filter_None. auto. Qed.

Lemma named_part_le (named : S) (m : gmap bytes Z) : all_positive m -> 0 <= map_sum (named_part named m) <= map_sum m.
Proof.
  induction m as [|k n m Hk IH] using map_ind; intros Hp; [done|].
  apply map_Forall_insert in Hp as [Hn Hp]; [|done]. specialize (IH Hp). rewrite named_part_insert by done.
  rewrite map_sum_insert, Hk. cbn [from_option id]. destruct (s_contains named k); [|lia].
  rewrite map_sum_insert, named_part_none by done. cbn [from_option id]. lia.
Qed.

(** The loop over a bucket: the total, what is left over, and the bands. *)
Lemma draw_modules_spec (named : S) (m : gmap bytes Z) (i0 : Z) : 0 <= i0 -> all_positive m -> i0 + map_sum m < 2 ^ 63 ->
  map_fold (draw_module named) (i0, 0, ∅) m =
    (i0 + map_sum m, map_sum m - map_sum (named_part named m), named_part named m).
Proof.
  intros Hi. apply (map_fold_weak_ind (fun acc m => all_positive m -> i0 + map_sum m < 2 ^ 63 ->
    acc = (i0 + map_sum m, map_sum m - map_sum (named_part named m), named_part named m))).
  { intros _ _. unfold named_part. rewrite map_filter_empty. unfold map_sum. rewrite map_fold_empty. f_equal. f_equal. lia. }
  clear m. intros k n m acc Hk IH Hp Hb. apply map_Forall_insert in Hp as [Hn Hp]; [|done].
  rewrite map_sum_insert, Hk in Hb |- *. cbn [from_option id] in Hb |- *. pose proof (named_part_le named m Hp).
  rewrite named_part_insert by done. rewrite IH by (done || lia). cbn [draw_module]. destruct (s_contains named k).
  - rewrite map_sum_insert. unfold bump. rewrite named_part_none by done. cbn [from_option id].
    rewrite !i64_small by lia. f_equal; f_equal; lia.
  - rewrite !i64_small by lia. f_equal; f_equal; lia.
Qed.

(** *** The ring *)

(** A bucket that holds exactly the bytes of its second. *)
Definition bucket_ok (h : list (Z * bandwidthSample)) (t : Z) (bk : bandwidthBucket) : Prop :=
  bb_index bk = served_index h t /\ map_sum (bb_modules bk) = served h t - served_index h t /\ all_positive (bb_modules bk).

Definition ring_ok (h : list (Z * bandwidthSample)) (newest : Z) (b : bandwidthStore) : Prop :=
  length b = bandwidthBucketCount /\
  forall t, newest - Z.of_nat bandwidthBucketCount < t ->
    match bucketAtRead b t with Some bk => bucket_ok h t bk | None => served h t = 0 end.

Lemma served_by_bounds sel h t : 0 <= served_by sel h t <= served h t.
Proof.
  unfold served, served_by, counted. induction h as [|[t' s] h IH]; [done|]. cbn [foldr fst snd].
  destruct (t' =? t), (sel s); cbn [andb]; lia.
Qed.

Lemma served_by_snoc sel h t e :
  served_by sel (h ++ [e]) t = served_by sel h t + (if (e.1 =? t) && sel e.2 then counted e.2 else 0).
Proof. unfold served_by. rewrite foldr_app. cbn [foldr]. induction h as [|e' h IH]; cbn [foldr]; lia. Qed.

Lemma served_by_future sel h t newest : Forall (fun e => e.1 <= newest) h -> newest < t -> served_by sel h t = 0.
Proof.
  induction 1 as [|[t' s] h Hle _ IH]; intros Hlt; [done|]. unfold served_by in *. cbn [foldr fst snd] in *.
  rewrite IH by done. destruct (Z.eqb_spec t' t); [lia|]. done.
Qed.

Lemma slot_spec t : (Z.of_nat (bandwidthSlot t) = t mod 300) /\ (bandwidthSlot t < bandwidthBucketCount)%nat.
Proof.
  assert (H : (if Z.rem t 300 <? 0 then Z.rem t 300 + 300 else Z.rem t 300) = t mod 300).
  { pose proof (Z.quot_rem' t 300). pose proof (Z.rem_bound_abs t 300 ltac:(lia)).
    destruct (Z.ltb_spec (Z.rem t 300) 0); [apply (Z.mod_unique_pos _ _ (Z.quot t 300 - 1))|apply (Z.mod_unique_pos _ _ (Z.quot t 300))]; lia. }
  unfold bandwidthSlot. change (Z.of_nat bandwidthBucketCount) with 300. cbv zeta. rewrite H.
  pose proof (Z.mod_pos_bound t 300 ltac:(lia)). unfold bandwidthBucketCount. lia.
Qed.

Lemma slot_near t s : bandwidthSlot t = bandwidthSlot s -> t <> s -> s - 300 < t -> s + 300 <= t.
Proof.
  intros Heq Hne Hlt. pose proof (proj1 (slot_spec t)). pose proof (proj1 (slot_spec s)).
  pose proof (Z.div_mod t 300 ltac:(lia)). pose proof (Z.div_mod s 300 ltac:(lia)). nia.
Qed.

Lemma record_bucket_ok h t sm bk : bucket_ok h t bk -> 0 < bs_bytes sm -> served (h ++ [(t, sm)]) t < 2 ^ 63 ->
  bucket_ok (h ++ [(t, sm)]) t (record_bucket sm bk).
Proof.
  intros (Hi & Hm & Hp) Hpos. unfold bucket_ok, served, served_index. rewrite !served_by_snoc. cbn [fst snd].
  rewrite Z.eqb_refl. cbn [andb]. unfold counted. rewrite Z.max_r by lia.
  pose proof (served_by_bounds bs_index h t) as Hb. unfold served, served_index in *. intros Hlt.
  destruct (map_sum_bound _ Hp) as [_ Hk]. unfold record_bucket. destruct (bs_index sm); cbn [bb_index bb_modules].
  - rewrite i64_small by lia. repeat split; [lia|lia|done].
  - rewrite Z.add_0_r. cbv zeta. match goal with |- context [bump ?k _ _] => set (key := k) end. specialize (Hk key).
    unfold bump. rewrite map_sum_insert, i64_small by lia. repeat split; [done|lia|].
    apply map_Forall_insert_2; [lia|done].
Qed.

Lemma ring_step h now sm b : ring_ok h now b -> Forall (fun e => e.1 <= now) h ->
  served (h ++ [(now, sm)]) now < 2 ^ 63 ->
  exists b', record now sm (Some b) = Some b' /\ ring_ok (h ++ [(now, sm)]) now b'.
Proof.
  intros [Hlen Hok] Hpast Hlt. unfold record. destruct (Z.leb_spec (bs_bytes sm) 0) as [Hz|Hpos].
  - exists b. split; [done|]. split; [done|]. intros t Ht. specialize (Hok t Ht). unfold bucket_ok, served, served_index in *.
    rewrite !served_by_snoc. cbn [fst snd]. unfold counted. rewrite Z.max_l by lia.
    replace (if (now =? t) && true then 0 else 0) with 0 by (destruct (now =? t); done).
    replace (if (now =? t) && bs_index sm then 0 else 0) with 0 by (destruct (now =? t), (bs_index sm); done).
    by rewrite !Z.add_0_r.
  - eexists. split; [done|]. split; [by rewrite length_insert|]. intros t Ht. pose proof (Hok t Ht) as Hold.
    unfold bucketAtRead. destruct (decide (bandwidthSlot t = bandwidthSlot now)) as [Hs|Hs].
    + rewrite Hs, list_lookup_insert_eq by (rewrite Hlen; apply slot_spec). cbn [from_option id].
      assert (Hst : bb_start (record_bucket sm (bucketAt b now)) = now).
      { unfold record_bucket, bucketAt. cbv zeta. destruct (Z.eqb_spec (bb_start (default zeroBucket (b !! bandwidthSlot now))) now), (bs_index sm); done. }
      rewrite Hst. destruct (Z.eqb_spec now t) as [->|Hne].
      * apply record_bucket_ok; [|done..]. unfold bucketAtRead, bucketAt in *. cbv zeta in *.
        destruct (Z.eqb_spec (bb_start (default zeroBucket (b !! bandwidthSlot t))) t); [done|].
        pose proof (served_by_bounds bs_index h t). unfold bucket_ok, served_index, served in *. cbn [bb_index bb_modules].
        unfold map_sum. rewrite map_fold_empty. repeat split; [lia|lia|apply map_Forall_empty].
      * unfold served. rewrite served_by_snoc. cbn [fst snd]. pose proof (slot_near t now Hs ltac:(done)) as Hfar.
        unfold bandwidthBucketCount in Ht. rewrite (served_by_future _ h t now) by (done || lia).
        destruct (Z.eqb_spec now t); [done|]. done.
    + rewrite list_lookup_insert_ne by done. assert (now <> t) by congruence.
      unfold bucket_ok, served, served_index, bucketAtRead in *. rewrite !served_by_snoc. cbn [fst snd].
      destruct (Z.eqb_spec now t); [done|]. cbn [andb]. by rewrite !Z.add_0_r.
Qed.

Lemma ring_reach h : forall newest, clock_ok h newest -> (forall t, served h t < 2 ^ 63) ->
  exists b, record_all h = Some b /\ ring_ok h newest b.
Proof.
  unfold record_all. induction h as [|[now sm] h IH] using rev_ind; intros newest [Hs Hle] Hb.
  - eexists. split; [done|]. split; [unfold newBandwidthStore; by rewrite length_replicate|]. intros t _. unfold bucketAtRead.
    assert (Hz : default zeroBucket (newBandwidthStore !! bandwidthSlot t) = zeroBucket).
    { unfold newBandwidthStore. rewrite lookup_replicate_2; [done|]. apply slot_spec. }
    rewrite Hz. cbv zeta. destruct (bb_start zeroBucket =? t); [|done]. repeat split. apply map_Forall_empty.
  - rewrite foldl_app. cbn [foldl fst snd]. apply StronglySorted_app in Hs as (Hcross & Hs & _).
    apply Forall_app in Hle as [_ Hnow]. inversion Hnow as [|? ? Hnow' _]; subst. cbn [fst] in Hnow'.
    assert (Hpast : Forall (fun e => e.1 <= now) h).
    { apply Forall_forall. intros e He. by apply (Hcross e (now, sm) He), list_elem_of_singleton. }
    assert (Hb' : forall t, served h t < 2 ^ 63).
    { intros t. specialize (Hb t). unfold served in *. rewrite served_by_snoc in Hb. unfold counted in Hb.
      destruct (_ && _)%bool in Hb; lia. }
    destruct (IH now (conj Hs Hpast) Hb') as (b & -> & Hok).
    destruct (ring_step h now sm b Hok Hpast (Hb now)) as (b' & -> & Hlen & Hok'). exists b'. split; [done|]. split; [done|].
    intros t Ht. apply Hok'. lia.
Qed.

(** *** The bands *)

#[local] Instance ranks_before_total totals : Total (ranks_before totals).
Proof.
  intros x y. unfold ranks_before. cbv zeta. destruct (decide _) as [E|E], (decide _) as [E'|E']; try congruence; [|lia].
  rewrite (bytes_compare_antisym x y). destruct (bytes_compare x y); cbn; [left|left|right]; done.
Qed.

#[local] Instance ranks_before_trans totals : Transitive (ranks_before totals).
Proof.
  intros x y z. unfold ranks_before. cbv zeta.
  repeat match goal with |- context [decide ?P] => destruct (decide P) end; try lia.
  change (le x y -> le y z -> le x z). rewrite !le_lt_eq. intros Hxy Hyz. destruct Hxy as [Hxy| ->], Hyz as [Hyz| ->]; auto. left. by apply (cmp_lt_trans x y z).
Qed.

Lemma rank_modules_spec totals top : 0 <= top ->
  NoDup (rank_modules totals top) /\ bandwidthOtherModule ∉ rank_modules totals top /\
  Z.of_nat (length (rank_modules totals top)) <= top /\
  (forall x y, x ∈ rank_modules totals top -> is_Some (totals !! y) -> y <> bandwidthOtherModule ->
     y ∉ rank_modules totals top -> default 0 (totals !! y) <= default 0 (totals !! x)).
Proof.
  intros Htop. unfold rank_modules. cbv zeta.
  set (l := List.filter _ _). set (r := merge_sort (ranks_before totals) l).
  assert (Hp : r ≡ₚ l) by apply merge_sort_Permutation.
  assert (Hmem : forall x, x ∈ l <-> is_Some (totals !! x) /\ x <> bandwidthOtherModule).
  { intros x. unfold l. rewrite list_elem_of_In, filter_In, <- list_elem_of_In, negb_true_iff.
    rewrite <- not_true_iff_false, bytes_eqb_eq. apply and_iff_compat_r. rewrite list_elem_of_fmap. split.
    - intros ([k n] & -> & H%elem_of_map_to_list). by exists n.
    - intros [n Hn]. exists (x, n). split; [done|]. by apply elem_of_map_to_list. }
  assert (Hnd : NoDup r).
  { rewrite Hp. unfold l. apply NoDup_ListNoDup, List.NoDup_filter, NoDup_ListNoDup, NoDup_fst_map_to_list. }
  assert (Hso : StronglySorted (ranks_before totals) r) by (apply StronglySorted_merge_sort; apply _).
  assert (Hrank : forall x y, ranks_before totals x y -> default 0 (totals !! y) <= default 0 (totals !! x)).
  { intros x y. unfold ranks_before. cbv zeta. destruct (decide _); lia. }
  assert (Hno : bandwidthOtherModule ∉ r) by (rewrite Hp, Hmem; tauto).
  destruct (Z.ltb_spec top (Z.of_nat (length r))) as [Hlt|Hge].
  - rewrite <- (take_drop (Z.to_nat top) r) in Hnd, Hso. apply NoDup_app in Hnd as (Hnd & _ & _).
    apply StronglySorted_app in Hso as (Hcross & _ & _). rewrite length_take. repeat split; [done| |lia|].
    + intros Hin. apply Hno. rewrite <- (take_drop (Z.to_nat top) r). apply elem_of_app. by left.
    + intros x y Hx Hy Hne Hny. apply Hrank, Hcross; [done|].
      assert (y ∈ r) as Hyr by (rewrite Hp; by apply Hmem). rewrite <- (take_drop (Z.to_nat top) r) in Hyr.
      by apply elem_of_app in Hyr as [?|?].
  - repeat split; [done| |lia|].
    + done.
    + intros x y _ Hy Hne Hny. exfalso. apply Hny. rewrite Hp. by apply Hmem.
Qed.

(** *** The window *)

Lemma draw_point_spec h newest b ranked i : ring_ok h newest b -> (forall t, served h t < 2 ^ 63) ->
  (i < bandwidthBucketCount)%nat -> bandwidthOtherModule ∉ ranked ->
  let p := draw_point (s_add_all ranked s_new : S) b newest i in
  pt_Start p = point_second newest i /\ pt_Total p = served h (pt_Start p) /\ pt_Index p = served_index h (pt_Start p) /\
  pt_Index p + map_sum (pt_Modules p) = pt_Total p /\
  (forall m, is_Some (pt_Modules p !! m) -> m ∈ ranked ++ [bandwidthOtherModule]).
Proof.
  intros [_ Hring] Hb Hi Hno. cbv zeta. unfold draw_point. cbv zeta. set (t := point_second newest i).
  assert (Ht : newest - Z.of_nat bandwidthBucketCount < t) by (unfold t, point_second; lia).
  specialize (Hring t Ht). pose proof (served_by_bounds bs_index h t) as Hsb. destruct (bucketAtRead b t) as [bk|].
  2:{ unfold served_index, served in *. cbn [pt_Start pt_Total pt_Index pt_Modules]. unfold map_sum. rewrite map_fold_empty.
      repeat split; try lia. intros m [? Hm]. by rewrite lookup_empty in Hm. }
  destruct Hring as (Hix & Hms & Hp). specialize (Hb t). unfold served_index in *.
  rewrite draw_modules_spec by (done || lia). set (named := s_add_all ranked s_new : S).
  pose proof (named_part_le named (bb_modules bk) Hp) as Hle.
  assert (Hin : forall m, is_Some (named_part named (bb_modules bk) !! m) -> m ∈ ranked).
  { intros m [n Hn]. apply map_lookup_filter_Some in Hn as [_ Hc]. by apply contains_list in Hc. }
  assert (Hnot : named_part named (bb_modules bk) !! bandwidthOtherModule = None).
  { apply eq_None_not_Some. intros Hs. by apply Hno, Hin. }
  cbn [pt_Start pt_Total pt_Index pt_Modules]. repeat split; [lia|done| |].
  - destruct (Z.ltb_spec 0 (map_sum (bb_modules bk) - map_sum (named_part named (bb_modules bk)))); [|lia].
    unfold bump. rewrite map_sum_insert, Hnot. cbn [from_option id]. rewrite i64_small by lia. lia.
  - intros m Hm. apply elem_of_app. destruct (decide (m = bandwidthOtherModule)) as [->|Hne]; [right; by apply list_elem_of_singleton|].
    left. apply Hin. destruct (0 <? _); [|done]. unfold bump in Hm. by rewrite lookup_insert_ne in Hm.
Qed.

(** Accounting is exact: over any history of recorded responses on a clock
    that does not run backwards, every point of the chart's window carries
    exactly the bytes served in its second, the index series and the bands add
    up to that total, every band drawn is a named one, and the named bands are
    those with the most bytes in the window, with the remainder last and once. *)
Theorem bandwidth_window_exact h newest top : clock_ok h newest -> (forall t, served h t < 2 ^ 63) ->
  let w := window (S := S) newest top (record_all h) in
  let named := removelast (bw_Bands w) in
  last (bw_Bands w) = Some bandwidthOtherModule /\ NoDup (bw_Bands w) /\
  Z.of_nat (length named) <= Z.max 0 top /\
  (forall b x y, record_all h = Some b -> x ∈ named -> is_Some (window_totals b newest !! y) -> y ∉ bw_Bands w ->
     default 0 (window_totals b newest !! y) <= default 0 (window_totals b newest !! x)) /\
  length (bw_Points w) = bandwidthBucketCount /\
  Forall (fun p =>
    pt_Total p = served h (pt_Start p) /\ pt_Index p = served_index h (pt_Start p) /\
    pt_Index p + map_sum (pt_Modules p) = pt_Total p /\
    (forall m, is_Some (pt_Modules p !! m) -> m ∈ bw_Bands w)) (bw_Points w) /\
  map pt_Start (bw_Points w) = map (point_second newest) (List.seq 0 bandwidthBucketCount).
Proof.
  intros Hc Hb. cbv zeta. destruct (ring_reach h newest Hc Hb) as (b & -> & Hring). unfold window. cbv zeta.
  set (top' := if top <? 0 then 0 else top). assert (Htop : top' = Z.max 0 top) by (unfold top'; destruct (Z.ltb_spec top 0); lia).
  destruct (rank_modules_spec (window_totals b newest) top') as (Hnd & Hno & Hlen & Hrank); [lia|].
  set (ranked := rank_modules _ top') in *. cbn [bw_Bands bw_Points].
  pose proof (fun i Hi => draw_point_spec h newest b ranked i Hring Hb Hi Hno) as Hpt. cbv zeta in Hpt.
  rewrite removelast_last, last_snoc, length_map, List.length_seq. split; [done|].
  split; [|split; [lia|split; [|split; [done|split]]]].
  - apply NoDup_app. split; [done|]. split; [|apply NoDup_singleton]. by intros x Hx ->%list_elem_of_singleton.
  - intros b' x y [= <-] Hx Hy Hny. rewrite elem_of_app, list_elem_of_singleton in Hny.
    apply Hrank; [done|done| |]; tauto.
  - apply Forall_forall. intros p (i & -> & Hi)%list_elem_of_fmap. apply elem_of_seq in Hi. apply Hpt. lia.
  - rewrite map_map. apply map_ext_in. intros i Hi%list_elem_of_In%elem_of_seq. apply Hpt. lia.
Qed.
End points.

(** ** A concrete run *)

Definition demoHistory : list (Z * bandwidthSample) :=
  [(1000, BandwidthSample true [] 5); (1000, BandwidthSample false (str "mod") 7); (1299, BandwidthSample false [] 3)].

Lemma bandwidth_window_exact_witness :
  let w := window (S := gset bytes) 1299 1 (record_all demoHistory) in
  map (fun p => (pt_Start p, pt_Total p)) (filter (fun p => 0 < pt_Total p) (bw_Points w)) = [(1000, 12); (1299, 3)] /\
  bw_Bands w = [str "mod"; bandwidthOtherModule] /\
  Forall (fun p => pt_Total p = served demoHistory (pt_Start p)) (bw_Points w).
Proof.
  split; [vm_compute; reflexivity|]. split; [vm_compute; reflexivity|].
  assert (Hc : clock_ok demoHistory 1299) by (split; repeat constructor; cbn; lia).
  assert (Hb : forall t, served demoHistory t < 2 ^ 63).
  { intros t. unfold served, served_by, demoHistory. cbn [foldr fst snd]. unfold counted. destruct (1000 =? t), (1299 =? t); cbn [andb bs_bytes]; lia. }
  destruct (bandwidth_window_exact (S := gset bytes) demoHistory 1299 1 Hc Hb) as (_ & _ & _ & _ & _ & Hp & _).
  eapply Forall_impl; [exact Hp|]. by intros p (? & _).
Defined.
