(* ===== verification/ParMap.v ===== *)
(** * Bounded parallel filtering

    [parmap.go]: [parallelFilter] runs a function on every item with a bounded
    number of goroutines and returns what it kept, in item order.  The workers
    are a step relation: a worker takes the next index under the mutex, later
    runs the function and writes its two cells.  The function may read and write
    a shared state [St], which is how the batch handlers use it; one call is one
    step.  [wg.Wait] is the state in which every worker has returned. *)

From Stdlib Require Import ZArith Lia List Bool Permutation.
From stdpp Require Import base list relations.
From S2P Require Import Prelude.

Section parallel.
Context {T R St : Type}.
(** The zero value [make([]R, n)] fills with, and the function of the call. *)
Context (zero : R) (fn : T -> St -> (R * bool) * St).

Inductive phase := Idle | Running (idx : nat) | Returned.

#[export] Instance phase_eq_dec : EqDecision phase.
Proof. solve_decision. Defined.

(** [calls] records the order in which the function ran. *)
Record pstate := PState {
  pos : nat; workers : list phase; results : list R; kept : list bool; shared : St; calls : list nat
}.

Definition pinit (n : nat) (items : list T) (st : St) : pstate :=
  PState 0 (replicate n Idle) (replicate (length items) zero) (replicate (length items) false) st [].

Inductive pstep (items : list T) : pstate -> pstate -> Prop :=
  | step_take w p ws rs ks st cs :
      ws !! w = Some Idle ->
      pstep items (PState p ws rs ks st cs)
        (PState (S p) (<[w := if (length items <=? p)%nat then Returned else Running p]> ws) rs ks st cs)
  | step_run w p ws rs ks st cs idx item r k st' :
      ws !! w = Some (Running idx) -> items !! idx = Some item -> fn item st = ((r, k), st') ->
      pstep items (PState p ws rs ks st cs)
        (PState p (<[w := Idle]> ws) (<[idx := r]> rs) (<[idx := k]> ks) st' (cs ++ [idx])).

Definition waited (s : pstate) : Prop := Forall (fun ph => ph = Returned) (workers s).

(** The last loop of [parallelFilter]: [out] shares the array of [results], so
    the kept values are moved down in place. *)
Fixpoint compact_loop (ks : list bool) (arr : list R) (idx w : nat) : list R * nat :=
  match ks with
  | [] => (arr, w)
  | k :: ks' =>
      match (if k then arr !! idx else None) with
      | Some r => compact_loop ks' (<[w := r]> arr) (S idx) (S w)
      | None => compact_loop ks' arr (S idx) w
      end
  end.

Definition compact_results (rs : list R) (ks : list bool) : list R :=
  let '(arr, w) := compact_loop ks rs 0 0 in take w arr.

(** The branch for a single worker. *)
Fixpoint sequential_loop (items : list T) (st : St) : list (R * bool) * St :=
  match items with
  | [] => ([], st)
  | item :: items' =>
      let '(rk, st) := fn item st in
      let '(rks, st) := sequential_loop items' st in
      (rk :: rks, st)
  end.

(** What one call can return and leave behind; [procs] is
    [runtime.GOMAXPROCS(0)] and [batchKeyWorkers] the bound computed from it. *)
Definition batchKeyWorkers (procs : nat) : nat := Nat.max 4 procs.

Definition parallelFilter (procs : nat) (items : list T) (st : St) (out : list R) (st' : St) : Prop :=
  let n := Nat.min (batchKeyWorkers procs) (length items) in
  match items with
  | [] => out = [] /\ st' = st
  | _ =>
      if (n =? 1)%nat then
        let '(rks, st1) := sequential_loop items st in
        out = compact_results (map fst rks) (map snd rks) /\ st' = st1
      else exists s, rtc (pstep items) (pinit n items st) s /\ waited s /\
             out = compact_results (results s) (kept s) /\ st' = shared s
  end.

(** ** Reference: run the calls in some order, keep in item order *)

Fixpoint run_calls (items : list T) (order : list nat) (st : St) : list (nat * (R * bool)) * St :=
  match order with
  | [] => ([], st)
  | i :: order' =>
      match items !! i with
      | None => ([], st)
      | Some item =>
          let '(rk, st) := fn item st in
          let '(log, st) := run_calls items order' st in
          ((i, rk) :: log, st)
      end
  end.

(** The answer the log of the calls gives for index [i]. *)
Definition answer (log : list (nat * (R * bool))) (i : nat) : option R :=
  match find (fun e => (e.1 =? i)%nat) log with
  | Some (_, (r, true)) => Some r
  | _ => None
  end.

Definition filtered (n : nat) (log : list (nat * (R * bool))) : list R := omap (answer log) (List.seq 0 n).

(** ** The in-place compaction keeps the kept values in order *)

Definition keep_pairs (rs : list R) (ks : list bool) : list R :=
  omap (fun rk => if rk.2 : bool then Some rk.1 else None) (zip rs ks).

Lemma compact_loop_spec ks : forall (arr : list R) (idx w : nat), (w <= idx)%nat -> length arr = (idx + length ks)%nat ->
  let '(arr', w') := compact_loop ks arr idx w in take w' arr' = take w arr ++ keep_pairs (drop idx arr) ks.
Proof.
  induction ks as [|k ks IH]; intros arr idx w Hw Hl; cbn [compact_loop].
  - cbn [length] in Hl. rewrite drop_ge by lia. unfold keep_pairs. cbn. by rewrite app_nil_r.
  - cbn [length] in Hl. destruct (lookup_lt_is_Some_2 arr idx) as [r Hr]; [lia|].
    rewrite (drop_S arr r idx Hr). unfold keep_pairs. cbn [zip zip_with omap list_omap fst snd]. fold (keep_pairs (drop (S idx) arr) ks).
    destruct k.
    + rewrite Hr. specialize (IH (<[w := r]> arr) (S idx) (S w)). rewrite length_insert in IH. specialize (IH ltac:(lia) ltac:(lia)).
      destruct (compact_loop ks (<[w:=r]> arr) (S idx) (S w)) as [arr' w']. rewrite IH.
      rewrite drop_insert_lt by lia. rewrite take_S_r with (x := r) by (rewrite list_lookup_insert_eq; [done|lia]).
      rewrite take_insert_ge by lia. by rewrite <- app_assoc.
    + specialize (IH arr (S idx) w ltac:(lia) ltac:(lia)). destruct (compact_loop ks arr (S idx) w) as [arr' w']. done.
Qed.

Lemma compact_results_keep rs ks : length rs = length ks -> compact_results rs ks = keep_pairs rs ks.
Proof.
  intros Hl. unfold compact_results. pose proof (compact_loop_spec ks rs 0 0 ltac:(lia) ltac:(lia)) as H.
  destruct (compact_loop ks rs 0 0) as [arr w]. rewrite H. done.
Qed.

(** ** Every schedule runs each call once *)

Definition running (ws : list phase) : list nat := omap (fun ph => match ph with Running i => Some i | _ => None end) ws.

Lemma worker_split (ws : list phase) w old : ws !! w = Some old ->
  exists l1 l2, ws = l1 ++ old :: l2 /\ forall x, <[w := x]> ws = l1 ++ x :: l2.
Proof.
  intros Hw. exists (take w ws), (drop (S w) ws). split; [by rewrite take_drop_middle|].
  intros x. apply insert_take_drop. by eapply lookup_lt_Some.
Qed.

Lemma running_app l1 l2 : running (l1 ++ l2) = running l1 ++ running l2.
Proof. apply omap_app. Qed.

Lemma run_calls_snoc items order i item st log st1 rk st2 :
  Forall (fun j => (j < length items)%nat) order -> run_calls items order st = (log, st1) ->
  items !! i = Some item -> fn item st1 = (rk, st2) ->
  run_calls items (order ++ [i]) st = (log ++ [(i, rk)], st2).
Proof.
  intros Hv. revert st log. induction Hv as [|j order Hj _ IH]; intros st log Hrun Hi Hf; cbn [run_calls app] in *.
  - injection Hrun as <- <-. by rewrite Hi, Hf.
  - destruct (lookup_lt_is_Some_2 items j Hj) as [it Hit]. rewrite Hit in *. destruct (fn it st) as [rk' st'].
    destruct (run_calls items order st') as [log' st''] eqn:E. injection Hrun as <- <-.
    by rewrite (IH st' log' E Hi Hf).
Qed.

Lemma run_calls_indices items order : forall st log st',
  Forall (fun j => (j < length items)%nat) order -> run_calls items order st = (log, st') -> map fst log = order.
Proof.
  induction order as [|j order IH]; intros st log st' Hv Hrun; cbn [run_calls] in Hrun; [by injection Hrun as <- <-|].
  apply Forall_cons in Hv as [Hj Hv]. destruct (lookup_lt_is_Some_2 items j Hj) as [it Hit]. rewrite Hit in Hrun.
  destruct (fn it st) as [rk st1]. destruct (run_calls items order st1) as [log' st2] eqn:E. injection Hrun as <- <-.
  cbn [map fst]. by rewrite (IH _ _ _ Hv E).
Qed.

Record pinv (items : list T) (st0 : St) (s : pstate) : Prop := {
  pi_results : length (results s) = length items;
  pi_kept : length (kept s) = length items;
  pi_perm : calls s ++ running (workers s) ≡ₚ List.seq 0 (Nat.min (pos s) (length items));
  pi_returned : Returned ∈ workers s -> (length items <= pos s)%nat;
  pi_log : exists log, run_calls items (calls s) st0 = (log, shared s) /\
    forall i, (i < length items)%nat ->
      (if kept s !! i is Some true then results s !! i else None) = answer log i
}.

Lemma answer_snoc log i (rk : R * bool) j : i ∉ map fst log ->
  answer (log ++ [(i, rk)]) j = if (i =? j)%nat then (if rk.2 then Some rk.1 else None) else answer log j.
Proof.
  intros Hi. unfold answer. destruct rk as [r k]. induction log as [|[i' rk'] log IH]; cbn [app find fst snd].
  - destruct (Nat.eqb_spec i j); [by destruct k|done].
  - cbn [map fst] in Hi. apply not_elem_of_cons in Hi as [Hne Hi]. destruct (Nat.eqb_spec i' j) as [->|].
    + destruct (Nat.eqb_spec i j); [done|]. done.
    + by apply IH.
Qed.

Lemma pinv_calls_valid items st0 s : pinv items st0 s ->
  Forall (fun j => (j < length items)%nat) (calls s ++ running (workers s)) /\ NoDup (calls s ++ running (workers s)).
Proof.
  intros H. rewrite (pi_perm _ _ _ H). split.
  - apply Forall_forall. intros j Hj%elem_of_seq. lia.
  - apply NoDup_ListNoDup, seq_NoDup.
Qed.

Lemma pinv_step items st0 s s' : pinv items st0 s -> pstep items s s' -> pinv items st0 s'.
Proof.
  intros H Hs. pose proof (pinv_calls_valid _ _ _ H) as [Hv Hnd]. destruct H as [Hr Hk Hp Hret Hlog].
  destruct Hs as [w p ws rs ks st cs Hw|w p ws rs ks st cs idx item r k st' Hw Hi Hf];
    cbn [pos workers results kept shared calls] in *; destruct (worker_split _ _ _ Hw) as (l1 & l2 & -> & Hins).
  - rewrite Hins. split; cbn [pos workers results kept shared calls]; try done.
    + rewrite running_app in Hp |- *. destruct (Nat.leb_spec (length items) p); cbn [running omap list_omap] in Hp |- *.
      * rewrite Nat.min_r in Hp |- * by lia. done.
      * rewrite !Nat.min_l in Hp |- * by lia. rewrite seq_S. cbn [plus]. rewrite <- Hp.
        change (omap _ l2) with (running l2). rewrite (Permutation_app_comm _ [p]). cbn [app]. by rewrite <- !Permutation_middle.
    + destruct (Nat.leb_spec (length items) p); [lia|]. intros Hin. apply elem_of_app in Hin as [Hin|[?|Hin]%elem_of_cons]; [|done|];
        exfalso; assert (length items <= p)%nat by (apply Hret, elem_of_app; rewrite elem_of_cons; auto); lia.
  - rewrite Hins. rewrite running_app in Hp, Hv, Hnd. cbn [running omap list_omap] in Hp, Hv, Hnd.
    change (omap _ l2) with (running l2) in *. destruct Hlog as (log & Hrun & Hans).
    assert (Hidx : (idx < length items)%nat) by (by eapply lookup_lt_Some).
    assert (Hvc : Forall (fun j => (j < length items)%nat) cs) by (by apply Forall_app in Hv as [? _]).
    assert (Hnew : idx ∉ cs).
    { intros Hin. apply NoDup_app in Hnd as (_ & Hd & _). apply (Hd idx Hin). apply elem_of_app. right. by left. }
    split; cbn [pos workers results kept shared calls]; rewrite ?length_insert; try done.
    + rewrite running_app. cbn [running omap list_omap]. change (omap _ l2) with (running l2). rewrite <- Hp.
      rewrite <- !app_assoc. cbn [app]. by rewrite <- Permutation_middle, <- !Permutation_middle.
    + intros Hin. apply Hret. apply elem_of_app in Hin as [Hin|[?|Hin]%elem_of_cons]; [|done|]; apply elem_of_app; rewrite elem_of_cons; auto.
    + exists (log ++ [(idx, (r, k))]). split; [by eapply run_calls_snoc|]. intros i Hilt.
      rewrite answer_snoc by (rewrite (run_calls_indices _ _ _ _ _ Hvc Hrun); done). cbn [fst snd].
      destruct (Nat.eqb_spec idx i) as [->|Hne].
      * rewrite !list_lookup_insert_eq by lia. by destruct k.
      * rewrite !list_lookup_insert_ne by done. by apply Hans.
Qed.

Lemma pinv_reach items n st s : rtc (pstep items) (pinit n items st) s -> pinv items st s.
Proof.
  intros Hr. apply rtc_ind_r with (P := pinv items st) in Hr; [done| |].
  - unfold pinit. split; cbn [pos workers results kept shared calls]; rewrite ?length_replicate; try done.
    + cbn [Nat.min List.seq app]. clear. induction n as [|n IH]; [done|]. cbn. done.
    + intros Hin. apply elem_of_replicate in Hin as [? _]. done.
    + exists []. split; [done|]. intros i Hi. rewrite lookup_replicate_2 by lia. done.
  - intros y z _ Hs Hy. by eapply pinv_step.
Qed.

Lemma keep_pairs_omap (rs : list R) : forall (ks : list bool) (o : nat) (f : nat -> option R), length ks = length rs ->
  (forall i, (i < length rs)%nat -> (if ks !! i is Some true then rs !! i else None) = f (o + i)%nat) ->
  keep_pairs rs ks = omap f (List.seq o (length rs)).
Proof.
  induction rs as [|r rs IH]; intros ks o f Hl Hf; destruct ks as [|k ks]; try done. cbn [length] in *.
  unfold keep_pairs. cbn [zip zip_with omap list_omap List.seq fst snd]. fold (keep_pairs rs ks).
  rewrite (IH ks (S o) f) by (lia || (intros i Hi; replace (S o + i)%nat with (o + S i)%nat by lia; apply (Hf (S i)); lia)).
  specialize (Hf 0%nat ltac:(lia)). cbn [lookup list_lookup] in Hf. rewrite Nat.add_0_r in Hf. rewrite <- Hf. by destruct k.
Qed.

Lemma sequential_calls items' : forall pre st rks st', sequential_loop items' st = (rks, st') ->
  length rks = length items' /\
  run_calls (pre ++ items') (List.seq (length pre) (length items')) st = (zip (List.seq (length pre) (length items')) rks, st').
Proof.
  induction items' as [|it items' IH]; intros pre st rks st' Hs; cbn [sequential_loop] in Hs; [by injection Hs as <- <-|].
  destruct (fn it st) as [rk st1] eqn:Ef. destruct (sequential_loop items' st1) as [rks' st2] eqn:E. injection Hs as <- <-.
  destruct (IH (pre ++ [it]) st1 rks' st2 E) as [Hl Hrun]. split; [cbn [length]; lia|].
  rewrite length_app in Hrun. cbn [length] in Hrun. rewrite Nat.add_1_r, <- app_assoc in Hrun. cbn [app] in Hrun.
  cbn [length List.seq run_calls]. rewrite lookup_app_r, Nat.sub_diag by lia. cbn [lookup list_lookup].
  by rewrite Ef, Hrun.
Qed.

Lemma answer_zip (rks : list (R * bool)) : forall o i, (i < length rks)%nat ->
  answer (zip (List.seq o (length rks)) rks) (o + i)%nat =
    if map snd rks !! i is Some true then map fst rks !! i else None.
Proof.
  induction rks as [|[r k] rks IH]; intros o i Hi; cbn [length] in *; [lia|]. unfold answer. cbn [List.seq zip zip_with find fst].
  destruct i as [|i].
  - rewrite Nat.add_0_r, Nat.eqb_refl. cbn. by destruct k.
  - destruct (Nat.eqb_spec o (o + S i)) as [?|_]; [lia|]. rewrite Nat.add_succ_r. specialize (IH (S o) i ltac:(lia)). exact IH.
Qed.

Lemma workers_count items n st s : rtc (pstep items) (pinit n items st) s -> length (workers s) = n.
Proof.
  intros Hr. apply rtc_ind_r with (P := fun s => length (workers s) = n) in Hr; [done| |].
  - unfold pinit. cbn [workers]. apply length_replicate.
  - intros a b _ Hab <-. by destruct Hab; cbn [workers]; rewrite length_insert.
Qed.

Lemma parallelFilter_calls procs items st out st' : parallelFilter procs items st out st' ->
  exists order log, order ≡ₚ List.seq 0 (length items) /\ run_calls items order st = (log, st') /\
    out = filtered (length items) log.
Proof.
  unfold parallelFilter. destruct items as [|it items]; [intros [-> ->]; by exists [], []|]. set (its := it :: items).
  set (n := Nat.min _ _). assert (Hn : (1 <= n)%nat) by (unfold n, its, batchKeyWorkers; cbn [length]; lia).
  destruct (n =? 1)%nat.
  - destruct (sequential_loop its st) as [rks st1] eqn:E. intros [-> ->].
    destruct (sequential_calls its [] st rks st1 E) as [Hl Hrun]. cbn [length app] in Hrun.
    exists (List.seq 0 (length its)), (zip (List.seq 0 (length its)) rks). split; [done|]. split; [done|].
    rewrite compact_results_keep by (by rewrite !length_map). rewrite <- Hl. unfold filtered.
    rewrite <- (length_map fst rks) at 1. rewrite (keep_pairs_omap (map fst rks) _ 0 (answer (zip (List.seq 0 (length rks)) rks))).
    + by rewrite !length_map.
    + by rewrite !length_map.
    + intros i Hi. rewrite length_map in Hi. by rewrite answer_zip.
  - intros (s & Hreach & Hdone & -> & ->). destruct (pinv_reach _ _ _ _ Hreach) as [Hr Hk Hp Hret (log & Hrun & Hans)].
    exists (calls s), log. pose proof (workers_count _ _ _ _ Hreach) as Hlw.
    assert (Hnr : running (workers s) = []).
    { unfold waited in Hdone. clear - Hdone. induction Hdone as [|ph l -> _ IH]; [done|]. exact IH. }
    assert (length its <= pos s)%nat.
    { apply Hret. unfold waited in Hdone. destruct (workers s) as [|ph l]; [cbn in Hlw; lia|]. apply Forall_cons in Hdone as [-> _]. by left. }
    rewrite Hnr, app_nil_r, Nat.min_r in Hp by lia. split; [done|]. split; [done|].
    rewrite compact_results_keep by lia. rewrite (keep_pairs_omap (results s) (kept s) 0 (answer log)); [by rewrite Hr|lia|].
    intros i Hi. rewrite Hr in Hi. by apply Hans.
Qed.

(** What every call establishes holds of the answer: [I] is kept, and the values
    returned are those [Q] relates to some of the items, in item order. *)
Lemma run_calls_keeps (I : St -> Prop) (Q : T -> R -> Prop) items order : forall st log st',
  (forall item st r k st', item ∈ items -> I st -> fn item st = ((r, k), st') -> I st' /\ (k = true -> Q item r)) ->
  I st -> run_calls items order st = (log, st') ->
  I st' /\ forall i r, (i, (r, true)) ∈ log -> exists item, items !! i = Some item /\ Q item r.
Proof.
  induction order as [|i order IH]; intros st log st' Hfn Hst Hrun; cbn [run_calls] in Hrun.
  { injection Hrun as <- <-. split; [done|]. intros i r Hin. by apply not_elem_of_nil in Hin. }
  destruct (items !! i) as [item|] eqn:Ei; [|injection Hrun as <- <-; split; [done|]; intros j r Hin; by apply not_elem_of_nil in Hin].
  destruct (fn item st) as [[r k] st1] eqn:Ef. destruct (run_calls items order st1) as [log1 st2] eqn:Er. injection Hrun as <- <-.
  destruct (Hfn item st r k st1 (list_elem_of_lookup_2 _ _ _ Ei) Hst Ef) as [H1 Hq]. destruct (IH _ _ _ Hfn H1 Er) as [H2 Hlog].
  split; [done|]. intros j r' [[= -> -> <-]|Hin]%elem_of_cons; [by exists item; auto|by apply Hlog].
Qed.

Lemma omap_related (Q : T -> R -> Prop) (f : nat -> option R) items : forall o,
  (forall i r, f (o + i)%nat = Some r -> exists item, items !! i = Some item /\ Q item r) ->
  exists its, its `sublist_of` items /\ Forall2 Q its (omap f (List.seq o (length items))).
Proof.
  induction items as [|item items IH]; intros o Hf; [by exists []|]. cbn [length List.seq omap list_omap].
  destruct (IH (S o)) as (its & Hsub & Hq).
  { intros i r Hi. replace (S o + i)%nat with (o + S i)%nat in Hi by lia. by apply Hf in Hi. }
  destruct (f o) as [r|] eqn:Er.
  - exists (item :: its). split; [by apply sublist_skip|]. constructor; [|done].
    destruct (Hf 0%nat r) as (it & Hit & Hqr); [by rewrite Nat.add_0_r|]. by injection Hit as <-.
  - exists its. split; [by apply sublist_cons|done].
Qed.

Lemma parallelFilter_keeps (I : St -> Prop) (Q : T -> R -> Prop) procs items st out st' :
  (forall item st r k st', item ∈ items -> I st -> fn item st = ((r, k), st') -> I st' /\ (k = true -> Q item r)) ->
  I st -> parallelFilter procs items st out st' ->
  I st' /\ exists its, its `sublist_of` items /\ Forall2 Q its out.
Proof.
  intros Hfn Hst Hp. apply parallelFilter_calls in Hp as (order & log & _ & Hrun & ->).
  destruct (run_calls_keeps I Q items order st log st' Hfn Hst Hrun) as [H1 Hlog]. split; [done|].
  unfold filtered. apply omap_related. intros i r Hans. cbn [Nat.add] in Hans. apply Hlog. unfold answer in Hans.
  destruct (find _ log) as [[j [r' []]]|] eqn:Ef; [|done|done]. injection Hans as ->.
  apply find_some in Ef as [Hin Hj]. cbn [fst] in Hj. apply Nat.eqb_eq in Hj as ->. by apply list_elem_of_In.
Qed.

(** Whatever the schedule of the workers, [parallelFilter] behaves as
    if the calls had been made one after the other, each item exactly once, in
    some order, and returns what the calls kept in the order of the items. *)
Theorem parallelFilter_linear procs items st out st' : parallelFilter procs items st out st' ->
  exists order log, order ≡ₚ List.seq 0 (length items) /\ run_calls items order st = (log, st') /\
    out = filtered (length items) log.
Proof. apply parallelFilter_calls. Qed.

(** A single item is a single call. *)
Lemma parallelFilter_one procs item st :
  parallelFilter procs [item] st (if (fn item st).1.2 then [(fn item st).1.1] else []) (fn item st).2.
Proof.
  unfold parallelFilter, batchKeyWorkers. replace (Nat.min _ _) with 1%nat by (cbn [length]; lia). cbn [Nat.eqb sequential_loop].
  destruct (fn item st) as [[r k] st1]. cbn [map fst snd]. split; [|done]. by destruct k.
Qed.

(** ** The workers finish *)

Definition phase_work (ph : phase) : nat := match ph with Idle => 1 | Running _ => 2 | Returned => 0 end.

Definition work_left (items : list T) (s : pstate) : nat :=
  (sum_list_with phase_work (workers s) + 2 * (length items - pos s))%nat.

Lemma work_decreases items s s' : pstep items s s' -> (work_left items s' < work_left items s)%nat.
Proof.
  unfold work_left. destruct 1 as [w p ws rs ks st cs Hw|w p ws rs ks st cs idx item r k st' Hw Hi Hf];
    cbn [pos workers]; destruct (worker_split _ _ _ Hw) as (l1 & l2 & -> & Hins); rewrite Hins;
    rewrite !sum_list_with_app; cbn [sum_list_with phase_work]; [|lia].
  destruct (Nat.leb_spec (length items) p); cbn [phase_work]; lia.
Qed.

Lemma can_step items st0 s : pinv items st0 s -> waited s \/ exists s', pstep items s s'.
Proof.
  intros Hinv. pose proof (pinv_calls_valid _ _ _ Hinv) as [Hv _]. destruct s as [p ws rs ks st cs].
  cbn [workers calls] in Hv. unfold waited. cbn [workers].
  destruct (decide (Forall (fun ph => ph = Returned) ws)) as [Hall|Hsome]; [by left|right]. apply not_Forall_Exists in Hsome; [|apply _]. apply Exists_exists in Hsome as (ph & Hin & Hne).
  apply list_elem_of_lookup in Hin as [w Hw]. destruct ph as [|idx|]; [eexists; by eapply step_take| |by destruct Hne].
  apply Forall_app in Hv as [_ Hv]. rewrite Forall_forall in Hv. destruct (lookup_lt_is_Some_2 items idx) as [item Hi].
  { apply Hv. unfold running. apply list_elem_of_omap. exists (Running idx). split; [by eapply list_elem_of_lookup_2|done]. }
  destruct (fn item st) as [[r k] st'] eqn:Ef. eexists. by eapply step_run.
Qed.

Lemma idle_work n : sum_list_with phase_work (replicate n Idle) = n.
Proof. induction n as [|n IH]; [done|]. cbn. by rewrite IH. Qed.

(** No schedule runs for more than two steps per item and one per
    worker, and wherever it is stopped the workers can go on until all have
    returned: the call always ends, with an answer. *)
Theorem parallelFilter_returns n items st :
  (forall k s, nsteps (pstep items) k (pinit n items st) s -> (k <= n + 2 * length items)%nat) /\
  (forall s, rtc (pstep items) (pinit n items st) s -> exists s', rtc (pstep items) s s' /\ waited s').
Proof.
  split.
  - intros k s Hk. assert (Hw : (k + work_left items s <= work_left items (pinit n items st))%nat).
    { clear -Hk. induction Hk as [|k x y z Hxy _ IH]; [lia|]. pose proof (work_decreases _ _ _ Hxy). lia. }
    unfold work_left at 2, pinit in Hw. cbn [pos workers] in Hw. rewrite idle_work in Hw. lia.
  - intros s Hr. remember (work_left items s) as m eqn:Em. revert s Hr Em.
    induction m as [m IH] using lt_wf_ind. intros s Hr ->. destruct (can_step items st s (pinv_reach _ _ _ _ Hr)) as [Hd|[s' Hs]].
    + by exists s.
    + destruct (IH (work_left items s')) with (s := s') as (s'' & Hr' & Hd).
      * by apply work_decreases.
      * by eapply rtc_r.
      * done.
      * exists s''. split; [by eapply rtc_l|done].
Qed.
End parallel.

(** ** A concrete schedule: two workers, the second call first *)

Definition demoCall (x st : Z) : (Z * bool) * Z := ((x + st, 2 <=? x), st + 10).

Lemma demo_schedule : parallelFilter 0 demoCall 2 [3; 2] 0 [13; 2] 20.
Proof.
  unfold parallelFilter. cbn [length]. change (Nat.min _ _ =? 1)%nat with false. cbv iota zeta.
  eexists. split; [|split; [|split]].
  - change (Nat.min (batchKeyWorkers 2) 2) with 2%nat. unfold pinit.
    eapply rtc_l; [apply (step_take _ _ 0%nat); reflexivity|]. eapply rtc_l; [apply (step_take _ _ 1%nat); reflexivity|].
    eapply rtc_l; [eapply (step_run _ _ 1%nat); reflexivity|]. eapply rtc_l; [eapply (step_run _ _ 0%nat); reflexivity|].
    eapply rtc_l; [apply (step_take _ _ 0%nat); reflexivity|]. eapply rtc_l; [apply (step_take _ _ 1%nat); reflexivity|].
    apply rtc_refl.
  - repeat constructor.
  - reflexivity.
  - reflexivity.
Qed.

Lemma parallelFilter_linear_witness : exists order log,
  order ≡ₚ [0; 1]%nat /\ run_calls demoCall [3; 2] order 0 = (log, 20) /\ [13; 2] = filtered 2 log.
Proof. apply (parallelFilter_linear 0 demoCall 2 [3; 2] 0 [13; 2] 20). apply demo_schedule. Defined.
