(* ===== verification/ClientIndex.v ===== *)
(** * The client's live key index

    [cacheclient/web_index_load.go], [web_index_delta.go], the fetch of
    [web_index.go] and the index-facing half of [web.go] and [webput.go]: the
    live key set with its claims and drops, the journal that carries them over a
    background load, the disk copy of the index with its add-log position, and
    the decision of a lookup.

    Each method that holds [keysMu] is one step.  The server's answers and the
    outcomes of file operations are arguments.  A loaded set is either the set
    object already installed ([LoadLive], the code's pointer comparison) or
    another one ([LoadNew]); the two sets of the journal are the container of
    [GoSet]. *)

From Stdlib Require Import ZArith Lia List Bool String.
From stdpp Require Import base gmap list.
From S2P Require Import Prelude Strconv SortedSlice GoSet Keys Sha256 IndexV2 HashSet Gbci Index.

(** ** Text forms *)

Definition noGen : indexGen := IndexGen 0 0.

(** [parseActionHash]: hex of at most 32 bytes, zero-filled on the right. *)
Definition parseActionHash (actionID : bytes) : option bytes :=
  let n := length actionID in
  if (n =? 0)%nat || (64 <? n)%nat || negb (n mod 2 =? 0)%nat then None
  else h ← hex_decode actionID; Some (h ++ replicate (32 - length h) 0).

(** The two position headers of an answer; [None] is an absent header. *)
Definition indexGenFromHeader (hEpoch hSeq : option bytes) : indexGen :=
  match parseUint (default [] hEpoch) with
  | None => noGen
  | Some e => match parseUint (default [] hSeq) with None => noGen | Some s => IndexGen e s end
  end.

(** The server's side: no header for a zero epoch. *)
Definition setIndexGenHeaders (gen : indexGen) : option bytes * option bytes :=
  if epoch gen =? 0 then (None, None) else (Some (formatUint (epoch gen)), Some (formatUint (seqno gen))).

(** The query of a delta request, and the server's reading of it. *)
Definition deltaQuery (gen : indexGen) : bytes * bytes := (formatUint (epoch gen), formatUint (seqno gen)).

Definition indexGenFromQuery (q : bytes * bytes) : indexGen * bool :=
  match parseUint q.1 with
  | None => (noGen, false)
  | Some e =>
      if e =? 0 then (noGen, false)
      else match parseUint q.2 with None => (noGen, false) | Some s => (IndexGen e s, true) end
  end.

(** ** The disk copy *)

Record diskCopy := DiskCopy { dk_blob : option (bytes * Z); dk_gen : option bytes }.

(** [writeIndexGen]; [ok] is whether the temporary file and its rename succeed. *)
Definition writeIndexGen (ok : bool) (etag : bytes) (gen : indexGen) (d : diskCopy) : diskCopy :=
  if (epoch gen =? 0) || bytes_eqb etag [] then DiskCopy (dk_blob d) (if ok then None else dk_gen d)
  else if ok
  then DiskCopy (dk_blob d) (Some (formatUint (epoch gen) ++ [32] ++ formatUint (seqno gen) ++ [32] ++ etag ++ [10]))
  else d.

Definition readIndexGen (etag : bytes) (d : diskCopy) : indexGen :=
  match dk_gen d with
  | None => noGen
  | Some data =>
      match fields data with
      | [fe; fs; ft] =>
          if negb (bytes_eqb ft etag) then noGen
          else match parseUint fe, parseUint fs with
               | Some e, Some s => if e =? 0 then noGen else IndexGen e s
               | _, _ => noGen
               end
      | _ => noGen
      end
  end.

(** [writeIndexBlob]: through a temporary file and a rename. *)
Definition writeIndexBlob (ok : bool) (now : Z) (blob : bytes) (d : diskCopy) : diskCopy :=
  if ok then DiskCopy (Some (blob, now)) (dk_gen d) else d.

(** ** Positions survive the wire and the disk *)

Definition gen_wf (g : indexGen) : Prop := 0 < epoch g < 2 ^ 64 /\ 0 <= seqno g < 2 ^ 64.

Lemma format_graph n : 0 <= n < 2 ^ 64 -> Forall is_graph (formatUint n) /\ formatUint n <> [].
Proof.
  intros Hn. destruct (formatUint_spec n Hn) as (Hne & _ & Hd & _). split; [|done].
  eapply Forall_impl; [exact Hd|]. intros c. apply digit_graph.
Qed.

Lemma readIndexGen_write ok etag etag' g d : gen_wf g -> Forall is_graph etag -> etag <> [] ->
  readIndexGen etag' (writeIndexGen ok etag g d) =
    if ok then (if bytes_eqb etag etag' then g else noGen) else readIndexGen etag' d.
Proof.
  intros [He Hs] Hg Hne. unfold writeIndexGen. destruct (Z.eqb_spec (epoch g) 0) as [?|_]; [lia|]. cbn [orb].
  destruct (bytes_eqb etag []) eqn:E; [by apply bytes_eqb_eq in E|]. destruct ok; [|done].
  destruct (format_graph (epoch g) ltac:(lia)) as [Ge Ne]. destruct (format_graph (seqno g) ltac:(lia)) as [Gs Ns].
  unfold readIndexGen. cbn [dk_gen]. rewrite (fields_three _ _ _ Ge Gs Hg Ne Ns Hne). destruct (bytes_eqb etag etag'); cbn [negb]; [|done].
  rewrite !parseUint_format by lia. destruct (Z.eqb_spec (epoch g) 0); [lia|]. by destruct g.
Qed.

Lemma blobETag_graph blob : Forall is_byte blob -> Forall is_graph (blobETag blob) /\ blobETag blob <> [].
Proof.
  intros Hb. split; [|done]. unfold blobETag, quote. apply Forall_cons. split; [unfold is_graph; lia|].
  apply Forall_app. split; [|repeat constructor; unfold is_graph; lia].
  apply (Forall_drop _ (length blob - shaSize)) in Hb. unfold hex_encode. induction Hb as [|b l Hb _ IH]; [constructor|].
  cbn [flat_map app]. destruct (byte_nibbles b Hb) as (Hh & Hl & _).
  assert (Hd : forall n, 0 <= n < 16 -> is_graph (hex_digit n)) by (intros n Hn; unfold is_graph, hex_digit; destruct (Z.ltb_spec n 10); lia).
  repeat (apply Forall_cons; split; [by apply Hd|]). exact IH.
Qed.

Section client.
Context {St Sh : Type} `{!SetOps St bytes} `{!SetLaws St bytes} `{!SetOps Sh bytes} `{!SetLaws Sh bytes}.

Abbreviation keys := (@keySet St).

Record diskIndex := DiskIndex {
  di_blob : option bytes; di_keys : keys; di_etag : bytes; di_gen : indexGen; di_count : Z; di_mtime : option Z
}.

Definition readDiskIndex (readable : bool) (d : diskCopy) : diskIndex :=
  match dk_blob d with
  | None => DiskIndex None newKeySet [] noGen 0 None
  | Some (data, mtime) =>
      match (if readable then parseIndexBlob (St := St) data else inl (ITooSmall 0)) with
      | inl _ => DiskIndex None newKeySet [] noGen 0 (Some mtime)
      | inr (ks, etag) => DiskIndex (Some data) ks etag (readIndexGen etag d) (ks_Len ks) (Some mtime)
      end
  end.

(** ** The live set *)

Record keysJournal := KeysJournal { kj_added : Sh; kj_dropped : Sh }.

Record webIndex := WebIndex {
  wi_keys : keys; wi_authoritative : bool; wi_empty : bool; wi_atStart : Z;
  wi_journal : option keysJournal; wi_gen : indexGen; wi_deltaAt : option Z;
  wi_knownMiss : @hashSet bytes Sh; wi_probingOff : bool; wi_emptyBatches : Z
}.

Definition with_keys (s : webIndex) (ks : keys) (j : option keysJournal) : webIndex :=
  WebIndex ks (wi_authoritative s) (wi_empty s) (wi_atStart s) j (wi_gen s) (wi_deltaAt s)
    (wi_knownMiss s) (wi_probingOff s) (wi_emptyBatches s).

Definition with_status (s : webIndex) (auth emp : bool) (n : Z) : webIndex :=
  WebIndex (wi_keys s) auth emp n (wi_journal s) (wi_gen s) (wi_deltaAt s)
    (wi_knownMiss s) (wi_probingOff s) (wi_emptyBatches s).

Definition with_gen (s : webIndex) (g : indexGen) (at_ : option Z) : webIndex :=
  WebIndex (wi_keys s) (wi_authoritative s) (wi_empty s) (wi_atStart s) (wi_journal s) g at_
    (wi_knownMiss s) (wi_probingOff s) (wi_emptyBatches s).

Definition with_misses (s : webIndex) (m : @hashSet bytes Sh) (off : bool) (n : Z) : webIndex :=
  WebIndex (wi_keys s) (wi_authoritative s) (wi_empty s) (wi_atStart s) (wi_journal s) (wi_gen s) (wi_deltaAt s) m off n.

Definition addKeyLocked (h : bytes) (s : webIndex) : webIndex :=
  with_keys s (ks_Add (wi_keys s) h)
    ((fun j => KeysJournal (s_add h (kj_added j)) (s_remove h (kj_dropped j))) <$> wi_journal s).

Definition dropKeyLocked (h : bytes) (s : webIndex) : webIndex :=
  with_keys s (ks_Remove (wi_keys s) h)
    ((fun j => KeysJournal (s_remove h (kj_added j)) (s_add h (kj_dropped j))) <$> wi_journal s).

Definition setLiveGen (g : indexGen) (s : webIndex) : webIndex := with_gen s g (wi_deltaAt s).

(** The check-and-claim of [enqueuePut]: whether the upload goes ahead. *)
Definition claimPut (h : bytes) (s : webIndex) : bool * webIndex :=
  if ks_Contains (wi_keys s) h then (false, s) else (true, addKeyLocked h s).

Definition removeClaimed (h : bytes) (s : webIndex) : webIndex := dropKeyLocked h s.

Definition reclaimAbsent (h : bytes) (s : webIndex) : bool * webIndex :=
  let removed := ks_Contains (wi_keys s) h in
  let s := dropKeyLocked h s in
  (removed, with_misses s (hs_Add (wi_knownMiss s) h) (wi_probingOff s) (wi_emptyBatches s)).

(** ** Loading *)

Inductive loaded := LoadCancelled | LoadLive | LoadNew (ks : keys).

(** A load that brings a new set always runs beside a journal. *)
Definition adoptIndex (l : loaded) (authoritative : bool) (s : webIndex) : webIndex :=
  let j := wi_journal s in
  let s := with_keys s (wi_keys s) None in
  match l with
  | LoadCancelled => s
  | LoadLive => with_status s authoritative (wi_empty s) (wi_atStart s)
  | LoadNew ks =>
      let n := ks_Len ks in
      let ks := foldl ks_Add ks (default [] ((fun j => s_values (kj_added j)) <$> j)) in
      let ks := foldl ks_Remove ks (default [] ((fun j => s_values (kj_dropped j)) <$> j)) in
      with_status (with_keys s ks None) authoritative (n =? 0) n
  end.

(** What [startIndexLoad] decides: a delta from the copy's position, the copy as
    it stands, or a full load beside it. *)
Inductive loadPlan := PlanDelta | PlanTrust | PlanFull.

Definition startIndexLoad (now maxAge : Z) (disk : diskIndex) (s : webIndex) : loadPlan * webIndex :=
  let young := match di_mtime disk with Some m => now - m <? maxAge | None => false end in
  let has_blob := bool_decide (is_Some (di_blob disk)) in
  let install auth j := with_status (with_keys s (di_keys disk) j) auth (di_count disk =? 0) (di_count disk) in
  let fresh := Some (KeysJournal s_new s_new) in
  if has_blob && negb (epoch (di_gen disk) =? 0) then (PlanDelta, install false fresh)
  else if has_blob && (0 <? maxAge) && young then (PlanTrust, install true (wi_journal s))
  else (PlanFull, install false fresh).

(** An answer of [doIndexGET]: the reply and whether an error came with it. *)
Record indexReply := IndexReply { ir_body : bytes; ir_status : Z; ir_gen : indexGen; ir_delta : bool; ir_err : bool }.

(** [fetchIndex]: [ctxDone] is [ctx.Err() != nil] after each request, [second] the
    answer to the unconditional refetch. *)
Definition fetchIndex (now : Z) (blobOk genOk ctxDone ctxDone2 : bool) (first second : indexReply)
    (disk : diskIndex) (s : webIndex) (d : diskCopy) : (loaded * bool) * (webIndex * diskCopy) :=
  let has_blob := bool_decide (is_Some (di_blob disk)) in
  let parse (reply : indexReply) :=
    match parseIndexBlob (St := St) (ir_body reply) with
    | inl _ => ((if has_blob then LoadLive else LoadNew newKeySet, false), (s, d))
    | inr (ks, etag) =>
        let d := writeIndexBlob blobOk now (ir_body reply) d in
        let d := writeIndexGen genOk etag (ir_gen reply) d in
        ((LoadNew ks, true), (setLiveGen (ir_gen reply) s, d))
    end in
  if ir_err first then
    if ctxDone then ((LoadCancelled, false), (s, d))
    else ((if has_blob then LoadLive else LoadNew newKeySet, false), (s, d))
  else if ir_status first =? 304 then
    if has_blob then
      let d := DiskCopy ((fun bm => (bm.1, if blobOk then now else bm.2)) <$> dk_blob d) (dk_gen d) in
      ((LoadLive, true), (setLiveGen (ir_gen first) s, writeIndexGen genOk (di_etag disk) (ir_gen first) d))
    else if ir_err second then
      if ctxDone2 then ((LoadCancelled, false), (s, d)) else ((LoadNew newKeySet, false), (s, d))
    else parse second
  else parse first.

Definition persistDeltaMin : Z := 16384.

(** [persistDelta]; a panic of the encoder leaves the copy as it was. *)
Definition persistDelta (now : Z) (blobOk genOk : bool) (disk : diskIndex) (added : keys) (gen : indexGen) (d : diskCopy) : diskCopy :=
  if (0 <? ks_Len added) && (ks_Len added <? persistDeltaMin) then d
  else if ks_Len added =? 0 then
    writeIndexGen genOk (di_etag disk) gen (DiskCopy ((fun bm => (bm.1, if blobOk then now else bm.2)) <$> dk_blob d) (dk_gen d))
  else match mergeIndexBlob (default [] (di_blob disk)) added with
       | inl _ | inr None => d
       | inr (Some blob) =>
           match parseIndexBlob (St := St) blob with
           | inl _ => d
           | inr (_, etag) => writeIndexGen genOk etag gen (writeIndexBlob blobOk now blob d)
           end
       end.

(** The branch of [applyDelta] for a delta answer; the other answers adopt the
    copy ([LoadLive]) or the result of a full refresh. *)
Definition applyDelta (young : bool) (reply : indexReply) (refresh : loaded * bool) (s : webIndex) : webIndex * option keys :=
  if ir_err reply && negb (ir_status reply =? 410) then (adoptIndex LoadLive young s, None)
  else if (ir_status reply =? 200) && ir_delta reply then
    match parseIndexBlob (St := St) (ir_body reply) with
    | inl _ => (adoptIndex LoadLive young s, None)
    | inr (added, _) =>
        let ks := addAll (wi_keys s) added in
        (with_gen (with_status (with_keys s ks None) true (ks_Len ks =? 0) (wi_atStart s)) (ir_gen reply) (wi_deltaAt s),
         Some added)
    end
  else (adoptIndex refresh.1 refresh.2 s, None).

Definition LiveDeltaInterval : Z := 2 * 1000000000.

Definition refreshLiveDelta (now : Z) (reply : indexReply) (s : webIndex) : bool * webIndex :=
  if match wi_deltaAt s with Some t => now - t <? LiveDeltaInterval | None => false end then (false, s)
  else if (epoch (wi_gen s) =? 0) || bool_decide (is_Some (wi_journal s)) || negb (wi_authoritative s) then (false, s)
  else
    let s := with_gen s (wi_gen s) (Some now) in
    if ir_status reply =? 410 then (false, setLiveGen noGen s)
    else if ir_err reply || negb (ir_delta reply) then (false, s)
    else match parseIndexBlob (St := St) (ir_body reply) with
         | inl _ => (false, s)
         | inr (added, _) => (true, with_gen (with_keys s (addAll (wi_keys s) added) (wi_journal s)) (ir_gen reply) (wi_deltaAt s))
         end.

(** ** Lookups *)

(** What [get] does with a key: ask the server, or answer a miss unasked. *)
Inductive route := AskServer | MissKnown | MissEmptyIndex | MissNotInIndex | MissBackoff | ProbeServer | MissMalformed.

Definition keyKnown (h : bytes) (s : webIndex) : bool := ks_Contains (wi_keys s) h.

Definition route_get (now : Z) (reply : indexReply) (actionID : bytes) (s : webIndex) : route * webIndex :=
  match parseActionHash actionID with
  | None => (MissMalformed, s)
  | Some h =>
      if keyKnown h s then (AskServer, s)
      else
        let '(refreshed, s) := refreshLiveDelta now reply s in
        if refreshed && keyKnown h s then (AskServer, s)
        else if hs_Contains (wi_knownMiss s) h then (MissKnown, s)
        else if wi_authoritative s then ((if wi_empty s then MissEmptyIndex else MissNotInIndex), s)
        else if wi_probingOff s then (MissBackoff, s)
        else (ProbeServer, s)
  end.

(** The empty-batch backoff of [web_resilience.go]. *)
Definition noteBatchEntries (threshold n : Z) (s : webIndex) : webIndex :=
  if (threshold <=? 0) || wi_probingOff s then s
  else if 0 <? n then with_misses s (wi_knownMiss s) (wi_probingOff s) 0
  else
    let c := wi_emptyBatches s + 1 in
    with_misses s (wi_knownMiss s) (threshold <=? c) c.

(** ** The journal *)

Inductive keyOp := OpClaim (h : bytes) | OpDrop (h : bytes).

Definition op_hash (o : keyOp) : bytes := match o with OpClaim h | OpDrop h => h end.

Definition run_live (s : webIndex) (o : keyOp) : webIndex :=
  match o with OpClaim h => addKeyLocked h s | OpDrop h => dropKeyLocked h s end.

Definition run_key (ks : keys) (o : keyOp) : keys :=
  match o with OpClaim h => ks_Add ks h | OpDrop h => ks_Remove ks h end.

(** Distinct hashes of the operations are distinct at the width of the set. *)
Definition no_clash (ks : keys) (ops : list keyOp) : Prop :=
  forall o o', o ∈ ops -> o' ∈ ops -> ks_key ks (op_hash o) = ks_key ks (op_hash o') -> op_hash o = op_hash o'.

Lemma ks_key_shift (a b : keys) h : ks_shift a = ks_shift b -> ks_key a h = ks_key b h.
Proof. intros E. unfold ks_key, maskKey, ks_mask. by rewrite E. Qed.

Lemma ks_Add_contains (ks : keys) h x : hs_inv (ks_keys ks) ->
  hs_inv (ks_keys (ks_Add ks h)) /\
  ks_Contains (ks_Add ks h) x = bool_decide (ks_key ks x = ks_key ks h) || ks_Contains ks x.
Proof.
  intros Hi. destruct (hs_Add_ok (ks_keys ks) (ks_key ks h) Hi) as [H1 H2]. split; [done|].
  apply eq_true_iff_eq. unfold ks_Contains at 1. rewrite (ks_key_shift (ks_Add ks h) ks) by done. cbn [ks_Add ks_keys].
  rewrite hs_Contains_ok, H2, orb_true_iff, bool_decide_eq_true by done. unfold ks_Contains. by rewrite hs_Contains_ok.
Qed.

Lemma ks_Remove_contains (ks : keys) h x : hs_inv (ks_keys ks) ->
  hs_inv (ks_keys (ks_Remove ks h)) /\
  ks_Contains (ks_Remove ks h) x = negb (bool_decide (ks_key ks x = ks_key ks h)) && ks_Contains ks x.
Proof.
  intros Hi. destruct (hs_Remove_ok (ks_keys ks) (ks_key ks h) Hi) as [H1 H2]. split; [done|].
  apply eq_true_iff_eq. unfold ks_Contains at 1. rewrite (ks_key_shift (ks_Remove ks h) ks) by done. cbn [ks_Remove ks_keys].
  rewrite hs_Contains_ok, H2, andb_true_iff, negb_true_iff, bool_decide_eq_false by done. unfold ks_Contains. rewrite hs_Contains_ok by done. tauto.
Qed.

(** Whether some hash of a list has the key of [x]. *)
Definition meets (ks : keys) (l : list bytes) (x : bytes) : bool := existsb (fun h => bool_decide (ks_key ks x = ks_key ks h)) l.

Lemma meets_shift (a b : keys) l x : ks_shift a = ks_shift b -> meets a l x = meets b l x.
Proof.
  intros E. unfold meets. induction l as [|h l IH]; [done|]. cbn [existsb]. rewrite IH.
  by rewrite (ks_key_shift a b x E), (ks_key_shift a b h E).
Qed.

Lemma meets_spec (ks : keys) l x : meets ks l x = true <-> exists h, h ∈ l /\ ks_key ks x = ks_key ks h.
Proof.
  unfold meets. rewrite existsb_exists. split; intros (h & Hh & E); exists h.
  - apply bool_decide_eq_true in E. by rewrite list_elem_of_In.
  - rewrite <- list_elem_of_In. by rewrite bool_decide_eq_true.
Qed.

Lemma add_all_contains l : forall (ks : keys) x, hs_inv (ks_keys ks) ->
  hs_inv (ks_keys (foldl ks_Add ks l)) /\ ks_shift (foldl ks_Add ks l) = ks_shift ks /\
  ks_Contains (foldl ks_Add ks l) x = meets ks l x || ks_Contains ks x.
Proof.
  induction l as [|h l IH]; intros ks x Hi; cbn [foldl]; [done|].
  destruct (ks_Add_contains ks h x Hi) as [Hi' Hc]. destruct (IH (ks_Add ks h) x Hi') as (H1 & H2 & H3).
  split_and!; [done|by rewrite H2|]. rewrite H3, Hc, (meets_shift (ks_Add ks h) ks) by done. unfold meets. cbn [existsb].
  by destruct (bool_decide _), (existsb _ _).
Qed.

Lemma remove_all_contains l : forall (ks : keys) x, hs_inv (ks_keys ks) ->
  hs_inv (ks_keys (foldl ks_Remove ks l)) /\ ks_Contains (foldl ks_Remove ks l) x = negb (meets ks l x) && ks_Contains ks x.
Proof.
  induction l as [|h l IH]; intros ks x Hi; cbn [foldl]; [done|].
  destruct (ks_Remove_contains ks h x Hi) as [Hi' Hc]. destruct (IH (ks_Remove ks h) x Hi') as (H1 & H3).
  split; [done|]. rewrite H3, Hc, (meets_shift (ks_Remove ks h) ks) by done. unfold meets. cbn [existsb].
  by destruct (bool_decide _), (existsb _ _).
Qed.

Lemma run_key_contains (ks : keys) o x : hs_inv (ks_keys ks) ->
  hs_inv (ks_keys (run_key ks o)) /\ ks_shift (run_key ks o) = ks_shift ks /\
  ks_Contains (run_key ks o) x =
    if bool_decide (ks_key ks x = ks_key ks (op_hash o)) then (if o is OpClaim _ then true else false) else ks_Contains ks x.
Proof.
  intros Hi. destruct o as [h|h]; cbn [run_key op_hash].
  - destruct (ks_Add_contains ks h x Hi) as [H1 ->]. split_and!; [done..|]. by destruct (bool_decide _).
  - destruct (ks_Remove_contains ks h x Hi) as [H1 ->]. split_and!; [done..|]. by destruct (bool_decide _).
Qed.

Lemma run_keys_inv ops : forall (ks : keys), hs_inv (ks_keys ks) ->
  hs_inv (ks_keys (foldl run_key ks ops)) /\ ks_shift (foldl run_key ks ops) = ks_shift ks.
Proof.
  induction ops as [|o ops IH]; intros ks Hi; cbn [foldl]; [done|].
  destruct (run_key_contains ks o [] Hi) as (H1 & H2 & _). destruct (IH _ H1) as [H3 H4]. split; [done|]. by rewrite H4.
Qed.

Lemma meets_add (ks : keys) (S : Sh) h x :
  meets ks (s_values (s_add h S)) x = bool_decide (ks_key ks x = ks_key ks h) || meets ks (s_values S) x.
Proof.
  apply eq_true_iff_eq. rewrite orb_true_iff, bool_decide_eq_true, !meets_spec. split.
  - intros (y & Hy & E). rewrite elem_of_values, contains_add, orb_true_iff, bool_decide_eq_true in Hy.
    destruct Hy as [->|Hy]; [by left|right]. exists y. by rewrite elem_of_values.
  - intros [E|(y & Hy & E)]; [exists h|exists y]; rewrite elem_of_values, contains_add in *; [by rewrite bool_decide_true|].
    by rewrite Hy, orb_true_r.
Qed.

Lemma meets_remove (ks : keys) (S : Sh) h x :
  (forall y, s_contains S y = true -> ks_key ks y = ks_key ks h -> y = h) ->
  meets ks (s_values (s_remove h S)) x = if bool_decide (ks_key ks x = ks_key ks h) then false else meets ks (s_values S) x.
Proof.
  intros HS. apply eq_true_iff_eq. rewrite meets_spec. split.
  - intros (y & Hy & E). rewrite elem_of_values, contains_remove, andb_true_iff, negb_true_iff, bool_decide_eq_false in Hy.
    destruct Hy as [Hne Hy]. rewrite bool_decide_false; [apply meets_spec; exists y; by rewrite elem_of_values|].
    intros E'. apply Hne, HS; [done|congruence].
  - destruct (bool_decide_reflect (ks_key ks x = ks_key ks h)) as [|Hne]; [done|]. rewrite meets_spec.
    intros (y & Hy & E). exists y. rewrite elem_of_values in *. rewrite contains_remove, Hy, bool_decide_false by (intros ->; done). done.
Qed.

(** The net effect of the journal on a set. *)
Definition net (ks : keys) (j : keysJournal) (x : bytes) : bool :=
  negb (meets ks (s_values (kj_dropped j)) x) && (meets ks (s_values (kj_added j)) x || ks_Contains ks x).

Lemma journal_net (ks : keys) s0 ops : hs_inv (ks_keys ks) -> wi_journal s0 = Some (KeysJournal s_new s_new) -> no_clash ks ops ->
  exists j, wi_journal (foldl run_live s0 ops) = Some j /\
    (forall h, s_contains (kj_added j) h = true \/ s_contains (kj_dropped j) h = true -> exists o, o ∈ ops /\ op_hash o = h) /\
    (forall x, ks_Contains (foldl run_key ks ops) x = net ks j x).
Proof.
  intros Hi Hj. induction ops as [|o ops IH] using rev_ind; intros Hnc.
  { exists (KeysJournal s_new s_new). split; [done|]. split; [intros h; cbn; rewrite !contains_new; by intros []|].
    intros x. unfold net. cbn [kj_added kj_dropped foldl].
    assert (Hn : meets ks (s_values (s_new : Sh)) x = false); [|by rewrite Hn].
    apply not_true_iff_false. rewrite meets_spec. intros (h & Hh & _). apply elem_of_values in Hh. by rewrite contains_new in Hh. }
  destruct IH as (j & Hj1 & Hsub & Hnet). { intros o1 o2 H1 H2. apply Hnc; rewrite elem_of_app; auto. }
  rewrite foldl_app. cbn [foldl].
  exists (match o with OpClaim h => KeysJournal (s_add h (kj_added j)) (s_remove h (kj_dropped j))
                     | OpDrop h => KeysJournal (s_remove h (kj_added j)) (s_add h (kj_dropped j)) end).
  split; [|split].
  - destruct o as [h|h]; unfold run_live at 1, addKeyLocked, dropKeyLocked; cbn [with_keys wi_journal]; by rewrite Hj1.
  - intros x Hx. destruct (decide (x = op_hash o)) as [->|Hne]; [exists o; rewrite elem_of_app, list_elem_of_singleton; auto|].
    destruct (Hsub x) as (o' & Ho & Hh); [|exists o'; rewrite elem_of_app; auto].
    destruct o as [h|h]; cbn [kj_added kj_dropped op_hash] in *; rewrite contains_add, contains_remove, bool_decide_false in Hx by done;
      by rewrite ?orb_false_l, ?andb_true_l in Hx.
  - intros x. rewrite foldl_app. cbn [foldl]. destruct (run_keys_inv ops ks Hi) as [Hi1 Hs1].
    destruct (run_key_contains (foldl run_key ks ops) o x Hi1) as (_ & _ & ->). rewrite Hnet.
    rewrite (ks_key_shift _ ks x Hs1), (ks_key_shift _ ks (op_hash o) Hs1). unfold net.
    assert (Hrem : forall S : Sh, (forall h, s_contains S h = true -> exists o', o' ∈ ops /\ op_hash o' = h) ->
      forall y, s_contains S y = true -> ks_key ks y = ks_key ks (op_hash o) -> y = op_hash o).
    { intros S HS y Hy E. destruct (HS y Hy) as (o' & Ho' & <-).
      apply Hnc; [rewrite elem_of_app; auto|rewrite elem_of_app, list_elem_of_singleton; auto|done]. }
    destruct o as [h|h]; cbn [kj_added kj_dropped op_hash] in *; rewrite meets_add, meets_remove by (apply Hrem; intros; apply Hsub; auto);
      destruct (bool_decide _); cbn [negb orb andb]; done.
Qed.

Lemma run_live_keys ops : forall s, wi_keys (foldl run_live s ops) = foldl run_key (wi_keys s) ops.
Proof. induction ops as [|o ops IH]; intros s; [done|]. cbn [foldl]. rewrite IH. by destruct o. Qed.

(** The last operation on a hash decides. *)
Lemma claimed_contains (ks : keys) ops1 h ops2 : hs_inv (ks_keys ks) -> no_clash ks (ops1 ++ OpClaim h :: ops2) -> OpDrop h ∉ ops2 ->
  ks_Contains (foldl run_key ks (ops1 ++ OpClaim h :: ops2)) h = true.
Proof.
  intros Hi. rewrite foldl_app. cbn [foldl]. destruct (run_keys_inv ops1 ks Hi) as [Hi1 Hs1].
  induction ops2 as [|o ops2 IH] using rev_ind; intros Hnc Hnd.
  { cbn [foldl]. destruct (run_key_contains (foldl run_key ks ops1) (OpClaim h) h Hi1) as (_ & _ & ->).
    cbn [op_hash]. by rewrite bool_decide_true. }
  rewrite elem_of_app, list_elem_of_singleton in Hnd. rewrite foldl_app. cbn [foldl].
  destruct (run_key_contains (foldl run_key ks ops1) (OpClaim h) h Hi1) as (Hi2 & Hs2 & _).
  destruct (run_keys_inv ops2 _ Hi2) as [Hi3 Hs3].
  destruct (run_key_contains (foldl run_key (run_key (foldl run_key ks ops1) (OpClaim h)) ops2) o h Hi3) as (_ & _ & ->).
  rewrite (ks_key_shift _ ks h), (ks_key_shift _ ks (op_hash o)) by congruence.
  destruct (bool_decide_reflect (ks_key ks h = ks_key ks (op_hash o))) as [E|_].
  - destruct o as [h'|h']; [done|]. exfalso. apply Hnd. right. f_equal. cbn [op_hash] in E.
    apply (Hnc (OpClaim h) (OpDrop h')); [set_solver|set_solver|done].
  - apply IH; [|tauto]. intros o1 o2 H1 H2. apply Hnc; set_solver.
Qed.

(** C39. While an index load runs, the claims and drops made on the live set
    are not lost: whatever the load brings, the set in use afterwards is the one
    all those operations would have made of it, in order.  So a key claimed by an
    upload and not dropped since is asked of the server, never missed. *)
Theorem load_keeps_claims s0 ops ks auth :
  wi_journal s0 = Some (KeysJournal s_new s_new) -> hs_inv (ks_keys (wi_keys s0)) -> hs_inv (ks_keys ks) ->
  no_clash ks ops -> no_clash (wi_keys s0) ops ->
  let s1 := foldl run_live s0 ops in
  (forall x, ks_Contains (wi_keys (adoptIndex (LoadNew ks) auth s1)) x = ks_Contains (foldl run_key ks ops) x) /\
  (forall l, l <> LoadNew ks -> (forall ks', l <> LoadNew ks') ->
     wi_keys (adoptIndex l auth s1) = foldl run_key (wi_keys s0) ops) /\
  (forall l ops1 h ops2 now reply id, l = LoadNew ks \/ l = LoadLive \/ l = LoadCancelled ->
     ops = ops1 ++ OpClaim h :: ops2 -> OpDrop h ∉ ops2 -> parseActionHash id = Some h ->
     (route_get now reply id (adoptIndex l auth s1)).1 = AskServer).
Proof.
  intros Hj Hi0 Hi Hnc Hnc0. cbv zeta.
  assert (Hnew : forall x, ks_Contains (wi_keys (adoptIndex (LoadNew ks) auth (foldl run_live s0 ops))) x = ks_Contains (foldl run_key ks ops) x).
  { intros x. destruct (journal_net ks s0 ops Hi Hj Hnc) as (j & Hj1 & _ & Hnet). rewrite Hnet. unfold adoptIndex, net.
    rewrite Hj1. cbn [with_status with_keys wi_keys fmap option_fmap option_map from_option].
    destruct (add_all_contains (s_values (kj_added j)) ks x Hi) as (Ha1 & Ha2 & Ha3).
    destruct (remove_all_contains (s_values (kj_dropped j)) _ x Ha1) as (_ & Hr). unfold id. rewrite Hr, Ha3.
    by rewrite (meets_shift (foldl ks_Add ks (s_values (kj_added j))) ks) by done. }
  assert (Hlive : forall l, (forall ks', l <> LoadNew ks') -> wi_keys (adoptIndex l auth (foldl run_live s0 ops)) = foldl run_key (wi_keys s0) ops).
  { intros l Hl. rewrite <- run_live_keys. destruct l as [| |ks']; [done..|]. by destruct (Hl ks'). }
  split; [done|]. split; [intros l _; apply Hlive|].
  intros l ops1 h ops2 now reply id Hl Hops Hnd Hp. unfold route_get. rewrite Hp. unfold keyKnown.
  assert (Hc : ks_Contains (wi_keys (adoptIndex l auth (foldl run_live s0 ops))) h = true); [|by rewrite Hc].
  destruct Hl as [-> |Hl].
  - rewrite Hnew, Hops. apply claimed_contains; [done| |done]. by rewrite <- Hops.
  - rewrite Hlive by (by destruct Hl as [-> | ->]). rewrite Hops. apply claimed_contains; [done| |done]. by rewrite <- Hops.
Qed.

(** The position an index copy is read back with belongs to the blob beside it:
    [pairs] relates each blob to the positions the server named for it. *)
Definition copy_ok (pairs : bytes -> indexGen -> Prop) (d : diskCopy) : Prop :=
  forall readable, let r := readDiskIndex readable d in
  epoch (di_gen r) <> 0 -> exists blob, blobETag blob = di_etag r /\ pairs blob (di_gen r).

Definition gen_file_ok (pairs : bytes -> indexGen -> Prop) (d : diskCopy) : Prop :=
  forall etag, epoch (readIndexGen etag d) <> 0 -> exists blob, blobETag blob = etag /\ pairs blob (readIndexGen etag d).

Lemma gen_file_copy pairs d : gen_file_ok pairs d -> copy_ok pairs d.
Proof.
  intros Hg readable. cbv zeta. unfold readDiskIndex. destruct (dk_blob d) as [[data m]|]; [|done].
  destruct (if readable then _ else _) as [?|[ks etag]]; [done|]. cbn [di_gen di_etag]. apply Hg.
Qed.

Lemma write_gen_ok (pairs : bytes -> indexGen -> Prop) ok blob g d : Forall is_byte blob -> (epoch g = 0 \/ (gen_wf g /\ pairs blob g)) ->
  gen_file_ok pairs d -> gen_file_ok pairs (writeIndexGen ok (blobETag blob) g d).
Proof.
  intros Hb Hg Hd etag. destruct (blobETag_graph blob Hb) as [Hgr Hne]. destruct Hg as [Hz|[Hw Hp]].
  - unfold writeIndexGen. rewrite Hz. cbn [Z.eqb orb]. destruct ok; [done|]. apply Hd.
  - rewrite readIndexGen_write by done. destruct ok; [|apply Hd]. destruct (bytes_eqb (blobETag blob) etag) eqn:E; [|done].
    apply bytes_eqb_eq in E. intros _. by exists blob.
Qed.

(** What the client writes is about [named]: the positions the server gave for
    a blob, sent whole, confirmed by its ETag, or brought up to by a delta. *)
Section positions.
Context (named : bytes -> indexGen -> Prop).

Definition names_etag (etag : bytes) (g : indexGen) : Prop :=
  epoch g = 0 \/ (gen_wf g /\ exists blob, Forall is_byte blob /\ blobETag blob = etag /\ named blob g).

Definition honest_reply (etag : bytes) (r : indexReply) : Prop :=
  ir_err r = false ->
  if ir_status r =? 304 then names_etag etag (ir_gen r)
  else forall ks etag', parseIndexBlob (St := St) (ir_body r) = inr (ks, etag') -> names_etag etag' (ir_gen r).

Inductive disk_step (d : diskCopy) : diskCopy -> Prop :=
  | disk_fetch now bOk gOk c1 c2 first second disk s :
      honest_reply (di_etag disk) first -> (ir_err second = false -> ir_status second <> 304) -> honest_reply [] second ->
      disk_step d (fetchIndex now bOk gOk c1 c2 first second disk s d).2.2
  | disk_persist now bOk gOk disk added g :
      (ks_Len added = 0 -> names_etag (di_etag disk) g) ->
      (forall blob, mergeIndexBlob (St := St) (default [] (di_blob disk)) added = inr (Some blob) -> names_etag (blobETag blob) g) ->
      disk_step d (persistDelta now bOk gOk disk added g d).

Lemma gen_only ok etag g d b : gen_file_ok named d -> names_etag etag g -> gen_file_ok named (writeIndexGen ok etag g (DiskCopy b (dk_gen d))).
Proof.
  intros Hd Hn. assert (Hd' : gen_file_ok named (DiskCopy b (dk_gen d))) by exact Hd.
  destruct Hn as [Hz|(Hw & blob & Hb & <- & Hnm)].
  - intros e. unfold writeIndexGen. rewrite Hz. cbn [Z.eqb orb]. destruct ok; [done|]. apply Hd'.
  - apply write_gen_ok; auto.
Qed.

Lemma blob_then_gen ok ok' now blob etag g d : gen_file_ok named d -> names_etag etag g ->
  gen_file_ok named (writeIndexGen ok etag g (writeIndexBlob ok' now blob d)).
Proof.
  intros Hd Hn. unfold writeIndexBlob. destruct ok'; [by apply gen_only|].
  replace d with (DiskCopy (dk_blob d) (dk_gen d)) by (by destruct d). by apply gen_only.
Qed.

Lemma disk_step_ok d d' : gen_file_ok named d -> disk_step d d' -> gen_file_ok named d'.
Proof.
  intros Hd Hs. destruct Hs as [now bOk gOk c1 c2 first second disk s H1 Hns H2|now bOk gOk disk added g He Hm].
  - unfold fetchIndex. cbv zeta. unfold honest_reply in *. destruct (ir_err first); [by destruct c1|]. specialize (H1 eq_refl).
    destruct (Z.eqb_spec (ir_status first) 304).
    + destruct (bool_decide _); [by apply gen_only|]. destruct (ir_err second); [by destruct c2|]. specialize (H2 eq_refl). specialize (Hns eq_refl).
      destruct (Z.eqb_spec (ir_status second) 304); [done|].
      destruct (parseIndexBlob (ir_body second)) as [?|[ks etag]] eqn:Ep; cbn [snd]; [done|]. specialize (H2 _ _ eq_refl).
      by apply blob_then_gen.
    + destruct (parseIndexBlob (ir_body first)) as [?|[ks etag]] eqn:Ep; cbn [snd]; [done|]. specialize (H1 _ _ eq_refl).
      by apply blob_then_gen.
  - unfold persistDelta. destruct (_ && _); [done|]. destruct (Z.eqb_spec (ks_Len added) 0) as [Hz|_]; [by apply gen_only; auto|].
    destruct (mergeIndexBlob _ _) as [?|[blob|]] eqn:Em; [done| |done]. specialize (Hm _ eq_refl).
    destruct (parseIndexBlob blob) as [?|[ks etag]] eqn:Ep; [done|]. apply parse_etag in Ep as ->.
    by apply blob_then_gen.
Qed.

(** The stored position is never that of another copy: after any number of
    fetches and delta merges, with any of their file operations failing, an index
    copy read back from disk carries either no position or one the server named
    for a blob with the copy's ETag. *)
Theorem disk_position_matches d readable :
  rtc disk_step (DiskCopy None None) d ->
  let r := readDiskIndex readable d in
  epoch (di_gen r) <> 0 -> exists blob, blobETag blob = di_etag r /\ named blob (di_gen r).
Proof.
  intros Hr. apply gen_file_copy. apply rtc_ind_r with (P := gen_file_ok named) in Hr; [done|by intros e|].
  intros x y _ Hxy Hx. by eapply disk_step_ok.
Qed.
End positions.
End client.

(** A position travels unchanged: as the headers of an answer, as the query
    of a delta request, and through the file beside the index copy. *)
Theorem position_roundtrip g etag etag' d : gen_wf g -> Forall is_graph etag -> etag <> [] ->
  indexGenFromHeader (setIndexGenHeaders g).1 (setIndexGenHeaders g).2 = g /\
  indexGenFromQuery (deltaQuery g) = (g, true) /\
  readIndexGen etag' (writeIndexGen true etag g d) = (if bytes_eqb etag etag' then g else noGen) /\
  indexGenFromHeader (setIndexGenHeaders noGen).1 (setIndexGenHeaders noGen).2 = noGen.
Proof.
  intros Hg Hgr Hne. pose proof Hg as [He Hs]. split; [|split; [|split; [by apply (readIndexGen_write true)|done]]].
  - unfold setIndexGenHeaders. destruct (Z.eqb_spec (epoch g) 0); [lia|]. unfold indexGenFromHeader. cbn [fst snd from_option id].
    rewrite !parseUint_format by lia. by destruct g.
  - unfold indexGenFromQuery, deltaQuery. cbn [fst snd]. rewrite !parseUint_format by lia.
    destruct (Z.eqb_spec (epoch g) 0); [lia|]. by destruct g.
Qed.

(** ** Concrete runs *)

Lemma position_roundtrip_witness :
  indexGenFromQuery (deltaQuery (IndexGen 77 5)) = (IndexGen 77 5, true) /\
  readIndexGen (str "tag") (writeIndexGen true (str "tag") (IndexGen 77 5) (DiskCopy None None)) = IndexGen 77 5.
Proof.
  assert (Hg : Forall is_graph (str "tag")) by (change (str "tag") with [116; 97; 103]; repeat (apply Forall_cons; split; [unfold is_graph; lia|]); apply Forall_nil; done).
  destruct (position_roundtrip (IndexGen 77 5) (str "tag") (str "tag") (DiskCopy None None) ltac:(split; cbn; lia) Hg ltac:(done))
    as (_ & H1 & H2 & _). split; [exact H1|exact H2].
Defined.

Abbreviation demoSet := (gset bytes).
Definition demoEmpty : @webIndex demoSet demoSet :=
  WebIndex newKeySet false true 0 (Some (KeysJournal s_new s_new)) noGen None newSortedSet false 0.
Definition demoHash (b : Z) : bytes := replicate 32 b.
Definition demoClaims : list keyOp := [OpClaim (demoHash 7); OpDrop (demoHash 9)].
Definition demoLoaded : @keySet demoSet := adoptSortedKeys [take 8 (demoHash 9)].

Lemma load_keeps_claims_witness :
  let s := adoptIndex (LoadNew demoLoaded) true (foldl run_live demoEmpty demoClaims) in
  (route_get 0 (IndexReply [] 0 noGen false true) (hex_encode (demoHash 7)) s).1 = AskServer /\
  ks_Contains (wi_keys s) (demoHash 9) = false.
Proof.
  assert (Hnc : forall ks : @keySet demoSet, ks_shift ks = 0 -> no_clash ks demoClaims).
  { intros ks Hk o o' Ho Ho'. rewrite !(ks_key_shift ks newKeySet) by (by rewrite Hk).
    unfold demoClaims in *. repeat (apply elem_of_cons in Ho as [->|Ho]; [|]); try (by apply not_elem_of_nil in Ho);
      repeat (apply elem_of_cons in Ho' as [->|Ho']; [|]); try (by apply not_elem_of_nil in Ho'); vm_compute; done. }
  destruct (load_keeps_claims demoEmpty demoClaims demoLoaded true eq_refl (proj1 (adoptSorted_ok [])) (proj1 (adoptSorted_ok _))
    (Hnc demoLoaded eq_refl) (Hnc newKeySet eq_refl)) as (Hc & _ & Ha).
  cbv zeta. split.
  - eapply (Ha (LoadNew demoLoaded) [] (demoHash 7) [OpDrop (demoHash 9)]); [by left|done| |vm_compute; reflexivity].
    intros H%list_elem_of_singleton. done.
  - rewrite Hc. vm_compute. reflexivity.
Defined.

Definition demoIndexBlob : bytes := marshalForm demoHashes (IndexForm 2 40).
Definition demoReply : indexReply := IndexReply demoIndexBlob 200 (IndexGen 77 5) false false.
Definition noReply : indexReply := IndexReply [] 0 noGen false true.
Definition demoCopyDisk : diskCopy :=
  (fetchIndex 0 true true false false demoReply noReply (readDiskIndex true (DiskCopy None None)) demoEmpty (DiskCopy None None)).2.2.

Lemma demo_blob_bytes : Forall is_byte demoIndexBlob.
Proof.
  assert (H : forallb (fun b => (0 <=? b) && (b <? 2 ^ 8)) demoIndexBlob = true) by (vm_compute; reflexivity).
  apply Forall_forall. intros b Hb%list_elem_of_In. apply (proj1 (forallb_forall _ _) H) in Hb. bool2prop. by split.
Qed.

Lemma disk_position_matches_witness :
  epoch (di_gen (readDiskIndex (St := demoSet) true demoCopyDisk)) = 77 /\
  exists blob, blobETag blob = di_etag (readDiskIndex (St := demoSet) true demoCopyDisk) /\ blob = demoIndexBlob.
Proof.
  assert (He : epoch (di_gen (readDiskIndex (St := demoSet) true demoCopyDisk)) = 77) by (vm_compute; reflexivity).
  split; [exact He|].
  assert (Hstep : rtc (disk_step (St := demoSet) (Sh := demoSet) (fun blob _ => blob = demoIndexBlob)) (DiskCopy None None) demoCopyDisk).
  { apply rtc_once. apply disk_fetch; [|done|done]. intros _. cbn [demoReply ir_status Z.eqb Pos.eqb ir_body ir_gen].
    intros ks etag' Hp. right. split; [split; cbn; lia|]. exists demoIndexBlob. split; [exact demo_blob_bytes|].
    split; [|reflexivity]. by apply parse_etag in Hp. }
  destruct (disk_position_matches (St := demoSet) (Sh := demoSet) (fun blob _ => blob = demoIndexBlob) demoCopyDisk true Hstep) as (blob & H1 & H2).
  - rewrite He. lia.
  - exists blob. split; [exact H1|exact H2].
Defined.
