(* ===== verification/DiskCache.v ===== *)
(** * The client's cache directory

    [cacheclient/cachedisk/diskcache.go]: action entries ([-a] files), outputs
    ([-d] files), and the trim.  A file is known by its subdirectory and name.
    Each system call that can fail has its outcome in an environment record.
    [copyFile] lists every state of the directory another process can see while
    it runs; its result is the last of them.  The lock around the trim stamp
    ([disklock.go]) makes [transformFile] one step.  Times are nanoseconds. *)

From Stdlib Require Import ZArith Lia List Bool String.
From stdpp Require Import base gmap list.
From S2P Require Import Prelude Strconv Keys Sha256.

(** ** Data *)

Definition HashSize : nat := 32.
Definition hexSize : nat := HashSize * 2.
Definition entrySize : nat := 2 + 1 + hexSize + 1 + hexSize + 1 + 20 + 1 + 20 + 1.

Definition second : Z := 1000000000.
Definition mtimeInterval : Z := 3600 * second.
Definition trimInterval : Z := 24 * 3600 * second.
Definition trimLimit : Z := 5 * 24 * 3600 * second.

Record dfile := DFile { df_data : bytes; df_mtime : Z; df_isDir : bool }.

Record DiskCache := MkDiskCache { dc_files : gmap (bytes * bytes) dfile; dc_stamp : option bytes }.

Record Entry := MkEntry { e_OutputID : bytes; e_Size : Z; e_Time : Z }.

(** The reasons a [MissError] carries. *)
Inductive missReason :=
  | MissOS | MissTooLong | MissEmpty | MissIncomplete | MissHeader | MissID | MissWrongID | MissOutputID
  | MissSize | MissNegSize | MissTime | MissNegTime | MissVerify | MissFile | MissChecksum.

Definition with_file (p : bytes * bytes) (f : option dfile) (c : DiskCache) : DiskCache :=
  MkDiskCache (match f with Some f => <[p := f]> (dc_files c) | None => delete p (dc_files c) end) (dc_stamp c).

Definition fileName (id : bytes) (key : bytes) : bytes * bytes :=
  (hex_encode (take 1 id), hex_encode id ++ str "-" ++ key).

(** ** Entries *)

(** [fmt.Sprintf("v1 %x %x %20d %20d\n", ...)]. *)
Definition formatEntry (id out : bytes) (size tm : Z) : bytes :=
  str "v1 " ++ hex_encode id ++ [32] ++ hex_encode out ++ [32] ++ pad20 (formatInt size) ++ [32] ++
  pad20 (formatInt tm) ++ [10].

Fixpoint skip_blanks (s : bytes) : bytes :=
  match s with
  | [] => []
  | c :: s' => if c =? 32 then skip_blanks s' else s
  end.

Definition byte_at (s : bytes) (i : nat) : Z := default 0 (s !! i).

(** The checks of [get] on the text of an entry file, in the code's order. *)
Definition parseEntry (id : bytes) (text : bytes) : Entry + missReason :=
  if (entrySize <? length text)%nat then inr MissTooLong
  else if (length text =? 0)%nat then inr MissEmpty
  else if (length text <? entrySize)%nat then inr MissIncomplete
  else if negb (byte_at text 0 =? 118) || negb (byte_at text 1 =? 49) || negb (byte_at text 2 =? 32)
       || negb (byte_at text (3 + hexSize) =? 32) || negb (byte_at text (3 + hexSize + 1 + hexSize) =? 32)
       || negb (byte_at text (3 + hexSize + 1 + hexSize + 1 + 20) =? 32) || negb (byte_at text (entrySize - 1) =? 10)
  then inr MissHeader
  else
    let eid := take hexSize (drop 3 text) in
    let rest := drop (3 + hexSize) text in
    let eout := take hexSize (drop 1 rest) in
    let rest := drop (1 + hexSize) rest in
    let esize := take 20 (drop 1 rest) in
    let rest := drop (1 + 20) rest in
    let etime := take 20 (drop 1 rest) in
    match hex_decode eid with
    | None => inr MissID
    | Some buf =>
        if negb (bytes_eqb buf id) then inr MissWrongID
        else match hex_decode eout with
        | None => inr MissOutputID
        | Some out =>
            match parseInt (skip_blanks esize) with
            | None => inr MissSize
            | Some size =>
                if size <? 0 then inr MissNegSize
                else match parseInt (skip_blanks etime) with
                | None => inr MissTime
                | Some tm => if tm <? 0 then inr MissNegTime else inl (MkEntry out size tm)
                end
            end
        end
    end.

(** ** Reading *)

(** Whether opening and reading the entry, and stamping a file, work. *)
Record getEnv := GetEnv { ge_open : bool; ge_read : bool; ge_stat : bool; ge_chtimes : bool }.

Definition markUsed (env : getEnv) (now : Z) (p : bytes * bytes) (c : DiskCache) : bool * DiskCache :=
  match dc_files c !! p with
  | None => (false, c)
  | Some f =>
      if negb (ge_stat env) then (false, c)
      else (df_isDir f,
            if (mtimeInterval <=? now - df_mtime f) && ge_chtimes env
            then with_file p (Some (DFile (df_data f) now (df_isDir f))) c else c)
  end.

Definition get (env : getEnv) (now : Z) (id : bytes) (c : DiskCache) : (Entry + missReason) * DiskCache :=
  match dc_files c !! fileName id (str "a") with
  | None => (inr MissOS, c)
  | Some f =>
      if negb (ge_open env) then (inr MissOS, c)
      else if df_isDir f || negb (ge_read env) then (inr MissOS, c)
      else match parseEntry id (df_data f) with
           | inr e => (inr e, c)
           | inl e => (inl e, (markUsed env now (fileName id (str "a")) c).2)
           end
  end.

(** [verify] is the process-wide gocacheverify switch. *)
Definition Get (verify : bool) (env : getEnv) (now : Z) (id : bytes) (c : DiskCache) : (Entry + missReason) * DiskCache :=
  if verify then (inr MissVerify, c) else get env now id c.

Definition OutputFile (env : getEnv) (now : Z) (out : bytes) (c : DiskCache) : (bytes * bytes) * DiskCache :=
  let file := fileName out (str "d") in (file, (markUsed env now file c).2).

(** The size [os.Stat] reports; a directory's is not its data. *)
Definition GetFile (verify : bool) (env : getEnv) (now : Z) (id : bytes) (c : DiskCache)
  : ((bytes * bytes) * Entry + missReason) * DiskCache :=
  let '(r, c) := Get verify env now id c in
  match r with
  | inr e => (inr e, c)
  | inl entry =>
      let '(file, c) := OutputFile env now (e_OutputID entry) c in
      match dc_files c !! file with
      | None => (inr MissFile, c)
      | Some f =>
          if negb (ge_stat env) then (inr MissFile, c)
          else if negb (Z.of_nat (length (df_data f)) =? e_Size entry) then (inr MissIncomplete, c)
          else (inl (file, entry), c)
      end
  end.

(** [os.ReadFile]'s error is dropped: what was read before it is hashed.
    [readable] is how much of the file the read delivers. *)
Definition GetBytes (verify : bool) (env : getEnv) (readable : nat) (now : Z) (id : bytes) (c : DiskCache)
  : (bytes * Entry + missReason) * DiskCache :=
  let '(r, c) := Get verify env now id c in
  match r with
  | inr e => (inr e, c)
  | inl entry =>
      let '(file, c) := OutputFile env now (e_OutputID entry) c in
      let data := match dc_files c !! file with Some f => take readable (df_data f) | None => [] end in
      if bytes_eqb (sha256 data) (e_OutputID entry) then (inl (data, entry), c) else (inr MissChecksum, c)
  end.

(** ** Writing *)

Inductive openOutcome := OpenOk | OpenBusy | OpenFailed.

(** The outcomes of [copyFile]'s system calls.  [ce_hashed] is how many bytes the
    check of an existing file reads ([None]: it cannot be opened), [ce_src] the
    bytes the source delivers from its start, [ce_written] where a write of the
    body fails, if it does; [ce_truncate] whether an ignored [Truncate] works. *)
Record copyEnv := CopyEnv {
  ce_stat : bool; ce_hashed : option nat; ce_open : openOutcome; ce_seek : bool; ce_src : bytes;
  ce_written : option nat; ce_last : bool; ce_close : bool; ce_truncate : bool; ce_chtimes : bool
}.

(** The file after the first [k] bytes of [src] were written over [old]. *)
Definition overwritten (old src : bytes) (k : nat) : bytes := take k src ++ drop k old.

(** The copy of the body over a file that holds [old]: what the file holds at
    each step, and whether the copy succeeded.  The last byte is held back until
    the digest of everything read is known to be [out]. *)
Definition copy_body (env : copyEnv) (out : bytes) (size : nat) (old : bytes) : list bytes * bool :=
  let src := ce_src env in
  let failed (at_ : bytes) := if ce_truncate env then [[]] else [at_] in
  let upto k := map (overwritten old src) (List.seq 0 (S k)) in
  if negb (ce_seek env) then (failed old, false)
  else
    let copied := Nat.min (length src) (size - 1) in
    match (match ce_written env with Some n => Some (Nat.min n copied) | None => if (copied <? size - 1)%nat then Some copied else None end) with
    | Some n => (upto n ++ failed (overwritten old src n), false)
    | None =>
        let most := overwritten old src (size - 1) in
        match src !! (size - 1)%nat with
        | None => (upto (size - 1)%nat ++ failed most, false)
        | Some b =>
            if negb (bytes_eqb (sha256 (take size src)) out) then (upto (size - 1)%nat ++ failed most, false)
            else if negb (ce_last env) then (upto (size - 1)%nat ++ failed most, false)
            else (upto (size - 1)%nat ++ [overwritten old src size], true)
        end
    end.

(** What [os.Stat] answers for the output. *)
Definition output_info (env : copyEnv) (out : bytes) (c : DiskCache) : option dfile :=
  if ce_stat env then dc_files c !! fileName out (str "d") else None.

(** The output is there already: its size and digest agree. *)
Definition output_present (env : copyEnv) (out : bytes) (size : nat) (c : DiskCache) : bool :=
  match output_info env out c, ce_hashed env with
  | Some f, Some n => (length (df_data f) =? size)%nat && bytes_eqb (sha256 (take n (df_data f))) out
  | _, _ => false
  end.

(** The file [os.OpenFile] leaves, with [O_TRUNC] when the old one is longer. *)
Definition open_output (env : copyEnv) (wall : Z) (out : bytes) (size : nat) (c : DiskCache) : dfile :=
  let truncated := match output_info env out c with Some f => (size <? length (df_data f))%nat | None => false end in
  match dc_files c !! fileName out (str "d") with
  | Some f => if truncated && negb (df_isDir f) then DFile [] wall false else f
  | None => DFile [] wall false
  end.

(** [copyFile]: whether it answers nil, and the directory after each step. *)
Definition copyFile (env : copyEnv) (now wall : Z) (out : bytes) (size : nat) (c : DiskCache) : bool * list DiskCache :=
  let name := fileName out (str "d") in
  if output_present env out size c then (true, [])
  else
    match ce_open env with
    | OpenBusy => (true, [])
    | OpenFailed => (false, [])
    | OpenOk =>
        let opened := open_output env wall out size c in
        let set_data d t := with_file name (Some (DFile d t false)) c in
        if df_isDir opened then (false, [])
        else if (size =? 0)%nat then (true, [with_file name (Some opened) c])
        else
          let '(contents, ok) := copy_body env out size (df_data opened) in
          let states := with_file name (Some opened) c :: map (fun d => set_data d wall) contents in
          if negb ok then (false, states)
          else if negb (ce_close env) then (false, states ++ [with_file name None c])
          else if ce_chtimes env
          then (true, states ++ [set_data (overwritten (df_data opened) (ce_src env) size) now])
          else (true, states)
    end.

(** The directory when [copyFile] returns. *)
Definition final (c : DiskCache) (states : list DiskCache) : DiskCache := default c (last states).

Lemma final_app c l l' : final c (l ++ l') = final (final c l) l'.
Proof. unfold final. rewrite last_app. by destruct (last l'). Qed.

(** The outcomes of [putIndexEntry]'s system calls; [pe_written] is where the
    write fails, if it does. *)
Record entryEnv := EntryEnv {
  pe_open : bool; pe_written : option nat; pe_truncate : bool; pe_close : bool; pe_remove : bool; pe_chtimes : bool
}.

Inductive putResult := PutOk | PutFailed | PutPanic.

(** The contents of the entry's file after each call that changes them, over
    [old], and whether the entry was written. *)
Definition entry_texts (env : entryEnv) (entry old : bytes) : list bytes * bool :=
  match pe_written env with
  | Some n => ([overwritten old entry n], false)
  | None =>
      let written := overwritten old entry (length entry) in
      if pe_truncate env then ([written; entry], pe_close env) else ([written], false)
  end.

(** [putIndexEntry]: its result, and the directory after each step. *)
Definition putIndexEntry (verify allowVerify : bool) (genv : getEnv) (env : entryEnv) (now wall : Z)
    (id out : bytes) (size : nat) (c : DiskCache) : putResult * list DiskCache :=
  let entry := formatEntry id out (Z.of_nat size) wall in
  let '(changed, c) :=
    if verify && allowVerify then
      let '(r, c) := get genv now id c in
      (match r with
       | inl old => negb (bytes_eqb (e_OutputID old) out) || negb (e_Size old =? Z.of_nat size)
       | inr _ => false
       end, c)
    else (false, c) in
  if changed then (PutPanic, [c])
  else
    let file := fileName id (str "a") in
    let old := match dc_files c !! file with Some f => df_data f | None => [] end in
    let isDir := match dc_files c !! file with Some f => df_isDir f | None => false end in
    if negb (pe_open env) || isDir then (PutFailed, [c])
    else
      let at_ text t := with_file file (Some (DFile text t false)) c in
      let '(texts, ok) := entry_texts env entry old in
      let states := c :: (if dc_files c !! file then [] else [at_ [] wall]) ++ map (fun text => at_ text wall) texts in
      if negb ok then (PutFailed, if pe_remove env then states ++ [with_file file None c] else states)
      else (PutOk, if pe_chtimes env then states ++ [at_ entry now] else states).

(** [put]: [data] is what the first pass over the source reads, [readable]
    whether that pass succeeds.  The states are those of [copyFile] and of
    [putIndexEntry]. *)
Definition put (verify allowVerify : bool) (readable : bool) (cenv : copyEnv) (genv : getEnv) (penv : entryEnv)
    (now wall : Z) (id data : bytes) (c : DiskCache) : (putResult * bytes) * list DiskCache :=
  if negb readable then ((PutFailed, []), [])
  else
    let out := sha256 data in
    let size := length data in
    let '(ok, states) := copyFile cenv now wall out size c in
    if negb ok then ((PutFailed, out), states)
    else
      let '(r, more) := putIndexEntry verify allowVerify genv penv now wall id out size (final c states) in
      ((r, out), states ++ more).

(** [KeepVerified]: the tier above vouches for [out]. *)
Definition KeepVerified (cenv : copyEnv) (genv : getEnv) (penv : entryEnv) (verify : bool) (now wall : Z)
    (id out data : bytes) (c : DiskCache) : putResult * list DiskCache :=
  let '(ok, states) := copyFile cenv now wall out (length data) c in
  if negb ok then (PutFailed, states)
  else
    let '(r, more) := putIndexEntry verify false genv penv now wall id out (length data) (final c states) in
    (r, states ++ more).

(** ** Trimming *)

Inductive transformOutcome := TransformUnsupported | TransformFailed | TransformRuns (seen : option bytes).

Record trimEnv := TrimEnv {
  te_read : bool; te_transform : transformOutcome;
  te_open : bytes -> bool; te_stat : bytes * bytes -> bool; te_remove : bytes * bytes -> bool
}.

Definition skipTrim (now : Z) (data : bytes) : bool :=
  match parseInt (trimSpace data) with
  | Some t => let d := now - t * second in (d <? trimInterval) && (- mtimeInterval <? d)
  | None => false
  end.

Definition has_suffix (s suf : bytes) : bool := has_prefix (rev s) (rev suf).

Definition trims (env : trimEnv) (subdir : bytes) (cutoff : Z) (p : bytes * bytes) (f : dfile) : bool :=
  bytes_eqb p.1 subdir && te_open env subdir &&
  (has_suffix p.2 (str "-a") || has_suffix p.2 (str "-d")) &&
  te_stat env p && (df_mtime f <? cutoff) && te_remove env p.

Definition trimSubdir (env : trimEnv) (cutoff : Z) (c : DiskCache) (subdir : bytes) : DiskCache :=
  MkDiskCache (filter (fun pf => trims env subdir cutoff pf.1 pf.2 = false) (dc_files c)) (dc_stamp c).

Definition subdirs : list bytes := map (fun i => hex_encode [Z.of_nat i]) (List.seq 0 256).

Definition Trim (env : trimEnv) (now : Z) (c : DiskCache) : bool * DiskCache :=
  let cutoff := now - trimLimit - mtimeInterval in
  let sweep c := foldl (trimSubdir env cutoff) c subdirs in
  if match dc_stamp c with Some data => te_read env && skipTrim now data | None => false end then (true, c)
  else match te_transform env with
  | TransformUnsupported => (false, c)
  | TransformFailed => (true, sweep c)
  | TransformRuns seen =>
      if skipTrim now (default [] seen) then (true, c)
      else (true, sweep (MkDiskCache (dc_files c) (Some (formatInt (now / second)))))
  end.

(** ** Entry files *)

Lemma byte_at_drop (s : bytes) n : byte_at s n = default 0 (head (drop n s)).
Proof. unfold byte_at. by rewrite head_lookup, lookup_drop, Nat.add_0_r. Qed.

Lemma drop_past (a b : bytes) n m : length a = n -> drop (n + m) (a ++ b) = drop m b.
Proof. intros <-. rewrite drop_app_ge by lia. f_equal. lia. Qed.

(** The columns of an entry with fields of the right lengths. *)
Lemma entry_layout (h1 h2 s1 s2 : bytes) : length h1 = 64%nat -> length h2 = 64%nat -> length s1 = 20%nat -> length s2 = 20%nat ->
  let text := str "v1 " ++ h1 ++ [32] ++ h2 ++ [32] ++ s1 ++ [32] ++ s2 ++ [10] in
  length text = entrySize /\
  take hexSize (drop 3 text) = h1 /\ drop (3 + hexSize) text = [32] ++ h2 ++ [32] ++ s1 ++ [32] ++ s2 ++ [10] /\
  drop (3 + hexSize + 1 + hexSize) text = [32] ++ s1 ++ [32] ++ s2 ++ [10] /\
  drop (3 + hexSize + 1 + hexSize + 1 + 20) text = [32] ++ s2 ++ [10] /\
  drop (entrySize - 1) text = [10].
Proof.
  intros L1 L2 L3 L4. cbv zeta. rewrite !length_app, L1, L2, L3, L4. split; [done|].
  assert (E : forall n, drop (3 + n) (str "v1 " ++ h1 ++ [32] ++ h2 ++ [32] ++ s1 ++ [32] ++ s2 ++ [10]) =
    drop n (h1 ++ [32] ++ h2 ++ [32] ++ s1 ++ [32] ++ s2 ++ [10])) by (intros n; by apply drop_past).
  change 3%nat with (3 + 0)%nat at 1. rewrite E, drop_0.
  change (entrySize - 1)%nat with (3 + (64 + (1 + (64 + (1 + (20 + (1 + (20 + 0))))))))%nat.
  change (3 + hexSize + 1 + hexSize + 1 + 20)%nat with (3 + (64 + (1 + (64 + (1 + (20 + 0))))))%nat.
  change (3 + hexSize + 1 + hexSize)%nat with (3 + (64 + (1 + (64 + 0))))%nat. change (3 + hexSize)%nat with (3 + (64 + 0))%nat.
  split; [by apply take_app_length'|]. rewrite !E, !(drop_past h1) by done.
  rewrite !(drop_past [32] (h2 ++ _)) by done. rewrite !(drop_past h2) by done. rewrite !(drop_past [32] (s1 ++ _)) by done.
  rewrite !(drop_past s1) by done. rewrite !(drop_past [32] (s2 ++ _)) by done. rewrite !(drop_past s2) by done. done.
Qed.

Lemma skip_blanks_pad s : (forall c r, s = c :: r -> c <> 32) -> skip_blanks (pad20 s) = s.
Proof.
  intros Hs. unfold pad20. generalize (20 - length s)%nat as n. induction n as [|n IH]; [|exact IH].
  cbn [replicate app]. destruct s as [|c r]; [done|]. cbn [skip_blanks]. destruct (Z.eqb_spec c 32); [|done].
  by destruct (Hs c r eq_refl).
Qed.

Lemma column_spec n : 0 <= n < 2 ^ 63 ->
  length (pad20 (formatInt n)) = 20%nat /\ parseInt (skip_blanks (pad20 (formatInt n))) = Some n.
Proof.
  intros Hn. destruct (formatUint_spec n ltac:(lia)) as (Hne & Hl & Hd & _).
  assert (Hf : formatInt n = formatUint n) by (unfold formatInt; destruct (Z.ltb_spec n 0); [lia|done]). split.
  - rewrite Hf. by apply length_pad20.
  - rewrite skip_blanks_pad; [apply parseInt_format; lia|]. rewrite Hf. intros c r E. rewrite E in Hd.
    apply Forall_cons in Hd as [Hc _]. unfold is_digit in Hc. lia.
Qed.

Lemma parseEntry_format id id' out size tm : is_hash id -> is_hash out -> 0 <= size < 2 ^ 63 -> 0 <= tm < 2 ^ 63 ->
  parseEntry id' (formatEntry id out size tm) = if bytes_eqb id id' then inl (MkEntry out size tm) else inr MissWrongID.
Proof.
  intros [Hil Hib] [Hol Hob] Hs Ht. destruct (column_spec size Hs) as [Ls Ps]. destruct (column_spec tm Ht) as [Lt Pt].
  assert (Li : length (hex_encode id) = 64%nat) by (rewrite length_hex_encode, Hil; done).
  assert (Lo : length (hex_encode out) = 64%nat) by (rewrite length_hex_encode, Hol; done).
  destruct (entry_layout _ _ _ _ Li Lo Ls Lt) as (L & E1 & E2 & E3 & E4 & E5). unfold formatEntry.
  set (text := str "v1 " ++ _) in *. unfold parseEntry. rewrite L, Nat.ltb_irrefl. change (entrySize =? 0)%nat with false. cbv iota.
  rewrite !(byte_at_drop text (_ + _)), !(byte_at_drop text (_ - _)). rewrite E2, E3, E4, E5.
  change (byte_at text 0) with 118. change (byte_at text 1) with 49. change (byte_at text 2) with 32. cbn [app head default negb orb Z.eqb Pos.eqb].
  cbv iota zeta. rewrite E1, hex_decode_encode by done. destruct (bytes_eqb id id'); [|done]. cbn [negb]. cbv iota.
  change (drop 1 (32 :: ?l)) with l. rewrite take_app_length' by done. rewrite hex_decode_encode by done.
  change (drop (1 + hexSize) (32 :: ?l)) with (drop 64 l). rewrite drop_app_length' by done.
  change (drop 1 (32 :: ?l)) with l. change (drop (1 + 20) (32 :: ?l)) with (drop 20 l).
  cbn [app]. rewrite take_app_length', drop_app_length' by done. rewrite Ps. destruct (Z.ltb_spec size 0); [lia|].
  change (drop 1 (32 :: ?l)) with l. rewrite take_app_length' by done. rewrite Pt. destruct (Z.ltb_spec tm 0); [lia|]. done.
Qed.

(** ** What other processes see while a body is written *)

(** A file of the full size holds the bytes the output ID names. *)
Definition complete_ok (out : bytes) (size : nat) (d : bytes) : Prop := length d = size -> sha256 d = out.

Lemma length_overwritten old src k : (k <= length src)%nat -> length (overwritten old src k) = Nat.max k (length old).
Proof. intros. unfold overwritten. rewrite length_app, length_take, length_drop. lia. Qed.

Lemma copy_body_spec env out size old cs ok : (length old < size)%nat -> copy_body env out size old = (cs, ok) ->
  Forall (complete_ok out size) cs /\
  (ok = true -> overwritten old (ce_src env) size = take size (ce_src env) /\ (size <= length (ce_src env))%nat /\
     sha256 (take size (ce_src env)) = out /\ last cs = Some (take size (ce_src env))).
Proof.
  intros Hold. unfold copy_body. set (src := ce_src env).
  assert (Hshort : forall d, (length d < size)%nat -> complete_ok out size d) by (intros d Hd E; lia).
  set (failed := fun at_ : bytes => if ce_truncate env then [[]] else [at_]).
  assert (Hfail : forall d, (length d < size)%nat -> Forall (complete_ok out size) (failed d)).
  { intros d Hd. unfold failed. destruct (ce_truncate env); repeat constructor; apply Hshort; [cbn; lia|done]. }
  set (upto := fun k => map (overwritten old src) (List.seq 0 (S k))).
  assert (Hupto : forall k, (k <= length src)%nat -> (k <= size - 1)%nat -> Forall (complete_ok out size) (upto k)).
  { intros k Hk Hks. apply Forall_forall. intros d (j & -> & Hj)%list_elem_of_fmap. apply elem_of_seq in Hj.
    apply Hshort. rewrite length_overwritten by lia. lia. }
  assert (Hpart : forall k, (k <= length src)%nat -> (k <= size - 1)%nat -> (length (overwritten old src k) < size)%nat).
  { intros k Hk Hks. rewrite length_overwritten by lia. lia. }
  cbv zeta. destruct (ce_seek env); cbn [negb]; [|intros [<- <-]%pair_equal_spec; split; [by apply Hfail|done]].
  set (copied := Nat.min (length src) (size - 1)). destruct (match ce_written env with Some n => _ | None => _ end) as [n|] eqn:En.
  { assert (Hn : (n <= copied)%nat) by (destruct (ce_written env); [simplify_eq; lia|]; destruct (_ <? _)%nat; simplify_eq; lia).
    intros [<- <-]%pair_equal_spec. split; [|done]. apply Forall_app. split; [apply Hupto|apply Hfail, Hpart]; unfold copied in Hn; lia. }
  assert (Hc : (size - 1 <= length src)%nat).
  { destruct (ce_written env); [done|]. destruct (Nat.ltb_spec copied (size - 1)); [done|]. unfold copied in *. lia. }
  assert (Hbad : Forall (complete_ok out size) (upto (size - 1)%nat ++ failed (overwritten old src (size - 1)))).
  { apply Forall_app. split; [apply Hupto|apply Hfail, Hpart]; lia. }
  destruct (src !! (size - 1)%nat) as [b|] eqn:Eb; [|by intros [<- <-]%pair_equal_spec]. apply lookup_lt_Some in Eb.
  destruct (bytes_eqb (sha256 (take size src)) out) eqn:Eh; cbn [negb]; [|by intros [<- <-]%pair_equal_spec].
  destruct (ce_last env); cbn [negb]; [|by intros [<- <-]%pair_equal_spec]. apply bytes_eqb_eq in Eh.
  assert (Hall : overwritten old src size = take size src) by (unfold overwritten; rewrite (drop_ge old) by lia; apply app_nil_r).
  intros [<- <-]%pair_equal_spec. split.
  - apply Forall_app. split; [apply Hupto; lia|]. repeat constructor. intros _. by rewrite Hall.
  - intros _. rewrite last_snoc, Hall. split_and!; [done|lia|done|done].
Qed.

(** The check of an existing output reads all of it. *)
Definition checks_work (env : copyEnv) (out : bytes) (c : DiskCache) : Prop :=
  ce_stat env = true /\
  forall f, dc_files c !! fileName out (str "d") = Some f -> exists n, ce_hashed env = Some n /\ (length (df_data f) <= n)%nat.

(** Two directories that differ at most in one file, which in the second is
    an ordinary file with a property, or gone. *)
Definition only_at (p : bytes * bytes) (P : dfile -> Prop) (c c' : DiskCache) : Prop :=
  dc_stamp c' = dc_stamp c /\ (forall q, q <> p -> dc_files c' !! q = dc_files c !! q) /\
  forall f, dc_files c' !! p = Some f -> P f.

Lemma only_at_with_file p P f c : (forall f', f = Some f' -> P f') -> only_at p P c (with_file p f c).
Proof.
  intros HP. unfold only_at, with_file. cbn [dc_stamp dc_files]. split; [done|]. destruct f as [f|]; split.
  - intros q Hq. by rewrite lookup_insert_ne.
  - intros f'. rewrite lookup_insert_eq. intros [= <-]. by apply HP.
  - intros q Hq. by rewrite lookup_delete_ne.
  - intros f'. by rewrite lookup_delete_eq.
Qed.

Definition good_output (out : bytes) (size : nat) (f : dfile) : Prop :=
  df_isDir f = false /\ complete_ok out size (df_data f).

Lemma output_present_spec env out size c : checks_work env out c -> output_present env out size c = true ->
  exists f, dc_files c !! fileName out (str "d") = Some f /\ length (df_data f) = size /\ sha256 (df_data f) = out.
Proof.
  intros [Hst Hrd]. unfold output_present, output_info. rewrite Hst. destruct (dc_files c !! _) as [f|]; [|done].
  destruct (Hrd f eq_refl) as (n & -> & Hle). rewrite take_ge by done. rewrite andb_true_iff, Nat.eqb_eq, bytes_eqb_eq.
  intros [Hl Hs]. by exists f.
Qed.

(** Nothing another process could take for the output is opened for writing. *)
Lemma open_output_spec env wall out size c : checks_work env out c ->
  (forall f, dc_files c !! fileName out (str "d") = Some f -> good_output out size f) ->
  output_present env out size c = false -> df_isDir (open_output env wall out size c) = false ->
  (length (df_data (open_output env wall out size c)) < size)%nat \/
  (size = 0%nat /\ df_data (open_output env wall out size c) = []).
Proof.
  intros [Hst Hrd] Hgood. unfold output_present, open_output, output_info. rewrite Hst.
  destruct (dc_files c !! _) as [f|]; [|intros _ _; cbn [df_data length]; destruct size; [by right|left; lia]].
  destruct (Hrd f eq_refl) as (n & -> & Hle). rewrite take_ge by done. intros Hp Hdir.
  destruct (Nat.ltb_spec size (length (df_data f))) as [Hlt|Hge]; cbn [andb] in *.
  - destruct (df_isDir f) eqn:Ed; cbn [negb] in *; [congruence|]. cbn [df_data length]. destruct size; [by right|left; lia].
  - destruct (Nat.eqb_spec (length (df_data f)) size) as [He|Hne]; cbn [andb] in *; [|left; lia].
    rewrite (proj2 (Hgood f eq_refl) He), bytes_eqb_refl in Hp. done.
Qed.

Lemma last_map {A B} (g : A -> B) l x : last l = Some x -> last (map g l) = Some (g x).
Proof. intros Hl. change (map g l) with (g <$> l). by rewrite fmap_last, Hl. Qed.

Lemma copyFile_spec env now wall out size c ok states :
  checks_work env out c -> (forall f, dc_files c !! fileName out (str "d") = Some f -> good_output out size f) ->
  (size = 0%nat -> sha256 [] = out) ->
  copyFile env now wall out size c = (ok, states) ->
  Forall (only_at (fileName out (str "d")) (good_output out size) c) states /\
  (ok = true -> ce_open env <> OpenBusy ->
   exists f, dc_files (final c states) !! fileName out (str "d") = Some f /\
     length (df_data f) = size /\ sha256 (df_data f) = out /\
     (dc_files c !! fileName out (str "d") = None -> df_data f = take size (ce_src env))).
Proof.
  intros Hcw Hgood Hempty. unfold copyFile. cbv zeta. set (name := fileName out (str "d")) in *.
  destruct (output_present env out size c) eqn:Epres.
  { intros [<- <-]%pair_equal_spec. split; [constructor|]. intros _ _. change (final c []) with c.
    destruct (output_present_spec _ _ _ _ Hcw Epres) as (f & Hf & Hl & Hs). exists f. unfold name. split_and!; try done. congruence. }
  destruct (ce_open env) eqn:Eo; [|by intros [<- <-]%pair_equal_spec..].
  destruct (df_isDir (open_output env wall out size c)) eqn:Edir; [by intros [<- <-]%pair_equal_spec|].
  pose proof (open_output_spec env wall out size c Hcw Hgood Epres Edir) as Hopen. set (opened := open_output _ _ _ _ _) in *.
  assert (Hset : forall d t, complete_ok out size d -> only_at name (good_output out size) c (with_file name (Some (DFile d t false)) c)).
  { intros d t Hd. apply only_at_with_file. by intros f' [= <-]. }
  assert (Hop : only_at name (good_output out size) c (with_file name (Some opened) c)).
  { apply only_at_with_file. intros f' [= <-]. split; [done|]. intros Hl. destruct Hopen as [Hlt|[-> Hnil]]; [lia|]. rewrite Hnil. by apply Hempty. }
  assert (Hget : forall f, dc_files (with_file name (Some f) c) !! name = Some f) by (intros f; apply lookup_insert_eq).
  destruct (Nat.eqb_spec size 0) as [->|Hpos].
  { destruct Hopen as [?|[_ Hnil]]; [lia|]. intros [<- <-]%pair_equal_spec. split; [by apply Forall_singleton|]. intros _ _. exists opened.
    change (final c [?x]) with x. rewrite Hget, Hnil. by auto. }
  destruct Hopen as [Hlt|[? _]]; [|lia].
  destruct (copy_body env out size (df_data opened)) as [cs ok'] eqn:Ebody.
  destruct (copy_body_spec _ _ _ _ _ _ Hlt Ebody) as [Hcs Hok].
  assert (Hstates : Forall (only_at name (good_output out size) c)
    (with_file name (Some opened) c :: map (fun d => with_file name (Some (DFile d wall false)) c) cs)).
  { constructor; [done|]. apply Forall_fmap. eapply Forall_impl; [exact Hcs|]. intros d Hd. by apply Hset. }
  destruct ok'; cbn [negb]; [|by intros [<- <-]%pair_equal_spec]. destruct (Hok eq_refl) as (Hall & Hlen & Hsha & Hlast).
  assert (Hres : forall t, exists f, dc_files (with_file name (Some (DFile (take size (ce_src env)) t false)) c) !! name = Some f /\
    length (df_data f) = size /\ sha256 (df_data f) = out /\ (dc_files c !! name = None -> df_data f = take size (ce_src env))).
  { intros t. exists (DFile (take size (ce_src env)) t false). rewrite Hget. cbn [df_data]. rewrite length_take. split_and!; [done|lia|done|done]. }
  destruct (ce_close env), (ce_chtimes env); cbn [negb]; intros [<- <-]%pair_equal_spec; (split; [|intros ? _; unfold final; try done]).
  - apply Forall_app. split; [done|]. apply Forall_singleton, Hset. rewrite Hall. by intros _.
  - rewrite last_snoc. cbn [from_option id]. rewrite Hall. apply Hres.
  - done.
  - rewrite last_cons, (last_map _ _ _ Hlast). apply Hres.
  - apply Forall_app. split; [done|]. apply Forall_singleton. by apply only_at_with_file.
  - apply Forall_app. split; [done|]. apply Forall_singleton. by apply only_at_with_file.
Qed.

(** ** The directory over time *)

(** Only times of last use differ. *)
Definition same_data (c c' : DiskCache) : Prop :=
  forall q, (fun f => (df_data f, df_isDir f)) <$> dc_files c' !! q = (fun f => (df_data f, df_isDir f)) <$> dc_files c !! q.

Lemma same_data_lookup c c' q f : same_data c c' -> dc_files c' !! q = Some f ->
  exists f0, dc_files c !! q = Some f0 /\ df_data f0 = df_data f /\ df_isDir f0 = df_isDir f.
Proof.
  intros Hs Hq. specialize (Hs q). rewrite Hq in Hs. destruct (dc_files c !! q) as [f0|]; [|done].
  cbn in Hs. injection Hs as H1 H2. by exists f0.
Qed.

Lemma markUsed_same env now p c : same_data c (markUsed env now p c).2.
Proof.
  intros q. unfold markUsed. destruct (dc_files c !! p) as [f|] eqn:E; [|done]. destruct (ge_stat env); cbn [negb snd]; [|done].
  destruct (_ && _); [|done]. unfold with_file. cbn [dc_files]. destruct (decide (q = p)) as [->|Hne].
  - by rewrite lookup_insert_eq, E.
  - by rewrite lookup_insert_ne.
Qed.

Lemma get_same env now id c : same_data c (get env now id c).2.
Proof.
  unfold get. destruct (dc_files c !! _) as [f|]; [|by intros q]. destruct (negb _); [by intros q|].
  destruct (_ || _); [by intros q|]. destruct (parseEntry _ _); [apply markUsed_same|by intros q].
Qed.

Lemma same_data_trans c1 c2 c3 : same_data c1 c2 -> same_data c2 c3 -> same_data c1 c3.
Proof. intros H1 H2 q. by rewrite H2, H1. Qed.

Lemma GetFile_same verify env now id c : same_data c (GetFile verify env now id c).2.
Proof.
  unfold GetFile, Get. destruct verify; [by intros q|]. pose proof (get_same env now id c) as Hg.
  destruct (get env now id c) as [[e|r] c1]; cbn [snd] in *; [|done]. unfold OutputFile.
  pose proof (markUsed_same env now (fileName (e_OutputID e) (str "d")) c1) as Hm. pose proof (same_data_trans _ _ _ Hg Hm).
  destruct (dc_files _ !! _); [|done]. destruct (negb _); [done|]. by destruct (negb _).
Qed.

Lemma fileName_inj id id' k k' : is_hash id -> is_hash id' -> fileName id k = fileName id' k' -> id = id' /\ k = k'.
Proof.
  intros [Hl Hb] [Hl' Hb'] [= _ E]. apply app_inj_1 in E as [E1 E2]; [|rewrite !length_hex_encode; congruence].
  split; [by apply hex_encode_inj|]. by injection E2.
Qed.

Section history.
(** The bodies stored over time, each for an action; two of them with one
    digest have one size. *)
Context (stored : bytes -> bytes -> Prop)
  (no_clash : forall id id' d d', stored id d -> stored id' d' -> sha256 d = sha256 d' -> length d = length d').

Record dinv (c : DiskCache) : Prop := {
  di_plain : forall q f, dc_files c !! q = Some f -> df_isDir f = false;
  di_outputs : forall id d f, stored id d -> dc_files c !! fileName (sha256 d) (str "d") = Some f ->
    complete_ok (sha256 d) (length d) (df_data f);
  di_entries : forall id f e, is_hash id -> dc_files c !! fileName id (str "a") = Some f ->
    parseEntry id (df_data f) = inl e ->
    exists d, stored id d /\ e_OutputID e = sha256 d /\ e_Size e = Z.of_nat (length d)
}.

Lemma dinv_same c c' : same_data c c' -> dinv c -> dinv c'.
Proof.
  intros Hs [Hp Ho He]. split.
  - intros q f Hf. destruct (same_data_lookup _ _ _ _ Hs Hf) as (f0 & Hf0 & _ & <-). by eapply Hp.
  - intros id d f Hd Hf. destruct (same_data_lookup _ _ _ _ Hs Hf) as (f0 & Hf0 & <- & _). by apply (Ho id).
  - intros id f e Hid Hf. destruct (same_data_lookup _ _ _ _ Hs Hf) as (f0 & Hf0 & <- & _). by apply (He id f0 e).
Qed.

Lemma key_ad : str "a" <> str "d".
Proof. done. Qed.

(** A write to one output keeps the invariant. *)
Lemma dinv_output c c' id d : stored id d -> only_at (fileName (sha256 d) (str "d")) (good_output (sha256 d) (length d)) c c' ->
  dinv c -> dinv c'.
Proof.
  intros Hd (_ & Hoff & Hat) [Hp Ho He]. set (name := fileName (sha256 d) (str "d")) in *. split.
  - intros q f Hf. destruct (decide (q = name)) as [->|Hne]; [by apply Hat|]. rewrite Hoff in Hf by done. by eapply Hp.
  - intros id' d' f Hd' Hf. destruct (decide (fileName (sha256 d') (str "d") = name)) as [Heq|Hne].
    + rewrite Heq in Hf. apply fileName_inj in Heq as [Heq _]; [|apply sha256_wf..].
      destruct (Hat f Hf) as [_ Hc]. rewrite Heq, (no_clash id' id d' d) by done. done.
    + rewrite Hoff in Hf by done. by apply (Ho id').
  - intros id0 f e Hid Hf. rewrite Hoff in Hf; [by apply He|]. intros Heq. apply fileName_inj in Heq as [_ Hk]; [|done|apply sha256_wf].
    by apply key_ad in Hk.
Qed.

(** A write over an entry that is there takes all of it, or nothing. *)
Definition entry_whole (env : entryEnv) (id : bytes) (c : DiskCache) : Prop :=
  forall n f, pe_written env = Some n -> dc_files c !! fileName id (str "a") = Some f -> n = 0%nat \/ df_data f = [].

Definition time_ok (t : Z) : Prop := 0 <= t < 2 ^ 63.

(** A text read for an entry of [id], if it is read at all, is read as naming the
    output and the size of [d]. *)
Definition entry_text (id d text : bytes) : Prop :=
  forall e, parseEntry id text = inl e -> e_OutputID e = sha256 d /\ e_Size e = Z.of_nat (length d).

Lemma parseEntry_size id text e : parseEntry id text = inl e -> length text = entrySize.
Proof.
  unfold parseEntry. destruct (Nat.ltb_spec entrySize (length text)); [done|]. destruct (length text =? 0)%nat; [done|].
  destruct (Nat.ltb_spec (length text) entrySize); [done|]. lia.
Qed.

Lemma format_text id d wall : is_hash id -> time_ok wall -> Z.of_nat (length d) < 2 ^ 63 ->
  entry_text id d (formatEntry id (sha256 d) (Z.of_nat (length d)) wall) /\ length (formatEntry id (sha256 d) (Z.of_nat (length d)) wall) = entrySize.
Proof.
  intros Hid Ht Hl. pose proof (parseEntry_format id id (sha256 d) (Z.of_nat (length d)) wall Hid (sha256_wf d) ltac:(lia) Ht) as Hp. rewrite bytes_eqb_refl in Hp.
  split; [|by eapply parseEntry_size]. intros e. rewrite Hp. by intros [= <-].
Qed.

(** What a write of an entry shows at each step: nothing that can be read, the
    entry, or what was there. *)
Lemma entry_texts_spec env id d wall old : is_hash id -> time_ok wall -> Z.of_nat (length d) < 2 ^ 63 ->
  (forall n, pe_written env = Some n -> n = 0%nat \/ old = []) ->
  let entry := formatEntry id (sha256 d) (Z.of_nat (length d)) wall in
  Forall (fun text => text = old \/ entry_text id d text) (entry_texts env entry old).1 /\
  ((entry_texts env entry old).2 = true -> last (entry_texts env entry old).1 = Some entry).
Proof.
  intros Hid Ht Hl Hw entry. destruct (format_text id d wall Hid Ht Hl) as [Hent Hlen]. fold entry in Hent, Hlen.
  assert (Hfull : entry_text id d (overwritten old entry (length entry))).
  { intros e He. pose proof (parseEntry_size _ _ _ He) as Hsz. unfold overwritten in *. rewrite take_ge in * by done. rewrite length_app in Hsz.
    destruct (drop (length entry) old) eqn:E; [|cbn [length] in Hsz; lia]. rewrite app_nil_r in He. by apply Hent. }
  unfold entry_texts. destruct (pe_written env) as [n|] eqn:E; cbn [fst snd].
  - split; [|done]. apply Forall_singleton. destruct (Hw n eq_refl) as [->| ->]; [by left|right]. intros e He.
    pose proof (parseEntry_size _ _ _ He) as Hsz. unfold overwritten in *. rewrite drop_nil, app_nil_r in *. rewrite length_take in Hsz.
    rewrite take_ge in He by lia. by apply Hent.
  - destruct (pe_truncate env); cbn [fst snd]; [|split; [|done]; apply Forall_singleton; by right].
    split; [|by intros]. apply Forall_cons. split; [by right|]. apply Forall_singleton. by right.
Qed.

(** What a write of an entry makes of the file it finds. *)
Definition entry_file (id d : bytes) (c : DiskCache) (f : option dfile) : Prop :=
  forall f', f = Some f' -> df_isDir f' = false /\
    (entry_text id d (df_data f') \/ exists g, dc_files c !! fileName id (str "a") = Some g /\ df_data f' = df_data g).

Definition entry_state (id d : bytes) (c c' : DiskCache) : Prop :=
  c' = c \/ exists f, c' = with_file (fileName id (str "a")) f c /\ entry_file id d c f.

(** Every state of a write of an entry differs from the directory it began with
    in times of use, and in the entry's file at most. *)
Lemma putIndexEntry_spec verify allow genv env now wall id d c : is_hash id -> time_ok wall -> Z.of_nat (length d) < 2 ^ 63 -> entry_whole env id c ->
  let '(r, states) := putIndexEntry verify allow genv env now wall id (sha256 d) (length d) c in
  exists c1, same_data c c1 /\
    Forall (entry_state id d c1) states /\
    (r = PutOk -> exists t, final c states =
       with_file (fileName id (str "a")) (Some (DFile (formatEntry id (sha256 d) (Z.of_nat (length d)) wall) t false)) c1).
Proof.
  intros Hid Ht Hl Hwhole. unfold putIndexEntry. set (pre := if verify && allow then _ else _).
  assert (Hpre : same_data c pre.2).
  { unfold pre. destruct (verify && allow); [|by intros q]. pose proof (get_same genv now id c) as Hg.
    destruct (get genv now id c) as [r c1]. exact Hg. }
  destruct pre as [changed c1]. cbn [snd] in Hpre.
  destruct changed; [exists c1; split_and!; [done|apply Forall_singleton; by left|done]|].
  destruct (negb (pe_open env) || _); [exists c1; split_and!; [done|apply Forall_singleton; by left|done]|].
  set (entry := formatEntry id _ _ _). set (file := fileName id (str "a")). set (old := match dc_files c1 !! file with Some f => df_data f | None => [] end).
  assert (Hw : forall n, pe_written env = Some n -> n = 0%nat \/ old = []).
  { intros n Hn. unfold old. destruct (dc_files c1 !! file) as [g|] eqn:Eg; [|by right].
    destruct (same_data_lookup _ _ _ _ Hpre Eg) as (f0 & Hf0 & <- & _). by apply (Hwhole n f0). }
  destruct (entry_texts_spec env id d wall old Hid Ht Hl Hw) as [Htexts Hlast]. fold entry in Htexts, Hlast.
  destruct (format_text id d wall Hid Ht Hl) as [Hent _]. fold entry in Hent.
  assert (Hnil : entry_text id d []) by (intros e; done).
  set (at_ := fun text t => with_file file (Some (DFile text t false)) c1).
  assert (Hat : forall text t, entry_text id d text \/ text = old -> entry_state id d c1 (at_ text t)).
  { intros text t Htx. right. eexists. split; [done|]. intros f' [= <-]. split; [done|]. cbn [df_data]. destruct Htx as [?| ->]; [by left|].
    unfold old. fold file. destruct (dc_files c1 !! file) as [g|]; [right; by exists g|by left]. }
  destruct (entry_texts env entry old) as [texts ok]. cbn [fst snd] in Htexts, Hlast.
  set (states := c1 :: _ ++ map _ texts).
  assert (Hst : Forall (entry_state id d c1) states).
  { constructor; [by left|]. apply Forall_app. split; [destruct (dc_files c1 !! file); [constructor|apply Forall_singleton, Hat; by left]|].
    apply Forall_fmap. eapply Forall_impl; [exact Htexts|]. intros text Htx. apply Hat. destruct Htx; [by right|by left]. }
  destruct ok; cbn [negb]; exists c1.
  - specialize (Hlast eq_refl).
    assert (Hlst : last states = Some (at_ entry wall)).
    { unfold states. rewrite app_comm_cons, last_app. change (map (fun text => at_ text wall) texts) with ((fun text => at_ text wall) <$> texts). by rewrite fmap_last, Hlast. }
    destruct (pe_chtimes env); split_and!; try done.
    + apply Forall_app. split; [done|]. apply Forall_singleton, Hat. by left.
    + intros _. exists now. unfold final. by rewrite last_snoc.
    + intros _. exists wall. unfold final. by rewrite Hlst.
  - destruct (pe_remove env); split_and!; try done. apply Forall_app. split; [done|]. apply Forall_singleton. right. by exists None.
Qed.

Lemma dinv_entry c f id d : stored id d -> is_hash id ->
  entry_file id d c f -> dinv c -> dinv (with_file (fileName id (str "a")) f c).
Proof.
  intros Hd Hid Hf [Hp Ho He].
  destruct (only_at_with_file (fileName id (str "a")) _ f c Hf) as (_ & Hoff & Hat).
  split.
  - intros q f' Hq. destruct (decide (q = fileName id (str "a"))) as [->|Hne]; [by apply Hat|]. rewrite Hoff in Hq by done. by eapply Hp.
  - intros id' d' f' Hd' Hq. rewrite Hoff in Hq; [by apply (Ho id')|]. intros Heq. apply fileName_inj in Heq as [_ Hk]; [|apply sha256_wf|done].
    by apply eq_sym, key_ad in Hk.
  - intros id' f' e Hid' Hq Hpe. destruct (decide (fileName id' (str "a") = fileName id (str "a"))) as [Heq|Hne].
    + rewrite Heq in Hq. apply fileName_inj in Heq as [-> _]; [|done..]. destruct (Hat f' Hq) as [_ [Htx|(g & Hg & Hdata)]].
      * exists d. destruct (Htx e Hpe). by split_and!.
      * rewrite Hdata in Hpe. by apply (He id g e).
    + rewrite Hoff in Hq by done. by apply (He id' f' e).
Qed.

(** The environments the theorems quantify over: any call may fail, but the
    check of an existing output reads it, and a write over an existing entry takes
    all of it or nothing. *)
Record write_ok (cenv : copyEnv) (penv : entryEnv) (wall : Z) (id d : bytes) (c : DiskCache) : Prop := {
  wo_checks : checks_work cenv (sha256 d) c;
  wo_entry : entry_whole penv id c;
  wo_time : time_ok wall;
  wo_id : is_hash id;
  wo_size : Z.of_nat (length d) < 2 ^ 63
}.

Inductive cache_step (c : DiskCache) : DiskCache -> Prop :=
  | step_put verify allow readable cenv genv penv now wall id d c' :
      stored id d -> write_ok cenv penv wall id d c ->
      c' ∈ (put verify allow readable cenv genv penv now wall id d c).2 -> cache_step c c'
  | step_keep cenv genv penv verify now wall id d c' :
      stored id d -> write_ok cenv penv wall id d c ->
      c' ∈ (KeepVerified cenv genv penv verify now wall id (sha256 d) d c).2 -> cache_step c c'
  | step_get verify env now id : cache_step c (GetFile verify env now id c).2
  | step_trim env now : cache_step c (Trim env now c).2.

(** The entry's file is none of [copyFile]'s. *)
Lemma entry_whole_output penv id d size c states : is_hash id -> entry_whole penv id c ->
  Forall (only_at (fileName (sha256 d) (str "d")) (good_output (sha256 d) size) c) states -> entry_whole penv id (final c states).
Proof using Type.
  intros Hid Hw Hst n f Hn. unfold final. destruct (last states) as [x|] eqn:El; [|by apply Hw]. change (default c (Some x)) with x. apply last_Some_elem_of in El.
  rewrite Forall_forall in Hst. destruct (Hst x El) as (_ & Hoff & _). rewrite Hoff; [by apply Hw|]. intros Heq. apply fileName_inj in Heq as [_ Hk]; [|done|apply sha256_wf].
  by apply key_ad in Hk.
Qed.

Lemma write_step cenv genv penv verify allow now wall id d c c' : stored id d -> write_ok cenv penv wall id d c -> dinv c ->
  (let '(ok, states) := copyFile cenv now wall (sha256 d) (length d) c in
   c' ∈ states \/ (ok = true /\ c' ∈ (putIndexEntry verify allow genv penv now wall id (sha256 d) (length d) (final c states)).2)) ->
  dinv c'.
Proof.
  intros Hd [Hc Hsafe Ht Hid Hl] Hinv. destruct (copyFile _ _ _ _ _ _) as [ok states] eqn:E.
  assert (Hg : forall f, dc_files c !! fileName (sha256 d) (str "d") = Some f -> good_output (sha256 d) (length d) f).
  { intros f Hf. split; [by apply (di_plain c Hinv _ f Hf)|by apply (di_outputs c Hinv id d f)]. }
  destruct (copyFile_spec _ _ _ _ _ _ _ _ Hc Hg ltac:(by intros ->%length_zero_iff_nil) E)
    as [Hst _].
  assert (Hall : forall x, x ∈ states -> dinv x) by (intros x Hx; rewrite Forall_forall in Hst; by apply (dinv_output c x id d Hd (Hst x Hx))).
  intros [Hin|[-> Hin]]; [by apply Hall|].
  assert (Hfin : dinv (final c states)).
  { unfold final. destruct (last states) as [x|] eqn:El; [|done]. apply last_Some_elem_of in El. by apply Hall. }
  assert (Hwh : entry_whole penv id (final c states)) by (by eapply entry_whole_output).
  pose proof (putIndexEntry_spec verify allow genv penv now wall id d (final c states) Hid Ht Hl Hwh) as Hpe.
  destruct (putIndexEntry _ _ _ _ _ _ _ _ _ _) as [r more]. destruct Hpe as (c1 & Hsame & Hmore & _). cbn [snd] in Hin.
  rewrite Forall_forall in Hmore. pose proof (dinv_same _ _ Hsame Hfin) as Hc1. destruct (Hmore _ Hin) as [-> |(f & -> & Hf)]; [done|]. by eapply dinv_entry.
Qed.

Lemma put_states verify allow readable cenv genv penv now wall id d c c' :
  c' ∈ (put verify allow readable cenv genv penv now wall id d c).2 ->
  let '(ok, states) := copyFile cenv now wall (sha256 d) (length d) c in
  c' ∈ states \/ (ok = true /\ c' ∈ (putIndexEntry verify allow genv penv now wall id (sha256 d) (length d) (final c states)).2).
Proof.
  unfold put. destruct readable; cbn [negb]; [|by intros ?%not_elem_of_nil]. destruct (copyFile _ _ _ _ _ _) as [ok states].
  destruct ok; cbn [negb snd]; [|by left]. destruct (putIndexEntry _ _ _ _ _ _ _ _ _ _) as [r more]. cbn [snd].
  rewrite elem_of_app. tauto.
Qed.

Lemma keep_states cenv genv penv verify now wall id d c c' :
  c' ∈ (KeepVerified cenv genv penv verify now wall id (sha256 d) d c).2 ->
  let '(ok, states) := copyFile cenv now wall (sha256 d) (length d) c in
  c' ∈ states \/ (ok = true /\ c' ∈ (putIndexEntry verify false genv penv now wall id (sha256 d) (length d) (final c states)).2).
Proof.
  unfold KeepVerified. destruct (copyFile _ _ _ _ _ _) as [ok states].
  destruct ok; cbn [negb snd]; [|by left]. destruct (putIndexEntry _ _ _ _ _ _ _ _ _ _) as [r more]. cbn [snd].
  rewrite elem_of_app. tauto.
Qed.
End history.

(** *** Trimming removes whole files, and only old ones *)

Definition trimmable (p : bytes * bytes) (f : dfile) (cutoff : Z) : Prop :=
  (has_suffix p.2 (str "-a") || has_suffix p.2 (str "-d")) = true /\ df_mtime f < cutoff.

Lemma sweep_lookup env cutoff ds : forall c p,
  dc_files (foldl (trimSubdir env cutoff) c ds) !! p =
    match dc_files c !! p with
    | Some f => if existsb (fun sd => trims env sd cutoff p f) ds then None else Some f
    | None => None
    end.
Proof.
  induction ds as [|sd ds IH]; intros c p; cbn [foldl existsb]; [by destruct (dc_files c !! p)|]. rewrite IH.
  unfold trimSubdir. cbn [dc_files]. destruct (dc_files c !! p) as [f|] eqn:E.
  - destruct (trims env sd cutoff p f) eqn:Et; cbn [orb].
    + assert (filter (fun pf => trims env sd cutoff pf.1 pf.2 = false) (dc_files c) !! p = None) as ->; [|done].
      apply map_lookup_filter_None. right. intros x Hx. rewrite E in Hx. injection Hx as <-. cbn. congruence.
    + assert (filter (fun pf => trims env sd cutoff pf.1 pf.2 = false) (dc_files c) !! p = Some f) as ->; [|done].
      by apply map_lookup_filter_Some.
  - assert (filter (fun pf => trims env sd cutoff pf.1 pf.2 = false) (dc_files c) !! p = None) as ->; [|done].
    apply map_lookup_filter_None. by left.
Qed.

Lemma trims_trimmable env sd cutoff p f : trims env sd cutoff p f = true -> trimmable p f cutoff.
Proof. unfold trims, trimmable. intros. bool2prop. done. Qed.

Lemma Trim_lookup env now c p : let cutoff := now - trimLimit - mtimeInterval in
  dc_files (Trim env now c).2 !! p = dc_files c !! p \/
  (dc_files (Trim env now c).2 !! p = None /\ exists f, dc_files c !! p = Some f /\ trimmable p f cutoff).
Proof.
  cbv zeta. unfold Trim. cbv zeta. set (cutoff := now - trimLimit - mtimeInterval).
  assert (Hsw : forall c0, dc_files c0 = dc_files c ->
    dc_files (foldl (trimSubdir env cutoff) c0 subdirs) !! p = dc_files c !! p \/
    (dc_files (foldl (trimSubdir env cutoff) c0 subdirs) !! p = None /\ exists f, dc_files c !! p = Some f /\ trimmable p f cutoff)).
  { intros c0 Hc0. rewrite sweep_lookup, Hc0. destruct (dc_files c !! p) as [f|]; [|by left].
    destruct (existsb _ _) eqn:E; [|by left]. right. split; [done|]. apply existsb_exists in E as (sd & _ & Ht).
    exists f. split; [done|]. by eapply trims_trimmable. }
  destruct (match dc_stamp c with Some _ => _ | None => _ end); [by left|].
  destruct (te_transform env) as [| |seen]; cbn [snd]; [by left|by apply Hsw|].
  destruct (skipTrim _ _); cbn [snd]; [by left|by apply Hsw].
Qed.

Section claims.
Context (stored : bytes -> bytes -> Prop)
  (no_clash : forall id id' d d', stored id d -> stored id' d' -> sha256 d = sha256 d' -> length d = length d').

Lemma dinv_subset c c' : (forall p f, dc_files c' !! p = Some f -> dc_files c !! p = Some f) -> dinv stored c -> dinv stored c'.
Proof.
  intros Hsub [Hp Ho He]. split.
  - intros q f Hf. by eapply Hp, Hsub.
  - intros id d f Hd Hf. by apply (Ho id), Hsub.
  - intros id f e Hid Hf. by apply (He id f e Hid), Hsub.
Qed.

Lemma dinv_empty stamp : dinv stored (MkDiskCache ∅ stamp).
Proof using Type. split; intros *; cbn [dc_files]; rewrite lookup_empty; done. Qed.

Lemma dinv_step c c' : dinv stored c -> cache_step stored c c' -> dinv stored c'.
Proof.
  intros Hinv Hs. destruct Hs as [v a r cenv genv penv now wall id d c' Hd Hw Hin|cenv genv penv v now wall id d c' Hd Hw Hin|v env now id|env now].
  - apply put_states in Hin. by eapply (write_step stored no_clash).
  - apply keep_states in Hin. by eapply (write_step stored no_clash).
  - eapply dinv_same; [apply GetFile_same|done].
  - eapply dinv_subset; [|done]. intros p f Hf. destruct (Trim_lookup env now c p) as [E|[E _]]; congruence.
Qed.

(** What an entry names was stored for its action. *)
Lemma Get_stored v env now id c c' e : dinv stored c -> is_hash id -> Get v env now id c = (inl e, c') ->
  exists d, stored id d /\ e_OutputID e = sha256 d /\ e_Size e = Z.of_nat (length d).
Proof using Type.
  intros Hinv Hid. unfold Get. destruct v; [done|]. unfold get. destruct (dc_files c !! fileName id (str "a")) as [fa|] eqn:Ea; [|done].
  destruct (negb (ge_open env)); [done|]. destruct (_ || _); [done|]. destruct (parseEntry id (df_data fa)) as [e0|] eqn:Ep; [|done].
  intros [= -> _]. exact (di_entries stored c Hinv id fa e Hid Ea Ep).
Qed.

Lemma GetFile_complete v env now id c c' file e : dinv stored c -> is_hash id -> GetFile v env now id c = (inl (file, e), c') ->
  exists d f, stored id d /\ e_OutputID e = sha256 d /\ e_Size e = Z.of_nat (length d) /\
    dc_files c' !! file = Some f /\ length (df_data f) = length d /\ sha256 (df_data f) = sha256 d.
Proof using Type.
  intros Hinv Hid Hget. pose proof (GetFile_same v env now id c) as Hsame. rewrite Hget in Hsame. cbn [snd] in Hsame. revert Hget.
  unfold GetFile. destruct (Get v env now id c) as [[e0|r] c1] eqn:Eg; [|done].
  destruct (Get_stored _ _ _ _ _ _ _ Hinv Hid Eg) as (d & Hd & Ho & Hs). unfold OutputFile.
  destruct (dc_files _ !! _) as [fd|] eqn:Ed; [|done]. destruct (negb (ge_stat env)); [done|].
  destruct (Z.eqb_spec (Z.of_nat (length (df_data fd))) (e_Size e0)) as [Hsz|]; [|done]. cbn [negb]. intros [= <- <- <-].
  exists d, fd. rewrite Ho in *. split_and!; try done; [lia|]. apply (di_outputs stored _ (dinv_same stored _ _ Hsame Hinv) id d fd); [done|done|lia].
Qed.

(** C38. Whatever is stored, read and trimmed, one write after the other, with
    any write of an output or a new entry failing or stopping half way and other
    processes looking on at every point, a file the cache hands out is complete: it
    has the size and the SHA-256 of a body that was stored for that very action.
    Three things are taken for granted ([write_ok], [no_clash]): the check of an
    output that is there can stat and read it, a write over an entry that is there
    takes all of it or nothing, and two stored bodies with one digest have one size. *)
Theorem disk_cache_complete v env now id c c' file e :
  rtc (cache_step stored) (MkDiskCache ∅ None) c -> is_hash id ->
  GetFile v env now id c = (inl (file, e), c') ->
  exists d f, stored id d /\ e_OutputID e = sha256 d /\ e_Size e = Z.of_nat (length d) /\
    dc_files c' !! file = Some f /\ length (df_data f) = length d /\ sha256 (df_data f) = sha256 d.
Proof.
  intros Hr Hid. apply GetFile_complete; [|done].
  apply rtc_ind_r with (P := dinv stored) in Hr; [done|apply dinv_empty|]. intros x y _ Hxy Hx. by eapply dinv_step.
Qed.
End claims.

(** An accepted store is found again: the entry names the digest and size
    of the body, and the bytes read back have that digest and size; they are the
    very bytes when the output was new and the source did not change. *)
Theorem put_then_getbytes allow cenv genv penv now wall id data c out states env' readable now' :
  put false allow true cenv genv penv now wall id data c = ((PutOk, out), states) ->
  write_ok cenv penv wall id data c -> ce_open cenv <> OpenBusy ->
  (forall f, dc_files c !! fileName (sha256 data) (str "d") = Some f -> good_output (sha256 data) (length data) f) ->
  ge_open env' = true -> ge_read env' = true -> (length data <= readable)%nat ->
  exists b c', GetBytes false env' readable now' id (final c states) = (inl (b, MkEntry (sha256 data) (Z.of_nat (length data)) wall), c') /\
    length b = length data /\ sha256 b = sha256 data /\
    (dc_files c !! fileName (sha256 data) (str "d") = None -> ce_src cenv = data -> b = data).
Proof.
  intros Hput [Hc Hsafe Ht Hid Hl] Hbusy Hgood Hgo Hgr Hrd. unfold put in Hput. cbn [negb] in Hput.
  destruct (copyFile cenv now wall (sha256 data) (length data) c) as [ok st] eqn:E. destruct ok; cbn [negb] in Hput; [|done].
  destruct (copyFile_spec _ _ _ _ _ _ _ _ Hc Hgood ltac:(by intros ->%length_zero_iff_nil) E) as [Hst Hok].
  destruct (Hok eq_refl Hbusy) as (f & Hf & Hlen & Hsha & Hnew). clear Hok.
  pose proof (putIndexEntry_spec false allow genv penv now wall id data (final c st) Hid Ht Hl (entry_whole_output _ _ _ _ _ _ Hid Hsafe Hst)) as Hpe.
  destruct (putIndexEntry _ _ _ _ _ _ _ _ _ _) as [r more]. injection Hput as -> <- <-.
  destruct Hpe as (c1 & Hsame & _ & Hent). destruct (Hent eq_refl) as (t & Hfin). clear Hent. rewrite final_app, Hfin.
  set (entry := formatEntry _ _ _ _) in *. set (fa := DFile entry t false) in *. set (c2 := with_file _ (Some fa) c1).
  assert (Hfa : dc_files c2 !! fileName id (str "a") = Some fa) by apply lookup_insert_eq.
  assert (Hd2 : exists f2, dc_files c2 !! fileName (sha256 data) (str "d") = Some f2 /\ df_data f2 = df_data f).
  { specialize (Hsame (fileName (sha256 data) (str "d"))). rewrite Hf in Hsame. cbn [fmap option_fmap option_map] in Hsame.
    destruct (dc_files c1 !! fileName (sha256 data) (str "d")) as [f1|] eqn:E1; [|done]. cbn in Hsame. injection Hsame as Hda _.
    exists f1. split; [|done]. destruct (only_at_with_file (fileName id (str "a")) (fun _ => True) (Some fa) c1) as (_ & Hoff & _); [done|].
    unfold c2. rewrite Hoff; [done|]. intros Heq. apply fileName_inj in Heq as [_ Hk]; [|apply sha256_wf|done]. by apply eq_sym, key_ad in Hk. }
  destruct Hd2 as (f2 & Hf2 & Hda).
  unfold GetBytes, Get, get. rewrite Hfa, Hgo. cbn [negb df_isDir fa]. rewrite Hgr. cbn [negb orb]. change (df_data fa) with (formatEntry id (sha256 data) (Z.of_nat (length data)) wall).
  rewrite parseEntry_format, bytes_eqb_refl by (done || apply sha256_wf || lia). cbn [e_OutputID]. unfold OutputFile.
  pose proof (same_data_trans _ _ _ (markUsed_same env' now' (fileName id (str "a")) c2)
    (markUsed_same env' now' (fileName (sha256 data) (str "d")) (markUsed env' now' (fileName id (str "a")) c2).2)) as Hs.
  set (c4 := (markUsed env' now' _ (markUsed env' now' _ c2).2).2) in *. specialize (Hs (fileName (sha256 data) (str "d"))).
  rewrite Hf2 in Hs. cbn [fmap option_fmap option_map] in Hs. destruct (dc_files c4 !! _) as [f4|]; [|done].
  cbn in Hs. injection Hs as Hd4 _. rewrite Hd4, Hda, take_ge by lia. rewrite Hsha, bytes_eqb_refl.
  exists (df_data f), c4. split_and!; try done. intros Hn Hsrc. rewrite Hnew by done. rewrite Hsrc. apply take_ge. lia.
Qed.

(** *** The trim *)

Lemma markUsed_fresh env now p c f : ge_stat env = true -> ge_chtimes env = true ->
  dc_files (markUsed env now p c).2 !! p = Some f -> now - mtimeInterval < df_mtime f.
Proof.
  intros Hs Hc. unfold markUsed. destruct (dc_files c !! p) as [f0|] eqn:E; [|cbn [snd]; congruence].
  rewrite Hs, Hc, andb_true_r. cbn [negb snd]. destruct (Z.leb_spec mtimeInterval (now - df_mtime f0)).
  - unfold with_file. cbn [dc_files]. rewrite lookup_insert_eq. intros [= <-]. cbn [df_mtime]. unfold mtimeInterval, second. lia.
  - rewrite E. intros [= <-]. lia.
Qed.

(** A trim removes entry and output files only, and only those unused for
    longer than the limit and the hour a stamp may be stale by; everything else
    is untouched.  An entry answered within the limit keeps both its files. *)
Theorem trim_keeps_used tenv now c :
  (forall p, dc_files (Trim tenv now c).2 !! p = dc_files c !! p \/
     (dc_files (Trim tenv now c).2 !! p = None /\
      exists f, dc_files c !! p = Some f /\ trimmable p f (now - trimLimit - mtimeInterval))) /\
  (forall v env t id c0 file e, ge_stat env = true -> ge_chtimes env = true -> is_hash id ->
     GetFile v env t id c0 = (inl (file, e), c) -> now <= t + trimLimit ->
     dc_files (Trim tenv now c).2 !! fileName id (str "a") = dc_files c !! fileName id (str "a") /\
     dc_files (Trim tenv now c).2 !! file = dc_files c !! file /\ is_Some (dc_files c !! file)).
Proof.
  split; [apply Trim_lookup|]. intros v env t id c0 file e Hst Hch Hid Hget Hnow.
  assert (Hkeep : forall p f, dc_files c !! p = Some f -> t - mtimeInterval < df_mtime f ->
    dc_files (Trim tenv now c).2 !! p = dc_files c !! p).
  { intros p f Hf Hm. destruct (Trim_lookup tenv now c p) as [E|(_ & f' & Hf' & _ & Hold)]; [done|].
    rewrite Hf in Hf'. injection Hf' as <-. lia. }
  unfold GetFile, Get in Hget. destruct v; [done|]. unfold get in Hget. destruct (dc_files c0 !! fileName id (str "a")) as [fa|] eqn:Ea; [|done].
  destruct (negb (ge_open env)); [done|]. destruct (_ || _); [done|]. destruct (parseEntry id (df_data fa)) as [e0|] eqn:Ep; [|done].
  unfold OutputFile in Hget. set (c1 := (markUsed env t (fileName id (str "a")) c0).2) in *.
  set (out := fileName (e_OutputID e0) (str "d")) in *. set (c2 := (markUsed env t out c1).2) in *.
  destruct (dc_files c2 !! out) as [fd|] eqn:Ed; [|done]. destruct (negb (ge_stat env)); [done|]. destruct (negb _); [done|].
  injection Hget as <- <- <-. pose proof (markUsed_fresh env t out c1 fd Hst Hch Ed) as Hfd.
  split; [|split; [by eapply Hkeep|by eexists]].
  destruct (dc_files c2 !! fileName id (str "a")) as [f2|] eqn:E2.
  - rewrite <- E2. apply (Hkeep _ f2 E2). destruct (decide (fileName id (str "a") = out)) as [Heq|Hne].
    + rewrite Heq in E2. congruence.
    + unfold c2, markUsed in E2. destruct (dc_files c1 !! out); [|by apply (markUsed_fresh env t (fileName id (str "a")) c0 f2)].
      destruct (negb _); cbn [snd] in E2; [by apply (markUsed_fresh env t (fileName id (str "a")) c0 f2)|].
      destruct (_ && _); [|by apply (markUsed_fresh env t (fileName id (str "a")) c0 f2)].
      unfold with_file in E2. cbn [dc_files] in E2. rewrite lookup_insert_ne in E2 by done.
      by apply (markUsed_fresh env t (fileName id (str "a")) c0 f2).
  - destruct (Trim_lookup tenv now c2 (fileName id (str "a"))) as [E|[E _]]; rewrite E; congruence.
Qed.

(** ** A concrete run: store two bytes, read them, trim *)

Definition emptyDisk : DiskCache := MkDiskCache ∅ None.
Definition demoId : bytes := zero_hash.
Definition demoBody : bytes := [104; 105].
Definition demoCopy : copyEnv := CopyEnv true (Some 2%nat) OpenOk true demoBody None true true true true.
Definition demoGet : getEnv := GetEnv true true true true.
Definition demoEntry : entryEnv := EntryEnv true None true true true true.
Definition demoPut := put false true true demoCopy demoGet demoEntry 1000 1000 demoId demoBody emptyDisk.
Definition demoDisk : DiskCache := final emptyDisk demoPut.2.

Lemma demo_id : is_hash demoId.
Proof. split; [done|]. unfold demoId, zero_hash. apply Forall_replicate. by split. Qed.

Lemma demo_write_ok : write_ok demoCopy demoEntry 1000 demoId demoBody emptyDisk.
Proof. split; [split; [done|]; intros f; cbn [dc_files emptyDisk]; by rewrite lookup_empty|by left|by split|exact demo_id|done]. Qed.

Lemma demo_reached : rtc (cache_step (fun _ d => d = demoBody)) emptyDisk demoDisk.
Proof.
  apply rtc_once. eapply step_put; [done|apply demo_write_ok|]. unfold demoDisk, final. fold demoPut.
  destruct (last demoPut.2) as [x|] eqn:E; [by eapply last_Some_elem_of|].
  assert (H : (match last demoPut.2 with Some _ => true | None => false end) = true) by (vm_compute; reflexivity). by rewrite E in H.
Qed.

Lemma demo_found : (match (GetFile false demoGet 2000 demoId demoDisk).1 with inl (_, e) => e_Size e | inr _ => -1 end) = 2.
Proof. vm_compute. reflexivity. Qed.

Lemma disk_cache_complete_witness : exists file e c', GetFile false demoGet 2000 demoId demoDisk = (inl (file, e), c') /\
  exists f, dc_files c' !! file = Some f /\ length (df_data f) = 2%nat /\ sha256 (df_data f) = sha256 demoBody.
Proof.
  pose proof demo_found as Hf. destruct (GetFile false demoGet 2000 demoId demoDisk) as [[[file e]|r] c'] eqn:E; cbn [fst] in Hf; [|done].
  exists file, e, c'. split; [done|].
  destruct (disk_cache_complete (fun _ d => d = demoBody) ltac:(by intros _ _ d d' -> ->) false demoGet 2000 demoId demoDisk c' file e
    demo_reached demo_id E) as (d & f & -> & _ & _ & Hfile & Hl & Hs).
  exists f. exact (conj Hfile (conj Hl Hs)).
Defined.

Lemma put_then_getbytes_witness : exists b c',
  GetBytes false demoGet 2 2000 demoId demoDisk = (inl (b, MkEntry (sha256 demoBody) 2 1000), c') /\ b = demoBody.
Proof.
  assert (Hr : demoPut.1.1 = PutOk) by (vm_compute; reflexivity). unfold demoDisk. destruct demoPut as [[r out] states] eqn:E.
  cbn [fst] in Hr. subst r.
  destruct (put_then_getbytes true demoCopy demoGet demoEntry 1000 1000 demoId demoBody emptyDisk out states demoGet 2 2000 E demo_write_ok)
    as (b & c' & Hg & _ & _ & Hb); [done| |done|done|cbn; lia|].
  - intros f. cbn [dc_files emptyDisk]. by rewrite lookup_empty.
  - exists b, c'. split; [exact Hg|]. by apply Hb.
Defined.

Lemma trim_keeps_used_witness : exists file e c, GetFile false demoGet 2000 demoId demoDisk = (inl (file, e), c) /\
  is_Some (dc_files (Trim (TrimEnv true (TransformRuns None) (fun _ => true) (fun _ => true) (fun _ => true)) (2000 + trimLimit) c).2 !! file).
Proof.
  pose proof demo_found as Hf. destruct (GetFile false demoGet 2000 demoId demoDisk) as [[[file e]|r] c] eqn:E; cbn [fst] in Hf; [|done].
  exists file, e, c. split; [done|].
  destruct (proj2 (trim_keeps_used (TrimEnv true (TransformRuns None) (fun _ => true) (fun _ => true) (fun _ => true)) (2000 + trimLimit) c)
    false demoGet 2000 demoId demoDisk file e eq_refl eq_refl demo_id E ltac:(lia)) as (_ & -> & Hs). exact Hs.
Defined.
