(* ===== verification/Handlers.v ===== *)
(** * The object requests

    [handlers.go] and the read guards of [modindex.go]: GET, HEAD, PUT and
    DELETE of one object over the [Storage] of the file of that name, with every
    early return.  A request body is what its reader delivers before an end or
    an error ([reader]); a response is its status, the header assignments in
    order, and the body bytes that were sent.  [Last-Modified] is kept as a time.
    Metrics and log lines are left out except for the outcome label of a GET,
    which names the branch that answered; so are the audit label, which only the
    log reads, and the bandwidth record, modelled in [Bandwidth]. *)

From Stdlib Require Import ZArith Lia List Bool String.
From stdpp Require Import base gmap list sets sorting.
From S2P Require Import Prelude Strconv SortedSlice GoSet Keys Sha256 Paths ObjAttrs ContentStamp ModuleIndex Lru MemoCache Index Storage Eviction.

(** ** Readers *)

(** Whether an error is an [http.MaxBytesError]. *)
Inductive readErr := MaxBytesError | ReadFailed.

(** The bytes a reader delivers and the error after them ([None] is the end of
    the input); [rd_eager] is whether the error comes with the last bytes, as an
    [io.Reader] may return it, or on the read after. *)
Record reader := Reader { rd_data : bytes; rd_err : option readErr; rd_eager : bool }.

Definition rd_len (rd : reader) : Z := Z.of_nat (length (rd_data rd)).

(** [http.MaxBytesReader]: past the limit it returns the error with the last
    bytes it lets through. *)
Definition maxBytesReader (n : Z) (rd : reader) : reader :=
  if rd_len rd <=? n then rd else Reader (take (Z.to_nat n) (rd_data rd)) (Some MaxBytesError) true.

(** [io.LimitReader]: past the limit it reports the end without reading. *)
Definition limitReader (n : Z) (rd : reader) : reader :=
  if n <? rd_len rd then Reader (take (Z.to_nat n) (rd_data rd)) None false
  else if (n =? rd_len rd) && negb (rd_eager rd) then Reader (rd_data rd) None false
  else rd.

Definition readAll (rd : reader) : bytes + readErr :=
  match rd_err rd with None => inl (rd_data rd) | Some e => inr e end.

(** ** Responses *)

Record response := Response {
  rs_status : Z; rs_headers : list (bytes * bytes); rs_lastModified : option Z; rs_body : bytes
}.

Definition writeError (httpStatus : Z) (code message : bytes) : response :=
  Response httpStatus
    [(str "Content-Type", str "text/plain; charset=utf-8"); (str "X-Cache-Error-Code", code)]
    None (code ++ str ": " ++ message ++ [10]).

Definition nativeMetaPrefix : bytes := str "x-cache-meta-".
Definition legacyMetaPrefix : bytes := str "x-amz-meta-".

(** [strings.ToUpper] of one byte taken as a string: a byte that is no ASCII
    character is no UTF-8 text on its own and becomes the replacement rune. *)
Definition upper1 (c : Z) : bytes :=
  if c <? 128 then [if (97 <=? c) && (c <=? 122) then c - 32 else c] else [239; 191; 189].

Definition header_name (k : bytes) : bytes :=
  match k with [] => [] | c :: k' => upper1 c ++ k' end.

Section emit.
Context `{!MapRange}.

Definition emitObjectHeaders (meta : ObjectMeta) : list (bytes * bytes) * option Z :=
  (concat (map (fun kv => [(str "X-Cache-Meta-" ++ header_name kv.1, kv.2); (str "X-Amz-Meta-" ++ header_name kv.1, kv.2)])
             (range_order 0 (Metadata meta)))
   ++ [(str "Content-Length", formatInt (om_size meta))],
   Some (om_modNano meta)).
End emit.

(** The metadata of an upload.  [hdrs] are the request headers in the order the
    map is ranged over, each with its first value. *)
Definition with_prefix (prefix : bytes) (hdr : bytes * bytes) : option bytes :=
  let lk := map to_lower hdr.1 in
  if has_prefix lk prefix then Some (drop (length prefix) lk) else None.

Definition native_step (m : smap) (hdr : bytes * bytes) : smap :=
  match with_prefix nativeMetaPrefix hdr with Some k => <[k := hdr.2]> m | None => m end.

Definition legacy_step (m : smap) (hdr : bytes * bytes) : smap :=
  match with_prefix legacyMetaPrefix hdr with
  | Some k => if bool_decide (is_Some (m !! k)) then m else <[k := hdr.2]> m
  | None => m
  end.

Definition upload_meta (hdrs : list (bytes * bytes)) : smap :=
  foldl legacy_step (foldl native_step ∅ hdrs) hdrs.

(** ** The guards *)

Inductive readGuardVerdict := guardServe | guardEvicted | guardPeekError.

Inductive storeStatus := storeStatusStored | storeStatusDropped | storeStatusConflict | storeStatusError.

Inductive storeErr := FromReader (e : readErr) | FromStorage (e : storageErr).

(** The reasons of [missdiag.go]. *)
Definition missNotFound : bytes := str "not_found".
Definition missEvicted : bytes := str "evicted".
Definition missAdvertised : bytes := str "advertised_unservable".
Definition missModuleIndex : bytes := str "module_index_evicted".
Definition missPeekError : bytes := str "peek_error".
Definition missSelfHeal : bytes := str "selfheal_failed".
Definition missStoredDigest : bytes := str "stored_digest".
Definition missStatError : bytes := str "stat_error".

Section handlers.
Context {F MC UC DC : Type} `{!XattrOps F} `{!XattrLaws F} `{!MapRange} `{!Decoders} `{msort : !MtimeSort}.
Context `{!CacheOps MC bytes metaEntry} `{!CacheOps UC bytes unit} `{!CacheOps DC bytes fileIdentity}.
(** The text of an error. *)
Context (errorText : storeErr -> bytes).

#[local] Abbreviation Storage := (Storage.Storage (F := F) (MC := MC) (UC := UC) (DC := DC)).
#[local] Abbreviation file := (Storage.file (F := F)).

Definition absentKeyReason (key : bytes) (s : Storage) : bytes * Storage :=
  let advertisedNow :=
    match extractActionHash key, sIndex s with Some h, Some idx => Index.Contains idx h | _, _ => false end in
  if advertisedNow then (missAdvertised, s)
  else let '(gone, s) := wasEvicted key s in (if gone then missEvicted else missNotFound, s).

Definition absentKeyOutcome (key : bytes) (s : Storage) : bytes * Storage :=
  let '(r, s) := absentKeyReason key s in (str "miss_" ++ r, s).

(** What the operating system answers while an object is read: [ge_peek] and
    [ge_rewind] for the module-index probe, [ge_known] and [ge_hash] for the
    digest check, [ge_remove] and [ge_epoch] for a deletion, [ge_sent] for how
    many bytes reach the client. *)
Record getEnv := GetEnv {
  ge_read : readEnv; ge_now : Z; ge_peek : bool; ge_rewind : bool; ge_known : bool; ge_hash : bool;
  ge_remove : readEnv; ge_epoch : Z; ge_heal : healEnv; ge_sent : nat
}.

Definition evictModuleIndex (env : getEnv) (key : bytes) (s : Storage) : Storage :=
  (Storage.Delete (ge_remove env) (ge_epoch env) key s).2.

Definition compressionOf (m : smap) : bytes := default [] (m !! str "compression").

Definition evictModuleIndexOnRead (env : getEnv) (key : bytes) (f : file) (m : smap) (s : Storage)
    : readGuardVerdict * Storage :=
  match extractActionHash key with
  | None => (guardServe, s)
  | Some hash =>
      let '(clean, s) := keyKnownClean hash s in
      if clean then (guardServe, s)
      else
        let verdict := readIsModuleIndex (ge_peek env) (body f) (compressionOf m) in
        if negb (ge_rewind env) then (guardPeekError, s)
        else match verdict with
             | None => (guardPeekError, s)
             | Some false => (guardServe, markKeyClean hash s)
             | Some true => (guardEvicted, evictModuleIndex env key s)
             end
  end.

(** Whether the key holds a module index; an object that cannot be inspected is
    taken for none. *)
Definition evictModuleIndexOnReadByKey (env : getEnv) (key : bytes) (m : smap) (s : Storage) : bool * Storage :=
  match extractActionHash key with
  | None => (false, s)
  | Some hash =>
      let '(clean, s) := keyKnownClean hash s in
      if clean then (false, s)
      else match openRaw (ge_read env) key s with
           | inr _ => (false, s)
           | inl f =>
               match readIsModuleIndex (ge_peek env) (body f) (compressionOf m) with
               | None => (false, s)
               | Some false => (false, markKeyClean hash s)
               | Some true => (true, evictModuleIndex env key s)
               end
           end
  end.

(** ** The handlers *)

Definition missing_key (key : bytes) : response :=
  writeError 404 (str "not_found") (str "the specified key does not exist: " ++ key).

Definition internal_error (e : storageErr) : response :=
  writeError 500 (str "internal_error") (errorText (FromStorage e)).

(** A GET: the response, its outcome label ([None] where the code counts
    nothing) and the state after it. *)
Definition handleGetObject (env : getEnv) (key : bytes) (s : Storage) : response * option bytes * Storage :=
  match Storage.Open (ge_read env) (ge_now env) key s with
  | (inr ErrNotFound, s) => let '(o, s) := absentKeyOutcome key s in (missing_key key, Some o, s)
  | (inr e, s) => (internal_error e, None, s)
  | (inl (f, meta), s) =>
      match evictModuleIndexOnRead env key f (Metadata meta) s with
      | (guardEvicted, s) => (missing_key key, Some (str "miss_module_index_evicted"), s)
      | (guardPeekError, s) => (missing_key key, Some (str "miss_peek_error"), s)
      | (guardServe, s) =>
          match verifyStoredDigestFor (ge_known env) (ge_hash env) key f (Metadata meta) s with
          | (None, s) => (missing_key key, Some (str "miss_stored_digest"), s)
          | (Some false, s) =>
              (missing_key key, Some (str "miss_stored_digest"), (Storage.Delete (ge_remove env) (ge_epoch env) key s).2)
          | (Some true, s) =>
              match ensureOutputID (ge_heal env) key (Metadata meta) (Some f) s with
              | (false, _, s) => (missing_key key, Some (str "miss_selfheal_failed"), s)
              | (true, m, s) =>
                  let '(hdrs, modified) := emitObjectHeaders (MkObjectMeta m (om_modNano meta) (om_size meta)) in
                  (Response 200 hdrs modified (take (ge_sent env) (body f)), Some (str "hit"), s)
              end
          end
      end
  end.

Definition handleHeadObject (env : readEnv) (key : bytes) (s : Storage) : response * Storage :=
  match Storage.Stat env key s with
  | (inr ErrNotFound, s) => (missing_key key, s)
  | (inr e, s) => (internal_error e, s)
  | (inl meta, s) => let '(hdrs, modified) := emitObjectHeaders meta in (Response 200 hdrs modified [], s)
  end.

Definition handleDeleteObject (env : readEnv) (newEpoch : Z) (key : bytes) (s : Storage) : response * Storage :=
  match Storage.Delete env newEpoch key s with
  | (None, s) | (Some ErrNotFound, s) => (Response 204 [] None [], s)
  | (Some e, s) => (internal_error e, s)
  end.

(** [PutStream] fed by a reader: its error ends the copy, unless the copy never
    starts or the disk fails first. *)
Definition copy_fails (env : @putEnv F) : @putEnv F :=
  PutEnv (pe_now env) (pe_epoch env) (pe_modNano env) (pe_atime env) (pe_ino env) (pe_attrs env) (pe_suffix env)
    (pe_create env) (pe_mkdir env) (pe_create2 env) false (pe_sync env) (pe_close env) (pe_stat env) (pe_compare env)
    (pe_setkey env) (pe_rename env) (pe_remove env).

Definition putReader (env : @putEnv F) (key : bytes) (rd : reader) (m : smap) (au : option smap) (s : Storage)
    : option storeErr * Storage :=
  match rd_err rd with
  | None => let '(e, s) := PutStream env key (rd_data rd) m au s in (FromStorage <$> e, s)
  | Some x =>
      let '(e, s) := PutStream (copy_fails env) key (rd_data rd) m au s in
      ((fun e => if temp_created env && pe_copy env then FromReader x else FromStorage e) <$> e, s)
  end.

Definition storeOneObject (env : @putEnv F) (key : bytes) (rd : reader) (m : smap) (au : option smap) (s : Storage)
    : storeStatus * option storeErr * Storage :=
  match readAll (limitReader indexPutPeekBytes rd) with
  | inr e => (storeStatusError, Some (FromReader e), s)
  | inl peek =>
      if looksLikeGoModuleIndex peek (compressionOf m) then (storeStatusDropped, None, s)
      else match putReader env key rd m au s with
           | (Some (FromStorage ErrWriteOnceConflict), s) | (Some (FromStorage ErrWriteOnceDuplicate), s) =>
               (storeStatusConflict, None, s)
           | (Some e, s) => (storeStatusError, Some e, s)
           | (None, s) => (storeStatusStored, None, s)
           end
  end.

Definition handlePutObject (env : @putEnv F) (hdrs : list (bytes * bytes)) (au : option smap) (key : bytes)
    (rbody : reader) (maxObjectBytes : Z) (s : Storage) : response * Storage :=
  let '(status, err, s) := storeOneObject env key (maxBytesReader maxObjectBytes rbody) (upload_meta hdrs) au s in
  match err with
  | Some (FromReader MaxBytesError) =>
      (writeError 413 (str "too_large")
         (str "object exceeds max size of " ++ formatInt maxObjectBytes ++ str " bytes"), s)
  | Some (FromStorage ErrStoredDigestMismatch) =>
      (writeError 400 (str "invalid_request") (errorText (FromStorage ErrStoredDigestMismatch)), s)
  | Some e => (writeError 500 (str "internal_error") (errorText e), s)
  | None =>
      match status with
      | storeStatusConflict => (writeError 409 (str "conflict") (str "object already exists with different content"), s)
      | _ => (Response 200 [] None [], s)
      end
  end.
End handlers.

(** ** What a GET may serve *)

Section memo.
Context {C V : Type} `{!CacheOps C bytes V} `{!CacheLaws C bytes V}.

(** Everything the memo remembers satisfies [P]. *)
Definition memo_ok (oc : option C) (P : bytes -> V -> Prop) : Prop :=
  match oc with None => True | Some c => c_wf c /\ forall h v, c_look c h = Some v -> P h v end.

Lemma memo_ok_mono oc (P Q : bytes -> V -> Prop) : (forall h v, P h v -> Q h v) -> memo_ok oc P -> memo_ok oc Q.
Proof. destruct oc as [c|]; [|done]. intros HPQ [Hwf HP]. split; [done|]. intros h v Hl. by apply HPQ, HP. Qed.

Lemma memo_ok_get c P h : memo_ok (Some c) P -> memo_ok (Some (c_get c h).2) P.
Proof. intros [Hwf HP]. split; [by apply c_get_wf|]. intros h' v. rewrite c_get_look by done. apply HP. Qed.

Lemma memo_ok_put c P h v : P h v -> memo_ok (Some c) P -> memo_ok (Some (c_put c h v)) P.
Proof.
  intros Hv [Hwf HP]. split; [by apply c_put_wf|]. intros h' v' Hl.
  apply c_put_look in Hl as [[-> ->]|[_ Hl]]; [done|by apply HP|done].
Qed.

Lemma memo_ok_forget oc P h : memo_ok oc P -> memo_ok ((fun c => c_forget c h) <$> oc) (fun h' v => h' <> h /\ P h' v).
Proof.
  destruct oc as [c|]; [|done]. intros [Hwf HP]. split; [by apply c_forget_wf|]. intros h' v Hl.
  apply c_forget_look in Hl as [Hne Hl]; [|done]. split; [done|by apply HP].
Qed.

Lemma memo_ok_hit c P h v : memo_ok (Some c) P -> (c_get c h).1 = Some v -> P h v.
Proof. intros [_ HP]. apply HP. Qed.
End memo.

(** A sweep changes a store through the deletion of victims, the index and the
    access records only. *)
Section evict_effects.
Context {F MC UC DC St : Type}.
Context `{!CacheOps MC bytes metaEntry} `{!CacheOps UC bytes unit} `{!CacheOps DC bytes fileIdentity}.
Context `{!SetOps St compactKey} `{msort : !MtimeSort}.
#[local] Abbreviation Storage := (Storage.Storage (F := F) (MC := MC) (UC := UC) (DC := DC)).
Context (P : Storage -> Prop) (env : evictEnv).
Context (P_index : forall s i, P s -> P (with_index s i)) (P_access : forall s a, P s -> P (with_access s a)).
Context (P_evict : forall s key m, P s -> P (evictOne env key m s).2).

Lemma flush_keeps st : P (sw_s st) -> P (sw_s (flush (St := St) env st)).
Proof.
  intros HP. unfold flush. destruct (sw_batch st) as [|v0 batch0]; [done|]. set (batch := v0 :: batch0).
  assert (H1 : P (deadvertise (St := St) env (sw_rounds st) batch (sw_s st))) by (by apply P_index).
  revert H1. generalize (deadvertise (St := St) env (sw_rounds st) batch (sw_s st)) as s. generalize (sw_stats st) as stats.
  clearbody batch. induction batch as [|v batch IH]; intros stats s Hs; cbn [foldl]; [done|].
  unfold flush_one at 2. pose proof (P_evict s (Key (ev_ck v)) (ev_mtimeUnix v) Hs) as He.
  destruct (evictOne env (Key (ev_ck v)) (ev_mtimeUnix v) s) as [[] s1]; by apply IH.
Qed.

Lemma evict_keeps maxAge maxBytes nowUnix s : P s -> P (Evict (St := St) env maxAge maxBytes nowUnix s).2.
Proof.
  intros HP. unfold Evict. cbv zeta. set (st := if 0 <? _ then _ else _).
  assert (Hst : P (sw_s st)).
  { subst st. destruct (0 <? _); [|done]. unfold sweepBelow, walk_with. apply flush_keeps.
    cbn [sw_s]. set (st0 := SweepState s _ [] 0). assert (H0 : P (sw_s st0)) by done. revert H0. generalize st0 as st.
    generalize (walkOrder s) as ps. clear st0. induction ps as [|p ps IH]; intros st Hs; cbn [foldl]; [done|]. apply IH.
    unfold visit. destruct (_ ≫= _) as [obj|]; [|done]. unfold sweep_object. destruct (_ <=? _); [done|].
    destruct (_ <=? _); [|done]. by apply flush_keeps. }
  cbn [snd].
  assert (Hp : P (match sc_live (scanForEviction (0 <? maxBytes) s) with Some live => pruneAccess live (sw_s st) | None => sw_s st end)).
  { destruct (sc_live _); [|done]. unfold pruneAccess. destruct (accessShards _); [by apply P_access|done]. }
  match goal with |- P (if ?b then _ else _) => destruct b end; [by apply P_index|done].
Qed.
End evict_effects.

(** ** What an upload request does *)

Section put_effects.
Context {F MC UC DC : Type} `{!XattrOps F} `{!XattrLaws F} `{!MapRange} `{!Decoders} `{msort : !MtimeSort}.
Context `{!CacheOps MC bytes metaEntry} `{!CacheOps UC bytes unit} `{!CacheOps DC bytes fileIdentity}.
Context (errorText : storeErr -> bytes).
#[local] Abbreviation Storage := (Storage.Storage (F := F) (MC := MC) (UC := UC) (DC := DC)).

Definition is_module_index (rd : reader) (m : smap) : bool :=
  looksLikeGoModuleIndex (rd_data (limitReader indexPutPeekBytes rd)) (compressionOf m).

(** The body a store operation works on, if it arrives whole and is no module
    index. *)
Definition storable (rd : reader) (m : smap) : option bytes :=
  match rd_err rd with
  | Some _ => None
  | None => if is_module_index rd m then None else Some (rd_data rd)
  end.

Lemma limitReader_whole n rd : rd_err rd = None -> rd_err (limitReader n rd) = None.
Proof. intros Hn. unfold limitReader. destruct (n <? _); [done|]. by destruct (_ && _). Qed.

Lemma copy_fails_same env key r m au (s : Storage) :
  files s !! tempPath env key = None -> exists e, PutStream (copy_fails env) key r m au s = (Some e, s).
Proof.
  intros Ht. destruct (PutStream (copy_fails env) key r m au s) as [e s'] eqn:E. exists ErrOS.
  revert E. unfold PutStream, PutStream_left. cbn [pe_create pe_mkdir pe_create2 pe_copy copy_fails].
  set (created := match pe_create env with CreateOK => true | CreateNotExist => _ | CreateErr => false end).
  destruct created; cbn [negb]; [|by intros [= <- <-]]. change (tempPath (copy_fails env) key) with (tempPath env key).
  cbn [files with_files]. rewrite delete_insert_id by done. intros [= <- <-]. by destruct s.
Qed.

(** The status and error a store operation reports for an upload that ran. *)
Definition put_status (e : option storageErr) : storeStatus * option storeErr :=
  match e with
  | None => (storeStatusStored, None)
  | Some ErrWriteOnceConflict | Some ErrWriteOnceDuplicate => (storeStatusConflict, None)
  | Some e => (storeStatusError, Some (FromStorage e))
  end.

(** [storeOneObject] by cases: a body that arrives whole and is no module index
    goes to [PutStream] as it is; otherwise the store is as before, and either
    the upload was a module index or the reader or the disk failed. *)
Lemma storeOneObject_cases env key rd m au (s : Storage) : files s !! tempPath env key = None ->
  match storable rd m with
  | Some r => storeOneObject env key rd m au s = (put_status (PutStream env key r m au s).1, (PutStream env key r m au s).2)
  | None => exists st e, storeOneObject env key rd m au s = (st, e, s) /\
      (st = storeStatusDropped /\ e = None /\ is_module_index rd m = true \/
       st = storeStatusError /\ exists x, rd_err rd = Some x /\
         (e = Some (FromReader x) \/ temp_created env && pe_copy env = false /\ exists y, e = Some (FromStorage y) /\ y <> ErrStoredDigestMismatch))
  end.
Proof.
  intros Ht. unfold storable, storeOneObject, readAll.
  assert (Hpeek : forall peek, rd_data (limitReader indexPutPeekBytes rd) = peek ->
    looksLikeGoModuleIndex peek (compressionOf m) = is_module_index rd m) by (by intros ? <-).
  destruct (rd_err rd) as [x|] eqn:Er.
  - assert (Hl : rd_err (limitReader indexPutPeekBytes rd) = None \/ rd_err (limitReader indexPutPeekBytes rd) = Some x).
    { unfold limitReader. destruct (_ <? _); [by left|]. destruct (_ && _); [by left|by right]. }
    destruct Hl as [-> | ->]; [|do 2 eexists; split; [done|]; right; split; [done|]; exists x; by eauto].
    rewrite Hpeek by done. destruct (is_module_index rd m); [do 2 eexists; split; [done|]; by left|].
    unfold putReader. rewrite Er. destruct (copy_fails_same env key (rd_data rd) m au s Ht) as [e He]. rewrite He.
    assert (e = ErrOS) as ->.
    { revert He. unfold PutStream, PutStream_left. cbn [pe_copy copy_fails]. destruct (negb _); [by intros [= <-]|]. by intros [= <-]. }
    cbn [fmap option_fmap option_map]. destruct (temp_created env && pe_copy env);
      do 2 eexists; (split; [done|]); right; (split; [done|]); exists x; split; try done; [by left|right; split; [done|]; by exists ErrOS].
  - rewrite limitReader_whole by done. rewrite Hpeek by done. destruct (is_module_index rd m).
    { do 2 eexists. split; [done|]. by left. }
    unfold putReader. rewrite Er. destruct (PutStream env key (rd_data rd) m au s) as [e s']. cbn [fst snd].
    destruct e as [[]|]; done.
Qed.

Lemma storeOneObject_state env key rd m au (s : Storage) : files s !! tempPath env key = None ->
  (storeOneObject env key rd m au s).2 = match storable rd m with Some r => (PutStream env key r m au s).2 | None => s end.
Proof.
  intros Ht. pose proof (storeOneObject_cases env key rd m au s Ht) as Hc. destruct (storable rd m).
  - by rewrite Hc.
  - by destruct Hc as (st & e & -> & _).
Qed.

Lemma storable_whole n rd m r : storable (maxBytesReader n rd) m = Some r ->
  maxBytesReader n rd = rd /\ rd_err rd = None /\ rd_len rd <= n /\ r = rd_data rd.
Proof.
  unfold storable, maxBytesReader. destruct (Z.leb_spec (rd_len rd) n); [|done]. destruct (rd_err rd); [done|].
  destruct (is_module_index _ _); [done|]. by intros [= <-].
Qed.

Lemma put_request_state env hdrs au key rd mx (s : Storage) :
  (handlePutObject errorText env hdrs au key rd mx s).2 = (storeOneObject env key (maxBytesReader mx rd) (upload_meta hdrs) au s).2.
Proof.
  unfold handlePutObject. destruct (storeOneObject _ _ _ _ _ s) as [[st err] s']. cbn [snd].
  destruct err as [[[]|[]]|]; try done. by destruct st.
Qed.
End put_effects.

Section serving.
Context {F MC UC DC St : Type} `{!XattrOps F} `{!XattrLaws F} `{!MapRange} `{!Decoders} `{msort : !MtimeSort} `{!SetOps St compactKey}.
Context `{!CacheOps MC bytes metaEntry} `{!CacheOps UC bytes unit} `{!CacheOps DC bytes fileIdentity}.
Context `{!CacheLaws MC bytes metaEntry} `{!CacheLaws UC bytes unit} `{!CacheLaws DC bytes fileIdentity}.
Context (errorText : storeErr -> bytes).
(** [uploaded h d m]: a body [d] was sent for the action hash [h], with metadata [m]. *)
Context (uploaded : bytes -> bytes -> smap -> Prop).
(** [rotted h id]: the version [id] of the file of [h] went bad on disk after it
    had been hashed and while the verdict was remembered. *)
Context (rotted : bytes -> fileIdentity -> Prop).
#[local] Abbreviation Storage := (Storage.Storage (F := F) (MC := MC) (UC := UC) (DC := DC)).
#[local] Abbreviation file := (Storage.file (F := F)).
#[local] Abbreviation fileMap := (gmap (list bytes) file).

Definition ckey (h : bytes) : bytes := gbciKeyPrefix ++ hex_encode h.
Definition cacheKey (key : bytes) : Prop := exists h, is_hash h /\ key = ckey h.

Definition file_meta (f : file) : smap := getMetadata (fattrs f).
Definition verified (f : file) : bool :=
  bodyMatchesStoredDigest (body f) (default [] (file_meta f !! storedDigestMetaKey)).
Definition isIndex (f : file) : option bool := readIsModuleIndex true (body f) (compressionOf (file_meta f)).

(** What the two memos stand for. *)
Definition digest_vouch (fs : fileMap) (h : bytes) (id : fileIdentity) : Prop :=
  is_hash h -> forall f, fs !! cpath h = Some f -> identityOf f = id -> verified f = true \/ rotted h id.
Definition clean_vouch (fs : fileMap) (h : bytes) (_ : unit) : Prop :=
  is_hash h -> forall f, fs !! cpath h = Some f -> verified f = true -> isIndex f = Some false.

(** Metadata [got] of an object uploaded with [m]: what the protocol needs is as
    sent, and nothing but the output id and the digest is not from the upload. *)
Definition sent_meta (m got : smap) : Prop :=
  (forall k v, k ∈ metadataProtectedKeys -> k <> storedDigestMetaKey -> m !! k = Some v -> v <> [] -> got !! k = Some v) /\
  (forall k v, got !! k = Some v -> k <> outputIDMetaKey -> k <> storedDigestMetaKey -> m !! k = Some v).

(** The digest and the metadata recorded with an object are those of an upload for its key. *)
Definition recorded (h : bytes) (f : file) : Prop :=
  file_meta f !! [] = None /\ exists d m, uploaded h d m /\ file_meta f !! storedDigestMetaKey = Some (hex_encode (sha256 d)) /\
    sent_meta m (file_meta f).
Definition provenance (fs : fileMap) : Prop := forall h f, is_hash h -> fs !! cpath h = Some f -> recorded h f.

Definition served_inv (s : Storage) : Prop :=
  meta_coherent cacheKey (files s) (metaCache s) /\ provenance (files s) /\
  memo_ok (digestOK s) (digest_vouch (files s)) /\ memo_ok (cleanKeys s) (clean_vouch (files s)).

Lemma cacheKey_free : collision_free cacheKey.
Proof. intros k k' (h & Hh & ->) (h' & Hh' & ->) E. by rewrite (cpath_inj h h' Hh Hh' E). Qed.

Lemma cacheKey_other h k : is_hash h -> cacheKey k -> k <> ckey h -> keyToPath k <> cpath h.
Proof. intros Hh Hk Hne E. apply Hne, cacheKey_free; [done|by exists h|done]. Qed.

Lemma ckey_hash h : is_hash h -> extractActionHash (ckey h) = Some h.
Proof. apply extractActionHash_key. Qed.

Lemma served_frame (s s' : Storage) : files s' = files s -> digestOK s' = digestOK s -> cleanKeys s' = cleanKeys s ->
  meta_coherent cacheKey (files s') (metaCache s') -> served_inv s -> served_inv s'.
Proof. intros Hf Hd Hc Hm (_ & H2 & H3 & H4). unfold served_inv. rewrite Hf, Hd, Hc in *. by split_and!. Qed.

(** A file less, and memos that forgot something. *)
Lemma served_shrink (s s' : Storage) key :
  (forall p f, files s' !! p = Some f -> files s !! p = Some f) -> metaCache s' = (fun c => c_forget c key) <$> metaCache s ->
  (digestOK s' = digestOK s /\ cleanKeys s' = cleanKeys s \/
   exists h, digestOK s' = (fun c => c_forget c h) <$> digestOK s /\ cleanKeys s' = (fun c => c_forget c h) <$> cleanKeys s) ->
  served_inv s -> served_inv s'.
Proof.
  intros Hf Hm Hmemo (H1 & H2 & H3 & H4).
  assert (Hd : forall h v, digest_vouch (files s) h v -> digest_vouch (files s') h v) by (intros ?? Hv Hh f Hl; by apply Hv, Hf).
  assert (Hc : forall h v, clean_vouch (files s) h v -> clean_vouch (files s') h v) by (intros ?? Hv Hh f Hl; by apply Hv, Hf).
  split_and!.
  - rewrite Hm. destruct (metaCache s) as [c|]; [|done]. destruct H1 as [Hwf Hco]. split; [by apply c_forget_wf|].
    intros k e f Hk Hl Hlk. apply c_forget_look in Hl as [_ Hl]; [|done]. eapply Hco; [done|exact Hl|by apply Hf].
  - intros h f Hh Hlk. by apply H2, Hf.
  - destruct Hmemo as [[-> _]|(h & -> & _)]; [by eapply memo_ok_mono|].
    eapply memo_ok_mono; [|by apply memo_ok_forget]. intros h' v [_ ?]. by apply Hd.
  - destruct Hmemo as [[_ ->]|(h & _ & ->)]; [by eapply memo_ok_mono|].
    eapply memo_ok_mono; [|by apply memo_ok_forget]. intros h' v [_ ?]. by apply Hc.
Qed.

Lemma forgotten_memos key (s : Storage) :
  let s' := forgetClean key s in
  digestOK s' = digestOK s /\ cleanKeys s' = cleanKeys s \/
  exists h, digestOK s' = (fun c => c_forget c h) <$> digestOK s /\ cleanKeys s' = (fun c => c_forget c h) <$> cleanKeys s.
Proof. unfold forgetClean. destruct (extractActionHash key) as [h|]; [right; by exists h|by left]. Qed.

Lemma served_removed key (s s1 : Storage) :
  files s1 = delete (keyToPath key) (files s) -> metaCache s1 = metaCache s -> digestOK s1 = digestOK s ->
  cleanKeys s1 = cleanKeys s -> served_inv s -> served_inv (forgetMeta key (forgetClean key s1)).
Proof.
  intros Hf Hmc Hd Hc Hs. pose proof (forgotten_memos key s1) as Hm. cbv zeta in Hm. rewrite Hd, Hc in Hm.
  apply (served_shrink s _ key); [| |exact Hm|done].
  - intros p f. unfold forgetMeta, forgetClean. destruct (extractActionHash key); cbn [files with_meta with_clean];
      rewrite Hf, lookup_delete_Some; by intros [_ ?].
  - unfold forgetMeta, forgetClean. destruct (extractActionHash key); cbn [metaCache with_meta with_clean]; by rewrite Hmc.
Qed.

Lemma served_delete env e key (s : Storage) : served_inv s -> served_inv (Storage.Delete env e key s).2.
Proof.
  intros Hs. unfold Storage.Delete. destruct (negb _); [done|]. destruct (files s !! keyToPath key); [|done].
  unfold forgetAccess. cbn [accessShards with_index with_files].
  destruct (accessShards s); apply (served_removed key s); try done.
Qed.

Lemma served_evictOne env key m (s : Storage) : served_inv s -> served_inv (evictOne env key m s).2.
Proof.
  intros Hs. unfold evictOne. destruct (negb _); [done|]. destruct (negb _); [done|].
  destruct (files s !! keyToPath key); [|done]. cbn [snd]. set (s1 := forgetAccess key _).
  assert (Hs1 : served_inv (forgetMeta key (forgetClean key s1))).
  { subst s1. unfold forgetAccess. cbn [accessShards with_files]. destruct (accessShards s); by apply (served_removed key s). }
  unfold noteEvicted. by destruct (extractActionHash key).
Qed.

Lemma served_evict env maxAge maxBytes nowUnix (s : Storage) :
  served_inv s -> served_inv (Evict (St := St) env maxAge maxBytes nowUnix s).2.
Proof. apply evict_keeps; [done|done|]. intros. by apply served_evictOne. Qed.

(** A file replaced; the memos forget its hash or still hold for the new one. *)
Lemma served_replaced h f (s s' : Storage) :
  is_hash h -> files s' = <[cpath h := f]> (files s) -> recorded h f ->
  meta_coherent cacheKey (files s') (metaCache s') ->
  memo_ok (digestOK s') (fun h' id => digest_vouch (files s) h' id /\ (h' = h -> identityOf f = id -> verified f = true \/ rotted h' id)) ->
  memo_ok (cleanKeys s') (fun h' u => clean_vouch (files s) h' u /\ (h' = h -> verified f = true -> isIndex f = Some false)) ->
  served_inv s -> served_inv s'.
Proof.
  intros Hh Hf Hr Hm Hd Hc (_ & H2 & _ & _). split_and!; [done| | |].
  - intros h' g Hh' Hg. rewrite Hf in Hg. apply lookup_insert_Some in Hg as [[E <-]|[_ Hg]]; [|by apply H2].
    by rewrite <- (cpath_inj h h' Hh Hh' E).
  - eapply memo_ok_mono; [|exact Hd]. intros h' id [Hv Hn] Hh' g Hg Hid. rewrite Hf in Hg.
    apply lookup_insert_Some in Hg as [[E <-]|[_ Hg]]; [|by eapply Hv]. apply Hn; [|done]. by apply cpath_inj.
  - eapply memo_ok_mono; [|exact Hc]. intros h' id [Hv Hn] Hh' g Hg Hid. rewrite Hf in Hg.
    apply lookup_insert_Some in Hg as [[E <-]|[_ Hg]]; [|by eapply Hv]. apply Hn; [|done]. by apply cpath_inj.
Qed.

Lemma coherent_change h f (s : Storage) (mc : option MC) :
  is_hash h -> meta_coherent cacheKey (files s) mc ->
  meta_coherent cacheKey (<[cpath h := f]> (files s)) ((fun c => c_forget c (ckey h)) <$> mc).
Proof.
  intros Hh Hm. eapply forgetMeta_coherent; [exact Hm|]. intros k Hk Hne. rewrite lookup_insert_ne; [done|].
  intros E. by apply (cacheKey_other h k).
Qed.

Lemma served_put env h r m au (s : Storage) :
  is_hash h -> files s !! tempPath env (ckey h) = None -> m !! [] = None -> uploaded h r m ->
  served_inv s -> served_inv (PutStream env (ckey h) r m au s).2.
Proof.
  intros Hh Ht Hm Hup Hs. destruct (PutStream env (ckey h) r m au s) as [e s'] eqn:E.
  apply PutStream_result in E as [[-> _]|(_ & _ & _ & a & Ha & ->)]; [done| |done].
  destruct (put_stored_meta _ _ _ _ _ Hm Ha) as (Hdig & Hprot & Hsub).
  pose proof Hs as (H1 & H2 & H3 & H4). cbn [snd]. destruct (put_state_files env (ckey h) r a s) as [Hf Hc].
  apply (served_replaced h (put_file env (ckey h) r a) s); try done.
  - split; [|exists r, m; split_and!; [done|done|split]]; unfold file_meta; cbn [fattrs put_file].
    + destruct (getMetadata a !! []) as [v|] eqn:Ev; [|done]. apply (lookup_weaken _ _ _ _ Ev) in Hsub.
      rewrite lookup_insert_ne in Hsub by done. congruence.
    + intros k v Hk Hne Hv _. by rewrite Hprot.
    + intros k v Hv _ Hne. apply (lookup_weaken _ _ _ _ Hv) in Hsub. by rewrite lookup_insert_ne in Hsub.
  - rewrite Hf, Hc. by apply coherent_change.
  - unfold put_state, forgetEvicted, forgetMeta, forgetClean. rewrite ckey_hash by done.
    cbn [digestOK with_clean with_files with_index with_evicted with_meta].
    eapply memo_ok_mono; [|by apply memo_ok_forget]. intros h' v [Hne Hv]. by split.
  - unfold put_state, forgetEvicted, forgetMeta, forgetClean. rewrite ckey_hash by done.
    cbn [cleanKeys with_clean with_files with_index with_evicted with_meta].
    eapply memo_ok_mono; [|by apply memo_ok_forget]. intros h' v [Hne Hv]. by split.
Qed.

(** New attributes that keep the digest and the compression. *)
Lemma served_attrs h f a (s s' : Storage) :
  is_hash h -> files s !! cpath h = Some f -> files s' = <[cpath h := set_attrs f a]> (files s) ->
  digestOK s' = digestOK s -> cleanKeys s' = cleanKeys s -> meta_coherent cacheKey (files s') (metaCache s') ->
  getMetadata a !! [] = None -> getMetadata a !! storedDigestMetaKey = file_meta f !! storedDigestMetaKey ->
  getMetadata a !! str "compression" = file_meta f !! str "compression" ->
  (forall m, sent_meta m (file_meta f) -> sent_meta m (getMetadata a)) ->
  served_inv s -> served_inv s'.
Proof.
  intros Hh Hlk Hf Hd Hc Hm Hn Hdig Hcomp Hsent Hs. pose proof Hs as (_ & H2 & H3 & H4).
  assert (Hv : verified (set_attrs f a) = verified f)
    by (unfold verified, file_meta; cbn [fattrs set_attrs body]; by rewrite Hdig).
  assert (Hi : isIndex (set_attrs f a) = isIndex f)
    by (unfold isIndex, compressionOf; change (file_meta (set_attrs f a)) with (getMetadata a); cbn [body set_attrs]; by rewrite Hcomp).
  apply (served_replaced h (set_attrs f a) s); try done.
  - destruct (H2 h f Hh Hlk) as (_ & d & m & Hup & Hd0 & Hm0). split; [done|]. exists d, m. split; [done|].
    change (file_meta (set_attrs f a)) with (getMetadata a). split; [congruence|auto].
  - rewrite Hd. eapply memo_ok_mono; [|exact H3]. intros h' id Hvo. split; [done|]. intros -> Hid. rewrite Hv. by eapply Hvo.
  - rewrite Hc. eapply memo_ok_mono; [|exact H4]. intros h' u Hvo. split; [done|]. intros -> Hver. rewrite Hi. rewrite Hv in Hver. by eapply Hvo.
Qed.

(** Recording an output id where there is none keeps the rest of the upload's metadata. *)
Lemma healed_meta f x a err : file_meta f !! [] = None -> setMetadata (fattrs f) {[ outputIDMetaKey := x ]} = (a, err) ->
  getMetadata a !! [] = None /\ getMetadata a !! storedDigestMetaKey = file_meta f !! storedDigestMetaKey /\
  getMetadata a !! str "compression" = file_meta f !! str "compression" /\
  (missingOutputID (file_meta f) = true -> forall m, sent_meta m (file_meta f) -> sent_meta m (getMetadata a)).
Proof.
  intros Hn Hset. destruct err as [e|]; [unfold file_meta, getMetadata; by rewrite (setMetadata_fail _ _ _ _ Hset)|].
  apply setMetadata_ok in Hset as [Hsub Hp]; [|by rewrite lookup_union_r by (by rewrite lookup_singleton_ne)]. split_and!.
  - destruct (getMetadata a !! []) as [v|] eqn:Ev; [|done]. apply (lookup_weaken _ _ _ _ Ev) in Hsub.
    rewrite lookup_union_r in Hsub by (by rewrite lookup_singleton_ne). unfold file_meta in Hn. congruence.
  - rewrite Hp by apply digest_key_protected. by rewrite lookup_union_r by (by rewrite lookup_singleton_ne).
  - rewrite Hp by (apply list_elem_of_further, list_elem_of_here). by rewrite lookup_union_r by (by rewrite lookup_singleton_ne).
  - intros Hmiss m [Hk Ho]. split.
    + intros k v Hpk Hne Hv Hv0. rewrite Hp by done. specialize (Hk k v Hpk Hne Hv Hv0).
      rewrite lookup_union_r; [done|]. apply lookup_singleton_ne. intros <-. apply bytes_eqb_eq in Hmiss. by rewrite Hk in Hmiss.
    + intros k v Hv Hno Hne. apply (lookup_weaken _ _ _ _ Hv) in Hsub. rewrite lookup_union_r in Hsub by (by apply lookup_singleton_ne). auto.
Qed.

Lemma served_heal env h f m given (s : Storage) :
  is_hash h -> files s !! cpath h = Some f -> m = file_meta f -> given = None \/ given = files s !! cpath h -> served_inv s ->
  served_inv (ensureOutputID env (ckey h) m given s).2.
Proof.
  intros Hh Hf0 Em Hg Hs. pose proof Hs as (Hm & H2 & _ & _).
  assert (Hm' : let s' := (ensureOutputID env (ckey h) m given s).2 in meta_coherent cacheKey (files s') (metaCache s')).
  { apply ensureOutputID_coherent; [apply cacheKey_free|by exists h|done|done]. }
  revert Hm'. unfold ensureOutputID. destruct (missingOutputID m) eqn:Emiss; cbn [negb]; [|done]. rewrite ckey_hash by done.
  destruct (reconstructOutputID env (ckey h) given s) as [r s1] eqn:E.
  apply reconstruct_result in E as [[-> ->]|(g & st & cd & a & err & Hf & _ & _ & _ & _ & Hset & Hs1)]; [done| |done].
  intros Hm'. change (keyToPath (ckey h)) with (cpath h) in Hf. rewrite Hf0 in Hf. injection Hf as <-.
  destruct (H2 h f Hh Hf0) as [Hn _]. rewrite Em in Emiss.
  destruct (healed_meta _ _ _ _ Hn Hset) as (Hm1 & Hm2 & Hm3 & Hm4). specialize (Hm4 Emiss).
  destruct err as [x|]; destruct Hs1 as [-> ->]; by apply (served_attrs h f a s).
Qed.

Lemma served_verify known readable h f m (s : Storage) r s' :
  is_hash h -> files s !! cpath h = Some f -> m !! storedDigestMetaKey = file_meta f !! storedDigestMetaKey -> served_inv s ->
  verifyStoredDigestFor known readable (ckey h) f m s = (r, s') ->
  served_inv s' /\ files s' = files s /\
  (r = Some true -> verified f = true \/ rotted h (identityOf f) /\ default [] (m !! outputIDMetaKey) <> []).
Proof.
  intros Hh Hlk Hmd Hs. pose proof Hs as (_ & _ & H3 & _).
  assert (Hplain : forall b, verifyStoredDigest readable f m = Some b -> verified f = b).
  { intros b. unfold verifyStoredDigest, verified. rewrite Hmd. destruct (readable || _); [|done]. by intros [= <-]. }
  unfold verifyStoredDigestFor. rewrite ckey_hash by done.
  destruct (digestOK s) as [d|] eqn:Ed; [|intros [= <- <-]; split_and!; auto]. destruct (known && _) eqn:Ek; [|intros [= <- <-]; split_and!; auto].
  pose proof (memo_ok_get d _ h H3) as Hget. pose proof (memo_ok_hit d _ h (identityOf f) H3) as Hhit.
  destruct (c_get d h) as [r0 d1]. cbn [fst snd] in *.
  assert (Hs1 : served_inv (with_clean s (cleanKeys s) (Some d1))).
  { destruct Hs as (? & ? & _ & ?). by split_and!. }
  case_bool_decide as Er.
  { intros [= <- <-]. split_and!; [done|done|]. intros _. destruct (Hhit Er Hh f Hlk eq_refl) as [?|?]; [by left|right; split; [done|]].
    apply andb_true_iff in Ek as [_ Ek]. apply negb_true_iff, not_true_iff_false in Ek. by rewrite bytes_eqb_eq in Ek. }
  destruct (verifyStoredDigest readable f m) as [[]|]; intros [= <- <-]; split_and!; try done; [|by left; apply Hplain].
  destruct Hs1 as (? & ? & ? & ?). split_and!; try done. apply memo_ok_put; [|done].
  intros _ g Hg _. cbn [files with_clean] in Hg. rewrite Hlk in Hg. injection Hg as <-. left. by apply Hplain.
Qed.

Lemma served_guard env h f (s : Storage) v s' :
  is_hash h -> files s !! cpath h = Some f -> served_inv s ->
  evictModuleIndexOnRead env (ckey h) f (file_meta f) s = (v, s') ->
  served_inv s' /\ (v = guardServe -> files s' = files s /\ (verified f = true -> isIndex f = Some false)).
Proof.
  intros Hh Hlk Hs. pose proof Hs as (_ & _ & _ & H4). unfold evictModuleIndexOnRead. rewrite ckey_hash by done.
  destruct (keyKnownClean h s) as [clean s1] eqn:Ec.
  assert (Hk : served_inv s1 /\ files s1 = files s /\ (clean = true -> verified f = true -> isIndex f = Some false)).
  { unfold keyKnownClean in Ec. destruct (cleanKeys s) as [c|]; [|injection Ec as <- <-; by split_and!].
    pose proof (memo_ok_get c _ h H4) as Hget. pose proof (memo_ok_hit c _ h tt H4) as Hhit.
    destruct (c_get c h) as [r c1]. injection Ec as <- <-. cbn [fst snd] in *. split_and!; [|done|].
    - destruct Hs as (? & ? & ? & _). by split_and!.
    - intros [[] Hr]%bool_decide_eq_true. by apply Hhit. }
  clear Ec. destruct Hk as (Hs1 & Hf1 & Hclean). destruct clean; [intros [= <- <-]; split; [done|]; intros _; auto|].
  destruct (negb (ge_rewind env)); [by intros [= <- <-]|].
  destruct (readIsModuleIndex (ge_peek env) (body f) (compressionOf (file_meta f))) as [[]|] eqn:Ei; intros [= <- <-].
  - split; [|done]. by apply served_delete.
  - assert (Hi : isIndex f = Some false) by (unfold isIndex; by destruct (ge_peek env)).
    split; [|done]. destruct Hs1 as (? & ? & ? & Hcl). split_and!; try done. unfold markKeyClean.
    cbn [cleanKeys with_clean files]. destruct (cleanKeys s1) as [c|]; [|done]. cbn [fmap option_fmap option_map].
    apply memo_ok_put; [|done]. intros _ g Hg _. rewrite Hf1, Hlk in Hg. by injection Hg as <-.
  - done.
Qed.

Lemma served_open env now h (s : Storage) r s' : is_hash h -> served_inv s ->
  Storage.Open env now (ckey h) s = (r, s') ->
  served_inv s' /\ files s' = files s /\
  (forall f meta, r = inl (f, meta) -> files s !! cpath h = Some f /\ meta = MkObjectMeta (file_meta f) (modNano f) (file_size f)).
Proof.
  intros Hh Hs. unfold Storage.Open. destruct (negb _); [by intros [= <- <-]|].
  change (keyToPath (ckey h)) with (cpath h). destruct (files s !! cpath h) as [f|] eqn:Ef; [|by intros [= <- <-]].
  destruct (negb _); [by intros [= <- <-]|]. destruct (loadMetadata (ckey h) f s) as [md s1] eqn:El.
  pose proof (loadMetadata_memos _ _ _ _ _ El) as [Hd Hc]. pose proof Hs as (Hm & _).
  destruct (loadMetadata_spec _ _ _ _ _ _ Hm cacheKey_free (ex_intro _ h (conj Hh eq_refl)) Ef El) as (-> & Hm1 & Hf1 & _).
  intros [= <- <-].
  assert (Hs1 : served_inv s1) by (by apply (served_frame s)).
  assert (Hr : served_inv (recordAccess now (ckey h) s1) /\ files (recordAccess now (ckey h) s1) = files s)
    by (unfold recordAccess; by destruct (accessShards s1)).
  destruct Hr as [Hr1 Hr2]. split_and!; [done|done|]. by intros g meta [= <- <-].
Qed.

(** A memo that remembers nothing. *)
Definition cold_memos (s : Storage) : Prop :=
  memo_ok (metaCache s) (fun _ _ => False) /\ memo_ok (digestOK s) (fun _ _ => False) /\ memo_ok (cleanKeys s) (fun _ _ => False).

(** What happens to a store: requests for build-cache keys, sweeps, restarts of
    the process, and a body that changes on disk behind an unchanged size and
    time; where a check of this version is remembered, the version is one of the
    [rotted]. *)
Inductive event : Storage -> Storage -> Prop :=
  | EvGet env h s : is_hash h -> event s (handleGetObject errorText env (ckey h) s).2
  | EvHead env h s : is_hash h -> event s (handleHeadObject errorText env (ckey h) s).2
  | EvPut env hdrs au h rd maxObjectBytes s :
      is_hash h -> files s !! tempPath env (ckey h) = None -> upload_meta hdrs !! [] = None ->
      (rd_err rd = None -> uploaded h (rd_data rd) (upload_meta hdrs)) ->
      event s (handlePutObject errorText env hdrs au (ckey h) rd maxObjectBytes s).2
  | EvDelete env e h s : is_hash h -> event s (handleDeleteObject errorText env e (ckey h) s).2
  | EvSweep env maxAge maxBytes nowUnix s : event s (Evict (St := St) env maxAge maxBytes nowUnix s).2
  | EvRestart s s' : files s' = files s -> cold_memos s' -> event s s'
  | EvRot h f b s : is_hash h -> files s !! cpath h = Some f -> length b = length (body f) ->
      let f' := File b (modNano f) (accessSec f) (inode f) (fattrs f) (originalKey f) in
      verified f' = false -> (forall d, digestOK s = Some d -> c_look d h = Some (identityOf f) -> rotted h (identityOf f)) ->
      event s (with_files s (<[cpath h := f']> (files s))).

Lemma served_cold (s : Storage) : provenance (files s) -> cold_memos s -> served_inv s.
Proof.
  intros Hp (H1 & H2 & H3). split_and!; [|done|by eapply memo_ok_mono; [|exact H2]|by eapply memo_ok_mono; [|exact H3]].
  destruct (metaCache s) as [c|]; [|done]. destruct H1 as [Hwf Hn]. split; [done|]. intros k e f _ Hl. by apply Hn in Hl.
Qed.

Lemma served_absent key (s : Storage) : served_inv s -> served_inv (absentKeyOutcome key s).2.
Proof.
  intros Hs. unfold absentKeyOutcome, absentKeyReason.
  destruct (match extractActionHash key with Some _ => _ | None => _ end); [done|]. unfold wasEvicted.
  destruct (extractActionHash key), (evicted s); try done. by destruct (c_get _ _) as [[]].
Qed.

(** An answered GET: what was verified on the way. *)
Definition hit_of (env : getEnv) (h : bytes) (f : file) (m : smap) (resp : response) : Prop :=
  (verified f = true /\ isIndex f = Some false \/ rotted h (identityOf f) /\ default [] (file_meta f !! outputIDMetaKey) <> []) /\
  resp = Response 200 (emitObjectHeaders (MkObjectMeta m (modNano f) (file_size f))).1 (Some (modNano f)) (take (ge_sent env) (body f)).

Lemma get_effect env h (s : Storage) resp o s' : is_hash h -> served_inv s ->
  handleGetObject errorText env (ckey h) s = (resp, o, s') ->
  served_inv s' /\
  (rs_status resp = 200 -> exists f m s1 s2, files s !! cpath h = Some f /\ files s1 = files s /\ served_inv s1 /\
     ensureOutputID (ge_heal env) (ckey h) (file_meta f) (Some f) s1 = (true, m, s2) /\ hit_of env h f m resp).
Proof.
  intros Hh Hs. unfold handleGetObject. destruct (Storage.Open _ _ _ s) as [r s1] eqn:Eo.
  destruct (served_open _ _ _ _ _ _ Hh Hs Eo) as (Hs1 & Hf1 & Hr). destruct r as [[f meta]|x].
  2:{ destruct x; try by intros [= <- <- <-]. pose proof (served_absent (ckey h) s1 Hs1) as Ha.
      destruct (absentKeyOutcome (ckey h) s1) as [oc s2]. by intros [= <- <- <-]. }
  destruct (Hr f meta eq_refl) as [Hlk ->]. cbn [Metadata om_modNano om_size].
  assert (Hlk1 : files s1 !! cpath h = Some f) by (by rewrite Hf1).
  destruct (evictModuleIndexOnRead env (ckey h) f (file_meta f) s1) as [v s2] eqn:Eg.
  destruct (served_guard _ _ _ _ _ _ Hh Hlk1 Hs1 Eg) as [Hs2 Hv]. destruct v; [|by intros [= <- <- <-]|by intros [= <- <- <-]].
  destruct (Hv eq_refl) as [Hf2 Hidx]. assert (Hlk2 : files s2 !! cpath h = Some f) by (by rewrite Hf2).
  destruct (verifyStoredDigestFor _ _ _ _ _ s2) as [b s3] eqn:Ed.
  destruct (served_verify _ _ _ _ _ _ _ _ Hh Hlk2 eq_refl Hs2 Ed) as (Hs3 & Hf3 & Hb).
  destruct b as [[]|]; [|intros [= <- <- <-]; split; [by apply served_delete|done]|by intros [= <- <- <-]].
  specialize (Hb eq_refl).
  pose proof (served_heal (ge_heal env) h f (file_meta f) (Some f) s3 Hh ltac:(by rewrite Hf3) eq_refl ltac:(right; by rewrite Hf3) Hs3) as Hs4.
  destruct (ensureOutputID _ _ _ _ s3) as [[ok m] s4] eqn:Eh. cbn [snd] in Hs4.
  destruct ok; intros [= <- <- <-]; split; try done. intros _. exists f, m, s3, s4. split_and!; try done; [congruence|].
  split; [|done]. destruct Hb as [Hb|Hb]; [left; auto|by right].
Qed.

Lemma served_step s s' : event s s' -> served_inv s -> served_inv s'.
Proof.
  intros Hev Hs. destruct Hev as [env h s Hh|env h s Hh|env hdrs au h rd mx s Hh Ht Hn Hup|env e h s Hh|env a b n s|s s' Hf Hcold|h f b s Hh Hlk Hlen f' Hrot Hmemo].
  - destruct (handleGetObject errorText env (ckey h) s) as [[resp o] s'] eqn:E. by apply get_effect in E as [? _].
  - unfold handleHeadObject, Storage.Stat. destruct (negb _); [done|]. change (keyToPath (ckey h)) with (cpath h).
    destruct (files s !! cpath h) as [f|] eqn:Ef; [|done]. destruct (loadMetadata (ckey h) f s) as [md s1] eqn:El.
    pose proof (loadMetadata_memos _ _ _ _ _ El) as [Hd Hc]. pose proof Hs as (Hm & _).
    destruct (loadMetadata_spec _ _ _ _ _ _ Hm cacheKey_free (ex_intro _ h (conj Hh eq_refl)) Ef El) as (-> & Hm1 & Hf1 & _).
    destruct (emitObjectHeaders _). cbn [snd]. by apply (served_frame s).
  - rewrite put_request_state, storeOneObject_state by done. destruct (storable _ _) as [r|] eqn:Er; [|done].
    apply storable_whole in Er as (_ & He & _ & ->). by apply served_put; auto.
  - unfold handleDeleteObject. pose proof (served_delete env e (ckey h) s Hs) as Hd.
    destruct (Storage.Delete env e (ckey h) s) as [[[]|] s']; done.
  - by apply served_evict.
  - apply served_cold; [|done]. rewrite Hf. by destruct Hs as (_ & ? & _).
  - pose proof Hs as (H1 & H2 & H3 & H4). destruct (H2 h f Hh Hlk) as (Hn & d & m & Hup & Hd & Hm).
    apply (served_replaced h f' s); try done.
    + split; [done|]. by exists d, m.
    + cbn [files metaCache with_files]. destruct (metaCache s) as [c|]; [|done]. destruct H1 as [Hwf Hco]. split; [done|].
      intros k e g Hk Hl Hg. apply lookup_insert_Some in Hg as [[E <-]|[_ Hg]]; [|by eapply Hco].
      cbn [modNano f']. unfold file_size. cbn [body f']. rewrite Hlen. apply (Hco k e f); [done|done|by rewrite <- E].
    + cbn [digestOK with_files]. destruct (digestOK s) as [dg|] eqn:Edg; [|done]. destruct H3 as [Hwf Hv]. split; [done|].
      intros h' id Hl. split; [by apply Hv|]. intros -> Hid. right.
      assert (Hif : identityOf f = id) by (rewrite <- Hid; unfold identityOf, file_size; cbn [inode body modNano f']; by rewrite Hlen).
      rewrite <- Hif. apply (Hmemo dg eq_refl). by rewrite Hl, Hif.
    + cbn [cleanKeys with_files]. eapply memo_ok_mono; [|exact H4]. intros h' u Hv. split; [done|]. intros _. by rewrite Hrot.
Qed.

Lemma served_reachable s0 s : files s0 = ∅ -> cold_memos s0 -> rtc event s0 s -> served_inv s.
Proof.
  intros Hempty Hcold Hr. assert (Hs0 : served_inv s0).
  { apply served_cold; [|done]. intros h f _ Hf. by rewrite Hempty, lookup_empty in Hf. }
  clear Hempty Hcold. induction Hr as [|s0 s1 s2 Hev _ IH]; [done|]. apply IH. by eapply served_step.
Qed.

Lemma emit_meta meta k v : Metadata meta !! k = Some v ->
  (str "X-Cache-Meta-" ++ header_name k, v) ∈ (emitObjectHeaders meta).1.
Proof.
  intros Hk. unfold emitObjectHeaders. cbn [fst]. apply elem_of_app. left. apply list_elem_of_In, in_concat.
  exists [(str "X-Cache-Meta-" ++ header_name k, v); (str "X-Amz-Meta-" ++ header_name k, v)]. split; [|by left].
  apply in_map_iff. exists (k, v). split; [done|]. apply list_elem_of_In. rewrite range_perm. by apply elem_of_map_to_list.
Qed.

Lemma emit_length meta : (str "Content-Length", formatInt (om_size meta)) ∈ (emitObjectHeaders meta).1.
Proof. unfold emitObjectHeaders. cbn [fst]. apply elem_of_app. right. apply list_elem_of_here. Qed.

(** The output id of a served object: the one recorded, or the content address
    of the body, decompressed. *)
Definition output_id_of (f : file) (v : bytes) : Prop :=
  v <> [] /\ (file_meta f !! outputIDMetaKey = Some v \/
    exists st cd, decompressingReader (body f) = Some (st, cd) /\ st_clean st = true /\ v = hex_encode (sha256 (st_bytes st))).

Lemma hex_sha_nonempty b : hex_encode (sha256 b) <> [].
Proof.
  intros E. pose proof (length_hex_encode (sha256 b)) as El. rewrite E in El. destruct (sha256_wf b) as [Hl _]. by rewrite Hl in El.
Qed.

Lemma healed_output env h f m (s s' : Storage) : is_hash h -> files s !! cpath h = Some f ->
  ensureOutputID env (ckey h) (file_meta f) (Some f) s = (true, m, s') -> exists v, m !! outputIDMetaKey = Some v /\ output_id_of f v.
Proof.
  intros Hh Hf. unfold ensureOutputID, missingOutputID. destruct (bytes_eqb _ _) eqn:Eb; cbn [negb].
  - rewrite ckey_hash by done. destruct (reconstructOutputID env (ckey h) (Some f) s) as [r s1] eqn:Er.
    apply reconstruct_result in Er as [[-> ->]|(g & st & cd & a & err & Hg & _ & Hd & _ & Hc & _ & Hs1)]; [done| |right; by rewrite <- Hf].
    change (keyToPath (ckey h)) with (cpath h) in Hg. rewrite Hf in Hg. injection Hg as <-.
    destruct err as [x|]; destruct Hs1 as [-> _]; [done|].
    intros [[_ <-]%pair_equal_spec _]%pair_equal_spec. eexists. split; [apply lookup_insert_eq|].
    split; [apply hex_sha_nonempty|right; by eauto].
  - intros [= <- _]. apply not_true_iff_false in Eb. rewrite bytes_eqb_eq in Eb.
    destruct (file_meta f !! outputIDMetaKey) as [v|] eqn:Ev; [|done]. exists v. split; [done|]. split; [done|by left].
Qed.

(** An object that has an output id keeps its metadata. *)
Lemma recorded_output env key m given (s : Storage) m' s' : ensureOutputID env key m given s = (true, m', s') ->
  default [] (m !! outputIDMetaKey) <> [] -> m' = m.
Proof.
  unfold ensureOutputID, missingOutputID. intros Hrun Hne. destruct (bytes_eqb _ _) eqn:E; [by apply bytes_eqb_eq in E|]. cbn [negb] in Hrun. congruence.
Qed.

Lemma verified_digest f d : verified f = true -> file_meta f !! storedDigestMetaKey = Some (hex_encode (sha256 d)) ->
  sha256 (body f) = sha256 d.
Proof.
  intros Hv Hd. unfold verified in Hv. rewrite Hd in Hv. cbn [from_option id] in Hv.
  unfold bodyMatchesStoredDigest in Hv. destruct (sha256_wf d) as [Hl Hb], (sha256_wf (body f)) as [Hl' Hb'].
  destruct (bytes_eqb (hex_encode (sha256 d)) []) eqn:E.
  { apply bytes_eqb_eq, (f_equal length) in E. rewrite length_hex_encode, Hl in E. done. }
  unfold equalFold, storedDigest in Hv. apply bytes_eqb_eq in Hv. rewrite !hex_encode_lower in Hv by done.
  symmetry. by apply hex_encode_inj.
Qed.

Lemma verified_recorded h f : recorded h f -> verified f = true ->
  exists d m, uploaded h d m /\ sha256 (body f) = sha256 d /\ sent_meta m (file_meta f).
Proof. intros (_ & d & m & Hup & Hd & Hm) Hv. exists d, m. split_and!; [done|by apply verified_digest|done]. Qed.

End serving.

(** No file goes bad after it was hashed. *)
Definition noRot (h : bytes) (id : fileIdentity) : Prop := False.

Section put_claim.
Context {F MC UC DC : Type} `{!XattrOps F} `{!XattrLaws F} `{!MapRange} `{!Decoders} `{msort : !MtimeSort}.
Context `{!CacheOps MC bytes metaEntry} `{!CacheOps UC bytes unit} `{!CacheOps DC bytes fileIdentity}.
Context (errorText : storeErr -> bytes).
#[local] Abbreviation Storage := (Storage.Storage (F := F) (MC := MC) (UC := UC) (DC := DC)).

(** The answer to an upload that ran. *)
Definition put_answer (e : option storageErr) : Z :=
  match e with
  | None => 200
  | Some ErrWriteOnceConflict | Some ErrWriteOnceDuplicate => 409
  | Some ErrStoredDigestMismatch => 400
  | Some _ => 500
  end.

(** C9. An upload request stores the whole body or nothing.  A body that
    arrives whole, within the size limit and is no module index is stored as
    [PutStream] decides, with the metadata of the headers, and the answer says
    how; any change to the store happens this way and is answered with 200.  A
    body over the limit never reaches the store: the answer is 413, unless it is
    dropped as a module index or the temp file fails first. *)
Theorem put_request_exact env hdrs au key rd maxObjectBytes (s : Storage) resp s' :
  files s !! tempPath env key = None -> 0 <= maxObjectBytes ->
  handlePutObject errorText env hdrs au key rd maxObjectBytes s = (resp, s') ->
  let m := upload_meta hdrs in
  (rd_err rd = None -> rd_len rd <= maxObjectBytes -> is_module_index rd m = false ->
     rs_status resp = put_answer (PutStream env key (rd_data rd) m au s).1 /\ s' = (PutStream env key (rd_data rd) m au s).2) /\
  (s' <> s -> rs_status resp = 200 /\ rd_err rd = None /\ rd_len rd <= maxObjectBytes /\ is_module_index rd m = false) /\
  (maxObjectBytes < rd_len rd -> s' = s /\
     (rs_status resp = 413 \/
      rs_status resp = 200 /\ is_module_index (maxBytesReader maxObjectBytes rd) m = true \/
      rs_status resp = 500 /\ temp_created env && pe_copy env = false)).
Proof.
  intros Ht Hmax Hrun m. pose proof (storeOneObject_cases env key (maxBytesReader maxObjectBytes rd) m au s Ht) as Hc.
  unfold handlePutObject in Hrun. fold m in Hrun.
  destruct (storable (maxBytesReader maxObjectBytes rd) m) as [r|] eqn:Er.
  - pose proof Er as Er'. apply storable_whole in Er' as (Hw & He & Hl & ->). rewrite Hw in *.
    assert (Hi : is_module_index rd m = false).
    { unfold storable in Er. rewrite He in Er. by destruct (is_module_index rd m). }
    rewrite Hc in Hrun. destruct (PutStream env key (rd_data rd) m au s) as [e s1] eqn:Ep. cbn [fst snd] in *.
    assert (Hres : rs_status resp = put_answer e /\ s' = s1) by (by destruct e as [[]|]; injection Hrun as <- <-).
    destruct Hres as [Hst ->]. split_and!; [done| |lia]. intros Hne.
    apply PutStream_result in Ep as [[-> _]|(-> & _)]; [done| |done]. by split_and!.
  - destruct Hc as (st & e & Hrun1 & Hcase). rewrite Hrun1 in Hrun. clear Hrun1.
    assert (s' = s) as ->.
    { destruct e as [[[]|[]]|]; try (by injection Hrun as _ <-). by destruct st; injection Hrun as _ <-. }
    split_and!; [|done|].
    + intros He Hl Hi. exfalso. unfold storable, maxBytesReader in Er. destruct (Z.leb_spec (rd_len rd) maxObjectBytes); [|lia].
      rewrite He in Er. by rewrite Hi in Er.
    + intros Hl. split; [done|]. unfold maxBytesReader in *. destruct (Z.leb_spec (rd_len rd) maxObjectBytes); [lia|].
      destruct Hcase as [(-> & -> & Hi)|(-> & x & [= <-] & [->|(Hf & y & -> & Hy)])]; cycle 1.
      * left. by injection Hrun as <-.
      * right; right. split; [|done]. by destruct y; injection Hrun as <-.
      * right; left. by injection Hrun as <-.
Qed.
End put_claim.

(** ** A concrete history *)

Definition noText : storeErr -> bytes := fun _ => [].
Definition getOk : getEnv := GetEnv (ReadEnv true true) 2000 true true true true (ReadEnv true true) 12 healOk 4096.
Definition demoHeaders : list (bytes * bytes) :=
  [(str "X-Cache-Meta-Pkg", str "net/http"); (str "X-Amz-Meta-Pkg", str "fmt"); (str "X-Amz-Meta-Target", str "linux/amd64")].
Definition demoUploaded (h d : bytes) (m : smap) : Prop := h = zero_hash /\ d = demoBody /\ m = upload_meta demoHeaders.
Definition demoUpload : reader := Reader demoBody None false.

Definition demoPut (s : DemoStorage) : response * DemoStorage :=
  handlePutObject noText (okEnv 1000 5) demoHeaders None (ckey zero_hash) demoUpload 1048576 s.
Definition putStore : DemoStorage := (demoPut (demoStore noWriteOnce)).2.

Lemma demo_cold_memos wo : cold_memos (demoStore wo).
Proof.
  split_and!; (split; [apply lru_new_wf|]); intros h v Hl; unfold c_look in Hl; cbn in Hl;
    unfold newMetaCache, newDigestMemo, newCleanKeyMemo in Hl; by rewrite lru_new_look in Hl.
Qed.

Lemma demo_history : rtc (event (St := gset compactKey) noText demoUploaded noRot) (demoStore noWriteOnce) putStore.
Proof.
  apply rtc_once, (EvPut (St := gset compactKey)).
  - apply zero_hash_ok.
  - vm_compute. reflexivity.
  - vm_compute. reflexivity.
  - by intros _.
Qed.


(** The upload is stored; the native header wins over the deprecated one. *)
Lemma put_request_exact_witness :
  rs_status (demoPut (demoStore noWriteOnce)).1 = 200 /\
  (demoPut (demoStore noWriteOnce)).2 =
    (PutStream (okEnv 1000 5) (ckey zero_hash) demoBody (upload_meta demoHeaders) None (demoStore noWriteOnce)).2 /\
  upload_meta demoHeaders = {[ str "pkg" := str "net/http"; str "target" := str "linux/amd64" ]}.
Proof.
  destruct (put_request_exact noText (okEnv 1000 5) demoHeaders None (ckey zero_hash) demoUpload 1048576 (demoStore noWriteOnce)
    (demoPut (demoStore noWriteOnce)).1 (demoPut (demoStore noWriteOnce)).2) as [Hst _].
  - vm_compute. reflexivity.
  - lia.
  - fold (demoPut (demoStore noWriteOnce)). destruct (demoPut (demoStore noWriteOnce)). reflexivity.
  - destruct Hst as [H1 H2]; [reflexivity|vm_compute; discriminate|vm_compute; reflexivity|].
    split; [|split; [exact H2|vm_compute; reflexivity]]. etransitivity; [exact H1|]. vm_compute. reflexivity.
Defined.
