(* ===== verification/Batch.v ===== *)
(** * The batch requests

    [batch.go]: [/_batch/get] and [/_batch/put] over the [Storage] of the file of
    that name, with the guards of [Handlers] and the worker pool of [ParMap].
    The JSON request and manifest and the tar stream are given as decoded: a tar
    upload is its members in stream order, each with what its reader delivers,
    and the way the stream ends.  A batch answer is its manifest and the members
    streamed.  Metrics, log lines and the bandwidth record are left out. *)

From Stdlib Require Import ZArith Lia List Bool String.
From stdpp Require Import base gmap list sets sorting.
From S2P Require Import Prelude Strconv SortedSlice GoSet Keys Sha256 Paths ObjAttrs ContentStamp ModuleIndex Lru MemoCache Index Nearby HaveFilter Storage Eviction ParMap Handlers.

Definition maxBatchKeys : Z := 4096.
Definition prefetchWindow : Z := 30 * 1000000000.
Definition maxPrefetchEntries : Z := 200.

Record batchGetRequest := BatchGetRequest {
  rq_Keys : list bytes; rq_Prefetch : bool; rq_PrefetchOnly : bool; rq_Have : option haveFilter
}.

Record batchGetManifestEntry := BatchGetManifestEntry { mf_Key : bytes; mf_Size : Z; mf_Metadata : smap; mf_Prefetch : bool }.

Record batchEntry := BatchEntry { be_key : bytes; be_meta : ObjectMeta; be_prefetch : bool }.

Record batchPutManifestEntry := BatchPutManifestEntry { bp_Key : bytes; bp_Metadata : smap }.

(** The result of one manifest key; [None] until its member is stored. *)
Record batchPutResult := BatchPutResult { br_Key : bytes; br_Status : option storeStatus; br_Message : option storeErr }.

Section batch.
Context {F MC UC DC St : Type} `{!XattrOps F} `{!XattrLaws F} `{!MapRange} `{!Decoders} `{msort : !MtimeSort} `{!SetOps St compactKey}.
Context `{!CacheOps MC bytes metaEntry} `{!CacheOps UC bytes unit} `{!CacheOps DC bytes fileIdentity}.
#[local] Abbreviation Storage := (Storage.Storage (F := F) (MC := MC) (UC := UC) (DC := DC)).
#[local] Abbreviation file := (Storage.file (F := F)).

(** [%q] of the messages. *)
Context (quote : bytes -> bytes).

(** ** Reading *)

Record openedEntry := OpenedEntry { oe_entry : batchEntry; oe_file : option file; oe_size : Z }.

Definition noEntry : batchEntry := BatchEntry [] (MkObjectMeta ∅ 0 0) false.
Definition noOpened : openedEntry := OpenedEntry noEntry None 0.

(** The entry and the reason it cannot be served, empty for one that can. *)
Definition servableEntry (env : getEnv) (key : bytes) (prefetch : bool) (s : Storage) : batchEntry * bytes * Storage :=
  match Storage.Stat (ge_read env) key s with
  | (inr ErrNotFound, s) => let '(reason, s) := absentKeyReason key s in (noEntry, reason, s)
  | (inr _, s) => (noEntry, missStatError, s)
  | (inl meta, s) =>
      match evictModuleIndexOnReadByKey env key (Metadata meta) s with
      | (true, s) => (noEntry, missModuleIndex, s)
      | (false, s) =>
          match ensureOutputID (ge_heal env) key (Metadata meta) None s with
          | (false, _, s) => (noEntry, missSelfHeal, s)
          | (true, m, s) => (BatchEntry key (MkObjectMeta m (om_modNano meta) (om_size meta)) prefetch, [], s)
          end
      end
  end.

Definition openVerifiedEntry (env : getEnv) (e : batchEntry) (s : Storage) : openedEntry * bool * Storage :=
  match Storage.OpenBody (ge_read env) (ge_now env) (be_key e) s with
  | (inr _, s) => (noOpened, false, s)
  | (inl (f, size), s) =>
      match verifyStoredDigestFor (ge_known env) (ge_hash env) (be_key e) f (Metadata (be_meta e)) s with
      | (Some true, s) => (OpenedEntry e (Some f) size, true, s)
      | (None, s) => (noOpened, false, s)
      | (Some false, s) => (noOpened, false, (Storage.Delete (ge_remove env) (ge_epoch env) (be_key e) s).2)
      end
  end.

(** The function each worker runs; an item carries the environment of its call. *)
Definition look_up (prefetch : bool) (item : getEnv * bytes) (s : Storage) : (batchEntry * bool) * Storage :=
  let '(e, reason, s) := servableEntry item.1 item.2 prefetch s in ((e, bytes_eqb reason []), s).

Definition open_up (item : getEnv * batchEntry) (s : Storage) : (openedEntry * bool) * Storage :=
  openVerifiedEntry item.1 item.2 s.

Definition with_envs {A} (env : nat -> getEnv) (l : list A) : list (getEnv * A) := imap (fun i x => (env i, x)) l.

Definition buildPrefetchEntries (procs : nat) (env : nat -> getEnv) (keys : list bytes) (s : Storage)
    (out : list batchEntry) (s' : Storage) : Prop :=
  parallelFilter noEntry (look_up true) procs (with_envs env keys) s out s'.

Definition openVerifiedEntries (procs : nat) (env : nat -> getEnv) (entries : list batchEntry) (s : Storage)
    (out : list openedEntry) (s' : Storage) : Prop :=
  parallelFilter noOpened open_up procs (with_envs env entries) s out s'.

(** The times of the entries found: [None] is the zero time. *)
Definition min_mod (entries : list batchEntry) : option Z :=
  foldl (fun acc e => let t := om_modNano (be_meta e) in
    Some (match acc with None => t | Some a => if t <? a then t else a end)) None entries.
Definition max_mod (entries : list batchEntry) : option Z :=
  foldl (fun acc e => let t := om_modNano (be_meta e) in
    Some (match acc with None => t | Some a => if a <? t then t else a end)) None entries.

(** The filter the client sent with its request.  The request body is at most
    2^20 bytes, so the filter's size in bits is not 0 modulo 2^32. *)
Definition held (have : option haveFilter) (key : bytes) : bool :=
  match extractActionHash key with None => false | Some h => default false (server_contains have h) end.

Definition freshKeys (have : option haveFilter) (requested : list bytes) (lo hi : Z) (s : Storage) : option (list bytes * Storage) :=
  match sIndex s with
  | None => None
  | Some idx =>
      let '(keys, idx) := NearbyKeys (St := St) (unixOf (lo - prefetchWindow)) (unixOf (hi + prefetchWindow)) maxPrefetchEntries
                            requested (Some (held have)) idx in
      Some (keys, with_index s (Some idx))
  end.

(** The environments of the three rounds, and how many members reach the
    client before it goes away. *)
Record batchEnv := BatchEnv {
  bv_procs : nat; bv_look : nat -> getEnv; bv_prefetch : nat -> getEnv; bv_open : nat -> getEnv; bv_sent : nat
}.

Inductive batchAnswer :=
  | BatchRefused (prefetchOff : bool) (r : response)
  | BatchTar (prefetchOff : bool) (manifest : list batchGetManifestEntry) (members : list (bytes * bytes)).

Definition manifest_of (o : openedEntry) : batchGetManifestEntry :=
  BatchGetManifestEntry (be_key (oe_entry o)) (oe_size o) (Metadata (be_meta (oe_entry o))) (be_prefetch (oe_entry o)).

(** [writeTarEntry] of an opened entry: exactly the declared size. *)
Definition member_of (o : openedEntry) : bytes * bytes :=
  (str "data/" ++ be_key (oe_entry o), take (Z.to_nat (oe_size o)) (match oe_file o with Some f => body f | None => [] end)).

(** The entries of the answer: the requested ones found, then the prefetched. *)
Definition batch_entries (env : batchEnv) (prefetchEnabled : bool) (req : batchGetRequest) (s : Storage)
    (entries : list batchEntry) (s' : Storage) : Prop :=
  let lookup := if negb prefetchEnabled && rq_PrefetchOnly req then [] else rq_Keys req in
  let prefetch := prefetchEnabled && rq_Prefetch req in
  let prefetchOnly := prefetchEnabled && rq_PrefetchOnly req in
  exists found s1, parallelFilter noEntry (look_up false) (bv_procs env) (with_envs (bv_look env) lookup) s found s1 /\
    match (if prefetch then min_mod found else None), max_mod found with
    | Some lo, Some hi =>
        match freshKeys (rq_Have req) lookup lo hi s1 with
        | None => entries = found /\ s' = s1
        | Some (keys, s2) =>
            exists prefetched, buildPrefetchEntries (bv_procs env) (bv_prefetch env) keys s2 prefetched s' /\
              entries = if prefetchOnly then prefetched else found ++ prefetched
        end
    | _, _ => entries = found /\ s' = s1
    end.

Definition handleBatchGet (env : batchEnv) (method : bytes) (prefetchEnabled : bool) (decoded : batchGetRequest + bytes)
    (s : Storage) (res : batchAnswer) (s' : Storage) : Prop :=
  if negb (bytes_eqb method (str "GET") || bytes_eqb method (str "POST")) then
    res = BatchRefused false (writeError 405 (str "method_not_allowed") (str "method not allowed")) /\ s' = s
  else
    match decoded with
    | inr err => res = BatchRefused (negb prefetchEnabled) (writeError 400 (str "invalid_request") (str "invalid JSON: " ++ err)) /\ s' = s
    | inl req =>
        let n := Z.of_nat (length (rq_Keys req)) in
        if n =? 0 then res = BatchRefused (negb prefetchEnabled) (writeError 400 (str "invalid_request") (str "no keys specified")) /\ s' = s
        else if maxBatchKeys <? n then
          res = BatchRefused (negb prefetchEnabled) (writeError 400 (str "invalid_request")
                  (str "too many keys: " ++ formatInt n ++ str " (max " ++ formatInt maxBatchKeys ++ str ")")) /\ s' = s
        else
          exists entries s2 opened, batch_entries env prefetchEnabled req s entries s2 /\
            openVerifiedEntries (bv_procs env) (bv_open env) entries s2 opened s' /\
            res = BatchTar (negb prefetchEnabled) (map manifest_of opened) (take (bv_sent env) (map member_of opened))
    end.

(** ** Writing *)

(** [byDataName]: the position of the manifest entry a data member is for; the
    inputs the request turns away are [inl]. *)
Fixpoint index_manifest (i : nat) (entries : list batchPutManifestEntry) (byDataName : gmap bytes nat)
    : bytes + gmap bytes nat :=
  match entries with
  | [] => inr byDataName
  | e :: entries' =>
      if bytes_eqb (bp_Key e) [] then inl (str "manifest entry " ++ formatInt (Z.of_nat i) ++ str " has empty key")
      else
        let name := str "data/" ++ bp_Key e in
        match byDataName !! name with
        | Some _ => inl (str "duplicate key in manifest: " ++ quote (bp_Key e))
        | None => index_manifest (S i) entries' (<[name := i]> byDataName)
        end
  end.

(** The stream after the manifest: the members and how it ends. *)
Record tarStream := TarStream { ts_members : list (bytes * reader); ts_end : option readErr }.

(** The state of the loop over the members. *)
Record putState := PutState { ps_store : Storage; ps_seen : gset bytes; ps_results : list batchPutResult; ps_round : nat }.

Inductive putFailure := FailTooLarge | FailTar | FailUnknownMember (name : bytes) | FailDuplicateMember (name : bytes)
  | FailMissingMember (key : bytes).

Definition store_member (env : nat -> @putEnv F) (entries : list batchPutManifestEntry) (byDataName : gmap bytes nat)
    (audit : option smap) (maxObjectBytes : Z) (st : putState) (member : bytes * reader) : putFailure + putState :=
  let '(name, rd) := member in
  match byDataName !! name ≫= fun i => pair i <$> entries !! i with
  | None => inl (FailUnknownMember name)
  | Some (i, e) =>
      if bool_decide (name ∈ ps_seen st) then inl (FailDuplicateMember name)
      else
        let '(status, err, s) :=
          storeOneObject (env (ps_round st)) (bp_Key e) (limitReader maxObjectBytes rd) (bp_Metadata e) audit (ps_store st) in
        let message := match status with storeStatusError => err | _ => None end in
        inr (PutState s ({[name]} ∪ ps_seen st)
               (<[i := BatchPutResult (bp_Key e) (Some status) message]> (ps_results st)) (S (ps_round st)))
  end.

Fixpoint store_members (env : nat -> @putEnv F) (entries : list batchPutManifestEntry) (byDataName : gmap bytes nat)
    (audit : option smap) (maxObjectBytes : Z) (st : putState) (members : list (bytes * reader))
    : option putFailure * putState :=
  match members with
  | [] => (None, st)
  | member :: members' =>
      match store_member env entries byDataName audit maxObjectBytes st member with
      | inl f => (Some f, st)
      | inr st' => store_members env entries byDataName audit maxObjectBytes st' members'
      end
  end.

Inductive batchPutAnswer :=
  | PutRefused (r : response)
  | PutFailed (started : bool) (f : putFailure)
  | PutDone (results : list batchPutResult).

(** [handleBatchPut]: the first member is its name and decoded manifest, or the
    error of [Next]; [started] is whether the answer had begun when it failed,
    in which case the failure travels in the body instead of the status.  The
    manifest key reported missing is any of the missing ones, as the map is
    ranged over; here the first. *)
Definition handleBatchPut (env : nat -> @putEnv F) (started : bool) (method : bytes)
    (first : (bytes * (list batchPutManifestEntry + bytes)) + (readErr * bytes)) (rest : tarStream)
    (audit : option smap) (maxObjectBytes : Z) (s : Storage) : batchPutAnswer * Storage :=
  if negb (bytes_eqb method (str "PUT")) then
    (PutRefused (writeError 405 (str "method_not_allowed") (str "method not allowed")), s)
  else
    match first with
    | inr (MaxBytesError, _) =>
        (PutRefused (writeError 413 (str "too_large")
           (str "batch exceeds max size of " ++ formatInt (maxBatchKeys * maxObjectBytes) ++ str " bytes")), s)
    | inr (ReadFailed, err) => (PutRefused (writeError 400 (str "invalid_request") (str "read tar: " ++ err)), s)
    | inl (name, manifest) =>
        if negb (bytes_eqb name (str "manifest.json")) then
          (PutRefused (writeError 400 (str "invalid_request") (str "first tar member must be manifest.json, got " ++ quote name)), s)
        else
          match manifest with
          | inr err => (PutRefused (writeError 400 (str "invalid_request") (str "invalid manifest.json: " ++ err)), s)
          | inl entries =>
              let n := Z.of_nat (length entries) in
              if n =? 0 then (PutRefused (writeError 400 (str "invalid_request") (str "manifest has no entries")), s)
              else if maxBatchKeys <? n then
                (PutRefused (writeError 413 (str "too_large")
                   (str "too many entries: " ++ formatInt n ++ str " (max " ++ formatInt maxBatchKeys ++ str ")")), s)
              else
                match index_manifest 0 entries ∅ with
                | inl err => (PutRefused (writeError 400 (str "invalid_request") err), s)
                | inr byDataName =>
                    let results := map (fun e => BatchPutResult (bp_Key e) None None) entries in
                    let '(failed, st) := store_members env entries byDataName audit maxObjectBytes (PutState s ∅ results 0)
                                           (ts_members rest) in
                    match failed, ts_end rest with
                    | Some f, _ => (PutFailed started f, ps_store st)
                    | None, Some MaxBytesError => (PutFailed started FailTooLarge, ps_store st)
                    | None, Some ReadFailed => (PutFailed started FailTar, ps_store st)
                    | None, None =>
                        match find (fun e => negb (bool_decide (str "data/" ++ bp_Key e ∈ ps_seen st))) entries with
                        | Some e => (PutFailed started (FailMissingMember (bp_Key e)), ps_store st)
                        | None => (PutDone (ps_results st), ps_store st)
                        end
                    end
                end
          end
    end.
End batch.

(** ** What a batch answers *)

Section batch_serving.
Context {F MC UC DC St : Type} `{!XattrOps F} `{!XattrLaws F} `{!MapRange} `{!Decoders} `{msort : !MtimeSort} `{!SetOps St compactKey}.
Context `{!CacheOps MC bytes metaEntry} `{!CacheOps UC bytes unit} `{!CacheOps DC bytes fileIdentity}.
Context `{!CacheLaws MC bytes metaEntry} `{!CacheLaws UC bytes unit} `{!CacheLaws DC bytes fileIdentity}.
Context (uploaded : bytes -> bytes -> smap -> Prop) (rotted : bytes -> fileIdentity -> Prop).
#[local] Abbreviation Storage := (Storage.Storage (F := F) (MC := MC) (UC := UC) (DC := DC)).
#[local] Abbreviation file := (Storage.file (F := F)).
#[local] Abbreviation openedEntry := (openedEntry (F := F)).
#[local] Abbreviation served_inv := (Handlers.served_inv (F := F) (MC := MC) (UC := UC) (DC := DC) uploaded rotted).

(** The entries an index lists, pending ones included. *)
Definition listed (idx : Index) : list indexEntry := entries idx ++ pendingEntries idx.

Lemma drain_listed idx e : e ∈ listed (drainEntriesLocked idx) <-> e ∈ listed idx.
Proof.
  unfold listed, drainEntriesLocked. destruct (pendingEntries idx) as [|p ps] eqn:Ep; [by rewrite Ep|].
  cbn [with_entries entries pendingEntries]. by rewrite app_nil_r, sortEntries_perm.
Qed.

Lemma remove_entry_sub ck es e : e ∈ remove_entry ck es -> e ∈ es.
Proof.
  induction es as [|x es IH]; [done|]. cbn [remove_entry]. case_bool_decide; intros Hin; [by apply list_elem_of_further|].
  apply elem_of_cons in Hin as [->|Hin]; [apply list_elem_of_here|apply list_elem_of_further; auto].
Qed.

Lemma Remove_listed ep key idx e : e ∈ listed (Index.Remove ep key idx) -> e ∈ listed idx.
Proof.
  intros Hin. apply drain_listed. unfold Index.Remove in Hin. destruct (actionHash (newCompactKey key)) as [hash ok].
  assert (Hin' : e ∈ remove_entry (newCompactKey key) (entries (drainEntriesLocked idx)) ++ pendingEntries (drainEntriesLocked idx))
    by (destruct ok; exact Hin).
  unfold listed. apply elem_of_app in Hin' as [Hin'|Hin']; apply elem_of_app; [left; by eapply remove_entry_sub|by right].
Qed.

(** Reading changes no body and no recorded digest and lists nothing new; it may
    remove an object. *)
Definition keeps (s s' : Storage) : Prop :=
  (forall h f', is_hash h -> files s' !! cpath h = Some f' ->
     exists f, files s !! cpath h = Some f /\ body f' = body f /\ identityOf f' = identityOf f /\ file_meta f' !! storedDigestMetaKey = file_meta f !! storedDigestMetaKey) /\
  (forall idx', sIndex s' = Some idx' -> exists idx, sIndex s = Some idx /\ forall e, e ∈ listed idx' -> e ∈ listed idx).

Lemma keeps_sub (s s' : Storage) : (forall p f, files s' !! p = Some f -> files s !! p = Some f) ->
  (sIndex s' = sIndex s \/ exists ep key, sIndex s' = Index.Remove ep key <$> sIndex s) -> keeps s s'.
Proof.
  intros Hsub Hi. split; [intros h f' _ Hf; exists f'; split_and!; [by apply Hsub|done|done|done]|].
  intros idx' Hidx. destruct Hi as [Hi|(ep & key & Hi)]; rewrite Hi in Hidx; [by exists idx'|].
  destruct (sIndex s) as [idx|]; [|done]. injection Hidx as <-. exists idx. split; [done|]. intros e. apply Remove_listed.
Qed.

Lemma keeps_trans s1 s2 s3 : keeps s1 s2 -> keeps s2 s3 -> keeps s1 s3.
Proof.
  intros [H12 I12] [H23 I23]. split.
  - intros h f3 Hh H3. destruct (H23 h f3 Hh H3) as (f2 & H2 & Hb & Hi & Hd). destruct (H12 h f2 Hh H2) as (f1 & H1 & Hb1 & Hi1 & Hd1).
    exists f1. split_and!; congruence.
  - intros i3 H3. destruct (I23 i3 H3) as (i2 & H2 & Hs2). destruct (I12 i2 H2) as (i1 & H1 & Hs1). exists i1. split; [done|]. auto.
Qed.

Lemma keeps_same (s s' : Storage) : files s' = files s -> sIndex s' = sIndex s -> keeps s s'.
Proof. intros Hf Hi. apply keeps_sub; [|by left]. intros p f. by rewrite Hf. Qed.

Lemma keeps_delete env e key (s : Storage) : keeps s (Storage.Delete env e key s).2.
Proof.
  unfold Storage.Delete. destruct (negb _); [by apply keeps_same|]. destruct (files s !! keyToPath key) as [f0|]; [|by apply keeps_same].
  unfold forgetMeta, forgetClean, forgetAccess. cbn [accessShards with_index with_files].
  apply keeps_sub; destruct (accessShards s), (extractActionHash key);
    cbn [files sIndex snd with_meta with_clean with_access with_index with_files];
    first [intros p f; rewrite lookup_delete_Some; by intros [_ ?]|right; by exists e, key].
Qed.

Lemma keeps_heal env h m given (s : Storage) : is_hash h -> given = None \/ given = files s !! cpath h -> served_inv s ->
  keeps s (ensureOutputID env (ckey h) m given s).2.
Proof.
  intros Hh Hg (_ & Hp & _). unfold ensureOutputID. destruct (negb _); [by apply keeps_same|]. rewrite ckey_hash by done.
  destruct (reconstructOutputID env (ckey h) given s) as [r s1] eqn:E.
  assert (Hk : keeps s s1).
  { apply reconstruct_result in E as [[-> _]|(f & st & cd & a & err & Hf & _ & _ & _ & _ & Hset & Hs1)]; [by apply keeps_same| |done].
    change (keyToPath (ckey h)) with (cpath h) in *. destruct (Hp h f Hh Hf) as [Hn _].
    destruct (healed_meta _ _ _ _ Hn Hset) as (_ & Hd & _ & _).
    assert (Hk : keeps s (with_files s (<[cpath h := set_attrs f a]> (files s)))).
    { split; [|intros i Hi; by exists i]. intros h' f' Hh' Hf'. cbn [files with_files] in Hf'.
      apply lookup_insert_Some in Hf' as [[E <-]|[_ Hf']]; [|by exists f']. apply cpath_inj in E as <-; [|done|done]. by exists f. }
    destruct err as [x|]; destruct Hs1 as [_ ->]; exact Hk. }
  destruct r; cbn [snd]; [done|]. eapply keeps_trans; [exact Hk|]. apply keeps_sub; [done|right; by eexists _, _].
Qed.

(** An entry found is for a stored object and carries an output id, and the
    digest and the metadata of an upload for its key. *)
Definition entry_for (s0 : Storage) (prefetch : bool) (key : bytes) (e : batchEntry) : Prop :=
  be_key e = key /\ be_prefetch e = prefetch /\
  forall h, is_hash h -> key = ckey h -> exists f v d m, files s0 !! cpath h = Some f /\
    Metadata (be_meta e) !! storedDigestMetaKey = file_meta f !! storedDigestMetaKey /\
    Metadata (be_meta e) !! outputIDMetaKey = Some v /\ v <> [] /\ uploaded h d m /\
    file_meta f !! storedDigestMetaKey = Some (hex_encode (sha256 d)) /\ sent_meta m (Metadata (be_meta e)).

Lemma absent_effect key (s : Storage) : served_inv s ->
  let '(reason, s') := absentKeyReason key s in served_inv s' /\ keeps s s' /\ reason <> [].
Proof.
  intros Hs. pose proof (served_absent _ _ key s Hs) as Ha. revert Ha. unfold absentKeyOutcome, absentKeyReason.
  destruct (match extractActionHash key with Some _ => _ | None => _ end); [intros Ha; split_and!; [done|by apply keeps_same|done]|].
  unfold wasEvicted. destruct (extractActionHash key), (evicted s);
    try (intros Ha; split_and!; [done|by apply keeps_same|done]). destruct (c_get _ _) as [r c].
  cbn [snd]. intros Ha. split_and!; [done|by apply keeps_same|]. by destruct (bool_decide _).
Qed.

Lemma stat_effect env h (s : Storage) r s' : is_hash h -> served_inv s -> Storage.Stat env (ckey h) s = (r, s') ->
  served_inv s' /\ files s' = files s /\ keeps s s' /\
  (forall meta, r = inl meta -> exists f, files s !! cpath h = Some f /\ Metadata meta = file_meta f).
Proof.
  assert (Hsame : served_inv s -> served_inv s /\ files s = files s /\ keeps s s) by (intros; split_and!; [done|done|by apply keeps_same]).
  intros Hh Hs. destruct (Hsame Hs) as (? & ? & ?). unfold Storage.Stat. destruct (negb _); [by intros [= <- <-]|].
  change (keyToPath (ckey h)) with (cpath h). destruct (files s !! cpath h) as [f|] eqn:Ef; [|by intros [= <- <-]].
  destruct (loadMetadata (ckey h) f s) as [md s1] eqn:El.
  pose proof (loadMetadata_memos _ _ _ _ _ El) as [Hd Hc]. pose proof (loadMetadata_frame _ _ _ _ _ El) as [_ Hi]. pose proof Hs as (Hm & _).
  destruct (loadMetadata_spec _ _ _ _ _ _ Hm cacheKey_free (ex_intro _ h (conj Hh eq_refl)) Ef El) as (-> & Hm1 & Hf1 & _).
  intros [= <- <-]. split_and!; [by apply (served_frame _ _ s)|done|by apply keeps_same|]. intros meta [= <-]. by exists f.
Qed.

Lemma guard_by_key_effect env h f (s : Storage) b s' : is_hash h -> files s !! cpath h = Some f -> served_inv s ->
  evictModuleIndexOnReadByKey env (ckey h) (file_meta f) s = (b, s') ->
  served_inv s' /\ keeps s s' /\ (b = false -> files s' = files s).
Proof.
  intros Hh Hlk Hs Hrun. unfold evictModuleIndexOnReadByKey in Hrun. rewrite ckey_hash in Hrun by done.
  assert (Hk : served_inv (keyKnownClean h s).2 /\ files (keyKnownClean h s).2 = files s /\ sIndex (keyKnownClean h s).2 = sIndex s).
  { pose proof Hs as (? & ? & ? & H4). unfold keyKnownClean. destruct (cleanKeys s) as [c|]; [|done].
    pose proof (memo_ok_get c _ h H4) as Hget. destruct (c_get c h) as [r c1]. split_and!; [by split_and!|done|done]. }
  set (env' := GetEnv (ge_read env) 0 (ge_peek env) true true true (ge_remove env) (ge_epoch env) (ge_heal env) 0).
  assert (Hg : served_inv (evictModuleIndexOnRead env' (ckey h) f (file_meta f) s).2).
  { destruct (evictModuleIndexOnRead env' (ckey h) f (file_meta f) s) as [v s2] eqn:E. by apply (served_guard uploaded rotted) in E as [? _]. }
  unfold evictModuleIndexOnRead in Hg. rewrite ckey_hash in Hg by done.
  destruct (keyKnownClean h s) as [clean s1]. cbn [snd] in Hk. destruct Hk as (Hs1 & Hf1 & Hi1).
  destruct clean; [injection Hrun as <- <-; split_and!; [done|by apply keeps_same|done]|]. cbn [negb ge_rewind ge_peek env'] in Hg.
  unfold openRaw in Hrun. destruct (negb _); [injection Hrun as <- <-; split_and!; [done|by apply keeps_same|done]|].
  change (keyToPath (ckey h)) with (cpath h) in Hrun. rewrite Hf1, Hlk in Hrun.
  destruct (readIsModuleIndex (ge_peek env) (body f) (compressionOf (file_meta f))) as [[]|]; injection Hrun as <- <-.
  - split_and!; [exact Hg| |done]. eapply keeps_trans; [by apply keeps_same|]. apply keeps_delete.
  - split_and!; [exact Hg|by apply keeps_same|done].
  - split_and!; [done|by apply keeps_same|done].
Qed.

Lemma healed_entry env h m (s : Storage) m' s' : is_hash h -> ensureOutputID env (ckey h) m None s = (true, m', s') ->
  m' !! storedDigestMetaKey = m !! storedDigestMetaKey /\ (exists v, m' !! outputIDMetaKey = Some v /\ v <> []) /\
  forall mu, sent_meta mu m -> sent_meta mu m'.
Proof.
  intros Hh. unfold ensureOutputID, missingOutputID. destruct (bytes_eqb _ _) eqn:Eb; cbn [negb].
  - rewrite ckey_hash by done. destruct (reconstructOutputID env (ckey h) None s) as [r s1] eqn:Er.
    apply reconstruct_result in Er as [[_ ->]|(g & st & cd & a & err & _ & _ & _ & _ & _ & _ & Hs1)]; [done| |by left].
    destruct err as [x|]; destruct Hs1 as [-> _]; [done|]. intros [[_ <-]%pair_equal_spec _]%pair_equal_spec.
    rewrite lookup_insert_ne, lookup_insert_eq by done. split_and!; [done|eexists; split; [done|apply hex_sha_nonempty]|].
    intros mu [Hk Ho]. split.
    + intros k v Hpk Hne Hv Hv0. specialize (Hk k v Hpk Hne Hv Hv0). rewrite lookup_insert_ne; [done|]. intros <-.
      apply bytes_eqb_eq in Eb. by rewrite Hk in Eb.
    + intros k v Hv Hno Hne. rewrite lookup_insert_ne in Hv by done. auto.
  - intros [= <- _]. apply not_true_iff_false in Eb. rewrite bytes_eqb_eq in Eb. split_and!; [done| |done].
    destruct (m !! outputIDMetaKey) as [v|] eqn:Ev; [|done]. by exists v.
Qed.

Lemma servable_effect env h pf (s : Storage) e reason s' : is_hash h -> served_inv s ->
  servableEntry env (ckey h) pf s = (e, reason, s') ->
  served_inv s' /\ keeps s s' /\ (reason = [] -> entry_for s pf (ckey h) e).
Proof.
  intros Hh Hs. unfold servableEntry. destruct (Storage.Stat _ _ s) as [r s1] eqn:Es.
  destruct (stat_effect _ _ _ _ _ Hh Hs Es) as (Hs1 & Hf1 & Hk1 & Hr). destruct r as [meta|x].
  2:{ pose proof (absent_effect (ckey h) s1 Hs1) as Ha. destruct (absentKeyReason (ckey h) s1) as [reason0 s2].
      destruct Ha as (Hs2 & Hk2 & Hne). destruct x; intros [= <- <- <-]; split_and!; try done; by eapply keeps_trans. }
  destruct (Hr meta eq_refl) as (f & Hf & ->). assert (Hlk : files s1 !! cpath h = Some f) by (by rewrite Hf1).
  destruct (evictModuleIndexOnReadByKey env (ckey h) (file_meta f) s1) as [b s2] eqn:Eg.
  destruct (guard_by_key_effect _ _ _ _ _ _ Hh Hlk Hs1 Eg) as (Hs2 & Hk2 & Hf2).
  pose proof (keeps_trans _ _ _ Hk1 Hk2) as Hk12. destruct b; [by intros [= <- <- <-]|]. specialize (Hf2 eq_refl).
  assert (Hlk2 : files s2 !! cpath h = Some f) by (by rewrite Hf2).
  pose proof (served_heal _ _ (ge_heal env) h f (file_meta f) None s2 Hh Hlk2 eq_refl (or_introl eq_refl) Hs2) as Hs3.
  pose proof (keeps_heal (ge_heal env) h (file_meta f) None s2 Hh (or_introl eq_refl) Hs2) as Hk3.
  pose proof (healed_entry (ge_heal env) h (file_meta f) s2) as He.
  destruct (ensureOutputID _ _ _ None s2) as [[ok m] s3]. cbn [snd] in Hs3, Hk3.
  pose proof (keeps_trans _ _ _ Hk12 Hk3) as Hk. destruct ok; [|by intros [= <- <- <-]]. intros [= <- <- <-].
  split_and!; [done|done|]. intros _. destruct (He _ _ Hh eq_refl) as (Hd & (v & Hv & Hne) & Hsent). split_and!; [done|done|].
  intros h' Hh' E. apply (f_equal extractActionHash) in E. rewrite !ckey_hash in E by done. injection E as <-.
  destruct (proj1 (proj2 Hs) h f Hh Hf) as (_ & d & mu & Hup & Hdig & Hmu). exists f, v, d, mu. cbn [be_meta Metadata]. split_and!; auto.
Qed.

(** An opened entry holds the body of the object as it was in [s0], which is
    that of an upload for its key. *)
Definition opened_ok (s0 : Storage) (e : batchEntry) (o : openedEntry) : Prop :=
  oe_entry o = e /\ exists h f d m v, is_hash h /\ be_key e = ckey h /\ files s0 !! cpath h = Some f /\
    uploaded h d m /\ (sha256 (body f) = sha256 d \/ rotted h (identityOf f)) /\ sent_meta m (Metadata (be_meta e)) /\ member_of o = (str "data/" ++ ckey h, body f) /\
    oe_size o = Z.of_nat (length (body f)) /\ Metadata (be_meta e) !! outputIDMetaKey = Some v /\ v <> [].

Lemma open_effect env h pf e (s0 s : Storage) o k s' : is_hash h -> entry_for s0 pf (ckey h) e -> keeps s0 s -> served_inv s ->
  openVerifiedEntry env e s = (o, k, s') -> served_inv s' /\ keeps s s' /\ (k = true -> opened_ok s0 e o).
Proof.
  intros Hh (Hkey & Hpf & He) Hk0 Hs. destruct (He h Hh eq_refl) as (f0 & v & d & mu & Hf0 & Hd0 & Hv & Hne & Hup & Hdig & Hmu). unfold openVerifiedEntry.
  rewrite Hkey. unfold Storage.OpenBody. change (keyToPath (ckey h)) with (cpath h).
  destruct (negb _); [intros [= <- <- <-]; split_and!; [done|by apply keeps_same|done]|].
  destruct (files s !! cpath h) as [g|] eqn:Eg; [|intros [= <- <- <-]; split_and!; [done|by apply keeps_same|done]].
  destruct (negb _); [intros [= <- <- <-]; split_and!; [done|by apply keeps_same|done]|].
  destruct (proj1 Hk0 h g Hh Eg) as (f & Hf & Hb & Hid & Hd). rewrite Hf0 in Hf. injection Hf as <-.
  set (s1 := recordAccess (ge_now env) (ckey h) s).
  assert (Hs1 : served_inv s1 /\ files s1 = files s /\ sIndex s1 = sIndex s)
    by (subst s1; unfold recordAccess; by destruct (accessShards s)).
  destruct Hs1 as (Hs1 & Hf1 & Hi1). assert (Hlk : files s1 !! cpath h = Some g) by (by rewrite Hf1).
  destruct (verifyStoredDigestFor _ _ _ _ _ s1) as [r s2] eqn:Ev.
  assert (Hi2 : sIndex s2 = sIndex s1).
  { revert Ev. unfold verifyStoredDigestFor. destruct (extractActionHash (ckey h)), (digestOK s1); try by intros [= _ <-].
    destruct (_ && _); [|by intros [= _ <-]]. destruct (c_get _ _). case_bool_decide; [by intros [= _ <-]|].
    destruct (verifyStoredDigest _ _ _) as [[]|]; by intros [= _ <-]. }
  assert (Hmd : Metadata (be_meta e) !! storedDigestMetaKey = file_meta g !! storedDigestMetaKey) by (by rewrite Hd).
  destruct (served_verify _ _ _ _ _ _ _ _ _ _ Hh Hlk Hmd Hs1 Ev) as (Hs2 & Hf2 & Hr).
  assert (Hk2 : keeps s s2) by (apply keeps_same; congruence).
  destruct r as [[]|]; intros [= <- <- <-]; split_and!; try done.
  - intros _. split; [done|]. assert (Hsha : sha256 (body g) = sha256 d \/ rotted h (identityOf f0)).
    { destruct (Hr eq_refl) as [?|[? _]]; [left; apply verified_digest; [done|congruence]|right; congruence]. }
    exists h, f0, d, mu, v. unfold member_of, file_size. cbn [oe_entry oe_file oe_size].
    rewrite Hkey, Nat2Z.id, take_ge, Hb in * by lia. split_and!; congruence.
  - by apply served_delete.
  - eapply keeps_trans; [exact Hk2|apply keeps_delete].
Qed.

Definition keys_cached (s : Storage) : Prop :=
  forall idx e, sIndex s = Some idx -> e ∈ listed idx -> cacheKey (Key (ie_key e)).

Lemma nearby_loop_listed es mid lo hi limit budget (excluded : St) skip k fuel : forall lft rgt examined keys,
  k ∈ nearby_loop fuel es mid lo hi limit budget excluded skip lft rgt examined keys -> k ∈ keys \/ exists e, e ∈ es /\ k = Key (ie_key e).
Proof.
  induction fuel as [|fuel IH]; intros lft rgt examined keys Hk; cbn [nearby_loop] in Hk; [by left|].
  destruct (_ && _); [|by left]. destruct (take_side _ _ _ _ _ _) as [[pos l'] r'].
  destruct (es !! Z.to_nat pos) as [e|] eqn:Ee; [|by left]. apply list_elem_of_lookup_2 in Ee.
  destruct (s_contains _ _); [by eapply IH|].
  assert (Hadd : k ∈ keys ++ [Key (ie_key e)] -> k ∈ keys \/ exists e, e ∈ es /\ k = Key (ie_key e)).
  { rewrite elem_of_app, list_elem_of_singleton. intros [?| ->]; [by left|right; by exists e]. }
  destruct skip as [fn|]; [|destruct (IH _ _ _ _ Hk) as [?|?]; auto].
  destruct (_ =? _); [by left|]. destruct (IH _ _ _ _ Hk) as [Hin|?]; [|by right]. destruct (fn _); auto.
Qed.


Lemma fresh_effect have requested lo hi (s : Storage) keys s' : keys_cached s -> served_inv s ->
  freshKeys (St := St) have requested lo hi s = Some (keys, s') -> Forall cacheKey keys /\ served_inv s' /\ keeps s s'.
Proof.
  intros Hc Hs. unfold freshKeys, NearbyKeys. destruct (sIndex s) as [idx|] eqn:Ei; [|done]. intros [= <- <-]. split_and!.
  - apply Forall_forall. intros k Hk. unfold nearbyKeysLocked in Hk. destruct (_ || _); [by apply not_elem_of_nil in Hk|].
    destruct (_ <=? _); [by apply not_elem_of_nil in Hk|]. apply nearby_loop_listed in Hk as [Hk|(e & He & ->)]; [by apply not_elem_of_nil in Hk|].
    eapply Hc; [exact Ei|]. apply drain_listed. apply elem_of_app. by left.
  - done.
  - split; [intros h f Hh Hf; by exists f|]. intros i [= <-]. exists idx. split; [done|]. intros e. apply drain_listed.
Qed.

Lemma entry_for_back (s0 s : Storage) pf key e : keeps s0 s -> entry_for s pf key e -> entry_for s0 pf key e.
Proof.
  intros [Hk _] (H1 & H2 & H3). split_and!; [done|done|]. intros h Hh E. destruct (H3 h Hh E) as (f & v & d & mu & Hf & Hd & Hv & Hne & Hup & Hdig & Hmu).
  destruct (Hk h f Hh Hf) as (f0 & Hf0 & _ & _ & Hd0). exists f0, v, d, mu. split_and!; first [done|congruence].
Qed.

Lemma with_envs_snd {A} env (l : list A) : (with_envs env l).*2 = l.
Proof.
  unfold with_envs. apply list_eq. intros i. rewrite list_lookup_fmap, list_lookup_imap. by destruct (l !! i).
Qed.

Definition good_entry (s0 : Storage) (pf : bool) (e : batchEntry) : Prop := cacheKey (be_key e) /\ entry_for s0 pf (be_key e) e.

Lemma look_phase (s0 s : Storage) pf procs env keys out s' : Forall cacheKey keys -> keeps s0 s -> served_inv s ->
  parallelFilter noEntry (look_up pf) procs (with_envs env keys) s out s' ->
  served_inv s' /\ keeps s0 s' /\ map be_key out `sublist_of` keys /\ Forall (good_entry s0 pf) out.
Proof.
  intros Hkeys Hk Hs Hp.
  destruct (parallelFilter_keeps noEntry (look_up pf) (fun s => served_inv s /\ keeps s0 s)
    (fun item e => be_key e = item.2 /\ good_entry s0 pf e) procs (with_envs env keys) s out s') as [[Hs' Hk'] (its & Hsub & Hq)]; [|done|done|].
  - intros [en key] st r k st' Hin [Hst Hkst] Hrun. assert (Hck : cacheKey key).
    { rewrite Forall_forall in Hkeys. apply Hkeys. rewrite <- (with_envs_snd env keys). apply list_elem_of_fmap. by exists (en, key). }
    destruct Hck as (h & Hh & ->). unfold look_up in Hrun. cbn [fst snd] in Hrun.
    destruct (servableEntry en (ckey h) pf st) as [[e reason] st1] eqn:E. injection Hrun as <- <- <-.
    destruct (servable_effect _ _ _ _ _ _ _ Hh Hst E) as (Hst1 & Hk1 & He).
    split; [split; [done|by eapply keeps_trans]|]. intros Hr%bytes_eqb_eq. specialize (He Hr). cbn [snd].
    pose proof (proj1 He) as Hkey. split; [done|]. unfold good_entry. rewrite Hkey. split; [by exists h|by eapply entry_for_back].
  - split_and!; [done|done| |].
    + rewrite <- (with_envs_snd env keys). replace (map be_key out) with (its.*2); [by apply (sublist_map snd)|].
      clear - Hq. induction Hq as [|it e its out [Hke _] _ IH]; [done|]. cbn. by rewrite IH, Hke.
    + clear - Hq. induction Hq as [|it e its out [_ Hg] _ IH]; by constructor.
Qed.

Lemma open_phase (s0 s : Storage) procs env entries out s' :
  Forall (fun e => good_entry s0 (be_prefetch e) e) entries -> keeps s0 s -> served_inv s ->
  openVerifiedEntries procs env entries s out s' ->
  served_inv s' /\ keeps s0 s' /\ exists es, es `sublist_of` entries /\ Forall2 (opened_ok s0) es out.
Proof.
  intros Hent Hk Hs Hp.
  destruct (parallelFilter_keeps noOpened open_up (fun s => served_inv s /\ keeps s0 s)
    (fun item o => opened_ok s0 item.2 o) procs (with_envs env entries) s out s') as [[Hs' Hk'] (its & Hsub & Hq)]; [|done|done|].
  - intros [en e] st r k st' Hin [Hst Hkst] Hrun. assert (Hg : good_entry s0 (be_prefetch e) e).
    { rewrite Forall_forall in Hent. apply Hent. rewrite <- (with_envs_snd env entries). apply list_elem_of_fmap. by exists (en, e). }
    destruct Hg as [(h & Hh & Hke) He]. rewrite Hke in He. unfold open_up in Hrun. cbn [fst snd] in Hrun.
    destruct (open_effect _ _ _ _ _ _ _ _ _ Hh He Hkst Hst Hrun) as (H1 & H2 & H3).
    split; [split; [done|by eapply keeps_trans]|done].
  - split_and!; [done|done|]. exists (its.*2). split.
    + rewrite <- (with_envs_snd env entries). by apply (sublist_map snd).
    + clear - Hq. induction Hq; by constructor.
Qed.

(** The answer to a batch, against the store it was asked of. *)
Definition batch_ok (s0 : Storage) (req : batchGetRequest) (sent : nat) (manifest : list batchGetManifestEntry)
    (members : list (bytes * bytes)) : Prop :=
  length members = Nat.min sent (length manifest) /\
  (exists found prefetched, manifest = found ++ prefetched /\ Forall (fun e => mf_Prefetch e = false) found /\
     Forall (fun e => mf_Prefetch e = true) prefetched /\ map mf_Key found `sublist_of` rq_Keys req) /\
  (forall i e, manifest !! i = Some e -> exists h f d m v,
     is_hash h /\ mf_Key e = ckey h /\ files s0 !! cpath h = Some f /\ uploaded h d m /\ (sha256 (body f) = sha256 d \/ rotted h (identityOf f)) /\
     sent_meta m (mf_Metadata e) /\ mf_Size e = Z.of_nat (length (body f)) /\ mf_Metadata e !! outputIDMetaKey = Some v /\ v <> [] /\
     ((i < sent)%nat -> members !! i = Some (str "data/" ++ ckey h, body f))).

Lemma opened_answer (s0 : Storage) req sent es1 es2 out :
  Forall2 (opened_ok s0) (es1 ++ es2) out -> map be_key es1 `sublist_of` rq_Keys req ->
  Forall (fun e => be_prefetch e = false) es1 -> Forall (fun e => be_prefetch e = true) es2 ->
  batch_ok s0 req sent (map manifest_of out) (take sent (map member_of out)).
Proof.
  intros Hq Hsub Hf1 Hf2. split_and!; [by rewrite length_take, !length_map| |].
  - assert (Hproj : forall P l o, Forall2 (opened_ok s0) l o -> Forall P l -> Forall (fun x => P (oe_entry x)) o).
    { intros P l o Hlo. induction Hlo as [|e x l o [<- _] _ IH]; intros HP; [by constructor|].
      apply Forall_cons in HP as [? ?]. constructor; auto. }
    apply Forall2_app_inv_l in Hq as (o1 & o2 & Ho1 & Ho2 & ->). exists (map manifest_of o1), (map manifest_of o2).
    split_and!; [by rewrite map_app|by apply Forall_fmap; apply (Hproj _ _ _ Ho1 Hf1)|by apply Forall_fmap; apply (Hproj _ _ _ Ho2 Hf2)|].
    replace (map mf_Key (map manifest_of o1)) with (map be_key es1); [done|].
    clear - Ho1. induction Ho1 as [|e x l o [<- _] _ IH]; [done|]. cbn. by rewrite IH.
  - intros i e He. apply (list_lookup_fmap_Some manifest_of) in He as (o & -> & Ho).
    destruct (Forall2_lookup_r _ _ _ _ _ Hq Ho) as (en & _ & Hen & h & f & d & mu & v & Hh & Hke & Hf & Hup & Hsha & Hmu & Hmem & Hsz & Hv & Hne).
    subst en. exists h, f, d, mu, v. split_and!; try done. intros Hi. rewrite lookup_take_lt by done.
    change (map member_of out) with (member_of <$> out). rewrite list_lookup_fmap, Ho. cbn [fmap option_fmap option_map]. by rewrite Hmem.
Qed.

Lemma batch_get_effect env method pe decoded (s : Storage) res s' :
  (forall req, decoded = inl req -> Forall cacheKey (rq_Keys req)) -> keys_cached s -> served_inv s ->
  handleBatchGet (St := St) env method pe decoded s res s' ->
  served_inv s' /\ keeps s s' /\
  match res with
  | BatchRefused _ _ => s' = s
  | BatchTar _ manifest members => exists req, decoded = inl req /\ batch_ok s req (bv_sent env) manifest members
  end.
Proof.
  intros Hkeys Hcached Hs. assert (Hrefl : keeps s s) by (by apply keeps_same). unfold handleBatchGet.
  destruct (negb _); [by intros [-> ->]|]. destruct decoded as [req|err]; [|by intros [-> ->]].
  destruct (_ =? _); [by intros [-> ->]|]. destruct (_ <? _); [by intros [-> ->]|]. specialize (Hkeys req eq_refl).
  intros (entries & s2 & opened & Hent & Hopen & ->).
  assert (Hphase : served_inv s2 /\ keeps s s2 /\ exists found pre, entries = found ++ pre /\ map be_key found `sublist_of` rq_Keys req /\
    Forall (good_entry s false) found /\ Forall (good_entry s true) pre).
  { destruct Hent as (found & s1 & Hlook & Hrest). set (lookup := if _ && _ then [] else rq_Keys req) in *.
    assert (Hl : Forall cacheKey lookup /\ lookup `sublist_of` rq_Keys req).
    { subst lookup. destruct (_ && _); [split; [constructor|apply sublist_nil_l]|by split]. }
    destruct (look_phase s s _ _ _ _ _ _ (proj1 Hl) Hrefl Hs Hlook) as (Hs1 & Hk1 & Hsub & Hg).
    assert (Hdone : entries = found /\ s2 = s1 -> served_inv s2 /\ keeps s s2 /\ exists found pre, entries = found ++ pre /\
      map be_key found `sublist_of` rq_Keys req /\ Forall (good_entry s false) found /\ Forall (good_entry s true) pre).
    { intros [-> ->]. split_and!; [done|done|]. exists found, []. rewrite app_nil_r. split_and!; [done|etrans; [exact Hsub|apply Hl]|done|constructor]. }
    destruct (if pe && rq_Prefetch req then min_mod found else None) as [lo|]; [|by apply Hdone].
    destruct (max_mod found) as [hi|]; [|by apply Hdone].
    destruct (freshKeys (rq_Have req) lookup lo hi s1) as [[keys s1']|] eqn:Ef; [|by apply Hdone].
    assert (Hc1 : keys_cached s1).
    { intros idx e Hi He. destruct (proj2 Hk1 idx Hi) as (i0 & Hi0 & Hsubl). eapply Hcached; [exact Hi0|by apply Hsubl]. }
    destruct (fresh_effect _ _ _ _ _ _ _ Hc1 Hs1 Ef) as (Hck & Hs1' & Hk1'). destruct Hrest as (pre & Hpre & ->).
    destruct (look_phase s s1' _ _ _ _ _ _ Hck ltac:(by eapply keeps_trans) Hs1' Hpre) as (Hs2 & Hk2 & _ & Hg2).
    split_and!; [done|done|]. destruct (pe && rq_PrefetchOnly req); [|exists found, pre; split_and!; [done|etrans; [exact Hsub|apply Hl]|done|done]].
    exists [], pre. split_and!; [done|apply sublist_nil_l|constructor|done]. }
  destruct Hphase as (Hs2 & Hk2 & found & pre & -> & Hsub & Hg1 & Hg2).
  assert (Hflag : forall b l, Forall (good_entry s b) l -> Forall (fun e => be_prefetch e = b) l /\ Forall (fun e => good_entry s (be_prefetch e) e) l).
  { intros b l Hl. split; eapply Forall_impl; [exact Hl| |exact Hl|]; intros e [Hc He]; pose proof He as (_ & Hb & _); [done|].
    split; [done|by rewrite Hb]. }
  destruct (Hflag _ _ Hg1) as [Hb1 Hge1], (Hflag _ _ Hg2) as [Hb2 Hge2].
  assert (Hge : Forall (fun e => good_entry s (be_prefetch e) e) (found ++ pre)) by (by apply Forall_app).
  destruct (open_phase s s2 _ _ _ _ _ Hge Hk2 Hs2 Hopen) as (Hs' & Hk' & es & Hes & Hq).
  split_and!; [done|done|]. exists req. split; [done|]. apply sublist_app_r in Hes as (es1 & es2 & -> & He1 & He2).
  apply (opened_answer s req _ es1 es2); [done| | |].
  - etrans; [by apply (sublist_map be_key)|done].
  - by eapply Forall_sublist.
  - by eapply Forall_sublist.
Qed.
End batch_serving.

(** ** What a batch stores *)

Section batch_put.
Context {F MC UC DC : Type} `{!XattrOps F} `{!XattrLaws F} `{!MapRange} `{!Decoders} `{msort : !MtimeSort}.
Context `{!CacheOps MC bytes metaEntry} `{!CacheOps UC bytes unit} `{!CacheOps DC bytes fileIdentity}.
Context (quote : bytes -> bytes) (errorText : storeErr -> bytes).
#[local] Abbreviation Storage := (Storage.Storage (F := F) (MC := MC) (UC := UC) (DC := DC)).
Context (env : nat -> @putEnv F) (audit : option smap) (maxObjectBytes : Z).

Definition data_name (e : batchPutManifestEntry) : bytes := str "data/" ++ bp_Key e.

Lemma index_manifest_spec entries : forall i m m', index_manifest quote i entries m = inr m' ->
  (forall name j, m' !! name = Some j <->
     m !! name = Some j \/ exists k e, entries !! k = Some e /\ j = (i + k)%nat /\ name = data_name e) /\
  NoDup (map data_name entries) /\ Forall (fun e => m !! data_name e = None) entries.
Proof.
  induction entries as [|e es IH]; intros i m m' Hrun; cbn [index_manifest] in Hrun.
  { injection Hrun as <-. split_and!; [|constructor|constructor]. intros name j. split; [by left|]. by intros [?|(k & e & Hk & _)]. }
  destruct (bytes_eqb _ _); [done|]. fold (data_name e) in Hrun. destruct (m !! data_name e) eqn:Em; [done|].
  destruct (IH _ _ _ Hrun) as (Hm & Hnd & Hfree).
  assert (Hne : Forall (fun e' => data_name e' <> data_name e) es).
  { eapply Forall_impl; [exact Hfree|]. intros e' He' E. cbv beta in He'. by rewrite E, lookup_insert_eq in He'. }
  split_and!.
  - intros name j. rewrite Hm. rewrite lookup_insert_Some. split.
    + intros [[[<- <-]|[_ ?]]|(k & e' & Hk & -> & ->)]; [right; exists 0%nat, e; by rewrite Nat.add_0_r|by left|].
      right. exists (S k), e'. split_and!; [done|lia|done].
    + intros [Hj|([|k] & e' & Hk & -> & ->)].
      * left. right. split; [|done]. intros E. subst name. congruence.
      * injection Hk as <-. left. left. split; [done|lia].
      * right. exists k, e'. split_and!; [done|lia|done].
  - cbn [map]. constructor; [|done]. intros (e' & E & He')%list_elem_of_fmap. rewrite Forall_forall in Hne. by apply (Hne e').
  - constructor; [done|]. rewrite Forall_forall in Hfree, Hne |- *. intros e' He'. specialize (Hfree e' He').
    rewrite lookup_insert_ne in Hfree; [done|]. intros E. by apply (Hne e').
Qed.

(** The members one after the other, each stored as a single object. *)
Fixpoint put_seq (l : list (nat * batchPutManifestEntry * reader)) (n : nat) (s : Storage) : list (nat * batchPutResult) * Storage :=
  match l with
  | [] => ([], s)
  | (i, e, rd) :: l' =>
      let '(status, err, s) := storeOneObject (env n) (bp_Key e) (limitReader maxObjectBytes rd) (bp_Metadata e) audit s in
      let '(rs, s) := put_seq l' (S n) s in
      ((i, BatchPutResult (bp_Key e) (Some status) (match status with storeStatusError => err | _ => None end)) :: rs, s)
  end.

Definition member_at (x : nat * batchPutManifestEntry * reader) : bytes * reader := (data_name x.1.2, x.2).

Lemma store_members_seq entries byDataName :
  (forall name j, byDataName !! name = Some j <-> exists e, entries !! j = Some e /\ name = data_name e) ->
  forall members st st', store_members env entries byDataName audit maxObjectBytes st members = (None, st') ->
  length (ps_results st) = length entries ->
  exists l outs, members = map member_at l /\ Forall (fun x => entries !! x.1.1 = Some x.1.2) l /\
    NoDup (map (fun x => data_name x.1.2) l) /\ (forall x, x ∈ l -> data_name x.1.2 ∉ ps_seen st) /\
    put_seq l (ps_round st) (ps_store st) = (outs, ps_store st') /\ outs.*1 = map (fun x => x.1.1) l /\
    length (ps_results st') = length entries /\
    (forall name, name ∈ ps_seen st' <-> name ∈ ps_seen st \/ exists x, x ∈ l /\ name = data_name x.1.2) /\
    (forall i r, (i, r) ∈ outs -> ps_results st' !! i = Some r) /\
    (forall i, i ∉ outs.*1 -> ps_results st' !! i = ps_results st !! i).
Proof.
  intros Hby members. induction members as [|[name rd] members IH]; intros st st' Hrun Hlen; cbn [store_members] in Hrun.
  { injection Hrun as <-. exists [], []. split_and!; [done|constructor|constructor| |done|done|done| | |done].
    - intros x Hx. by apply not_elem_of_nil in Hx.
    - intros name. split; [by left|]. intros [?|(x & Hx & _)]; [done|by apply not_elem_of_nil in Hx].
    - intros i r Hin. by apply not_elem_of_nil in Hin. }
  unfold store_member in Hrun. destruct (byDataName !! name) as [i|] eqn:Ei; cbn [mbind option_bind] in Hrun; [|done].
  apply Hby in Ei as (e & He & ->). rewrite He in Hrun. cbn [fmap option_fmap option_map] in Hrun.
  case_bool_decide as Hseen; [done|].
  destruct (storeOneObject (env (ps_round st)) (bp_Key e) (limitReader maxObjectBytes rd) (bp_Metadata e) audit (ps_store st))
    as [[status err] s1] eqn:Es.
  set (res := BatchPutResult (bp_Key e) (Some status) _) in Hrun.
  apply IH in Hrun; [|cbn [ps_results]; by rewrite length_insert]. cbn [ps_store ps_seen ps_results ps_round] in Hrun.
  destruct Hrun as (l & outs & -> & Hent & Hnd & Hnew & Hput & Hidx & Hl & Hs & Hr & Hkeep).
  exists ((i, e, rd) :: l), ((i, res) :: outs).
  assert (Hi : i ∉ outs.*1).
  { rewrite Hidx. intros (x & E & Hx)%list_elem_of_fmap. rewrite Forall_forall in Hent. specialize (Hent x Hx). rewrite <- E, He in Hent.
    injection Hent as Hent. apply (Hnew x Hx). rewrite <- Hent. set_solver. }
  split_and!.
  - done.
  - by constructor.
  - cbn [map]. constructor; [|done]. intros (x & E & Hx)%list_elem_of_fmap. apply (Hnew x Hx). cbn [fst snd] in E. rewrite <- E. set_solver.
  - intros x [->|Hx]%elem_of_cons; [done|]. specialize (Hnew x Hx). set_solver.
  - cbn [put_seq]. rewrite Es, Hput. done.
  - cbn. by rewrite Hidx.
  - done.
  - intros name. rewrite Hs. split.
    + intros [[->%elem_of_singleton|?]%elem_of_union|(x & Hx & ->)]; [right; eexists; split; [apply list_elem_of_here|done]|by left|].
      right. exists x. split; [by apply list_elem_of_further|done].
    + intros [?|(x & [->|Hx]%elem_of_cons & ->)]; [left; set_solver|left; cbn [fst snd]; set_solver|right; by exists x].
  - intros j r [[= -> ->]|Hin]%elem_of_cons; [|by apply Hr]. rewrite Hkeep by done. apply list_lookup_insert_eq.
    rewrite Hlen. by eapply lookup_lt_Some.
  - intros j Hj. cbn in Hj. apply not_elem_of_cons in Hj as [Hji Hj]. rewrite Hkeep by done. by rewrite list_lookup_insert_ne.
Qed.

Lemma whole_limit rd : rd_err rd = None -> rd_len rd <= maxObjectBytes -> limitReader maxObjectBytes rd = maxBytesReader maxObjectBytes rd.
Proof.
  intros He Hl. unfold limitReader, maxBytesReader. destruct (Z.leb_spec (rd_len rd) maxObjectBytes); [|lia].
  destruct (Z.ltb_spec maxObjectBytes (rd_len rd)); [lia|]. destruct rd as [data err []]; cbn [rd_err rd_eager rd_data] in *; subst.
  - by rewrite andb_false_r.
  - by destruct (_ && _).
Qed.

(** The same uploads as requests of their own. *)
Fixpoint single_puts (hdrs : batchPutManifestEntry -> list (bytes * bytes)) (l : list (nat * batchPutManifestEntry * reader)) (n : nat)
    (s : Storage) : Storage :=
  match l with
  | [] => s
  | (_, e, rd) :: l' =>
      single_puts hdrs l' (S n) (handlePutObject errorText (env n) (hdrs e) audit (bp_Key e) rd maxObjectBytes s).2
  end.

Lemma put_seq_single hdrs l : (forall x, x ∈ l -> upload_meta (hdrs x.1.2) = bp_Metadata x.1.2 /\ rd_err x.2 = None /\ rd_len x.2 <= maxObjectBytes) ->
  forall n s, (put_seq l n s).2 = single_puts hdrs l n s.
Proof.
  induction l as [|[[i e] rd] l IH]; intros Hl n s; [done|]. cbn [put_seq single_puts].
  destruct (Hl (i, e, rd) ltac:(apply list_elem_of_here)) as (Hm & He & Hle). cbn [fst snd] in *.
  rewrite put_request_state, Hm, <- whole_limit by done.
  destruct (storeOneObject (env n) (bp_Key e) _ (bp_Metadata e) audit s) as [[st err] s1]. cbn [snd].
  rewrite <- IH by (intros x Hx; apply Hl; by apply list_elem_of_further). by destruct (put_seq l (S n) s1).
Qed.

Lemma put_seq_keys l : forall n s outs s', put_seq l n s = (outs, s') ->
  forall i r, (i, r) ∈ outs -> exists x, x ∈ l /\ x.1.1 = i /\ br_Key r = bp_Key x.1.2.
Proof.
  induction l as [|[[i e] rd] l IH]; intros n s outs s' Hput j r Hin; cbn [put_seq] in Hput.
  { injection Hput as <- _. by apply not_elem_of_nil in Hin. }
  destruct (storeOneObject _ _ _ _ _ s) as [[st err] s1]. destruct (put_seq l (S n) s1) as [rs s2] eqn:E. injection Hput as <- _.
  apply elem_of_cons in Hin as [[= -> ->]|Hin]; [exists (i, e, rd); split_and!; [apply list_elem_of_here|done|done]|].
  destruct (IH _ _ _ _ E j r Hin) as (x & Hx & ? & ?). exists x. split_and!; [by apply list_elem_of_further|done|done].
Qed.

Lemma indices_perm entries (l : list (nat * batchPutManifestEntry * reader)) :
  Forall (fun x => entries !! x.1.1 = Some x.1.2) l -> NoDup (map (fun x => data_name x.1.2) l) ->
  (forall e, e ∈ entries -> exists x, x ∈ l /\ data_name e = data_name x.1.2) -> NoDup (map data_name entries) ->
  map (fun x => x.1.1) l ≡ₚ List.seq 0 (length entries).
Proof.
  intros Hent Hnd Hall Hnde. rewrite Forall_forall in Hent. apply NoDup_Permutation; [|apply NoDup_ListNoDup, seq_NoDup|].
  - assert (Hgen : forall k, (forall x, x ∈ k -> entries !! x.1.1 = Some x.1.2) -> NoDup (map (fun x => data_name x.1.2) k) ->
      NoDup (map (fun x : nat * batchPutManifestEntry * reader => x.1.1) k)).
    { induction k as [|x k IH]; intros Hk Hn; [constructor|]. cbn [map] in *. apply NoDup_cons in Hn as [Hx Hn].
      constructor; [|apply IH; [|done]; intros y Hy; by apply Hk, list_elem_of_further].
      intros (y & E & Hy)%list_elem_of_fmap. apply Hx. apply list_elem_of_fmap. exists y. split; [|done].
      pose proof (Hk x ltac:(apply list_elem_of_here)) as H1. pose proof (Hk y ltac:(by apply list_elem_of_further)) as H2.
      rewrite E, H2 in H1. by injection H1 as <-. }
    by apply Hgen.
  - intros i. rewrite list_elem_of_fmap, list_elem_of_In, in_seq. split.
    + intros (x & -> & Hx). specialize (Hent x Hx). apply lookup_lt_Some in Hent. lia.
    + intros [_ Hi]. destruct (lookup_lt_is_Some_2 entries i) as [e He]; [lia|].
      destruct (Hall e (list_elem_of_lookup_2 _ _ _ He)) as (x & Hx & E). exists x. split; [|done].
      eapply (NoDup_lookup (data_name <$> entries)); [exact Hnde|rewrite list_lookup_fmap, He; reflexivity|].
      rewrite list_lookup_fmap, (Hent x Hx). cbn [fmap option_fmap option_map]. by rewrite E.
Qed.

(** C8. A batch upload that is answered with results is its members stored one
    by one, in stream order, each manifest entry exactly once and through the
    store path of a single upload; the results are those of the store
    operations, in manifest order.  Members within the size limit leave the
    store as single requests for them would. *)
Theorem batch_put_exact started entries rest (s : Storage) results s' :
  handleBatchPut quote env started (str "PUT") (inl (str "manifest.json", inl entries)) rest audit maxObjectBytes s = (PutDone results, s') ->
  map br_Key results = map bp_Key entries /\ Forall (fun r => br_Status r <> None) results /\
  exists l outs, ts_members rest = map member_at l /\ Forall (fun x => entries !! x.1.1 = Some x.1.2) l /\
    map (fun x => x.1.1) l ≡ₚ List.seq 0 (length entries) /\ put_seq l 0 s = (outs, s') /\
    (forall i r, (i, r) ∈ outs -> results !! i = Some r) /\
    (forall hdrs, (forall e, e ∈ entries -> upload_meta (hdrs e) = bp_Metadata e) ->
       Forall (fun m => rd_err m.2 = None /\ rd_len m.2 <= maxObjectBytes) (ts_members rest) -> s' = single_puts hdrs l 0 s).
Proof.
  unfold handleBatchPut. rewrite !bytes_eqb_refl. cbn [negb]. destruct (_ =? _); [done|]. destruct (_ <? _); [done|].
  destruct (index_manifest quote 0 entries ∅) as [err|byDataName] eqn:Ei; [done|].
  destruct (index_manifest_spec _ _ _ _ Ei) as (Hby & Hnde & _).
  destruct (store_members _ _ _ _ _ _ _) as [failed st] eqn:Es. destruct failed; [done|]. destruct (ts_end rest) as [[]|]; [done|done|].
  destruct (find _ entries) eqn:Ef; [done|]. intros [= <- <-].
  destruct (store_members_seq entries byDataName) with (members := ts_members rest) (2 := Es)
    as (l & outs & Hmem & Hent & Hnd & _ & Hput & Hidx & Hlen & Hseen & Hres & _).
  { intros name j. rewrite Hby, lookup_empty. split.
    - intros [?|(k & e & Hk & -> & ->)]; [done|]. exists e. by rewrite Nat.add_0_l.
    - intros (e & He & ->). right. by exists j, e. }
  { cbn [ps_results]. by rewrite length_map. }
  cbn [ps_round ps_store ps_seen] in *.
  assert (Hperm : map (fun x => x.1.1) l ≡ₚ List.seq 0 (length entries)).
  { apply indices_perm; try done. intros e He. assert (Hs : data_name e ∈ ps_seen st).
    { pose proof (find_none _ _ Ef e (proj1 (list_elem_of_In _ _) He)) as Hn. apply negb_false_iff in Hn. by apply bool_decide_eq_true in Hn. }
    apply Hseen in Hs as [Hs|?]; [set_solver|done]. }
  assert (Hevery : forall i r, ps_results st !! i = Some r -> (i, r) ∈ outs).
  { intros i r Hr. pose proof (lookup_lt_Some _ _ _ Hr) as Hi. rewrite Hlen in Hi.
    assert (Hin : i ∈ outs.*1) by (rewrite Hidx, Hperm; apply list_elem_of_In, in_seq; lia).
    apply list_elem_of_fmap in Hin as ([i' r'] & -> & Hin). cbn [fst] in *. rewrite (Hres i' r' Hin) in Hr. by injection Hr as <-. }
  split_and!.
  - apply list_eq. intros i. change (map br_Key (ps_results st)) with (br_Key <$> ps_results st).
    change (map bp_Key entries) with (bp_Key <$> entries). rewrite !list_lookup_fmap. destruct (ps_results st !! i) as [r|] eqn:Er.
    + destruct (put_seq_keys _ _ _ _ _ Hput i r (Hevery i r Er)) as (x & Hx & <- & Hk). rewrite Forall_forall in Hent.
      rewrite (Hent x Hx). cbn [fmap option_fmap option_map]. by rewrite Hk.
    + apply lookup_ge_None in Er. rewrite lookup_ge_None_2; [done|lia].
  - apply Forall_forall. intros r [i Hr]%list_elem_of_lookup. apply Hevery in Hr. clear - Hput Hr. revert Hput Hr.
    generalize 0%nat as n, s as s0, outs, (ps_store st) as send. induction l as [|[[j e] rd] l IH]; intros n s0 outs' send Hput Hr; cbn [put_seq] in Hput.
    { injection Hput as <- _. by apply not_elem_of_nil in Hr. }
    destruct (storeOneObject _ _ _ _ _ s0) as [[stt err] s1]. destruct (put_seq l (S n) s1) as [rs s2] eqn:E. injection Hput as <- _.
    apply elem_of_cons in Hr as [[= -> ->]|Hr]; [done|by eapply IH].
  - exists l, outs. split_and!; try done. intros hdrs Hh Hwhole. rewrite <- put_seq_single; [by rewrite Hput|].
    intros x Hx. rewrite Forall_forall in Hent. rewrite Forall_forall in Hwhole. split; [apply Hh; by eapply list_elem_of_lookup_2, Hent|].
    apply (Hwhole (member_at x)). rewrite Hmem. apply list_elem_of_fmap. by exists x.
Qed.

(** A member over the size limit is cut, not refused: it is stored exactly
    as its first bytes would be, where a single upload of it leaves the store
    alone. *)
Theorem batch_put_cuts n hdrs e rd (s : Storage) :
  rd_err rd = None -> 0 <= maxObjectBytes < rd_len rd -> upload_meta hdrs = bp_Metadata e ->
  files s !! tempPath (env n) (bp_Key e) = None ->
  let cut := Reader (take (Z.to_nat maxObjectBytes) (rd_data rd)) None false in
  put_seq [(0%nat, e, rd)] n s = put_seq [(0%nat, e, cut)] n s /\
  (put_seq [(0%nat, e, rd)] n s).2 = (handlePutObject errorText (env n) hdrs audit (bp_Key e) cut maxObjectBytes s).2 /\
  (handlePutObject errorText (env n) hdrs audit (bp_Key e) rd maxObjectBytes s).2 = s.
Proof.
  intros He Hmax Hm Ht cut.
  assert (Hlen : rd_len cut = maxObjectBytes).
  { unfold rd_len, cut in *. cbn [rd_data]. rewrite length_take. lia. }
  assert (Hcut : limitReader maxObjectBytes rd = cut).
  { unfold limitReader. destruct (Z.ltb_spec maxObjectBytes (rd_len rd)); [done|lia]. }
  assert (Hcut2 : limitReader maxObjectBytes cut = cut).
  { unfold limitReader. rewrite Hlen, Z.ltb_irrefl, Z.eqb_refl. done. }
  assert (Heq : put_seq [(0%nat, e, rd)] n s = put_seq [(0%nat, e, cut)] n s) by (cbn [put_seq]; by rewrite Hcut, Hcut2).
  split_and!; [done| |].
  - rewrite Heq. rewrite (put_seq_single (fun _ => hdrs)); [done|]. intros x ->%list_elem_of_singleton. cbn [fst snd]. split_and!; [done|done|lia].
  - rewrite put_request_state, storeOneObject_state by done. unfold storable, maxBytesReader. by destruct (Z.leb_spec (rd_len rd) maxObjectBytes); [lia|].
Qed.
End batch_put.

(** ** Histories with batches *)

Section history.
Context {F MC UC DC St : Type} `{!XattrOps F} `{!XattrLaws F} `{!MapRange} `{!Decoders} `{msort : !MtimeSort} `{!SetOps St compactKey}.
Context `{!CacheOps MC bytes metaEntry} `{!CacheOps UC bytes unit} `{!CacheOps DC bytes fileIdentity}.
Context `{!CacheLaws MC bytes metaEntry} `{!CacheLaws UC bytes unit} `{!CacheLaws DC bytes fileIdentity}.
Context (quote : bytes -> bytes) (errorText : storeErr -> bytes) (uploaded : bytes -> bytes -> smap -> Prop) (rotted : bytes -> fileIdentity -> Prop).
#[local] Abbreviation Storage := (Storage.Storage (F := F) (MC := MC) (UC := UC) (DC := DC)).
#[local] Abbreviation served_inv := (Handlers.served_inv (F := F) (MC := MC) (UC := UC) (DC := DC) uploaded rotted).

(** The events of [Handlers], and batch requests for build-cache keys. *)
Inductive bevent : Storage -> Storage -> Prop :=
  | BSingle s s' : event (St := St) errorText uploaded rotted s s' -> bevent s s'
  | BGet env method prefetchEnabled decoded s res s' :
      (forall req, decoded = inl req -> Forall cacheKey (rq_Keys req)) -> keys_cached s ->
      handleBatchGet (St := St) env method prefetchEnabled decoded s res s' -> bevent s s'
  | BPut env started method first rest audit maxObjectBytes s :
      (forall n key, files s !! tempPath (env n) key = None) ->
      (forall name entries, first = inl (name, inl entries) ->
         Forall (fun e => cacheKey (bp_Key e) /\ bp_Metadata e !! [] = None) entries) ->
      (forall h rd name entries e, (str "data/" ++ ckey h, rd) ∈ ts_members rest -> first = inl (name, inl entries) ->
         e ∈ entries -> bp_Key e = ckey h -> rd_err (limitReader maxObjectBytes rd) = None ->
         uploaded h (rd_data (limitReader maxObjectBytes rd)) (bp_Metadata e)) ->
      bevent s (handleBatchPut quote env started method first rest audit maxObjectBytes s).2.

(** One object stored: the invariant holds, and only the key's file changed. *)
Lemma store_one_served env h rd m au (s : Storage) : is_hash h -> files s !! tempPath env (ckey h) = None -> m !! [] = None ->
  (rd_err rd = None -> uploaded h (rd_data rd) m) -> served_inv s ->
  served_inv (storeOneObject env (ckey h) rd m au s).2 /\
  forall p, p <> cpath h -> files (storeOneObject env (ckey h) rd m au s).2 !! p = files s !! p.
Proof.
  intros Hh Ht Hm Hup Hs. rewrite storeOneObject_state by done. unfold storable. destruct (rd_err rd); [done|].
  destruct (is_module_index rd m); [done|]. split; [by apply served_put; auto|]. intros p Hp.
  destruct (PutStream env (ckey h) (rd_data rd) m au s) as [e s1] eqn:E.
  apply PutStream_result in E as [[-> _]|(_ & _ & _ & a & _ & ->)]; [done| |done]. cbn [snd].
  rewrite (proj1 (put_state_files _ _ _ _ _)). by rewrite lookup_insert_ne.
Qed.

Lemma store_members_served env entries byDataName audit maxObjectBytes members : forall st,
  (forall name j, byDataName !! name = Some j -> exists e, entries !! j = Some e /\ name = data_name e) ->
  Forall (fun e => cacheKey (bp_Key e) /\ bp_Metadata e !! [] = None) entries ->
  (forall n key, files (ps_store st) !! tempPath (env n) key = None) ->
  (forall h rd e, (str "data/" ++ ckey h, rd) ∈ members -> e ∈ entries -> bp_Key e = ckey h ->
     rd_err (limitReader maxObjectBytes rd) = None -> uploaded h (rd_data (limitReader maxObjectBytes rd)) (bp_Metadata e)) ->
  served_inv (ps_store st) ->
  served_inv (ps_store (store_members env entries byDataName audit maxObjectBytes st members).2).
Proof.
  induction members as [|[name rd] members IH]; intros st Hby Hent Ht Hup Hs; [done|]. cbn [store_members].
  destruct (store_member _ _ _ _ _ st (name, rd)) as [f|st'] eqn:E; [done|]. unfold store_member in E.
  destruct (byDataName !! name) as [i|] eqn:Ei; cbn [mbind option_bind] in E; [|done].
  destruct (Hby _ _ Ei) as (e & He & ->). rewrite He in E. cbn [fmap option_fmap option_map] in E. case_bool_decide; [done|].
  pose proof Hent as Hent0. rewrite Forall_forall in Hent0. destruct (Hent0 e (list_elem_of_lookup_2 _ _ _ He)) as [(h & Hh & Hk) Hm].
  rewrite Hk in E.
  destruct (store_one_served (env (ps_round st)) h (limitReader maxObjectBytes rd) (bp_Metadata e) audit (ps_store st)) as [Hs1 Hf1]; try done.
  { apply Hup; [|by eapply list_elem_of_lookup_2|done]. unfold data_name. rewrite Hk. apply list_elem_of_here. }
  destruct (storeOneObject _ _ _ _ _ (ps_store st)) as [[status err] s1]. injection E as <-. cbn [snd] in *.
  apply IH; try done; cbn [ps_store].
  - intros n key. rewrite Hf1; [done|]. apply temp_not_path.
  - intros h' rd' e' Hin. apply Hup. by apply list_elem_of_further.
Qed.

Lemma bevent_served s s' : bevent s s' -> served_inv s -> served_inv s'.
Proof.
  intros Hev Hs. destruct Hev as [s s' Hev|env method pe decoded s res s' Hkeys Hc Hrun|env started method first rest audit mx s Ht Hent Hup].
  - by eapply served_step.
  - by eapply batch_get_effect.
  - unfold handleBatchPut. destruct (negb _); [done|]. destruct first as [[name manifest]|[[] err]]; [|done|done].
    destruct (negb _); [done|]. destruct manifest as [entries|err]; [|done]. destruct (_ =? _); [done|]. destruct (_ <? _); [done|].
    destruct (index_manifest quote 0 entries ∅) as [err|byDataName] eqn:Ei; [done|].
    pose proof (store_members_served env entries byDataName audit mx (ts_members rest)
      (PutState s ∅ (map (fun e => BatchPutResult (bp_Key e) None None) entries) 0)) as Hst.
    destruct (store_members _ _ _ _ _ _ _) as [failed st]. cbn [snd ps_store] in Hst.
    assert (Hdone : served_inv (ps_store st)).
    { apply Hst; try done; [|by eapply Hent|by eauto]. intros n j Hj. apply (index_manifest_spec quote _ _ _ _ Ei) in Hj.
      rewrite lookup_empty in Hj. destruct Hj as [?|(k & e & Hk & -> & ->)]; [done|]. exists e. by rewrite Nat.add_0_l. }
    destruct failed; [done|]. destruct (ts_end rest) as [[]|]; [done|done|]. by destruct (find _ entries).
Qed.

Lemma bevent_reachable s0 s : files s0 = ∅ -> cold_memos s0 -> rtc bevent s0 s -> served_inv s.
Proof.
  intros Hempty Hcold Hr. assert (Hs0 : served_inv s0).
  { apply served_cold; [|done]. intros h f _ Hf. by rewrite Hempty, lookup_empty in Hf. }
  clear Hempty Hcold. induction Hr as [|s0 s1 s2 Hev _ IH]; [done|]. apply IH. by eapply bevent_served.
Qed.

Lemma batch_reads_ok s0 s env method prefetchEnabled req off manifest members s' :
  files s0 = ∅ -> cold_memos s0 -> rtc bevent s0 s -> Forall cacheKey (rq_Keys req) -> keys_cached s ->
  handleBatchGet (St := St) env method prefetchEnabled (inl req) s (BatchTar off manifest members) s' ->
  batch_ok uploaded rotted s req (bv_sent env) manifest members.
Proof.
  intros Hempty Hcold Hr Hkeys Hc Hrun. pose proof (bevent_reachable _ _ Hempty Hcold Hr) as Hs.
  assert (Hk : forall r, inl req = inl r :> (batchGetRequest + bytes) -> Forall cacheKey (rq_Keys r)) by (by intros r [= <-]).
  destruct (batch_get_effect uploaded rotted _ _ _ _ _ _ _ Hk Hc Hs Hrun) as (_ & _ & req' & E & Hok). by injection E as <-.
Qed.

(** C5. A batch answer carries uploads.  Over any history of requests, batches,
    sweeps, restarts and bodies going bad on disk that starts with an empty
    store, all of them on build-cache keys, as long as attribute reads succeed
    ([XattrLaws]), whatever the schedule of the workers and whatever else the
    operating system answers: the manifest of a batch answer lists the requested
    keys that are found in request order and after them the prefetched ones; each
    entry is an object that was stored when the batch began, with the size of its
    body, an output id and the metadata of an upload for the very key; the members
    sent are those bodies, in manifest order.  A body has the SHA-256 of that
    upload unless it went bad after this version of the file had been hashed, while
    the verdict was remembered: that one is for the client to hold against the
    output id. *)
Theorem batch_get_serves_uploads s0 s env method prefetchEnabled req off manifest members s' :
  files s0 = ∅ -> cold_memos s0 -> rtc bevent s0 s -> Forall cacheKey (rq_Keys req) -> keys_cached s ->
  handleBatchGet (St := St) env method prefetchEnabled (inl req) s (BatchTar off manifest members) s' ->
  batch_ok uploaded rotted s req (bv_sent env) manifest members.
Proof.
  intros Hempty Hcold Hr Hkeys Hc Hrun. by eapply batch_reads_ok.
Qed.
End history.

(** ** A concrete batch *)

Definition noQuote : bytes -> bytes := fun b => b.
Definition batchDemo : batchEnv := BatchEnv 2 (fun _ => getOk) (fun _ => getOk) (fun _ => getOk) 1.
Definition demoRequest : batchGetRequest := BatchGetRequest [ckey zero_hash] false false None.

Definition demoLook : (batchEntry * bool) * DemoStorage := look_up false (getOk, ckey zero_hash) putStore.
Definition demoOpen : (openedEntry * bool) * DemoStorage := open_up (getOk, demoLook.1.1) demoLook.2.

(** A batch for one key that is found and whose body verifies. *)
Lemma one_key_batch (en : getEnv) (key : bytes) (s s1 s2 : DemoStorage) (e : batchEntry) (o : @openedEntry room_file) :
  look_up false (en, key) s = ((e, true), s1) -> open_up (en, e) s1 = ((o, true), s2) ->
  handleBatchGet (St := gset compactKey) (BatchEnv 2 (fun _ => en) (fun _ => en) (fun _ => en) 1) (str "POST") false
    (inl (BatchGetRequest [key] false false None)) s (BatchTar true [manifest_of o] [member_of o]) s2.
Proof.
  intros Hlook Hopen. pose proof (parallelFilter_one noEntry (look_up false) 2 (en, key) s) as Hl. rewrite Hlook in Hl.
  pose proof (parallelFilter_one noOpened open_up 2 (en, e) s1) as Ho. rewrite Hopen in Ho.
  exists [e], s1, [o]. split; [|by split]. by exists [e], s1.
Qed.

Lemma demo_batch : handleBatchGet (St := gset compactKey) batchDemo (str "POST") false (inl demoRequest) putStore
  (BatchTar true [manifest_of demoOpen.1.1] [member_of demoOpen.1.1]) demoOpen.2.
Proof.
  assert (Hlook : demoLook.1.2 = true) by (vm_compute; reflexivity).
  assert (Hopen : demoOpen.1.2 = true) by (vm_compute; reflexivity).
  apply (one_key_batch getOk (ckey zero_hash) putStore demoLook.2 demoOpen.2 demoLook.1.1 demoOpen.1.1).
  - fold demoLook. destruct demoLook as [[e k] s1]. cbn [fst snd] in *. by rewrite Hlook.
  - fold demoOpen. destruct demoOpen as [[o k] s2]. cbn [fst snd] in *. by rewrite Hopen.
Qed.

Lemma demo_bhistory : rtc (bevent (St := gset compactKey) noQuote noText demoUploaded noRot) (demoStore noWriteOnce) putStore.
Proof.
  pose proof demo_history as Hh. induction Hh as [|s1 s2 s3 Hev _ IH]; [constructor|]. eapply rtc_l; [|exact IH]. by apply BSingle.
Qed.

Lemma one_key_cached (s : DemoStorage) : (map ie_key ∘ listed) <$> sIndex s = Some [CompactKey zero_hash []] -> keys_cached s.
Proof.
  intros Hall idx e Hi He. rewrite Hi in Hall. cbn [fmap option_fmap option_map compose] in Hall. injection Hall as Hall. clear Hi.
  assert (Hin : ie_key e ∈ map ie_key (listed idx)) by (apply list_elem_of_fmap; exists e; exact (conj eq_refl He)).
  unfold compose in Hall. rewrite Hall in Hin. apply list_elem_of_singleton in Hin as ->. exists zero_hash. split; [apply zero_hash_ok|reflexivity].
Qed.

Lemma demo_keys_cached : keys_cached putStore.
Proof. apply one_key_cached. vm_compute. reflexivity. Qed.

Lemma batch_get_serves_uploads_witness :
  batch_ok demoUploaded noRot putStore demoRequest 1 [manifest_of demoOpen.1.1] [member_of demoOpen.1.1] /\
  member_of demoOpen.1.1 = (str "data/" ++ ckey zero_hash, demoBody).
Proof.
  split; [|vm_compute; reflexivity].
  apply (batch_get_serves_uploads (St := gset compactKey) noQuote noText demoUploaded noRot (demoStore noWriteOnce) putStore batchDemo
    (str "POST") false demoRequest true _ _ demoOpen.2).
  - reflexivity.
  - apply demo_cold_memos.
  - apply demo_bhistory.
  - apply Forall_singleton. exists zero_hash. split; [apply zero_hash_ok|reflexivity].
  - apply demo_keys_cached.
  - apply demo_batch.
Defined.

Definition demoEntry : batchPutManifestEntry := BatchPutManifestEntry (ckey zero_hash) (upload_meta demoHeaders).
Definition demoBatchPut (maxObjectBytes : Z) : batchPutAnswer * DemoStorage :=
  handleBatchPut noQuote (fun _ => okEnv 1000 5) false (str "PUT") (inl (str "manifest.json", inl [demoEntry]))
    (TarStream [(data_name demoEntry, demoUpload)] None) None maxObjectBytes (demoStore noWriteOnce).

(** The batch leaves the store as the single upload does. *)
Lemma batch_put_exact_witness :
  (demoBatchPut 1048576).1 = PutDone [BatchPutResult (ckey zero_hash) (Some storeStatusStored) None] /\
  exists l, map fst (map fst l) ≡ₚ [0%nat] /\
    (demoBatchPut 1048576).2 = single_puts noText (fun _ => okEnv 1000 5) None 1048576 (fun _ => demoHeaders) l 0 (demoStore noWriteOnce).
Proof.
  assert (Hres : (demoBatchPut 1048576).1 = PutDone [BatchPutResult (ckey zero_hash) (Some storeStatusStored) None]) by (vm_compute; reflexivity).
  split; [exact Hres|].
  destruct (batch_put_exact noQuote noText (fun _ => okEnv 1000 5) None 1048576 false [demoEntry] (TarStream [(data_name demoEntry, demoUpload)] None)
    (demoStore noWriteOnce) [BatchPutResult (ckey zero_hash) (Some storeStatusStored) None] (demoBatchPut 1048576).2)
    as (_ & _ & l & outs & _ & _ & Hperm & _ & _ & Hsingle).
  - rewrite <- Hres. fold (demoBatchPut 1048576). by destruct (demoBatchPut 1048576).
  - exists l. split; [rewrite map_map; exact Hperm|]. apply Hsingle.
    + by intros e ->%list_elem_of_singleton.
    + apply Forall_singleton. split; [reflexivity|]. vm_compute. discriminate.
Defined.

(** Over a limit of five bytes the batch stores five bytes; the single upload
    is refused. *)
Lemma batch_put_cuts_witness :
  (handlePutObject noText (okEnv 1000 5) demoHeaders None (ckey zero_hash) demoUpload 5 (demoStore noWriteOnce)).2 = demoStore noWriteOnce /\
  (demoBatchPut 5).1 = PutDone [BatchPutResult (ckey zero_hash) (Some storeStatusStored) None] /\
  body <$> files (demoBatchPut 5).2 !! cpath zero_hash = Some (take 5 demoBody).
Proof.
  destruct (batch_put_cuts noText (fun _ => okEnv 1000 5) None 5 0 demoHeaders demoEntry demoUpload (demoStore noWriteOnce)) as (_ & _ & Hs).
  - reflexivity.
  - vm_compute. split; [discriminate|reflexivity].
  - reflexivity.
  - vm_compute. reflexivity.
  - split; [exact Hs|]. split; vm_compute; reflexivity.
Defined.
