(* ===== verification/Server.v ===== *)
(** * The front of the server

    [server.go], [auth.go] and the index handler of [handlers.go]: probes,
    HTTP Basic authentication, and the dispatch of a request to its
    handler.  The handlers are those of [Handlers], [Batch] and [Index]; here a
    request ends in the answer given before any handler, or in the handler it
    reaches and the user it runs as.  Whether it is admitted is [SlotQueue]'s.  Logging and metrics are left out. *)

From Stdlib Require Import ZArith Lia List Bool String.
From stdpp Require Import base gmap list.
From S2P Require Import Prelude Strconv Base64 SortedSlice Keys IndexV2 Gbci Index Storage Handlers ClientIndex.

(** ** Authentication *)

Record Credential := MkCredential { Username : bytes; Password : bytes }.

Record Config := MkConfig { Bucket : bytes; DisableAuth : bool; Credentials : list Credential; Prefetch : option bool }.

Definition PrefetchEnabled (c : Config) : bool := match Prefetch c with None => true | Some b => b end.

Definition anonymousUser : bytes := str "<ANON>".

(** [strings.SplitN(s, sep, 2)] for a one-byte separator that occurs. *)
Fixpoint cut (sep : Z) (s : bytes) : option (bytes * bytes) :=
  match s with
  | [] => None
  | c :: s' => if c =? sep then Some ([], s') else '(a, b) ← cut sep s'; Some (c :: a, b)
  end.

Definition find_credential (creds : list Credential) (user pass : bytes) : option bytes :=
  Username <$> find (fun c => negb (bytes_eqb (Username c) [] || bytes_eqb (Password c) []) &&
                              (bytes_eqb (Username c) user && bytes_eqb (Password c) pass)) creds.

(** The user of a request by its Authorization header (empty when absent), or
    [None] for any of the errors. *)
Definition authenticate (auth : bytes) (cfg : Config) : option bytes :=
  if DisableAuth cfg then Some anonymousUser
  else if bytes_eqb auth [] then None
  else if negb (has_prefix auth (str "Basic ")) then None
  else
    decoded ← b64_decode (drop 6 auth);
    '(user, pass) ← cut 58 decoded;
    if bytes_eqb user [] || bytes_eqb pass [] then None
    else find_credential (Credentials cfg) user pass.

(** ** Dispatch *)

Inductive handler :=
  | HGetIndex | HBatchGet | HSkipReport | HGetObject (key : bytes) | HHeadObject (key : bytes)
  | HBatchPut | HPutObject (key : bytes) | HDeleteObject (key : bytes).

Definition skipReportKey : bytes := str "_skips".

Definition dispatch (method key : bytes) : option handler :=
  let isM (m : bytes) := bytes_eqb method m in
  if isM (str "GET") && bytes_eqb key (str "_index") then Some HGetIndex
  else if (isM (str "GET") || isM (str "POST")) && bytes_eqb key (str "_batch/get") then Some HBatchGet
  else if isM (str "POST") && bytes_eqb key skipReportKey then Some HSkipReport
  else if isM (str "GET") && negb (bytes_eqb key []) then Some (HGetObject key)
  else if isM (str "HEAD") && negb (bytes_eqb key []) then Some (HHeadObject key)
  else if isM (str "PUT") && bytes_eqb key (str "_batch/put") then Some HBatchPut
  else if isM (str "PUT") && negb (bytes_eqb key []) then Some (HPutObject key)
  else if isM (str "DELETE") && negb (bytes_eqb key []) then Some (HDeleteObject key)
  else None.

Definition healthPath : bytes := str "/_health".
Definition wellKnownHealthPath : bytes := str "/.well-known/docker-updater/health".
Definition wellKnownPreUpdatePath : bytes := str "/.well-known/docker-updater/pre-update".
Definition versionPath : bytes := str "/_version".
Definition retryAfterSeconds : Z := 2.

Definition draining : response :=
  Response 503 [(str "Retry-After", formatInt retryAfterSeconds); (str "Content-Type", str "text/plain; charset=utf-8");
                (str "X-Content-Type-Options", str "nosniff")] None (str "draining" ++ [10]).

Inductive served :=
  | Answered (r : response)
  | Version
  | Reached (user : bytes) (h : handler).

(** The bucket and key of a path: [/{bucket}/{key...}] or [/{bucket}]. *)
Definition bucket_key (path : bytes) : bytes * bytes :=
  let path := match path with 47 :: p => p | _ => path end in
  match cut 47 path with Some (b, k) => (b, k) | None => (path, []) end.

(** [ServeHTTP]; [admitted] is the outcome of [admit]. *)
Definition ServeHTTP (cfg : Config) (shuttingDown admitted : bool) (method path auth : bytes) : served :=
  if bytes_eqb path healthPath || bytes_eqb path wellKnownHealthPath then
    Answered (if shuttingDown then draining
              else Response 200 [(str "Content-Type", str "text/plain; charset=utf-8")] None (str "ok" ++ [10]))
  else if bytes_eqb path versionPath then Version
  else if bytes_eqb path wellKnownPreUpdatePath then
    Answered (if shuttingDown then draining else Response 200 [] None [])
  else if negb admitted then
    let r := writeError 503 (str "overloaded") (str "server is at capacity, retry after a moment") in
    Answered (Response (rs_status r) ((str "Retry-After", formatInt retryAfterSeconds) :: rs_headers r) None (rs_body r))
  else
    match authenticate auth cfg with
    | None => Answered (writeError 403 (str "access_denied") (str "access denied"))
    | Some user =>
        let '(bucket, key) := bucket_key path in
        if negb (bytes_eqb bucket (Bucket cfg)) then
          Answered (writeError 404 (str "unknown_bucket") (str "the specified bucket does not exist"))
        else match dispatch method key with
             | Some h => Reached user h
             | None => Answered (writeError 405 (str "method_not_allowed") (str "method not allowed"))
             end
    end.

(** ** Who gets in *)

Lemma cut_spec sep s a b : cut sep s = Some (a, b) <-> s = a ++ sep :: b /\ sep ∉ a.
Proof.
  revert a. induction s as [|c s IH]; intros a; cbn [cut].
  - split; [done|]. intros [E _]. by destruct a.
  - destruct (Z.eqb_spec c sep) as [->|Hne].
    + split; [intros [= <- <-]; split; [done|apply not_elem_of_nil]|]. intros [E Hn]. destruct a as [|x a]; [by injection E as ->|].
      injection E as -> _. apply not_elem_of_cons in Hn as [? _]. done.
    + split.
      * destruct (cut sep s) as [[a' b']|] eqn:E; cbn [mbind option_bind]; [|done]. intros [= <- <-].
        destruct (proj1 (IH a') eq_refl) as [-> Hn]. split; [done|]. apply not_elem_of_cons. split; [congruence|done].
      * intros [E Hn]. destruct a as [|x a]; [injection E as -> _; done|]. injection E as -> ->.
        apply not_elem_of_cons in Hn as [_ Hn]. by rewrite (proj2 (IH a) (conj eq_refl Hn)).
Qed.

Definition known_credential (cfg : Config) (user pass : bytes) : Prop :=
  user <> [] /\ pass <> [] /\ MkCredential user pass ∈ Credentials cfg.

Lemma find_credential_spec creds user pass u : user <> [] -> pass <> [] ->
  find_credential creds user pass = Some u <-> u = user /\ MkCredential user pass ∈ creds.
Proof.
  intros Hu Hp. unfold find_credential.
  set (P := fun c => negb (bytes_eqb (Username c) [] || bytes_eqb (Password c) []) && _).
  assert (HP : forall c, P c = true <-> c = MkCredential user pass).
  { intros [cu cp]. unfold P. cbn [Username Password]. rewrite !andb_true_iff, negb_true_iff, orb_false_iff, !bytes_eqb_eq. split.
    - by intros (_ & -> & ->).
    - intros [= -> ->]. split_and!; try done; apply not_true_iff_false; by rewrite bytes_eqb_eq. }
  destruct (find P creds) as [c|] eqn:E; cbn [fmap option_fmap option_map].
  - apply find_some in E as [Hin ->%HP]. apply list_elem_of_In in Hin. cbn [Username]. split; [by intros [= <-]|by intros [-> _]].
  - split; [done|]. intros [_ Hin]. apply list_elem_of_In, (find_none _ _ E) in Hin.
    exfalso. apply not_true_iff_false in Hin. by apply Hin, HP.
Qed.

Lemma authenticate_spec auth cfg u : DisableAuth cfg = false ->
  authenticate auth cfg = Some u <->
  exists enc p, auth = str "Basic " ++ enc /\ b64_decode enc = Some (u ++ 58 :: p) /\ 58 ∉ u /\ known_credential cfg u p.
Proof.
  intros Hd. unfold authenticate. rewrite Hd.
  assert (Hne : bytes_eqb auth [] = true -> ~ has_prefix auth (str "Basic ") = true) by (by intros ->%bytes_eqb_eq).
  destruct (bytes_eqb auth []) eqn:Ea; [split; [done|]; intros (enc & p & -> & _); by rewrite has_prefix_app in Hne; destruct Hne|].
  clear Hne. destruct (has_prefix auth (str "Basic ")) eqn:Ep; cbn [negb].
  2:{ split; [done|]. intros (enc & p & -> & _). by rewrite has_prefix_app in Ep. }
  assert (Hauth : auth = str "Basic " ++ drop 6 auth) by (apply has_prefix_spec in Ep as [t ->]; done).
  split.
  - destruct (b64_decode (drop 6 auth)) as [dec|] eqn:Eb; cbn [mbind option_bind]; [|done].
    destruct (cut 58 dec) as [[user pass]|] eqn:Ec; cbn [mbind option_bind]; [|done]. apply cut_spec in Ec as [-> Hn].
    destruct (bytes_eqb user [] || bytes_eqb pass []) eqn:Ee; [done|]. apply orb_false_iff in Ee as [E1 E2].
    apply not_true_iff_false in E1, E2. rewrite bytes_eqb_eq in E1, E2. intros Hf. apply find_credential_spec in Hf as [-> Hin]; [|done|done].
    exists (drop 6 auth), pass. by split_and!.
  - intros (enc & p & -> & Hb & Hn & Hu & Hp & Hin). change (drop 6 (str "Basic " ++ enc)) with enc. rewrite Hb. cbn [mbind option_bind].
    rewrite (proj2 (cut_spec 58 _ u p) (conj eq_refl Hn)). cbn [mbind option_bind].
    destruct (bytes_eqb u []) eqn:E1; [by apply bytes_eqb_eq in E1|]. destruct (bytes_eqb p []) eqn:E2; [by apply bytes_eqb_eq in E2|].
    cbn [orb]. by apply find_credential_spec.
Qed.

(** C15. No handler runs for a stranger, and every configured user gets in.
    With authentication on, a request reaches a handler exactly when it is
    admitted, is none of the probes, names the bucket and a method and key the
    dispatch knows, and carries Basic credentials that decode to a configured
    pair of a non-empty name and password; it runs as that user.  The standard
    encoding of a configured pair is such a header. *)
Theorem handlers_need_credentials cfg shuttingDown admitted method path auth :
  DisableAuth cfg = false ->
  (forall user h, ServeHTTP cfg shuttingDown admitted method path auth = Reached user h <->
     path ∉ [healthPath; wellKnownHealthPath; versionPath; wellKnownPreUpdatePath] /\ admitted = true /\
     (exists enc p, auth = str "Basic " ++ enc /\ b64_decode enc = Some (user ++ 58 :: p) /\ 58 ∉ user /\ known_credential cfg user p) /\
     exists key, bucket_key path = (Bucket cfg, key) /\ dispatch method key = Some h) /\
  (forall user pass, Forall is_byte user -> Forall is_byte pass -> 58 ∉ user -> known_credential cfg user pass ->
     authenticate (str "Basic " ++ b64_encode (user ++ 58 :: pass)) cfg = Some user).
Proof.
  intros Hd. split.
  - intros user h. rewrite <- (authenticate_spec auth cfg user Hd). unfold ServeHTTP.
    assert (Heq : forall q, bytes_eqb path q = bool_decide (path = q)).
    { intros q. case_bool_decide as E; [by apply bytes_eqb_eq|]. apply not_true_iff_false. by rewrite bytes_eqb_eq. }
    rewrite !Heq, !not_elem_of_cons. repeat case_bool_decide; cbn [orb]; try (split; [done|]; by intros ((? & ? & ? & ? & _) & _)).
    destruct admitted; cbn [negb]; [|split; [done|]; by intros (_ & ? & _)].
    destruct (authenticate auth cfg) as [u|]; [|split; [done|]; by intros (_ & _ & ? & _)].
    destruct (bucket_key path) as [b k]. destruct (bytes_eqb b (Bucket cfg)) eqn:Eb; cbn [negb].
    + apply bytes_eqb_eq in Eb as ->. destruct (dispatch method k) as [h'|] eqn:Ed.
      * split.
        -- intros [= <- <-]. split_and!; try done; [apply not_elem_of_nil|]. by exists k.
        -- intros (_ & _ & [= <-] & k' & [= <-] & Hk). congruence.
      * split; [done|]. intros (_ & _ & _ & k' & [= <-] & Hk). congruence.
    + split; [done|]. intros (_ & _ & _ & k' & [= -> _] & _). by rewrite bytes_eqb_refl in Eb.
  - intros user pass Hu Hp Hn Hk. apply authenticate_spec; [done|]. exists (b64_encode (user ++ 58 :: pass)), pass. split_and!; try done; try apply Hk.
    apply b64_roundtrip, Forall_app. split; [done|]. apply Forall_cons. split; [done|done].
Qed.

(** ** The index handler *)

(** [strconv.Atoi] with its error dropped: 0 for a text that is no number, the
    nearest int for one out of range. *)
Definition atoiValue (s : bytes) : Z :=
  match parseInt s with
  | Some v => v
  | None =>
      let '(neg, digits) := match s with 45 :: d => (true, d) | 43 :: d => (false, d) | _ => (false, s) end in
      match digits, parse_digits 0 digits with
      | _ :: _, Some _ => if neg : bool then - 2 ^ 63 else 2 ^ 63 - 1
      | _, _ => 0
      end
  end.

Record indexQuery := IndexQuery { q_hash : bytes; q_v : bytes; q_epoch : bytes; q_seq : bytes }.

Definition indexFormFromQuery (q : indexQuery) (idx : Index) : indexForm :=
  if bytes_eqb (q_hash q) (formatInt (Z.of_nat gbciPrefixSize)) then indexFormV1 gbciPrefixSize
  else if gbciVersion2 <=? atoiValue (q_v q) then FormV2 idx
  else indexFormV1 gbciHashSize.

Inductive indexAnswer :=
  | IndexUnavailable
  | IndexGone
  | IndexDelta (delta : bytes) (headers : option bytes * option bytes)
  | IndexBlob (blob etag : bytes) (headers : option bytes * option bytes).

(** [handleGetIndex]: a delta, or the whole blob with its ETag, which
    [http.ServeContent] may answer with "not modified". *)
Definition handleGetIndex (now : Z) (q : indexQuery) (oidx : option Index) : indexAnswer * option Index :=
  match oidx with
  | None => (IndexUnavailable, None)
  | Some idx =>
      let form := indexFormFromQuery q idx in
      match indexGenFromQuery (q_epoch q, q_seq q) with
      | (from, true) =>
          match DeltaForm from form idx with
          | None => (IndexGone, Some idx)
          | Some (delta, to) => (IndexDelta delta (setIndexGenHeaders to), Some idx)
          end
      | (_, false) =>
          let '(blob, etag, gen, idx) := BlobGenForm now form idx in
          (IndexBlob blob etag (setIndexGenHeaders gen), Some idx)
      end
  end.

(** ** A concrete request *)

Definition demoConfig : Config := MkConfig (str "cache") false [MkCredential [] []; MkCredential (str "ci") (str "secret")] None.

Lemma handlers_need_credentials_witness :
  ServeHTTP demoConfig false true (str "GET") (str "/cache/_index") (str "Basic Y2k6c2VjcmV0") = Reached (str "ci") HGetIndex /\
  authenticate (str "Basic " ++ b64_encode (str "ci" ++ 58 :: str "secret")) demoConfig = Some (str "ci").
Proof.
  assert (Hk : known_credential demoConfig (str "ci") (str "secret")).
  { split_and!; [done|done|]. apply list_elem_of_further, list_elem_of_here. }
  destruct (handlers_need_credentials demoConfig false true (str "GET") (str "/cache/_index") (str "Basic Y2k6c2VjcmV0") eq_refl) as [Hreach Henc].
  split; [|apply Henc; [by repeat constructor|by repeat constructor|vm_compute; set_solver|exact Hk]].
  apply Hreach. split_and!.
  - vm_compute. set_solver.
  - reflexivity.
  - exists (str "Y2k6c2VjcmV0"), (str "secret"). split_and!; [reflexivity|vm_compute; reflexivity|vm_compute; set_solver|apply Hk..].
  - exists (str "_index"). split; vm_compute; reflexivity.
Defined.
