(* ===== verification/Skips.v ===== *)
(** * Reports of skipped requests

    [cacheclient/skipreport.go] and [skips.go].  A client answers many lookups
    from its copy of the index and sends nothing; it counts them, and posts the
    counts so that the server's hit rate knows of them.

    [FlushSkips] runs under a mutex while other goroutines go on counting: the
    step relation [skip_step] splits it where they can see it, down to the
    single atomic loads of [skipTotals].  The network may lose a report, or the
    answer to one.  The report is the wire body both sides declare; it reaches
    [handleSkipReport] decoded, and [json_report] is the text that is posted.
    The counters of the Prometheus library are the log of the amounts added to
    them; the log line of the request is left out. *)

From Stdlib Require Import ZArith Lia List Bool String.
From stdpp Require Import base gmap list sets.
From S2P Require Import Prelude Strconv GoSet Keys Paths ObjAttrs ContentStamp MemoCache Churn Index Storage Eviction Handlers.

(** ** The report *)

Record SkipReport := MkSkipReport {
  GetNotInIndex : Z; GetEmptyIndex : Z; GetBatchBackoff : Z; GetKnownMiss : Z; PutKnown : Z;
  PutFailed : Z; PutRefusedBuildID : Z; PutRefusedModIndex : Z; PutAbandoned : Z;
  SkippedKeys : list bytes; SkippedAgo : list Z
}.

(** The nine counts by name, in the order of the struct. *)
Inductive skipField :=
  | FNotInIndex | FEmptyIndex | FBatchBackoff | FKnownMiss | FPutKnown | FFailed | FRefusedBuildID | FRefusedModIndex | FAbandoned.

Definition skipFields : list skipField :=
  [FNotInIndex; FEmptyIndex; FBatchBackoff; FKnownMiss; FPutKnown; FFailed; FRefusedBuildID; FRefusedModIndex; FAbandoned].

#[export] Instance skipField_eq_dec : EqDecision skipField.
Proof. solve_decision. Defined.

Definition field (c : skipField) (r : SkipReport) : Z :=
  match c with
  | FNotInIndex => GetNotInIndex r | FEmptyIndex => GetEmptyIndex r | FBatchBackoff => GetBatchBackoff r | FKnownMiss => GetKnownMiss r
  | FPutKnown => PutKnown r | FFailed => PutFailed r | FRefusedBuildID => PutRefusedBuildID r | FRefusedModIndex => PutRefusedModIndex r
  | FAbandoned => PutAbandoned r
  end.

Definition of_fields (f : skipField -> Z) (keys : list bytes) (ago : list Z) : SkipReport :=
  MkSkipReport (f FNotInIndex) (f FEmptyIndex) (f FBatchBackoff) (f FKnownMiss) (f FPutKnown) (f FFailed) (f FRefusedBuildID)
    (f FRefusedModIndex) (f FAbandoned) keys ago.

(** [SkipReport.empty]: the sum is one of [uint64]. *)
Definition empty (r : SkipReport) : bool :=
  (length (SkippedKeys r) =? 0)%nat && (foldl (fun n c => u64 (n + field c r)) 0 skipFields =? 0).

Definition minus (r o : SkipReport) : SkipReport := of_fields (fun c => u64 (field c r - field c o)) [] [].

(** ** The text of a report ([json.Marshal]; the keys are hex, so nothing is escaped) *)

Definition json_joined (l : list bytes) : bytes := match l with [] => [] | x :: l => x ++ flat_map (cons 44) l end.

Definition json_list (l : list bytes) : bytes := 91 :: json_joined l ++ [93].

Definition json_name (c : skipField) : bytes :=
  match c with
  | FNotInIndex => str "get_not_in_index" | FEmptyIndex => str "get_empty_index" | FBatchBackoff => str "get_batch_backoff"
  | FKnownMiss => str "get_known_miss" | FPutKnown => str "put_known" | FFailed => str "put_failed"
  | FRefusedBuildID => str "put_refused_buildid" | FRefusedModIndex => str "put_refused_modindex" | FAbandoned => str "put_abandoned"
  end.

Definition json_quoted (s : bytes) : bytes := 34 :: s ++ [34].

Definition json_member (name value : bytes) : bytes := json_quoted name ++ [58] ++ value.

(** The two lists are [omitempty]. *)
Definition json_report (r : SkipReport) : bytes :=
  let members := map (fun c => json_member (json_name c) (formatUint (field c r))) skipFields
    ++ (if decide (SkippedKeys r = []) then [] else [json_member (str "skipped_keys") (json_list (map json_quoted (SkippedKeys r)))])
    ++ (if decide (SkippedAgo r = []) then [] else [json_member (str "skipped_ago") (json_list (map formatInt (SkippedAgo r)))]) in
  123 :: json_joined members ++ [125].

(** ** The server ([skips.go]) *)

Definition maxSkipReportBytes : Z := Z.shiftl 16 10.
Definition maxSkipReportCount : Z := Z.shiftl 1 32.
Definition maxSkipSample : nat := 64.

(** [skipReport]: the client's fields, and the count an older client sends for both refusals. *)
Record skipReport := MkServerReport { sr_report : SkipReport; sr_PutRefused : Z }.

(** A body without the old field decodes to its zero. *)
Definition received (r : SkipReport) : skipReport := MkServerReport r 0.

Definition gets (r : skipReport) : Z :=
  let r := sr_report r in u64 (u64 (u64 (GetNotInIndex r + GetEmptyIndex r) + GetBatchBackoff r) + GetKnownMiss r).

Definition valid (r : skipReport) : bool :=
  forallb (fun v => v <? maxSkipReportCount) (map (fun c => field c (sr_report r)) skipFields ++ [sr_PutRefused r])
  && (length (SkippedKeys (sr_report r)) <=? maxSkipSample)%nat
  && (length (SkippedAgo (sr_report r)) <=? length (SkippedKeys (sr_report r)))%nat
  && forallb (fun age => 0 <=? age) (SkippedAgo (sr_report r))
  && forallb (fun k => if decide (is_Some (extractActionHash (gbciKeyPrefix ++ k))) then true else false) (SkippedKeys (sr_report r)).

Inductive metric := ClientSkips (op reason : bytes) | ClientUploadsLost (reason : bytes) | ClientSkipSamples (verdict : bytes).

#[export] Instance metric_eq_dec : EqDecision metric.
Proof. solve_decision. Defined.

(** What was added to a counter. *)
Definition added (m : metric) (log : list (metric * Z)) : Z :=
  foldr (fun e n => if decide (e.1 = m) then e.2 + n else n) 0 log.

Definition metric_of (c : skipField) : metric :=
  match c with
  | FNotInIndex => ClientSkips (str "get") (str "not_in_index") | FEmptyIndex => ClientSkips (str "get") (str "empty_index")
  | FBatchBackoff => ClientSkips (str "get") (str "batch_backoff") | FKnownMiss => ClientSkips (str "get") (str "known_miss")
  | FPutKnown => ClientSkips (str "put") (str "known") | FFailed => ClientUploadsLost (str "failed")
  | FRefusedBuildID => ClientUploadsLost (str "refused_buildid") | FRefusedModIndex => ClientUploadsLost (str "refused_modindex")
  | FAbandoned => ClientUploadsLost (str "abandoned")
  end.

Definition count_events (r : skipReport) : list (metric * Z) :=
  let n := fun c => (metric_of c, field c (sr_report r)) in
  [n FNotInIndex; n FEmptyIndex; n FBatchBackoff; n FKnownMiss; n FPutKnown; n FFailed; n FRefusedBuildID; n FRefusedModIndex;
   (ClientUploadsLost (str "refused"), sr_PutRefused r); n FAbandoned].

Definition noteProjectMiss (module : bytes) (keys : Z) (e : exactProjects) : exactProjects :=
  if keys <=? 0 then e else project_add module objKindMiss (u64 keys) 0 e.

(** How the decoder can fail: the body is over the limit, or it is no report. *)
Inductive decodeErr := BodyTooLarge | BadBody (text : bytes).

Section server.
Context {F MC UC DC : Type} `{!XattrOps F} `{!XattrLaws F} `{!MapRange} `{!Decoders}.
Context `{!CacheOps MC bytes metaEntry} `{!CacheOps UC bytes unit} `{!CacheOps DC bytes fileIdentity}.

#[local] Abbreviation Storage := (Storage.Storage (F := F) (MC := MC) (UC := UC) (DC := DC)).

Definition storedAfter (env : readEnv) (key : bytes) (moment : Z) (s : Storage) : bool * Storage :=
  let '(r, s) := Storage.Stat env key s in
  (match r with inl meta => moment <? om_modNano meta | inr _ => false end, s).

(** [now.Add(-time.Duration(ago) * time.Second)]: the product is one of [int64]. *)
Definition moment_of (now ago : Z) : Z := now + i64 (i64 (- ago) * 10 ^ 9).

(** The verdict on one sampled key; [ago] is its age when the report has one. *)
Definition classifySkippedKey (env : readEnv) (now : Z) (k : bytes) (ago : option Z) (s : Storage) : bytes * Storage :=
  let key := gbciKeyPrefix ++ k in
  let '(reason, s) := absentKeyReason key s in
  if bytes_eqb reason missAdvertised then
    match ago with
    | None => (str "advertised", s)
    | Some a => let '(later, s) := storedAfter env key (moment_of now a) s in (if later then str "stored_later" else str "advertised", s)
    end
  else if bytes_eqb reason missEvicted then (str "evicted", s) else (str "unknown", s).

(** [env] says of each stat whether it works. *)
Fixpoint classifySkippedKeys (env : nat -> readEnv) (now : Z) (idx : nat) (keys : list bytes) (ago : list Z) (s : Storage) : list (metric * Z) * Storage :=
  match keys with
  | [] => ([], s)
  | k :: keys =>
      let '(verdict, s) := classifySkippedKey (env idx) now k (head ago) s in
      let '(evs, s) := classifySkippedKeys env now (S idx) keys (tail ago) s in
      ((ClientSkipSamples verdict, 1) :: evs, s)
  end.

Definition handleSkipReport (env : nat -> readEnv) (now : Z) (module : bytes) (decoded : skipReport + decodeErr) (storage : option Storage)
    (e : exactProjects) : response * list (metric * Z) * option Storage * exactProjects :=
  match decoded with
  | inr BodyTooLarge => (writeError 413 (str "too_large") (str "skip report too large"), [], storage, e)
  | inr (BadBody text) => (writeError 400 (str "bad_skip_report") (str "skip report: " ++ text), [], storage, e)
  | inl rep =>
      if negb (valid rep) then (writeError 400 (str "bad_skip_report") (str "skip report: a count is out of range"), [], storage, e)
      else
        let '(evs, storage) := match storage with
          | None => ([], None)
          | Some s => let '(evs, s) := classifySkippedKeys env now 0 (SkippedKeys (sr_report rep)) (SkippedAgo (sr_report rep)) s in (evs, Some s)
          end in
        (Response 204 [] None [], count_events rep ++ evs, storage, noteProjectMiss module (i64 (gets rep)) e)
  end.
End server.

(** ** The client ([skipreport.go]) *)

Definition skipSampleMax : nat := 64.
Definition skipReportInterval : Z := 30 * 10 ^ 9.

(** [skippedKey]. *)
Record skippedKey := MkSkippedKey { sk_hash : bytes; sk_at : Z }.

(** [skipReporter], with the counters of the backend it reads. *)
Record skipReporter := MkSkipReporter {
  counters : SkipReport; sent : SkipReport; disabled : bool; lastSend : Z; inFlight : bool; sample : list skippedKey
}.

Definition noReport : SkipReport := of_fields (fun _ => 0) [] [].
Definition newSkipReporter : skipReporter := MkSkipReporter noReport noReport false 0 false [].

(** One of the backend's [AtomicCounter]s is incremented. *)
Definition Increment (c : skipField) (r : skipReporter) : skipReporter :=
  MkSkipReporter (of_fields (fun c' => if decide (c' = c) then u32 (field c' (counters r) + 1) else field c' (counters r)) [] [])
    (sent r) (disabled r) (lastSend r) (inFlight r) (sample r).

Definition sampleSkippedKey (now : Z) (h : bytes) (r : skipReporter) : skipReporter :=
  if (length (sample r) <? skipSampleMax)%nat
  then MkSkipReporter (counters r) (sent r) (disabled r) (lastSend r) (inFlight r) (sample r ++ [MkSkippedKey h now])
  else r.

(** [time.Time.Sub]: it saturates. *)
Definition time_sub (a b : Z) : Z := Z.max (- 2 ^ 63) (Z.min (2 ^ 63 - 1) (a - b)).

Definition takeSample (now : Z) (r : skipReporter) : list bytes * list Z * nat :=
  (map (fun s => hex_encode (sk_hash s)) (sample r), map (fun s => Z.quot (time_sub now (sk_at s)) (10 ^ 9)) (sample r), length (sample r)).

(** [clearSample]: [None] is the panic of a slice past the end. *)
Definition clearSample (n : nat) (r : skipReporter) : option skipReporter :=
  if (n <=? length (sample r))%nat
  then Some (MkSkipReporter (counters r) (sent r) (disabled r) (lastSend r) (inFlight r) (drop n (sample r)))
  else None.

(** [skipTotals]: nine loads, one after the other. *)
Definition skipTotals (loads : list Z) : SkipReport :=
  MkSkipReport (nth 0 loads 0) (nth 1 loads 0) (nth 2 loads 0) (nth 3 loads 0) (nth 4 loads 0) (nth 5 loads 0) (nth 6 loads 0) (nth 7 loads 0)
    (nth 8 loads 0) [] [].

(** [noteSkip], which loaded [last] before: whether a send is started. *)
Definition noteSkip (now last : Z) (r : skipReporter) : bool * skipReporter :=
  if last =? 0 then
    (false, if lastSend r =? 0 then MkSkipReporter (counters r) (sent r) (disabled r) now (inFlight r) (sample r) else r)
  else if (i64 (now - last) <? skipReportInterval) || inFlight r then (false, r)
  else (true, MkSkipReporter (counters r) (sent r) (disabled r) now true (sample r)).

(** The report [FlushSkips] sends for the totals it read, and the length of its
    sample; [None] when there is nothing to send. *)
Definition flush_report (now : Z) (total : SkipReport) (r : skipReporter) : option (SkipReport * nat) :=
  let d := minus total (sent r) in
  let '(keys, ages, sampled) := takeSample now r in
  let delta := of_fields (fun c => field c d) keys ages in
  if empty delta then None else Some (delta, sampled).

(** What [FlushSkips] does with the status of the answer. *)
Inductive flushOutcome := Accepted | NoEndpoint | Refused.

Definition outcome_of (status : Z) : flushOutcome :=
  if (status =? 204) || (status =? 200) then Accepted
  else if (status =? 405) || (status =? 404) then NoEndpoint
  else Refused.

Definition accept (total : SkipReport) (r : skipReporter) : skipReporter :=
  MkSkipReporter (counters r) total (disabled r) (lastSend r) (inFlight r) (sample r).

Definition disable (r : skipReporter) : skipReporter :=
  MkSkipReporter (counters r) (sent r) true (lastSend r) (inFlight r) (sample r).

(** The deferred store of a background send that ends. *)
Definition land (r : skipReporter) : skipReporter :=
  MkSkipReporter (counters r) (sent r) (disabled r) (lastSend r) false (sample r).

(** ** Client and server together *)

(** Where the goroutine that holds the mutex of [FlushSkips] is.  [base] is the
    number of skips of each kind when it began. *)
Inductive flushPhase :=
  | FIdle
  | FReading (base : skipField -> Z) (loads : list Z)
  | FSending (base : skipField -> Z) (total delta : SkipReport) (sampled : nat)
  | FClearing (base : skipField -> Z) (sampled : nat).

(** [w_count], [w_kept], [w_acked] and [w_lost] are what happened: the skips of
    each kind, the keys that entered the sample, the skips that a [FlushSkips]
    which answered true vouched for, and the reports accepted whose answer never
    arrived.  [w_bg] are the background sends not yet over. *)
Record world := World {
  w_r : skipReporter; w_phase : flushPhase; w_now : Z; w_bg : nat;
  w_count : skipField -> Z; w_kept : Z; w_acked : skipField -> Z; w_log : list (metric * Z); w_lost : nat
}.

Definition w_init (now : Z) : world := World newSkipReporter FIdle now 0 (fun _ => 0) 0 (fun _ => 0) [] 0.

Definition with_r (w : world) (r : skipReporter) (p : flushPhase) : world :=
  World r p (w_now w) (w_bg w) (w_count w) (w_kept w) (w_acked w) (w_log w) (w_lost w).
Definition with_now (w : world) (now : Z) : world :=
  World (w_r w) (w_phase w) now (w_bg w) (w_count w) (w_kept w) (w_acked w) (w_log w) (w_lost w).
Definition with_bg (w : world) (r : skipReporter) (bg : nat) : world :=
  World r (w_phase w) (w_now w) bg (w_count w) (w_kept w) (w_acked w) (w_log w) (w_lost w).
Definition counting (w : world) (c : skipField) : world :=
  World (Increment c (w_r w)) (w_phase w) (w_now w) (w_bg w) (fun c' => if decide (c' = c) then w_count w c' + 1 else w_count w c') (w_kept w)
    (w_acked w) (w_log w) (w_lost w).
Definition sampling (w : world) (h : bytes) : world :=
  let r := sampleSkippedKey (w_now w) h (w_r w) in
  World r (w_phase w) (w_now w) (w_bg w) (w_count w) (w_kept w + Z.of_nat (length (sample r) - length (sample (w_r w)))) (w_acked w) (w_log w) (w_lost w).
Definition acking (w : world) (r : skipReporter) (base : skipField -> Z) : world :=
  World r FIdle (w_now w) (w_bg w) (w_count w) (w_kept w) base (w_log w) (w_lost w).
Definition logging (w : world) (evs : list (metric * Z)) (lost : nat) : world :=
  World (w_r w) (w_phase w) (w_now w) (w_bg w) (w_count w) (w_kept w) (w_acked w) (w_log w ++ evs) (w_lost w + lost).

(** The client reads the status of the answer. *)
Definition answered (w : world) (base : skipField -> Z) (total : SkipReport) (sampled : nat) (status : Z) : world :=
  match outcome_of status with
  | Accepted => with_r w (accept total (w_r w)) (FClearing base sampled)
  | NoEndpoint => with_r w (disable (w_r w)) FIdle
  | Refused => with_r w (w_r w) FIdle
  end.

(** What the handler's decoder makes of the posted text. *)
Definition posted (delta : SkipReport) : skipReport + decodeErr :=
  if Z.of_nat (length (json_report delta)) <=? maxSkipReportBytes then inl (received delta) else inr BodyTooLarge.

Section together.
Context {F MC UC DC : Type} `{!XattrOps F} `{!XattrLaws F} `{!MapRange} `{!Decoders}.
Context `{!CacheOps MC bytes metaEntry} `{!CacheOps UC bytes unit} `{!CacheOps DC bytes fileIdentity}.

#[local] Abbreviation Storage := (Storage.Storage (F := F) (MC := MC) (UC := UC) (DC := DC)).

(** The goroutine in [FlushSkips]: begin, load a counter, find nothing to send,
    send; the server handles the report and its answer arrives or is lost; the
    report is lost or answered by another (the admission queue, a server with
    no such endpoint); the sample is cleared.  Beside it: the clock, skips, their
    samples, and background sends that start and end. *)
Inductive skip_step (w : world) : world -> Prop :=
  | st_tick now : w_now w <= now -> skip_step w (with_now w now)
  | st_count c : skip_step w (counting w c)
  | st_sample h : is_hash h -> skip_step w (sampling w h)
  | st_note last started r : noteSkip (w_now w) last (w_r w) = (started, r) ->
      skip_step w (with_bg w r (w_bg w + if started then 1 else 0))
  | st_begin : w_phase w = FIdle -> skip_step w (with_r w (w_r w) (FReading (w_count w) []))
  | st_load base loads c : w_phase w = FReading base loads -> skipFields !! length loads = Some c ->
      skip_step w (with_r w (w_r w) (FReading base (loads ++ [field c (counters (w_r w))])))
  | st_nothing base loads : w_phase w = FReading base loads -> length loads = length skipFields ->
      flush_report (w_now w) (skipTotals loads) (w_r w) = None -> skip_step w (acking w (w_r w) base)
  | st_send base loads delta sampled : w_phase w = FReading base loads -> length loads = length skipFields ->
      flush_report (w_now w) (skipTotals loads) (w_r w) = Some (delta, sampled) ->
      skip_step w (with_r w (w_r w) (FSending base (skipTotals loads) delta sampled))
  | st_answer base total delta sampled env now module (s : Storage) e resp evs s' e' : w_phase w = FSending base total delta sampled ->
      handleSkipReport env now module (posted delta) (Some s) e = (resp, evs, s', e') ->
      skip_step w (answered (logging w evs 0) base total sampled (rs_status resp))
  | st_answer_lost base total delta sampled env now module (s : Storage) e resp evs s' e' : w_phase w = FSending base total delta sampled ->
      handleSkipReport env now module (posted delta) (Some s) e = (resp, evs, s', e') ->
      skip_step w (with_r (logging w evs 1) (w_r w) FIdle)
  | st_unsent base total delta sampled : w_phase w = FSending base total delta sampled -> skip_step w (with_r w (w_r w) FIdle)
  | st_other base total delta sampled status : w_phase w = FSending base total delta sampled -> outcome_of status <> Accepted ->
      skip_step w (answered w base total sampled status)
  | st_clear base sampled r : w_phase w = FClearing base sampled -> clearSample sampled (w_r w) = Some r -> skip_step w (acking w r base)
  | st_land bg : w_bg w = S bg -> skip_step w (with_bg w (land (w_r w)) bg).

Inductive skips_reachable : world -> Prop :=
  | sr_start now : skips_reachable (w_init now)
  | sr_step w w' : skips_reachable w -> skip_step w w' -> skips_reachable w'.

(** ** Lemmas *)

Lemma field_of_fields c f keys ago : field c (of_fields f keys ago) = f c.
Proof. by destruct c. Qed.

Lemma field_minus c r o : field c (minus r o) = u64 (field c r - field c o).
Proof. apply field_of_fields. Qed.

Lemma field_totals c i loads : skipFields !! i = Some c -> field c (skipTotals loads) = nth i loads 0.
Proof. intros Hi. do 9 (destruct i as [|i]; [by injection Hi as <-|]). discriminate. Qed.

Lemma skipFields_all c : exists i, skipFields !! i = Some c /\ (i < 9)%nat.
Proof.
  destruct c;
    [exists 0%nat|exists 1%nat|exists 2%nat|exists 3%nat|exists 4%nat|exists 5%nat|exists 6%nat|exists 7%nat|exists 8%nat]; split; (reflexivity || lia).
Qed.

Lemma added_app m a b : added m (a ++ b) = added m a + added m b.
Proof. induction a as [|x a IH]; [done|]. cbn. fold (added m (a ++ b)) (added m a). rewrite IH. case_decide; lia. Qed.

Lemma metric_of_inj c c' : metric_of c' = metric_of c -> c' = c.
Proof. destruct c, c'; (reflexivity || (intros E; exfalso; discriminate E)). Qed.

Lemma added_field c c' n l : added (metric_of c) ((metric_of c', n) :: l) = (if decide (c' = c) then n else 0) + added (metric_of c) l.
Proof.
  cbn [added foldr fst snd]. fold (added (metric_of c) l).
  destruct (decide (c' = c)) as [->|Hne]; [by rewrite decide_True|]. rewrite decide_False; [lia|]. by intros ?%metric_of_inj.
Qed.

Lemma added_other c m n l : m <> metric_of c -> added (metric_of c) ((m, n) :: l) = added (metric_of c) l.
Proof. intros Hne. cbn [added foldr fst snd]. by rewrite decide_False. Qed.

Lemma added_counts c r : added (metric_of c) (count_events r) = field c (sr_report r).
Proof.
  unfold count_events. cbv zeta beta. rewrite !added_field, added_other, added_field.
  - change (added (metric_of c) []) with 0. destruct c; cbn [decide decide_rel skipField_eq_dec skipField_rec skipField_rect]; simpl; lia.
  - destruct c; discriminate.
Qed.

(** The verdicts in a log. *)
Definition judged (log : list (metric * Z)) : Z :=
  foldr (fun e n => match e.1 with ClientSkipSamples _ => e.2 + n | _ => n end) 0 log.

Lemma judged_app a b : judged (a ++ b) = judged a + judged b.
Proof. induction a as [|x a IH]; [done|]. cbn. fold (judged (a ++ b)) (judged a). rewrite IH. destruct x.1; lia. Qed.

Lemma judged_counts r : judged (count_events r) = 0.
Proof. reflexivity. Qed.

Lemma classify_events env now (s : Storage) : forall keys idx ago evs s', classifySkippedKeys env now idx keys ago s = (evs, s') ->
  judged evs = Z.of_nat (length keys) /\ forall c, added (metric_of c) evs = 0.
Proof.
  intros keys. revert s. induction keys as [|k keys IH]; intros s idx ago evs s'; cbn [classifySkippedKeys]; [by intros [= <- <-]|].
  destruct (classifySkippedKey _ _ _ _ _) as [v s1]. destruct (classifySkippedKeys _ _ _ _ _ _) as [evs1 s2] eqn:E.
  intros [= <- <-]. apply IH in E as [Hj Ha]. split.
  - cbn. fold (judged evs1). rewrite Hj. lia.
  - intros c. cbn. fold (added (metric_of c) evs1). rewrite Ha. case_decide as Hd; [by destruct c|lia].
Qed.

Lemma handle_valid env now module rep (s : Storage) e resp evs s' e' : valid rep = true ->
  handleSkipReport env now module (inl rep) (Some s) e = (resp, evs, s', e') ->
  rs_status resp = 204 /\ judged evs = Z.of_nat (length (SkippedKeys (sr_report rep))) /\
  forall c, added (metric_of c) evs = field c (sr_report rep).
Proof.
  intros Hv. cbn [handleSkipReport]. rewrite Hv. cbn [negb]. destruct (classifySkippedKeys _ _ _ _ _ _) as [cl s1] eqn:E.
  intros Heq. apply classify_events in E as [Hj Ha].
  assert (resp = Response 204 [] None [] /\ evs = count_events rep ++ cl) as [-> ->] by (split; congruence). split; [done|]. split.
  - by rewrite judged_app, judged_counts, Hj.
  - intros c. rewrite added_app, added_counts, Ha. lia.
Qed.

(** ** What the client sends is accepted *)

Lemma length_joined l : (length (json_joined l) <= sum_list_with (fun x => S (length x)) l)%nat.
Proof.
  destruct l as [|x l]; [done|]. cbn [json_joined sum_list_with]. rewrite length_app.
  assert (length (flat_map (cons 44) l) = sum_list_with (fun x => S (length x)) l) as ->; [|lia].
  induction l as [|y l IH]; [done|]. cbn [flat_map sum_list_with]. rewrite length_app, IH. done.
Qed.

Lemma length_json_list l k : Forall (fun x => (length x <= k)%nat) l -> (length (json_list l) <= 2 + S k * length l)%nat.
Proof.
  intros Hl. unfold json_list. cbn [length]. rewrite length_app. cbn [length]. pose proof (length_joined l) as Hj.
  assert (sum_list_with (fun x => S (length x)) l <= S k * length l)%nat; [|lia].
  clear Hj. induction Hl as [|x l Hx _ IH]; cbn [sum_list_with length]; lia.
Qed.

(** What the client puts in a report. *)
Record well_formed (r : SkipReport) : Prop := {
  wf_field : forall c, 0 <= field c r < 2 ^ 32;
  wf_len : (length (SkippedKeys r) <= skipSampleMax)%nat;
  wf_ago : length (SkippedAgo r) = length (SkippedKeys r);
  wf_ages : Forall (fun a => 0 <= a < 2 ^ 63) (SkippedAgo r);
  wf_keys : Forall (fun k => exists h, is_hash h /\ k = hex_encode h) (SkippedKeys r)
}.

Lemma length_formatUint n : 0 <= n < 2 ^ 63 -> (length (formatUint n) <= 20)%nat.
Proof. intros Hn. apply formatUint_spec. lia. Qed.

Lemma report_fits r : well_formed r -> Z.of_nat (length (json_report r)) <= maxSkipReportBytes.
Proof.
  intros [Hf Hl Ha Hag Hk]. unfold json_report. cbv zeta. cbn [length]. rewrite length_app. cbn [length].
  match goal with |- context [json_joined ?l] => pose proof (length_joined l) as Hj; set (ms := l) in * end.
  assert (Z.of_nat (sum_list_with (fun x => S (length x)) ms) <= 6200) as Hs; [|change maxSkipReportBytes with 16384; lia].
  subst ms. clear Hj. rewrite !sum_list_with_app.
  assert (Hm : forall name v, length (json_member name v) = (3 + length name + length v)%nat).
  { intros. unfold json_member, json_quoted. cbn [length app]. rewrite !length_app. cbn [length]. lia. }
  assert (Hc : forall c, (3 + length (json_name c) + length (formatUint (field c r)) <= 43)%nat).
  { intros c. pose proof (length_formatUint (field c r) ltac:(specialize (Hf c); lia)) as Hu.
    assert (length (json_name c) <= 20)%nat by (destruct c; cbn; lia). lia. }
  assert (Hkeys : (length (json_list (map json_quoted (SkippedKeys r))) <= 2 + 67 * 64)%nat).
  { etransitivity; [apply (length_json_list _ 66)|rewrite length_map; unfold skipSampleMax in Hl; lia].
    apply Forall_map. eapply Forall_impl; [exact Hk|]. intros k (h & [Hh _] & ->). unfold compose, json_quoted. cbn [length].
    rewrite length_app, length_hex_encode, Hh. done. }
  assert (Hages : (length (json_list (map formatInt (SkippedAgo r))) <= 2 + 21 * 64)%nat).
  { etransitivity; [apply (length_json_list _ 20)|rewrite length_map; unfold skipSampleMax in Hl; lia].
    apply Forall_map. eapply Forall_impl; [exact Hag|]. intros a Hr. cbn beta in Hr. unfold compose, formatInt.
    destruct (Z.ltb_spec a 0); [lia|]. by apply length_formatUint. }
  unfold skipFields. cbn [map sum_list_with].
  pose proof (Hc FNotInIndex). pose proof (Hc FEmptyIndex). pose proof (Hc FBatchBackoff). pose proof (Hc FKnownMiss). pose proof (Hc FPutKnown).
  pose proof (Hc FFailed). pose proof (Hc FRefusedBuildID). pose proof (Hc FRefusedModIndex). pose proof (Hc FAbandoned).
  repeat case_decide; cbn [sum_list_with]; rewrite ?Hm; change (length (str "skipped_keys")) with 12%nat; change (length (str "skipped_ago")) with 11%nat; lia.
Qed.

Lemma report_valid r : well_formed r -> valid (received r) = true.
Proof.
  intros [Hf Hl Ha Hag Hk]. unfold valid. cbn [received sr_report sr_PutRefused]. rewrite !andb_true_iff. split_and!.
  - rewrite forallb_app. apply andb_true_iff. split; [|done]. apply forallb_forall. intros v (c & <- & _)%in_map_iff.
    apply Z.ltb_lt. apply Hf.
  - by apply Nat.leb_le.
  - apply Nat.leb_le. lia.
  - apply forallb_forall. intros a Hin. apply Z.leb_le. rewrite Forall_forall in Hag. by apply Hag, list_elem_of_In.
  - apply forallb_forall. intros k Hin. rewrite Forall_forall in Hk. destruct (Hk k) as (h & Hh & ->); [by apply list_elem_of_In|].
    rewrite decide_True; [done|]. rewrite extractActionHash_key by done. eauto.
Qed.

Lemma posted_received r : well_formed r -> posted r = inl (received r).
Proof. intros Hr. unfold posted. by rewrite (proj2 (Z.leb_le _ _) (report_fits r Hr)). Qed.

Lemma sum_exact (f : skipField -> Z) : (forall c, 0 <= f c < 2 ^ 32) -> forall l a, 0 <= a -> a + 2 ^ 32 * Z.of_nat (length l) < 2 ^ 64 ->
  foldl (fun n c => u64 (n + f c)) a l = a + foldr (fun c n => f c + n) 0 l.
Proof.
  intros Hf l. induction l as [|c l IH]; intros a Ha Hb; cbn [foldl foldr length] in *; [lia|].
  specialize (Hf c). rewrite u64_small by (unfold is_u64; lia). rewrite IH; lia.
Qed.

Lemma empty_zero r : well_formed r -> empty r = true -> forall c, field c r = 0.
Proof.
  intros [Hf _ _ _ _]. unfold empty. rewrite (sum_exact (fun c => field c r) Hf) by (cbn; lia).
  unfold skipFields. cbn [foldr]. intros [_ He]%andb_true_iff. apply Z.eqb_eq in He.
  pose proof (Hf FNotInIndex). pose proof (Hf FEmptyIndex). pose proof (Hf FBatchBackoff). pose proof (Hf FKnownMiss). pose proof (Hf FPutKnown).
  pose proof (Hf FFailed). pose proof (Hf FRefusedBuildID). pose proof (Hf FRefusedModIndex). pose proof (Hf FAbandoned).
  intros c. destruct c; lia.
Qed.

Definition kept_ok (now : Z) (s : skippedKey) : Prop := is_hash (sk_hash s) /\ sk_at s <= now.

Definition sample_ok (now : Z) (r : skipReporter) : Prop := (length (sample r) <= skipSampleMax)%nat /\ Forall (kept_ok now) (sample r).

Lemma age_range now at_ : at_ <= now -> 0 <= Z.quot (time_sub now at_) (10 ^ 9) < 2 ^ 63.
Proof.
  intros Hle. assert (0 <= time_sub now at_ < 2 ^ 63) by (unfold time_sub; lia).
  rewrite Z.quot_div_nonneg by lia. split; [apply Z.div_pos; lia|]. apply Z.div_lt_upper_bound; lia.
Qed.

Lemma flush_spec now total r : (forall c, 0 <= field c (sent r) <= field c total) -> (forall c, field c total < 2 ^ 32) -> sample_ok now r ->
  match flush_report now total r with
  | None => forall c, field c total = field c (sent r)
  | Some (delta, n) => well_formed delta /\ (forall c, field c delta = field c total - field c (sent r)) /\
      SkippedKeys delta = map (fun s => hex_encode (sk_hash s)) (sample r) /\ n = length (sample r)
  end.
Proof.
  intros Hs Ht [Hl Hk]. unfold flush_report, takeSample.
  set (delta := of_fields _ _ _).
  assert (Hd : forall c, field c delta = field c total - field c (sent r)).
  { intros c. unfold delta. rewrite field_of_fields, field_minus. apply u64_small. specialize (Hs c). specialize (Ht c). unfold is_u64. lia. }
  assert (Hwf : well_formed delta).
  { constructor; unfold delta; cbn [of_fields SkippedKeys SkippedAgo].
    - intros c. fold delta. rewrite Hd. specialize (Hs c). specialize (Ht c). lia.
    - by rewrite length_map.
    - by rewrite !length_map.
    - apply Forall_map. eapply Forall_impl; [exact Hk|]. intros s [_ Hat]. by apply age_range.
    - apply Forall_map. eapply Forall_impl; [exact Hk|]. intros s [Hh _]. by exists (sk_hash s). }
  destruct (empty delta) eqn:E.
  - intros c. pose proof (empty_zero _ Hwf E c) as Hz. rewrite Hd in Hz. lia.
  - done.
Qed.

(** ** The invariant *)

Definition phase_ok (w : world) : Prop :=
  match w_phase w with
  | FIdle => True
  | FReading base loads =>
      (forall c, base c <= w_count w c) /\
      forall i c, skipFields !! i = Some c -> (i < length loads)%nat ->
        base c <= nth i loads 0 <= w_count w c /\ field c (sent (w_r w)) <= nth i loads 0
  | FSending base total delta sampled =>
      well_formed delta /\ SkippedKeys delta = map (fun s => hex_encode (sk_hash s)) (take sampled (sample (w_r w))) /\
      (sampled <= length (sample (w_r w)))%nat /\
      forall c, base c <= field c total <= w_count w c /\ field c delta = field c total - field c (sent (w_r w))
  | FClearing base sampled => (sampled <= length (sample (w_r w)))%nat /\ forall c, base c <= field c (sent (w_r w))
  end.

(** The keys of the sample that were reported and not yet dropped. *)
Definition clearing (p : flushPhase) : Z := match p with FClearing _ n => Z.of_nat n | _ => 0 end.

Record skip_inv (w : world) : Prop := {
  i_counts : forall c, field c (counters (w_r w)) = w_count w c;
  i_sent : forall c, 0 <= field c (sent (w_r w)) <= w_count w c;
  i_acked : forall c, w_acked w c <= field c (sent (w_r w));
  i_sample : sample_ok (w_now w) (w_r w);
  i_log : forall c, field c (sent (w_r w)) <= added (metric_of c) (w_log w);
  i_once : w_lost w = 0%nat -> forall c, added (metric_of c) (w_log w) = field c (sent (w_r w));
  i_judged : w_lost w = 0%nat -> judged (w_log w) + Z.of_nat (length (sample (w_r w))) - clearing (w_phase w) = w_kept w;
  i_bg : w_bg w = if inFlight (w_r w) then 1%nat else 0%nat;
  i_phase : phase_ok w
}.

Definition skip_bounded (w : world) : Prop := forall c, w_count w c < 2 ^ 32.

Lemma count_mono w w' c : skip_step w w' -> w_count w c <= w_count w' c.
Proof.
  destruct 1; unfold answered; repeat case_match; cbn; try lia. case_decide; lia.
Qed.

Lemma noteSkip_frame now last r started r' : noteSkip now last r = (started, r') ->
  counters r' = counters r /\ sent r' = sent r /\ sample r' = sample r /\
  if started then inFlight r = false /\ inFlight r' = true else inFlight r' = inFlight r.
Proof.
  unfold noteSkip. intros E. repeat case_in E; injection E as <- <-; bool2prop; done.
Qed.

Lemma inv_init now : skip_inv (w_init now).
Proof.
  constructor; cbn; try done; try (intros c; destruct c; cbn; lia); try (intros _ c; by destruct c).
  split; [cbn; lia|constructor].
Qed.

(** The reporter changes in nothing the invariant reads but the in-flight mark. *)
Lemma inv_bg w r bg : skip_inv w -> counters r = counters (w_r w) -> sent r = sent (w_r w) -> sample r = sample (w_r w) ->
  bg = (if inFlight r then 1%nat else 0%nat) -> skip_inv (with_bg w r bg).
Proof.
  intros [Hc Hs Ha Hk Hl Ho Hj Hb Hp] Ec Es Ek Eb.
  constructor; cbn [with_bg w_r w_phase w_now w_bg w_count w_kept w_acked w_log w_lost]; rewrite ?Ec, ?Es, ?Ek; try done.
  - unfold sample_ok in *. by rewrite Ek.
  - unfold phase_ok in *. cbn [with_bg w_r w_phase w_count]. rewrite Es, Ek. done.
Qed.

Lemma inv_tick w now : skip_inv w -> w_now w <= now -> skip_inv (with_now w now).
Proof.
  intros [Hc Hs Ha [Hk1 Hk2] Hl Ho Hj Hb Hp] Hn. constructor; try done. split; [done|].
  eapply Forall_impl; [exact Hk2|]. intros s [? ?]. split; [done|]. cbn. lia.
Qed.

Lemma inv_count w c : skip_bounded (counting w c) -> skip_inv w -> skip_inv (counting w c).
Proof.
  intros Hbd [Hc Hs Ha Hk Hl Ho Hj Hb Hp].
  assert (Hge : forall c', w_count w c' <= w_count (counting w c) c') by (intros c'; cbn; case_decide; lia).
  constructor; try done.
  - intros c'. specialize (Hbd c'). cbn [counting w_r Increment counters w_count] in *. rewrite field_of_fields, Hc.
    case_decide; [|done]. apply u32_small. specialize (Hs c'). lia.
  - intros c'. specialize (Hs c'). specialize (Hge c'). cbn [counting w_r Increment sent]. lia.
  - unfold phase_ok in *. cbn [counting w_phase w_r Increment sent sample]. destruct (w_phase w) as [|base loads|base total delta n|base n].
    + done.
    + destruct Hp as [Hp1 Hp2]. split; [intros c'; specialize (Hp1 c'); specialize (Hge c'); cbn [counting w_count] in *; lia|].
      intros i c' Hi Hlt. specialize (Hp2 i c' Hi Hlt). specialize (Hge c'). cbn [counting w_count] in *. lia.
    + destruct Hp as (H1 & H2 & H3 & Hp). split_and!; try done. intros c'. specialize (Hp c'). specialize (Hge c'). cbn [counting w_count] in *. lia.
    + done.
Qed.

Lemma inv_sample w h : is_hash h -> skip_inv w -> skip_inv (sampling w h).
Proof.
  intros Hh Hi. destruct Hi as [Hc Hs Ha [Hk1 Hk2] Hl Ho Hj Hb Hp].
  unfold sampling, sampleSkippedKey. cbv zeta. destruct (length (sample (w_r w)) <? skipSampleMax)%nat eqn:E; bool2prop.
  - constructor; cbn [w_r w_phase w_now w_bg w_count w_kept w_acked w_log w_lost counters sent sample inFlight]; try done.
    + split; cbn; [rewrite length_app; cbn; lia|]. apply Forall_app. split; [done|]. repeat constructor; cbn; [apply Hh|apply Hh|lia].
    + intros Hz. rewrite length_app. cbn [length]. specialize (Hj Hz). lia.
    + unfold phase_ok in *. cbn. destruct (w_phase w); try done; rewrite length_app; cbn [length].
      * destruct Hp as (? & ? & ? & ?). rewrite take_app_le by done. split_and!; (done || lia).
      * intuition lia.
  - constructor; try done. intros Hz. specialize (Hj Hz). cbn [w_log w_r w_phase w_kept]. lia.
Qed.


Lemma inv_phase w r p : skip_inv w -> counters r = counters (w_r w) -> sent r = sent (w_r w) -> sample r = sample (w_r w) ->
  inFlight r = inFlight (w_r w) -> clearing p = clearing (w_phase w) -> phase_ok (with_r w r p) -> skip_inv (with_r w r p).
Proof.
  intros [Hc Hs Ha Hk Hl Ho Hj Hb Hp] Ec Es Ek Eb Ecl Hph.
  constructor; cbn [with_r w_r w_phase w_now w_bg w_count w_kept w_acked w_log w_lost]; rewrite ?Ec, ?Es, ?Ek, ?Eb, ?Ecl; try done.
  unfold sample_ok in *. by rewrite Ek.
Qed.

(** The totals of a read that is over. *)
Lemma totals_ok w base loads : skip_inv w -> w_phase w = FReading base loads -> length loads = length skipFields ->
  forall c, base c <= field c (skipTotals loads) <= w_count w c /\ 0 <= field c (sent (w_r w)) <= field c (skipTotals loads).
Proof.
  intros Hi Hp Hl c. destruct (skipFields_all c) as (i & Hc & Hlt). rewrite (field_totals c i) by done.
  pose proof (i_phase _ Hi) as Hph. unfold phase_ok in Hph. rewrite Hp in Hph. destruct Hph as [_ Hph].
  specialize (Hph i c Hc). rewrite Hl in Hph. specialize (Hph Hlt). pose proof (i_sent _ Hi c). lia.
Qed.

Lemma inv_load w base loads c : skip_inv w -> w_phase w = FReading base loads -> skipFields !! length loads = Some c ->
  skip_inv (with_r w (w_r w) (FReading base (loads ++ [field c (counters (w_r w))]))).
Proof.
  intros Hi Hp Hc. apply inv_phase; try done; [by rewrite Hp|].
  pose proof (i_phase _ Hi) as Hph. unfold phase_ok in Hph |- *. rewrite Hp in Hph. cbn [with_r w_phase w_count w_r]. destruct Hph as [Hph1 Hph2].
  split; [done|]. intros i c' Hi' Hlt. rewrite length_app in Hlt. cbn in Hlt.
  destruct (decide (i = length loads)) as [->|Hne].
  - simplify_eq. rewrite nth_middle, (i_counts _ Hi). pose proof (i_sent _ Hi c). specialize (Hph1 c). lia.
  - rewrite app_nth1 by lia. apply Hph2; [done|lia].
Qed.

Lemma inv_nothing w base loads : skip_bounded w -> skip_inv w -> w_phase w = FReading base loads -> length loads = length skipFields ->
  flush_report (w_now w) (skipTotals loads) (w_r w) = None -> skip_inv (acking w (w_r w) base).
Proof.
  intros Hbd Hi Hp Hl Hr. pose proof (totals_ok _ _ _ Hi Hp Hl) as Ht.
  pose proof (flush_spec (w_now w) (skipTotals loads) (w_r w)) as Hf. rewrite Hr in Hf.
  destruct Hi as [Hc Hs Ha Hk Hlg Ho Hj Hb Hph]. constructor; try done; cbn [acking w_r w_phase w_acked w_lost w_log w_kept].
  - intros c. rewrite <- Hf; [apply Ht|apply Ht| |done]. intros c'. specialize (Ht c'). specialize (Hbd c'). lia.
  - intros Hz. specialize (Hj Hz). rewrite Hp in Hj. exact Hj.
Qed.

Lemma inv_send w base loads delta sampled : skip_bounded w -> skip_inv w -> w_phase w = FReading base loads -> length loads = length skipFields ->
  flush_report (w_now w) (skipTotals loads) (w_r w) = Some (delta, sampled) ->
  skip_inv (with_r w (w_r w) (FSending base (skipTotals loads) delta sampled)).
Proof.
  intros Hbd Hi Hp Hl Hr. pose proof (totals_ok _ _ _ Hi Hp Hl) as Ht.
  pose proof (flush_spec (w_now w) (skipTotals loads) (w_r w)) as Hf. rewrite Hr in Hf.
  destruct Hf as (Hwf & Hd & Hn & Hn'); [apply Ht| |apply i_sample; done|].
  { intros c'. specialize (Ht c'). specialize (Hbd c'). lia. }
  apply inv_phase; try done; [by rewrite Hp|]. unfold phase_ok. cbn [with_r w_phase w_r w_count].
  split_and!; [done|by rewrite Hn', firstn_all|lia|]. intros c. split; [apply Ht|apply Hd].
Qed.

Lemma inv_answer w base total delta sampled env now module (s : Storage) e resp evs s' e' : skip_inv w -> w_phase w = FSending base total delta sampled ->
  handleSkipReport env now module (posted delta) (Some s) e = (resp, evs, s', e') ->
  skip_inv (answered (logging w evs 0) base total sampled (rs_status resp)) /\ skip_inv (with_r (logging w evs 1) (w_r w) FIdle).
Proof.
  intros [Hc Hs Ha Hk Hl Ho Hj Hb Hph] Hp Hh. unfold phase_ok in Hph. rewrite Hp in Hph. destruct Hph as (Hwf & Hsk & Hn & Hph).
  rewrite posted_received in Hh by done. apply handle_valid in Hh as (Hst & Hju & Had); [|by apply report_valid].
  cbn [received sr_report] in *. rewrite Hsk, length_map, length_take_le in Hju by done. unfold answered. rewrite Hst. change (outcome_of 204) with Accepted. rewrite Hp in Hj. cbn [clearing] in Hj.
  assert (Hpos : forall c, 0 <= field c delta) by (intros c; apply Hwf).
  split; constructor; cbn [with_r logging w_r w_phase w_now w_bg w_count w_kept w_acked w_log w_lost accept counters sent sample inFlight]; try done.
  - intros c. specialize (Hph c). specialize (Hs c). specialize (Hpos c). lia.
  - intros c. specialize (Hph c). specialize (Ha c). specialize (Hpos c). lia.
  - intros c. rewrite added_app, Had. specialize (Hph c). specialize (Hl c). lia.
  - intros Hz c. rewrite added_app, Had, Ho by lia. specialize (Hph c). lia.
  - intros Hz. rewrite judged_app, Hju. specialize (Hj ltac:(lia)). cbn [clearing]. lia.
  - split; [done|]. cbn. intros c. specialize (Hph c). lia.
  - intros c. rewrite added_app, Had. specialize (Hl c). specialize (Hpos c). lia.
  - lia.
  - lia.
Qed.

Lemma inv_clear w base sampled r : skip_inv w -> w_phase w = FClearing base sampled -> clearSample sampled (w_r w) = Some r -> skip_inv (acking w r base).
Proof.
  intros [Hc Hs Ha [Hk1 Hk2] Hl Ho Hj Hb Hph] Hp Hr. unfold phase_ok in Hph. rewrite Hp in Hph, Hj. destruct Hph as [Hn Hph].
  unfold clearSample in Hr. rewrite (proj2 (Nat.leb_le _ _) Hn) in Hr. injection Hr as <-.
  constructor; cbn [acking w_r w_phase w_now w_bg w_count w_kept w_acked w_log w_lost counters sent sample inFlight]; try done.
  - split; cbn [sample]; [rewrite length_drop; lia|]. by apply Forall_drop.
  - intros Hz. rewrite length_drop. specialize (Hj Hz). cbn [clearing] in *. lia.
Qed.

Lemma inv_step w w' : skip_bounded w' -> skip_inv w -> skip_step w w' -> skip_inv w'.
Proof.
  intros Hbd' Hi Hst. assert (Hbd : skip_bounded w) by (intros c; pose proof (count_mono _ _ c Hst); specialize (Hbd' c); lia).
  destruct Hst as [now Hn|c|h Hh|last started r Hn|Hp|base loads c Hp Hc|base loads Hp Hl Hr|base loads delta n Hp Hl Hr
    |base total delta n env now module s e resp evs s' e' Hp Hh|base total delta n env now module s e resp evs s' e' Hp Hh
    |base total delta n Hp|base total delta n status Hp Hne|base n r Hp Hr|bg Hg].
  - by apply inv_tick.
  - by apply inv_count.
  - by apply inv_sample.
  - destruct (noteSkip_frame _ _ _ _ _ Hn) as (? & ? & ? & Hf). apply inv_bg; try done. rewrite (i_bg _ Hi).
    destruct started; [destruct Hf as [-> ->]; done|]. rewrite Hf. lia.
  - apply inv_phase; try done; [by rewrite Hp|]. split; cbn; [intros; lia|intros; lia].
  - by apply inv_load.
  - by eapply inv_nothing.
  - by eapply inv_send.
  - by eapply (proj1 (inv_answer _ _ _ _ _ _ _ _ _ _ _ _ _ _ Hi Hp Hh)).
  - by eapply (proj2 (inv_answer _ _ _ _ _ _ _ _ _ _ _ _ _ _ Hi Hp Hh)).
  - apply inv_phase; try done. by rewrite Hp.
  - unfold answered. destruct (outcome_of status) eqn:E; [done|apply inv_phase; try done; by rewrite Hp|apply inv_phase; try done; by rewrite Hp].
  - by eapply inv_clear.
  - apply inv_bg; try done. cbn. pose proof (i_bg _ Hi) as Hb. rewrite Hg in Hb. destruct (inFlight (w_r w)); [by injection Hb|done].
Qed.

Lemma skips_inv w : skips_reachable w -> skip_bounded w -> skip_inv w.
Proof.
  induction 1 as [now|w w' _ IH Hst]; intros Hbd; [apply inv_init|]. eapply inv_step; [done| |done].
  apply IH. intros c. pose proof (count_mono _ _ c Hst). specialize (Hbd c). lia.
Qed.

(** C22. The reports count every skip, and no skip twice unless the network loses an answer.  In every state
    of client and server, whatever is skipped, sampled, started or lost while a
    report is under way, and as long as no counter has wrapped: what a
    [FlushSkips] that answered true vouched for is recorded as sent, no more is
    recorded as sent than was skipped, and the server's counter of that kind is
    at least what is recorded as sent; if no answer to an accepted report was
    lost it is exactly that, and between reports the verdicts given plus the keys
    still held are the keys that entered the sample. *)
Theorem skips_counted_once w : skips_reachable w -> skip_bounded w ->
  (forall c, w_acked w c <= field c (sent (w_r w)) <= w_count w c /\ field c (sent (w_r w)) <= added (metric_of c) (w_log w)) /\
  (w_lost w = 0%nat -> (forall c, added (metric_of c) (w_log w) = field c (sent (w_r w))) /\
    (w_phase w = FIdle -> judged (w_log w) + Z.of_nat (length (sample (w_r w))) = w_kept w)).
Proof.
  intros Hr Hb. destruct (skips_inv w Hr Hb) as [Hc Hs Ha Hk Hl Ho Hj _ _]. split.
  - intros c. specialize (Hs c). specialize (Ha c). specialize (Hl c). lia.
  - intros Hz. split; [by apply Ho|]. intros Hp. specialize (Hj Hz). rewrite Hp in Hj. cbn [clearing] in Hj. lia.
Qed.

(** Every report a client posts is accepted by the server: it carries the keys at the front of the sample, its
    text is under the limit of the body, the handler answers 204 whatever the
    store holds, and afterwards the client drops the keys the report carried
    without slicing past its sample.  At most one background send is under
    way. *)
Theorem skip_reports_accepted w : skips_reachable w -> skip_bounded w ->
  (w_bg w <= 1)%nat /\
  match w_phase w with
  | FSending _ _ delta sampled =>
      SkippedKeys delta = map (fun s => hex_encode (sk_hash s)) (take sampled (sample (w_r w))) /\
      Z.of_nat (length (json_report delta)) <= maxSkipReportBytes /\
      forall env now module (s : Storage) e, rs_status (handleSkipReport env now module (posted delta) (Some s) e).1.1.1 = 204
  | FClearing _ sampled => clearSample sampled (w_r w) <> None
  | _ => True
  end.
Proof.
  intros Hr Hb. destruct (skips_inv w Hr Hb) as [_ _ _ _ _ _ _ Hbg Hph]. split; [rewrite Hbg; case_match; lia|].
  unfold phase_ok in Hph. destruct (w_phase w) as [|base loads|base total delta n|base n]; try done.
  - destruct Hph as (Hwf & Hsk & _). split; [done|]. split; [by apply report_fits|]. intros env now module s e. rewrite posted_received by done.
    destruct (handleSkipReport _ _ _ _ _ _) as [[[resp evs] s'] e'] eqn:E. apply handle_valid in E; [apply E|by apply report_valid].
  - destruct Hph as [Hn _]. unfold clearSample. by rewrite (proj2 (Nat.leb_le _ _) Hn).
Qed.

(** ** The verdict on a sampled key *)

Lemma moment_exact now ago : 0 <= ago <= 9223372036 -> moment_of now ago = now - ago * 10 ^ 9.
Proof. intros Ha. unfold moment_of. rewrite (i64_small (- ago)), i64_small by lia. lia. Qed.

(** A key is counted as stored later exactly when the index lists it and the
    object was written after the moment of the skip. *)
Theorem stored_later_exact env now k ago (s : Storage) : 0 <= ago <= 9223372036 ->
  (classifySkippedKey env now k (Some ago) s).1 = str "stored_later" <->
  (exists h idx, extractActionHash (gbciKeyPrefix ++ k) = Some h /\ sIndex s = Some idx /\ Index.Contains idx h = true) /\
  (exists f, re_stat env = true /\ files s !! keyToPath (gbciKeyPrefix ++ k) = Some f /\ now - ago * 10 ^ 9 < modNano f).
Proof.
  intros Ha. unfold classifySkippedKey, absentKeyReason, storedAfter, Storage.Stat. cbv zeta. rewrite (moment_exact now ago Ha).
  set (key := gbciKeyPrefix ++ k).
  destruct (match extractActionHash key, sIndex s with Some h, Some idx => Index.Contains idx h | _, _ => false end) eqn:Eadv.
  - change (bytes_eqb missAdvertised missAdvertised) with true. cbv iota.
    destruct (extractActionHash key) as [h|]; [|done]. destruct (sIndex s) as [idx|]; [|done].
    destruct (re_stat env); cbn [negb]; [|split; [done|intros [_ (f & ? & _)]; done]].
    destruct (files s !! keyToPath key) as [f|] eqn:Ef; [|split; [done|intros [_ (f & _ & ? & _)]; done]].
    destruct (loadMetadata key f s) as [m s1]. cbn [om_modNano]. destruct (Z.ltb_spec (now - ago * 10 ^ 9) (modNano f)); cbn [fst].
    + split; [intros _|done]. split; eauto 10.
    + split; [done|]. intros [_ (f' & _ & Hf & Hlt)]. injection Hf as <-. lia.
  - assert (Hno : ~ exists h idx, extractActionHash key = Some h /\ sIndex s = Some idx /\ Index.Contains idx h = true).
    { intros (h & idx & E1 & E2 & E3). rewrite E1, E2, E3 in Eadv. done. }
    destruct (wasEvicted key s) as [gone s1]. destruct gone; cbn [fst];
      (split; [intros E; vm_compute in E; discriminate E|intros [Hy _]; by destruct (Hno Hy)]).
Qed.
End together.

(** ** A concrete run: two skips, one sampled, are reported and accepted *)

Definition skipLoads : list Z := [1; 0; 0; 0; 1; 0; 0; 0; 0].

Definition skippedTwice : world := counting (sampling (counting (w_init 5) FNotInIndex) zero_hash) FPutKnown.

Definition demoBase : skipField -> Z := w_count skippedTwice.

Definition demoDelta : SkipReport := of_fields (fun c => field c (skipTotals skipLoads)) [hex_encode zero_hash] [0].

Definition skipSending : world := with_r skippedTwice (w_r skippedTwice) (FSending demoBase (skipTotals skipLoads) demoDelta 1).

Definition demoHandled : response * list (metric * Z) * option DemoStorage * exactProjects :=
  handleSkipReport (fun _ => ReadEnv true true) 7 (str "proj") (posted demoDelta) (Some (demoStore noWriteOnce)) ∅.

Definition skipClearing : world := answered (logging skipSending demoHandled.1.1.2 0) demoBase (skipTotals skipLoads) 1 204.

Definition skipDone : world := acking skipClearing (accept (skipTotals skipLoads) (w_r (counting (counting (w_init 5) FNotInIndex) FPutKnown))) demoBase.

#[local] Abbreviation demo_reachable := (skips_reachable (F := room_file) (MC := MetaLRU) (UC := MemoLRU) (DC := DigestLRU)).

Lemma sending_reachable : demo_reachable skipSending.
Proof.
  assert (Hr : demo_reachable skippedTwice).
  { eapply sr_step; [eapply sr_step; [eapply sr_step; [apply (sr_start 5)|apply (st_count _ FNotInIndex)]|apply (st_sample _ zero_hash)]|apply st_count].
    split; [reflexivity|]. unfold zero_hash. apply Forall_replicate. unfold is_byte. lia. }
  assert (Hloads : forall n, (n <= 9)%nat -> demo_reachable (with_r skippedTwice (w_r skippedTwice) (FReading demoBase (take n skipLoads)))).
  { induction n as [|n IH]; intros Hn; [eapply sr_step; [exact Hr|]; by apply (st_begin skippedTwice)|].
    eapply sr_step; [apply IH; lia|]. destruct (skipFields !! n) as [c|] eqn:Ec; [|apply lookup_ge_None in Ec; cbn in Ec; lia].
    rewrite (take_S_r skipLoads n (field c (counters (w_r skippedTwice)))).
    - apply (st_load (with_r skippedTwice (w_r skippedTwice) (FReading demoBase (take n skipLoads))) demoBase (take n skipLoads)); [done|].
      rewrite length_take_le by (cbn; lia). exact Ec.
    - do 9 (destruct n as [|n]; [injection Ec as <-; reflexivity|]). discriminate. }
  eapply sr_step; [apply (Hloads 9%nat); lia|].
  apply (st_send (with_r skippedTwice (w_r skippedTwice) (FReading demoBase skipLoads)) demoBase skipLoads demoDelta 1); [done|done|].
  vm_compute. reflexivity.
Qed.

Lemma done_reachable : demo_reachable skipDone.
Proof.
  eapply sr_step; [eapply sr_step; [exact sending_reachable|]|].
  - apply (st_answer skipSending demoBase (skipTotals skipLoads) demoDelta 1 (fun _ => ReadEnv true true) 7 (str "proj") (demoStore noWriteOnce) ∅
      demoHandled.1.1.1 demoHandled.1.1.2 demoHandled.1.2 demoHandled.2); [done|]. fold demoHandled. by destruct demoHandled as [[[? ?] ?] ?].
  - change (rs_status demoHandled.1.1.1) with 204. fold skipClearing. apply (st_clear skipClearing demoBase 1); [done|]. reflexivity.
Qed.

Lemma demo_bounded w : w_count w = demoBase -> skip_bounded w.
Proof. intros E c. rewrite E. unfold demoBase. destruct c; vm_compute; reflexivity. Qed.

Lemma skips_counted_once_witness :
  w_acked skipDone FNotInIndex = 1 /\ field FNotInIndex (sent (w_r skipDone)) = 1 /\
  added (ClientSkips (str "get") (str "not_in_index")) (w_log skipDone) = 1 /\ judged (w_log skipDone) = 1.
Proof.
  destruct (skips_counted_once skipDone done_reachable (demo_bounded skipDone eq_refl)) as [Hle Hex].
  destruct Hex as [Hc Hj]; [reflexivity|]. specialize (Hj eq_refl). pose proof (Hc FNotInIndex) as Hn.
  split; [reflexivity|]. split; [reflexivity|]. split; [exact Hn|]. exact Hj.
Defined.

Lemma skip_reports_accepted_witness :
  Z.of_nat (length (json_report demoDelta)) <= maxSkipReportBytes /\ SkippedKeys demoDelta = [hex_encode zero_hash] /\
  rs_status demoHandled.1.1.1 = 204.
Proof.
  destruct (skip_reports_accepted skipSending sending_reachable (demo_bounded skipSending eq_refl)) as [_ Hp].
  destruct Hp as (Hk & Hl & Hh). split; [exact Hl|]. split; [exact Hk|]. apply Hh.
Defined.

(** A counter of [uint32] that wraps makes the difference of [uint64] larger
    than the server takes: the report is refused, and so is every later one
    until the counter has passed what was sent. *)
Example wrapped_report_refused :
  let r := MkSkipReporter (of_fields (fun _ => 5) [] []) (of_fields (fun _ => 2 ^ 32 - 1) [] []) false 0 false [] in
  match flush_report 0 (counters r) r with Some (delta, _) => valid (received delta) = false | None => False end.
Proof. vm_compute. reflexivity. Qed.

(** An age the server takes for valid can put the skip in the future. *)
Example moment_wraps : valid (received (of_fields (fun _ => 0) [hex_encode zero_hash] [9223372037])) = true /\ 0 < moment_of 0 9223372037.
Proof. vm_compute. split; reflexivity. Qed.
