(* ===== verification/Config.v ===== *)
(** * Configuration

    [config.go] and the command line of [main.go]: what a configuration file has
    to say before the server starts on it, the defaults, and sizes such as
    "50 GiB".  The file comes decoded ([encoding/json] and the text of durations
    are left out); the environment is an argument. *)

From Stdlib Require Import ZArith Lia List Bool String.
From stdpp Require Import base gmap list.
From S2P Require Import Prelude Strconv Base64 IndexV2 Gbci Index Storage Handlers Server.

(** ** Values that may come from the environment *)

(** A configuration value as [json.Unmarshal] sees it. *)
Inductive cfgValue := CText (s : bytes) | CNull | CObject (type name : bytes) | COther.

Record ConfigString := MkConfigString { Value : bytes; EnvVar : bytes }.

Inductive configErr :=
  | NotStringOrEnv | BadObjectType | EmptyEnvName | Unreadable
  | BadAction | BadNotification | BadLogMode | NoBucket | NoDataDir | BadHashBits | NegativeMaxAge | BadEnvMaxBytes | NegativeMaxBytes
  | CredentialsWithoutAuth | NoCredentials | EmptyCredential (i : nat).

(** [ConfigString.UnmarshalJSON]: null leaves the empty string. *)
Definition unmarshalConfigString (getenv : bytes -> bytes) (v : cfgValue) : ConfigString + configErr :=
  match v with
  | CText s => inl (MkConfigString s [])
  | CNull => inl (MkConfigString [] [])
  | COther => inr NotStringOrEnv
  | CObject type name =>
      if negb (bytes_eqb type (str "envvar")) then inr BadObjectType
      else if bytes_eqb name [] then inr EmptyEnvName
      else inl (MkConfigString (getenv name) name)
  end.

(** ** Byte sizes *)

(** [strings.ToUpper].  Two letters beyond ASCII have an ASCII upper case; the
    others stay beyond ASCII, where no size has a character. *)
Fixpoint toUpper (s : bytes) : bytes :=
  match s with
  | [] => []
  | 0xC4 :: 0xB1 :: s' => 73 :: toUpper s'
  | 0xC5 :: 0xBF :: s' => 83 :: toUpper s'
  | c :: s' => (if (97 <=? c) && (c <=? 122) then c - 32 else c) :: toUpper s'
  end.

Definition cutSuffix (s suffix : bytes) : option bytes :=
  if has_prefix (rev s) (rev suffix) then Some (take (length s - length suffix) s) else None.

Definition byteSizeUnits : list (bytes * Z) :=
  [(str "KIB", Z.shiftl 1 10); (str "MIB", Z.shiftl 1 20); (str "GIB", Z.shiftl 1 30); (str "TIB", Z.shiftl 1 40);
   (str "KB", Z.shiftl 1 10); (str "MB", Z.shiftl 1 20); (str "GB", Z.shiftl 1 30); (str "TB", Z.shiftl 1 40);
   (str "K", Z.shiftl 1 10); (str "M", Z.shiftl 1 20); (str "G", Z.shiftl 1 30); (str "T", Z.shiftl 1 40);
   (str "B", 1)].

(** The loop over the units: the first suffix that fits. *)
Fixpoint cut_unit (units : list (bytes * Z)) (up : bytes) : bytes * Z :=
  match units with
  | [] => (up, 1)
  | (suffix, mult) :: units => match cutSuffix up suffix with Some rest => (rest, mult) | None => cut_unit units up end
  end.

Inductive sizeErr := NotASize | NegativeSize | SizeOverflow.

Definition parseByteSize (s : bytes) : Z + sizeErr :=
  let up := toUpper (trimSpace s) in
  let '(up, mult) := cut_unit byteSizeUnits up in
  let up := trimSpace up in
  match parseInt up with
  | None => inr NotASize
  | Some n =>
      if n <? 0 then inr NegativeSize
      else if (1 <? mult) && (Z.quot (Z.shiftl 1 62) mult <? n) then inr SizeOverflow
      else inl (i64 (n * mult))
  end.

Definition maxBytesEnvVar : bytes := str "CACHE_MAX_BYTES".
Definition defaultEvictionMaxBytes : Z := Z.shiftl 50 30.

Definition envMaxBytes (getenv : bytes -> bytes) : Z + configErr :=
  let raw := trimSpace (getenv maxBytesEnvVar) in
  if bytes_eqb raw [] then inl defaultEvictionMaxBytes
  else match parseByteSize raw with inl n => inl n | inr _ => inr BadEnvMaxBytes end.

(** ** The configuration *)

Definition defaultMaxConcurrentRequests : Z := 128.
Definition defaultMaxObjectBytes : Z := Z.shiftl 1 30.
Definition defaultEvictionInterval : Z := 24 * 3600 * 10 ^ 9.
Definition defaultDashboardListen : bytes := str ":9002".
Definition logModeNormal : bytes := str "normal".
Definition logModeVerbose : bytes := str "verbose".

Record EvictionConfig := MkEvictionConfig { ev_MaxAge : Z; ev_MaxBytes : option Z; ev_Interval : Z }.

Definition AgeLimit (e : EvictionConfig) : Z := ev_MaxAge e.
Definition SizeLimit (e : EvictionConfig) : Z := match ev_MaxBytes e with None => 0 | Some n => n end.
Definition Enabled (e : EvictionConfig) : bool := (0 <? AgeLimit e) || (0 <? SizeLimit e).

(** [Config] with every field; [Server.Config] has the ones the front reads. *)
Record FullConfig := MkFullConfig {
  cf_Listen : bytes; cf_MetricsListen : bytes; cf_Bucket : bytes; cf_DataDir : bytes; cf_WriteOnce : WriteOnceConfig;
  cf_DisableAuth : bool; cf_Credentials : list Credential; cf_LogMode : bytes; cf_DashboardListen : option bytes;
  cf_MaxConcurrentRequests : Z; cf_IndexBlobInterval : option Z; cf_IndexHashBits : Z; cf_MaxObjectBytes : Z;
  cf_Prefetch : option bool; cf_Eviction : EvictionConfig
}.

Definition front (c : FullConfig) : Config := MkConfig (cf_Bucket c) (cf_DisableAuth c) (cf_Credentials c) (cf_Prefetch c).

Definition DashboardListenAddr (c : FullConfig) : bytes := default defaultDashboardListen (cf_DashboardListen c).

Definition or_default (s d : bytes) : bytes := if bytes_eqb s [] then d else s.
Definition positive_or (n d : Z) : Z := if n <=? 0 then d else n.

(** The first credential with an empty half. *)
Fixpoint emptyCredential (i : nat) (cs : list Credential) : option nat :=
  match cs with
  | [] => None
  | c :: cs => if bytes_eqb (Username c) [] || bytes_eqb (Password c) [] then Some i else emptyCredential (S i) cs
  end.

Definition check_auth (disableAuth : bool) (cs : list Credential) : option configErr :=
  if disableAuth then (if negb (length cs =? 0)%nat then Some CredentialsWithoutAuth else None)
  else if (length cs =? 0)%nat then Some NoCredentials
  else EmptyCredential <$> emptyCredential 0 cs.

(** The budget: the file's, or else the environment's. *)
Definition resolve_budget (getenv : bytes -> bytes) (e : EvictionConfig) : Z + configErr :=
  match ev_MaxBytes e with Some n => inl n | None => envMaxBytes getenv end.

Definition LoadConfig (getenv : bytes -> bytes) (decoded : option FullConfig) : FullConfig + configErr :=
  match decoded with
  | None => inr Unreadable
  | Some c =>
      let action := or_default (Action (cf_WriteOnce c)) (str "allow") in
      let notification := or_default (Notification (cf_WriteOnce c)) (str "never") in
      let logMode := or_default (cf_LogMode c) logModeNormal in
      let bits := cf_IndexHashBits c in
      let e := cf_Eviction c in
      if negb (bytes_eqb action (str "allow") || bytes_eqb action (str "deny")) then inr BadAction
      else if negb (bytes_eqb notification (str "never") || bytes_eqb notification (str "always") || bytes_eqb notification (str "content_differs"))
        then inr BadNotification
      else if negb (bytes_eqb logMode logModeNormal || bytes_eqb logMode logModeVerbose) then inr BadLogMode
      else if bytes_eqb (cf_Bucket c) [] then inr NoBucket
      else if bytes_eqb (cf_DataDir c) [] then inr NoDataDir
      else if negb (bits =? 0) && ((bits <? indexHashBitsMin) || (indexHashBitsMax <? bits)) then inr BadHashBits
      else if AgeLimit e <? 0 then inr NegativeMaxAge
      else match resolve_budget getenv e with
      | inr err => inr err
      | inl n =>
          if n <? 0 then inr NegativeMaxBytes
          else match check_auth (cf_DisableAuth c) (cf_Credentials c) with
          | Some err => inr err
          | None =>
              inl (MkFullConfig (or_default (cf_Listen c) (str ":9000")) (cf_MetricsListen c) (cf_Bucket c) (cf_DataDir c) (WriteOnce action notification)
                (cf_DisableAuth c) (cf_Credentials c) logMode (cf_DashboardListen c) (positive_or (cf_MaxConcurrentRequests c) defaultMaxConcurrentRequests)
                (cf_IndexBlobInterval c) bits (positive_or (cf_MaxObjectBytes c) defaultMaxObjectBytes) (cf_Prefetch c)
                (MkEvictionConfig (ev_MaxAge e) (Some n) (positive_or (ev_Interval e) defaultEvictionInterval)))
          end
      end
  end.

(** The flags of [run] that override the file; an unset one is empty. *)
Record flags := MkFlags { fl_listen : bytes; fl_bucket : bytes; fl_dataDir : bytes; fl_metricsListen : bytes; fl_dashboardListen : bytes; fl_logMode : bytes }.

Definition override (flag v : bytes) : bytes := if bytes_eqb flag [] then v else flag.

(** [None] is the refused log mode. *)
Definition apply_flags (f : flags) (c : FullConfig) : option FullConfig :=
  let dash := if bytes_eqb (fl_dashboardListen f) [] then cf_DashboardListen c
              else Some (if bytes_eqb (fl_dashboardListen f) (str "off") then [] else fl_dashboardListen f) in
  if negb (bytes_eqb (fl_logMode f) []) && negb (bytes_eqb (fl_logMode f) logModeNormal || bytes_eqb (fl_logMode f) logModeVerbose) then None
  else Some (MkFullConfig (override (fl_listen f) (cf_Listen c)) (override (fl_metricsListen f) (cf_MetricsListen c)) (override (fl_bucket f) (cf_Bucket c))
    (override (fl_dataDir f) (cf_DataDir c)) (cf_WriteOnce c) (cf_DisableAuth c) (cf_Credentials c) (override (fl_logMode f) (cf_LogMode c)) dash
    (cf_MaxConcurrentRequests c) (cf_IndexBlobInterval c) (cf_IndexHashBits c) (cf_MaxObjectBytes c) (cf_Prefetch c) (cf_Eviction c)).

(** The index serves the configured width ([run]). *)
Definition configure_index (c : FullConfig) (idx : Index) : Index :=
  if negb (cf_IndexHashBits c =? 0) then SetHashBits (cf_IndexHashBits c) idx else idx.

(** ** What an accepted configuration promises *)

Record config_ok (c : FullConfig) : Prop := {
  ok_names : cf_Listen c <> [] /\ cf_Bucket c <> [] /\ cf_DataDir c <> [];
  ok_action : Action (cf_WriteOnce c) = str "allow" \/ Action (cf_WriteOnce c) = str "deny";
  ok_notification : Notification (cf_WriteOnce c) ∈ [str "never"; str "always"; str "content_differs"];
  ok_log : cf_LogMode c = logModeNormal \/ cf_LogMode c = logModeVerbose;
  ok_requests : 0 < cf_MaxConcurrentRequests c;
  ok_object : 0 < cf_MaxObjectBytes c;
  ok_form : forall idx, hashBits idx = 0 -> form_ok (FormV2 (configure_index c idx));
  ok_age : 0 <= AgeLimit (cf_Eviction c);
  ok_budget : 0 <= SizeLimit (cf_Eviction c) /\ ev_MaxBytes (cf_Eviction c) <> None;
  ok_interval : 0 < ev_Interval (cf_Eviction c);
  ok_auth : if cf_DisableAuth c then cf_Credentials c = []
            else cf_Credentials c <> [] /\ Forall (fun k => Username k <> [] /\ Password k <> []) (cf_Credentials c)
}.

Lemma bytes_eqb_false a b : bytes_eqb a b = false <-> a <> b.
Proof. rewrite <- not_true_iff_false, bytes_eqb_eq. done. Qed.

Lemma or_default_nonempty s d : d <> [] -> or_default s d <> [].
Proof. intros Hd. unfold or_default. destruct (bytes_eqb s []) eqn:E; [done|]. by apply bytes_eqb_false. Qed.

Lemma or_default_idem s d : or_default (or_default s d) d = or_default s d.
Proof. unfold or_default at 1. destruct (bytes_eqb (or_default s d) []) eqn:E; [|done]. apply bytes_eqb_eq in E. unfold or_default in *. destruct (bytes_eqb s []) eqn:Es; [done|]. by apply bytes_eqb_false in Es. Qed.

Lemma positive_or_pos n d : 0 < d -> 0 < positive_or n d.
Proof. intros. unfold positive_or. destruct (Z.leb_spec n 0); lia. Qed.

Lemma positive_or_idem n d : 0 < d -> positive_or (positive_or n d) d = positive_or n d.
Proof. intros Hd. pose proof (positive_or_pos n d Hd). unfold positive_or at 1. destruct (Z.leb_spec (positive_or n d) 0); lia. Qed.

Lemma emptyCredential_none cs : forall i, emptyCredential i cs = None -> Forall (fun k => Username k <> [] /\ Password k <> []) cs.
Proof.
  induction cs as [|c cs IH]; intros i Hc; [constructor|]. cbn [emptyCredential] in Hc.
  destruct (bytes_eqb (Username c) [] || bytes_eqb (Password c) []) eqn:E; [done|]. apply orb_false_iff in E as [E1 E2].
  constructor; [|by eapply IH]. by rewrite <- !bytes_eqb_false.
Qed.

Lemma check_auth_ok d cs : check_auth d cs = None ->
  if d then cs = [] else cs <> [] /\ Forall (fun k => Username k <> [] /\ Password k <> []) cs.
Proof.
  unfold check_auth. destruct d; [by destruct cs|]. destruct cs as [|c cs]; [done|]. cbn [length Nat.eqb].
  destruct (emptyCredential 0 (c :: cs)) eqn:E; [done|]. intros _. split; [done|]. by eapply emptyCredential_none.
Qed.

(** What the checks of [LoadConfig] leave. *)
Lemma load_inv getenv decoded c : LoadConfig getenv decoded = inl c -> config_ok c /\ LoadConfig getenv (Some c) = inl c.
Proof.
  destruct decoded as [c0|]; [|done]. cbn [LoadConfig]. cbv zeta. intros Hl.
  destruct (negb _) eqn:Ea in Hl; [done|]. destruct (negb _) eqn:En in Hl; [done|]. destruct (negb (_ || bytes_eqb _ logModeVerbose)) eqn:Em in Hl; [done|].
  destruct (bytes_eqb (cf_Bucket c0) []) eqn:Eb; [done|]. destruct (bytes_eqb (cf_DataDir c0) []) eqn:Ed; [done|].
  destruct (negb (cf_IndexHashBits c0 =? 0) && _) eqn:Eh; [done|]. destruct (AgeLimit (cf_Eviction c0) <? 0) eqn:Eg; [done|].
  destruct (resolve_budget getenv (cf_Eviction c0)) as [n|] eqn:Er; [|done]. destruct (n <? 0) eqn:En0; [done|].
  destruct (check_auth _ _) eqn:Ec; [done|]. injection Hl as <-.
  split.
  - apply negb_false_iff in Ea, En, Em. constructor; cbn.
    + split_and!; [by apply or_default_nonempty|by apply bytes_eqb_false|by apply bytes_eqb_false].
    + rewrite orb_true_iff, !bytes_eqb_eq in Ea. exact Ea.
    + rewrite !orb_true_iff, !bytes_eqb_eq in En. set_solver.
    + rewrite orb_true_iff, !bytes_eqb_eq in Em. exact Em.
    + by apply positive_or_pos.
    + by apply positive_or_pos.
    + intros idx Hz. right. unfold configure_index, FormV2, hashBitsLocked. cbn. split; [done|]. apply andb_false_iff in Eh.
      destruct (Z.eqb_spec (cf_IndexHashBits c0) 0) as [E0|Hne]; cbn [negb] in *.
      * rewrite Hz. cbn. unfold defaultIndexHashBits, indexHashBitsMin, indexHashBitsMax. lia.
      * destruct Eh as [Eh|Eh]; [done|]. bool2prop. cbn. destruct (Z.eqb_spec (cf_IndexHashBits c0) 0); [done|lia].
    + bool2prop. done.
    + bool2prop. done.
    + by apply positive_or_pos.
    + by apply check_auth_ok.
  - cbn [LoadConfig cf_WriteOnce Action Notification cf_LogMode cf_Bucket cf_DataDir cf_IndexHashBits cf_Eviction ev_MaxAge ev_MaxBytes ev_Interval
      cf_DisableAuth cf_Credentials cf_Listen cf_MaxConcurrentRequests cf_MaxObjectBytes AgeLimit resolve_budget]. cbv zeta.
    rewrite !or_default_idem, !positive_or_idem by done. rewrite Ea, En, Em, Eb, Ed, Eh. unfold AgeLimit in Eg. rewrite Eg, En0, Ec. done.
Qed.

Lemma override_nonempty f v : v <> [] -> override f v <> [].
Proof. intros Hv. unfold override. destruct (bytes_eqb f []) eqn:E; [done|]. by apply bytes_eqb_false. Qed.

Lemma flags_ok f c c' : config_ok c -> apply_flags f c = Some c' -> config_ok c' /\ cf_Credentials c' = cf_Credentials c /\ cf_DisableAuth c' = cf_DisableAuth c.
Proof.
  intros [[H1 [H2 H3]] ? ? Hm ? ? Hf ? ? ? ?]. unfold apply_flags. cbv zeta. destruct (_ && _) eqn:E; [done|]. intros [= <-]. split; [|done].
  constructor; cbn; try done.
  - split_and!; by apply override_nonempty.
  - unfold override. destruct (bytes_eqb (fl_logMode f) []) eqn:E0; [done|]. cbn [negb andb] in E. apply negb_false_iff in E.
    rewrite orb_true_iff, !bytes_eqb_eq in E. exact E.
Qed.

(** C21. A server that starts runs on a configuration every component can work with.  Whatever the file, the environment and the flags say, a
    configuration that is accepted has an address, a bucket and a directory, a
    known write-once policy and log mode, positive limits, an index width the
    formats carry, a budget and an interval for eviction, and credentials that
    are all complete unless authentication is switched off; so with it on, a
    request reaches a handler only as one of these users.  Loading what was
    accepted again changes nothing. *)
Theorem accepted_config_works getenv decoded f c c' : LoadConfig getenv decoded = inl c -> apply_flags f c = Some c' ->
  config_ok c' /\ LoadConfig getenv (Some c) = inl c /\
  (cf_DisableAuth c' = false -> forall shuttingDown admitted method path auth user h,
    ServeHTTP (front c') shuttingDown admitted method path auth = Reached user h ->
    user <> [] /\ exists pass, pass <> [] /\ MkCredential user pass ∈ cf_Credentials c).
Proof.
  intros Hl Hf. destruct (load_inv _ _ _ Hl) as [Hok Hag]. destruct (flags_ok _ _ _ Hok Hf) as (Hok' & Hc & _). split_and!; [done|done|].
  intros Hd sd adm method path auth user h. unfold ServeHTTP. repeat case_match; try done. intros [= -> ->].
  assert (Ha : authenticate auth (front c') = Some user) by done.
  apply authenticate_spec in Ha as (enc & p & _ & _ & _ & Hu & Hp & Hin); [|done]. split; [done|]. exists p. rewrite <- Hc. done.
Qed.

(** ** Sizes are read exactly *)

(** Blanks and visible characters. *)
Definition is_plain (c : Z) : Prop := c = 32 \/ is_graph c.

Fixpoint drop_blanks (s : bytes) : bytes := match s with c :: s' => if c =? 32 then drop_blanks s' else s | [] => [] end.

Lemma trim_left_plain s : Forall is_plain s -> forall fuel, (length s <= fuel)%nat -> trim_left fuel s = drop_blanks s.
Proof.
  induction 1 as [|c s Hc Hs IH]; intros fuel Hf; [by destruct fuel|]. cbn in Hf. destruct fuel as [|fuel]; [lia|].
  destruct Hc as [->|Hc].
  - cbn [trim_left]. change (space_len (32 :: s)) with 1%nat. cbv iota. cbn [drop drop_blanks]. rewrite Z.eqb_refl. rewrite drop_0. apply IH. lia.
  - cbn [trim_left]. rewrite space_len_graph by done. cbn [drop_blanks]. unfold is_graph in Hc. destruct (Z.eqb_spec c 32); [lia|done].
Qed.

Lemma drop_blanks_word s c k : Forall is_plain s -> is_graph c -> drop_blanks (s ++ c :: k) <> [].
Proof.
  intros Hs Hc. induction Hs as [|d s Hd _ IH]; cbn [app drop_blanks].
  - unfold is_graph in Hc. destruct (Z.eqb_spec c 32); [lia|done].
  - by case_match.
Qed.

(** A text that starts and ends with a visible character keeps everything but
    the blanks after it. *)
Lemma trimSpace_blanks (c d : Z) (w : bytes) n : is_graph c -> is_graph d -> Forall is_plain w ->
  trimSpace ((c :: w ++ [d]) ++ replicate n 32) = c :: w ++ [d] /\ trimSpace ([c] ++ replicate n 32) = [c].
Proof.
  intros Hc Hd Hw. assert (Hrep : Forall is_plain (replicate n 32)) by (apply Forall_replicate; by left).
  assert (Hend : trim_right (replicate n 32) = []).
  { destruct n as [|n]; [done|]. cbn [replicate trim_right]. change (32 :: replicate n 32) with (replicate (S n) 32).
    rewrite trim_left_plain by (done || (apply Forall_replicate; by left)). assert (drop_blanks (replicate (S n) 32) = []) as ->; [|done].
    clear. induction (S n) as [|m IH]; [done|]. cbn. apply IH. }
  assert (Hone : forall x, is_graph x -> trim_right ([x] ++ replicate n 32) = [x]).
  { intros x Hx. cbn [app trim_right]. rewrite trim_left_plain by (done || (constructor; [by right|done])).
    destruct (drop_blanks (x :: replicate n 32)) eqn:E; [by destruct (drop_blanks_word [] x (replicate n 32) ltac:(constructor) Hx)|].
    cbn [length Nat.eqb]. by rewrite Hend. }
  assert (Hall : forall v, Forall is_plain v -> trim_right ((v ++ [d]) ++ replicate n 32) = v ++ [d]).
  { intros v. induction v as [|x v IH]; intros Hv; [by apply Hone|]. apply Forall_cons in Hv as [Hx Hv]. cbn [app trim_right].
    rewrite trim_left_plain by (done || (constructor; [done|apply Forall_app; split; [apply Forall_app; split; [done|constructor; [by right|constructor]]|done]])).
    rewrite IH by done. destruct (drop_blanks (x :: (v ++ [d]) ++ replicate n 32)) eqn:E; [|done].
    rewrite <- app_assoc in E. by destruct (drop_blanks_word (x :: v) d (replicate n 32) ltac:(by constructor) Hd). }
  split; unfold trimSpace.
  - cbn [app length trim_left]. rewrite space_len_graph by done. apply (Hall (c :: w)). constructor; [by right|done].
  - cbn [app length trim_left]. rewrite space_len_graph by done. by apply Hone.
Qed.

Lemma toUpper_ascii c s : 0 <= c < 128 -> toUpper (c :: s) = (if (97 <=? c) && (c <=? 122) then c - 32 else c) :: toUpper s.
Proof. intros Hc. destruct c as [|[p|p|]|]; try lia; try reflexivity; do 6 (destruct p as [p|p|]; try lia; try reflexivity). Qed.

Lemma toUpper_keep w s : Forall (fun c => 0 <= c < 97) w -> toUpper (w ++ s) = w ++ toUpper s.
Proof.
  induction 1 as [|c w Hc _ IH]; [done|]. cbn [app]. rewrite toUpper_ascii, IH by lia. destruct (Z.leb_spec 97 c); [lia|done].
Qed.

Lemma cutSuffix_app body suffix : cutSuffix (body ++ suffix) suffix = Some body.
Proof.
  unfold cutSuffix. rewrite rev_app_distr, has_prefix_app, length_app, Nat.add_sub. by rewrite take_app_length.
Qed.

(** Before the unit there is a digit or a blank, so no longer unit fits. *)
Lemma cut_unit_exact body t : t < 65 ->
  cut_unit byteSizeUnits (body ++ [t]) = (body ++ [t], 1) /\
  Forall (fun u => cut_unit byteSizeUnits ((body ++ [t]) ++ u.1) = ((body ++ [t]), u.2)) byteSizeUnits.
Proof.
  intros Ht. assert (Hno : forall x, 65 <= x -> (x =? t) = false) by (intros; apply Z.eqb_neq; lia).
  assert (Hcut : forall a s, has_prefix (rev a ++ t :: rev body) (rev s) = false -> cutSuffix ((body ++ [t]) ++ a) s = None).
  { intros a s Hp. unfold cutSuffix. rewrite !rev_app_distr. cbn [rev app]. by rewrite Hp. }
  let u := eval vm_compute in byteSizeUnits in change byteSizeUnits with u. split.
  - rewrite <- (app_nil_r (body ++ [t])) at 1. cbn [cut_unit].
    rewrite !Hcut by (cbn -[Z.eqb]; rewrite !Hno by lia; reflexivity). by rewrite app_nil_r.
  - repeat apply Forall_cons_2; try apply Forall_nil_2; cbn [fst snd cut_unit];
      rewrite ?Hcut by (cbn -[Z.eqb]; rewrite ?Hno by lia; reflexivity); by rewrite cutSuffix_app.
Qed.

Lemma parseInt_range s n : parseInt s = Some n -> - 2 ^ 63 <= n < 2 ^ 63.
Proof.
  assert (Hu : forall s n, parseUint s = Some n -> 0 <= n).
  { clear. intros s n. unfold parseUint. destruct s as [|c s]; [done|]. generalize (c :: s) as l. intros l.
    assert (Hd : forall l a m, 0 <= a -> parse_digits a l = Some m -> 0 <= m).
    { clear. induction l as [|c l IH]; intros a m Ha; cbn [parse_digits]; [by intros [= <-]|]. unfold digit.
      destruct (Z.leb_spec 48 c), (Z.leb_spec c 57); cbn [andb]; try done. apply IH. lia. }
    destruct (parse_digits 0 l) as [m|] eqn:E; [|done]. destruct (m <? 2 ^ 64); [|done]. intros [= <-]. by eapply Hd. }
  unfold parseInt. destruct s as [|c s]; [done|]. destruct (c =? 45).
  - destruct (parseUint s) as [m|] eqn:E; cbn [mbind option_bind]; [|done]. destruct (Z.leb_spec m (2 ^ 63)); [|done].
    intros [= <-]. apply Hu in E. lia.
  - destruct (parseUint (if c =? 43 then s else c :: s)) as [m|] eqn:E; cbn [mbind option_bind]; [|done]. destruct (Z.ltb_spec m (2 ^ 63)); [|done].
    intros [= <-]. apply Hu in E. lia.
Qed.

Lemma cut_unit_mult units up : Forall (fun u => 1 <= u.2) units -> 1 <= (cut_unit units up).2.
Proof. induction 1 as [|[s m] units Hm _ IH]; cbn [cut_unit]; [cbn; lia|]. by destruct (cutSuffix up s). Qed.

Lemma units_positive : Forall (fun u => 1 <= u.2) byteSizeUnits.
Proof. repeat constructor; vm_compute; discriminate. Qed.

(** The product does not wrap. *)
Lemma size_product n mult : 0 <= n < 2 ^ 63 -> 1 <= mult -> (1 <? mult) && (Z.quot (Z.shiftl 1 62) mult <? n) = false ->
  i64 (n * mult) = n * mult /\ 0 <= n * mult < 2 ^ 63.
Proof.
  intros Hn Hm Hb. assert (Hr : 0 <= n * mult < 2 ^ 63); [|split; [apply i64_small; lia|done]].
  apply andb_false_iff in Hb as [Hb|Hb]; bool2prop; [nia|]. change (Z.shiftl 1 62) with (2 ^ 62) in Hb.
  rewrite Z.quot_div_nonneg in Hb by lia. pose proof (Z.mul_div_le (2 ^ 62) mult ltac:(lia)). nia.
Qed.

(** The text of a size: a decimal count, blanks, and a unit in either case. *)
Definition size_text (v : Z) (blanks : nat) (unit : bytes) : bytes := formatUint v ++ replicate blanks 32 ++ unit.

(** The multiplier of a unit; no unit counts bytes. *)
Definition unit_mult (unit : bytes) (mult : Z) : Prop := (unit = [] /\ mult = 1) \/ (Forall is_graph unit /\ (toUpper unit, mult) ∈ byteSizeUnits).

Lemma formatUint_edges v : 0 <= v < 2 ^ 64 -> exists w d, formatUint v = w ++ [d] /\ Forall is_digit w /\ is_digit d.
Proof.
  intros Hv. destruct (formatUint_spec v ltac:(lia)) as (Hne & _ & Hd & _).
  destruct (exists_last Hne) as (w & d & E). exists w, d. rewrite E in *. apply Forall_app in Hd as [Hw Hd]. by apply Forall_cons in Hd as [Hd _].
Qed.

Lemma parseInt_digits v : 0 <= v < 2 ^ 64 -> parseInt (formatUint v) = if 2 ^ 63 <=? v then None else Some v.
Proof.
  intros Hv. pose proof (parseUint_format v Hv) as Hu. destruct (formatUint_spec v Hv) as (Hne & _ & Hd & _).
  destruct (formatUint v) as [|c l]; [done|]. apply Forall_cons in Hd as [Hc _]. unfold is_digit in Hc.
  unfold parseInt. destruct (Z.eqb_spec c 45), (Z.eqb_spec c 43); try lia. rewrite Hu. cbn [mbind option_bind].
  destruct (Z.ltb_spec v (2 ^ 63)), (Z.leb_spec (2 ^ 63) v); (done || lia).
Qed.

Lemma digits_plain w : Forall is_digit w -> Forall is_plain w.
Proof. intros Hw. eapply Forall_impl; [exact Hw|]. intros c Hc. right. by apply digit_graph. Qed.

Lemma trim_digits v n : 0 <= v < 2 ^ 64 -> trimSpace (formatUint v ++ replicate n 32) = formatUint v.
Proof.
  intros Hv. destruct (formatUint_edges v Hv) as (w & d & -> & Hw & Hd). destruct w as [|c w].
  - by apply (trimSpace_blanks d d []); [apply digit_graph|apply digit_graph|constructor].
  - apply Forall_cons in Hw as [Hc Hw]. by apply (trimSpace_blanks c d w); [apply digit_graph|apply digit_graph|apply digits_plain].
Qed.

Lemma trim_sized v n unit : 0 <= v < 2 ^ 64 -> Forall is_graph unit -> unit <> [] -> trimSpace (size_text v n unit) = size_text v n unit.
Proof.
  intros Hv Hu Hne. unfold size_text. destruct (formatUint_spec v ltac:(lia)) as (Hnf & _ & Hd & _). destruct (formatUint v) as [|c w]; [done|].
  apply Forall_cons in Hd as [Hc Hw]. destruct (exists_last Hne) as (u & x & ->). apply Forall_app in Hu as [Hu Hx]. apply Forall_cons in Hx as [Hx _].
  pose proof (proj1 (trimSpace_blanks c x (w ++ replicate n 32 ++ u) 0 (digit_graph c Hc) Hx ltac:(apply Forall_app; split; [by apply digits_plain|];
    apply Forall_app; split; [apply Forall_replicate; by left|eapply Forall_impl; [exact Hu|]; intros; by right]))) as Ht.
  rewrite app_nil_r in Ht. rewrite <- !app_assoc in Ht. exact Ht.
Qed.

(** The unit and the count are told apart. *)
Lemma size_cut v blanks unit mult : 0 <= v < 2 ^ 64 -> unit_mult unit mult ->
  exists body, cut_unit byteSizeUnits (toUpper (trimSpace (size_text v blanks unit))) = (body, mult) /\ trimSpace body = formatUint v.
Proof.
  intros Hv Hu. destruct (formatUint_edges v Hv) as (w & d & Ef & Hw & Hd). destruct (formatUint_spec v ltac:(lia)) as (_ & _ & Hdig & _).
  assert (Hlow : Forall (fun c => 0 <= c < 97) (formatUint v)) by (eapply Forall_impl; [exact Hdig|]; unfold is_digit; intros; lia).
  destruct Hu as [[-> ->]|[Hg Hin]].
  - exists (formatUint v). unfold size_text. rewrite app_nil_r, trim_digits by done. split.
    + rewrite <- (app_nil_r (formatUint v)) at 1. rewrite toUpper_keep by done. cbn [toUpper]. rewrite app_nil_r, Ef. apply cut_unit_exact. unfold is_digit in Hd. lia.
    + rewrite <- (app_nil_r (formatUint v)) at 1. by apply (trim_digits v 0).
  - exists (formatUint v ++ replicate blanks 32). rewrite trim_sized; [|done|done|].
    2:{ intros ->. apply list_elem_of_In in Hin. cbn in Hin. intuition discriminate. }
    split; [|by apply trim_digits]. unfold size_text. rewrite app_assoc, toUpper_keep.
    + assert (exists b t, formatUint v ++ replicate blanks 32 = b ++ [t] /\ t < 65) as (b & t & -> & Ht).
      { destruct blanks as [|k]; [exists w, d; rewrite app_nil_r; unfold is_digit in Hd; split; [done|lia]|].
        exists (formatUint v ++ replicate k 32), 32. rewrite <- app_assoc. split; [|lia]. f_equal. apply replicate_S_end. }
      destruct (cut_unit_exact b t Ht) as [_ Hall]. rewrite Forall_forall in Hall. exact (Hall _ Hin).
    + apply Forall_app. split; [done|]. apply Forall_replicate. lia.
Qed.

(** C40. Sizes in the environment mean what they say.  Of a decimal count
    below 2^64, followed by blanks and a unit in either case or by nothing: a
    count of 2^63 or more is no size; with a unit of a kilobyte or more a product
    over 2^62 is refused as too large; everything else, plain counts and counts
    of bytes up to 2^63 - 1 included, is read as the count times the unit.
    Whatever the text, an accepted size is a non-negative [int64]: the product
    never wraps. *)
Theorem byte_size_exact v blanks unit mult : 0 <= v < 2 ^ 64 -> unit_mult unit mult ->
  parseByteSize (size_text v blanks unit) =
    (if 2 ^ 63 <=? v then inr NotASize else if (1 <? mult) && (2 ^ 62 <? v * mult) then inr SizeOverflow else inl (v * mult)) /\
  (forall s n, parseByteSize s = inl n -> 0 <= n < 2 ^ 63).
Proof.
  intros Hv Hu. split.
  - destruct (size_cut v blanks unit mult Hv Hu) as (body & Hc & Ht). unfold parseByteSize. cbv zeta. rewrite Hc, Ht.
    rewrite parseInt_digits by done. destruct (Z.leb_spec (2 ^ 63) v) as [Hbig|Hsmall]; [done|].
    destruct (Z.ltb_spec v 0); [lia|].
    assert (Hm : 1 <= mult) by (pose proof (cut_unit_mult byteSizeUnits (toUpper (trimSpace (size_text v blanks unit))) units_positive) as Hp; by rewrite Hc in Hp).
    assert (Hq : (Z.quot (Z.shiftl 1 62) mult <? v) = (2 ^ 62 <? v * mult)).
    { change (Z.shiftl 1 62) with (2 ^ 62). rewrite Z.quot_div_nonneg by lia. pose proof (Z.mul_div_le (2 ^ 62) mult ltac:(lia)).
      pose proof (Z.mul_succ_div_gt (2 ^ 62) mult ltac:(lia)). destruct (Z.ltb_spec (2 ^ 62 / mult) v), (Z.ltb_spec (2 ^ 62) (v * mult)); nia. }
    destruct ((1 <? mult) && (Z.quot (Z.shiftl 1 62) mult <? v)) eqn:E; rewrite Hq in E; rewrite E; [done|]. f_equal. rewrite <- Hq in E. by apply size_product.
  - intros s n. unfold parseByteSize. cbv zeta. destruct (cut_unit byteSizeUnits (toUpper (trimSpace s))) as [body m] eqn:Ec.
    destruct (parseInt (trimSpace body)) as [k|] eqn:Ep; [|done]. destruct (Z.ltb_spec k 0); [done|].
    destruct ((1 <? m) && _) eqn:E; [done|]. intros [= <-]. apply parseInt_range in Ep.
    pose proof (cut_unit_mult byteSizeUnits (toUpper (trimSpace s)) units_positive) as Hm. rewrite Ec in Hm. destruct (size_product k m) as [-> Hr]; [lia|done|done|lia].
Qed.

(** ** Concrete configurations *)

Definition noEnv (name : bytes) : bytes := if bytes_eqb name maxBytesEnvVar then str "20 GiB" else [].

Definition demoFile : FullConfig :=
  MkFullConfig [] [] (str "cache") (str "/data") (WriteOnce [] []) false [MkCredential (str "ci") (str "secret")] [] None 0 None 0 0 None
    (MkEvictionConfig 0 None 0).

Definition noFlags : flags := MkFlags [] [] [] [] (str "off") [].

Definition demoLoaded : FullConfig :=
  MkFullConfig (str ":9000") [] (str "cache") (str "/data") (WriteOnce (str "allow") (str "never")) false [MkCredential (str "ci") (str "secret")]
    (str "normal") None 128 None 0 (2 ^ 30) None (MkEvictionConfig 0 (Some (20 * 2 ^ 30)) (24 * 3600 * 10 ^ 9)).

Definition demoStarted : FullConfig :=
  MkFullConfig (str ":9000") [] (str "cache") (str "/data") (WriteOnce (str "allow") (str "never")) false [MkCredential (str "ci") (str "secret")]
    (str "normal") (Some []) 128 None 0 (2 ^ 30) None (MkEvictionConfig 0 (Some (20 * 2 ^ 30)) (24 * 3600 * 10 ^ 9)).

Lemma demo_loads : LoadConfig noEnv (Some demoFile) = inl demoLoaded.
Proof. vm_compute. reflexivity. Qed.

Lemma accepted_config_works_witness :
  config_ok demoStarted /\ LoadConfig noEnv (Some demoLoaded) = inl demoLoaded /\ DashboardListenAddr demoStarted = [] /\
  ServeHTTP (front demoStarted) false true (str "GET") (str "/cache/_index") (str "Basic Y2k6c2VjcmV0") = Reached (str "ci") HGetIndex.
Proof.
  destruct (accepted_config_works noEnv (Some demoFile) noFlags demoLoaded demoStarted demo_loads eq_refl) as (Hok & Hag & _).
  split; [exact Hok|]. split; [exact Hag|]. split; [reflexivity|]. vm_compute. reflexivity.
Defined.

Lemma byte_size_exact_witness :
  size_text 50 1 (str "GiB") = str "50 GiB" /\ parseByteSize (str "50 GiB") = inl (50 * 2 ^ 30).
Proof.
  split; [vm_compute; reflexivity|].
  destruct (byte_size_exact 50 1 (str "GiB") (2 ^ 30)) as [Hp _]; [lia| |exact Hp].
  right. split.
  - repeat constructor; vm_compute; discriminate.
  - apply (bool_decide_eq_true_1 (_ ∈ byteSizeUnits)). vm_compute. reflexivity.
Defined.

(** The guard refuses sizes from 2^62 on as too large for [int64], which holds
    them up to 2^63. *)
Example half_range_refused : parseByteSize (str "4194305T") = inr SizeOverflow /\ 4194305 * 2 ^ 40 < 2 ^ 63.
Proof. vm_compute. split; reflexivity. Qed.
