(* ===== verification/Retry.v ===== *)
(** * Retries, quiet periods and the breaker

    [cacheclient/web_resilience.go]: the bounded retry loop [doRetry], the quiet
    period a server asks for with Retry-After, and the breaker that stops asking
    a server that no longer answers.  The state is the atomics of [WebBackend]
    these functions share; what other goroutines do to them between two
    iterations is part of an iteration's environment, and so are the clock, the
    random jitter and the reply.  Durations are int64 nanoseconds.  The watchdog
    timers and the draining of bodies are left out: a stalled attempt is a reply
    that never came. *)

From Stdlib Require Import ZArith Lia List Bool String.
From stdpp Require Import base list gmap relations.
From S2P Require Import Prelude Strconv.

Definition second : Z := 1000000000.
Definition defaultMaxRetries : Z := 2.
Definition retryBaseDelay : Z := 100000000.
Definition retryMaxDelay : Z := 2 * second.
Definition downProbeEvery : Z := 5 * second.
Definition answerMargin : Z := 5 * second.
(** [admission.Wait]. *)
Definition AdmissionWait : Z := 10 * second.

Definition slowAnswerAfter (wait : Z) : Z := wait + answerMargin.
Definition slowAnswer : Z := slowAnswerAfter AdmissionWait.

Definition transientStatus (code : Z) : bool := (500 <=? code) || (code =? 429).

(** [envInt] for a variable that is set; [def] also answers an empty one. *)
Definition envInt (v : bytes) (def : Z) : Z :=
  if bytes_eqb v [] then def
  else match parseInt v with None => def | Some n => if n <? 0 then 0 else n end.

(** [parseRetryAfter]: [date] is the time left until the date the header names,
    if it is one. *)
Definition parseRetryAfter (v : bytes) (date : option Z) : Z :=
  if bytes_eqb v [] then 0
  else
    let cap d := if retryMaxDelay <? d then retryMaxDelay else d in
    match parseInt v with
    | Some secs => if secs <=? 0 then 0 else cap (i64 (secs * second))
    | None => match date with Some d => if d <=? 0 then 0 else cap d | None => 0 end
    end.

(** ** The breaker *)

Record breaker := Breaker { downSince : Z; probeAt : Z; SkippedDown : Z }.

(** [cas] is whether the compare-and-swap succeeds: no other request took the
    probe since it was read. *)
Definition mayAsk (now : Z) (cas : bool) (b : breaker) : bool * breaker :=
  if downSince b =? 0 then (true, b)
  else if (probeAt b <=? now) && cas then (true, Breaker (downSince b) (now + downProbeEvery) (SkippedDown b))
  else (false, Breaker (downSince b) (probeAt b) (SkippedDown b + 1)).

Definition Down (b : breaker) : bool := negb (downSince b =? 0).

Definition noteNoAnswer (now : Z) (b : breaker) : breaker :=
  Breaker (if downSince b =? 0 then now else downSince b) (now + downProbeEvery) (SkippedDown b).

Definition noteAnswered (b : breaker) : breaker := Breaker 0 (probeAt b) (SkippedDown b).

(** ** Quiet periods *)

Definition noteShed (now retryAfter shedUntil : Z) : Z :=
  let until := now + retryAfter in if until <=? shedUntil then shedUntil else until.

Definition shedRemaining (now shedUntil : Z) : Z := shedUntil - now.

(** The backoff of an attempt before jitter; the shift is on int64. *)
Definition backoff (attempt : nat) : Z :=
  let d := i64 (Z.shiftl retryBaseDelay (Z.of_nat attempt)) in
  if (retryMaxDelay <? d) || (d <=? 0) then retryMaxDelay else d.

(** [rand.Int64N(d + 1)] by a random number. *)
Definition jittered (rnd d : Z) : Z := rnd mod (d + 1).

Definition sleepQuiet (attempt : nat) (rnd quiet : Z) : Z := quiet + jittered rnd (backoff attempt).

Definition sleepBackoff (attempt : nat) (rnd atLeast : Z) : Z :=
  let d := jittered rnd (backoff attempt) in
  if 0 <? atLeast then
    let atLeast := if retryMaxDelay <? atLeast then retryMaxDelay else atLeast in
    if d <? atLeast then atLeast else d
  else d.

(** ** The loop *)

(** What [http.Client.Do] answers: a status with its Retry-After, or an error,
    which may be a timeout or a stall. *)
Inductive reply :=
  | RStatus (code : Z) (retryAfter : bytes) (date : option Z)
  | RError (noAnswer : bool).

(** One iteration's surroundings.  [at_shed] and [at_breaker] are what the
    others make of the shared state before it; [at_now] is the clock when the
    quiet period is read, [at_ask] when the breaker is asked, [at_done] when the
    reply is noted; [at_waited] is how long the reply took. *)
Record attemptEnv := AttemptEnv {
  at_cancelled : bool; at_shed : Z -> Z; at_breaker : breaker -> breaker;
  at_now : Z; at_ask : Z; at_cas : bool; at_reply : reply; at_waited : Z; at_done : Z; at_rnd : Z
}.

Record netState := NetState { ns_shedUntil : Z; ns_breaker : breaker; ns_ShedWaits : Z }.

Definition shedWait (st : netState) : netState := NetState (ns_shedUntil st) (ns_breaker st) (ns_ShedWaits st + 1).

Inductive outcome :=
  | OReply (r : reply)
  | OHeldBack
  | ODown
  | OCancelled.

Inductive logged :=
  | LSent (at_ : Z) (r : reply)
  | LShed (until : Z)
  | LSlept (attempt : nat) (d hint : Z)
  | LQuiet (attempt : nat) (d quiet : Z).

Definition held (last : option reply) : outcome := match last with Some r => OReply r | None => OHeldBack end.
Definition gaveUp (last : option reply) : outcome := match last with Some r => OReply r | None => OCancelled end.

(** An attempt that goes out: its reply, the notes made of it, and whether the
    loop returns it.  [critical]: the request is a lookup the build waits on. *)
Definition send (critical : bool) (e : attemptEnv) (st : netState) : list logged * Z * bool * netState :=
  match at_reply e with
  | RError noAnswer =>
      let br := if noAnswer then noteNoAnswer (at_done e) (ns_breaker st) else ns_breaker st in
      ([LSent (at_now e) (at_reply e)], 0, noAnswer, NetState (ns_shedUntil st) br (ns_ShedWaits st))
  | RStatus code ra date =>
      let br := if (slowAnswer <? at_waited e) && critical then noteNoAnswer (at_done e) (ns_breaker st) else noteAnswered (ns_breaker st) in
      if negb (transientStatus code) then ([LSent (at_now e) (at_reply e)], 0, true, NetState (ns_shedUntil st) br (ns_ShedWaits st))
      else
        let retryAfter := parseRetryAfter ra date in
        if 0 <? retryAfter then
          let until := noteShed (at_done e) retryAfter (ns_shedUntil st) in
          ([LSent (at_now e) (at_reply e); LShed (at_done e + retryAfter)], retryAfter, false, NetState until br (ns_ShedWaits st))
        else ([LSent (at_now e) (at_reply e)], retryAfter, false, NetState (ns_shedUntil st) br (ns_ShedWaits st))
  end.

(** [doRetry]; [left] retries remain after this attempt. *)
Fixpoint doRetry (critical : bool) (left attempt : nat) (env : nat -> attemptEnv) (last : option reply) (st : netState)
    : outcome * list logged * netState :=
  let e := env attempt in
  let st := NetState (at_shed e (ns_shedUntil st)) (at_breaker e (ns_breaker st)) (ns_ShedWaits st) in
  if at_cancelled e then (gaveUp last, [], st)
  else
    let quiet := shedRemaining (at_now e) (ns_shedUntil st) in
    if 0 <? quiet then
      let st := shedWait st in
      match left with
      | O => (held last, [], st)
      | S left' =>
          let '(o, log, st) := doRetry critical left' (S attempt) env last st in
          (o, LQuiet attempt (sleepQuiet attempt (at_rnd e) quiet) quiet :: log, st)
      end
    else
      let '(ok, br) := mayAsk (at_ask e) (at_cas e) (ns_breaker st) in
      let st := NetState (ns_shedUntil st) br (ns_ShedWaits st) in
      if negb ok then (ODown, [], st)
      else
        let '(notes, hint, final, st) := send critical e st in
        if final then (OReply (at_reply e), notes, st)
        else
          match left with
          | O => (OReply (at_reply e), notes, st)
          | S left' =>
              let '(o, log, st) := doRetry critical left' (S attempt) env (Some (at_reply e)) st in
              (o, notes ++ LSlept attempt (sleepBackoff attempt (at_rnd e) hint) hint :: log, st)
          end.

(** ** What the loop keeps to *)

Definition sends (log : list logged) : list reply := omap (fun l => match l with LSent _ r => Some r | _ => None end) log.

(** A reply after which another attempt is made. *)
Definition retryable (r : reply) : bool :=
  match r with RStatus code _ _ => transientStatus code | RError noAnswer => negb noAnswer end.

(** No attempt goes out before the latest deadline noted, [floor] at first. *)
Fixpoint respects (floor : Z) (log : list logged) : Prop :=
  match log with
  | [] => True
  | LSent t _ :: log' => floor <= t /\ respects floor log'
  | LShed until :: log' => respects (Z.max floor until) log'
  | _ :: log' => respects floor log'
  end.

Definition sleep_ok (l : logged) : Prop :=
  match l with
  | LSlept _ d hint => hint <= d /\ 0 <= d <= retryMaxDelay
  | LQuiet _ d quiet => 0 < quiet <= d /\ d <= quiet + retryMaxDelay
  | _ => True
  end.

(** What the answer says of the attempts: the last reply, whichever it was, is
    returned; without one the operation was held back, cut short or not sent. *)
Definition answer_ok (last : option reply) (o : outcome) (log : list logged) : Prop :=
  match o with
  | OReply r => List.last (map Some (sends log)) last = Some r
  | OHeldBack | OCancelled => last = None /\ sends log = []
  | ODown => Forall (fun r => retryable r = true) (sends log)
  end.

Lemma backoff_bounds attempt : 0 < backoff attempt <= retryMaxDelay.
Proof.
  unfold backoff. set (d := i64 _). destruct (Z.ltb_spec retryMaxDelay d), (Z.leb_spec d 0); cbn [orb]; unfold retryMaxDelay, second in *; lia.
Qed.

Lemma jittered_bounds rnd d : 0 <= d -> 0 <= jittered rnd d <= d.
Proof. intros Hd. unfold jittered. pose proof (Z.mod_pos_bound rnd (d + 1)). lia. Qed.

Lemma retryAfter_bound v date : parseRetryAfter v date <= retryMaxDelay.
Proof.
  unfold parseRetryAfter. destruct (bytes_eqb v []); [done|].
  assert (Hcap : forall d, (if retryMaxDelay <? d then retryMaxDelay else d) <= retryMaxDelay) by (intros d; destruct (Z.ltb_spec retryMaxDelay d); lia).
  destruct (parseInt v) as [secs|]; [destruct (secs <=? 0); [done|apply Hcap]|].
  destruct date as [d|]; [|done]. destruct (d <=? 0); [done|apply Hcap].
Qed.

Lemma sleepBackoff_ok attempt rnd hint : hint <= retryMaxDelay -> sleep_ok (LSlept attempt (sleepBackoff attempt rnd hint) hint).
Proof.
  intros Hh. pose proof (backoff_bounds attempt). pose proof (jittered_bounds rnd (backoff attempt)). unfold sleep_ok, sleepBackoff.
  destruct (Z.ltb_spec 0 hint); [|lia]. destruct (Z.ltb_spec retryMaxDelay hint); [lia|]. destruct (Z.ltb_spec (jittered rnd (backoff attempt)) hint); lia.
Qed.

Lemma send_ok critical e st notes hint final st' : send critical e st = (notes, hint, final, st') ->
  hint <= retryMaxDelay /\ sends notes = [at_reply e] /\ final = negb (retryable (at_reply e)) /\ ns_shedUntil st <= ns_shedUntil st' /\
  exists tail, notes = LSent (at_now e) (at_reply e) :: tail /\ (tail = [] \/ exists u, tail = [LShed u] /\ u <= ns_shedUntil st').
Proof.
  unfold send. destruct (at_reply e) as [code ra date|noAnswer] eqn:Er.
  - destruct (transientStatus code) eqn:Et; cbn [negb].
    + destruct (Z.ltb_spec 0 (parseRetryAfter ra date)).
      * intros [= <- <- <- <-]. cbn [ns_shedUntil retryable]. rewrite Et. unfold noteShed.
        split_and!; [apply retryAfter_bound|done|done|destruct (Z.leb_spec (at_done e + parseRetryAfter ra date) (ns_shedUntil st)); lia|].
        eexists. split; [done|]. right. eexists. split; [done|].
        destruct (Z.leb_spec (at_done e + parseRetryAfter ra date) (ns_shedUntil st)); lia.
      * intros [= <- <- <- <-]. cbn [ns_shedUntil retryable]. rewrite Et. split_and!; [apply retryAfter_bound|done|done|done|]. eexists. split; [done|by left].
    + intros [= <- <- <- <-]. cbn [ns_shedUntil retryable]. rewrite Et. split_and!; [done|done|done|done|]. eexists. split; [done|by left].
  - intros [= <- <- <- <-]. cbn [ns_shedUntil retryable]. rewrite negb_involutive. split_and!; [done|done|done|done|]. eexists. split; [done|by left].
Qed.

Lemma respects_mono log : forall a b, a <= b -> respects b log -> respects a log.
Proof.
  induction log as [|l log IH]; intros a b Hab; [done|]. destruct l; cbn [respects]; try (by apply IH).
  - intros [H1 H2]. split; [lia|by eapply IH].
  - apply IH. lia.
Qed.

Lemma last_cons_some (l : list reply) r d : List.last (map Some (r :: l)) d = List.last (map Some l) (Some r).
Proof. revert r d. induction l as [|x l IH]; intros r d; [done|]. cbn [map List.last] in *. destruct l; [done|]. cbn [map] in *. apply (IH r d). Qed.

Lemma respects_tail floor until tail log :
  (tail = [] \/ exists u, tail = [LShed u] /\ u <= until) -> floor <= until -> respects until log -> respects floor (tail ++ log).
Proof.
  intros [->|(u & -> & Hu)] Hf Hr; [by eapply respects_mono|]. cbn [app respects]. eapply respects_mono; [|exact Hr]. lia.
Qed.

Lemma sends_app l1 l2 : sends (l1 ++ l2) = sends l1 ++ sends l2.
Proof. apply omap_app. Qed.

Lemma doRetry_spec critical env : (forall i x, x <= at_shed (env i) x) -> forall left attempt last st o log st',
  doRetry critical left attempt env last st = (o, log, st') ->
  (length (sends log) <= S left)%nat /\ respects (ns_shedUntil st) log /\ Forall sleep_ok log /\ answer_ok last o log /\
  Forall (fun r => retryable r = true) (removelast (sends log)).
Proof.
  intros Hshed. induction left as [|left IH]; intros attempt last st o log st' Hrun; cbn [doRetry] in Hrun;
    pose proof (Hshed attempt (ns_shedUntil st)) as Hraise; set (st1 := NetState (at_shed _ _) _ _) in Hrun;
    (destruct (at_cancelled (env attempt)); [injection Hrun as <- <- <-; split_and!; [cbn; lia|done|constructor|by destruct last|constructor]|]);
    (destruct (Z.ltb_spec 0 (shedRemaining (at_now (env attempt)) (ns_shedUntil st1))) as [Hq|Hq]).
  - injection Hrun as <- <- <-. split_and!; [cbn; lia|done|constructor|by destruct last|constructor].
  - destruct (mayAsk _ _ _) as [ok br]. destruct ok; cbn [negb] in Hrun; [|injection Hrun as <- <- <-; split_and!; [cbn; lia|done|constructor|constructor|constructor]].
    destruct (send _ _ _) as [[[notes hint] final] st2] eqn:Es. destruct (send_ok _ _ _ _ _ _ _ Es) as (Hh & Hsend & Hfin & Hge & tail & -> & Htail).
    assert (Hres : (OReply (at_reply (env attempt)), LSent (at_now (env attempt)) (at_reply (env attempt)) :: tail, st2) = (o, log, st')) by (by destruct final).
    injection Hres as <- <- <-. rewrite Hsend. split_and!; [done| | | |constructor].
    + split; [unfold shedRemaining in Hq; subst st1; cbn [ns_shedUntil] in *; lia|]. by destruct Htail as [->|(u & -> & _)].
    + constructor; [done|]. destruct Htail as [->|(u & -> & _)]; repeat constructor.
    + unfold answer_ok. by rewrite Hsend.
  - destruct (doRetry critical left (S attempt) env last (shedWait st1)) as [[o1 log1] st2] eqn:Er. injection Hrun as <- <- <-.
    destruct (IH _ _ _ _ _ _ Er) as (H1 & H2 & H3 & H4 & H5). pose proof (backoff_bounds attempt).
    pose proof (jittered_bounds (at_rnd (env attempt)) (backoff attempt)). split_and!; [cbn; unfold sends in H1; lia| | |done|done].
    + cbn [respects]. eapply respects_mono; [|exact H2]. done.
    + constructor; [|done]. unfold sleep_ok, sleepQuiet. change (ns_shedUntil st1) with (at_shed (env attempt) (ns_shedUntil st)) in *. unfold retryMaxDelay, second in *. lia.
  - destruct (mayAsk _ _ _) as [ok br]. destruct ok; cbn [negb] in Hrun; [|injection Hrun as <- <- <-; split_and!; [cbn; lia|done|constructor|constructor|constructor]].
    destruct (send _ _ _) as [[[notes hint] final] st2] eqn:Es. destruct (send_ok _ _ _ _ _ _ _ Es) as (Hh & Hsend & Hfin & Hge & tail & -> & Htail).
    assert (Htime : ns_shedUntil st <= at_now (env attempt)) by (unfold shedRemaining in Hq; subst st1; cbn [ns_shedUntil] in *; lia).
    cbn [ns_shedUntil] in Hge. assert (Hfloor : ns_shedUntil st <= ns_shedUntil st2) by (subst st1; cbn [ns_shedUntil] in Hge; lia).
    destruct final.
    + injection Hrun as <- <- <-. rewrite Hsend. split_and!; [cbn; lia| | | |constructor].
      * split; [done|]. by destruct Htail as [->|(u & -> & _)].
      * constructor; [done|]. destruct Htail as [->|(u & -> & _)]; repeat constructor.
      * unfold answer_ok. by rewrite Hsend.
    + destruct (doRetry critical left (S attempt) env (Some (at_reply (env attempt))) st2) as [[o1 log1] st3] eqn:Er. injection Hrun as <- <- <-.
      destruct (IH _ _ _ _ _ _ Er) as (H1 & H2 & H3 & H4 & H5). symmetry in Hfin. apply negb_false_iff in Hfin.
      set (slept := LSlept _ _ _). change (LSent _ _ :: tail ++ slept :: log1) with ((LSent (at_now (env attempt)) (at_reply (env attempt)) :: tail) ++ slept :: log1).
      assert (Hs : sends ((LSent (at_now (env attempt)) (at_reply (env attempt)) :: tail) ++ slept :: log1) = at_reply (env attempt) :: sends log1)
        by (rewrite sends_app, Hsend; done).
      rewrite Hs. split_and!.
      * cbn [length]. lia.
      * split; [done|]. by apply (respects_tail _ (ns_shedUntil st2)).
      * apply Forall_app. split; [constructor; [done|]; destruct Htail as [->|(u & -> & _)]; repeat constructor|].
        constructor; [by apply sleepBackoff_ok|done].
      * unfold answer_ok in *. rewrite Hs. destruct o1; [by rewrite last_cons_some|by destruct H4|by constructor|by destruct H4].
      * cbn [removelast]. destruct (sends log1) eqn:El; [constructor|]. constructor; [done|exact H5].
Qed.

(** The retry loop is bounded and polite.  Whatever the replies, the clock
    and other requests do: an operation ends, after at most one attempt more
    than it has retries; no attempt goes out before a deadline the server asked
    for with Retry-After has passed; each wait is at least what the server asked
    for and at most the maximum delay (beyond the quiet period, where there is
    one); only transient replies are tried again; and the answer is the reply of
    the last attempt, or a stand-in when none was made. *)
Theorem retry_bounded critical env maxRetries st :
  (forall i x, x <= at_shed (env i) x) ->
  let '(o, log, _) := doRetry critical maxRetries 0 env None st in
  (length (sends log) <= S maxRetries)%nat /\ respects (ns_shedUntil st) log /\ Forall sleep_ok log /\
  Forall (fun r => retryable r = true) (removelast (sends log)) /\ answer_ok None o log.
Proof.
  intros Hshed. destruct (doRetry critical maxRetries 0 env None st) as [[o log] st'] eqn:E.
  destruct (doRetry_spec critical env Hshed _ _ _ _ _ _ _ E) as (H1 & H2 & H3 & H4 & H5). by split_and!.
Qed.

(** ** The breaker under concurrent requests

    [mayAsk] is three reads and a compare-and-swap of atomics that every request
    shares.  A step below is one of those, by any request that found the server
    down (one that finds it up changes nothing); the clock never goes back. *)

Inductive asking :=
  | AClock (now : Z)              (** found the server down, read the clock *)
  | ARead (now next : Z).         (** read [probeAt] *)

(** [w_probes]: when the asks that won the compare-and-swap read the clock, latest first. *)
Record world := World { w_breaker : breaker; w_clock : Z; w_asking : gmap nat asking; w_probes : list Z }.

Definition setProbe (at_ : Z) (b : breaker) : breaker := Breaker (downSince b) at_ (SkippedDown b).
Definition skipped (b : breaker) : breaker := Breaker (downSince b) (probeAt b) (SkippedDown b + 1).

(** [mayAsk] from its compare-and-swap on: whether the ask goes out. *)
Definition ask_cas (now next : Z) (b : breaker) : bool * breaker :=
  if (next <=? now) && (probeAt b =? next) then (true, setProbe (now + downProbeEvery) b) else (false, skipped b).

Inductive wstep : world -> world -> Prop :=
  | w_down t now b c ts ps :
      downSince b <> 0 -> c <= now -> ts !! t = None ->
      wstep (World b c ts ps) (World b now (<[t := AClock now]> ts) ps)
  | w_read t now b c ts ps :
      ts !! t = Some (AClock now) ->
      wstep (World b c ts ps) (World b c (<[t := ARead now (probeAt b)]> ts) ps)
  | w_cas t now next b c ts ps :
      ts !! t = Some (ARead now next) ->
      wstep (World b c ts ps)
        (World (ask_cas now next b).2 c (delete t ts) (if (ask_cas now next b).1 then now :: ps else ps))
  | w_no_answer now b c ts ps :
      c <= now -> wstep (World b c ts ps) (World (noteNoAnswer now b) now ts ps)
  | w_answered b c ts ps :
      wstep (World b c ts ps) (World (noteAnswered b) c ts ps).

Definition asked_at (a : asking) : Z := match a with AClock now | ARead now _ => now end.

(** Each probe went out at least [downProbeEvery] after every earlier one. *)
Fixpoint spaced (ps : list Z) : Prop :=
  match ps with [] => True | p :: ps' => Forall (fun q => q + downProbeEvery <= p) ps' /\ spaced ps' end.

Definition world_ok (w : world) : Prop :=
  spaced (w_probes w) /\ Forall (fun q => q + downProbeEvery <= probeAt (w_breaker w) /\ q <= w_clock w) (w_probes w) /\
  map_Forall (fun _ a => asked_at a <= w_clock w) (w_asking w).

Lemma spaced_ok_weaken c c' at_ at' ps :
  Forall (fun q => q + downProbeEvery <= at_ /\ q <= c) ps -> c <= c' -> at_ <= at' \/ c' + downProbeEvery <= at' ->
  Forall (fun q => q + downProbeEvery <= at' /\ q <= c') ps.
Proof. intros Hp Hc Ha. eapply Forall_impl; [exact Hp|]. cbn. intros q [H1 H2]. lia. Qed.

Lemma wstep_ok w w' : wstep w w' -> world_ok w -> world_ok w'.
Proof.
  intros Hs (Hsp & Hp & Ht). destruct Hs as [t now b c ts ps Hd Hc Hn|t now b c ts ps Ha|t now next b c ts ps Ha|now b c ts ps Hc|b c ts ps];
    cbn [w_breaker w_clock w_asking w_probes] in *.
  - split_and!; [done|eapply spaced_ok_weaken; [exact Hp|exact Hc|by left]|]. apply map_Forall_insert_2; [cbn; lia|].
    eapply map_Forall_impl; [exact Ht|]. cbn [w_clock]. intros ? ? Ha. cbn in Ha |- *. by etransitivity.
  - split_and!; [done|done|]. apply map_Forall_insert_2; [|done]. exact (Ht _ _ Ha).
  - pose proof (Ht _ _ Ha) as Hnow. cbn [asked_at] in Hnow. unfold ask_cas, world_ok. cbn [w_breaker w_clock w_asking w_probes].
    destruct (Z.leb_spec next now) as [Hle|Hle], (Z.eqb_spec (probeAt b) next) as [He|He]; cbn [andb fst snd setProbe skipped probeAt spaced];
      (split; [|split; [|by apply map_Forall_delete]]); try done.
    + split; [|done]. eapply Forall_impl; [exact Hp|]. cbn. intros; lia.
    + constructor; [lia|]. eapply spaced_ok_weaken; [exact Hp|lia|]. unfold downProbeEvery, second. lia.
  - split_and!; [done| |]; cbn [w_breaker w_clock w_asking w_probes noteNoAnswer probeAt].
    + eapply spaced_ok_weaken; [exact Hp|lia|]. right. lia.
    + eapply map_Forall_impl; [exact Ht|]. intros ? ? Ha. cbn in Ha |- *. by etransitivity.
  - by split_and!.
Qed.

(** While the server does not answer, the requests of a build that still
    go out to it are at least [downProbeEvery] apart: in every interleaving of
    any number of concurrent [mayAsk], [noteNoAnswer] and [noteAnswered] calls,
    the asks let through to a down server are spaced by that much.  And the
    breaker never stays shut: an ask that finds the server up goes out, and so
    does one that runs alone once the probe is due. *)
Theorem probes_spaced b clock w :
  rtc wstep (World b clock ∅ []) w ->
  spaced (w_probes w) /\
  (forall now cas, downSince (w_breaker w) = 0 -> mayAsk now cas (w_breaker w) = (true, w_breaker w)) /\
  (forall t now, downSince (w_breaker w) <> 0 -> w_clock w <= now -> probeAt (w_breaker w) <= now -> w_asking w !! t = None ->
    (mayAsk now true (w_breaker w)).1 = true /\
    rtc wstep w (World (mayAsk now true (w_breaker w)).2 now (w_asking w) (now :: w_probes w))).
Proof.
  intros Hr. split_and!.
  - assert (Hok : world_ok (World b clock ∅ [])) by (split_and!; [done|constructor|apply map_Forall_empty]).
    revert Hok. induction Hr as [|x y z Hxy _ IH]; intros Hok; [apply Hok|]. apply IH. by eapply wstep_ok.
  - intros now cas Hd. unfold mayAsk. by rewrite Hd.
  - intros t now Hd Hc Hp Ht. destruct w as [b' c ts ps]. cbn [w_breaker w_clock w_asking w_probes] in *. clear Hr.
    unfold mayAsk. rewrite (proj2 (Z.eqb_neq _ _) Hd), (proj2 (Z.leb_le _ _) Hp). cbn [andb fst snd]. split; [done|].
    eapply rtc_l; [by apply (w_down t now)|]. eapply rtc_l; [apply (w_read t now), lookup_insert_eq|].
    eapply rtc_l; [apply (w_cas t now (probeAt b')), lookup_insert_eq|].
    unfold ask_cas. rewrite (proj2 (Z.leb_le _ _) Hp), Z.eqb_refl. cbn [andb fst snd].
    rewrite !insert_insert_eq, delete_insert_id by done. apply rtc_refl.
Qed.

(** ** Concrete runs *)

(** A server that sheds the first attempt for a second, then answers. *)
Definition demoEnv (i : nat) : attemptEnv :=
  let t := Z.of_nat i * 3 * second in
  AttemptEnv false (fun x => x) (fun b => b) t t true
    (match i with O => RStatus 503 (str "1") None | _ => RStatus 200 [] None end) 0 t 7.

Definition demoNet : netState := NetState 0 (Breaker 0 0 0) 0.

Lemma retry_bounded_witness :
  doRetry true 2 0 demoEnv None demoNet =
    (OReply (RStatus 200 [] None),
     [LSent 0 (RStatus 503 (str "1") None); LShed second; LSlept 0 second second; LSent (3 * second) (RStatus 200 [] None)],
     NetState second (Breaker 0 0 0) 0) /\
  (length (sends (doRetry true 2 0 demoEnv None demoNet).1.2) <= 3)%nat.
Proof.
  split; [vm_compute; reflexivity|].
  pose proof (retry_bounded true demoEnv 2 demoNet ltac:(intros i x; reflexivity)) as Hb.
  destruct (doRetry true 2 0 demoEnv None demoNet) as [[o log] st]. exact (proj1 Hb).
Defined.

(** A Retry-After of a fixed number of seconds is honoured up to the cap, and
    one too large for a duration in nanoseconds wraps around: the shed is then
    taken to carry no hint. *)
Example retryAfter_values :
  map (fun v => parseRetryAfter (str v) None) ["1"; "60"; "0"; "soon"; "9223372037"]%string =
  [second; retryMaxDelay; 0; 0; -9223372036709551616].
Proof. vm_compute. reflexivity. Qed.

Definition downWorld : world := World (noteNoAnswer second (Breaker 0 0 0)) second ∅ [].

Lemma probes_spaced_witness : exists w, rtc wstep downWorld w /\ w_probes w = [12 * second; 6 * second] /\ spaced (w_probes w).
Proof.
  destruct (probes_spaced _ _ downWorld (rtc_refl _ _)) as (_ & _ & Hask).
  destruct (Hask 0%nat (6 * second)) as [_ H6]; [discriminate|discriminate|discriminate|reflexivity|].
  destruct (probes_spaced _ _ _ H6) as (_ & _ & Hask2).
  destruct (Hask2 1%nat (12 * second)) as [_ H12]; [discriminate|discriminate|discriminate|reflexivity|].
  eexists. split; [exact (transitivity (R := rtc wstep) H6 H12)|]. split; [reflexivity|].
  exact (proj1 (probes_spaced _ _ _ (transitivity (R := rtc wstep) H6 H12))).
Defined.
