(* ===== verification/Archive.v ===== *)
(** * Go archives and build ids

    [cacheclient/archive.go] ([arMember]) and [cacheclient/buildid.go]: the
    member of an ar archive by name, the build id in the export header of a
    compiled package, and the test that a body belongs to the action it is
    stored under.  The test guards both directions: [prepare] refuses to upload
    a body that fails it and [verify] refuses to serve one. *)

From Stdlib Require Import ZArith Lia List Bool String.
From stdpp Require Import base list.
From S2P Require Import Prelude Strconv Base64 Keys Sha256 ContentStamp.

(** [bytes.TrimRight] with one byte as its cut set. *)
Fixpoint trim_right_byte (c : Z) (s : bytes) : bytes :=
  match s with
  | [] => []
  | x :: s' => if forallb (Z.eqb c) s then [] else x :: trim_right_byte c s'
  end.

Definition arHdrSize : nat := 60.
Definition arEnd : bytes := [96; 10].

(** The loop of [arMember]; [None] is a nil slice.  [fuel] is the length of the
    data: every round consumes a header. *)
Fixpoint ar_loop (fuel : nat) (data name : bytes) : option bytes :=
  match fuel with
  | O => None
  | S fuel' =>
      if (length data <? arHdrSize)%nat then None
      else
        let rawName := trim_right_byte 32 (take 16 data) in
        let rawSize := trimSpace (take 10 (drop 48 data)) in
        if negb (bytes_eqb (take 2 (drop 58 data)) arEnd) then None
        else
          match parse_digits 0 rawSize with
          | None => None
          | Some size =>
              let body := drop arHdrSize data in
              if Z.of_nat (length body) <? size then None
              else if bytes_eqb (trim_right_byte 47 rawName) name then Some (take (Z.to_nat size) body)
              else
                let advance := Z.of_nat arHdrSize + size + (if size mod 2 =? 0 then 0 else 1) in
                if Z.of_nat (length data) <? advance then None else ar_loop fuel' (drop (Z.to_nat advance) data) name
          end
  end.

Definition arMember (data name : bytes) : option bytes :=
  if has_prefix data archMagic then let data := drop (length archMagic) data in ar_loop (length data) data name else None.

Definition pkgdefName : bytes := str "__.PKGDEF".

(** [archiveBuildID]: whether the body is a package archive, and the fields of its build id. *)
Definition archiveBuildID (data : bytes) : bool * bytes * bytes :=
  match arMember data pkgdefName with
  | None => (false, [], [])
  | Some pkgdef =>
      let header := match bytes_index pkgdef exportMark with Some i => take i pkgdef | None => pkgdef end in
      match bytes_index header buildMarker with
      | None => (true, [], [])
      | Some idx =>
          let rest := drop (idx + length buildMarker) header in
          match bytes_index rest [quote] with
          | None => (true, [], [])
          | Some e =>
              let id := take e rest in
              match bytes_index id [stampSlash] with
              | Some slash => (true, take slash id, drop (slash + 1) id)
              | None => (true, id, [])
              end
          end
      end
  end.

Definition BuildIDHashSize : nat := 15.

(** The empty answer: no expectation can be derived. *)
Definition ExpectedBuildIDAction (actionIDHex : bytes) : bytes :=
  match hex_decode actionIDHex with
  | Some raw => if (length raw <? BuildIDHashSize)%nat then [] else b64_rawurl (take BuildIDHashSize raw)
  | None => []
  end.

Definition BuildIDMatchesAction (actionIDHex body : bytes) : bytes * bool :=
  let '(isPkg, action, content) := archiveBuildID body in
  let want := ExpectedBuildIDAction actionIDHex in
  if negb (bytes_eqb action []) then
    (action, if bytes_eqb want [] then true else bytes_eqb action want || bytes_eqb action content)
  else ([], negb (isPkg && negb (bytes_eqb want []))).

Definition detectObjectType (data : bytes) : bytes :=
  if has_prefix data archMagic then str "go-archive"
  else if has_prefix data [127; 69; 76; 70] then str "elf-binary"
  else if (4 <=? length data)%nat &&
          existsb (fun m => be_value (take 4 data) =? m) [0xcffaedfe; 0xfeedface; 0xfeedfacf; 0xcefaedfe; 0xcafebabe] then str "macho-binary"
  else if has_prefix data [77; 90] then str "pe-binary"
  else if has_prefix data [0; 103; 111; 49] then str "go-object"
  else str "unknown".

(** ** Reading an archive *)

Lemma trim_right_byte_pad c s n : trim_right_byte c (s ++ replicate n c) = trim_right_byte c s.
Proof.
  induction s as [|x s IH]; cbn [app trim_right_byte].
  - destruct n as [|n]; [done|]. cbn [replicate trim_right_byte forallb]. rewrite Z.eqb_refl. cbn [andb].
    assert (Hall : forallb (Z.eqb c) (replicate n c) = true) by (induction n as [|n IHn]; [done|]; cbn; by rewrite Z.eqb_refl). by rewrite Hall.
  - assert (Hf : forallb (Z.eqb c) (x :: s ++ replicate n c) = forallb (Z.eqb c) (x :: s)).
    { change (x :: s ++ replicate n c) with ((x :: s) ++ replicate n c). rewrite forallb_app.
      assert (Hall : forallb (Z.eqb c) (replicate n c) = true) by (clear; induction n as [|n IHn]; [done|]; cbn; by rewrite Z.eqb_refl). by rewrite Hall, andb_true_r. }
    rewrite Hf. case_match; [done|]. by rewrite IH.
Qed.

Lemma space_pad n : trim_left (length (replicate n 32)) (replicate n 32) = [].
Proof. induction n as [|n IH]; [done|]. cbn [replicate length trim_left]. change (space_len (32 :: _)) with 1%nat. cbn [drop]. exact IH. Qed.

(** Trailing blanks are trimmed off a word. *)
Lemma trimSpace_pad w n : Forall is_graph w -> w <> [] -> trimSpace (w ++ replicate n 32) = w.
Proof.
  intros Hg Hn. unfold trimSpace. destruct w as [|c w]; [done|]. cbn [app length trim_left].
  apply Forall_cons in Hg as [Hc Hg]. rewrite space_len_graph by done. clear Hn.
  revert c Hc; induction w as [|d w IH]; intros c Hc; cbn [app trim_right].
  - cbn [length trim_left]. rewrite space_len_graph by done. cbn [length Nat.eqb]. f_equal.
    destruct n as [|n]; [done|]. pose proof (space_pad (S n)) as Hp. cbn [replicate trim_right]. cbn [replicate] in Hp. by rewrite Hp.
  - apply Forall_cons in Hg as [Hd Hg]. specialize (IH Hg d Hd). cbn [length trim_left]. rewrite space_len_graph by done.
    cbn [length Nat.eqb]. f_equal. exact IH.
Qed.

(** A member as ar writes it; [am_mid] is the date, owner and mode columns. *)
Record armember := ArMember { am_name : bytes; am_mid : bytes; am_body : bytes }.

Definition am_size (m : armember) : Z := Z.of_nat (length (am_body m)).

Definition ar_header (m : armember) : bytes :=
  (am_name m ++ replicate (16 - length (am_name m)) 32) ++ am_mid m ++
  (formatUint (am_size m) ++ replicate (10 - length (formatUint (am_size m))) 32) ++ arEnd.

Definition ar_entry (m : armember) : bytes := ar_header m ++ am_body m ++ (if am_size m mod 2 =? 0 then [] else [10]).

Definition ar_file (ms : list armember) : bytes := archMagic ++ concat (map ar_entry ms).

Record am_wf (m : armember) : Prop := {
  aw_name : (length (am_name m) <= 16)%nat;
  aw_trim : trim_right_byte 32 (am_name m) = am_name m /\ trim_right_byte 47 (am_name m) = am_name m;
  aw_mid : length (am_mid m) = 32%nat;
  aw_size : am_size m < 2 ^ 64 /\ (length (formatUint (am_size m)) <= 10)%nat
}.

Lemma length_header m : am_wf m -> length (ar_header m) = arHdrSize.
Proof. intros [Hn _ Hm [_ Hs]]. unfold ar_header. rewrite !length_app, !length_replicate. cbn [length arEnd]. unfold arHdrSize. lia. Qed.

(** The columns of a header. *)
Lemma header_columns m t : am_wf m ->
  take 16 (ar_header m ++ t) = am_name m ++ replicate (16 - length (am_name m)) 32 /\
  take 10 (drop 48 (ar_header m ++ t)) = formatUint (am_size m) ++ replicate (10 - length (formatUint (am_size m))) 32 /\
  take 2 (drop 58 (ar_header m ++ t)) = arEnd.
Proof.
  intros [Hn _ Hm [_ Hs]]. unfold ar_header. set (nm := am_name m ++ _). set (sz := formatUint _ ++ _).
  assert (Lnm : length nm = 16%nat) by (unfold nm; rewrite length_app, length_replicate; lia).
  assert (Lsz : length sz = 10%nat) by (unfold sz; rewrite length_app, length_replicate; lia).
  rewrite <- !app_assoc. split_and!.
  - by rewrite take_app_length'.
  - replace 48%nat with (length (nm ++ am_mid m)) by (rewrite length_app; lia). rewrite app_assoc, drop_app_length. by rewrite take_app_length'.
  - replace 58%nat with (length (nm ++ am_mid m ++ sz)) by (rewrite !length_app; lia).
    replace (nm ++ am_mid m ++ sz ++ arEnd ++ t) with ((nm ++ am_mid m ++ sz) ++ arEnd ++ t) by (by rewrite <- !app_assoc). by rewrite drop_app_length.
Qed.

Lemma even_pad x : 0 <= x -> Z.of_nat (length (if x mod 2 =? 0 then [] else [10])) = (if x mod 2 =? 0 then 0 else 1).
Proof. intros. by case_match. Qed.

Lemma ar_loop_step fuel m rest name : am_wf m -> (length (ar_entry m ++ rest) <= fuel)%nat ->
  ar_loop fuel (ar_entry m ++ rest) name = if bytes_eqb (am_name m) name then Some (am_body m) else ar_loop (pred fuel) rest name.
Proof.
  intros Hw Hf. pose proof (length_header m Hw) as Lh. destruct fuel as [|fuel]; [unfold ar_entry in Hf; rewrite !length_app, Lh in Hf; unfold arHdrSize in Hf; lia|].
  cbn [ar_loop pred]. set (pad := if am_size m mod 2 =? 0 then [] else [10]).
  assert (Hdata : ar_entry m ++ rest = ar_header m ++ am_body m ++ pad ++ rest) by (unfold ar_entry; by rewrite <- !app_assoc).
  rewrite Hdata. destruct (header_columns m (am_body m ++ pad ++ rest) Hw) as (Hc1 & Hc2 & Hc3). rewrite Hc1, Hc2, Hc3.
  destruct (Nat.ltb_spec (length (ar_header m ++ am_body m ++ pad ++ rest)) arHdrSize) as [Hlt|_]; [rewrite length_app in Hlt; lia|].
  rewrite bytes_eqb_refl. cbn [negb]. destruct (formatUint_spec (am_size m)) as (Hne & _ & Hd & Hp); [split; [unfold am_size; lia|apply (aw_size m Hw)]|].
  rewrite trimSpace_pad; [|eapply Forall_impl; [exact Hd|]; intros; by apply digit_graph|done]. rewrite Hp.
  rewrite drop_app_length' by done. destruct (Z.ltb_spec (Z.of_nat (length (am_body m ++ pad ++ rest))) (am_size m)) as [Hlt|_]; [rewrite length_app in Hlt; unfold am_size in Hlt; lia|].
  rewrite trim_right_byte_pad, (proj1 (aw_trim m Hw)), (proj2 (aw_trim m Hw)).
  destruct (bytes_eqb (am_name m) name); [unfold am_size; by rewrite Nat2Z.id, take_app_length|].
  pose proof (even_pad (am_size m) ltac:(unfold am_size; lia)) as Hpad. fold pad in Hpad. rewrite <- Hpad.
  assert (Hadv : Z.of_nat arHdrSize + am_size m + Z.of_nat (length pad) = Z.of_nat (length (ar_header m ++ am_body m ++ pad))) by (rewrite !length_app, Lh; unfold am_size; lia).
  rewrite Hadv. destruct (Z.ltb_spec (Z.of_nat (length (ar_header m ++ am_body m ++ pad ++ rest))) (Z.of_nat (length (ar_header m ++ am_body m ++ pad)))) as [Hlt|_]; [rewrite !length_app in Hlt; lia|].
  rewrite Nat2Z.id. replace (ar_header m ++ am_body m ++ pad ++ rest) with ((ar_header m ++ am_body m ++ pad) ++ rest) by (by rewrite <- !app_assoc). by rewrite drop_app_length.
Qed.

Definition find_member (name : bytes) (ms : list armember) : option bytes :=
  match find (fun m => bytes_eqb (am_name m) name) ms with Some m => Some (am_body m) | None => None end.

Lemma ar_loop_reads ms name : Forall am_wf ms -> forall fuel, (length (concat (map ar_entry ms)) <= fuel)%nat ->
  ar_loop fuel (concat (map ar_entry ms)) name = find_member name ms.
Proof.
  unfold find_member. induction 1 as [|m ms Hw _ IH]; intros fuel Hf; cbn [map concat find] in *; [by destruct fuel|].
  rewrite ar_loop_step by done. destruct (bytes_eqb (am_name m) name); [done|]. apply IH.
  rewrite length_app in Hf. assert (Hlen : (0 < length (ar_entry m))%nat); [|lia].
  unfold ar_entry. rewrite !length_app, (length_header m Hw). unfold arHdrSize. lia.
Qed.

Lemma arMember_reads ms name : Forall am_wf ms -> arMember (ar_file ms) name = find_member name ms.
Proof. intros Hw. unfold arMember, ar_file. rewrite has_prefix_app, drop_app_length. by apply ar_loop_reads. Qed.

(** ** The guard *)

Lemma cut_before_mark front post : (forall m, (m < length front)%nat -> has_prefix (drop m (front ++ post)) exportMark = false) ->
  exists post', (match bytes_index (front ++ post) exportMark with Some i => take i (front ++ post) | None => front ++ post end) = front ++ post'.
Proof.
  intros Hm. destruct (bytes_index (front ++ post) exportMark) as [e|] eqn:E; [|by exists post].
  destruct (bytes_index_some _ _ _ E) as [[t Ht] _]. destruct (decide (e < length front)%nat) as [Hlt|Hge].
  - specialize (Hm e Hlt). rewrite Ht, drop_app_length', has_prefix_app in Hm; [done|]. rewrite length_take. rewrite length_app. lia.
  - exists (take (e - length front) post). by rewrite take_app_ge by lia.
Qed.

(** The export header of a compiled package: a build id, before the export data. *)
Record header_of (pkgdef action content : bytes) : Prop := {
  ho_text : exists pre post, pkgdef = (pre ++ buildMarker ++ action ++ stampSlash :: content ++ [quote]) ++ post /\
    (forall m, (m < length pre)%nat -> has_prefix (drop m (pre ++ buildMarker ++ action ++ stampSlash :: content ++ [quote])) buildMarker = false) /\
    (forall m, (m < length (pre ++ buildMarker ++ action ++ stampSlash :: content ++ [quote]))%nat -> has_prefix (drop m pkgdef) exportMark = false);
  ho_action : action <> [] /\ quote ∉ action /\ stampSlash ∉ action;
  ho_content : quote ∉ content
}.

Lemma archiveBuildID_reads ms pkgdef action content :
  Forall am_wf ms -> find_member pkgdefName ms = Some pkgdef -> header_of pkgdef action content ->
  archiveBuildID (ar_file ms) = (true, action, content).
Proof.
  intros Hw Hf [(pre & post & Hpkg & Hb & Hm) (_ & Hqa & Hsa) Hqc]. unfold archiveBuildID. rewrite (arMember_reads _ _ Hw), Hf.
  set (front := pre ++ buildMarker ++ action ++ stampSlash :: content ++ [quote]) in *. rewrite Hpkg in Hm |- *.
  destruct (cut_before_mark front post Hm) as [post' ->].
  assert (Hfront : front ++ post' = pre ++ buildMarker ++ (action ++ stampSlash :: content) ++ quote :: post').
  { unfold front. rewrite <- !app_assoc. cbn [app]. by rewrite <- !app_assoc. }
  assert (Hidx : bytes_index (front ++ post') buildMarker = Some (length pre)).
  { rewrite Hfront. apply bytes_index_first. intros m Hlt. rewrite <- Hfront. rewrite has_prefix_drop_cut; [by apply Hb|]. unfold front. rewrite !length_app. lia. }
  rewrite Hidx, Hfront, app_assoc, drop_app_length' by (by rewrite length_app).
  assert (Hq : quote ∉ action ++ stampSlash :: content) by (rewrite elem_of_app, elem_of_cons; intros [?|[?|?]]; done).
  rewrite (bytes_index_byte _ quote _ Hq), take_app_length, (bytes_index_byte action stampSlash content Hsa), take_app_length. f_equal.
  change (stampSlash :: content) with ([stampSlash] ++ content). rewrite app_assoc. apply drop_app_length'. by rewrite length_app.
Qed.

Lemma expected_action h : is_hash h -> ExpectedBuildIDAction (hex_encode h) = b64_rawurl (take BuildIDHashSize h).
Proof.
  intros [Hl Hb]. unfold ExpectedBuildIDAction. rewrite (hex_decode_encode h Hb), Hl. done.
Qed.

Lemma expected_nonempty h : is_hash h -> ExpectedBuildIDAction (hex_encode h) <> [].
Proof.
  intros Hh He. rewrite (expected_action h Hh) in He. destruct Hh as [Hl Hb]. unfold gbciHashSize in Hl.
  destruct h as [|a [|b [|c h]]]; cbn [length] in Hl; try lia. repeat (apply Forall_cons in Hb as [? Hb]).
  change (take BuildIDHashSize (a :: b :: c :: h)) with (a :: b :: c :: take 12 h) in He. by rewrite rawurl_group in He.
Qed.

(** Actions whose hashes differ in the stamped bytes are told apart. *)
Lemma expected_inj h h' : is_hash h -> is_hash h' ->
  ExpectedBuildIDAction (hex_encode h) = ExpectedBuildIDAction (hex_encode h') -> take BuildIDHashSize h = take BuildIDHashSize h'.
Proof.
  intros Hh Hh' He. rewrite !expected_action in He by done. destruct Hh as [Hl Hb], Hh' as [Hl' Hb']. unfold gbciHashSize in *.
  eapply (b64_rawurl_inj 5); [by apply Forall_take..|rewrite length_take; unfold BuildIDHashSize; lia|rewrite length_take; unfold BuildIDHashSize; lia|done].
Qed.

(** C36. A compiled package is refused under another action's key: for every
    archive whose export header carries the build id cmd/go stamps for the
    action [h], the guard answers yes for the key of [h], and yes for the key of
    [h'] only if the two hashes agree in the bytes that are stamped or the
    archive carries a content stamp. *)
Theorem buildid_guard ms pkgdef content h h' :
  Forall am_wf ms -> find_member pkgdefName ms = Some pkgdef ->
  header_of pkgdef (ExpectedBuildIDAction (hex_encode h)) content -> is_hash h -> is_hash h' ->
  BuildIDMatchesAction (hex_encode h) (ar_file ms) = (ExpectedBuildIDAction (hex_encode h), true) /\
  ((BuildIDMatchesAction (hex_encode h') (ar_file ms)).2 = true ->
   take BuildIDHashSize h = take BuildIDHashSize h' \/ content = ExpectedBuildIDAction (hex_encode h)).
Proof.
  intros Hw Hf Hhd Hh Hh'. unfold BuildIDMatchesAction. rewrite (archiveBuildID_reads _ _ _ _ Hw Hf Hhd).
  assert (Hne : forall g, is_hash g -> bytes_eqb (ExpectedBuildIDAction (hex_encode g)) [] = false)
    by (intros g Hg; apply bool_decide_eq_false; by apply expected_nonempty).
  rewrite (Hne h Hh). cbn [negb]. rewrite bytes_eqb_refl. split; [done|]. cbn [snd]. rewrite (Hne h' Hh').
  intros [He|He]%orb_true_iff; apply bytes_eqb_eq in He; [left; by apply expected_inj|by right].
Qed.

(** A body that is no package archive passes for any action: its hash alone guards it. *)
Lemma buildid_other body actionID : (archiveBuildID body).1.1 = false -> (archiveBuildID body).1.2 = [] -> (BuildIDMatchesAction actionID body).2 = true.
Proof. unfold BuildIDMatchesAction. destruct (archiveBuildID body) as [[isPkg action] content]. cbn [fst snd]. by intros -> ->. Qed.

(** ** A concrete archive *)

Definition demoAction : bytes := List.map Z.of_nat (seq 1 32).
Definition demoPkgdef : bytes :=
  str "go object linux amd64 go1.24" ++ [10] ++ buildMarker ++ ExpectedBuildIDAction (hex_encode demoAction) ++ stampSlash :: str "cc" ++ [quote; 10] ++ exportMark ++ str "B".
Definition demoMember : armember := ArMember pkgdefName (replicate 32 48) demoPkgdef.

Lemma demo_member_wf : am_wf demoMember.
Proof. constructor; [vm_compute; lia|split; vm_compute; reflexivity|vm_compute; reflexivity|split; [vm_compute; reflexivity|vm_compute; lia]]. Qed.

Lemma demo_header : header_of demoPkgdef (ExpectedBuildIDAction (hex_encode demoAction)) (str "cc").
Proof.
  constructor.
  - exists (str "go object linux amd64 go1.24" ++ [10]), ([10] ++ exportMark ++ str "B").
    split_and!; [reflexivity|apply bounded_prefix_false; vm_compute; reflexivity|apply bounded_prefix_false; vm_compute; reflexivity].
  - split_and!; [vm_compute; discriminate|apply (bool_decide_eq_true_1 (_ ∉ _)); vm_compute; reflexivity|apply (bool_decide_eq_true_1 (_ ∉ _)); vm_compute; reflexivity].
  - apply (bool_decide_eq_true_1 (_ ∉ _)); vm_compute; reflexivity.
Qed.

Lemma buildid_guard_witness :
  BuildIDMatchesAction (hex_encode demoAction) (ar_file [demoMember]) = (ExpectedBuildIDAction (hex_encode demoAction), true) /\
  (BuildIDMatchesAction (hex_encode zero_hash) (ar_file [demoMember])).2 = false.
Proof.
  assert (Hh : is_hash demoAction) by (split; [reflexivity|apply Forall_forall; intros x Hx; apply list_elem_of_In, in_map_iff in Hx as (k & <- & Hk); apply in_seq in Hk; unfold is_byte; lia]).
  assert (Hz : is_hash zero_hash) by (split; [reflexivity|apply Forall_replicate; by compute]).
  destruct (buildid_guard [demoMember] demoPkgdef (str "cc") demoAction zero_hash) as [H1 H2];
    [constructor; [exact demo_member_wf|constructor]|reflexivity|exact demo_header|exact Hh|exact Hz|].
  split; [exact H1|]. vm_compute. reflexivity.
Defined.
