(* ===== verification/Pkgbits.v ===== *)
(** * What an archive says of itself

    [cacheclient/archive.go], the labels of [compress.go] and the source list
    of [webput.go]: the export data of a compiled package (pkgbits), from which
    an upload takes the import path, the source files and the source directory,
    and the line that names the compiler and the target.

    An index out of range or a slice that cannot be made is a panic, and no
    caller recovers; so a reader answers a value or [Panic].  [limit] is the
    largest number of relocations the runtime makes a slice of. *)

From Stdlib Require Import ZArith Lia List Bool String.
From stdpp Require Import base list gmap.
From S2P Require Import Prelude Strconv GoSet Sha256 BitIO Paths ObjAttrs ContentStamp Archive.

Inductive outcome (A : Type) := Val (a : A) | Panic.
Arguments Val {A} a.
Arguments Panic {A}.

Definition obind {A B} (o : outcome A) (f : A -> outcome B) : outcome B := match o with Val a => f a | Panic => Panic end.

(** A read of [l] at [i]. *)
Definition at_index {A} (l : list A) (i : Z) : outcome A :=
  if (i <? 0) || (Z.of_nat (length l) <=? i) then Panic else match l !! Z.to_nat i with Some x => Val x | None => Panic end.

(** ** Varints and markers *)

(** [rawUvarint]: what does not fit 64 bits is shifted out; [None] is the end of the data. *)
Fixpoint raw_uvarint (x s : Z) (r : bytes) : option (Z * bytes) :=
  match r with
  | [] => None
  | b :: r' =>
      if b <? 128 then Some (Z.lor x (u64 (Z.shiftl b s)), r')
      else raw_uvarint (Z.lor x (u64 (Z.shiftl (Z.land b 127) s))) (s + 7) r'
  end.

Definition rawUvarint (r : bytes) : option (Z * bytes) := raw_uvarint 0 0 r.

Definition skipSync (sync : bool) (marker : Z) (r : bytes) : option bytes :=
  if negb sync then Some r
  else match rawUvarint r with
       | None => None
       | Some (v, r) => if Z.shiftr v 8 =? marker then Some r else None
       end.

Definition pbSectionString : nat := 0.
Definition pbSectionPosBase : nat := 2.
Definition pbSectionPkg : nat := 3.
Definition pbNumSections : nat := 10.
Definition pbFlagSyncMarkers : Z := 1.
Definition pbSyncRelocs : Z := 8.
Definition pbSyncReloc : Z := 9.
Definition pbSyncUseReloc : Z := 10.
Definition pbSyncUint64 : Z := 4.
Definition pbSyncString : Z := 5.
Definition pbSyncPosBase : Z := 13.
Definition pbSyncPkgDef : Z := 17.

(** ** The payload *)

Record pkgbitsPayload := PkgbitsPayload { elemEndsEnds : list Z; elemEnds : list Z; elemData : bytes; pb_sync : bool }.

(** [n] little-endian words of 32 bits. *)
Fixpoint words (n : nat) (b : bytes) : list Z :=
  match n with O => [] | S n' => le_value (take 4 b) :: words n' (drop 4 b) end.

Definition fingerprintSize : nat := 8.

(** The tables, after the version and the flags. *)
Definition parse_tables (flags : Z) (payload : bytes) : option pkgbitsPayload :=
  if (length payload <? pbNumSections * 4)%nat then None
  else
    let ee := words pbNumSections payload in
    let payload := drop (pbNumSections * 4) payload in
    let numElems := default 0 (ee !! (pbNumSections - 1)%nat) in
    if Z.of_nat (length payload) <? numElems * 4 then None
    else
      let ends := words (Z.to_nat numElems) payload in
      let payload := drop (Z.to_nat numElems * 4) payload in
      if (length payload <? fingerprintSize)%nat then None
      else Some (PkgbitsPayload ee ends (take (length payload - fingerprintSize) payload) (negb (Z.land flags pbFlagSyncMarkers =? 0))).

Definition parsePkgbits (payload : bytes) : option pkgbitsPayload :=
  if (length payload <? 4)%nat then None
  else
    let version := le_value (take 4 payload) in
    let payload := drop 4 payload in
    if 1 <=? version then if (length payload <? 4)%nat then None else parse_tables (le_value (take 4 payload)) (drop 4 payload)
    else parse_tables 0 payload.

Definition exportStart : bytes := str "$$B" ++ [10].
Definition exportEnd : bytes := [10] ++ str "$$" ++ [10].

Definition openPkgbits (data : bytes) : option pkgbitsPayload :=
  match arMember data pkgdefName with
  | None => None
  | Some pkgdef =>
      match bytes_index pkgdef exportStart with
      | None => None
      | Some idx =>
          match drop (idx + length exportStart) pkgdef with
          | [] => None
          | c :: payload =>
              if negb (c =? 117) then None
              else parsePkgbits (match bytes_index payload exportEnd with Some e => take e payload | None => payload end)
          end
      end
  end.

Definition section_end (p : pkgbitsPayload) (s : nat) : Z := default 0 (elemEndsEnds p !! s).
Definition section_base (p : pkgbitsPayload) (s : nat) : Z := match s with O => 0 | S s' => section_end p s' end.

Definition sectionLen (p : pkgbitsPayload) (s : nat) : Z := section_end p s - section_base p s.

(** The data of the element at [absIdx]; [None] for offsets that do not fit. *)
Definition elem_at (p : pkgbitsPayload) (absIdx : Z) : outcome (option bytes) :=
  obind (if 0 <? absIdx then at_index (elemEnds p) (absIdx - 1) else Val 0) (fun start =>
  obind (at_index (elemEnds p) absIdx) (fun e =>
  Val (if (Z.of_nat (length (elemData p)) <? e) || (e <? start) then None
       else Some (take (Z.to_nat (e - start)) (drop (Z.to_nat start) (elemData p)))))).

(** The relocation table: each round reads two varints at least. *)
Fixpoint read_relocs (fuel : nat) (n : Z) (sync : bool) (r : bytes) : option (list (Z * Z) * bytes) :=
  if n <=? 0 then Some ([], r)
  else
    match fuel with
    | O => None
    | S fuel' =>
        r ← skipSync sync pbSyncReloc r; r ← skipSync sync pbSyncUint64 r;
        '(kind, r) ← rawUvarint r;
        r ← skipSync sync pbSyncUint64 r;
        '(idx, r) ← rawUvarint r;
        '(rs, r) ← read_relocs fuel' (n - 1) sync r;
        Some ((kind, idx) :: rs, r)
    end.

(** What precedes the table, and the index that follows it. *)
Definition read_count (sync : bool) (r : bytes) : option (Z * bytes) :=
  r ← skipSync sync pbSyncRelocs r; r ← skipSync sync pbSyncUint64 r; rawUvarint r.

Definition read_use (sync : bool) (openingSync : Z) (r : bytes) : option Z :=
  r ← skipSync sync openingSync r; r ← skipSync sync pbSyncString r; r ← skipSync sync pbSyncUseReloc r;
  r ← skipSync sync pbSyncUint64 r; fst <$> rawUvarint r.

Section reading.
Context (limit : Z).

(** The relocation an element's leading string names: [make] comes before the reads of the table. *)
Definition read_ref (sync : bool) (openingSync : Z) (r : bytes) : outcome (option (Z * Z)) :=
  match read_count sync r with
  | None => Val None
  | Some (nrelocs, r) =>
      if limit <? nrelocs then Panic
      else match read_relocs (length r) nrelocs sync r with
           | None => Val None
           | Some (relocs, r) =>
               match read_use sync openingSync r with
               | None => Val None
               | Some relocIdx =>
                   if Z.of_nat (length relocs) <=? i64 relocIdx then Val None
                   else obind (at_index relocs relocIdx) (fun ref => Val (Some ref))
               end
           end
  end.

Definition readSectionString (p : pkgbitsPayload) (s : nat) (relIdx : Z) (openingSync : Z) : outcome bytes :=
  let absIdx := section_base p s + relIdx in
  if section_end p s <=? absIdx then Val []
  else obind (elem_at p absIdx) (fun el =>
       match el with
       | None => Val []
       | Some r =>
           obind (read_ref (pb_sync p) openingSync r) (fun ref =>
           match ref with
           | None => Val []
           | Some (kind, idx) =>
               if negb (kind =? Z.of_nat pbSectionString) then Val []
               else
                 let strElemAbs := i64 idx in
                 if section_end p pbSectionString <=? strElemAbs then Val []
                 else obind (elem_at p strElemAbs) (fun s => Val (default [] s))
           end)
       end).

Definition parseImportPath (data : bytes) : outcome bytes :=
  match openPkgbits data with None => Val [] | Some p => readSectionString p pbSectionPkg 0 pbSyncPkgDef end.

Definition describeObject (data : bytes) : outcome bytes :=
  let kind := detectObjectType data in
  obind (parseImportPath data) (fun pkg => Val (if bytes_eqb pkg [] then kind else kind ++ str " " ++ pkg)).

Definition pkgbitsImportPath (payload : bytes) : outcome bytes :=
  match parsePkgbits payload with None => Val [] | Some p => readSectionString p pbSectionPkg 0 pbSyncPkgDef end.

(** ** Source files *)

(** [filepath.Ext], with Unix separators. *)
Fixpoint ext_scan (rev_path acc : bytes) : bytes :=
  match rev_path with
  | [] => []
  | c :: r => if c =? slash then [] else if c =? 46 then c :: acc else ext_scan r (c :: acc)
  end.
Definition path_ext (path : bytes) : bytes := ext_scan (rev path) [].

Definition goExt : bytes := str ".go".

(** [strings.LastIndexAny] with both separators. *)
Fixpoint last_sep (s : bytes) : option nat :=
  match s with
  | [] => None
  | c :: s' => match last_sep s' with Some i => Some (S i) | None => if (c =? slash) || (c =? 92) then Some O else None end
  end.

Context {St : Type} `{!SetOps St bytes}.

(** [n] elements from [i] on. *)
Fixpoint source_loop (p : pkgbitsPayload) (n : nat) (i : Z) (seen : St) (files : list bytes) : outcome (list bytes) :=
  match n with
  | O => Val files
  | S n' =>
      obind (readSectionString p pbSectionPosBase i pbSyncPosBase) (fun full =>
      if bytes_eqb full [] then source_loop p n' (i + 1) seen files
      else
        let base := path_base full in
        if bytes_eqb (path_ext base) goExt && negb (s_contains seen base)
        then source_loop p n' (i + 1) (s_add base seen) (files ++ [base])
        else source_loop p n' (i + 1) seen files)
  end.

Definition parseSourceFiles (data : bytes) : outcome (list bytes) :=
  match openPkgbits data with
  | None => Val []
  | Some p => source_loop p (Z.to_nat (sectionLen p pbSectionPosBase)) 0 s_new []
  end.

Fixpoint dir_loop (p : pkgbitsPayload) (n : nat) (i : Z) : outcome bytes :=
  match n with
  | O => Val []
  | S n' =>
      obind (readSectionString p pbSectionPosBase i pbSyncPosBase) (fun full =>
      match last_sep full with
      | Some cut => if (0 <? cut)%nat && bytes_eqb (path_ext full) goExt then Val (take cut full) else dir_loop p n' (i + 1)
      | None => dir_loop p n' (i + 1)
      end)
  end.

Definition parseSourceDir (data : bytes) : outcome bytes :=
  match openPkgbits data with
  | None => Val []
  | Some p => dir_loop p (Z.to_nat (sectionLen p pbSectionPosBase)) 0
  end.

(** ** Labels *)

Definition goObject : bytes := str "go object ".

(** The scan for a line; every round drops the prefix found. *)
Fixpoint header_loop (fuel : nat) (window : bytes) : bytes * bytes :=
  match fuel with
  | O => ([], [])
  | S fuel' =>
      match bytes_index window goObject with
      | None => ([], [])
      | Some idx =>
          if (0 <? idx)%nat && negb (bool_decide (window !! (idx - 1)%nat = Some 10))
          then header_loop fuel' (drop (idx + length goObject) window)
          else
            let line := drop idx window in
            let line := match bytes_index line [10] with Some nl => take nl line | None => line end in
            match fields line with
            | _ :: _ :: goos :: goarch :: version :: _ => (version, goos ++ str "/" ++ goarch)
            | _ => ([], [])
            end
      end
  end.

Definition parseArchiveHeader (data : bytes) : bytes * bytes :=
  let window := take 1024 data in header_loop (length window) window.

Definition file_label (files : list bytes) : bytes :=
  match files with
  | [] => []
  | [f] => str " (" ++ f ++ str ")"
  | f :: fs => str " (" ++ f ++ str " +" ++ formatInt (Z.of_nat (length fs)) ++ str ")"
  end.

Definition DescribeData (data : bytes) : outcome bytes :=
  let objType := detectObjectType data in
  let '(goVer, target) := parseArchiveHeader data in
  let plain := if negb (bytes_eqb goVer []) && negb (bytes_eqb target []) then objType ++ str " " ++ goVer ++ str " " ++ target else objType in
  if bytes_eqb objType (str "go-archive") then
    obind (parseImportPath data) (fun pkg =>
    obind (parseSourceFiles data) (fun files =>
    Val (if bytes_eqb pkg [] then plain
         else if negb (bytes_eqb goVer []) && negb (bytes_eqb target [])
         then objType ++ str " " ++ pkg ++ file_label files ++ str " " ++ goVer ++ str " " ++ target
         else objType ++ str " " ++ pkg ++ file_label files)))
  else Val plain.
End reading.

(** ** The source list of an upload *)

Definition srcMetaMaxFiles : nat := 8.
Definition srcMetaMaxBytes : nat := 256.

(** [strings.Join] with a blank. *)
Fixpoint join_blank (l : list bytes) : bytes :=
  match l with [] => [] | [x] => x | x :: l' => x ++ str " " ++ join_blank l' end.

(** The value with the first [n] names. *)
Definition src_text (files : list bytes) (n : nat) : bytes :=
  let s := join_blank (take n files) in
  let dropped := (length files - length (take n files))%nat in
  if (0 <? dropped)%nat then
    let suffix := str "+" ++ formatInt (Z.of_nat dropped) ++ str " more" in
    if bytes_eqb s [] then suffix else s ++ str " " ++ suffix
  else s.

Fixpoint cap_loop (files : list bytes) (n : nat) : bytes :=
  let s := src_text files n in
  match n with
  | O => s
  | S n' => if (length s <=? srcMetaMaxBytes)%nat then s else cap_loop files n'
  end.

Definition capSrcList (files : list bytes) : bytes := cap_loop files (Nat.min (length files) srcMetaMaxFiles).

(** ** The format

    Export data as the reader expects it: the number of elements up to each
    section, the offset at which each element ends, the elements and a
    fingerprint. *)

Fixpoint sums (acc : Z) (l : list Z) : list Z := match l with [] => [] | x :: l' => (acc + x) :: sums (acc + x) l' end.

Definition zlen {A} (l : list A) : Z := Z.of_nat (length l).

Definition word_bytes (l : list Z) : bytes := concat (map (le_bytes 4) l).

Record export := Export { ex_version : Z; ex_sync : bool; ex_sections : list (list bytes); ex_fingerprint : bytes }.

Definition ex_elems (e : export) : list bytes := concat (ex_sections e).

Definition encode_export (e : export) : bytes :=
  le_bytes 4 (ex_version e) ++ (if 1 <=? ex_version e then le_bytes 4 (if ex_sync e then 1 else 0) else []) ++
  word_bytes (sums 0 (map zlen (ex_sections e))) ++ word_bytes (sums 0 (map zlen (ex_elems e))) ++
  concat (ex_elems e) ++ ex_fingerprint e.

Record export_wf (e : export) : Prop := {
  ew_version : 0 <= ex_version e < 2 ^ 32 /\ (ex_sync e = true -> 1 <= ex_version e);
  ew_sections : length (ex_sections e) = pbNumSections;
  ew_size : zlen (ex_elems e) < 2 ^ 32 /\ zlen (concat (ex_elems e)) < 2 ^ 32;
  ew_print : length (ex_fingerprint e) = fingerprintSize
}.

(** A sync marker as the encoder of the compiler writes it: the marker, the
    number of stack frames, and a reference for each frame.  The header of an
    element has no frames. *)
Definition sync_bytes (sync : bool) (marker : Z) (frames : list Z) : bytes :=
  if sync then appendUvarint marker ++ appendUvarint (zlen frames) ++ concat (map appendUvarint frames) else [].

Definition reloc_bytes (sync : bool) (r : Z * Z) : bytes :=
  sync_bytes sync pbSyncReloc [] ++ sync_bytes sync pbSyncUint64 [] ++ appendUvarint r.1 ++ sync_bytes sync pbSyncUint64 [] ++ appendUvarint r.2.

(** An element that opens with a string: its relocations, and which of them
    names the string.  [frames] gives the stack frames written with a marker. *)
Definition element (sync : bool) (frames : Z -> list Z) (openingSync : Z) (relocs : list (Z * Z)) (k : Z) (rest : bytes) : bytes :=
  sync_bytes sync pbSyncRelocs [] ++ sync_bytes sync pbSyncUint64 [] ++ appendUvarint (zlen relocs) ++ concat (map (reloc_bytes sync) relocs) ++
  sync_bytes sync openingSync (frames openingSync) ++ sync_bytes sync pbSyncString (frames pbSyncString) ++
  sync_bytes sync pbSyncUseReloc (frames pbSyncUseReloc) ++ sync_bytes sync pbSyncUint64 (frames pbSyncUint64) ++ appendUvarint k ++ rest.

(** [el] opens with the string [s] of the string section. *)
Definition opens_with (limit : Z) (e : export) (openingSync : Z) (el s : bytes) : Prop :=
  exists frames relocs k j rest, el = element (ex_sync e) frames openingSync relocs k rest /\ zlen relocs <= limit < 2 ^ 63 /\
    Forall (fun r => is_u64 r.1 /\ is_u64 r.2) relocs /\ 0 <= k /\ relocs !! Z.to_nat k = Some (0, j) /\ 0 <= j < 2 ^ 63 /\
    default [] (ex_sections e !! pbSectionString) !! Z.to_nat j = Some s.

(** ** Reading the parts *)

Lemma raw_get_uvarint buf : forall i x s v w, get_uvarint i x s buf = (v, w) -> Z.of_nat i < w ->
  raw_uvarint x s buf = Some (v, drop (Z.to_nat w - i) buf).
Proof.
  induction buf as [|b buf IH]; intros i x s v w; cbn [get_uvarint raw_uvarint]; [intros [= <- <-]; lia|].
  destruct (i =? maxVarintLen64)%nat; [intros [= <- <-]; lia|]. destruct (b <? 128).
  - destruct (_ && _); intros [= <- <-] Hw; [lia|]. replace (Z.to_nat (Z.of_nat i + 1) - i)%nat with 1%nat by lia. done.
  - intros Hg Hw. destruct (decide (Z.of_nat (S i) < w)) as [Hlt|Hge].
    + rewrite (IH _ _ _ _ _ Hg Hlt). replace (Z.to_nat w - i)%nat with (S (Z.to_nat w - S i)) by lia. done.
    + exfalso. clear IH. assert (Hw' : w <= 0 \/ Z.of_nat (S i) < w); [|lia]. revert Hg. clear.
      generalize (S i) as n, (Z.lor x (u64 (Z.shiftl (Z.land b 127) s))) as y, (s + 7) as t. revert v w.
      induction buf as [|c buf IH]; intros v w n y t; cbn [get_uvarint]; [intros [= <- <-]; lia|].
      destruct (n =? maxVarintLen64)%nat; [intros [= <- <-]; lia|]. destruct (c <? 128).
      * destruct (_ && _); intros [= <- <-]; lia.
      * intros Hg. destruct (IH _ _ _ _ _ Hg); lia.
Qed.

Lemma rawUvarint_append x t : is_u64 x -> rawUvarint (appendUvarint x ++ t) = Some (x, t).
Proof.
  intros Hx. pose proof (uvarint_append x t Hx) as Hu. pose proof (length_appendUvarint x) as Hl. unfold rawUvarint.
  rewrite (raw_get_uvarint _ _ _ _ _ _ Hu) by lia. by rewrite Nat2Z.id, Nat.sub_0_r, drop_app_length.
Qed.

Lemma read_relocs_bytes relocs t : Forall (fun r => is_u64 r.1 /\ is_u64 r.2) relocs -> forall fuel, (length relocs <= fuel)%nat ->
  read_relocs fuel (zlen relocs) false (concat (map (reloc_bytes false) relocs) ++ t) = Some (relocs, t).
Proof.
  unfold zlen. induction 1 as [|[kind idx] relocs [Hk Hi] _ IH]; intros fuel Hf; cbn [length map concat] in *; [by destruct fuel|].
  destruct fuel as [|fuel]; [lia|]. cbn [read_relocs]. rewrite (proj2 (Z.leb_gt _ 0)) by lia. unfold reloc_bytes at 1, skipSync. cbn [fst snd sync_bytes app negb] in *.
  cbn [mbind option_bind]. rewrite <- !app_assoc, rawUvarint_append by done. cbn [mbind option_bind].
  rewrite rawUvarint_append by done. cbn [mbind option_bind]. replace (Z.of_nat (S (length relocs)) - 1) with (Z.of_nat (length relocs)) by lia.
  rewrite IH by lia. done.
Qed.

Lemma relocs_length relocs : (length relocs <= length (concat (map (reloc_bytes false) relocs)))%nat.
Proof.
  induction relocs as [|r relocs IH]; [done|]. cbn [map concat length]. rewrite length_app. unfold reloc_bytes at 1.
  rewrite !length_app. pose proof (length_appendUvarint r.1). lia.
Qed.

Lemma read_ref_element limit frames openingSync relocs k rest ref : zlen relocs <= limit < 2 ^ 63 ->
  Forall (fun r => is_u64 r.1 /\ is_u64 r.2) relocs -> 0 <= k -> relocs !! Z.to_nat k = Some ref ->
  read_ref limit false openingSync (element false frames openingSync relocs k rest) = Val (Some ref).
Proof.
  intros Hl Hr Hk Href. pose proof (lookup_lt_Some _ _ _ Href) as Hlt. unfold zlen in *.
  unfold read_ref, element, read_count, skipSync. cbn [negb sync_bytes app mbind option_bind]. rewrite rawUvarint_append by (unfold is_u64, zlen; lia).
  unfold zlen at 1. rewrite (proj2 (Z.ltb_ge _ _)) by lia. rewrite read_relocs_bytes; [|done|].
  2:{ rewrite length_app. pose proof (relocs_length relocs). lia. }
  unfold read_use, skipSync. cbn [negb mbind option_bind].
  rewrite rawUvarint_append by (unfold is_u64; lia). cbn [fmap option_fmap option_map fst]. rewrite i64_small by lia.
  rewrite (proj2 (Z.leb_gt _ _)) by lia. unfold at_index. rewrite (proj2 (Z.ltb_ge _ _)), (proj2 (Z.leb_gt _ _)) by lia. cbn [orb]. by rewrite Href.
Qed.

(** The first marker already fails: the reader expects it in the high bits of one number. *)
Lemma read_ref_marked limit frames openingSync relocs k rest :
  read_ref limit true openingSync (element true frames openingSync relocs k rest) = Val None.
Proof.
  unfold read_ref, element, read_count, skipSync. cbn [negb sync_bytes]. rewrite <- !app_assoc, rawUvarint_append by (vm_compute; by split). done.
Qed.

(** ** The tables *)

Lemma sums_lookup l : forall acc i x, l !! i = Some x -> sums acc l !! i = Some (acc + foldr Z.add 0 (take i l) + x).
Proof.
  induction l as [|y l IH]; intros acc i x; [done|]. destruct i as [|i]; cbn [lookup list_lookup sums take foldr].
  - intros [= <-]. f_equal. lia.
  - intros Hx. rewrite (IH _ _ _ Hx). f_equal. lia.
Qed.

Lemma length_sums acc l : length (sums acc l) = length l.
Proof. revert acc; induction l as [|x l IH]; intros acc; [done|]. cbn. by rewrite IH. Qed.

Lemma sum_zlen {A} (l : list (list A)) : foldr Z.add 0 (map zlen l) = zlen (concat l).
Proof. unfold zlen. induction l as [|x l IH]; [done|]. cbn [map foldr concat]. rewrite length_app, IH. lia. Qed.

Lemma sums_range {A} (l : list (list A)) : Forall (fun x => 0 <= x <= zlen (concat l)) (sums 0 (map zlen l)).
Proof.
  apply Forall_lookup. intros i x Hx. pose proof (lookup_lt_Some _ _ _ Hx) as Hi. rewrite length_sums, length_map in Hi.
  destruct (lookup_lt_is_Some_2 l i Hi) as [y Hy]. rewrite (sums_lookup _ 0 i (zlen y)) in Hx by (change (map zlen l) with (zlen <$> l); by rewrite list_lookup_fmap, Hy).
  injection Hx as <-. rewrite firstn_map, sum_zlen. rewrite <- (take_drop_middle l i y Hy) at 3. unfold zlen. rewrite concat_app, length_app. cbn [concat].
  rewrite length_app. lia.
Qed.

Lemma words_bytes l t : Forall (fun x => 0 <= x < 2 ^ 32) l -> words (length l) (word_bytes l ++ t) = l.
Proof.
  unfold word_bytes. induction 1 as [|x l Hx _ IH]; [done|]. cbn [length words map concat]. rewrite <- app_assoc.
  rewrite take_app_length', drop_app_length' by (by rewrite length_le_bytes). rewrite IH, le_value_bytes by lia.
  f_equal. apply Z.mod_small. done.
Qed.

Lemma length_word_bytes l : length (word_bytes l) = (length l * 4)%nat.
Proof. unfold word_bytes. induction l as [|x l IH]; [done|]. cbn [map concat length]. rewrite length_app, length_le_bytes, IH. lia. Qed.

Definition payload_of (e : export) : pkgbitsPayload :=
  PkgbitsPayload (sums 0 (map zlen (ex_sections e))) (sums 0 (map zlen (ex_elems e))) (concat (ex_elems e)) (ex_sync e).

(** The reader finds the tables and the data as they were written. *)
Lemma parse_tables_export flags e : export_wf e -> negb (Z.land flags pbFlagSyncMarkers =? 0) = ex_sync e ->
  parse_tables flags (word_bytes (sums 0 (map zlen (ex_sections e))) ++ word_bytes (sums 0 (map zlen (ex_elems e))) ++
    concat (ex_elems e) ++ ex_fingerprint e) = Some (payload_of e).
Proof.
  intros [_ Hn [Hc Hd] Hp] Hfl. unfold parse_tables.
  set (ss := sums 0 (map zlen (ex_sections e))). set (es := sums 0 (map zlen (ex_elems e))).
  assert (Hss : length ss = pbNumSections) by (unfold ss; by rewrite length_sums, length_map).
  assert (Hes : length es = length (ex_elems e)) by (unfold es; by rewrite length_sums, length_map).
  assert (Hsr : Forall (fun x => 0 <= x < 2 ^ 32) ss)
    by (eapply Forall_impl; [apply sums_range|]; intros x Hx; cbn beta in Hx; unfold ex_elems in Hc; lia).
  assert (Her : Forall (fun x => 0 <= x < 2 ^ 32) es) by (eapply Forall_impl; [apply sums_range|]; intros x Hx; cbn beta in Hx; lia).
  assert (Hlast : ss !! (pbNumSections - 1)%nat = Some (Z.of_nat (length es))).
  { destruct (lookup_lt_is_Some_2 (ex_sections e) (pbNumSections - 1)) as [y Hy]; [rewrite Hn; unfold pbNumSections; lia|].
    unfold ss. rewrite (sums_lookup _ 0 _ (zlen y)) by (change (map zlen (ex_sections e)) with (zlen <$> ex_sections e); by rewrite list_lookup_fmap, Hy).
    rewrite Hes. f_equal. rewrite firstn_map, sum_zlen. unfold ex_elems. rewrite <- (take_drop_middle _ _ _ Hy) at 2.
    rewrite (drop_ge _ (S _)) by (rewrite Hn; unfold pbNumSections; lia). unfold zlen. rewrite concat_app, length_app. cbn [concat]. rewrite app_nil_r. lia. }
  rewrite length_app, length_word_bytes, Hss. destruct (Nat.ltb_spec (pbNumSections * 4 + length (word_bytes es ++ concat (ex_elems e) ++ ex_fingerprint e)) (pbNumSections * 4)); [lia|].
  assert (Hw : forall t, words pbNumSections (word_bytes ss ++ t) = ss) by (intros t; rewrite <- Hss; by apply words_bytes).
  rewrite Hw. rewrite drop_app_length' by (by rewrite length_word_bytes, Hss). rewrite Hlast. change (default 0 (Some (Z.of_nat (length es)))) with (Z.of_nat (length es)). rewrite Nat2Z.id, (words_bytes es _ Her).
  rewrite drop_app_length' by (by rewrite length_word_bytes). rewrite length_app, length_word_bytes.
  destruct (Z.ltb_spec (Z.of_nat (length es * 4 + length (concat (ex_elems e) ++ ex_fingerprint e))) (Z.of_nat (length es) * 4)); [lia|].
  rewrite length_app, Hp. destruct (Nat.ltb_spec (length (concat (ex_elems e)) + fingerprintSize) fingerprintSize); [lia|].
  replace (length (concat (ex_elems e)) + fingerprintSize - fingerprintSize)%nat with (length (concat (ex_elems e))) by lia.
  by rewrite take_app_length, Hfl.
Qed.

Lemma parsePkgbits_export e : export_wf e -> parsePkgbits (encode_export e) = Some (payload_of e).
Proof.
  intros Hw. destruct (ew_version e Hw) as [Hv Hs]. unfold parsePkgbits, encode_export. set (tail := word_bytes _ ++ _).
  rewrite length_app, length_le_bytes. destruct (Nat.ltb_spec (4 + length ((if 1 <=? ex_version e then le_bytes 4 (if ex_sync e then 1 else 0) else []) ++ tail)) 4); [lia|].
  rewrite take_app_length', drop_app_length' by (by rewrite length_le_bytes). rewrite le_value_bytes by lia.
  rewrite (Z.mod_small (ex_version e)) by exact Hv. destruct (Z.leb_spec 1 (ex_version e)) as [H1|H0].
  - rewrite length_app, length_le_bytes. destruct (Nat.ltb_spec (4 + length tail) 4); [lia|].
    rewrite take_app_length', drop_app_length' by (by rewrite length_le_bytes). apply parse_tables_export; [done|]. by destruct (ex_sync e).
  - apply parse_tables_export; [done|]. destruct (ex_sync e); [specialize (Hs eq_refl); lia|done].
Qed.

Lemma sums_at {A} (l : list (list A)) i : (i < length l)%nat -> sums 0 (map zlen l) !! i = Some (zlen (concat (take (S i) l))).
Proof.
  intros Hi. destruct (lookup_lt_is_Some_2 l i Hi) as [y Hy].
  rewrite (sums_lookup _ 0 i (zlen y)) by (change (map zlen l) with (zlen <$> l); by rewrite list_lookup_fmap, Hy).
  f_equal. rewrite firstn_map, sum_zlen, (take_S_r _ _ _ Hy). unfold zlen. rewrite concat_app, length_app. cbn [concat]. rewrite app_nil_r. lia.
Qed.

Lemma at_index_lookup {A} (l : list A) i x : l !! i = Some x -> at_index l (Z.of_nat i) = Val x.
Proof.
  intros Hx. pose proof (lookup_lt_Some _ _ _ Hx). unfold at_index. rewrite (proj2 (Z.ltb_ge _ _)), (proj2 (Z.leb_gt _ _)) by lia.
  cbn [orb]. by rewrite Nat2Z.id, Hx.
Qed.

Lemma concat_split {A} (l : list (list A)) i x : l !! i = Some x ->
  concat l = concat (take i l) ++ x ++ concat (drop (S i) l) /\ concat (take (S i) l) = concat (take i l) ++ x.
Proof.
  intros Hx. split.
  - rewrite <- (take_drop_middle l i x Hx) at 1. by rewrite concat_app.
  - rewrite (take_S_r _ _ _ Hx), concat_app. cbn [concat]. by rewrite app_nil_r.
Qed.

Lemma elem_at_export e i el : ex_elems e !! i = Some el -> elem_at (payload_of e) (Z.of_nat i) = Val (Some el).
Proof.
  intros Hel. pose proof (lookup_lt_Some _ _ _ Hel) as Hi. unfold elem_at. cbn [elemEnds elemData payload_of].
  assert (Hstart : (if 0 <? Z.of_nat i then at_index (sums 0 (map zlen (ex_elems e))) (Z.of_nat i - 1) else Val 0)
    = Val (zlen (concat (take i (ex_elems e))))).
  { destruct i as [|j]; [done|]. rewrite (proj2 (Z.ltb_lt _ _)) by lia. replace (Z.of_nat (S j) - 1) with (Z.of_nat j) by lia.
    apply at_index_lookup, sums_at. lia. }
  rewrite Hstart. cbn [obind]. rewrite (at_index_lookup _ i _ (sums_at _ _ Hi)). cbn [obind].
  destruct (concat_split _ _ _ Hel) as [Hc ->]. unfold zlen. rewrite Hc at 1. rewrite !length_app.
  rewrite (proj2 (Z.ltb_ge _ _)), (proj2 (Z.ltb_ge _ _)) by lia. cbn [orb]. do 2 f_equal.
  rewrite Hc at 1. rewrite Nat2Z.id, drop_app_length. rewrite <- Nat2Z.inj_sub, Nat2Z.id by lia.
  replace (_ + _ - _)%nat with (length el) by lia. by rewrite take_app_length.
Qed.

Lemma section_base_export e s : (s <= length (ex_sections e))%nat ->
  section_base (payload_of e) s = zlen (concat (take s (ex_sections e))).
Proof.
  intros Hs. destruct s as [|s']; [done|]. cbn [section_base]. unfold section_end. cbn [elemEndsEnds payload_of]. by rewrite sums_at by lia.
Qed.

(** An element of a section, by its place among all. *)
Lemma section_export e s sec i el : ex_sections e !! s = Some sec -> sec !! i = Some el ->
  section_base (payload_of e) s = zlen (concat (take s (ex_sections e))) /\
  section_end (payload_of e) s = section_base (payload_of e) s + zlen sec /\
  ex_elems e !! (length (concat (take s (ex_sections e))) + i)%nat = Some el.
Proof.
  intros Hs Hi. pose proof (lookup_lt_Some _ _ _ Hs) as Hlt. destruct (concat_split _ _ _ Hs) as [Hc Ht].
  pose proof (section_base_export e s ltac:(lia)) as Hb. split_and!; [done| |].
  - rewrite Hb. unfold section_end. cbn [elemEndsEnds payload_of]. rewrite sums_at by done. rewrite Ht. cbn [default from_option id].
    change (default 0 (Some ?x)) with x. unfold zlen. rewrite length_app. lia.
  - unfold ex_elems. rewrite Hc, lookup_app_r by lia. replace (_ + i - _)%nat with i by lia. rewrite lookup_app_l; [done|by eapply lookup_lt_Some].
Qed.

Lemma readSectionString_export limit e s sec i el openingSync v : ex_sections e !! s = Some sec -> sec !! i = Some el ->
  opens_with limit e openingSync el v -> readSectionString limit (payload_of e) s (Z.of_nat i) openingSync = Val (if ex_sync e then [] else v).
Proof.
  intros Hs Hi (frames & relocs & k & j & rest & -> & Hl & Hr & Hk & Href & Hj & Hv). unfold readSectionString.
  destruct (section_export _ _ _ _ _ Hs Hi) as (Hb & He & Hel). pose proof (lookup_lt_Some _ _ _ Hi) as Hlt.
  rewrite He. rewrite (proj2 (Z.leb_gt _ _)) by (unfold zlen; lia). rewrite Hb. unfold zlen. rewrite <- Nat2Z.inj_add.
  rewrite (elem_at_export _ _ _ Hel). cbn [obind]. cbn [pb_sync payload_of]. destruct (ex_sync e); [by rewrite read_ref_marked|].
  rewrite (read_ref_element limit _ _ _ _ _ _ Hl Hr Hk Href). cbn [obind].
  change (negb (0 =? Z.of_nat pbSectionString)) with false. cbv iota. rewrite i64_small by lia.
  destruct (ex_sections e !! pbSectionString) as [strings|] eqn:Es; [|done]. change (default [] (Some strings)) with strings in Hv.
  destruct (section_export _ _ _ _ _ Es Hv) as (_ & He0 & Hel0). pose proof (lookup_lt_Some _ _ _ Hv) as Hlt0.
  change (ex_elems e !! Z.to_nat j = Some v) in Hel0. rewrite He0. change (section_base (payload_of e) pbSectionString) with 0. unfold zlen.
  rewrite (proj2 (Z.leb_gt _ _)) by lia. rewrite <- (Z2Nat.id j) by lia. rewrite (elem_at_export _ _ _ Hel0). done.
Qed.

Lemma sectionLen_export e s sec : ex_sections e !! s = Some sec -> sectionLen (payload_of e) s = zlen sec.
Proof.
  intros Hs. pose proof (lookup_lt_Some _ _ _ Hs) as Hlt. destruct (concat_split _ _ _ Hs) as [_ Ht]. unfold sectionLen, section_end.
  cbn [elemEndsEnds payload_of]. rewrite sums_at, Ht by done. change (default 0 (Some ?x)) with x.
  rewrite section_base_export by lia. unfold zlen. rewrite length_app. lia.
Qed.

(** ** What an upload reads of an archive *)

(** A package archive with the export data [e]. *)
Definition holds_export (ms : list armember) (e : export) : Prop :=
  Forall am_wf ms /\ exists pre post, find_member pkgdefName ms = Some (pre ++ exportStart ++ 117 :: encode_export e ++ exportEnd ++ post) /\
    (forall m, (m < length pre)%nat -> has_prefix (drop m (pre ++ exportStart ++ 117 :: encode_export e ++ exportEnd ++ post)) exportStart = false) /\
    (forall m, (m < length (encode_export e))%nat -> has_prefix (drop m (encode_export e ++ exportEnd ++ post)) exportEnd = false).

Lemma openPkgbits_export ms e : holds_export ms e -> export_wf e -> openPkgbits (ar_file ms) = Some (payload_of e).
Proof.
  intros (Hms & pre & post & Hf & Hpre & Hend) He. unfold openPkgbits. rewrite (arMember_reads _ _ Hms), Hf.
  rewrite (bytes_index_first pre exportStart) by done. rewrite app_assoc, drop_app_length' by (by rewrite length_app).
  change (negb (117 =? 117)) with false. cbv iota. rewrite (bytes_index_first (encode_export e) exportEnd) by done.
  rewrite take_app_length. by apply parsePkgbits_export.
Qed.

Definition go_bases (fulls : list bytes) : list bytes :=
  filter (fun b => path_ext b = goExt) (map path_base (filter (fun f => f <> []) fulls)).

(** The directory a source file was compiled in. *)
Definition dir_of (full : bytes) : option bytes :=
  cut ← last_sep full; if (0 <? cut)%nat && bytes_eqb (path_ext full) goExt then Some (take cut full) else None.

Section archives.
Context (limit : Z) {St : Type} `{!SetOps St bytes} `{!SetLaws St bytes}.

Lemma source_loop_reads p n : forall i seen files fulls,
  length fulls = n -> (forall k full, fulls !! k = Some full -> readSectionString limit p pbSectionPosBase (i + Z.of_nat k) pbSyncPosBase = Val full) ->
  (forall b, s_contains seen b = bool_decide (b ∈ files)) -> NoDup files ->
  exists new, source_loop limit p n i seen files = Val (files ++ new) /\ NoDup (files ++ new) /\ new `sublist_of` go_bases fulls /\
    forall b, b ∈ go_bases fulls -> b ∈ files ++ new.
Proof.
  induction n as [|n IH]; intros i seen files fulls Hn Hread Hseen Hnd.
  { destruct fulls; [|done]. exists []. rewrite app_nil_r. split_and!; try done. intros b Hb. by apply not_elem_of_nil in Hb. }
  destruct fulls as [|full fulls]; [done|]. injection Hn as Hn. cbn [source_loop].
  pose proof (Hread 0%nat full eq_refl) as H0. rewrite Z.add_0_r in H0. rewrite H0. cbn [obind].
  assert (Hread' : forall k f, fulls !! k = Some f -> readSectionString limit p pbSectionPosBase (i + 1 + Z.of_nat k) pbSyncPosBase = Val f).
  { intros k f Hk. replace (i + 1 + Z.of_nat k) with (i + Z.of_nat (S k)) by lia. by apply Hread. }
  unfold go_bases. destruct (bytes_eqb full []) eqn:Ef.
  { apply bytes_eqb_eq in Ef as ->. rewrite filter_cons_False by (by intros []). by apply IH. }
  assert (Hne : full <> []) by (intros ->; by rewrite bytes_eqb_refl in Ef). rewrite filter_cons_True by done. cbn [map].
  destruct (bytes_eqb (path_ext (path_base full)) goExt) eqn:Ex; cbn [andb].
  2:{ rewrite filter_cons_False by (intros E; by rewrite E, bytes_eqb_refl in Ex). by apply IH. }
  apply bytes_eqb_eq in Ex. rewrite filter_cons_True by done. rewrite Hseen. case_bool_decide as Hin; cbn [negb].
  - destruct (IH (i + 1) seen files fulls Hn Hread' Hseen Hnd) as (new & -> & Hnd' & Hsub & Hall). exists new. split_and!; try done.
    + by apply sublist_cons.
    + intros b [->|Hb]%elem_of_cons; [by apply elem_of_app; left|by apply Hall].
  - destruct (IH (i + 1) (s_add (path_base full) seen) (files ++ [path_base full]) fulls Hn Hread') as (new & -> & Hnd' & Hsub & Hall).
    + intros b. rewrite contains_add, Hseen. apply eq_bool_prop_intro. rewrite orb_True, !bool_decide_spec, elem_of_app, list_elem_of_singleton. tauto.
    + apply NoDup_app. split_and!; [done|intros x Hx ->%list_elem_of_singleton; done|apply NoDup_singleton].
    + exists (path_base full :: new). rewrite (cons_middle _ files new), app_assoc. split_and!; try done; [by apply sublist_skip|].
      intros b [->|Hb]%elem_of_cons; [|by apply Hall]. apply elem_of_app. left. apply elem_of_app. right. by apply list_elem_of_singleton.
Qed.

Lemma dir_loop_reads p n : forall i fulls, length fulls = n ->
  (forall k full, fulls !! k = Some full -> readSectionString limit p pbSectionPosBase (i + Z.of_nat k) pbSyncPosBase = Val full) ->
  dir_loop limit p n i = Val (default [] (head (omap dir_of fulls))).
Proof.
  induction n as [|n IH]; intros i fulls Hn Hread; [by destruct fulls|]. destruct fulls as [|full fulls]; [done|]. injection Hn as Hn. cbn [dir_loop].
  pose proof (Hread 0%nat full eq_refl) as H0. rewrite Z.add_0_r in H0. rewrite H0. cbn [obind].
  assert (Hrest : dir_loop limit p n (i + 1) = Val (default [] (head (omap dir_of fulls)))).
  { apply IH; [done|]. intros k f Hk. replace (i + 1 + Z.of_nat k) with (i + Z.of_nat (S k)) by lia. by apply Hread. }
  unfold dir_of at 1. cbn [omap list_omap]. destruct (last_sep full) as [cut|]; [|exact Hrest]. cbn [mbind option_bind].
  destruct (_ && _); [done|exact Hrest].
Qed.

(** Empty names are no files. *)
Lemma nothing_bases (fulls : list bytes) : go_bases ((fun _ => []) <$> fulls) = [].
Proof. induction fulls as [|f fulls IH]; [done|]. rewrite fmap_cons. unfold go_bases in *. rewrite filter_cons_False by (by intros []). done. Qed.

Lemma nothing_dirs (fulls : list bytes) : default [] (head (omap dir_of ((fun _ => []) <$> fulls))) = [].
Proof. by induction fulls. Qed.

End archives.

(** ** Malformed export data *)

Lemma raw_uvarint_range r : forall x s v t, is_u64 x -> raw_uvarint x s r = Some (v, t) -> is_u64 v.
Proof.
  induction r as [|b r IH]; intros x s v t Hx; cbn [raw_uvarint]; [done|]. destruct (b <? 128).
  - intros [= <- _]. apply lor_u64; [done|apply u64_range].
  - apply IH, lor_u64; [done|apply u64_range].
Qed.

Lemma rawUvarint_range r v t : rawUvarint r = Some (v, t) -> is_u64 v.
Proof. apply raw_uvarint_range. by unfold is_u64. Qed.

Lemma read_relocs_range fuel : forall n sync r rs t, read_relocs fuel n sync r = Some (rs, t) ->
  Forall (fun x => is_u64 x.2) rs /\ zlen rs = Z.max 0 n.
Proof.
  assert (H0 : forall n, n <= 0 -> zlen (@nil (Z * Z)) = Z.max 0 n) by (intros; unfold zlen; cbn; lia).
  induction fuel as [|fuel IH]; intros n sync r rs t; cbn [read_relocs]; (destruct (Z.leb_spec n 0) as [Hn|Hn]; [intros [= <- _]; by split; [|apply H0]|]); [done|].
  destruct (skipSync sync pbSyncReloc r) as [r1|]; cbn [mbind option_bind]; [|done].
  destruct (skipSync sync pbSyncUint64 r1) as [r2|]; cbn [mbind option_bind]; [|done].
  destruct (rawUvarint r2) as [[kind r3]|]; cbn [mbind option_bind]; [|done].
  destruct (skipSync sync pbSyncUint64 r3) as [r4|]; cbn [mbind option_bind]; [|done].
  destruct (rawUvarint r4) as [[idx r5]|] eqn:Ei; cbn [mbind option_bind]; [|done].
  destruct (read_relocs fuel (n - 1) sync r5) as [[rs' r6]|] eqn:Er; cbn [mbind option_bind]; [|done]. intros [= <- <-].
  destruct (IH _ _ _ _ _ Er) as [Hf Hl]. split; [constructor; [by eapply rawUvarint_range|done]|]. unfold zlen in *. cbn [length]. lia.
Qed.

Lemma read_use_range sync m r k : read_use sync m r = Some k -> is_u64 k.
Proof.
  unfold read_use. destruct (skipSync sync m r) as [r1|]; cbn [mbind option_bind]; [|done].
  do 3 (match goal with |- context [skipSync ?s ?m ?r] => destruct (skipSync s m r) as [?|]; cbn [mbind option_bind]; [|done] end).
  destruct (rawUvarint _) as [[v t]|] eqn:E; [|done]. intros [= <-]. by eapply rawUvarint_range.
Qed.

(** An element that breaks the reader: more relocations announced than a slice
    can hold, or an index with its top bit set. *)
Definition bad_element (limit : Z) (sync : bool) (openingSync : Z) (r : bytes) : Prop :=
  exists n t, read_count sync r = Some (n, t) /\
    (limit < n \/ exists relocs t' k, n <= limit /\ read_relocs (length t) n sync t = Some (relocs, t') /\ read_use sync openingSync t' = Some k /\
       (2 ^ 63 <= k \/ exists idx, relocs !! Z.to_nat k = Some (Z.of_nat pbSectionString, idx) /\ k < 2 ^ 63 /\ 2 ^ 63 <= idx)).

(** The ends of the sections fit the table of elements. *)
Definition tables_ok (p : pkgbitsPayload) (s : nat) : Prop :=
  0 <= section_base p s /\ section_end p s <= zlen (elemEnds p) /\ 0 <= section_end p pbSectionString <= zlen (elemEnds p).

Lemma i64_cases x : is_u64 x -> (x < 2 ^ 63 /\ i64 x = x) \/ (2 ^ 63 <= x /\ i64 x < 0).
Proof.
  intros Hx. destruct (decide (x < 2 ^ 63)) as [Hlt|Hge]; [left; split; [done|apply i64_small; unfold is_u64 in Hx; lia]|].
  right. split; [lia|]. unfold i64, is_u64 in *. replace (x + 2 ^ 63) with (x - 2 ^ 63 + 1 * 2 ^ 64) by lia. rewrite Z.mod_add, Z.mod_small by lia. lia.
Qed.

Lemma at_index_ok {A} (l : list A) i : 0 <= i < zlen l -> exists x, at_index l i = Val x /\ l !! Z.to_nat i = Some x.
Proof.
  unfold zlen. intros Hi. destruct (lookup_lt_is_Some_2 l (Z.to_nat i)) as [x Hx]; [lia|]. exists x. split; [|done].
  rewrite <- (Z2Nat.id i) by lia. by apply at_index_lookup.
Qed.

Lemma elem_at_ok p i : 0 <= i < zlen (elemEnds p) -> exists r, elem_at p i = Val r.
Proof.
  intros Hi. unfold elem_at. destruct (at_index_ok (elemEnds p) i Hi) as (e & -> & _). destruct (Z.ltb_spec 0 i) as [Hp|_]; cbn [obind]; [|by eexists].
  destruct (at_index_ok (elemEnds p) (i - 1)) as (st & -> & _); [lia|]. by eexists.
Qed.

Lemma elem_at_negative p i : i < 0 -> elem_at p i = Panic.
Proof. intros Hi. unfold elem_at, at_index. rewrite (proj2 (Z.ltb_ge 0 i)), (proj2 (Z.ltb_lt i 0)) by lia. done. Qed.

(** Where the reader of an element goes wrong. *)
Lemma read_ref_cases limit sync m r : limit < 2 ^ 63 ->
  (read_ref limit sync m r = Panic /\ bad_element limit sync m r) \/
  (read_ref limit sync m r = Val None /\ ~ bad_element limit sync m r) \/
  (exists kind idx, read_ref limit sync m r = Val (Some (kind, idx)) /\ is_u64 idx /\
     (bad_element limit sync m r <-> kind = Z.of_nat pbSectionString /\ 2 ^ 63 <= idx)).
Proof.
  intros Hlim. unfold read_ref, bad_element. destruct (read_count sync r) as [[n t]|] eqn:Ec; [|right; left; split; [done|]; by intros (? & ? & ? & _)].
  destruct (Z.ltb_spec limit n) as [Hn|Hn]; [left; split; [done|]; exists n, t; auto|].
  destruct (read_relocs (length t) n sync t) as [[relocs t']|] eqn:Er.
  2:{ right; left. split; [done|]. intros (n' & u & [= <- <-] & [?|(? & ? & ? & _ & E & _)]); [lia|congruence]. }
  destruct (read_relocs_range _ _ _ _ _ _ Er) as [Hrs Hlen].
  destruct (read_use sync m t') as [k|] eqn:Eu.
  2:{ right; left. split; [done|]. intros (n' & u & [= <- <-] & [?|(? & ? & ? & _ & E & E' & _)]); [lia|congruence]. }
  destruct (i64_cases k (read_use_range _ _ _ _ Eu)) as [[Hk ->]|[Hk Hneg]].
  - pose proof (read_use_range _ _ _ _ Eu) as [Hk0 _]. destruct (Z.leb_spec (Z.of_nat (length relocs)) k) as [Hge|Hlt].
    + right; left. split; [done|]. intros (n' & u & [= <- <-] & [?|(rs & u' & k' & _ & E & E' & Hb)]); [lia|].
      rewrite Er in E. injection E as <- <-. rewrite Eu in E'. injection E' as <-. destruct Hb as [?|(idx & Hi & _)]; [lia|].
      apply lookup_lt_Some in Hi. lia.
    + destruct (at_index_ok relocs k) as ([kind idx] & -> & Hx); [unfold zlen; lia|]. right; right. exists kind, idx. cbn [obind].
      rewrite Forall_forall in Hrs. pose proof (Hrs _ (list_elem_of_lookup_2 _ _ _ Hx)) as Hidx. split_and!; [done|done|]. split.
      * intros (n' & u & [= <- <-] & [?|(rs & u' & k' & _ & E & E' & Hb)]); [lia|]. rewrite Er in E. injection E as <- <-. rewrite Eu in E'. injection E' as <-.
        destruct Hb as [?|(i & Hi & _ & Hb)]; [lia|]. rewrite Hx in Hi. by injection Hi as -> ->.
      * intros [-> Hb]. exists n, t. split; [done|]. right. exists relocs, t', k. split_and!; [done|done|done|]. right. by exists idx.
  - left. split; [|exists n, t; split; [done|]; right; exists relocs, t', k; split_and!; [done|done|done|by left]].
    destruct (Z.leb_spec (Z.of_nat (length relocs)) (i64 k)); [lia|]. unfold at_index. unfold zlen in Hlen.
    rewrite (proj2 (Z.leb_le (Z.of_nat (length relocs)) k)), orb_true_r by lia. done.
Qed.

(** C32. When export data makes the client panic.  If the ends of the sections fit
    the table of elements, the reader of an element's string panics exactly on an
    element that is there, lies in the data and announces more relocations than
    the runtime can make a slice of, or names its string by an index with the
    top bit set; on everything else, however malformed, it answers a string. *)
Theorem export_panics_exact limit p s relIdx openingSync : limit < 2 ^ 63 -> 0 <= relIdx -> tables_ok p s ->
  readSectionString limit p s relIdx openingSync = Panic <->
  section_base p s + relIdx < section_end p s /\
  exists r, elem_at p (section_base p s + relIdx) = Val (Some r) /\ bad_element limit (pb_sync p) openingSync r.
Proof.
  intros Hlim Hrel (Hb & Hs & H0). unfold readSectionString. destruct (Z.leb_spec (section_end p s) (section_base p s + relIdx)) as [Hge|Hlt]; [split; [done|lia]|].
  destruct (elem_at_ok p (section_base p s + relIdx)) as [[r|] ->]; [lia| |split; [done|by intros (_ & r & ? & _)]]. cbn [obind].
  assert (Hone : (section_base p s + relIdx < section_end p s /\ (exists r0, Val (Some r) = Val (Some r0) /\ bad_element limit (pb_sync p) openingSync r0))
    <-> bad_element limit (pb_sync p) openingSync r) by (split; [intros (_ & r0 & [= <-] & ?)|]; eauto).
  rewrite Hone. clear Hone. destruct (read_ref_cases limit (pb_sync p) openingSync r Hlim) as [[-> Hbad]|[[-> Hbad]|(kind & idx & -> & Hidx & ->)]]; cbn [obind]; try done.
  destruct (Z.eqb_spec kind (Z.of_nat pbSectionString)) as [->|Hk]; cbn [negb]; [|split; [done|by intros [? _]]].
  destruct (i64_cases idx Hidx) as [[Hi ->]|[Hi Hneg]].
  - destruct (Z.leb_spec (section_end p pbSectionString) idx) as [_|Hlt2]; [split; [done|lia]|].
    destruct (elem_at_ok p idx) as [r2 ->]; [unfold is_u64 in Hidx; lia|]. cbn [obind]. split; [done|lia].
  - destruct (Z.leb_spec (section_end p pbSectionString) (i64 idx)); [lia|]. by rewrite elem_at_negative by done.
Qed.

(** ** The source list *)

Lemma formatInt_short n : 0 <= n < 2 ^ 64 -> (length (formatInt n) <= 20)%nat.
Proof.
  intros Hn. unfold formatInt. rewrite (proj2 (Z.ltb_ge _ _)) by lia. pose proof (formatUint_spec n Hn) as Hf. tauto.
Qed.

(** The source list fits its attribute: whatever the names, it is at most
    256 bytes long; it has the first names of the list, eight at most, and the
    number of those left out; and it has as many of them as fit. *)
Theorem src_list_fits files : zlen files < 2 ^ 64 ->
  (length (capSrcList files) <= srcMetaMaxBytes)%nat /\
  exists n, (n <= Nat.min (length files) srcMetaMaxFiles)%nat /\ capSrcList files = src_text files n /\
    forall m, (n < m <= Nat.min (length files) srcMetaMaxFiles)%nat -> (srcMetaMaxBytes < length (src_text files m))%nat.
Proof.
  intros Hlen. unfold capSrcList. generalize (Nat.min (length files) srcMetaMaxFiles) as n0. induction n0 as [|n IH]; cbn [cap_loop].
  - split; [|exists 0%nat; split_and!; [done|done|lia]]. unfold src_text. cbn [take join_blank length]. rewrite Nat.sub_0_r, bytes_eqb_refl.
    destruct (0 <? length files)%nat; [|apply Nat.le_0_l]. rewrite !length_app. pose proof (formatInt_short (Z.of_nat (length files)) ltac:(unfold zlen in Hlen; lia)) as Hf.
    change (length (str "+")) with 1%nat. change (length (str " more")) with 5%nat. unfold srcMetaMaxBytes. lia.
  - destruct (Nat.leb_spec (length (src_text files (S n))) srcMetaMaxBytes) as [Hle|Hgt].
    + split; [done|]. exists (S n). split_and!; [done|done|lia].
    + destruct IH as (Hl & k & Hk & He & Hm). split; [done|]. exists k. split_and!; [lia|done|]. intros m Hr.
      destruct (decide (m = S n)) as [->|]; [done|]. apply Hm. lia.
Qed.

(** ** A concrete package *)

Definition demoRef (j : Z) (openingSync : Z) : bytes := element false (fun _ => []) openingSync [(0, j)] 0 [].

Definition demoExport : export :=
  Export 0 false
    [[str "example.com/p"; str "/src/p/a.go"; str "/src/p/b.go"; str "<autogenerated>"]; [];
     [demoRef 1 pbSyncPosBase; demoRef 2 pbSyncPosBase; demoRef 1 pbSyncPosBase; demoRef 3 pbSyncPosBase]; [demoRef 0 pbSyncPkgDef]; []; []; []; []; []; []]
    (replicate 8 7).

Definition pkgdef_with (payload : bytes) : bytes := str "go object linux amd64 go1.24" ++ [10] ++ exportStart ++ 117 :: payload ++ exportEnd.

Definition archive_with (payload : bytes) : list armember := [ArMember pkgdefName (replicate 32 48) (pkgdef_with payload)].

Lemma demo_export_wf : export_wf demoExport.
Proof. constructor; [split; [vm_compute; by split|done]|reflexivity|split; vm_compute; reflexivity|reflexivity]. Qed.

Lemma demo_opens m j s : 0 <= j < 4 -> default [] (ex_sections demoExport !! pbSectionString) !! Z.to_nat j = Some s ->
  opens_with 1000 demoExport m (demoRef j m) s.
Proof.
  intros Hj Hs. exists (fun _ => []), [(0, j)], 0, j, []. split_and!; try done; try lia. apply Forall_singleton. unfold is_u64. cbn. lia.
Qed.


(** The same package with sync markers has lost its name. *)
Definition markedExport : export :=
  Export 1 true [[str "example.com/p"]; []; []; [element true (fun m => [m; 1]) pbSyncPkgDef [(0, 0)] 0 []]; []; []; []; []; []; []] (replicate 8 7).

Example sync_markers_unread : parseImportPath 1000 (ar_file (archive_with (encode_export markedExport))) = Val [].
Proof. vm_compute. reflexivity. Qed.

(** A package element that announces 2^62 relocations. *)
Definition hugeExport : export :=
  Export 0 false [[str "example.com/p"]; []; []; [appendUvarint (2 ^ 62)]; []; []; []; []; []; []] (replicate 8 7).

Lemma export_panics_exact_witness :
  parseImportPath (2 ^ 44) (ar_file (archive_with (encode_export hugeExport))) = Panic /\
  readSectionString (2 ^ 44) (payload_of hugeExport) pbSectionPkg 0 pbSyncPkgDef = Panic.
Proof.
  split; [vm_compute; reflexivity|]. apply (export_panics_exact (2 ^ 44) (payload_of hugeExport) pbSectionPkg 0 pbSyncPkgDef); [lia|lia| |].
  - split; [vm_compute; discriminate|split; [vm_compute; discriminate|split; vm_compute; discriminate]].
  - split; [vm_compute; reflexivity|]. exists (appendUvarint (2 ^ 62)). split; [vm_compute; reflexivity|].
    exists (2 ^ 62), []. split; [vm_compute; reflexivity|]. left. lia.
Defined.

(** The names of a package whose data holds the end mark are lost. *)
Definition markExport : export :=
  Export 0 false [[str "example.com/p"; exportEnd]; []; []; [demoRef 0 pbSyncPkgDef]; []; []; []; []; []; []] (replicate 8 7).

Example end_mark_in_data : parseImportPath 1000 (ar_file (archive_with (encode_export markExport))) = Val [] /\
  pkgbitsImportPath 1000 (encode_export markExport) = Val (str "example.com/p").
Proof. split; vm_compute; reflexivity. Qed.

Definition longName (c : Z) : bytes := replicate 100 c ++ goExt.

Lemma src_list_fits_witness :
  (length (capSrcList [longName 97; longName 98; longName 99]) <= srcMetaMaxBytes)%nat /\
  capSrcList [longName 97; longName 98; longName 99] = longName 97 ++ str " " ++ longName 98 ++ str " +1 more".
Proof.
  split; [|vm_compute; reflexivity]. apply (src_list_fits [longName 97; longName 98; longName 99]). vm_compute. reflexivity.
Defined.
