(* ===== verification/WebGet.v ===== *)
(** * Lookups of the client

    [cacheclient/batch.go], [webget.go] and [integrity.go]: the gates every
    body passes before a build sees it, the reader of a batch answer, and the
    exchange that serves the lookups waiting on one batch.  The index they drop
    claims from is that of [ClientIndex].

    The zstd and lz4 decoders are not part of the repository.  A tar stream and
    its JSON manifest come decoded; a stream carries at most one manifest.  What
    the server answers, batch and single, is an argument, and so is the order in
    which Go ranges over the map of unanswered requests.  Counters and log lines
    are left out, but for the reason of a refusal. *)

From Stdlib Require Import ZArith Lia List Bool String Permutation.
From stdpp Require Import base gmap list.
From S2P Require Import Prelude Strconv GoSet Keys Sha256 HashSet ModuleIndex Archive ClientIndex.

Class ClientCodec := { zstd_decode : bytes -> option bytes; lz4_read : bytes -> option bytes }.

Definition zstdMagic : Z := 0xFD2FB528.

Definition codecMagic (data : bytes) : Z := if (length data <? 4)%nat then 0 else le_value (take 4 data).

(** A known size only sizes the buffer. *)
Definition DecompressSized `{!ClientCodec} (data : bytes) (size : Z) : option bytes :=
  if codecMagic data =? zstdMagic then zstd_decode data else lz4_read data.

(** [OutputIDMatches]: [strings.EqualFold] against a text of hex digits. *)
Definition OutputIDMatches (outputID body : bytes) : bytes * bool :=
  let got := hex_encode (sha256 body) in (got, bytes_eqb got (map to_lower outputID)).

Definition StoredDigest (body : bytes) : bytes := hex_encode (sha256 body).

Definition IsGoModuleIndex (body : bytes) : bool := has_prefix body goModuleIndexMagic.

Inductive refusal := MissNoOutputID | MissBuildID | MissDecompress | MissChecksum | MissModuleIndex.

Definition verify `{!ClientCodec} (actionID outputID storedAction stored : bytes) (rawSize : Z) : bytes + refusal :=
  if bytes_eqb outputID [] then inr MissNoOutputID
  else if negb (bytes_eqb storedAction []) && negb (bytes_eqb storedAction actionID) then inr MissBuildID
  else match DecompressSized stored rawSize with
       | None => inr MissDecompress
       | Some data =>
           if negb (OutputIDMatches outputID data).2 then inr MissChecksum
           else if negb (BuildIDMatchesAction actionID data).2 then inr MissBuildID
           else if IsGoModuleIndex data then inr MissModuleIndex
           else inl data
       end.

(** ** The answer to a batch *)

Record batchGetManifestEntry := ManifestEntry { me_Key : bytes; me_Metadata : gmap bytes bytes; me_Prefetch : bool }.

Record BatchEntry := MkBatchEntry {
  be_Key : bytes; be_OutputID : bytes; be_ActionID : bytes; be_Data : bytes; be_Prefetch : bool; be_RawSize : Z
}.

(** A member other than the manifest, [None] for a body cut short; or a broken stream. *)
Inductive tarItem := TarMember (name : bytes) (body : option bytes) | TarBroken.

(** A stream with at most one manifest, none of whose headers states a size that
    cannot be allocated: [make] panics on one.  [bs_manifest]: absent, unreadable,
    or its entries. *)
Record batchStream := BatchStream { bs_before : list tarItem; bs_manifest : option (option (list batchGetManifestEntry)); bs_after : list tarItem }.

Definition dataPrefix : bytes := str "data/".

Definition meta_value (m : gmap bytes bytes) (k : string) : bytes := default [] (m !! str k).

Definition entry_of (me : batchGetManifestEntry) (raw : bytes) : BatchEntry :=
  MkBatchEntry (me_Key me) (meta_value (me_Metadata me) "outputid") (meta_value (me_Metadata me) "action-id") raw (me_Prefetch me)
    (default 0 (parseInt (meta_value (me_Metadata me) "body-size"))).

(** The entries handed over, and whether the stream ended in an error. *)
Fixpoint read_members (meta : gmap bytes batchGetManifestEntry) (items : list tarItem) : list BatchEntry * bool :=
  match items with
  | [] => ([], false)
  | TarBroken :: _ => ([], true)
  | TarMember name body :: items' =>
      if (length name <=? 5)%nat || negb (has_prefix name dataPrefix) then read_members meta items'
      else match meta !! drop 5 name with
           | None => read_members meta items'
           | Some me =>
               match body with
               | None => ([], true)
               | Some raw => let '(es, err) := read_members meta items' in (entry_of me raw :: es, err)
               end
           end
  end.

Definition meta_of (es : list batchGetManifestEntry) : gmap bytes batchGetManifestEntry :=
  foldl (fun m e => <[me_Key e := e]> m) ∅ es.

Definition streamBatchResponse (bs : batchStream) : list BatchEntry * bool :=
  let '(es, err) := read_members ∅ (bs_before bs) in
  if err then (es, true)
  else match bs_manifest bs with
       | None => (es, false)
       | Some None => (es, true)
       | Some (Some entries) => let '(es', err) := read_members (meta_of entries) (bs_after bs) in (es ++ es', err)
       end.

(** ** The exchange *)

Record batchReq := BatchReq { br_actionID : bytes; br_key : bytes; br_hash : bytes }.

Inductive batchResp := RMiss | RHit (outputID data : bytes).

(** What a single GET brings: a failed exchange, a status, or a body with its
    headers, [None] for one that cannot be read to its end. *)
Inductive singleReply :=
  | SFailed
  | SStatus (code : Z)
  | SBody (outputID legacyOutputID storedAction bodySize : bytes) (stored : option bytes).

Inductive batchReply :=
  | BNotSent
  | BFailed
  | BStatus (code : Z)
  | BStream (bs : batchStream).

(** ** Bodies nobody asked for *)

(** How many keys a batch of lookups or uploads, or a chunk of a manifest, has at most. *)
Definition batchMaxKeys : nat := 128.

(** How many entries are handed to the populator at once. *)
Definition lookAheadChunk : nat := 16.

Record prefetchBudget := PrefetchBudget { pb_held : Z; pb_limit : Z }.

(** [take] and [release]: the sum is made first and taken back when it is over the limit. *)
Definition pb_take (n : Z) (p : prefetchBudget) : bool * prefetchBudget :=
  if pb_limit p <=? 0 then (true, p)
  else
    let p := PrefetchBudget (pb_held p + n) (pb_limit p) in
    if pb_limit p <? pb_held p then (false, PrefetchBudget (pb_held p - n) (pb_limit p)) else (true, p).

Definition pb_release (n : Z) (p : prefetchBudget) : prefetchBudget :=
  if pb_limit p <=? 0 then p else PrefetchBudget (pb_held p - n) (pb_limit p).

Record prefetchSink := PrefetchSink { ps_entries : list BatchEntry; ps_held : Z }.

(** [tier]: whether somebody takes such bodies. *)
Definition collect (tier : bool) (e : BatchEntry) (sink : prefetchSink) (p : prefetchBudget) : prefetchSink * prefetchBudget :=
  if negb tier then (sink, p)
  else
    let n := Z.of_nat (length (be_Data e)) in
    let '(fits, p) := pb_take n p in
    if fits then (PrefetchSink (ps_entries sink ++ [e]) (ps_held sink + n), p) else (sink, p).

Section webget.
Context {St Sh : Type} `{!SetOps St bytes} `{!SetLaws St bytes} `{!SetOps Sh bytes} `{!SetLaws Sh bytes} {Codec : ClientCodec}.
Set Default Proof Using "Type*".

(** The key index, the objects this process has, the seeds given to the
    look-ahead, the bytes of bodies nobody asked for. *)
Record getState := GetState { gs_index : @webIndex St Sh; gs_held : @hashSet bytes Sh; gs_seeds : list bytes; gs_hold : prefetchBudget }.

Definition with_index (f : @webIndex St Sh -> @webIndex St Sh) (s : getState) : getState := GetState (f (gs_index s)) (gs_held s) (gs_seeds s) (gs_hold s).

Definition noteHeld (h : bytes) (s : getState) : getState := GetState (gs_index s) (hs_Add (gs_held s) h) (gs_seeds s) (gs_hold s).

Definition getIndividual (r : batchReq) (reply : singleReply) (s : getState) : batchResp * getState :=
  match reply with
  | SFailed => (RMiss, s)
  | SStatus code => if code =? 404 then (RMiss, with_index (fun i => (reclaimAbsent (br_hash r) i).2) s) else (RMiss, s)
  | SBody outputID legacy storedAction bodySize stored =>
      let outputID := if bytes_eqb outputID [] then legacy else outputID in
      let rawSize := default 0 (parseInt bodySize) in
      match stored with
      | None => (RMiss, s)
      | Some compressed =>
          match verify (br_actionID r) outputID storedAction compressed rawSize with
          | inr _ => (RMiss, with_index (removeClaimed (br_hash r)) s)
          | inl data => (RHit outputID data, noteHeld (br_hash r) s)
          end
      end
  end.

(** The replies so far as (request, answer), the unanswered requests by key, the
    keys that hit, the bodies nobody asked for. *)
Record serving := Serving {
  sv_replies : list (nat * batchResp); sv_open : gmap bytes nat; sv_hit : list bytes; sv_sink : prefetchSink; sv_state : getState
}.

Definition serve_entry (tier : bool) (reqs : list batchReq) (sv : serving) (e : BatchEntry) : serving :=
  match sv_open sv !! be_Key e with
  | None =>
      let s := sv_state sv in
      let '(sink, hold) := collect tier e (sv_sink sv) (gs_hold s) in
      Serving (sv_replies sv) (sv_open sv) (sv_hit sv) sink (GetState (gs_index s) (gs_held s) (gs_seeds s) hold)
  | Some i =>
      let opened := delete (be_Key e) (sv_open sv) in
      match reqs !! i with
      | None => sv
      | Some r =>
          match verify (br_actionID r) (be_OutputID e) (be_ActionID e) (be_Data e) (be_RawSize e) with
          | inr _ => Serving (sv_replies sv ++ [(i, RMiss)]) opened (sv_hit sv) (sv_sink sv) (sv_state sv)
          | inl data =>
              Serving (sv_replies sv ++ [(i, RHit (be_OutputID e) data)]) opened (sv_hit sv ++ [br_key r]) (sv_sink sv) (noteHeld (br_hash r) (sv_state sv))
          end
      end
  end.

(** [reqByKey]: a later request with the same key takes its place. *)
Definition reqByKey (reqs : list batchReq) : gmap bytes nat :=
  foldl (fun m ir => <[br_key ir.2 := ir.1]> m) ∅ (imap (fun i r => (i, r)) reqs).

(** A loop that answers the requests numbered [idx] one after the other. *)
Definition answer_each (f : nat -> batchReq -> getState -> batchResp * getState) (reqs : list batchReq) (idx : list nat) (s : getState)
    : list (nat * batchResp) * getState :=
  foldl (fun '(rs, s) i =>
    match reqs !! i with
    | None => (rs, s)
    | Some r => let '(resp, s) := f i r s in (rs ++ [(i, resp)], s)
    end) ([], s) idx.

Definition get_each (reqs : list batchReq) (single : nat -> singleReply) : list nat -> getState -> list (nat * batchResp) * getState :=
  answer_each (fun i r s => getIndividual r (single i) s) reqs.

Definition miss_each (reqs : list batchReq) : list nat -> getState -> list (nat * batchResp) * getState :=
  answer_each (fun _ r s => (RMiss, with_index (fun ix => (reclaimAbsent (br_hash r) ix).2) s)) reqs.

Definition all_miss (reqs : list batchReq) : list (nat * batchResp) := imap (fun i _ => (i, RMiss)) reqs.

(** [sendBatch]: the replies in the order they go out, the sink its deferred
    [deliver] hands over, and the state.  [ord] ranges over the unanswered;
    [threshold] is the empty-batch backoff's. *)
Definition sendBatch (ord : gmap bytes nat -> list (bytes * nat)) (threshold : Z) (tier : bool) (reqs : list batchReq) (reply : batchReply)
    (single : nat -> singleReply) (s : getState) : list (nat * batchResp) * prefetchSink * getState :=
  let nothing := PrefetchSink [] 0 in
  match reply with
  | BNotSent | BFailed => (all_miss reqs, nothing, s)
  | BStatus code =>
      if (code =? 404) || (code =? 405)
      then let '(rs, s) := get_each reqs single (seq 0 (length reqs)) s in (rs, nothing, s)
      else (all_miss reqs, nothing, s)
  | BStream bs =>
      let '(entries, err) := streamBatchResponse bs in
      let sv := foldl (serve_entry tier reqs) (Serving [] (reqByKey reqs) [] nothing s) entries in
      let rest := map snd (ord (sv_open sv)) in
      if err then
        let '(rs, s) := get_each reqs single rest (sv_state sv) in (sv_replies sv ++ rs, sv_sink sv, s)
      else
        let '(rs, s) := miss_each reqs rest (sv_state sv) in
        let s := with_index (noteBatchEntries threshold (Z.of_nat (length entries))) s in
        (sv_replies sv ++ rs, sv_sink sv, GetState (gs_index s) (gs_held s) (gs_seeds s ++ sv_hit sv) (gs_hold s))
  end.

(** ** The gates *)

Lemma verify_gates actionID outputID storedAction stored rawSize data :
  verify actionID outputID storedAction stored rawSize = inl data ->
  hex_encode (sha256 data) = map to_lower outputID /\ (storedAction = [] \/ storedAction = actionID) /\
  (BuildIDMatchesAction actionID data).2 = true /\ IsGoModuleIndex data = false /\ DecompressSized stored rawSize = Some data.
Proof.
  unfold verify. destruct (bytes_eqb outputID []); [done|].
  destruct (bytes_eqb storedAction []) eqn:E1, (bytes_eqb storedAction actionID) eqn:E2; cbn [negb andb]; try done;
    destruct (DecompressSized stored rawSize) as [d|] eqn:Ed; try done;
    destruct (bytes_eqb (hex_encode (sha256 d)) (map to_lower outputID)) eqn:E3; cbn [OutputIDMatches snd]; rewrite E3; cbn [negb]; try done;
    destruct (BuildIDMatchesAction actionID d).2 eqn:E4; cbn [negb]; try done; destruct (IsGoModuleIndex d) eqn:E5; try done; intros [= <-];
    apply bytes_eqb_eq in E3; split_and!; try done;
    first [left; by apply bytes_eqb_eq|right; by apply bytes_eqb_eq].
Qed.

(** What a build may be told: a miss, or a body that passed every gate for its action. *)
Definition answer_sound (reqs : list batchReq) (ir : nat * batchResp) : Prop :=
  match ir.2 with
  | RMiss => True
  | RHit outputID data =>
      exists r, reqs !! ir.1 = Some r /\ hex_encode (sha256 data) = map to_lower outputID /\
        (BuildIDMatchesAction (br_actionID r) data).2 = true /\ IsGoModuleIndex data = false
  end.

Lemma getIndividual_sound reqs i r reply s : reqs !! i = Some r -> answer_sound reqs (i, (getIndividual r reply s).1).
Proof.
  intros Hr. unfold getIndividual, answer_sound. destruct reply as [|code|o l sa bs [c|]]; cbn [fst snd]; try done; [by destruct (code =? 404)|].
  destruct (verify _ _ _ _ _) as [data|] eqn:Ev; cbn [fst snd]; [|done]. destruct (verify_gates _ _ _ _ _ _ Ev) as (? & _ & ? & ? & _). by exists r.
Qed.

(** ** Everybody is answered once *)

Lemma all_miss_answers reqs : map fst (all_miss reqs) = seq 0 (length reqs) /\ Forall (answer_sound reqs) (all_miss reqs).
Proof.
  unfold all_miss. split.
  - apply list_eq. intros i. change (map fst) with (fmap (M := list) (@fst nat batchResp)). rewrite list_lookup_fmap, list_lookup_imap.
    destruct (decide (i < length reqs)%nat) as [Hlt|Hge].
    + destruct (lookup_lt_is_Some_2 reqs i Hlt) as [r ->]. by rewrite lookup_seq_lt.
    + rewrite lookup_seq_ge, (lookup_ge_None_2 reqs i) by lia. done.
  - apply Forall_forall. intros [i resp] Hin. apply list_elem_of_lookup in Hin as [k Hk]. rewrite list_lookup_imap in Hk.
    destruct (reqs !! k); [|done]. by injection Hk as <- <-.
Qed.

Lemma answer_each_answers f reqs idx s : Forall (fun i => (i < length reqs)%nat) idx -> map fst (answer_each f reqs idx s).1 = idx.
Proof using Type.
  intros Hidx. unfold answer_each. set (step := fun '(rs, s) i => _).
  assert (Hgen : forall rs, map fst (foldl step (rs, s) idx).1 = map fst rs ++ idx); [|exact (Hgen [])].
  revert s. induction Hidx as [|i idx Hi _ IH]; intros s rs; cbn [foldl]; [by rewrite app_nil_r|].
  destruct (lookup_lt_is_Some_2 reqs i Hi) as [r Hr]. unfold step at 2. rewrite Hr.
  destruct (f i r s) as [resp s']. by rewrite IH, map_app, <- app_assoc.
Qed.

Lemma answer_each_sound f reqs idx s : (forall i r s, reqs !! i = Some r -> answer_sound reqs (i, (f i r s).1)) ->
  Forall (answer_sound reqs) (answer_each f reqs idx s).1.
Proof using Type.
  intros Hf. unfold answer_each. set (step := fun '(rs, s) i => _).
  assert (Hgen : forall rs, Forall (answer_sound reqs) rs -> Forall (answer_sound reqs) (foldl step (rs, s) idx).1); [|apply Hgen; constructor].
  revert s. induction idx as [|i idx IH]; intros s rs Hrs; cbn [foldl]; [done|]. unfold step at 2.
  destruct (reqs !! i) as [r|] eqn:Hr; [|by apply IH]. pose proof (Hf i r s Hr) as Hs. destruct (f i r s) as [resp s'].
  apply IH, Forall_app. split; [done|by apply Forall_singleton].
Qed.

(** Answered and unanswered requests make up the batch. *)
Definition serving_ok (reqs : list batchReq) (sv : serving) : Prop :=
  map fst (sv_replies sv) ++ map snd (map_to_list (sv_open sv)) ≡ₚ seq 0 (length reqs).

Lemma serve_entry_ok tier reqs sv e : serving_ok reqs sv -> serving_ok reqs (serve_entry tier reqs sv e).
Proof.
  unfold serving_ok. intros Hp. unfold serve_entry. destruct (sv_open sv !! be_Key e) as [i|] eqn:Eo; [|by destruct (collect _ _ _ _)].
  destruct (reqs !! i) as [r|] eqn:Er; [|done].
  assert (Hp' : forall resp, map fst (sv_replies sv ++ [(i, resp)]) ++ map snd (map_to_list (delete (be_Key e) (sv_open sv))) ≡ₚ seq 0 (length reqs)).
  { intros resp. rewrite <- Hp, map_app. cbn [map fst]. rewrite <- app_assoc. apply Permutation_app_head.
    rewrite <- (map_to_list_delete (sv_open sv) (be_Key e) i Eo). done. }
  destruct (verify _ _ _ _ _); apply Hp'.
Qed.

Lemma serve_all_ok tier reqs entries : forall sv, serving_ok reqs sv -> serving_ok reqs (foldl (serve_entry tier reqs) sv entries).
Proof. induction entries as [|e entries IH]; intros sv Hs; [done|]. cbn [foldl]. apply IH. by apply serve_entry_ok. Qed.

Lemma serve_all_sound tier reqs entries : forall sv, Forall (answer_sound reqs) (sv_replies sv) ->
  Forall (answer_sound reqs) (sv_replies (foldl (serve_entry tier reqs) sv entries)).
Proof.
  induction entries as [|e entries IH]; intros sv Hs; [done|]. cbn [foldl]. apply IH. unfold serve_entry.
  destruct (sv_open sv !! be_Key e) as [i|]; [|by destruct (collect _ _ _ _)]. destruct (reqs !! i) as [r|] eqn:Er; [|done].
  destruct (verify _ _ _ _ _) as [data|] eqn:Ev; cbn [sv_replies]; (apply Forall_app; split; [done|apply Forall_singleton]); [|done].
  destruct (verify_gates _ _ _ _ _ _ Ev) as (? & _ & ? & ? & _). by exists r.
Qed.

Lemma reqByKey_open reqs : NoDup (map br_key reqs) -> map snd (map_to_list (reqByKey reqs)) ≡ₚ seq 0 (length reqs).
Proof using Type.
  intros Hnd. unfold reqByKey.
  assert (Hgen : forall (l : list (nat * batchReq)) (m : gmap bytes nat), NoDup (map (fun ir => br_key ir.2) l) -> (forall ir, ir ∈ l -> m !! br_key ir.2 = None) ->
    map snd (map_to_list (foldl (fun m ir => <[br_key ir.2 := ir.1]> m) m l)) ≡ₚ map fst l ++ map snd (map_to_list m)).
  { induction l as [|[i r] l IH]; intros m Hn Hm; cbn [foldl]; [done|]. cbn [map] in Hn. apply NoDup_cons in Hn as [Hr Hn]. cbn [fst snd] in *.
    rewrite IH; [|done|].
    - rewrite map_to_list_insert by (apply (Hm (i, r)); by left). cbn [map fst snd]. rewrite <- Permutation_middle. done.
    - intros ir Hir. rewrite lookup_insert_ne; [apply Hm; by right|]. intros He. apply Hr. apply list_elem_of_In, in_map_iff. exists ir. split; [done|by apply list_elem_of_In]. }
  assert (Hk : map (fun ir : nat * batchReq => br_key ir.2) (imap (fun i r => (i, r)) reqs) = map br_key reqs).
  { change (map (fun ir : nat * batchReq => br_key ir.2) (imap (fun i r => (i, r)) reqs)) with ((fun ir : nat * batchReq => br_key ir.2) <$> imap (fun i r => (i, r)) reqs).
    rewrite fmap_imap. cbn. apply imap_const. }
  rewrite Hgen; [|by rewrite Hk|intros ir _; apply lookup_empty]. rewrite map_to_list_empty, app_nil_r.
  assert (Hf : map fst (imap (fun i r => (i, r)) reqs) = seq 0 (length reqs)); [|by rewrite Hf].
  apply list_eq. intros i. change (map fst (imap (fun i r => (i, r)) reqs)) with ((@fst nat batchReq) <$> imap (fun i r => (i, r)) reqs). rewrite list_lookup_fmap, list_lookup_imap.
  destruct (decide (i < length reqs)%nat) as [Hlt|Hge]; [destruct (lookup_lt_is_Some_2 reqs i Hlt) as [r ->]; by rewrite lookup_seq_lt|].
  rewrite lookup_seq_ge, (lookup_ge_None_2 reqs i) by lia. done.
Qed.

(** Whatever is answered has passed the gates, in any batch. *)
Lemma sendBatch_sound ord threshold tier reqs reply single s : Forall (answer_sound reqs) (sendBatch ord threshold tier reqs reply single s).1.1.
Proof.
  assert (Hget : forall idx s, Forall (answer_sound reqs) (get_each reqs single idx s).1)
    by (intros idx s'; apply answer_each_sound; intros i r s0; apply getIndividual_sound).
  unfold sendBatch. destruct reply as [| |code|bs]; [apply all_miss_answers..| |].
  - destruct (_ || _); [|apply all_miss_answers]. specialize (Hget (seq 0 (length reqs)) s). by destruct (get_each _ _ _ _).
  - destruct (streamBatchResponse bs) as [entries err]. cbv zeta.
    pose proof (serve_all_sound tier reqs entries (Serving [] (reqByKey reqs) [] (PrefetchSink [] 0) s) (List.Forall_nil _)) as Hs.
    set (sv := foldl (serve_entry tier reqs) _ entries) in *. set (rest := map snd (ord (sv_open sv))). destruct err.
    + specialize (Hget rest (sv_state sv)). destruct (get_each _ _ _ _) as [rs s']. apply Forall_app. by split.
    + assert (Hm : Forall (answer_sound reqs) (miss_each reqs rest (sv_state sv)).1) by (by apply answer_each_sound).
      destruct (miss_each _ _ _) as [rs s']. apply Forall_app. by split.
Qed.

Lemma sendBatch_once ord threshold tier reqs reply single s : (forall m, ord m ≡ₚ map_to_list m) -> NoDup (map br_key reqs) ->
  map fst (sendBatch ord threshold tier reqs reply single s).1.1 ≡ₚ seq 0 (length reqs).
Proof.
  intros Hord Hnd. destruct (all_miss_answers reqs) as [Hm1 _].
  unfold sendBatch. destruct reply as [| |code|bs]; [by cbn [fst]; rewrite Hm1..| |].
  - destruct (_ || _); [|by cbn [fst]; rewrite Hm1].
    pose proof (answer_each_answers (fun i r s => getIndividual r (single i) s) reqs (seq 0 (length reqs)) s ltac:(apply Forall_seq; lia)) as H1.
    unfold get_each. destruct (answer_each _ _ _ _) as [rs s']. cbn [fst] in *. by rewrite H1.
  - destruct (streamBatchResponse bs) as [entries err]. cbv zeta.
    pose proof (serve_all_ok tier reqs entries (Serving [] (reqByKey reqs) [] (PrefetchSink [] 0) s) (reqByKey_open reqs Hnd)) as Hp.
    set (sv := foldl (serve_entry tier reqs) _ entries) in *. set (rest := map snd (ord (sv_open sv))).
    assert (Hrest : map fst (sv_replies sv) ++ rest ≡ₚ seq 0 (length reqs)) by (unfold rest; rewrite Hord; done).
    assert (Hlt : Forall (fun i => (i < length reqs)%nat) rest).
    { apply Forall_forall. intros i Hi. assert (Hin : i ∈ seq 0 (length reqs)) by (rewrite <- Hrest; apply elem_of_app; by right). apply elem_of_seq in Hin. lia. }
    unfold get_each, miss_each. destruct err; (match goal with |- context [answer_each ?f ?rq ?ix ?st] => pose proof (answer_each_answers f rq ix st Hlt) as H1 end);
      destruct (answer_each _ _ _ _) as [rs s']; cbn [fst] in *; by rewrite map_app, H1.
Qed.


End webget.

(** ** Concrete runs *)

(** Decoders that know one frame of each codec. *)
Definition demoFrameZ : bytes := le_bytes 4 zstdMagic ++ [1].
Definition demoObject : bytes := str "object".
Definition demoCodec : ClientCodec := {|
  zstd_decode s := if bytes_eqb s demoFrameZ then Some demoObject else None;
  lz4_read _ := None
|}.

Definition demoReq (k : Z) : batchReq := BatchReq (hex_encode (replicate 32 k)) (str "v1" ++ hex_encode (replicate 32 k)) (replicate 32 k).
Definition demoState : @getState (gset bytes) (gset bytes) :=
  GetState (WebIndex newKeySet true false 0 None noGen None newSortedSet false 0) newSortedSet [] (PrefetchBudget 0 0).

(** The server holds the first of two objects; its stream names it. *)
Definition demoStream : batchStream :=
  BatchStream [] (Some (Some [ManifestEntry (br_key (demoReq 1)) {[str "outputid" := hex_encode (sha256 demoObject)]} false]))
    [TarMember (dataPrefix ++ br_key (demoReq 1)) (Some demoFrameZ)].

Definition demoSend (reqs : list batchReq) : list (nat * batchResp) :=
  (sendBatch (Codec := demoCodec) map_to_list 24 true reqs (BStream demoStream) (fun _ => SFailed) demoState).1.1.


(** Two lookups of one key in a batch: the earlier of them is never answered,
    whatever the stream holds. *)
Example same_key_unanswered : demoSend [demoReq 1; demoReq 1] = [(1%nat, RHit (hex_encode (sha256 demoObject)) demoObject)].
Proof. vm_compute. reflexivity. Qed.
