(* ===== verification/Upload.v ===== *)
(** * Uploads of the client

    [cacheclient/webput.go], [batchput.go] and the bookkeeping of [handoff.go]:
    an upload claims its key in the index so that no one uploads it twice, is
    tracked as pending until the server has answered for it, passes the guards
    on a worker, and goes out in a batch or alone.  A claim whose upload fails is
    dropped so that a later build uploads again; what is still pending at exit
    goes to a spool.

    The workers and the coalescer are queues any job of which may be next.  The
    encoder, the read of a body from its file, and what the server answers are
    arguments.  The descriptive metadata of an upload and the counters of the
    report are left out; [us_abandoned] and [us_failed] are kept because they
    count losses. *)

From Stdlib Require Import ZArith Lia List Bool String.
From stdpp Require Import base gmap list relations.
From S2P Require Import Prelude Strconv GoSet Keys Sha256 HashSet Archive ClientIndex WebGet.

Record pendingPut := PendingPut { pp_actionID : bytes; pp_outputID : bytes; pp_path : bytes; pp_data : option bytes }.

Record putJob := PutJob { pj_actionID : bytes; pj_key : bytes; pj_hash : bytes; pj_outputID : bytes; pj_data : option bytes; pj_path : bytes }.

Record putReq := PutReq { pr_actionID : bytes; pr_key : bytes; pr_hash : bytes; pr_outputID : bytes; pr_compressed : bytes }.

Record spoolEntry := SpoolEntry { se_ActionID : bytes; se_OutputID : bytes; se_Path : bytes; se_Data : option bytes; se_Replace : bool }.

(** What comes back for a batch: no answer, a status other than 200, or the results by key in order. *)
Inductive putReply := PNoAnswer | PStatus (code : Z) | PResults (rs : list (bytes * bytes)).

Section upload.
Context {St Sh : Type} `{!SetOps St bytes} `{!SetLaws St bytes} `{!SetOps Sh bytes} `{!SetLaws Sh bytes}.
Context (key : bytes -> bytes).
Set Default Proof Using "Type*".

(** The backend's state, with the queues of the prep pool and the coalescer.
    The last six fields record the uploads accepted and their fate: answered
    for by the server, refused by a guard, given up and counted, left to the
    spool by a worker that found the hand-off begun, sent and failed. *)
Record upState := UpState {
  us_index : @webIndex St Sh; us_held : @hashSet bytes Sh; us_pending : gmap bytes pendingPut;
  us_prep : list putJob; us_queue : list putReq; us_unsupported : bool; us_failed : Z; us_abandoned : Z;
  us_accepted : list bytes; us_answered : list bytes; us_refused : list bytes; us_gaveUp : list bytes; us_handed : list bytes; us_fails : list bytes
}.

Definition set_index (f : @webIndex St Sh -> @webIndex St Sh) (s : upState) : upState :=
  UpState (f (us_index s)) (us_held s) (us_pending s) (us_prep s) (us_queue s) (us_unsupported s) (us_failed s) (us_abandoned s)
    (us_accepted s) (us_answered s) (us_refused s) (us_gaveUp s) (us_handed s) (us_fails s).

Definition set_pending (f : gmap bytes pendingPut -> gmap bytes pendingPut) (s : upState) : upState :=
  UpState (us_index s) (us_held s) (f (us_pending s)) (us_prep s) (us_queue s) (us_unsupported s) (us_failed s) (us_abandoned s)
    (us_accepted s) (us_answered s) (us_refused s) (us_gaveUp s) (us_handed s) (us_fails s).

Definition set_queues (prep : list putJob) (queue : list putReq) (s : upState) : upState :=
  UpState (us_index s) (us_held s) (us_pending s) prep queue (us_unsupported s) (us_failed s) (us_abandoned s)
    (us_accepted s) (us_answered s) (us_refused s) (us_gaveUp s) (us_handed s) (us_fails s).

Definition add_held (h : bytes) (s : upState) : upState :=
  UpState (us_index s) (hs_Add (us_held s) h) (us_pending s) (us_prep s) (us_queue s) (us_unsupported s) (us_failed s) (us_abandoned s)
    (us_accepted s) (us_answered s) (us_refused s) (us_gaveUp s) (us_handed s) (us_fails s).

Definition accept (h : bytes) (s : upState) : upState :=
  UpState (us_index s) (us_held s) (us_pending s) (us_prep s) (us_queue s) (us_unsupported s) (us_failed s) (us_abandoned s)
    (h :: us_accepted s) (us_answered s) (us_refused s) (us_gaveUp s) (us_handed s) (us_fails s).

Definition set_unsupported (s : upState) : upState :=
  UpState (us_index s) (us_held s) (us_pending s) (us_prep s) (us_queue s) true (us_failed s) (us_abandoned s)
    (us_accepted s) (us_answered s) (us_refused s) (us_gaveUp s) (us_handed s) (us_fails s).

Definition set_counts (failed abandoned : Z) (answered refused gaveUp : list bytes) (s : upState) : upState :=
  UpState (us_index s) (us_held s) (us_pending s) (us_prep s) (us_queue s) (us_unsupported s) failed abandoned (us_accepted s) answered refused gaveUp (us_handed s) (us_fails s).

Definition hand_off (h : bytes) (s : upState) : upState :=
  UpState (us_index s) (us_held s) (us_pending s) (us_prep s) (us_queue s) (us_unsupported s) (us_failed s) (us_abandoned s)
    (us_accepted s) (us_answered s) (us_refused s) (us_gaveUp s) (h :: us_handed s) (us_fails s).

Definition note_fail (h : bytes) (s : upState) : upState :=
  UpState (us_index s) (us_held s) (us_pending s) (us_prep s) (us_queue s) (us_unsupported s) (us_failed s) (us_abandoned s)
    (us_accepted s) (us_answered s) (us_refused s) (us_gaveUp s) (us_handed s) (h :: us_fails s).

(** ** The books *)

Definition track (h : bytes) (p : pendingPut) : upState -> upState := set_pending (fun m => <[h := p]> m).

Definition settle (h : bytes) : upState -> upState := set_pending (delete h).

Definition dropUpload (h : bytes) (s : upState) : upState := settle h (set_index (removeClaimed h) s).

(** [dropUpload] where a guard refuses the body. *)
Definition refuseUpload (h : bytes) (s : upState) : upState :=
  let s := dropUpload h s in set_counts (us_failed s) (us_abandoned s) (us_answered s) (h :: us_refused s) (us_gaveUp s) s.

Definition failUpload (aborted : bool) (h : bytes) (s : upState) : upState :=
  let s := note_fail h (set_index (removeClaimed h) s) in
  set_counts (if aborted then us_failed s else us_failed s + 1) (us_abandoned s) (us_answered s) (us_refused s) (us_gaveUp s) s.

Definition abandonUpload (h : bytes) (s : upState) : upState :=
  let s := dropUpload h s in set_counts (us_failed s) (us_abandoned s + 1) (us_answered s) (us_refused s) (h :: us_gaveUp s) s.

(** [settle] where the server has answered for the object. *)
Definition confirm (h : bytes) (s : upState) : upState :=
  let s := settle h s in set_counts (us_failed s) (us_abandoned s) (h :: us_answered s) (us_refused s) (us_gaveUp s) s.

(** ** An upload's way *)

(** [enqueuePut]; [accepted] is what [submit] answers.  False is an error for the caller. *)
Definition enqueuePut (actionID outputID : bytes) (data : option bytes) (path : bytes) (accepted : bool) (s : upState) : bool * upState :=
  match parseActionHash actionID with
  | None => (false, s)
  | Some h =>
      let '(fresh, ix) := claimPut h (us_index s) in
      if negb fresh then (true, s)
      else
        let s := track h (PendingPut actionID outputID path data) (add_held h (set_index (fun _ => ix) (accept h s))) in
        let j := PutJob actionID (key actionID) h outputID data path in
        (true, if accepted then set_queues (us_prep s ++ [j]) (us_queue s) s else abandonUpload h s)
  end.

Definition putSingle (aborted : bool) (status : option Z) (r : putReq) (s : upState) : upState :=
  match status with
  | Some 200 => confirm (pr_hash r) s
  | _ => failUpload aborted (pr_hash r) s
  end.

(** [prepare]: [file] is what the read of the job's path brings, [compressed]
    what the encoder answers, [stopped] whether the coalescer has stopped; [later]
    whether the hand-off begins while a single upload is under way. *)
Definition prepare (aborted later : bool) (file : option bytes) (compressed : bytes -> option bytes) (stopped : bool) (status : option Z)
    (j : putJob) (s : upState) : upState :=
  if aborted then hand_off (pj_hash j) s
  else
    match (match pj_data j with Some d => Some d | None => if bytes_eqb (pj_path j) [] then Some [] else file end) with
    | None => abandonUpload (pj_hash j) s
    | Some data =>
        if negb (BuildIDMatchesAction (pj_actionID j) data).2 then refuseUpload (pj_hash j) s
        else if IsGoModuleIndex data then refuseUpload (pj_hash j) s
        else match compressed data with
             | None => abandonUpload (pj_hash j) s
             | Some z =>
                 let r := PutReq (pj_actionID j) (pj_key j) (pj_hash j) (pj_outputID j) z in
                 if us_unsupported s then putSingle later status r s
                 else if stopped then abandonUpload (pj_hash j) s
                 else set_queues (us_prep s) (us_queue s ++ [r]) s
             end
    end.

(** The results by key; a later one for the same key wins. *)
Definition resultByKey (rs : list (bytes * bytes)) : gmap bytes bytes := foldl (fun m r => <[r.1 := r.2]> m) ∅ rs.

Definition settle_result (aborted : bool) (results : gmap bytes bytes) (s : upState) (r : putReq) : upState :=
  match results !! pr_key r with
  | Some status =>
      if bytes_eqb status (str "stored") || bytes_eqb status (str "conflict") then confirm (pr_hash r) s
      else if bytes_eqb status (str "dropped") then confirm (pr_hash r) s
      else failUpload aborted (pr_hash r) s
  | None => failUpload aborted (pr_hash r) s
  end.

Definition sendBatchPut (aborted : bool) (reqs : list putReq) (reply : putReply) (single : putReq -> option Z) (s : upState) : upState :=
  match reply with
  | PNoAnswer => foldl (fun s r => failUpload aborted (pr_hash r) s) s reqs
  | PStatus code =>
      if (code =? 404) || (code =? 405) then foldl (fun s r => putSingle aborted (single r) r s) (set_unsupported s) reqs
      else foldl (fun s r => failUpload aborted (pr_hash r) s) s reqs
  | PResults rs => foldl (settle_result aborted (resultByKey rs)) s reqs
  end.

(** [pendingEntries] and the manifests [closeHandOff] adds; [ord] ranges over the pending. *)
Definition pendingEntries (ord : gmap bytes pendingPut -> list (bytes * pendingPut)) (s : upState) : list spoolEntry :=
  map (fun hp => SpoolEntry (pp_actionID hp.2) (pp_outputID hp.2) (pp_path hp.2) (pp_data hp.2) false) (ord (us_pending s)).

Definition spool_entries (ord : gmap bytes pendingPut -> list (bytes * pendingPut)) (manifests : list (bytes * bytes)) (s : upState) : list spoolEntry :=
  pendingEntries ord s ++ map (fun m => SpoolEntry m.1 (StoredDigest m.2) [] (Some m.2) true) manifests.

(** ** Steps

    A caller stores, a worker takes any job, the coalescer sends any batch it
    has collected, a lookup finds a claimed key absent, and the hand-off may
    have begun ([aborted]) at any of them. *)
Inductive ustep : upState -> upState -> Prop :=
  | u_put actionID outputID data path accepted s :
      ustep s (enqueuePut actionID outputID data path accepted s).2
  | u_prepare s l1 j l2 aborted later file compressed stopped status :
      us_prep s = l1 ++ j :: l2 ->
      ustep s (prepare aborted later file compressed stopped status j (set_queues (l1 ++ l2) (us_queue s) s))
  | u_send s batch rest aborted reply single :
      us_queue s = batch ++ rest -> batch <> [] -> (length batch <= batchMaxKeys)%nat ->
      ustep s (sendBatchPut aborted batch reply single (set_queues (us_prep s) rest s))
  | u_absent s h :
      ustep s (set_index (fun ix => (reclaimAbsent h ix).2) s).

(** ** Nothing is lost *)

Definition live (s : upState) : @keySet St := wi_keys (us_index s).

Definition owed (s : upState) (h : bytes) : Prop := is_Some (us_pending s !! h).

(** An upload somebody is at: in the hands of the one who took it off a queue
    ([hand]), in a queue, or left to the spool. *)
Definition underway (hand : list bytes) (s : upState) (h : bytes) : Prop :=
  h ∈ hand \/ h ∈ map pj_hash (us_prep s) \/ h ∈ map pr_hash (us_queue s) \/ h ∈ us_handed s.

(** [ks0] is the index before any upload. *)
Record accounted (ks0 : @keySet St) (hand : list bytes) (s : upState) : Prop := {
  ac_keys : hs_inv (ks_keys (live s)) /\ ks_shift (live s) = ks_shift ks0;
  ac_uploads : Forall (fun h => h ∈ us_answered s \/ h ∈ us_refused s \/ h ∈ us_gaveUp s \/ owed s h) (us_accepted s);
  ac_owed : forall h, owed s h -> underway hand s h \/ h ∈ us_fails s;
  ac_claims : forall x, ks_Contains (live s) x = true ->
    ks_Contains ks0 x = true \/ exists h, ks_key ks0 x = ks_key ks0 h /\ (h ∈ us_answered s \/ underway hand s h);
  ac_count : us_abandoned s = Z.of_nat (length (us_gaveUp s))
}.

(** Dropping a claim leaves no key that it alone accounted for. *)
Lemma dropped_claim ks0 hand s h x : accounted ks0 hand s -> ks_Contains (wi_keys (removeClaimed h (us_index s))) x = true ->
  ks_Contains (live s) x = true /\ ks_key ks0 x <> ks_key ks0 h.
Proof.
  intros [[Hi Hsh] _ _ _ _] Hc. unfold removeClaimed, dropKeyLocked in Hc. cbn [wi_keys with_keys] in Hc.
  destruct (ks_Remove_contains (live s) h x Hi) as [_ Hr]. unfold live in *. rewrite Hr in Hc. apply andb_true_iff in Hc as [Hne Hc]. split; [done|].
  intros He. rewrite (ks_key_shift ks0 (wi_keys (us_index s)) x), (ks_key_shift ks0 (wi_keys (us_index s)) h) in He by done.
  rewrite bool_decide_true in Hne by done. done.
Qed.

Lemma dropped_inv ks0 hand s h : accounted ks0 hand s -> hs_inv (ks_keys (wi_keys (removeClaimed h (us_index s)))) /\ ks_shift (wi_keys (removeClaimed h (us_index s))) = ks_shift ks0.
Proof. intros [[Hi Hsh] _ _ _ _]. split; [exact (proj1 (ks_Remove_contains (live s) h [] Hi))|exact Hsh]. Qed.

Lemma settle_owed s h g : owed s g -> g = h \/ owed (settle h s) g.
Proof using Type. unfold owed, settle, set_pending. cbn [us_pending]. destruct (decide (g = h)); [by left|]. right. by rewrite lookup_delete_ne. Qed.

(** What is under way stays so as long as the queues do; only the upload in
    hand is put down. *)
Lemma underway_down h hand s s' g : us_prep s' = us_prep s -> us_queue s' = us_queue s -> us_handed s' = us_handed s ->
  underway (h :: hand) s g -> g = h \/ underway hand s' g.
Proof using Type. clear. unfold underway. intros -> -> ->. rewrite elem_of_cons. tauto. Qed.

(** The claim of the upload in hand is dropped: nothing it alone accounted for
    is left. *)
Lemma claims_dropped ks0 h hand s s' x : accounted ks0 (h :: hand) s -> us_index s' = removeClaimed h (us_index s) -> us_answered s' = us_answered s ->
  us_prep s' = us_prep s -> us_queue s' = us_queue s -> us_handed s' = us_handed s -> ks_Contains (live s') x = true ->
  ks_Contains ks0 x = true \/ exists g, ks_key ks0 x = ks_key ks0 g /\ (g ∈ us_answered s' \/ underway hand s' g).
Proof.
  intros Hs Hix Ha Hp Hq Hh Hx. unfold live in Hx. rewrite Hix in Hx. destruct (dropped_claim _ _ _ _ _ Hs Hx) as [Hc Hne].
  destruct (ac_claims _ _ _ Hs x Hc) as [?|(g & Hk & Hg)]; [by left|right]. exists g. split; [done|]. rewrite Ha. destruct Hg as [?|Hg]; [by left|right].
  destruct (underway_down h hand s s' g Hp Hq Hh Hg) as [->|?]; done.
Qed.

Lemma accounted_fail ks0 hand aborted h s : accounted ks0 (h :: hand) s -> accounted ks0 hand (failUpload aborted h s).
Proof.
  intros Hs. pose proof Hs as [_ Hu Ho _ Hn]. constructor; [exact (dropped_inv ks0 _ s h Hs)|done| | |done].
  - intros g Hg. cbn [us_fails failUpload note_fail set_counts]. rewrite elem_of_cons. destruct (Ho g Hg) as [Hg'|?]; [|auto].
    destruct (underway_down h hand s (failUpload aborted h s) g eq_refl eq_refl eq_refl Hg'); auto.
  - intros x Hx. by eapply (claims_dropped ks0 h hand s).
Qed.

(** The ways a pending upload is closed without an answer. *)
Lemma accounted_drop ks0 hand h s s' : accounted ks0 (h :: hand) s -> us_index s' = removeClaimed h (us_index s) -> us_pending s' = delete h (us_pending s) ->
  us_accepted s' = us_accepted s -> us_answered s' = us_answered s -> us_prep s' = us_prep s -> us_queue s' = us_queue s -> us_handed s' = us_handed s -> us_fails s' = us_fails s ->
  (forall g, g ∈ us_refused s -> g ∈ us_refused s') -> (forall g, g ∈ us_gaveUp s -> g ∈ us_gaveUp s') ->
  h ∈ us_refused s' \/ h ∈ us_gaveUp s' -> us_abandoned s' = Z.of_nat (length (us_gaveUp s')) -> accounted ks0 hand s'.
Proof.
  intros Hs Hix Hp Hacc Hans Hpr Hq Hhd Hfl Href Hgu Hh Hn. pose proof Hs as [_ Hu Ho _ _]. constructor; [unfold live; rewrite Hix; exact (dropped_inv ks0 _ s h Hs)| | | |done].
  - rewrite Hacc, Hans. eapply Forall_impl; [exact Hu|]. intros g [?|[?|[?|Hg]]]; [by left|right; left; auto|right; right; left; auto|].
    destruct (settle_owed s h g Hg) as [->|Hg']; [destruct Hh; auto|]. right; right; right. unfold owed. by rewrite Hp.
  - intros g Hg. unfold owed in Hg. rewrite Hp in Hg. apply lookup_delete_is_Some in Hg as [Hne Hg]. rewrite Hfl. destruct (Ho g Hg) as [Hg'|?]; [|by right].
    left. by destruct (underway_down h hand s s' g Hpr Hq Hhd Hg').
  - intros x Hx. by eapply (claims_dropped ks0 h hand s).
Qed.

Lemma accounted_refuse ks0 hand h s : accounted ks0 (h :: hand) s -> accounted ks0 hand (refuseUpload h s).
Proof.
  intros Hs. eapply (accounted_drop ks0 hand h s); [done..| | | |]; cbn; [intros g Hg; by right|done|left; by left|exact (ac_count _ _ _ Hs)].
Qed.

Lemma accounted_abandon ks0 hand h s : accounted ks0 (h :: hand) s -> accounted ks0 hand (abandonUpload h s).
Proof.
  intros Hs. pose proof (ac_count _ _ _ Hs) as Hn. eapply (accounted_drop ks0 hand h s); [done..| | | |]; cbn -[Z.of_nat]; [done|intros g Hg; by right|right; by left|].
  rewrite Hn. lia.
Qed.

Lemma accounted_confirm ks0 hand h s : accounted ks0 (h :: hand) s -> accounted ks0 hand (confirm h s).
Proof.
  intros [Hk Hu How Hc Hn]. constructor; [done| | | |done].
  - eapply Forall_impl; [exact Hu|]. cbn [us_answered us_refused us_gaveUp confirm set_counts settle set_pending].
    intros g [?|[?|[?|Hg]]]; [left; by right|auto|auto|]. destruct (settle_owed s h g Hg) as [->|Ho]; [left; by left|by right; right; right].
  - intros g Hg. unfold owed in Hg. cbn [us_pending confirm set_counts settle set_pending] in Hg. apply lookup_delete_is_Some in Hg as [Hne Hg].
    destruct (How g Hg) as [Hg'|?]; [|by right]. left. by destruct (underway_down h hand s (confirm h s) g eq_refl eq_refl eq_refl Hg').
  - intros x Hx. destruct (Hc x Hx) as [?|(g & Hgk & [Ha|Ho])]; [by left|right; exists g; split; [done|left; by right]|].
    destruct (underway_down h hand s (confirm h s) g eq_refl eq_refl eq_refl Ho) as [->|Ho']; right; [exists h|exists g]; (split; [done|]); [left; by left|by right].
Qed.

(** What is in hand goes to a queue, or to the spool. *)
Lemma accounted_moves ks0 hand hand' s s' : accounted ks0 hand s -> us_index s' = us_index s -> us_pending s' = us_pending s -> us_accepted s' = us_accepted s ->
  us_answered s' = us_answered s -> us_refused s' = us_refused s -> us_gaveUp s' = us_gaveUp s -> us_abandoned s' = us_abandoned s -> us_fails s' = us_fails s ->
  (forall g, underway hand s g -> underway hand' s' g) -> accounted ks0 hand' s'.
Proof.
  intros [Hk Hu How Hc Hn] Hix Hp Hacc Hans Href Hgu Hab Hfl Hgo. constructor; [by unfold live; rewrite Hix| | | |by rewrite Hab, Hgu].
  - rewrite Hacc, Hans, Href, Hgu. unfold owed. by rewrite Hp.
  - intros g Hg. unfold owed in Hg. rewrite Hp in Hg. rewrite Hfl. destruct (How g Hg); auto.
  - intros x Hx. unfold live in Hx. rewrite Hix in Hx. destruct (Hc x Hx) as [?|(g & Hk' & [Ha|Ho])]; [by left|right; exists g; rewrite Hans; auto|right; exists g; auto].
Qed.

Lemma accounted_claim ks0 hand h p s : accounted ks0 hand s ->
  accounted ks0 (h :: hand) (track h p (add_held h (set_index (fun _ => addKeyLocked h (us_index s)) (accept h s)))).
Proof.
  intros [[Hi Hsh] Hu How Hc Hn]. destruct (ks_Add_contains (live s) h [] Hi) as [Hi' _].
  assert (Howed : forall g, owed s g -> owed (track h p (add_held h (set_index (fun _ => addKeyLocked h (us_index s)) (accept h s)))) g).
  { intros g Hg. unfold owed, track, set_pending. cbn [us_pending add_held set_index accept]. destruct (decide (g = h)) as [->|]; [rewrite lookup_insert_eq; by eexists|by rewrite lookup_insert_ne]. }
  assert (Hself : owed (track h p (add_held h (set_index (fun _ => addKeyLocked h (us_index s)) (accept h s)))) h).
  { unfold owed, track, set_pending. cbn [us_pending add_held set_index accept]. rewrite lookup_insert_eq. by eexists. }
  constructor; [by split| | | |done].
  - constructor; [by right; right; right|]. eapply Forall_impl; [exact Hu|]. intros g [?|[?|[?|Hg]]]; [by left|by right; left|by right; right; left|right; right; right; by apply Howed].
  - intros g Hg. destruct (decide (g = h)) as [->|Hne]; [left; left; by left|]. unfold owed, track, set_pending in Hg.
    cbn [us_pending add_held set_index accept] in Hg. rewrite lookup_insert_ne in Hg by done. destruct (How g Hg) as [[?|?]|?]; [left; left; by right|left; by right|by right].
  - intros x Hx. unfold live in Hx. cbn [us_index track set_pending add_held set_index addKeyLocked wi_keys with_keys] in Hx.
    destruct (ks_Add_contains (live s) h x Hi) as [_ Ha]. unfold live in Ha. rewrite Ha in Hx. apply orb_true_iff in Hx as [Hx|Hx].
    + apply bool_decide_eq_true in Hx. right. exists h. split; [|right; left; by left].
      by rewrite (ks_key_shift ks0 (wi_keys (us_index s)) x), (ks_key_shift ks0 (wi_keys (us_index s)) h).
    + destruct (Hc x Hx) as [?|(g & Hk & [?|Ho])]; [by left|right; exists g; auto|]. right. exists g. split; [done|]. right.
      destruct Ho as [?|?]; [left; by right|by right].
Qed.

#[local] Hint Resolve accounted_fail accounted_refuse accounted_abandon accounted_confirm accounted_claim : core.

Lemma accounted_put ks0 actionID outputID data path accepted s : accounted ks0 [] s -> accounted ks0 [] (enqueuePut actionID outputID data path accepted s).2.
Proof.
  intros Hs. unfold enqueuePut, claimPut. destruct (parseActionHash actionID) as [h|]; [|done]. destruct (ks_Contains (wi_keys (us_index s)) h); [done|]. cbn [negb snd].
  destruct accepted; [|auto]. eapply accounted_moves; [by apply accounted_claim|done..|]. unfold underway. cbn. intros g. rewrite map_app, elem_of_app, elem_of_cons. cbn.
  rewrite list_elem_of_singleton, elem_of_nil. intuition.
Qed.

Lemma accounted_single ks0 hand aborted status r s : accounted ks0 (pr_hash r :: hand) s -> accounted ks0 hand (putSingle aborted status r s).
Proof. intros Hs. unfold putSingle. repeat case_match; auto. Qed.

Lemma accounted_prepare ks0 aborted later file compressed stopped status j s : accounted ks0 [pj_hash j] s -> accounted ks0 [] (prepare aborted later file compressed stopped status j s).
Proof.
  intros Hs. unfold prepare. destruct aborted.
  { eapply accounted_moves; [exact Hs|done..|]. unfold underway. cbn. intros g. rewrite !elem_of_cons, !elem_of_nil. clear key; intuition. }
  destruct (match pj_data j with Some _ => _ | None => _ end) as [data|]; [|auto].
  destruct (negb _); [auto|]. destruct (IsGoModuleIndex data); [auto|]. destruct (compressed data); [|auto]. destruct (us_unsupported s); [by apply accounted_single|]. destruct stopped; [auto|].
  eapply accounted_moves; [exact Hs|done..|]. unfold underway. cbn. intros g. rewrite map_app, elem_of_app, !elem_of_cons. cbn. rewrite list_elem_of_singleton, !elem_of_nil. clear key; intuition.
Qed.

(** A batch is put down one upload after the other. *)
Lemma accounted_fold ks0 (f : upState -> putReq -> upState) (l : list putReq) :
  (forall hand s r, accounted ks0 (pr_hash r :: hand) s -> accounted ks0 hand (f s r)) ->
  forall s, accounted ks0 (map pr_hash l) s -> accounted ks0 [] (foldl f s l).
Proof using Type. intros Hf. induction l as [|x l IH]; intros s Hs; [done|]. cbn [foldl map] in *. apply IH. by apply Hf. Qed.

Lemma accounted_send ks0 aborted reqs reply single s : accounted ks0 (map pr_hash reqs) s -> accounted ks0 [] (sendBatchPut aborted reqs reply single s).
Proof.
  intros Hs. unfold sendBatchPut. destruct reply as [|code|rs]; [apply accounted_fold; auto| |].
  - destruct (_ || _); (apply accounted_fold; [auto|]); [intros; by apply accounted_single|by destruct Hs|done].
  - apply accounted_fold; [|done]. intros hand s' r Hs'. unfold settle_result. repeat case_match; auto.
Qed.

Lemma accounted_absent ks0 h s : accounted ks0 [] s -> accounted ks0 [] (set_index (fun ix => (reclaimAbsent h ix).2) s).
Proof.
  intros Hs. pose proof Hs as [_ Hu Ho Hc Hn]. constructor; [exact (dropped_inv ks0 _ s h Hs)|done|exact Ho| |done].
  intros x Hx. destruct (dropped_claim ks0 _ s h x Hs Hx) as [H1 _]. exact (Hc x H1).
Qed.

Lemma ustep_accounted ks0 s s' : ustep s s' -> accounted ks0 [] s -> accounted ks0 [] s'.
Proof.
  intros [actionID outputID data path accepted s1|s1 l1 j l2 aborted later file compressed stopped status Hq|s1 batch rest aborted reply single Hq _ _|s1 h] Hs.
  - by apply accounted_put.
  - apply accounted_prepare. eapply accounted_moves; [exact Hs|done..|]. unfold underway. cbn. intros g. rewrite Hq, !map_app. cbn.
    rewrite !elem_of_app, !elem_of_cons, elem_of_nil. clear key; intuition.
  - apply accounted_send. eapply accounted_moves; [exact Hs|done..|]. unfold underway. cbn. intros g. rewrite Hq, map_app, elem_of_app, elem_of_nil. clear key; intuition.
  - by apply accounted_absent.
Qed.

Definition idle (ks0 : @keySet St) (s : upState) : Prop :=
  live s = ks0 /\ hs_inv (ks_keys ks0) /\ us_pending s = ∅ /\ us_accepted s = [] /\ us_gaveUp s = [] /\ us_abandoned s = 0.

(** C19. No upload is lost and no key is claimed for nothing.  Whatever is
    stored, prepared, sent, refused, answered or cut off, in any order: every
    upload that was accepted has been answered for by the server, was refused
    by a guard, was given up and counted, or is still owed; what is owed waits in
    one of the two queues, was left to the spool by a worker after the hand-off
    began, or was sent and failed.  A key the index
    claims was there before, or its upload has been answered for, waits in one of
    the two queues, or was left to the spool by a worker after the hand-off began
    (up to the bits the index holds): a key whose upload failed, was refused or
    was given up is claimed no more, so a later store uploads it again.  The spool
    written at exit carries exactly what is owed and the manifests. *)
Theorem uploads_accounted ks0 s0 s ord manifests :
  idle ks0 s0 -> rtc ustep s0 s -> (forall m, ord m ≡ₚ map_to_list m) ->
  Forall (fun h => h ∈ us_answered s \/ h ∈ us_refused s \/ h ∈ us_gaveUp s \/ owed s h) (us_accepted s) /\
  us_abandoned s = Z.of_nat (length (us_gaveUp s)) /\
  (forall h, owed s h -> h ∈ map pj_hash (us_prep s) \/ h ∈ map pr_hash (us_queue s) \/ h ∈ us_handed s \/ h ∈ us_fails s) /\
  (forall x, ks_Contains (live s) x = true ->
    ks_Contains ks0 x = true \/
    exists h, ks_key ks0 x = ks_key ks0 h /\
      (h ∈ us_answered s \/ h ∈ map pj_hash (us_prep s) \/ h ∈ map pr_hash (us_queue s) \/ h ∈ us_handed s)) /\
  (forall e, e ∈ spool_entries ord manifests s <->
    (exists h p, us_pending s !! h = Some p /\ e = SpoolEntry (pp_actionID p) (pp_outputID p) (pp_path p) (pp_data p) false) \/
    (exists id body, (id, body) ∈ manifests /\ e = SpoolEntry id (StoredDigest body) [] (Some body) true)).
Proof.
  intros (Hl & Hi & Hp & Ha & Hg & Hn) Hr Hord.
  assert (H0 : accounted ks0 [] s0).
  { constructor; [by rewrite Hl|rewrite Ha; constructor| |rewrite Hl; by left|by rewrite Hn, Hg].
    intros h [x Hx]. by rewrite Hp, lookup_empty in Hx. }
  assert (Hs : accounted ks0 [] s) by (clear -H0 Hr SetLaws0 SetLaws1; induction Hr as [|x y z Hxy _ IH]; [done|]; apply IH; by eapply ustep_accounted).
  split; [apply Hs|]. split; [apply Hs|]. split.
  { intros h Hh. destruct (ac_owed _ _ _ Hs h Hh) as [[Hh'|[?|[?|?]]]|?]; [by apply elem_of_nil in Hh'|auto..]. }
  split.
  { intros x Hx. destruct (ac_claims _ _ _ Hs x Hx) as [?|(h & Hk & [?|[Hh|?]])]; [by left|right; exists h; auto|by apply elem_of_nil in Hh|right; exists h; auto]. }
  intros e. unfold spool_entries, pendingEntries. rewrite elem_of_app, !list_elem_of_fmap. split.
  - intros [([h p] & -> & Hin)|([id body] & -> & Hin)]; [left; exists h, p|right; by exists id, body]. rewrite Hord in Hin. by apply elem_of_map_to_list in Hin.
  - intros [(h & p & Hpe & ->)|(id & body & Hin & ->)]; [left; exists (h, p)|right; by exists (id, body)]. split; [done|]. rewrite Hord. by apply elem_of_map_to_list.
Qed.

End upload.

(** ** A concrete run: an upload whose batch gets no answer is owed, and spooled. *)

Definition demoUp : @upState (gset bytes) (gset bytes) :=
  UpState (WebIndex newKeySet true false 0 None noGen None newSortedSet false 0) newSortedSet ∅ [] [] false 0 0 [] [] [] [] [] [].
Definition demoUpKey (id : bytes) : bytes := str "v1" ++ id.
Definition demoUpId : bytes := hex_encode (replicate 32 3).
Definition demoPutState : upState := (enqueuePut demoUpKey demoUpId (str "out") (Some (str "body")) [] true demoUp).2.
Definition demoPrepared : upState :=
  prepare false false None Some false None (PutJob demoUpId (demoUpKey demoUpId) (replicate 32 3) (str "out") (Some (str "body")) []) (set_queues [] [] demoPutState).
Definition demoFailed : upState := sendBatchPut false (us_queue demoPrepared) PNoAnswer (fun _ => None) (set_queues [] [] demoPrepared).

Lemma demo_uploads : rtc (ustep demoUpKey) demoUp demoFailed.
Proof.
  eapply rtc_l; [apply (u_put demoUpKey demoUpId (str "out") (Some (str "body")) [] true)|].
  eapply rtc_l; [apply (u_prepare demoUpKey demoPutState [] (PutJob demoUpId (demoUpKey demoUpId) (replicate 32 3) (str "out") (Some (str "body")) []) [] false false None Some false None); vm_compute; reflexivity|].
  eapply rtc_l; [|apply rtc_refl]. apply (u_send demoUpKey demoPrepared (us_queue demoPrepared) [] false PNoAnswer (fun _ => None)); [by rewrite app_nil_r|vm_compute; discriminate|vm_compute; lia].
Qed.

Lemma uploads_accounted_witness :
  ks_Contains (live demoFailed) (replicate 32 3) = false /\ us_failed demoFailed = 1 /\
  SpoolEntry demoUpId (str "out") [] (Some (str "body")) false ∈ spool_entries map_to_list [] demoFailed.
Proof.
  split; [vm_compute; reflexivity|]. split; [vm_compute; reflexivity|].
  destruct (uploads_accounted demoUpKey newKeySet demoUp demoFailed map_to_list []) as (_ & _ & _ & _ & Hsp).
  - split; [reflexivity|]. split; [exact (proj1 (adoptSorted_ok []))|]. split; [reflexivity|]. split; [reflexivity|]. split; reflexivity.
  - exact demo_uploads.
  - reflexivity.
  - apply Hsp. left. exists (replicate 32 3), (PendingPut demoUpId (str "out") [] (Some (str "body"))). split; [vm_compute; reflexivity|reflexivity].
Defined.
