(* ===== verification/RoundTrip.v ===== *)
(** * From one build to another

    The client's half of an upload ([cacheclient/webput.go], what [prepare]
    sends and with which metadata), the server of [Batch] and the client's half
    of a lookup ([WebGet]), put together: what a build gets for an action is
    what a build stored for it.

    The server's answer reaches the client as it was sent: the tar stream and
    its manifest decode to the members and entries that were encoded.  Values
    that only describe an object may be changed on the way. *)

From Stdlib Require Import ZArith Lia List Bool String.
From stdpp Require Import base gmap list relations.
From S2P Require Import Prelude Strconv GoSet Keys Sha256 ObjAttrs ContentStamp Lru MemoCache Index Storage Eviction HashSet ModuleIndex Archive Pkgbits ClientIndex Handlers Batch WebGet.

(** ** What an upload says *)

(** The backend's version and module and the time, as text. *)
Record clientInfo := ClientInfo { ci_version : bytes; ci_module : bytes; ci_created : bytes }.

Definition put_if (k : string) (v : bytes) (m : smap) : smap := if bytes_eqb v [] then m else <[str k := v]> m.

Section metadata.
Context (limit : Z) {Sb : Type} `{!SetOps Sb bytes}.

Definition prepare_meta (ci : clientInfo) (actionID outputID data compressed : bytes) : outcome smap :=
  let m : smap :=
    <[str "outputid" := outputID]> (<[str "action-id" := actionID]> (<[storedDigestMetaKey := StoredDigest compressed]>
    (<[str "object-type" := detectObjectType data]> (<[str "body-size" := formatInt (Z.of_nat (length data))]>
    (<[str "compression" := str "zstd"]> {[str "created" := ci_created ci]}))))) in
  let m := put_if "toolchain-version" (ci_version ci) m in
  let m := put_if "module" (ci_module ci) m in
  let '(goVer, target) := parseArchiveHeader data in
  let m := if bytes_eqb goVer [] then m else <[str "target" := target]> (<[str "go-version" := goVer]> m) in
  obind (parseImportPath limit data) (fun pkg =>
  let m := put_if "pkg" pkg m in
  let m := put_if "content-id" (archiveBuildID data).2 m in
  obind (parseSourceFiles (St := Sb) limit data) (fun files =>
  let m := match files with [] => m | _ => <[str "src" := capSrcList files]> m end in
  obind (parseSourceDir limit data) (fun dir => Val (put_if "src-dir" dir m)))).

(** A key no value of the source list, the header or the backend is stored under. *)
Definition described : list string :=
  ["toolchain-version"; "module"; "go-version"; "target"; "pkg"; "content-id"; "src"; "src-dir"]%string.

Lemma put_if_other k v m x : x <> str k -> put_if k v m !! x = m !! x.
Proof. intros Hx. unfold put_if. destruct (bytes_eqb v []); [done|]. by rewrite lookup_insert_ne. Qed.

Lemma prepare_meta_lookup ci actionID outputID data compressed m x :
  prepare_meta ci actionID outputID data compressed = Val m -> Forall (fun k => x <> str k) described ->
  m !! x = (<[str "outputid" := outputID]> (<[str "action-id" := actionID]> (<[storedDigestMetaKey := StoredDigest compressed]>
    (<[str "object-type" := detectObjectType data]> (<[str "body-size" := formatInt (Z.of_nat (length data))]>
    (<[str "compression" := str "zstd"]> {[str "created" := ci_created ci]}))))) : smap) !! x.
Proof.
  intros Hrun Hx. unfold described in Hx. repeat (apply Forall_cons in Hx as [? Hx]). unfold prepare_meta in Hrun.
  destruct (parseArchiveHeader data) as [goVer target]. destruct (parseImportPath limit data) as [pkg|]; [|done]. cbn [obind] in Hrun.
  destruct (parseSourceFiles limit data) as [files|]; [|done]. cbn [obind] in Hrun. destruct (parseSourceDir limit data) as [dir|]; [|done].
  cbn [obind] in Hrun. injection Hrun as <-. rewrite put_if_other by done.
  destruct files; [|rewrite lookup_insert_ne by done]; rewrite !put_if_other by done;
    (destruct (bytes_eqb goVer []); [|rewrite !lookup_insert_ne by done]); by rewrite !put_if_other by done.
Qed.

(** The metadata the read side depends on. *)
Lemma prepare_meta_fixed ci actionID outputID data compressed m : prepare_meta ci actionID outputID data compressed = Val m ->
  m !! outputIDMetaKey = Some outputID /\ m !! str "action-id" = Some actionID /\
  m !! storedDigestMetaKey = Some (StoredDigest compressed) /\ m !! [] = None.
Proof.
  intros Hrun. assert (Hd : forall x, bool_decide (Forall (fun k => x <> str k) described) = true -> Forall (fun k => x <> str k) described)
    by (intros x; apply bool_decide_eq_true_1).
  split_and!; (rewrite (prepare_meta_lookup _ _ _ _ _ _ _ Hrun) by (apply Hd; vm_compute; reflexivity)).
  - by rewrite lookup_insert_eq.
  - by rewrite lookup_insert_ne, lookup_insert_eq by done.
  - by rewrite !lookup_insert_ne, lookup_insert_eq by done.
  - rewrite !lookup_insert_ne by done. by rewrite lookup_singleton_ne.
Qed.
End metadata.

(** ** The headers of a single upload *)

Definition valid_header_byte (c : Z) : bool :=
  ((97 <=? c) && (c <=? 122)) || ((65 <=? c) && (c <=? 90)) || ((48 <=? c) && (c <=? 57)) ||
  existsb (Z.eqb c) [33; 35; 36; 37; 38; 39; 42; 43; 45; 46; 94; 95; 96; 124; 126].

Fixpoint recase (upper : bool) (s : bytes) : bytes :=
  match s with
  | [] => []
  | c :: s' =>
      let c' := if upper && (97 <=? c) && (c <=? 122) then c - 32 else if negb upper && (65 <=? c) && (c <=? 90) then c + 32 else c in
      c' :: recase (c' =? 45) s'
  end.

(** [textproto.CanonicalMIMEHeaderKey]. *)
Definition canonical_header (s : bytes) : bytes := if forallb valid_header_byte s then recase true s else s.

(** An [http.Header] with one value a name; [h.Set] in the order the map is ranged over. *)
Definition metadataHeaders (ranged : list (bytes * bytes)) : smap :=
  foldl (fun h kv => <[canonical_header (str "X-Cache-Meta-" ++ kv.1) := kv.2]> h) ∅ ranged.

Lemma recase_lower s : forall upper, map to_lower (recase upper s) = map to_lower s.
Proof.
  assert (Hup : forall c, to_lower (if (97 <=? c) && (c <=? 122) then c - 32 else c) = to_lower c)
    by (intros c; unfold to_lower; repeat case_match; lia).
  assert (Hdown : forall c, to_lower (if (65 <=? c) && (c <=? 90) then c + 32 else c) = to_lower c)
    by (intros c; unfold to_lower; repeat case_match; lia).
  induction s as [|c s IH]; intros upper; [done|]. cbn [recase map]. rewrite IH. f_equal.
  destruct upper; cbn [andb negb]; [apply Hup|apply Hdown].
Qed.

Lemma canonical_lower s : map to_lower (canonical_header s) = map to_lower s.
Proof. unfold canonical_header. destruct (forallb _ _); [apply recase_lower|done]. Qed.

Lemma headers_entries (m : smap) ranged name v : (forall k v, (k, v) ∈ ranged -> m !! k = Some v) ->
  metadataHeaders ranged !! name = Some v -> exists k, m !! k = Some v /\ name = canonical_header (str "X-Cache-Meta-" ++ k).
Proof.
  intros Hm. unfold metadataHeaders. assert (Hgen : forall h : smap,
    (forall name v, h !! name = Some v -> exists k, m !! k = Some v /\ name = canonical_header (str "X-Cache-Meta-" ++ k)) ->
    forall name v, foldl (fun h kv => <[canonical_header (str "X-Cache-Meta-" ++ kv.1) := kv.2]> h) h ranged !! name = Some v ->
    exists k, m !! k = Some v /\ name = canonical_header (str "X-Cache-Meta-" ++ k)).
  { induction ranged as [|[k v'] ranged IH]; intros h Hh; [done|]. cbn [foldl fst snd]. apply IH; [intros; apply Hm; by apply list_elem_of_further|].
    intros n w [[<- <-]|[_ Hn]]%lookup_insert_Some; [|by apply Hh]. exists k. split; [apply Hm, list_elem_of_here|done]. }
  apply Hgen. intros n w Hn. by rewrite lookup_empty in Hn.
Qed.

Lemma headers_present ranged k v : (k, v) ∈ ranged -> is_Some (metadataHeaders ranged !! canonical_header (str "X-Cache-Meta-" ++ k)).
Proof.
  unfold metadataHeaders. assert (Hkeep : forall (l : list (bytes * bytes)) (h : smap) n, is_Some (h !! n) ->
    is_Some (foldl (fun h kv => <[canonical_header (str "X-Cache-Meta-" ++ kv.1) := kv.2]> h) h l !! n)).
  { induction l as [|[k' v'] l IH]; intros h n Hn; [done|]. cbn [foldl fst snd]. apply IH.
    destruct (decide (n = canonical_header (str "X-Cache-Meta-" ++ k'))) as [->|Hne]; [by rewrite lookup_insert_eq|by rewrite lookup_insert_ne]. }
  generalize (∅ : smap) as h. induction ranged as [|[k' v'] ranged IH]; intros h Hin; [by apply not_elem_of_nil in Hin|].
  cbn [foldl fst snd]. apply elem_of_cons in Hin as [[= <- <-]|Hin]; [|by apply IH]. apply Hkeep. by rewrite lookup_insert_eq.
Qed.

(** What the server makes of headers that carry the entries of [m]. *)
Lemma native_fold (m : smap) l : (forall hdr, hdr ∈ l -> exists k, with_prefix nativeMetaPrefix hdr = Some k /\ m !! k = Some hdr.2) ->
  forall acc, acc ⊆ m -> foldl native_step acc l ⊆ m /\ acc ⊆ foldl native_step acc l /\
    forall hdr k, hdr ∈ l -> with_prefix nativeMetaPrefix hdr = Some k -> foldl native_step acc l !! k = m !! k.
Proof.
  induction l as [|hdr l IH]; intros Hl acc Hacc; cbn [foldl].
  { split_and!; [done|done|]. intros hdr k Hin. by apply not_elem_of_nil in Hin. }
  destruct (Hl hdr (list_elem_of_here _ _)) as (k & Hk & Hm). unfold native_step at 2 4 6. rewrite Hk.
  destruct (IH (fun h Hin => Hl h (list_elem_of_further _ _ _ Hin)) (<[k := hdr.2]> acc)) as (H1 & H2 & H3).
  { apply insert_subseteq_l; [done|done]. }
  assert (Hk' : foldl native_step (<[k := hdr.2]> acc) l !! k = Some hdr.2) by (eapply lookup_weaken; [|exact H2]; apply lookup_insert_eq).
  split_and!; [done| |].
  - apply map_subseteq_spec. intros x v Hv. destruct (decide (x = k)) as [->|Hne].
    + rewrite Hk'. rewrite <- Hm. by eapply lookup_weaken.
    + eapply lookup_weaken; [|exact H2]. by rewrite lookup_insert_ne.
  - intros h' k' [->|Hin]%elem_of_cons Hw; [|by eapply H3]. rewrite Hk in Hw. injection Hw as <-. by rewrite Hk', Hm.
Qed.

(** A single upload carries the metadata a batch would.  Whatever the order
    in which the client ranges over its map and the server over the headers,
    and whatever the canonical case of the names, the server reads back from
    the headers the very map the client rendered, if its names are lower case
    (those the client uses are). *)
Theorem headers_roundtrip (m : smap) ranged hdrs :
  (forall k v, m !! k = Some v -> map to_lower k = k) -> ranged ≡ₚ map_to_list m -> hdrs ≡ₚ map_to_list (metadataHeaders ranged) ->
  upload_meta hdrs = m.
Proof.
  intros Hlow Hr Hh. assert (Hm : forall k v, (k, v) ∈ ranged <-> m !! k = Some v) by (intros k v; rewrite Hr; apply elem_of_map_to_list).
  assert (Hpre : forall k v, m !! k = Some v -> map to_lower (canonical_header (str "X-Cache-Meta-" ++ k)) = nativeMetaPrefix ++ k).
  { intros k v Hk. rewrite canonical_lower, map_app, (Hlow _ _ Hk). done. }
  assert (Hall : forall hdr, hdr ∈ hdrs -> exists k, map to_lower hdr.1 = nativeMetaPrefix ++ k /\ m !! k = Some hdr.2).
  { intros [name v] Hin. rewrite Hh in Hin. apply elem_of_map_to_list in Hin.
    destruct (headers_entries m ranged name v (fun k v => proj1 (Hm k v)) Hin) as (k & Hk & ->). exists k. split; [by eapply Hpre|done]. }
  assert (Hnat : forall hdr, hdr ∈ hdrs -> exists k, with_prefix nativeMetaPrefix hdr = Some k /\ m !! k = Some hdr.2).
  { intros hdr Hin. destruct (Hall hdr Hin) as (k & Hk & Hv). exists k. split; [|done]. unfold with_prefix. by rewrite Hk, has_prefix_app, drop_app_length. }
  destruct (native_fold m hdrs Hnat ∅ (map_empty_subseteq _)) as (Hsub & _ & Hk).
  assert (Hres : foldl native_step ∅ hdrs = m).
  { apply (anti_symm (⊆)); [done|]. apply map_subseteq_spec. intros k v Hv.
    destruct (headers_present ranged k v (proj2 (Hm k v) Hv)) as [w Hw].
    assert (Hin : (canonical_header (str "X-Cache-Meta-" ++ k), w) ∈ hdrs) by (rewrite Hh; by apply elem_of_map_to_list).
    rewrite (Hk _ k Hin); [done|]. unfold with_prefix. cbn [fst]. by rewrite (Hpre _ _ Hv), has_prefix_app, drop_app_length. }
  unfold upload_meta. rewrite Hres. clear - Hall.
  assert (Hleg : forall acc, foldl legacy_step acc hdrs = acc); [|apply Hleg].
  induction hdrs as [|hdr hdrs IH]; intros acc; [done|]. cbn [foldl]. destruct (Hall hdr (list_elem_of_here _ _)) as (k & Hk & _).
  unfold legacy_step at 2, with_prefix. rewrite Hk. change (has_prefix (nativeMetaPrefix ++ k) legacyMetaPrefix) with false.
  apply IH. intros h Hin. apply Hall. by apply list_elem_of_further.
Qed.

(** ** Reading an answer *)

(** The manifest and the members as the client's tar reader yields them. *)
Definition client_manifest (e : Batch.batchGetManifestEntry) : WebGet.batchGetManifestEntry :=
  ManifestEntry (mf_Key e) (mf_Metadata e) (mf_Prefetch e).

Definition sent_stream (manifest : list Batch.batchGetManifestEntry) (members : list (bytes * bytes)) : batchStream :=
  BatchStream [] (Some (Some (map client_manifest manifest))) (map (fun nb => TarMember nb.1 (Some nb.2)) members).

Lemma meta_of_lookup es k : k ∈ map me_Key es -> exists me, me ∈ es /\ me_Key me = k /\ meta_of es !! k = Some me.
Proof.
  unfold meta_of. induction es as [|e es IH] using rev_ind; intros Hin; [by apply not_elem_of_nil in Hin|]. rewrite foldl_snoc.
  rewrite map_app, elem_of_app in Hin. destruct (decide (me_Key e = k)) as [He|He].
  - exists e. split_and!; [apply elem_of_app; right; by apply list_elem_of_singleton|done|]. rewrite He. apply lookup_insert_eq.
  - destruct Hin as [Hin|Hin]; [|apply list_elem_of_singleton in Hin; congruence]. destruct (IH Hin) as (me & Hme & Hk & Hl).
    exists me. split_and!; [apply elem_of_app; by left|done|by rewrite lookup_insert_ne].
Qed.

(** A stream whose members are all listed is read to its end. *)
Lemma read_members_listed meta members : Forall (fun nb => exists k me, nb.1 = dataPrefix ++ k /\ k <> [] /\ meta !! k = Some me) members ->
  exists es, read_members meta (map (fun nb => TarMember nb.1 (Some nb.2)) members) = (es, false) /\
    Forall2 (fun nb e => exists k me, nb.1 = dataPrefix ++ k /\ meta !! k = Some me /\ e = entry_of me nb.2) members es.
Proof.
  induction 1 as [|[name raw] members (k & me & Hn & Hk & Hme) _ IH]; [by exists []|]. cbn [fst snd map read_members] in *. subst name.
  destruct IH as (es & -> & Hes). rewrite has_prefix_app, length_app. change (length dataPrefix) with 5%nat.
  destruct (Nat.leb_spec (5 + length k) 5) as [Hle|_]; [destruct k; [done|cbn in Hle; lia]|]. cbn [orb negb].
  change 5%nat with (length dataPrefix) at 1. rewrite drop_app_length, Hme. eexists. split; [done|]. constructor; [|done]. by exists k, me.
Qed.

Lemma reqByKey_lookup reqs k i : reqByKey reqs !! k = Some i -> exists r, reqs !! i = Some r /\ br_key r = k.
Proof.
  unfold reqByKey. assert (Hall : Forall (fun ir : nat * batchReq => reqs !! ir.1 = Some ir.2) (imap (fun i r => (i, r)) reqs)).
  { apply Forall_lookup. intros j [n r] Hj. rewrite list_lookup_imap in Hj. destruct (reqs !! j) as [r0|] eqn:Ej; [|done]. by injection Hj as <- <-. }
  revert Hall. generalize (imap (fun i r => (i, r)) reqs) as l. induction l as [|[n r] l IH] using rev_ind; intros Hall; [cbn [foldl]; by rewrite (lookup_empty (M := gmap bytes))|].
  apply Forall_app in Hall as [Hl Hr]. rewrite Forall_singleton in Hr. rewrite foldl_snoc. cbn [fst snd].
  intros [[<- <-]|[_ Hi]]%lookup_insert_Some; [by exists r|by apply IH].
Qed.

(** ** Client, server, client *)

Definition request_for (h : bytes) : batchReq := BatchReq (hex_encode h) (ckey h) h.

Section exchange.
Context {Sw Sh : Type} `{!SetOps Sw bytes} `{!SetLaws Sw bytes} `{!SetOps Sh bytes} `{!SetLaws Sh bytes} {Codec : ClientCodec}.
(** [built h d]: a build stored the output [d] for the action [h]. *)
Context (built : bytes -> bytes -> Prop).

(** An entry that passes every gate of the client for its own action. *)
Definition entry_good (e : WebGet.BatchEntry) : Prop :=
  exists h d, is_hash h /\ be_Key e = ckey h /\ be_OutputID e = hex_encode (sha256 d) /\ built h d /\
    verify (hex_encode h) (be_OutputID e) (be_ActionID e) (be_Data e) (be_RawSize e) = inl d.

Definition hit_for (hs : list bytes) (keys : list bytes) (ir : nat * batchResp) : Prop :=
  exists h d, hs !! ir.1 = Some h /\ ckey h ∈ keys /\ ir.2 = RHit (hex_encode (sha256 d)) d /\ built h d.

Lemma ckey_inj h h' : is_hash h -> is_hash h' -> ckey h = ckey h' -> h = h'.
Proof. intros Hh Hh' E. apply (f_equal extractActionHash) in E. rewrite !ckey_hash in E by done. by injection E. Qed.

Lemma serve_good tier hs keys es : Forall is_hash hs -> Forall entry_good es -> Forall (fun e => be_Key e ∈ keys) es ->
  forall sv : serving (St := Sw) (Sh := Sh),
  (forall k i, sv_open sv !! k = Some i -> exists h, hs !! i = Some h /\ k = ckey h) -> Forall (hit_for hs keys) (sv_replies sv) ->
  let sv' := foldl (serve_entry tier (map request_for hs)) sv es in
  Forall (hit_for hs keys) (sv_replies sv') /\
  forall k i, sv_open sv' !! k = Some i -> sv_open sv !! k = Some i /\ k ∉ map be_Key es.
Proof.
  intros Hhs. induction 1 as [|e es (h & d & Hh & Hk & Ho & Hb & Hv) _ IH]; intros Hkeys sv Hopen Hrep; cbn [foldl].
  { split; [done|]. intros k i Hi. split; [done|apply not_elem_of_nil]. }
  apply Forall_cons in Hkeys as [Hke Hkeys]. unfold serve_entry at 2 4. destruct (sv_open sv !! be_Key e) as [i|] eqn:Ei.
  - destruct (Hopen _ _ Ei) as (h' & Hi & Hk'). assert (h' = h) as ->.
    { apply ckey_inj; [|done|congruence]. rewrite Forall_forall in Hhs. apply Hhs. by eapply list_elem_of_lookup_2. }
    assert (Hr : map request_for hs !! i = Some (request_for h)) by (change (map request_for hs) with (request_for <$> hs); by rewrite list_lookup_fmap, Hi).
    rewrite Hr. cbn [br_actionID request_for]. rewrite Hv.
    set (sv1 := Serving (sv_replies sv ++ [(i, RHit (be_OutputID e) d)]) _ _ _ _). destruct (IH Hkeys sv1) as [H1 H2].
    + intros k j Hj. cbn [sv1 sv_open] in Hj. apply lookup_delete_Some in Hj as [_ Hj]. by apply Hopen.
    + cbn [sv1 sv_replies]. apply Forall_app. split; [done|]. apply Forall_singleton. exists h, d. cbn [fst snd]. rewrite Ho. split_and!; try done. by rewrite <- Hk.
    + split; [done|]. intros k j Hj. destruct (H2 k j Hj) as [Hj' Hn]. cbn [sv1 sv_open] in Hj'. apply lookup_delete_Some in Hj' as [Hne Hj'].
      split; [done|]. cbn [map]. rewrite elem_of_cons. intros [->|?]; done.
  - destruct (collect tier e (sv_sink sv) (gs_hold (sv_state sv))) as [sink hold]. set (sv1 := Serving (sv_replies sv) _ _ _ _). destruct (IH Hkeys sv1 Hopen Hrep) as [H1 H2].
    split; [done|]. intros k j Hj. destruct (H2 k j Hj) as [Hj' Hn]. cbn [sv1 sv_open] in Hj'. split; [done|].
    cbn [map]. rewrite elem_of_cons. intros [->|?]; [congruence|done].
Qed.

Lemma miss_each_miss reqs idx (s : getState (St := Sw) (Sh := Sh)) : Forall (fun ir => ir.1 ∈ idx /\ ir.2 = RMiss) (miss_each reqs idx s).1.
Proof.
  unfold miss_each, answer_each. set (step := fun '(rs, s) i => _).
  assert (Hgen : forall l rs s, (forall i, i ∈ l -> i ∈ idx) -> Forall (fun ir : nat * batchResp => ir.1 ∈ idx /\ ir.2 = RMiss) rs ->
    Forall (fun ir => ir.1 ∈ idx /\ ir.2 = RMiss) (foldl step (rs, s) l).1); [|by apply Hgen].
  induction l as [|i l IH]; intros rs s' Hl Hrs; [done|]. cbn [foldl]. unfold step at 2. assert (Hi : i ∈ idx) by (apply Hl, list_elem_of_here).
  destruct (reqs !! i); (apply IH; [intros j Hj; apply Hl; by apply list_elem_of_further|]); [|done]. apply Forall_app. split; [done|]. by apply Forall_singleton.
Qed.

(** A stream of good entries answers the keys it has and no other. *)
Lemma good_stream ord threshold tier hs bs es single (cs : getState (St := Sw) (Sh := Sh)) :
  (forall m, ord m ≡ₚ map_to_list m) -> Forall is_hash hs -> streamBatchResponse bs = (es, false) -> Forall entry_good es ->
  let replies := (sendBatch ord threshold tier (map request_for hs) (BStream bs) single cs).1.1 in
  forall i resp h, (i, resp) ∈ replies -> hs !! i = Some h ->
    (ckey h ∈ map be_Key es -> exists d, resp = RHit (hex_encode (sha256 d)) d /\ built h d) /\ (ckey h ∉ map be_Key es -> resp = RMiss).
Proof.
  intros Hord Hhs Hstr Hgood replies i resp h Hin Hi. subst replies. unfold sendBatch in Hin. rewrite Hstr in Hin.
  set (sv0 := Serving [] (reqByKey (map request_for hs)) [] (PrefetchSink [] 0) cs) in Hin.
  assert (Hopen : forall k j, sv_open sv0 !! k = Some j -> exists h, hs !! j = Some h /\ k = ckey h).
  { intros k j Hj. apply reqByKey_lookup in Hj as (r & Hr & <-). change (map request_for hs) with (request_for <$> hs) in Hr.
    rewrite list_lookup_fmap in Hr. destruct (hs !! j) as [g|]; [|done]. injection Hr as <-. by exists g. }
  assert (Hkeys : Forall (fun e => be_Key e ∈ map be_Key es) es).
  { apply Forall_forall. intros e He. apply list_elem_of_fmap. by exists e. }
  destruct (serve_good tier hs (map be_Key es) es Hhs Hgood Hkeys sv0 Hopen (List.Forall_nil _)) as [Hrep Hrest].
  set (sv := foldl _ sv0 es) in *. cbv zeta in Hin. set (rest := map snd (ord (sv_open sv))) in Hin.
  pose proof (miss_each_miss (map request_for hs) rest (sv_state sv)) as Hmiss. destruct (miss_each _ rest _) as [rs s']. cbn [fst] in *.
  apply elem_of_app in Hin as [Hin|Hin].
  - rewrite Forall_forall in Hrep. destruct (Hrep _ Hin) as (g & d & Hg & Hk & Hr & Hb). cbn [fst snd] in *. rewrite Hi in Hg. injection Hg as <-.
    split; [by exists d|done].
  - rewrite Forall_forall in Hmiss. destruct (Hmiss _ Hin) as [Hir Hr]. cbn [fst snd] in Hir, Hr. subst resp. split; [|done]. intros Hk. exfalso.
    apply list_elem_of_fmap in Hir as ([k j] & -> & Hkj). rewrite Hord in Hkj. apply elem_of_map_to_list in Hkj. cbn [snd] in *.
    destruct (Hrest _ _ Hkj) as [Hkj0 Hn]. destruct (Hopen _ _ Hkj0) as (g & Hg & ->). rewrite Hi in Hg. by injection Hg as <-.
Qed.
End exchange.

Section build_to_build.
Context {F MC UC DC St : Type} `{!XattrOps F} `{!XattrLaws F} `{!MapRange} `{!Decoders} `{msort : !MtimeSort} `{!SetOps St compactKey}.
Context `{!CacheOps MC bytes metaEntry} `{!CacheOps UC bytes unit} `{!CacheOps DC bytes fileIdentity}.
Context `{!CacheLaws MC bytes metaEntry} `{!CacheLaws UC bytes unit} `{!CacheLaws DC bytes fileIdentity}.
Context {Sw Sh Sb : Type} `{!SetOps Sw bytes} `{!SetLaws Sw bytes} `{!SetOps Sh bytes} `{!SetLaws Sh bytes} `{!SetOps Sb bytes} {Codec : ClientCodec}.
Context (quote : bytes -> bytes) (errorText : storeErr -> bytes) (limit : Z) (built : bytes -> bytes -> Prop).
#[local] Abbreviation Storage := (Storage.Storage (F := F) (MC := MC) (UC := UC) (DC := DC)).

(** The encoder: a frame its decoder reads back, or nothing for an empty body,
    which the reader of the older codec takes for an empty stream. *)
Context (compress : bytes -> option bytes).
Context (compress_decodes : forall d z, compress d = Some z ->
  codecMagic z = WebGet.zstdMagic /\ zstd_decode z = Some d \/ z = [] /\ d = [] /\ lz4_read [] = Some []).

(** [z] with [m] is what [prepare] sends for the output [d] of the action [h];
    cmd/go's output id is the hash of the output. *)
Definition client_put (h d z : bytes) (m : smap) : Prop :=
  built h d /\ (BuildIDMatchesAction (hex_encode h) d).2 = true /\ IsGoModuleIndex d = false /\ compress d = Some z /\
  exists ci mp, prepare_meta (Sb := Sb) limit ci (hex_encode h) (hex_encode (sha256 d)) d z = Val mp /\
    m !! outputIDMetaKey = mp !! outputIDMetaKey /\ m !! str "action-id" = mp !! str "action-id".

Definition from_client (h z : bytes) (m : smap) : Prop := exists d, client_put h d z m.

Lemma compress_sized d z n : compress d = Some z -> DecompressSized z n = Some d.
Proof.
  intros Hz. unfold DecompressSized. destruct (compress_decodes d z Hz) as [[Hm Hd]|(-> & -> & Hl)]; [|done]. by rewrite Hm, Z.eqb_refl.
Qed.

(** An object a client uploaded passes the gates of every client that asks for it. *)
Lemma client_put_verifies h d z m got size : is_hash h -> client_put h d z m -> sent_meta m got ->
  meta_value got "outputid" = hex_encode (sha256 d) /\
  verify (hex_encode h) (meta_value got "outputid") (meta_value got "action-id") z size = inl d.
Proof.
  intros Hh (_ & Hid & Hidx & Hz & ci & mp & Hmp & Ho & Ha) [Hprot Hown]. destruct (prepare_meta_fixed _ _ _ _ _ _ _ Hmp) as (Hmo & Hma & _ & _).
  rewrite Hmo in Ho. rewrite Hma in Ha. destruct (sha256_wf d) as [_ Hb].
  assert (Hout : meta_value got "outputid" = hex_encode (sha256 d)).
  { unfold meta_value. change (str "outputid") with outputIDMetaKey. by rewrite (Hprot outputIDMetaKey _ (list_elem_of_here _ _) ltac:(done) Ho (hex_sha_nonempty d)). }
  split; [done|]. rewrite Hout. unfold verify. destruct (bytes_eqb (hex_encode (sha256 d)) []) eqn:E; [apply bytes_eqb_eq in E; by destruct (hex_sha_nonempty d)|].
  assert (Hact : negb (bytes_eqb (meta_value got "action-id") []) && negb (bytes_eqb (meta_value got "action-id") (hex_encode h)) = false).
  { unfold meta_value. destruct (got !! str "action-id") as [v|] eqn:Ev; [|by rewrite bytes_eqb_refl].
    assert (v = hex_encode h) as -> by (pose proof (Hown _ _ Ev ltac:(done) ltac:(done)); congruence).
    change (default [] (Some (hex_encode h))) with (hex_encode h). by rewrite bytes_eqb_refl, andb_false_r. }
  rewrite Hact, (compress_sized d z size Hz). unfold OutputIDMatches. cbn [snd]. rewrite (hex_encode_lower _ Hb), bytes_eqb_refl. cbn [negb]. by rewrite Hid, Hidx.
Qed.

(** The answer to a batch, fully sent, is a stream of good entries, one a manifest entry. *)
Lemma answer_good (s : Storage) req sent manifest members :
  (forall h f z m, is_hash h -> files s !! cpath h = Some f -> from_client h z m -> sha256 (body f) = sha256 z -> body f = z) ->
  batch_ok from_client noRot s req sent manifest members -> (length manifest <= sent)%nat ->
  exists es, streamBatchResponse (sent_stream manifest members) = (es, false) /\ Forall (entry_good built) es /\ map be_Key es = map mf_Key manifest.
Proof.
  intros Hinj (Hlen & _ & Hent) Hsent. rewrite Nat.min_r in Hlen by lia.
  assert (Hmem : forall i name raw, members !! i = Some (name, raw) -> exists h f, is_hash h /\ files s !! cpath h = Some f /\ raw = body f /\
    name = dataPrefix ++ ckey h /\ mf_Key <$> manifest !! i = Some (ckey h)).
  { intros i name raw Hi. destruct (lookup_lt_is_Some_2 manifest i) as [e He]; [rewrite <- Hlen; by eapply lookup_lt_Some|].
    destruct (Hent i e He) as (h & f & d & m & v & Hh & Hk & Hf & _ & _ & _ & _ & _ & _ & Hs).
    rewrite (Hs (Nat.lt_le_trans _ _ _ (lookup_lt_Some _ _ _ He) Hsent)) in Hi. injection Hi as <- <-. exists h, f. rewrite He. cbn [fmap option_fmap option_map]. by rewrite Hk. }
  set (meta := meta_of (map client_manifest manifest)).
  assert (Hme : forall h, ckey h ∈ map mf_Key manifest -> exists e, e ∈ manifest /\ mf_Key e = ckey h /\ meta !! ckey h = Some (client_manifest e)).
  { intros h Hin. destruct (meta_of_lookup (map client_manifest manifest) (ckey h)) as (me & Hme & Hk & Hl).
    - rewrite map_map. exact Hin.
    - apply list_elem_of_fmap in Hme as (e & -> & He). by exists e. }
  assert (Hkin : forall i k, mf_Key <$> manifest !! i = Some k -> k ∈ map mf_Key manifest).
  { intros i k Hk. apply list_elem_of_fmap. apply fmap_Some in Hk as (e & He & ->). exists e. split; [done|by eapply list_elem_of_lookup_2]. }
  destruct (read_members_listed meta members) as (es & Hread & Hes).
  { apply Forall_lookup. intros i [name raw] Hi. destruct (Hmem _ _ _ Hi) as (h & f & _ & _ & _ & -> & Hk).
    destruct (Hme h (Hkin _ _ Hk)) as (e & _ & _ & Hl). exists (ckey h), (client_manifest e). by split_and!. }
  exists es. split; [|split].
  - unfold streamBatchResponse, sent_stream. cbn [bs_before bs_manifest bs_after read_members]. fold meta. by rewrite Hread.
  - apply Forall_lookup. intros i en Hen. destruct (Forall2_lookup_r _ _ _ _ _ Hes Hen) as ([name raw] & Hi & k & me & Hn & Hl & ->). cbn [fst snd] in *.
    destruct (Hmem _ _ _ Hi) as (h & f & Hh & Hf & -> & Hn' & Hk). rewrite Hn in Hn'. apply app_inv_head in Hn' as ->.
    destruct (Hme h (Hkin _ _ Hk)) as (e & He & Hke & Hl'). rewrite Hl' in Hl. injection Hl as <-. apply list_elem_of_lookup in He as [j He].
    destruct (Hent j e He) as (h' & f' & z & m & v & Hh' & Hk' & Hf' & (d & Hput) & [Hsha|[]] & Hsent' & _).
    rewrite Hke in Hk'. apply ckey_inj in Hk' as <-; [|done|done]. rewrite Hf in Hf'. injection Hf' as <-.
    pose proof (Hinj h f z m Hh Hf (ex_intro _ d Hput) Hsha) as Hbody. pose proof (proj1 Hput) as Hb.
    unfold entry_of. cbn [client_manifest me_Key me_Metadata me_Prefetch].
    destruct (client_put_verifies h d z m (mf_Metadata e) (default 0 (parseInt (meta_value (mf_Metadata e) "body-size"))) Hh Hput Hsent') as [Ho Hv].
    exists h, d. cbn [be_Key be_OutputID be_ActionID be_Data be_RawSize]. rewrite Hbody. by split_and!.
  - apply list_eq. intros i. change (map be_Key es) with (be_Key <$> es). change (map mf_Key manifest) with (mf_Key <$> manifest). rewrite !list_lookup_fmap.
    pose proof (Forall2_length _ _ _ Hes) as Hl. destruct (es !! i) as [en|] eqn:Hen.
    + destruct (Forall2_lookup_r _ _ _ _ _ Hes Hen) as ([name raw] & Hi & k & me & Hn & Hlk & ->). cbn [fst snd] in *.
      destruct (Hmem _ _ _ Hi) as (h & f & Hh & Hf & -> & Hn' & Hk). rewrite Hn in Hn'. apply app_inv_head in Hn' as ->.
      destruct (Hme h (Hkin _ _ Hk)) as (e & He & Hke & Hl'). rewrite Hl' in Hlk. injection Hlk as <-. cbn. by rewrite Hke.
    + apply lookup_ge_None in Hen. rewrite (lookup_ge_None_2 manifest) by lia. done.
Qed.

(** C1. From one build to another.  Over any history of requests, batches,
    sweeps, restarts and bodies going bad on disk (no version of a file that a
    remembered verdict vouches for) in which every upload is one the client
    prepares, single or batched, and in which no stored body shares its SHA-256
    with an upload it is not: a client that asks for a set of actions
    in one batch, and receives the answer whole, answers every lookup once; for
    an action the server listed it answers with an output a build stored for
    that very action, under its content hash, and for any other it answers with a
    miss.  No gate of the client refuses what the server sends. *)
Theorem build_to_build s0 (s : Storage) env method prefetchEnabled req off manifest members s' ord threshold tier hs single
    (cs : getState (St := Sw) (Sh := Sh)) :
  files s0 = ∅ -> cold_memos s0 -> rtc (bevent (St := St) quote errorText from_client noRot) s0 s -> keys_cached s ->
  (forall h f z m, is_hash h -> files s !! cpath h = Some f -> from_client h z m -> sha256 (body f) = sha256 z -> body f = z) ->
  Forall is_hash hs -> NoDup hs -> rq_Keys req = map ckey hs ->
  handleBatchGet (St := St) env method prefetchEnabled (inl req) s (BatchTar off manifest members) s' -> (length manifest <= bv_sent env)%nat ->
  (forall m, ord m ≡ₚ map_to_list m) ->
  let replies := (sendBatch ord threshold tier (map request_for hs) (BStream (sent_stream manifest members)) single cs).1.1 in
  map fst replies ≡ₚ seq 0 (length hs) /\
  forall i resp h, (i, resp) ∈ replies -> hs !! i = Some h ->
    (ckey h ∈ map mf_Key manifest -> exists d, resp = RHit (hex_encode (sha256 d)) d /\ built h d) /\
    (ckey h ∉ map mf_Key manifest -> resp = RMiss).
Proof.
  intros Hempty Hcold Hr Hcached Hinj Hhs Hnd Hreq Hrun Hsent Hord. cbv zeta.
  assert (Hkeys : Forall cacheKey (rq_Keys req)).
  { rewrite Hreq. apply Forall_fmap. eapply Forall_impl; [exact Hhs|]. intros h Hh. by exists h. }
  pose proof (batch_reads_ok quote errorText from_client noRot s0 s env method prefetchEnabled req off manifest members s' Hempty Hcold Hr Hkeys Hcached Hrun) as Hok.
  destruct (answer_good s req _ manifest members Hinj Hok Hsent) as (es & Hstr & Hgood & Hes). rewrite <- Hes. split.
  - rewrite <- (length_map request_for hs). apply sendBatch_once; [done|]. rewrite map_map.
    apply NoDup_fmap_2_strong; [|done]. intros h h' Hh Hh' E. rewrite Forall_forall in Hhs. by apply ckey_inj; auto.
  - by apply good_stream.
Qed.
End build_to_build.

(** ** A concrete exchange *)

Definition rtBuilt (h d : bytes) : Prop := h = zero_hash /\ d = demoObject.
Definition rtCompress (d : bytes) : option bytes := if bytes_eqb d demoObject then Some demoFrameZ else None.
Definition rtInfo : clientInfo := ClientInfo (str "1.2") [] (str "2024-01-02T03:04:05Z").
Definition rtMeta : smap :=
  match prepare_meta (Sb := gset bytes) 1000 rtInfo (hex_encode zero_hash) (hex_encode (sha256 demoObject)) demoObject demoFrameZ with
  | Val m => m
  | Panic => ∅
  end.
Definition rtHeaders : list (bytes * bytes) := map_to_list (metadataHeaders (map_to_list rtMeta)).

(** The headers are read back as the map. *)
Lemma headers_roundtrip_witness : upload_meta rtHeaders = rtMeta /\ map fst rtHeaders <> map fst (map_to_list rtMeta).
Proof.
  split; [|vm_compute; discriminate]. apply (headers_roundtrip rtMeta (map_to_list rtMeta) rtHeaders); [|reflexivity|reflexivity].
  intros k v Hk. assert (Hall : Forall (fun kv => map to_lower kv.1 = kv.1) (map_to_list rtMeta)).
  { apply (bool_decide_eq_true_1 _). vm_compute. reflexivity. }
  rewrite Forall_forall in Hall. apply (Hall (k, v)). apply elem_of_map_to_list. exact Hk.
Defined.

Definition rtStore : DemoStorage :=
  (handlePutObject noText (okEnv 1000 5) rtHeaders None (ckey zero_hash) (Reader demoFrameZ None false) 1048576 (demoStore noWriteOnce)).2.
Definition rtLook : (Batch.batchEntry * bool) * DemoStorage := look_up false (getOk, ckey zero_hash) rtStore.
Definition rtOpen : (openedEntry * bool) * DemoStorage := open_up (getOk, rtLook.1.1) rtLook.2.
Definition rtFrom : bytes -> bytes -> smap -> Prop := from_client (Sb := gset bytes) 1000 rtBuilt rtCompress.

Lemma rt_prepared : prepare_meta (Sb := gset bytes) 1000 rtInfo (hex_encode zero_hash) (hex_encode (sha256 demoObject)) demoObject demoFrameZ = Val rtMeta.
Proof. vm_compute. reflexivity. Qed.

Lemma rt_history : rtc (bevent (St := gset compactKey) noQuote noText rtFrom noRot) (demoStore noWriteOnce) rtStore.
Proof.
  apply rtc_once, BSingle, (EvPut (St := gset compactKey)); [apply zero_hash_ok|vm_compute; reflexivity|vm_compute; reflexivity|].
  intros _. exists demoObject. split_and!; [by split|vm_compute; reflexivity|reflexivity|reflexivity|].
  exists rtInfo, rtMeta. split_and!; [apply rt_prepared|vm_compute; reflexivity|vm_compute; reflexivity].
Qed.

Lemma rt_batch : handleBatchGet (St := gset compactKey) batchDemo (str "POST") false (inl demoRequest) rtStore
  (BatchTar true [manifest_of rtOpen.1.1] [member_of rtOpen.1.1]) rtOpen.2.
Proof.
  assert (Hlook : rtLook.1.2 = true) by (vm_compute; reflexivity). assert (Hopen : rtOpen.1.2 = true) by (vm_compute; reflexivity).
  apply (one_key_batch getOk (ckey zero_hash) rtStore rtLook.2 rtOpen.2 rtLook.1.1 rtOpen.1.1).
  - fold rtLook. destruct rtLook as [[e k] s1]. cbn [fst snd] in *. by rewrite Hlook.
  - fold rtOpen. destruct rtOpen as [[o k] s2]. cbn [fst snd] in *. by rewrite Hopen.
Qed.

Lemma rt_keys_cached : keys_cached rtStore.
Proof. apply one_key_cached. vm_compute. reflexivity. Qed.

Lemma rt_bodies p f : files rtStore !! p = Some f -> body f = demoFrameZ.
Proof.
  intros Hf. assert (Hall : map (fun pf => body pf.2) (map_to_list (files rtStore)) = [demoFrameZ]) by (vm_compute; reflexivity).
  assert (Hin : body f ∈ map (fun pf => body pf.2) (map_to_list (files rtStore))).
  { apply list_elem_of_fmap. exists (p, f). split; [reflexivity|]. by apply elem_of_map_to_list. }
  rewrite Hall in Hin. by apply list_elem_of_singleton in Hin.
Qed.

Definition rtReplies : list (nat * batchResp) :=
  (sendBatch (Codec := demoCodec) map_to_list 24 true (map request_for [zero_hash])
    (BStream (sent_stream [manifest_of rtOpen.1.1] [member_of rtOpen.1.1])) (fun _ => SFailed) demoState).1.1.

(** One client uploads, another gets the output back. *)
Lemma build_to_build_witness :
  rtReplies = [(0%nat, RHit (hex_encode (sha256 demoObject)) demoObject)] /\
  exists d, RHit (hex_encode (sha256 demoObject)) demoObject = RHit (hex_encode (sha256 d)) d /\ rtBuilt zero_hash d.
Proof.
  assert (Hrep : rtReplies = [(0%nat, RHit (hex_encode (sha256 demoObject)) demoObject)]) by (vm_compute; reflexivity). split; [exact Hrep|].
  destruct (build_to_build (St := gset compactKey) (Sb := gset bytes) (Codec := demoCodec) noQuote noText 1000 rtBuilt rtCompress) with
    (s0 := demoStore noWriteOnce) (s := rtStore) (env := batchDemo) (method := str "POST") (prefetchEnabled := false) (req := demoRequest) (off := true)
    (manifest := [manifest_of rtOpen.1.1]) (members := [member_of rtOpen.1.1]) (s' := rtOpen.2)
    (ord := @map_to_list bytes nat (gmap bytes nat) _) (threshold := 24) (tier := true) (hs := [zero_hash]) (single := fun _ : nat => SFailed) (cs := demoState) as [_ Hall].
  - intros d z. unfold rtCompress. destruct (bytes_eqb d demoObject) eqn:E; [|done]. apply bytes_eqb_eq in E as ->. intros [= <-]. left. split; vm_compute; reflexivity.
  - reflexivity.
  - apply demo_cold_memos.
  - apply rt_history.
  - apply rt_keys_cached.
  - intros h f z m _ Hf (d & _ & _ & _ & Hz & _) _. rewrite (rt_bodies _ _ Hf). unfold rtCompress in Hz. destruct (bytes_eqb d demoObject); [|done]. by injection Hz.
  - apply Forall_singleton, zero_hash_ok.
  - apply NoDup_singleton.
  - reflexivity.
  - apply rt_batch.
  - cbn. lia.
  - reflexivity.
  - apply (Hall 0%nat (RHit (hex_encode (sha256 demoObject)) demoObject) zero_hash).
    + fold rtReplies. rewrite Hrep. apply list_elem_of_here.
    + reflexivity.
    + vm_compute. left.
Defined.
