(* ===== verification/Broker.v ===== *)
(** * The build cache broker

    [cacheclient/brokerwire.go], [brokerflight.go] and the link of
    [brokerchild.go]: one process owns the cache directory and serves the other
    processes of a build over a ring of records.  The records, the flights that
    let simultaneous asks for one action share a lookup, and the link that hands
    each reply to the caller waiting for it.

    Flights are shared by pointer.  Each function runs under a lock, so it is
    one step; what happens in between is in the step relations.  The rings
    themselves (go-ipc) are not part of the repository. *)

From Stdlib Require Import ZArith Lia List Bool.
From stdpp Require Import base gmap list relations.
From S2P Require Import Prelude Keys Sha256 DiskCache.

(** ** Records *)

Definition idBytes : nat := 8.
Definition entryBytes : nat := HashSize + 8 + 8.

Definition putRecord (id : Z) (action path : bytes) : bytes := le_bytes 8 id ++ action ++ path.
Definition getRecord (id : Z) (action : bytes) : bytes := le_bytes 8 id ++ action.

(** [None] is a truncated record. *)
Definition readRequest (rec : bytes) : option (Z * bytes * bytes) :=
  if (length rec <? idBytes + HashSize)%nat then None
  else Some (le_value (take 8 rec), take HashSize (drop idBytes rec), drop (idBytes + HashSize) rec).

(** Sizes and times are int64, written as uint64. *)
Definition entryRecord (id : Z) (entry : Entry) (tier : bytes) : bytes :=
  le_bytes 8 id ++ e_OutputID entry ++ le_bytes 8 (u64 (e_Size entry)) ++ le_bytes 8 (u64 (e_Time entry)) ++ tier.

Definition readEntryRecord (rec : bytes) : option (Entry * bytes) :=
  if (length rec <? idBytes + entryBytes)%nat then None
  else
    let body := drop idBytes rec in
    let out := take HashSize body in
    let body := drop HashSize body in
    Some (MkEntry out (i64 (le_value (take 8 body))) (i64 (le_value (take 8 (drop 8 body)))), drop 16 body).

Definition recordID (rec : bytes) : option Z := if (length rec <? idBytes)%nat then None else Some (le_value (take 8 rec)).

Lemma le_value_u64 x : is_u64 x -> le_value (le_bytes 8 x) = x.
Proof. intros Hx. rewrite le_value_bytes by (unfold is_u64 in Hx; lia). apply Z.mod_small. exact Hx. Qed.

Lemma i64_u64 x : - 2 ^ 63 <= x < 2 ^ 63 -> i64 (u64 x) = x.
Proof.
  intros Hx. unfold i64, u64. rewrite Z.add_mod_idemp_l by lia. rewrite Z.mod_small by lia. lia.
Qed.

Lemma take_drop_3 (a b c : bytes) n m : length a = n -> length b = m -> take m (drop n (a ++ b ++ c)) = b /\ drop (n + m) (a ++ b ++ c) = c.
Proof.
  intros Ha Hb. split.
  - rewrite drop_app_length' by done. by rewrite take_app_length'.
  - rewrite app_assoc. apply drop_app_length'. rewrite length_app. lia.
Qed.

(** What one process writes into the ring the other reads back: the
    correlation ID, the action and the path of a request, and the entry and
    tier of a reply, negative sizes and times included; and a record too short
    for its fixed part is refused. *)
Theorem broker_records_roundtrip id action path entry tier :
  is_u64 id -> length action = HashSize -> length (e_OutputID entry) = HashSize ->
  - 2 ^ 63 <= e_Size entry < 2 ^ 63 -> - 2 ^ 63 <= e_Time entry < 2 ^ 63 ->
  readRequest (putRecord id action path) = Some (id, action, path) /\ readRequest (getRecord id action) = Some (id, action, []) /\
  readEntryRecord (entryRecord id entry tier) = Some (entry, tier) /\ recordID (entryRecord id entry tier) = Some id /\
  forall rec, (length rec < idBytes + HashSize)%nat -> readRequest rec = None /\ readEntryRecord rec = None.
Proof.
  intros Hid Ha Ho Hs Ht. assert (L8 : length (le_bytes 8 id) = 8%nat) by (by rewrite length_le_bytes).
  assert (Hreq : forall rest, readRequest (le_bytes 8 id ++ action ++ rest) = Some (id, action, rest)).
  { intros rest. unfold readRequest, idBytes. destruct (take_drop_3 (le_bytes 8 id) action rest 8 HashSize L8 Ha) as [-> ->].
    rewrite take_app_length', le_value_u64 by done. rewrite !length_app, L8, Ha. by rewrite (proj2 (Nat.ltb_ge _ _)) by lia. }
  split_and!; [apply Hreq|unfold getRecord; rewrite <- (app_nil_r action) at 1; apply Hreq| | |].
  - unfold readEntryRecord, entryRecord, idBytes, entryBytes. rewrite !length_app, !length_le_bytes, Ho. rewrite (proj2 (Nat.ltb_ge _ _)) by lia.
    rewrite (drop_app_length' (le_bytes 8 id)) by done. rewrite (take_app_length' (e_OutputID entry)), (drop_app_length' (e_OutputID entry)) by done.
    rewrite (take_app_length' (le_bytes 8 (u64 (e_Size entry)))), (drop_app_length' (le_bytes 8 (u64 (e_Size entry)))) by (by rewrite length_le_bytes).
    rewrite (take_app_length' (le_bytes 8 (u64 (e_Time entry)))) by (by rewrite length_le_bytes). rewrite !le_value_u64 by apply u64_range. rewrite !i64_u64 by done.
    rewrite app_assoc, drop_app_length' by (by rewrite length_app, !length_le_bytes). by destruct entry.
  - unfold recordID, entryRecord, idBytes. rewrite !length_app, L8. rewrite (proj2 (Nat.ltb_ge _ _)) by lia. by rewrite take_app_length', le_value_u64.
  - intros rec Hl. unfold readRequest, readEntryRecord, entryBytes. by rewrite !(proj2 (Nat.ltb_lt _ _)) by lia.
Qed.

Lemma broker_records_roundtrip_witness :
  readEntryRecord (entryRecord 7 (MkEntry zero_hash 5 (-3)) [100]) = Some (MkEntry zero_hash 5 (-3), [100]).
Proof. apply (broker_records_roundtrip 7 zero_hash [] (MkEntry zero_hash 5 (-3)) [100]); cbn; unfold is_u64; try lia; reflexivity. Defined.

(** ** Flights *)

Section flights.
Context {R : Type}.

(** [fl_result]: the fields the owner fills in, once it has. *)
Record flight := Flight { fl_done : bool; fl_result : option R }.

Record flights := Flights { fs_heap : gmap nat flight; fs_next : nat; fs_gets : gmap bytes nat }.

Definition startGet (key : bytes) (s : flights) : nat * bool * flights :=
  match fs_gets s !! key with
  | Some have => (have, false, s)
  | None => (fs_next s, true, Flights (<[fs_next s := Flight false None]> (fs_heap s)) (S (fs_next s)) (<[key := fs_next s]> (fs_gets s)))
  end.

(** [None] is a panic: a nil flight, or a channel closed twice. *)
Definition finishGet (key : bytes) (p : nat) (s : flights) : option flights :=
  f ← fs_heap s !! p;
  if fl_done f then None
  else Some (Flights (<[p := Flight true (fl_result f)]> (fs_heap s)) (fs_next s) (delete key (fs_gets s))).

(** What the owner of a flight writes into it. *)
Definition publish (p : nat) (r : R) (s : flights) : flights :=
  Flights (alter (fun f => Flight (fl_done f) (Some r)) p (fs_heap s)) (fs_next s) (fs_gets s).

(** A call of [lookup], between its steps. *)
Inductive caller :=
  | Working (key : bytes) (p : nat)
  | Wrote (key : bytes) (p : nat) (r : R)
  | Parked (key : bytes) (p : nat)
  | Answered (key : bytes) (r : R).

(** [bs_looked]: what the owner's cache answered, with the action asked for. *)
Record brokerState := BrokerState { bs_fly : flights; bs_callers : gmap nat caller; bs_looked : list (bytes * R) }.

Inductive bstep : brokerState -> brokerState -> Prop :=
  | b_ask t key s cs log :
      cs !! t = None ->
      bstep (BrokerState s cs log)
        (BrokerState (startGet key s).2
           (<[t := if (startGet key s).1.2 then Working key (startGet key s).1.1 else Parked key (startGet key s).1.1]> cs) log)
  | b_look t key p r s cs log :
      cs !! t = Some (Working key p) ->
      bstep (BrokerState s cs log) (BrokerState (publish p r s) (<[t := Wrote key p r]> cs) ((key, r) :: log))
  | b_finish t key p r s s' cs log :
      cs !! t = Some (Wrote key p r) -> finishGet key p s = Some s' ->
      bstep (BrokerState s cs log) (BrokerState s' (<[t := Answered key r]> cs) log)
  | b_wake t key p f r s cs log :
      cs !! t = Some (Parked key p) -> fs_heap s !! p = Some f -> fl_done f = true -> fl_result f = Some r ->
      bstep (BrokerState s cs log) (BrokerState s (<[t := Answered key r]> cs) log).

Definition owns (c : caller) : option (bytes * nat) := match c with Working key p | Wrote key p _ => Some (key, p) | _ => None end.

Definition caller_ok (s : flights) (log : list (bytes * R)) (c : caller) : Prop :=
  match c with
  | Working key p => fs_gets s !! key = Some p /\ fs_heap s !! p = Some (Flight false None)
  | Wrote key p r => fs_gets s !! key = Some p /\ fs_heap s !! p = Some (Flight false (Some r)) /\ (key, r) ∈ log
  | Parked key p => fs_gets s !! key = Some p \/ exists r, fs_heap s !! p = Some (Flight true (Some r)) /\ (key, r) ∈ log
  | Answered key r => (key, r) ∈ log
  end.

Record binv (b : brokerState) : Prop := {
  bi_callers : map_Forall (fun _ c => caller_ok (bs_fly b) (bs_looked b) c) (bs_callers b);
  bi_owned : forall key p, fs_gets (bs_fly b) !! key = Some p -> exists t c, bs_callers b !! t = Some c /\ owns c = Some (key, p);
  bi_one : forall t t' c c' key p p', bs_callers b !! t = Some c -> bs_callers b !! t' = Some c' -> owns c = Some (key, p) -> owns c' = Some (key, p') -> t = t';
  bi_next : map_Forall (fun p _ => (p < fs_next (bs_fly b))%nat) (fs_heap (bs_fly b));
  bi_inj : forall key key' p, fs_gets (bs_fly b) !! key = Some p -> fs_gets (bs_fly b) !! key' = Some p -> key = key';
  bi_heap : forall key p, fs_gets (bs_fly b) !! key = Some p -> is_Some (fs_heap (bs_fly b) !! p)
}.

Lemma owner_holds s log c key p : caller_ok s log c -> owns c = Some (key, p) -> fs_gets s !! key = Some p.
Proof. destruct c; cbn; intros Hc [= <- <-]; intuition. Qed.

(** What is known of the other callers survives a change of one flight and one entry of the map. *)
Lemma binv_ask t key s cs log : cs !! t = None -> binv (BrokerState s cs log) ->
  binv (BrokerState (startGet key s).2 (<[t := if (startGet key s).1.2 then Working key (startGet key s).1.1 else Parked key (startGet key s).1.1]> cs) log).
Proof.
  intros Ht [Hc Ho H1 Hn Hi Hh]. cbn [bs_fly bs_callers bs_looked] in *. unfold startGet. destruct (fs_gets s !! key) as [have|] eqn:Eg; cbn [fst snd].
  - constructor; cbn [bs_fly bs_callers bs_looked]; try done.
    + apply map_Forall_insert_2; [by left|done].
    + intros k p Hp. destruct (Ho k p Hp) as (t' & c & Hc' & Hw). exists t', c. split; [|done]. rewrite lookup_insert_ne; [done|]. by intros <-; rewrite Ht in Hc'.
    + intros t1 t2 c1 c2 k p p' L1 L2. rewrite lookup_insert_Some in L1, L2. destruct L1 as [[<- <-]|[N1 L1]], L2 as [[<- <-]|[N2 L2]]; try done. by eapply H1.
  - assert (Hfresh : forall q, fs_gets s !! q = Some (fs_next s) -> False) by (intros q Hq; destruct (Hh q _ Hq) as [f Hf]; pose proof (Hn _ _ Hf) as Hlt; cbn in Hlt; lia).
    assert (Hold : forall p f, fs_heap s !! p = Some f -> <[fs_next s := Flight false None]> (fs_heap s) !! p = Some f).
    { intros p f Hf. rewrite lookup_insert_ne; [done|]. pose proof (Hn _ _ Hf) as Hlt. cbn in Hlt. lia. }
    assert (Hget : forall k p, fs_gets s !! k = Some p -> <[key := fs_next s]> (fs_gets s) !! k = Some p) by (intros k p Hk; rewrite lookup_insert_ne; [done|]; congruence).
    constructor; cbn [bs_fly bs_callers bs_looked fs_heap fs_gets fs_next].
    + apply map_Forall_insert_2; [cbn; split; by rewrite lookup_insert_eq|]. intros t' c Hc'. specialize (Hc t' c Hc'). destruct c; cbn in *; intuition; eauto.
      right. destruct H as (r & Hr & Hl). exists r. auto.
    + intros k p. rewrite lookup_insert_Some. intros [[<- <-]|[Hne Hp]]; [exists t; eexists; by rewrite lookup_insert_eq|].
      destruct (Ho k p Hp) as (t' & c & Hc' & Hw). exists t', c. split; [|done]. rewrite lookup_insert_ne; [done|]. by intros <-; rewrite Ht in Hc'.
    + assert (Hno : forall t' c' p', cs !! t' = Some c' -> owns c' = Some (key, p') -> False).
      { intros t' c' p' L W. pose proof (owner_holds _ _ _ _ _ (Hc t' c' L) W). congruence. }
      intros t1 t2 c1 c2 k p p' L1 L2 W1 W2. rewrite lookup_insert_Some in L1, L2. destruct L1 as [[<- <-]|[N1 L1]], L2 as [[<- <-]|[N2 L2]]; [done| | |by eapply H1].
      * injection W1 as <- _. by destruct (Hno _ _ _ L2 W2).
      * injection W2 as <- _. by destruct (Hno _ _ _ L1 W1).
    + apply map_Forall_insert_2; [lia|]. eapply map_Forall_impl; [exact Hn|]. cbn. intros. lia.
    + intros k k' p. rewrite !lookup_insert_Some. intros [[<- <-]|[? Hk]] [[<- Hx]|[? Hk']]; [done|by destruct (Hfresh _ Hk')|subst; by destruct (Hfresh _ Hk)|by eapply Hi].
    + intros k p. rewrite lookup_insert_Some. intros [[<- <-]|[_ Hk]]; [by rewrite lookup_insert_eq|]. destruct (Hh _ _ Hk) as [f Hf]. exists f. by apply Hold.
Qed.

Lemma callers_update {P : caller -> Prop} (cs : gmap nat caller) t x : P x -> (forall t' c, t' <> t -> cs !! t' = Some c -> P c) -> map_Forall (fun _ => P) (<[t := x]> cs).
Proof. intros Hx Ho t' c. rewrite lookup_insert_Some. intros [[<- <-]|[Hne L]]; [done|by eapply Ho]. Qed.

(** Another owner works on another flight. *)
Lemma other_flight b t t' c c' key p k q : binv b -> bs_callers b !! t = Some c -> owns c = Some (key, p) -> t' <> t -> bs_callers b !! t' = Some c' -> owns c' = Some (k, q) ->
  k <> key /\ q <> p.
Proof.
  intros Hb L W Hne L' W'. assert (Hk : k <> key) by (intros ->; apply Hne; by eapply (bi_one b Hb)). split; [done|]. intros ->. apply Hk.
  eapply (bi_inj b Hb); eapply owner_holds; [exact (bi_callers b Hb _ _ L')|exact W'|exact (bi_callers b Hb _ _ L)|exact W].
Qed.

Lemma binv_look t key p r s cs log : cs !! t = Some (Working key p) -> binv (BrokerState s cs log) ->
  binv (BrokerState (publish p r s) (<[t := Wrote key p r]> cs) ((key, r) :: log)).
Proof.
  intros Ht Hb. pose proof Hb as [Hc Ho H1 Hn Hi Hh]. cbn [bs_fly bs_callers bs_looked] in *. destruct (Hc _ _ Ht) as [Hg Hp].
  assert (Hoth : forall q f, fs_heap s !! q = Some f -> q <> p -> alter (fun f => Flight (fl_done f) (Some r)) p (fs_heap s) !! q = Some f) by (intros q f Hf Hq; by rewrite lookup_alter_ne).
  assert (Hown : forall t' c k q, <[t := Wrote key p r]> cs !! t' = Some c -> owns c = Some (k, q) -> exists c', cs !! t' = Some c' /\ owns c' = Some (k, q)).
  { intros t' c k q. rewrite lookup_insert_Some. intros [[<- <-]|[_ L]] W; [exists (Working key p); split; [done|exact W]|by exists c]. }
  constructor; cbn [bs_fly bs_callers bs_looked publish fs_heap fs_gets fs_next]; [| | | |done|].
  - apply callers_update; [cbn; rewrite lookup_alter_eq, Hp; split_and!; [done|done|by left]|]. intros t' c Hne L. pose proof (Hc t' c L) as Hok.
    destruct c as [k q|k q x|k q|k x]; cbn in *.
    + destruct (other_flight _ t t' _ _ key p k q Hb Ht eq_refl Hne L eq_refl) as [_ Hq]. split; [tauto|]. apply Hoth; tauto.
    + destruct (other_flight _ t t' _ _ key p k q Hb Ht eq_refl Hne L eq_refl) as [_ Hq]. split; [tauto|]. split; [apply Hoth; tauto|right; tauto].
    + destruct Hok as [?|(x & Hx & Hl)]; [by left|]. right. exists x. split; [|by right]. apply Hoth; [done|]. intros ->. congruence.
    + by right.
  - intros k q Hq. destruct (Ho k q Hq) as (t' & c & L & W). destruct (decide (t' = t)) as [->|Hne]; [exists t; eexists; rewrite lookup_insert_eq; split; [done|]|exists t', c; by rewrite lookup_insert_ne].
    rewrite Ht in L. injection L as <-. exact W.
  - intros t1 t2 c1 c2 k q q' L1 L2 W1 W2. destruct (Hown _ _ _ _ L1 W1) as (d1 & D1 & V1), (Hown _ _ _ _ L2 W2) as (d2 & D2 & V2). by eapply H1.
  - intros q f. rewrite lookup_alter_Some. intros [(-> & g & Hg' & _)|[_ Hf]]; [exact (Hn _ _ Hg')|exact (Hn _ _ Hf)].
  - intros k q Hq. rewrite lookup_alter_is_Some. by eapply Hh.
Qed.

Lemma finish_defined t key p r s cs log : cs !! t = Some (Wrote key p r) -> binv (BrokerState s cs log) ->
  finishGet key p s = Some (Flights (<[p := Flight true (Some r)]> (fs_heap s)) (fs_next s) (delete key (fs_gets s))).
Proof. intros Ht Hb. destruct (bi_callers _ Hb _ _ Ht) as (Hg & Hp & Hl). cbn [bs_fly] in Hp. unfold finishGet. by rewrite Hp. Qed.

Lemma binv_finish t key p r s s' cs log : cs !! t = Some (Wrote key p r) -> finishGet key p s = Some s' -> binv (BrokerState s cs log) ->
  binv (BrokerState s' (<[t := Answered key r]> cs) log).
Proof.
  intros Ht Hf Hb. rewrite (finish_defined _ _ _ _ _ _ _ Ht Hb) in Hf. injection Hf as <-. pose proof Hb as [Hc Ho H1 Hn Hi Hh]. cbn [bs_fly bs_callers bs_looked] in *.
  destruct (Hc _ _ Ht) as (Hg & Hp & Hl).
  assert (Hown : forall t' c k q, <[t := Answered key r]> cs !! t' = Some c -> owns c = Some (k, q) -> t' <> t /\ cs !! t' = Some c).
  { intros t' c k q. rewrite lookup_insert_Some. intros [[<- <-]|[? L]] W; [done|]. split; [done|done]. }
  constructor; cbn [bs_fly bs_callers bs_looked fs_heap fs_gets fs_next].
  - apply callers_update; [exact Hl|]. intros t' c Hne L. pose proof (Hc t' c L) as Hok. destruct c as [k q|k q x|k q|k x]; cbn in *.
    + destruct (other_flight _ t t' _ _ key p k q Hb Ht eq_refl Hne L eq_refl) as [Hk Hq]. rewrite lookup_delete_ne, lookup_insert_ne by done. done.
    + destruct (other_flight _ t t' _ _ key p k q Hb Ht eq_refl Hne L eq_refl) as [Hk Hq]. rewrite lookup_delete_ne, lookup_insert_ne by done. done.
    + destruct Hok as [Hok|(x & Hx & Hlx)].
      * destruct (decide (k = key)) as [->|Hk]; [right; exists r; assert (q = p) as -> by congruence; by rewrite lookup_insert_eq|left; by rewrite lookup_delete_ne].
      * right. exists x. split; [|done]. rewrite lookup_insert_ne; [done|]. intros ->. congruence.
    + done.
  - intros k q Hq. apply lookup_delete_Some in Hq as [Hk Hq]. destruct (Ho k q Hq) as (t' & c & L & W). exists t', c. split; [|done]. rewrite lookup_insert_ne; [done|].
    intros <-. rewrite Ht in L. injection L as <-. by injection W as -> _.
  - intros t1 t2 c1 c2 k q q' L1 L2 W1 W2. destruct (Hown _ _ _ _ L1 W1) as [_ D1], (Hown _ _ _ _ L2 W2) as [_ D2]. by eapply H1.
  - apply map_Forall_insert_2; [exact (Hn _ _ Hp)|done].
  - intros k k' q Hk Hk'. apply lookup_delete_Some in Hk as [_ Hk]. apply lookup_delete_Some in Hk' as [_ Hk']. by eapply Hi.
  - intros k q Hq. apply lookup_delete_Some in Hq as [_ Hq]. rewrite lookup_insert_is_Some'. right. by eapply Hh.
Qed.

Lemma binv_wake t key p f r s cs log : cs !! t = Some (Parked key p) -> fs_heap s !! p = Some f -> fl_done f = true -> fl_result f = Some r ->
  binv (BrokerState s cs log) -> binv (BrokerState s (<[t := Answered key r]> cs) log).
Proof.
  intros Ht Hf Hd Hr Hb. pose proof Hb as [Hc Ho H1 Hn Hi Hh]. cbn [bs_fly bs_callers bs_looked] in *.
  constructor; cbn [bs_fly bs_callers bs_looked]; try done.
  - apply callers_update; [|intros t' c _ L; exact (Hc t' c L)]. cbn. destruct (Hc _ _ Ht) as [Hg|(x & Hx & Hl)]; [|rewrite Hf in Hx; injection Hx as ->; injection Hr as ->; exact Hl].
    exfalso. destruct (Ho _ _ Hg) as (t' & c & L & W). pose proof (Hc t' c L) as Hok.
    assert (Hopen : exists f', fs_heap s !! p = Some f' /\ fl_done f' = false).
    { destruct c as [k q|k q x|k q|k x]; cbn in W; try done; injection W as -> ->; [destruct Hok as [_ Hok]|destruct Hok as (_ & Hok & _)]; by eexists. }
    destruct Hopen as (f' & Hf' & Hd'). rewrite Hf in Hf'. injection Hf' as <-. congruence.
  - intros k q Hq. destruct (Ho k q Hq) as (t' & c & L & W). exists t', c. split; [|done]. rewrite lookup_insert_ne; [done|]. intros <-. rewrite Ht in L. by injection L as <-.
  - intros t1 t2 c1 c2 k q q' L1 L2 W1 W2. rewrite lookup_insert_Some in L1, L2. destruct L1 as [[<- <-]|[_ L1]]; [done|]. destruct L2 as [[<- <-]|[_ L2]]; [done|]. by eapply H1.
Qed.

Lemma bstep_inv b b' : bstep b b' -> binv b -> binv b'.
Proof. intros [] Hb; [by apply binv_ask|by apply binv_look|by eapply binv_finish|by eapply binv_wake]. Qed.

Definition quiet : brokerState := BrokerState (Flights ∅ 0 ∅) ∅ [].

Lemma quiet_inv : binv quiet.
Proof.
  constructor; cbn; [apply map_Forall_empty| | |apply map_Forall_empty| |].
  - intros k p Hp. by rewrite lookup_empty in Hp.
  - intros t t' c c' k p p' L. by rewrite lookup_empty in L.
  - intros k k' p Hp. by rewrite lookup_empty in Hp.
  - intros k p Hp. by rewrite lookup_empty in Hp.
Qed.

(** C29. Simultaneous asks share one lookup, and each gets its answer.  In
    every interleaving of any number of asks: at most one ask per action is at
    the owner's cache; an answer given is one the cache gave for that very
    action; an ask that waits can be woken, or the ask it waits for is under way
    and can take its next step; and no channel is closed twice. *)
Theorem flights_shared b :
  rtc bstep quiet b ->
  (forall t t' c c' key p p', bs_callers b !! t = Some c -> bs_callers b !! t' = Some c' -> owns c = Some (key, p) -> owns c' = Some (key, p') -> t = t') /\
  (forall t key r, bs_callers b !! t = Some (Answered key r) -> (key, r) ∈ bs_looked b) /\
  (forall t key p, bs_callers b !! t = Some (Parked key p) ->
    (exists r, bstep b (BrokerState (bs_fly b) (<[t := Answered key r]> (bs_callers b)) (bs_looked b))) \/
    (exists t' c, bs_callers b !! t' = Some c /\ owns c = Some (key, p))) /\
  (forall t key p r, bs_callers b !! t = Some (Wrote key p r) -> is_Some (finishGet key p (bs_fly b))).
Proof.
  intros Hr. assert (Hb : binv b) by (apply (rtc_ind_r binv) in Hr; [done|exact quiet_inv|intros y z _ Hyz Hy; by eapply bstep_inv]).
  destruct b as [s cs log]. cbn [bs_fly bs_callers bs_looked]. split_and!.
  - exact (bi_one _ Hb).
  - intros t key r L. exact (bi_callers _ Hb _ _ L).
  - intros t key p L. destruct (bi_callers _ Hb _ _ L) as [Hg|(r & Hp & Hl)]; [right; exact (bi_owned _ Hb _ _ Hg)|left; exists r; by eapply b_wake].
  - intros t key p r L. rewrite (finish_defined _ _ _ _ _ _ _ L Hb). by eexists.
Qed.

End flights.

(** Two asks for one action: the second waits and gets what the first found. *)
Definition demoFly : @flights Z := (startGet [1] (Flights ∅ 0 ∅)).2.

Lemma flights_shared_witness : exists b : @brokerState Z, rtc bstep quiet b /\ bs_callers b !! 1%nat = Some (Answered [1] 7) /\ ([1], 7) ∈ bs_looked b.
Proof.
  eexists. assert (Hr : rtc bstep (@quiet Z) (BrokerState (Flights (<[0%nat := Flight true (Some 7)]> (fs_heap (publish 0 7 demoFly))) 1 (delete [1] (fs_gets demoFly)))
    (<[1%nat := Answered [1] 7]> (<[0%nat := Answered [1] 7]> (<[0%nat := Wrote [1] 0 7]> (<[1%nat := Parked [1] 0]> (<[0%nat := Working [1] 0]> ∅))))) [([1], 7)])).
  { eapply rtc_l; [apply (b_ask 0 [1]); reflexivity|]. eapply rtc_l; [apply (b_ask 1 [1]); reflexivity|].
    eapply rtc_l; [apply (b_look 0 [1] 0 7); reflexivity|]. eapply rtc_l; [apply (b_finish 0 [1] 0 7); [reflexivity|vm_compute; reflexivity]|].
    eapply rtc_l; [|apply rtc_refl]. apply (b_wake 1 [1] 0 (Flight true (Some 7))); reflexivity. }
  split; [exact Hr|]. split; [reflexivity|]. destruct (flights_shared _ Hr) as (_ & Ha & _). exact (Ha 1%nat [1] 7 eq_refl).
Defined.

(** ** The link

    The replies to a process's requests come in any order; each goes to the
    caller that waits for its correlation ID.  A caller's channel holds one
    reply. *)

Section link.
Context {A : Type}.

Record brokerLink := BrokerLink { lk_next : Z; lk_waiting : gset Z; lk_closed : bool; lk_mail : gmap Z (A + unit) }.

(** [deliver]; [None]: the reader would block on a full channel. *)
Definition deliver (id : Z) (answer : A) (l : brokerLink) : option brokerLink :=
  if bool_decide (id ∈ lk_waiting l) then
    match lk_mail l !! id with
    | Some _ => None
    | None => Some (BrokerLink (lk_next l) (lk_waiting l ∖ {[id]}) (lk_closed l) (<[id := inl answer]> (lk_mail l)))
    end
  else Some l.

(** [fail]: the owner is gone, and every caller that waits is told. *)
Definition fail (l : brokerLink) : option brokerLink :=
  if forallb (fun id => negb (bool_decide (is_Some (lk_mail l !! id)))) (elements (lk_waiting l)) then
    Some (BrokerLink (lk_next l) ∅ true (set_to_map (fun id => (id, inr ())) (lk_waiting l) ∪ lk_mail l))
  else None.

(** [ask] up to its wait: a correlation ID of its own, and its place among the waiting. *)
Definition ask_id (l : brokerLink) : Z * brokerLink := (lk_next l + 1, BrokerLink (lk_next l + 1) (lk_waiting l) (lk_closed l) (lk_mail l)).

Definition register (id : Z) (l : brokerLink) : bool * brokerLink :=
  if lk_closed l then (false, l) else (true, BrokerLink (lk_next l) ({[id]} ∪ lk_waiting l) (lk_closed l) (lk_mail l)).

Definition unregister (id : Z) (l : brokerLink) : brokerLink := BrokerLink (lk_next l) (lk_waiting l ∖ {[id]}) (lk_closed l) (lk_mail l).

(** A call of [ask]: numbered, waiting, refused or given up, or answered.
    [ls_replies]: what the owner sent, by ID. *)
Inductive askState := Numbered | Waits | Left | Got (answer : A + unit).

Record linkState := LinkState { ls_link : brokerLink; ls_asks : gmap Z askState; ls_replies : list (Z * A) }.

Inductive lstep : linkState -> linkState -> Prop :=
  | l_number l asks rs :
      lstep (LinkState l asks rs) (LinkState (ask_id l).2 (<[(ask_id l).1 := Numbered]> asks) rs)
  | l_register id l asks rs :
      asks !! id = Some Numbered ->
      lstep (LinkState l asks rs) (LinkState (register id l).2 (<[id := if (register id l).1 then Waits else Left]> asks) rs)
  | l_send_failed id l asks rs :
      asks !! id = Some Waits -> lstep (LinkState l asks rs) (LinkState (unregister id l) (<[id := Left]> asks) rs)
  | l_reply id answer l l' asks rs :
      deliver id answer l = Some l' -> lstep (LinkState l asks rs) (LinkState l' asks ((id, answer) :: rs))
  | l_gone l l' asks rs :
      fail l = Some l' -> lstep (LinkState l asks rs) (LinkState l' asks rs)
  | l_take id m l asks rs :
      asks !! id = Some Waits -> lk_mail l !! id = Some m -> lstep (LinkState l asks rs) (LinkState l (<[id := Got m]> asks) rs).

Definition mail_ok (rs : list (Z * A)) (id : Z) (m : A + unit) : Prop := match m with inl a => (id, a) ∈ rs | inr _ => True end.

Record linv (s : linkState) : Prop := {
  li_waiting : forall id, id ∈ lk_waiting (ls_link s) -> ls_asks s !! id = Some Waits /\ lk_mail (ls_link s) !! id = None;
  li_asks : forall id, ls_asks s !! id = Some Waits -> id ∈ lk_waiting (ls_link s) \/ is_Some (lk_mail (ls_link s) !! id);
  li_mail : map_Forall (mail_ok (ls_replies s)) (lk_mail (ls_link s));
  li_got : forall id m, ls_asks s !! id = Some (Got m) -> mail_ok (ls_replies s) id m;
  li_closed : lk_closed (ls_link s) = true -> lk_waiting (ls_link s) = ∅;
  li_fresh : forall id, lk_next (ls_link s) < id -> ls_asks s !! id = None /\ lk_mail (ls_link s) !! id = None;
  li_numbered : forall id, ls_asks s !! id = Some Numbered -> lk_mail (ls_link s) !! id = None
}.

Lemma mail_more rs x id m : mail_ok rs id m -> mail_ok (x :: rs) id m.
Proof. destruct m; [|done]. by right. Qed.

Lemma linv_number l asks rs : linv (LinkState l asks rs) -> linv (LinkState (ask_id l).2 (<[(ask_id l).1 := Numbered]> asks) rs).
Proof.
  intros [Hw Ha Hm Hg Hc Hf Hn]. cbn [ls_link ls_asks ls_replies ask_id fst snd lk_next lk_waiting lk_mail lk_closed] in *.
  destruct (Hf (lk_next l + 1) ltac:(lia)) as [Hf1 Hf2]. constructor; cbn [ls_link ls_asks ls_replies lk_next lk_waiting lk_mail lk_closed]; try done.
  - intros id Hid. destruct (Hw id Hid) as [H1 H2]. split; [|done]. rewrite lookup_insert_ne; [done|]. congruence.
  - intros id. rewrite lookup_insert_Some. intros [[_ ?]|[_ Hid]]; [done|by apply Ha].
  - intros id m. rewrite lookup_insert_Some. intros [[_ ?]|[_ Hid]]; [done|by apply Hg].
  - intros id Hlt. rewrite lookup_insert_ne by lia. apply Hf. lia.
  - intros id. rewrite lookup_insert_Some. intros [[<- _]|[_ Hid]]; [done|by apply Hn].
Qed.

Lemma linv_register id l asks rs : asks !! id = Some Numbered -> linv (LinkState l asks rs) ->
  linv (LinkState (register id l).2 (<[id := if (register id l).1 then Waits else Left]> asks) rs).
Proof.
  intros Hid [Hw Ha Hm Hg Hc Hf Hn]. cbn [ls_link ls_asks ls_replies] in *.
  assert (Hfresh : forall x k, lk_next l < k -> <[id := x]> asks !! k = None /\ lk_mail l !! k = None).
  { intros x k Hlt. destruct (Hf k Hlt) as [H1 H2]. split; [|done]. rewrite lookup_insert_ne; [done|]. congruence. }
  unfold register. destruct (lk_closed l) eqn:Ec; cbn [fst snd].
  - specialize (Hc eq_refl). constructor; cbn [ls_link ls_asks ls_replies]; try done.
    + intros k Hk. rewrite Hc in Hk. set_solver.
    + intros k. rewrite lookup_insert_Some. intros [[_ ?]|[_ Hk]]; [done|by apply Ha].
    + intros k m. rewrite lookup_insert_Some. intros [[_ ?]|[_ Hk]]; [done|by apply Hg].
    + apply Hfresh.
    + intros k. rewrite lookup_insert_Some. intros [[_ ?]|[_ Hk]]; [done|by apply Hn].
  - constructor; cbn [ls_link ls_asks ls_replies lk_next lk_waiting lk_mail lk_closed]; try done.
    + intros k Hk. destruct (decide (k = id)) as [->|Hne]; [rewrite lookup_insert_eq; split; [done|by apply Hn]|]. rewrite lookup_insert_ne by done. apply Hw. set_solver.
    + intros k. rewrite lookup_insert_Some. intros [[<- _]|[Hne Hk]]; [left; set_solver|]. destruct (Ha k Hk); [left; set_solver|by right].
    + intros k m. rewrite lookup_insert_Some. intros [[_ ?]|[_ Hk]]; [done|by apply Hg].
    + apply Hfresh.
    + intros k. rewrite lookup_insert_Some. intros [[_ ?]|[_ Hk]]; [done|by apply Hn].
Qed.

(** A caller that is past its wait, or gave it up. *)
Lemma linv_settle id x l l' asks rs : asks !! id = Some Waits -> x <> Waits -> x <> Numbered -> (forall m, x = Got m -> mail_ok rs id m) ->
  lk_mail l' = lk_mail l -> lk_closed l' = lk_closed l -> lk_next l' = lk_next l -> lk_waiting l' ⊆ lk_waiting l ∖ {[id]} -> lk_waiting l ∖ {[id]} ⊆ lk_waiting l' ->
  linv (LinkState l asks rs) -> linv (LinkState l' (<[id := x]> asks) rs).
Proof.
  intros Hid Hx Hx2 Hgot Em Ec En Hsub Hsup [Hw Ha Hm Hg Hc Hf Hn]. cbn [ls_link ls_asks ls_replies] in *. constructor; cbn [ls_link ls_asks ls_replies]; rewrite ?Em, ?Ec, ?En; try done.
  - intros k Hk. assert (k <> id) by set_solver. rewrite lookup_insert_ne by done. apply Hw. set_solver.
  - intros k. rewrite lookup_insert_Some. intros [[_ ?]|[Hne Hk]]; [done|]. destruct (Ha k Hk); [left; set_solver|by right].
  - intros k m. rewrite lookup_insert_Some. intros [[<- ?]|[_ Hk]]; [by apply Hgot|by apply Hg].
  - intros Hcl. specialize (Hc Hcl). set_solver.
  - intros k Hlt. destruct (Hf k Hlt). split; [|done]. rewrite lookup_insert_ne; [done|]. congruence.
  - intros k. rewrite lookup_insert_Some. intros [[_ ?]|[_ Hk]]; [done|by apply Hn].
Qed.

Lemma deliver_defined id answer s : linv s -> is_Some (deliver id answer (ls_link s)).
Proof.
  intros Hs. unfold deliver. case_bool_decide as Hin; [|by eexists]. destruct (li_waiting s Hs id Hin) as [_ ->]. by eexists.
Qed.

Lemma fail_defined s : linv s -> is_Some (fail (ls_link s)).
Proof.
  intros Hs. unfold fail. assert (Hall : forallb (fun id => negb (bool_decide (is_Some (lk_mail (ls_link s) !! id)))) (elements (lk_waiting (ls_link s))) = true); [|rewrite Hall; by eexists].
  apply forallb_forall. intros id Hid. apply list_elem_of_In, elem_of_elements in Hid. destruct (li_waiting s Hs id Hid) as [_ ->]. rewrite bool_decide_false; [done|]. by intros [? ?].
Qed.

Lemma linv_reply id answer l l' asks rs : deliver id answer l = Some l' -> linv (LinkState l asks rs) -> linv (LinkState l' asks ((id, answer) :: rs)).
Proof.
  intros Hd [Hw Ha Hm Hg Hc Hf Hn]. cbn [ls_link ls_asks ls_replies] in *. unfold deliver in Hd. revert Hd. case_bool_decide as Hin.
  - destruct (Hw id Hin) as [Hask Hnone]. rewrite Hnone. intros [= <-]. constructor; cbn [ls_link ls_asks ls_replies lk_next lk_waiting lk_mail lk_closed].
    + intros k Hk. assert (k <> id) by set_solver. rewrite lookup_insert_ne by done. apply Hw. set_solver.
    + intros k Hk. destruct (decide (k = id)) as [->|Hne]; [right; by rewrite lookup_insert_eq|]. rewrite lookup_insert_ne by done. destruct (Ha k Hk); [left; set_solver|by right].
    + apply map_Forall_insert_2; [by left|]. eapply map_Forall_impl; [exact Hm|]. intros. by apply mail_more.
    + intros k m Hk. apply mail_more. by apply Hg.
    + intros Hcl. specialize (Hc Hcl). set_solver.
    + intros k Hlt. destruct (Hf k Hlt) as [H1 H2]. split; [done|]. rewrite lookup_insert_ne; [done|]. congruence.
    + intros k Hk. rewrite lookup_insert_ne; [by apply Hn|]. congruence.
  - intros [= <-]. constructor; cbn [ls_link ls_asks ls_replies]; try done; [eapply map_Forall_impl; [exact Hm|]; intros; by apply mail_more|intros k m Hk; apply mail_more; by apply Hg].
Qed.

Lemma linv_gone l l' asks rs : fail l = Some l' -> linv (LinkState l asks rs) -> linv (LinkState l' asks rs).
Proof.
  intros Hd [Hw Ha Hm Hg Hc Hf Hn]. cbn [ls_link ls_asks ls_replies] in *. unfold fail in Hd. destruct (forallb _ _); [|done]. injection Hd as <-.
  set (told := set_to_map (fun id => (id, inr ())) (lk_waiting l) : gmap Z (A + unit)).
  assert (Htold : forall k m, told !! k = Some m <-> k ∈ lk_waiting l /\ m = inr ()).
  { intros k m. unfold told. rewrite lookup_set_to_map by done. split; [intros (y & Hy & [= <- <-]); done|intros [Hk ->]; by exists k]. }
  assert (Hnone : forall k, k ∉ lk_waiting l -> told !! k = None).
  { intros k Hk. destruct (told !! k) as [m|] eqn:E; [|done]. apply Htold in E as [? _]. done. }
  constructor; cbn [ls_link ls_asks ls_replies lk_next lk_waiting lk_mail lk_closed]; try done.
  - intros k Hk. destruct (Ha k Hk) as [Hin|[m Hm']].
    + right. exists (inr ()). apply lookup_union_Some_raw. left. by apply Htold.
    + right. rewrite lookup_union_is_Some. right. by exists m.
  - intros k m. rewrite lookup_union_Some_raw. intros [Hk|[_ Hk]]; [by apply Htold in Hk as [_ ->]|exact (Hm k m Hk)].
  - intros k Hlt. destruct (Hf k Hlt) as [H1 H2]. split; [done|]. apply lookup_union_None. split; [|done]. apply Hnone. intros Hin. destruct (Hw k Hin). congruence.
  - intros k Hk. apply lookup_union_None. split; [|by apply Hn]. apply Hnone. intros Hin. destruct (Hw k Hin). congruence.
Qed.

Lemma lstep_inv s s' : lstep s s' -> linv s -> linv s'.
Proof.
  intros [l asks rs|id l asks rs Hid|id l asks rs Hid|id answer l l' asks rs Hd|l l' asks rs Hd|id m l asks rs Hid Hm] Hs.
  - by apply linv_number.
  - by apply linv_register.
  - by apply (linv_settle id Left l (unregister id l)).
  - by eapply linv_reply.
  - by eapply linv_gone.
  - assert (Hnot : id ∉ lk_waiting l) by (intros Hin; destruct (li_waiting _ Hs _ Hin) as [_ Hx]; cbn in Hx; congruence).
    apply (linv_settle id (Got m) l l); try done; [|set_solver|set_solver]. intros m' [= <-]. exact (li_mail _ Hs _ _ Hm).
Qed.

Definition linked : linkState := LinkState (BrokerLink 0 ∅ false ∅) ∅ [].

Lemma linked_inv : linv linked.
Proof.
  constructor; cbn; try done; try apply map_Forall_empty; try (intros id Hid; first [by rewrite lookup_empty in Hid|set_solver]).
Qed.

(** Every request over the link ends.  In every interleaving of requests,
    replies in any order, failed sends and the loss of the owner: neither
    delivery nor the notice of the loss ever blocks; a caller that waits has its
    answer in its channel or its ID still registered, and once the owner is gone
    it has its answer; and an answer is one the owner sent for that very ID, or
    the notice of the loss. *)
Theorem link_answers s :
  rtc lstep linked s ->
  (forall id answer, is_Some (deliver id answer (ls_link s))) /\ is_Some (fail (ls_link s)) /\
  (forall id, ls_asks s !! id = Some Waits -> id ∈ lk_waiting (ls_link s) \/ is_Some (lk_mail (ls_link s) !! id)) /\
  (lk_closed (ls_link s) = true -> forall id, ls_asks s !! id = Some Waits -> is_Some (lk_mail (ls_link s) !! id)) /\
  (forall id a, ls_asks s !! id = Some (Got (inl a)) -> (id, a) ∈ ls_replies s).
Proof.
  intros Hr. assert (Hs : linv s) by (apply (rtc_ind_r linv) in Hr; [done|exact linked_inv|intros y z _ Hyz Hy; by eapply lstep_inv]).
  split_and!.
  - intros id answer. by apply deliver_defined.
  - by apply fail_defined.
  - exact (li_asks s Hs).
  - intros Hc id Hid. destruct (li_asks s Hs id Hid) as [Hin|?]; [|done]. rewrite (li_closed s Hs Hc) in Hin. set_solver.
  - intros id a Hid. exact (li_got s Hs id _ Hid).
Qed.

End link.

Lemma link_answers_witness : exists s : @linkState Z, rtc lstep linked s /\ ls_asks s !! 1 = Some (Got (inl 9)) /\ (1, 9) ∈ ls_replies s.
Proof.
  eexists. assert (Hr : rtc lstep (@linked Z) (LinkState (BrokerLink 1 (({[1]} ∪ ∅) ∖ {[1]}) false (<[1 := inl 9]> ∅)) (<[1 := Got (inl 9)]> (<[1 := Waits]> (<[1 := Numbered]> ∅))) [(1, 9)])).
  { eapply rtc_l; [apply l_number|]. eapply rtc_l; [apply (l_register 1); reflexivity|]. eapply rtc_l; [apply (l_reply 1 9); reflexivity|].
    eapply rtc_l; [|apply rtc_refl]. apply (l_take 1 (inl 9)); reflexivity. }
  split; [exact Hr|]. split; [reflexivity|]. destruct (link_answers _ Hr) as (_ & _ & _ & _ & Ha). exact (Ha 1 9 eq_refl).
Defined.
