(* ===== verification/BrokerOwner.v ===== *)
(** * The owner of the build cache and its children

    [cacheclient/brokerowner.go] and the cache of [brokerchild.go], over the
    records, flights and link of [Broker].  The owner answers requests from its
    own cache, an interface with two implementations ([Tier] and [DiskCache]);
    a child turns lookups and stores into requests and replies back into
    results.  A body never travels: a store names a file, which the owner opens
    from its own working directory.  The handshake is the decision each side
    takes on what it was sent; the rings (go-ipc) are not part of the
    repository. *)

From Stdlib Require Import ZArith Lia List Bool String.
From stdpp Require Import base gmap list.
From S2P Require Import Prelude Keys Sha256 DiskCache Broker.

Definition opHello : Z := 1.
Definition opGet : Z := 2.
Definition opPut : Z := 3.
Definition stDir : Z := 1.
Definition stEntry : Z := 2.
Definition stMiss : Z := 3.
Definition stError : Z := 4.
Definition TierDisk : bytes := str "disk".
Definition TierOwner : bytes := str "owner".

(** The [Cache] interface, as far as the broker calls it: a lookup that names
    its tier, and a store of a body, which can fail with a text. *)
Class OwnerCache (C : Type) := {
  oc_get : bytes -> C -> option (Entry * bytes) * C;
  oc_put : bytes -> bytes -> C -> (bytes * Z + bytes) * C
}.

(** ** Files both processes see *)

Abbreviation disk := (gmap bytes bytes).

(** A name is resolved from the working directory of the process that opens it. *)
Definition resolve (cwd name : bytes) : bytes := if has_prefix name [47] then name else cwd ++ 47 :: name.

Definition openFile (cwd name : bytes) (d : disk) : option bytes := d !! resolve cwd name.

(** ** The owner *)

Definition errShortRecord : bytes := str "cache broker: truncated record".

Section owner.
Context {C : Type} `{!OwnerCache C}.

(** [store], for the flight that is its own; for another's it first looks
    whether that one stored the action.  [opens] is whether [os.Open] works on a
    file that is there, [openErr] the text of a failed open. *)
Definition store (cwd openErr : bytes) (opens : bool) (now : Z) (mine : bool) (action path : bytes) (d : disk) (c : C) : (Entry + bytes) * C :=
  let try_put c :=
    if bytes_eqb path [] then (inr errShortRecord, c)
    else match (if opens then openFile cwd path d else None) with
         | None => (inr openErr, c)
         | Some body => let '(r, c) := oc_put action body c in (match r with inl (out, size) => inl (MkEntry out size now) | inr e => inr e end, c)
         end in
  if mine then try_put c
  else let '(r, c) := oc_get action c in match r with Some (entry, _) => (inl entry, c) | None => try_put c end.

(** [answer]: the reply, [None] when there is none.  [lookup] asks the cache once
    for everyone who waits; here for one. *)
Definition answer (cwd openErr : bytes) (opens : bool) (now : Z) (mine : bool) (typ : Z) (req : bytes) (d : disk) (c : C) : option (Z * bytes) * C :=
  match readRequest req with
  | None => (at_ ← recordID req; Some (stError, getRecord at_ zero_hash), c)
  | Some (id, action, rest) =>
      if typ =? opGet then
        let '(r, c) := oc_get action c in
        (Some match r with None => (stMiss, getRecord id action) | Some (entry, tier) => (stEntry, entryRecord id entry tier) end, c)
      else if typ =? opPut then
        let '(r, c) := store cwd openErr opens now mine action rest d c in
        (Some match r with inr text => (stError, getRecord id action ++ text) | inl entry => (stEntry, entryRecord id entry TierDisk) end, c)
      else (Some (stError, getRecord id action), c)
  end.
End owner.

(** ** The child *)

Inductive replyErr := OwnerMiss | OwnerRefused | BadRecord.

Record reply := MkReply { rp_typ : Z; rp_entry : Entry; rp_tier : bytes; rp_err : option replyErr }.

Definition noEntry : Entry := MkEntry zero_hash 0 0.

(** One turn of [read]: the correlation ID and the reply handed to its caller;
    [None] is a record without one, which is skipped. *)
Definition read_reply (typ : Z) (rec : bytes) : option (Z * reply) :=
  id ← recordID rec;
  Some (id,
    if typ =? stEntry then
      match readEntryRecord rec with Some (entry, tier) => MkReply typ entry tier None | None => MkReply typ noEntry [] (Some BadRecord) end
    else if typ =? stMiss then MkReply typ noEntry [] (Some OwnerMiss)
    else MkReply typ noEntry [] (Some OwnerRefused)).

(** [GetTiered] on what [ask] returned; [None] is a link that failed.  Every
    error is a miss to the caller; the tier names who answered. *)
Definition child_GetTiered (r : option reply) : option Entry * bytes :=
  match r with
  | None => (None, TierOwner)
  | Some a =>
      let tier := if bytes_eqb (rp_tier a) [] then TierOwner else rp_tier a in
      match rp_err a with Some _ => (None, tier) | None => (Some (rp_entry a), tier) end
  end.

(** [Put]: the output and the size, or an error. *)
Definition child_Put (r : option reply) : option (bytes * Z) :=
  a ← r; match rp_err a with Some _ => None | None => Some (e_OutputID (rp_entry a), e_Size (rp_entry a)) end.

(** What a caller of [Put] holds: an open file, with the name it was opened by
    and the bytes it reads, or anything else that reads. *)
Inductive offered := OpenFile (name held : bytes) | Reader (data : bytes).

(** What the operating system answers: the seek, the creation of a temporary
    file, a copy that stops after some bytes, the close, and the removal of the
    temporary file, whose errors are ignored. *)
Record spillEnv := SpillEnv { se_seek : bool; se_create : bool; se_copied : option nat; se_close : bool; se_remove : bool }.

Definition remove_temp (env : spillEnv) (temp : bytes) (d : disk) : disk := if se_remove env then delete temp d else d.

(** [readerPath]: the path to send, [None] for an error, and the files; [temp]
    is the name [os.CreateTemp] picks. *)
Definition readerPath (env : spillEnv) (temp : bytes) (f : offered) (d : disk) : option bytes * disk :=
  if negb (se_seek env) then (None, d)
  else match f with
  | OpenFile name _ => (Some name, d)
  | Reader data =>
      if negb (se_create env) then (None, d)
      else match se_copied env with
           | Some n => (None, remove_temp env temp (<[temp := take n data]> d))
           | None => if negb (se_close env) then (None, remove_temp env temp (<[temp := data]> d)) else (Some temp, <[temp := data]> d)
           end
  end.

Definition cleanup (env : spillEnv) (temp : bytes) (f : offered) (d : disk) : disk := match f with OpenFile _ _ => d | Reader _ => remove_temp env temp d end.

(** ** The handshake *)

(** [dialBroker] after the hello: the child uses the owner when it answered with
    the directory this process was asked for.  [clean] is [filepath.Clean]. *)
Definition dial_accepts (clean : bytes -> bytes) (dir : bytes) (received : option (Z * bytes)) : bool :=
  match received with
  | None => false
  | Some (typ, rec) => (typ =? stDir) && negb (length rec =? 0)%nat && bytes_eqb (clean rec) (clean dir)
  end.

(** What [attend] sends first. *)
Definition greeting (dir : bytes) : Z * bytes := (stDir, dir).

(** [serveBroker]'s guards: [off] and [name] are the two environment variables. *)
Definition may_serve (off name : bytes) (brokerStopped created : bool) : bool :=
  bytes_eqb off [] && bytes_eqb name [] && negb brokerStopped && created.

(** [dialBroker]'s guards. *)
Definition may_dial (off name : bytes) (opened created : bool) : bool := negb (bytes_eqb name []) && bytes_eqb off [] && opened && created.

(** ** A request, its answer and its result *)

Section together.
Context {C : Type} `{!OwnerCache C}.

(** What the caller of [ask] gets for a reply: nothing when the correlation ID is not its own. *)
Definition delivered (id : Z) (r : option (Z * bytes)) : option reply :=
  '(typ, rec) ← r; '(id', a) ← read_reply typ rec; if id' =? id then Some a else None.

Definition child_get (ownerCwd openErr : bytes) (now : Z) (id : Z) (action : bytes) (d : disk) (c : C) : (option Entry * bytes) * C :=
  let '(r, c) := answer ownerCwd openErr true now true opGet (getRecord id action) d c in (child_GetTiered (delivered id r), c).

Definition child_put (env : spillEnv) (opens : bool) (ownerCwd openErr temp : bytes) (now : Z) (mine : bool) (id : Z) (action : bytes) (f : offered) (d : disk) (c : C)
    : option (bytes * Z) * disk * C :=
  match readerPath env temp f d with
  | (None, d) => (None, d, c)
  | (Some path, d) =>
      let '(r, c) := answer ownerCwd openErr opens now mine opPut (putRecord id action path) d c in
      (child_Put (delivered id r), cleanup env temp f d, c)
  end.

(** What a cache answers fits a record. *)
Class OwnerLaws := {
  get_fits : forall action c entry tier, (oc_get action c).1 = Some (entry, tier) ->
    length (e_OutputID entry) = HashSize /\ - 2 ^ 63 <= e_Size entry < 2 ^ 63 /\ - 2 ^ 63 <= e_Time entry < 2 ^ 63;
  put_fits : forall action body c out size, (oc_put action body c).1 = inl (out, size) -> length out = HashSize /\ - 2 ^ 63 <= size < 2 ^ 63
}.
Context `{!OwnerLaws}.

Lemma entry_delivered id entry tier : is_u64 id -> length (e_OutputID entry) = HashSize -> - 2 ^ 63 <= e_Size entry < 2 ^ 63 -> - 2 ^ 63 <= e_Time entry < 2 ^ 63 ->
  delivered id (Some (stEntry, entryRecord id entry tier)) = Some (MkReply stEntry entry tier None).
Proof.
  intros Hid Ho Hs Ht. destruct (broker_records_roundtrip id zero_hash [] entry tier) as (_ & _ & He & Hi & _); try done.
  unfold delivered, read_reply. cbn [mbind option_bind]. rewrite Hi. cbn [mbind option_bind]. by rewrite Z.eqb_refl, He.
Qed.

Lemma short_delivered id typ action text : is_u64 id -> typ = stMiss \/ typ = stError ->
  exists e, delivered id (Some (typ, getRecord id action ++ text)) = Some (MkReply typ noEntry [] (Some e)).
Proof.
  intros Hid Ht. unfold delivered, read_reply, getRecord. cbn [mbind option_bind].
  assert (recordID ((le_bytes 8 id ++ action) ++ text) = Some id) as ->.
  { unfold recordID, idBytes. rewrite <- app_assoc, !length_app, length_le_bytes. rewrite (proj2 (Nat.ltb_ge _ _)) by lia.
    by rewrite take_app_length', le_value_u64 by (done || by rewrite length_le_bytes). }
  cbn [mbind option_bind]. rewrite Z.eqb_refl. destruct Ht as [->| ->]; by eexists.
Qed.

Lemma request_read id action path : is_u64 id -> length action = HashSize ->
  readRequest (putRecord id action path) = Some (id, action, path) /\ readRequest (getRecord id action) = Some (id, action, []).
Proof. intros Hid Ha. by destruct (broker_records_roundtrip id action path noEntry [] Hid Ha) as (? & ? & _). Qed.

(** The bytes a caller holds. *)
Definition held (f : offered) : bytes := match f with OpenFile _ held => held | Reader data => data end.

(** The name the file was opened by still leads to it, and does so from the
    owner's directory. *)
Definition same_file (ownerCwd : bytes) (f : offered) (d : disk) : Prop :=
  match f with OpenFile name held => name <> [] /\ openFile ownerCwd name d = Some held | Reader _ => True end.

Lemma absolute_same childCwd ownerCwd name held d : has_prefix name [47] = true \/ childCwd = ownerCwd -> name <> [] ->
  openFile childCwd name d = Some held -> same_file ownerCwd (OpenFile name held) d.
Proof. intros [Ha| ->] Hn Ho; (split; [done|]); [|done]. unfold openFile, resolve in *. by rewrite Ha in Ho |- *. Qed.

(** The path that is sent leads the owner to the bytes; what is left of the
    spilled copy afterwards. *)
Lemma owner_reads env ownerCwd temp f d path d' : same_file ownerCwd f d -> has_prefix temp [47] = true ->
  readerPath env temp f d = (Some path, d') -> path <> [] /\ openFile ownerCwd path d' = Some (held f).
Proof.
  intros Hn Ht. unfold readerPath. destruct (se_seek env); cbn [negb]; [|done]. destruct f as [name h|data]; [by intros [= <- <-]|].
  destruct (se_create env); cbn [negb]; [|done]. destruct (se_copied env); [done|]. destruct (se_close env); cbn [negb]; [|done].
  intros [= <- <-]. split; [by intros ->|]. unfold openFile, resolve. by rewrite Ht, lookup_insert_eq.
Qed.

Definition only_temp (env : spillEnv) (temp : bytes) (d d' : disk) : Prop :=
  (forall p, p <> temp -> d' !! p = d !! p) /\ (se_remove env = true -> d' = d).

Lemma spilled_away env temp f d : d !! temp = None ->
  only_temp env temp d (match readerPath env temp f d with (None, d') => d' | (Some _, d') => cleanup env temp f d' end).
Proof.
  intros Hf. assert (Hrm : forall x, only_temp env temp d (remove_temp env temp (<[temp := x]> d))).
  { intros x. unfold remove_temp. destruct (se_remove env) eqn:E; split; try congruence.
    - intros p Hp. by rewrite lookup_delete_ne, lookup_insert_ne.
    - intros _. by rewrite delete_insert_id.
    - intros p Hp. by rewrite lookup_insert_ne. }
  assert (Hid : only_temp env temp d d) by done.
  unfold readerPath. destruct (se_seek env); cbn [negb]; [|done]. destruct f as [name h|data]; [done|].
  destruct (se_create env); cbn [negb]; [|done]. destruct (se_copied env); [apply Hrm|]. destruct (se_close env); cbn [negb cleanup]; apply Hrm.
Qed.

(** What a store through the owner comes to: nothing is stored when the path
    cannot be made or opened, and otherwise the owner stores the bytes. *)
Definition put_outcome (sent opens : bool) (r : (bytes * Z + bytes) * C) (c : C) : option (bytes * Z) * C :=
  if sent && opens then (match r.1 with inl x => Some x | inr _ => None end, r.2) else (None, c).

Definition path_made (env : spillEnv) (f : offered) : bool :=
  se_seek env && match f with OpenFile _ _ => true | Reader _ => se_create env && bool_decide (se_copied env = None) && se_close env end.

Lemma path_made_spec env temp f d : path_made env f = bool_decide (is_Some (readerPath env temp f d).1).
Proof.
  unfold path_made, readerPath. destruct (se_seek env); [|done]. cbn [negb andb]. destruct f; [done|]. destruct (se_create env); [|done]. cbn [negb andb].
  destruct (se_copied env); [done|]. destruct (se_close env); done.
Qed.

End together.

(** ** A concrete pair of processes *)

(** A cache as a map from actions to entries; it answers those that fit a record. *)
Definition fitting (e : Entry) : bool :=
  (length (e_OutputID e) =? HashSize)%nat && (- 2 ^ 63 <=? e_Size e) && (e_Size e <? 2 ^ 63) && (- 2 ^ 63 <=? e_Time e) && (e_Time e <? 2 ^ 63).

Record fitCache := FitCache { fc_map : gmap bytes Entry }.

#[export] Instance fit_ops : OwnerCache fitCache := {|
  oc_get action c := (match fc_map c !! action with Some e => if fitting e then Some (e, TierDisk) else None | None => None end, c);
  oc_put action body c :=
    if Z.of_nat (length body) <? 1000
    then (inl (sha256 body, Z.of_nat (length body)), FitCache (<[action := MkEntry (sha256 body) (Z.of_nat (length body)) 0]> (fc_map c)))
    else (inr (str "too large"), c)
|}.

#[export] Instance fit_laws : OwnerLaws (C := fitCache).
Proof.
  constructor.
  - intros action c entry tier. cbn. destruct (fc_map c !! action) as [e|]; [|done]. destruct (fitting e) eqn:E; [|done]. intros [= <- <-].
    unfold fitting in E. bool2prop. done.
  - intros action body c out size. cbn. destruct (Z.ltb_spec (Z.of_nat (length body)) 1000); [|done]. intros [= <- <-]. split; [apply length_sha256|lia].
Qed.

Definition demoDisk : disk := {[ str "/work/a/out.o" := str "object a"; str "/work/b/out.o" := str "object b" ]}.
Definition demoAction : bytes := replicate 32 7.
Definition noCache : fitCache := FitCache ∅.

Definition allWorks : spillEnv := SpillEnv true true None true true.


(** A file opened by a relative name is another file to an owner that works in
    another directory: its bytes are stored under the child's action, and the
    child is told that its store succeeded. *)
Example relative_name_stores_another_file :
  openFile (str "/work/b") (str "out.o") demoDisk = Some (str "object b") /\
  (child_put allWorks true (str "/work/a") [] (str "/tmp/x") 5 true 1 demoAction (OpenFile (str "out.o") (str "object b")) demoDisk noCache).1.1 =
    Some (sha256 (str "object a"), 8).
Proof. split; vm_compute; reflexivity. Qed.
