(* ===== verification/PendingFetch.v ===== *)
(** * Fetches a lookup may wait for

    The pending-fetch protocol of [cacheclient/manifest.go]: the manifest fetch
    marks the action IDs of every chunk it will ask for, marks a chunk on the
    wire when its request goes out, releases IDs as their objects land, and
    releases the rest at the end.  A lookup for an ID on the wire waits for its
    channel; a lookup for an ID whose chunk is still queued claims it and asks
    on its own.  The fallback of [cacheclient/manifest_fallback.go] runs the
    same protocol but drops the answer of [send] and asks for its whole part.

    [pendingFetch] values are shared by pointer between the manifest's map and
    the chunks, and a claim must be seen through both: the model has a heap.
    Every function below runs under the manifest's lock, so it is one step. *)

From Stdlib Require Import ZArith Lia List Bool.
From stdpp Require Import base gmap list relations.
From S2P Require Import Prelude.

(** [pf_done]: the channel is closed. *)
Record pendingFetch := PendingFetch { pf_done : bool; pf_onWire : bool; pf_claimed : bool; pf_closed : bool }.

Definition newFetch : pendingFetch := PendingFetch false false false false.

Record pendings := Pendings { pd_heap : gmap nat pendingFetch; pd_next : nat; pd_pending : gmap bytes nat }.

Record pendingChunk := PendingChunk { pc_fetches : gmap bytes nat; pc_ids : list bytes }.

Definition set_fetch (p : nat) (f : pendingFetch) (st : pendings) : pendings :=
  Pendings (<[p := f]> (pd_heap st)) (pd_next st) (pd_pending st).

(** [AwaitPrefetch] up to its wait: the fetch it waits for, if any.  [None] is
    a panic, here and below: a nil pointer, or a channel closed twice. *)
Definition AwaitPrefetch (actionID : bytes) (st : pendings) : option (option nat * pendings) :=
  match pd_pending st !! actionID with
  | None => Some (None, st)
  | Some p =>
      f ← pd_heap st !! p;
      if negb (pf_onWire f) then
        Some (None, Pendings (<[p := PendingFetch (pf_done f) (pf_onWire f) true (pf_closed f)]> (pd_heap st)) (pd_next st)
                      (delete actionID (pd_pending st)))
      else Some (Some p, st)
  end.

Definition mark_one (acc : gmap bytes nat * pendings) (id : bytes) : gmap bytes nat * pendings :=
  let '(fetches, st) := acc in
  let p := pd_next st in
  (<[id := p]> fetches, Pendings (<[p := newFetch]> (pd_heap st)) (S p) (<[id := p]> (pd_pending st))).

Definition markPending (ids : list bytes) (st : pendings) : pendingChunk * pendings :=
  let '(fetches, st) := foldl mark_one (∅, st) ids in (PendingChunk fetches ids, st).

(** The loop of [send] over the chunk's IDs. *)
Fixpoint send_loop (c : pendingChunk) (ids : list bytes) (st : pendings) : option (list bytes * pendings) :=
  match ids with
  | [] => Some ([], st)
  | id :: ids' =>
      p ← pc_fetches c !! id;
      f ← pd_heap st !! p;
      if pf_claimed f then send_loop c ids' st
      else
        '(asked, st) ← send_loop c ids' (set_fetch p (PendingFetch (pf_done f) true (pf_claimed f) (pf_closed f)) st);
        Some (id :: asked, st)
  end.

Definition send (c : pendingChunk) (st : pendings) : option (list bytes * pendings) := send_loop c (pc_ids c) st.

Definition release (id : bytes) (p : nat) (st : pendings) : option pendings :=
  f ← pd_heap st !! p;
  if pf_closed f then Some st
  else
    let pending := if bool_decide (pd_pending st !! id = Some p) then delete id (pd_pending st) else pd_pending st in
    if pf_done f then None
    else Some (Pendings (<[p := PendingFetch true (pf_onWire f) (pf_claimed f) true]> (pd_heap st)) (pd_next st) pending).

Fixpoint landed (c : pendingChunk) (ids : list bytes) (st : pendings) : option pendings :=
  match ids with
  | [] => Some st
  | id :: ids' =>
      match pc_fetches c !! id with
      | Some p => st ← release id p st; landed c ids' st
      | None => landed c ids' st
      end
  end.

(** [order] is how the range over the chunk's map runs. *)
Fixpoint finish (order : list (bytes * nat)) (st : pendings) : option pendings :=
  match order with
  | [] => Some st
  | (id, p) :: order' => st ← release id p st; finish order' st
  end.

(** ** The parties

    The chunks with whether they are finished, the fetches lookups wait for,
    the fetches a chunk of the manifest asked for, those a part of the fallback
    asked for and those a lookup claimed. *)
Record fetching := Fetching {
  fe_st : pendings; fe_chunks : list (pendingChunk * bool); fe_waiting : list nat; fe_asked : list nat; fe_fallback : list nat;
  fe_claimed : list nat
}.

Definition fresh : fetching := Fetching (Pendings ∅ 0 ∅) [] [] [] [] [].

(** The fetches of the IDs [ids] of a chunk. *)
Definition fetches_of (c : pendingChunk) (ids : list bytes) : list nat := omap (fun id => pc_fetches c !! id) ids.

(** What a lookup for [actionID] claims when it does not wait. *)
Definition claims (actionID : bytes) (st : pendings) (waits : option nat) : list nat :=
  match pd_pending st !! actionID, waits with Some p, None => [p] | _, _ => [] end.

Inductive fstep : fetching -> fetching -> Prop :=
  | f_mark ids st cs ws a g k :
      fstep (Fetching st cs ws a g k)
        (Fetching (markPending ids st).2 (((markPending ids st).1, false) :: cs) ws a g k)
  | f_send c b st st' cs ws a g k asked :
      (c, b) ∈ cs -> send c st = Some (asked, st') ->
      fstep (Fetching st cs ws a g k) (Fetching st' cs ws (fetches_of c asked ++ a) g k)
  | f_send_fallback c b st st' cs ws a g k asked :
      (c, b) ∈ cs -> send c st = Some (asked, st') ->
      fstep (Fetching st cs ws a g k) (Fetching st' cs ws a (fetches_of c (pc_ids c) ++ g) k)
  | f_landed c b ids st st' cs ws a g k :
      (c, b) ∈ cs -> landed c ids st = Some st' -> fstep (Fetching st cs ws a g k) (Fetching st' cs ws a g k)
  | f_finish c b order st st' cs1 cs2 ws a g k :
      order ≡ₚ map_to_list (pc_fetches c) -> finish order st = Some st' ->
      fstep (Fetching st (cs1 ++ (c, b) :: cs2) ws a g k) (Fetching st' (cs1 ++ (c, true) :: cs2) ws a g k)
  | f_lookup id waits st st' cs ws a g k :
      AwaitPrefetch id st = Some (waits, st') ->
      fstep (Fetching st cs ws a g k) (Fetching st' cs (option_list waits ++ ws) a g (claims id st waits ++ k))
  | f_leave p st cs ws1 ws2 a g k :
      fstep (Fetching st cs (ws1 ++ p :: ws2) a g k) (Fetching st cs (ws1 ++ ws2) a g k).

(** ** What holds throughout *)

Definition cell_ok (f : pendingFetch) : Prop := pf_closed f = pf_done f /\ (pf_claimed f = true -> pf_onWire f = false).

(** A chunk marks the ID [id] with the fetch [p]. *)
Definition marks (cs : list (pendingChunk * bool)) (id : bytes) (p : nat) : Prop := exists c b, (c, b) ∈ cs /\ pc_fetches c !! id = Some p.

Definition is_cell (h : gmap nat pendingFetch) (p : nat) (P : pendingFetch -> Prop) : Prop := exists f, h !! p = Some f /\ P f.

(** Flags of a fetch are only ever raised. *)
Definition grows (h h' : gmap nat pendingFetch) : Prop :=
  forall p f, h !! p = Some f -> is_cell h' p (fun f' =>
    (pf_done f = true -> pf_done f' = true) /\ (pf_onWire f = true -> pf_onWire f' = true) /\ (pf_claimed f = true -> pf_claimed f' = true)).

(** The manifest's map against the chunks [cs]. *)
Record pinv (cs : list (pendingChunk * bool)) (st : pendings) : Prop := {
  pi_cells : map_Forall (fun p f => cell_ok f /\ (p < pd_next st)%nat) (pd_heap st);
  pi_marked : forall id p, marks cs id p -> is_Some (pd_heap st !! p);
  pi_one : forall id id' p, marks cs id p -> marks cs id' p -> id = id';
  pi_ids : Forall (fun cb => Forall (fun id => is_Some (pc_fetches cb.1 !! id)) (pc_ids cb.1)) cs;
  pi_pending : forall id p, pd_pending st !! id = Some p ->
    marks cs id p /\ is_cell (pd_heap st) p (fun f => pf_closed f = false /\ pf_claimed f = false)
}.

(** A fetch a part of the fallback asks for is on the wire, or a lookup claimed it first. *)
Definition fallback_ok (f : pendingFetch) : Prop := pf_onWire f = true \/ pf_claimed f = true.

Record finv (s : fetching) : Prop := {
  fi_st : pinv (fe_chunks s) (fe_st s);
  fi_done : Forall (fun cb => cb.2 = true -> map_Forall (fun _ p => is_cell (pd_heap (fe_st s)) p (fun f => pf_done f = true)) (pc_fetches cb.1)) (fe_chunks s);
  fi_waiting : Forall (fun p => (exists id, marks (fe_chunks s) id p) /\ is_cell (pd_heap (fe_st s)) p (fun f => pf_onWire f = true)) (fe_waiting s);
  fi_asked : Forall (fun p => is_cell (pd_heap (fe_st s)) p (fun f => pf_onWire f = true)) (fe_asked s);
  fi_fallback : Forall (fun p => is_cell (pd_heap (fe_st s)) p fallback_ok) (fe_fallback s);
  fi_claimed : Forall (fun p => is_cell (pd_heap (fe_st s)) p (fun f => pf_claimed f = true)) (fe_claimed s)
}.

#[export] Instance grows_refl : Reflexive grows.
Proof. intros h p f Hf. by exists f. Qed.

#[export] Instance grows_trans : Transitive grows.
Proof.
  intros h1 h2 h3 H12 H23 p f Hf. destruct (H12 p f Hf) as (f2 & H2 & ? & ? & ?). destruct (H23 p f2 H2) as (f3 & H3 & ? & ? & ?).
  exists f3. split; [done|]. split_and!; auto.
Qed.

Lemma grows_insert h p f f' : h !! p = Some f ->
  (pf_done f = true -> pf_done f' = true) -> (pf_onWire f = true -> pf_onWire f' = true) -> (pf_claimed f = true -> pf_claimed f' = true) ->
  grows h (<[p := f']> h).
Proof.
  intros Hp H1 H2 H3 q g Hg. destruct (decide (q = p)) as [->|Hne].
  - exists f'. rewrite lookup_insert_eq. simplify_eq. by split_and!.
  - exists g. rewrite lookup_insert_ne by done. by split_and!.
Qed.

Lemma cell_done h h' p : grows h h' -> is_cell h p (fun f => pf_done f = true) -> is_cell h' p (fun f => pf_done f = true).
Proof. intros Hg (f & Hf & Hd). destruct (Hg p f Hf) as (f' & ? & ? & ? & ?). exists f'. auto. Qed.

Lemma cell_wire h h' p : grows h h' -> is_cell h p (fun f => pf_onWire f = true) -> is_cell h' p (fun f => pf_onWire f = true).
Proof. intros Hg (f & Hf & Hd). destruct (Hg p f Hf) as (f' & ? & ? & ? & ?). exists f'. auto. Qed.

Lemma cell_claimed h h' p : grows h h' -> is_cell h p (fun f => pf_claimed f = true) -> is_cell h' p (fun f => pf_claimed f = true).
Proof. intros Hg (f & Hf & Hd). destruct (Hg p f Hf) as (f' & ? & ? & ? & ?). exists f'. auto. Qed.

Lemma cell_fallback h h' p : grows h h' -> is_cell h p fallback_ok -> is_cell h' p fallback_ok.
Proof. intros Hg (f & Hf & Hd). destruct (Hg p f Hf) as (f' & ? & ? & ? & ?). exists f'. split; [done|]. destruct Hd; [left|right]; auto. Qed.

(** Changing one fetch keeps the map in order, when the fetch leaves it or stays open and unclaimed. *)
Lemma pinv_set cs st p f f' pending' :
  pinv cs st -> pd_heap st !! p = Some f -> cell_ok f' ->
  (forall id q, pending' !! id = Some q -> pd_pending st !! id = Some q /\ (q = p -> pf_closed f' = false /\ pf_claimed f' = false)) ->
  pinv cs (Pendings (<[p := f']> (pd_heap st)) (pd_next st) pending').
Proof.
  intros [Hc Hm H1 Hi Hp] Hf Hok Hpend. constructor; cbn [pd_heap pd_next pd_pending]; try done.
  - apply map_Forall_insert_2; [|done]. split; [done|]. exact (proj2 (Hc _ _ Hf)).
  - intros id q Hq. destruct (decide (q = p)) as [->|Hne]; [by rewrite lookup_insert_eq|]. rewrite lookup_insert_ne by done. by eapply Hm.
  - intros id q Hq. destruct (Hpend _ _ Hq) as [Hold Hself]. destruct (Hp _ _ Hold) as [Hmk (g & Hg & Hgc)]. split; [done|].
    destruct (decide (q = p)) as [->|Hne]; [exists f'; rewrite lookup_insert_eq; by auto|]. exists g. by rewrite lookup_insert_ne.
Qed.

(** ** One function at a time *)

Lemma release_step cs st id p : pinv cs st -> marks cs id p ->
  exists st', release id p st = Some st' /\ pinv cs st' /\ grows (pd_heap st) (pd_heap st') /\ is_cell (pd_heap st') p (fun f => pf_done f = true).
Proof.
  intros Hst Hmk. destruct (pi_marked _ _ Hst _ _ Hmk) as [f Hf]. destruct (pi_cells _ _ Hst _ _ Hf) as [[Hcl Hcw] _].
  unfold release. rewrite Hf. cbn [mbind option_bind]. destruct (pf_closed f) eqn:Hc.
  - exists st. split_and!; [done|done|done|]. exists f. by rewrite <- Hcl.
  - rewrite <- Hcl. eexists. split; [done|]. cbn [pd_heap]. split_and!.
    + eapply pinv_set; [done|done|by split|]. intros id' q Hq.
      destruct (bool_decide_reflect (pd_pending st !! id = Some p)) as [Hin|Hout].
      * apply lookup_delete_Some in Hq as [Hne Hq]. split; [done|]. intros ->. exfalso. apply Hne.
        exact (pi_one _ _ Hst _ _ _ Hmk (proj1 (pi_pending _ _ Hst _ _ Hq))).
      * split; [done|]. intros ->. exfalso. apply Hout.
        by rewrite (pi_one _ _ Hst _ _ _ Hmk (proj1 (pi_pending _ _ Hst _ _ Hq))).
    + by eapply grows_insert.
    + eexists. by rewrite lookup_insert_eq.
Qed.

Lemma landed_step cs c b ids : (c, b) ∈ cs -> forall st, pinv cs st ->
  exists st', landed c ids st = Some st' /\ pinv cs st' /\ grows (pd_heap st) (pd_heap st').
Proof.
  intros Hin. induction ids as [|id ids IH]; intros st Hst; cbn [landed]; [by exists st|].
  destruct (pc_fetches c !! id) as [p|] eqn:Hp; [|by apply IH].
  destruct (release_step cs st id p Hst) as (st1 & -> & H1 & Hg & _); [by exists c, b|]. cbn [mbind option_bind].
  destruct (IH st1 H1) as (st2 & -> & H2 & Hg2). exists st2. split_and!; [done..|]. by etransitivity.
Qed.

Lemma finish_step cs order : Forall (fun ip => marks cs ip.1 ip.2) order -> forall st, pinv cs st ->
  exists st', finish order st = Some st' /\ pinv cs st' /\ grows (pd_heap st) (pd_heap st') /\
    Forall (fun ip => is_cell (pd_heap st') ip.2 (fun f => pf_done f = true)) order.
Proof.
  induction 1 as [|[id p] order Hmk _ IH]; intros st Hst; cbn [finish]; [exists st; split_and!; [done..|constructor]|].
  destruct (release_step cs st id p Hst Hmk) as (st1 & -> & H1 & Hg & Hd). cbn [mbind option_bind].
  destruct (IH st1 H1) as (st2 & -> & H2 & Hg2 & Hds). exists st2. split_and!; [done|done|by etransitivity|].
  constructor; [by eapply cell_done|done].
Qed.

Lemma send_step cs c b ids : (c, b) ∈ cs -> Forall (fun id => is_Some (pc_fetches c !! id)) ids -> forall st, pinv cs st ->
  exists asked st', send_loop c ids st = Some (asked, st') /\ pinv cs st' /\ grows (pd_heap st) (pd_heap st') /\
    Forall (fun p => is_cell (pd_heap st') p (fun f => pf_onWire f = true)) (fetches_of c asked) /\
    Forall (fun p => is_cell (pd_heap st') p fallback_ok) (fetches_of c ids).
Proof.
  intros Hin. induction 1 as [|id ids [p Hp] _ IH]; intros st Hst; cbn [send_loop].
  - exists [], st. split_and!; [done..|apply Forall_nil_2|apply Forall_nil_2].
  - assert (Hmk : marks cs id p) by (by exists c, b). destruct (pi_marked _ _ Hst _ _ Hmk) as [f Hf].
    rewrite Hp. cbn [mbind option_bind]. rewrite Hf. cbn [mbind option_bind]. unfold fetches_of. cbn [omap list_omap]. rewrite Hp. destruct (pf_claimed f) eqn:Hc.
    { destruct (IH st Hst) as (asked & st' & -> & H1 & Hg & Hw & Hb). exists asked, st'. split_and!; [done..|]. constructor; [|done].
      eapply cell_fallback; [exact Hg|]. exists f. split; [done|by right]. }
    destruct (IH (set_fetch p (PendingFetch (pf_done f) true false (pf_closed f)) st)) as (asked & st' & -> & H1 & Hg & Hw & Hb).
    { eapply pinv_set; [done|done|split; [exact (proj1 (proj1 (pi_cells _ _ Hst _ _ Hf)))|done]|].
      intros id' q Hq. split; [done|]. intros ->. destruct (pi_pending _ _ Hst _ _ Hq) as [_ (g & Hg & Hgc)]. simplify_eq. exact (conj (proj1 Hgc) eq_refl). }
    cbn [mbind option_bind]. exists (id :: asked), st'. cbn [omap list_omap]. rewrite Hp.
    assert (Hgs : grows (pd_heap st) (pd_heap (set_fetch p (PendingFetch (pf_done f) true false (pf_closed f)) st)))
      by (eapply grows_insert; [done|done|done|by rewrite Hc]).
    split_and!; [done|done|by etransitivity| |]; (constructor; [|done]).
    + eapply cell_wire; [exact Hg|]. eexists. cbn [set_fetch pd_heap]. by rewrite lookup_insert_eq.
    + eapply cell_fallback; [exact Hg|]. eexists. cbn [set_fetch pd_heap]. rewrite lookup_insert_eq. split; [done|by left].
Qed.

Lemma await_step cs id st : pinv cs st ->
  exists waits st', AwaitPrefetch id st = Some (waits, st') /\ pinv cs st' /\ grows (pd_heap st) (pd_heap st') /\
    Forall (fun p => (exists id, marks cs id p) /\ is_cell (pd_heap st') p (fun f => pf_onWire f = true)) (option_list waits) /\
    Forall (fun p => is_cell (pd_heap st') p (fun f => pf_claimed f = true)) (claims id st waits).
Proof.
  intros Hst. unfold AwaitPrefetch, claims. destruct (pd_pending st !! id) as [p|] eqn:Hp; [|exists None, st; split_and!; [done|done|done|apply List.Forall_nil|apply List.Forall_nil]].
  destruct (pi_pending _ _ Hst _ _ Hp) as [Hmk (f & Hf & Hc & Hk)]. rewrite Hf. cbn [mbind option_bind].
  destruct (pf_onWire f) eqn:Hw; cbn [negb].
  - exists (Some p), st. split_and!; [done|done|done| |constructor]. constructor; [|constructor]. split; [by exists id|by exists f].
  - eexists None, _. split; [done|]. cbn [pd_heap]. split_and!; [|by eapply grows_insert; [done|done|by rewrite Hw|]|constructor|].
    + eapply pinv_set; [done|done|split; [exact (proj1 (proj1 (pi_cells _ _ Hst _ _ Hf)))|done]|].
      intros id' q Hq. apply lookup_delete_Some in Hq as [Hne Hq]. split; [done|]. intros ->. exfalso. apply Hne.
      exact (pi_one _ _ Hst _ _ _ Hmk (proj1 (pi_pending _ _ Hst _ _ Hq))).
    + constructor; [|constructor]. eexists. by rewrite lookup_insert_eq.
Qed.

(** The loop of [markPending], started at [st0]. *)
Record marking (st0 : pendings) (fs : gmap bytes nat) (st : pendings) : Prop := {
  mk_next : (pd_next st0 <= pd_next st)%nat;
  mk_old : forall p, (p < pd_next st0)%nat -> pd_heap st !! p = pd_heap st0 !! p;
  mk_new : forall p f, (pd_next st0 <= p)%nat -> pd_heap st !! p = Some f -> f = newFetch /\ (p < pd_next st)%nat;
  mk_fetches : forall id p, fs !! id = Some p -> (pd_next st0 <= p < pd_next st)%nat /\ pd_heap st !! p = Some newFetch;
  mk_inj : forall id id' p, fs !! id = Some p -> fs !! id' = Some p -> id = id';
  mk_pending : pd_pending st = fs ∪ pd_pending st0
}.

Lemma marking_one st0 fs st id : marking st0 fs st -> marking st0 (mark_one (fs, st) id).1 (mark_one (fs, st) id).2.
Proof.
  intros [Hn Ho Hw Hf Hi Hp]. cbn [mark_one fst snd]. constructor; cbn [pd_heap pd_next pd_pending].
  - lia.
  - intros p Hlt. rewrite lookup_insert_ne by lia. by apply Ho.
  - intros p f Hge. rewrite lookup_insert_Some. intros [[<- <-]|[_ Hq]]; [split; [done|lia]|]. destruct (Hw _ _ Hge Hq). split; [done|lia].
  - intros id' p. rewrite lookup_insert_Some. intros [[_ <-]|[_ Hq]]; [rewrite lookup_insert_eq; split; [lia|done]|].
    destruct (Hf _ _ Hq). rewrite lookup_insert_ne by lia. split; [lia|done].
  - intros i1 i2 p. rewrite !lookup_insert_Some. intros [[<- <-]|[_ H1]] [[<- Hb]|[_ H2]]; [done| | |by eapply Hi].
    + destruct (Hf _ _ H2). lia.
    + subst. destruct (Hf _ _ H1). lia.
  - rewrite Hp. by rewrite insert_union_l.
Qed.

Lemma marking_fold st0 ids : forall fs st, marking st0 fs st ->
  marking st0 (foldl mark_one (fs, st) ids).1 (foldl mark_one (fs, st) ids).2 /\
  forall id, id ∈ ids \/ is_Some (fs !! id) -> is_Some ((foldl mark_one (fs, st) ids).1 !! id).
Proof.
  induction ids as [|i ids IH]; intros fs st Hm; cbn [foldl]; [split; [done|]; intros id [H|H]; [by apply not_elem_of_nil in H|done]|].
  pose proof (marking_one _ _ _ i Hm) as Hm1. destruct (mark_one (fs, st) i) as [fs1 st1] eqn:E. cbn [fst snd] in Hm1.
  destruct (IH fs1 st1 Hm1) as [H1 H2]. split; [done|]. intros id Hid. apply H2. injection E as <- _.
  destruct (decide (id = i)) as [->|Hne]; [right; by rewrite lookup_insert_eq|].
  rewrite lookup_insert_ne by done. destruct Hid as [Hid|Hid]; [|by right]. apply elem_of_cons in Hid as [->|Hid]; [done|by left].
Qed.

Lemma marks_cons cs c id p : marks ((c, false) :: cs) id p <-> pc_fetches c !! id = Some p \/ marks cs id p.
Proof.
  unfold marks. split.
  - intros (c' & b & Hin & Hp). apply elem_of_cons in Hin as [[= -> ->]|Hin]; [by left|]. right. by exists c', b.
  - intros [Hp|(c' & b & Hin & Hp)]; [exists c, false|exists c', b]; (split; [|done]); apply elem_of_cons; auto.
Qed.

Lemma mark_step cs ids st c st' : pinv cs st -> markPending ids st = (c, st') -> pinv ((c, false) :: cs) st' /\ grows (pd_heap st) (pd_heap st').
Proof.
  intros Hst. unfold markPending.
  assert (H0 : marking st ∅ st).
  { constructor; [done|done| | | |by rewrite (left_id_L ∅ (∪))].
    - intros p f Hge Hf. pose proof (proj2 (pi_cells _ _ Hst _ _ Hf)). cbn in *. lia.
    - intros id p Hp. by rewrite lookup_empty in Hp.
    - intros id id' p Hp. by rewrite lookup_empty in Hp. }
  destruct (marking_fold st ids ∅ st H0) as [Hm Hdom]. destruct (foldl mark_one (∅, st) ids) as [fs st1]. cbn [fst snd] in *.
  intros [<- <-]%pair_equal_spec. pose proof (pi_cells _ _ Hst) as Hcells.
  assert (Hlt : forall p f, pd_heap st !! p = Some f -> (p < pd_next st)%nat) by (intros p f Hf; exact (proj2 (Hcells p f Hf))).
  assert (Hkeep : forall p f, pd_heap st !! p = Some f -> pd_heap st1 !! p = Some f) by (intros p f Hf; rewrite (mk_old _ _ _ Hm); eauto).
  split; [|by intros p f Hf; exists f; rewrite (Hkeep _ _ Hf)]. constructor.
  - intros p f Hf. destruct (decide (pd_next st <= p)%nat) as [Hge|Hge].
    + destruct (mk_new _ _ _ Hm _ _ Hge Hf) as [-> ?]. done.
    + rewrite (mk_old _ _ _ Hm) in Hf by lia. split; [exact (proj1 (Hcells _ _ Hf))|]. pose proof (mk_next _ _ _ Hm). lia.
  - intros id p [Hp|Hp]%marks_cons; [exists newFetch; exact (proj2 (mk_fetches _ _ _ Hm _ _ Hp))|].
    destruct (pi_marked _ _ Hst _ _ Hp) as [f Hf]. exists f. by apply Hkeep.
  - assert (Hx : forall i1 i2 p, fs !! i1 = Some p -> marks cs i2 p -> False).
    { intros i1 i2 p Hp Hq. destruct (mk_fetches _ _ _ Hm _ _ Hp) as [? _]. destruct (pi_marked _ _ Hst _ _ Hq) as [f Hf]. apply Hlt in Hf. lia. }
    intros i1 i2 p [H1|H1]%marks_cons [H2|H2]%marks_cons; [by eapply (mk_inj _ _ _ Hm)|by destruct (Hx _ _ _ H1 H2)|by destruct (Hx _ _ _ H2 H1)|by eapply (pi_one _ _ Hst)].
  - constructor; [|exact (pi_ids _ _ Hst)]. apply Forall_forall. intros id Hid. apply Hdom. by left.
  - intros id p Hp. rewrite (mk_pending _ _ _ Hm), lookup_union_Some_raw in Hp. destruct Hp as [Hp|[_ Hp]].
    + split; [apply marks_cons; by left|]. exists newFetch. split; [exact (proj2 (mk_fetches _ _ _ Hm _ _ Hp))|done].
    + destruct (pi_pending _ _ Hst _ _ Hp) as [Hmk (f & Hf & Hff)]. split; [apply marks_cons; by right|]. exists f. split; [by apply Hkeep|done].
Qed.

(** Raising flags keeps what is known of chunks, waiting lookups, requests and claims. *)
Lemma finv_grow st st' cs ws a g k : finv (Fetching st cs ws a g k) -> grows (pd_heap st) (pd_heap st') -> pinv cs st' -> finv (Fetching st' cs ws a g k).
Proof.
  intros [_ Hd Hw Ha Hfb Hk] Hg Hst'. constructor; cbn [fe_st fe_chunks fe_waiting fe_asked fe_fallback fe_claimed] in *; [done| | | | |].
  - eapply Forall_impl; [exact Hd|]. intros cb Hcb Hb. eapply map_Forall_impl; [exact (Hcb Hb)|]. intros ? ? Hc. by eapply cell_done.
  - eapply Forall_impl; [exact Hw|]. intros p [Hm Hc]. split; [done|by eapply cell_wire].
  - eapply Forall_impl; [exact Ha|]. intros p Hc. by eapply cell_wire.
  - eapply Forall_impl; [exact Hfb|]. intros p Hc. by eapply cell_fallback.
  - eapply Forall_impl; [exact Hk|]. intros p Hc. by eapply cell_claimed.
Qed.

Lemma marks_swap cs1 cs2 c b b' id p : marks (cs1 ++ (c, b) :: cs2) id p -> marks (cs1 ++ (c, b') :: cs2) id p.
Proof.
  intros (c' & x & Hin & Hp). apply elem_of_app in Hin as [Hin|Hin]; [exists c', x; split; [apply elem_of_app; by left|done]|].
  apply elem_of_cons in Hin as [[= -> ->]|Hin]; [exists c, b'|exists c', x]; (split; [|done]); apply elem_of_app; right; apply elem_of_cons; auto.
Qed.

Lemma pinv_swap cs1 cs2 c b b' st : pinv (cs1 ++ (c, b) :: cs2) st -> pinv (cs1 ++ (c, b') :: cs2) st.
Proof.
  intros [Hc Hm H1 Hi Hp]. constructor; [done| | | |].
  - intros id p Hq. by eapply Hm, marks_swap.
  - intros i1 i2 p Ha Hb. eapply H1; by eapply marks_swap.
  - apply Forall_app in Hi as [Ha Hb]. apply Forall_app. split; [done|]. inversion Hb; subst. by constructor.
  - intros id p Hq. destruct (Hp _ _ Hq). split; [by eapply marks_swap|done].
Qed.

Lemma chunk_ids s c b : finv s -> (c, b) ∈ fe_chunks s -> Forall (fun id => is_Some (pc_fetches c !! id)) (pc_ids c).
Proof. intros Hs Hin. exact (proj1 (Forall_forall _ _) (pi_ids _ _ (fi_st _ Hs)) _ Hin). Qed.

Lemma finv_mark st cs ws a g k ids : finv (Fetching st cs ws a g k) ->
  finv (Fetching (markPending ids st).2 (((markPending ids st).1, false) :: cs) ws a g k).
Proof.
  intros Hs. destruct (markPending ids st) as [c st'] eqn:E. destruct (mark_step _ _ _ _ _ (fi_st _ Hs) E) as [Hst' Hg]. cbn [fst snd].
  destruct Hs as [_ Hd Hw Ha Hfb Hk]. constructor; cbn [fe_st fe_chunks fe_waiting fe_asked fe_fallback fe_claimed] in *; [done| | | | |].
  - constructor; [done|]. eapply Forall_impl; [exact Hd|]. intros cb Hcb Hb. eapply map_Forall_impl; [exact (Hcb Hb)|]. intros ? ? Hc. by eapply cell_done.
  - eapply Forall_impl; [exact Hw|]. intros p [[id Hm] Hc]. split; [exists id; apply marks_cons; by right|by eapply cell_wire].
  - eapply Forall_impl; [exact Ha|]. intros p Hc. by eapply cell_wire.
  - eapply Forall_impl; [exact Hfb|]. intros p Hc. by eapply cell_fallback.
  - eapply Forall_impl; [exact Hk|]. intros p Hc. by eapply cell_claimed.
Qed.

Lemma finish_order cs1 cs2 c b order : order ≡ₚ map_to_list (pc_fetches c) -> Forall (fun ip => marks (cs1 ++ (c, b) :: cs2) ip.1 ip.2) order.
Proof.
  intros Hperm. apply Forall_forall. intros [id p] Hin. rewrite Hperm in Hin. apply elem_of_map_to_list in Hin.
  exists c, b. split; [|done]. apply elem_of_app. right. apply elem_of_cons. by left.
Qed.

Lemma finv_finish st st' cs1 cs2 c b ws a g k order : order ≡ₚ map_to_list (pc_fetches c) -> finish order st = Some st' ->
  finv (Fetching st (cs1 ++ (c, b) :: cs2) ws a g k) -> finv (Fetching st' (cs1 ++ (c, true) :: cs2) ws a g k).
Proof.
  intros Hperm Hfin Hs. destruct (finish_step _ _ (finish_order cs1 cs2 c b order Hperm) st (fi_st _ Hs)) as (st1 & H1 & Hst' & Hg & Hdone).
  rewrite H1 in Hfin. injection Hfin as <-. destruct (finv_grow _ st1 _ _ _ _ _ Hs Hg Hst') as [Hst Hd Hw Ha Hb Hk].
  constructor; cbn [fe_st fe_chunks fe_waiting fe_asked fe_fallback fe_claimed] in *; [by eapply pinv_swap| | |done|done|done].
  - apply Forall_app in Hd as [Hd1 Hd2]. apply Forall_app. split; [done|]. inversion Hd2; subst. constructor; [|done]. intros _ id p Hp. cbn [fst].
    exact (proj1 (Forall_forall _ _) Hdone (id, p) (proj2 (elem_of_Permutation_proper _ _ _ Hperm) (proj2 (elem_of_map_to_list _ _ _) Hp))).
  - eapply Forall_impl; [exact Hw|]. intros p [[id Hm] Hc]. split; [|done]. exists id. by eapply marks_swap.
Qed.

Lemma fstep_inv s s' : fstep s s' -> finv s -> finv s'.
Proof.
  intros Hstep Hs. destruct Hstep as [ids st cs ws a g k|c b st st' cs ws a g k asked Hin Hsend|c b st st' cs ws a g k asked Hin Hsend|c b ids st st' cs ws a g k Hin Hland|c b order st st' cs1 cs2 ws a g k Hp Hfin|id waits st st' cs ws a g k Haw|p st cs ws1 ws2 a g k].
  - by apply finv_mark.
  - destruct (send_step cs c b _ Hin (chunk_ids _ _ _ Hs Hin) st (fi_st _ Hs)) as (asked' & st1 & H1 & Hst & Hg & Hw & _).
    unfold send in Hsend. rewrite H1 in Hsend. injection Hsend as <- <-.
    destruct (finv_grow _ st1 _ _ _ _ _ Hs Hg Hst) as [? ? ? Ha ? ?]. constructor; try done. apply Forall_app. by split.
  - destruct (send_step cs c b _ Hin (chunk_ids _ _ _ Hs Hin) st (fi_st _ Hs)) as (asked' & st1 & H1 & Hst & Hg & _ & Hw).
    unfold send in Hsend. rewrite H1 in Hsend. injection Hsend as <- <-.
    destruct (finv_grow _ st1 _ _ _ _ _ Hs Hg Hst) as [? ? ? ? Hb ?]. constructor; try done. apply Forall_app. by split.
  - destruct (landed_step cs c b ids Hin st (fi_st _ Hs)) as (st1 & H1 & Hst & Hg). rewrite H1 in Hland. injection Hland as <-. by eapply finv_grow.
  - by eapply finv_finish.
  - destruct (await_step cs id st (fi_st _ Hs)) as (w & st1 & H1 & Hst & Hg & Hw & Hk). rewrite H1 in Haw. injection Haw as <- <-.
    destruct (finv_grow _ st1 _ _ _ _ _ Hs Hg Hst) as [? ? Hws ? ? Hks]. constructor; try done; apply Forall_app; by split.
  - destruct Hs as [? ? Hw ? ? ?]. constructor; try done. cbn [fe_waiting fe_chunks fe_st] in *. apply Forall_app in Hw as [H1 H2]. inversion H2; subst. apply Forall_app. by split.
Qed.

Lemma fresh_inv : finv fresh.
Proof.
  constructor; cbn [fe_st fe_chunks fe_waiting fe_asked fe_fallback fe_claimed fresh]; try by constructor.
  constructor; cbn [pd_heap pd_next pd_pending]; [apply map_Forall_empty| | |constructor|].
  - intros id p (c & b & Hin & _). by apply not_elem_of_nil in Hin.
  - intros i1 i2 p (c & b & Hin & _). by apply not_elem_of_nil in Hin.
  - intros id p Hp. by rewrite lookup_empty in Hp.
Qed.

Lemma fetching_inv s : rtc fstep fresh s -> finv s.
Proof. intros Hr. apply (rtc_ind_r finv) in Hr; [done|exact fresh_inv|]. intros y z _ Hyz Hy. by eapply fstep_inv. Qed.

(** C28. However lookups, chunks and landings interleave: no function of the
    protocol panics; a marked fetch is never asked for both by a chunk of the
    manifest and by a lookup that claimed it, and a part of the fallback, which
    asks for all it marked, asks for a fetch that is on the wire or that a
    lookup claimed before the part was sent; a lookup waits only for a fetch
    that is on the wire; and when the chunks are finished every lookup that
    waits is released and nothing is left pending. *)
Theorem pending_fetch_protocol s :
  rtc fstep fresh s ->
  (forall c b, (c, b) ∈ fe_chunks s ->
    is_Some (send c (fe_st s)) /\ (forall ids, is_Some (landed c ids (fe_st s))) /\
    forall order, order ≡ₚ map_to_list (pc_fetches c) -> is_Some (finish order (fe_st s))) /\
  (forall id, is_Some (AwaitPrefetch id (fe_st s))) /\
  (forall p, p ∈ fe_asked s -> p ∉ fe_claimed s) /\
  (forall p, p ∈ fe_fallback s -> exists f, pd_heap (fe_st s) !! p = Some f /\ (pf_onWire f = true \/ pf_claimed f = true)) /\
  (forall p, p ∈ fe_waiting s -> p ∈ dom (filter (fun pf => pf_onWire pf.2 = true) (pd_heap (fe_st s)))) /\
  (Forall (fun cb => cb.2 = true) (fe_chunks s) ->
    pd_pending (fe_st s) = ∅ /\ forall p, p ∈ fe_waiting s -> exists f, pd_heap (fe_st s) !! p = Some f /\ pf_done f = true).
Proof.
  intros Hr. pose proof (fetching_inv s Hr) as Hs. pose proof (fi_st _ Hs) as Hst.
  assert (Hall : Forall (fun cb => cb.2 = true) (fe_chunks s) -> forall id p, marks (fe_chunks s) id p -> is_cell (pd_heap (fe_st s)) p (fun f => pf_done f = true)).
  { intros Hfin id p (c & b & Hin & Hp). exact (proj1 (Forall_forall _ _) (fi_done _ Hs) _ Hin (proj1 (Forall_forall _ _) Hfin _ Hin) _ _ Hp). }
  split_and!.
  - intros c b Hin. split_and!.
    + destruct (send_step _ c b _ Hin (chunk_ids _ _ _ Hs Hin) _ Hst) as (asked & st' & H1 & _). unfold send. rewrite H1. by eexists.
    + intros ids. destruct (landed_step _ c b ids Hin _ Hst) as (st' & -> & _). by eexists.
    + intros order Hperm. destruct (list_elem_of_split _ _ Hin) as (cs1 & cs2 & Heq).
      destruct (finish_step (fe_chunks s) order) with (st := fe_st s) as (st' & -> & _); [rewrite Heq; by apply finish_order|done|by eexists].
  - intros id. destruct (await_step _ id _ Hst) as (w & st' & -> & _). by eexists.
  - intros p Ha Hk. pose proof (proj1 (Forall_forall _ _) (fi_asked _ Hs) _ Ha) as (f & Hf & Hw).
    pose proof (proj1 (Forall_forall _ _) (fi_claimed _ Hs) _ Hk) as (f' & Hf' & Hc). simplify_eq.
    destruct (pi_cells _ _ Hst _ _ Hf) as [[_ Hno] _]. rewrite (Hno Hc) in Hw. done.
  - intros p Hp. exact (proj1 (Forall_forall _ _) (fi_fallback _ Hs) _ Hp).
  - intros p Hp. destruct (proj2 (proj1 (Forall_forall _ _) (fi_waiting _ Hs) _ Hp)) as (f & Hf & Hw).
    apply elem_of_dom. exists f. by apply map_lookup_filter_Some.
  - intros Hfin. split.
    + apply map_empty. intros id. destruct (pd_pending (fe_st s) !! id) as [p|] eqn:Hp; [|done].
      destruct (pi_pending _ _ Hst _ _ Hp) as [Hmk (f & Hf & Hc & _)]. destruct (Hall Hfin _ _ Hmk) as (f' & Hf' & Hd). simplify_eq.
      destruct (pi_cells _ _ Hst _ _ Hf) as [[Hcl _] _]. congruence.
    + intros p Hp. destruct (proj1 (proj1 (Forall_forall _ _) (fi_waiting _ Hs) _ Hp)) as [id Hmk]. exact (Hall Hfin _ _ Hmk).
Qed.

(** ** Concrete runs *)

Definition idA : bytes := [97].
Definition idB : bytes := [98].

(** Two IDs are marked, a lookup claims the first, the chunk goes out with the
    second, a lookup waits for it, and the chunk ends.  Then a part of the
    fallback marks both again, a lookup claims the first once more, and the part
    asks for both nevertheless. *)
Definition demoChunk : pendingChunk := (markPending [idA; idB] (fe_st fresh)).1.
Definition st_marked : pendings := (markPending [idA; idB] (fe_st fresh)).2.
Definition st_claimed : pendings := default st_marked (snd <$> AwaitPrefetch idA st_marked).
Definition st_sent : pendings := default st_claimed (snd <$> send demoChunk st_claimed).
Definition st_over : pendings := default st_sent (finish (map_to_list (pc_fetches demoChunk)) st_sent).
Definition demoPart : pendingChunk := (markPending [idA; idB] st_over).1.
Definition st_part : pendings := (markPending [idA; idB] st_over).2.
Definition st_taken : pendings := default st_part (snd <$> AwaitPrefetch idA st_part).
Definition st_again : pendings := default st_taken (snd <$> send demoPart st_taken).
Definition st_end : pendings := default st_again (finish (map_to_list (pc_fetches demoPart)) st_again).

Example demo_asks : (fst <$> send demoChunk st_claimed) = Some [idB] /\ (fst <$> AwaitPrefetch idB st_sent) = Some (Some 1%nat).
Proof. split; vm_compute; reflexivity. Qed.

Lemma demo_fetching : rtc fstep fresh (Fetching st_end [(demoPart, true); (demoChunk, true)] [1%nat] [1%nat] [2%nat; 3%nat] [2%nat; 0%nat]).
Proof.
  eapply rtc_l; [apply (f_mark [idA; idB])|]. eapply rtc_l; [apply (f_lookup idA None _ st_claimed); vm_compute; reflexivity|].
  eapply rtc_l; [apply (f_send demoChunk false _ st_sent) with (asked := [idB]); [by left|vm_compute; reflexivity]|].
  eapply rtc_l; [apply (f_lookup idB (Some 1%nat) _ st_sent); vm_compute; reflexivity|].
  eapply rtc_l; [apply (f_finish demoChunk false (map_to_list (pc_fetches demoChunk)) _ st_over [] []); [done|vm_compute; reflexivity]|].
  eapply rtc_l; [apply (f_mark [idA; idB])|]. eapply rtc_l; [apply (f_lookup idA None _ st_taken); vm_compute; reflexivity|].
  eapply rtc_l; [apply (f_send_fallback demoPart false _ st_again) with (asked := [idB]); [by left|vm_compute; reflexivity]|].
  eapply rtc_l; [apply (f_finish demoPart false (map_to_list (pc_fetches demoPart)) _ st_end [] [(demoChunk, true)]); [done|vm_compute; reflexivity]|].
  apply rtc_refl.
Qed.

Lemma pending_fetch_protocol_witness :
  pd_pending st_end = ∅ /\ (exists f, pd_heap st_end !! 1%nat = Some f /\ pf_done f = true) /\
  exists f, pd_heap st_end !! 2%nat = Some f /\ (pf_onWire f = true \/ pf_claimed f = true).
Proof.
  destruct (pending_fetch_protocol _ demo_fetching) as (_ & _ & _ & Hback & _ & Hend).
  destruct Hend as [H1 H2]; [repeat constructor|]. split_and!; [exact H1|apply H2; by left|apply Hback; by left].
Defined.
