(* ===== verification/Manifest.v ===== *)
(** * Build manifests

    [cacheclient/manifest.go] and the generations of [manifest_fallback.go]:
    what a build looked up, the text that names it, the generations under which
    successive builds store it, the walk that finds the newest one, and the test
    for a generation that no longer fits the build.

    The index and the bodies of the server are arguments: [known] is
    [keyKnown] of an action ID, [read] is what [readManifest] brings. *)

From Stdlib Require Import ZArith Lia List Bool String.
From stdpp Require Import base gmap list.
From S2P Require Import Prelude Strconv GoSet Keys Sha256 ClientIndex WebGet PendingFetch.

Definition manifestMaxKeys : nat := Z.to_nat 20000.
Definition manifestGenerations : nat := 64.
Definition manifestFallbackGenerations : Z := 65536.
Definition manifestDrift : Z := 10.
Definition manifestFormat : bytes := str "3".

(** ** Names *)

Definition manifestID (module version target : bytes) : bytes :=
  hex_encode (sha256 (str "go-build-manifest" ++ [0] ++ manifestFormat ++ [0] ++ module ++ [0] ++ version ++ [0] ++ target)).

Definition manifestFallbackID (module version target : bytes) : bytes :=
  hex_encode (sha256 (str "go-build-manifest-module" ++ [0] ++ manifestFormat ++ [0] ++ module ++ [0] ++ version ++ [0] ++ target)).

Definition manifestScope (module command : bytes) : bytes :=
  if bytes_eqb command [] then module else module ++ [0] ++ command.

Definition manifestGenID (base_ : bytes) (gen : Z) : bytes :=
  if gen =? 0 then base_
  else hex_encode (sha256 (str "go-build-manifest-gen" ++ [0] ++ base_ ++ [0] ++ formatInt gen)).

Definition fallbackBase (module command version target : bytes) : bytes :=
  if bytes_eqb command [] || bytes_eqb module [] then [] else manifestFallbackID module version target.

(** ** Text *)

(** [strings.Split] and [strings.Join] at newlines. *)
Fixpoint split_lines (s : bytes) : list bytes :=
  match s with
  | [] => [[]]
  | c :: s' =>
      if c =? 10 then [] :: split_lines s'
      else match split_lines s' with [] => [[c]] | w :: ws => (c :: w) :: ws end
  end.

Fixpoint join_lines (l : list bytes) : bytes :=
  match l with [] => [] | [w] => w | w :: l' => w ++ [10] ++ join_lines l' end.

Definition manifestBody (ids : list bytes) : bytes := join_lines ids.

Definition manifestKeys (data self : bytes) : list bytes :=
  List.filter (fun line => match parseActionHash line with Some _ => negb (bytes_eqb line self) | None => false end) (split_lines data).

(** ** Generations *)

(** The loop of [newestKnownGen]. *)
Fixpoint newest_from (n : nat) (gen newest : Z) (known : Z -> bool) : Z :=
  match n with
  | O => newest
  | S n' => if known gen then newest_from n' (gen + 1) gen known else newest
  end.

Definition newestKnownGen (authoritative : bool) (known : bytes -> bool) (base_ : bytes) : Z * bool :=
  if negb authoritative then (-1, false)
  else (newest_from manifestGenerations 0 (-1) (fun gen => known (manifestGenID base_ gen)), true).

(** The two loops of [newestFallbackGen]: doubling, then halving. *)
Fixpoint double_gen (fuel : nat) (limit : Z) (known : Z -> bool) (low high : Z) : Z * Z :=
  match fuel with
  | O => (low, high)
  | S fuel' => if (high <? limit) && known high then double_gen fuel' limit known high (high * 2) else (low, high)
  end.

Fixpoint halve_gen (fuel : nat) (known : Z -> bool) (low high : Z) : Z :=
  match fuel with
  | O => low
  | S fuel' =>
      if 1 <? high - low then
        let mid := (low + high) / 2 in
        if known mid then halve_gen fuel' known mid high else halve_gen fuel' known low mid
      else low
  end.

Definition search_gen (limit : Z) (known : Z -> bool) : Z :=
  if negb (known 0) then -1
  else
    let '(low, high) := double_gen (Z.to_nat (Z.log2_up limit) + 1) limit known 0 1 in
    halve_gen (Z.to_nat (Z.log2_up limit) + 1) known low (Z.min high limit).

Definition newestFallbackGen (authoritative : bool) (known : bytes -> bool) (base_ : bytes) : Z * bool :=
  if negb authoritative then (-1, false)
  else (search_gen manifestFallbackGenerations (fun gen => known (manifestGenID base_ gen)), true).

(** The other loop of [walkManifest]: each generation in turn, over the wire. *)
Fixpoint read_from (n : nat) (gen : Z) (acc : Z * list bytes) (base_ : bytes) (read : bytes -> option bytes) : Z * list bytes :=
  match n with
  | O => acc
  | S n' =>
      match read (manifestGenID base_ gen) with
      | None => acc
      | Some data => read_from n' (gen + 1) (gen, manifestKeys data base_) base_ read
      end
  end.

Definition walkManifest (authoritative : bool) (known : bytes -> bool) (read : bytes -> option bytes) (base_ : bytes) : Z * list bytes :=
  let '(newest, ok) := newestKnownGen authoritative known base_ in
  if ok then
    (newest, if 0 <=? newest then match read (manifestGenID base_ newest) with Some data => manifestKeys data base_ | None => [] end else [])
  else read_from manifestGenerations 0 (newest, []) base_ read.

(** ** What a build used *)

Section manifest.
Context {St : Type} `{!SetOps St bytes} `{!SetLaws St bytes}.
Set Default Proof Using "Type*".

Record buildManifest := BuildManifest { bm_used : St; bm_order : list bytes }.

Definition newBuildManifest : buildManifest := BuildManifest s_new [].

Definition note (actionID : bytes) (m : buildManifest) : buildManifest :=
  if (s_len (bm_used m) <? manifestMaxKeys)%nat && negb (s_contains (bm_used m) actionID)
  then BuildManifest (s_add actionID (bm_used m)) (bm_order m ++ [actionID])
  else m.

Definition lookedUp (actionID : bytes) (m : buildManifest) : bool := s_contains (bm_used m) actionID.

(** The loop of [manifestDrifted] over what the generation names. *)
Fixpoint common_keys (named : list bytes) (usedSet namedSet : St) (common : Z) : St * Z :=
  match named with
  | [] => (namedSet, common)
  | id :: named' =>
      if s_contains namedSet id then common_keys named' usedSet namedSet common
      else common_keys named' usedSet (s_add id namedSet) (if s_contains usedSet id then common + 1 else common)
  end.

Definition manifestDrifted (named used : list bytes) : bool :=
  let usedSet := s_add_all used s_new in
  let '(namedSet, common) := common_keys named usedSet s_new 0 in
  let differ := Z.of_nat (s_len namedSet) - common + Z.of_nat (s_len usedSet) - common in
  Z.of_nat (s_len usedSet) * manifestDrift <? differ * 100.

(** [ownManifestToStore]: the ID and the body to store; without an ID only the body, if the build used keys. *)
Definition ownManifestToStore (id : option bytes) (order : list bytes) (newest : Z) (named : list bytes) : option bytes * option bytes :=
  match id with
  | None => (None, None)
  | Some id =>
      let ids := List.filter (fun actionID => negb (bytes_eqb actionID id)) order in
      match ids with
      | [] => (None, None)
      | _ =>
          let body := manifestBody ids in
          if (0 <=? newest) && negb (manifestDrifted named ids) then (None, Some body)
          else
            let gen := if 0 <=? newest then newest + 1 else 0 in
            if Z.of_nat manifestGenerations <=? gen then (None, Some body)
            else (Some (manifestGenID id gen), Some body)
      end
  end.

Definition fallbackToStore (base_ : bytes) (authoritative : bool) (known : bytes -> bool) (storesOwn : bool) (body : bytes) : option (bytes * bytes) :=
  if bytes_eqb base_ [] then None
  else
    let '(newest, ok) := newestFallbackGen authoritative known base_ in
    if negb ok || (negb storesOwn && (0 <=? newest)) then None
    else
      let gen := newest + 1 in
      if manifestFallbackGenerations <=? gen then None else Some (manifestGenID base_ gen, body).

Definition manifestToStore (id : option bytes) (order : list bytes) (newest : Z) (named : list bytes)
    (fallback : bytes) (authoritative : bool) (known : bytes -> bool) : list (bytes * bytes) :=
  match ownManifestToStore id order newest named with
  | (None, None) => []
  | (None, Some body) => option_list (fallbackToStore fallback authoritative known false body)
  | (Some target, body) =>
      let body := default [] body in
      (target, body) :: option_list (fallbackToStore fallback authoritative known true body)
  end.

End manifest.

(** ** What is fetched ahead *)

(** The named IDs worth a fetch: not known absent, not held, not local, not already looked up. *)
Definition fetch_ids (authoritative : bool) (keyKnown isHeld hasLocal : bytes -> bool) (lookedUp : bytes -> bool) (named : list bytes) : list bytes :=
  List.filter (fun line =>
    let h := default zero_hash (parseActionHash line) in
    negb ((authoritative && negb (keyKnown h)) || isHeld h || hasLocal h || lookedUp line)) named.

Fixpoint chunks_of (fuel k : nat) (ids : list bytes) : list (list bytes) :=
  match fuel, ids with
  | S fuel', _ :: _ => take k ids :: chunks_of fuel' k (drop k ids)
  | _, _ => []
  end.

(** Every chunk is marked before the first goes out. *)
Definition mark_chunks (ids : list bytes) (st : pendings) : list pendingChunk * pendings :=
  foldl (fun '(cs, st) part => let '(c, st) := markPending part st in (cs ++ [c], st)) ([], st) (chunks_of (length ids) batchMaxKeys ids).

(** [stillAbsent], with the prefix [key] puts before an action ID. *)
Definition stillAbsent (key : bytes -> bytes) (isHeld hasLocal : bytes -> bool) (ids : list bytes) : list bytes :=
  map key (List.filter (fun id => match parseActionHash id with Some h => negb (isHeld h || hasLocal h) | None => true end) ids).

(** ** The text reads back *)

Lemma split_word w s : Forall (fun c => c <> 10) w -> split_lines (w ++ 10 :: s) = w :: split_lines s.
Proof.
  induction 1 as [|c w Hc _ IH]; [done|]. cbn [app split_lines]. rewrite (proj2 (Z.eqb_neq _ _) Hc), IH. done.
Qed.

Lemma split_last w : Forall (fun c => c <> 10) w -> split_lines w = [w].
Proof.
  induction 1 as [|c w Hc _ IH]; [done|]. cbn [split_lines]. by rewrite (proj2 (Z.eqb_neq _ _) Hc), IH.
Qed.

Lemma split_join_lines ids : ids <> [] -> Forall (Forall (fun c => c <> 10)) ids -> split_lines (join_lines ids) = ids.
Proof.
  intros Hne Hall. induction Hall as [|w ids Hw Hall IH]; [done|]. destruct ids as [|v ids]; [by apply split_last|].
  change (join_lines (w :: v :: ids)) with (w ++ 10 :: join_lines (v :: ids)). by rewrite split_word, IH.
Qed.

Lemma hex_decode_digits : forall s l, hex_decode s = Some l -> Forall (fun c => is_Some (hex_value c)) s.
Proof.
  intros s. induction s as [| |a b s IH] using pair_ind; intros l; cbn [hex_decode]; [constructor|done|].
  destruct (hex_value a) eqn:Ea, (hex_value b) eqn:Eb, (hex_decode s) eqn:Es; try done. intros _.
  constructor; [by rewrite Ea|]. constructor; [by rewrite Eb|]. by eapply IH.
Qed.

Lemma action_id_line id h : parseActionHash id = Some h -> Forall (fun c => c <> 10) id.
Proof.
  unfold parseActionHash. case_match; [done|]. destruct (hex_decode id) eqn:E; [|done]. intros _.
  eapply Forall_impl; [eapply hex_decode_digits; exact E|]. intros c [v Hv] ->. done.
Qed.

Definition is_action_id (id : bytes) : Prop := is_Some (parseActionHash id).

Lemma manifestKeys_body ids self : Forall is_action_id ids -> self ∉ ids -> manifestKeys (manifestBody ids) self = ids.
Proof.
  intros Hids Hself. unfold manifestKeys, manifestBody.
  destruct (decide (ids = [])) as [->|Hne]; [done|]. rewrite split_join_lines; [|done|eapply Forall_impl; [exact Hids|]; intros ? [h Hh]; by eapply action_id_line].
  clear Hne. induction Hids as [|id ids [h Hh] _ IH]; [done|]. rewrite not_elem_of_cons in Hself. destruct Hself as [Hne Hself].
  cbn [List.filter]. rewrite Hh, IH by done. destruct (bytes_eqb id self) eqn:E; [|done]. apply bytes_eqb_eq in E. by subst.
Qed.

(** ** The search *)

Lemma double_gen_spec limit known fuel : forall low high, known low = true -> 0 <= low < high -> low < limit -> limit <= high * 2 ^ Z.of_nat fuel ->
  let '(l, h) := double_gen fuel limit known low high in known l = true /\ 0 <= l < h /\ l < limit /\ (limit <= h \/ known h = false).
Proof.
  induction fuel as [|fuel IH]; intros low high Hl Hlt Hlim Hf; cbn [double_gen].
  - rewrite Z.pow_0_r, Z.mul_1_r in Hf. split_and!; try done; try lia.
  - destruct (Z.ltb_spec high limit); cbn [andb]; [|split_and!; try done; lia].
    destruct (known high) eqn:Ek; [|split_and!; try done; try lia; by right].
    specialize (IH high (high * 2) Ek). destruct (double_gen fuel limit known high (high * 2)) as [l h].
    rewrite Nat2Z.inj_succ, Z.pow_succ_r in Hf by lia. apply IH; lia.
Qed.

Lemma halve_gen_spec limit known fuel : forall low high, known low = true -> 0 <= low < high -> high <= limit -> (high = limit \/ known high = false) ->
  high - low <= 2 ^ Z.of_nat fuel ->
  let r := halve_gen fuel known low high in known r = true /\ 0 <= r < limit /\ (r + 1 = limit \/ known (r + 1) = false).
Proof.
  induction fuel as [|fuel IH]; intros low high Hl Hlt Hlim Hh Hf; cbn [halve_gen].
  - rewrite Z.pow_0_r in Hf. assert (high = low + 1) as -> by lia. split_and!; try done; lia.
  - rewrite Nat2Z.inj_succ, Z.pow_succ_r in Hf by lia. destruct (Z.ltb_spec 1 (high - low)) as [Hgap|Hgap].
    + assert (Hmid : low < (low + high) / 2 < high /\ high - (low + high) / 2 <= 2 ^ Z.of_nat fuel /\ (low + high) / 2 - low <= 2 ^ Z.of_nat fuel).
      { pose proof (Z.div_mod (low + high) 2 ltac:(lia)). pose proof (Z.mod_pos_bound (low + high) 2 ltac:(lia)). lia. }
      destruct (known ((low + high) / 2)) eqn:Ek; apply IH; try done; try lia. by right.
    + assert (high = low + 1) as -> by lia. split_and!; try done; lia.
Qed.

Lemma search_gen_spec limit known : 0 < limit ->
  let r := search_gen limit known in
  (r = -1 /\ known 0 = false) \/ (known r = true /\ 0 <= r < limit /\ (r + 1 = limit \/ known (r + 1) = false)).
Proof.
  intros Hlim. unfold search_gen. destruct (known 0) eqn:E0; cbn [negb]; [|by left]. right. set (k := Z.to_nat (Z.log2_up limit)).
  assert (Hpow : limit <= 2 ^ Z.of_nat k).
  { subst k. rewrite Z2Nat.id by apply Z.log2_up_nonneg. destruct (decide (limit = 1)) as [->|Hne]; [done|]. apply Z.log2_up_spec. lia. }
  pose proof (double_gen_spec limit known (k + 1) 0 1 E0) as Hd. destruct (double_gen (k + 1) limit known 0 1) as [l h].
  assert (Hpow1 : 2 ^ Z.of_nat (k + 1) = 2 * 2 ^ Z.of_nat k) by (rewrite Nat.add_1_r, Nat2Z.inj_succ, Z.pow_succ_r; lia).
  destruct Hd as (Hk & Hlt & Hll & Hst); [lia|lia|lia|].
  apply (halve_gen_spec limit); [done|lia|lia| |lia]. destruct (Z.min_spec h limit) as [[? ->]|[? ->]]; [|by left]. right. destruct Hst; [lia|done].
Qed.

Lemma newest_from_spec known n : forall gen newest, newest = gen - 1 ->
  let r := newest_from n gen newest known in
  gen - 1 <= r < gen + Z.of_nat n /\ (forall g, gen <= g <= r -> known g = true) /\ (r + 1 = gen + Z.of_nat n \/ known (r + 1) = false).
Proof.
  induction n as [|n IH]; intros gen newest ->; cbn [newest_from]; [split_and!; [lia|lia|intros; lia|left; lia]|].
  destruct (known gen) eqn:Ek.
  - destruct (IH (gen + 1) gen) as (H1 & H2 & H3); [lia|]. split_and!; [lia|lia| |destruct H3; [left; lia|by right]].
    intros g Hg. destruct (decide (g = gen)) as [->|Hne]; [done|]. apply H2. lia.
  - replace (gen - 1 + 1) with gen by lia. split_and!; [lia|lia|intros; lia|by right].
Qed.

(** A gap-free sequence of generations: exactly the first [n] exist. *)
Definition first_gens (known : Z -> bool) (limit n : Z) : Prop := forall g, 0 <= g < limit -> known g = (g <? n).

Lemma search_linear limit known n : 0 < limit -> 0 <= n <= limit -> first_gens known limit n -> search_gen limit known = n - 1.
Proof.
  intros Hlim Hn Hk. destruct (search_gen_spec limit known Hlim) as [[-> H0]|(H1 & H2 & H3)].
  - rewrite Hk in H0 by lia. apply Z.ltb_ge in H0. lia.
  - rewrite Hk in H1 by lia. apply Z.ltb_lt in H1. destruct H3 as [H3|H3]; [lia|]. destruct (decide (search_gen limit known + 1 = limit)); [lia|].
    rewrite Hk in H3 by lia. apply Z.ltb_ge in H3. lia.
Qed.

Lemma newest_linear known limit n : 0 <= n <= Z.of_nat limit -> (forall g, 0 <= g < n -> known g = true) ->
  (n < Z.of_nat limit -> known n = false) -> newest_from limit 0 (-1) known = n - 1.
Proof.
  intros Hn Hk Hstop. destruct (newest_from_spec known limit 0 (-1) eq_refl) as (H1 & H2 & H3). set (r := newest_from limit 0 (-1) known) in *.
  assert (Hle : r <= n - 1).
  { destruct (decide (n <= r)); [|lia]. specialize (H2 n ltac:(lia)). rewrite Hstop in H2 by lia. done. }
  destruct (decide (r = n - 1)) as [|Hne]; [done|]. destruct H3 as [H3|H3]; [lia|]. rewrite Hk in H3 by lia. done.
Qed.

(** The search of the module fallback, which doubles and then halves,
    answers a generation the index holds whose successor it does not hold (or
    whose successor would be past the cap); where the generations have no gap it
    is the newest one, as a linear walk would find. *)
Theorem fallback_search known base_ :
  let '(gen, ok) := newestFallbackGen true known base_ in
  let has g := known (manifestGenID base_ g) in
  ok = true /\
  ((gen = -1 /\ has 0 = false) \/
   (has gen = true /\ 0 <= gen < manifestFallbackGenerations /\ (gen + 1 = manifestFallbackGenerations \/ has (gen + 1) = false))) /\
  (forall n, (n <= Z.to_nat manifestFallbackGenerations)%nat -> first_gens has manifestFallbackGenerations (Z.of_nat n) ->
    gen = newest_from (Z.to_nat manifestFallbackGenerations) 0 (-1) has).
Proof.
  cbn [newestFallbackGen negb]. set (has := fun g => known (manifestGenID base_ g)). split; [done|]. split; [by apply search_gen_spec|].
  intros n Hn Hk. rewrite (search_linear _ _ (Z.of_nat n)); [|done|unfold manifestFallbackGenerations in *; lia|done].
  symmetry. apply newest_linear; [unfold manifestFallbackGenerations in *; lia| |].
  - intros g Hg. rewrite Hk by (unfold manifestFallbackGenerations in *; lia). apply Z.ltb_lt. lia.
  - intros Hlt. rewrite Hk by (rewrite Z2Nat.id in Hlt by done; lia). apply Z.ltb_irrefl.
Qed.

(** ** Drift *)

(** How many keys are in exactly one of the two lists. *)
Definition differ (named used : list bytes) : nat :=
  length (filter (fun id => id ∉ used) (remove_dups named)) + length (filter (fun id => id ∉ named) (remove_dups used)).

Lemma filter_complement {A} (P Q : A -> Prop) `{!forall x, Decision (P x)} `{!forall x, Decision (Q x)} (l : list A) :
  (forall x, Q x <-> ~ P x) -> (length (filter P l) + length (filter Q l) = length l)%nat.
Proof. intros Hq. induction l as [|x l IH]; [done|]. rewrite !filter_cons. specialize (Hq x). repeat case_decide; cbn [length]; first [lia|tauto]. Qed.

Section drift.
Context {St : Type} `{!SetOps St bytes} `{!SetLaws St bytes}.
Set Default Proof Using "Type*".

Lemma values_add x (s : St) : s_contains s x = false -> s_values (s_add x s) ≡ₚ x :: s_values s.
Proof.
  intros Hx. apply NoDup_Permutation; [apply values_nodup| |].
  - constructor; [|apply values_nodup]. rewrite elem_of_values, Hx. done.
  - intros y. rewrite elem_of_cons, !elem_of_values, contains_add. destruct (bool_decide_reflect (y = x)); cbn [orb]; intuition.
Qed.

Lemma values_list l : s_values (s_add_all l (s_new : St)) ≡ₚ remove_dups l.
Proof. apply NoDup_Permutation; [apply values_nodup|apply NoDup_remove_dups|]. intros y. by rewrite elem_of_values, contains_list, elem_of_remove_dups. Qed.

Lemma common_keys_spec (used : St) named : forall (s : St) common,
  common = Z.of_nat (length (filter (fun id => s_contains used id = true) (s_values s))) ->
  let '(s', common') := common_keys named used s common in
  (forall y, s_contains s' y = bool_decide (y ∈ named) || s_contains s y) /\
  common' = Z.of_nat (length (filter (fun id => s_contains used id = true) (s_values s'))).
Proof.
  induction named as [|id named IH]; intros s common Hc; cbn [common_keys].
  - split; [|done]. intros y. rewrite bool_decide_false by apply not_elem_of_nil. done.
  - destruct (s_contains s id) eqn:Eid.
    + specialize (IH s common Hc). destruct (common_keys named used s common) as [s' c']. destruct IH as [H1 H2]. split; [|done].
      intros y. rewrite H1. destruct (decide (y = id)) as [->|Hne]; [by rewrite Eid, !orb_true_r|]. f_equal. apply bool_decide_ext. rewrite elem_of_cons. intuition.
    + specialize (IH (s_add id s) (if s_contains used id then common + 1 else common)).
      destruct (common_keys named used (s_add id s) _) as [s' c']. destruct IH as [H1 H2].
      * rewrite (values_add id s Eid), filter_cons. destruct (s_contains used id); case_decide; try done; cbn [length]; lia.
      * split; [|done]. intros y. rewrite H1, contains_add, orb_assoc. f_equal. rewrite <- bool_decide_or. apply bool_decide_ext. rewrite elem_of_cons. tauto.
Qed.

Lemma drift_exact named used :
  manifestDrifted (St := St) named used = (Z.of_nat (length (remove_dups used)) * manifestDrift <? Z.of_nat (differ named used) * 100).
Proof.
  unfold manifestDrifted. set (U := s_add_all used (s_new : St)).
  pose proof (common_keys_spec U named s_new 0) as Hc. destruct (common_keys named U s_new 0) as [N c].
  assert (Hnil : s_values (s_new : St) = []).
  { destruct (s_values (s_new : St)) as [|y l] eqn:E; [done|]. assert (s_contains (s_new : St) y = true) by (apply elem_of_values; rewrite E; by left). by rewrite contains_new in *. }
  destruct Hc as [HN ->]; [by rewrite Hnil|].
  assert (HNv : s_values N ≡ₚ remove_dups named).
  { apply NoDup_Permutation; [apply values_nodup|apply NoDup_remove_dups|]. intros y.
    rewrite elem_of_values, HN, contains_new, orb_false_r, bool_decide_eq_true, elem_of_remove_dups. done. }
  assert (HU : forall y, s_contains U y = true <-> y ∈ used) by (intros y; apply contains_list).
  assert (HUv : s_values U ≡ₚ remove_dups used) by apply values_list. rewrite !len_values, HUv, HNv.
  assert (Hin : filter (fun id => s_contains U id = true) (remove_dups named) ≡ₚ filter (fun id => id ∈ named) (remove_dups used)).
  { apply NoDup_Permutation; [apply list.NoDup_filter, NoDup_remove_dups..|]. intros y. rewrite !list_elem_of_filter, !elem_of_remove_dups, HU. tauto. }
  pose proof (filter_complement (fun id => s_contains U id = true) (fun id => id ∉ used) (remove_dups named)) as H1.
  pose proof (filter_complement (fun id => id ∈ named) (fun id => id ∉ named) (remove_dups used)) as H2.
  specialize (H1 ltac:(intros x; by rewrite HU)). specialize (H2 ltac:(done)).
  rewrite Hin in H1. rewrite Hin. unfold differ. f_equal. lia.
Qed.

Lemma drift_self used : manifestDrifted (St := St) used used = false.
Proof.
  rewrite drift_exact. apply Z.ltb_ge. assert (Hz : differ used used = 0%nat); [|rewrite Hz; unfold manifestDrift; lia].
  unfold differ. assert (Hf : filter (fun id => id ∉ used) (remove_dups used) = []).
  { destruct (filter (fun id => id ∉ used) (remove_dups used)) as [|x l] eqn:E; [done|].
    assert (Hx : x ∈ filter (fun id => id ∉ used) (remove_dups used)) by (rewrite E; by left).
    rewrite list_elem_of_filter, elem_of_remove_dups in Hx. tauto. }
  by rewrite Hf.
Qed.

(** ** What a build notes *)

(** The keys of [l] in the order of their first use. *)
Fixpoint first_uses (seen l : list bytes) : list bytes :=
  match l with
  | [] => []
  | x :: l' => if bool_decide (x ∈ seen) then first_uses seen l' else x :: first_uses (x :: seen) l'
  end.

Definition notes (lookups : list bytes) : @buildManifest St := foldl (fun m id => note id m) newBuildManifest lookups.

Lemma first_uses_seen l : forall seen seen', (forall x, x ∈ seen <-> x ∈ seen') -> first_uses seen l = first_uses seen' l.
Proof using Type.
  induction l as [|x l IH]; intros seen seen' Hs; [done|]. cbn [first_uses]. rewrite (bool_decide_ext _ _ (Hs x)).
  case_match; [by apply IH|]. f_equal. apply IH. intros y. rewrite !elem_of_cons, Hs. done.
Qed.

Lemma notes_from l : forall m : @buildManifest St, s_values (bm_used m) ≡ₚ bm_order m -> (length (bm_order m) <= manifestMaxKeys)%nat ->
  bm_order (foldl (fun m id => note id m) m l) = bm_order m ++ take (manifestMaxKeys - length (bm_order m)) (first_uses (bm_order m) l).
Proof.
  induction l as [|x l IH]; intros m Hv Hlen; cbn [foldl first_uses]; [by rewrite take_nil, app_nil_r|].
  assert (Hin : bool_decide (x ∈ bm_order m) = s_contains (bm_used m) x).
  { pose proof (elem_of_values (bm_used m) x) as He. rewrite Hv in He.
    destruct (s_contains (bm_used m) x); [apply bool_decide_eq_true|apply bool_decide_eq_false]; intuition congruence. }
  assert (Hl : s_len (bm_used m) = length (bm_order m)) by (by rewrite len_values, Hv).
  rewrite Hin. unfold note at 2. rewrite Hl. destruct (s_contains (bm_used m) x) eqn:Ec; cbn [negb]; rewrite ?andb_false_r, ?andb_true_r; [by apply IH|].
  destruct (Nat.ltb_spec (length (bm_order m)) manifestMaxKeys) as [Hlt|Hge].
  - rewrite IH; cbn [bm_order bm_used].
    + rewrite <- app_assoc. f_equal. rewrite length_app. cbn [length]. destruct (manifestMaxKeys - length (bm_order m))%nat as [|k] eqn:Ek; [lia|].
      replace (manifestMaxKeys - (length (bm_order m) + 1))%nat with k by lia. cbn [take app]. f_equal. f_equal.
      apply first_uses_seen. intros y. rewrite elem_of_app, !elem_of_cons, elem_of_nil. tauto.
    + rewrite (values_add _ _ Ec), Hv. apply Permutation_cons_append.
    + rewrite length_app. cbn [length]. lia.
  - rewrite IH by done. replace (manifestMaxKeys - length (bm_order m))%nat with 0%nat by lia. done.
Qed.

Lemma notes_order lookups : bm_order (notes lookups) = take manifestMaxKeys (first_uses [] lookups).
Proof.
  unfold notes. rewrite notes_from; [by rewrite Nat.sub_0_r| |cbn; lia]. cbn [bm_used bm_order newBuildManifest].
  apply NoDup_Permutation; [apply values_nodup|constructor|]. intros y. rewrite elem_of_values, contains_new. split; [done|]. intros Hy. by apply not_elem_of_nil in Hy.
Qed.

Lemma elem_of_first_uses x l : forall seen, x ∈ first_uses seen l -> x ∈ l.
Proof using Type.
  induction l as [|y l IH]; intros seen; cbn [first_uses]; [done|]. rewrite elem_of_cons. case_match; [intros H'; right; by eapply IH|].
  rewrite elem_of_cons. intros [->|Hx]; [by left|right; by eapply IH].
Qed.

(** ** From build to build

    The manifests of one base name over a history of builds: each walks the
    generations, uses what it uses, and stores a new generation or none.  In
    between anything else may be uploaded under other names: objects, fallbacks,
    manifests of other commands. *)

Definition generations (base_ : bytes) : list bytes := map (fun g => manifestGenID base_ (Z.of_nat g)) (seq 0 manifestGenerations).

Inductive event := EvBuild (lookups : list bytes) | EvOther (id body : bytes).

Definition holds (sv : gmap bytes bytes) (id : bytes) : bool := bool_decide (is_Some (sv !! id)).

Definition walk (base_ : bytes) (sv : gmap bytes bytes) : Z * list bytes := walkManifest true (holds sv) (fun id => sv !! id) base_.

Definition serve (base_ : bytes) (sv : gmap bytes bytes) (e : event) : gmap bytes bytes :=
  match e with
  | EvOther id body => <[id := body]> sv
  | EvBuild lookups =>
      let '(newest, named) := walk base_ sv in
      match ownManifestToStore (St := St) (Some base_) (bm_order (notes lookups)) newest named with
      | (Some target, Some body) => <[target := body]> sv
      | _ => sv
      end
  end.

(** What the manifest of a build names: its first uses, less the manifest itself. *)
Definition used_keys (base_ : bytes) (lookups : list bytes) : list bytes :=
  List.filter (fun id => negb (bytes_eqb id base_)) (take manifestMaxKeys (first_uses [] lookups)).

Definition elsewhere (base_ : bytes) (e : event) : Prop := match e with EvOther id _ => id ∉ generations base_ | EvBuild _ => True end.

(** Exactly the first [n] generations are stored, as far as names tell them apart. *)
Record gens_in (base_ : bytes) (sv : gmap bytes bytes) (n : Z) : Prop := {
  gi_range : 0 <= n <= Z.of_nat manifestGenerations;
  gi_held : forall g, 0 <= g < n -> holds sv (manifestGenID base_ g) = true;
  gi_only : forall g, 0 <= g < Z.of_nat manifestGenerations -> holds sv (manifestGenID base_ g) = true ->
    exists g', 0 <= g' < n /\ manifestGenID base_ g = manifestGenID base_ g'
}.

Lemma gen_listed base_ g : 0 <= g < Z.of_nat manifestGenerations -> generations base_ !! Z.to_nat g = Some (manifestGenID base_ g).
Proof using Type.
  intros Hg. unfold generations. rewrite list_lookup_fmap, lookup_seq_lt by lia. cbn. by rewrite Z2Nat.id by lia.
Qed.

Lemma gen_inj base_ k g g' : NoDup (take k (generations base_)) -> 0 <= g < Z.of_nat manifestGenerations -> 0 <= g' < Z.of_nat manifestGenerations ->
  g < Z.of_nat k -> g' < Z.of_nat k -> manifestGenID base_ g = manifestGenID base_ g' -> g = g'.
Proof using Type.
  intros Hnd Hg Hg' Hk Hk' He. assert (Hl : Z.to_nat g = Z.to_nat g'); [|lia].
  eapply NoDup_lookup; [exact Hnd|rewrite lookup_take_lt by lia; exact (gen_listed _ _ Hg)|rewrite lookup_take_lt by lia; rewrite He; exact (gen_listed _ _ Hg')].
Qed.

Lemma gens_stop base_ sv n k : gens_in base_ sv n -> NoDup (take k (generations base_)) -> n < Z.of_nat k -> n < Z.of_nat manifestGenerations ->
  holds sv (manifestGenID base_ n) = false.
Proof using Type.
  intros Hg Hnd Hk Hlt. destruct (holds sv (manifestGenID base_ n)) eqn:E; [|done]. pose proof (gi_range _ _ _ Hg).
  destruct (gi_only _ _ _ Hg n ltac:(lia) E) as (g' & Hg' & He). pose proof (gen_inj base_ k n g' Hnd ltac:(lia) ltac:(lia) Hk ltac:(lia) He). lia.
Qed.

Lemma holds_insert sv id body id' : holds (<[id := body]> sv) id' = bool_decide (id' = id) || holds sv id'.
Proof using Type.
  unfold holds. destruct (decide (id' = id)) as [->|Hne]; [by rewrite lookup_insert_eq, !bool_decide_true by eauto|].
  by rewrite lookup_insert_ne, (bool_decide_false (id' = id)) by done.
Qed.

Lemma walk_gens base_ sv n k : gens_in base_ sv n -> NoDup (take k (generations base_)) -> n < Z.of_nat k ->
  walk base_ sv = (n - 1, match sv !! manifestGenID base_ (n - 1) with Some data => if 0 <? n then manifestKeys data base_ else [] | None => [] end).
Proof using Type.
  intros Hg Hnd Hk. unfold walk, walkManifest, newestKnownGen. cbn [negb].
  rewrite (newest_linear _ _ n); [|exact (gi_range _ _ _ Hg)|exact (gi_held _ _ _ Hg)|intros Hlt; by eapply gens_stop].
  destruct (Z.leb_spec 0 (n - 1)), (Z.ltb_spec 0 n); try lia; case_match; done.
Qed.

Lemma gens_next base_ sv n body : gens_in base_ sv n -> n < Z.of_nat manifestGenerations ->
  gens_in base_ (<[manifestGenID base_ n := body]> sv) (n + 1).
Proof using Type.
  intros [Hn Hh Ho] Hlt. constructor; [lia| |].
  - intros g Hg. rewrite holds_insert. destruct (decide (g = n)) as [->|Hne]; [by rewrite bool_decide_true|]. rewrite Hh by lia. apply orb_true_r.
  - intros g Hg. rewrite holds_insert. destruct (bool_decide_reflect (manifestGenID base_ g = manifestGenID base_ n)) as [He|_]; cbn [orb].
    + intros _. exists n. split; [lia|done].
    + intros Hin. destruct (Ho g Hg Hin) as (g' & ? & ?). exists g'. split; [lia|done].
Qed.

Lemma gens_other base_ sv n id body : id ∉ generations base_ -> gens_in base_ sv n -> gens_in base_ (<[id := body]> sv) n.
Proof using Type.
  intros Hid [Hn Hh Ho].
  assert (Hsame : forall g, 0 <= g < Z.of_nat manifestGenerations -> holds (<[id := body]> sv) (manifestGenID base_ g) = holds sv (manifestGenID base_ g)).
  { intros g Hg. rewrite holds_insert, bool_decide_false; [done|]. intros <-. apply Hid. eapply list_elem_of_lookup_2. by apply gen_listed. }
  constructor; [done|intros g Hg; rewrite Hsame by lia; by apply Hh|intros g Hg; rewrite Hsame by lia; by apply Ho].
Qed.

(** A build stores the generation after the newest, or stores none because the
    newest still fits or because there is no later generation. *)
Lemma build_stores base_ sv n k lookups : gens_in base_ sv n -> NoDup (take k (generations base_)) -> n < Z.of_nat k -> used_keys base_ lookups <> [] ->
  let named := (walk base_ sv).2 in
  (0 < n /\ serve base_ sv (EvBuild lookups) = sv /\ (manifestDrifted (St := St) named (used_keys base_ lookups) = false \/ n = Z.of_nat manifestGenerations)) \/
  (n < Z.of_nat manifestGenerations /\ serve base_ sv (EvBuild lookups) = <[manifestGenID base_ n := manifestBody (used_keys base_ lookups)]> sv).
Proof.
  intros Hg Hnd Hk Hne. cbn [serve]. rewrite (walk_gens _ _ _ _ Hg Hnd Hk). cbn [snd]. set (named := match sv !! _ with Some _ => _ | None => _ end).
  unfold ownManifestToStore. rewrite notes_order. fold (used_keys base_ lookups). destruct (used_keys base_ lookups) as [|u us] eqn:Eu; [done|].
  rewrite <- Eu. destruct Hg as [Hn _ _]. destruct (Z.leb_spec 0 (n - 1)) as [Hpos|Hneg]; cbn [andb].
  - destruct (manifestDrifted named (used_keys base_ lookups)) eqn:Ed; cbn [negb].
    + replace (n - 1 + 1) with n by lia. destruct (Z.leb_spec (Z.of_nat manifestGenerations) n); [left; split_and!; [lia|done|right; lia]|right; split; [lia|done]].
    + left. split_and!; [lia|done|by left].
  - destruct (Z.leb_spec (Z.of_nat manifestGenerations) 0); [by unfold manifestGenerations in *; lia|]. right. assert (n = 0) as -> by lia. split; [lia|done].
Qed.

Lemma serve_gens base_ sv n k e : NoDup (take k (generations base_)) -> n < Z.of_nat k -> elsewhere base_ e -> gens_in base_ sv n ->
  exists n', n' <= n + 1 /\ gens_in base_ (serve base_ sv e) n'.
Proof.
  intros Hnd Hk He Hg. destruct e as [lookups|id body]; [|exists n; split; [lia|by apply gens_other]].
  destruct (decide (used_keys base_ lookups = [])) as [Hnil|Hne].
  - exists n. split; [lia|]. cbn [serve]. destruct (walk base_ sv) as [newest named]. unfold ownManifestToStore. rewrite notes_order. fold (used_keys base_ lookups). by rewrite Hnil.
  - destruct (build_stores base_ sv n k lookups Hg Hnd Hk Hne) as [(_ & -> & _)|[Hlt ->]]; [exists n; split; [lia|done]|]. exists (n + 1). split; [lia|]. by apply gens_next.
Qed.

Lemma history_gens base_ k history : NoDup (take k (generations base_)) -> (length history < k)%nat -> Forall (elsewhere base_) history ->
  exists n, n <= Z.of_nat (length history) /\ gens_in base_ (foldl (serve base_) ∅ history) n.
Proof.
  intros Hnd. induction history as [|e history IH] using rev_ind; intros Hk He.
  - exists 0. split; [done|]. constructor; [done|lia|]. intros g Hg. cbn [foldl]. unfold holds. rewrite lookup_empty, bool_decide_false by (by intros [? ?]). done.
  - rewrite length_app in *. cbn [length] in *. apply Forall_app in He as [He1 He2]. destruct (IH ltac:(lia) He1) as (n & Hle & Hn).
    rewrite foldl_app. cbn [foldl]. inversion He2; subst. destruct (serve_gens base_ _ n k e Hnd ltac:(lia) ltac:(done) Hn) as (n' & ? & ?). exists n'. split; [lia|done].
Qed.

(** Reading each generation over the wire finds what an authoritative index names. *)
Lemma read_linear base_ sv n k : gens_in base_ sv n -> NoDup (take k (generations base_)) -> n < Z.of_nat k -> walkManifest false (holds sv) (fun id => sv !! id) base_ = walk base_ sv.
Proof using Type.
  intros Hg Hnd Hnk. rewrite (walk_gens _ _ _ _ Hg Hnd Hnk). unfold walkManifest, newestKnownGen. cbn [negb]. pose proof (gi_range _ _ _ Hg) as Hn.
  assert (Hstep : forall j gen acc, gen + Z.of_nat j = Z.of_nat manifestGenerations -> 0 <= gen <= n ->
    acc = (gen - 1, match sv !! manifestGenID base_ (gen - 1) with Some data => if 0 <? gen then manifestKeys data base_ else [] | None => [] end) ->
    read_from j gen acc base_ (fun id => sv !! id) =
    (n - 1, match sv !! manifestGenID base_ (n - 1) with Some data => if 0 <? n then manifestKeys data base_ else [] | None => [] end)).
  { induction j as [|j IH]; intros gen acc Hj Hgen ->; cbn [read_from]; [by replace gen with n by lia|].
    destruct (decide (gen < n)) as [Hlt|Hge].
    - pose proof (gi_held _ _ _ Hg gen ltac:(lia)) as Hh. unfold holds in Hh. apply bool_decide_eq_true in Hh as [data Ed]. rewrite Ed. apply IH; [lia|lia|].
      replace (gen + 1 - 1) with gen by lia. rewrite Ed. by rewrite (proj2 (Z.ltb_lt 0 (gen + 1))) by lia.
    - replace gen with n by lia. pose proof (gens_stop _ _ _ _ Hg Hnd Hnk ltac:(lia)) as Hh. unfold holds in Hh. apply bool_decide_eq_false in Hh.
      destruct (sv !! manifestGenID base_ n) eqn:Ed; [destruct Hh; eauto|done]. }
  apply Hstep; [lia|lia|]. by destruct (sv !! manifestGenID base_ (0 - 1)).
Qed.

Lemma used_keys_ids base_ lookups : Forall is_action_id lookups -> Forall is_action_id (used_keys base_ lookups) /\ base_ ∉ used_keys base_ lookups.
Proof using Type.
  intros Hall. split.
  - apply Forall_forall. intros x Hx. unfold used_keys in Hx. apply list_elem_of_In, List.filter_In in Hx as [Hx _]. apply list_elem_of_In in Hx.
    eapply (proj1 (Forall_forall _ _) Hall). eapply elem_of_first_uses. by eapply elem_of_take in Hx as (? & ? & _); eapply list_elem_of_lookup_2.
  - intros Hx. apply list_elem_of_In, List.filter_In in Hx as [_ Hx]. by rewrite bytes_eqb_refl in Hx.
Qed.

(** C27. The manifest a build leaves fits the next one.  The builds of a module
    run one after the other, each reading the manifests before it uploads its own
    and every upload arriving; what a build used is the first [manifestMaxKeys]
    action IDs it looked up, without the manifest's own.  After any history of
    builds and other uploads, a build that used some key leaves a newest
    generation, found alike by index and by reading one generation after another,
    that names what the build used, missing and superfluous keys together at most
    a tenth of it; unless all generations are taken.  The names of the first
    generations must not collide, with each other or with those of the other
    uploads. *)
Theorem manifest_fits_next_build base_ history lookups :
  NoDup (take (length history + 2) (generations base_)) -> Forall (elsewhere base_) history -> Forall is_action_id lookups -> used_keys base_ lookups <> [] ->
  let sv := foldl (serve base_) ∅ (history ++ [EvBuild lookups]) in
  let '(newest, named) := walk base_ sv in
  0 <= newest /\ walkManifest false (holds sv) (fun id => sv !! id) base_ = (newest, named) /\
  (Z.of_nat (differ named (used_keys base_ lookups)) * 100 <= Z.of_nat (length (remove_dups (used_keys base_ lookups))) * manifestDrift \/
   newest = Z.of_nat manifestGenerations - 1).
Proof.
  intros Hnd He Hids Hne sv. destruct (history_gens base_ _ history Hnd ltac:(lia) He) as (n & Hle & Hn). destruct (used_keys_ids base_ lookups Hids) as [Hu Hself].
  set (sv0 := foldl (serve base_) ∅ history) in *. assert (Hsv : sv = serve base_ sv0 (EvBuild lookups)) by (unfold sv, sv0; by rewrite foldl_app).
  assert (Hfit : forall named, manifestDrifted (St := St) named (used_keys base_ lookups) = false ->
    Z.of_nat (differ named (used_keys base_ lookups)) * 100 <= Z.of_nat (length (remove_dups (used_keys base_ lookups))) * manifestDrift).
  { intros named Hd. rewrite drift_exact in Hd. by apply Z.ltb_ge in Hd. }
  assert (Hk : n < Z.of_nat (length history + 2)) by lia.
  destruct (build_stores base_ sv0 n _ lookups Hn Hnd Hk Hne) as [(Hpos & Hst & Hd)|[Hlt Hst]]; rewrite Hst in Hsv.
  - rewrite Hsv, (read_linear _ _ _ _ Hn Hnd Hk). pose proof (walk_gens _ _ _ _ Hn Hnd Hk) as Hw. rewrite Hw in Hd |- *. cbn [snd] in Hd.
    split_and!; [lia|done|]. destruct Hd as [Hd| ->]; [left; by apply Hfit|by right].
  - pose proof (gens_next base_ sv0 n (manifestBody (used_keys base_ lookups)) Hn Hlt) as Hn1. rewrite <- Hsv in Hn1.
    assert (Hk1 : n + 1 < Z.of_nat (length history + 2)) by lia.
    rewrite (read_linear _ _ _ _ Hn1 Hnd Hk1), (walk_gens _ _ _ _ Hn1 Hnd Hk1). replace (n + 1 - 1) with n by lia. rewrite Hsv, lookup_insert_eq.
    pose proof (gi_range _ _ _ Hn). rewrite (proj2 (Z.ltb_lt 0 (n + 1))) by lia. rewrite (manifestKeys_body _ _ Hu Hself).
    split_and!; [lia|done|]. left. apply Hfit, drift_self.
Qed.

End drift.

(** ** Concrete runs *)

Definition demoBase : bytes := manifestID (str "example.com/m") (str "go1.24") (str "linux/amd64").
Definition demoKeys : list bytes := [hex_encode [1; 2; 3; 4]; hex_encode [5; 6; 7; 8]; hex_encode [1; 2; 3; 4]].
Definition demoHistory : list event := [EvBuild [hex_encode [9; 9]]].

Example drift_bounds :
  manifestDrifted (St := gset bytes) (map (fun i => [i]) (seqZ 0 10)) (map (fun i => [i]) (seqZ 0 9)) = true /\
  manifestDrifted (St := gset bytes) (map (fun i => [i]) (seqZ 0 11)) (map (fun i => [i]) (seqZ 0 10)) = false.
Proof. split; vm_compute; reflexivity. Qed.

Lemma demo_gens : NoDup (take (length demoHistory + 2) (generations demoBase)).
Proof.
  unfold generations. rewrite firstn_map. change (take (length demoHistory + 2) (seq 0 manifestGenerations)) with (seq 0 3).
  apply (bool_decide_eq_true _). vm_compute. reflexivity.
Qed.

Lemma manifest_fits_next_build_witness :
  let sv := foldl (serve (St := gset bytes) demoBase) ∅ (demoHistory ++ [EvBuild demoKeys]) in
  used_keys demoBase demoKeys = [hex_encode [1; 2; 3; 4]; hex_encode [5; 6; 7; 8]] /\ 0 <= (walk demoBase sv).1.
Proof.
  intros sv. split; [vm_compute; reflexivity|].
  assert (He : Forall (elsewhere demoBase) demoHistory) by (repeat constructor).
  assert (Hi : Forall is_action_id demoKeys) by (apply Forall_forall; intros x Hx; apply (bool_decide_unpack (is_Some (parseActionHash x))); repeat (apply elem_of_cons in Hx as [->|Hx]; [vm_compute; exact I|]); by apply not_elem_of_nil in Hx).
  assert (Hu : used_keys demoBase demoKeys <> []) by (vm_compute; discriminate).
  generalize (manifest_fits_next_build (St := gset bytes) demoBase demoHistory demoKeys demo_gens He Hi Hu). cbv zeta. fold sv. clearbody sv.
  destruct (walk demoBase sv) as [newest named]. intros [Hw _]. exact Hw.
Defined.

(** Where a lookup claims an ID between the marking and the sending of its
    chunk, [send] leaves the ID out; the module fallback asks for the whole
    part all the same. *)
Definition fallback_asks (part : list bytes) (c : pendingChunk) (st : pendings) : option (list bytes * pendings) :=
  '(_, st) ← send c st; Some (part, st).

Example fallback_asks_twice :
  fst <$> AwaitPrefetch idA st_marked = Some None /\ fst <$> send demoChunk st_claimed = Some [idB] /\
  fst <$> fallback_asks [idA; idB] demoChunk st_claimed = Some [idA; idB].
Proof. split_and!; vm_compute; reflexivity. Qed.
