(* ===== verification/Tier.v ===== *)
(** * The shared store under the disk cache

    [cacheclient/storetier.go], [storetierhelp.go], [batch_prefetch.go] and the
    lookups of [web.go]: a lookup reads the disk, waits for a fetch of its object
    that is already on the wire, else asks the server in a batch, and writes what
    it gets to disk before it answers; bodies nobody asked for are written too.

    A lookup of the build is a small program whose position is a [lookupPc];
    lookups run beside one another, beside the batches, the look-ahead, the
    trim and other processes, so everything is a step of one relation.  The body
    of a batch is one step.  The gates that come into play are those of
    [WebGet.verify]; the disk is [DiskCache]; the waits are [PendingFetch]. *)

From Stdlib Require Import ZArith Lia List Bool String.
From stdpp Require Import base gmap list relations.
From S2P Require Import Prelude Strconv GoSet Keys Sha256 HashSet Archive ClientIndex DiskCache WebGet Upload PendingFetch Manifest.

(** ** Names *)

Definition decodeOutputID (text : bytes) : option bytes :=
  match hex_decode text with
  | None => None
  | Some raw => if (length raw =? HashSize)%nat then Some raw else None
  end.

Definition KeyPrefix (prefix : bytes) : bytes := prefix ++ str "v1".

Definition web_key (prefix actionID : bytes) : bytes := prefix ++ str "v1" ++ actionID.

Definition ActionIDFromKey (prefix key : bytes) : option bytes :=
  let prefix := KeyPrefix prefix in
  if negb (length key =? length prefix + 2 * HashSize)%nat || negb (bytes_eqb (take (length prefix) key) prefix) then None
  else
    let id := drop (length prefix) key in
    match parseActionHash id with Some _ => Some id | None => None end.

(** [GetTiered]'s second result. *)
Inductive tierName := TierDisk | TierShared.

(** Where a lookup is: before the first look at the disk, waiting for a fetch on
    the wire, past it, about to ask the store, in [getBatch], with the answer,
    writing the body, about to read it back, and done. *)
Inductive lookupPc :=
  | LkStart | LkWaits (fetch : nat) | LkAgain | LkAsk | LkAsked | LkAnswered (r : batchResp)
  | LkKeep (out data : bytes) | LkKept | LkDone (e : Entry) (tier : tierName) | LkMiss (tier : tierName).

Section tier.
Context {St Sh : Type} `{!SetOps St bytes} `{!SetLaws St bytes} `{!SetOps Sh bytes} `{!SetLaws Sh bytes} {Codec : ClientCodec}.
Context (prefix : bytes).
Set Default Proof Using "Type*".

(** The disk, the backend, its manifest and what it fetches ahead, the counters
    of the report; then the lookups under way, the requests the coalescer has
    collected, the surplus of batches, and what the populator has been handed. *)
Record storeTier := StoreTier {
  t_disk : DiskCache; t_store : @upState St Sh; t_seeds : list bytes; t_hold : prefetchBudget; t_manifest : @buildManifest St; t_pending : pendings;
  t_localHits : Z; t_localHitBytes : Z; t_localPuts : Z; t_localPutBytes : Z;
  t_lookups : gmap nat (bytes * lookupPc); t_queue : list (nat * batchReq); t_sinks : list prefetchSink; t_offered : list BatchEntry
}.

Definition set_disk (c : DiskCache) (t : storeTier) : storeTier :=
  StoreTier c (t_store t) (t_seeds t) (t_hold t) (t_manifest t) (t_pending t) (t_localHits t) (t_localHitBytes t) (t_localPuts t) (t_localPutBytes t)
    (t_lookups t) (t_queue t) (t_sinks t) (t_offered t).

(** The part of the backend a lookup works on, and putting it back. *)
Definition t_web (t : storeTier) : getState := GetState (us_index (t_store t)) (us_held (t_store t)) (t_seeds t) (t_hold t).

Definition set_store (u : @upState St Sh) (t : storeTier) : storeTier :=
  StoreTier (t_disk t) u (t_seeds t) (t_hold t) (t_manifest t) (t_pending t) (t_localHits t) (t_localHitBytes t) (t_localPuts t) (t_localPutBytes t)
    (t_lookups t) (t_queue t) (t_sinks t) (t_offered t).

Definition set_web (w : getState) (t : storeTier) : storeTier :=
  let u := t_store t in
  StoreTier (t_disk t)
    (UpState (gs_index w) (gs_held w) (us_pending u) (us_prep u) (us_queue u) (us_unsupported u) (us_failed u) (us_abandoned u)
      (us_accepted u) (us_answered u) (us_refused u) (us_gaveUp u) (us_handed u) (us_fails u))
    (gs_seeds w) (gs_hold w) (t_manifest t) (t_pending t) (t_localHits t) (t_localHitBytes t) (t_localPuts t) (t_localPutBytes t)
    (t_lookups t) (t_queue t) (t_sinks t) (t_offered t).

Definition set_noted (m : buildManifest) (p : pendings) (t : storeTier) : storeTier :=
  StoreTier (t_disk t) (t_store t) (t_seeds t) (t_hold t) m p (t_localHits t) (t_localHitBytes t) (t_localPuts t) (t_localPutBytes t)
    (t_lookups t) (t_queue t) (t_sinks t) (t_offered t).

Definition count_hit (n : Z) (t : storeTier) : storeTier :=
  StoreTier (t_disk t) (t_store t) (t_seeds t) (t_hold t) (t_manifest t) (t_pending t) (t_localHits t + 1) (t_localHitBytes t + n) (t_localPuts t) (t_localPutBytes t)
    (t_lookups t) (t_queue t) (t_sinks t) (t_offered t).

Definition count_put (n : Z) (t : storeTier) : storeTier :=
  StoreTier (t_disk t) (t_store t) (t_seeds t) (t_hold t) (t_manifest t) (t_pending t) (t_localHits t) (t_localHitBytes t) (t_localPuts t + 1) (t_localPutBytes t + n)
    (t_lookups t) (t_queue t) (t_sinks t) (t_offered t).

Definition set_lookups (ls : gmap nat (bytes * lookupPc)) (q : list (nat * batchReq)) (t : storeTier) : storeTier :=
  StoreTier (t_disk t) (t_store t) (t_seeds t) (t_hold t) (t_manifest t) (t_pending t) (t_localHits t) (t_localHitBytes t) (t_localPuts t) (t_localPutBytes t)
    ls q (t_sinks t) (t_offered t).

Definition set_surplus (sinks : list prefetchSink) (offered : list BatchEntry) (t : storeTier) : storeTier :=
  StoreTier (t_disk t) (t_store t) (t_seeds t) (t_hold t) (t_manifest t) (t_pending t) (t_localHits t) (t_localHitBytes t) (t_localPuts t) (t_localPutBytes t)
    (t_lookups t) (t_queue t) sinks offered.

Definition goto (n : nat) (id : bytes) (pc : lookupPc) (t : storeTier) : storeTier := set_lookups (<[n := (id, pc)]> (t_lookups t)) (t_queue t) t.

(** ** The operations *)

(** What [NoteUsed] tells the manifest; the judges it tells as well are [LookAhead.noteUsed] and [fb_noteLookup]. *)
Definition note_used (id : bytes) (t : storeTier) : storeTier := set_noted (note (hex_encode id) (t_manifest t)) (t_pending t) t.

(** A look at the disk that may answer: [GetTiered] makes it first, and again after a wait. *)
Definition disk_hit (v : bool) (env : getEnv) (now : Z) (id : bytes) (t : storeTier) : option Entry * storeTier :=
  match Get v env now id (t_disk t) with
  | (inl e, c) => (Some e, count_hit (e_Size e) (note_used id (set_disk c t)))
  | (inr _, c) => (None, set_disk c t)
  end.

(** The first look, and [AwaitPrefetch] after a miss. *)
Definition get_first (v : bool) (env : getEnv) (now : Z) (id : bytes) (t : storeTier) : option (lookupPc * storeTier) :=
  match disk_hit v env now id t with
  | (Some e, t) => Some (LkDone e TierDisk, t)
  | (None, t) =>
      '(waits, p) ← AwaitPrefetch (hex_encode id) (t_pending t);
      Some (match waits with Some f => LkWaits f | None => LkAsk end, set_noted (t_manifest t) p t)
  end.

Definition get_again (v : bool) (env : getEnv) (now : Z) (id : bytes) (t : storeTier) : lookupPc * storeTier :=
  match disk_hit v env now id t with
  | (Some e, t) => (LkDone e TierDisk, t)
  | (None, t) => (LkAsk, t)
  end.

(** [WebBackend.Get] up to [getBatch]: it notes the lookup and decides by the
    index; [reply] is the delta the index may fetch. *)
Definition get_ask (now : Z) (reply : indexReply) (n : nat) (id : bytes) (t : storeTier) : storeTier :=
  let actionID := hex_encode id in
  let t := set_noted (note actionID (t_manifest t)) (t_pending t) t in
  let '(r, ix) := route_get now reply actionID (gs_index (t_web t)) in
  let t := set_web (with_index (fun _ => ix) (t_web t)) t in
  match r, parseActionHash actionID with
  | (AskServer | ProbeServer), Some h =>
      set_lookups (<[n := (id, LkAsked)]> (t_lookups t)) (t_queue t ++ [(n, BatchReq actionID (web_key prefix actionID) h)]) t
  | _, _ => goto n id (LkMiss TierShared) t
  end.

Definition get_answer (r : batchResp) : lookupPc :=
  match r with
  | RMiss => LkMiss TierShared
  | RHit outputID data =>
      match decodeOutputID outputID with
      | None => LkMiss TierShared
      | Some out => LkKeep out data
      end
  end.

(** [keep]: every state of the disk another process can see, and the counters when it worked. *)
Definition keep (cenv : copyEnv) (genv : getEnv) (penv : entryEnv) (v : bool) (now wall : Z) (id out data : bytes) (t : storeTier) : storeTier :=
  let '(r, states) := KeepVerified cenv genv penv v now wall id out data (t_disk t) in
  let t := set_disk (final (t_disk t) states) t in
  match r with PutOk => count_put (Z.of_nat (length data)) t | _ => t end.

Definition get_back (v : bool) (env : getEnv) (now : Z) (id : bytes) (t : storeTier) : lookupPc * storeTier :=
  match Get v env now id (t_disk t) with
  | (inl e, c) => (LkDone e TierShared, set_disk c t)
  | (inr _, c) => (LkMiss TierShared, set_disk c t)
  end.

(** The answers of a batch reach the lookups that still wait for one. *)
Definition give_answers (batch : list (nat * batchReq)) (replies : list (nat * batchResp)) (ls : gmap nat (bytes * lookupPc)) : gmap nat (bytes * lookupPc) :=
  foldl (fun ls ir =>
    match batch !! ir.1 with
    | None => ls
    | Some (n, _) => match ls !! n with Some (id, LkAsked) => <[n := (id, LkAnswered ir.2)]> ls | _ => ls end
    end) ls replies.

(** The coalescer sends a batch, [sendBatch] answers it, and its surplus is handed on. *)
Definition run_batch (ord : gmap bytes nat -> list (bytes * nat)) (threshold : Z) (batch rest : list (nat * batchReq)) (reply : batchReply)
    (single : nat -> singleReply) (t : storeTier) : storeTier :=
  let '(replies, sink, w) := sendBatch ord threshold true (map snd batch) reply single (t_web t) in
  let t := set_lookups (give_answers batch replies (t_lookups t)) rest (set_web w t) in
  match ps_entries sink with [] => t | _ => set_surplus (t_sinks t ++ [sink]) (t_offered t) t end.

(** The entries [storePrefetched] keeps: those whose key names an action and whose body passes the gates. *)
Definition kept_entry (e : BatchEntry) : option bytes :=
  actionID ← ActionIDFromKey prefix (be_Key e);
  match verify actionID (be_OutputID e) (be_ActionID e) (be_Data e) (be_RawSize e) with inl _ => Some actionID | inr _ => None end.

(** [storePrefetched]: what it hands over, in chunks, and the held set. *)
Definition storePrefetched (entries : list BatchEntry) (w : @getState St Sh) : list (list BatchEntry) * @getState St Sh :=
  foldl (fun (acc : list (list BatchEntry) * @getState St Sh) e =>
    let (chunks, w) := acc in
    match kept_entry e with
    | None => (chunks, w)
    | Some actionID =>
        let w := match parseActionHash actionID with Some h => noteHeld h w | None => w end in
        (match last chunks with
         | Some c => if (length c <? lookAheadChunk)%nat then removelast chunks ++ [c ++ [e]] else chunks ++ [[e]]
         | None => [[e]]
         end, w)
    end) ([], w) entries.

(** One turn of the loop of [populate]: the action and the body it keeps, if it keeps one. *)
Definition populate_body (v : bool) (env : getEnv) (now : Z) (e : BatchEntry) (c : DiskCache) : option (bytes * bytes * bytes) * DiskCache :=
  match ActionIDFromKey prefix (be_Key e) with
  | None => (None, c)
  | Some actionID =>
      match hex_decode actionID with
      | None => (None, c)
      | Some id =>
          if negb (length id =? HashSize)%nat then (None, c)
          else match Get v env now id c with
               | (inl _, c) => (None, c)
               | (inr _, c) =>
                   match verify actionID (be_OutputID e) (be_ActionID e) (be_Data e) (be_RawSize e) with
                   | inr _ => (None, c)
                   | inl data =>
                       match decodeOutputID (be_OutputID e) with
                       | None => (None, c)
                       | Some out => (Some (id, out, data), c)
                       end
                   end
               end
      end
  end.

Definition populate (env : BatchEntry -> (bool * getEnv * copyEnv * entryEnv) * (Z * Z)) (entries : list BatchEntry) (t : storeTier) : storeTier :=
  foldl (fun t e =>
    let '((v, genv, cenv, penv), (now, wall)) := env e in
    let '(r, c) := populate_body v genv now e (t_disk t) in
    match r with
    | None => set_disk c t
    | Some (id, out, data) => keep cenv genv penv v now wall id out data (set_disk c t)
    end) t entries.

(** The path of a file of the cache directory. *)
Definition path_of (dir : bytes) (file : bytes * bytes) : bytes := dir ++ str "/" ++ file.1 ++ str "/" ++ file.2.

(** [PutFile]: [accepted] is what the prep pool answers. *)
Definition PutFile (actionID outputID path : bytes) (accepted : bool) (t : storeTier) : storeTier :=
  if bytes_eqb path [] then t
  else set_store (enqueuePut (web_key prefix) actionID outputID None path accepted (t_store t)).2
         (set_noted (note actionID (t_manifest t)) (t_pending t) t).

(** [Put]: the disk first; what it answers is the result, and the store is offered the file. *)
Definition Put (dir : bytes) (allow readable accepted : bool) (cenv : copyEnv) (genv : getEnv) (penv : entryEnv) (v : bool) (now wall : Z)
    (id data : bytes) (t : storeTier) : (putResult * bytes) * storeTier :=
  let '((r, out), states) := put v allow readable cenv genv penv now wall id data (t_disk t) in
  let t := set_disk (final (t_disk t) states) t in
  match r with
  | PutOk =>
      let t := count_put (Z.of_nat (length data)) t in
      let '(file, c) := OutputFile genv now out (t_disk t) in
      ((PutOk, out), PutFile (hex_encode id) (hex_encode out) (path_of dir file) accepted (set_disk c t))
  | _ => ((r, out), t)
  end.

(** [Holds] and [Retrievable]: the output file must be there in full, or a confirmed index name the key. *)
Definition Holds (actionID : bytes) (ix : @webIndex St Sh) : bool :=
  match parseActionHash actionID with None => false | Some h => wi_authoritative ix && ks_Contains (wi_keys ix) h end.

Definition Retrievable (v : bool) (env : getEnv) (now : Z) (id : bytes) (t : storeTier) : bool * storeTier :=
  match Get v env now id (t_disk t) with
  | (inl e, c) =>
      let '(file, c) := OutputFile env now (e_OutputID e) c in
      let t := set_disk c t in
      match dc_files c !! file with
      | Some f =>
          if ge_stat env && (Z.of_nat (length (df_data f)) =? e_Size e) then (true, t) else (Holds (hex_encode id) (gs_index (t_web t)), t)
      | None => (Holds (hex_encode id) (gs_index (t_web t)), t)
      end
  | (inr _, c) => let t := set_disk c t in (Holds (hex_encode id) (gs_index (t_web t)), t)
  end.

(** [Fetch]: each round is whether the server was down before the lookup, what
    the lookup answered, and whether it is down after.  [None]: still waiting. *)
Fixpoint Fetch (rounds : list (bool * option Entry * bool)) : option (option Entry) :=
  match rounds with
  | [] => None
  | (wasDown, Some e, _) :: _ => Some (Some e)
  | (wasDown, None, down) :: rest => if negb down && negb wasDown then Some None else Fetch rest
  end.

(** A miss is final only from a server that was up for a whole lookup. *)
Lemma Fetch_miss rounds : Fetch rounds = Some None -> exists pre post, rounds = pre ++ (false, None, false) :: post /\ Forall (fun r => r.1.2 = None) pre.
Proof using Type.
  induction rounds as [|[[w [e|]] d] rest IH]; cbn [Fetch]; [done..|]. destruct d, w; cbn [negb andb];
    try (intros (pre & post & -> & Hp)%IH; eexists (_ :: pre), post; split; [done|by constructor]). intros _. by exists [], rest.
Qed.

(** It returns once the server stays up for two lookups. *)
Lemma Fetch_returns rounds w r r' : is_Some (Fetch (rounds ++ [(w, r, false); (false, r', false)])).
Proof using Type.
  induction rounds as [|[[w0 [e|]] d] rest IH]; cbn [app Fetch]; [|by eexists|by destruct (_ && _); [eexists|]].
  destruct r as [e|]; [by eexists|]. destruct w; cbn [negb andb]; [|by eexists]. by destruct r'; eexists.
Qed.

(** ** Steps

    [bodies] are the bodies that ever occur, no two with one digest and
    different sizes; [built] says what the build stores under which action. *)
Context (bodies : bytes -> Prop) (built : bytes -> bytes -> Prop).

(** A body fit for an action: it certifies no other action, and is no module index. *)
Definition gated (id d : bytes) : Prop := (BuildIDMatchesAction (hex_encode id) d).2 = true /\ IsGoModuleIndex d = false.

Definition genuine (id d : bytes) : Prop := bodies d /\ (built id d \/ gated id d).

(** What the manifest's fetch does to the pending IDs. *)
Definition pending_op (st st' : pendings) : Prop :=
  (exists ids, st' = (markPending ids st).2) \/ (exists c asked, send c st = Some (asked, st')) \/
  (exists c ids, landed c ids st = Some st') \/ (exists order, finish order st = Some st').

Inductive tstep (t : storeTier) : storeTier -> Prop :=
  | t_new n id : t_lookups t !! n = None -> is_hash id -> tstep t (goto n id LkStart t)
  | t_first n id v env now pc t' :
      t_lookups t !! n = Some (id, LkStart) -> get_first v env now id t = Some (pc, t') -> tstep t (goto n id pc t')
  | t_waited n id f :
      t_lookups t !! n = Some (id, LkWaits f) -> pf_done <$> pd_heap (t_pending t) !! f = Some true -> tstep t (goto n id LkAgain t)
  | t_timeout n id f : t_lookups t !! n = Some (id, LkWaits f) -> tstep t (goto n id LkAsk t)
  | t_again n id v env now pc t' :
      t_lookups t !! n = Some (id, LkAgain) -> get_again v env now id t = (pc, t') -> tstep t (goto n id pc t')
  | t_ask n id now reply : t_lookups t !! n = Some (id, LkAsk) -> tstep t (get_ask now reply n id t)
  | t_batch ord threshold batch rest reply single :
      (forall m, ord m ≡ₚ map_to_list m) -> t_queue t = batch ++ rest -> batch <> [] -> (length batch <= batchMaxKeys)%nat ->
      tstep t (run_batch ord threshold batch rest reply single t)
  | t_cut n id : (** the backend closes, or a finished index load proves the key absent *)
      t_lookups t !! n = Some (id, LkAsked) -> tstep t (goto n id (LkAnswered RMiss) t)
  | t_answer n id r : t_lookups t !! n = Some (id, LkAnswered r) -> tstep t (goto n id (get_answer r) t)
  | t_keep n id out data cenv genv penv v now wall :
      t_lookups t !! n = Some (id, LkKeep out data) -> bodies data -> write_ok cenv penv wall id data (t_disk t) ->
      tstep t (goto n id LkKept (keep cenv genv penv v now wall id out data t))
  | t_back n id v env now pc t' :
      t_lookups t !! n = Some (id, LkKept) -> get_back v env now id t = (pc, t') -> tstep t (goto n id pc t')
  | t_deliver sinks1 sink sinks2 chunks w :
      t_sinks t = sinks1 ++ sink :: sinks2 -> storePrefetched (ps_entries sink) (t_web t) = (chunks, w) ->
      tstep t (set_surplus (sinks1 ++ sinks2) (t_offered t ++ concat chunks)
        (set_web (GetState (gs_index w) (gs_held w) (gs_seeds w) (pb_release (ps_held sink) (gs_hold w))) t))
  | t_ahead entries : (** the look-ahead and the manifest hand over what they fetched *)
      tstep t (set_surplus (t_sinks t) (t_offered t ++ entries) t)
  | t_populate e offered cenv genv penv v now wall r c :
      t_offered t = e :: offered -> populate_body v genv now e (t_disk t) = (r, c) ->
      (forall id out data, r = Some (id, out, data) -> bodies data /\ write_ok cenv penv wall id data c) ->
      tstep t (set_surplus (t_sinks t) offered (populate (fun _ => ((v, genv, cenv, penv), (now, wall))) [e] t))
  | t_put dir allow readable accepted cenv genv penv v now wall id data :
      built id data -> bodies data -> write_ok cenv penv wall id data (t_disk t) ->
      tstep t (Put dir allow readable accepted cenv genv penv v now wall id data t).2
  | t_retrievable v env now id : tstep t (Retrievable v env now id t).2
  | t_upload u : ustep (web_key prefix) (t_store t) u -> tstep t (set_store u t)
  | t_fetching p : pending_op (t_pending t) p -> tstep t (set_noted (t_manifest t) p t)
  | t_disk_step c : (** another process, the trim, or a write of ours cut short *)
      cache_step genuine (t_disk t) c -> tstep t (set_disk c t).

(** ** The budget of the surplus *)

Definition data_bytes (es : list BatchEntry) : Z := foldr (fun e n => Z.of_nat (length (be_Data e)) + n) 0 es.

Lemma data_bytes_app es es' : data_bytes (es ++ es') = data_bytes es + data_bytes es'.
Proof using Type. induction es as [|e es IH]; [done|]. cbn [app data_bytes foldr] in *. unfold data_bytes in *. lia. Qed.

(** The bytes on loan are those of the sinks, and within the limit. *)
Definition sink_sum (sinks : list prefetchSink) : Z := foldr (fun k n => ps_held k + n) 0 sinks.

Definition hold_ok (h : prefetchBudget) (sinks : list prefetchSink) : Prop :=
  Forall (fun k => ps_held k = data_bytes (ps_entries k)) sinks /\ (0 < pb_limit h -> pb_held h = sink_sum sinks /\ pb_held h <= pb_limit h).

Lemma sink_sum_app a b : sink_sum (a ++ b) = sink_sum a + sink_sum b.
Proof using Type. induction a as [|k a IH]; [done|]. cbn [app sink_sum foldr] in *. unfold sink_sum in *. lia. Qed.

Lemma sink_sum_snoc a k : sink_sum (a ++ [k]) = sink_sum a + ps_held k.
Proof using Type. rewrite sink_sum_app. cbn. lia. Qed.

Lemma collect_hold tier e sink h sinks : hold_ok h (sinks ++ [sink]) ->
  let '(sink', h') := collect tier e sink h in hold_ok h' (sinks ++ [sink']) /\ pb_limit h' = pb_limit h.
Proof using Type.
  intros [Hf Hh]. unfold collect. destruct tier; cbn [negb]; [|done]. unfold pb_take.
  apply Forall_app in Hf as [Hf Hk]. rewrite Forall_singleton in Hk.
  pose proof (sink_sum_snoc sinks sink) as Hs.
  assert (Hk' : forall n, n = Z.of_nat (length (be_Data e)) -> Forall (fun k => ps_held k = data_bytes (ps_entries k)) (sinks ++ [PrefetchSink (ps_entries sink ++ [e]) (ps_held sink + n)])).
  { intros n ->. apply Forall_app. split; [done|]. apply Forall_singleton. cbn [ps_held ps_entries]. rewrite data_bytes_app, Hk. cbn [data_bytes foldr]. lia. }
  destruct (Z.leb_spec (pb_limit h) 0); cbn [pb_limit pb_held]; [split; [split; [by apply Hk'|lia]|done]|].
  destruct (Z.ltb_spec (pb_limit h) (pb_held h + Z.of_nat (length (be_Data e)))); cbn [pb_limit pb_held]; (split; [split|done]).
  - apply Forall_app. split; [done|by apply Forall_singleton].
  - intros Hp. cbn [pb_held pb_limit]. destruct (Hh Hp). lia.
  - by apply Hk'.
  - intros Hp. cbn [pb_held pb_limit]. destruct (Hh Hp). rewrite sink_sum_snoc. cbn [ps_held]. lia.
Qed.

Lemma serve_hold tier reqs entries sinks : forall sv : @serving St Sh,
  hold_ok (gs_hold (sv_state sv)) (sinks ++ [sv_sink sv]) ->
  let sv' := foldl (serve_entry tier reqs) sv entries in
  hold_ok (gs_hold (sv_state sv')) (sinks ++ [sv_sink sv']) /\ pb_limit (gs_hold (sv_state sv')) = pb_limit (gs_hold (sv_state sv)).
Proof using Type.
  induction entries as [|e entries IH]; intros sv Hh; [done|]. cbn [foldl]. cbv zeta in *.
  assert (H1 : hold_ok (gs_hold (sv_state (serve_entry tier reqs sv e))) (sinks ++ [sv_sink (serve_entry tier reqs sv e)]) /\
    pb_limit (gs_hold (sv_state (serve_entry tier reqs sv e))) = pb_limit (gs_hold (sv_state sv))).
  { unfold serve_entry. destruct (sv_open sv !! be_Key e) as [i|].
    - destruct (reqs !! i) as [rq|]; [|done]. by destruct (verify _ _ _ _ _).
    - pose proof (collect_hold tier e _ _ _ Hh) as Hc. by destruct (collect _ _ _ _) as [sink h]. }
  destruct H1 as [H1 H2]. destruct (IH _ H1) as [H3 H4]. split; [done|congruence].
Qed.

Lemma answer_each_hold (f : nat -> batchReq -> @getState St Sh -> batchResp * getState) reqs idx : (forall i rq s, gs_hold (f i rq s).2 = gs_hold s) -> forall s, gs_hold (answer_each f reqs idx s).2 = gs_hold s.
Proof using Type.
  intros Hf s. unfold answer_each. set (step := fun '(rs, s) i => _).
  assert (Hgen : forall rs, gs_hold (foldl step (rs, s) idx).2 = gs_hold s); [|apply Hgen].
  revert s. induction idx as [|i idx IH]; intros s rs; [done|]. cbn [foldl]. unfold step at 2. destruct (reqs !! i) as [rq|]; [|apply IH].
  pose proof (Hf i rq s) as Hs. destruct (f i rq s) as [resp s']. cbn [snd] in Hs. by rewrite IH.
Qed.

Lemma getIndividual_hold r reply (s : @getState St Sh) : gs_hold (getIndividual r reply s).2 = gs_hold s.
Proof using Type.
  unfold getIndividual. destruct reply as [|code|o l sa bs [c|]]; try done; [by destruct (code =? 404)|]. by destruct (verify _ _ _ _ _).
Qed.

Lemma get_each_hold reqs single idx (s : @getState St Sh) : gs_hold (get_each reqs single idx s).2 = gs_hold s.
Proof using Type. apply answer_each_hold. intros. apply getIndividual_hold. Qed.

Lemma miss_each_hold reqs idx (s : @getState St Sh) : gs_hold (miss_each reqs idx s).2 = gs_hold s.
Proof using Type. by apply answer_each_hold. Qed.

Lemma sendBatch_hold ord threshold tier reqs reply single (s : @getState St Sh) sinks : hold_ok (gs_hold s) sinks ->
  let '(_, sink, s') := sendBatch ord threshold tier reqs reply single s in
  hold_ok (gs_hold s') (sinks ++ [sink]) /\ pb_limit (gs_hold s') = pb_limit (gs_hold s).
Proof using Type.
  intros [Hf Hh].
  assert (H0 : hold_ok (gs_hold s) (sinks ++ [PrefetchSink [] 0])).
  { split; [apply Forall_app; split; [done|by apply Forall_singleton]|]. rewrite sink_sum_snoc. cbn [ps_held]. intros Hp. destruct (Hh Hp). lia. }
  unfold sendBatch. cbv zeta. destruct reply as [| |code|bs]; [done..| |].
  - destruct (_ || _); [|done]. pose proof (get_each_hold reqs single (seq 0 (length reqs)) s) as He. destruct (get_each _ _ _ _) as [rs s']. cbn [snd] in He. by rewrite He.
  - destruct (streamBatchResponse bs) as [entries err].
    destruct (serve_hold tier reqs entries sinks (Serving [] (reqByKey reqs) [] (PrefetchSink [] 0) s) H0) as [H1 H2]. cbn [sv_state] in H2.
    set (sv := foldl _ _ entries) in *. set (rest := map snd (ord (sv_open sv))). destruct err.
    + pose proof (get_each_hold reqs single rest (sv_state sv)) as He. destruct (get_each _ _ _ _) as [rs s']. cbn [snd] in He. by rewrite He.
    + pose proof (miss_each_hold reqs rest (sv_state sv)) as He. destruct (miss_each _ _ _) as [rs s']. cbn [snd] in He. unfold with_index. cbn [gs_hold]. by rewrite He.
Qed.

(** ** What holds throughout *)

Context (no_clash : forall d d', bodies d -> bodies d' -> sha256 d = sha256 d' -> length d = length d').

Lemma genuine_clash id id' d d' : genuine id d -> genuine id' d' -> sha256 d = sha256 d' -> length d = length d'.
Proof. intros [Hd _] [Hd' _]. by apply no_clash. Qed.

Lemma disk_step c c' : dinv genuine c -> cache_step genuine c c' -> dinv genuine c'.
Proof. apply dinv_step. exact genuine_clash. Qed.

Lemma final_dinv c states : dinv genuine c -> (forall x, x ∈ states -> cache_step genuine c x) -> dinv genuine (final c states).
Proof.
  intros Hc Hs. unfold final. destruct (last states) as [x|] eqn:El; [|done]. apply (disk_step c); [done|]. apply Hs. by apply last_Some_elem_of.
Qed.

Lemma Get_same v env now id c : same_data c (Get v env now id c).2.
Proof using Type. unfold Get. destruct v; [by intros q|apply get_same]. Qed.

Lemma Get_dinv v env now id c : dinv genuine c -> dinv genuine (Get v env now id c).2.
Proof using Type. apply dinv_same, Get_same. Qed.

Lemma keep_dinv cenv genv penv v now wall id data t : dinv genuine (t_disk t) -> genuine id data -> write_ok cenv penv wall id data (t_disk t) ->
  dinv genuine (t_disk (keep cenv genv penv v now wall id (sha256 data) data t)).
Proof.
  intros Hd Hg Hw. unfold keep. destruct (KeepVerified _ _ _ _ _ _ _ _ _ _) as [r states] eqn:E.
  assert (Hf : dinv genuine (final (t_disk t) states)).
  { apply final_dinv; [done|]. intros x Hx. apply (step_keep genuine _ cenv genv penv v now wall id data); [done..|]. by rewrite E. }
  by destruct r.
Qed.

(** A verified body is the one its output ID names. *)
Lemma decode_verified outputID data out : hex_encode (sha256 data) = map to_lower outputID -> decodeOutputID outputID = Some out -> out = sha256 data.
Proof using Type.
  unfold decodeOutputID. destruct (hex_decode outputID) as [raw|] eqn:Eh; [|done]. destruct (length raw =? HashSize)%nat; [|done]. intros He [= <-].
  destruct (hex_decode_props _ _ Eh) as (Hb & _ & Hl). rewrite <- Hl in He. symmetry. apply hex_encode_inj; [apply sha256_wf|done|done].
Qed.

Definition pc_ok (id : bytes) (pc : lookupPc) : Prop :=
  match pc with
  | LkAnswered (RHit outputID data) => hex_encode (sha256 data) = map to_lower outputID /\ gated id data
  | LkKeep out data => out = sha256 data /\ gated id data
  | LkDone e _ => exists d, genuine id d /\ e_OutputID e = sha256 d /\ e_Size e = Z.of_nat (length d)
  | _ => True
  end.

Definition queued_ok (ls : gmap nat (bytes * lookupPc)) (nr : nat * batchReq) : Prop :=
  exists id pc, ls !! nr.1 = Some (id, pc) /\ br_actionID nr.2 = hex_encode id.

Record tinv (t : storeTier) : Prop := {
  ti_disk : dinv genuine (t_disk t);
  ti_lookups : map_Forall (fun _ ip => is_hash ip.1 /\ pc_ok ip.1 ip.2) (t_lookups t);
  ti_queue : Forall (queued_ok (t_lookups t)) (t_queue t);
  ti_hold : hold_ok (t_hold t) (t_sinks t)
}.

(** Steps that leave lookups and sinks alone. *)
Definition same_work (t t' : storeTier) : Prop :=
  t_lookups t' = t_lookups t /\ t_queue t' = t_queue t /\ t_hold t' = t_hold t /\ t_sinks t' = t_sinks t.

Lemma tinv_same t t' : same_work t t' -> dinv genuine (t_disk t') -> tinv t -> tinv t'.
Proof using Type. intros (H1 & H2 & H3 & H4) Hd [_ Hl Hq Hh]. split; [done|by rewrite H1|by rewrite H1, H2|by rewrite H3, H4]. Qed.

Lemma queued_insert ls n id pc nr : (forall id0 pc0, ls !! n = Some (id0, pc0) -> id0 = id) -> queued_ok ls nr -> queued_ok (<[n := (id, pc)]> ls) nr.
Proof using Type.
  intros Hn (id' & pc' & Hl & Ha). unfold queued_ok. destruct (decide (nr.1 = n)) as [Heq|Hne].
  - rewrite Heq in *. rewrite (Hn _ _ Hl) in Ha. exists id, pc. by rewrite lookup_insert_eq.
  - exists id', pc'. by rewrite lookup_insert_ne.
Qed.

Lemma tinv_goto n id pc t : (forall id0 pc0, t_lookups t !! n = Some (id0, pc0) -> id0 = id) -> is_hash id -> pc_ok id pc -> tinv t -> tinv (goto n id pc t).
Proof using Type.
  intros Hn Hid Hpc [Hd Hl Hq Hh]. split; [done| | |done].
  - by apply map_Forall_insert_2.
  - eapply Forall_impl; [exact Hq|]. intros nr. by apply queued_insert.
Qed.

Lemma disk_hit_inv v env now id t r t' : tinv t -> is_hash id -> disk_hit v env now id t = (r, t') ->
  tinv t' /\ same_work t t' /\ forall e, r = Some e -> pc_ok id (LkDone e TierDisk).
Proof.
  intros Hi Hid. unfold disk_hit. pose proof (Get_dinv v env now id _ (ti_disk _ Hi)) as Hd.
  destruct (Get v env now id (t_disk t)) as [[e|m] c] eqn:Eg; cbn [snd] in Hd; intros [= <- <-]; (split; [|split; [done|]]).
  - eapply tinv_same; [|exact Hd|exact Hi]. done.
  - intros e' [= <-]. by eapply Get_stored; [apply Hi| |exact Eg].
  - eapply tinv_same; [|exact Hd|exact Hi]. done.
  - done.
Qed.

Lemma give_answers_inv batch ls : forall replies,
  Forall (queued_ok ls) batch -> Forall (answer_sound (map snd batch)) replies ->
  map_Forall (fun _ ip => is_hash ip.1 /\ pc_ok ip.1 ip.2) ls ->
  map_Forall (fun _ ip => is_hash ip.1 /\ pc_ok ip.1 ip.2) (give_answers batch replies ls) /\
  (forall nr, queued_ok ls nr -> queued_ok (give_answers batch replies ls) nr).
Proof using Type.
  intros replies Hb Hr. unfold give_answers. revert ls Hb. induction Hr as [|[i resp] replies Ha _ IH]; intros ls Hb Hl; cbn [foldl]; [done|]. cbn [fst snd].
  destruct (batch !! i) as [[n rq]|] eqn:Ei; [|by apply IH]. destruct (ls !! n) as [[id []]|] eqn:En; try (by apply IH).
  assert (Hq : forall nr, queued_ok ls nr -> queued_ok (<[n := (id, LkAnswered resp)]> ls) nr) by (intros nr; apply queued_insert; congruence).
  destruct (Hl n _ En) as [Hid _]. cbn [fst] in Hid.
  destruct (IH (<[n := (id, LkAnswered resp)]> ls)) as [H1 H2]; [by eapply Forall_impl| |split; auto].
  apply map_Forall_insert_2; [|done]. split; [done|]. cbn [fst snd pc_ok]. destruct resp as [|outputID data]; [done|].
  destruct Ha as (rq' & Hrq & Hsha & Hb1 & Hb2). cbn [fst snd] in *. change (map snd batch) with (snd <$> batch) in Hrq. rewrite list_lookup_fmap, Ei in Hrq. injection Hrq as <-.
  destruct (proj1 (Forall_forall _ _) Hb (n, rq)) as (id' & pc' & Hn' & Hact); [by eapply list_elem_of_lookup_2|].
  cbn [fst snd] in *. rewrite En in Hn'. injection Hn' as <- <-. unfold gated. by rewrite <- Hact.
Qed.

Lemma run_batch_inv ord threshold batch rest reply single t : t_queue t = batch ++ rest -> tinv t -> tinv (run_batch ord threshold batch rest reply single t).
Proof.
  intros Hq [Hd Hl Hqs Hh]. rewrite Hq in Hqs. apply Forall_app in Hqs as [Hqb Hqr]. unfold run_batch.
  pose proof (sendBatch_sound ord threshold true (map snd batch) reply single (t_web t)) as Hs.
  pose proof (sendBatch_hold ord threshold true (map snd batch) reply single (t_web t) (t_sinks t) Hh) as Hk.
  destruct (sendBatch _ _ _ _ _ _ _) as [[replies sink] w]. cbn [fst] in Hs. destruct Hk as [Hk Hlim].
  destruct (give_answers_inv batch (t_lookups t) replies Hqb Hs Hl) as [H1 H2].
  assert (Hqr' : Forall (queued_ok (give_answers batch replies (t_lookups t))) rest) by (by eapply Forall_impl).
  destruct (ps_entries sink) as [|e es] eqn:Ee; (split; [exact Hd|exact H1|exact Hqr'|]); cbn; [|exact Hk].
  destruct Hk as [Hf Hk]. apply Forall_app in Hf as [Hf Hone]. rewrite Forall_singleton, Ee in Hone. split; [exact Hf|].
  intros Hp. destruct (Hk Hp) as [He Hle]. rewrite sink_sum_snoc, Hone in He. cbn in He. split; [|done]. by rewrite Z.add_0_r in He.
Qed.

Lemma release_hold h sinks1 sink sinks2 : hold_ok h (sinks1 ++ sink :: sinks2) -> hold_ok (pb_release (ps_held sink) h) (sinks1 ++ sinks2).
Proof using Type.
  intros [Hf Hh]. apply Forall_app in Hf as [Hf1 Hf2]. apply Forall_cons in Hf2 as [Hk Hf2].
  assert (Hn : 0 <= ps_held sink) by (rewrite Hk; clear; unfold data_bytes; induction (ps_entries sink); cbn [foldr]; lia).
  split; [apply Forall_app; by split|]. unfold pb_release. destruct (Z.leb_spec (pb_limit h) 0); [lia|]. cbn [pb_limit pb_held]. intros Hp.
  destruct (Hh Hp) as [He Hle]. rewrite sink_sum_app in He |- *. change (sink_sum (sink :: sinks2)) with (ps_held sink + sink_sum sinks2) in He. lia.
Qed.

Lemma storePrefetched_hold entries w : gs_hold (storePrefetched entries w).2 = gs_hold w.
Proof using Type.
  unfold storePrefetched. set (step := fun acc e => _). assert (Hgen : forall chunks w, gs_hold (foldl step (chunks, w) entries).2 = gs_hold w); [|apply Hgen].
  induction entries as [|e entries IH]; intros chunks w0; [done|]. cbn [foldl]. unfold step at 2. destruct (kept_entry e) as [a|]; [|apply IH].
  rewrite IH. by destruct (parseActionHash a).
Qed.

Lemma populate_body_ok v env now e c r c' : populate_body v env now e c = (r, c') -> dinv genuine c ->
  dinv genuine c' /\ forall id out data, r = Some (id, out, data) -> out = sha256 data /\ gated id data.
Proof using Type.
  intros Hp Hd. unfold populate_body in Hp. destruct (ActionIDFromKey prefix (be_Key e)) as [a|] eqn:Ea; [|by injection Hp as <- <-].
  destruct (hex_decode a) as [id|] eqn:Eh; [|by injection Hp as <- <-]. destruct (negb _); [by injection Hp as <- <-|].
  pose proof (Get_dinv v env now id c Hd) as Hg. destruct (Get v env now id c) as [[x|m] c1]; cbn [snd] in Hg; [by injection Hp as <- <-|].
  destruct (verify _ _ _ _ _) as [data|] eqn:Ev; [|by injection Hp as <- <-].
  destruct (decodeOutputID (be_OutputID e)) as [out|] eqn:Eo; [|by injection Hp as <- <-]. injection Hp as <- <-. split; [done|].
  intros id0 out0 data0 [= <- <- <-]. destruct (verify_gates _ _ _ _ _ _ Ev) as (Hsha & _ & Hb & Hm & _). split; [by eapply decode_verified|].
  split; [|done]. destruct (hex_decode_props _ _ Eh) as (Hby & _ & Hl). unfold BuildIDMatchesAction, ExpectedBuildIDAction in *.
  rewrite Eh in Hb. by rewrite hex_decode_encode by done.
Qed.

Lemma populate_inv v genv cenv penv now wall e r c t : tinv t -> populate_body v genv now e (t_disk t) = (r, c) ->
  (forall id out data, r = Some (id, out, data) -> bodies data /\ write_ok cenv penv wall id data c) ->
  let t' := populate (fun _ => ((v, genv, cenv, penv), (now, wall))) [e] t in dinv genuine (t_disk t') /\ same_work t t'.
Proof.
  intros Hi Hp Hw. destruct (populate_body_ok _ _ _ _ _ _ _ Hp (ti_disk _ Hi)) as [Hc Hg]. cbv zeta. cbn [populate foldl]. rewrite Hp.
  destruct r as [[[id out] data]|]; [|done]. destruct (Hw _ _ _ eq_refl) as [Hb Hwr]. destruct (Hg _ _ _ eq_refl) as [-> Hga]. split.
  - apply keep_dinv; [done|by split; [|right]|done].
  - unfold keep. destruct (KeepVerified _ _ _ _ _ _ _ _ _ _) as [[] states]; done.
Qed.

Lemma tier_Put_inv dir allow readable accepted cenv genv penv v now wall id data t : tinv t -> built id data -> bodies data -> write_ok cenv penv wall id data (t_disk t) ->
  tinv (Put dir allow readable accepted cenv genv penv v now wall id data t).2.
Proof.
  intros Hi Hb Hbo Hw. unfold Put. destruct (put _ _ _ _ _ _ _ _ _ _ _) as [[r out] states] eqn:E.
  assert (Hf : dinv genuine (final (t_disk t) states)).
  { apply final_dinv; [apply Hi|]. intros x Hx. apply (step_put genuine _ v allow readable cenv genv penv now wall id data); [by split; [|left]|done|]. by rewrite E. }
  destruct r; cbn [snd]; try (by eapply tinv_same; [|exact Hf|exact Hi]).
  destruct (OutputFile _ _ _ _) as [file c] eqn:Eo. cbn [snd].
  assert (Hc : dinv genuine c).
  { eapply dinv_same; [|exact Hf]. unfold OutputFile in Eo. injection Eo as _ <-. apply markUsed_same. }
  unfold PutFile. destruct (bytes_eqb _ _); by eapply tinv_same; [|exact Hc|exact Hi].
Qed.

Lemma Retrievable_inv v env now id t : tinv t -> tinv (Retrievable v env now id t).2.
Proof.
  intros Hi. unfold Retrievable. pose proof (Get_dinv v env now id _ (ti_disk _ Hi)) as Hg.
  destruct (Get v env now id (t_disk t)) as [[e|m] c]; cbn [snd] in Hg; [|by eapply tinv_same; [|exact Hg|exact Hi]].
  destruct (OutputFile _ _ _ _) as [file c1] eqn:Eo.
  assert (Hc : dinv genuine c1).
  { eapply dinv_same; [|exact Hg]. unfold OutputFile in Eo. injection Eo as _ <-. apply markUsed_same. }
  destruct (dc_files c1 !! file) as [f|]; [destruct (_ && _)|]; by eapply tinv_same; [|exact Hc|exact Hi].
Qed.

Lemma get_ask_inv now reply n id t : t_lookups t !! n = Some (id, LkAsk) -> tinv t -> tinv (get_ask now reply n id t).
Proof.
  intros Hn Hi. assert (Hid : is_hash id) by (exact (proj1 (ti_lookups _ Hi _ _ Hn))). unfold get_ask.
  destruct (route_get _ _ _ _) as [r ix] eqn:Er. set (t1 := set_web _ _).
  assert (H1 : tinv t1 /\ t_lookups t1 = t_lookups t) by (split; [by eapply tinv_same; [|exact (ti_disk _ Hi)|exact Hi]|done]). destruct H1 as [H1 Hl1].
  assert (Hn1 : forall id0 pc0, t_lookups t1 !! n = Some (id0, pc0) -> id0 = id) by (rewrite Hl1; congruence).
  assert (Hmiss : tinv (goto n id (LkMiss TierShared) t1)) by (by apply tinv_goto).
  assert (Hask : forall h, tinv (set_lookups (<[n := (id, LkAsked)]> (t_lookups t1)) (t_queue t1 ++ [(n, BatchReq (hex_encode id) (web_key prefix (hex_encode id)) h)]) t1)).
  { intros h. destruct (tinv_goto n id LkAsked t1 Hn1 Hid I H1) as [Hd Hl Hq Hh]. split; [exact Hd|exact Hl| |exact Hh].
    apply Forall_app. split; [exact Hq|]. apply Forall_singleton. exists id, LkAsked. split; [apply lookup_insert_eq|done]. }
  destruct r, (parseActionHash (hex_encode id)); try exact Hmiss; apply Hask.
Qed.

Lemma tstep_inv t t' : tstep t t' -> tinv t -> tinv t'.
Proof.
  intros Hs Hi. assert (Hat : forall n id pc, t_lookups t !! n = Some (id, pc) -> is_hash id /\ pc_ok id pc) by (intros n id pc; apply (ti_lookups _ Hi)).
  assert (Hgo : forall n id pc pc' t1, t_lookups t !! n = Some (id, pc) -> t_lookups t1 = t_lookups t -> tinv t1 -> pc_ok id pc' -> tinv (goto n id pc' t1)).
  { intros n id pc pc' t1 Hn Hl H1 Hpc. apply tinv_goto; [rewrite Hl; congruence|by eapply Hat|done|done]. }
  destruct Hs as [n id Hn Hid|n id v env now pc t1 Hn Hg|n id f Hn _|n id f Hn|n id v env now pc t1 Hn Hg|n id now reply Hn|ord th batch rest reply single _ Hq _ _|n id Hn|n id r Hn
    |n id out data cenv genv penv v now wall Hn Hb Hw|n id v env now pc t1 Hn Hg|s1 sink s2 chunks w Hs Hp|entries|e offered cenv genv penv v now wall r c Ho Hp Hw
    |dir al rd ac cenv genv penv v now wall id data Hbu Hb Hw|v env now id|u _|p _|c Hc].
  - apply tinv_goto; [rewrite Hn; done|done|done|done].
  - destruct (Hat _ _ _ Hn) as [Hid _]. unfold get_first in Hg. destruct (disk_hit v env now id t) as [r t2] eqn:Eh.
    destruct (disk_hit_inv _ _ _ _ _ _ _ Hi Hid Eh) as (H2 & Hsw & Hr). destruct r as [e|].
    + injection Hg as <- <-. eapply Hgo; [exact Hn|apply Hsw|done|by apply Hr].
    + destruct (AwaitPrefetch _ _) as [[waits p]|]; [|done]. cbn in Hg. injection Hg as <- <-.
      eapply Hgo; [exact Hn|apply Hsw|by eapply tinv_same; [|exact (ti_disk _ H2)|exact H2]|by destruct waits].
  - by eapply Hgo.
  - by eapply Hgo.
  - destruct (Hat _ _ _ Hn) as [Hid _]. unfold get_again in Hg. destruct (disk_hit v env now id t) as [r t2] eqn:Eh.
    destruct (disk_hit_inv _ _ _ _ _ _ _ Hi Hid Eh) as (H2 & Hsw & Hr). destruct r as [e|]; injection Hg as <- <-; (eapply Hgo; [exact Hn|apply Hsw|done|]); [by apply Hr|done].
  - by apply get_ask_inv.
  - by apply run_batch_inv.
  - by eapply Hgo.
  - eapply Hgo; [done..|]. destruct (Hat _ _ _ Hn) as [_ Hpc]. destruct r as [|outputID data]; [done|]. cbn [get_answer]. destruct (decodeOutputID outputID) as [out|] eqn:Eo; [|done].
    destruct Hpc as [Hsha Hga]. split; [by eapply decode_verified|done].
  - destruct (Hat _ _ _ Hn) as [_ [-> Hga]]. eapply Hgo; [done| | |done]; [by unfold keep; destruct (KeepVerified _ _ _ _ _ _ _ _ _ _) as [[] states]|].
    eapply tinv_same; [|apply keep_dinv; [apply Hi|by split; [|right]|done]|exact Hi]. unfold keep. by destruct (KeepVerified _ _ _ _ _ _ _ _ _ _) as [[] states].
  - destruct (Hat _ _ _ Hn) as [Hid _]. unfold get_back in Hg. pose proof (Get_dinv v env now id _ (ti_disk _ Hi)) as Hd.
    destruct (Get v env now id (t_disk t)) as [[e|m] c] eqn:Eg; cbn [snd] in Hd; injection Hg as <- <-;
      (eapply Hgo; [exact Hn|done|by eapply tinv_same; [|exact Hd|exact Hi]|]); [|done]. by eapply Get_stored; [apply Hi| |exact Eg].
  - pose proof (storePrefetched_hold (ps_entries sink) (t_web t)) as Hh. rewrite Hp in Hh. cbn [snd] in Hh. destruct Hi as [Hd Hl Hq Hho]. split; [exact Hd|exact Hl|exact Hq|].
    cbn. rewrite Hh. apply release_hold. by rewrite <- Hs.
  - by eapply tinv_same; [|exact (ti_disk _ Hi)|exact Hi].
  - destruct (populate_inv _ _ _ _ _ _ _ _ _ _ Hi Hp Hw) as [Hd Hsw]. eapply tinv_same; [|exact Hd|exact Hi]. destruct Hsw as (H1 & H2 & H3 & _). by split_and!.
  - by apply tier_Put_inv.
  - by apply Retrievable_inv.
  - by eapply tinv_same; [|exact (ti_disk _ Hi)|exact Hi].
  - by eapply tinv_same; [|exact (ti_disk _ Hi)|exact Hi].
  - by eapply tinv_same; [|eapply disk_step; [exact (ti_disk _ Hi)|exact Hc]|exact Hi].
Qed.

(** A tier just opened on an empty directory. *)
Definition opened (t : storeTier) : Prop :=
  t_disk t = MkDiskCache ∅ None /\ t_lookups t = ∅ /\ t_queue t = [] /\ t_sinks t = [] /\ pb_held (t_hold t) = 0.

(** C16. The build reads its own objects, whole.  However lookups, batches,
    surplus bodies, look-ahead, stores, trims and other processes interleave, each
    of them dying half way through a write if it must, and whatever the server
    sends: an entry the tier answers names the digest and the size of a body that
    the build stored for that very action or that passed every gate for it; a file
    found for an entry is complete; and the bodies nobody asked for that are held
    in memory stay within their limit.  Two writers are never at the same output at
    once, and each write meets [write_ok]: the check of an output that is there can
    stat and read it, and a write over an entry that is there takes all or nothing. *)
Theorem tier_answers_own_action t0 t : opened t0 -> rtc tstep t0 t ->
  (forall n id e tier, t_lookups t !! n = Some (id, LkDone e tier) ->
    exists d, genuine id d /\ e_OutputID e = sha256 d /\ e_Size e = Z.of_nat (length d)) /\
  (forall v env now id file e c, is_hash id -> GetFile v env now id (t_disk t) = (inl (file, e), c) ->
    exists d f, genuine id d /\ e_OutputID e = sha256 d /\ dc_files c !! file = Some f /\ length (df_data f) = length d /\ sha256 (df_data f) = sha256 d) /\
  (0 < pb_limit (t_hold t) -> pb_held (t_hold t) = data_bytes (concat (map ps_entries (t_sinks t))) /\ pb_held (t_hold t) <= pb_limit (t_hold t)).
Proof.
  intros (Hd0 & Hl0 & Hq0 & Hs0 & Hh0) Hr. assert (Hi : tinv t).
  { assert (H0 : tinv t0) by (split; [rewrite Hd0; apply dinv_empty|rewrite Hl0; apply map_Forall_empty|rewrite Hq0; constructor|rewrite Hs0; split; [constructor|cbn; lia]]).
    apply (rtc_ind_r tinv) in Hr; [done|done|]. intros x y _ Hxy Hx. by eapply tstep_inv. }
  split_and!.
  - intros n id e tier Hn. exact (proj2 (ti_lookups _ Hi _ _ Hn)).
  - intros v env now id file e c Hid Hg. destruct (GetFile_complete _ _ _ _ _ _ _ _ _ (ti_disk _ Hi) Hid Hg) as (d & f & H1 & H2 & _ & H3 & H4 & H5). by exists d, f.
  - intros Hp. destruct (ti_hold _ Hi) as [Hf Hh]. destruct (Hh Hp) as [He Hle].
    assert (Hsum : sink_sum (t_sinks t) = data_bytes (concat (map ps_entries (t_sinks t)))); [|lia].
    clear -Hf. induction Hf as [|k ks Hk _ IH]; [done|]. cbn [map concat]. rewrite data_bytes_app, <- IH, <- Hk. done.
Qed.

End tier.

(** ** A concrete run: a lookup misses on disk, the server has the object, the disk keeps it. *)

Definition demoAct : bytes := replicate 32 1.
Definition demoIndex : @webIndex (gset bytes) (gset bytes) := WebIndex (ks_Add newKeySet demoAct) true false 0 None noGen None newSortedSet false 0.
Definition demoTier0 : @storeTier (gset bytes) (gset bytes) :=
  StoreTier (MkDiskCache ∅ None) (UpState demoIndex newSortedSet ∅ [] [] false 0 0 [] [] [] [] [] []) [] (PrefetchBudget 0 1000) newBuildManifest (Pendings ∅ 0 ∅)
    0 0 0 0 ∅ [] [] [].
Definition demoKeepEnv : copyEnv := CopyEnv true None OpenOk true demoObject None true true true true.
Definition demoTier1 := goto 0 demoAct LkStart demoTier0.
Definition demoTier2 := match get_first false demoGet 5 demoAct demoTier1 with Some (pc, t) => goto 0 demoAct pc t | None => demoTier1 end.
Definition demoTier3 := get_ask [] 5 (IndexReply [] 0 noGen false true) 0 demoAct demoTier2.
Definition demoTier4 := run_batch (Codec := demoCodec) map_to_list 24 (t_queue demoTier3) [] (BStream demoStream) (fun _ => SFailed) demoTier3.
Definition demoTier5 := goto 0 demoAct (get_answer (RHit (hex_encode (sha256 demoObject)) demoObject)) demoTier4.
Definition demoTier6 := goto 0 demoAct LkKept (keep demoKeepEnv demoGet demoEntry false 5 5 demoAct (sha256 demoObject) demoObject demoTier5).
Definition demoTier7 := let '(pc, t) := get_back false demoGet 6 demoAct demoTier6 in goto 0 demoAct pc t.

Lemma demo_tier_run : rtc (tstep (Codec := demoCodec) [] (fun d => d = demoObject) (fun _ _ => False)) demoTier0 demoTier7.
Proof.
  assert (Hh : is_hash demoAct) by (split; [done|apply Forall_replicate; by split]).
  apply (rtc_l _ _ demoTier1); [apply t_new; [reflexivity|done]|].
  apply (rtc_l _ _ demoTier2).
  { assert (Hg : exists pc t, get_first false demoGet 5 demoAct demoTier1 = Some (pc, t)) by (vm_compute; eauto). destruct Hg as (pc & t & Hg).
    unfold demoTier2. rewrite Hg. eapply t_first; [|exact Hg]. reflexivity. }
  apply (rtc_l _ _ demoTier3); [apply t_ask; vm_compute; reflexivity|].
  apply (rtc_l _ _ demoTier4); [apply t_batch; [intros m; reflexivity|symmetry; apply app_nil_r|vm_compute; congruence|vm_compute; lia]|].
  apply (rtc_l _ _ demoTier5); [apply t_answer; vm_compute; reflexivity|].
  apply (rtc_l _ _ demoTier6).
  { apply t_keep; [vm_compute; reflexivity|done|]. split; [split; [done|]|intros n f Hw _; discriminate Hw|by split|done|by vm_compute].
    intros f Hf. assert (Hn : dc_files (t_disk demoTier5) = ∅) by (vm_compute; reflexivity). rewrite Hn, lookup_empty in Hf. discriminate Hf. }
  apply rtc_once. unfold demoTier7. destruct (get_back _ _ _ _ _) as [pc t] eqn:Eb. eapply t_back; [|exact Eb]. reflexivity.
Qed.

Lemma tier_answers_own_action_witness :
  t_lookups demoTier7 !! 0%nat = Some (demoAct, LkDone (MkEntry (sha256 demoObject) 6 5) TierShared) /\
  exists d, genuine (fun d => d = demoObject) (fun _ _ => False) demoAct d /\ sha256 demoObject = sha256 d.
Proof.
  assert (Hn : t_lookups demoTier7 !! 0%nat = Some (demoAct, LkDone (MkEntry (sha256 demoObject) 6 5) TierShared)) by (vm_compute; reflexivity).
  split; [exact Hn|].
  destruct (tier_answers_own_action (Codec := demoCodec) [] (fun d => d = demoObject) (fun _ _ => False) ltac:(by intros d d' -> ->) demoTier0 demoTier7)
    as [H _]; [by split_and!|exact demo_tier_run|]. destruct (H _ _ _ _ Hn) as (d & Hg & Ho & _). exists d. exact (conj Hg Ho).
Defined.
