(* ===== verification/LookAhead.v ===== *)
(** * Fetching what nobody has asked for

    [cacheclient/lookahead.go]: a pool of workers fetches the objects stored
    around the keys a build wanted; it pauses after a sample and goes on only if
    the build uses enough of what came.  [cacheclient/manifest_fallback.go]: the
    same judgement over the fetch of a module's fallback manifest, whose
    dispatcher waits for the verdicts.

    Both are judged by [lookAheadMinUse].  The pool's counters are atomics that
    workers touch between their checks, so a worker's turn is three steps: it
    checks that the pool is on, counts the entry, and takes the lock.  The
    fallback works under one lock.  Requests, logs and contexts are left out; a
    window is the list of entries it streams. *)

From Stdlib Require Import ZArith Lia List Bool String.
From stdpp Require Import base gmap list relations.
From S2P Require Import Prelude GoSet Keys WebGet.

Definition lookAheadJudgeAfter : Z := 256.
Definition lookAheadMinUse : Z := 20.
Definition maxLookAheadWorkers : Z := 64.
Definition minChunkBudget : Z := 262144.

(** The configured count, and the depth of the queue of seeds. *)
Definition lookAheadDefaults (configured : Z) : Z * Z :=
  let workers := if maxLookAheadWorkers <? configured then maxLookAheadWorkers else configured in (workers, workers * 8).

Definition chunkBudget (budget workers : Z) : Z :=
  if (budget <=? 0) || (workers <=? 0) then 0
  else let per := budget / workers in if per <? minChunkBudget then minChunkBudget else per.

Section lookahead.
Context {St : Type} `{!SetOps St bytes} `{!SetLaws St bytes}.
Set Default Proof Using "Type*".

(** ** The pool *)

Record lookAhead := LookAhead {
  la_seeds : list (list bytes); la_depth : nat; la_seeded : St; la_held : Z; la_budget : Z; la_chunk : Z;
  la_serverOff : bool; la_covered : bool; la_wasteful : bool; la_paused : bool;
  la_brought : St; la_Used : Z; la_sampled : Z; la_lookups : Z; la_nextJudge : Z; la_pausedAt : Z; la_Dropped : Z
}.

Definition off (la : lookAhead) : bool := la_serverOff la || la_covered la || la_wasteful la || la_paused la.

Definition overBudget (la : lookAhead) : bool := (0 <? la_budget la) && (la_budget la <=? la_held la).

(** The loop of [Seed]: the keys not seeded before. *)
Fixpoint fresh_seeds (keys : list bytes) (seeded : St) : list bytes * St :=
  match keys with
  | [] => ([], seeded)
  | k :: keys' =>
      if s_contains seeded k then fresh_seeds keys' seeded
      else let '(fresh, seeded) := fresh_seeds keys' (s_add k seeded) in (k :: fresh, seeded)
  end.

Definition Seed (keys : list bytes) (la : lookAhead) : lookAhead :=
  if (length keys =? 0)%nat || off la then la
  else
    let '(fresh, seeded) := fresh_seeds keys (la_seeded la) in
    let full := (la_depth la <=? length (la_seeds la))%nat in
    let some := negb (length fresh =? 0)%nat in
    LookAhead (if some && negb full then la_seeds la ++ [fresh] else la_seeds la) (la_depth la) seeded (la_held la) (la_budget la) (la_chunk la)
      (la_serverOff la) (la_covered la) (la_wasteful la) (la_paused la) (la_brought la) (la_Used la) (la_sampled la) (la_lookups la) (la_nextJudge la)
      (la_pausedAt la) (if some && full then la_Dropped la + Z.of_nat (length fresh) else la_Dropped la).

Definition set_switch (serverOff covered : bool) (la : lookAhead) : lookAhead :=
  LookAhead (la_seeds la) (la_depth la) (la_seeded la) (la_held la) (la_budget la) (la_chunk la) serverOff covered (la_wasteful la) (la_paused la)
    (la_brought la) (la_Used la) (la_sampled la) (la_lookups la) (la_nextJudge la) (la_pausedAt la) (la_Dropped la).

Definition cover (la : lookAhead) : lookAhead := set_switch (la_serverOff la) true la.
Definition uncover (la : lookAhead) : lookAhead := set_switch (la_serverOff la) false la.

Definition set_verdict (wasteful paused : bool) (nextJudge pausedAt : Z) (la : lookAhead) : lookAhead :=
  LookAhead (la_seeds la) (la_depth la) (la_seeded la) (la_held la) (la_budget la) (la_chunk la) (la_serverOff la) (la_covered la) wasteful paused
    (la_brought la) (la_Used la) (la_sampled la) (la_lookups la) nextJudge pausedAt (la_Dropped la).

Definition set_counts (brought : St) (used sampled lookups : Z) (la : lookAhead) : lookAhead :=
  LookAhead (la_seeds la) (la_depth la) (la_seeded la) (la_held la) (la_budget la) (la_chunk la) (la_serverOff la) (la_covered la) (la_wasteful la) (la_paused la)
    brought used sampled lookups (la_nextJudge la) (la_pausedAt la) (la_Dropped la).

Definition set_load (held dropped : Z) (la : lookAhead) : lookAhead :=
  LookAhead (la_seeds la) (la_depth la) (la_seeded la) held (la_budget la) (la_chunk la) (la_serverOff la) (la_covered la) (la_wasteful la) (la_paused la)
    (la_brought la) (la_Used la) (la_sampled la) (la_lookups la) (la_nextJudge la) (la_pausedAt la) dropped.

(** The sampled count of the next verdict. *)
Definition due (la : lookAhead) : Z := if la_nextJudge la =? 0 then lookAheadJudgeAfter else la_nextJudge la.

Definition judge (la : lookAhead) : lookAhead :=
  if negb (la_paused la) || la_wasteful la then la
  else if la_sampled la * lookAheadMinUse <=? la_Used la * 100 then set_verdict (la_wasteful la) false (2 * la_sampled la) (la_pausedAt la) la
  else if la_lookups la - la_pausedAt la <? (la_sampled la + 1) / 2 then la
  else set_verdict true (la_paused la) (la_nextJudge la) (la_pausedAt la) la.

(** [noteSampled], before and under the lock; [sampled] is what the addition answered. *)
Definition sample_add (n : Z) (la : lookAhead) : Z * lookAhead :=
  (la_sampled la + n, set_counts (la_brought la) (la_Used la) (la_sampled la + n) (la_lookups la) la).

Definition sample_lock (sampled : Z) (la : lookAhead) : bool * lookAhead :=
  if (sampled <? due la) || la_paused la || la_wasteful la then (false, la)
  else (true, set_verdict (la_wasteful la) true (la_nextJudge la) (la_lookups la) la).

Definition noteSampled (n : Z) (la : lookAhead) : lookAhead :=
  let '(sampled, la) := sample_add n la in
  let '(now, la) := sample_lock sampled la in
  if now then judge la else la.

Definition noteLookup (la : lookAhead) : lookAhead :=
  let la := set_counts (la_brought la) (la_Used la) (la_sampled la) (la_lookups la + 1) la in
  if la_paused la then judge la else la.

Definition noteBrought (hashes : list bytes) (la : lookAhead) : lookAhead :=
  set_counts (s_add_all hashes (la_brought la)) (la_Used la) (la_sampled la) (la_lookups la) la.

Definition noteUsed (h : bytes) (la : lookAhead) : lookAhead :=
  let found := s_contains (la_brought la) h in
  let la := if found then set_counts (s_remove h (la_brought la)) (la_Used la + 1) (la_sampled la) (la_lookups la) la else la in
  noteLookup la.

(** ** A window *)

(** What [expand] keeps while a window streams; [hash_of] reads the action hash
    out of a key.  [wn_given] are the chunks handed to the populator, [wn_noted]
    the hashes stated as held ([WebGet.noteHeld]) on the way. *)
Record window := Window { wn_chunk : list BatchEntry; wn_brought : list bytes; wn_size : Z; wn_count : Z; wn_full : bool; wn_given : list (list BatchEntry); wn_noted : list bytes }.

Definition entry_bytes (es : list BatchEntry) : Z := foldr (fun e n => Z.of_nat (length (be_Data e)) + n) 0 es.

(** [flush]; the load of a chunk is charged around the hand-over. *)
Definition flush (w : window) (la : lookAhead) : window * lookAhead :=
  match wn_chunk w with
  | [] => (w, la)
  | chunk =>
      let n := entry_bytes chunk in
      let la := set_load (la_held la + n) (la_Dropped la) la in
      let la := noteBrought (wn_brought w) la in
      (Window [] [] 0 (wn_count w) (wn_full w) (wn_given w ++ [chunk]) (wn_noted w), set_load (la_held la - n) (la_Dropped la) la)
  end.

Definition ingest (hash_of : bytes -> option bytes) (e : BatchEntry) (w : window) (la : lookAhead) : window * lookAhead :=
  let full := wn_full w || off la in
  if full then (Window (wn_chunk w) (wn_brought w) (wn_size w) (wn_count w) true (wn_given w) (wn_noted w), set_load (la_held la) (la_Dropped la + 1) la)
  else
    let la := noteSampled 1 la in
    let w := Window (wn_chunk w ++ [e]) (wn_brought w ++ option_list (hash_of (be_Key e))) (wn_size w + Z.of_nat (length (be_Data e))) (wn_count w + 1) false (wn_given w)
      (wn_noted w ++ option_list (hash_of (be_Key e))) in
    if (lookAheadChunk <=? length (wn_chunk w))%nat || ((0 <? la_chunk la) && (la_chunk la <=? wn_size w)) then
      let '(w, la) := flush w la in (Window (wn_chunk w) (wn_brought w) (wn_size w) (wn_count w) (overBudget la) (wn_given w) (wn_noted w), la)
    else (w, la).

(** The answer to [expand]'s request: an error or a status, a server without
    look-ahead, or a window, cut or not. *)
Inductive windowReply := WFailed | WPrefetchOff | WStream (entries : list BatchEntry).

Definition expand (hash_of : bytes -> option bytes) (populator : bool) (seed : list bytes) (reply : windowReply) (la : lookAhead) : window * lookAhead :=
  let none := Window [] [] 0 0 false [] [] in
  if negb populator || off la then (none, la)
  else if overBudget la then (none, set_load (la_held la) (la_Dropped la + Z.of_nat (length seed)) la)
  else match reply with
       | WFailed => (none, la)
       | WPrefetchOff => (none, set_switch true (la_covered la) la)
       | WStream entries =>
           let '(w, la) := foldl (fun '(w, la) e => ingest hash_of e w la) (none, la) entries in flush w la
       end.

(** ** Workers side by side *)

(** A worker between two entries, past the check of [off], past the addition. *)
Inductive workerAt := AtCheck | AtAdd | AtLock (sampled : Z).

Record pool := Pool { po_la : lookAhead; po_workers : list workerAt }.

Inductive pstep : pool -> pool -> Prop :=
  | p_check la w1 w2 : off la = false -> pstep (Pool la (w1 ++ AtCheck :: w2)) (Pool la (w1 ++ AtAdd :: w2))
  | p_add la w1 w2 : pstep (Pool la (w1 ++ AtAdd :: w2)) (Pool (sample_add 1 la).2 (w1 ++ AtLock (sample_add 1 la).1 :: w2))
  | p_lock la w1 w2 n : pstep (Pool la (w1 ++ AtLock n :: w2)) (Pool (sample_lock n la).2 (w1 ++ AtCheck :: w2))
  | p_judge la ws : pstep (Pool la ws) (Pool (judge la) ws)
  | p_lookup la ws : pstep (Pool la ws) (Pool (noteLookup la) ws)
  | p_used h la ws : pstep (Pool la ws) (Pool (noteUsed h la) ws)
  | p_brought hs la ws : pstep (Pool la ws) (Pool (noteBrought hs la) ws)
  | p_switch so co la ws : pstep (Pool la ws) (Pool (set_switch so co la) ws)
  | p_seed keys la ws : pstep (Pool la ws) (Pool (Seed keys la) ws)
  | p_load held dropped la ws : pstep (Pool la ws) (Pool (set_load held dropped la) ws).

(** ** What the pool may waste *)

Definition past (d : Z) (w : workerAt) : bool := match w with AtLock n => d <=? n | _ => false end.
Definition at_add (w : workerAt) : bool := match w with AtAdd => true | _ => false end.

Definition count (f : workerAt -> bool) (ws : list workerAt) : Z := foldr (fun w n => (if f w then 1 else 0) + n) 0 ws.

Lemma count_app f a b : count f (a ++ b) = count f a + count f b.
Proof using Type. induction a as [|w a IH]; [done|]. cbn [app count foldr] in *. unfold count in *. lia. Qed.

Lemma count_cons f w ws : count f (w :: ws) = (if f w then 1 else 0) + count f ws.
Proof using Type. done. Qed.

Lemma count_nonneg f ws : 0 <= count f ws.
Proof using Type. induction ws as [|w ws IH]; [done|]. rewrite count_cons. destruct (f w); lia. Qed.

(** A worker is at one place. *)
Lemma count_split d ws : count (past d) ws + count at_add ws <= Z.of_nat (length ws).
Proof using Type. induction ws as [|w ws IH]; [done|]. rewrite !count_cons. cbn [length]. destruct w as [| |n]; cbn [past at_add]; [lia..|]. destruct (d <=? n); lia. Qed.

Lemma count_past_none d ws m : Forall (fun w => match w with AtLock n => n <= m | _ => True end) ws -> m < d -> count (past d) ws = 0.
Proof using Type. intros Hf Hm. induction Hf as [|w ws Hw _ IH]; [done|]. rewrite count_cons, IH. destruct w as [| |n]; cbn [past]; [done..|]. destruct (Z.leb_spec d n); lia. Qed.

Record poolInv (p : pool) : Prop := {
  pv_locks : Forall (fun w => match w with AtLock n => n <= la_sampled (po_la p) | _ => True end) (po_workers p);
  pv_due : 1 <= due (po_la p) <= Z.max lookAheadJudgeAfter (10 * la_Used (po_la p));
  pv_wasteful : la_wasteful (po_la p) = true -> la_paused (po_la p) = true;
  pv_count : 0 <= la_sampled (po_la p);
  pv_running : la_paused (po_la p) = false -> la_sampled (po_la p) <= due (po_la p) - 1 + count (past (due (po_la p))) (po_workers p);
  pv_paused : la_paused (po_la p) = true -> due (po_la p) <= la_sampled (po_la p) /\
    la_sampled (po_la p) + count at_add (po_workers p) <= due (po_la p) - 1 + Z.of_nat (length (po_workers p))
}.

(** The fields the invariant reads; [Used] may grow. *)
Lemma poolInv_same la la' ws : la_sampled la' = la_sampled la -> la_Used la <= la_Used la' -> la_nextJudge la' = la_nextJudge la ->
  la_wasteful la' = la_wasteful la -> la_paused la' = la_paused la -> poolInv (Pool la ws) -> poolInv (Pool la' ws).
Proof using Type.
  intros H1 H2 H3 H4 H5 [Hl Hd Hw Hc Hr Hp]. cbn [po_la po_workers] in *. assert (Hdue : due la' = due la) by (unfold due; by rewrite H3).
  split; cbn [po_la po_workers]; rewrite ?Hdue, ?H1, ?H4, ?H5; try done. lia.
Qed.

Lemma judge_inv la ws : poolInv (Pool la ws) -> poolInv (Pool (judge la) ws).
Proof using Type.
  intros Hi. unfold judge. destruct (la_paused la) eqn:Ep; cbn [negb orb]; [|done]. destruct (la_wasteful la) eqn:Ew; cbn [orb]; [done|].
  destruct Hi as [Hl Hd Hw Hc Hr Hp]. cbn [po_la po_workers] in *. destruct (Hp Ep) as [Hp1 Hp2].
  destruct (Z.leb_spec (la_sampled la * lookAheadMinUse) (la_Used la * 100)) as [Hu|Hu].
  - set (la' := set_verdict false false (2 * la_sampled la) (la_pausedAt la) la).
    assert (Hdue : due la' = 2 * la_sampled la) by (unfold due, la'; cbn [set_verdict la_nextJudge]; destruct (Z.eqb_spec (2 * la_sampled la) 0); [lia|done]).
    split; cbn [po_la po_workers]; rewrite ?Hdue; cbn [la' set_verdict la_sampled la_Used la_paused la_wasteful]; [done| |done|done| |done].
    + unfold lookAheadMinUse, lookAheadJudgeAfter in *. lia.
    + intros _. pose proof (count_nonneg (past (2 * la_sampled la)) ws). lia.
  - destruct (Z.ltb_spec (la_lookups la - la_pausedAt la) ((la_sampled la + 1) / 2)); [by split|].
    split; cbn [po_la po_workers set_verdict la_sampled la_Used la_paused la_wasteful]; done.
Qed.

Lemma lookup_inv la ws : poolInv (Pool la ws) -> poolInv (Pool (noteLookup la) ws).
Proof using Type.
  intros Hi. unfold noteLookup. cbv zeta. set (la1 := set_counts _ _ _ _ la). assert (H1 : poolInv (Pool la1 ws)) by (by eapply poolInv_same; [..|exact Hi]; cbn; lia || done).
  destruct (la_paused la1); [by apply judge_inv|done].
Qed.

Lemma count_move f w w' a b : count f (a ++ w' :: b) = count f (a ++ w :: b) - (if f w then 1 else 0) + (if f w' then 1 else 0).
Proof using Type. rewrite !count_app, !count_cons. lia. Qed.

Lemma length_move (w w' : workerAt) a b : length (a ++ w' :: b) = length (a ++ w :: b).
Proof using Type. by rewrite !length_app. Qed.

Lemma pstep_inv p p' : pstep p p' -> poolInv p -> poolInv p' /\ length (po_workers p') = length (po_workers p).
Proof.
  intros Hs Hi. destruct Hs as [la w1 w2 Ho|la w1 w2|la w1 w2 n|la ws|la ws|h la ws|hs la ws|so co la ws|keys la ws|held dr la ws]; cbn [po_workers];
    (split; [|first [done|apply length_move]]).
  - destruct Hi as [Hl Hd Hw Hc Hr Hp]. unfold off in Ho. apply orb_false_iff in Ho as [Ho Hpa]. cbn [po_la po_workers] in *.
    split; cbn [po_la po_workers]; try done; [|intros _; rewrite (count_move _ AtCheck AtAdd); cbn [past]; specialize (Hr Hpa); lia|congruence].
    apply Forall_app in Hl as [Hl1 Hl2]. apply Forall_cons in Hl2 as [_ Hl2]. apply Forall_app. split; [done|by constructor].
  - destruct Hi as [Hl Hd Hw Hc Hr Hp]. cbn [po_la po_workers] in *. apply Forall_app in Hl as [Hl1 Hl2]. apply Forall_cons in Hl2 as [_ Hl2].
    unfold sample_add. cbn [fst snd]. set (la' := set_counts _ _ _ _ la). assert (Hdue : due la' = due la) by done.
    split; cbn [po_la po_workers]; rewrite ?Hdue; cbn [la' set_counts la_sampled la_Used la_paused la_wasteful]; try done; [|lia| |].
    + apply Forall_app. split; [|constructor; [lia|]]; (eapply Forall_impl; [eassumption|]); intros []; lia || done.
    + intros Hpa. specialize (Hr Hpa). pose proof (count_nonneg (past (due la)) (w1 ++ AtAdd :: w2)). rewrite (count_move _ AtAdd (AtLock (la_sampled la + 1))). cbn [past]. destruct (Z.leb_spec (due la) (la_sampled la + 1)); lia.
    + intros Hpa. destruct (Hp Hpa). rewrite (count_move _ AtAdd (AtLock (la_sampled la + 1))), (length_move AtAdd). cbn [at_add]. lia.
  - destruct Hi as [Hl Hd Hw Hc Hr Hp]. cbn [po_la po_workers] in *. apply Forall_app in Hl as [Hl1 Hl2]. apply Forall_cons in Hl2 as [Hn Hl2].
    assert (Hl' : Forall (fun w => match w with AtLock n => n <= la_sampled la | _ => True end) (w1 ++ AtCheck :: w2)) by (apply Forall_app; split; [done|by constructor]).
    unfold sample_lock. destruct (Z.ltb_spec n (due la)) as [Hlt|Hge]; cbn [orb snd].
    { split; cbn [po_la po_workers]; try done.
      - intros Hpa. specialize (Hr Hpa). rewrite (count_move _ (AtLock n) AtCheck). cbn [past]. destruct (Z.leb_spec (due la) n); lia.
      - intros Hpa. destruct (Hp Hpa). rewrite (count_move _ (AtLock n) AtCheck), (length_move (AtLock n)). cbn [at_add]. lia. }
    destruct (la_paused la) eqn:Epa; cbn [orb snd].
    { split; cbn [po_la po_workers]; try done; [congruence|]. intros _. destruct (Hp eq_refl).
      rewrite (count_move _ (AtLock n) AtCheck), (length_move (AtLock n)). cbn [at_add]. lia. }
    destruct (la_wasteful la) eqn:Ewa; [specialize (Hw eq_refl); congruence|]. cbn [snd]. specialize (Hr eq_refl).
    set (la' := set_verdict _ _ _ _ la). assert (Hdue : due la' = due la) by done.
    split; cbn [po_la po_workers]; rewrite ?Hdue; cbn [la' set_verdict la_sampled la_Used la_paused la_wasteful]; try done. intros _. split; [lia|].
    pose proof (count_split (due la) (w1 ++ AtLock n :: w2)). rewrite (count_move _ (AtLock n) AtCheck), (length_move (AtLock n)). cbn [at_add]. lia.
  - by apply judge_inv.
  - by apply lookup_inv.
  - unfold noteUsed. cbv zeta. apply lookup_inv. destruct (s_contains (la_brought la) h); [|done]. eapply poolInv_same; [..|exact Hi]; cbn; lia || done.
  - eapply poolInv_same; [..|exact Hi]; cbn; lia || done.
  - eapply poolInv_same; [..|exact Hi]; cbn; lia || done.
  - unfold Seed. destruct (_ || off la); [done|]. destruct (fresh_seeds _ _) as [fresh seeded]. eapply poolInv_same; [..|exact Hi]; cbn; lia || done.
  - eapply poolInv_same; [..|exact Hi]; cbn; lia || done.
Qed.

(** A pool just started: [workers] workers, nothing sampled. *)
Definition started (workers : nat) (p : pool) : Prop :=
  po_workers p = replicate workers AtCheck /\ la_sampled (po_la p) = 0 /\ la_Used (po_la p) = 0 /\ la_nextJudge (po_la p) = 0 /\
  la_paused (po_la p) = false /\ la_wasteful (po_la p) = false.

Lemma started_inv workers p : started workers p -> poolInv p.
Proof using Type.
  intros (Hw & Hs & Hu & Hj & Hp & Hx). assert (Hdue : due (po_la p) = lookAheadJudgeAfter) by (unfold due; by rewrite Hj).
  split; rewrite ?Hdue, ?Hs, ?Hu, ?Hw; [by apply Forall_replicate|unfold lookAheadJudgeAfter; lia|congruence|done| |congruence].
  intros _. pose proof (count_nonneg (past lookAheadJudgeAfter) (replicate workers AtCheck)). unfold lookAheadJudgeAfter in *. lia.
Qed.

(** The lookups the build makes decide a pause. *)
Lemma lookups_decide la k : (la_sampled la + 1) / 2 <= Z.of_nat k + (la_lookups la - la_pausedAt la) -> (0 < k)%nat ->
  let la' := Nat.iter k noteLookup la in la_paused la' = false \/ la_wasteful la' = true.
Proof using Type.
  revert la. induction k as [|k IH]; intros la Hk Hpos; [lia|]. cbv zeta. rewrite Nat.iter_succ_r.
  assert (Hn : la_sampled (noteLookup la) = la_sampled la /\
    (la_paused (noteLookup la) = true -> la_wasteful (noteLookup la) = false -> la_lookups (noteLookup la) = la_lookups la + 1 /\ la_pausedAt (noteLookup la) = la_pausedAt la /\
      la_lookups la + 1 - la_pausedAt la < (la_sampled la + 1) / 2)).
  { unfold noteLookup, judge. cbn. destruct (la_paused la) eqn:Ep; cbn; [|by rewrite Ep]. destruct (la_wasteful la) eqn:Ew; cbn; [by rewrite Ep, Ew|].
    destruct (Z.leb_spec (la_sampled la * lookAheadMinUse) (la_Used la * 100)); cbn; [done|].
    destruct (Z.ltb_spec (la_lookups la + 1 - la_pausedAt la) ((la_sampled la + 1) / 2)); cbn; [done|]. done. }
  assert (Hstay : forall j la, la_paused la = false \/ la_wasteful la = true -> la_paused (Nat.iter j noteLookup la) = false \/ la_wasteful (Nat.iter j noteLookup la) = true).
  { clear. induction j as [|j IHj]; intros la Hd; [done|]. rewrite Nat.iter_succ_r. apply IHj. unfold noteLookup, judge. cbn.
    destruct Hd as [Hd|Hd]; rewrite Hd; cbn; [by rewrite Hd; left|]. rewrite orb_true_r. destruct (la_paused la); cbn; by rewrite Hd; right. }
  destruct Hn as [Hsa Hn]. destruct (la_paused (noteLookup la)) eqn:Ep; [|apply Hstay; by left]. destruct (la_wasteful (noteLookup la)) eqn:Ew; [apply Hstay; by right|].
  destruct (Hn eq_refl eq_refl) as (Hl & Ha & Hlt). destruct k as [|k]; [lia|]. apply IH; [|lia]. rewrite Hsa, Hl, Ha. lia.
Qed.

(** Speculation stays in proportion.  However the workers, the build's
    lookups and the verdicts interleave, the entries the pool has fetched are
    fewer than the first sample or ten times what the build has used of them,
    whichever is more, plus one entry for each worker; and half as many lookups
    as it has fetched always end a pause, one way or the other. *)
Theorem lookahead_in_proportion workers p0 p : started workers p0 -> rtc pstep p0 p ->
  la_sampled (po_la p) <= Z.max lookAheadJudgeAfter (10 * la_Used (po_la p)) - 1 + Z.of_nat workers /\
  (forall k, (0 < k)%nat -> (la_sampled (po_la p) + 1) / 2 <= Z.of_nat k + (la_lookups (po_la p) - la_pausedAt (po_la p)) ->
    let la := Nat.iter k noteLookup (po_la p) in la_paused la = false \/ la_wasteful la = true).
Proof.
  intros H0 Hr. assert (Hi : poolInv p /\ length (po_workers p) = workers).
  { apply (rtc_ind_r (fun p => poolInv p /\ length (po_workers p) = workers)) in Hr; [done|split; [by eapply started_inv|destruct H0 as [-> _]; apply length_replicate]|].
    intros x y _ Hxy [Hx Hlen]. destruct (pstep_inv _ _ Hxy Hx) as [Hy Hle]. split; [done|congruence]. }
  destruct Hi as [[Hl Hd Hw Hc Hrun Hp] Hlen]. split; [|intros k Hk Hle; by apply lookups_decide].
  pose proof (count_nonneg at_add (po_workers p)). pose proof (count_split (due (po_la p)) (po_workers p)).
  destruct (la_paused (po_la p)); [destruct (Hp eq_refl)|specialize (Hrun eq_refl)]; lia.
Qed.

(** ** The module fallback *)

(** [mf_wake] numbers the channel [wake]; closing it and making the next is one step. *)
Record manifestFallback := ManifestFallback {
  mf_brought : St; mf_wake : nat; mf_due : Z; mf_landed : Z; mf_fetched : Z; mf_used : Z; mf_lookups : Z; mf_pausedAt : Z; mf_paused : bool; mf_stopped : bool
}.

Definition newManifestFallback : manifestFallback := ManifestFallback s_new 0 lookAheadJudgeAfter 0 0 0 0 0 false false.

Definition judgeLocked (f : manifestFallback) : manifestFallback :=
  if mf_fetched f * lookAheadMinUse <=? mf_used f * 100 then
    ManifestFallback (mf_brought f) (S (mf_wake f)) (mf_due f * 2) (mf_landed f) (mf_fetched f) (mf_used f) (mf_lookups f) (mf_pausedAt f) false (mf_stopped f)
  else if mf_lookups f - mf_pausedAt f <? (mf_fetched f + 1) / 2 then f
  else ManifestFallback (mf_brought f) (S (mf_wake f)) (mf_due f) (mf_landed f) (mf_fetched f) (mf_used f) (mf_lookups f) (mf_pausedAt f) false true.

(** The loop over what arrived. *)
Definition arrive (bf : St * Z) (id : bytes) : St * Z := if s_contains bf.1 id then bf else (s_add id bf.1, bf.2 + 1).

Definition noteLanded (keys : nat) (arrived : list bytes) (f : manifestFallback) : manifestFallback :=
  let '(brought, fetched) := foldl arrive (mf_brought f, mf_fetched f) arrived in
  let landed := mf_landed f + Z.of_nat keys in
  if (mf_due f <=? landed) && negb (mf_paused f) && negb (mf_stopped f)
  then judgeLocked (ManifestFallback brought (mf_wake f) (mf_due f) landed fetched (mf_used f) (mf_lookups f) (mf_lookups f) true (mf_stopped f))
  else ManifestFallback brought (mf_wake f) (mf_due f) landed fetched (mf_used f) (mf_lookups f) (mf_pausedAt f) (mf_paused f) (mf_stopped f).

Definition fb_noteLookup (actionID : bytes) (local : bool) (f : manifestFallback) : manifestFallback :=
  let hit := local && s_contains (mf_brought f) actionID in
  let f := ManifestFallback (if hit then s_remove actionID (mf_brought f) else mf_brought f) (mf_wake f) (mf_due f) (mf_landed f) (mf_fetched f)
             (if hit then mf_used f + 1 else mf_used f) (mf_lookups f + 1) (mf_pausedAt f) (mf_paused f) (mf_stopped f) in
  if mf_paused f then judgeLocked f else f.

(** One turn of [waitTurn]'s loop: its answer, or the channel to wait on. *)
Definition waitTurn (dispatched : Z) (f : manifestFallback) : bool + nat :=
  if mf_stopped f then inl false
  else if (dispatched <? mf_due f) && negb (mf_paused f) then inl true
  else inr (mf_wake f).

(** The dispatcher of [fetchFallback] at its loop, waiting, with its turn, and
    out of the loop; the parts sent and not landed; how many keys are left. *)
Inductive dispatcherAt := DTurn | DWait (wake : nat) | DSend | DOut.

Record fallbackFetch := FallbackFetch { ff_f : manifestFallback; ff_at : dispatcherAt; ff_dispatched : Z; ff_flight : list nat; ff_left : nat }.

Inductive fbstep : fallbackFetch -> fallbackFetch -> Prop :=
  | fb_turn f d fl n r : (0 < n)%nat -> waitTurn d f = r ->
      fbstep (FallbackFetch f DTurn d fl n) (FallbackFetch f (match r with inl true => DSend | inl false => DOut | inr w => DWait w end) d fl n)
  | fb_woken f d fl n w : (w < mf_wake f)%nat -> fbstep (FallbackFetch f (DWait w) d fl n) (FallbackFetch f DTurn d fl n)
  | fb_send f d fl n : let k := Nat.min batchMaxKeys n in
      fbstep (FallbackFetch f DSend d fl n) (FallbackFetch f DTurn (d + Z.of_nat k) (k :: fl) (n - k))
  | fb_end f d fl : fbstep (FallbackFetch f DTurn d fl 0) (FallbackFetch f DOut d fl 0)
  | fb_cancel f at_ d fl n : fbstep (FallbackFetch f at_ d fl n) (FallbackFetch f DOut d fl n)
  | fb_land f at_ d fl1 k fl2 n arrived :
      fbstep (FallbackFetch f at_ d (fl1 ++ k :: fl2) n) (FallbackFetch (noteLanded k arrived f) at_ d (fl1 ++ fl2) n)
  | fb_lookup f at_ d fl n id local : fbstep (FallbackFetch f at_ d fl n) (FallbackFetch (fb_noteLookup id local f) at_ d fl n).

Definition in_flight (fl : list nat) : Z := foldr (fun k n => Z.of_nat k + n) 0 fl.

Lemma in_flight_nonneg fl : 0 <= in_flight fl.
Proof using Type. induction fl as [|k fl IH]; [done|]. change (in_flight (k :: fl)) with (Z.of_nat k + in_flight fl). lia. Qed.

Lemma in_flight_middle fl1 k fl2 : in_flight (fl1 ++ k :: fl2) = Z.of_nat k + in_flight (fl1 ++ fl2).
Proof using Type.
  induction fl1 as [|j fl IH]; [done|]. cbn [app]. change (in_flight (j :: ?l)) with (Z.of_nat j + in_flight l). rewrite IH. lia.
Qed.

Record fbInv (s : fallbackFetch) : Prop := {
  fv_flight : mf_landed (ff_f s) + in_flight (ff_flight s) = ff_dispatched s;
  fv_due : lookAheadJudgeAfter <= mf_due (ff_f s);
  fv_ahead : ff_dispatched s <= mf_due (ff_f s) + Z.of_nat batchMaxKeys - 1;
  fv_turn : ff_at s = DSend -> ff_dispatched s < mf_due (ff_f s);
  fv_judged : mf_paused (ff_f s) = false -> mf_stopped (ff_f s) = false -> mf_landed (ff_f s) < mf_due (ff_f s);
  fv_used : mf_used (ff_f s) + Z.of_nat (s_len (mf_brought (ff_f s))) = mf_fetched (ff_f s);
  fv_alive : mf_paused (ff_f s) = true -> mf_stopped (ff_f s) = false;
  fv_wait : forall w, ff_at s = DWait w -> (w < mf_wake (ff_f s))%nat \/
    (w = mf_wake (ff_f s) /\ mf_stopped (ff_f s) = false /\ (mf_due (ff_f s) <= ff_dispatched s \/ mf_paused (ff_f s) = true))
}.

Lemma arrive_len arrived : forall brought fetched used,
  used + Z.of_nat (s_len brought) = fetched ->
  let '(b, n) := foldl arrive (brought, fetched) arrived in used + Z.of_nat (s_len b) = n.
Proof.
  induction arrived as [|id l IH]; intros b n u Hu; [done|]. cbn [foldl]. unfold arrive at 2. cbn [fst snd].
  destruct (s_contains b id) eqn:Ec; [by apply IH|]. apply IH. rewrite len_add by done. lia.
Qed.

(** What a verdict on a paused fallback leaves. *)
Lemma judgeLocked_inv f at_ d fl n : mf_paused f = true -> mf_stopped f = false -> (at_ = DSend -> d < mf_due f) ->
  mf_landed f + in_flight fl = d -> lookAheadJudgeAfter <= mf_due f -> d <= mf_due f + Z.of_nat batchMaxKeys - 1 ->
  mf_used f + Z.of_nat (s_len (mf_brought f)) = mf_fetched f ->
  (forall w, at_ = DWait w -> (w <= mf_wake f)%nat) ->
  fbInv (FallbackFetch (judgeLocked f) at_ d fl n).
Proof using Type.
  intros Hp Hs Hsend Hfl Hdue Hahead Hused Hw. unfold lookAheadJudgeAfter, batchMaxKeys in *. pose proof (in_flight_nonneg fl).
  unfold judgeLocked. destruct (_ <=? _); [|destruct (_ <? _)]; split; cbn; unfold lookAheadJudgeAfter, batchMaxKeys; try done; try lia; try congruence.
  - intros w He. left. specialize (Hw w He). lia.
  - intros w He. specialize (Hw w He). destruct (decide (w = mf_wake f)); [right|left; lia]. by auto.
  - intros w He. left. specialize (Hw w He). lia.
Qed.

Lemma waits_le s w : fbInv s -> ff_at s = DWait w -> (w <= mf_wake (ff_f s))%nat.
Proof using Type. intros Hi Hw. destruct (fv_wait s Hi w Hw) as [?|[-> _]]; lia. Qed.

Lemma land_inv f at_ d fl1 k fl2 n arrived : fbInv (FallbackFetch f at_ d (fl1 ++ k :: fl2) n) ->
  fbInv (FallbackFetch (noteLanded k arrived f) at_ d (fl1 ++ fl2) n).
Proof.
  intros Hi. pose proof (fun w => waits_le _ w Hi) as Hle. destruct Hi as [Hfl Hdue Hah Htu Hju Hus Hal Hwa]. cbn [ff_f ff_at ff_dispatched ff_flight] in *.
  assert (Hfl' : mf_landed f + Z.of_nat k + in_flight (fl1 ++ fl2) = d) by (rewrite in_flight_middle in Hfl; lia).
  pose proof (arrive_len arrived _ _ _ Hus) as Hlen. unfold noteLanded. destruct (foldl arrive _ arrived) as [b nf].
  destruct (mf_paused f) eqn:Ep; cbn [negb andb]; [rewrite andb_false_r; cbn [andb]|rewrite andb_true_r; destruct (mf_stopped f) eqn:Es; cbn [negb andb]; [rewrite andb_false_r|rewrite andb_true_r]].
  - by split; cbn.
  - split; cbn; done || congruence.
  - destruct (Z.leb_spec (mf_due f) (mf_landed f + Z.of_nat k)) as [Hge|Hlt].
    + by apply judgeLocked_inv; cbn.
    + by split; cbn.
Qed.

Lemma fb_lookup_inv f at_ d fl n id local : fbInv (FallbackFetch f at_ d fl n) -> fbInv (FallbackFetch (fb_noteLookup id local f) at_ d fl n).
Proof.
  intros Hi. pose proof (fun w => waits_le _ w Hi) as Hle. destruct Hi as [Hfl Hdue Hah Htu Hju Hus Hal Hwa]. cbn [ff_f ff_at ff_dispatched ff_flight] in *.
  unfold fb_noteLookup. cbv zeta. cbn [mf_paused].
  set (hit := local && s_contains (mf_brought f) id). set (f1 := ManifestFallback _ _ _ _ _ _ _ _ _ _).
  assert (Hus1 : mf_used f1 + Z.of_nat (s_len (mf_brought f1)) = mf_fetched f1).
  { unfold f1, hit. cbn [mf_used mf_brought mf_fetched]. destruct local; cbn [andb]; [|done]. destruct (s_contains (mf_brought f) id) eqn:Ec; [|done].
    rewrite (len_remove _ _ Ec) in Hus. lia. }
  destruct (mf_paused f) eqn:Ep.
  - apply judgeLocked_inv; cbn; try done. by apply Hal.
  - split; cbn; try done; rewrite Ep in *; done.
Qed.

Lemma fbstep_inv s s' : fbstep s s' -> fbInv s -> fbInv s'.
Proof.
  intros Hs Hi. destruct Hs as [f d fl n r Hn Hw|f d fl n w Hw|f d fl n k|f d fl|f at_ d fl n|f at_ d fl1 k fl2 n arrived|f at_ d fl n id local];
    [| | | | |by apply land_inv|by apply fb_lookup_inv]; destruct Hi as [Hfl Hdue Hah Htu Hju Hus Hal Hwa]; cbn [ff_f ff_at ff_dispatched ff_flight] in *.
  - unfold waitTurn in Hw. destruct (mf_stopped f) eqn:Es; [subst r; by split; cbn; rewrite ?Es|].
    destruct (Z.ltb_spec d (mf_due f)), (mf_paused f) eqn:Ep; cbn [negb andb] in Hw; subst r; split; cbn; rewrite ?Es, ?Ep; try done; intros w Hw; first [discriminate Hw|injection Hw as <-; right; auto].
  - by split.
  - specialize (Htu eq_refl). split; cbn [ff_f ff_at ff_dispatched ff_flight]; try done; [change (in_flight (k :: fl)) with (Z.of_nat k + in_flight fl); lia|].
    unfold k, batchMaxKeys in *. lia.
  - by split.
  - by split.
Qed.

(** Lookups decide a pause. *)
Lemma fb_lookups_decide ls : forall f, mf_stopped f = false -> (mf_fetched f + 1) / 2 <= Z.of_nat (length ls) + (mf_lookups f - mf_pausedAt f) -> ls <> [] ->
  mf_paused (foldl (fun f il => fb_noteLookup il.1 il.2 f) f ls) = false.
Proof using Type.
  assert (Hstay : forall ls f, mf_paused f = false -> mf_paused (foldl (fun f il => fb_noteLookup il.1 il.2 f) f ls) = false).
  { clear. induction ls as [|il ls IH]; intros f Hp; [done|]. cbn [foldl]. apply IH. unfold fb_noteLookup. cbn. by rewrite Hp. }
  induction ls as [|[id local] ls IH]; intros f Hs Hk Hne; [done|]. cbn [foldl fst snd length] in *.
  assert (Hn : mf_paused (fb_noteLookup id local f) = true -> mf_stopped (fb_noteLookup id local f) = false /\ mf_fetched (fb_noteLookup id local f) = mf_fetched f /\
    mf_lookups (fb_noteLookup id local f) = mf_lookups f + 1 /\ mf_pausedAt (fb_noteLookup id local f) = mf_pausedAt f /\
    mf_lookups f + 1 - mf_pausedAt f < (mf_fetched f + 1) / 2).
  { unfold fb_noteLookup. cbv zeta. cbn [mf_paused]. destruct (mf_paused f) eqn:Ep; [|cbn; congruence]. unfold judgeLocked. cbn.
    destruct (_ <=? _); cbn; [done|]. destruct (Z.ltb_spec (mf_lookups f + 1 - mf_pausedAt f) ((mf_fetched f + 1) / 2)); cbn; done. }
  destruct (mf_paused (fb_noteLookup id local f)) eqn:Ep; [|by apply Hstay]. destruct (Hn eq_refl) as (H1 & H2 & H3 & H4 & H5).
  destruct ls as [|il ls]; [cbn [length] in Hk; lia|]. apply IH; [done| |done]. rewrite H2, H3, H4. lia.
Qed.

(** The fallback fetch never waits for nothing.  However its requests, the
    build's lookups and the verdicts interleave: a dispatcher that waits is about
    to be woken, or a request is on its way, or the sample is paused, and then
    half as many lookups as it brought entries end the pause; it is never more
    than one part past the next verdict; and an entry counts as used only once
    for each time it was brought. *)
Theorem fallback_never_stuck n s : rtc fbstep (FallbackFetch newManifestFallback DTurn 0 [] n) s ->
  (forall w, ff_at s = DWait w -> (w < mf_wake (ff_f s))%nat \/ (0 < in_flight (ff_flight s)) \/ mf_paused (ff_f s) = true) /\
  (forall ls, mf_paused (ff_f s) = true -> ls <> [] -> (mf_fetched (ff_f s) + 1) / 2 <= Z.of_nat (length ls) + (mf_lookups (ff_f s) - mf_pausedAt (ff_f s)) ->
    mf_paused (foldl (fun f il => fb_noteLookup il.1 il.2 f) (ff_f s) ls) = false) /\
  ff_dispatched s < mf_due (ff_f s) + Z.of_nat batchMaxKeys /\ mf_used (ff_f s) <= mf_fetched (ff_f s).
Proof.
  intros Hr. assert (Hi : fbInv s).
  { apply (rtc_ind_r fbInv) in Hr; [done| |intros x y _ Hxy Hx; by eapply fbstep_inv].
    split; cbn; try done.
    assert (H0 : s_len (s_new : St) = 0%nat) by (apply len_zero_contains; intros x; apply contains_new). by rewrite H0. }
  split_and!.
  - intros w Hw. destruct (fv_wait s Hi w Hw) as [?|(_ & Hst & [Hd|Hp])]; [by left| |by auto]. destruct (mf_paused (ff_f s)) eqn:Ep; [by auto|]. right. left.
    pose proof (fv_judged s Hi Ep Hst). pose proof (fv_flight s Hi). lia.
  - intros ls Hp Hne Hk. apply fb_lookups_decide; [by apply (fv_alive s Hi)|done|done].
  - pose proof (fv_ahead s Hi). lia.
  - pose proof (fv_used s Hi). lia.
Qed.

End lookahead.

(** ** Concrete runs *)

Definition demoPool0 : @pool (gset bytes) := Pool (LookAhead [] 32 ∅ 0 0 0 false false false false ∅ 0 0 0 0 0 0) [AtCheck; AtCheck].
Definition demoPool3 : @pool (gset bytes) := Pool (sample_lock 1 (sample_add 1 (po_la demoPool0)).2).2 [AtCheck; AtCheck].

Lemma lookahead_in_proportion_witness : rtc pstep demoPool0 demoPool3 /\ la_sampled (po_la demoPool3) = 1 /\ la_sampled (po_la demoPool3) <= Z.max 256 0 - 1 + 2.
Proof.
  assert (Hr : rtc pstep demoPool0 demoPool3).
  { eapply rtc_l; [exact (p_check (po_la demoPool0) [] [AtCheck] eq_refl)|]. eapply rtc_l; [exact (p_add _ [] [AtCheck])|]. apply rtc_once. exact (p_lock _ [] [AtCheck] 1). }
  split; [exact Hr|]. split; [reflexivity|]. refine (proj1 (lookahead_in_proportion 2 demoPool0 demoPool3 _ Hr)). by split_and!.
Defined.

(** Four parts fill two samples; none of what came is used, so the sample is paused
    and the dispatcher waits. *)
Definition demoFb (f : @manifestFallback (gset bytes)) (at_ : dispatcherAt) (d : Z) (fl : list nat) (n : nat) : fallbackFetch := FallbackFetch f at_ d fl n.
Definition demoLanded : @manifestFallback (gset bytes) := noteLanded 128 [[2]] (noteLanded 128 [[1]] newManifestFallback).

Lemma fallback_never_stuck_witness :
  rtc fbstep (demoFb newManifestFallback DTurn 0 [] 300) (demoFb demoLanded (DWait 0) 256 [] 44) /\ mf_paused demoLanded = true /\
  mf_paused (foldl (fun f il => fb_noteLookup il.1 il.2 f) demoLanded [([9], false)]) = false.
Proof.
  assert (Hr : rtc fbstep (demoFb newManifestFallback DTurn 0 [] 300) (demoFb demoLanded (DWait 0) 256 [] 44)).
  { eapply rtc_l; [apply (fb_turn _ _ _ _ (inl true)); [lia|reflexivity]|]. eapply rtc_l; [apply fb_send|].
    eapply rtc_l; [apply (fb_turn _ _ _ _ (inl true)); [cbn; lia|reflexivity]|]. eapply rtc_l; [apply fb_send|].
    eapply rtc_l; [apply (fb_land _ _ _ [128%nat] 128%nat [] _ [[1]])|]. eapply rtc_l; [apply (fb_land _ _ _ [] 128%nat [] _ [[2]])|].
    apply rtc_once. apply (fb_turn demoLanded 256 [] 44 (inr 0%nat)); [lia|vm_compute; reflexivity]. }
  assert (Hp : mf_paused demoLanded = true) by (vm_compute; reflexivity). split; [exact Hr|]. split; [exact Hp|].
  destruct (fallback_never_stuck 300 _ Hr) as (_ & Hd & _). apply Hd; [exact Hp|congruence|vm_compute; congruence].
Defined.
