(* ===== verification/CacheVersion.v ===== *)
(** * The version of the data directory

    [cacheversion.go] and the start of [NewStorage] ([storage.go]): a directory
    marked with another version is purged before anything is served from it, and
    temp files of interrupted uploads are removed.

    A directory maps the components of a path below it to a file.  A file
    carries, beside its bytes, the version of the server that wrote it, which the
    code cannot see: the theorem is that a server only ever meets files of its
    own.  Every system call may fail, and the process may die at any point of a
    start: while it removes files, and while it writes the marker.  The lock
    ([ipc.TryLockFile]) lets one server at a time into the directory. *)

From Stdlib Require Import ZArith Lia List Bool String.
From stdpp Require Import base gmap list relations.
From S2P Require Import Prelude SortedSlice Strconv Keys Paths.

Definition currentCacheVersion : Z := 4.

Record vfile := VFile { vf_data : bytes; vf_writer : Z }.

Abbreviation dataDir := (gmap (list bytes) vfile).

(** What fails: the read of the marker, the listing, the removal of a top-level
    entry ([se_gone] tells which of its files go all the same), the write of the
    marker, which then leaves a first part of it, and the removal of temp files. *)
Record startEnv := StartEnv {
  se_read : bool; se_list : bool; se_remove : bytes -> bool; se_gone : list bytes -> bool; se_write : option nat; se_sweep : list bytes -> bool
}.

Definition readCacheVersion (env : startEnv) (d : dataDir) : option Z :=
  match d !! [cacheVersionFile] with
  | None => Some 1
  | Some f => if se_read env then parseInt (trimSpace (vf_data f)) else None
  end.

Definition version_text (v : Z) : bytes := formatInt v ++ [10].

Definition writeCacheVersion (env : startEnv) (v : Z) (d : dataDir) : bool * dataDir :=
  match se_write env with
  | None => (true, <[[cacheVersionFile] := VFile (version_text v) v]> d)
  | Some n => (false, <[[cacheVersionFile] := VFile (take n (version_text v)) v]> d)
  end.

(** [os.ReadDir]: the names in the directory, each once, in order. *)
Definition entries (d : dataDir) : list bytes := sort_dedupe (omap head (map_to_list d).*1).

Definition RemoveAll (env : startEnv) (name : bytes) (d : dataDir) : bool * dataDir :=
  if se_remove env name then (true, filter (fun pf => head pf.1 <> Some name) d)
  else (false, filter (fun pf => head pf.1 <> Some name \/ se_gone env pf.1 = false) d).

Fixpoint purge_loop (env : startEnv) (names : list bytes) (d : dataDir) : bool * dataDir :=
  match names with
  | [] => (true, d)
  | name :: names' =>
      if bytes_eqb name lockFileName then purge_loop env names' d
      else let '(ok, d) := RemoveAll env name d in if ok then purge_loop env names' d else (false, d)
  end.

Definition purgeDataDir (env : startEnv) (d : dataDir) : bool * dataDir := if se_list env then purge_loop env (entries d) d else (false, d).

(** [ensureCacheVersion] of a server of version [v]. *)
Definition ensureCacheVersion (env : startEnv) (v : Z) (d : dataDir) : bool * dataDir :=
  match readCacheVersion env d with
  | None => (false, d)
  | Some stored =>
      if stored =? v then (true, d)
      else
        let '(ok, d) := purgeDataDir env d in
        if negb ok then (false, d) else writeCacheVersion env v d
  end.

(** The callback of the walk: the last component starts like a temp file's. *)
Definition is_temp (p : list bytes) : bool := match last p with Some name => has_prefix name tempFilePrefix | None => false end.

Definition sweepTempFiles (env : startEnv) (d : dataDir) : dataDir := filter (fun pf => is_temp pf.1 = false \/ se_sweep env pf.1 = false) d.

(** [NewStorage], as far as the directory goes; the lock file exists from then on. *)
Definition NewStorage (env : startEnv) (v : Z) (d : dataDir) : bool * dataDir :=
  let d := match d !! [lockFileName] with Some _ => d | None => <[[lockFileName] := VFile [] v]> d end in
  let '(ok, d) := ensureCacheVersion env v d in
  if ok then (true, sweepTempFiles env d) else (false, d).

(** ** Servers come and go *)

(** Where the server puts objects, temp files and the sweep marker: not at its own two files. *)
Definition server_path (p : list bytes) : Prop := exists name rest, p = name :: rest /\ name <> lockFileName /\ name <> cacheVersionFile.

(** The directory, and the version of the server that serves from it. *)
Record site := Site { si_dir : dataDir; si_up : option Z }.

Inductive sstep : site -> site -> Prop :=
  | s_start env v d ok d' : 2 <= v < 2 ^ 63 -> NewStorage env v d = (ok, d') -> sstep (Site d None) (Site d' (if ok then Some v else None))
  | s_dies_purging gone d : (** any of the files is gone, the lock excepted *)
      sstep (Site d None) (Site (filter (fun pf => pf.1 = [lockFileName] \/ gone pf.1 = false) d) None)
  | s_dies_marking v n d :
      sstep (Site d None) (Site (<[[cacheVersionFile] := VFile (take n (version_text v)) v]> (filter (fun pf => pf.1 = [lockFileName]) d)) None)
  | s_write v p data d : server_path p -> sstep (Site d (Some v)) (Site (<[p := VFile data v]> d) (Some v))
  | s_delete v p d : server_path p -> sstep (Site d (Some v)) (Site (delete p d) (Some v))
  | s_stops v d : sstep (Site d (Some v)) (Site d None).

(** ** What the marker vouches for *)

Definition all_by (v : Z) (d : dataDir) : Prop := forall p f, d !! p = Some f -> server_path p -> vf_writer f = v.

(** What a readable marker says. *)
Definition marked (d : dataDir) : option Z := match d !! [cacheVersionFile] with Some f => parseInt (trimSpace (vf_data f)) | None => None end.

Definition vouched (d : dataDir) : Prop := forall v, marked d = Some v -> all_by v d.

Definition sane (d : dataDir) : Prop := forall p f, d !! p = Some f -> p = [lockFileName] \/ p = [cacheVersionFile] \/ server_path p.

Lemma server_not_own p : server_path p -> p <> [lockFileName] /\ p <> [cacheVersionFile].
Proof. intros (name & rest & -> & Hl & Hc). split; intros [= -> _]; done. Qed.

Lemma read_marked env d v : readCacheVersion env d = Some v -> v <> 1 -> marked d = Some v.
Proof. unfold readCacheVersion, marked. destruct (d !! _); [by destruct (se_read env)|]. congruence. Qed.

(** Fewer files: what held of all of them still does. *)
Lemma vouched_sub (d d' : dataDir) : d' ⊆ d -> vouched d -> vouched d'.
Proof.
  intros Hs Hv v Hm p f Hf. apply (Hv v); [|by eapply lookup_weaken]. revert Hm. unfold marked.
  destruct (d' !! [cacheVersionFile]) as [g|] eqn:E; [|done]. by rewrite (lookup_weaken _ _ _ _ E Hs).
Qed.

Lemma sane_sub (d d' : dataDir) : d' ⊆ d -> sane d -> sane d'.
Proof. intros Hs Hd p f Hf. eapply Hd. by eapply lookup_weaken. Qed.

Lemma purge_loop_sub env names : forall d, (purge_loop env names d).2 ⊆ d.
Proof.
  induction names as [|name names IH]; intros d; cbn [purge_loop]; [done|]. destruct (bytes_eqb name lockFileName); [apply IH|].
  unfold RemoveAll. destruct (se_remove env name); [etrans; [apply IH|]|]; apply map_filter_subseteq.
Qed.

(** A purge that reports no error has removed every entry but the lock. *)
Lemma purge_loop_ok env names : forall d d', purge_loop env names d = (true, d') ->
  forall p f, d' !! p = Some f -> forall name, head p = Some name -> name ∈ names -> name = lockFileName.
Proof.
  induction names as [|name names IH]; intros d d' Hp p f Hf n Hn Hin; [by apply not_elem_of_nil in Hin|]. cbn [purge_loop] in Hp.
  destruct (bytes_eqb name lockFileName) eqn:En.
  - apply bytes_eqb_eq in En as ->. apply elem_of_cons in Hin as [->|Hin]; [done|]. by eapply IH.
  - unfold RemoveAll in Hp. destruct (se_remove env name); [|done]. apply elem_of_cons in Hin as [->|Hin]; [|by eapply IH].
    set (d0 := filter _ d) in Hp. pose proof (purge_loop_sub env names d0) as Hsub. rewrite Hp in Hsub. cbn [snd] in Hsub.
    pose proof (lookup_weaken _ _ _ _ Hf Hsub) as Hf0. by apply map_lookup_filter_Some in Hf0 as [_ Hh].
Qed.

Lemma entries_elem (d : dataDir) p f name : d !! p = Some f -> head p = Some name -> name ∈ entries d.
Proof.
  intros Hf Hn. unfold entries. apply elem_of_sort_dedupe, list_elem_of_omap. exists p. split; [|done].
  apply list_elem_of_fmap. exists (p, f). split; [done|]. by apply elem_of_map_to_list.
Qed.

Lemma purge_empties env d d' : sane d -> purgeDataDir env d = (true, d') -> d' ⊆ d /\ forall p f, d' !! p = Some f -> p = [lockFileName].
Proof.
  unfold purgeDataDir. destruct (se_list env); [|done]. intros Hs Hp. pose proof (purge_loop_sub env (entries d) d) as Hsub. rewrite Hp in Hsub.
  split; [done|]. intros p f Hf. pose proof (lookup_weaken _ _ _ _ Hf Hsub) as Hd. pose proof (purge_loop_ok _ _ _ _ Hp p f Hf) as Hk.
  destruct (Hs p f Hd) as [->|[->|(name & rest & -> & Hl & _)]]; [done| |].
  - by specialize (Hk cacheVersionFile eq_refl (entries_elem _ _ _ _ Hd eq_refl)).
  - by specialize (Hk name eq_refl (entries_elem _ _ _ _ Hd eq_refl)).
Qed.

Lemma version_reads v : 0 <= v < 2 ^ 63 -> parseInt (trimSpace (version_text v)) = Some v.
Proof.
  intros Hv. unfold version_text. destruct (formatUint_spec v ltac:(lia)) as (Hne & _ & Hd & _).
  assert (Hf : formatInt v = formatUint v) by (unfold formatInt; destruct (Z.ltb_spec v 0); [lia|done]).
  rewrite trimSpace_line; [apply parseInt_format; lia| |by rewrite Hf]. rewrite Hf. eapply Forall_impl; [exact Hd|].
  intros c Hc. unfold is_digit, is_graph in *. lia.
Qed.

(** A marker beside nothing but the lock vouches for everything. *)
Lemma marker_alone (d : dataDir) f : (forall p g, d !! p = Some g -> p = [lockFileName]) ->
  vouched (<[[cacheVersionFile] := f]> d) /\ sane (<[[cacheVersionFile] := f]> d) /\ forall v, all_by v (<[[cacheVersionFile] := f]> d).
Proof.
  intros Hd. assert (Hall : forall v, all_by v (<[[cacheVersionFile] := f]> d)).
  { intros v p g Hg Hp. destruct (server_not_own p Hp) as [Hl Hc]. rewrite lookup_insert_ne in Hg by done. by apply Hd in Hg. }
  split; [by intros v _|]. split; [|done]. intros p g Hg. destruct (decide (p = [cacheVersionFile])) as [->|Hne]; [by auto|].
  rewrite lookup_insert_ne in Hg by done. left. by eapply Hd.
Qed.

Lemma ensure_inv env v d ok d' : 2 <= v < 2 ^ 63 -> sane d -> vouched d -> ensureCacheVersion env v d = (ok, d') ->
  sane d' /\ vouched d' /\ (ok = true -> marked d' = Some v /\ all_by v d').
Proof.
  intros Hv Hs Hvo. unfold ensureCacheVersion. destruct (readCacheVersion env d) as [stored|] eqn:Er; [|by intros [= <- <-]].
  destruct (Z.eqb_spec stored v) as [->|Hne].
  { intros [= <- <-]. split; [done|]. split; [done|]. intros _. pose proof (read_marked _ _ _ Er ltac:(lia)) as Hm. split; [done|]. by apply Hvo. }
  destruct (purgeDataDir env d) as [pok d1] eqn:Ep. destruct pok; cbn [negb].
  - destruct (purge_empties _ _ _ Hs Ep) as [Hsub Hd1]. unfold writeCacheVersion. destruct (se_write env) as [n|]; intros [= <- <-].
    + destruct (marker_alone d1 (VFile (take n (version_text v)) v) Hd1) as (H1 & H2 & _). by split_and!.
    + destruct (marker_alone d1 (VFile (version_text v) v) Hd1) as (H1 & H2 & H3). split_and!; [done|done|]. intros _. split; [|done].
      unfold marked. rewrite lookup_insert_eq. cbn [vf_data]. apply version_reads. lia.
  - intros [= <- <-]. assert (Hsub : d1 ⊆ d).
    { unfold purgeDataDir in Ep. destruct (se_list env); [|by injection Ep as <-]. pose proof (purge_loop_sub env (entries d) d) as H. by rewrite Ep in H. }
    split; [by eapply sane_sub|]. split; [by eapply vouched_sub|done].
Qed.

Lemma sweep_marked env d : marked (sweepTempFiles env d) = marked d.
Proof.
  unfold marked, sweepTempFiles. destruct (d !! [cacheVersionFile]) as [f|] eqn:E.
  - set (P := fun pf : list bytes * vfile => _). assert (filter P d !! [cacheVersionFile] = Some f) as ->; [|done]. apply map_lookup_filter_Some. split; [done|by left].
  - set (P := fun pf : list bytes * vfile => _). assert (filter P d !! [cacheVersionFile] = None) as ->; [|done]. apply map_lookup_filter_None. by left.
Qed.

Lemma NewStorage_inv env v d ok d' : 2 <= v < 2 ^ 63 -> sane d -> vouched d -> NewStorage env v d = (ok, d') ->
  sane d' /\ vouched d' /\ (ok = true -> marked d' = Some v /\ all_by v d').
Proof.
  intros Hv Hs Hvo. unfold NewStorage. set (d0 := match d !! [lockFileName] with Some _ => _ | None => _ end).
  assert (H0 : sane d0 /\ vouched d0).
  { unfold d0. destruct (d !! [lockFileName]) eqn:El; [done|]. split.
    - intros p f Hf. destruct (decide (p = [lockFileName])) as [->|Hne]; [by left|]. rewrite lookup_insert_ne in Hf by done. by eapply Hs.
    - intros w Hm p f Hf Hp. destruct (server_not_own p Hp) as [Hl _]. rewrite lookup_insert_ne in Hf by done.
      unfold marked in Hm. rewrite lookup_insert_ne in Hm by done. by apply (Hvo w Hm p). }
  destruct H0 as [Hs0 Hv0]. destruct (ensureCacheVersion env v d0) as [eok d1] eqn:Ee.
  destruct (ensure_inv _ _ _ _ _ Hv Hs0 Hv0 Ee) as (H1 & H2 & H3). destruct eok; intros [= <- <-]; [|done].
  assert (Hsub : sweepTempFiles env d1 ⊆ d1) by apply map_filter_subseteq.
  split; [by eapply sane_sub|]. split; [by eapply vouched_sub|]. intros _. destruct (H3 eq_refl) as [Hm Ha]. split; [by rewrite sweep_marked|].
  intros p f Hf Hp. apply (Ha p); [by eapply lookup_weaken|done].
Qed.

Definition site_ok (s : site) : Prop :=
  sane (si_dir s) /\ vouched (si_dir s) /\ (forall v, si_up s = Some v -> marked (si_dir s) = Some v /\ all_by v (si_dir s)).

Lemma sstep_ok s s' : sstep s s' -> site_ok s -> site_ok s'.
Proof.
  intros Hs (Hsa & Hvo & Hup). destruct Hs as [env v d ok d' Hv Hn|gone d|v n d|v p data d Hp|v p d Hp|v d]; cbn [si_dir si_up] in *.
  - destruct (NewStorage_inv _ _ _ _ _ Hv Hsa Hvo Hn) as (H1 & H2 & H3). split; [done|]. split; [done|]. cbn [si_up]. destruct ok; [|done].
    intros w [= <-]. by apply H3.
  - split; [|split; [|done]]; cbn [si_dir]; [eapply sane_sub|eapply vouched_sub]; [apply map_filter_subseteq|done|apply map_filter_subseteq|done].
  - destruct (marker_alone (filter (fun pf => pf.1 = [lockFileName]) d) (VFile (take n (version_text v)) v)) as (H1 & H2 & _); [|by split].
    intros p f Hf. by apply map_lookup_filter_Some in Hf as [_ ?].
  - destruct (Hup v eq_refl) as [Hm Ha]. destruct (server_not_own p Hp) as [Hl Hc].
    assert (Hm' : marked (<[p := VFile data v]> d) = Some v) by (unfold marked in *; by rewrite lookup_insert_ne).
    assert (Ha' : all_by v (<[p := VFile data v]> d)).
    { intros q f Hf Hq. destruct (decide (q = p)) as [->|Hne]; [rewrite lookup_insert_eq in Hf; by injection Hf as <-|]. rewrite lookup_insert_ne in Hf by done. by apply (Ha q). }
    split; cbn [si_dir si_up]; [|split; [intros w Hw; assert (w = v) as -> by congruence; done|by intros w [= <-]]].
    intros q f Hf. destruct (decide (q = p)) as [->|Hne]; [by auto|]. rewrite lookup_insert_ne in Hf by done. by eapply Hsa.
  - destruct (Hup v eq_refl) as [Hm Ha]. destruct (server_not_own p Hp) as [Hl Hc]. pose proof (delete_subseteq d p) as Hsub.
    split; cbn [si_dir si_up]; [by eapply sane_sub|split; [by eapply vouched_sub|]]. intros w [= <-]. split; [unfold marked in *; by rewrite lookup_delete_ne|].
    intros q f Hf Hq. apply (Ha q); [by eapply lookup_weaken|done].
  - by split_and!.
Qed.

(** Every call works. *)
Definition works (env : startEnv) : Prop :=
  se_read env = true /\ se_list env = true /\ (forall n, se_remove env n = true) /\ se_write env = None /\ forall p, se_sweep env p = true.

Lemma purge_works env d : works env -> exists d', purgeDataDir env d = (true, d').
Proof.
  intros (_ & Hl & Hr & _). unfold purgeDataDir. rewrite Hl. generalize (entries d) as names. intros names. revert d.
  induction names as [|n names IH]; intros d; cbn [purge_loop]; [by eexists|]. destruct (bytes_eqb n lockFileName); [apply IH|]. unfold RemoveAll. rewrite Hr. apply IH.
Qed.

(** C17. No server serves what another version wrote.  Whatever servers of
    whatever versions were started before, with any call failing and any of them
    dying while it purges or marks the directory: a server that came up finds
    its own version on the marker, and every object in the directory was written
    by servers of that version.  A start whose calls work succeeds unless the
    marker is unreadable; it leaves no temp files, and where the version was
    right it touches no other file. *)
Theorem serves_own_version d0 s : sane d0 -> d0 !! [cacheVersionFile] = None -> rtc sstep (Site d0 None) s ->
  (forall v, si_up s = Some v -> marked (si_dir s) = Some v /\ all_by v (si_dir s)) /\
  (forall env v, 2 <= v < 2 ^ 63 -> works env -> si_dir s !! [cacheVersionFile] = None \/ is_Some (marked (si_dir s)) ->
    exists d', NewStorage env v (si_dir s) = (true, d') /\ (forall p, is_temp p = true -> d' !! p = None) /\
      (marked (si_dir s) = Some v -> forall p, is_temp p = false -> p <> [lockFileName] -> d' !! p = si_dir s !! p)).
Proof.
  intros Hsa Hno Hr. assert (Hi : site_ok s).
  { apply (rtc_ind_r site_ok) in Hr; [done| |intros x y _ Hxy Hx; by eapply sstep_ok]. split; [done|]. split; [|done]. intros v. unfold marked. cbn [si_dir]. by rewrite Hno. }
  destruct Hi as (Hs & Hv & Hup). split; [exact Hup|]. intros env v Hve Hw Hm. unfold NewStorage. set (d := si_dir s) in *. set (d1 := match d !! [lockFileName] with Some _ => _ | None => _ end).
  assert (Hd1 : forall p, p <> [lockFileName] -> d1 !! p = d !! p) by (intros p Hp; unfold d1; destruct (d !! [lockFileName]); [done|by rewrite lookup_insert_ne]).
  assert (Hread : exists stored, readCacheVersion env d1 = Some stored /\ (marked d = Some v -> stored = v)).
  { destruct Hw as [Hrd _]. unfold readCacheVersion. rewrite Hd1, Hrd by done. unfold marked in *. destruct Hm as [Hm|[w Hm]]; [rewrite Hm in *; by exists 1|].
    destruct (d !! [cacheVersionFile]) as [f|]; [|done]. exists w. split; [done|congruence]. }
  destruct Hread as (stored & Hst & Heq).
  assert (Hens : exists d2, ensureCacheVersion env v d1 = (true, d2) /\ (stored = v -> d2 = d1)).
  { unfold ensureCacheVersion. rewrite Hst. destruct (Z.eqb_spec stored v) as [->|Hne]; [by exists d1|]. destruct (purge_works env d1 Hw) as [d2 ->]. cbn [negb].
    destruct Hw as (_ & _ & _ & Hwr & _). unfold writeCacheVersion. rewrite Hwr. eexists. split; [done|]. done. }
  destruct Hens as (d2 & -> & Hd2). exists (sweepTempFiles env d2). split; [done|]. destruct Hw as (_ & _ & _ & _ & Hsw). split.
  - intros p Hp. apply map_lookup_filter_None. right. intros f _ [Hb|Hb]; cbn [fst] in Hb; [congruence|by rewrite Hsw in Hb].
  - intros Hma p Hp Hl. rewrite (Hd2 (Heq Hma)). rewrite <- (Hd1 p Hl). unfold sweepTempFiles. set (P := fun pf : list bytes * vfile => _). destruct (d1 !! p) as [f|] eqn:E.
    + apply map_lookup_filter_Some. split; [done|by left].
    + apply map_lookup_filter_None. by left.
Qed.

(** ** Concrete runs *)

Definition goodStart : startEnv := StartEnv true true (fun _ => true) (fun _ => true) None (fun _ => true).
Definition oldObject : list bytes := [str "cacheprog"; str "ab"; str "cd"].
Definition tempObject : list bytes := [str "cacheprog"; str ".tmp-1"].

(** A directory from before versions. *)
Definition oldDir : dataDir := {[oldObject := VFile [1] 1]}.

Lemma old_sane : sane oldDir.
Proof. intros p f. unfold oldDir. rewrite lookup_singleton_Some. intros [<- _]. right. right. by eexists _, _. Qed.

Definition newDir : dataDir := (NewStorage goodStart currentCacheVersion oldDir).2.
Definition leftDir : dataDir := <[tempObject := VFile [2] currentCacheVersion]> newDir.

Lemma demo_started : NewStorage goodStart currentCacheVersion oldDir = (true, newDir).
Proof. rewrite (surjective_pairing (NewStorage _ _ _)). apply (f_equal2 pair); [vm_compute; reflexivity|reflexivity]. Qed.

Lemma demo_left : is_Some (marked leftDir).
Proof. vm_compute. eauto. Qed.

Lemma demo_gone : newDir !! oldObject = None.
Proof. vm_compute. reflexivity. Qed.

(** The object of the old version is gone; a temp file the new server leaves
    behind is gone after its next start. *)
Lemma serves_own_version_witness : newDir !! oldObject = None /\ rtc sstep (Site oldDir None) (Site leftDir None) /\
  exists d, NewStorage goodStart currentCacheVersion leftDir = (true, d) /\ d !! tempObject = None.
Proof.
  assert (Hv : 2 <= currentCacheVersion < 2 ^ 63) by (unfold currentCacheVersion; lia).
  assert (Hr : rtc sstep (Site oldDir None) (Site leftDir None)).
  { apply (rtc_l _ _ (Site newDir (Some currentCacheVersion))); [exact (s_start goodStart _ oldDir true newDir Hv demo_started)|].
    apply (rtc_l _ _ (Site leftDir (Some currentCacheVersion))); [apply s_write; by eexists _, _|apply rtc_once, s_stops]. }
  split; [exact demo_gone|]. split; [exact Hr|].
  destruct (serves_own_version oldDir (Site leftDir None) old_sane eq_refl Hr) as [_ H].
  destruct (H goodStart currentCacheVersion Hv) as (d & H1 & H2 & _); [by split_and!|right; exact demo_left|].
  exists d. split; [exact H1|]. apply H2. reflexivity.
Defined.

(** A server that dies between creating the marker and writing it leaves an
    empty one, and no server starts on the directory any more. *)
Example torn_marker_refused env v : (NewStorage env v (<[[cacheVersionFile] := VFile (take 0 (version_text 4)) 4]> ∅)).1 = false.
Proof. unfold NewStorage, ensureCacheVersion, readCacheVersion. cbn. by destruct (se_read env). Qed.
