(* ===== verification/Coalescer.v ===== *)
(** * From a store to a batch on the wire

    [cacheclient/prep.go], [batchput.go] and [batch.go]: uploads go through a pool
    of preparing workers into a coalescer that ships them in batches; lookups go
    straight into a coalescer of their own.  Everything is channels and
    goroutines, so each part is a position in its code and the whole is a step
    relation.  A channel is the list in its buffer.

    What [prepare] makes of a job is [Upload.prepare]; here it is the request it
    ends in, or none.  What a batch does is [Upload.sendBatchPut] and
    [WebGet.sendBatch]. *)

From Stdlib Require Import ZArith Lia List Bool String.
From stdpp Require Import base list relations.
From S2P Require Import Prelude WebGet.

#[local] Open Scope nat_scope.

Definition batchReqChBuf : nat := 1024.

(** [flush] of both coalescers: what is pending becomes a batch on the wire. *)
Definition flush {A} (pending : list A) (flying : list (list A)) : list (list A) :=
  match pending with [] => flying | _ => flying ++ [pending] end.

Lemma flush_concat {A} (pending : list A) flying : concat (flush pending flying) = concat flying ++ pending.
Proof. destruct pending; cbn [flush]; [by rewrite app_nil_r|]. by rewrite concat_app; cbn [concat]; rewrite app_nil_r. Qed.

(** Batches are never empty and never over the limit. *)
Definition batches_ok {A} (bs : list (list A)) : Prop := Forall (fun b => 0 < length b <= batchMaxKeys) bs.

Lemma flush_batches {A} (pending : list A) flying : batches_ok flying -> length pending <= batchMaxKeys -> batches_ok (flush pending flying).
Proof.
  intros Hf Hp. destruct pending as [|a l]; [done|]. cbn [flush]. apply Forall_app. split; [done|]. apply Forall_singleton. split; [cbn; lia|done].
Qed.

(** ** Uploads *)

(** The upload coalescer: at its select, draining after the stop, waiting for
    its batches, gone. *)
Inductive coalescerAt := CLoop | CDrain | CWait | CExit.

(** [Close]: not called, waiting for the pool, waiting for the coalescer, past both. *)
Inductive closerAt := KOpen | KPrep | KPut | KDone.

#[export] Instance coalescerAt_eq_dec : EqDecision coalescerAt.
Proof. solve_decision. Defined.
#[export] Instance closerAt_eq_dec : EqDecision closerAt.
Proof. solve_decision. Defined.

Section uploads.
Context {J R : Type} (prep : J -> option R) (capacity : nat).

(** A worker of the pool: at its select, preparing a job, sending a request to
    the coalescer, draining; the flag says that it is draining already. *)
Inductive workerAt := WLoop | WPrep (draining : bool) (j : J) | WSend (draining : bool) (r : R) | WDrain | WExit.

Record pipeline := Pipeline {
  pl_jobs : list J; pl_stop : bool; pl_workers : list workerAt;
  pl_queue : list R; pl_putStop : bool; pl_pending : list R; pl_at : coalescerAt; pl_flying : list (list R); pl_unsupported : bool;
  pl_closer : closerAt;
  (** what has happened: jobs accepted, one of them after the stop, batches
      answered, requests sent alone, and requests given up at the stop *)
  pl_accepted : list J; pl_late : bool; pl_sent : list (list R); pl_single : list R; pl_abandoned : list R
}.

Definition back (draining : bool) : workerAt := if draining then WDrain else WLoop.

Definition set_worker (w1 : list workerAt) (w : workerAt) (w2 : list workerAt) (s : pipeline) : pipeline :=
  Pipeline (pl_jobs s) (pl_stop s) (w1 ++ w :: w2) (pl_queue s) (pl_putStop s) (pl_pending s) (pl_at s) (pl_flying s) (pl_unsupported s) (pl_closer s)
    (pl_accepted s) (pl_late s) (pl_sent s) (pl_single s) (pl_abandoned s).

Definition set_jobs (jobs : list J) (s : pipeline) : pipeline :=
  Pipeline jobs (pl_stop s) (pl_workers s) (pl_queue s) (pl_putStop s) (pl_pending s) (pl_at s) (pl_flying s) (pl_unsupported s) (pl_closer s)
    (pl_accepted s) (pl_late s) (pl_sent s) (pl_single s) (pl_abandoned s).

(** [submit], accepted: the select may take the buffer although the pool is stopped. *)
Definition submit (j : J) (s : pipeline) : pipeline :=
  Pipeline (pl_jobs s ++ [j]) (pl_stop s) (pl_workers s) (pl_queue s) (pl_putStop s) (pl_pending s) (pl_at s) (pl_flying s) (pl_unsupported s) (pl_closer s)
    (pl_accepted s ++ [j]) (pl_late s || pl_stop s) (pl_sent s) (pl_single s) (pl_abandoned s).

Definition enqueue (r : R) (s : pipeline) : pipeline :=
  Pipeline (pl_jobs s) (pl_stop s) (pl_workers s) (pl_queue s ++ [r]) (pl_putStop s) (pl_pending s) (pl_at s) (pl_flying s) (pl_unsupported s) (pl_closer s)
    (pl_accepted s) (pl_late s) (pl_sent s) (pl_single s) (pl_abandoned s).

Definition put_single (r : R) (s : pipeline) : pipeline :=
  Pipeline (pl_jobs s) (pl_stop s) (pl_workers s) (pl_queue s) (pl_putStop s) (pl_pending s) (pl_at s) (pl_flying s) (pl_unsupported s) (pl_closer s)
    (pl_accepted s) (pl_late s) (pl_sent s) (pl_single s ++ [r]) (pl_abandoned s).

Definition abandon (r : R) (s : pipeline) : pipeline :=
  Pipeline (pl_jobs s) (pl_stop s) (pl_workers s) (pl_queue s) (pl_putStop s) (pl_pending s) (pl_at s) (pl_flying s) (pl_unsupported s) (pl_closer s)
    (pl_accepted s) (pl_late s) (pl_sent s) (pl_single s) (pl_abandoned s ++ [r]).

(** The coalescer takes a request: it is pending, and a full batch goes out. *)
Definition receive (r : R) (queue : list R) (s : pipeline) : pipeline :=
  let pending := pl_pending s ++ [r] in
  let full := batchMaxKeys <=? length pending in
  Pipeline (pl_jobs s) (pl_stop s) (pl_workers s) queue (pl_putStop s) (if full then [] else pending) (pl_at s)
    (if full then flush pending (pl_flying s) else pl_flying s) (pl_unsupported s) (pl_closer s)
    (pl_accepted s) (pl_late s) (pl_sent s) (pl_single s) (pl_abandoned s).

Definition flush_to (at_ : coalescerAt) (s : pipeline) : pipeline :=
  Pipeline (pl_jobs s) (pl_stop s) (pl_workers s) (pl_queue s) (pl_putStop s) [] at_ (flush (pl_pending s) (pl_flying s)) (pl_unsupported s) (pl_closer s)
    (pl_accepted s) (pl_late s) (pl_sent s) (pl_single s) (pl_abandoned s).

Definition set_at (at_ : coalescerAt) (s : pipeline) : pipeline :=
  Pipeline (pl_jobs s) (pl_stop s) (pl_workers s) (pl_queue s) (pl_putStop s) (pl_pending s) at_ (pl_flying s) (pl_unsupported s) (pl_closer s)
    (pl_accepted s) (pl_late s) (pl_sent s) (pl_single s) (pl_abandoned s).

(** A batch is answered; a server without the endpoint is remembered. *)
Definition answered (b : list R) (flying : list (list R)) (unsupported : bool) (s : pipeline) : pipeline :=
  Pipeline (pl_jobs s) (pl_stop s) (pl_workers s) (pl_queue s) (pl_putStop s) (pl_pending s) (pl_at s) flying (pl_unsupported s || unsupported) (pl_closer s)
    (pl_accepted s) (pl_late s) (pl_sent s ++ [b]) (pl_single s) (pl_abandoned s).

Definition set_closer (stop putStop : bool) (k : closerAt) (s : pipeline) : pipeline :=
  Pipeline (pl_jobs s) stop (pl_workers s) (pl_queue s) putStop (pl_pending s) (pl_at s) (pl_flying s) (pl_unsupported s) k
    (pl_accepted s) (pl_late s) (pl_sent s) (pl_single s) (pl_abandoned s).

(** What runs by itself. *)
Inductive run (s : pipeline) : pipeline -> Prop :=
  | w_take w1 w2 j js : pl_workers s = w1 ++ WLoop :: w2 -> pl_jobs s = j :: js -> run s (set_worker w1 (WPrep false j) w2 (set_jobs js s))
  | w_stop w1 w2 : pl_workers s = w1 ++ WLoop :: w2 -> pl_stop s = true -> run s (set_worker w1 WDrain w2 s)
  | w_drain w1 w2 j js : pl_workers s = w1 ++ WDrain :: w2 -> pl_jobs s = j :: js -> run s (set_worker w1 (WPrep true j) w2 (set_jobs js s))
  | w_drained w1 w2 : pl_workers s = w1 ++ WDrain :: w2 -> pl_jobs s = [] -> run s (set_worker w1 WExit w2 s)
  | w_refused w1 w2 d j : pl_workers s = w1 ++ WPrep d j :: w2 -> prep j = None -> run s (set_worker w1 (back d) w2 s)
  | w_prepared w1 w2 d j r : pl_workers s = w1 ++ WPrep d j :: w2 -> prep j = Some r -> pl_unsupported s = false -> run s (set_worker w1 (WSend d r) w2 s)
  | w_single w1 w2 d j r : pl_workers s = w1 ++ WPrep d j :: w2 -> prep j = Some r -> pl_unsupported s = true -> run s (set_worker w1 (back d) w2 (put_single r s))
  | w_send w1 w2 d r : pl_workers s = w1 ++ WSend d r :: w2 -> length (pl_queue s) < batchReqChBuf -> run s (set_worker w1 (back d) w2 (enqueue r s))
  | w_abandon w1 w2 d r : pl_workers s = w1 ++ WSend d r :: w2 -> pl_putStop s = true -> run s (set_worker w1 (back d) w2 (abandon r s))
  | c_receive r q : pl_at s = CLoop -> pl_queue s = r :: q -> run s (receive r q s)
  | c_timer : pl_at s = CLoop -> pl_pending s <> [] -> run s (flush_to CLoop s)
  | c_stop : pl_at s = CLoop -> pl_putStop s = true -> run s (set_at CDrain s)
  | c_drain r q : pl_at s = CDrain -> pl_queue s = r :: q -> run s (receive r q s)
  | c_drained : pl_at s = CDrain -> pl_queue s = [] -> run s (flush_to CWait s)
  | c_exit : pl_at s = CWait -> pl_flying s = [] -> run s (set_at CExit s)
  | b_answered f1 b f2 unsupported : pl_flying s = f1 ++ b :: f2 -> run s (answered b (f1 ++ f2) unsupported s)
  | k_prepared : pl_closer s = KPrep -> Forall (fun w => w = WExit) (pl_workers s) -> run s (set_closer (pl_stop s) true KPut s)
  | k_done : pl_closer s = KPut -> pl_at s = CExit -> run s (set_closer (pl_stop s) (pl_putStop s) KDone s).

(** What the program does to it. *)
Inductive lstep (s : pipeline) : pipeline -> Prop :=
  | l_submit j : length (pl_jobs s) < capacity -> lstep s (submit j s)
  | l_close : pl_closer s = KOpen -> lstep s (set_closer true (pl_putStop s) KPrep s)
  | l_run s' : run s s' -> lstep s s'.

Definition opened (workers : nat) : pipeline :=
  Pipeline [] false (replicate workers WLoop) [] false [] CLoop [] false KOpen [] false [] [] [].

(** ** Nothing is lost *)

(** The requests a worker has, or will have. *)
Definition carried (w : workerAt) : list R :=
  match w with WPrep _ j => option_list (prep j) | WSend _ r => [r] | _ => [] end.

Definition requests (jobs : list J) : list R := omap prep jobs.

Definition whereabouts (s : pipeline) : list R :=
  requests (pl_jobs s) ++ concat (map carried (pl_workers s)) ++ pl_queue s ++ pl_pending s ++ concat (pl_flying s) ++ concat (pl_sent s) ++ pl_single s ++ pl_abandoned s.

(** A worker on its way out. *)
Definition draining (w : workerAt) : bool := match w with WPrep d _ | WSend d _ => d | WDrain | WExit => true | WLoop => false end.

(** Where the parts can be while [Close] is where it is. *)
Record lineInv (workers : nat) (s : pipeline) : Prop := {
  li_accounted : requests (pl_accepted s) ≡ₚ whereabouts s;
  li_flying : batches_ok (pl_flying s);
  li_sent : batches_ok (pl_sent s);
  li_pending : length (pl_pending s) < batchMaxKeys;
  li_length : length (pl_workers s) = workers;
  li_draining : Forall (fun w => draining w = true -> pl_stop s = true) (pl_workers s);
  li_stop : pl_stop s = true <-> pl_closer s <> KOpen;
  li_putStop : pl_putStop s = true <-> pl_closer s = KPut \/ pl_closer s = KDone;
  li_workers : pl_putStop s = true -> Forall (fun w => w = WExit) (pl_workers s);
  li_at : pl_at s <> CLoop -> pl_putStop s = true;
  li_gone : pl_at s = CWait \/ pl_at s = CExit -> pl_queue s = [] /\ pl_pending s = [];
  li_exit : pl_at s = CExit -> pl_flying s = [];
  li_done : pl_closer s = KDone -> pl_at s = CExit;
  li_abandoned : pl_abandoned s = [];
  li_jobs : pl_late s = false -> WExit ∈ pl_workers s -> pl_jobs s = []
}.

Lemma opened_inv workers : lineInv workers (opened workers).
Proof.
  split; cbn; try done; try (by intros [?|?]); try lia.
  - unfold whereabouts. cbn. induction workers; [done|]. cbn. by rewrite app_nil_r in *.
  - constructor.
  - constructor.
  - unfold batchMaxKeys. lia.
  - by rewrite length_replicate.
  - by apply Forall_replicate.
  - by split; [|intros [|]].
Qed.

(** *** Requests move, none is made or lost *)

Lemma carried_middle w1 w w2 : concat (map carried (w1 ++ w :: w2)) = concat (map carried w1) ++ carried w ++ concat (map carried w2).
Proof. by rewrite map_app, concat_app. Qed.

Lemma requests_cons j js : requests (j :: js) = option_list (prep j) ++ requests js.
Proof. unfold requests. cbn. by destruct (prep j). Qed.

Lemma run_accounted s s' : run s s' -> requests (pl_accepted s) ≡ₚ whereabouts s -> requests (pl_accepted s') ≡ₚ whereabouts s'.
Proof.
  intros Hr Ha. unfold whereabouts in *. destruct Hr; cbn [pl_accepted pl_jobs pl_workers pl_queue pl_pending pl_flying pl_sent pl_single pl_abandoned
    set_worker set_jobs enqueue put_single abandon receive flush_to set_at answered set_closer] in *; rewrite Ha; clear Ha;
    repeat match goal with H : _ s = _ |- _ => rewrite H; clear H end; repeat rewrite carried_middle; repeat rewrite requests_cons;
    repeat rewrite concat_app; repeat rewrite flush_concat; cbn [carried concat]; try (destruct d; cbn [back carried]);
    repeat match goal with H : prep _ = _ |- _ => rewrite H; clear H end; cbn [option_list]; try solve_Permutation.
  all: destruct (_ <=? _); rewrite ?flush_concat; solve_Permutation.
Qed.

(** *** The parts stay in step *)

(** A worker that takes a turn was there, and is not past the stop of uploads. *)
Lemma turn_alive workers s w1 w w2 : lineInv workers s -> pl_workers s = w1 ++ w :: w2 -> w <> WExit -> pl_putStop s = false.
Proof.
  intros I Hw Hn. destruct (pl_putStop s) eqn:Hp; [|done]. exfalso. apply (li_workers _ _ I), Forall_forall with (x := w) in Hp; [done|]. rewrite Hw. set_solver.
Qed.

(** A worker moves on; nothing else changes but the jobs and the requests under way. *)
Lemma turn_inv workers s s' w1 w w2 w' : lineInv workers s -> pl_workers s = w1 ++ w :: w2 -> w <> WExit ->
  (draining w' = true -> draining w = true \/ pl_stop s = true) -> (w' = WExit -> pl_jobs s' = []) ->
  requests (pl_accepted s') ≡ₚ whereabouts s' ->
  pl_workers s' = w1 ++ w' :: w2 -> pl_stop s' = pl_stop s -> pl_putStop s' = pl_putStop s -> pl_closer s' = pl_closer s -> pl_at s' = pl_at s ->
  pl_pending s' = pl_pending s -> pl_flying s' = pl_flying s -> pl_sent s' = pl_sent s -> pl_abandoned s' = pl_abandoned s -> pl_late s' = pl_late s ->
  (pl_jobs s = [] -> pl_jobs s' = []) -> lineInv workers s'.
Proof.
  intros I Hw Hn Hd Hx Ha Hw' E1 E2 E3 E4 E5 E6 E7 E8 E9 Hj. pose proof (turn_alive _ _ _ _ _ I Hw Hn) as Hp. destruct I.
  assert (Hloop : pl_at s = CLoop). { destruct (decide (pl_at s = CLoop)) as [|Hc]; [done|]. by rewrite li_at0 in Hp. }
  split; rewrite ?E1, ?E2, ?E3, ?E4, ?E5, ?E6, ?E7, ?E8, ?E9; try done.
  - rewrite Hw', <- li_length0, Hw, !length_app. done.
  - rewrite Hw', Forall_app, Forall_cons. rewrite Hw, Forall_app, Forall_cons in li_draining0. tauto.
  - congruence.
  - rewrite Hloop. by intros [|].
  - rewrite Hw'. intros Hl Hin. rewrite Hw in li_jobs0. apply elem_of_app in Hin as [Hin|[Hin|Hin]%elem_of_cons]; [|by apply Hx|];
      apply Hj, li_jobs0; set_solver.
Qed.

Lemma receive_inv workers s r q : lineInv workers s -> pl_at s = CLoop \/ pl_at s = CDrain -> requests (pl_accepted s) ≡ₚ whereabouts (receive r q s) ->
  lineInv workers (receive r q s).
Proof.
  intros I Hat Ha. pose proof I as []. assert (Hlen : length (pl_pending s ++ [r]) <= batchMaxKeys) by (rewrite length_app; cbn; lia).
  split; cbn [pl_flying pl_sent pl_at receive pl_queue pl_pending pl_jobs pl_workers pl_stop pl_putStop pl_closer pl_abandoned pl_late]; try done.
  - destruct (_ <=? _); [by apply flush_batches|done].
  - destruct (Nat.leb_spec batchMaxKeys (length (pl_pending s ++ [r]))); [cbn; unfold batchMaxKeys; lia|done].
  - destruct Hat as [-> | ->]; by intros [|].
  - by destruct Hat as [-> | ->].
Qed.

Lemma line_run_inv workers s s' : lineInv workers s -> run s s' -> lineInv workers s'.
Proof.
  intros I Hr. pose proof (run_accounted _ _ Hr (li_accounted _ _ I)) as Ha. destruct Hr.
  9: { exfalso. eapply turn_alive in I; [|done|done]. congruence. }
  1-8: eapply turn_inv; [done|done|done| | |done|done..|]; try destruct d; cbn; auto; try done; intros; congruence.
  1,4: by apply receive_inv; [done|rewrite H; auto|].
  5: { pose proof I as []. split; cbn [pl_flying pl_sent pl_at answered pl_queue pl_pending pl_jobs pl_workers pl_stop pl_putStop pl_closer pl_abandoned pl_late]; try done.
    - rewrite H in li_flying0. apply Forall_app in li_flying0 as [? [??]%Forall_cons]. by apply Forall_app.
    - rewrite H in li_flying0. apply Forall_app in li_flying0 as [? [??]%Forall_cons]. apply Forall_app. split; [done|by apply Forall_singleton].
    - intros Hx. rewrite (li_exit0 Hx) in H. by destruct f1. }
  all: pose proof I as []; split; cbn; try done; rewrite ?H in *; try done; try (by intros [|]); auto.
  all: try (apply flush_batches; [done|lia]); try (unfold batchMaxKeys; lia); try (clear - li_stop0 li_putStop0 li_at0 li_done0 li_gone0 H0; intuition congruence).
Qed.

Lemma line_step_inv workers s s' : lineInv workers s -> lstep s s' -> lineInv workers s'.
Proof.
  intros I [j Hc|Hk|s'' Hr]; [| |by eapply line_run_inv]; pose proof I as [].
  - split; try done.
    + unfold whereabouts, requests in *. cbn. rewrite !omap_app, li_accounted0. solve_Permutation.
    + cbn. intros [_ Hs]%orb_false_iff Hin. rewrite Forall_forall in li_draining0. by rewrite (li_draining0 _ Hin eq_refl) in Hs.
  - rewrite Hk in *. split; cbn; try done.
    + apply Forall_forall. done.
    + rewrite li_putStop0. by split; intros [|].
Qed.

Lemma line_reachable workers s : rtc lstep (opened workers) s -> lineInv workers s.
Proof. apply (rtc_ind_r (lineInv workers)); [apply opened_inv|]. intros y z _ Hs I. by eapply line_step_inv. Qed.

(** ** Nothing hangs *)

Definition worker_left (w : workerAt) : nat :=
  match w with WLoop => 2 | WDrain => 1 | WExit => 0 | WPrep d _ => 8 + if d then 1 else 2 | WSend d _ => 6 + if d then 1 else 2 end.

Definition coalescer_left (c : coalescerAt) : nat := match c with CLoop => 3 | CDrain => 2 | CWait => 1 | CExit => 0 end.
Definition closer_left (k : closerAt) : nat := match k with KOpen => 3 | KPrep => 2 | KPut => 1 | KDone => 0 end.

(** The steps that can still be taken before the program does something more. *)
Definition steps_left (s : pipeline) : nat :=
  9 * length (pl_jobs s) + sum_list_with worker_left (pl_workers s) + 5 * length (pl_queue s) + 4 * length (pl_pending s) + 2 * length (pl_flying s) +
  coalescer_left (pl_at s) + closer_left (pl_closer s).

Lemma sum_middle w1 w w2 : sum_list_with worker_left (w1 ++ w :: w2) = sum_list_with worker_left w1 + worker_left w + sum_list_with worker_left w2.
Proof. rewrite sum_list_with_app. cbn. lia. Qed.

Lemma flush_left {A} (pending : list A) flying : 2 * length (flush pending flying) <= 2 * length flying + 4 * length pending /\
  (pending <> [] -> 2 * length (flush pending flying) < 2 * length flying + 4 * length pending).
Proof. destruct pending; cbn [flush]; [split; [lia|done]|]. rewrite length_app. cbn. lia. Qed.

Lemma run_left s s' : run s s' -> steps_left s' < steps_left s.
Proof.
  intros Hr. unfold steps_left. destruct Hr; cbn [pl_accepted pl_jobs pl_workers pl_queue pl_pending pl_flying pl_sent pl_single pl_abandoned pl_at pl_closer
    set_worker set_jobs enqueue put_single abandon receive flush_to set_at answered set_closer];
    repeat match goal with H : _ s = _ |- _ => rewrite H; clear H end; rewrite ?sum_middle, ?length_app; cbn [worker_left length coalescer_left closer_left]; try lia;
    try (destruct d; cbn [back worker_left]; lia); try pose proof (flush_left (pl_pending s) (pl_flying s)) as [??].
  - pose proof (flush_left (pl_pending s ++ [r]) (pl_flying s)) as [Hf _]. rewrite length_app in Hf. cbn in Hf. destruct (_ <=? _); rewrite ?length_app; cbn; lia.
  - specialize (H1 H0). lia.
  - pose proof (flush_left (pl_pending s ++ [r]) (pl_flying s)) as [Hf _]. rewrite length_app in Hf. cbn in Hf. destruct (_ <=? _); rewrite ?length_app; cbn; lia.
  - lia.
Qed.

(** While [Close] is under way something can always move. *)
Lemma exit_or_not (ws : list workerAt) : Forall (fun w => w = WExit) ws \/ exists w1 w w2, ws = w1 ++ w :: w2 /\ w <> WExit.
Proof.
  induction ws as [|w ws [IH|(w1 & x & w2 & -> & Hx)]]; [by left| |right; by exists (w :: w1), x, w2].
  destruct w; [right; by eexists [], _, ws..|]. left. by constructor.
Qed.

Lemma close_moves workers s : lineInv workers s -> pl_closer s <> KOpen -> pl_closer s <> KDone -> exists s', run s s'.
Proof.
  intros I Ho Hd. pose proof I as []. assert (Hs : pl_stop s = true) by (by apply li_stop0). destruct (pl_closer s) eqn:Hk; [done| | |done].
  - destruct (exit_or_not (pl_workers s)) as [Hx|(w1 & w & w2 & Hw & Hn)]; [eexists; by apply k_prepared|].
    assert (Hp : pl_putStop s = false) by (destruct (pl_putStop s); [by destruct (proj1 li_putStop0 eq_refl)|done]).
    assert (Hat : pl_at s = CLoop). { destruct (decide (pl_at s = CLoop)) as [|Hc]; [done|]. by rewrite li_at0 in Hp. }
    destruct w as [|d j|d r| |]; [eexists; by eapply w_stop| | | |done].
    + destruct (prep j) as [r|] eqn:Hj; [|eexists; by eapply w_refused]. destruct (pl_unsupported s) eqn:Hu; eexists; [by eapply w_single|by eapply w_prepared].
    + destruct (pl_queue s) as [|r' q] eqn:Hq; [|eexists; by eapply c_receive]. eexists. eapply w_send; [done|]. rewrite Hq. cbn. unfold batchReqChBuf. lia.
    + destruct (pl_jobs s) as [|j js] eqn:Hj; eexists; [by eapply w_drained|by eapply w_drain].
  - destruct (pl_at s) eqn:Hat; [eexists; apply c_stop; [done|]; apply li_putStop0; by left| | |eexists; by apply k_done].
    + destruct (pl_queue s) as [|r q] eqn:Hq; eexists; [by apply c_drained|by eapply c_drain].
    + destruct (pl_flying s) as [|b f] eqn:Hf; eexists; [by apply c_exit|by apply (b_answered s [] b f false)].
Qed.

Lemma runs_left n s s' : nsteps run n s s' -> n + steps_left s' <= steps_left s.
Proof. induction 1 as [|n x y z Hr _ IH]; [done|]. apply run_left in Hr. lia. Qed.

Lemma rtc_run_reachable workers s s' : rtc lstep (opened workers) s -> rtc run s s' -> rtc lstep (opened workers) s'.
Proof. intros H1 H2. etrans; [exact H1|]. eapply rtc_subrel; [|exact H2]. intros x y. apply l_run. Qed.

Lemma run_closing s s' : run s s' -> pl_closer s <> KOpen -> pl_closer s' <> KOpen.
Proof. by destruct 1. Qed.

Lemma rtc_run_closing s s' : rtc run s s' -> pl_closer s <> KOpen -> pl_closer s' <> KOpen.
Proof. induction 1 as [|x y z Hr _ IH]; [done|]. intros Hx. by apply IH, (run_closing x). Qed.

(** From any state the closing runs to its end. *)
Lemma close_ends workers : forall k s, steps_left s <= k -> lineInv workers s -> pl_closer s <> KOpen -> exists s', rtc run s s' /\ pl_closer s' = KDone.
Proof.
  intros k. induction k as [|k IH]; intros s Hk I Ho; (destruct (decide (pl_closer s = KDone)) as [|Hd]; [by exists s|]);
    destruct (close_moves _ _ I Ho Hd) as [s1 Hr]; pose proof (run_left _ _ Hr); [lia|].
  destruct (IH s1) as (s2 & H2 & ?); [lia|by eapply line_run_inv|by eapply run_closing|]. exists s2. split; [by eapply rtc_l|done].
Qed.

(** Past the end, and with nothing submitted after the stop, only the answered are left. *)
Lemma closed_shipped workers s : 0 < workers -> lineInv workers s -> pl_closer s = KDone -> pl_late s = false ->
  requests (pl_accepted s) ≡ₚ concat (pl_sent s) ++ pl_single s.
Proof.
  intros Hn I Hk Hl. pose proof I as []. assert (Hx : Forall (fun w => w = WExit) (pl_workers s)) by (apply li_workers0, li_putStop0; by right).
  pose proof (li_done0 Hk) as Hat. destruct li_gone0 as [Hq Hp]; [by right|]. rewrite li_accounted0. unfold whereabouts.
  rewrite Hq, Hp, (li_exit0 Hat), li_abandoned0, li_jobs0, app_nil_r; [|done|].
  - enough (Hc : concat (map carried (pl_workers s)) = []) by by rewrite Hc. clear - Hx. induction Hx as [|w ws -> _ IH]; [done|]. exact IH.
  - destruct (pl_workers s) as [|w ws]; [cbn in li_length0; lia|]. apply Forall_cons in Hx as [-> _]. set_solver.
Qed.


End uploads.

(** *** Runs *)

Definition demoPrep (j : nat) : option nat := if j =? 0 then None else Some j.
Definition demoLine (s : @pipeline nat nat) : pipeline := set_closer true false KPrep s.


(** A [submit] that runs beside [Close] can be accepted when the workers are
    gone: it answers true, and nobody prepares the job. *)
Example late_submit_stranded : exists s, rtc (lstep demoPrep 4) (opened 1) s /\ pl_closer s = KDone /\ pl_jobs s = [5] /\ pl_accepted s = [5] /\ pl_sent s = [].
Proof.
  eexists. split; [|].
  { eapply rtc_l; [by apply l_close|]. eapply rtc_l; [apply l_run, (w_stop _ _ [] []); done|]. eapply rtc_l; [apply l_run, (w_drained _ _ [] []); done|].
    eapply rtc_l; [apply (l_submit _ _ _ 5); cbn; lia|]. eapply rtc_l; [apply l_run, k_prepared; [done|by constructor]|].
    eapply rtc_l; [by apply l_run, c_stop|]. eapply rtc_l; [by apply l_run, c_drained|]. eapply rtc_l; [by apply l_run, c_exit|].
    eapply rtc_l; [by apply l_run, k_done|]. apply rtc_refl. }
  done.
Qed.

(** ** Lookups

    [batchCoalescer] sends what is pending when the line is free, when a request
    returns, when the batch is full, and at the latest when its timer fires. *)

Section lookups.
Context {Q K : Type} `{!EqDecision K} (key : Q -> K).

(** The coalescer at its select, waiting for its batches after the stop, gone. *)
Inductive lineAt := GLoop | GWait | GDone.

(** [gl_sending] are the batches counted in [inFlight]; [gl_back] are their
    goroutines past the decrement and before the signal; [gl_token] is the one
    place in the buffer of [sent]. *)
Record getLine := GetLine {
  gl_queue : list Q; gl_pending : list Q; gl_sending : list (list Q); gl_back : nat; gl_token : bool; gl_stop : bool; gl_at : lineAt;
  gl_asked : list Q; gl_answered : list Q; gl_lost : list Q
}.

(** [reqByKey]: of the requests of a batch with one key only the last is kept, and
    so answered from the stream; the others are in the second list. *)
Fixpoint by_key (b : list Q) : list Q * list Q :=
  match b with
  | [] => ([], [])
  | q :: b' =>
      let '(kept, dropped) := by_key b' in
      if bool_decide (key q ∈ map key b') then (kept, q :: dropped) else (q :: kept, dropped)
  end.

Definition get_receive (q : Q) (queue : list Q) (s : getLine) : getLine :=
  let pending := gl_pending s ++ [q] in
  let now := (batchMaxKeys <=? length pending) || (length (gl_sending s) =? 0) in
  GetLine queue (if now then [] else pending) (if now then flush pending (gl_sending s) else gl_sending s) (gl_back s) (gl_token s) (gl_stop s) (gl_at s)
    (gl_asked s) (gl_answered s) (gl_lost s).

Definition get_flush (token : bool) (at_ : lineAt) (s : getLine) : getLine :=
  GetLine (gl_queue s) [] (flush (gl_pending s) (gl_sending s)) (gl_back s) token (gl_stop s) at_ (gl_asked s) (gl_answered s) (gl_lost s).

(** The steps of the coalescer and of its batches; not the timer.  A batch comes
    back without a stream, and all of it is answered, or with one. *)
Inductive gstep (s : getLine) : getLine -> Prop :=
  | g_receive q qs : gl_at s = GLoop -> gl_queue s = q :: qs -> gstep s (get_receive q qs s)
  | g_sent : gl_at s = GLoop -> gl_token s = true -> gstep s (get_flush false GLoop s)
  | g_stop : gl_at s = GLoop -> gl_stop s = true -> gstep s (get_flush (gl_token s) GWait s)
  | g_refused b1 b b2 : gl_sending s = b1 ++ b :: b2 ->
      gstep s (GetLine (gl_queue s) (gl_pending s) (b1 ++ b2) (S (gl_back s)) (gl_token s) (gl_stop s) (gl_at s) (gl_asked s) (gl_answered s ++ b) (gl_lost s))
  | g_answered b1 b b2 : gl_sending s = b1 ++ b :: b2 ->
      gstep s (GetLine (gl_queue s) (gl_pending s) (b1 ++ b2) (S (gl_back s)) (gl_token s) (gl_stop s) (gl_at s) (gl_asked s)
        (gl_answered s ++ (by_key b).1) (gl_lost s ++ (by_key b).2))
  | g_signal n : gl_back s = S n ->
      gstep s (GetLine (gl_queue s) (gl_pending s) (gl_sending s) n true (gl_stop s) (gl_at s) (gl_asked s) (gl_answered s) (gl_lost s))
  | g_exit : gl_at s = GWait -> gl_sending s = [] -> gl_back s = 0 ->
      gstep s (GetLine (gl_queue s) (gl_pending s) (gl_sending s) (gl_back s) (gl_token s) (gl_stop s) GDone (gl_asked s) (gl_answered s) (gl_lost s)).

(** With the timer, the callers of [getBatch] and [Close]. *)
Inductive gline (s : getLine) : getLine -> Prop :=
  | g_ask q : length (gl_queue s) < batchReqChBuf ->
      gline s (GetLine (gl_queue s ++ [q]) (gl_pending s) (gl_sending s) (gl_back s) (gl_token s) (gl_stop s) (gl_at s) (gl_asked s ++ [q]) (gl_answered s) (gl_lost s))
  | g_close : gline s (GetLine (gl_queue s) (gl_pending s) (gl_sending s) (gl_back s) (gl_token s) true (gl_at s) (gl_asked s) (gl_answered s) (gl_lost s))
  | g_timer : gl_at s = GLoop -> gl_pending s <> [] -> gline s (get_flush (gl_token s) GLoop s)
  | g_step s' : gstep s s' -> gline s s'.

Definition get_opened : getLine := GetLine [] [] [] 0 false false GLoop [] [] [].

Record getInv (s : getLine) : Prop := {
  gi_accounted : gl_asked s ≡ₚ gl_queue s ++ gl_pending s ++ concat (gl_sending s) ++ gl_answered s ++ gl_lost s;
  gi_lost : Forall (fun q => exists q', q' ∈ gl_answered s /\ key q' = key q) (gl_lost s);
  gi_sending : batches_ok (gl_sending s);
  gi_pending : length (gl_pending s) < batchMaxKeys;
  gi_line : gl_pending s <> [] -> gl_sending s <> [] \/ 0 < gl_back s \/ gl_token s = true;
  gi_loop : gl_at s <> GLoop -> gl_pending s = [];
  gi_done : gl_at s = GDone -> gl_sending s = []
}.

Lemma by_key_perm b : b ≡ₚ (by_key b).1 ++ (by_key b).2.
Proof.
  induction b as [|q b IH]; [done|]. cbn [by_key]. destruct (by_key b) as [kept dropped]. cbn [fst snd] in IH.
  case_bool_decide; cbn [fst snd]; [by rewrite IH at 1; rewrite Permutation_middle|by rewrite IH at 1].
Qed.

Lemma by_key_kept b : forall q, q ∈ b -> exists q', q' ∈ (by_key b).1 /\ key q' = key q.
Proof.
  induction b as [|x b IH]; intros q; [by intros ?%elem_of_nil|]. cbn [by_key]. destruct (by_key b) as [kept dropped]. cbn [fst] in IH.
  case_bool_decide as Hin; cbn [fst].
  - intros [->|Hq]%elem_of_cons; [|by apply IH]. apply list_elem_of_fmap in Hin as (y & Hy & Hyb). destruct (IH y Hyb) as (z & Hz & Ez). exists z. split; [done|congruence].
  - intros [->|Hq]%elem_of_cons; [exists x; split; [by left|done]|]. destruct (IH q Hq) as (z & Hz & Ez). exists z. split; [by right|done].
Qed.

Lemma by_key_lost b : Forall (fun q => exists q', q' ∈ (by_key b).1 /\ key q' = key q) (by_key b).2.
Proof.
  apply Forall_forall. intros q Hq. apply by_key_kept. rewrite (by_key_perm b). apply elem_of_app. by right.
Qed.

Lemma gstep_inv s s' : getInv s -> gstep s s' -> getInv s'.
Proof.
  intros I Hs. pose proof I as []. destruct Hs as [q qs Hat Hq|Hat Ht|Hat Hst|b1 b b2 Hb|b1 b b2 Hb|n Hn|Hat Hs0 Hb0].
  - assert (Hlen : length (gl_pending s ++ [q]) <= batchMaxKeys) by (rewrite length_app; cbn; lia).
    split; cbn [get_receive gl_asked gl_queue gl_pending gl_sending gl_answered gl_lost gl_back gl_token gl_at]; try done; try (by rewrite Hat).
    + rewrite gi_accounted0, Hq. destruct (_ || _); rewrite ?flush_concat; solve_Permutation.
    + destruct (_ || _); [by apply flush_batches|done].
    + destruct (Nat.leb_spec batchMaxKeys (length (gl_pending s ++ [q]))); [cbn; unfold batchMaxKeys; lia|]. cbn [orb]. destruct (_ =? 0); [cbn; unfold batchMaxKeys; lia|done].
    + destruct (_ || _) eqn:Ho; [done|]. intros _. left. apply orb_false_iff in Ho as [_ Ho%Nat.eqb_neq]. by destruct (gl_sending s).
  - split; cbn; try done; [rewrite gi_accounted0, flush_concat; solve_Permutation|apply flush_batches; [done|lia]|unfold batchMaxKeys; lia].
  - split; cbn; try done; [rewrite gi_accounted0, flush_concat; solve_Permutation|apply flush_batches; [done|lia]|unfold batchMaxKeys; lia].
  - split; cbn; try done.
    + rewrite gi_accounted0, Hb, !concat_app. cbn. solve_Permutation.
    + eapply Forall_impl; [exact gi_lost0|]. intros q (q' & Hq & He). exists q'. split; [apply elem_of_app; by left|done].
    + rewrite Hb in gi_sending0. apply Forall_app in gi_sending0 as [? [??]%Forall_cons]. by apply Forall_app.
    + intros _. right. left. lia.
    + intros Hd. rewrite gi_done0 in Hb by done. by destruct b1.
  - split; cbn; try done.
    + rewrite gi_accounted0, Hb, !concat_app. cbn. rewrite (by_key_perm b) at 1. solve_Permutation.
    + apply Forall_app. split; [eapply Forall_impl; [exact gi_lost0|]|eapply Forall_impl; [apply (by_key_lost b)|]];
        intros q (q' & Hq & He); exists q'; (split; [apply elem_of_app; auto|done]).
    + rewrite Hb in gi_sending0. apply Forall_app in gi_sending0 as [? [??]%Forall_cons]. by apply Forall_app.
    + intros _. right. left. lia.
    + intros Hd. rewrite gi_done0 in Hb by done. by destruct b1.
  - split; cbn; try done. intros _. right. by right.
  - split; cbn; try done. intros _. apply gi_loop0. by rewrite Hat.
Qed.

Lemma gline_inv s s' : getInv s -> gline s s' -> getInv s'.
Proof.
  intros I [q Hq| |Hat Hp|s'' Hs]; [| | |by eapply gstep_inv]; pose proof I as [].
  - split; try done. cbn. rewrite gi_accounted0. solve_Permutation.
  - by split.
  - split; cbn; try done; [rewrite gi_accounted0, flush_concat; solve_Permutation|apply flush_batches; [done|lia]|unfold batchMaxKeys; lia].
Qed.

(** The steps left without the timer and without more requests. *)
Definition line_left (s : getLine) : nat :=
  7 * length (gl_queue s) + 6 * length (gl_pending s) + 4 * length (gl_sending s) + 2 * gl_back s + (if gl_token s then 1 else 0) + match gl_at s with GLoop => 2 | GWait => 1 | GDone => 0 end.

Lemma flush_line {A} (pending : list A) sending : 4 * length (flush pending sending) <= 4 * length sending + 6 * length pending.
Proof. destruct pending; cbn [flush]; [lia|]. rewrite length_app. cbn. lia. Qed.

Lemma gstep_left s s' : gstep s s' -> line_left s' < line_left s.
Proof.
  intros [q qs Hat Hq|Hat Ht|Hat Hst|b1 b b2 Hb|b1 b b2 Hb|n Hn|Hat Hs0 Hb0]; unfold line_left; cbn [get_receive get_flush gl_queue gl_pending gl_sending gl_back gl_token gl_at].
  - rewrite Hq. pose proof (flush_line (gl_pending s ++ [q]) (gl_sending s)) as Hf. rewrite length_app in Hf. cbn in Hf.
    destruct (_ || _); rewrite ?length_app; cbn [length]; lia.
  - rewrite Ht, Hat. pose proof (flush_line (gl_pending s) (gl_sending s)). cbn. lia.
  - rewrite Hat. pose proof (flush_line (gl_pending s) (gl_sending s)). cbn. lia.
  - rewrite Hb, !length_app. cbn. lia.
  - rewrite Hb, !length_app. cbn. lia.
  - rewrite Hn. destruct (gl_token s); lia.
  - rewrite Hat. lia.
Qed.

Lemma gsteps_left n s s' : nsteps gstep n s s' -> n + line_left s' <= line_left s.
Proof. induction 1 as [|n x y z Hr _ IH]; [done|]. apply gstep_left in Hr. lia. Qed.

(** C34. A lookup never waits for the timer.  Whatever the order of requests,
    answers and signals, a request that is pending has a batch on the wire, or
    the news that one is back, that will send it; left to itself the line comes
    to rest within a bounded number of steps without the timer.  At rest every
    request has been answered but two kinds: after the stop, one still in the
    channel, which its caller takes for a miss; and one that went out in a batch
    with a later request of the same key, of which only the later is answered.
    Requests of distinct keys are all answered.  Every batch has a request and no
    more than the limit. *)
Theorem lookups_never_wait s : rtc gline get_opened s ->
  (gl_pending s <> [] -> gl_sending s <> [] \/ 0 < gl_back s \/ gl_token s = true) /\
  (forall n s', nsteps gstep n s s' -> n <= line_left s) /\
  (forall s', rtc gstep s s' -> (forall s'', ~ gstep s' s'') ->
    gl_asked s' ≡ₚ gl_queue s' ++ gl_answered s' ++ gl_lost s' /\
    Forall (fun q => exists q', q' ∈ gl_answered s' /\ key q' = key q) (gl_lost s') /\ (NoDup (map key (gl_asked s')) -> gl_lost s' = []) /\
    (gl_stop s' = false -> gl_at s' = GLoop -> gl_queue s' = []) /\ (gl_stop s' = true -> gl_at s' = GDone)) /\
  batches_ok (gl_sending s).
Proof.
  intros Hr. assert (Hinv : forall x, rtc gline get_opened x -> getInv x).
  { apply (rtc_ind_r getInv); [|intros y z _ Hs I; by eapply gline_inv]. split; cbn; try done; try apply Forall_nil_2. unfold batchMaxKeys. lia. }
  pose proof (Hinv _ Hr) as I. split_and!; [apply (gi_line _ I)|intros n s' Hn%gsteps_left; lia| |apply (gi_sending _ I)].
  intros s' Hs Hstuck. destruct (Hinv s') as [].
  { etrans; [exact Hr|]. eapply rtc_subrel; [|exact Hs]. intros x y. apply g_step. }
  assert (Hsend : gl_sending s' = []). { destruct (gl_sending s') as [|b bs] eqn:Hb; [done|]. exfalso. eapply Hstuck, (g_answered _ [] b bs). exact Hb. }
  assert (Hback : gl_back s' = 0). { destruct (gl_back s') as [|n] eqn:Hb; [done|]. exfalso. eapply Hstuck, g_signal. exact Hb. }
  assert (Hpend : gl_pending s' = []).
  { destruct (gl_pending s') as [|x l] eqn:Hp; [done|]. exfalso. destruct gi_line0 as [Hx|[Hx|Hx]]; [done|done|lia|].
    destruct (gl_at s') eqn:Hat; [eapply Hstuck, g_sent; done|by discriminate gi_loop0..]. }
  assert (Hacc : gl_asked s' ≡ₚ gl_queue s' ++ gl_answered s' ++ gl_lost s') by (by rewrite gi_accounted0, Hpend, Hsend).
  split_and!; [done|done| | |].
  - intros Hnd. destruct (gl_lost s') as [|q l] eqn:El; [done|]. exfalso. apply Forall_cons in gi_lost0 as [(q' & Hq' & He) _].
    change (map key (gl_asked s')) with (key <$> gl_asked s') in Hnd. rewrite Hacc, !fmap_app in Hnd. apply NoDup_app in Hnd as (_ & _ & (_ & Hd & _)%NoDup_app).
    apply (Hd (key q')); [by apply list_elem_of_fmap_2|rewrite He; by left].
  - intros _ Hat. destruct (gl_queue s') as [|q qs] eqn:Hq; [done|]. exfalso. eapply Hstuck, g_receive; done.
  - intros Hst. destruct (gl_at s') eqn:Hat; [exfalso; eapply Hstuck, g_stop; done|exfalso; eapply Hstuck, g_exit; done|done].
Qed.

End lookups.

(** *** Runs *)

Definition demoGet : @getLine nat := GetLine [] [2] [[1]] 0 false false GLoop [1; 2] [] [].

Lemma demo_get_run : rtc (gline (fun n : nat => n)) get_opened demoGet.
Proof.
  eapply rtc_l; [apply (g_ask _ _ 1); cbn; unfold batchReqChBuf; lia|]. eapply rtc_l; [by apply g_step, (g_receive _ _ 1 [])|].
  eapply rtc_l; [apply (g_ask _ _ 2); cbn; unfold batchReqChBuf; lia|]. cbn. apply rtc_once, g_step.
  exact (g_receive _ (GetLine [2] [] [[1]] 0 false false GLoop [1; 2] [] []) 2 [] eq_refl eq_refl).
Qed.

Lemma lookups_never_wait_witness : gl_pending demoGet <> [] /\ (forall n s', nsteps (gstep (fun n : nat => n)) n demoGet s' -> n <= 12).
Proof.
  split; [done|]. destruct (lookups_never_wait (fun n : nat => n) _ demo_get_run) as (_ & Hn & _). exact Hn.
Defined.

(** Two lookups of one key share a batch: the earlier is lost. *)
Example earlier_twin_lost : by_key (fun n => n mod 2) [3; 5; 4] = ([5; 4], [3]).
Proof. reflexivity. Qed.
