(* ===== verification/Handoff.v ===== *)
(** * Spools: uploads that outlive the build

    [cacheclient/handoff.go]: at exit a build writes the uploads it owes to a
    spool file and starts an uploader on it, which offers every entry to a
    backend of its own, drains it and deletes the spool.  A sweep of a later
    build starts an uploader for a spool that has lost its own.

    Processes are steps of one relation over the spool directory: uploaders,
    sweeps, builds that write, older clients; any of them may die anywhere.
    The lock of a file is a class of operations: what [LockFile] and
    [TryLockFile] promise, plus that a lock belongs to the file, so that
    removing its name lets the next one lock a new file.  The JSON text of a
    spool is taken as decoded, and the download of the index copy that may
    follow the uploads is [ClientIndex]. *)

From Stdlib Require Import ZArith Lia List Bool String.
From stdpp Require Import base gmap list relations.
From S2P Require Import Prelude Strconv GoSet Keys Sha256 HashSet ClientIndex Upload.

(** ** Locks *)

(** A holder is a process.  [lk_holds l n u]: [u] has the lock of the file now called [n]. *)
Class LockOps (L : Type) := {
  lk_try : nat -> bytes -> L -> option L;
  lk_unlock : nat -> L -> L;
  lk_remove : bytes -> L -> L;
  lk_holds : L -> bytes -> nat -> Prop
}.

Class LockLaws (L : Type) `{!LockOps L} : Prop := {
  lk_exclusive l n u v : lk_holds l n u -> lk_holds l n v -> u = v;
  lk_free l n u : (forall x, ~ lk_holds l n x) -> is_Some (lk_try u n l);
  lk_try_holds l n u l' : lk_try u n l = Some l' -> lk_holds l' n u /\ (forall x, ~ lk_holds l n x);
  lk_try_others l n u l' m x : lk_try u n l = Some l' -> lk_holds l' m x <-> lk_holds l m x \/ (m = n /\ x = u);
  lk_unlock_spec l u n x : lk_holds (lk_unlock u l) n x <-> lk_holds l n x /\ x <> u;
  lk_remove_spec l m n x : lk_holds (lk_remove m l) n x <-> lk_holds l n x /\ n <> m
}.

(** What a spool file holds: nothing, bytes that are no spool, or entries. *)
Inductive spoolData := SpoolEmpty | SpoolBad | SpoolOf (entries : list spoolEntry).

Section handoff.
Context {St Sh : Type} `{!SetOps St bytes} `{!SetLaws St bytes} `{!SetOps Sh bytes} `{!SetLaws Sh bytes}.
Context {L : Type} `{!LockOps L} `{!LockLaws L}.
Context (key : bytes -> bytes).
Set Default Proof Using "Type*".

Abbreviation store := (@upState St Sh).

(** ** Offering an entry *)

(** The backend of an uploader: [NewWebBackend], [skipIndex]. *)
Definition newStore : store :=
  UpState (WebIndex newKeySet false false 0 None noGen None newSortedSet false 0) newSortedSet ∅ [] [] false 0 0 [] [] [] [] [] [].

Definition ForgetStale (actionID : bytes) (s : store) : store :=
  match parseActionHash actionID with Some h => set_index (removeClaimed h) s | None => s end.

(** One turn of the loop of [RunUploadSpool]; [there] says whether the body's
    file is.  False: the body is gone. *)
Definition spool_put (there : bool) (e : spoolEntry) (s : store) : bool * store :=
  let s := if se_Replace e then ForgetStale (se_ActionID e) s else s in
  if bytes_eqb (se_Path e) [] then (true, (enqueuePut key (se_ActionID e) (se_OutputID e) (se_Data e) [] true s).2)
  else if negb there then (false, s)
  else (true, (enqueuePut key (se_ActionID e) (se_OutputID e) None (se_Path e) true s).2).

(** ** The directory and its processes *)

(** [RunUploadSpool]: before the lock, before the read, in the loop with the
    entries to do, those whose body is gone and the backend, past the release,
    about to remove the lock file, returned. *)
Inductive uploaderAt :=
  | ULock | URead | UPuts (todo gone : list spoolEntry) (s : store) | URemove | URemoveLock | UDone.

(** [sd_faulty] are the spools whose removal has failed, and those a sweep took
    for gone because it could not stat them.  The last three
    fields record the names ever used, the spools written, and for each that an
    uploader has been through the bodies it did not find and its backend. *)
Record spoolDir := SpoolDir {
  sd_spools : gmap bytes spoolData; sd_locks : L; sd_ups : gmap nat (bytes * uploaderAt); sd_faulty : gset bytes;
  sd_used : gset bytes; sd_written : gmap bytes (list spoolEntry); sd_finished : list (bytes * (list spoolEntry * store))
}.

Definition set_up (u : nat) (n : bytes) (at_ : uploaderAt) (s : spoolDir) : spoolDir :=
  SpoolDir (sd_spools s) (sd_locks s) (<[u := (n, at_)]> (sd_ups s)) (sd_faulty s) (sd_used s) (sd_written s) (sd_finished s).

Definition set_locks (l : L) (s : spoolDir) : spoolDir :=
  SpoolDir (sd_spools s) l (sd_ups s) (sd_faulty s) (sd_used s) (sd_written s) (sd_finished s).

Definition set_spools (m : gmap bytes spoolData) (s : spoolDir) : spoolDir :=
  SpoolDir m (sd_locks s) (sd_ups s) (sd_faulty s) (sd_used s) (sd_written s) (sd_finished s).

Definition release (u : nat) (s : spoolDir) : spoolDir := set_locks (lk_unlock u (sd_locks s)) s.

Definition set_faulty (n : bytes) (s : spoolDir) : spoolDir :=
  SpoolDir (sd_spools s) (sd_locks s) (sd_ups s) ({[n]} ∪ sd_faulty s) (sd_used s) (sd_written s) (sd_finished s).

Definition use (n : bytes) (s : spoolDir) : spoolDir :=
  SpoolDir (sd_spools s) (sd_locks s) (sd_ups s) (sd_faulty s) ({[n]} ∪ sd_used s) (sd_written s) (sd_finished s).

Definition finish (n : bytes) (gone : list spoolEntry) (st : store) (s : spoolDir) : spoolDir :=
  SpoolDir (sd_spools s) (sd_locks s) (sd_ups s) (sd_faulty s) (sd_used s) (sd_written s) ((n, (gone, st)) :: sd_finished s).

(** [writeSpool], once the rename has put the whole spool under its name. *)
Definition writeSpool (n : bytes) (es : list spoolEntry) (s : spoolDir) : spoolDir :=
  SpoolDir (<[n := SpoolOf es]> (sd_spools s)) (sd_locks s) (sd_ups s) (sd_faulty s) ({[n]} ∪ sd_used s) (<[n := es]> (sd_written s)) (sd_finished s).

(** [RunUploadSpool], step by step, and what its file operations answer.  Its
    backend drains on close: no hand-off begins in it. *)
Inductive upstep (u : nat) (n : bytes) (s : spoolDir) : uploaderAt -> spoolDir -> Prop :=
  | u_lock l : lk_try u n (sd_locks s) = Some l -> upstep u n s ULock (set_up u n URead (set_locks l s))
  | u_busy : upstep u n s ULock (set_up u n UDone s)
  | u_gone : sd_spools s !! n = None -> upstep u n s URead (set_up u n URemoveLock (release u s))
  | u_unread : upstep u n s URead (set_up u n UDone (release u s))
  | u_junk d : sd_spools s !! n = Some d -> d = SpoolEmpty \/ d = SpoolBad -> upstep u n s URead (set_up u n URemove (release u s))
  | u_start es : sd_spools s !! n = Some (SpoolOf es) -> upstep u n s URead (set_up u n (UPuts es [] newStore) s)
  | u_offer e todo gone st there ok st' : spool_put there e st = (ok, st') ->
      upstep u n s (UPuts (e :: todo) gone st) (set_up u n (UPuts todo (if ok then gone else e :: gone) st') s)
  | u_work todo gone st st' : ustep key st st' -> us_handed st' = us_handed st -> upstep u n s (UPuts todo gone st) (set_up u n (UPuts todo gone st') s)
  | u_closed gone st : us_prep st = [] -> us_queue st = [] ->
      upstep u n s (UPuts [] gone st) (finish n gone st (set_up u n URemove (release u s)))
  | u_remove : upstep u n s URemove (set_up u n URemoveLock (set_spools (delete n (sd_spools s)) s))
  | u_remove_fails : upstep u n s URemove (set_faulty n (set_up u n URemoveLock s))
  | u_remove_lock : upstep u n s URemoveLock (set_up u n UDone (set_locks (lk_remove n (sd_locks s)) s))
  | u_remove_lock_fails : upstep u n s URemoveLock (set_up u n UDone s).

(** Everyone: builds write, older clients leave junk, uploaders start, go on and
    die, and [sweepSpools] cleans up; a lock goes on any error of the [Stat] of its
    spool. *)
Inductive hstep (s : spoolDir) : spoolDir -> Prop :=
  | h_write n es : n ∉ sd_used s -> hstep s (writeSpool n es s)
  | h_junk n d : sd_spools s !! n = None -> d = SpoolEmpty \/ d = SpoolBad -> hstep s (use n (set_spools (<[n := d]> (sd_spools s)) s))
  | h_start u n : n ∈ sd_used s -> sd_ups s !! u = None -> hstep s (set_up u n ULock s)
  | h_up u n at_ s' : sd_ups s !! u = Some (n, at_) -> upstep u n s at_ s' -> hstep s s'
  | h_dies u n at_ : sd_ups s !! u = Some (n, at_) -> hstep s (set_up u n UDone (release u s))
  | h_sweep_lock n : sd_spools s !! n = None -> hstep s (set_locks (lk_remove n (sd_locks s)) s)
  | h_sweep_stat_fails n : hstep s (set_faulty n (set_locks (lk_remove n (sd_locks s)) s))
  | h_sweep_empty n : sd_spools s !! n = Some SpoolEmpty -> hstep s (set_spools (delete n (sd_spools s)) s)
  | h_sweep_start u n d l : sd_spools s !! n = Some d -> d <> SpoolEmpty -> lk_try u n (sd_locks s) = Some l -> sd_ups s !! u = None ->
      hstep s (set_up u n ULock (release u (set_locks l s))).

(** ** What an uploader has dealt with *)

(** A hash whose upload has been answered, refused or given up, or is owed. *)
Definition dealt (st : store) (h : bytes) : Prop := h ∈ us_answered st \/ h ∈ us_refused st \/ h ∈ us_gaveUp st \/ owed st h.

(** More is dealt with in [st'] than in [st]. *)
Definition grows (st st' : store) : Prop := forall h, dealt st h -> dealt st' h.

Lemma grows_same st st' : us_answered st' = us_answered st -> us_refused st' = us_refused st -> us_gaveUp st' = us_gaveUp st -> us_pending st' = us_pending st -> grows st st'.
Proof using Type. intros E1 E2 E3 E4 h. unfold dealt, owed. by rewrite E1, E2, E3, E4. Qed.

(** A pending upload is closed only with an entry in one of the books. *)
Lemma grows_settle st st' h : (forall g, g ∈ us_answered st -> g ∈ us_answered st') -> (forall g, g ∈ us_refused st -> g ∈ us_refused st') ->
  (forall g, g ∈ us_gaveUp st -> g ∈ us_gaveUp st') -> us_pending st' = delete h (us_pending st) -> dealt st' h -> grows st st'.
Proof using Type.
  intros H1 H2 H3 Hp Hh g [Hg|[Hg|[Hg|Hg]]]; [left; auto|right; left; auto|right; right; left; auto|].
  destruct (decide (g = h)) as [->|Hne]; [done|]. right; right; right. unfold owed. by rewrite Hp, lookup_delete_ne.
Qed.

Lemma grows_refuse h st : grows st (refuseUpload h st).
Proof using Type. apply (grows_settle _ _ h); cbn; [done|intros; by right|done|done|]. right; left. by left. Qed.

Lemma grows_abandon h st : grows st (abandonUpload h st).
Proof using Type. apply (grows_settle _ _ h); cbn; [done|done|intros; by right|done|]. right; right; left. by left. Qed.

Lemma grows_confirm h st : grows st (confirm h st).
Proof using Type. apply (grows_settle _ _ h); cbn; [intros; by right|done|done|done|]. left. by left. Qed.

Lemma grows_fail aborted h st : grows st (failUpload aborted h st).
Proof using Type. by apply grows_same. Qed.

Lemma grows_trans st1 st2 st3 : grows st1 st2 -> grows st2 st3 -> grows st1 st3.
Proof using Type. intros H1 H2 h Hh. auto. Qed.

Lemma grows_fold {A} (f : store -> A -> store) (l : list A) : (forall st x, grows st (f st x)) -> forall st, grows st (foldl f st l).
Proof using Type. intros Hf. induction l as [|x l IH]; intros st; [by intros ?|]. cbn [foldl]. eapply grows_trans; [apply Hf|apply IH]. Qed.

Lemma grows_single aborted status r st : grows st (putSingle aborted status r st).
Proof using Type. unfold putSingle. repeat case_match; first [apply grows_confirm|apply grows_fail]. Qed.

#[local] Hint Resolve grows_refuse grows_abandon grows_confirm grows_fail grows_single : gocache.

Lemma grows_prepare aborted later file compressed stopped status j st : grows st (prepare aborted later file compressed stopped status j st).
Proof using Type.
  unfold prepare. destruct aborted; [by intros ?|]. destruct (match pj_data j with Some _ => _ | None => _ end) as [data|]; [|auto with gocache].
  destruct (negb _); [auto with gocache|]. destruct (WebGet.IsGoModuleIndex data); [auto with gocache|]. destruct (compressed data); [|auto with gocache]. destruct (us_unsupported st); [auto with gocache|]. destruct stopped; [auto with gocache|].
  by apply grows_same.
Qed.

Lemma grows_send aborted reqs reply single st : grows st (sendBatchPut aborted reqs reply single st).
Proof using Type.
  unfold sendBatchPut. destruct reply as [|code|rs]; [apply grows_fold; auto with gocache| |].
  - destruct (_ || _); [|apply grows_fold; auto with gocache]. eapply grows_trans; [|apply grows_fold; auto with gocache]. by apply grows_same.
  - apply grows_fold. intros st' r. unfold settle_result. repeat case_match; auto with gocache.
Qed.

Lemma new_contains h : ks_Contains (newKeySet : @keySet St) h = false.
Proof.
  apply not_true_is_false. intros Hc. destruct (adoptSorted_ok (St := St) (@nil bytes)) as [Hi Ha].
  apply (hs_Contains_ok _ _ Hi), Ha in Hc. by apply not_elem_of_nil in Hc.
Qed.

(** What waits in a queue has been dealt with as far as the books go: it is owed,
    or a twin of it was settled. *)
Definition under_dealt (st : store) : Prop := forall h, underway [] st h -> dealt st h.

(** The operations that settle uploads leave the queues alone. *)
Definition same_queues (st st' : store) : Prop := us_prep st' = us_prep st /\ us_queue st' = us_queue st /\ us_handed st' = us_handed st.

Lemma same_fold {A} (f : store -> A -> store) (l : list A) : (forall st x, same_queues st (f st x)) -> forall st, same_queues st (foldl f st l).
Proof using Type.
  intros Hf. induction l as [|x l IH]; intros st; [done|]. cbn [foldl]. destruct (Hf st x) as (H1 & H2 & H3), (IH (f st x)) as (H4 & H5 & H6). split_and!; congruence.
Qed.

Lemma same_send aborted reqs reply single st : same_queues st (sendBatchPut aborted reqs reply single st).
Proof using Type.
  unfold sendBatchPut. destruct reply as [|code|rs]; [by apply same_fold| |].
  - destruct (_ || _); [|by apply same_fold]. change (same_queues (set_unsupported st) (foldl (fun s r => putSingle aborted (single r) r s) (set_unsupported st) reqs)).
    apply same_fold. intros st' r. unfold putSingle. repeat case_match; done.
  - apply same_fold. intros st' r. unfold settle_result. repeat case_match; done.
Qed.

(** What is under way after a job was prepared was under way before. *)
Lemma prepare_underway aborted later file compressed stopped status j (st : store) h :
  underway [] (prepare aborted later file compressed stopped status j st) h -> h = pj_hash j \/ underway [] st h.
Proof using Type.
  clear key. unfold prepare. destruct aborted; [unfold underway; cbn; rewrite elem_of_cons; tauto|].
  destruct (match pj_data j with Some _ => _ | None => _ end) as [data|]; [|by right]. destruct (negb _); [by right|].
  destruct (WebGet.IsGoModuleIndex data); [by right|]. destruct (compressed data); [|by right].
  destruct (us_unsupported st); [unfold putSingle; repeat case_match; by right|]. destruct stopped; [by right|].
  unfold underway. cbn. rewrite map_app, elem_of_app. cbn. rewrite list_elem_of_singleton. tauto.
Qed.

(** A new upload is owed at once; one that is skipped is claimed by another. *)
Lemma put_dealt actionID outputID data path st h : accounted newKeySet [] st -> under_dealt st -> parseActionHash actionID = Some h ->
  let st' := (enqueuePut key actionID outputID data path true st).2 in
  grows st st' /\ accounted newKeySet [] st' /\ exists g, ks_key newKeySet h = ks_key newKeySet g /\ dealt st' g.
Proof.
  intros Ha Hun Hp. cbn zeta. split; [|split; [by apply accounted_put|]]; unfold enqueuePut, claimPut; rewrite Hp;
    destruct (ks_Contains (wi_keys (us_index st)) h) eqn:Hc; cbn [negb snd].
  - by intros ?.
  - intros g [Hg|[Hg|[Hg|Hg]]]; [by left|by right; left|by right; right; left|]. right; right; right. unfold owed. cbn [us_pending set_queues track set_pending add_held set_index accept].
    destruct (decide (g = h)) as [->|]; [rewrite lookup_insert_eq; by eexists|by rewrite lookup_insert_ne].
  - destruct (ac_claims _ _ _ Ha h Hc) as [Hn|(g & Hk & Hg)]; [by rewrite new_contains in Hn|]. exists g. split; [done|]. destruct Hg; [by left|by apply Hun].
  - exists h. split; [done|]. right; right; right. unfold owed. cbn [us_pending set_queues track set_pending add_held set_index accept]. rewrite lookup_insert_eq. by eexists.
Qed.

Lemma accounted_forget actionID st : accounted newKeySet [] st -> accounted newKeySet [] (ForgetStale actionID st).
Proof.
  intros Ha. unfold ForgetStale. destruct (parseActionHash actionID) as [h|]; [|done]. pose proof Ha as [_ Hu Ho Hc Hn].
  constructor; [exact (dropped_inv newKeySet _ st h Ha)|done|exact Ho| |done]. intros x Hx. destruct (dropped_claim newKeySet _ st h x Ha Hx) as [H1 _]. exact (Hc x H1).
Qed.

Lemma grows_forget actionID st : grows st (ForgetStale actionID st).
Proof using Type. unfold ForgetStale. destruct (parseActionHash actionID); by apply grows_same. Qed.

Lemma ustep_grows st st' : accounted newKeySet [] st -> under_dealt st -> ustep key st st' -> grows st st'.
Proof.
  intros Ha Hun Hs. revert Ha Hun. destruct Hs as [actionID outputID data path accepted st0|st0 l1 j l2 aborted later file compressed stopped status _|st0 batch rest aborted reply single _ _ _|st0 h]; intros Ha Hun.
  - destruct (parseActionHash actionID) as [h|] eqn:Hp; [|unfold enqueuePut; rewrite Hp; by intros ?].
    destruct (put_dealt actionID outputID data path st0 h Ha Hun Hp) as (Hg & _). revert Hg. unfold enqueuePut. rewrite Hp. destruct (claimPut h (us_index st0)) as [fresh ix].
    destruct fresh; cbn [negb snd]; [|done]. destruct accepted; [done|]. intros Hg. eapply grows_trans; [|apply grows_abandon]. eapply grows_trans; [exact Hg|]. by apply grows_same.
  - eapply grows_trans; [|apply grows_prepare]. by apply grows_same.
  - eapply grows_trans; [|apply grows_send]. by apply grows_same.
  - by apply grows_same.
Qed.

(** A put of the uploader's backend: what it queues is owed. *)
Lemma put_under actionID outputID data path accepted st : grows st (enqueuePut key actionID outputID data path accepted st).2 -> under_dealt st ->
  under_dealt (enqueuePut key actionID outputID data path accepted st).2.
Proof using Type.
  intros Hg Hun h Hh. unfold enqueuePut in *. destruct (parseActionHash actionID) as [g|]; [|by apply Hun]. destruct (claimPut g (us_index st)) as [fresh ix].
  destruct fresh; cbn [negb snd] in *; [|by apply Hun]. destruct accepted; [|by apply Hg, Hun].
  assert (Hh' : h = g \/ underway [] st h).
  { clear Hg Hun. revert Hh. unfold underway. cbn. rewrite map_app, elem_of_app. cbn. rewrite list_elem_of_singleton. intuition. }
  destruct Hh' as [->|Hh']; [|by apply Hg, Hun]. right; right; right. unfold owed. cbn [us_pending set_queues track set_pending add_held set_index accept]. rewrite lookup_insert_eq. by eexists.
Qed.

Lemma ustep_under st st' : accounted newKeySet [] st -> under_dealt st -> ustep key st st' -> under_dealt st'.
Proof.
  intros Ha Hun Hs. pose proof (ustep_grows st st' Ha Hun Hs) as Hg. revert Ha Hun Hg.
  destruct Hs as [actionID outputID data path accepted st0|st0 l1 j l2 aborted later file compressed stopped status Hq|st0 batch rest aborted reply single Hq _ _|st0 h]; intros Ha Hun Hg.
  - by apply put_under.
  - intros g Hu. apply Hg, Hun. clear Hg Hun Ha. pose proof (prepare_underway aborted later file compressed stopped status j (set_queues (l1 ++ l2) (us_queue st0) st0) g Hu) as [->|Hu']; [|revert Hu']; unfold underway; cbn; rewrite Hq, !map_app; cbn; rewrite ?elem_of_app, ?elem_of_cons; intuition.
  - intros g Hu. apply Hg, Hun. destruct (same_send aborted batch reply single (set_queues (us_prep st0) rest st0)) as (H1 & H2 & H3).
    revert Hu. unfold underway. rewrite H1, H2, H3. cbn. rewrite Hq, map_app, elem_of_app. clear Hg Hun Ha H1 H2 H3. intuition.
  - intros g Hu. apply Hg, Hun. exact Hu.
Qed.

(** An entry has been attempted: its body was gone, it names no action, or its
    hash, up to what the index tells apart, has been dealt with. *)
Definition attempted (gone : list spoolEntry) (st : store) (e : spoolEntry) : Prop :=
  e ∈ gone \/ parseActionHash (se_ActionID e) = None \/
  exists h g, parseActionHash (se_ActionID e) = Some h /\ ks_key (newKeySet : @keySet St) h = ks_key (newKeySet : @keySet St) g /\ dealt st g.

Lemma attempted_grows gone gone' st st' e : gone ⊆ gone' -> grows st st' -> attempted gone st e -> attempted gone' st' e.
Proof using Type.
  intros Hs Hg [H1|[H1|(h & g & H1 & H2 & H3)]]; [left; by apply Hs|by right; left|]. right; right. exists h, g. auto.
Qed.

(** An entry has been tried: its body was gone, it names no action, or the upload
    of its hash, up to what the index tells apart, was answered for, refused by a
    guard, given up and counted, or sent and failed. *)
Definition settled (st : store) (h : bytes) : Prop := h ∈ us_answered st \/ h ∈ us_refused st \/ h ∈ us_gaveUp st \/ h ∈ us_fails st.

Definition tried_out (gone : list spoolEntry) (st : store) (e : spoolEntry) : Prop :=
  e ∈ gone \/ parseActionHash (se_ActionID e) = None \/
  exists h g, parseActionHash (se_ActionID e) = Some h /\ ks_key (newKeySet : @keySet St) h = ks_key (newKeySet : @keySet St) g /\ settled st g.

(** The backend of an uploader at work. *)
Record putting (st : store) : Prop := { pt_accounted : accounted newKeySet [] st; pt_under : under_dealt st; pt_handed : us_handed st = [] }.

(** In a drained backend nothing is owed but what failed. *)
Lemma drained_tried gone st e : putting st -> us_prep st = [] -> us_queue st = [] -> attempted gone st e -> tried_out gone st e.
Proof.
  intros [Ha _ Hh] Hp Hq [?|[?|(h & g & H1 & H2 & H3)]]; [by left|by right; left|]. right; right. exists h, g. split; [done|]. split; [done|].
  destruct H3 as [?|[?|[?|Ho]]]; [by left|by right; left|by right; right; left|]. right; right; right.
  destruct (ac_owed _ _ _ Ha g Ho) as [Hu|?]; [|done]. unfold underway in Hu. rewrite Hp, Hq, Hh in Hu. cbn in Hu. rewrite !elem_of_nil in Hu. by destruct Hu as [?|[?|[?|?]]].
Qed.

Lemma under_forget actionID st : under_dealt st -> under_dealt (ForgetStale actionID st).
Proof using Type. unfold ForgetStale. by destruct (parseActionHash actionID). Qed.

Lemma spool_put_ok there e st ok st' gone : putting st -> spool_put there e st = (ok, st') ->
  grows st st' /\ putting st' /\ attempted (if ok then gone else e :: gone) st' e.
Proof.
  intros [Ha Hun Hh]. unfold spool_put. set (st1 := if se_Replace e then ForgetStale (se_ActionID e) st else st).
  assert (Ha1 : accounted newKeySet [] st1) by (unfold st1; destruct (se_Replace e); [by apply accounted_forget|done]).
  assert (Hg1 : grows st st1) by (unfold st1; destruct (se_Replace e); [apply grows_forget|by intros ?]).
  assert (Hun1 : under_dealt st1) by (unfold st1; destruct (se_Replace e); [by apply under_forget|done]).
  assert (Hh1 : us_handed st1 = []) by (unfold st1, ForgetStale; destruct (se_Replace e); [by destruct (parseActionHash _)|done]).
  assert (Hput : forall data path, let st2 := (enqueuePut key (se_ActionID e) (se_OutputID e) data path true st1).2 in grows st st2 /\ putting st2 /\ attempted gone st2 e).
  { intros data path. destruct (parseActionHash (se_ActionID e)) as [h|] eqn:Hp.
    - destruct (put_dealt (se_ActionID e) (se_OutputID e) data path st1 h Ha1 Hun1 Hp) as (H1 & H2 & g & H3). split; [by eapply grows_trans|]. split.
      + split; [done|by apply put_under|]. unfold enqueuePut. rewrite Hp. destruct (claimPut h (us_index st1)) as [fresh ix]. by destruct fresh.
      + right; right. by exists h, g.
    - cbn zeta. unfold enqueuePut. rewrite Hp. split; [done|]. split; [done|]. by right; left. }
  destruct (bytes_eqb _ _); [intros [= <- <-]; apply Hput|]. destruct there; cbn [negb]; [intros [= <- <-]; apply Hput|].
  intros [= <- <-]. split; [done|]. split; [done|]. left. by left.
Qed.

Lemma new_putting : putting newStore.
Proof.
  split; [|clear key; unfold under_dealt, underway; cbn; intros h; rewrite !elem_of_nil; tauto|done].
  constructor; [split; [exact (proj1 (adoptSorted_ok []))|done]|apply Forall_nil_2| | |done].
  - intros h [x Hx]. cbn in Hx. by rewrite lookup_empty in Hx.
  - intros x Hx. by left.
Qed.

(** ** The state of the directory *)

Record dirInv (s : spoolDir) : Prop := {
  di_ups : forall u n at_, sd_ups s !! u = Some (n, at_) -> n ∈ sd_used s;
  di_used : forall n, is_Some (sd_spools s !! n) \/ is_Some (sd_written s !! n) -> n ∈ sd_used s;
  di_data : forall n es, sd_spools s !! n = Some (SpoolOf es) -> sd_written s !! n = Some es;
  di_kept : forall n es, sd_written s !! n = Some es -> sd_spools s !! n = Some (SpoolOf es) \/ n ∈ (sd_finished s).*1;
  di_remove : forall u n es, sd_ups s !! u = Some (n, URemove) -> sd_spools s !! n = Some (SpoolOf es) -> n ∈ (sd_finished s).*1;
  di_puts : forall u n todo gone st, sd_ups s !! u = Some (n, UPuts todo gone st) ->
    exists tried, sd_written s !! n = Some (tried ++ todo) /\ Forall (attempted gone st) tried /\ putting st;
  di_finished : forall n gone st, (n, (gone, st)) ∈ sd_finished s -> exists es, sd_written s !! n = Some es /\ Forall (tried_out gone st) es
}.

(** Who holds which lock, of the spools nothing has gone wrong with. *)
Definition at_work (at_ : uploaderAt) : bool := match at_ with URead | UPuts _ _ _ => true | _ => false end.
Definition at_puts (at_ : uploaderAt) : bool := match at_ with UPuts _ _ _ => true | _ => false end.

Record lockInv (s : spoolDir) : Prop := {
  dl_held : forall u n at_ es, n ∉ sd_faulty s -> sd_ups s !! u = Some (n, at_) -> at_work at_ = true -> sd_spools s !! n = Some (SpoolOf es) -> lk_holds (sd_locks s) n u;
  dl_gone : forall u n es, n ∉ sd_faulty s -> sd_ups s !! u = Some (n, URemoveLock) -> sd_spools s !! n <> Some (SpoolOf es);
  dl_alone : forall u v n a b, n ∉ sd_faulty s -> sd_ups s !! u = Some (n, a) -> sd_ups s !! v = Some (n, b) -> at_puts a = true -> at_puts b = true -> u = v
}.

(** *** Nothing is dropped *)

Lemma dir_locks s l : dirInv s -> dirInv (set_locks l s).
Proof. by intros []. Qed.

Lemma dir_up s u n at_ : dirInv s -> n ∈ sd_used s ->
  (at_ = URemove -> forall es, sd_spools s !! n = Some (SpoolOf es) -> n ∈ (sd_finished s).*1) ->
  (forall todo gone st, at_ = UPuts todo gone st -> exists tried, sd_written s !! n = Some (tried ++ todo) /\ Forall (attempted gone st) tried /\ putting st) ->
  dirInv (set_up u n at_ s).
Proof.
  intros [] Hn Hr Hp. split; try done; cbn [sd_ups set_up sd_used sd_spools sd_finished sd_written].
  - intros v m a. rewrite lookup_insert_Some. intros [[-> [= <- <-]]|[_ Hv]]; [done|eauto].
  - intros v m es. rewrite lookup_insert_Some. intros [[-> [= <- ->]]|[_ Hv]]; [by apply Hr|eauto].
  - intros v m todo gone st. rewrite lookup_insert_Some. intros [[-> [= <- ->]]|[_ Hv]]; [by apply Hp|eauto].
Qed.

Lemma dir_delete s n : dirInv s -> (forall es, sd_spools s !! n = Some (SpoolOf es) -> n ∈ (sd_finished s).*1) -> dirInv (set_spools (delete n (sd_spools s)) s).
Proof.
  intros [] Hn. split; try done; cbn [sd_ups set_spools sd_used sd_spools sd_finished sd_written].
  - intros m [Hm|Hm]; [|auto]. apply lookup_delete_is_Some in Hm as [_ Hm]. auto.
  - intros m es. rewrite lookup_delete_Some. intros [_ Hm]. eauto.
  - intros m es Hm. destruct (di_kept0 m es Hm) as [Hs|Hs]; [|by right]. destruct (decide (m = n)) as [->|]; [right; eauto|left; by rewrite lookup_delete_ne].
  - intros u m es Hu. rewrite lookup_delete_Some. intros [_ Hm]. eauto.
Qed.

Lemma dir_finish s n gone st es : dirInv s -> sd_written s !! n = Some es -> Forall (tried_out gone st) es -> dirInv (finish n gone st s).
Proof.
  intros [] Hw Hf. split; try done; cbn [sd_ups finish sd_used sd_spools sd_finished sd_written].
  - intros m es' Hm. destruct (di_kept0 m es' Hm); [by left|right; by right].
  - intros u m es' Hu Hm. right. eauto.
  - intros m gone' st' [[= -> -> ->]|Hm]%elem_of_cons; eauto.
Qed.

Lemma dir_use s n d : dirInv s -> (forall es, d <> SpoolOf es) -> sd_spools s !! n = None -> dirInv (use n (set_spools (<[n := d]> (sd_spools s)) s)).
Proof.
  intros [] Hd Hn. split; cbn [sd_ups use set_spools sd_used sd_spools sd_finished sd_written]; try done.
  - intros u m a Hu. apply elem_of_union_r. eauto.
  - intros m [Hm|Hm]; [|apply elem_of_union_r; auto]. destruct (decide (m = n)) as [->|]; [by apply elem_of_union_l, elem_of_singleton|]. rewrite lookup_insert_ne in Hm by done. apply elem_of_union_r; auto.
  - intros m es. rewrite lookup_insert_Some. intros [[-> ->]|[_ Hm]]; [by destruct (Hd es)|eauto].
  - intros m es Hm. destruct (di_kept0 m es Hm) as [Hs|Hs]; [|by right]. left. rewrite lookup_insert_ne; [done|]. intros <-. congruence.
  - intros u m es Hu. rewrite lookup_insert_Some. intros [[-> ->]|[_ Hm]]; [by destruct (Hd es)|eauto].
Qed.

Lemma dir_write s n es : dirInv s -> n ∉ sd_used s -> dirInv (writeSpool n es s).
Proof.
  intros [] Hn. assert (Hold : forall m x, sd_written s !! m = Some x -> m <> n) by (intros m x Hm ->; apply Hn, di_used0; eauto).
  split; cbn [sd_ups writeSpool sd_used sd_spools sd_finished sd_written].
  - intros u m a Hu. apply elem_of_union_r. eauto.
  - intros m Hm. destruct (decide (m = n)) as [->|]; [by apply elem_of_union_l, elem_of_singleton|]. rewrite !lookup_insert_ne in Hm by done. apply elem_of_union_r; auto.
  - intros m es'. rewrite lookup_insert_Some. intros [[-> [= ->]]|[Hne Hm]]; [by rewrite lookup_insert_eq|]. rewrite lookup_insert_ne by done. eauto.
  - intros m es'. rewrite lookup_insert_Some. intros [[-> ->]|[Hne Hm]]; [left; by rewrite lookup_insert_eq|]. rewrite lookup_insert_ne by done. eauto.
  - intros u m es' Hu. rewrite lookup_insert_Some. intros [[-> _]|[_ Hm]]; [|eauto]. exfalso. apply Hn. eauto.
  - intros u m todo gone st Hu. destruct (di_puts0 u m todo gone st Hu) as (tried & Hw & Hrest). exists tried. split; [|done]. rewrite lookup_insert_ne; [done|]. intros ->. by eapply Hold.
  - intros m gone st Hm. destruct (di_finished0 m gone st Hm) as (es' & Hw & Hrest). exists es'. split; [|done]. rewrite lookup_insert_ne; [done|]. intros ->. by eapply Hold.
Qed.

Lemma upstep_dir u n s at_ s' : dirInv s -> sd_ups s !! u = Some (n, at_) -> upstep u n s at_ s' -> dirInv s'.
Proof.
  intros I Hu Hs. pose proof (di_ups _ I _ _ _ Hu) as Hn.
  destruct Hs as [l Hl| |Hg| |d Hd Hj|es Hd|e todo gone st there ok st' Hp|todo gone st st' Hst Hnh|gone st Hq1 Hq2| | | |];
    try (by (apply dir_up; [by apply dir_locks|done|done|done]));
    try (by (apply dir_up; [done|done|done|done])).
  - apply dir_up; [by apply dir_locks|done| |done]. intros _ es Hes. cbn in Hes. rewrite Hd in Hes. injection Hes as ->. by destruct Hj.
  - apply dir_up; [done|done|done|]. intros todo gone st [= <- <- <-]. exists []. split; [by apply (di_data _ I)|]. split; [constructor|apply new_putting].
  - destruct (di_puts _ I _ _ _ _ _ Hu) as (tried & Hw & Hf & Ha). destruct (spool_put_ok there e st ok st' gone Ha Hp) as (H1 & H2 & H3).
    apply dir_up; [done|done|done|]. intros ? ? ? [= <- <- <-]. exists (tried ++ [e]). split; [by rewrite <- app_assoc|]. split; [|done].
    apply Forall_app. split; [|by apply Forall_singleton]. eapply Forall_impl; [exact Hf|]. intros x. apply attempted_grows; [|done]. destruct ok; set_solver.
  - destruct (di_puts _ I _ _ _ _ _ Hu) as (tried & Hw & Hf & Ha). apply dir_up; [done|done|done|]. intros ? ? ? [= <- <- <-]. exists tried. split; [done|].
    destruct Ha as [Ha Hun Hh].
    split; [|split; [by eapply ustep_accounted|by eapply ustep_under|congruence]]. eapply Forall_impl; [exact Hf|]. intros x. apply attempted_grows; [done|by apply ustep_grows].
  - destruct (di_puts _ I _ _ _ _ _ Hu) as (tried & Hw & Hf & Ha). rewrite app_nil_r in Hw.
    assert (Hf' : Forall (tried_out gone st) tried) by (eapply Forall_impl; [exact Hf|]; intros x; by apply drained_tried).
    pose proof (dir_finish (release u s) n gone st tried (dir_locks _ _ I) Hw Hf') as I'. apply (dir_up _ u n URemove) in I'; [exact I'|done| |done].
    intros _ es _. cbn. set_solver.
  - apply dir_up; [|done|done|done]. apply dir_delete; [done|]. intros es Hes. by eapply (di_remove _ I).
  - assert (I' : dirInv (set_up u n URemoveLock s)) by (by apply dir_up). by destruct I'.
Qed.

Lemma hstep_dir s s' : dirInv s -> hstep s s' -> dirInv s'.
Proof.
  intros I [n es Hn|n d Hn Hd|u n Hn Hu|u n at_ s1 Hu Hs|u n at_ Hu|n Hn|n|n Hn|u n d l Hn Hd Hl Hu].
  - by apply dir_write.
  - apply dir_use; [done| |done]. intros es ->. by destruct Hd.
  - by apply dir_up.
  - by eapply upstep_dir.
  - apply dir_up; [by apply dir_locks| |done|done]. by eapply (di_ups _ I).
  - by apply dir_locks.
  - pose proof (dir_locks s (lk_remove n (sd_locks s)) I) as []. by split.
  - apply dir_delete; [done|]. intros es Hes. congruence.
  - apply dir_up; [by apply dir_locks, dir_locks| |done|done]. cbn. apply (di_used _ I). left. by eexists.
Qed.

(** *** One uploader at a time *)

(** The process [u] moves; every lock another one holds it keeps. *)
Lemma lock_up s u n at_ l : lockInv s ->
  (forall m v, v <> u -> lk_holds (sd_locks s) m v -> lk_holds l m v) ->
  (n ∉ sd_faulty s -> at_work at_ = true -> forall es, sd_spools s !! n = Some (SpoolOf es) -> lk_holds l n u) ->
  (n ∉ sd_faulty s -> at_ = URemoveLock -> forall es, sd_spools s !! n <> Some (SpoolOf es)) ->
  (n ∉ sd_faulty s -> at_puts at_ = true -> forall v b, v <> u -> sd_ups s !! v = Some (n, b) -> at_puts b = false) ->
  lockInv (set_up u n at_ (set_locks l s)).
Proof.
  intros [] Hl Hw Hg Hp. split; cbn [sd_ups set_up set_locks sd_spools sd_locks sd_faulty].
  - intros v m a es Hm. rewrite lookup_insert_Some. intros [[<- [= <- <-]]|[Hne Hv]] Ha Hes; [eauto|]. apply Hl; [done|eauto].
  - intros v m es Hm. rewrite lookup_insert_Some. intros [[<- [= <- ->]]|[_ Hv]]; [by apply Hg|eauto].
  - intros v w m a b Hm. rewrite !lookup_insert_Some. intros [[<- [= <- <-]]|[Hne Hv]] [[<- Heq]|[Hne' Hw']] Ha Hb; [done| | |eauto].
    + rewrite (Hp Hm Ha w b) in Hb; [done|done|done].
    + injection Heq as -> ->. rewrite (Hp Hm Hb v a) in Ha; [done|done|done].
Qed.

Lemma set_locks_same s : set_locks (sd_locks s) s = s.
Proof. by destruct s. Qed.

Lemma lock_up_same s u n at_ : lockInv s ->
  (at_work at_ = true -> exists a, sd_ups s !! u = Some (n, a) /\ at_work a = true) ->
  (n ∉ sd_faulty s -> at_ = URemoveLock -> forall es, sd_spools s !! n <> Some (SpoolOf es)) ->
  (n ∉ sd_faulty s -> at_puts at_ = true -> forall v b, v <> u -> sd_ups s !! v = Some (n, b) -> at_puts b = false) ->
  lockInv (set_up u n at_ s).
Proof.
  intros I Hw Hg Hp. rewrite <- (set_locks_same s). apply lock_up; [done..| |done|done].
  intros Hn Ha es Hes. destruct (Hw Ha) as (a & Hu & Hwa). by eapply (dl_held _ I).
Qed.

Lemma lock_release s u n at_ : lockInv s -> at_work at_ = false ->
  (n ∉ sd_faulty s -> at_ = URemoveLock -> forall es, sd_spools s !! n <> Some (SpoolOf es)) -> lockInv (set_up u n at_ (release u s)).
Proof.
  intros I Hw Hg. apply lock_up; [done| |congruence|done|by destruct at_]. intros m v Hv Hh. by apply lk_unlock_spec.
Qed.

(** A name without entries has lost or gets no lock that matters. *)
Lemma lock_change s m l : lockInv s -> (forall n es, m !! n = Some (SpoolOf es) -> sd_spools s !! n = Some (SpoolOf es)) ->
  (forall n v es, n ∉ sd_faulty s -> m !! n = Some (SpoolOf es) -> lk_holds (sd_locks s) n v -> lk_holds l n v) -> lockInv (set_spools m (set_locks l s)).
Proof.
  intros [] Hm Hl. split; cbn [sd_ups set_spools set_locks sd_spools sd_locks sd_faulty]; [| |eauto]; [intros; eapply Hl; eauto|].
  intros u n es Hf Hu Hn. by eapply dl_gone0; eauto.
Qed.

(** Something goes wrong with one spool: the others are as they were. *)
Lemma lock_faulty s s' n : lockInv s -> sd_spools s' = sd_spools s -> sd_faulty s' = {[n]} ∪ sd_faulty s ->
  (forall m v, m <> n -> lk_holds (sd_locks s) m v -> lk_holds (sd_locks s') m v) ->
  (forall u m a, m <> n -> sd_ups s' !! u = Some (m, a) -> sd_ups s !! u = Some (m, a)) -> lockInv s'.
Proof.
  intros [] Hsp Hf Hl Hup. assert (Hne : forall m, m ∉ sd_faulty s' -> m <> n /\ m ∉ sd_faulty s) by (intros m; rewrite Hf, not_elem_of_union, not_elem_of_singleton; done).
  split.
  - intros u m a es Hm Hu Ha Hes. destruct (Hne m Hm) as [H1 H2]. apply Hl; [done|]. rewrite Hsp in Hes. apply (dl_held0 u m a es); [done|by apply Hup|done|done].
  - intros u m es Hm Hu. destruct (Hne m Hm) as [H1 H2]. rewrite Hsp. apply (dl_gone0 u m es); [done|by apply Hup].
  - intros u v m a b Hm Hu Hv. destruct (Hne m Hm) as [H1 H2]. apply (dl_alone0 u v m a b); [done|by apply Hup..].
Qed.

Lemma puts_alone s u n : lockInv s -> n ∉ sd_faulty s -> forall es a, sd_ups s !! u = Some (n, a) -> at_work a = true -> sd_spools s !! n = Some (SpoolOf es) ->
  forall v b, v <> u -> sd_ups s !! v = Some (n, b) -> at_puts b = false.
Proof.
  intros I Hn es a Hu Ha Hes v b Hne Hv. destruct b; try done. exfalso. apply Hne. eapply (lk_exclusive (sd_locks s) n); by eapply (dl_held _ I).
Qed.

Lemma upstep_lock u n s at_ s' : dirInv s -> lockInv s -> sd_ups s !! u = Some (n, at_) -> upstep u n s at_ s' -> lockInv s'.
Proof.
  intros D I Hu Hs. destruct Hs as [l Hl| |Hg| |d Hd Hj|es Hd|e todo gone st there ok st' Hp|todo gone st st' Hst Hnh|gone st Hq1 Hq2| | | |].
  - apply lock_up; [done| | |done|done].
    + intros m v _ Hh. apply (lk_try_others _ _ _ _ _ _ Hl). by left.
    + intros _ _ es _. by apply (lk_try_holds _ _ _ _ Hl).
  - by apply lock_up_same.
  - apply lock_release; [done|done|]. intros _ _ es. congruence.
  - by apply lock_release.
  - by apply lock_release.
  - apply lock_up_same; [done|by exists URead|done|]. intros Hn _. by eapply puts_alone.
  - apply lock_up_same; [done|by eexists|done|]. intros Hn _ v b Hne Hv. destruct b; try done. exfalso. apply Hne. by eapply (dl_alone _ I).
  - apply lock_up_same; [done|by eexists|done|]. intros Hn _ v b Hne Hv. destruct b; try done. exfalso. apply Hne. by eapply (dl_alone _ I).
  - pose proof (lock_release s u n URemove I eq_refl) as I'. destruct I'; [done|]. by split.
  - apply lock_up_same; [|done| |done].
    + rewrite <- (set_locks_same s) at 2. apply lock_change; [done| |done]. intros m es Hm. by apply lookup_delete_Some in Hm as [_ Hm].
    + intros _ _ es. cbn. by rewrite lookup_delete_eq.
  - apply (lock_faulty s _ n); [done..|]. intros v m a Hne. cbn. rewrite lookup_insert_Some. by intros [[_ [= <- _]]|[_ Hv]].
  - assert (I' : lockInv (set_locks (lk_remove n (sd_locks s)) s)).
    { apply (lock_change s (sd_spools s) (lk_remove n (sd_locks s))) in I as I'; [by destruct I'|done|]. intros m v es Hf Hm Hh. apply lk_remove_spec. split; [done|].
      intros ->. by eapply (dl_gone _ I). }
    by apply lock_up_same.
  - by apply lock_up_same.
Qed.

Lemma hstep_lock s s' : dirInv s -> lockInv s -> hstep s s' -> lockInv s'.
Proof.
  intros D I [n es Hn|n d Hn Hd|u n Hn Hu|u n at_ s1 Hu Hs|u n at_ Hu|n Hn|n|n Hn|u n d l Hn Hd Hl Hu].
  - pose proof I as []. split; cbn; [| |done].
    + intros u m a es' Hf Hu Ha. rewrite lookup_insert_Some. intros [[-> _]|[_ Hm]]; [|eauto]. destruct Hn. by eapply (di_ups _ D).
    + intros u m es' Hf Hu. rewrite lookup_insert_Some. intros [[-> _]|[_ Hm]]; [|by eapply dl_gone0]. destruct Hn. by eapply (di_ups _ D).
  - pose proof (lock_change s (<[n := d]> (sd_spools s)) (sd_locks s) I) as I'. destruct I' as []; [|done|by split].
    intros m es. rewrite lookup_insert_Some. intros [[-> ->]|[_ Hm]]; [by destruct Hd|done].
  - by apply lock_up_same.
  - by eapply upstep_lock.
  - by apply lock_release.
  - apply (lock_change s (sd_spools s) (lk_remove n (sd_locks s))) in I as I'; [by destruct I'|done|]. intros m v es Hf Hm Hh. apply lk_remove_spec. split; [done|]. congruence.
  - apply (lock_faulty s _ n); [done..| |done]. intros m v Hne Hh. by apply lk_remove_spec.
  - rewrite <- (set_locks_same s) at 2. apply lock_change; [done| |done]. intros m es Hm. by apply lookup_delete_Some in Hm as [_ Hm].
  - change (set_up u n ULock (release u (set_locks l s))) with (set_up u n ULock (set_locks (lk_unlock u l) s)). apply lock_up; [done| |done|done|done].
    intros m v Hne Hh. apply lk_unlock_spec. split; [|done]. apply (lk_try_others _ _ _ _ _ _ Hl). by left.
Qed.

(** *** A spool that is left alone is worked off *)

(** A step of a backend that drains. *)
Definition dstep (st st' : store) : Prop := ustep key st st' /\ us_handed st' = us_handed st.

Lemma store_drains : forall k (st : store), (length (us_prep st) + length (us_queue st) <= k)%nat -> exists st', rtc (dstep) st st' /\ us_prep st' = [] /\ us_queue st' = [].
Proof using Type.
  intros k. induction k as [|k IH]; intros st Hk.
  { exists st. split; [done|]. destruct (us_prep st), (us_queue st); cbn in Hk; try lia. done. }
  destruct (us_prep st) as [|j js] eqn:Hj.
  - destruct (us_queue st) as [|r rs] eqn:Hq; [by exists st|].
    pose proof (u_send key st [r] rs false PNoAnswer (fun _ => None) Hq ltac:(done) ltac:(cbn; unfold WebGet.batchMaxKeys; lia)) as Hs.
    destruct (IH (sendBatchPut false [r] PNoAnswer (fun _ => None) (set_queues (us_prep st) rs st))) as (st' & Hr & Hd); [cbn; rewrite Hj; cbn in Hk |- *; lia|]. exists st'. split; [eapply rtc_l; [by split|exact Hr]|done].
  - pose proof (u_prepare key st [] j js false false None (fun _ => None) false None Hj) as Hs.
    assert (Hkeep : forall x : store, us_prep (prepare false false None (fun _ => None) false None j x) = us_prep x /\ us_queue (prepare false false None (fun _ => None) false None j x) = us_queue x /\
      us_handed (prepare false false None (fun _ => None) false None j x) = us_handed x).
    { intros x. unfold prepare. repeat case_match; done. }
    destruct (Hkeep (set_queues ([] ++ js) (us_queue st) st)) as (H1 & H2 & H3).
    destruct (IH (prepare false false None (fun _ => None) false None j (set_queues ([] ++ js) (us_queue st) st))) as (st' & Hr & Hd).
    { rewrite H1, H2. cbn in Hk |- *. lia. }
    exists st'. split; [eapply rtc_l; [by split|exact Hr]|done].
Qed.

Lemma work_steps u n todo gone (st st' : store) : rtc dstep st st' -> forall s, sd_ups s !! u = Some (n, UPuts todo gone st) ->
  exists s', rtc hstep s s' /\ sd_ups s' !! u = Some (n, UPuts todo gone st') /\ sd_spools s' = sd_spools s /\ sd_locks s' = sd_locks s /\ (forall v, v <> u -> sd_ups s' !! v = sd_ups s !! v).
Proof using Type.
  induction 1 as [st|st1 st2 st3 [Hs Hnh] _ IH]; intros s Hu; [by exists s|]. destruct (IH (set_up u n (UPuts todo gone st2) s)) as (s' & Hr & Hu' & Hsp & Hl & Ho); [by apply lookup_insert_eq|].
  exists s'. split; [|split_and!; [done..|intros v Hv; rewrite (Ho v Hv); by apply lookup_insert_ne]]. eapply rtc_l; [|exact Hr]. eapply h_up; [exact Hu|]. by apply u_work.
Qed.

Lemma offer_steps u n todo : forall gone st s, sd_ups s !! u = Some (n, UPuts todo gone st) ->
  exists s' gone' st', rtc hstep s s' /\ sd_ups s' !! u = Some (n, UPuts [] gone' st') /\ sd_spools s' = sd_spools s /\ sd_locks s' = sd_locks s /\ (forall v, v <> u -> sd_ups s' !! v = sd_ups s !! v).
Proof using Type.
  induction todo as [|e todo IH]; intros gone st s Hu; [by exists s, gone, st|]. destruct (spool_put true e st) as [ok st'] eqn:Hp.
  destruct (IH (if ok then gone else e :: gone) st' (set_up u n (UPuts todo (if ok then gone else e :: gone) st') s)) as (s' & gone' & st'' & Hr & Hu' & Hsp & Hl & Ho); [by apply lookup_insert_eq|].
  exists s', gone', st''. split; [|split_and!; [done..|intros v Hv; rewrite (Ho v Hv); by apply lookup_insert_ne]]. eapply rtc_l; [|exact Hr]. eapply h_up; [exact Hu|]. by eapply u_offer.
Qed.

Lemma spool_worked_off s n es : sd_spools s !! n = Some (SpoolOf es) -> (forall x, ~ lk_holds (sd_locks s) n x) ->
  exists s', rtc hstep s s' /\ sd_spools s' !! n = None /\ n ∈ (sd_finished s').*1.
Proof.
  intros Hes Hfree. set (u := fresh (dom (sd_ups s))).
  assert (Hu : sd_ups s !! u = None) by (apply not_elem_of_dom, is_fresh). destruct (lk_free (sd_locks s) n u Hfree) as [l Hl].
  set (s1 := set_up u n ULock (release u (set_locks l s))).
  assert (Hfree1 : forall x, ~ lk_holds (sd_locks s1) n x).
  { intros x [Hx Hne]%lk_unlock_spec. apply (lk_try_others _ _ _ _ _ _ Hl) in Hx as [Hx|[_ ->]]; [by apply (Hfree x)|done]. }
  destruct (lk_free (sd_locks s1) n u Hfree1) as [l2 Hl2]. set (s2 := set_up u n URead (set_locks l2 s1)). set (s3 := set_up u n (UPuts es [] newStore) s2).
  assert (H13 : rtc hstep s s3).
  { eapply rtc_l; [by eapply (h_sweep_start s u n _ l)|]. eapply rtc_l; [eapply (h_up s1 u n ULock); [apply lookup_insert_eq|by apply u_lock]|].
    apply rtc_once. eapply (h_up s2 u n URead); [apply lookup_insert_eq|]. by apply u_start. }
  destruct (offer_steps u n es [] newStore s3) as (s4 & gone & st & H34 & Hu4 & Hsp4 & _); [apply lookup_insert_eq|].
  destruct (store_drains _ st ltac:(done)) as (st' & Hdr & Hp1 & Hp2). destruct (work_steps u n [] gone st st' Hdr s4 Hu4) as (s5 & H45 & Hu5 & Hsp5 & _).
  set (s6 := finish n gone st' (set_up u n URemove (release u s5))).
  exists (set_up u n URemoveLock (set_spools (delete n (sd_spools s6)) s6)). split; [|split; [apply lookup_delete_eq|by left]].
  etrans; [exact H13|]. etrans; [exact H34|]. etrans; [exact H45|]. eapply rtc_l; [eapply (h_up s5 u n _ s6); [exact Hu5|by apply u_closed]|].
  apply rtc_once. eapply (h_up s6 u n URemove); [apply lookup_insert_eq|apply u_remove].
Qed.

Lemma empty_dir locks : dirInv (SpoolDir ∅ locks ∅ ∅ ∅ ∅ []).
Proof.
  split; cbn [sd_ups sd_spools sd_written sd_used sd_finished]; intros *; rewrite ?lookup_empty; try done.
  - by intros [[x Hx]|[x Hx]].
  - intros H. by apply not_elem_of_nil in H.
Qed.

Lemma empty_lock locks : lockInv (SpoolDir ∅ locks ∅ ∅ ∅ ∅ []).
Proof. split; cbn [sd_ups sd_spools]; intros *; by rewrite ?lookup_empty. Qed.

(** C25. What a build hands off is attempted.  However many builds, sweeps and
    uploaders there are and wherever they die: a spool that was written is
    still there as written, or an uploader went through all of it and drained its
    backend, so that for each entry that names an action its body was gone, or its
    upload was answered, refused, given up or sent and failed there (up to the bits
    of a hash the key set keeps).  No two uploaders are at the same spool unless its
    removal failed or a sweep could not stat it; and a spool whose lock is free can
    be worked off from any state, starting with the sweep. *)
Theorem spool_attempted locks s : rtc hstep (SpoolDir ∅ locks ∅ ∅ ∅ ∅ []) s ->
  (forall n es, sd_written s !! n = Some es -> sd_spools s !! n = Some (SpoolOf es) \/
    exists gone st, (n, (gone, st)) ∈ sd_finished s /\ Forall (tried_out gone st) es) /\
  (forall u v n a b, n ∉ sd_faulty s -> sd_ups s !! u = Some (n, a) -> sd_ups s !! v = Some (n, b) -> at_puts a = true -> at_puts b = true -> u = v) /\
  (forall n es, sd_spools s !! n = Some (SpoolOf es) -> (forall x, ~ lk_holds (sd_locks s) n x) ->
    exists s', rtc hstep s s' /\ sd_spools s' !! n = None /\ n ∈ (sd_finished s').*1).
Proof.
  intros Hr. assert (Hi : dirInv s /\ lockInv s).
  { revert s Hr. apply (rtc_ind_r (fun s => dirInv s /\ lockInv s)).
    - split; [apply empty_dir|by apply empty_lock].
    - intros x y _ Hs [D I]. split; [by eapply hstep_dir|by eapply hstep_lock]. }
  destruct Hi as [D I]. split_and!; [|apply (dl_alone _ I)|intros; by eapply spool_worked_off].
  intros n es Hw. destruct (di_kept _ D n es Hw) as [?|Hin]; [by left|right]. apply list_elem_of_fmap in Hin as ([m [gone st]] & -> & Hin).
  exists gone, st. split; [done|]. destruct (di_finished _ D _ _ _ Hin) as (es' & Hw' & Hf). cbn in Hw. congruence.
Qed.

End handoff.


(** ** Runs *)

(** Locks as a table of who holds which name. *)
#[export] Instance gmap_locks : LockOps (gmap bytes nat) := {
  lk_try u n l := match l !! n with None => Some (<[n := u]> l) | Some _ => None end;
  lk_unlock u l := filter (fun nv => nv.2 <> u) l;
  lk_remove n l := delete n l;
  lk_holds l n u := l !! n = Some u
}.

#[export] Instance gmap_lock_laws : LockLaws (gmap bytes nat).
Proof.
  split; cbn.
  - intros l n u v. congruence.
  - intros l n u Hf. destruct (l !! n) as [x|] eqn:Hn; [by destruct (Hf x)|by eexists].
  - intros l n u l'. destruct (l !! n) as [x|] eqn:Hn; [done|]. intros [= <-]. split; [apply lookup_insert_eq|done].
  - intros l n u l' m x. destruct (l !! n) as [y|] eqn:Hn; [done|]. intros [= <-]. rewrite lookup_insert_Some. split.
    + intros [[-> ->]|[_ Hm]]; [by right|by left].
    + intros [Hm|[-> ->]]; [|by left]. right. split; [|done]. intros ->. congruence.
  - intros l u n x. rewrite map_lookup_filter_Some. done.
  - intros l m n x. rewrite lookup_delete_Some. split; intros [H1 H2]; (split; [done|congruence]).
Qed.

Abbreviation demoDir := (@spoolDir (gset bytes) (gset bytes) (gmap bytes nat)).

Definition demoSpool : bytes := str "1-a.json".
Definition demoEntry : spoolEntry := SpoolEntry (hex_encode (replicate 32 3)) (str "out") [] (Some (str "body")) false.
Definition noSpools : demoDir := SpoolDir ∅ ∅ ∅ ∅ ∅ ∅ [].
Definition spooled : demoDir := writeSpool demoSpool [demoEntry] noSpools.

Lemma spool_attempted_witness : sd_spools spooled !! demoSpool = Some (SpoolOf [demoEntry]) /\
  exists s', rtc (hstep id) spooled s' /\ sd_spools s' !! demoSpool = None /\ demoSpool ∈ (sd_finished s').*1.
Proof.
  assert (Hr : rtc (hstep id) noSpools spooled) by (apply rtc_once, h_write; set_solver).
  split; [apply lookup_insert_eq|]. destruct (spool_attempted id ∅ spooled Hr) as (_ & _ & Hw).
  apply (Hw demoSpool [demoEntry]); [apply lookup_insert_eq|]. intros x Hx. done.
Defined.

(** An uploader gives up the lock before it removes the spool.  Another that
    locks it in between offers every entry once more, and finds nothing to
    remove at the end. *)
Example spool_runs_twice : exists s, rtc (hstep id) spooled s /\
  (exists todo gone st, sd_ups s !! 2%nat = Some (demoSpool, UPuts todo gone st) /\ todo = [demoEntry]) /\ sd_spools s !! demoSpool = None /\ demoSpool ∈ (sd_finished s).*1.
Proof.
  set (s1 := set_up 1 demoSpool (UPuts [demoEntry] [] newStore) (set_up 1 demoSpool URead (set_locks {[demoSpool := 1%nat]} (set_up 1 demoSpool ULock spooled)))).
  assert (H01 : rtc (hstep id) spooled s1).
  { eapply rtc_l; [apply (h_start id spooled 1 demoSpool); [set_solver|done]|]. eapply rtc_l; [eapply h_up; [apply lookup_insert_eq|by apply u_lock]|].
    apply rtc_once. eapply h_up; [apply lookup_insert_eq|]. apply u_start, lookup_insert_eq. }
  destruct (offer_steps id 1 demoSpool [demoEntry] [] newStore s1) as (s2 & gone & st & H12 & Hu2 & Hsp2 & Hl2 & Ho2); [apply lookup_insert_eq|].
  destruct (store_drains id _ st ltac:(done)) as (st' & Hdr & Hp1 & Hp2).
  destruct (work_steps id 1 demoSpool [] gone st st' Hdr s2 Hu2) as (s3 & H23 & Hu3 & Hsp3 & Hl3 & Ho3).
  set (s4 := finish demoSpool gone st' (set_up 1 demoSpool URemove (release 1 s3))).
  assert (Hsp4 : sd_spools s4 !! demoSpool = Some (SpoolOf [demoEntry])).
  { change (sd_spools s3 !! demoSpool = Some (SpoolOf [demoEntry])). rewrite Hsp3, Hsp2. apply lookup_insert_eq. }
  assert (Hl4 : sd_locks s4 = ∅).
  { change (lk_unlock 1 (sd_locks s3) = (∅ : gmap bytes nat)). rewrite Hl3, Hl2. vm_compute. reflexivity. }
  set (s5 := set_up 2 demoSpool ULock (release 2 (set_locks {[demoSpool := 2%nat]} s4))). set (s6 := set_up 2 demoSpool URead (set_locks {[demoSpool := 2%nat]} s5)).
  set (s7 := set_up 2 demoSpool (UPuts [demoEntry] [] newStore) s6).
  assert (Hl5 : lk_try 2 demoSpool (lk_unlock 2 ({[demoSpool := 2%nat]} : gmap bytes nat)) = Some {[demoSpool := 2%nat]}) by (vm_compute; reflexivity).
  assert (H37 : rtc (hstep id) s3 s7).
  { eapply rtc_l; [eapply (h_up id s3 1 _ _ s4); [exact Hu3|by apply u_closed]|].
    eapply rtc_l; [eapply (h_sweep_start id s4 2 demoSpool); [exact Hsp4|done|rewrite Hl4; reflexivity|]|].
    { change (<[1%nat := (demoSpool, URemove)]> (sd_ups s3) !! 2%nat = None). rewrite lookup_insert_ne, Ho3, Ho2 by done. done. }
    eapply rtc_l; [eapply (h_up id s5 2 demoSpool ULock s6); [apply lookup_insert_eq|apply (u_lock id 2 demoSpool s5); exact Hl5]|].
    apply rtc_once. eapply (h_up id s6 2 demoSpool URead s7); [apply lookup_insert_eq|]. apply (u_start id 2 demoSpool s6). exact Hsp4. }
  exists (set_up 1 demoSpool URemoveLock (set_spools (delete demoSpool (sd_spools s7)) s7)). split_and!.
  - etrans; [exact H01|]. etrans; [exact H12|]. etrans; [exact H23|]. etrans; [exact H37|]. apply rtc_once. eapply (h_up id s7 1 demoSpool URemove); [|apply u_remove].
    change (<[2%nat := (demoSpool, UPuts [demoEntry] [] newStore)]> (<[2%nat := (demoSpool, URead)]> (<[2%nat := (demoSpool, ULock)]> (<[1%nat := (demoSpool, URemove)]> (sd_ups s3)))) !! 1%nat = Some (demoSpool, URemove)).
    do 3 (rewrite lookup_insert_ne; [|discriminate]). apply lookup_insert_eq.
  - exists [demoEntry], [], newStore. split; [|reflexivity].
    change (<[1%nat := (demoSpool, URemoveLock)]> (<[2%nat := (demoSpool, UPuts [demoEntry] [] newStore)]> (sd_ups s6)) !! 2%nat = Some (demoSpool, UPuts [demoEntry] [] newStore)).
    rewrite lookup_insert_ne; [|discriminate]. apply lookup_insert_eq.
  - apply lookup_delete_eq.
  - by left.
Qed.
